(* ===== verification/_CoqProject ===== *)
-Q . S2P
Prelude.v
Dma.v
Aes.v
Gicv2m.v
Bdif.v
Dirty.v
DirtyPasses.v
Ldst.v
Cfg.v
Hvc.v
Powerctl.v
Psci.v
Machine.v
Shim.v
PageViews.v
PageTable.v
Paging.v
Runs.v
GuestRam.v
GuestRamMap.v
RangeSet.v
Coverage.v
Content.v
Access.v
Depend.v
Ready.v
Publish.v
Pipelines.v
Wire.v
Fifo.v
Packets.v
Session.v
Namespace.v
Heaps.v
Retire.v
Lifecycle.v
LifecycleContent.v
LifecycleOps.v
