(* ===== verification/Prelude.v ===== *)
(** Verification of the Orchard virtual machine.

    Orchard is a fork of QEMU (src/qemu) that runs Apple's virtual machine on other
    hosts, with a GPU device of its own in Rust (src/reims-vgpu).  This library models, in
    Rocq, the parts of both that the fork adds or depends on most, and proves what makes
    them correct.

    * The parts and how they interact

    The board (hw/vmapple/vmapple.c) creates the CPUs and devices, places them in the
    memory map and wires their interrupts.  The guest reads its parameters from the
    configuration region, loads its first data through the back-door block device,
    has data deciphered by the AES engine, and takes message interrupts through the
    GICv2m frame.  Calls of the guest to the hypervisor arrive at one place, the
    PSCI conduit: the board's handler sees them first (pointer-authentication
    services and a device-tree correction), PSCI handles the rest and powers cores
    on and off through work queued on the target core.  Where the host cannot
    describe a faulting access, its load or store is emulated.  The GPU learns which
    guest pages changed from the dirty-page tracker, where guest RAM lies in the process
    from a walk over the memory map, and reaches scattered guest pages through views
    its front end maps and releases.

    The GPU device is a set of Rust crates behind that front end.  A packet the guest
    writes to a channel is classed by its opcode and its payload decoded; a task's
    addresses are resolved through page tables in guest memory and bound to imports of
    guest RAM.  A packet about objects becomes a lifecycle operation on the owner of names,
    heaps and content; GPU work becomes a transaction with the accesses it makes, which
    the owner resolves to memory.  The session gives every transaction its place: it
    leases the pipelines it binds, the hazard graph finds the earlier work it may not
    overtake, the scheduler holds it until that work, its stamps and its pipelines are
    there, and the publisher lets completion words out in order.  Native objects wait
    in the retirement queue for the GPU to pass them.

    * Files

    - [Prelude] (this file): record update, fixed-width integers and bytes, C
      strings, lists, the tactics ([divlia], [reflect_bools], [decide_done]) and the
      lemmas the other files share.
    - [Dma]: guest memory as devices see it (dma_memory_read and dma_memory_write of
      include/system/dma.h), as the class [Dma] with laws [DmaLaws], which hold at every
      address, and [RamLaws], which hold of the ranges that are RAM, and the flat
      memory [Ram] as an instance.
    - [Aes]: hw/vmapple/aes.c; state [AESState], register accesses [aes1_read],
      [aes1_write], the command FIFO and its commands.  The crypto library is the
      class [QCrypto].
    - [Gicv2m]: hw/intc/arm_gicv2m.c.
    - [Bdif]: hw/vmapple/bdif.c; the block requests ([vblk_cmd]) and the USB queues
      ([vusb_cmd], [vusb_try_deliver], the chardev callbacks).  Block back ends and
      the character device are the classes [Blk] and [Chr].
    - [Dirty]: hw/display/reims-vgpu-dirty.c; [ReimsVgpuDirty] over the part of the
      memory core it uses.  The four passes of a harvest are definitions of
      their own.  [DirtyPasses] runs them one at a time, with guest stores and calls of the
      device thread between any two ([Tracker], [harvest_advance]).
    - [Ldst]: target/arm/emulate-ldst.c, bit fields from include/qemu/bitops.h.
    - [Cfg]: hw/vmapple/cfg.c; the structure is laid out byte by byte.
    - [Hvc]: hw/vmapple/hvc.c over [hv_world].
    - [Powerctl]: target/arm/arm-powerctl.c with the parts of target/arm/cpu.c,
      internals.h and cpu-common.c it uses: reset, firmware emulation, the work queue,
      sleeping and waking up.  Each function takes whether its caller holds the global lock,
      and is [None] where an assertion that it does would fail.
    - [Psci]: target/arm/tcg/psci.c and target/arm/smccc.c, for every board with a
      handler (class [Smccc], laws [SmcccLaws]); the Apple board is the instance.  The
      global lock (system/cpus.c) is part of the state: [conduit_call] takes it around a call
      as accel/tcg/cpu-exec.c does, and [vcpu_events] around queued work as
      accel/tcg/tcg-accel-ops-mttcg.c does.
    - [Machine]: hw/vmapple/vmapple.c on top of all of these.
    - [Shim]: guest_ram_regions of hw/display/reims-vgpu-shim.c over the flat view of
      system/memory.c.
    - [PageViews]: map_pages, unmap_pages and the teardown of their views in
      hw/display/reims-vgpu-mmio.c, the branch for Linux hosts, over the flat view of
      [Shim] and the RAM blocks of system/physmem.c.  The kernel's mmap is the class
      [HostOS] with laws [HostOSLaws].

    The files of the GPU device; crates are under src/reims-vgpu/crates:
    - [PageTable]: mem.rs and page_table.rs of reims-vgpu-wire; one walk, the batched
      walk of a run, and the builder, over the class [GuestMemory].
    - [Paging], [Runs]: resolve.rs and span.rs, runs.rs and regions.rs of
      reims-vgpu-paging.
    - [GuestRam], [GuestRamMap]: reims-vgpu-memory, and runtime/guest_ram_map.rs of
      reims-vgpu with qemu/host_ops.rs, down to the walk of [Shim].
    - [RangeSet], [Coverage], [Content]: range_set.rs, coverage.rs and content.rs of
      reims-vgpu-core.  The files from here on model that crate unless they say otherwise.
    - [Access], [Depend], [Ready], [Publish], [Pipelines]: access.rs, depend.rs, ready.rs,
      publish.rs and pipeline.rs, with the counters of identity.rs.
    - [Wire], [Fifo], [Packets]: the record stream of reims-vgpu-wire, the payloads of
      fifo.rs and the packet ledger of packets.rs in reims-vgpu-protocol, the classifier of
      transaction.rs and the control packets of control.rs.
    - [Session]: session.rs, composed from the services above.
    - [Namespace], [Heaps], [Retire]: namespace.rs, heap.rs and retire.rs.
    - [Lifecycle]: the owner and its operations, of lifecycle.rs, composed from [Namespace],
      [Heaps] and [Content]; operations run in a monad with state, refusals and panics.
    - [LifecycleContent]: what a synchronise of that owner delivers.
    - [LifecycleOps]: the joins of lifecycle.rs from a packet's bytes to an operation, with
      destroy.rs of reims-vgpu-protocol.

    * Conventions

    A C or Rust integer of w bits is a [Z], wrapped where the source's arithmetic can leave
    its range ([u8] to [u64], [s32], [s64]).  Structures are records, and an update is [r <|
    field := v |>].  Handlers are functions from state to state; an index out of bounds, a
    failed assertion or an access through a pointer that cannot be formed is [None], so a
    theorem that a definition returns [Some] is a safety theorem.  A Rust [Result] is a sum
    with the refusal on the right, a panic is [None], a [HashMap] is a [gmap] and a [Vec] a
    list; where the order in which a [HashMap] is walked could show, the source sorts, and
    so does the model.  Code outside the sources is a class of operations with the laws the
    program relies on, and each class has a concrete instance.  State machines are event
    lists or inductive step relations with reachability.

    * What the theorems show

    - Each device's operations keep its invariant and never index out of bounds, for
      every sequence of accesses, resets and character-device events ([aes_run_safe],
      [bdif_run_conserves]); and they
      compute what they are for: a cipher job pushed word by word ([aes_job]), the frames of
      each stream between two restarts of the channel
      delivered in order and exactly once ([bdif_frames_in_order], [vusb_handshake]),
      a full channel drains ([vusb_full_drains]), blocks read back as written and
      nothing else touched ([vblk_write_read_back], [vblk_frame]).
    - The tracker reports a store to a tracked page at the first harvest that syncs after it
      ([dirty_write_reported]), except a store that falls between the stamping of its page and
      the clear of it ([dirty_clear_race]); its merged clear pass equals the page by
      page one ([dirty_clear_exact]), a set becomes readable ([dirty_arming]), and the
      registration and query calls are exact.
    - The decoder accepts exactly the allocated encodings and one that is not, a no-allocate
      LDPSW ([decode_exact]); emulation
      changes what the instruction changes and nothing on failure ([emulate_effect],
      [push_pop]), and a load's register gets the bytes read, extended as the instruction
      says ([load_value]).
    - The guest sees its configuration at fixed offsets ([cfg_guest_view]); the
      device-tree scan equals its reference ([fix_dt_timebase_exact]); secondary cores
      get the boot core's keys ([hvc_secondary_keys]).
    - No assertion of the PSCI and power-control paths, those about the lock included, can
      fail in a reachable state ([psci_safe]), and a secondary core comes up as requested, across [Psci],
      [Powerctl] and [Hvc] ([psci_secondary_boot]).
    - The machine's regions are disjoint ([machine_map]), every interrupt line drives the
      input meant for it and nothing else, and message interrupts arrive ([machine_irqs]), initialisation
      succeeds exactly when it should ([machine_init_exact]), and after reset it is
      ready to boot ([machine_boots]).
    - The spans reported to the GPU translate every guest address as the memory map does, with
      all of the RAM the guest can store into and, besides, only RAM that is read-only through
      an alias or a container ([guest_ram_regions_exact]); a view shows exactly the pages asked for, or the call
      changes nothing ([map_pages_exact]); releasing restores what was there
      ([map_unmap_pages]), and no sequence of calls touches the mapping of guest RAM
      ([page_views_safe]).
    - The batched page walk answers as one walk per page ([walk_run_exact]); the chunks of a
      span tile it ([span_chunks_exact]); a bound window reaches, up to the end
      of its page list, the host byte of every guest byte ([window_bound]), through the shim's walk, and a reference does not outlive
      its import ([stale_reference_refused]).
    - The content ledger calls no stale bytes fresh ([ledger_coherent]) while copies run and
      are recorded in the orders that [Content.allowed] describes, over sets of
      ranges that are the sets of bytes they stand for ([range_set_bytes]);
      [late_copy_resurrects] is the order it leaves out, in which the ledger does.
    - Every decoder of a payload is total and inverse to the layout, and its refusals are
      exact, but for a record that declares too few bytes ([fifo_decode_exact]), and a walk over any buffer of records ends ([stream_walk_exact]).  The packet tables
      name the same packets ([packet_tables_agree]).
    - Each service of the session equals a simple reference: the hazard graph a scan of all
      live accesses ([hazards_exact]), with an edge wherever bytes are shared,
      unless through images that place the byte apart ([requires_edge_sound]); the scheduler a machine of remaining waits
      ([scheduler_refines]); the publisher a ledger of positions ([publication_exact]); the
      pipeline table one state machine per pipeline ([pipeline_table_exact]).
    - Composed, over every sequence of calls: work that clashes is handed out only after the
      earlier work has ended ([conflicting_work_ordered]), nothing is forgotten
      ([work_not_forgotten]), a call panics exactly when it names a transaction that is not
      in flight ([session_panics_exactly]), and a lost device strands what
      was in flight and leaves nothing owed ([device_loss_strands]).
    - Names, heaps and native objects each release what they hold exactly once and at the
      right moment ([teardown_exact], [heap_storage_exact], [retirement_exact]), and windows
      of a heap alias exactly when they overlap ([heap_windows_exact]).
    - The owner over all three keeps them in step ([lifecycle_exact]) and resolves accesses
      so that the hazard rule orders what meets ([lifecycle_access_ordered]); a synchronise
      delivers what nobody has written since, and discards only what the guest also has
      ([synchronize_and_discard_delivers]); and from the bytes of a packet to the
      names afterwards, the device does what the packet says ([packet_operation_exact],
      [packet_operation_applies]).
    - Some lemmas and theorems record behaviour that differs from what the code or its
      comments intend, for instance [vblk_fetch_failure_writes_stack_address],
      [dirty_skipped_harvest_hides_write], [aes_invalid_command_wedges], [set_cpu_on_twice],
      [insert_last_byte], [late_acquire_tears_twice], [aliased_images_unordered],
      [window_past_pages], [heap_query_short_descriptor], [no_allocate_ldpsw],
      [inherited_readonly_ignored] and [late_copy_resurrects].

    * Fuel and bounds

    Loops that are not structural take fuel, and each is proved to finish within it.
    [timebase_loop] takes the number of scanned positions: the match moves forward by at
    least one byte each time ([timebase_loop_total], [fix_dt_timebase_exact]).  [draw_pids]
    redraws random numbers until neither is zero, which no bound can promise, so its
    theorems take the position of the first good pair.  [chunk_from] takes one step per
    limit-sized chunk, [run_pieces] one per byte, [coalesce_from] one per page and one,
    [Wire.collect] one per byte and two, [Retire.drain] one per entry and one.  The
    session's theorems bound a run at fewer calls than its 64-bit counters count.  Wiring
    facts are checked for every machine size up to the class's maximum of 32 CPUs.

    * Not modelled

    The rest of the GPU's front ends (hw/display/reims-vgpu-mmio.c, reims-vgpu-pci.c,
    reims-vgpu-shim.c): registration, timers, console and input forwarding, byte access to
    guest memory, and the Darwin branch of map_pages.  Of the GPU device: its back ends on
    Metal and Vulkan, shader translation and the execution of GPU work, whose effects are
    those of libraries and hardware; exec.rs and resolve.rs, which turn each of some two
    hundred serializer operations into accesses; interpret.rs and schedule.rs, a serial
    interpreter and the comparison of other schedules with it, which stand beside the device
    as its oracle in tests; the views of single operations in the wire crate; presentation and queries; the prose of the ledgers, and the operation ledger
    of closure.rs but for the destroy rows; names for logs, and censuses.  A transaction of
    [Session] is what the session reads of it, and the resolver of mapping identifiers in
    [LifecycleOps] is an argument.  Also not modelled: mappings other threads of the process
    make between two calls of [PageViews], and how address_space_translate splits ranges
    that are not page aligned; apple-gfx, which wraps a closed framework of macOS;
    hw/vmapple/virtio-blk.c, whose behaviour is its parent class's;
    hw/vmapple/apple_vm_cpu.c, which registers a CPU type and its ID registers; the KVM and
    WHPX back ends beyond the load/store callback; the PL011, PL031, PL061, pvpanic, GPEX
    and USB devices of upstream QEMU; system registers that CPU reset and firmware emulation
    set and power control does not read; log and trace output; scripts.*)
From Stdlib Require Import Btauto.
From stdpp Require Export prelude strings gmap sorting.
#[global] Open Scope Z_scope.
#[global] Arguments Z.shiftr : simpl never.
#[global] Arguments Z.shiftl : simpl never.
#[global] Arguments Z.land : simpl never.
#[global] Arguments Z.lor : simpl never.
#[global] Arguments Z.testbit : simpl never.

(** ** Notations: record update *)

(** A record whose fields are updated one at a time carries its eta expansion;
    the setter of a field is read off that expansion by [build_setter]. *)
Class Settable (R : Type) := eta_expand : R → R.
Class Setter {R T : Type} (proj : R → T) := set_field : (T → T) → R → R.
Arguments set_field {R T} proj {_} _ _ /.

Ltac build_setter :=
  match goal with
  | |- @Setter ?R ?T ?proj =>
      let f := fresh "f" in
      let r := fresh "r" in
      unfold Setter; intros f r;
      let e := eval hnf in (eta_expand r) in
      let e := eval pattern (proj r) in e in
      match e with ?F _ => let t := eval cbv beta in (F (f (proj r))) in exact t end
  end.
#[export] Hint Extern 1 (Setter _) => build_setter : typeclass_instances.

Declare Scope orchard_scope.
Delimit Scope orchard_scope with orchard.
#[global] Open Scope orchard_scope.
Notation "r <| proj := v |>" := (set_field proj (λ _, v) r)
  (at level 1, left associativity, proj at level 0, v at level 200,
   format "r  <| proj  :=  v |>") : orchard_scope.

(** ** Machine integers

    A w-bit unsigned C integer is a [Z] in [0, 2^w); arithmetic is done in [Z]
    and brought back with [u8] .. [u64], as a C conversion to that type does. *)
Definition u8 (z : Z) : Z := z mod 0x100.
Definition u16 (z : Z) : Z := z mod 0x10000.
Definition u32 (z : Z) : Z := z mod 0x100000000.
Definition u64 (z : Z) : Z := z mod 0x10000000000000000.

(** Two's complement reinterpretation, as in a cast to int32_t or int64_t. *)
Definition s32 (z : Z) : Z :=
  let u := u32 z in if u <? 0x80000000 then u else u - 0x100000000.
Definition s64 (z : Z) : Z :=
  let u := u64 z in if u <? 0x8000000000000000 then u else u - 0x10000000000000000.

Definition is_u8 (z : Z) : Prop := 0 ≤ z < 0x100.
Definition is_u32 (z : Z) : Prop := 0 ≤ z < 0x100000000.
Definition is_u64 (z : Z) : Prop := 0 ≤ z < 0x10000000000000000.

#[export] Instance is_u8_dec z : Decision (is_u8 z).
Proof. unfold is_u8. apply _. Defined.
#[export] Instance is_u32_dec z : Decision (is_u32 z).
Proof. unfold is_u32. apply _. Defined.
#[export] Instance is_u64_dec z : Decision (is_u64 z).
Proof. unfold is_u64. apply _. Defined.

Definition UINT64_MAX : Z := 0xffffffffffffffff.

(** [BIT(nr)] of include/qemu/bitops.h. *)
Definition BIT (n : Z) : Z := Z.shiftl 1 n.

(** A C integer used as a condition. *)
Definition nz (z : Z) : bool := negb (z =? 0).

(** ** Little-endian byte strings *)
Fixpoint le_bytes (n : nat) (z : Z) : list Z :=
  match n with
  | O => []
  | S n => u8 z :: le_bytes n (Z.shiftr z 8)
  end.

Fixpoint le_val (bs : list Z) : Z :=
  match bs with
  | [] => 0
  | b :: bs => b + 256 * le_val bs
  end.

(** Words laid out in memory by a little-endian host. *)
Definition words_bytes (n : nat) (ws : list Z) : list Z := flat_map (le_bytes n) ws.

(** The characters of a C string constant, without the terminating NUL. *)
Definition str (s : string) : list Z := (λ c, Z.of_N (Ascii.N_of_ascii c)) <$> String.list_ascii_of_string s.

(** ** Slices of buffers *)
Definition slice {A} (i n : nat) (l : list A) : list A := take n (drop i l).
Definition splice {A} (i : nat) (xs l : list A) : list A :=
  take i l ++ xs ++ drop (i + length xs) l.

(** A copy out of, or into, an array: [None] when it would leave the array. *)
Definition slice_at {A} (i n : nat) (l : list A) : option (list A) :=
  if decide (i + n ≤ length l)%nat then Some (slice i n l) else None.
Definition splice_at {A} (i : nat) (xs l : list A) : option (list A) :=
  if decide (i + length xs ≤ length l)%nat then Some (splice i xs l) else None.

(** ** Tactics *)

(** Turns boolean comparisons of [Z] in hypotheses into propositions. *)
Ltac reflect_bools :=
  repeat match goal with
  | H : (_ && _)%bool = true |- _ => apply andb_true_iff in H as [? ?]
  | H : (_ || _)%bool = false |- _ => apply orb_false_iff in H as [? ?]
  | H : negb _ = true |- _ => apply negb_true_iff in H
  | H : negb _ = false |- _ => apply negb_false_iff in H
  | H : (_ =? _) = true |- _ => apply Z.eqb_eq in H
  | H : (_ =? _) = false |- _ => apply Z.eqb_neq in H
  | H : (_ <? _) = true |- _ => apply Z.ltb_lt in H
  | H : (_ <? _) = false |- _ => apply Z.ltb_ge in H
  | H : (_ <=? _) = true |- _ => apply Z.leb_le in H
  | H : (_ <=? _) = false |- _ => apply Z.leb_gt in H
  | H : (_ =? _)%nat = true |- _ => apply Nat.eqb_eq in H
  | H : (_ =? _)%nat = false |- _ => apply Nat.eqb_neq in H
  | H : (_ <? _)%nat = true |- _ => apply Nat.ltb_lt in H
  | H : (_ <? _)%nat = false |- _ => apply Nat.ltb_ge in H
  | H : nz _ = true |- _ => unfold nz in H
  | H : nz _ = false |- _ => unfold nz in H
  | H : is_true _ |- _ => unfold is_true in H
  end.

(** Case analysis on every [match] and [if] of the goal, closing what congruence
    closes. *)
Ltac split_cases := repeat (case_match; simplify_eq/=; try done).

(** Decides a closed proposition by running its decision procedure. *)
Ltac decide_done := refine (bool_decide_unpack _ _); vm_compute; exact I.

(** Linear arithmetic with division and remainder by constants. *)
Ltac divlia := unfold u8, u16, u32, u64 in *; Z.div_mod_to_equations; lia.

(** Bitwise identities of [Z], bit by bit. *)
Ltac zbits :=
  apply Z.bits_inj'; intros ? ?;
  rewrite ?Z.lxor_spec, ?Z.land_spec, ?Z.lor_spec, ?Z.ldiff_spec, ?Z.bits_0;
  rewrite ?Z.lnot_spec by assumption; btauto.

(** ** Lemmas on machine integers *)
Lemma u8_range z : is_u8 (u8 z).
Proof. by apply Z.mod_pos_bound. Qed.

Lemma u32_range z : is_u32 (u32 z).
Proof. by apply Z.mod_pos_bound. Qed.

Lemma u64_range z : is_u64 (u64 z).
Proof. by apply Z.mod_pos_bound. Qed.

Lemma u8_small z : is_u8 z → u8 z = z.
Proof. unfold is_u8, u8. apply Z.mod_small. Qed.

Lemma u32_small z : is_u32 z → u32 z = z.
Proof. unfold is_u32, u32. apply Z.mod_small. Qed.

Lemma u64_small z : is_u64 z → u64 z = z.
Proof. unfold is_u64, u64. apply Z.mod_small. Qed.

Lemma u64_add_l a b : u64 (u64 a + b) = u64 (a + b).
Proof. apply Zplus_mod_idemp_l. Qed.

Lemma u64_add_r a b : u64 (a + u64 b) = u64 (a + b).
Proof. apply Zplus_mod_idemp_r. Qed.

(** Masking with a non-negative mask. *)
Lemma land_range a m : 0 ≤ m → 0 ≤ Z.land a m ≤ m.
Proof.
  intros Hm. split; [apply Z.land_nonneg; auto|].
  assert (Z.ldiff m a + Z.land a m = m) as E.
  { rewrite Z.add_nocarry_lxor; zbits. }
  assert (0 ≤ Z.ldiff m a) by (apply Z.ldiff_nonneg; auto). lia.
Qed.

Lemma land_ones_mod a k : 0 ≤ k → Z.land a (2 ^ k - 1) = a mod 2 ^ k.
Proof. intros Hk. rewrite <- Z.land_ones by done. f_equal. rewrite Z.ones_equiv. lia. Qed.

Lemma lor_u32 a b : is_u32 a → is_u32 b → is_u32 (Z.lor a b).
Proof.
  unfold is_u32. intros [??] [??]. change 0x100000000 with (2 ^ 32) in *.
  assert (0 ≤ Z.lor a b) by (apply Z.lor_nonneg; lia). split; [done|].
  destruct (decide (Z.lor a b = 0)) as [->|]; [lia|].
  apply Z.log2_lt_pow2; [lia|]. rewrite Z.log2_lor by lia.
  assert (∀ x, 0 ≤ x < 2 ^ 32 → Z.log2 x < 32) as L.
  { intros x [? ?]. destruct (decide (x = 0)) as [->|]; [done|]. apply Z.log2_lt_pow2; lia. }
  apply Z.max_lub_lt; apply L; lia.
Qed.

(** ** Lemmas on byte strings *)
Lemma length_le_bytes n z : length (le_bytes n z) = n.
Proof. revert z; induction n as [|n IH]; intros z; simpl; by rewrite ?IH. Qed.

Lemma le_bytes_u8 n z : Forall is_u8 (le_bytes n z).
Proof. revert z; induction n; intros z; simpl; constructor; auto using u8_range. Qed.

Lemma le_val_bytes n z : le_val (le_bytes n z) = z mod 2 ^ (8 * Z.of_nat n).
Proof.
  revert z; induction n as [|n IH]; intros z; simpl le_val.
  { by rewrite Z.mul_0_r, Z.mod_1_r. }
  rewrite IH, Z.shiftr_div_pow2 by lia. unfold u8.
  replace (8 * Z.of_nat (S n)) with (8 + 8 * Z.of_nat n) by lia.
  rewrite Z.pow_add_r by lia.
  pose proof (Z.pow_pos_nonneg 2 (8 * Z.of_nat n)).
  change (2 ^ 8) with 256. rewrite Z.rem_mul_r by lia. done.
Qed.

Lemma le_val_range bs :
  Forall is_u8 bs → 0 ≤ le_val bs < 2 ^ (8 * Z.of_nat (length bs)).
Proof.
  induction 1 as [|b bs [??] ? IH]; simpl length; simpl le_val; [done|].
  replace (8 * Z.of_nat (S (length bs))) with (8 + 8 * Z.of_nat (length bs)) by lia.
  rewrite Z.pow_add_r by lia. change (2 ^ 8) with 256. lia.
Qed.

Lemma le_bytes_val bs : Forall is_u8 bs → le_bytes (length bs) (le_val bs) = bs.
Proof.
  induction 1 as [|b bs Hb ? IH]; [done|]. simpl length. cbn [le_bytes le_val]. f_equal.
  - unfold u8, is_u8 in *. rewrite Z.mul_comm, Z.mod_add by lia. by apply Z.mod_small.
  - rewrite Z.shiftr_div_pow2 by lia. change (2 ^ 8) with 256.
    rewrite Z.mul_comm, Z.div_add, Z.div_small by (unfold is_u8 in Hb; lia). done.
Qed.

Lemma length_words_bytes n ws : length (words_bytes n ws) = (n * length ws)%nat.
Proof.
  unfold words_bytes. induction ws as [|w ws IH]; simpl; [lia|].
  rewrite length_app, length_le_bytes, IH. lia.
Qed.

Lemma words_bytes_u8 n ws : Forall is_u8 (words_bytes n ws).
Proof.
  unfold words_bytes. induction ws; simpl; [constructor|].
  apply Forall_app; auto using le_bytes_u8.
Qed.

Lemma words_bytes_app n ws ws' : words_bytes n (ws ++ ws') = words_bytes n ws ++ words_bytes n ws'.
Proof. apply flat_map_app. Qed.

Lemma words_bytes_cons n w ws : words_bytes n (w :: ws) = le_bytes n w ++ words_bytes n ws.
Proof. done. Qed.

(** ** Lemmas on slices *)
Lemma length_splice {A} i (xs l : list A) :
  (i + length xs ≤ length l)%nat → length (splice i xs l) = length l.
Proof. intros. unfold splice. rewrite !length_app, length_take, length_drop. lia. Qed.

Lemma length_slice {A} i n (l : list A) :
  (i + n ≤ length l)%nat → length (slice i n l) = n.
Proof. intros. unfold slice. rewrite length_take, length_drop. lia. Qed.

Lemma slice_splice_eq {A} i n (xs l : list A) :
  n = length xs → (i + length xs ≤ length l)%nat → slice i n (splice i xs l) = xs.
Proof.
  intros -> ?. unfold slice, splice.
  rewrite drop_app_length' by (rewrite length_take; lia).
  by rewrite take_app_length.
Qed.

Lemma lookup_slice {A} i n (l : list A) k :
  (k < n)%nat → slice i n l !! k = l !! (i + k)%nat.
Proof. intros. unfold slice. by rewrite lookup_take_lt, lookup_drop by done. Qed.

Lemma lookup_slice_ge {A} i n (l : list A) k :
  (n ≤ k)%nat → slice i n l !! k = None.
Proof. intros. unfold slice. apply lookup_ge_None. rewrite length_take. lia. Qed.

Lemma lookup_splice_new {A} i (xs l : list A) k :
  (i + length xs ≤ length l)%nat → (i ≤ k < i + length xs)%nat →
  splice i xs l !! k = xs !! (k - i)%nat.
Proof.
  intros ??. unfold splice.
  rewrite lookup_app_r by (rewrite length_take; lia).
  rewrite length_take, lookup_app_l by lia. f_equal; lia.
Qed.

Lemma lookup_splice_old {A} i (xs l : list A) k :
  (i + length xs ≤ length l)%nat → (k < i ∨ i + length xs ≤ k)%nat →
  splice i xs l !! k = l !! k.
Proof.
  intros ? [?|?]; unfold splice.
  - rewrite lookup_app_l by (rewrite length_take; lia). by apply lookup_take_lt.
  - rewrite !lookup_app_r by (rewrite ?length_take; lia).
    rewrite lookup_drop, length_take. f_equal; lia.
Qed.

Lemma slice_splice_ne {A} i n j (xs l : list A) :
  (i + length xs ≤ length l)%nat →
  (j + n ≤ i ∨ i + length xs ≤ j)%nat →
  slice j n (splice i xs l) = slice j n l.
Proof.
  intros ? Hd. apply list_eq; intros k.
  destruct (decide (k < n)%nat).
  - rewrite !lookup_slice, lookup_splice_old by lia. done.
  - by rewrite !lookup_slice_ge by lia.
Qed.

Lemma slice_at_some {A} i n (l : list A) :
  (i + n ≤ length l)%nat → slice_at i n l = Some (slice i n l).
Proof. intros. unfold slice_at. by rewrite decide_True. Qed.

Lemma splice_at_some {A} i (xs l : list A) :
  (i + length xs ≤ length l)%nat → splice_at i xs l = Some (splice i xs l).
Proof. intros. unfold splice_at. by rewrite decide_True. Qed.

Lemma Forall_slice {A} (P : A → Prop) i n l : Forall P l → Forall P (slice i n l).
Proof. intros. by apply Forall_take, Forall_drop. Qed.

Lemma Forall_splice {A} (P : A → Prop) i xs l :
  Forall P xs → Forall P l → Forall P (splice i xs l).
Proof. intros. unfold splice. rewrite !Forall_app. auto using Forall_take, Forall_drop. Qed.

(** ** Hints *)
Create HintDb orchard discriminated.
#[export] Hint Resolve u8_range u32_range u64_range le_bytes_u8 words_bytes_u8 lor_u32
  Forall_slice Forall_splice : orchard.
Create Rewrite HintDb len.
#[export] Hint Rewrite length_le_bytes length_words_bytes @length_insert @length_app
  @length_take @length_drop @length_replicate : len.
Ltac len := autorewrite with len in *; simpl length in *; try lia.

(** ** Bit fields *)

(** A field of width [m] (a mask of low ones) at bit [k], extracted the C way. *)
Lemma field_range c m k :
  0 ≤ m → 0 ≤ k → 0 ≤ Z.shiftr (Z.land c (Z.shiftl m k)) k ≤ m.
Proof.
  intros Hm Hk. rewrite Z.shiftr_land, Z.shiftr_shiftl_l, Z.sub_diag, Z.shiftl_0_r by lia.
  by apply land_range.
Qed.

Lemma land_bit_clear c n : 0 ≤ n → Z.testbit c n = false → Z.land c (BIT n) = 0.
Proof.
  intros Hn Hb. apply Z.bits_inj'; intros j Hj. unfold BIT.
  rewrite Z.land_spec, Z.bits_0, Z.shiftl_spec by done.
  destruct (decide (j = n)) as [->|]; [by rewrite Hb|].
  destruct (decide (j < n)); [rewrite (Z.testbit_neg_r 1) by lia; apply andb_false_r|].
  rewrite (Z.bits_above_log2 1) by (simpl; lia). apply andb_false_r.
Qed.

Lemma testbit_above a k n : 0 ≤ a < 2 ^ k → k ≤ n → Z.testbit a n = false.
Proof.
  intros. destruct (Z.le_gt_cases 0 k); [|rewrite Z.pow_neg_r in *; lia].
  rewrite <- (Z.mod_small a (2 ^ k)) by done. apply Z.mod_pow2_bits_high; lia.
Qed.

Lemma shiftr_above a k n : 0 ≤ a < 2 ^ k → 0 ≤ k ≤ n → Z.shiftr a n = 0.
Proof.
  intros. rewrite Z.shiftr_div_pow2 by lia. apply Z.div_small.
  pose proof (Z.pow_le_mono_r 2 k n). lia.
Qed.

(** The field of [n] bits at [k], in place. *)
Lemma land_field_mask v k n : 0 ≤ k → 0 ≤ n → Z.land v ((2 ^ n - 1) * 2 ^ k) = ((v / 2 ^ k) mod 2 ^ n) * 2 ^ k.
Proof.
  intros Hk Hn. rewrite <- land_ones_mod, <- Z.shiftr_div_pow2, <- !Z.shiftl_mul_pow2 by done.
  apply Z.bits_inj'. intros i Hi. rewrite Z.land_spec, !Z.shiftl_spec by done.
  destruct (Z.lt_ge_cases i k).
  - rewrite !(Z.testbit_neg_r _ (i - k)) by lia. apply andb_false_r.
  - rewrite Z.land_spec, Z.shiftr_spec by lia. do 2 f_equal. lia.
Qed.

(** Two parts that share no bit. *)
Lemma lor_disjoint a b k : 0 ≤ k → 0 ≤ a < 2 ^ k → Z.lor a (b * 2 ^ k) = a + b * 2 ^ k.
Proof.
  intros Hk Ha. rewrite <- Z.lxor_lor, <- Z.add_nocarry_lxor; [done| |];
    (apply Z.bits_inj'; intros i Hi; rewrite Z.land_spec, Z.bits_0, <- Z.shiftl_mul_pow2, Z.shiftl_spec by done;
     destruct (Z.lt_ge_cases i k); [rewrite (Z.testbit_neg_r _ (i - k)) by lia; apply andb_false_r|];
     by rewrite (testbit_above a k i)).
Qed.

(** ** Searching a list *)
Lemma list_find_yes {A} (P : A → Prop) `{∀ x, Decision (P x)} x l :
  P x → list_find P (x :: l) = Some (0%nat, x).
Proof. intros. simpl. by rewrite decide_True. Qed.

Lemma list_find_no {A} (P : A → Prop) `{∀ x, Decision (P x)} x l :
  ¬ P x → list_find P (x :: l) = prod_map S id <$> list_find P l.
Proof. intros. simpl. by rewrite decide_False. Qed.
