(* ===== verification/Dma.v ===== *)
(** Guest memory as the devices see it.

    [Dma] is the interface of include/system/dma.h (dma_memory_read and
    dma_memory_write over an address space); the devices are written against it
    and never look inside the memory.  [DmaLaws] states what a component may rely
    on at every address: a transfer does not change the size of the caller's buffer, and
    reads bytes.  [RamLaws] states what holds of the ranges that are RAM, and not of device
    registers in the same address space: a successful write is what a later read returns, and
    it leaves disjoint bytes alone.
    [Ram] is one flat block of guest RAM, an instance that satisfies the laws. *)
From S2P Require Import Prelude.

(** MemTxResult of include/exec/memattrs.h. *)
Definition MEMTX_OK : Z := 0.
Definition MEMTX_ERROR : Z := BIT 0.
Definition MEMTX_DECODE_ERROR : Z := BIT 1.
Definition MEMTX_ACCESS_ERROR : Z := BIT 2.

(** A read fills a buffer whose previous contents are given: what a failed
    transfer leaves in it is up to the memory. *)
Class Dma (M : Type) := {
  dma_memory_read : M → Z → list Z → Z * list Z;
  dma_memory_write : M → Z → list Z → Z * M
}.

Class DmaLaws (M : Type) `{Dma M} : Prop := {
  dma_read_length m a buf : length (dma_memory_read m a buf).2 = length buf;
  dma_read_byte m a buf : Forall is_u8 buf → Forall is_u8 (dma_memory_read m a buf).2
}.

(** The part of the address space that is RAM, which a write to RAM does not change. *)
Class RamLaws (M : Type) `{Dma M} := {
  is_ram : M → Z → Z → bool;
  dma_read_written m a bs m' buf :
    is_ram m a (Z.of_nat (length bs)) = true →
    dma_memory_write m a bs = (MEMTX_OK, m') → length buf = length bs →
    Forall is_u8 bs → dma_memory_read m' a buf = (MEMTX_OK, bs);
  dma_read_frame m a bs r m' b buf :
    is_ram m a (Z.of_nat (length bs)) = true → is_ram m b (Z.of_nat (length buf)) = true →
    dma_memory_write m a bs = (r, m') →
    (b + Z.of_nat (length buf) ≤ a ∨ a + Z.of_nat (length bs) ≤ b) →
    dma_memory_read m' b buf = dma_memory_read m b buf;
  dma_ram_kept m a bs r m' b n :
    is_ram m a (Z.of_nat (length bs)) = true → dma_memory_write m a bs = (r, m') → is_ram m' b n = is_ram m b n
}.

(** ** A flat block of RAM *)
Record Ram := mkRam { ram_base : Z; ram_bytes : list Z }.

Definition ram_covers (m : Ram) (a n : Z) : bool :=
  (ram_base m <=? a) && (a + n <=? ram_base m + Z.of_nat (length (ram_bytes m))).

Definition ram_off (m : Ram) (a : Z) : nat := Z.to_nat (a - ram_base m).

Definition ram_read (m : Ram) (a : Z) (buf : list Z) : Z * list Z :=
  if ram_covers m a (Z.of_nat (length buf))
  then (MEMTX_OK, u8 <$> slice (ram_off m a) (length buf) (ram_bytes m))
  else (MEMTX_DECODE_ERROR, buf).

Definition ram_write (m : Ram) (a : Z) (bs : list Z) : Z * Ram :=
  if ram_covers m a (Z.of_nat (length bs))
  then (MEMTX_OK, mkRam (ram_base m) (splice (ram_off m a) bs (ram_bytes m)))
  else (MEMTX_DECODE_ERROR, m).

#[export] Instance ram_dma : Dma Ram :=
  { dma_memory_read := ram_read; dma_memory_write := ram_write }.

Lemma ram_covers_off m a n :
  ram_covers m a (Z.of_nat n) = true → (ram_off m a + n ≤ length (ram_bytes m))%nat.
Proof. unfold ram_covers, ram_off. intros. reflect_bools. lia. Qed.

Lemma ram_read_length m a buf : length (ram_read m a buf).2 = length buf.
Proof.
  unfold ram_read. case_match; [|done]. simpl.
  rewrite length_fmap, length_slice; [done|]. by apply ram_covers_off.
Qed.

Lemma ram_read_byte m a buf : Forall is_u8 buf → Forall is_u8 (ram_read m a buf).2.
Proof.
  intros. unfold ram_read. case_match; [|done]. apply Forall_fmap, Forall_true.
  intros. apply u8_range.
Qed.

Lemma ram_read_written m a bs m' buf :
  ram_write m a bs = (MEMTX_OK, m') → length buf = length bs →
  Forall is_u8 bs → ram_read m' a buf = (MEMTX_OK, bs).
Proof.
  unfold ram_write. case_match eqn:E; [|done]. intros [= <-] Hl Hb.
  pose proof (ram_covers_off _ _ _ E) as Hoff.
  unfold ram_read, ram_covers in *. simpl. rewrite length_splice by done.
  rewrite Hl, E. f_equal. unfold ram_off in *. simpl.
  rewrite slice_splice_eq by done.
  rewrite <- (list_fmap_id bs) at 2. apply Forall_fmap_ext_1.
  eapply Forall_impl; [exact Hb|]. intros x Hx. by apply u8_small.
Qed.

Lemma ram_read_frame m a bs r m' b buf :
  ram_write m a bs = (r, m') →
  (b + Z.of_nat (length buf) ≤ a ∨ a + Z.of_nat (length bs) ≤ b) →
  ram_read m' b buf = ram_read m b buf.
Proof.
  unfold ram_write. case_match eqn:E; intros [= <- <-] Hd; [|done].
  pose proof (ram_covers_off _ _ _ E) as Hoff.
  unfold ram_read, ram_covers in *. simpl. rewrite length_splice by done.
  case_match eqn:E'; [|done]. unfold ram_off in *. simpl.
  rewrite slice_splice_ne; [done|done|]. reflect_bools. lia.
Qed.

#[export] Instance ram_dma_laws : DmaLaws Ram.
Proof. constructor; simpl; eauto using ram_read_length, ram_read_byte. Qed.
#[export] Program Instance ram_ram_laws : RamLaws Ram := { is_ram := ram_covers }.
Next Obligation. simpl. eauto using ram_read_written. Qed.
Next Obligation. simpl. eauto using ram_read_frame. Qed.
Next Obligation.
  simpl. unfold ram_write. intros m a bs r m' b n Ha. rewrite Ha. intros [= <- <-].
  unfold ram_covers. simpl. rewrite length_splice; [done|]. by apply ram_covers_off.
Qed.
