(* ===== verification/Aes.v ===== *)
(** The Apple AES engine, src/qemu/hw/vmapple/aes.c.

    [AESState] is the device state, with the level of its interrupt line; guest
    memory and the crypto library are the interfaces [Dma] and [QCrypto].  A
    definition that indexes an array of the device returns [None] when the C code
    would index out of bounds, so "returns [Some]" is memory safety. *)
From S2P Require Import Prelude Dma.

(** ** Register and command encodings *)
Definition MAX_FIFO_SIZE : Z := 9.
Definition CMD_KEY : Z := 0x1.
Definition CMD_KEY_CONTEXT_SHIFT : Z := 27.
Definition CMD_KEY_CONTEXT_MASK : Z := Z.shiftl 0x1 CMD_KEY_CONTEXT_SHIFT.
Definition CMD_KEY_SELECT_MAX_IDX : Z := 0x7.
Definition CMD_KEY_SELECT_SHIFT : Z := 24.
Definition CMD_KEY_SELECT_MASK : Z := Z.shiftl CMD_KEY_SELECT_MAX_IDX CMD_KEY_SELECT_SHIFT.
Definition CMD_KEY_KEY_LEN_NUM : Z := 4.
Definition CMD_KEY_KEY_LEN_SHIFT : Z := 22.
Definition CMD_KEY_KEY_LEN_MASK : Z := Z.shiftl (CMD_KEY_KEY_LEN_NUM - 1) CMD_KEY_KEY_LEN_SHIFT.
Definition CMD_KEY_ENCRYPT_SHIFT : Z := 20.
Definition CMD_KEY_ENCRYPT_MASK : Z := Z.shiftl 0x1 CMD_KEY_ENCRYPT_SHIFT.
Definition CMD_KEY_BLOCK_MODE_SHIFT : Z := 16.
Definition CMD_KEY_BLOCK_MODE_MASK : Z := Z.shiftl 0x3 CMD_KEY_BLOCK_MODE_SHIFT.
Definition CMD_IV : Z := 0x2.
Definition CMD_IV_CONTEXT_SHIFT : Z := 26.
Definition CMD_IV_CONTEXT_MASK : Z := Z.shiftl 0x3 CMD_KEY_CONTEXT_SHIFT.
Definition CMD_DATA : Z := 0x5.
Definition CMD_DATA_KEY_CTX_SHIFT : Z := 27.
Definition CMD_DATA_KEY_CTX_MASK : Z := Z.shiftl 0x1 CMD_DATA_KEY_CTX_SHIFT.
Definition CMD_DATA_LEN_MASK : Z := 0xffffff.
Definition CMD_STORE_IV : Z := 0x6.
Definition CMD_FLAG : Z := 0x8.
Definition CMD_FLAG_RAISE_IRQ_MASK : Z := BIT 27.
Definition CMD_FLAG_INFO_MASK : Z := 0xff.
Definition CMD_SHIFT : Z := 28.

Definition REG_STATUS : Z := 0xc.
Definition REG_IRQ_STATUS : Z := 0x18.
Definition REG_IRQ_STATUS_INVALID_CMD : Z := BIT 2.
Definition REG_IRQ_STATUS_FLAG : Z := BIT 5.
Definition REG_IRQ_ENABLE : Z := 0x1c.
Definition REG_WATERMARK : Z := 0x20.
Definition REG_Q_STATUS : Z := 0x24.
Definition REG_FLAG_INFO : Z := 0x30.
Definition REG_FIFO : Z := 0x200.

Definition key_lens : list Z := [16; 24; 32; 64].

(** ** State *)
Record Key := mkKey { key_len : Z; key : list Z (* uint8_t[32] *) }.
#[export] Instance eta_Key : Settable Key := λ r, mkKey (key_len r) (key r).

Definition builtin_keys : list Key :=
  let k b := mkKey 32 (b :: replicate 31 0) in
  let none := mkKey 0 (replicate 32 0) in
  [none; k 0x1; k 0x2; k 0x3; none; none; none; none].

Inductive QCryptoCipherMode :=
  | QCRYPTO_CIPHER_MODE_ECB | QCRYPTO_CIPHER_MODE_CBC
  | QCRYPTO_CIPHER_MODE_XTS | QCRYPTO_CIPHER_MODE_CTR
  | QCRYPTO_CIPHER_MODE_GCM.
#[export] Instance QCryptoCipherMode_eq_dec : EqDecision QCryptoCipherMode.
Proof. solve_decision. Defined.

Inductive QCryptoCipherAlgo :=
  | QCRYPTO_CIPHER_ALGO_AES_128 | QCRYPTO_CIPHER_ALGO_AES_192
  | QCRYPTO_CIPHER_ALGO_AES_256.

Record AESState := mkAES {
  irq : bool;                 (* level of the interrupt line *)
  status : Z;
  q_status : Z;
  irq_status : Z;
  irq_enable : Z;
  watermark : Z;
  flag_info : Z;
  fifo : list Z;              (* uint32_t[MAX_FIFO_SIZE] *)
  fifo_idx : Z;
  keys : list Key;            (* Key[2] *)
  ivs : list (list Z);        (* IV[4], each uint32_t[4] *)
  is_encrypt : bool;
  block_mode : QCryptoCipherMode
}.
#[export] Instance eta_AESState : Settable AESState := λ r,
  mkAES (irq r) (status r) (q_status r) (irq_status r) (irq_enable r) (watermark r)
    (flag_info r) (fifo r) (fifo_idx r) (keys r) (ivs r) (is_encrypt r) (block_mode r).

(** The object QOM allocates: zeroed, [aes_init] maps the windows and the line. *)
Definition aes_init : AESState :=
  mkAES false 0 0 0 0 0 0 (replicate 9 0) 0
    (replicate 2 (mkKey 0 (replicate 32 0))) (replicate 4 (replicate 4 0)) false
    QCRYPTO_CIPHER_MODE_ECB.

Definition aes_reset (s : AESState) : AESState :=
  s <| status := 0x3f80 |> <| q_status := 2 |> <| irq_status := 0 |>
    <| irq_enable := 0 |> <| watermark := 0 |>.

Definition aes_update_irq (s : AESState) : AESState :=
  s <| irq := nz (Z.land (irq_status s) (irq_enable s)) |>.

(** The value is the low 32 bits: the accessors are called with 4-byte accesses. *)
Definition aes1_read (s : AESState) (offset : Z) : Z :=
  if offset =? REG_STATUS then status s
  else if offset =? REG_IRQ_STATUS then irq_status s
  else if offset =? REG_IRQ_ENABLE then irq_enable s
  else if offset =? REG_WATERMARK then watermark s
  else if offset =? REG_Q_STATUS then q_status s
  else if offset =? REG_FLAG_INFO then flag_info s
  else 0.

(** ** The command FIFO *)
Definition fifo_append (s : AESState) (val : Z) : option AESState :=
  if fifo_idx s =? MAX_FIFO_SIZE then Some s
  else
    _ ← fifo s !! Z.to_nat (fifo_idx s);
    Some (s <| fifo := <[Z.to_nat (fifo_idx s) := u32 val]> (fifo s) |>
            <| fifo_idx := u32 (fifo_idx s + 1) |>).

Definition has_payload (s : AESState) (elems : Z) : bool := u32 (elems + 1) <=? fifo_idx s.

(** Each command returns whether it consumed the FIFO, and the new state. *)
Definition cmd_key (s : AESState) : option (bool * AESState) :=
  cmd ← fifo s !! 0%nat;
  let key_select := Z.shiftr (Z.land cmd CMD_KEY_SELECT_MASK) CMD_KEY_SELECT_SHIFT in
  let ctxt := Z.shiftr (Z.land cmd CMD_KEY_CONTEXT_MASK) CMD_KEY_CONTEXT_SHIFT in
  let mode := Z.shiftr (Z.land cmd CMD_KEY_BLOCK_MODE_MASK) CMD_KEY_BLOCK_MODE_SHIFT in
  if negb ((mode =? 0) || (mode =? 1)) then Some (false, s)
  else
    let s := s <| block_mode := if mode =? 0 then QCRYPTO_CIPHER_MODE_ECB
                                else QCRYPTO_CIPHER_MODE_CBC |>
               <| is_encrypt := nz (Z.land cmd CMD_KEY_ENCRYPT_MASK) |> in
    klen ← key_lens !! Z.to_nat (Z.shiftr (Z.land cmd CMD_KEY_KEY_LEN_MASK) CMD_KEY_KEY_LEN_SHIFT);
    old ← keys s !! Z.to_nat ctxt;
    if nz key_select then
      k ← builtin_keys !! Z.to_nat key_select;
      Some (true, s <| keys := <[Z.to_nat ctxt := k]> (keys s) |>)
    else if 32 <? klen then Some (false, s)
    else if negb (has_payload s (klen / 4)) then Some (false, s)
    else
      payload ← slice_at 4 (Z.to_nat klen) (words_bytes 4 (fifo s));
      bytes ← splice_at 0 payload (key old);
      Some (true, s <| keys := <[Z.to_nat ctxt := mkKey klen bytes]> (keys s) |>).

Definition cmd_iv (s : AESState) : option (bool * AESState) :=
  cmd ← fifo s !! 0%nat;
  let ctxt := Z.shiftr (Z.land cmd CMD_IV_CONTEXT_MASK) CMD_IV_CONTEXT_SHIFT in
  if negb (has_payload s 4) then Some (false, s)
  else
    _ ← ivs s !! Z.to_nat ctxt;
    payload ← slice_at 1 4 (fifo s);
    Some (true, s <| ivs := <[Z.to_nat ctxt := payload]> (ivs s) |>).

Definition cmd_flag (s : AESState) : option (bool * AESState) :=
  cmd ← fifo s !! 0%nat;
  let s := if nz (Z.land cmd CMD_FLAG_RAISE_IRQ_MASK)
           then s <| irq_status := Z.lor (irq_status s) REG_IRQ_STATUS_FLAG |> else s in
  Some (true, s <| flag_info := Z.land cmd CMD_FLAG_INFO_MASK |>).

(** ** Commands that reach memory and the cipher *)

(** crypto/cipher.h, as far as the device uses it: a cipher is created for a
    mode and a key, takes an IV, and transforms a buffer; each call can fail. *)
Class QCrypto (C : Type) := {
  qcrypto_cipher_new : QCryptoCipherAlgo → QCryptoCipherMode → list Z → option C;
  qcrypto_cipher_setiv : C → list Z → option C;
  qcrypto_cipher_encrypt : C → list Z → option (list Z);
  qcrypto_cipher_decrypt : C → list Z → option (list Z)
}.

Section commands.
Context {M C : Type} `{Dma M, QCrypto C}.

Definition cmd_data_src (f1 f2 : Z) : Z :=
  Z.lor f2 (Z.land (u64 (Z.shiftl f1 16)) 0xffff00000000).
Definition cmd_data_dst (f1 f3 : Z) : Z :=
  Z.lor f3 (Z.land (u64 (Z.shiftl f1 32)) 0xffff00000000).

Definition cipher_algo (klen : Z) : option QCryptoCipherAlgo :=
  if klen =? 128 / 8 then Some QCRYPTO_CIPHER_ALGO_AES_128
  else if klen =? 192 / 8 then Some QCRYPTO_CIPHER_ALGO_AES_192
  else if klen =? 256 / 8 then Some QCRYPTO_CIPHER_ALGO_AES_256
  else None.

(** The cipher of key [k] set up with [iv]; [None] is one of the error returns. *)
Definition cmd_data_cipher (s : AESState) (k : Key) (iv : list Z) : option C :=
  alg ← cipher_algo (key_len k);
  c ← qcrypto_cipher_new alg (block_mode s) (take (Z.to_nat (key_len k)) (key k));
  if decide (block_mode s = QCRYPTO_CIPHER_MODE_ECB) then Some c
  else qcrypto_cipher_setiv c (words_bytes 4 iv).

Definition cmd_data (s : AESState) (m : M) : option (bool * M) :=
  cmd ← fifo s !! 0%nat;
  f1 ← fifo s !! 1%nat;
  f2 ← fifo s !! 2%nat;
  f3 ← fifo s !! 3%nat;
  let ctxt_iv := 0 in
  let ctxt_key := Z.shiftr (Z.land cmd CMD_DATA_KEY_CTX_MASK) CMD_DATA_KEY_CTX_SHIFT in
  let len := Z.land cmd CMD_DATA_LEN_MASK in
  let src_addr := cmd_data_src f1 f2 in
  let dst_addr := cmd_data_dst f1 f3 in
  if negb (has_payload s 3) then Some (false, m)
  else if (2 <=? ctxt_key) || (4 <=? ctxt_iv) then Some (false, m)
  else
    let '(r, src) := dma_memory_read m src_addr (replicate (Z.to_nat len) 0) in
    if negb (r =? MEMTX_OK) then Some (false, m)
    else
      k ← keys s !! Z.to_nat ctxt_key;
      iv ← ivs s !! Z.to_nat ctxt_iv;
      match cmd_data_cipher s k iv with
      | None => Some (false, m)
      | Some c =>
          match (if is_encrypt s then qcrypto_cipher_encrypt c src
                 else qcrypto_cipher_decrypt c src) with
          | None => Some (false, m)
          | Some dst =>
              let '(r, m') := dma_memory_write m dst_addr dst in
              Some (r =? MEMTX_OK, m')
          end
      end.

Definition cmd_store_iv (s : AESState) (m : M) : option (bool * M) :=
  cmd ← fifo s !! 0%nat;
  f1 ← fifo s !! 1%nat;
  let ctxt := Z.shiftr (Z.land cmd CMD_IV_CONTEXT_MASK) CMD_IV_CONTEXT_SHIFT in
  if negb (has_payload s 1) then Some (false, m)
  else if 4 <=? ctxt then Some (false, m)
  else
    iv ← ivs s !! Z.to_nat ctxt;
    let addr := Z.lor f1 (Z.land (u64 (Z.shiftl cmd 32)) 0xff00000000) in
    let '(r, m') := dma_memory_write m addr (words_bytes 4 iv) in
    Some (r =? MEMTX_OK, m').

(** The switch of fifo_process on the opcode: success, new state, new memory. *)
Definition fifo_dispatch (cmd : Z) (s : AESState) (m : M) : option (bool * AESState * M) :=
  if cmd =? CMD_KEY then '(b, s) ← cmd_key s; Some (b, s, m)
  else if cmd =? CMD_IV then '(b, s) ← cmd_iv s; Some (b, s, m)
  else if cmd =? CMD_DATA then '(b, m) ← cmd_data s m; Some (b, s, m)
  else if cmd =? CMD_STORE_IV then '(b, m) ← cmd_store_iv s m; Some (b, s, m)
  else if cmd =? CMD_FLAG then '(b, s) ← cmd_flag s; Some (b, s, m)
  else Some (false, s <| irq_status := Z.lor (irq_status s) REG_IRQ_STATUS_INVALID_CMD |>, m).

Definition fifo_process (s : AESState) (m : M) : option (AESState * M) :=
  f0 ← fifo s !! 0%nat;
  let cmd := Z.shiftr f0 CMD_SHIFT in
  if fifo_idx s =? 0 then Some (s, m)
  else
    '(success, s, m) ← fifo_dispatch cmd s m;
    Some (if (success : bool) then s <| fifo_idx := 0 |> else s, m).

Definition aes1_write (s : AESState) (m : M) (offset val : Z) : option (AESState * M) :=
  if offset =? REG_IRQ_STATUS then
    Some (aes_update_irq (s <| irq_status := u32 (Z.ldiff (irq_status s) val) |>), m)
  else if offset =? REG_IRQ_ENABLE then
    Some (aes_update_irq (s <| irq_enable := u32 val |>), m)
  else if offset =? REG_FIFO then
    s ← fifo_append s val;
    '(s, m) ← fifo_process s m;
    Some (aes_update_irq s, m)
  else Some (s, m).

(** What the rest of the machine can do to the device. *)
Inductive aes_op := AesWrite (offset val : Z) | AesReset.

Fixpoint aes_run (s : AESState) (m : M) (ops : list aes_op) : option (AESState * M) :=
  match ops with
  | [] => Some (s, m)
  | AesWrite offset val :: ops => '(s, m) ← aes1_write s m offset val; aes_run s m ops
  | AesReset :: ops => aes_run (aes_reset s) m ops
  end.

(** A guest driver pushing a list of words into the FIFO register. *)
Fixpoint fifo_writes (s : AESState) (m : M) (ws : list Z) : option (AESState * M) :=
  match ws with
  | [] => Some (s, m)
  | w :: ws => '(s, m) ← aes1_write s m REG_FIFO w; fifo_writes s m ws
  end.

End commands.

(** The second window has no register: reads give 0, writes are dropped. *)
Definition aes2_read (offset : Z) : Z := 0.
Definition aes2_write (s : AESState) (offset val : Z) : AESState := s.

(** ** Well-formedness

    What the array accesses of the device rely on. *)
Definition key_wf (k : Key) : Prop :=
  key_len k ∈ [0; 16; 24; 32] ∧ length (key k) = 32%nat ∧ Forall is_u8 (key k).
Definition iv_wf (iv : list Z) : Prop := length iv = 4%nat ∧ Forall is_u32 iv.

#[export] Instance key_wf_dec k : Decision (key_wf k).
Proof. unfold key_wf. apply _. Defined.
#[export] Instance iv_wf_dec iv : Decision (iv_wf iv).
Proof. unfold iv_wf. apply _. Defined.

Record aes_wf (s : AESState) : Prop := {
  wf_irq_status : is_u32 (irq_status s);
  wf_irq_enable : is_u32 (irq_enable s);
  wf_fifo_length : length (fifo s) = 9%nat;
  wf_fifo_words : Forall is_u32 (fifo s);
  wf_fifo_idx : 0 ≤ fifo_idx s ≤ MAX_FIFO_SIZE;
  wf_keys_length : length (keys s) = 2%nat;
  wf_keys : Forall key_wf (keys s);
  wf_ivs_length : length (ivs s) = 4%nat;
  wf_ivs : Forall iv_wf (ivs s)
}.

Lemma builtin_keys_wf : Forall key_wf builtin_keys.
Proof. decide_done. Qed.

Lemma aes_init_wf : aes_wf aes_init.
Proof. constructor; decide_done. Qed.

Lemma aes_reset_wf s : aes_wf s → aes_wf (aes_reset s).
Proof. intros []. constructor; simpl; unfold is_u32; try done; lia. Qed.

Lemma aes_update_irq_wf s : aes_wf s → aes_wf (aes_update_irq s).
Proof. intros []. by constructor. Qed.

Lemma lookup_in_range {A} (l : list A) n i : length l = n → 0 ≤ i < Z.of_nat n → ∃ x, l !! Z.to_nat i = Some x.
Proof. intros <- ?. apply lookup_lt_is_Some_2. lia. Qed.

Lemma fifo_append_spec s v : aes_wf s →
  fifo_append s v = Some
    (if fifo_idx s =? MAX_FIFO_SIZE then s
     else s <| fifo := <[Z.to_nat (fifo_idx s) := u32 v]> (fifo s) |>
            <| fifo_idx := fifo_idx s + 1 |>).
Proof.
  intros []. unfold fifo_append. case_match; [done|]. reflect_bools.
  destruct (lookup_in_range (fifo s) 9 (fifo_idx s)) as [x ->]; [done|unfold MAX_FIFO_SIZE in *; lia|].
  simpl. rewrite (u32_small (_ + 1)); [done|]. unfold is_u32, MAX_FIFO_SIZE in *; lia.
Qed.

Lemma fifo_append_wf s v s' : aes_wf s → fifo_append s v = Some s' → aes_wf s'.
Proof.
  intros Hs. rewrite fifo_append_spec by done. intros [= <-]. case_match; [done|].
  destruct Hs. reflect_bools. constructor; simpl; try done.
  - by len.
  - by apply Forall_insert; [|apply u32_range].
  - unfold MAX_FIFO_SIZE in *. lia.
Qed.

Lemma has_payload_iff s n :
  0 ≤ n < 100 → has_payload s n = true ↔ n + 1 ≤ fifo_idx s.
Proof.
  intros ?. unfold has_payload. rewrite u32_small by (unfold is_u32; lia). apply Z.leb_le.
Qed.

(** The context of an IV command is bits 27 and 28 of the command word, shifted
    to a multiple of two; bit 28 belongs to the opcode and is clear in CMD_IV and
    CMD_STORE_IV, so the context is 0 or 2 and never leaves the four contexts. *)
Definition iv_context (cmd : Z) : Z :=
  Z.shiftr (Z.land cmd CMD_IV_CONTEXT_MASK) CMD_IV_CONTEXT_SHIFT.

Lemma iv_context_cases cmd :
  Z.even (Z.shiftr cmd CMD_SHIFT) = true → iv_context cmd = if Z.testbit cmd 27 then 2 else 0.
Proof.
  intros He. assert (Z.testbit cmd 28 = false) as Hb.
  { replace 28 with (0 + 28) by done. rewrite <- Z.shiftr_spec by done.
    rewrite Z.bit0_odd, <- Z.negb_even. unfold CMD_SHIFT in He. by rewrite He. }
  unfold iv_context, CMD_IV_CONTEXT_MASK, CMD_IV_CONTEXT_SHIFT, CMD_KEY_CONTEXT_SHIFT.
  change (Z.shiftl 3 27) with (Z.lor (BIT 27) (BIT 28)). rewrite Z.land_lor_distr_r.
  rewrite (land_bit_clear cmd 28), Z.lor_0_r by done.
  destruct (Z.testbit cmd 27) eqn:H27; [|by rewrite land_bit_clear].
  rewrite (Z.shiftr_land _ _ 26). change (Z.shiftr (BIT 27) 26) with 2.
  apply Z.bits_inj'; intros n Hn. rewrite Z.land_spec, Z.shiftr_spec by done.
  destruct (decide (n = 1)) as [->|]; [change (1 + 26) with 27; by rewrite H27|].
  destruct (decide (n = 0)) as [->|]; [apply andb_false_r|].
  rewrite (Z.bits_above_log2 2) by (simpl; lia). apply andb_false_r.
Qed.

(** ** Every command is safe and keeps the state well formed *)
Lemma fifo_word s i :
  aes_wf s → (i < 9)%nat → ∃ w, fifo s !! i = Some w ∧ is_u32 w.
Proof.
  intros [] ?. destruct (lookup_lt_is_Some_2 (fifo s) i) as [w Hw]; [lia|].
  exists w. split; [done|]. by apply (Forall_lookup_1 _ _ _ _ wf_fifo_words0 Hw).
Qed.

Lemma lookup_field {A} (l : list A) m k cmd :
  0 ≤ m → 0 ≤ k → Z.of_nat (length l) = m + 1 →
  ∃ x, l !! Z.to_nat (Z.shiftr (Z.land cmd (Z.shiftl m k)) k) = Some x.
Proof.
  intros. eapply lookup_in_range; [done|]. pose proof (field_range cmd m k). lia.
Qed.

Ltac fold_fields :=
  change CMD_KEY_KEY_LEN_MASK with (Z.shiftl 3 22); change CMD_KEY_KEY_LEN_SHIFT with 22;
  change CMD_KEY_CONTEXT_MASK with (Z.shiftl 1 27); change CMD_KEY_CONTEXT_SHIFT with 27;
  change CMD_KEY_SELECT_MASK with (Z.shiftl 7 24); change CMD_KEY_SELECT_SHIFT with 24;
  change CMD_DATA_KEY_CTX_MASK with (Z.shiftl 1 27); change CMD_DATA_KEY_CTX_SHIFT with 27.

(** The literal key of a key command: what memcpy moves is inside both arrays. *)
Lemma key_payload s klen old :
  aes_wf s → key_wf old → klen ∈ key_lens → (32 <? klen) = false →
  ∃ bytes,
    (payload ← slice_at 4 (Z.to_nat klen) (words_bytes 4 (fifo s));
     splice_at 0 payload (key old)) = Some bytes ∧
    key_wf (mkKey klen bytes).
Proof.
  intros [] (Ho1 & Ho2 & Ho3) Hin ?. reflect_bools.
  assert (klen ∈ [16; 24; 32]) as Hin'.
  { unfold key_lens in Hin. rewrite !elem_of_cons, elem_of_nil in *. lia. }
  assert (0 ≤ klen ≤ 32) by (rewrite !elem_of_cons, elem_of_nil in Hin'; lia).
  assert (4 + Z.to_nat klen ≤ length (words_bytes 4 (fifo s)))%nat.
  { rewrite length_words_bytes. lia. }
  rewrite slice_at_some by done. simpl.
  assert (0 + length (slice 4 (Z.to_nat klen) (words_bytes 4 (fifo s))) ≤ length (key old))%nat.
  { rewrite length_slice by done. lia. }
  rewrite splice_at_some by done. eexists; split; [done|]. split_and!; simpl.
  - rewrite !elem_of_cons, elem_of_nil in *. lia.
  - by rewrite length_splice.
  - auto with orchard.
Qed.

Lemma set_key_wf s i k :
  aes_wf s → key_wf k → aes_wf (s <| keys := <[i := k]> (keys s) |>).
Proof. intros [] ?. constructor; simpl; try done; [by len|by apply Forall_insert]. Qed.

Lemma set_mode_wf s e bm :
  aes_wf s → aes_wf (s <| block_mode := bm |> <| is_encrypt := e |>).
Proof. intros []. by constructor. Qed.

Lemma cmd_key_safe s : aes_wf s → ∃ b s', cmd_key s = Some (b, s') ∧ aes_wf s'.
Proof.
  intros Hs. unfold cmd_key. fold_fields. destruct (fifo_word s 0) as (cmd & -> & Hcmd); [done|lia|]. cbn [mbind option_bind].
  case_match; [by eauto|].
  match goal with |- context [set_field is_encrypt (λ _, ?e) (set_field block_mode (λ _, ?b) s)] =>
    pose proof (set_mode_wf s e b Hs) as Hs'; revert Hs';
    generalize (set_field is_encrypt (λ _, e) (set_field block_mode (λ _, b) s)) end.
  intros s1 Hs1. pose proof Hs1 as [].
  destruct (lookup_field key_lens 3 22 cmd) as [klen Hkl]; [done..|].
  destruct (lookup_field (keys s1) 1 27 cmd) as [old Hold]; [done|done|by rewrite wf_keys_length0|].
  destruct (lookup_field builtin_keys 7 24 cmd) as [k Hk]; [done..|].
  pose proof (Forall_lookup_1 _ _ _ _ wf_keys0 Hold) as Howf.
  rewrite Hkl, Hold. cbn [mbind option_bind].
  case_match.
  - rewrite Hk. cbn [mbind option_bind]. eexists _, _; split; [done|]. apply set_key_wf; [done|].
    by apply (Forall_lookup_1 _ _ _ _ builtin_keys_wf Hk).
  - case_match eqn:Hsz; [by eauto|]. case_match; [by eauto|].
    destruct (key_payload s1 klen old) as (bytes & Hb & Hkwf); [done|done| |done|].
    { by eapply list_elem_of_lookup_2. }
    destruct (slice_at _ _ _) as [payload|]; [|done]. cbn [mbind option_bind] in *. rewrite Hb.
    eexists _, _; split; [done|]. by apply set_key_wf.
Qed.

Lemma cmd_iv_safe s w :
  aes_wf s → fifo s !! 0%nat = Some w → Z.even (Z.shiftr w CMD_SHIFT) = true →
  ∃ b s', cmd_iv s = Some (b, s') ∧ aes_wf s'.
Proof.
  intros Hs Hw He. unfold cmd_iv. rewrite Hw. cbn [mbind option_bind]. fold (iv_context w).
  rewrite iv_context_cases by done. case_match; [by eauto|]. pose proof Hs as [].
  destruct (lookup_in_range (ivs s) 4 (if Z.testbit w 27 then 2 else 0)) as [iv ->];
    [done|case_match; lia|].
  rewrite slice_at_some by lia. cbn [mbind option_bind]. eexists _, _; split; [done|].
  constructor; simpl; try done; [by len|]. apply Forall_insert; [done|].
  split; [by rewrite length_slice by lia|auto with orchard].
Qed.

Lemma cmd_flag_safe s : aes_wf s → ∃ b s', cmd_flag s = Some (b, s') ∧ aes_wf s'.
Proof.
  intros Hs. unfold cmd_flag. destruct (fifo_word s 0) as (cmd & -> & _); [done|lia|]. simpl.
  eexists _, _; split; [done|]. destruct Hs. case_match; constructor; simpl; try done.
  by apply lor_u32.
Qed.

Section safety.
Context {M C : Type} `{Dma M, QCrypto C}.

Lemma cmd_data_safe s (m : M) :
  aes_wf s → ∃ b m', cmd_data (C := C) s m = Some (b, m').
Proof.
  intros Hs. unfold cmd_data. fold_fields.
  destruct (fifo_word s 0) as (cmd & -> & _); [done|lia|].
  destruct (fifo_word s 1) as (f1 & -> & _); [done|lia|].
  destruct (fifo_word s 2) as (f2 & -> & _); [done|lia|].
  destruct (fifo_word s 3) as (f3 & -> & _); [done|lia|]. destruct Hs.
  destruct (lookup_field (keys s) 1 27 cmd) as [k Hk]; [done|done|by rewrite wf_keys_length0|].
  destruct (lookup_in_range (ivs s) 4 0) as [iv Hiv]; [done|lia|].
  cbn [mbind option_bind]. rewrite Hk, Hiv. cbn [mbind option_bind].
  repeat case_match; by eauto.
Qed.

Lemma cmd_store_iv_safe s (m : M) w :
  aes_wf s → fifo s !! 0%nat = Some w → Z.even (Z.shiftr w CMD_SHIFT) = true →
  ∃ b m', cmd_store_iv s m = Some (b, m').
Proof.
  intros Hs Hw He. unfold cmd_store_iv. rewrite Hw.
  destruct (fifo_word s 1) as (f1 & -> & _); [done|lia|].
  cbn [mbind option_bind]. fold (iv_context w). rewrite iv_context_cases by done.
  destruct Hs. destruct (lookup_in_range (ivs s) 4 (if Z.testbit w 27 then 2 else 0)) as [iv ->];
    [done|case_match; lia|].
  cbn [mbind option_bind]. repeat case_match; by eauto.
Qed.

Lemma set_fifo_idx_wf s : aes_wf s → aes_wf (s <| fifo_idx := 0 |>).
Proof. intros []. by constructor. Qed.

Lemma fifo_dispatch_safe s (m : M) w :
  aes_wf s → fifo s !! 0%nat = Some w →
  ∃ b s' m', fifo_dispatch (C := C) (Z.shiftr w CMD_SHIFT) s m = Some (b, s', m') ∧ aes_wf s'.
Proof.
  intros Hs Hw. unfold fifo_dispatch. repeat case_match; reflect_bools.
  - destruct (cmd_key_safe s Hs) as (? & ? & -> & ?). simpl. by eauto 6.
  - destruct (cmd_iv_safe s w Hs) as (? & ? & -> & ?); [done|by replace (Z.shiftr w CMD_SHIFT) with 2|].
    simpl. by eauto 6.
  - destruct (cmd_data_safe s m Hs) as (? & ? & ->). simpl. by eauto 6.
  - destruct (cmd_store_iv_safe s m w Hs) as (? & ? & ->); [done|by replace (Z.shiftr w CMD_SHIFT) with 6|].
    simpl. by eauto 6.
  - destruct (cmd_flag_safe s Hs) as (? & ? & -> & ?). simpl. by eauto 6.
  - eexists _, _, _; split; [done|]. destruct Hs. constructor; simpl; try done.
    by apply lor_u32.
Qed.

Lemma fifo_process_safe s (m : M) :
  aes_wf s → ∃ s' m', fifo_process (C := C) s m = Some (s', m') ∧ aes_wf s'.
Proof.
  intros Hs. unfold fifo_process. destruct (fifo_word s 0) as (w & Hw & _); [done|lia|].
  rewrite Hw. cbn [mbind option_bind]. case_match; [by eauto|].
  destruct (fifo_dispatch_safe s m w Hs Hw) as (b & s' & m' & -> & Hs').
  simpl. destruct b; eexists _, _; split; eauto using set_fifo_idx_wf.
Qed.

Lemma aes1_write_safe s (m : M) offset val :
  aes_wf s → ∃ s' m', aes1_write (C := C) s m offset val = Some (s', m') ∧ aes_wf s'.
Proof.
  intros Hs. unfold aes1_write. repeat case_match.
  - eexists _, _; split; [done|]. apply aes_update_irq_wf. destruct Hs. constructor; simpl; auto using u32_range.
  - eexists _, _; split; [done|]. apply aes_update_irq_wf. destruct Hs. constructor; simpl; auto using u32_range.
  - pose proof (fifo_append_wf s val) as Ha. rewrite fifo_append_spec in * by done. cbn [mbind option_bind].
    destruct (fifo_process_safe _ m (Ha _ Hs eq_refl)) as (s' & m' & -> & ?).
    simpl. eexists _, _; split; [done|]. by apply aes_update_irq_wf.
  - by eauto.
Qed.

Lemma aes_run_wf s (m : M) ops :
  aes_wf s → ∃ s' m', aes_run (C := C) s m ops = Some (s', m') ∧ aes_wf s'.
Proof.
  revert s m. induction ops as [|[offset val|] ops IH]; intros s m Hs; simpl; [by eauto| |].
  - destruct (aes1_write_safe s m offset val Hs) as (s1 & m1 & -> & ?). simpl. by apply IH.
  - apply IH. by apply aes_reset_wf.
Qed.

End safety.

(** ** A whole command, word by word

    [pushed s ws] is [s] with exactly the words [ws] waiting in the FIFO. *)
Definition pushed (s : AESState) (ws : list Z) : AESState :=
  s <| fifo := splice 0 ws (fifo s) |> <| fifo_idx := Z.of_nat (length ws) |>.

(** The part of a key command that takes effect before its payload has arrived. *)
Definition set_mode (o : option (QCryptoCipherMode * bool)) (s : AESState) : AESState :=
  match o with
  | None => s
  | Some (bm, e) => s <| block_mode := bm |> <| is_encrypt := e |>
  end.

(** The interrupt line shows the masked status. *)
Definition irq_ok (s : AESState) : Prop :=
  irq s = nz (Z.land (irq_status s) (irq_enable s)).

Lemma aes_update_irq_ok s : irq_ok (aes_update_irq s).
Proof. done. Qed.

Lemma aes_update_irq_id s : irq_ok s → aes_update_irq s = s.
Proof. destruct s. unfold irq_ok, aes_update_irq. simpl. by intros ->. Qed.

Lemma splice_0 {A} (xs l : list A) : splice 0 xs l = xs ++ drop (length xs) l.
Proof. done. Qed.

Lemma insert_splice_0 {A} (ws l : list A) v :
  (length ws < length l)%nat → <[length ws := v]> (splice 0 ws l) = splice 0 (ws ++ [v]) l.
Proof.
  intros. rewrite !splice_0, length_app, <- app_assoc. simpl.
  rewrite insert_app_r_alt, Nat.sub_diag by lia. f_equal.
  destruct (drop (length ws) l) as [|x r] eqn:E.
  { apply (f_equal length) in E. rewrite length_drop in E. simpl in E. lia. }
  simpl. f_equal. rewrite Nat.add_1_r. replace (S (length ws)) with (length ws + 1)%nat by lia.
  by rewrite <- drop_drop, E.
Qed.

Lemma pushed_wf s ws o :
  aes_wf s → (length ws ≤ 9)%nat → Forall is_u32 ws → aes_wf (set_mode o (pushed s ws)).
Proof.
  intros [] ? ?. assert (aes_wf (pushed s ws)).
  { constructor; simpl; unfold MAX_FIFO_SIZE; try done; auto with orchard; [|lia].
    rewrite length_splice; lia. }
  destruct o as [[bm e]|]; [|done]. by apply (set_mode_wf (pushed s ws)).
Qed.

Section commands_spec.
Context {M C : Type} `{Dma M, QCrypto C}.

Definition opcode (cmd : Z) : Z := Z.shiftr cmd CMD_SHIFT.

(** While the payload of [cmd] is incomplete (at most [n] words are in the FIFO,
    the command included), the command does no more than [set_mode o]. *)
Definition waits (cmd : Z) (n : nat) (o : option (QCryptoCipherMode * bool)) : Prop :=
  ∀ s (m : M), aes_wf s → fifo s !! 0%nat = Some cmd → 1 ≤ fifo_idx s ≤ Z.of_nat n →
    fifo_dispatch (C := C) (opcode cmd) s m = Some (false, set_mode o s, m).

Lemma append_pushed s ws v o :
  aes_wf s → (length ws < 9)%nat → Forall is_u32 ws → is_u32 v →
  fifo_append (set_mode o (pushed s ws)) v = Some (set_mode o (pushed s (ws ++ [v]))).
Proof.
  intros Hs Hl Hws Hv. rewrite fifo_append_spec by (apply pushed_wf; auto with lia).
  pose proof (wf_fifo_length _ Hs) as Hf. f_equal.
  destruct o as [[bm e]|]; simpl; (destruct (Z.eqb_spec (Z.of_nat (length ws)) MAX_FIFO_SIZE);
    [unfold MAX_FIFO_SIZE in *; lia|]); unfold pushed; simpl;
    rewrite Nat2Z.id, u32_small, insert_splice_0, length_app by (done || lia);
    simpl; by rewrite Nat2Z.inj_add.
Qed.

Lemma push_wait s (m : M) cmd ws n o o0 v :
  aes_wf s → irq_ok s → waits cmd n o → o0 = None ∨ o0 = o →
  (length ws < n)%nat → (n ≤ 8)%nat → Forall is_u32 ws → is_u32 v → (ws ++ [v]) !! 0%nat = Some cmd →
  aes1_write (C := C) (set_mode o0 (pushed s ws)) m REG_FIFO v
    = Some (set_mode o (pushed s (ws ++ [v])), m).
Proof.
  intros Hs Hirq Hw Ho Hl Hn Hws Hv Hcmd. unfold aes1_write. simpl.
  rewrite append_pushed by auto with lia. cbn [mbind option_bind].
  assert (aes_wf (set_mode o0 (pushed s (ws ++ [v])))).
  { apply pushed_wf; [done|rewrite length_app; simpl; lia|]. by rewrite Forall_app, Forall_singleton. }
  assert (fifo (set_mode o0 (pushed s (ws ++ [v]))) !! 0%nat = Some cmd) as Hhd.
  { destruct o0 as [[??]|]; simpl; rewrite splice_0; apply lookup_app_l_Some; done. }
  assert (fifo_idx (set_mode o0 (pushed s (ws ++ [v]))) = Z.of_nat (length ws) + 1) as Hidx.
  { destruct o0 as [[??]|]; simpl; rewrite length_app; simpl; lia. }
  unfold fifo_process. rewrite Hhd, Hidx. cbn [mbind option_bind].
  destruct (Z.eqb_spec (Z.of_nat (length ws) + 1) 0); [lia|].
  fold (opcode cmd). rewrite Hw by (auto || lia). simpl. do 2 f_equal.
  rewrite aes_update_irq_id by (destruct o as [[??]|], o0 as [[??]|]; done).
  destruct o as [[??]|], Ho as [->| ->]; done.
Qed.

(** Pushing a command and its payload from an empty FIFO runs the command once,
    on the complete payload. *)
Lemma fifo_writes_command s (m : M) cmd ws o :
  aes_wf s → irq_ok s → fifo_idx s = 0 → waits cmd (length ws) o →
  (0 < length ws ≤ 8)%nat → is_u32 cmd → Forall is_u32 ws →
  fifo_writes (C := C) s m (cmd :: ws) =
    '(s', m') ← fifo_process (C := C) (set_mode o (pushed s (cmd :: ws))) m;
    Some (aes_update_irq s', m').
Proof.
  intros Hs Hirq Hidx Hw Hl Hcmd Hws.
  assert (∀ suf pre, pre ++ suf = ws → suf ≠ [] →
    fifo_writes (C := C) (set_mode o (pushed s (cmd :: pre))) m suf =
      '(s', m') ← fifo_process (C := C) (set_mode o (pushed s (cmd :: ws))) m;
      Some (aes_update_irq s', m')) as Haux.
  { induction suf as [|v suf IH]; intros pre <- Hne; [done|].
    rewrite length_app in Hl. simpl in Hl. apply Forall_app in Hws as [Hpre [Hv Hsuf]%Forall_cons].
    destruct (decide (suf = [])) as [->|Hne'].
    - cbn [fifo_writes]. unfold aes1_write. simpl.
      rewrite append_pushed by (simpl; auto with lia). cbn [mbind option_bind].
      by destruct (fifo_process _ _) as [[??]|].
    - cbn [fifo_writes]. rewrite (push_wait s m cmd (cmd :: pre) (length (pre ++ v :: suf)) o o v);
        try exact Hw; try (simpl; rewrite ?length_app; simpl; auto with lia; destruct suf; simpl; done || lia).
      apply (IH (pre ++ [v])); [by rewrite <- app_assoc|done]. }
  assert (ws ≠ []) by (destruct ws; simpl in *; [lia|done]).
  cbn [fifo_writes]. rewrite <- (Haux ws []) by done.
  replace s with (set_mode None (pushed s [])) at 1
    by (destruct s; unfold pushed; simpl in *; by rewrite Hidx).
  rewrite (push_wait s m cmd [] (length ws) o None cmd); auto with lia.
  simpl. lia.
Qed.

(** *** The three commands of a job *)
Definition key_ctxt (cmd : Z) : Z :=
  Z.shiftr (Z.land cmd CMD_KEY_CONTEXT_MASK) CMD_KEY_CONTEXT_SHIFT.
Definition key_select_of (cmd : Z) : Z :=
  Z.shiftr (Z.land cmd CMD_KEY_SELECT_MASK) CMD_KEY_SELECT_SHIFT.
Definition key_len_of (cmd : Z) : option Z :=
  key_lens !! Z.to_nat (Z.shiftr (Z.land cmd CMD_KEY_KEY_LEN_MASK) CMD_KEY_KEY_LEN_SHIFT).
Definition key_mode_of (cmd : Z) : Z :=
  Z.shiftr (Z.land cmd CMD_KEY_BLOCK_MODE_MASK) CMD_KEY_BLOCK_MODE_SHIFT.
Definition key_encrypt_of (cmd : Z) : bool := nz (Z.land cmd CMD_KEY_ENCRYPT_MASK).

Definition cipher_mode (mode : Z) : QCryptoCipherMode :=
  if mode =? 0 then QCRYPTO_CIPHER_MODE_ECB else QCRYPTO_CIPHER_MODE_CBC.

(** A key command that carries a literal key of [klen] bytes. *)
Record literal_key_cmd (cmd klen : Z) : Prop := {
  lk_op : opcode cmd = CMD_KEY;
  lk_select : key_select_of cmd = 0;
  lk_mode : key_mode_of cmd = 0 ∨ key_mode_of cmd = 1;
  lk_len : key_len_of cmd = Some klen;
  lk_size : klen ∈ [16; 24; 32]
}.

Definition literal_mode (cmd : Z) : option (QCryptoCipherMode * bool) :=
  Some (cipher_mode (key_mode_of cmd), key_encrypt_of cmd).

Lemma cmd_key_literal s cmd klen :
  aes_wf s → fifo s !! 0%nat = Some cmd → literal_key_cmd cmd klen →
  ∃ old, keys s !! Z.to_nat (key_ctxt cmd) = Some old ∧ length (key old) = 32%nat ∧
    cmd_key s =
      if klen / 4 + 1 <=? fifo_idx s then
        Some (true, (set_mode (literal_mode cmd) s)
          <| keys := <[Z.to_nat (key_ctxt cmd) := mkKey klen
               (splice 0 (slice 4 (Z.to_nat klen) (words_bytes 4 (fifo s))) (key old))]> (keys s) |>)
      else Some (false, set_mode (literal_mode cmd) s).
Proof.
  intros Hs Hhd [Hop Hsel Hmode Hlen Hsz]. pose proof Hs as [].
  destruct (lookup_field (keys s) 1 27 cmd) as [old Hold]; [done|done|by rewrite wf_keys_length0|].
  change (keys s !! Z.to_nat (key_ctxt cmd) = Some old) in Hold.
  pose proof (Forall_lookup_1 _ _ _ _ wf_keys0 Hold) as (_ & Hkl & _).
  exists old. split_and!; [done|done|]. unfold cmd_key. rewrite Hhd. cbn [mbind option_bind].
  fold (key_mode_of cmd) (key_select_of cmd) (key_encrypt_of cmd) (key_len_of cmd) (key_ctxt cmd)
    (cipher_mode (key_mode_of cmd)).
  replace ((key_mode_of cmd =? 0) || (key_mode_of cmd =? 1)) with true
    by (destruct Hmode as [->| ->]; done).
  rewrite Hlen, Hsel. cbn [negb mbind option_bind]. simpl keys. rewrite Hold. cbn [mbind option_bind].
  simpl nz. cbn iota. rewrite !elem_of_cons, elem_of_nil in Hsz.
  assert ((32 <? klen) = false) as -> by (apply Z.ltb_ge; lia).
  unfold has_payload. rewrite u32_small by (destruct Hsz as [->|[->|[->|[]]]]; done).
  simpl fifo_idx. destruct (_ <=? _); [|done]. simpl negb. cbn iota.
  assert (4 + Z.to_nat klen ≤ length (words_bytes 4 (fifo s)))%nat.
  { rewrite length_words_bytes. lia. }
  rewrite slice_at_some by done. cbn [mbind option_bind].
  by rewrite splice_at_some by (rewrite length_slice by done; lia).
Qed.

Lemma key_waits cmd klen :
  literal_key_cmd cmd klen → waits cmd (Z.to_nat (klen / 4)) (literal_mode cmd).
Proof.
  intros Hk s m Hs Hhd Hidx. unfold fifo_dispatch. rewrite (lk_op _ _ Hk). simpl.
  destruct (cmd_key_literal s cmd klen) as (old & _ & _ & ->); [done..|].
  destruct Hk as [_ _ _ _ Hsz]. rewrite !elem_of_cons, elem_of_nil in Hsz.
  rewrite Z2Nat.id in Hidx by (apply Z.div_pos; lia).
  assert ((klen / 4 + 1 <=? fifo_idx s) = false) as -> by (apply Z.leb_gt; lia). done.
Qed.

Lemma iv_waits cmd : opcode cmd = CMD_IV → waits cmd 4 None.
Proof.
  intros Hop s m Hs Hhd Hidx. unfold fifo_dispatch. rewrite Hop. simpl.
  unfold cmd_iv. rewrite Hhd. cbn [mbind option_bind].
  destruct (has_payload s 4) eqn:E; [apply has_payload_iff in E; lia|]. done.
Qed.

Lemma data_waits cmd : opcode cmd = CMD_DATA → waits cmd 3 None.
Proof.
  intros Hop s m Hs Hhd Hidx. unfold fifo_dispatch. rewrite Hop. simpl.
  unfold cmd_data. rewrite Hhd. destruct (fifo_word s 1) as (? & -> & _); [done|lia|].
  destruct (fifo_word s 2) as (? & -> & _); [done|lia|].
  destruct (fifo_word s 3) as (? & -> & _); [done|lia|]. cbn [mbind option_bind].
  destruct (has_payload s 3) eqn:E; [apply has_payload_iff in E; lia|]. done.
Qed.

Lemma fifo_writes_app s (m : M) ws ws' :
  fifo_writes (C := C) s m (ws ++ ws') =
    '(s', m') ← fifo_writes (C := C) s m ws; fifo_writes (C := C) s' m' ws'.
Proof.
  revert s m. induction ws as [|w ws IH]; intros s m; simpl; [done|].
  destruct (aes1_write _ _ _ _) as [[s1 m1]|]; simpl; [apply IH|done].
Qed.

Lemma slice_words_payload w ws l n :
  n = (4 * length ws)%nat → slice 4 n (words_bytes 4 (splice 0 (w :: ws) l)) = words_bytes 4 ws.
Proof.
  intros ->. rewrite splice_0, words_bytes_app, words_bytes_cons, <- app_assoc. unfold slice.
  rewrite drop_app_length' by (by rewrite length_le_bytes).
  by rewrite take_app_length' by (by rewrite length_words_bytes).
Qed.

Lemma fifo_process_pushed s (m : M) o cmd ws :
  fifo_process (C := C) (set_mode o (pushed s (cmd :: ws))) m =
    '(b, s', m') ← fifo_dispatch (C := C) (opcode cmd) (set_mode o (pushed s (cmd :: ws))) m;
    Some (if (b : bool) then s' <| fifo_idx := 0 |> else s', m').
Proof. by destruct o as [[??]|]. Qed.

(** The registers a job does not touch. *)
Definition same_irqs (s s' : AESState) : Prop :=
  irq_status s' = irq_status s ∧ irq_enable s' = irq_enable s ∧ irq_ok s'.

Lemma key_job s (m : M) cmd klen ws :
  aes_wf s → irq_ok s → fifo_idx s = 0 → literal_key_cmd cmd klen → is_u32 cmd →
  Forall is_u32 ws → Z.of_nat (length ws) = klen / 4 →
  ∃ s' k, fifo_writes (C := C) s m (cmd :: ws) = Some (s', m) ∧
    aes_wf s' ∧ same_irqs s s' ∧ fifo_idx s' = 0 ∧ ivs s' = ivs s ∧
    block_mode s' = cipher_mode (key_mode_of cmd) ∧ is_encrypt s' = key_encrypt_of cmd ∧
    keys s' !! Z.to_nat (key_ctxt cmd) = Some k ∧
    key_len k = klen ∧ take (Z.to_nat klen) (key k) = words_bytes 4 ws.
Proof.
  intros Hs Hirq Hidx Hk Hcmd Hws Hlen. pose proof (lk_size _ _ Hk) as Hsz.
  rewrite !elem_of_cons, elem_of_nil in Hsz.
  assert (klen = 4 * Z.of_nat (length ws)) as Hkl.
  { rewrite Hlen. by destruct Hsz as [->|[->|[->|[]]]]. }
  pose proof (key_waits _ _ Hk) as Hw. replace (Z.to_nat (klen / 4)) with (length ws) in Hw by lia.
  rewrite (fifo_writes_command _ _ _ _ (literal_mode cmd)) by auto with lia.
  assert (aes_wf (set_mode (literal_mode cmd) (pushed s (cmd :: ws)))) as Hp.
  { apply pushed_wf; [done|simpl; lia|by constructor]. }
  destruct (cmd_key_literal (set_mode (literal_mode cmd) (pushed s (cmd :: ws))) cmd klen)
    as (old & Hold & Hl & Hck); [done..|].
  rewrite (slice_words_payload cmd ws (fifo s)) in Hck by lia.
  rewrite fifo_process_pushed, (lk_op _ _ Hk). unfold fifo_dispatch. simpl Z.eqb. cbn iota. rewrite Hck. simpl fifo_idx.
  assert ((klen / 4 + 1 <=? Z.of_nat (S (length ws))) = true) as -> by (apply Z.leb_le; lia).
  change (keys s !! Z.to_nat (key_ctxt cmd) = Some old) in Hold. pose proof (lookup_lt_Some _ _ _ Hold) as Hlt.
  cbn [mbind option_bind]. eexists _, _. split; [reflexivity|].
  split_and!; [|done|reflexivity..| | |].
  - apply aes_update_irq_wf, set_fifo_idx_wf, set_key_wf; [done|]. split_and!; simpl.
    + rewrite !elem_of_cons. lia.
    + rewrite length_splice; [done|]. rewrite length_words_bytes. lia.
    + apply Forall_splice; auto with orchard. destruct Hs.
      by apply (Forall_lookup_1 _ _ _ _ wf_keys0 Hold).
  - by apply (list_lookup_insert_eq (keys s)).
  - done.
  - simpl. rewrite splice_0, take_app_length'; [done|]. rewrite length_words_bytes. lia.
Qed.

Lemma iv_job s (m : M) cmd ws :
  aes_wf s → irq_ok s → fifo_idx s = 0 → opcode cmd = CMD_IV → Z.testbit cmd 27 = false →
  is_u32 cmd → Forall is_u32 ws → length ws = 4%nat →
  ∃ s', fifo_writes (C := C) s m (cmd :: ws) = Some (s', m) ∧
    aes_wf s' ∧ same_irqs s s' ∧ fifo_idx s' = 0 ∧ keys s' = keys s ∧
    block_mode s' = block_mode s ∧ is_encrypt s' = is_encrypt s ∧ ivs s' !! 0%nat = Some ws.
Proof.
  intros Hs Hirq Hidx Hop Hb Hcmd Hws Hlen. pose proof (iv_waits _ Hop) as Hw. rewrite <- Hlen in Hw.
  rewrite (fifo_writes_command _ _ _ _ None) by auto with lia.
  assert (aes_wf (pushed s (cmd :: ws))) as Hp.
  { apply (pushed_wf s _ None); [done|simpl; lia|by constructor]. }
  assert (cmd_iv (pushed s (cmd :: ws)) =
    Some (true, (pushed s (cmd :: ws)) <| ivs := <[0%nat := ws]> (ivs s) |>)) as Hc.
  { unfold cmd_iv. assert (fifo (pushed s (cmd :: ws)) !! 0%nat = Some cmd) as -> by done.
    cbn [mbind option_bind].
    fold (iv_context cmd). rewrite iv_context_cases, Hb by (unfold opcode in Hop; by rewrite Hop).
    rewrite (proj2 (has_payload_iff _ 4 ltac:(lia))) by (simpl; lia). simpl negb. cbn iota.
    destruct (lookup_in_range (ivs s) 4 0) as [iv Hiv]; [by destruct Hs|lia|].
    change (ivs (pushed s (cmd :: ws))) with (ivs s). rewrite Hiv. cbn [mbind option_bind].
    rewrite slice_at_some by (rewrite (wf_fifo_length _ Hp); lia). cbn [mbind option_bind].
    assert (slice 1 4 (fifo (pushed s (cmd :: ws))) = ws) as ->
      by (apply (take_app_length' ws); by rewrite Hlen).
    done. }
  rewrite fifo_process_pushed, Hop. unfold fifo_dispatch, set_mode. simpl Z.eqb. cbn iota. rewrite Hc. cbn [mbind option_bind].
  eexists. split; [done|]. split_and!; try done.
  - apply aes_update_irq_wf, set_fifo_idx_wf. destruct Hp. constructor; simpl in *; try done; [by len|].
    by apply Forall_insert.
  - apply (list_lookup_insert_eq (ivs s)). destruct Hs. lia.
Qed.

(** The cipher for a key of [n] bytes. *)
Definition aes_of_length (n : nat) : option QCryptoCipherAlgo :=
  match n with
  | 16%nat => Some QCRYPTO_CIPHER_ALGO_AES_128
  | 24%nat => Some QCRYPTO_CIPHER_ALGO_AES_192
  | 32%nat => Some QCRYPTO_CIPHER_ALGO_AES_256
  | _ => None
  end.

Lemma aes_of_length_algo n alg : aes_of_length n = Some alg → cipher_algo (Z.of_nat n) = Some alg.
Proof. intros Hn. do 33 (destruct n as [|n]; [first [discriminate Hn|exact Hn]|]). discriminate Hn. Qed.

(** What a data command is for: decrypt or encrypt [len] bytes from [src] to
    [dst] with a key and an IV, [None] if any step of it fails. *)
Definition cipher_copy (bm : QCryptoCipherMode) (enc : bool) (kb ivb : list Z)
    (src dst len : Z) (m : M) : option M :=
  alg ← aes_of_length (length kb);
  c ← qcrypto_cipher_new (C := C) alg bm kb;
  c ← (if decide (bm = QCRYPTO_CIPHER_MODE_ECB) then Some c else qcrypto_cipher_setiv c ivb);
  match dma_memory_read m src (replicate (Z.to_nat len) 0) with
  | (0, data) =>
      out ← (if enc then qcrypto_cipher_encrypt c data else qcrypto_cipher_decrypt c data);
      match dma_memory_write m dst out with (0, m') => Some m' | _ => None end
  | _ => None
  end.

Lemma cmd_data_copy s (m m' : M) cmd f1 f2 f3 k iv :
  slice 0 4 (fifo s) = [cmd; f1; f2; f3] → 4 ≤ fifo_idx s →
  keys s !! Z.to_nat (Z.shiftr (Z.land cmd CMD_DATA_KEY_CTX_MASK) CMD_DATA_KEY_CTX_SHIFT) = Some k →
  ivs s !! 0%nat = Some iv → 0 ≤ key_len k ≤ Z.of_nat (length (key k)) →
  cipher_copy (block_mode s) (is_encrypt s) (take (Z.to_nat (key_len k)) (key k)) (words_bytes 4 iv)
    (cmd_data_src f1 f2) (cmd_data_dst f1 f3) (Z.land cmd CMD_DATA_LEN_MASK) m = Some m' →
  cmd_data (C := C) s m = Some (true, m').
Proof.
  intros Hf Hidx Hk Hiv Hkl Hc.
  assert (∀ i w, [cmd; f1; f2; f3] !! i = Some w → fifo s !! i = Some w) as Hw.
  { intros i w Hi. rewrite <- Hf in Hi. apply lookup_take_Some in Hi as [Hi _]. done. }
  unfold cmd_data. rewrite (Hw 0%nat cmd), (Hw 1%nat f1), (Hw 2%nat f2), (Hw 3%nat f3) by done.
  cbn [mbind option_bind]. rewrite Hk. change (Z.to_nat 0) with 0%nat. rewrite Hiv.
  rewrite (proj2 (has_payload_iff s 3 ltac:(lia))) by lia.
  pose proof (field_range cmd 1 27) as Hr. fold_fields.
  destruct (Z.leb_spec 2 (Z.shiftr (Z.land cmd (Z.shiftl 1 27)) 27)); [lia|].
  cbn [mbind option_bind negb orb]. simpl (4 <=? 0). cbn iota.
  unfold cipher_copy, cmd_data_cipher in *. rewrite length_take_le in Hc by lia.
  destruct (aes_of_length (Z.to_nat (key_len k))) as [alg|] eqn:Ea; [|done]. apply aes_of_length_algo in Ea.
  rewrite Z2Nat.id in Ea by lia. rewrite Ea. cbn [mbind option_bind] in *.
  destruct (qcrypto_cipher_new _ _ _) as [c|]; [|done]. cbn [mbind option_bind] in *.
  destruct (if decide _ then _ else _) as [c'|]; [|done]. cbn [mbind option_bind] in *.
  destruct (dma_memory_read _ _ _) as [r data]. destruct r; [|done..].
  simpl (negb _). cbn iota. destruct (if is_encrypt s then _ else _) as [out|]; [|done].
  cbn [mbind option_bind] in *. destruct (dma_memory_write _ _ _) as [r m1].
  destruct r; [|done..]. by injection Hc as ->.
Qed.

Lemma data_job s (m m' : M) cmd f1 f2 f3 k iv :
  aes_wf s → irq_ok s → fifo_idx s = 0 → opcode cmd = CMD_DATA → Forall is_u32 [cmd; f1; f2; f3] →
  keys s !! Z.to_nat (Z.shiftr (Z.land cmd CMD_DATA_KEY_CTX_MASK) CMD_DATA_KEY_CTX_SHIFT) = Some k →
  ivs s !! 0%nat = Some iv →
  cipher_copy (block_mode s) (is_encrypt s) (take (Z.to_nat (key_len k)) (key k)) (words_bytes 4 iv)
    (cmd_data_src f1 f2) (cmd_data_dst f1 f3) (Z.land cmd CMD_DATA_LEN_MASK) m = Some m' →
  ∃ s', fifo_writes (C := C) s m [cmd; f1; f2; f3] = Some (s', m') ∧
    aes_wf s' ∧ same_irqs s s' ∧ fifo_idx s' = 0.
Proof.
  intros Hs Hirq Hidx Hop Hws Hk Hiv Hc.
  apply Forall_cons in Hws as [Hcmd Hws].
  rewrite (fifo_writes_command _ _ _ _ None)
    by first [done | by apply data_waits | simpl; lia].
  rewrite fifo_process_pushed, Hop. unfold fifo_dispatch, set_mode. simpl Z.eqb. cbn iota.
  assert (key_wf k) as (Hk1 & Hk2 & _).
  { destruct Hs. by apply (Forall_lookup_1 _ _ _ _ wf_keys0 Hk). }
  rewrite (cmd_data_copy _ _ m' cmd f1 f2 f3 k iv); try done.
  - cbn [mbind option_bind]. eexists. split; [reflexivity|]. split_and!; try done.
    apply aes_update_irq_wf, set_fifo_idx_wf. apply (pushed_wf s _ None); [done|simpl; lia|by constructor].
  - rewrite !elem_of_cons, elem_of_nil in Hk1. lia.
Qed.

End commands_spec.

(** ** Properties *)

(** Memory safety of the device.  From the state QOM allocates, any sequence
    of guest register writes and resets is executed without an out-of-bounds
    access to the FIFO, the key contexts or the IV contexts, whatever the guest
    memory and the cipher do, and the state stays well formed. *)
Theorem aes_run_safe {M C : Type} `{Dma M, QCrypto C} (m : M) (ops : list aes_op) :
  ∃ s' m', aes_run (C := C) aes_init m ops = Some (s', m') ∧ aes_wf s'.
Proof. apply aes_run_wf, aes_init_wf. Qed.

(** *** The words a driver pushes

    A job for key context [ctx] (0 or 1): a literal key of [klen] bytes with the
    direction and mode, an IV for context 0, and a copy of [len] bytes between
    48-bit addresses. *)
Definition key_code (klen : Z) : Z := if klen =? 16 then 0 else if klen =? 24 then 1 else 2.
Definition key_word (ctx klen : Z) (enc cbc : bool) : Z :=
  0x10000000 + ctx * 2 ^ 27 + key_code klen * 2 ^ 22 + (if enc then 2 ^ 20 else 0) + (if cbc then 2 ^ 16 else 0).
Definition iv_word : Z := 0x20000000.
Definition data_word (ctx len : Z) : Z := 0x50000000 + ctx * 2 ^ 27 + len.
Definition address_words (src dst : Z) : list Z :=
  [(src / 2 ^ 32) * 2 ^ 16 + dst / 2 ^ 32; src mod 2 ^ 32; dst mod 2 ^ 32].

Lemma key_word_fields ctx klen enc cbc :
  ctx ∈ [0; 1] → klen ∈ [16; 24; 32] →
  let kc := key_word ctx klen enc cbc in
  literal_key_cmd kc klen ∧ key_ctxt kc = ctx ∧ key_encrypt_of kc = enc ∧ is_u32 kc ∧
  cipher_mode (key_mode_of kc) = if cbc then QCRYPTO_CIPHER_MODE_CBC else QCRYPTO_CIPHER_MODE_ECB.
Proof.
  intros Hc Hk. rewrite !elem_of_cons, elem_of_nil in Hc. rewrite !elem_of_cons, elem_of_nil in Hk.
  destruct Hc as [->|[->|[]]], Hk as [->|[->|[->|[]]]], enc, cbc;
    (split; [constructor; first [reflexivity|left; reflexivity|right; reflexivity|decide_done]|
             split_and!; first [reflexivity|decide_done]]).
Qed.

Lemma data_word_fields ctx len :
  ctx ∈ [0; 1] → 0 ≤ len < 2 ^ 24 →
  let dc := data_word ctx len in
  opcode dc = CMD_DATA ∧ Z.shiftr (Z.land dc CMD_DATA_KEY_CTX_MASK) CMD_DATA_KEY_CTX_SHIFT = ctx ∧
  Z.land dc CMD_DATA_LEN_MASK = len ∧ is_u32 dc.
Proof.
  intros Hc Hl. rewrite !elem_of_cons, elem_of_nil in Hc. cbv zeta. unfold opcode, data_word, is_u32.
  change CMD_DATA_KEY_CTX_MASK with ((2 ^ 1 - 1) * 2 ^ 27). change CMD_DATA_LEN_MASK with (2 ^ 24 - 1).
  rewrite land_field_mask, land_ones_mod, !Z.shiftr_div_pow2, Z.div_mul by done.
  change CMD_DATA with 5. change CMD_SHIFT with 28. destruct Hc as [->|[->|[]]]; split_and!; divlia.
Qed.

Lemma address_words_fields src dst :
  0 ≤ src < 2 ^ 48 → 0 ≤ dst < 2 ^ 48 →
  Forall is_u32 (address_words src dst) ∧
  cmd_data_src ((src / 2 ^ 32) * 2 ^ 16 + dst / 2 ^ 32) (src mod 2 ^ 32) = src ∧
  cmd_data_dst ((src / 2 ^ 32) * 2 ^ 16 + dst / 2 ^ 32) (dst mod 2 ^ 32) = dst.
Proof.
  intros Hs Hd. unfold address_words, cmd_data_src, cmd_data_dst.
  change 0xffff00000000 with ((2 ^ 16 - 1) * 2 ^ 32). rewrite !land_field_mask by done.
  rewrite !Z.shiftl_mul_pow2, !lor_disjoint by (done || apply Z.mod_pos_bound; done).
  split; [repeat constructor; divlia|]. split; divlia.
Qed.

Lemma job_words {M C : Type} `{Dma M, QCrypto C} (s : AESState) (m m' : M)
    kc klen kws ic ivw dc f1 f2 f3 :
  aes_wf s → irq_ok s → fifo_idx s = 0 →
  literal_key_cmd kc klen → Z.of_nat (length kws) = klen / 4 →
  opcode ic = CMD_IV → Z.testbit ic 27 = false → length ivw = 4%nat →
  opcode dc = CMD_DATA →
  Z.shiftr (Z.land dc CMD_DATA_KEY_CTX_MASK) CMD_DATA_KEY_CTX_SHIFT = key_ctxt kc →
  Forall is_u32 (kc :: kws) → Forall is_u32 (ic :: ivw) → Forall is_u32 [dc; f1; f2; f3] →
  cipher_copy (C := C) (cipher_mode (key_mode_of kc)) (key_encrypt_of kc)
    (words_bytes 4 kws) (words_bytes 4 ivw)
    (cmd_data_src f1 f2) (cmd_data_dst f1 f3) (Z.land dc CMD_DATA_LEN_MASK) m = Some m' →
  ∃ s', fifo_writes (C := C) s m ((kc :: kws) ++ (ic :: ivw) ++ [dc; f1; f2; f3]) = Some (s', m') ∧
    aes_wf s' ∧ fifo_idx s' = 0 ∧ irq s' = irq s ∧ irq_status s' = irq_status s.
Proof.
  intros Hs Hirq Hidx Hk Hkl Hi Hib Hil Hd Hctx [Hkc Hkws]%Forall_cons [Hic Hivw]%Forall_cons Hdw Hc.
  destruct (key_job s m kc klen kws) as
    (s1 & k & E1 & Hs1 & (Hst1 & Hen1 & Hirq1) & Hidx1 & _ & Hbm1 & Henc1 & Hkey1 & Hkl1 & Hkb1); [done..|].
  destruct (iv_job s1 m ic ivw) as
    (s2 & E2 & Hs2 & (Hst2 & Hen2 & Hirq2) & Hidx2 & Hkeys2 & Hbm2 & Henc2 & Hiv2); [done..|].
  destruct (data_job s2 m m' dc f1 f2 f3 k ivw) as (s3 & E3 & Hs3 & (Hst3 & Hen3 & Hirq3) & Hidx3);
    try done.
  { by rewrite Hkeys2, Hctx. }
  { by rewrite Hbm2, Henc2, Hbm1, Henc1, Hkl1, Hkb1. }
  exists s3. rewrite !fifo_writes_app, E1. cbn [mbind option_bind]. rewrite fifo_writes_app, E2.
  cbn [mbind option_bind]. rewrite E3. split_and!; try done; [|congruence].
  unfold irq_ok in *. congruence.
Qed.

(** C25: a whole job, word by word.  A driver that pushes a literal key with its
    direction and mode, an IV, and a copy between two 48-bit addresses, each encoded
    in the words of the interface, gets exactly the copy it asked for: the memory is
    [cipher_copy] of the key bytes, the IV bytes and the addresses, the FIFO is empty
    again and no interrupt is raised. *)
Theorem aes_job {M C : Type} `{Dma M, QCrypto C} (s : AESState) (m m' : M) ctx klen enc (cbc : bool) kws ivw src dst len :
  aes_wf s → irq_ok s → fifo_idx s = 0 → ctx ∈ [0; 1] → klen ∈ [16; 24; 32] →
  Z.of_nat (length kws) = klen / 4 → Forall is_u32 kws → length ivw = 4%nat → Forall is_u32 ivw →
  0 ≤ src < 2 ^ 48 → 0 ≤ dst < 2 ^ 48 → 0 ≤ len < 2 ^ 24 →
  cipher_copy (C := C) (if cbc then QCRYPTO_CIPHER_MODE_CBC else QCRYPTO_CIPHER_MODE_ECB) enc
    (words_bytes 4 kws) (words_bytes 4 ivw) src dst len m = Some m' →
  ∃ s', fifo_writes (C := C) s m
      ((key_word ctx klen enc cbc :: kws) ++ (iv_word :: ivw) ++ data_word ctx len :: address_words src dst) = Some (s', m') ∧
    aes_wf s' ∧ fifo_idx s' = 0 ∧ irq s' = irq s ∧ irq_status s' = irq_status s.
Proof.
  intros Hs Hirq Hidx Hc Hk Hkl Hkw Hil Hiw Hsrc Hdst Hlen Hcopy.
  destruct (key_word_fields ctx klen enc cbc Hc Hk) as (Hlit & Hctx & Henc & Hku & Hmode).
  destruct (data_word_fields ctx len Hc Hlen) as (Hop & Hdc & Hdl & Hdu).
  destruct (address_words_fields src dst Hsrc Hdst) as (Hau & Hsa & Hda).
  apply (job_words s m m' (key_word ctx klen enc cbc) klen kws iv_word ivw); try done.
  - congruence.
  - by constructor.
  - by constructor.
  - by constructor.
  - by rewrite Hmode, Henc, Hsa, Hda, Hdl.
Qed.

(** A concrete cipher for the interface: xor with the first key and IV bytes. *)
#[export] Instance xor_cipher : QCrypto (Z * Z) := {
  qcrypto_cipher_new _ _ kb := k ← head kb; Some (k, 0);
  qcrypto_cipher_setiv c ivb := v ← head ivb; Some (c.1, v);
  qcrypto_cipher_encrypt c data := Some (Z.lxor (Z.lxor c.1 c.2) <$> data);
  qcrypto_cipher_decrypt c data := Some (Z.lxor (Z.lxor c.1 c.2) <$> data)
}.

(** A 128-bit CBC encryption of 16 bytes from 0x100 to 0x120. *)
Lemma aes_job_witness :
  ∃ s',
    fifo_writes (C := Z * Z) aes_init (mkRam 0x100 (replicate 64 0xa5))
      ((key_word 0 16 true true :: [0x0f; 2; 3; 4]) ++ (iv_word :: [0xf0; 6; 7; 8]) ++
       data_word 0 16 :: address_words 0x100 0x120) =
      Some (s', mkRam 0x100 (replicate 32 0xa5 ++ replicate 16 0x5a ++ replicate 16 0xa5)) ∧
    aes_wf s' ∧ fifo_idx s' = 0 ∧ irq s' = irq aes_init ∧ irq_status s' = irq_status aes_init.
Proof.
  apply (aes_job aes_init _ _ 0 16 true true [0x0f; 2; 3; 4] [0xf0; 6; 7; 8] 0x100 0x120 16);
    try decide_done; try reflexivity; [exact aes_init_wf|decide_done..].
Defined.

(** the interrupt line follows the masked status.  After every guest write to
    a register the device implements, from any well-formed state, the line is high
    exactly when an enabled status bit is set. *)
Theorem aes_write_irq {M C : Type} `{Dma M, QCrypto C} s (m : M) offset val :
  aes_wf s → offset ∈ [REG_IRQ_STATUS; REG_IRQ_ENABLE; REG_FIFO] →
  ∃ s' m', aes1_write (C := C) s m offset val = Some (s', m') ∧
    irq s' = negb (Z.land (irq_status s') (irq_enable s') =? 0).
Proof.
  intros Hs Ho. unfold aes1_write.
  assert (offset = REG_IRQ_STATUS ∨ offset = REG_IRQ_ENABLE ∨ offset = REG_FIFO) as [->|[->| ->]]
    by (rewrite !elem_of_cons, elem_of_nil in Ho; tauto); simpl; try by eauto.
  pose proof (fifo_append_wf s val) as Ha. rewrite fifo_append_spec in * by done. cbn [mbind option_bind].
  destruct (fifo_process_safe _ m (Ha _ Hs eq_refl)) as (s' & m' & -> & ?). by eauto.
Qed.

Lemma aes_write_irq_witness :
  ∃ s' m', aes1_write (C := Z * Z) (aes_init <| irq_enable := 0x20 |>) (mkRam 0 []) REG_FIFO 0x88000007
      = Some (s', m') ∧ irq s' = negb (Z.land (irq_status s') (irq_enable s') =? 0).
Proof.
  apply aes_write_irq; [constructor; decide_done|decide_done].
Defined.

(** The FIFO is stuck behind the word [w], whose opcode the device does not know. *)
Definition wedged (w : Z) (s : AESState) : Prop :=
  fifo s !! 0%nat = Some w ∧ 0 < fifo_idx s ∧
  opcode w ∉ [CMD_KEY; CMD_IV; CMD_DATA; CMD_STORE_IV; CMD_FLAG].

Lemma wedged_write {M C : Type} `{Dma M, QCrypto C} w s (m : M) offset val :
  aes_wf s → wedged w s →
  ∃ s', aes1_write (C := C) s m offset val = Some (s', m) ∧ aes_wf s' ∧ wedged w s' ∧
    keys s' = keys s ∧ ivs s' = ivs s.
Proof.
  intros Hs (Hw & Hidx & Hop).
  destruct (aes1_write_safe (C := C) s m offset val Hs) as (s' & m' & E & Hs').
  assert (m' = m ∧ wedged w s' ∧ keys s' = keys s ∧ ivs s' = ivs s) as (-> & ?);
    [|eauto 8]. clear Hs'. unfold aes1_write in E. repeat case_match; simplify_eq/=; try done.
  rewrite fifo_append_spec in E by done. cbn [mbind option_bind] in E.
  revert E. set (s1 := if _ =? _ then _ else _).
  assert (fifo s1 !! 0%nat = Some w ∧ 0 < fifo_idx s1 ∧ keys s1 = keys s ∧ ivs s1 = ivs s)
    as (Hw1 & Hidx1 & Hk1 & Hi1).
  { subst s1. case_match; [done|]. simpl. split_and!; try done; [|lia].
    by rewrite list_lookup_insert_ne by lia. }
  unfold fifo_process, fifo_dispatch. rewrite Hw1. cbn [mbind option_bind]. fold (opcode w).
  destruct (Z.eqb_spec (fifo_idx s1) 0); [lia|]. rewrite !elem_of_cons in Hop.
  repeat (case_match; reflect_bools; [exfalso; tauto|]). cbn [mbind option_bind].
  intros [= <- <-]. unfold wedged. simpl. rewrite !elem_of_cons. tauto.
Qed.

(** a command with an unknown opcode at the head of the FIFO is never
    discarded.  Once it is there, no sequence of register writes and resets
    changes the key contexts, the IV contexts or guest memory again: the engine
    executes no further command, because neither the invalid-command path nor
    [aes_reset] empties the FIFO. *)
Theorem aes_invalid_command_wedges {M C : Type} `{Dma M, QCrypto C} w s (m : M) ops :
  aes_wf s → wedged w s →
  ∃ s', aes_run (C := C) s m ops = Some (s', m) ∧ wedged w s' ∧ keys s' = keys s ∧ ivs s' = ivs s.
Proof.
  revert s. induction ops as [|[offset val|] ops IH]; intros s Hs Hw; simpl; [by eauto| |].
  - destruct (wedged_write (C := C) w s m offset val) as (s1 & -> & Hs1 & Hw1 & Hk & Hi); [done..|].
    cbn [mbind option_bind]. rewrite <- Hk, <- Hi. by apply IH.
  - apply (IH (aes_reset s)); [by apply aes_reset_wf|done].
Qed.

(** One write of the unimplemented CMD_DSB (opcode 3) is enough. *)
Lemma aes_invalid_command_wedges_witness :
  ∃ s1, aes_run (C := Z * Z) aes_init (mkRam 0 []) [AesWrite REG_FIFO 0x30000000] = Some (s1, mkRam 0 []) ∧
  ∃ s', aes_run (C := Z * Z) s1 (mkRam 0 []) [AesReset; AesWrite REG_FIFO 0x1f000000] = Some (s', mkRam 0 []) ∧
    wedged 0x30000000 s' ∧ keys s' = keys s1 ∧ ivs s' = ivs s1.
Proof.
  eexists. split; [vm_compute; reflexivity|].
  apply aes_invalid_command_wedges; [constructor; decide_done|].
  split; [reflexivity|]. split; [reflexivity|decide_done].
Defined.

(** [aes_reset] clears the interrupt registers without lowering the line: a
    guest that enables the flag interrupt, raises it with a flag command and
    resets the device finds the line high with no status bit and no enable bit. *)
Theorem aes_reset_keeps_irq :
  ∃ s', aes_run (C := Z * Z) aes_init (mkRam 0 [])
      [AesWrite REG_IRQ_ENABLE REG_IRQ_STATUS_FLAG; AesWrite REG_FIFO 0x88000000; AesReset] = Some (s', mkRam 0 []) ∧
    irq s' = true ∧ irq_status s' = 0 ∧ irq_enable s' = 0.
Proof. eexists. split; [vm_compute; reflexivity|done]. Qed.
