(* ===== verification/Gicv2m.v ===== *)
(** The GICv2m MSI frame, src/qemu/hw/intc/arm_gicv2m.c.

    A guest write to the SETSPI register raises and lowers one of the device's
    interrupt lines; [gicv2m_write] returns the resulting sequence of line
    levels.  Indexing the line array beyond [GICV2M_NUM_SPI_MAX] is [None]. *)
From S2P Require Import Prelude.

Definition GICV2M_NUM_SPI_MAX : Z := 128.
Definition V2M_MSI_TYPER : Z := 0x008.
Definition V2M_MSI_SETSPI_NS : Z := 0x040.
Definition V2M_MSI_IIDR : Z := 0xFCC.
Definition V2M_IIDR0 : Z := 0xFD0.
Definition V2M_IIDR11 : Z := 0xFFC.
Definition PRODUCT_ID_QEMU : Z := 0x51.

Record ARMGICv2mState := mkGicv2m { base_spi : Z; num_spi : Z; macos_compat : Z }.

(** qemu_irq_pulse: the line goes up and down again. *)
Definition gicv2m_set_irq (irq : Z) : option (list (Z * bool)) :=
  if (0 <=? irq) && (irq <? GICV2M_NUM_SPI_MAX) then Some [(irq, true); (irq, false)] else None.

Definition gicv2m_read (s : ARMGICv2mState) (offset size : Z) : Z :=
  if negb (size =? 4) then 0
  else if offset =? V2M_MSI_TYPER then
    let val := u32 (Z.shiftl (u32 (base_spi s + 32)) 16) in
    let val := Z.lor val (num_spi s) in
    if nz (macos_compat s) then u32 (Z.lor val (BIT 31)) else val
  else if offset =? V2M_MSI_IIDR then Z.shiftl PRODUCT_ID_QEMU 20
  else if (V2M_IIDR0 <=? offset) && (offset <=? V2M_IIDR11) then 0
  else 0.

Definition gicv2m_write (s : ARMGICv2mState) (offset value size : Z) : option (list (Z * bool)) :=
  if negb (size =? 2) && negb (size =? 4) then Some []
  else if offset =? V2M_MSI_SETSPI_NS then
    let spi := s32 (u64 (Z.land value 0x3ff - u32 (base_spi s + 32))) in
    if (0 <=? spi) && (spi <? num_spi s) then gicv2m_set_irq spi else Some []
  else Some [].

(** Accepts or refuses the properties; on success lines 0 .. num_spi-1 exist. *)
Definition gicv2m_realize (s : ARMGICv2mState) : bool :=
  if GICV2M_NUM_SPI_MAX <? num_spi s then false
  else if u32 (1020 - num_spi s) <? u32 (base_spi s + 32) then false
  else true.

Definition gicv2m_wf (s : ARMGICv2mState) : Prop := is_u32 (base_spi s) ∧ is_u32 (num_spi s).

(** The first interrupt id of the frame, as the code computes it. *)
Definition first_id (s : ARMGICv2mState) : Z := u32 (base_spi s + 32).

Lemma realize_bounds s :
  gicv2m_wf s → gicv2m_realize s = true →
  0 ≤ num_spi s ≤ GICV2M_NUM_SPI_MAX ∧ 0 ≤ first_id s ∧ first_id s + num_spi s ≤ 1020.
Proof.
  unfold gicv2m_wf, gicv2m_realize, first_id, GICV2M_NUM_SPI_MAX, is_u32. intros [? ?] ?.
  repeat case_match; [done..|]. reflect_bools. pose proof (u32_range (base_spi s + 32)) as [? _].
  rewrite (u32_small (1020 - _)) in * by (unfold is_u32; lia). lia.
Qed.

Lemma spi_index s v :
  0 ≤ first_id s ≤ 1020 →
  s32 (u64 (Z.land v 0x3ff - first_id s)) = Z.land v 0x3ff - first_id s.
Proof.
  intros. pose proof (land_range v 0x3ff ltac:(lia)). unfold s32.
  assert (u32 (u64 (Z.land v 0x3ff - first_id s)) = u32 (Z.land v 0x3ff - first_id s)) as ->.
  { unfold u32, u64. change 0x10000000000000000 with (0x100000000 * 0x100000000).
    rewrite Z.rem_mul_r by lia. rewrite Z.mul_comm, Z.mod_add, Z.mod_mod by lia. done. }
  destruct (Z.le_gt_cases 0 (Z.land v 0x3ff - first_id s)).
  - rewrite u32_small by (unfold is_u32; lia). case_match; reflect_bools; lia.
  - assert (u32 (Z.land v 0x3ff - first_id s) = Z.land v 0x3ff - first_id s + 0x100000000) as ->.
    { unfold u32. symmetry. apply Z.mod_unique with (-1); lia. }
    case_match; reflect_bools; lia.
Qed.

(** a write to SETSPI pulses exactly the line of the interrupt id it names.
    For a realized frame and a 2- or 4-byte write, line [i] is pulsed when the low
    ten bits of the value are the frame's first id plus [i] with [i < num_spi];
    any other value pulses nothing, and the line array is never indexed out of
    bounds. *)
Theorem gicv2m_write_pulses s value size :
  gicv2m_wf s → gicv2m_realize s = true → size = 2 ∨ size = 4 →
  let i := value mod 1024 - first_id s in
  gicv2m_write s V2M_MSI_SETSPI_NS value size =
    Some (if bool_decide (0 ≤ i < num_spi s) then [(i, true); (i, false)] else []).
Proof.
  intros Hwf Hr Hsz i. destruct (realize_bounds s Hwf Hr) as (Hn & Hf & Hid).
  unfold gicv2m_write. fold (first_id s). rewrite spi_index by lia.
  change 0x3ff with (2 ^ 10 - 1). rewrite land_ones_mod by lia. change (2 ^ 10) with 1024. fold i.
  replace (negb (size =? 2) && negb (size =? 4)) with false by (destruct Hsz as [->| ->]; done).
  simpl (V2M_MSI_SETSPI_NS =? _). cbn iota. unfold gicv2m_set_irq, GICV2M_NUM_SPI_MAX in *.
  destruct (Z.leb_spec 0 i), (Z.ltb_spec i (num_spi s)), (Z.ltb_spec i 128); cbn [andb];
    case_bool_decide; done || lia.
Qed.

Lemma gicv2m_write_pulses_witness :
  gicv2m_write (mkGicv2m 80 32 1) V2M_MSI_SETSPI_NS 115 4 = Some [(3, true); (3, false)].
Proof.
  exact (gicv2m_write_pulses (mkGicv2m 80 32 1) 115 4 ltac:(decide_done) eq_refl (or_intror eq_refl)).
Defined.

(** The driver's view of TYPER: first id, number of ids, and the top bit. *)
Definition typer_base (t : Z) : Z := Z.land (Z.shiftr t 16) 0x3ff.
Definition typer_num (t : Z) : Z := Z.land t 0x3ff.

Definition typer_word (f n : Z) (compat : bool) : Z :=
  Z.lor (Z.lor (Z.shiftl f 16) n) (if compat then BIT 31 else 0).

Lemma typer_value s :
  gicv2m_wf s → gicv2m_realize s = true →
  gicv2m_read s V2M_MSI_TYPER 4 = typer_word (first_id s) (num_spi s) (nz (macos_compat s)).
Proof.
  intros Hwf Hr. destruct (realize_bounds s Hwf Hr) as (Hn & Hf & Hid).
  unfold gicv2m_read, typer_word. simpl (negb _). simpl (_ =? V2M_MSI_TYPER). cbn iota. fold (first_id s).
  unfold GICV2M_NUM_SPI_MAX in Hn.
  assert (is_u32 (Z.shiftl (first_id s) 16)) as Hsh.
  { rewrite Z.shiftl_mul_pow2 by lia. unfold is_u32. change (2 ^ 16) with 65536. lia. }
  rewrite (u32_small _ Hsh).
  assert (is_u32 (num_spi s)) by (unfold is_u32; lia).
  destruct (nz _); [|by rewrite Z.lor_0_r]. apply u32_small. apply lor_u32; [by apply lor_u32|done].
Qed.

Lemma typer_fields f n compat :
  0 ≤ f < 1024 → 0 ≤ n ≤ 128 →
  typer_base (typer_word f n compat) = f ∧ typer_num (typer_word f n compat) = n ∧
  Z.testbit (typer_word f n compat) 31 = compat.
Proof.
  intros Hf Hn. unfold typer_base, typer_num, typer_word. split_and!.
  - rewrite !Z.shiftr_lor, Z.shiftr_shiftl_l, Z.sub_diag, Z.shiftl_0_r by lia.
    rewrite (shiftr_above n 10) by (split; lia). rewrite Z.lor_0_r, Z.land_lor_distr_l.
    change 0x3ff with (2 ^ 10 - 1). rewrite !land_ones_mod by lia. change (2 ^ 10) with 1024.
    rewrite (Z.mod_small f) by lia. destruct compat; apply Z.lor_0_r.
  - rewrite !Z.land_lor_distr_l. change 0x3ff with (2 ^ 10 - 1). rewrite !land_ones_mod by lia.
    rewrite Z.shiftl_mul_pow2 by lia. change (2 ^ 16) with (64 * 2 ^ 10).
    rewrite Z.mul_assoc, Z.mod_mul by lia. change (2 ^ 10) with 1024. rewrite (Z.mod_small n) by lia.
    destruct compat; apply Z.lor_0_r.
  - rewrite !Z.lor_spec, Z.shiftl_spec by lia.
    rewrite (testbit_above f 10), (testbit_above n 10) by (change (2 ^ 10) with 1024; lia).
    by destruct compat.
Qed.

(** a driver that reads TYPER can reach every line.  The id and count fields
    it decodes are those of the frame whether or not the macOS compatibility bit
    is set, that bit is what bit 31 shows, and writing (first id + i) to SETSPI
    for any [i] below the count it read pulses line [i]. *)
Theorem gicv2m_typer_roundtrip s i :
  gicv2m_wf s → gicv2m_realize s = true →
  let t := gicv2m_read s V2M_MSI_TYPER 4 in
  typer_base t = first_id s ∧ typer_num t = num_spi s ∧ Z.testbit t 31 = nz (macos_compat s) ∧
  (0 ≤ i < typer_num t →
   gicv2m_write s V2M_MSI_SETSPI_NS (typer_base t + i) 4 = Some [(i, true); (i, false)]).
Proof.
  intros Hwf Hr t. destruct (realize_bounds s Hwf Hr) as (Hn & Hf & Hid).
  unfold GICV2M_NUM_SPI_MAX in Hn.
  assert (typer_base t = first_id s ∧ typer_num t = num_spi s ∧ Z.testbit t 31 = nz (macos_compat s))
    as (Hb & Hc & H31).
  { unfold t. rewrite (typer_value s) by done. apply typer_fields; lia. }
  split_and!; [done..|]. intros Hi. rewrite Hc in Hi. rewrite Hb.
  unfold gicv2m_write. simpl (_ && _). simpl (_ =? V2M_MSI_SETSPI_NS). cbn iota. fold (first_id s).
  rewrite spi_index by lia. change 0x3ff with (2 ^ 10 - 1). rewrite land_ones_mod by lia.
  rewrite Z.mod_small by (change (2 ^ 10) with 1024; lia). replace (_ + i - _) with i by lia.
  unfold gicv2m_set_irq, GICV2M_NUM_SPI_MAX.
  destruct (Z.leb_spec 0 i), (Z.ltb_spec i (num_spi s)), (Z.ltb_spec i 128); done || lia.
Qed.

Lemma gicv2m_typer_roundtrip_witness :
  gicv2m_read (mkGicv2m 80 32 1) V2M_MSI_TYPER 4 = 0x80700020 ∧
  gicv2m_write (mkGicv2m 80 32 1) V2M_MSI_SETSPI_NS (0x70 + 5) 4 = Some [(5, true); (5, false)].
Proof.
  split; [reflexivity|].
  destruct (gicv2m_typer_roundtrip (mkGicv2m 80 32 1) 5 ltac:(decide_done) eq_refl) as (_ & _ & _ & Hw).
  apply Hw. split; done.
Defined.

(** the range check of realize is done in 32 bits.  For every base within 32 of
    2^32 the sum base_spi + 32 wraps, and realize accepts a frame whose ids, taken
    as integers, lie far beyond the limit of 1020; the frame then answers to the
    ids from base_spi + 32 - 2^32 on, which are SGIs and PPIs. *)
Theorem gicv2m_realize_wraps base num compat :
  0xffffffe0 ≤ base < 0x100000000 → 0 ≤ num ≤ GICV2M_NUM_SPI_MAX →
  let s := mkGicv2m base num compat in
  gicv2m_realize s = true ∧ 1020 < base + 32 + num ∧ first_id s = base + 32 - 0x100000000 ∧ first_id s < 32.
Proof.
  intros Hb Hn s. unfold GICV2M_NUM_SPI_MAX in Hn.
  assert (first_id s = base + 32 - 0x100000000) as E.
  { unfold first_id, u32. simpl. symmetry. apply Z.mod_unique with 1; lia. }
  unfold gicv2m_realize. fold (first_id s). rewrite E. simpl.
  rewrite u32_small by (unfold is_u32; lia). unfold GICV2M_NUM_SPI_MAX.
  destruct (Z.ltb_spec 128 num), (Z.ltb_spec (1020 - num) (base + 32 - 0x100000000));
    split_and!; done || lia.
Qed.

Lemma gicv2m_realize_wraps_witness :
  gicv2m_realize (mkGicv2m 0xfffffff0 32 0) = true ∧ first_id (mkGicv2m 0xfffffff0 32 0) = 16.
Proof.
  destruct (gicv2m_realize_wraps 0xfffffff0 32 0) as (H & _ & E & _);
    [split; done|split; done|]. split; [exact H|exact E].
Defined.
