(* ===== verification/Bdif.v ===== *)
(** The vmapple backdoor interface, src/qemu/hw/vmapple/bdif.c.

    Two block devices (root and aux) that execute requests found in guest memory,
    and a USB byte channel to a character device.  Guest memory, block backends
    and the character device are interfaces.  [usb_input] is allocated by
    bdif_init and freed by bdif_finalize, so the null checks of the code are false
    between the two and the model has the array itself.  A request that would
    reach an absent block backend is [None]. *)
From S2P Require Import Prelude Dma.

(** ** Constants *)
Definition KiB : Z := 1024.
Definition MiB : Z := 1024 * 1024.
Definition REG_DEVID_MASK : Z := 0xffff0000.
Definition DEVID_ROOT : Z := 0x00000000.
Definition DEVID_AUX : Z := 0x00010000.
Definition DEVID_USB : Z := 0x00100000.
Definition REG_STATUS : Z := 0x0.
Definition REG_STATUS_ACTIVE : Z := BIT 0.
Definition REG_CFG : Z := 0x4.
Definition REG_CFG_ACTIVE : Z := BIT 1.
Definition REG_CFG_USB : Z := 0x1a01.
Definition REG_UNK1 : Z := 0x8.
Definition REG_BUSY : Z := 0x10.
Definition REG_BUSY_READY : Z := BIT 0.
Definition REG_UNK2 : Z := 0x400.
Definition REG_CMD : Z := 0x408.
Definition REG_QUEUE : Z := 0x410.
Definition REG_NEXT_DEVICE : Z := 0x420.
Definition REG_UNK3 : Z := 0x434.
Definition VBLK_DATA_FLAGS_READ : Z := 0x00030001.
Definition VBLK_DATA_FLAGS_WRITE : Z := 0x00010001.
Definition VBLK_RET_SUCCESS : Z := 0.
Definition VBLK_RET_FAILED : Z := 1.
Definition VUSB_MAX_PACKET : Z := 128 * KiB.
Definition VUSB_MAX_TX : Z := 4096.
Definition VUSB_MAX_RX : Z := 2 * (VUSB_MAX_PACKET + 4).

(** ** The interfaces the device is built on *)

(** blk_pread and blk_pwrite of a block backend: a negative result is an error. *)
Class Blk (B : Type) := {
  blk_pread : B → Z → Z → Z * list Z;
  blk_pwrite : B → Z → list Z → Z * B
}.

(** A successful write is what a read of the same range returns; a read fills the
    buffer it is given. *)
Class BlkLaws (B : Type) `{Blk B} : Prop := {
  blk_read_written b off data r b' :
    blk_pwrite b off data = (r, b') → 0 ≤ r →
    ∃ r', 0 ≤ r' ∧ blk_pread b' off (Z.of_nat (length data)) = (r', data);
  blk_read_length b off len : length (blk_pread b off len).2 = Z.to_nat len
}.

(** A character device: whether a backend is attached, and writing all of a
    buffer to it, which returns how many bytes it took. *)
Class Chr (Ch : Type) := {
  chr_connected : Ch → bool;
  chr_write_all : Ch → list Z → Z * Ch
}.

(** The queue-0 events the code traces, with the bytes that leave the buffer. *)
Inductive q0_event :=
  | Q0Deliver (addr : Z) (payload : list Z)
  | Q0DmaFail (addr : Z) (payload : list Z)
  | Q0DropBadlen (bytes : list Z).

Section bdif.
Context {M B Ch : Type} `{Dma M, Blk B, Chr Ch}.

Record VMAppleBdifState := mkBdif {
  aux : option B;
  root : option B;
  usbdev : Ch;
  usb_input : list Z;
  usb_queue : Z;
  usb_rx_ready : bool;
  usb_rx_posted : bool;
  usb_rx_addr : Z;
  usb_rx_len : Z;
  usb_rx_pending : bool;
  usb_rx_pending_addr : Z;
  usb_rx_pending_len : Z;
  usb_trace : list q0_event   (* the trace points that consume input *)
}.
#[export] Instance eta_bdif : Settable VMAppleBdifState := λ r,
  mkBdif (aux r) (root r) (usbdev r) (usb_input r) (usb_queue r) (usb_rx_ready r)
    (usb_rx_posted r) (usb_rx_addr r) (usb_rx_len r) (usb_rx_pending r)
    (usb_rx_pending_addr r) (usb_rx_pending_len r) (usb_trace r).

Definition bdif_usb_enabled (s : VMAppleBdifState) : bool := chr_connected (usbdev s).

Definition vusb_reset_state (s : VMAppleBdifState) : VMAppleBdifState :=
  s <| usb_queue := 0 |> <| usb_rx_ready := false |> <| usb_rx_posted := false |>
    <| usb_rx_addr := 0 |> <| usb_rx_len := 0 |> <| usb_rx_pending := false |>
    <| usb_rx_pending_addr := 0 |> <| usb_rx_pending_len := 0 |> <| usb_input := [] |>.

(** ** USB: host to guest *)
Definition bdif_usb_q0_trace (s : VMAppleBdifState) (e : q0_event) : VMAppleBdifState :=
  s <| usb_trace := usb_trace s ++ [e] |>.

Definition vusb_try_deliver (s : VMAppleBdifState) (m : M) : VMAppleBdifState * M :=
  if negb (usb_rx_posted s) || usb_rx_ready s || (Z.of_nat (length (usb_input s)) <? 4) then (s, m)
  else
    let len := le_val (take 4 (usb_input s)) in
    if VUSB_MAX_PACKET <? len then
      ((bdif_usb_q0_trace s (Q0DropBadlen (usb_input s))) <| usb_input := [] |>, m)
    else if Z.of_nat (length (usb_input s)) <? 4 + len then (s, m)
    else if usb_rx_len s <? len then (s, m)
    else
      let payload := slice 4 (Z.to_nat len) (usb_input s) in
      let '(s, m) :=
        if len =? 0 then
          (bdif_usb_q0_trace (s <| usb_rx_ready := true |>) (Q0Deliver (usb_rx_addr s) payload), m)
        else
          let '(dma_result, m) := dma_memory_write m (usb_rx_addr s) payload in
          if negb (dma_result =? MEMTX_OK) then
            (bdif_usb_q0_trace s (Q0DmaFail (usb_rx_addr s) payload), m)
          else
            (bdif_usb_q0_trace (s <| usb_rx_ready := true |>) (Q0Deliver (usb_rx_addr s) payload), m) in
      (s <| usb_input := drop (Z.to_nat (4 + len)) (usb_input s) |>, m).

Definition vusb_can_receive (s : VMAppleBdifState) : Z :=
  if VUSB_MAX_RX <=? Z.of_nat (length (usb_input s)) then 0
  else VUSB_MAX_RX - Z.of_nat (length (usb_input s)).

Definition vusb_receive (s : VMAppleBdifState) (m : M) (buf : list Z) : VMAppleBdifState * M :=
  let size := Z.of_nat (length buf) in
  if size <=? 0 then (s, m)
  else if VUSB_MAX_RX <=? Z.of_nat (length (usb_input s)) then (s, m)
  else if VUSB_MAX_RX <? Z.of_nat (length (usb_input s)) + size then (s, m)
  else vusb_try_deliver (s <| usb_input := usb_input s ++ buf |>) m.

Inductive QEMUChrEvent :=
  | CHR_EVENT_BREAK | CHR_EVENT_OPENED | CHR_EVENT_MUX_IN | CHR_EVENT_MUX_OUT | CHR_EVENT_CLOSED.

Definition vusb_event (s : VMAppleBdifState) (event : QEMUChrEvent) : VMAppleBdifState :=
  match event with
  | CHR_EVENT_CLOSED | CHR_EVENT_BREAK =>
      s <| usb_rx_ready := false |> <| usb_rx_posted := false |> <| usb_rx_pending := false |>
        <| usb_rx_pending_addr := 0 |> <| usb_rx_pending_len := 0 |> <| usb_input := [] |>
  | _ => s
  end.

(** ** USB: guest commands *)
Record VUsbDesc := mkVUsbDesc { desc_addr : Z; desc_len : Z; desc_next : Z; desc_flags : Z }.

Definition le2cpu_desc (words : list Z) : VUsbDesc :=
  mkVUsbDesc (le_val (slice 0 8 words)) (le_val (slice 8 4 words))
    (le_val (slice 12 2 words)) (le_val (slice 14 2 words)).

(** Queue 0: the guest posts a receive buffer. *)
Definition vusb_post (s : VMAppleBdifState) (m : M) (desc : VUsbDesc) : VMAppleBdifState * M :=
  if (desc_len desc =? 0) || (VUSB_MAX_PACKET <? desc_len desc) then (s, m)
  else if usb_rx_ready s then
    (s <| usb_rx_pending_addr := desc_addr desc |> <| usb_rx_pending_len := desc_len desc |>
       <| usb_rx_pending := true |>, m)
  else
    vusb_try_deliver (s <| usb_rx_addr := desc_addr desc |> <| usb_rx_len := desc_len desc |>
                        <| usb_rx_posted := true |>) m.

(** Queue 1: the guest sends a buffer. *)
Definition vusb_send (s : VMAppleBdifState) (m : M) (desc : VUsbDesc) : VMAppleBdifState :=
  if (desc_len desc =? 0) || (VUSB_MAX_TX <? desc_len desc) then s
  else
    let '(dma_result, buf) := dma_memory_read m (desc_addr desc) (replicate (Z.to_nat (desc_len desc)) 0) in
    if negb (dma_result =? MEMTX_OK) then s
    else if chr_connected (usbdev s) then
      let '(r, ch) := chr_write_all (usbdev s) (le_bytes 4 (desc_len desc)) in
      if negb (r =? 4) then s <| usbdev := ch |>
      else
        let '(r, ch) := chr_write_all ch buf in
        s <| usbdev := ch |>
    else s.

Definition vusb_cmd (s : VMAppleBdifState) (m : M) (gp_addr : Z) : VMAppleBdifState * M :=
  let '(dma_result, words) := dma_memory_read m gp_addr (replicate 128 0) in
  if negb (dma_result =? MEMTX_OK) then (s, m)
  else
    let desc := le2cpu_desc words in
    if usb_queue s =? 0 then vusb_post s m desc
    else if usb_queue s =? 1 then (vusb_send s m desc, m)
    else (s, m).

(** ** Block requests *)
Record VblkReqCmd := mkReqCmd { rc_addr : Z; rc_len : Z; rc_flags : Z }.
Record VblkReq := mkReq { req_sector : VblkReqCmd; req_data : VblkReqCmd; req_retval : VblkReqCmd }.

(** The 16- and 48-byte structures as they lie in guest memory. *)
Definition le2cpu_reqcmd (bs : list Z) : VblkReqCmd :=
  mkReqCmd (le_val (slice 0 8 bs)) (le_val (slice 8 4 bs)) (le_val (slice 12 4 bs)).
Definition le2cpu_req (bs : list Z) : VblkReq :=
  mkReq (le2cpu_reqcmd (slice 0 16 bs)) (le2cpu_reqcmd (slice 16 16 bs)) (le2cpu_reqcmd (slice 32 16 bs)).
Definition le2cpu_sector (bs : list Z) : Z := le_val (slice 8 4 bs).

(** The body of vblk_cmd up to the label [out], once the request is in [req]:
    the return code, the backend and the memory. *)
Definition vblk_body (blk : option B) (m : M) (req : VblkReq) (static_off : Z) :
    option (Z * option B * M) :=
  if negb (rc_len (req_sector req) =? 16) then Some (VBLK_RET_FAILED, blk, m)
  else
    let '(dma_result, sector) := dma_memory_read m (rc_addr (req_sector req)) (replicate 16 0) in
    if negb (dma_result =? MEMTX_OK) then Some (VBLK_RET_FAILED, blk, m)
    else
      let off := u64 (le2cpu_sector sector * 512 + static_off) in
      let data := req_data req in
      if 128 * MiB <? rc_len data then Some (VBLK_RET_FAILED, blk, m)
      else if rc_flags data =? VBLK_DATA_FLAGS_READ then
        b ← blk;
        let '(r, buf) := blk_pread b off (rc_len data) in
        if r <? 0 then Some (VBLK_RET_FAILED, blk, m)
        else
          let '(dma_result, m) := dma_memory_write m (rc_addr data) buf in
          Some (if dma_result =? MEMTX_OK then VBLK_RET_SUCCESS else VBLK_RET_FAILED, blk, m)
      else if rc_flags data =? VBLK_DATA_FLAGS_WRITE then
        let '(dma_result, buf) := dma_memory_read m (rc_addr data) (replicate (Z.to_nat (rc_len data)) 0) in
        if negb (dma_result =? MEMTX_OK) then Some (VBLK_RET_FAILED, blk, m)
        else
          b ← blk;
          let '(r, b) := blk_pwrite b off buf in
          if r <? 0 then Some (VBLK_RET_FAILED, Some b, m)
          else Some (VBLK_RET_SUCCESS, Some b, m)
      else Some (VBLK_RET_FAILED, blk, m).

(** [stack] is what the automatic variable [req] holds before the request is
    read into it: when that read fails, the return address is taken from there. *)
Definition vblk_cmd (stack : list Z) (blk : option B) (m : M) (gp_addr static_off : Z) :
    option (option B * M) :=
  let '(dma_result, bytes) := dma_memory_read m gp_addr stack in
  let req := le2cpu_req bytes in
  '(ret, blk, m) ←
    (if negb (dma_result =? MEMTX_OK) then Some (VBLK_RET_FAILED, blk, m)
     else vblk_body blk m req static_off);
  Some (blk, (dma_memory_write m (rc_addr (req_retval req)) [ret]).2).

(** ** Register accesses *)
Definition bdif_read (s : VMAppleBdifState) (m : M) (offset : Z) : Z * VMAppleBdifState * M :=
  let devid := Z.land offset REG_DEVID_MASK in
  let reg := Z.land offset (0xffffffff - REG_DEVID_MASK) in
  if reg =? REG_STATUS then (REG_STATUS_ACTIVE, s, m)
  else if reg =? REG_CFG then
    (if (devid =? DEVID_USB) && bdif_usb_enabled s then REG_CFG_USB else REG_CFG_ACTIVE, s, m)
  else if reg =? REG_UNK1 then (0x420, s, m)
  else if reg =? REG_BUSY then
    if (devid =? DEVID_USB) && bdif_usb_enabled s && (usb_queue s =? 0) then
      let ret := if usb_rx_ready s then REG_BUSY_READY else 0 in
      if usb_rx_ready s then
        let s := s <| usb_rx_posted := false |> <| usb_rx_ready := false |> in
        if usb_rx_pending s then
          let s := s <| usb_rx_pending := false |> <| usb_rx_addr := usb_rx_pending_addr s |>
                     <| usb_rx_len := usb_rx_pending_len s |> <| usb_rx_pending_addr := 0 |>
                     <| usb_rx_pending_len := 0 |> <| usb_rx_posted := true |> in
          let '(s, m) := vusb_try_deliver s m in
          (ret, s, m)
        else (ret, s, m)
      else (ret, s, m)
    else (REG_BUSY_READY, s, m)
  else if reg =? REG_UNK2 then (0x1, s, m)
  else if reg =? REG_QUEUE then
    (if (devid =? DEVID_USB) && bdif_usb_enabled s then usb_queue s else UINT64_MAX, s, m)
  else if reg =? REG_UNK3 then (0x0, s, m)
  else if reg =? REG_NEXT_DEVICE then
    (if devid =? DEVID_ROOT then 0x8000000
     else if devid =? DEVID_AUX then 0x10000 else UINT64_MAX, s, m)
  else (UINT64_MAX, s, m).

Definition bdif_write (stack : list Z) (s : VMAppleBdifState) (m : M) (offset value : Z) :
    option (VMAppleBdifState * M) :=
  let devid := Z.land offset REG_DEVID_MASK in
  let reg := Z.land offset (0xffffffff - REG_DEVID_MASK) in
  if reg =? REG_QUEUE then
    if (devid =? DEVID_USB) && bdif_usb_enabled s then
      Some (if 1 <? value then s else s <| usb_queue := u32 value |>, m)
    else Some (s, m)
  else if reg =? REG_CMD then
    if devid =? DEVID_ROOT then
      '(b, m) ← vblk_cmd stack (root s) m value 0x0; Some (s <| root := b |>, m)
    else if devid =? DEVID_AUX then
      '(b, m) ← vblk_cmd stack (aux s) m value 0x0; Some (s <| aux := b |>, m)
    else if devid =? DEVID_USB then
      Some (if bdif_usb_enabled s then vusb_cmd s m value else (s, m))
    else Some (s, m)
  else Some (s, m).

(** bdif_init on the zeroed object QOM allocates, with its properties set. *)
Definition bdif_init (aux root : option B) (usbdev : Ch) : VMAppleBdifState :=
  mkBdif aux root usbdev [] 0 false false 0 0 false 0 0 [].

Definition bdif_reset (s : VMAppleBdifState) : VMAppleBdifState := vusb_reset_state s.

(** Everything that happens to the device: guest accesses, input and events of
    the character device, reset.  A front end calls [vusb_receive] with at most
    [vusb_can_receive] bytes; the model does not assume it. *)
Inductive bdif_op :=
  | BdifRead (offset : Z)
  | BdifWrite (stack : list Z) (offset value : Z)
  | BdifReceive (buf : list Z)
  | BdifEvent (event : QEMUChrEvent)
  | BdifReset.

Definition bdif_step (s : VMAppleBdifState) (m : M) (op : bdif_op) : option (VMAppleBdifState * M) :=
  match op with
  | BdifRead offset => let '(_, s, m) := bdif_read s m offset in Some (s, m)
  | BdifWrite stack offset value => bdif_write stack s m offset value
  | BdifReceive buf => Some (vusb_receive s m buf)
  | BdifEvent event => Some (vusb_event s event, m)
  | BdifReset => Some (bdif_reset s, m)
  end.

Fixpoint bdif_run (s : VMAppleBdifState) (m : M) (ops : list bdif_op) : option (VMAppleBdifState * M) :=
  match ops with
  | [] => Some (s, m)
  | op :: ops => '(s, m) ← bdif_step s m op; bdif_run s m ops
  end.

End bdif.

(** ** The receive path *)
Section receive.
Context {M B Ch : Type} `{Dma M, Blk B, Chr Ch}.
Local Abbreviation state := (VMAppleBdifState (B := B) (Ch := Ch)).

(** The state machine of queue 0: idle, posted, ready, ready with a repost. *)
Record bdif_inv (s : state) : Prop := {
  inv_input : Z.of_nat (length (usb_input s)) ≤ VUSB_MAX_RX;
  inv_bytes : Forall is_u8 (usb_input s);
  inv_queue : usb_queue s = 0 ∨ usb_queue s = 1;
  inv_ready : usb_rx_ready s = true → usb_rx_posted s = true;
  inv_pending : usb_rx_pending s = true → usb_rx_ready s = true;
  inv_posted_len : usb_rx_posted s = true → 1 ≤ usb_rx_len s ≤ VUSB_MAX_PACKET;
  inv_pending_len : usb_rx_pending s = true → 1 ≤ usb_rx_pending_len s ≤ VUSB_MAX_PACKET
}.

(** The bytes a traced event takes out of the input buffer. *)
Definition wire (e : q0_event) : list Z :=
  match e with
  | Q0Deliver _ payload | Q0DmaFail _ payload => le_bytes 4 (Z.of_nat (length payload)) ++ payload
  | Q0DropBadlen bytes => bytes
  end.

(** The fields a delivery does not touch. *)
Definition same_queue (s s' : state) : Prop :=
  usb_queue s' = usb_queue s ∧ usb_rx_posted s' = usb_rx_posted s ∧
  usb_rx_addr s' = usb_rx_addr s ∧ usb_rx_len s' = usb_rx_len s ∧
  usb_rx_pending s' = usb_rx_pending s ∧ usb_rx_pending_addr s' = usb_rx_pending_addr s ∧
  usb_rx_pending_len s' = usb_rx_pending_len s ∧
  aux s' = aux s ∧ root s' = root s ∧ usbdev s' = usbdev s.

Lemma head_frame (l : list Z) len :
  Forall is_u8 l → le_val (take 4 l) = len → 4 + len ≤ Z.of_nat (length l) → 0 ≤ len →
  l = le_bytes 4 (Z.of_nat (length (slice 4 (Z.to_nat len) l))) ++
      slice 4 (Z.to_nat len) l ++ drop (Z.to_nat (4 + len)) l.
Proof.
  intros Hb Hv Hl Hnn. rewrite length_slice by lia. rewrite Z2Nat.id by lia.
  assert (length (take 4 l) = 4%nat) as Ht by (rewrite length_take; lia).
  rewrite <- Hv at 1. rewrite <- Ht at 1. rewrite le_bytes_val by (by apply Forall_take).
  rewrite <- (take_drop 4 l) at 1. f_equal. unfold slice.
  rewrite Z2Nat.inj_add by lia. change (Z.to_nat 4) with 4%nat.
  rewrite <- drop_drop. by rewrite take_drop.
Qed.

(** The outcomes of a delivery attempt: nothing happens, or exactly one event is
    traced and exactly its bytes leave the head of the buffer. *)
Lemma try_deliver_cases (s s' : state) (m m' : M) :
  Forall is_u8 (usb_input s) → vusb_try_deliver s m = (s', m') →
  (s' = s ∧ m' = m) ∨
  (same_queue s s' ∧ usb_rx_posted s = true ∧ usb_rx_ready s = false ∧
   ∃ e, usb_trace s' = usb_trace s ++ [e] ∧ usb_input s = wire e ++ usb_input s' ∧
     match e with
     | Q0Deliver a p => a = usb_rx_addr s ∧ Z.of_nat (length p) ≤ usb_rx_len s ∧
         usb_rx_ready s' = true ∧ (p = [] ∧ m' = m ∨ dma_memory_write m a p = (MEMTX_OK, m'))
     | Q0DmaFail a p => a = usb_rx_addr s ∧ Z.of_nat (length p) ≤ usb_rx_len s ∧ usb_rx_ready s' = false ∧
         ∃ r, r ≠ MEMTX_OK ∧ dma_memory_write m a p = (r, m')
     | Q0DropBadlen bytes => usb_rx_ready s' = false ∧ m' = m ∧ (4 ≤ length bytes)%nat ∧ VUSB_MAX_PACKET < le_val (take 4 bytes)
     end).
Proof.
  intros Hb. unfold vusb_try_deliver. case_match eqn:Hg; [intros [= <- <-]; by left|].
  apply orb_false_iff in Hg as [[Hp Hr]%orb_false_iff H4]. reflect_bools.
  case_match eqn:Hbad; reflect_bools.
  { intros [= <- <-]. right. unfold same_queue. simpl. split_and!; try done.
    exists (Q0DropBadlen (usb_input s)). split_and!; [done|by rewrite app_nil_r|done|done|lia|done]. }
  case_match; [intros [= <- <-]; by left|]. case_match; [intros [= <- <-]; by left|]. reflect_bools.
  set (len := le_val (take 4 (usb_input s))) in *.
  assert (0 ≤ len) by (apply le_val_range; by apply Forall_take).
  pose proof (head_frame (usb_input s) len Hb eq_refl ltac:(lia) ltac:(lia)) as Hf.
  assert (Z.of_nat (length (slice 4 (Z.to_nat len) (usb_input s))) = len) as Hsl.
  { rewrite length_slice by lia. lia. }
  set (p := slice 4 (Z.to_nat len) (usb_input s)) in *.
  repeat case_match; simplify_eq/=; intros [= <- <-]; right; unfold same_queue; simpl;
    reflect_bools; (split_and!; [done..|]).
  - exists (Q0Deliver (usb_rx_addr s) p). split_and!; [done|exact Hf|done|lia|done|].
    left. split; [|done]. destruct p; [done|simpl in *; lia].
  - exists (Q0DmaFail (usb_rx_addr s) p). split_and!; [done|exact Hf|done|lia|done|]. by eauto.
  - exists (Q0Deliver (usb_rx_addr s) p). split_and!; [done|exact Hf|done|lia|done|].
    right. by subst.
Qed.

(** What every traced event looks like. *)
Definition event_ok (e : q0_event) : Prop :=
  match e with
  | Q0Deliver _ p | Q0DmaFail _ p => Z.of_nat (length p) ≤ VUSB_MAX_PACKET
  | Q0DropBadlen bytes => (4 ≤ length bytes)%nat ∧ VUSB_MAX_PACKET < le_val (take 4 bytes)
  end.

(** Every byte taken from the character device since the stream began, when the trace was [past],
    is in an event or still buffered. *)
Record stream_inv (s : state) (past : list q0_event) (recv : list Z) : Prop := {
  st_inv : bdif_inv s;
  st_bytes : ∃ es, usb_trace s = past ++ es ∧ flat_map wire es ++ usb_input s = recv;
  st_events : Forall event_ok (usb_trace s)
}.

Lemma try_deliver_stream (s : state) (m : M) past recv :
  stream_inv s past recv → stream_inv (vusb_try_deliver s m).1 past recv.
Proof.
  intros [[Hi Hb Hq Hr Hp Hpl Hppl] Hs He].
  destruct (vusb_try_deliver s m) as [s' m'] eqn:E; simpl.
  destruct (try_deliver_cases s s' m m' Hb E)
    as [[-> _]|((Eq & Epo & Ead & Elen & Epe & Epa & Epl & _) & Hpo & Hre & e & Htr & Hin & Hcase)];
    [by split|].
  assert (usb_rx_pending s = false) as Hnp by (destruct (usb_rx_pending s); [by rewrite Hp in Hre|done]).
  split; [split|..]; rewrite ?Eq, ?Epo, ?Elen, ?Epe, ?Epl, ?Hnp; try done.
  - rewrite Hin, length_app in Hi. lia.
  - rewrite Hin in Hb. by apply Forall_app in Hb as [_ ?].
  - destruct Hs as (es & Ees & Hs). exists (es ++ [e]). split; [by rewrite Htr, Ees, app_assoc|].
    by rewrite flat_map_app, <- Hs, Hin, <- app_assoc; simpl; rewrite app_nil_r.
  - rewrite Htr. apply Forall_app. split; [done|]. constructor; [|done].
    specialize (Hpl Hpo). destruct e; simpl in *; lia.
Qed.

(** Posting and promoting a buffer keep the invariant up to the delivery. *)
Lemma post_stream (s : state) past recv addr len :
  stream_inv s past recv → usb_rx_ready s = false → 1 ≤ len ≤ VUSB_MAX_PACKET →
  stream_inv (s <| usb_rx_addr := addr |> <| usb_rx_len := len |> <| usb_rx_posted := true |>) past recv.
Proof. intros [[] ? ?] Hr ?. split; [split|..]; simpl; done. Qed.

Lemma receive_stream (s : state) (m : M) past recv buf :
  stream_inv s past recv → Forall is_u8 buf →
  stream_inv (vusb_receive s m buf).1 past
    (recv ++ if Z.of_nat (length buf) <=? vusb_can_receive s then buf else []).
Proof.
  intros Hs Hbuf. unfold vusb_receive, vusb_can_receive.
  destruct (Z.leb_spec (Z.of_nat (length buf)) 0).
  { destruct buf; [|simpl in *; lia]. by case_match; rewrite app_nil_r. }
  destruct (Z.leb_spec VUSB_MAX_RX (Z.of_nat (length (usb_input s)))).
  { destruct (Z.leb_spec (Z.of_nat (length buf)) 0); [lia|]. by rewrite app_nil_r. }
  destruct (Z.ltb_spec VUSB_MAX_RX (Z.of_nat (length (usb_input s)) + Z.of_nat (length buf))).
  { destruct (Z.leb_spec (Z.of_nat (length buf)) (VUSB_MAX_RX - Z.of_nat (length (usb_input s)))); [lia|].
    by rewrite app_nil_r. }
  destruct (Z.leb_spec (Z.of_nat (length buf)) (VUSB_MAX_RX - Z.of_nat (length (usb_input s)))); [|lia].
  apply try_deliver_stream. destruct Hs as [[] Hst ?]. split; [split|..]; simpl; try done.
  - rewrite length_app. lia.
  - by apply Forall_app.
  - destruct Hst as (es & Ees & <-). exists es. by rewrite app_assoc.
Qed.

Lemma vusb_post_stream (s : state) (m : M) past recv desc :
  stream_inv s past recv → 0 ≤ desc_len desc → stream_inv (vusb_post s m desc).1 past recv.
Proof.
  intros Hs ?. unfold vusb_post. case_match; [done|]. reflect_bools. case_match eqn:Hr.
  - destruct Hs as [[] ? ?]. split; [split|..]; simpl; try done. intros. lia.
  - apply try_deliver_stream, post_stream; [done|done|lia].
Qed.

Lemma vusb_send_stream (s : state) (m : M) past recv desc :
  stream_inv s past recv → stream_inv (vusb_send s m desc) past recv.
Proof. intros [[] ? ?]. unfold vusb_send. repeat case_match; simplify_eq/=; by split; [split|..]. Qed.

Lemma vusb_cmd_stream `{!DmaLaws M} (s : state) (m : M) past recv gp :
  stream_inv s past recv → stream_inv (vusb_cmd s m gp).1 past recv.
Proof.
  intros Hs. unfold vusb_cmd. destruct (dma_memory_read m gp (replicate 128 0)) as [r words] eqn:E.
  repeat case_match; simpl; auto using vusb_send_stream. apply vusb_post_stream; [done|].
  simpl. apply le_val_range, Forall_slice. pose proof (dma_read_byte m gp (replicate 128 0)) as Hb.
  rewrite E in Hb. apply Hb. by apply Forall_replicate.
Qed.

Lemma bdif_read_stream (s : state) (m : M) past recv offset :
  stream_inv s past recv → stream_inv (bdif_read s m offset).1.2 past recv.
Proof.
  intros Hs. unfold bdif_read. repeat (case_match; simpl; try done); simplify_eq/=.
  - match goal with E : vusb_try_deliver ?x ?m = _ |- _ =>
      pose proof (try_deliver_stream x m past recv) as Ht; rewrite E in Ht; apply Ht end.
    destruct Hs as [[] ? ?]. split; [split|..]; simpl; by auto.
  - destruct Hs as [[] ? ?]. split; [split|..]; simpl; done || congruence.
Qed.

(** Closing the channel and reset forget the buffer: a new stream starts. *)
Definition restarts (op : bdif_op) : bool :=
  match op with
  | BdifEvent CHR_EVENT_CLOSED | BdifEvent CHR_EVENT_BREAK | BdifReset => true
  | _ => false
  end.

(** The arguments have their C types: bytes, and unsigned register values. *)
Definition op_ok (op : bdif_op) : Prop :=
  match op with
  | BdifReceive buf => Forall is_u8 buf
  | BdifWrite _ _ value => is_u64 value
  | _ => True
  end.

(** The bytes the device took, of those the character device offered. *)
Definition op_accepts (s : state) (op : bdif_op) : list Z :=
  match op with
  | BdifReceive buf => if Z.of_nat (length buf) <=? vusb_can_receive s then buf else []
  | _ => []
  end.

Definition drives (s : state) : Prop := is_Some (aux s) ∧ is_Some (root s).

Lemma vblk_body_some b (m : M) req off :
  ∃ ret b' m', vblk_body (Some b) m req off = Some (ret, Some b', m').
Proof. unfold vblk_body. repeat (case_match; simplify_eq/=); by eauto. Qed.

Lemma vblk_cmd_some stack b (m : M) gp off :
  ∃ b' m', vblk_cmd stack (Some b) m gp off = Some (Some b', m').
Proof.
  unfold vblk_cmd. case_match. destruct (negb _); simpl; [by eauto|].
  destruct (vblk_body_some b m (le2cpu_req l) off) as (? & ? & ? & ->). simpl. by eauto.
Qed.

Lemma try_deliver_drives (s : state) (m : M) :
  aux (vusb_try_deliver s m).1 = aux s ∧ root (vusb_try_deliver s m).1 = root s.
Proof. unfold vusb_try_deliver. repeat (case_match; simplify_eq/=); done. Qed.

Ltac keep_drives :=
  match goal with |- context [vusb_try_deliver ?x ?m] =>
    destruct (try_deliver_drives x m) as [-> ->]; done end.

Lemma vusb_cmd_drives (s : state) (m : M) gp :
  aux (vusb_cmd s m gp).1 = aux s ∧ root (vusb_cmd s m gp).1 = root s.
Proof.
  unfold vusb_cmd, vusb_post, vusb_send.
  repeat (case_match; simplify_eq/=; try done); keep_drives.
Qed.

Lemma set_drives_stream (s : state) past recv a r :
  stream_inv s past recv →
  stream_inv (s <| aux := a |>) past recv ∧ stream_inv (s <| root := r |>) past recv.
Proof. intros [[] ? ?]. by split; (split; [split|..]). Qed.

Lemma bdif_write_stream `{!DmaLaws M} stack (s : state) (m : M) past recv offset value :
  stream_inv s past recv → drives s → is_u64 value →
  ∃ s' m', bdif_write stack s m offset value = Some (s', m') ∧ stream_inv s' past recv ∧ drives s'.
Proof.
  intros Hs Hd Hv. pose proof Hd as [[a Ha] [r Hr]]. unfold bdif_write.
  case_match; [case_match; [|by eauto]|case_match; [|by eauto]; case_match; [|case_match; [|case_match]]].
  - eexists _, _; split; [done|]. case_match; [done|]. reflect_bools.
    assert (value = 0 ∨ value = 1) as [->| ->] by (unfold is_u64 in *; lia);
      destruct Hs as [[] ? ?]; (split; [split; [split|..]; simpl; by auto|done]).
  - rewrite Hr. destruct (vblk_cmd_some stack r m value 0) as (b' & m' & ->).
    eexists _, _; split; [done|].
    split; [exact (proj2 (set_drives_stream s past recv None (Some b') Hs))|split; [by exists a|by eexists]].
  - rewrite Ha. destruct (vblk_cmd_some stack a m value 0) as (b' & m' & ->).
    eexists _, _; split; [done|].
    split; [exact (proj1 (set_drives_stream s past recv (Some b') None Hs))|split; [by eexists|by exists r]].
  - case_match; [|by eauto]. rewrite (surjective_pairing (vusb_cmd s m value)).
    eexists _, _; split; [done|]. split; [by apply vusb_cmd_stream|].
    unfold drives. by destruct (vusb_cmd_drives s m value) as [-> ->].
  - by eauto.
Qed.

(** One step of a stream: nothing is lost between the character device and the trace. *)
Lemma bdif_step_stream `{!DmaLaws M} (s : state) (m : M) past recv op :
  stream_inv s past recv → drives s → op_ok op → restarts op = false →
  ∃ s' m', bdif_step s m op = Some (s', m') ∧
    stream_inv s' past (recv ++ op_accepts s op) ∧ drives s'.
Proof.
  intros Hs Hd Hop Hre. destruct op as [offset|stack offset value|buf|event|]; simpl in *.
  - pose proof (bdif_read_stream s m past recv offset Hs) as Hr.
    assert (drives (bdif_read s m offset).1.2) as Hd'.
    { unfold bdif_read. repeat (case_match; simpl; try done); simplify_eq/=.
      match goal with E : vusb_try_deliver ?x ?m = _ |- _ =>
        pose proof (try_deliver_drives x m) as Ht; rewrite E in Ht end.
      unfold drives in *. simpl in *. by destruct Ht as [-> ->]. }
    destruct (bdif_read s m offset) as [[v s'] m']. rewrite app_nil_r. by eauto.
  - rewrite app_nil_r. by apply bdif_write_stream.
  - rewrite (surjective_pairing (vusb_receive s m buf)). eexists _, _; split; [done|].
    split; [by apply receive_stream|]. unfold vusb_receive, drives in *.
    repeat case_match; try done.
    keep_drives.
  - rewrite app_nil_r. destruct event; simpl in *; by eauto.
  - done.
Qed.
(** A restart leaves the queue idle and the buffer empty. *)
Lemma bdif_restart_stream (s : state) (m : M) past recv op :
  stream_inv s past recv → drives s → restarts op = true →
  ∃ s', bdif_step s m op = Some (s', m) ∧ stream_inv s' (usb_trace s) [] ∧ drives s' ∧ usb_trace s' = usb_trace s.
Proof.
  intros [[] ? ?] Hd Hre. destruct op as [| | |[]|]; try done; (eexists; split; [done|]; split; [|done]);
    (split; [split|exists []|]; simpl; rewrite ?app_nil_r; (done || (unfold VUSB_MAX_RX, VUSB_MAX_PACKET, KiB; by auto with lia))).
Qed.

(** The bytes accepted in each stream of a run, the last being the one still open. *)
Fixpoint bdif_streams (s : state) (m : M) (ops : list bdif_op) (current : list Z) : list (list Z) :=
  match ops with
  | [] => [current]
  | op :: ops =>
      match bdif_step s m op with
      | None => [current]
      | Some (s', m') =>
          if restarts op then current :: bdif_streams s' m' ops [] else bdif_streams s' m' ops (current ++ op_accepts s op)
      end
  end.
(** The events of each stream account for a beginning of its bytes: what is left of a closed
    stream was forgotten, and what is left of the open one is buffered. *)
Definition accounts (buffered : list Z) (streams : list (list Z)) (events : list (list q0_event)) : Prop :=
  ∃ lefts, Forall3 (λ bytes es left, bytes = flat_map wire es ++ left) streams events lefts ∧ last lefts = Some buffered.

Lemma bdif_run_stream `{!DmaLaws M} ops : ∀ (s : state) (m : M) past recv,
  stream_inv s past recv → drives s → Forall op_ok ops →
  ∃ s' m' evs, bdif_run s m ops = Some (s', m') ∧ bdif_inv s' ∧ Forall event_ok (usb_trace s') ∧
    usb_trace s' = past ++ concat evs ∧ accounts (usb_input s') (bdif_streams s m ops recv) evs.
Proof.
  induction ops as [|op ops IH]; intros s m past recv Hs Hd Hok; simpl.
  { pose proof Hs as [Hi (es & Et & Er) He]. exists s, m, [es]. split_and!; [done..|by rewrite Et; simpl; rewrite app_nil_r|].
    exists [usb_input s]. split; [|done]. repeat constructor. done. }
  apply Forall_cons in Hok as [Ho Hok]. destruct (restarts op) eqn:Er.
  - destruct (bdif_restart_stream s m past recv op Hs Hd Er) as (s1 & -> & Hs1 & Hd1 & Et1).
    destruct (IH s1 m (usb_trace s) [] Hs1 Hd1 Hok) as (s' & m' & evs & E & Hi & He & Et & lefts & Hl & Hlast).
    pose proof Hs as [_ (es & Ees & Hr) _]. exists s', m', (es :: evs). cbn [mbind option_bind]. split_and!; [done..|by rewrite Et, Ees; simpl; rewrite app_assoc|].
    exists (usb_input s :: lefts). split; [by constructor|]. destruct lefts; [done|]. done.
  - destruct (bdif_step_stream s m past recv op) as (s1 & m1 & -> & Hs1 & Hd1); [done..|]. cbn [mbind option_bind]. by apply IH.
Qed.

Lemma bdif_init_stream a r ch : stream_inv (bdif_init a r ch) [] [].
Proof.
  split; [split|exists []|]; simpl; unfold VUSB_MAX_RX, VUSB_MAX_PACKET, KiB; done || auto with lia.
Qed.

(** A frame as the character device sends it, and the payload of an event. *)
Definition frame (p : list Z) : list Z := le_bytes 4 (Z.of_nat (length p)) ++ p.
Definition payload (e : q0_event) : list Z :=
  match e with Q0Deliver _ p | Q0DmaFail _ p => p | Q0DropBadlen _ => [] end.

Lemma frame_header (p rest : list Z) :
  Z.of_nat (length p) ≤ VUSB_MAX_PACKET → le_val (take 4 (frame p ++ rest)) = Z.of_nat (length p).
Proof.
  intros. unfold frame. rewrite <- app_assoc, take_app_length' by (by rewrite length_le_bytes).
  rewrite le_val_bytes. apply Z.mod_small. unfold VUSB_MAX_PACKET, KiB in *. split; [lia|].
  change (2 ^ (8 * Z.of_nat 4)) with 0x100000000. lia.
Qed.

(** Not discarded as malformed. *)
Definition whole (e : q0_event) : Prop := match e with Q0DropBadlen _ => False | _ => True end.
(** A stream of well-formed frames has only one reading. *)
Lemma events_are_frames es rest fs :
  Forall event_ok es → Forall (λ p, Z.of_nat (length p) ≤ VUSB_MAX_PACKET) fs →
  flat_map wire es ++ rest `prefix_of` flat_map frame fs →
  payload <$> es = take (length es) fs ∧ Forall whole es.
Proof.
  revert fs. induction es as [|e es IH]; intros fs He Hf Hp; [done|].
  apply Forall_cons in He as [He Hes]. cbn [flat_map] in Hp. rewrite <- app_assoc in Hp.
  assert (4 ≤ length (wire e))%nat as Hw.
  { destruct e; simpl in *; rewrite ?length_app; simpl; lia. }
  destruct fs as [|f fs].
  { apply prefix_nil_inv in Hp. apply (f_equal length) in Hp. rewrite length_app in Hp. simpl in Hp. lia. }
  apply Forall_cons in Hf as [Hf Hfs]. cbn [flat_map] in Hp. destruct Hp as [tl Htl].
  assert (le_val (take 4 (wire e)) = Z.of_nat (length f)) as Hhd.
  { rewrite <- (frame_header f (flat_map frame fs)) by done. rewrite Htl.
    rewrite <- !app_assoc, (take_app_le (wire e)) by done. done. }
  assert (∃ p, payload e = p ∧ wire e = frame p ∧ whole e ∧ length p = length f) as (p & Hpe & Hwe & Hwh & Hlen).
  { destruct e as [a p|a p|bs]; simpl in He; [| |simpl in Hhd; lia].
    all: exists p; split_and!; [done|done|done|]; apply Nat2Z.inj; rewrite <- Hhd.
    all: rewrite <- (app_nil_r (wire _)); symmetry; by apply (frame_header p []). }
  rewrite Hwe in Htl. unfold frame in Htl at 1 3. rewrite Hlen, <- !app_assoc in Htl.
  apply app_inv_head in Htl. apply app_inj_1 in Htl as [-> Htl]; [|done].
  destruct (IH fs Hes Hfs) as [Ep Hw']; [exists tl; by rewrite <- app_assoc|]. split; [simpl; rewrite Hpe; f_equal; exact Ep|by constructor].
Qed.

Lemma streams_are_frames buffered streams evs fss : accounts buffered streams evs → Forall event_ok (concat evs) →
  Forall (Forall (λ p, Z.of_nat (length p) ≤ VUSB_MAX_PACKET)) fss → Forall2 (λ bytes fs, bytes `prefix_of` flat_map frame fs) streams fss →
  Forall whole (concat evs) ∧ Forall2 (λ es fs, payload <$> es = take (length es) fs) evs fss.
Proof.
  intros (lefts & Hl & _). revert fss. induction Hl as [|bytes es left streams evs lefts -> _ IH]; intros fss He Hf Hp.
  { apply Forall2_nil_inv_l in Hp as ->. by split. }
  apply Forall2_cons_inv_l in Hp as (fs & fss' & Hpre & Hp & ->). apply Forall_cons in Hf as [Hf Hfs]. apply Forall_app in He as [He Hes].
  destruct (events_are_frames es left fs He Hf Hpre) as [E Hw]. destruct (IH fss' Hes Hfs Hp) as [Hw' E'].
  split; [by apply Forall_app|by constructor].
Qed.

End receive.

(** ** Properties of the USB channel *)

(** C24: the device keeps its queue-0 state machine and loses no byte but by a restart.  From
    bdif_init with both drives attached, any sequence of guest accesses, character-device input,
    events of the character device and resets executes; the input buffer stays within its
    limit, a completed buffer was posted, a stashed repost implies an unconsumed completion,
    buffer lengths are in 1..128 KiB.  A reset, a close and a break each end one stream of bytes
    and begin another, and the trace falls into one part for each stream.  In each stream
    the bytes of the delivered, failed and dropped frames, in order, are a beginning of the
    bytes accepted; the rest of a stream that was ended is forgotten with it, and the rest of
    the one still open is exactly what is buffered. *)
Theorem bdif_run_conserves {M B Ch : Type} `{Dma M, !DmaLaws M, Blk B, Chr Ch}
    (a r : B) (ch : Ch) (m : M) ops :
  Forall op_ok ops →
  ∃ s' m' evs, bdif_run (bdif_init (Some a) (Some r) ch) m ops = Some (s', m') ∧ bdif_inv s' ∧
    usb_trace s' = concat evs ∧
    accounts (usb_input s') (bdif_streams (bdif_init (Some a) (Some r) ch) m ops []) evs.
Proof.
  intros Hok. destruct (bdif_run_stream ops _ m [] [] (bdif_init_stream (Some a) (Some r) ch)) as (s' & m' & evs & E & Hi & _ & Et & Ha);
    [by split; eexists|done|]. by exists s', m', evs.
Qed.

(** C29: frames are delivered whole and in order.  Let resets, closes and breaks of the character
    device cut a run into streams.  If the bytes accepted in each stream are a prefix of a
    sequence of frames (a 32-bit little-endian length of at most 128 KiB, then the payload), then
    however they were cut into chunks and however guest accesses were interleaved, no frame was
    discarded as malformed, and the payloads taken from the buffer during each stream are the
    first frames of that stream: nothing of an ended stream is delivered in a later one. *)
Theorem bdif_frames_in_order {M B Ch : Type} `{Dma M, !DmaLaws M, Blk B, Chr Ch}
    (a r : B) (ch : Ch) (m : M) ops (fss : list (list (list Z))) :
  Forall op_ok ops → Forall (Forall (λ p, Z.of_nat (length p) ≤ VUSB_MAX_PACKET)) fss →
  Forall2 (λ bytes fs, bytes `prefix_of` flat_map frame fs) (bdif_streams (bdif_init (Some a) (Some r) ch) m ops []) fss →
  ∃ s' m' evs, bdif_run (bdif_init (Some a) (Some r) ch) m ops = Some (s', m') ∧ usb_trace s' = concat evs ∧
    Forall whole (usb_trace s') ∧ Forall2 (λ es fs, payload <$> es = take (length es) fs) evs fss.
Proof.
  intros Hok Hfs Hp. destruct (bdif_run_stream ops _ m [] [] (bdif_init_stream (Some a) (Some r) ch)) as (s' & m' & evs & E & _ & He & Et & Ha);
    [by split; eexists|done|]. cbn [app] in Et. rewrite Et in He. destruct (streams_are_frames _ _ _ fss Ha He Hfs Hp) as [Hw Hf].
  exists s', m', evs. split_and!; [done|done|by rewrite Et|done].
Qed.

(** *** Concrete backends *)
Definition list_pread (b : list Z) (off len : Z) : Z * list Z :=
  if (0 <=? off) && (0 <=? len) && (off + len <=? Z.of_nat (length b))
  then (0, slice (Z.to_nat off) (Z.to_nat len) b) else (-5, replicate (Z.to_nat len) 0).
Definition list_pwrite (b : list Z) (off : Z) (data : list Z) : Z * list Z :=
  if (0 <=? off) && (off + Z.of_nat (length data) <=? Z.of_nat (length b))
  then (0, splice (Z.to_nat off) data b) else (-5, b).

#[export] Instance list_blk : Blk (list Z) := { blk_pread := list_pread; blk_pwrite := list_pwrite }.

#[export] Instance list_blk_laws : BlkLaws (list Z).
Proof.
  constructor; [|intros b off len; simpl; unfold list_pread; case_match; simpl;
    [reflect_bools; apply length_slice; lia|apply length_replicate]].
  intros b off data r b'. simpl. unfold list_pwrite, list_pread.
  case_match eqn:E; intros [= <- <-] ?; [|lia]. reflect_bools. exists 0. split; [done|].
  rewrite length_splice by lia.
  destruct (Z.leb_spec 0 off), (Z.leb_spec 0 (Z.of_nat (length data))),
    (Z.leb_spec (off + Z.of_nat (length data)) (Z.of_nat (length b))); try lia. simpl.
  by rewrite slice_splice_eq by lia.
Qed.

(** A character device that is always there and keeps what it is sent. *)
Record sink := mkSink { sink_bytes : list Z }.
#[export] Instance sink_chr : Chr sink := {
  chr_connected _ := true;
  chr_write_all ch buf := (Z.of_nat (length buf), mkSink (sink_bytes ch ++ buf))
}.

(** Two chunks that cut a frame in the middle, and a guest that posts a buffer:
    the descriptor at 0 gives address 64 and length 16. *)
Definition demo_ram : Ram :=
  mkRam 0 (le_bytes 8 64 ++ le_bytes 4 16 ++ replicate 116 0).
Definition demo_ops : list bdif_op :=
  [BdifReceive [3; 0; 0]; BdifWrite (replicate 48 0) (DEVID_USB + REG_CMD) 0;
   BdifReceive [0; 7; 8; 9; 1; 0]; BdifRead (DEVID_USB + REG_BUSY)].

(** Then the channel is closed with part of a frame buffered, and opened again. *)
Definition demo_reopened : list bdif_op :=
  demo_ops ++ [BdifEvent CHR_EVENT_CLOSED; BdifEvent CHR_EVENT_OPENED; BdifWrite (replicate 48 0) (DEVID_USB + REG_CMD) 0; BdifReceive [2; 0; 0; 0; 4; 5]].
Lemma demo_reopened_ok : Forall op_ok demo_reopened.
Proof. repeat constructor; unfold is_u8, is_u64; lia. Qed.
Abbreviation demo_bdif := (bdif_init (Some []) (Some []) (mkSink [])).

Lemma bdif_run_conserves_witness :
  bdif_streams demo_bdif demo_ram demo_reopened [] = [[3; 0; 0; 0; 7; 8; 9; 1; 0]; [2; 0; 0; 0; 4; 5]] ∧
  ∃ s' m' evs, bdif_run demo_bdif demo_ram demo_reopened = Some (s', m') ∧ bdif_inv s' ∧ usb_trace s' = concat evs ∧
    accounts (usb_input s') (bdif_streams demo_bdif demo_ram demo_reopened []) evs.
Proof. split; [vm_compute; reflexivity|]. exact (bdif_run_conserves [] [] (mkSink []) demo_ram demo_reopened demo_reopened_ok). Defined.

Lemma bdif_frames_in_order_witness :
  ∃ s' m' evs, bdif_run demo_bdif demo_ram demo_reopened = Some (s', m') ∧ usb_trace s' = concat evs ∧ Forall whole (usb_trace s') ∧
    Forall2 (λ es fs, payload <$> es = take (length es) fs) evs [[[7; 8; 9]; [5]]; [[4; 5]]].
Proof.
  apply bdif_frames_in_order; [apply demo_reopened_ok|repeat constructor; unfold VUSB_MAX_PACKET, KiB; simpl; lia|].
  assert (bdif_streams demo_bdif demo_ram demo_reopened [] = [[3; 0; 0; 0; 7; 8; 9; 1; 0]; [2; 0; 0; 0; 4; 5]]) as -> by (vm_compute; reflexivity).
  constructor; [exists [0; 0; 5]; reflexivity|]. constructor; [exists []; reflexivity|constructor].
Defined.

(** ** The handshake of one frame *)
(** ** The structures in guest memory

    A request is three 16-byte descriptors (address, length, flags); a USB buffer
    descriptor is an address, a length, a link and flags; all little endian. *)
Definition reqcmd_bytes (c : VblkReqCmd) : list Z :=
  le_bytes 8 (rc_addr c) ++ le_bytes 4 (rc_len c) ++ le_bytes 4 (rc_flags c).
Definition req_bytes (q : VblkReq) : list Z :=
  reqcmd_bytes (req_sector q) ++ reqcmd_bytes (req_data q) ++ reqcmd_bytes (req_retval q).
Definition desc_bytes (d : VUsbDesc) : list Z :=
  le_bytes 8 (desc_addr d) ++ le_bytes 4 (desc_len d) ++ le_bytes 2 (desc_next d) ++ le_bytes 2 (desc_flags d).

Definition reqcmd_fits (c : VblkReqCmd) : Prop := is_u64 (rc_addr c) ∧ is_u32 (rc_len c) ∧ is_u32 (rc_flags c).
Definition req_fits (q : VblkReq) : Prop :=
  reqcmd_fits (req_sector q) ∧ reqcmd_fits (req_data q) ∧ reqcmd_fits (req_retval q).
Definition desc_fits (d : VUsbDesc) : Prop :=
  is_u64 (desc_addr d) ∧ is_u32 (desc_len d) ∧ 0 ≤ desc_next d < 2 ^ 16 ∧ 0 ≤ desc_flags d < 2 ^ 16.

(** The field after [pre]. *)
Lemma field_at pre n v post :
  0 ≤ v < 2 ^ (8 * Z.of_nat n) → le_val (slice (length pre) n (pre ++ le_bytes n v ++ post)) = v.
Proof.
  intros Hv. unfold slice. rewrite drop_app_length, take_app_length' by (by rewrite length_le_bytes).
  rewrite le_val_bytes. by apply Z.mod_small.
Qed.

Lemma reqcmd_decode c : reqcmd_fits c → le2cpu_reqcmd (reqcmd_bytes c) = c.
Proof.
  intros (Ha & Hl & Hf). destruct c as [a l f]. unfold le2cpu_reqcmd, reqcmd_bytes.
  cbn [rc_addr rc_len rc_flags] in *. f_equal.
  - exact (field_at [] 8 a _ Ha).
  - exact (field_at (le_bytes 8 a) 4 l _ Hl).
  - pose proof (field_at (le_bytes 8 a ++ le_bytes 4 l) 4 f [] Hf) as H. by rewrite <- app_assoc, app_nil_r in H.
Qed.

Lemma length_reqcmd_bytes c : length (reqcmd_bytes c) = 16%nat.
Proof. unfold reqcmd_bytes. by rewrite !length_app, !length_le_bytes. Qed.

Lemma req_decode q : req_fits q → le2cpu_req (req_bytes q) = q.
Proof.
  intros (Hs & Hd & Hr). destruct q as [s d r]. unfold le2cpu_req, req_bytes.
  cbn [req_sector req_data req_retval] in *.
  assert (∀ pre c post, reqcmd_fits c →
    le2cpu_reqcmd (slice (length pre) 16 (pre ++ reqcmd_bytes c ++ post)) = c) as Hc.
  { intros pre c post Hc. unfold slice. rewrite drop_app_length, take_app_length' by (by rewrite length_reqcmd_bytes).
    by apply reqcmd_decode. }
  f_equal.
  - exact (Hc [] s _ Hs).
  - pose proof (Hc (reqcmd_bytes s) d (reqcmd_bytes r) Hd) as H. by rewrite length_reqcmd_bytes in H.
  - pose proof (Hc (reqcmd_bytes s ++ reqcmd_bytes d) r [] Hr) as H.
    by rewrite length_app, !length_reqcmd_bytes, <- app_assoc, app_nil_r in H.
Qed.

Lemma desc_decode d rest : desc_fits d → le2cpu_desc (desc_bytes d ++ rest) = d.
Proof.
  intros (Ha & Hl & Hn & Hf). destruct d as [a l n f]. unfold le2cpu_desc, desc_bytes.
  cbn [desc_addr desc_len desc_next desc_flags] in *.
  rewrite <- !app_assoc. f_equal.
  - exact (field_at [] 8 a _ Ha).
  - exact (field_at (le_bytes 8 a) 4 l _ Hl).
  - pose proof (field_at (le_bytes 8 a ++ le_bytes 4 l) 2 n (le_bytes 2 f ++ rest) Hn) as H. by rewrite <- app_assoc in H.
  - pose proof (field_at (le_bytes 8 a ++ le_bytes 4 l ++ le_bytes 2 n) 2 f rest Hf) as H. by rewrite <- !app_assoc in H.
Qed.

Section handshake.
Context {M B Ch : Type} `{Dma M, Blk B, Chr Ch}.

Lemma try_deliver_frame (s : VMAppleBdifState (B := B) (Ch := Ch)) (m m' : M) p rest :
  usb_rx_posted s = true → usb_rx_ready s = false → usb_input s = frame p ++ rest →
  p ≠ [] → Z.of_nat (length p) ≤ usb_rx_len s → Z.of_nat (length p) ≤ VUSB_MAX_PACKET →
  dma_memory_write m (usb_rx_addr s) p = (MEMTX_OK, m') →
  vusb_try_deliver s m =
    (s <| usb_rx_ready := true |> <| usb_trace := usb_trace s ++ [Q0Deliver (usb_rx_addr s) p] |>
       <| usb_input := rest |>, m').
Proof.
  intros Hpo Hr Hin Hne Hlen Hmax Hw. unfold vusb_try_deliver. rewrite Hpo, Hr, Hin.
  rewrite frame_header by done.
  assert (Z.of_nat (length (frame p ++ rest)) = 4 + Z.of_nat (length p) + Z.of_nat (length rest)) as ->.
  { unfold frame. rewrite !length_app, length_le_bytes. lia. }
  assert (slice 4 (Z.to_nat (Z.of_nat (length p))) (frame p ++ rest) = p) as ->.
  { unfold slice, frame. rewrite <- app_assoc, drop_app_length' by (by rewrite length_le_bytes).
    by rewrite Nat2Z.id, take_app_length. }
  assert (drop (Z.to_nat (4 + Z.of_nat (length p))) (frame p ++ rest) = rest) as Hd.
  { apply drop_app_length'. unfold frame. rewrite length_app, length_le_bytes. lia. }
  assert (0 < Z.of_nat (length p)) by (destruct p; [done|simpl; lia]).
  simpl negb. cbn [orb].
  destruct (Z.ltb_spec (4 + Z.of_nat (length p) + Z.of_nat (length rest)) 4); [lia|].
  destruct (Z.ltb_spec VUSB_MAX_PACKET (Z.of_nat (length p))); [lia|].
  destruct (Z.ltb_spec (4 + Z.of_nat (length p) + Z.of_nat (length rest)) (4 + Z.of_nat (length p))); [lia|].
  destruct (Z.ltb_spec (usb_rx_len s) (Z.of_nat (length p))); [lia|].
  destruct (Z.eqb_spec (Z.of_nat (length p)) 0); [lia|]. rewrite Hw. simpl.
  by rewrite Hin, Hd.
Qed.

(** What a delivery attempt leaves in the input. *)
Lemma try_deliver_input (s : VMAppleBdifState (B := B) (Ch := Ch)) (m : M) :
  usb_rx_posted s = true → usb_rx_ready s = false → 4 ≤ Z.of_nat (length (usb_input s)) →
  usb_input (vusb_try_deliver s m).1 =
    let len := le_val (take 4 (usb_input s)) in
    if VUSB_MAX_PACKET <? len then []
    else if (Z.of_nat (length (usb_input s)) <? 4 + len) || (usb_rx_len s <? len) then usb_input s
    else drop (Z.to_nat (4 + len)) (usb_input s).
Proof.
  intros Hp Hr Hl. unfold vusb_try_deliver. rewrite Hp, Hr. cbn [negb orb].
  destruct (Z.ltb_spec (Z.of_nat (length (usb_input s))) 4); [lia|].
  repeat (case_match; simplify_eq/=; try done).
Qed.

End handshake.

(** A posted buffer receives the frame at the head of the input, once.  With no
    completion outstanding and queue 0 selected, a CMD write whose descriptor
    names a buffer of at least the frame's size writes exactly the payload to that
    buffer; the next BUSY read reports ready, the one after it does not, and the
    frame is gone from the input. *)
Theorem vusb_handshake {M B Ch : Type} `{Dma M, Blk B, Chr Ch}
    (s : VMAppleBdifState (B := B) (Ch := Ch)) (m m' : M) stack gp desc junk p rest :
  bdif_usb_enabled s = true → bdif_inv s → usb_queue s = 0 → usb_rx_ready s = false →
  dma_memory_read m gp (replicate 128 0) = (MEMTX_OK, desc_bytes desc ++ junk) → desc_fits desc →
  usb_input s = frame p ++ rest → p ≠ [] →
  Z.of_nat (length p) ≤ desc_len desc ≤ VUSB_MAX_PACKET →
  dma_memory_write m (desc_addr desc) p = (MEMTX_OK, m') →
  ∃ s1 s2, bdif_write stack s m (DEVID_USB + REG_CMD) gp = Some (s1, m') ∧
    usb_input s1 = rest ∧
    bdif_read s1 m' (DEVID_USB + REG_BUSY) = (REG_BUSY_READY, s2, m') ∧
    usb_input s2 = rest ∧
    bdif_read s2 m' (DEVID_USB + REG_BUSY) = (0, s2, m').
Proof.
  intros Hen Hinv Hq Hr Hrd Hfit Hin Hne Hlen Hw. pose proof (desc_decode desc junk Hfit) as Hdesc.
  assert (usb_rx_pending s = false) as Hnp.
  { destruct (usb_rx_pending s) eqn:E; [|done]. by rewrite (inv_pending _ Hinv E) in Hr. }
  assert (0 < Z.of_nat (length p)) by (destruct p; [done|simpl; lia]).
  unfold bdif_write. change (Z.land (DEVID_USB + REG_CMD) (0xffffffff - REG_DEVID_MASK)) with REG_CMD.
  change (Z.land (DEVID_USB + REG_CMD) REG_DEVID_MASK) with DEVID_USB. simpl (_ =? _). cbn iota.
  rewrite Hen. unfold vusb_cmd. rewrite Hrd, Hq, Hdesc. simpl (negb _). simpl (0 =? 0). cbn iota.
  unfold vusb_post. destruct (Z.eqb_spec (desc_len desc) 0); [lia|].
  destruct (Z.ltb_spec VUSB_MAX_PACKET (desc_len desc)); [lia|]. cbn [orb]. rewrite Hr.
  rewrite (try_deliver_frame _ m m' p rest) by (simpl; done || lia).
  eexists _, _. split; [done|]. split; [done|].
  unfold bdif_read. change (Z.land (DEVID_USB + REG_BUSY) (0xffffffff - REG_DEVID_MASK)) with REG_BUSY.
  change (Z.land (DEVID_USB + REG_BUSY) REG_DEVID_MASK) with DEVID_USB.
  simpl (REG_BUSY =? _). simpl (DEVID_USB =? _). cbn iota. unfold bdif_usb_enabled in *. simpl.
  rewrite Hen, Hq, Hnp. simpl. split; [reflexivity|]. split; [done|]. simpl. by rewrite Hen.
Qed.

Lemma vusb_handshake_witness :
  let s := (bdif_init (Some []) (Some []) (mkSink [])) <| usb_input := [3; 0; 0; 0; 7; 8; 9; 1] |> in
  ∃ s1 s2, bdif_write [] s demo_ram (DEVID_USB + REG_CMD) 0 =
      Some (s1, mkRam 0 (splice 64 [7; 8; 9] (ram_bytes demo_ram))) ∧ usb_input s1 = [1] ∧
    bdif_read s1 (mkRam 0 (splice 64 [7; 8; 9] (ram_bytes demo_ram))) (DEVID_USB + REG_BUSY)
      = (REG_BUSY_READY, s2, mkRam 0 (splice 64 [7; 8; 9] (ram_bytes demo_ram))) ∧
    usb_input s2 = [1] ∧
    bdif_read s2 (mkRam 0 (splice 64 [7; 8; 9] (ram_bytes demo_ram))) (DEVID_USB + REG_BUSY)
      = (0, s2, mkRam 0 (splice 64 [7; 8; 9] (ram_bytes demo_ram))).
Proof.
  apply (vusb_handshake _ _ _ _ _ (mkVUsbDesc 64 16 0 0) (replicate 112 0) [7; 8; 9] [1]); try (vm_compute; reflexivity).
  - split; simpl; unfold VUSB_MAX_RX, VUSB_MAX_PACKET, KiB, is_u8; try done; try lia.
    repeat constructor; lia.
  - vm_compute. intuition discriminate.
  - done.
  - vm_compute. split; discriminate.
Defined.

(** back-pressure cannot deadlock the channel.  When the device tells the
    character device to stop sending, the input holds a complete frame or a
    malformed header: posting a buffer of the maximum size then takes at least
    four bytes out of the input, whatever DMA does, and input is accepted again. *)
Theorem vusb_full_drains {M B Ch : Type} `{Dma M, Blk B, Chr Ch}
    (s : VMAppleBdifState (B := B) (Ch := Ch)) (m : M) addr next flags :
  bdif_inv s → vusb_can_receive s = 0 → usb_rx_ready s = false →
  let s' := (vusb_post s m (mkVUsbDesc addr VUSB_MAX_PACKET next flags)).1 in
  (length (usb_input s') + 4 ≤ length (usb_input s))%nat ∧ 4 ≤ vusb_can_receive s'.
Proof.
  intros Hinv Hfull Hr s'.
  assert (VUSB_MAX_RX = Z.of_nat (length (usb_input s))) as Hlen.
  { destruct Hinv. unfold vusb_can_receive in Hfull. case_match; reflect_bools; lia. }
  assert (length (usb_input s') + 4 ≤ length (usb_input s))%nat as Hd.
  { subst s'. unfold vusb_post. simpl (_ || _). simpl (_ <? VUSB_MAX_PACKET).
    change (VUSB_MAX_PACKET <? VUSB_MAX_PACKET) with false. cbn iota. rewrite Hr.
    unfold VUSB_MAX_RX, VUSB_MAX_PACKET, KiB in *.
    rewrite try_deliver_input by (done || simpl; lia). simpl. unfold VUSB_MAX_PACKET, KiB.
    assert (0 ≤ le_val (take 4 (usb_input s))) by (apply le_val_range, Forall_take; by destruct Hinv).
    case_match; reflect_bools; simpl; [lia|].
    destruct (Z.ltb_spec (Z.of_nat (length (usb_input s))) (4 + le_val (take 4 (usb_input s)))); [lia|].
    destruct (Z.ltb_spec (128 * 1024) (le_val (take 4 (usb_input s)))); [lia|].
    simpl. rewrite length_drop. lia. }
  split; [done|]. unfold vusb_can_receive. case_match; reflect_bools; lia.
Qed.

(** A device whose input is full of zero-length frames. *)
Definition full_state : VMAppleBdifState (B := list Z) :=
  mkBdif None None (mkSink []) (replicate (Z.to_nat VUSB_MAX_RX) 0) 0 false false 0 0 false 0 0 [].

Lemma full_state_length : Z.of_nat (length (usb_input full_state)) = VUSB_MAX_RX.
Proof. unfold full_state. cbn [usb_input]. rewrite length_replicate. apply Z2Nat.id. discriminate. Qed.

Lemma full_state_inv : bdif_inv full_state.
Proof.
  constructor; [rewrite full_state_length; apply Z.le_refl|apply Forall_replicate; decide_done|by left|..];
    unfold full_state; cbn; discriminate.
Qed.

Lemma full_state_can_receive : vusb_can_receive full_state = 0.
Proof. unfold vusb_can_receive. by rewrite full_state_length, Z.leb_refl. Qed.

Lemma vusb_full_drains_witness :
  let s' := (vusb_post full_state demo_ram (mkVUsbDesc 64 VUSB_MAX_PACKET 0 0)).1 in
  (length (usb_input s') + 4 ≤ length (usb_input full_state))%nat ∧ 4 ≤ vusb_can_receive s'.
Proof.
  exact (vusb_full_drains full_state demo_ram 64 0 0 full_state_inv full_state_can_receive eq_refl).
Defined.

(** ** Properties of the block devices *)
Section vblk.
Context {M B : Type} `{Dma M, Blk B}.

(** The request at [gp] and the sector number it points to can be fetched. *)
Record vblk_fetched (m : M) (stack : list Z) (gp : Z) (req : VblkReq) (sector : Z) : Prop := {
  vf_req : dma_memory_read m gp stack = (MEMTX_OK, req_bytes req);
  vf_fits : req_fits req;
  vf_sector_len : rc_len (req_sector req) = 16;
  vf_sector : ∃ pre post, length pre = 8%nat ∧
    dma_memory_read m (rc_addr (req_sector req)) (replicate 16 0) = (MEMTX_OK, pre ++ le_bytes 4 sector ++ post);
  vf_sector_range : is_u32 sector;
  vf_data_len : 0 ≤ rc_len (req_data req) ≤ 128 * MiB
}.

Lemma sector_decode pre sector post :
  length pre = 8%nat → is_u32 sector → le2cpu_sector (pre ++ le_bytes 4 sector ++ post) = sector.
Proof. intros Hl Hs. unfold le2cpu_sector. rewrite <- Hl. by apply field_at. Qed.

Lemma sector_offset sector : is_u32 sector → u64 (sector * 512 + 0) = sector * 512.
Proof. intros. rewrite u64_small; unfold is_u32, is_u64 in *; lia. Qed.

Lemma vblk_write_spec stack (b b' : B) (m : M) gp req sector data r :
  vblk_fetched m stack gp req sector → rc_flags (req_data req) = VBLK_DATA_FLAGS_WRITE →
  dma_memory_read m (rc_addr (req_data req)) (replicate (Z.to_nat (rc_len (req_data req))) 0)
    = (MEMTX_OK, data) →
  blk_pwrite b (sector * 512) data = (r, b') → 0 ≤ r →
  vblk_cmd stack (Some b) m gp 0 =
    Some (Some b', (dma_memory_write m (rc_addr (req_retval req)) [VBLK_RET_SUCCESS]).2).
Proof.
  intros [Hrb Hfit Hsl (pre & post & Hpre & Hsb) Hsr Hdl] Hfl Hdata Hw Hr.
  unfold vblk_cmd, vblk_body. rewrite Hrb, req_decode, Hsl by done. simpl (negb _). cbn iota.
  rewrite Hsb, sector_decode by done. simpl (negb _). cbn iota.
  destruct (Z.ltb_spec (128 * MiB) (rc_len (req_data req))); [lia|].
  rewrite Hfl, sector_offset by done. simpl (VBLK_DATA_FLAGS_WRITE =? _). cbn iota. rewrite Hdata.
  simpl (negb _). cbn [mbind option_bind]. rewrite Hw. destruct (Z.ltb_spec r 0); [lia|]. done.
Qed.

Lemma vblk_read_spec stack (b : B) (m m' : M) gp req sector data r :
  vblk_fetched m stack gp req sector → rc_flags (req_data req) = VBLK_DATA_FLAGS_READ →
  blk_pread b (sector * 512) (rc_len (req_data req)) = (r, data) → 0 ≤ r →
  dma_memory_write m (rc_addr (req_data req)) data = (MEMTX_OK, m') →
  vblk_cmd stack (Some b) m gp 0 =
    Some (Some b, (dma_memory_write m' (rc_addr (req_retval req)) [VBLK_RET_SUCCESS]).2).
Proof.
  intros [Hrb Hfit Hsl (pre & post & Hpre & Hsb) Hsr Hdl] Hfl Hrd Hr Hw.
  unfold vblk_cmd, vblk_body. rewrite Hrb, req_decode, Hsl by done. simpl (negb _). cbn iota.
  rewrite Hsb, sector_decode by done. simpl (negb _). cbn iota.
  destruct (Z.ltb_spec (128 * MiB) (rc_len (req_data req))); [lia|].
  rewrite Hfl, sector_offset by done. simpl (VBLK_DATA_FLAGS_READ =? _). cbn iota.
  cbn [mbind option_bind]. rewrite Hrd. destruct (Z.ltb_spec r 0); [lia|]. by rewrite Hw.
Qed.

End vblk.

(** What the guest writes to the aux device it reads back.  A write request for
    a sector, answered with success, followed by a read request of the same sector
    and length from a later memory, stores in guest memory exactly the bytes that
    were written, and both requests report success in their return byte. *)
Theorem vblk_write_read_back {M B Ch : Type} `{Dma M, !DmaLaws M, Blk B, !BlkLaws B, Chr Ch}
    (s : VMAppleBdifState (B := B) (Ch := Ch)) (b b' : B) (m1 m2 m3 : M)
    stack1 stack2 gp1 gp2 req1 req2 sector data r :
  aux s = Some b →
  vblk_fetched m1 stack1 gp1 req1 sector → rc_flags (req_data req1) = VBLK_DATA_FLAGS_WRITE →
  dma_memory_read m1 (rc_addr (req_data req1)) (replicate (Z.to_nat (rc_len (req_data req1))) 0)
    = (MEMTX_OK, data) →
  blk_pwrite b (sector * 512) data = (r, b') → 0 ≤ r →
  vblk_fetched m2 stack2 gp2 req2 sector → rc_flags (req_data req2) = VBLK_DATA_FLAGS_READ →
  rc_len (req_data req2) = rc_len (req_data req1) →
  dma_memory_write m2 (rc_addr (req_data req2)) data = (MEMTX_OK, m3) →
  let s' := s <| aux := Some b' |> in
  bdif_write stack1 s m1 (DEVID_AUX + REG_CMD) gp1 =
    Some (s', (dma_memory_write m1 (rc_addr (req_retval req1)) [VBLK_RET_SUCCESS]).2) ∧
  bdif_write stack2 s' m2 (DEVID_AUX + REG_CMD) gp2 =
    Some (s', (dma_memory_write m3 (rc_addr (req_retval req2)) [VBLK_RET_SUCCESS]).2).
Proof.
  intros Haux Hf1 Hfl1 Hd Hw Hr Hf2 Hfl2 Hlen Hdw s'.
  assert (Z.of_nat (length data) = rc_len (req_data req2)) as Hl.
  { pose proof (dma_read_length m1 (rc_addr (req_data req1))
      (replicate (Z.to_nat (rc_len (req_data req1))) 0)) as Hl.
    rewrite Hd, length_replicate in Hl. simpl in Hl. destruct Hf1. rewrite Hlen. lia. }
  destruct (blk_read_written b (sector * 512) data r b' Hw Hr) as (r' & Hr' & Hrd). rewrite Hl in Hrd.
  unfold bdif_write. change (Z.land (DEVID_AUX + REG_CMD) (0xffffffff - REG_DEVID_MASK)) with REG_CMD.
  change (Z.land (DEVID_AUX + REG_CMD) REG_DEVID_MASK) with DEVID_AUX. simpl (_ =? _). cbn iota.
  rewrite Haux. subst s'. cbn [aux set_field].
  by rewrite (vblk_write_spec _ _ b' _ _ req1 sector data r), (vblk_read_spec _ _ _ m3 _ req2 sector data r').
Qed.

Definition vblk_demo_req (data_addr flags : Z) : VblkReq :=
  mkReq (mkReqCmd 0x60 16 0) (mkReqCmd data_addr 4 flags) (mkReqCmd 0x7f 1 0).
(** A write request at 0, a read request at 0x30, the sector at 0x60, data at 0x70. *)
Definition vblk_demo_ram : Ram :=
  mkRam 0 (req_bytes (vblk_demo_req 0x70 VBLK_DATA_FLAGS_WRITE) ++ req_bytes (vblk_demo_req 0x78 VBLK_DATA_FLAGS_READ) ++
           replicate 8 0 ++ le_bytes 4 1 ++ replicate 4 0 ++ [1; 2; 3; 4] ++ replicate 12 9).

Lemma vblk_write_read_back_witness :
  let s := bdif_init (Some (replicate 1024 0)) (Some []) (mkSink []) in
  let disk := splice 512 [1; 2; 3; 4] (replicate 1024 0) in
  let m3 := mkRam 0 (splice 0x78 [1; 2; 3; 4] (ram_bytes vblk_demo_ram)) in
  bdif_write (replicate 48 0) s vblk_demo_ram (DEVID_AUX + REG_CMD) 0 =
    Some (s <| aux := Some disk |>, (dma_memory_write vblk_demo_ram 0x7f [VBLK_RET_SUCCESS]).2) ∧
  bdif_write (replicate 48 0) (s <| aux := Some disk |>) vblk_demo_ram (DEVID_AUX + REG_CMD) 0x30 =
    Some (s <| aux := Some disk |>, (dma_memory_write m3 0x7f [VBLK_RET_SUCCESS]).2).
Proof.
  apply (vblk_write_read_back _ (replicate 1024 0) (splice 512 [1; 2; 3; 4] (replicate 1024 0))
    vblk_demo_ram vblk_demo_ram _ (replicate 48 0) (replicate 48 0) 0 0x30
    (vblk_demo_req 0x70 VBLK_DATA_FLAGS_WRITE)
    (vblk_demo_req 0x78 VBLK_DATA_FLAGS_READ) 1 [1; 2; 3; 4] 0);
    try (vm_compute; reflexivity); try lia.
  - constructor; [vm_compute; reflexivity|vm_compute; intuition discriminate|reflexivity
      |exists (replicate 8 0), (replicate 4 0); split; vm_compute; reflexivity|decide_done|vm_compute; split; discriminate].
  - constructor; [vm_compute; reflexivity|vm_compute; intuition discriminate|reflexivity
      |exists (replicate 8 0), (replicate 4 0); split; vm_compute; reflexivity|decide_done|vm_compute; split; discriminate].
Defined.

(** a block request touches only what it names.  Once its descriptor has been
    fetched, a request over RAM changes no guest memory outside its return byte and, for a
    read request, its data buffer; and only a write request changes the backend. *)
Theorem vblk_frame {M B : Type} `{Dma M, !DmaLaws M, !RamLaws M, Blk B, !BlkLaws B}
    stack (blk blk' : option B) (m m' : M) gp req c buf :
  dma_memory_read m gp stack = (MEMTX_OK, req_bytes req) → req_fits req →
  vblk_cmd stack blk m gp 0 = Some (blk', m') →
  let apart a n := c + Z.of_nat (length buf) ≤ a ∨ a + n ≤ c in
  is_ram m c (Z.of_nat (length buf)) = true → is_ram m (rc_addr (req_retval req)) 1 = true →
  is_ram m (rc_addr (req_data req)) (rc_len (req_data req)) = true →
  apart (rc_addr (req_retval req)) 1 →
  (rc_flags (req_data req) = VBLK_DATA_FLAGS_READ → apart (rc_addr (req_data req)) (rc_len (req_data req))) →
  dma_memory_read m' c buf = dma_memory_read m c buf ∧
  (rc_flags (req_data req) ≠ VBLK_DATA_FLAGS_WRITE → blk' = blk).
Proof.
  intros Hrd Hfit Hc apart Rc Rr Rd Hret Hdata. unfold vblk_cmd in Hc. rewrite Hrd, req_decode in Hc by done.
  simpl (negb _) in Hc. cbn iota in Hc. assert (0 ≤ rc_len (req_data req)) as Hlen by apply Hfit.
  destruct (vblk_body blk m req 0) as [[[ret b1] m1]|] eqn:E; [|done].
  cbn [mbind option_bind] in Hc. injection Hc as <- <-.
  destruct (dma_memory_write m1 (rc_addr (req_retval req)) [ret]) as [rr mm] eqn:Ew. simpl.
  assert (dma_memory_read m1 c buf = dma_memory_read m c buf ∧ (∀ x n, is_ram m1 x n = is_ram m x n) ∧
    (rc_flags (req_data req) ≠ VBLK_DATA_FLAGS_WRITE → b1 = blk)) as (<- & Hk & ?).
  { unfold vblk_body in E.
    repeat (case_match; simplify_eq/=; reflect_bools; try done; try (destruct blk; simplify_eq/=)); try done.
    all: match goal with W : dma_memory_write _ _ _ = _, P : blk_pread ?b ?o ?l = _ |- _ =>
      pose proof (blk_read_length b o l) as HL; rewrite P in HL; simpl in HL;
      assert (Z.of_nat (length l0) = rc_len (req_data req)) as HZ by (rewrite HL, Z2Nat.id by done; done); rewrite <- HZ in Rd;
      split; [apply (dma_read_frame _ _ _ _ _ _ _ Rd Rc W); rewrite HZ; by apply Hdata|]; split; [|done]; intros x n; by apply (dma_ram_kept _ _ _ _ _ _ _ Rd W) end. }
  split; [|done]. apply (dma_read_frame m1 (rc_addr (req_retval req)) [ret] rr); [simpl; by rewrite Hk|by rewrite Hk|done|simpl; exact Hret].
Qed.

Lemma vblk_frame_witness :
  ∃ blk' m', vblk_cmd (replicate 48 0) (Some (replicate 1024 5)) vblk_demo_ram 0x30 0 = Some (blk', m') ∧
    dma_memory_read m' 0 (replicate 0x78 0) = dma_memory_read vblk_demo_ram 0 (replicate 0x78 0) ∧
    blk' = Some (replicate 1024 5).
Proof.
  eexists _, _. split; [vm_compute; reflexivity|].
  match goal with |- dma_memory_read ?m' _ _ = _ ∧ ?b = _ =>
    destruct (vblk_frame (replicate 48 0) (Some (replicate 1024 5)) b vblk_demo_ram m' 0x30
      (vblk_demo_req 0x78 VBLK_DATA_FLAGS_READ) 0 (replicate 0x78 0)) as [Hm Hb] end;
    [vm_compute; reflexivity|vm_compute; intuition discriminate|vm_compute; reflexivity|vm_compute; reflexivity|vm_compute; reflexivity|vm_compute; reflexivity|left; discriminate|left; discriminate|].
  split; [exact Hm|apply Hb; discriminate].
Defined.

(** When the descriptor cannot be fetched, the return byte goes to an address
    that was never fetched.  vblk_cmd writes its failure code through the
    uninitialised local [req]: if the failed read left that memory alone, then
    whatever address [a] the stack happened to hold at its return slot, the guest
    memory at [a] is overwritten with 1. *)
Theorem vblk_fetch_failure_writes_stack_address {M B : Type} `{Dma M, Blk B}
    (blk : option B) (m : M) gp a r :
  is_u64 a →
  let stack := replicate 32 0 ++ le_bytes 8 a ++ replicate 8 0 in
  dma_memory_read m gp stack = (r, stack) → r ≠ MEMTX_OK →
  vblk_cmd stack blk m gp 0 = Some (blk, (dma_memory_write m a [VBLK_RET_FAILED]).2).
Proof.
  intros Ha stack Hrd Hr. unfold vblk_cmd. rewrite Hrd.
  destruct (Z.eqb_spec r MEMTX_OK); [done|]. cbn [negb mbind option_bind].
  do 4 f_equal. unfold le2cpu_req. cbn [req_retval]. unfold le2cpu_reqcmd. cbn [rc_addr].
  transitivity (le_val (le_bytes 8 a)); [by f_equal|].
  rewrite le_val_bytes. by apply (u64_small a).
Qed.

Lemma vblk_fetch_failure_writes_stack_address_witness :
  vblk_cmd (replicate 32 0 ++ le_bytes 8 0x40 ++ replicate 8 0) (Some []) vblk_demo_ram 0x10000 0 =
    Some (Some [], mkRam 0 (<[64%nat := 1]> (ram_bytes vblk_demo_ram))).
Proof.
  rewrite (vblk_fetch_failure_writes_stack_address (Some []) vblk_demo_ram 0x10000 0x40 MEMTX_DECODE_ERROR);
    [vm_compute; reflexivity|decide_done|vm_compute; reflexivity|discriminate].
Defined.
