(* ===== verification/Dirty.v ===== *)
(** Guest-write tracking over the hypervisor's dirty bitmap,
    src/qemu/hw/display/reims-vgpu-dirty.c.

    [Mem] is the part of the memory core the tracker reads and changes: the flat
    view of the system address space, the regions that log writes for the VGA
    client, QEMU's bitmap, and the writes the accelerator has logged but not yet
    handed over.  [ReimsVgpuDirty] is the tracker.  Counters that grow by one per
    call (generations, harvests, tokens, reads) are unbounded integers; addresses
    are 64-bit.  The scratch slice table and the debug counters are not state of
    the model: the table is rebuilt by every harvest before it is read. *)
From S2P Require Import Prelude.

(** ** The memory core, as the tracker uses it *)
Record MemoryRegion := mkMR { mr_id : Z; mr_ram : bool; mr_ram_addr : Z }.
Record FlatRange := mkFR { fr_start : Z; fr_size : Z; fr_mr : MemoryRegion; fr_offset : Z }.

Record Mem := mkMem {
  flat : list FlatRange;
  vga_log : gset Z;      (* regions with DIRTY_MEMORY_VGA logging on, by id *)
  bitmap : gset Z;       (* dirty target pages, by number in ram_addr_t space *)
  hv_log : gset Z        (* logged by the accelerator since the last sync *)
}.
#[export] Instance eta_Mem : Settable Mem := λ r,
  mkMem (flat r) (vga_log r) (bitmap r) (hv_log r).

(** ** The tracker's data *)
Record DirtySlice := mkSlice {
  sl_mr : MemoryRegion; sl_gpa : Z; sl_len : Z; sl_ram_addr : Z; sl_offset : Z; sl_logged : bool }.

Record DirtySet := mkSet {
  pages : list Z;
  page_gen : list Z;
  page_size : Z;
  gen : Z;
  arm_at : Z
}.
#[export] Instance eta_DirtySet : Settable DirtySet := λ r,
  mkSet (pages r) (page_gen r) (page_size r) (gen r) (arm_at r).

Record ReimsVgpuDirty := mkDirty {
  sets : gmap Z DirtySet;
  next_token : Z;
  logged : gset Z;
  harvests : Z;
  reads_since_harvest : Z
}.
#[export] Instance eta_Dirty : Settable ReimsVgpuDirty := λ r,
  mkDirty (sets r) (next_token r) (logged r) (harvests r) (reads_since_harvest r).

Definition reims_vgpu_dirty_new : ReimsVgpuDirty := mkDirty ∅ 0 ∅ 0 0.

Record DirtyWritten := mkWritten { w_gpa : Z; w_page_size : Z }.
#[export] Instance DirtyWritten_eq_dec : EqDecision DirtyWritten.
Proof. solve_decision. Defined.

(** ** Ordering *)
Definition reims_vgpu_dirty_cmp_u64 (x y : Z) : Z :=
  if x <? y then -1 else if y <? x then 1 else 0.

Definition reims_vgpu_dirty_cmp_written (x y : DirtyWritten) : Z :=
  if negb (w_gpa x =? w_gpa y) then (if w_gpa x <? w_gpa y then -1 else 1)
  else if w_page_size y <? w_page_size x then -1
  else if w_page_size x <? w_page_size y then 1 else 0.

Definition le_u64 (x y : Z) : Prop := reims_vgpu_dirty_cmp_u64 x y ≤ 0.
Definition le_written (x y : DirtyWritten) : Prop := reims_vgpu_dirty_cmp_written x y ≤ 0.
#[export] Instance le_u64_dec : RelDecision le_u64.
Proof. intros x y. unfold le_u64. apply _. Defined.
#[export] Instance le_written_dec : RelDecision le_written.
Proof. intros x y. unfold le_written. apply _. Defined.

(** The loop that drops repeated elements of a sorted array. *)
Fixpoint dedup (l : list Z) : list Z :=
  match l with
  | [] => []
  | x :: l =>
      match dedup l with
      | [] => [x]
      | y :: r => if x =? y then y :: r else x :: y :: r
      end
  end.

Section tracker.
(** qemu_target_page_size(). *)
Variable target : Z.

(** ** Registering a set *)
Definition reims_vgpu_dirty_track (d : ReimsVgpuDirty) (gpas : list Z) (psize : Z) : Z * ReimsVgpuDirty :=
  if (match gpas with [] => true | _ => false end) || (psize =? 0) || nz (Z.land psize (psize - 1)) then (0, d)
  else if psize <? target then (0, d)
  else
    let ps := dedup (merge_sort le_u64 ((λ g, Z.ldiff g (psize - 1)) <$> gpas)) in
    let s := mkSet ps (replicate (length ps) 0) psize 0 (harvests d + 1) in
    let token := next_token d + 1 in
    (token, d <| next_token := token |> <| sets := <[token := s]> (sets d) |>).

Definition reims_vgpu_dirty_untrack (d : ReimsVgpuDirty) (token : Z) : ReimsVgpuDirty :=
  if token =? 0 then d else d <| sets := delete token (sets d) |>.

(** ** Reading a set *)
Definition reims_vgpu_dirty_gen (d : ReimsVgpuDirty) (token : Z) : Z * ReimsVgpuDirty :=
  if token =? 0 then (0, d)
  else (match sets d !! token with Some s => gen s | None => 0 end,
        d <| reads_since_harvest := reads_since_harvest d + 1 |>).

(** The scan over the set: [None] when the output array is too small. *)
Fixpoint written_scan (since found max : Z) (l : list (Z * Z)) : option (list Z) :=
  match l with
  | [] => Some []
  | (page, g) :: l =>
      if g <=? since then written_scan since found max l
      else if found =? max then None
      else r ← written_scan since (found + 1) max l; Some (page :: r)
  end.

(** [None] is the result -1, [Some l] the pages put in the output array. *)
Definition reims_vgpu_dirty_written_since (d : ReimsVgpuDirty) (token since_gen max : Z) :
    option (list Z) * ReimsVgpuDirty :=
  if token =? 0 then (None, d)
  else match sets d !! token with
  | None => (None, d)
  | Some s =>
      if (gen s =? 0) || (since_gen =? 0) then (None, d)
      else match written_scan since_gen 0 max (zip (pages s) (page_gen s)) with
           | None => (None, d)
           | Some out => (Some out, d <| reads_since_harvest := reads_since_harvest d + 1 |>)
           end
  end.

(** ** The slice table *)
Definition reims_vgpu_dirty_ram_range (d : ReimsVgpuDirty) (fr : FlatRange) : option DirtySlice :=
  if negb (mr_ram (fr_mr fr)) || (fr_size fr =? 0) then None
  else Some (mkSlice (fr_mr fr) (fr_start fr) (fr_size fr) (mr_ram_addr (fr_mr fr) + fr_offset fr)
               (fr_offset fr) (bool_decide (mr_id (fr_mr fr) ∈ logged d))).

Definition reims_vgpu_dirty_ram_slices (d : ReimsVgpuDirty) (m : Mem) : list DirtySlice :=
  omap (reims_vgpu_dirty_ram_range d) (flat m).

Definition in_slice (gpa : Z) (sl : DirtySlice) : bool :=
  (sl_gpa sl <=? gpa) && (gpa - sl_gpa sl <? sl_len sl).

(** The first slice that holds [gpa], with its index. *)
Fixpoint slice_of_from (i : Z) (slices : list DirtySlice) (gpa : Z) : Z :=
  match slices with
  | [] => -1
  | sl :: slices => if in_slice gpa sl then i else slice_of_from (i + 1) slices gpa
  end.
Definition reims_vgpu_dirty_slice_of (slices : list DirtySlice) (gpa : Z) : Z := slice_of_from 0 slices gpa.

(** physical_memory_get_dirty_flag for the VGA client. *)
Definition get_dirty_flag (m : Mem) (addr : Z) : bool := bool_decide (addr / target ∈ bitmap m).

(** The target pages of a guest page are tested one by one. *)
Fixpoint any_dirty (m : Mem) (base : Z) (n : nat) : bool :=
  match n with
  | O => false
  | S n => get_dirty_flag m base || any_dirty m (base + target) n
  end.

Definition reims_vgpu_dirty_page_written (m : Mem) (sl : DirtySlice) (gpa psize : Z) : bool :=
  any_dirty m (sl_ram_addr sl + (gpa - sl_gpa sl)) (Z.to_nat ((psize + target - 1) / target)).

(** ** Harvest *)

(** memory_global_dirty_log_sync: the accelerator hands over what it logged. *)
Definition dirty_log_sync (m : Mem) : Mem :=
  m <| bitmap := bitmap m ∪ hv_log m |> <| hv_log := ∅ |>.

(** memory_region_reset_dirty: the target pages of a range of ram_addr_t space are
    cleared in the bitmap, and in the accelerator for the pages it had reported
    (log_clear; KVM's manual dirty-log protection). *)
Definition ram_pages (start len : Z) : gset Z :=
  list_to_set (seqZ (start / target) ((start + len + target - 1) / target - start / target)).
Definition reset_dirty (m : Mem) (start len : Z) : Mem :=
  m <| hv_log := hv_log m ∖ (ram_pages start len ∩ bitmap m) |>
    <| bitmap := bitmap m ∖ ram_pages start len |>.

(** What the page loop decides about one page of one set. *)
Inductive verdict :=
  | NoSlice               (* not RAM of the flat view *)
  | Unlogged (si : Z)     (* RAM whose writes were not being recorded *)
  | Written (w : DirtyWritten)
  | Clean.

Definition harvest_page (slices : list DirtySlice) (m : Mem) (psize gpa : Z) : verdict :=
  let si := reims_vgpu_dirty_slice_of slices gpa in
  if si <? 0 then NoSlice
  else match slices !! Z.to_nat si with
  | None => NoSlice
  | Some sl =>
      if negb (sl_logged sl) then Unlogged si
      else if reims_vgpu_dirty_page_written m sl gpa psize then Written (mkWritten gpa psize)
      else Clean
  end.

Definition is_hit (v : verdict) : bool := match v with Clean => false | _ => true end.
Definition is_unlogged (v : verdict) : bool := match v with Unlogged _ => true | _ => false end.
Definition written_of (v : verdict) : option DirtyWritten := match v with Written w => Some w | _ => None end.
Definition needs_log_of (v : verdict) : option Z := match v with Unlogged si => Some si | _ => None end.

Definition harvest_verdicts (slices : list DirtySlice) (m : Mem) (s : DirtySet) : list verdict :=
  harvest_page slices m (page_size s) <$> pages s.

(** The body of the loop over the sets, after the page loop; [h] is the harvest
    count just reached. *)
Definition harvest_set (slices : list DirtySlice) (m : Mem) (h : Z) (s : DirtySet) : DirtySet :=
  let vs := harvest_verdicts slices m s in
  let any := existsb is_hit vs in
  let unlogged := existsb is_unlogged vs in
  let s := if (gen s =? 0) && unlogged then s <| arm_at := h + 1 |> else s in
  let s :=
    if h <? arm_at s then s <| gen := 0 |>
    else if gen s =? 0 then s <| gen := 1 |>
    else if any then s <| gen := gen s + 1 |>
    else s in
  if negb (gen s =? 0) then
    s <| page_gen := zip_with (λ v (old : Z), if is_hit v then gen s else old) vs (page_gen s) |>
  else s.

(** The locked part: every set is evaluated against the same bitmap.  The hash
    table's order does not matter: a set's update reads no other set, and the
    written pages are sorted afterwards. *)
Definition harvest_fold (d : ReimsVgpuDirty) (slices : list DirtySlice) (m : Mem) :
    ReimsVgpuDirty * list DirtyWritten * list Z :=
  let vs := map_to_list (sets d) ≫= λ ts, harvest_verdicts slices m ts.2 in
  let h := harvests d + 1 in
  (d <| harvests := h |> <| reads_since_harvest := 0 |>
     <| sets := harvest_set slices m h <$> sets d |>,
   omap written_of vs, omap needs_log_of vs).

(** The clear pass.  A run is its first page, its slice and its end; [clear_runs]
    is the two nested loops over the sorted array, and returns the closed runs. *)
Record run := mkRun { run_gpa : Z; run_si : Z; run_end : Z }.

Definition page_end (w : DirtyWritten) : Z := u64 (w_gpa w + w_page_size w).
Definition open_run (slices : list DirtySlice) (w : DirtyWritten) : run :=
  mkRun (w_gpa w) (reims_vgpu_dirty_slice_of slices (w_gpa w)) (page_end w).

Fixpoint clear_runs (slices : list DirtySlice) (r : run) (ws : list DirtyWritten) : list run :=
  match ws with
  | [] => [r]
  | next :: ws =>
      if page_end next <=? run_end r then clear_runs slices r ws
      else if negb (w_gpa next =? run_end r) ||
              negb (reims_vgpu_dirty_slice_of slices (w_gpa next) =? run_si r)
      then r :: clear_runs slices (open_run slices next) ws
      else clear_runs slices (mkRun (run_gpa r) (run_si r) (page_end next)) ws
  end.

Definition written_runs (slices : list DirtySlice) (written : list DirtyWritten) : list run :=
  match merge_sort le_written written with
  | [] => []
  | first :: ws => clear_runs slices (open_run slices first) ws
  end.

Definition clear_run (slices : list DirtySlice) (m : Mem) (r : run) : Mem :=
  if run_si r <? 0 then m
  else match slices !! Z.to_nat (run_si r) with
  | None => m
  | Some sl =>
      reset_dirty m (mr_ram_addr (sl_mr sl) + (sl_offset sl + (run_gpa r - sl_gpa sl)))
        (run_end r - run_gpa r)
  end.

Definition harvest_clear (slices : list DirtySlice) (m : Mem) (written : list DirtyWritten) : Mem :=
  foldl (clear_run slices) m (written_runs slices written).

(** Turning logging on, last. *)
Definition enable_log (dm : ReimsVgpuDirty * Mem) (sl : DirtySlice) : ReimsVgpuDirty * Mem :=
  let '(d, m) := dm in
  let id := mr_id (sl_mr sl) in
  if bool_decide (id ∈ logged d) then (d, m)
  else (d <| logged := {[id]} ∪ logged d |>, m <| vga_log := {[id]} ∪ vga_log m |>).

Definition harvest_enable (slices : list DirtySlice) (needs : list Z) (d : ReimsVgpuDirty) (m : Mem) :
    ReimsVgpuDirty * Mem :=
  foldl enable_log (d, m) (omap (λ '(i, sl), if bool_decide (Z.of_nat i ∈ needs) then Some sl else None)
                                (imap (λ i sl, (i, sl)) slices)).

(** Whether the call returns at once. *)
Definition harvest_skips (d : ReimsVgpuDirty) : bool :=
  bool_decide (sets d = ∅) || (reads_since_harvest d =? 0).

Definition reims_vgpu_dirty_harvest (d : ReimsVgpuDirty) (m : Mem) : ReimsVgpuDirty * Mem :=
  if harvest_skips d then (d, m)
  else
    let slices := reims_vgpu_dirty_ram_slices d m in
    let m := dirty_log_sync m in
    let '(d, written, needs) := harvest_fold d slices m in
    let m := harvest_clear slices m written in
    harvest_enable slices needs d m.

(** Destroying the tracker turns the logging it asked for back off; a region that
    another device logs as well ([others]) keeps a positive logging count. *)
Definition reims_vgpu_dirty_free (others : gset Z) (d : ReimsVgpuDirty) (m : Mem) : Mem :=
  m <| vga_log := vga_log m ∖ (logged d ∖ others) |>.

(** ** The guest *)

(** The RAM a guest address resolves to: region id and ram_addr_t. *)
Definition resolve (fv : list FlatRange) (gpa : Z) : option (Z * Z) :=
  fr ← list_find (λ fr, mr_ram (fr_mr fr) = true ∧ fr_start fr ≤ gpa < fr_start fr + fr_size fr) fv;
  Some (mr_id (fr_mr fr.2), mr_ram_addr (fr_mr fr.2) + fr_offset fr.2 + (gpa - fr_start fr.2)).

(** A guest store: logged by the accelerator when the region's logging is on. *)
Definition guest_write (m : Mem) (gpa : Z) : Mem :=
  match resolve (flat m) gpa with
  | Some (id, ra) => if bool_decide (id ∈ vga_log m) then m <| hv_log := {[ra / target]} ∪ hv_log m |> else m
  | None => m
  end.

Inductive event :=
  | GuestWrite (gpa : Z)
  | Harvest
  | Track (gpas : list Z) (psize : Z)
  | Untrack (token : Z)
  | ReadGen (token : Z)
  | ReadWritten (token since max : Z).

Definition step (dm : ReimsVgpuDirty * Mem) (ev : event) : ReimsVgpuDirty * Mem :=
  let '(d, m) := dm in
  match ev with
  | GuestWrite gpa => (d, guest_write m gpa)
  | Harvest => reims_vgpu_dirty_harvest d m
  | Track gpas psize => ((reims_vgpu_dirty_track d gpas psize).2, m)
  | Untrack token => (reims_vgpu_dirty_untrack d token, m)
  | ReadGen token => ((reims_vgpu_dirty_gen d token).2, m)
  | ReadWritten token since max => ((reims_vgpu_dirty_written_since d token since max).2, m)
  end.

Definition steps (dm : ReimsVgpuDirty * Mem) (evs : list event) : ReimsVgpuDirty * Mem :=
  foldl step dm evs.

End tracker.

(** ** Sorting and deduplication *)
Lemma le_u64_le x y : le_u64 x y ↔ x ≤ y.
Proof.
  unfold le_u64, reims_vgpu_dirty_cmp_u64.
  destruct (Z.ltb_spec x y), (Z.ltb_spec y x); lia.
Qed.

#[export] Instance le_u64_total : Total le_u64.
Proof. intros x y. rewrite !le_u64_le. lia. Qed.
#[export] Instance le_u64_trans : Transitive le_u64.
Proof. intros x y z. rewrite !le_u64_le. lia. Qed.

Lemma dedup_head x l : ∃ r, dedup (x :: l) = x :: r.
Proof.
  simpl. destruct (dedup l) as [|y r]; [by eauto|].
  destruct (Z.eqb_spec x y) as [->|]; by eauto.
Qed.

Lemma elem_of_dedup l x : x ∈ dedup l ↔ x ∈ l.
Proof.
  induction l as [|y l IH]; [done|]. rewrite elem_of_cons, <- IH. simpl.
  destruct (dedup l) as [|z r]; [by rewrite elem_of_cons, !elem_of_nil|].
  destruct (Z.eqb_spec y z) as [->|]; rewrite !elem_of_cons; tauto.
Qed.

Lemma dedup_sorted l : StronglySorted le_u64 l → StronglySorted Z.lt (dedup l).
Proof.
  induction 1 as [|x l Hl IH Hx]; simpl; [constructor|].
  destruct (dedup l) as [|y r] eqn:E; [by repeat constructor|].
  assert (∀ z, z ∈ y :: r → x ≤ z) as Hle.
  { intros z. rewrite <- E, elem_of_dedup. intros Hz. apply le_u64_le.
    rewrite Forall_forall in Hx. by apply Hx. }
  destruct (Z.eqb_spec x y) as [|Hne]; [done|]. constructor; [done|].
  assert (x < y) as Hxy by (specialize (Hle y ltac:(left)); lia).
  apply Forall_cons. split; [done|]. inversion IH as [|? ? _ Hy]; subst.
  eapply Forall_impl; [exact Hy|]. simpl. lia.
Qed.

(** ** Pages of a power-of-two size *)
Definition pow2 (n : Z) : Prop := ∃ k, 0 ≤ k ∧ n = 2 ^ k.

Lemma pow2_pos n : pow2 n → 0 < n.
Proof. intros (k & ? & ->). by apply Z.pow_pos_nonneg. Qed.

Lemma land_pred_pow2 n : 0 < n → Z.land n (n - 1) = 0 → pow2 n.
Proof.
  intros Hn Hl. exists (Z.log2 n). split; [apply Z.log2_nonneg|].
  pose proof (Z.log2_spec n Hn) as [Hlo Hhi].
  destruct (decide (n = 2 ^ Z.log2 n)) as [|Hne]; [done|exfalso].
  set (k := Z.log2 n) in *. pose proof (Z.log2_nonneg n) as Hk. fold k in Hk.
  rewrite Z.pow_succ_r in Hhi by done.
  assert (Z.testbit n k = true) as H1 by (by apply Z.bit_log2).
  assert (Z.log2 (n - 1) = k) as Hlog.
  { apply Z.log2_unique; [done|]. rewrite Z.pow_succ_r by done. lia. }
  assert (0 < n - 1) by (pose proof (Z.pow_pos_nonneg 2 k); lia).
  assert (Z.testbit (n - 1) k = true) as H2 by (rewrite <- Hlog; by apply Z.bit_log2).
  pose proof (Z.land_spec n (n - 1) k) as Hb. rewrite Hl, Z.bits_0, H1, H2 in Hb. done.
Qed.

Lemma ldiff_shift g k : 0 ≤ k → Z.ldiff g (2 ^ k - 1) = 2 ^ k * (g / 2 ^ k).
Proof.
  intros Hk. replace (2 ^ k - 1) with (Z.ones k) by (rewrite Z.ones_equiv; lia). rewrite Z.ldiff_ones_r by done.
  rewrite Z.shiftl_mul_pow2, Z.shiftr_div_pow2 by done. lia.
Qed.

(** ** Resolving an address against the slice table *)
Section resolve.
Variable target : Z.

Definition slice_at_gpa (slices : list DirtySlice) (gpa : Z) : option DirtySlice :=
  let si := reims_vgpu_dirty_slice_of slices gpa in
  if si <? 0 then None else slices !! Z.to_nat si.

Lemma slice_of_from_spec slices gpa i :
  0 ≤ i →
  match list_find (λ sl, in_slice gpa sl = true) slices with
  | Some (j, _) => slice_of_from i slices gpa = i + Z.of_nat j
  | None => slice_of_from i slices gpa = -1
  end.
Proof.
  revert i. induction slices as [|sl slices IH]; intros i Hi; simpl; [done|].
  destruct (in_slice gpa sl) eqn:E; simpl; [lia|].
  specialize (IH (i + 1) ltac:(lia)).
  destruct (list_find _ slices) as [[j x]|]; simpl; [lia|done].
Qed.

Lemma slice_at_gpa_find slices gpa :
  slice_at_gpa slices gpa = snd <$> list_find (λ sl, in_slice gpa sl = true) slices.
Proof.
  unfold slice_at_gpa, reims_vgpu_dirty_slice_of.
  pose proof (slice_of_from_spec slices gpa 0 ltac:(lia)) as H.
  destruct (list_find _ slices) as [[j sl]|] eqn:E; rewrite H; [|done].
  rewrite Z.add_0_l. destruct (Z.ltb_spec (Z.of_nat j) 0); [lia|]. rewrite Nat2Z.id.
  apply list_find_Some in E as (-> & _). done.
Qed.

(** The slice table answers exactly what the flat view resolves. *)
Lemma resolve_slice d m gpa :
  resolve (flat m) gpa =
    (λ sl, (mr_id (sl_mr sl), sl_ram_addr sl + (gpa - sl_gpa sl)))
      <$> slice_at_gpa (reims_vgpu_dirty_ram_slices d m) gpa.
Proof.
  rewrite slice_at_gpa_find. unfold resolve, reims_vgpu_dirty_ram_slices.
  induction (flat m) as [|fr fv IH]; [done|].
  cbn [omap list_omap]. unfold reims_vgpu_dirty_ram_range at 1.
  destruct (decide (mr_ram (fr_mr fr) = true ∧ fr_start fr ≤ gpa < fr_start fr + fr_size fr)) as [Hin|Hout].
  - rewrite list_find_yes by done. simpl. destruct Hin as [-> ?]. simpl.
    destruct (Z.eqb_spec (fr_size fr) 0); [lia|]. cbn [negb orb].
    rewrite list_find_yes; [done|]. unfold in_slice. simpl.
    apply andb_true_iff. split; [apply Z.leb_le; lia|apply Z.ltb_lt; lia].
  - rewrite list_find_no by done.
    destruct (negb (mr_ram (fr_mr fr)) || (fr_size fr =? 0)) eqn:E.
    + destruct (list_find _ fv) as [[??]|]; simpl in *; by rewrite IH.
    + rewrite list_find_no.
      * destruct (list_find _ fv) as [[??]|], (list_find _ (omap _ fv)) as [[??]|]; simpl in *; by rewrite ?IH.
      * unfold in_slice. simpl. apply orb_false_iff in E as [E1 E2]. apply negb_false_iff in E1.
        intros Hc. apply andb_true_iff in Hc as [?%Z.leb_le ?%Z.ltb_lt]. apply Hout. split; [done|lia].
Qed.

Lemma slice_logged d m gpa sl :
  slice_at_gpa (reims_vgpu_dirty_ram_slices d m) gpa = Some sl →
  sl_logged sl = bool_decide (mr_id (sl_mr sl) ∈ logged d).
Proof.
  rewrite slice_at_gpa_find. intros Hs.
  destruct (list_find _ _) as [[j sl']|] eqn:E; [|done]. simplify_eq/=.
  apply list_find_Some in E as (E & _). apply list_elem_of_lookup_2 in E.
  unfold reims_vgpu_dirty_ram_slices in E. apply list_elem_of_omap in E as (fr & _ & Hfr).
  unfold reims_vgpu_dirty_ram_range in Hfr. by case_match; simplify_eq/=.
Qed.

(** The verdict on a page, in terms of the address space and the log. *)
Definition page_state (fv : list FlatRange) (log : gset Z) (m : Mem) (psize gpa : Z) : bool * bool :=
  match resolve fv gpa with
  | None => (true, false)
  | Some (id, ra) =>
      if bool_decide (id ∈ log)
      then (any_dirty target m ra (Z.to_nat ((psize + target - 1) / target)), false)
      else (true, true)
  end.

Lemma harvest_page_state d m m' psize gpa :
  let v := harvest_page target (reims_vgpu_dirty_ram_slices d m) m' psize gpa in
  (is_hit v, is_unlogged v) = page_state (flat m) (logged d) m' psize gpa.
Proof.
  unfold page_state. rewrite (resolve_slice d m). simpl. unfold harvest_page.
  pose proof (slice_logged d m gpa) as Hl. unfold slice_at_gpa in *.
  destruct (_ <? 0); [done|]. destruct (_ !! _) as [sl|]; [|done]. simpl.
  rewrite (Hl sl eq_refl). destruct (bool_decide _); [|done]. simpl.
  unfold reims_vgpu_dirty_page_written. by destruct (any_dirty _ _ _ _).
Qed.

End resolve.

(** ** The invariant of the tracker *)
Section invariant.
Variable target : Z.
Variable fv : list FlatRange.

(** Writes to the page are recorded, or the page is never called clean. *)
Definition covered (log : gset Z) (gpa : Z) : Prop :=
  match resolve fv gpa with Some (id, _) => id ∈ log | None => True end.

Record set_inv (log : gset Z) (h : Z) (s : DirtySet) : Prop := {
  si_len : length (page_gen s) = length (pages s);
  si_gen : 0 ≤ gen s;
  si_stamps : Forall (λ g, 0 ≤ g ≤ gen s) (page_gen s);
  si_armed : gen s ≠ 0 → arm_at s ≤ h;
  si_covered : gen s ≠ 0 → Forall (covered log) (pages s);
  si_size : 0 < page_size s ∧ (target | page_size s);
  si_aligned : Forall (λ p, (page_size s | p)) (pages s)
}.

Record dirty_inv (d : ReimsVgpuDirty) (m : Mem) : Prop := {
  di_flat : flat m = fv;
  di_logged : logged d ⊆ vga_log m;
  di_token : 0 ≤ next_token d;
  di_reads : 0 ≤ reads_since_harvest d;
  di_tokens : ∀ t s, sets d !! t = Some s → 0 < t ≤ next_token d;
  di_sets : ∀ t s, sets d !! t = Some s → set_inv (logged d) (harvests d) s
}.

Lemma new_inv m : flat m = fv → dirty_inv reims_vgpu_dirty_new m.
Proof. by constructor. Qed.

Lemma set_inv_mono log log' h h' s :
  set_inv log h s → log ⊆ log' → h ≤ h' → set_inv log' h' s.
Proof.
  intros [] Hl Hh. constructor; auto; [intros Hn; specialize (si_armed0 Hn); lia|].
  intros Hg. eapply Forall_impl; [by apply si_covered0|]. unfold covered.
  intros p. destruct (resolve fv p) as [[??]|]; set_solver.
Qed.

(** What a harvest does to an armed set. *)
Lemma harvest_set_armed slices m h s :
  gen s ≠ 0 → 0 ≤ gen s → arm_at s ≤ h →
  let vs := harvest_verdicts target slices m s in
  let s' := harvest_set target slices m h s in
  gen s' = gen s + (if existsb is_hit vs then 1 else 0) ∧ pages s' = pages s ∧ arm_at s' = arm_at s ∧
  page_size s' = page_size s ∧
  page_gen s' = zip_with (λ v (old : Z), if is_hit v then gen s' else old) vs (page_gen s).
Proof.
  intros Hg Hp Ha vs. unfold harvest_set. fold vs. cbv zeta.
  assert ((gen s =? 0) = false) as E0 by (by apply Z.eqb_neq).
  assert ((h <? arm_at s) = false) as E1 by (apply Z.ltb_ge; lia).
  rewrite E0. cbn [andb]. rewrite E1. cbn iota. rewrite E0. destruct (existsb is_hit vs); simpl.
  - assert ((gen s + 1 =? 0) = false) as -> by (apply Z.eqb_neq; lia). done.
  - rewrite E0. simpl. split_and!; [lia|done..].
Qed.

(** And to one in its startup window. *)
Lemma harvest_set_unarmed slices m h s :
  gen s = 0 →
  let vs := harvest_verdicts target slices m s in
  let s' := harvest_set target slices m h s in
  pages s' = pages s ∧ page_size s' = page_size s ∧
  if existsb is_unlogged vs || (h <? arm_at s) then
    gen s' = 0 ∧ page_gen s' = page_gen s ∧
    arm_at s' = (if existsb is_unlogged vs then h + 1 else arm_at s)
  else gen s' = 1 ∧ arm_at s' = arm_at s ∧
    page_gen s' = zip_with (λ v (old : Z), if is_hit v then 1 else old) vs (page_gen s).
Proof.
  intros Hg vs. unfold harvest_set. fold vs. rewrite Hg. simpl (0 =? 0).
  destruct (existsb is_unlogged vs); simpl.
  - destruct (Z.ltb_spec h (h + 1)); [|lia]. done.
  - destruct (Z.ltb_spec h (arm_at s)); [done|]. rewrite Hg. done.
Qed.

Lemma stamps_bound vs l g g' :
  0 ≤ g ≤ g' → Forall (λ x, 0 ≤ x ≤ g) l →
  Forall (λ x, 0 ≤ x ≤ g') (zip_with (λ v (old : Z), if is_hit v then g' else old) vs l).
Proof.
  intros Hg Hl. revert vs. induction Hl as [|x l Hx Hl IH]; intros [|v vs]; simpl; try constructor; [|done].
  destruct (is_hit v); lia.
Qed.

Lemma verdicts_covered d m m' s :
  flat m = fv →
  existsb is_unlogged (harvest_verdicts target (reims_vgpu_dirty_ram_slices d m) m' s) = false →
  Forall (covered (logged d)) (pages s).
Proof.
  intros Hfv Hex. apply Forall_forall. intros p Hp. unfold covered.
  pose proof (harvest_page_state target d m m' (page_size s) p) as Hst. unfold page_state in Hst.
  rewrite Hfv in Hst. destruct (resolve fv p) as [[id ra]|]; [|done].
  case_bool_decide; [done|]. simpl in Hst. injection Hst as _ Hun.
  assert (existsb is_unlogged (harvest_verdicts target (reims_vgpu_dirty_ram_slices d m) m' s) = true); [|congruence].
  apply existsb_exists. eexists. split; [|exact Hun]. apply list_elem_of_In.
  unfold harvest_verdicts. by apply list_elem_of_fmap_2.
Qed.

Lemma harvest_set_inv d m m' s :
  flat m = fv → set_inv (logged d) (harvests d) s →
  set_inv (logged d) (harvests d + 1)
    (harvest_set target (reims_vgpu_dirty_ram_slices d m) m' (harvests d + 1) s).
Proof.
  intros Hfv Hs. set (slices := reims_vgpu_dirty_ram_slices d m).
  pose proof Hs as [Hl Hg Hst Ha Hc Hsz Hal]. unfold slices in *.
  assert (length (harvest_verdicts target (reims_vgpu_dirty_ram_slices d m) m' s) = length (pages s)) as Hlv
    by apply length_fmap.
  destruct (decide (gen s = 0)) as [H0|H0].
  - pose proof (harvest_set_unarmed (reims_vgpu_dirty_ram_slices d m) m' (harvests d + 1) s H0) as (Hp & Hps & Hr).
    destruct (existsb is_unlogged _) eqn:Hu; simpl in Hr.
    { destruct Hr as (Hg' & Hpg & Har). constructor; rewrite ?Hg', ?Hpg, ?Hp, ?Hps; try done. by rewrite H0 in Hst. }
    destruct (Z.ltb_spec (harvests d + 1) (arm_at s)).
    { destruct Hr as (Hg' & Hpg & Har). constructor; rewrite ?Hg', ?Hpg, ?Hp, ?Hps; try done. by rewrite H0 in Hst. }
    destruct Hr as (Hg' & Har & Hpg). constructor; rewrite ?Hg', ?Hpg, ?Hp, ?Har, ?Hps; try done; try lia.
    + rewrite length_zip_with. lia.
    + eapply stamps_bound; [|exact Hst]. lia.
    + intros _. by eapply verdicts_covered.
  - pose proof (harvest_set_armed (reims_vgpu_dirty_ram_slices d m) m' (harvests d + 1) s H0 Hg
      ltac:(specialize (Ha H0); lia)) as (Hg' & Hp & Har & Hps & Hpg).
    constructor; rewrite ?Hp, ?Har, ?Hpg, ?Hps; try done.
    + rewrite length_zip_with. lia.
    + rewrite Hg'. case_match; lia.
    + eapply stamps_bound; [|exact Hst]. rewrite Hg'. case_match; lia.
    + intros _. specialize (Ha H0). lia.
    + intros _. by apply Hc.
Qed.

End invariant.

(** ** The passes of a harvest *)
Section passes.
Variable target : Z.

Lemma clear_run_frame slices m r :
  flat (clear_run target slices m r) = flat m ∧ vga_log (clear_run target slices m r) = vga_log m.
Proof. unfold clear_run. by repeat case_match. Qed.

Lemma harvest_clear_frame slices m ws :
  flat (harvest_clear target slices m ws) = flat m ∧ vga_log (harvest_clear target slices m ws) = vga_log m.
Proof.
  unfold harvest_clear. generalize (written_runs slices ws). intros rs. revert m.
  induction rs as [|r rs IH]; intros m; simpl; [done|].
  destruct (IH (clear_run target slices m r)) as [-> ->]. apply clear_run_frame.
Qed.

(** Enabling only adds regions, to the tracker's table and to the memory core. *)
Lemma enable_fold_spec sls d m :
  logged d ⊆ vga_log m →
  let dm := foldl enable_log (d, m) sls in
  sets dm.1 = sets d ∧ harvests dm.1 = harvests d ∧ next_token dm.1 = next_token d ∧
  reads_since_harvest dm.1 = reads_since_harvest d ∧
  flat dm.2 = flat m ∧ bitmap dm.2 = bitmap m ∧ hv_log dm.2 = hv_log m ∧
  logged d ⊆ logged dm.1 ∧ logged dm.1 ⊆ vga_log dm.2 ∧
  (∀ sl, sl ∈ sls → mr_id (sl_mr sl) ∈ logged dm.1).
Proof.
  revert d m. induction sls as [|sl sls IH]; intros d m Hl; [simpl; set_solver|]. cbn [foldl].
  destruct (enable_log (d, m) sl) as [d1 m1] eqn:E.
  assert (sets d1 = sets d ∧ harvests d1 = harvests d ∧ next_token d1 = next_token d ∧
    reads_since_harvest d1 = reads_since_harvest d ∧ flat m1 = flat m ∧ bitmap m1 = bitmap m ∧
    hv_log m1 = hv_log m ∧ logged d ⊆ logged d1 ∧ logged d1 ⊆ vga_log m1 ∧ mr_id (sl_mr sl) ∈ logged d1)
    as (<- & <- & <- & <- & <- & <- & <- & Hs1 & Hv1 & Hi1).
  { clear IH. unfold enable_log in E. case_bool_decide; simplify_eq/=; [done|]. split_and!; [done..|set_solver| |set_solver].
    set_solver. }
  destruct (IH d1 m1 Hv1) as (-> & -> & -> & -> & -> & -> & -> & Hs & Hv & He). clear IH.
  split_and!; try done; [set_solver|]. intros x [->|]%elem_of_cons; set_solver.
Qed.

Lemma harvest_enable_needs slices (needs : list Z) (sl : DirtySlice) i :
  slices !! i = Some sl → Z.of_nat i ∈ needs →
  sl ∈ omap (λ '(i, sl), if bool_decide (Z.of_nat i ∈ needs) then Some sl else None)
         (imap (λ i sl, (i, sl)) slices).
Proof.
  intros Hi Hn. apply list_elem_of_omap. exists (i, sl). split.
  - apply list_elem_of_lookup. exists i. by rewrite list_lookup_imap, Hi.
  - by rewrite bool_decide_true.
Qed.

(** What an effective harvest does to the tracker and to the address space. *)
Lemma harvest_effective d m :
  harvest_skips d = false → logged d ⊆ vga_log m →
  let slices := reims_vgpu_dirty_ram_slices d m in
  let dm := reims_vgpu_dirty_harvest target d m in
  sets dm.1 = harvest_set target slices (dirty_log_sync m) (harvests d + 1) <$> sets d ∧
  harvests dm.1 = harvests d + 1 ∧ next_token dm.1 = next_token d ∧ reads_since_harvest dm.1 = 0 ∧
  flat dm.2 = flat m ∧ logged d ⊆ logged dm.1 ∧ logged dm.1 ⊆ vga_log dm.2 ∧
  bitmap dm.2 = bitmap (harvest_clear target slices (dirty_log_sync m)
    (omap written_of (map_to_list (sets d) ≫= λ ts, harvest_verdicts target slices (dirty_log_sync m) ts.2))).
Proof.
  intros Hsk Hl slices dm. subst dm. unfold reims_vgpu_dirty_harvest. rewrite Hsk. simpl. fold slices.
  unfold harvest_enable.
  match goal with |- context [foldl enable_log (?d1, ?m1) ?l] =>
    pose proof (enable_fold_spec l d1 m1) as Hen end.
  destruct (harvest_clear_frame slices (dirty_log_sync m)
    (omap written_of (map_to_list (sets d) ≫= λ ts, harvest_verdicts target slices (dirty_log_sync m) ts.2)))
    as [Hf Hv].
  simpl in Hen. rewrite Hf, Hv in Hen. destruct Hen as (-> & -> & -> & -> & -> & -> & _ & ? & ? & ?); [done|].
  done.
Qed.

(** A region some page needed is being logged afterwards. *)
Lemma harvest_enables d m t s gpa id ra :
  harvest_skips d = false → logged d ⊆ vga_log m →
  sets d !! t = Some s → gpa ∈ pages s → resolve (flat m) gpa = Some (id, ra) →
  id ∈ logged (reims_vgpu_dirty_harvest target d m).1.
Proof.
  intros Hsk Hl Hs Hg Hr. destruct (harvest_effective d m Hsk Hl) as (_ & _ & _ & _ & _ & Hsub & _ & _).
  destruct (decide (id ∈ logged d)) as [Hin|Hnin]; [set_solver|].
  unfold reims_vgpu_dirty_harvest. rewrite Hsk. simpl. set (slices := reims_vgpu_dirty_ram_slices d m).
  unfold harvest_enable.
  match goal with |- context [foldl enable_log (?d1, ?m1) ?l] =>
    destruct (enable_fold_spec l d1 m1) as (_ & _ & _ & _ & _ & _ & _ & _ & _ & He) end.
  { simpl. match goal with |- _ ⊆ vga_log (harvest_clear _ ?a ?b ?c) =>
      destruct (harvest_clear_frame a b c) as [_ ->] end. done. }
  pose proof (resolve_slice d m gpa) as Hres. rewrite Hr in Hres.
  destruct (slice_at_gpa slices gpa) as [sl|] eqn:Hsl; fold slices in Hres; rewrite Hsl in Hres; [|done].
  simpl in Hres. injection Hres as Hid _. rewrite Hid.
  pose proof Hsl as Hsl'. unfold slice_at_gpa in Hsl'.
  destruct (Z.ltb_spec (reims_vgpu_dirty_slice_of slices gpa) 0); [done|].
  apply He. eapply harvest_enable_needs; [exact Hsl'|]. rewrite Z2Nat.id by done.
  apply list_elem_of_omap. exists (Unlogged (reims_vgpu_dirty_slice_of slices gpa)). split; [|done].
  apply list_elem_of_bind. exists (t, s). split; [|by apply elem_of_map_to_list].
  simpl. unfold harvest_verdicts. apply list_elem_of_fmap. exists gpa. split; [|done].
  unfold harvest_page. destruct (Z.ltb_spec (reims_vgpu_dirty_slice_of slices gpa) 0); [lia|].
  rewrite Hsl'. rewrite (slice_logged d m gpa sl) by done. rewrite <- Hid.
  by rewrite bool_decide_false by done.
Qed.

End passes.

(** ** Registering a set *)
Section track.
Variable target : Z.
Hypothesis target_pow2 : pow2 target.

Lemma pow2_divide a b : pow2 a → pow2 b → a ≤ b → (a | b).
Proof.
  intros (i & Hi & ->) (j & Hj & ->) Hle.
  assert (i ≤ j) by (apply (Z.pow_le_mono_r_iff 2); lia).
  exists (2 ^ (j - i)). rewrite <- Z.pow_add_r by lia. f_equal. lia.
Qed.

(** The page a guest address lies in. *)
Definition page_base (psize g : Z) : Z := psize * (g / psize).

Lemma track_success d gpas psize :
  pow2 psize → target ≤ psize → gpas ≠ [] →
  ∃ ps, reims_vgpu_dirty_track target d gpas psize =
    (next_token d + 1,
     d <| next_token := next_token d + 1 |>
       <| sets := <[next_token d + 1 :=
            mkSet ps (replicate (length ps) 0) psize 0 (harvests d + 1)]> (sets d) |>) ∧
    StronglySorted Z.lt ps ∧ (∀ p, p ∈ ps ↔ ∃ g, g ∈ gpas ∧ p = page_base psize g).
Proof.
  intros Hp2 Ht Hne. pose proof (pow2_pos _ Hp2). pose proof Hp2 as (k & Hk & Hps). unfold reims_vgpu_dirty_track.
  assert ((match gpas with [] => true | _ :: _ => false end) = false) as -> by (by destruct gpas).
  destruct (Z.eqb_spec psize 0); [lia|].
  assert (nz (Z.land psize (psize - 1)) = false) as ->.
  { unfold nz. rewrite Hps, land_ones_mod, Z.mod_same; [done|lia..]. }
  destruct (Z.ltb_spec psize target); [lia|]. cbn [orb].
  set (ps := dedup _). exists ps. split; [done|]. split.
  - apply dedup_sorted. apply StronglySorted_merge_sort; apply _.
  - intros p. unfold ps. rewrite elem_of_dedup, merge_sort_Permutation, list_elem_of_fmap.
    assert (∀ g, Z.ldiff g (psize - 1) = page_base psize g) as Hal.
    { intros g. unfold page_base. rewrite Hps. by apply ldiff_shift. }
    setoid_rewrite Hal. naive_solver.
Qed.

(** Either the set is refused and nothing changes, or it is registered. *)
Lemma track_cases d gpas psize :
  0 ≤ psize →
  reims_vgpu_dirty_track target d gpas psize = (0, d) ∨ (pow2 psize ∧ target ≤ psize ∧ gpas ≠ []).
Proof.
  intros H0. unfold reims_vgpu_dirty_track.
  destruct (_ || nz _) eqn:E; [by left|]. destruct (Z.ltb_spec psize target); [by left|]. right.
  apply orb_false_iff in E as [[E E0]%orb_false_iff El]. reflect_bools.
  split_and!; [|done|by destruct gpas]. apply land_pred_pow2; lia.
Qed.

Lemma track_set_inv fv log h ps psize :
  pow2 psize → target ≤ psize → Forall (λ p, (psize | p)) ps →
  set_inv target fv log h (mkSet ps (replicate (length ps) 0) psize 0 (h + 1)).
Proof.
  intros Hp Ht Hal. constructor; simpl; try done.
  - apply length_replicate.
  - apply Forall_replicate. lia.
  - split; [by apply pow2_pos|]. by apply pow2_divide.
Qed.

End track.

(** ** Runs of the tracker *)
Section runs.
Variable target : Z.
Hypothesis target_pow2 : pow2 target.
Variable fv : list FlatRange.

(** Arguments have their C types. *)
Definition event_ok (ev : event) : Prop :=
  match ev with Track _ psize => 0 ≤ psize | _ => True end.

Lemma read_inv d m :
  dirty_inv target fv d m →
  dirty_inv target fv (d <| reads_since_harvest := reads_since_harvest d + 1 |>) m.
Proof. intros []. constructor; simpl; done || lia. Qed.

Lemma harvest_inv d m :
  dirty_inv target fv d m →
  dirty_inv target fv (reims_vgpu_dirty_harvest target d m).1 (reims_vgpu_dirty_harvest target d m).2.
Proof.
  intros Hi. destruct (harvest_skips d) eqn:Hsk.
  { unfold reims_vgpu_dirty_harvest. by rewrite Hsk. }
  pose proof Hi as []. destruct (harvest_effective target d m Hsk di_logged0)
    as (Hsets & Hh & Hn & Hr & Hf & Hl & Hv & _).
  constructor; rewrite ?Hf, ?Hn, ?Hh, ?Hr; try done.
  - intros t s. rewrite Hsets, lookup_fmap. intros (s0 & Hs0 & _)%fmap_Some. by eapply di_tokens0.
  - intros t s. rewrite Hsets, lookup_fmap. intros (s0 & Hs0 & ->)%fmap_Some.
    eapply set_inv_mono; [|done|reflexivity]. eapply harvest_set_inv; [done|by eapply di_sets0].
Qed.

Lemma step_inv d m ev :
  dirty_inv target fv d m → event_ok ev →
  dirty_inv target fv (step target (d, m) ev).1 (step target (d, m) ev).2.
Proof.
  intros Hi Hok. destruct ev as [gpa| |gpas psize|token|token|token since max]; simpl in *.
  - destruct Hi. unfold guest_write. repeat case_match; by constructor.
  - by apply harvest_inv.
  - destruct (track_cases target d gpas psize Hok) as [->|(Hp & Ht & Hne)]; [done|].
    destruct (track_success target d gpas psize Hp Ht Hne) as (ps & -> & _ & Hps).
    destruct Hi. constructor; simpl; try done; [lia| |].
    + intros t s [[<- _]|[_ Hs]]%lookup_insert_Some; [lia|]. specialize (di_tokens0 _ _ Hs). lia.
    + intros t s [[<- <-]|[_ Hs]]%lookup_insert_Some; [|by eapply di_sets0].
      apply track_set_inv; [done..|]. apply Forall_forall. intros p (g & _ & ->)%Hps.
      unfold page_base. apply Z.divide_factor_l.
  - unfold reims_vgpu_dirty_untrack. case_match; [done|]. destruct Hi. constructor; simpl; try done.
    + intros t s [_ Hs]%lookup_delete_Some. by eapply di_tokens0.
    + intros t s [_ Hs]%lookup_delete_Some. by eapply di_sets0.
  - unfold reims_vgpu_dirty_gen. case_match; simpl; [done|]. by apply read_inv.
  - unfold reims_vgpu_dirty_written_since. repeat case_match; simplify_eq/=; try done. by apply read_inv.
Qed.

Lemma steps_inv d m evs :
  dirty_inv target fv d m → Forall event_ok evs →
  dirty_inv target fv (steps target (d, m) evs).1 (steps target (d, m) evs).2.
Proof.
  intros Hi Hok. revert d m Hi. induction Hok as [|ev evs Hev _ IH]; intros d m Hi; [done|].
  unfold steps in *. cbn [foldl]. pose proof (step_inv d m ev Hi Hev) as Hi'.
  destruct (step target (d, m) ev) as [d1 m1]. by apply IH.
Qed.

(** How one token's set moves: it is dropped for good, or it keeps its pages and
    its generation and stamps only grow. *)
Definition grows (t : Z) (d d' : ReimsVgpuDirty) : Prop :=
  next_token d ≤ next_token d' ∧
  match sets d !! t, sets d' !! t with
  | _, None => True
  | None, Some _ => False
  | Some s, Some s' => pages s' = pages s ∧ page_size s' = page_size s ∧ gen s ≤ gen s' ∧
      Forall2 Z.le (page_gen s) (page_gen s')
  end.

#[local] Instance Forall2_le_refl : Reflexive (Forall2 Z.le).
Proof. intros l. induction l; constructor; [lia|done]. Qed.

Lemma grows_refl t d : grows t d d.
Proof. split; [lia|]. by destruct (sets d !! t). Qed.

Lemma grows_trans t d1 d2 d3 : grows t d1 d2 → grows t d2 d3 → grows t d1 d3.
Proof.
  intros [Hn1 H1] [Hn2 H2]. split; [lia|].
  destruct (sets d1 !! t) as [s1|], (sets d2 !! t) as [s2|], (sets d3 !! t) as [s3|]; try done.
  destruct H1 as (E1 & E2 & Hg1 & Hf1), H2 as (E3 & E4 & Hg2 & Hf2). split_and!; [congruence..|lia|].
  revert Hf1 Hf2. apply transitivity.
Qed.

Lemma stamps_grow vs l g g' :
  length vs = length l → g ≤ g' → Forall (λ x, 0 ≤ x ≤ g) l →
  Forall2 Z.le l (zip_with (λ v (old : Z), if is_hit v then g' else old) vs l).
Proof.
  intros Hl Hg Hf. revert vs Hl. induction Hf as [|x l Hx Hf IH]; intros [|v vs] Hl; simplify_eq/=; constructor.
  - destruct (is_hit v); lia.
  - by apply IH.
Qed.

Lemma harvest_set_grows d m m' s :
  flat m = fv → set_inv target fv (logged d) (harvests d) s →
  let s' := harvest_set target (reims_vgpu_dirty_ram_slices d m) m' (harvests d + 1) s in
  pages s' = pages s ∧ page_size s' = page_size s ∧ gen s ≤ gen s' ∧ Forall2 Z.le (page_gen s) (page_gen s').
Proof.
  intros Hfv [Hl Hg Hst Ha _ _ _]. set (slices := reims_vgpu_dirty_ram_slices d m). cbv zeta.
  assert (length (harvest_verdicts target slices m' s) = length (page_gen s)) as Hlv
    by (rewrite Hl; apply length_fmap).
  destruct (decide (gen s = 0)) as [H0|H0].
  - pose proof (harvest_set_unarmed target slices m' (harvests d + 1) s H0) as (Hp & Hps & Hr).
    destruct (_ || _); [destruct Hr as (Hg' & Hpg & _)|destruct Hr as (Hg' & _ & Hpg)];
      rewrite Hp, Hps, Hg', Hpg; split_and!; try done; try lia. eapply stamps_grow; [done| |exact Hst]. lia.
  - pose proof (harvest_set_armed target slices m' (harvests d + 1) s H0 Hg
      ltac:(specialize (Ha H0); lia)) as (Hg' & Hp & _ & Hps & Hpg).
    assert (gen s ≤ gen (harvest_set target slices m' (harvests d + 1) s)) by (rewrite Hg'; case_match; lia).
    rewrite Hp, Hps, Hpg. split_and!; try done. by eapply stamps_grow.
Qed.

Lemma step_grows d m ev t :
  dirty_inv target fv d m → event_ok ev → t ≤ next_token d → grows t d (step target (d, m) ev).1.
Proof.
  intros Hi Hok Ht. destruct ev as [gpa| |gpas psize|token|token|token since max]; simpl in *;
    try apply grows_refl.
  - destruct (harvest_skips d) eqn:Hsk.
    { unfold reims_vgpu_dirty_harvest. rewrite Hsk. apply grows_refl. }
    destruct Hi. destruct (harvest_effective target d m Hsk di_logged0) as (Hsets & _ & Hn & _).
    split; [lia|]. rewrite Hsets, lookup_fmap. destruct (sets d !! t) as [s|] eqn:Hs; [|done]. simpl.
    apply harvest_set_grows; [done|by eapply di_sets0].
  - destruct (track_cases target d gpas psize Hok) as [->|(Hp & Htp & Hne)]; [apply grows_refl|].
    destruct (track_success target d gpas psize Hp Htp Hne) as (ps & -> & _ & Hps).
    split; simpl; [lia|]. rewrite lookup_insert_ne by lia. by destruct (sets d !! t).
  - unfold reims_vgpu_dirty_untrack. case_match; [apply grows_refl|]. split; simpl; [lia|].
    destruct (decide (token = t)) as [->|]; [rewrite lookup_delete_eq; by destruct (sets d !! t)|].
    rewrite lookup_delete_ne by done. by destruct (sets d !! t).
  - unfold reims_vgpu_dirty_gen. case_match; simpl; [apply grows_refl|]. split; simpl; [lia|].
    by destruct (sets d !! t).
  - unfold reims_vgpu_dirty_written_since. repeat case_match; simplify_eq/=; try apply grows_refl.
    split; simpl; [lia|]. by destruct (sets d !! t).
Qed.

Lemma steps_grows d m evs t :
  dirty_inv target fv d m → Forall event_ok evs → t ≤ next_token d → grows t d (steps target (d, m) evs).1.
Proof.
  intros Hi Hok. revert d m Hi. induction Hok as [|ev evs Hev _ IH]; intros d m Hi Ht; [apply grows_refl|].
  unfold steps in *. cbn [foldl]. pose proof (step_inv d m ev Hi Hev) as Hi'.
  pose proof (step_grows d m ev t Hi Hev Ht) as Hg.
  destruct (step target (d, m) ev) as [d1 m1]. eapply grows_trans; [exact Hg|].
  apply IH; [done|]. destruct Hg as [? _]. simpl in *. lia.
Qed.

(** *** A logged write *)
Definition pending (m : Mem) : gset Z := bitmap m ∪ hv_log m.

Lemma any_dirty_intro m base n k :
  (k < n)%nat → (base + Z.of_nat k * target) / target ∈ bitmap m → any_dirty target m base n = true.
Proof.
  revert base k. induction n as [|n IH]; intros base k Hk Hin; [lia|]. simpl.
  destruct k as [|k].
  - unfold get_dirty_flag. rewrite bool_decide_true; [done|].
    by replace (base + Z.of_nat 0 * target) with base in Hin by lia.
  - rewrite (IH (base + target) k); [apply orb_true_r|lia|].
    by replace (base + target + Z.of_nat k * target) with (base + Z.of_nat (S k) * target) by lia.
Qed.

(** Guest pages do not straddle RAM ranges, and RAM ranges map target pages to
    target pages. *)
Definition whole_page (psize p : Z) : Prop :=
  ∀ id ra, resolve fv p = Some (id, ra) →
    (target | ra - p) ∧ ∀ o, 0 ≤ o < psize → resolve fv (p + o) = Some (id, ra + o).

(** A dirty target page inside a guest page makes the page read as written. *)
Lemma page_state_dirty log m psize p id ra o :
  0 < psize → (target | psize) → (psize | p) → whole_page psize p →
  resolve fv p = Some (id, ra) → id ∈ log → 0 ≤ o < psize → (ra + o) / target ∈ bitmap m →
  (page_state target fv log m psize p).1 = true.
Proof.
  intros Hps Htp Hpp Hw Hr Hin Ho Hq. unfold page_state. rewrite Hr, bool_decide_true by done. simpl.
  destruct (Hw _ _ Hr) as [Hra _]. pose proof (pow2_pos _ target_pow2) as Ht.
  assert (target | ra) as [r Er].
  { replace ra with ((ra - p) + p) by lia. apply Z.divide_add_r; [done|]. by apply (Z.divide_trans _ psize). }
  destruct Htp as [n En]. assert (0 < n) by nia.
  apply (any_dirty_intro m ra _ (Z.to_nat (o / target))).
  - assert ((psize + target - 1) / target = n) as ->.
    { rewrite En. symmetry. apply (Z.div_unique _ _ _ (target - 1)); lia. }
    assert (0 ≤ o / target < n); [|lia]. split; [apply Z.div_pos; lia|]. apply Z.div_lt_upper_bound; lia.
  - rewrite Z2Nat.id by (apply Z.div_pos; lia). rewrite Er in *.
    rewrite Z.add_comm, Z.div_add in Hq by lia. rewrite <- Z.mul_add_distr_r, Z.div_mul by lia.
    by rewrite Z.add_comm in Hq.
Qed.

(** A store to a page of an armed set leaves a pending bit, unless the page is
    not RAM. *)
Lemma write_pending d m t s p o :
  dirty_inv target fv d m → sets d !! t = Some s → gen s ≠ 0 → p ∈ pages s →
  whole_page (page_size s) p → 0 ≤ o < page_size s →
  resolve fv p = None ∨
  ∃ id ra, resolve fv p = Some (id, ra) ∧ (ra + o) / target ∈ pending (guest_write target m (p + o)).
Proof.
  intros [] Hs Hg Hp Hw Ho. destruct (resolve fv p) as [[id ra]|] eqn:Hr; [right|by left].
  exists id, ra. split; [done|]. destruct (Hw _ _ Hr) as [_ Hres].
  unfold guest_write. rewrite di_flat0, Hres by done.
  pose proof (si_covered _ _ _ _ _ (di_sets0 _ _ Hs) Hg) as Hcov. rewrite Forall_forall in Hcov.
  specialize (Hcov _ Hp). unfold covered in Hcov. rewrite Hr in Hcov.
  rewrite bool_decide_true by set_solver. unfold pending. simpl. set_solver.
Qed.

(** The scan of written_since finds every page stamped after [since]. *)
Lemma written_scan_spec since found max l out :
  written_scan since found max l = Some out → out = ((λ pg, pg.1) <$> filter (λ pg, since < pg.2) l).
Proof.
  revert found out. induction l as [|[p g] l IH]; intros found out; simpl; [by intros [= <-]|].
  destruct (Z.leb_spec g since).
  - intros Hw. rewrite filter_cons_False by (simpl; lia). by eapply IH.
  - case_match; [done|]. destruct (written_scan _ _ _ _) as [r|] eqn:E; [|done]. intros [= <-].
    rewrite filter_cons_True by done. simpl. f_equal. by eapply IH.
Qed.

(** What the two reading functions say once the set's stamps are past [g], or the
    token is gone. *)
Definition reported (d : ReimsVgpuDirty) (t g p : Z) : Prop :=
  (reims_vgpu_dirty_gen d t).1 ≠ g ∧
  ∀ max l, (reims_vgpu_dirty_written_since d t g max).1 = Some l → p ∈ l.

Lemma gone_reported d t g p : sets d !! t = None → g ≠ 0 → reported d t g p.
Proof.
  intros Hs Hg. unfold reported, reims_vgpu_dirty_gen, reims_vgpu_dirty_written_since. rewrite Hs.
  split; [by case_match|]. intros max l. by case_match.
Qed.

Lemma stamped_reported d t s g p i x :
  sets d !! t = Some s → g < gen s → pages s !! i = Some p → page_gen s !! i = Some x → g < x → 0 < g →
  reported d t g p.
Proof.
  intros Hs Hg Hp Hx Hgx Hg0. unfold reported, reims_vgpu_dirty_gen, reims_vgpu_dirty_written_since.
  rewrite Hs. split; [case_match; simpl; reflect_bools; lia|]. intros max l.
  case_match; [done|]. case_match; [done|]. case_match eqn:E; [|done]. simpl. intros [= <-].
  apply written_scan_spec in E as ->. apply list_elem_of_fmap. exists (p, x). split; [done|].
  apply list_elem_of_filter. split; [done|]. apply list_elem_of_lookup. exists i.
  by rewrite lookup_zip_with, Hp, Hx.
Qed.

Lemma grows_reported d d' t s g p i x :
  grows t d d' → sets d !! t = Some s → g ≠ 0 → 0 ≤ g < gen s → pages s !! i = Some p →
  page_gen s !! i = Some x → g < x → reported d' t g p.
Proof.
  intros [_ Hgr] Hs Hg0 Hg Hp Hx Hgx. rewrite Hs in Hgr.
  destruct (sets d' !! t) as [s'|] eqn:Hs'; [|by apply gone_reported].
  destruct Hgr as (Ep & _ & Hge & Hf).
  destruct (Forall2_lookup_l _ _ _ _ _ Hf Hx) as (x' & Hx' & Hxx).
  eapply (stamped_reported d' t s' g p i x'); [done|lia| |done|lia..]. by rewrite Ep.
Qed.

End runs.

(** A machine with one RAM region of four 4 KiB pages at 0x40000000. *)
Definition demo_flat : list FlatRange := [mkFR 0x40000000 0x4000 (mkMR 7 true 0x10000) 0].
Definition demo_mem : Mem := mkMem demo_flat ∅ ∅ ∅.

(** Track two pages, and read and harvest until the set is armed: the first
    harvest turns logging on, the second arms. *)
Definition demo_arm : list event :=
  [Track [0x40001010; 0x40002000; 0x40001000] 0x1000; ReadGen 1; Harvest; ReadGen 1; Harvest].

Definition demo_armed : ReimsVgpuDirty * Mem := steps 4096 (reims_vgpu_dirty_new, demo_mem) demo_arm.

(** a harvest that is skipped can hide a store made before it.  The call returns
    early when no generation has been read since the last harvest.  On a machine
    where a reader recorded generation 1 and one harvest has run since, a guest
    store to the tracked page followed by a call to harvest, at the handoff of the
    work that will read the page, leaves the generation at 1 and the list of
    written pages empty: the reader takes its old copy for current. *)
Theorem dirty_skipped_harvest_hides_write :
  let dm0 := steps 4096 demo_armed [ReadGen 1; Harvest] in
  let d := (steps 4096 dm0 [GuestWrite 0x40001008; Harvest]).1 in
  (reims_vgpu_dirty_gen demo_armed.1 1).1 = 1 ∧
  (reims_vgpu_dirty_gen d 1).1 = 1 ∧ (reims_vgpu_dirty_written_since d 1 1 8).1 = Some [].
Proof. vm_compute. auto. Qed.

(** ** The clear pass *)
Section clear.
Variable target : Z.
Hypothesis target_pow2 : pow2 target.
Variable slices : list DirtySlice.

Lemma le_written_gpa x y : le_written x y → w_gpa x ≤ w_gpa y.
Proof.
  unfold le_written, reims_vgpu_dirty_cmp_written.
  destruct (Z.eqb_spec (w_gpa x) (w_gpa y)); simpl; [lia|]. destruct (Z.ltb_spec (w_gpa x) (w_gpa y)); lia.
Qed.

#[local] Instance le_written_total : Total le_written.
Proof.
  intros x y. unfold le_written, reims_vgpu_dirty_cmp_written.
  destruct (Z.eqb_spec (w_gpa x) (w_gpa y)), (Z.eqb_spec (w_gpa y) (w_gpa x)); try lia; simpl;
    repeat match goal with |- context [?a <? ?b] => destruct (Z.ltb_spec a b) end; lia.
Qed.
#[local] Instance le_written_trans : Transitive le_written.
Proof.
  intros x y z. unfold le_written, reims_vgpu_dirty_cmp_written.
  destruct (Z.eqb_spec (w_gpa x) (w_gpa y)), (Z.eqb_spec (w_gpa y) (w_gpa z)), (Z.eqb_spec (w_gpa x) (w_gpa z));
    simpl; repeat match goal with |- context [?a <? ?b] => destruct (Z.ltb_spec a b) end; lia.
Qed.

(** What the harvest records: pages that end below 2^64 and lie in RAM; pages that
    overlap are in the same slice. *)
Record written_ok (ws : list DirtyWritten) : Prop := {
  wo_range : ∀ w, w ∈ ws → 0 < w_page_size w ∧ 0 ≤ w_gpa w ∧ w_gpa w + w_page_size w < 2 ^ 64;
  wo_aligned : ∀ w, w ∈ ws → (target | w_gpa w) ∧ (target | w_page_size w);
  wo_slice : ∀ w w', w ∈ ws → w' ∈ ws → w_gpa w ≤ w_gpa w' < w_gpa w + w_page_size w →
    reims_vgpu_dirty_slice_of slices (w_gpa w') = reims_vgpu_dirty_slice_of slices (w_gpa w)
}.

Definition page_covers (si x : Z) (w : DirtyWritten) : Prop :=
  reims_vgpu_dirty_slice_of slices (w_gpa w) = si ∧ w_gpa w ≤ x < w_gpa w + w_page_size w.
Definition run_covers (si x : Z) (r : run) : Prop := run_si r = si ∧ run_gpa r ≤ x < run_end r.

(** [r] is a run whose last page is [w]. *)
Record run_at (r : run) (w : DirtyWritten) : Prop := {
  ra_si : run_si r = reims_vgpu_dirty_slice_of slices (w_gpa w);
  ra_gpa : run_gpa r ≤ w_gpa w;
  ra_end : run_end r = w_gpa w + w_page_size w
}.

Lemma page_end_small ws w : written_ok ws → w ∈ ws → page_end w = w_gpa w + w_page_size w.
Proof.
  intros Hok Hw. unfold page_end. apply u64_small. destruct (wo_range _ Hok _ Hw) as (? & ? & ?).
  unfold is_u64. change 0x10000000000000000 with (2 ^ 64). lia.
Qed.

Lemma clear_runs_cover ws0 r w ws si x :
  written_ok ws0 → w ∈ ws0 → (∀ v, v ∈ ws → v ∈ ws0) → StronglySorted le_written (w :: ws) → run_at r w →
  (∃ r', r' ∈ clear_runs slices r ws ∧ run_covers si x r') ↔
  run_covers si x r ∨ ∃ v, v ∈ ws ∧ page_covers si x v.
Proof.
  intros Hok. revert r w. induction ws as [|next ws IH]; intros r w Hw Hin Hsort Hr; simpl.
  { split; [intros (r' & ->%list_elem_of_singleton & ?); by left|].
    intros [?|(v & []%elem_of_nil & _)]. exists r. by rewrite list_elem_of_singleton. }
  inversion Hsort as [|? ? Hsort' Hle]; subst. inversion Hle as [|? ? Hwn Hle']; subst.
  assert (next ∈ ws0) as Hnext by (apply Hin; left).
  assert (∀ v, v ∈ ws → v ∈ ws0) as Hin' by (intros; apply Hin; by right).
  pose proof (page_end_small _ _ Hok Hnext) as Hpe. apply le_written_gpa in Hwn.
  destruct (wo_range _ Hok _ Hnext) as (Hn1 & Hn2 & Hn3). destruct Hr as [Hsi Hg He].
  setoid_rewrite elem_of_cons.
  destruct (Z.leb_spec (page_end next) (run_end r)).
  - rewrite (IH r w); [|done|done|inversion Hsort'; by constructor|by split].
    pose proof (wo_slice _ Hok _ _ Hw Hnext ltac:(lia)) as Hsl.
    split; [naive_solver|]. intros [?|(v & [->|?] & Hv)]; [by left| |by right; eauto].
    left. destruct Hv as [<- ?]. split; [by rewrite Hsi, Hsl|lia].
  - assert (∀ P : Prop, ((∃ r', r' ∈ clear_runs slices (open_run slices next) ws ∧ run_covers si x r') ↔ P) →
      (∃ r', r' ∈ r :: clear_runs slices (open_run slices next) ws ∧ run_covers si x r') ↔ run_covers si x r ∨ P) as Hnew.
    { setoid_rewrite elem_of_cons. naive_solver. }
    assert ((∃ r', r' ∈ r :: clear_runs slices (open_run slices next) ws ∧ run_covers si x r') ↔
      run_covers si x r ∨ ∃ v, (v = next ∨ v ∈ ws) ∧ page_covers si x v) as Hopen.
    { apply Hnew. rewrite (IH (open_run slices next) next); [|done..|split; simpl; [done|lia..]].
      assert (run_covers si x (open_run slices next) ↔ page_covers si x next) as ->; [|naive_solver].
      unfold run_covers, page_covers. simpl. by rewrite Hpe. }
    destruct (Z.eqb_spec (w_gpa next) (run_end r)) as [Hadj|Hnadj]; cbn [negb orb]; [|exact Hopen].
    destruct (Z.eqb_spec (reims_vgpu_dirty_slice_of slices (w_gpa next)) (run_si r)) as [Hsame|Hdiff];
      cbn [negb]; [|exact Hopen].
    rewrite (IH (mkRun (run_gpa r) (run_si r) (page_end next)) next); [|done..|split; simpl; [done|lia..]].
    unfold run_covers, page_covers. simpl. split.
    + intros [[Hs Hx]|?]; [|naive_solver]. destruct (Z.lt_ge_cases x (run_end r)); [left; lia|].
      right. exists next. split; [by left|]. split; [by rewrite Hsame|lia].
    + intros [?|(v & [->|?] & Hs & Hx)]; [left; lia|left; split; [congruence|lia]|right; eauto].
Qed.

(** The runs of the clear pass cover exactly the written pages, slice by slice. *)
Lemma written_runs_cover ws si x :
  written_ok ws →
  (∃ r, r ∈ written_runs slices ws ∧ run_covers si x r) ↔ ∃ w, w ∈ ws ∧ page_covers si x w.
Proof.
  intros Hok. unfold written_runs.
  assert (StronglySorted le_written (merge_sort le_written ws)) as Hs
    by (apply StronglySorted_merge_sort; apply _).
  assert (∀ v, v ∈ merge_sort le_written ws ↔ v ∈ ws) as Hperm.
  { intros v. by rewrite merge_sort_Permutation. }
  destruct (merge_sort le_written ws) as [|w l].
  { split; intros (v & Hv & _); [by apply elem_of_nil in Hv|]. by apply Hperm, elem_of_nil in Hv. }
  assert (w ∈ ws) as Hw by (apply Hperm; left).
  rewrite (clear_runs_cover ws (open_run slices w) w l); [|done|done| |done|].
  - unfold run_covers. simpl. rewrite (page_end_small ws) by done. setoid_rewrite <- Hperm.
    setoid_rewrite elem_of_cons. unfold page_covers. naive_solver.
  - intros v Hv. apply Hperm. by right.
  - split; simpl; [done|lia|by rewrite (page_end_small ws)].
Qed.

(** Target pages of an aligned range of ram_addr_t space. *)
Lemma elem_of_ram_pages start len q :
  (target | start) → (target | len) → 0 ≤ len →
  q ∈ ram_pages target start len ↔ start ≤ q * target < start + len.
Proof.
  intros [a ->] [b ->] Hlen. pose proof (pow2_pos _ target_pow2) as Ht.
  unfold ram_pages. rewrite elem_of_list_to_set, elem_of_seqZ, Z.div_mul by lia.
  assert ((a * target + b * target + target - 1) / target = a + b) as ->.
  { symmetry. apply (Z.div_unique _ _ _ (target - 1)); lia. }
  assert (0 ≤ b) by nia. split; intros; nia.
Qed.

(** The ram_addr_t range a run clears. *)
Definition run_clears (q : Z) (r : run) : Prop :=
  ∃ sl, 0 ≤ run_si r ∧ slices !! Z.to_nat (run_si r) = Some sl ∧
    q ∈ ram_pages target (mr_ram_addr (sl_mr sl) + (sl_offset sl + (run_gpa r - sl_gpa sl)))
          (run_end r - run_gpa r).

Lemma clear_run_bitmap m r q : q ∈ bitmap (clear_run target slices m r) ↔ q ∈ bitmap m ∧ ¬ run_clears q r.
Proof.
  unfold clear_run, run_clears. destruct (Z.ltb_spec (run_si r) 0).
  { split; [|naive_solver]. intros. split; [done|]. intros (sl & ? & _). lia. }
  destruct (slices !! _) as [sl|]; [|split; [|naive_solver]; intros; split; [done|naive_solver]].
  simpl. rewrite elem_of_difference. naive_solver.
Qed.

Lemma clear_runs_bitmap m rs q :
  q ∈ bitmap (foldl (clear_run target slices) m rs) ↔ q ∈ bitmap m ∧ ∀ r, r ∈ rs → ¬ run_clears q r.
Proof.
  revert m. induction rs as [|r rs IH]; intros m; simpl.
  { split; [intros; split; [done|]; by intros r ?%elem_of_nil|naive_solver]. }
  rewrite IH, clear_run_bitmap. setoid_rewrite elem_of_cons. naive_solver.
Qed.

Definition run_ok (r : run) : Prop := (target | run_gpa r) ∧ (target | run_end r) ∧ run_gpa r < run_end r.

Lemma clear_runs_ok ws0 r ws :
  written_ok ws0 → (∀ v, v ∈ ws → v ∈ ws0) → run_ok r → Forall run_ok (clear_runs slices r ws).
Proof.
  intros Hok. revert r. induction ws as [|w ws IH]; intros r Hin Hr; simpl; [by constructor|].
  assert (w ∈ ws0) as Hw by (apply Hin; left).
  assert (∀ v, v ∈ ws → v ∈ ws0) as Hin' by (intros; apply Hin; by right).
  destruct (wo_range _ Hok _ Hw) as (? & ? & ?), (wo_aligned _ Hok _ Hw) as [? ?].
  pose proof (page_end_small _ _ Hok Hw) as Hpe.
  assert ((target | page_end w)) by (rewrite Hpe; by apply Z.divide_add_r).
  destruct Hr as (Hr1 & Hr2 & Hr3). repeat case_match; reflect_bools.
  - by apply IH.
  - constructor; [done|]. apply IH; [done|]. split_and!; simpl; [done..|lia].
  - apply IH; [done|]. split_and!; simpl; [done..|lia].
Qed.

Lemma written_runs_ok ws : written_ok ws → Forall run_ok (written_runs slices ws).
Proof.
  intros Hok. unfold written_runs. destruct (merge_sort le_written ws) as [|w l] eqn:E; [constructor|].
  assert (∀ v, v ∈ w :: l → v ∈ ws) as Hin.
  { intros v. rewrite <- E. by rewrite merge_sort_Permutation. }
  assert (w ∈ ws) as Hw by (apply Hin; left).
  destruct (wo_range _ Hok _ Hw) as (? & ? & ?), (wo_aligned _ Hok _ Hw) as [? ?].
  eapply clear_runs_ok; [done|intros; apply Hin; by right|].
  unfold run_ok. simpl. rewrite (page_end_small ws) by done. split_and!; [done|by apply Z.divide_add_r|lia].
Qed.

(** The slices map target pages to target pages. *)
Definition slices_ok : Prop :=
  ∀ sl, sl ∈ slices → sl_ram_addr sl = mr_ram_addr (sl_mr sl) + sl_offset sl ∧ (target | sl_ram_addr sl - sl_gpa sl).

(** A target page lies in the RAM behind a written guest page. *)
Definition page_clears (q : Z) (w : DirtyWritten) : Prop :=
  ∃ sl, slice_at_gpa slices (w_gpa w) = Some sl ∧
    let base := sl_ram_addr sl + (w_gpa w - sl_gpa sl) in base ≤ q * target < base + w_page_size w.

Lemma slice_at_gpa_index gpa sl :
  slice_at_gpa slices gpa = Some sl ↔
  0 ≤ reims_vgpu_dirty_slice_of slices gpa ∧ slices !! Z.to_nat (reims_vgpu_dirty_slice_of slices gpa) = Some sl.
Proof. unfold slice_at_gpa. destruct (Z.ltb_spec (reims_vgpu_dirty_slice_of slices gpa) 0); naive_solver lia. Qed.

Lemma run_clears_covers q r :
  slices_ok → run_ok r →
  run_clears q r ↔ ∃ sl, 0 ≤ run_si r ∧ slices !! Z.to_nat (run_si r) = Some sl ∧
    run_covers (run_si r) (q * target - (sl_ram_addr sl - sl_gpa sl)) r.
Proof.
  intros Hsl (Ha & Hb & Hlt). unfold run_clears, run_covers.
  apply exist_proper. intros sl.
  assert (slices !! Z.to_nat (run_si r) = Some sl →
    q ∈ ram_pages target (mr_ram_addr (sl_mr sl) + (sl_offset sl + (run_gpa r - sl_gpa sl))) (run_end r - run_gpa r) ↔
    run_gpa r ≤ q * target - (sl_ram_addr sl - sl_gpa sl) < run_end r) as Hiff; [|naive_solver].
  intros Hlk. destruct (Hsl sl ltac:(by eapply list_elem_of_lookup_2)) as [Era Hal].
  rewrite elem_of_ram_pages; [lia| |by apply Z.divide_sub_r|lia].
  replace (mr_ram_addr (sl_mr sl) + (sl_offset sl + (run_gpa r - sl_gpa sl)))
    with ((sl_ram_addr sl - sl_gpa sl) + run_gpa r) by lia.
  by apply Z.divide_add_r.
Qed.

Lemma clear_exact m ws q :
  slices_ok → written_ok ws →
  q ∈ bitmap (harvest_clear target slices m ws) ↔ q ∈ bitmap m ∧ ∀ w, w ∈ ws → ¬ page_clears q w.
Proof.
  intros Hsl Hok. unfold harvest_clear. rewrite clear_runs_bitmap.
  assert ((∃ r, r ∈ written_runs slices ws ∧ run_clears q r) ↔ ∃ w, w ∈ ws ∧ page_clears q w) as Hiff; [|naive_solver].
  pose proof (written_runs_ok ws Hok) as Hrok. rewrite Forall_forall in Hrok. split.
  - intros (r & Hr & Hc). apply run_clears_covers in Hc as (sl & H0 & Hlk & Hc); [|done|by apply Hrok].
    assert (∃ w, w ∈ ws ∧ page_covers (run_si r) (q * target - (sl_ram_addr sl - sl_gpa sl)) w)
      as (w & Hw & Hsi & Hx) by (apply (written_runs_cover ws _ _ Hok); eauto).
    exists w. split; [done|]. exists sl. split; [|simpl; lia]. apply slice_at_gpa_index. by rewrite Hsi.
  - intros (w & Hw & sl & Hs & Hq). apply slice_at_gpa_index in Hs as [H0 Hlk].
    assert (∃ r, r ∈ written_runs slices ws ∧ run_covers (reims_vgpu_dirty_slice_of slices (w_gpa w))
      (q * target - (sl_ram_addr sl - sl_gpa sl)) r) as (r & Hr & Hsi & Hx).
    { apply (written_runs_cover ws _ _ Hok). exists w. split; [done|]. split; [done|simpl in Hq; lia]. }
    exists r. split; [done|]. apply run_clears_covers; [done|by apply Hrok|].
    exists sl. rewrite Hsi. split; [done|]. split; [done|]. by split.
Qed.

End clear.

(** RAM ranges of the flat view map target pages to target pages. *)
Definition flat_aligned (target : Z) (fv : list FlatRange) : Prop :=
  ∀ fr, fr ∈ fv → (target | mr_ram_addr (fr_mr fr) + fr_offset fr - fr_start fr).

Lemma ram_slices_ok target d m :
  flat_aligned target (flat m) → slices_ok target (reims_vgpu_dirty_ram_slices d m).
Proof.
  intros Hal sl Hsl. apply list_elem_of_omap in Hsl as (fr & Hfr & E).
  unfold reims_vgpu_dirty_ram_range in E. case_match; simplify_eq/=. split; [done|]. by apply Hal.
Qed.

(** C32: the clear pass consumes exactly the reports that were read.  Whatever order
    and multiplicity the written pages of all sets come in, and whatever page sizes
    they have, sorting them, merging adjacent ones and clearing run by run takes out
    of the bitmap the target pages behind written guest pages and no others. *)
Theorem dirty_clear_exact target d m m1 ws q :
  let slices := reims_vgpu_dirty_ram_slices d m in
  pow2 target → flat_aligned target (flat m) → written_ok target slices ws →
  q ∈ bitmap (harvest_clear target slices m1 ws) ↔
  q ∈ bitmap m1 ∧ ∀ w, w ∈ ws → ¬ page_clears target slices q w.
Proof. intros slices Ht Hal Hok. apply clear_exact; [done|by apply ram_slices_ok|done]. Qed.

(** Two sets share pages: a 16 KiB page, a 4 KiB page inside it twice, and the
    adjacent page; the bits of all five target pages go, the sixth stays. *)
Definition demo_flat6 : list FlatRange := [mkFR 0x40000000 0x8000 (mkMR 7 true 0x10000) 0].
Definition demo_written : list DirtyWritten :=
  [mkWritten 0x40004000 0x1000; mkWritten 0x40001000 0x1000; mkWritten 0x40000000 0x4000; mkWritten 0x40001000 0x1000].

Lemma dirty_clear_exact_witness :
  let m := mkMem demo_flat6 ∅ {[0x10; 0x12; 0x14; 0x15]} ∅ in
  let slices := reims_vgpu_dirty_ram_slices reims_vgpu_dirty_new m in
  bitmap (harvest_clear 4096 slices m demo_written) = {[0x15]} ∧
  (0x15 ∈ bitmap (harvest_clear 4096 slices m demo_written) ↔
   0x15 ∈ bitmap m ∧ ∀ w, w ∈ demo_written → ¬ page_clears 4096 slices 0x15 w).
Proof.
  intros m slices. split; [vm_compute; reflexivity|]. apply dirty_clear_exact.
  - by exists 12.
  - intros fr [->|Hf]%elem_of_cons; [exists (-0x3fff0); reflexivity|by apply elem_of_nil in Hf].
  - assert (∀ w, w ∈ demo_written → 0 < w_page_size w ∧ 0x40000000 ≤ w_gpa w ∧
      w_gpa w + w_page_size w ≤ 0x40008000 ∧ (4096 | w_gpa w) ∧ (4096 | w_page_size w)) as Hw.
    { apply Forall_forall. unfold demo_written.
      repeat (apply Forall_cons; split; [split_and!; simpl; first [lia | by apply Z.mod_divide]|]). constructor. }
    split.
    + intros w ?. destruct (Hw w) as (? & ? & ? & _); [done|]. change (2 ^ 64) with 0x10000000000000000. lia.
    + intros w ?. by destruct (Hw w) as (_ & _ & _ & ?).
    + intros w w' ? ? _.
      assert (∀ g, 0x40000000 ≤ g < 0x40008000 → reims_vgpu_dirty_slice_of slices g = 0) as Hz.
      { intros g Hg. unfold reims_vgpu_dirty_slice_of. simpl. unfold in_slice. simpl.
        destruct (Z.leb_spec 0x40000000 g), (Z.ltb_spec (g - 0x40000000) 0x8000); simpl; done || lia. }
      destruct (Hw w) as (? & ? & ? & _), (Hw w') as (? & ? & ? & _); [done..|]. rewrite !Hz by lia. reflexivity.
Defined.

(** ** Arming *)
Section arming.
Variable target : Z.
Hypothesis target_pow2 : pow2 target.

Lemma covered_verdicts d m m' s :
  Forall (covered (flat m) (logged d)) (pages s) →
  existsb is_unlogged (harvest_verdicts target (reims_vgpu_dirty_ram_slices d m) m' s) = false.
Proof.
  intros Hc. destruct (existsb _ _) eqn:E; [|done]. apply existsb_exists in E as (v & Hv & Hu).
  apply list_elem_of_In in Hv. unfold harvest_verdicts in Hv. apply list_elem_of_fmap in Hv as (p & -> & Hp).
  pose proof (harvest_page_state target d m m' (page_size s) p) as Hst. simpl in Hst. rewrite Hu in Hst.
  rewrite Forall_forall in Hc. specialize (Hc _ Hp). unfold covered in Hc. unfold page_state in Hst.
  destruct (resolve (flat m) p) as [[id ra]|]; [|done]. by rewrite bool_decide_true in Hst.
Qed.

(** One read of the token and one harvest, for a set that waits for this harvest. *)
Lemma read_harvest d m t s :
  dirty_inv target (flat m) d m → sets d !! t = Some s →
  let dm := steps target (d, m) [ReadGen t; Harvest] in
  sets dm.1 !! t = Some (harvest_set target (reims_vgpu_dirty_ram_slices d m) (dirty_log_sync m) (harvests d + 1) s) ∧
  harvests dm.1 = harvests d + 1 ∧ flat dm.2 = flat m ∧ Forall (covered (flat m) (logged dm.1)) (pages s).
Proof.
  intros Hi Hs. pose proof Hi as [].
  assert ((t =? 0) = false) as Ht0 by (apply Z.eqb_neq; specialize (di_tokens0 _ _ Hs); lia).
  set (d1 := d <| reads_since_harvest := reads_since_harvest d + 1 |>).
  assert (steps target (d, m) [ReadGen t; Harvest] = reims_vgpu_dirty_harvest target d1 m) as ->.
  { unfold steps. cbn [foldl step]. unfold reims_vgpu_dirty_gen. by rewrite Ht0. }
  assert (harvest_skips d1 = false) as Hsk.
  { unfold harvest_skips. rewrite bool_decide_false by (simpl; intros E; by rewrite E in Hs).
    apply Z.eqb_neq. simpl. lia. }
  assert (logged d1 ⊆ vga_log m) as Hl by done.
  destruct (harvest_effective target d1 m Hsk Hl) as (Hsets & Hh & _ & _ & Hf & _).
  split_and!; [|exact Hh|exact Hf|].
  - rewrite Hsets, lookup_fmap. change (sets d1) with (sets d). by rewrite Hs.
  - apply Forall_forall. intros p Hp. unfold covered. destruct (resolve (flat m) p) as [[id ra]|] eqn:Hr; [|done].
    by eapply (harvest_enables target d1 m t s p).
Qed.

End arming.

(** the startup window is one harvest, or two.  After a set is registered, the
    first harvest that follows a read of its token makes its generation 1 exactly
    when every page already lies in a logged region (or in no RAM); otherwise that
    harvest turns logging on, the generation still reads 0, and the second one
    makes it readable. *)
Theorem dirty_arming target m0 evs gpas psize :
  pow2 target → Forall event_ok evs → pow2 psize → target ≤ psize → gpas ≠ [] →
  let '(d, m) := steps target (reims_vgpu_dirty_new, m0) evs in
  let '(t, d1) := reims_vgpu_dirty_track target d gpas psize in
  let dm2 := steps target (d1, m) [ReadGen t; Harvest] in
  let dm3 := steps target dm2 [ReadGen t; Harvest] in
  let ready := ∀ g, g ∈ gpas → covered (flat m0) (logged d) (page_base psize g) in
  (ready → (reims_vgpu_dirty_gen dm2.1 t).1 = 1) ∧
  (¬ ready → (reims_vgpu_dirty_gen dm2.1 t).1 = 0 ∧ (reims_vgpu_dirty_gen dm3.1 t).1 = 1).
Proof.
  intros Ht Hok Hp Htp Hne. pose proof (steps_inv target Ht (flat m0) _ _ evs (new_inv _ _ m0 eq_refl) Hok) as Hi.
  destruct (steps target (reims_vgpu_dirty_new, m0) evs) as [d m]. simpl in Hi.
  pose proof (step_inv target Ht (flat m0) d m (Track gpas psize) Hi ltac:(simpl; apply pow2_pos in Hp; lia)) as Hi1.
  simpl in Hi1. destruct (track_success target d gpas psize Hp Htp Hne) as (ps & E & _ & Hps).
  rewrite E in *. cbn [snd] in Hi1. set (s := mkSet _ _ _ _ _) in *. set (t := next_token d + 1) in *.
  set (d1 := d <| next_token := t |> <| sets := _ |>) in *. pose proof (di_flat _ _ _ _ Hi1) as Hfv. rewrite <- Hfv in *.
  assert (sets d1 !! t = Some s) as Hs by apply lookup_insert_eq.
  assert ((t =? 0) = false) as Ht0 by (apply Z.eqb_neq; pose proof (di_token _ _ _ _ Hi); lia).
  intros dm2 dm3 ready.
  destruct (read_harvest target d1 m t s Hi1 Hs) as (Hs2 & Hh2 & Hf2 & Hc2). fold dm2 in Hs2, Hh2, Hf2, Hc2.
  assert (ready ↔ Forall (covered (flat m) (logged d1)) (pages s)) as Hready.
  { rewrite Forall_forall. simpl. setoid_rewrite Hps. unfold ready. clear.
    split; [intros Hr x (g & ? & ->); by apply Hr|intros Hr g ?; apply Hr; eauto]. }
  pose proof (harvest_set_unarmed target (reims_vgpu_dirty_ram_slices d1 m) (dirty_log_sync m) (harvests d1 + 1) s eq_refl)
    as (Ep2 & _ & Hr2).
  change (arm_at s) with (harvests d1 + 1) in Hr2. rewrite Z.ltb_irrefl, orb_false_r in Hr2.
  assert (∀ d', (reims_vgpu_dirty_gen d' t).1 = match sets d' !! t with Some s => gen s | None => 0 end) as Hgen.
  { intros d'. unfold reims_vgpu_dirty_gen. by rewrite Ht0. }
  rewrite !Hgen, Hs2. split.
  - intros Hrd. rewrite covered_verdicts in Hr2 by (by apply Hready). by destruct Hr2.
  - intros Hnr. destruct (existsb is_unlogged _) eqn:Hex; [|exfalso].
    2: { apply Hnr, Hready. exact (verdicts_covered target (flat m) d1 m _ s eq_refl Hex). }
    destruct Hr2 as (Hg2 & _ & Ha2). split; [done|].
    assert (dirty_inv target (flat m) dm2.1 dm2.2) as Hi2.
    { apply (steps_inv target Ht (flat m) d1 m); [done|]. by repeat constructor. }
    rewrite <- Hf2 in Hi2. destruct (read_harvest target dm2.1 dm2.2 t _ Hi2 Hs2) as (Hs3 & _).
    rewrite <- surjective_pairing in Hs3. fold dm3 in Hs3. rewrite Hs3.
    pose proof (harvest_set_unarmed target (reims_vgpu_dirty_ram_slices dm2.1 dm2.2) (dirty_log_sync dm2.2)
      (harvests dm2.1 + 1) _ Hg2) as (_ & _ & Hr3).
    rewrite covered_verdicts, Ha2, Hh2, Z.ltb_irrefl in Hr3 by (rewrite Ep2, Hf2; exact Hc2).
    rewrite Hh2. cbn [orb] in Hr3. by destruct Hr3.
Qed.

Lemma dirty_arming_witness :
  let '(d, m) := steps 4096 (reims_vgpu_dirty_new, demo_mem) [] in
  let '(t, d1) := reims_vgpu_dirty_track 4096 d [0x40001000] 0x1000 in
  let dm2 := steps 4096 (d1, m) [ReadGen t; Harvest] in
  let dm3 := steps 4096 dm2 [ReadGen t; Harvest] in
  (reims_vgpu_dirty_gen dm2.1 t).1 = 0 ∧ (reims_vgpu_dirty_gen dm3.1 t).1 = 1.
Proof.
  apply (dirty_arming 4096 demo_mem [] [0x40001000] 0x1000); [by exists 12|constructor|by exists 12|lia|done|].
  intros Hr. specialize (Hr 0x40001000 ltac:(left)). vm_compute in Hr. exact (match Hr with end).
Defined.

(** registering a set.  A non-empty list with a power-of-two page size of at
    least a target page gets a token that was never used before; the set holds the
    page bases of the addresses, in increasing order and each once, and reads as
    unknown.  Any other request is refused with token 0 and changes nothing. *)
Theorem dirty_track_pages target m evs gpas psize :
  pow2 target → Forall event_ok evs → 0 ≤ psize →
  let d := (steps target (reims_vgpu_dirty_new, m) evs).1 in
  let '(t, d') := reims_vgpu_dirty_track target d gpas psize in
  (pow2 psize ∧ target ≤ psize ∧ gpas ≠ [] →
   t ≠ 0 ∧ sets d !! t = None ∧ (reims_vgpu_dirty_gen d' t).1 = 0 ∧
   ∃ s, sets d' = <[t := s]> (sets d) ∧ StronglySorted Z.lt (pages s) ∧
     ∀ p, p ∈ pages s ↔ ∃ g, g ∈ gpas ∧ p = psize * (g / psize)) ∧
  (¬ (pow2 psize ∧ target ≤ psize ∧ gpas ≠ []) → t = 0 ∧ d' = d).
Proof.
  intros Ht Hok Hps d. pose proof (steps_inv target Ht (flat m) _ _ evs (new_inv _ _ m eq_refl) Hok) as Hi. fold d in Hi.
  destruct (reims_vgpu_dirty_track target d gpas psize) as [t d'] eqn:E. split.
  - intros (Hp & Htp & Hne). destruct (track_success target d gpas psize Hp Htp Hne) as (ps & E' & Hso & Hel).
    rewrite E in E'. simplify_eq/=. pose proof (di_token _ _ _ _ Hi). split_and!; [lia| |..].
    + destruct (sets d !! (next_token d + 1)) as [s|] eqn:Hs; [|done]. apply (di_tokens _ _ _ _ Hi) in Hs. lia.
    + unfold reims_vgpu_dirty_gen. simpl. rewrite lookup_insert_eq. by case_match.
    + eexists. split_and!; [done|exact Hso|exact Hel].
  - intros Hn. destruct (track_cases target d gpas psize Hps) as [E'|]; [|done]. rewrite E in E'. by simplify_eq.
Qed.

Lemma dirty_track_pages_witness :
  let d := (steps 4096 (reims_vgpu_dirty_new, demo_mem) demo_arm).1 in
  let '(t, d') := reims_vgpu_dirty_track 4096 d [0x5fff; 0x2004; 0x5000] 0x1000 in
  pages <$> sets d' !! t = Some [0x2000; 0x5000] ∧
  t ≠ 0 ∧ sets d !! t = None ∧ (reims_vgpu_dirty_gen d' t).1 = 0 ∧
  ∃ s, sets d' = <[t := s]> (sets d) ∧ StronglySorted Z.lt (pages s) ∧
    ∀ p, p ∈ pages s ↔ ∃ g, g ∈ [0x5fff; 0x2004; 0x5000] ∧ p = 0x1000 * (g / 0x1000).
Proof.
  intros d. pose proof (dirty_track_pages 4096 demo_mem demo_arm [0x5fff; 0x2004; 0x5000] 0x1000
    ltac:(by exists 12) ltac:(repeat constructor; simpl; lia) ltac:(lia)) as Hp. cbv zeta in Hp. fold d in Hp.
  assert (pages <$> sets (reims_vgpu_dirty_track 4096 d [0x5fff; 0x2004; 0x5000] 0x1000).2
    !! (reims_vgpu_dirty_track 4096 d [0x5fff; 0x2004; 0x5000] 0x1000).1 = Some [0x2000; 0x5000]) as He
    by (vm_compute; reflexivity).
  destruct (reims_vgpu_dirty_track 4096 d [0x5fff; 0x2004; 0x5000] 0x1000) as [t d'].
  split; [exact He|]. apply Hp. split; [by exists 12|]. split; [lia|done].
Defined.

Lemma written_scan_total since found max l :
  found ≤ max →
  let out := (λ pg : Z * Z, pg.1) <$> filter (λ pg, since < pg.2) l in
  written_scan since found max l = if found + Z.of_nat (length out) <=? max then Some out else None.
Proof.
  revert found. induction l as [|[p g] l IH]; intros found Hf; simpl.
  { destruct (Z.leb_spec (found + Z.of_nat 0) max); [done|lia]. }
  destruct (Z.leb_spec g since).
  - rewrite filter_cons_False by (simpl; lia). by apply IH.
  - rewrite filter_cons_True by done. cbn [fmap list_fmap length]. destruct (Z.eqb_spec found max).
    + match goal with |- None = if ?b then _ else _ => destruct b eqn:E end; [reflect_bools; lia|done].
    + rewrite IH by lia. simpl.
      repeat match goal with |- context [?a <=? ?b] => destruct (Z.leb_spec a b) end; simpl; done || lia.
Qed.

(** the per-page answer.  For a readable set and a recorded generation, the
    pages returned are exactly those stamped later than it, in the set's order,
    when they fit in the caller's array; when one more page would not fit, the
    answer is "cannot tell" rather than a truncated list. *)
Theorem dirty_written_since_exact d t s since max :
  sets d !! t = Some s → t ≠ 0 → gen s ≠ 0 → since ≠ 0 → 0 ≤ max →
  let out := (λ pg : Z * Z, pg.1) <$> filter (λ pg, since < pg.2) (zip (pages s) (page_gen s)) in
  (reims_vgpu_dirty_written_since d t since max).1 =
    if Z.of_nat (length out) <=? max then Some out else None.
Proof.
  intros Hs Ht Hg Hsi Hm out. unfold reims_vgpu_dirty_written_since. rewrite Hs.
  destruct (Z.eqb_spec t 0), (Z.eqb_spec (gen s) 0), (Z.eqb_spec since 0); try done. cbn [orb].
  rewrite written_scan_total by done. fold out. rewrite Z.add_0_l. by case_match.
Qed.

Lemma dirty_written_since_exact_witness :
  let d := (steps 4096 demo_armed [ReadGen 1; GuestWrite 0x40002abc; Harvest]).1 in
  (reims_vgpu_dirty_written_since d 1 1 1).1 = Some [0x40002000] ∧
  (reims_vgpu_dirty_written_since d 1 1 0).1 = None.
Proof.
  intros d. assert (sets d !! 1 = Some (mkSet [0x40001000; 0x40002000] [0; 2] 0x1000 2 2)) as Hs
    by (vm_compute; reflexivity).
  split.
  - rewrite (dirty_written_since_exact d 1 _ 1 1 Hs); [reflexivity|simpl; lia..].
  - rewrite (dirty_written_since_exact d 1 _ 1 0 Hs); [reflexivity|simpl; lia..].
Defined.

(** ** The end of the device's life *)
Section lifetime.
Variables (target : Z) (others : gset Z).

(** Logging is on for what others asked for and for what the tracker enabled. *)
Definition log_split (dm : ReimsVgpuDirty * Mem) : Prop := vga_log dm.2 = others ∪ logged dm.1.

Lemma enable_fold_split sls dm : log_split dm → log_split (foldl enable_log dm sls).
Proof.
  revert dm. induction sls as [|sl sls IH]; intros [d m] Hs; [done|]. cbn [foldl]. apply IH.
  unfold enable_log. case_bool_decide; [done|]. unfold log_split in *. simpl in *. rewrite Hs. set_solver.
Qed.

Lemma step_split dm ev : log_split dm → log_split (step target dm ev).
Proof.
  destruct dm as [d m]. intros Hs. destruct ev as [gpa| |gpas psize|token|token|token since max]; simpl.
  - unfold log_split, guest_write in *. repeat case_match; done.
  - unfold reims_vgpu_dirty_harvest. case_match; [done|]. cbv zeta.
    destruct (harvest_fold target d (reims_vgpu_dirty_ram_slices d m) (dirty_log_sync m)) as [[d1 ws] needs] eqn:E.
    apply enable_fold_split. unfold log_split in *. simpl in *.
    destruct (harvest_clear_frame target (reims_vgpu_dirty_ram_slices d m) (dirty_log_sync m) ws) as [_ ->].
    unfold harvest_fold in E. injection E as <- _ _. exact Hs.
  - unfold log_split, reims_vgpu_dirty_track in *. by repeat case_match.
  - unfold log_split, reims_vgpu_dirty_untrack in *. by repeat case_match.
  - unfold log_split, reims_vgpu_dirty_gen in *. by repeat case_match.
  - unfold log_split, reims_vgpu_dirty_written_since in *. repeat case_match; simplify_eq/=; done.
Qed.

Lemma steps_split dm evs : log_split dm → log_split (steps target dm evs).
Proof.
  unfold steps. revert dm. induction evs as [|ev evs IH]; intros dm Hs; [done|]. cbn [foldl].
  apply IH, step_split, Hs.
Qed.
End lifetime.

(** the tracker cleans up after itself.  Whatever was tracked, written and
    harvested during its life, destroying it leaves dirty logging on for exactly
    the regions that other devices log. *)
Theorem dirty_free_restores target m evs :
  let dm := steps target (reims_vgpu_dirty_new, m) evs in
  vga_log (reims_vgpu_dirty_free (vga_log m) dm.1 dm.2) = vga_log m.
Proof.
  intros dm. assert (log_split (vga_log m) dm) as Hs.
  { apply steps_split. unfold log_split. simpl. set_solver. }
  unfold log_split in Hs. simpl. rewrite Hs.
  apply set_eq. intros x. destruct (decide (x ∈ vga_log m)); set_solver.
Qed.
