(* ===== verification/DirtyPasses.v ===== *)
(** A harvest seen from inside: src/qemu/hw/display/reims-vgpu-dirty.c,
    reims_vgpu_dirty_harvest, one pass at a time.

    The harvest holds its lock only for the early check and for the stamping pass.  Guest CPUs
    store and the device thread registers, releases and reads sets between any two passes, and
    between any two of the calls that the clear pass and the last loop make.  [Tracker] is the
    state with the place the harvest has reached; [harvest_advance] takes it one pass or call further.
    At most one harvest runs: its callers hold QEMU's global lock.  The accelerator's sync, the
    stamping pass under the lock and one clear call are one step each.  The flat view does not
    change, and no other display syncs or clears the log of this RAM. *)
From S2P Require Import Prelude Dirty.

Inductive Phase :=
  | Idle
  | Checked                                                    (* past the early return *)
  | Sliced (slices : list DirtySlice)
  | Synced (slices : list DirtySlice)
  | Clearing (slices : list DirtySlice) (runs : list run) (needs : list Z)
  | Enabling (queue : list DirtySlice).
Record Tracker := mkTracker { tr_dirty : ReimsVgpuDirty; tr_mem : Mem; tr_phase : Phase }.

Inductive pass_event := Advance | Call (ev : event).

Section machine.
Variable target : Z.

Definition needed (slices : list DirtySlice) (needs : list Z) : list DirtySlice :=
  omap (λ '(i, sl), if bool_decide (Z.of_nat i ∈ needs) then Some sl else None) (imap (λ i sl, (i, sl)) slices).
Definition harvest_advance (c : Tracker) : Tracker :=
  let '(mkTracker d m phase) := c in
  match phase with
  | Idle => mkTracker d m (if harvest_skips d then Idle else Checked)
  | Checked => mkTracker d m (Sliced (reims_vgpu_dirty_ram_slices d m))
  | Sliced slices => mkTracker d (dirty_log_sync m) (Synced slices)
  | Synced slices =>
      let '(d, written, needs) := harvest_fold target d slices m in
      mkTracker d m (Clearing slices (written_runs slices written) needs)
  | Clearing slices (r :: runs) needs => mkTracker d (clear_run target slices m r) (Clearing slices runs needs)
  | Clearing slices [] needs => mkTracker d m (Enabling (needed slices needs))
  | Enabling (sl :: queue) => let '(d, m) := enable_log (d, m) sl in mkTracker d m (Enabling queue)
  | Enabling [] => mkTracker d m Idle
  end.
Definition pass_step (c : Tracker) (e : pass_event) : Tracker :=
  match e with
  | Advance => harvest_advance c
  | Call ev => let '(d, m) := step target (tr_dirty c, tr_mem c) ev in mkTracker d m (tr_phase c)
  end.
Definition pass_run (c : Tracker) (es : list pass_event) : Tracker := foldl pass_step c es.

(** Calls of other threads; the harvest itself goes by [Advance]. *)
Definition pass_ok (e : pass_event) : Prop := match e with Advance => True | Call ev => event_ok ev ∧ ev ≠ Harvest end.

(** The passes at which the accelerator's log is fetched and the stamps are written. *)
Definition syncing (c : Tracker) : bool := match tr_phase c with Sliced _ => true | _ => false end.
Definition stamping (c : Tracker) : bool := match tr_phase c with Synced _ => true | _ => false end.
(** Whether the running harvest has reported the target page holding [gpa] and has yet to clear it. *)
Definition due (c : Tracker) (q : Z) : bool :=
  match tr_phase c with
  | Clearing slices runs _ => bool_decide (q ∈ bitmap (tr_mem c)) &&
      negb (bool_decide (q ∈ bitmap (foldl (clear_run target slices) (tr_mem c) runs)))
  | _ => false
  end.
Definition clear_due (c : Tracker) (gpa : Z) : bool :=
  match resolve (flat (tr_mem c)) gpa with Some (_, ra) => due c (ra / target) | None => false end.

(** *** Left alone, the passes are the harvest *)
Lemma pass_run_app c es es' : pass_run c (es ++ es') = pass_run (pass_run c es) es'.
Proof. apply foldl_app. Qed.
Lemma clears_run slices runs needs d m : pass_run (mkTracker d m (Clearing slices runs needs)) (replicate (length runs) Advance) =
  mkTracker d (foldl (clear_run target slices) m runs) (Clearing slices [] needs).
Proof. revert m. induction runs as [|r runs IH]; intros m; [done|]. apply IH. Qed.
Lemma enables_run queue d m : pass_run (mkTracker d m (Enabling queue)) (replicate (length queue) Advance) =
  let '(d, m) := foldl enable_log (d, m) queue in mkTracker d m (Enabling []).
Proof.
  revert d m. induction queue as [|sl queue IH]; intros d m; [done|]. unfold pass_run in *. cbn [length replicate foldl pass_step harvest_advance].
  destruct (enable_log (d, m) sl) as [d1 m1]. apply IH.
Qed.
Lemma passes_compose d m : harvest_skips d = false → ∃ n,
  pass_run (mkTracker d m Idle) (replicate n Advance) =
  let '(d', m') := reims_vgpu_dirty_harvest target d m in mkTracker d' m' Idle.
Proof.
  intros Hsk. unfold reims_vgpu_dirty_harvest. rewrite Hsk. cbv zeta. set (slices := reims_vgpu_dirty_ram_slices d m).
  destruct (harvest_fold target d slices (dirty_log_sync m)) as [[d1 ws] needs] eqn:Ef. unfold harvest_enable, harvest_clear.
  exists (4 + (length (written_runs slices ws) + (1 + (length (needed slices needs) + 1))))%nat.
  rewrite (replicate_add 4), pass_run_app. cbn [replicate]. unfold pass_run at 2. cbn [foldl pass_step]. cbn [harvest_advance]. rewrite Hsk.
  cbn [harvest_advance]. fold slices. rewrite Ef. rewrite replicate_add, pass_run_app, clears_run.
  rewrite (replicate_add 1), pass_run_app. cbn [replicate]. unfold pass_run at 2. cbn [foldl pass_step harvest_advance].
  rewrite replicate_add, pass_run_app, enables_run. unfold needed. by destruct (foldl enable_log _ _) as [d2 m2].
Qed.
End machine.

(** ** Invariant *)
Section invariant.
#[local] Arguments step : simpl never.
Variable target : Z.
Hypothesis target_pow2 : pow2 target.
Variable fv : list FlatRange.

Record tracker_inv (c : Tracker) : Prop := {
  ti_dirty : dirty_inv target fv (tr_dirty c) (tr_mem c);
  ti_slices : match tr_phase c with
    | Sliced slices | Synced slices => slices = reims_vgpu_dirty_ram_slices (tr_dirty c) (tr_mem c)
    | _ => True
    end
}.

Lemma fold_fields d slices m :
  let d' := (harvest_fold target d slices m).1.1 in
  sets d' = harvest_set target slices m (harvests d + 1) <$> sets d ∧ harvests d' = harvests d + 1 ∧
  next_token d' = next_token d ∧ logged d' = logged d ∧ reads_since_harvest d' = 0.
Proof. by unfold harvest_fold. Qed.

Lemma stamp_inv d m : dirty_inv target fv d m →
  dirty_inv target fv (harvest_fold target d (reims_vgpu_dirty_ram_slices d m) m).1.1 m.
Proof.
  intros []. destruct (fold_fields d (reims_vgpu_dirty_ram_slices d m) m) as (Hs & Hh & Hn & Hl & Hr).
  constructor; rewrite ?Hn, ?Hh, ?Hr, ?Hl; try done.
  - intros t s. rewrite Hs, lookup_fmap. intros (s0 & Hs0 & _)%fmap_Some. by eapply di_tokens.
  - intros t s. rewrite Hs, lookup_fmap. intros (s0 & Hs0 & ->)%fmap_Some. eapply harvest_set_inv; [done|by eapply di_sets].
Qed.
Lemma sync_slices d m : reims_vgpu_dirty_ram_slices d (dirty_log_sync m) = reims_vgpu_dirty_ram_slices d m.
Proof. done. Qed.

Lemma advance_inv c : tracker_inv c → tracker_inv (harvest_advance target c).
Proof.
  destruct c as [d m ph]. intros [Hd Hsl]. destruct ph as [| |sl|sl|sl [|r runs] needs|[|s0 queue]]; simpl in *.
  - split; simpl; [done|]. by destruct (harvest_skips d).
  - by split.
  - split; simpl; [|done]. by destruct Hd; constructor.
  - subst sl. pose proof (stamp_inv d m Hd) as H. by split.
  - by split.
  - split; simpl; [|done]. destruct (clear_run_frame target sl m r) as [Hf Hv]. destruct Hd; constructor; rewrite ?Hf, ?Hv; done.
  - by split.
  - destruct Hd. destruct (enable_fold_spec [s0] d m di_logged) as (Hs & Hh & Hn & Hr & Hf & _ & _ & Hl & Hv & _).
    simpl in *. case_bool_decide; split; simpl in *; try done; constructor; simpl in *; try done.
    intros t s Ht. eapply set_inv_mono; [by eapply di_sets|set_solver|done].
Qed.
Lemma call_slices d m ev : event_ok ev → ev ≠ Harvest →
  logged (step target (d, m) ev).1 = logged d ∧ flat (step target (d, m) ev).2 = flat m ∧
  bitmap (step target (d, m) ev).2 = bitmap m ∧ hv_log m ⊆ hv_log (step target (d, m) ev).2.
Proof.
  intros Hok Hnh. destruct ev as [gpa| |gpas psize|token|token|token since max]; unfold step; simpl in *; try done.
  - unfold guest_write. repeat case_match; simpl; set_solver.
  - destruct (track_cases target d gpas psize Hok) as [->|(Hp & Htp & Hne)]; [done|].
    by destruct (track_success target d gpas psize Hp Htp Hne) as (ps & -> & _).
  - unfold reims_vgpu_dirty_untrack. by case_match.
  - unfold reims_vgpu_dirty_gen. by case_match.
  - unfold reims_vgpu_dirty_written_since. by repeat case_match.
Qed.

Lemma pass_step_inv c e : tracker_inv c → pass_ok e → tracker_inv (pass_step target c e).
Proof.
  intros Hc. destruct e as [|ev]; [intros _; by apply advance_inv|]. intros [Hok Hnh]. destruct Hc as [Hd Hsl].
  pose proof (step_inv target target_pow2 fv _ _ ev Hd Hok) as Hd'. pose proof (call_slices (tr_dirty c) (tr_mem c) ev Hok Hnh) as (Hl & Hf & _).
  simpl. destruct (step target _ ev) as [d' m']. split; simpl in *; [done|].
  assert (reims_vgpu_dirty_ram_slices d' m' = reims_vgpu_dirty_ram_slices (tr_dirty c) (tr_mem c)) as ->; [|done].
  unfold reims_vgpu_dirty_ram_slices, reims_vgpu_dirty_ram_range. by rewrite Hl, Hf.
Qed.
Lemma pass_run_inv c es : tracker_inv c → Forall pass_ok es → tracker_inv (pass_run target c es).
Proof. intros Hc Hok. revert c Hc. induction Hok; intros c Hc; [done|]. by apply IHHok, pass_step_inv. Qed.

(** *** Sets only grow *)
Lemma advance_grows c t : tracker_inv c → grows t (tr_dirty c) (tr_dirty (harvest_advance target c)).
Proof.
  destruct c as [d m ph]. intros [Hd Hsl]. destruct ph as [| |sl|sl|sl [|r runs] needs|[|s0 queue]]; simpl in *; try apply grows_refl.
  - subst sl. split; simpl; [lia|]. rewrite lookup_fmap.
    destruct (sets d !! t) as [s|] eqn:E; [|done]. destruct Hd. eapply harvest_set_grows; [done|by eapply di_sets].
  - case_bool_decide; simpl; [apply grows_refl|]. split; simpl; [lia|]. destruct (grows_refl t d) as [_ H']. exact H'.
Qed.
Lemma pass_step_grows c e t :
  tracker_inv c → pass_ok e → t ≤ next_token (tr_dirty c) → grows t (tr_dirty c) (tr_dirty (pass_step target c e)).
Proof.
  intros Hc. destruct e as [|ev]; [intros _ _; by apply advance_grows|]. intros [Hok _] Ht. destruct Hc as [Hd _].
  pose proof (step_grows target fv _ _ ev t Hd Hok Ht) as Hg. simpl. by destruct (step target _ ev).
Qed.
Lemma pass_run_grows c es t :
  tracker_inv c → Forall pass_ok es → t ≤ next_token (tr_dirty c) → grows t (tr_dirty c) (tr_dirty (pass_run target c es)).
Proof.
  intros Hc Hok. revert c Hc. induction Hok as [|e es He Hes IH]; intros c Hc Ht; [apply grows_refl|].
  pose proof (pass_step_grows c e t Hc He Ht) as Hg. eapply grows_trans; [exact Hg|]. apply (IH (pass_step target c e)).
  - by apply pass_step_inv.
  - destruct Hg as [? _]. lia.
Qed.

(** *** A store on its way to a report *)
Section store.
Variables (t g p o : Z).
Hypothesis g_pos : 0 < g.

Definition told (d : ReimsVgpuDirty) : Prop :=
  sets d !! t = None ∨
  ∃ s i x, sets d !! t = Some s ∧ g < gen s ∧ pages s !! i = Some p ∧ page_gen s !! i = Some x ∧ g < x.
(** The set is as the reader knew it, or newer. *)
Definition known (d : ReimsVgpuDirty) : Prop :=
  sets d !! t = None ∨
  ∃ s, sets d !! t = Some s ∧ g ≤ gen s ∧ p ∈ pages s ∧ whole_page target fv (page_size s) p ∧ 0 ≤ o < page_size s.
(** Unreported, the store is in the log and no clear is about to drop it. *)
Definition in_log (c : Tracker) : Prop :=
  match resolve fv p with
  | Some (_, ra) => (ra + o) / target ∈ pending (tr_mem c) ∧ due target c ((ra + o) / target) = false
  | None => True
  end.
(** The stamping pass would see the store; past a sync, it does. *)
Definition seen (m : Mem) : Prop :=
  match resolve fv p with Some (_, ra) => (ra + o) / target ∈ bitmap m | None => True end.
#[local] Instance seen_dec m : Decision (seen m).
Proof. unfold seen. destruct (resolve fv p) as [[]|]; apply _. Defined.
Definition in_bitmap (c : Tracker) : Prop := stamping c = true → seen (tr_mem c).

Lemma told_reported d : told d → reported d t g p.
Proof.
  intros [Hn|(s & i & x & Hs & Hg & Hp & Hx & Hgx)]; [apply gone_reported; [done|lia]|]. by eapply stamped_reported.
Qed.
Lemma told_grows d d' : told d → grows t d d' → told d'.
Proof.
  intros Ht [_ Hg]. destruct (sets d' !! t) as [s'|] eqn:Hs'; [|by left]. right.
  destruct Ht as [Hn|(s & i & x & Hs & Hgs & Hp & Hx & Hgx)]; [by rewrite Hn in Hg|]. rewrite Hs in Hg.
  destruct Hg as (Ep & _ & Hge & Hf). destruct (Forall2_lookup_l _ _ _ _ _ Hf Hx) as (x' & Hx' & Hxx).
  exists s', i, x'. split_and!; [done|lia|by rewrite Ep|done|lia].
Qed.
Lemma known_grows d d' : known d → grows t d d' → known d'.
Proof.
  intros Ht [_ Hg]. destruct (sets d' !! t) as [s'|] eqn:Hs'; [|by left]. right.
  destruct Ht as [Hn|(s & Hs & Hgs & Hp & Hw & Ho)]; [by rewrite Hn in Hg|]. rewrite Hs in Hg.
  destruct Hg as (Ep & Eps & Hge & _). exists s'. rewrite Ep, Eps. split_and!; done || lia.
Qed.

Lemma call_due c ev q : event_ok ev → ev ≠ Harvest → due target (pass_step target c (Call ev)) q = due target c q.
Proof.
  intros Hok Hnh. pose proof (call_slices (tr_dirty c) (tr_mem c) ev Hok Hnh) as (_ & _ & Hb & _).
  unfold due. simpl. destruct (step _ _ ev) as [d' m']. simpl in *. destruct (tr_phase c); try done. rewrite Hb. f_equal. f_equal.
  apply bool_decide_ext. rewrite !clear_runs_bitmap, Hb. done.
Qed.

(** Every pass but the stamping one keeps an unreported store in the log. *)
Lemma advance_in_log c : tracker_inv c → in_log c → (stamping c = true → ¬ seen (tr_mem c)) → in_log (harvest_advance target c).
Proof.
  destruct c as [d m ph]. intros [Hd _]. unfold in_log, seen. destruct (resolve fv p) as [[id ra]|]; [|done]. set (q := (ra + o) / target).
  unfold pending, stamping. intros [Hq Hdue] Hst. destruct ph as [| |sl|sl|sl [|r runs] needs|[|s0 queue]]; simpl in *; try done.
  - by destruct (harvest_skips d).
  - split; [set_solver|done].
  - specialize (Hst eq_refl). split; [done|]. unfold due. simpl. by rewrite bool_decide_false.
  - unfold due in *. simpl in *. destruct (decide (q ∈ bitmap m)) as [Hb|Hb].
    + rewrite bool_decide_true in Hdue by done. simpl in Hdue. rewrite Hdue, andb_false_r. apply negb_false_iff, bool_decide_eq_true in Hdue.
      apply clear_runs_bitmap in Hdue as [Hin _]. split; [|done]. by apply elem_of_union_l.
    + split; [|by rewrite bool_decide_false by (rewrite clear_run_bitmap; naive_solver)].
      apply elem_of_union_r. unfold clear_run. repeat case_match; simpl; set_solver.
  - by case_bool_decide.
Qed.

(** The stamping pass reports a store it finds in the bitmap. *)
Lemma stamp_tells c : tracker_inv c → stamping c = true → known (tr_dirty c) → in_bitmap c → told (tr_dirty (harvest_advance target c)).
Proof.
  destruct c as [d m ph]. unfold in_bitmap, stamping. destruct ph as [| |sl|sl| |]; try done. simpl. intros [Hd Hsl] _ Hk Hb. unfold seen in Hb. simpl in *. subst sl.
  specialize (Hb eq_refl). destruct Hk as [Hn|(s & Hs & Hg & Hp & Hw & Ho)]; [left; simpl; by rewrite lookup_fmap, Hn|].
  right. simpl. rewrite lookup_fmap, Hs. simpl. apply list_elem_of_lookup in Hp as [i Hp].
  destruct Hd. pose proof (di_sets _ _ Hs) as [Hl Hgen Hst Ha Hcov [Hsz1 Hsz2] Hal]. specialize (Hcov ltac:(lia)).
  rewrite Forall_lookup in Hal, Hcov. specialize (Hal _ _ Hp). specialize (Hcov _ _ Hp). unfold covered in Hcov.
  set (sl := reims_vgpu_dirty_ram_slices d m).
  assert (is_hit (harvest_page target sl m (page_size s) p) = true) as Hhit.
  { pose proof (f_equal fst (harvest_page_state target d m m (page_size s) p)) as Hps. simpl in Hps. fold sl in Hps. rewrite Hps, di_flat.
    destruct (resolve fv p) as [[id ra]|] eqn:Hr; [|by unfold page_state; rewrite Hr]. by eapply page_state_dirty. }
  assert (harvest_verdicts target sl m s !! i = Some (harvest_page target sl m (page_size s) p)) as Hv
    by (unfold harvest_verdicts; by rewrite list_lookup_fmap, Hp).
  destruct (harvest_set_armed target sl m (harvests d + 1) s ltac:(lia) Hgen ltac:(specialize (Ha ltac:(lia)); lia)) as (Hg' & Hpp & _ & _ & Hpg).
  assert (existsb is_hit (harvest_verdicts target sl m s) = true) as Hex.
  { apply existsb_exists. eexists; split; [|exact Hhit]. apply list_elem_of_In. by apply list_elem_of_lookup_2 in Hv. }
  rewrite Hex in Hg'. destruct (lookup_lt_is_Some_2 (page_gen s) i) as [old Hold]; [rewrite Hl; by apply lookup_lt_Some in Hp|].
  eexists _, i, _. split_and!; [done|lia|by rewrite Hpp|rewrite Hpg, lookup_zip_with, Hv; simpl; rewrite Hold; simpl; by rewrite Hhit|lia].
Qed.

(** The state of an unreported store, before ([synced = false]) and after the first sync that follows it. *)
Record awaiting (synced : bool) (c : Tracker) : Prop := {
  aw_inv : tracker_inv c;
  aw_token : t ≤ next_token (tr_dirty c);
  aw_known : known (tr_dirty c);
  aw_log : told (tr_dirty c) ∨ in_log c ∧ (synced = true → in_bitmap c)
}.
Lemma call_in_log c ev : event_ok ev → ev ≠ Harvest → in_log c → in_log (pass_step target c (Call ev)).
Proof.
  intros Hok Hnh. unfold in_log. destruct (resolve fv p) as [[id ra]|]; [|done]. rewrite call_due by done. intros [Hq Hdue]. split; [|done].
  pose proof (call_slices (tr_dirty c) (tr_mem c) ev Hok Hnh) as (_ & _ & Hb & Hh). simpl. destruct (step _ _ ev) as [d' m']. unfold pending in *. simpl in *. set_solver.
Qed.
Lemma store_awaiting c : tracker_inv c → t ≤ next_token (tr_dirty c) → known (tr_dirty c) →
  clear_due target (pass_step target c (Call (GuestWrite (p + o)))) (p + o) = false →
  awaiting false (pass_step target c (Call (GuestWrite (p + o)))).
Proof.
  intros Hc Ht Hk Hdue. set (e := Call (GuestWrite (p + o))) in *. assert (pass_ok e) as He by done.
  pose proof (pass_step_inv c e Hc He) as Hc'. split; [done|done|done|]. destruct Hk as [Hn|(s & Hs & Hg & Hp & Hw & Ho)]; [left; by left|].
  right. split; [|done]. unfold in_log, clear_due in *. rewrite (di_flat _ _ _ _ (ti_dirty _ Hc')) in Hdue.
  destruct (write_pending target target_pow2 fv _ _ t s p o (ti_dirty _ Hc) Hs ltac:(lia) Hp Hw Ho) as [Hr|(id & ra & Hr & Hq)]; rewrite Hr; [done|].
  destruct (Hw _ _ Hr) as [_ Hres]. by rewrite Hres in Hdue.
Qed.
Lemma call_in_bitmap c ev : event_ok ev → ev ≠ Harvest → in_bitmap c → in_bitmap (pass_step target c (Call ev)).
Proof.
  intros Hok Hnh. unfold in_bitmap, stamping, seen. pose proof (call_slices (tr_dirty c) (tr_mem c) ev Hok Hnh) as (_ & _ & Hb & _).
  simpl. destruct (step _ _ ev) as [d' m']. simpl in *. by rewrite Hb.
Qed.
Lemma advance_awaiting b c : awaiting b c → awaiting (b || syncing c) (harvest_advance target c).
Proof.
  intros [Hc Ht Hk Hl]. pose proof (advance_grows c t Hc) as Hg.
  split; [by apply advance_inv|destruct Hg as [? _]; lia|by eapply known_grows|].
  destruct Hl as [Hl|[Hl Hb]]; [left; by eapply told_grows|].
  destruct (stamping c) eqn:Est.
  - destruct (decide (seen (tr_mem c))) as [Hin|Hin].
    + left. apply stamp_tells; [done..|]. by intros _.
    + right. split; [by apply advance_in_log|].
      intros _. destruct c as [d m []]; try done.
  - right. split; [by apply advance_in_log; [..|rewrite Est]|]. intros _. unfold in_bitmap.
    destruct c as [d m [| |sl|sl|sl [|] ?|[|]]]; try done; simpl; [by destruct (harvest_skips d)| |by case_bool_decide].
    intros _. unfold in_log, pending in Hl. unfold seen. simpl in Hl |- *. destruct (resolve fv p) as [[]|]; [|done]. destruct Hl as [Hl _]. set_solver.
Qed.
Lemma pass_awaiting b c e : awaiting b c → pass_ok e → awaiting b (pass_step target c e).
Proof.
  intros Hw He. destruct e as [|ev].
  { pose proof (advance_awaiting b c Hw) as [? ? ? Hl]. split; try done. destruct Hl as [|[? Hb]]; [by left|right]. split; [done|].
    intros ->. by apply Hb. }
  destruct Hw as [Hc Ht Hk Hl]. pose proof (pass_step_grows c (Call ev) t Hc He Ht) as Hg. destruct He as [Hok Hnh].
  split; [by apply pass_step_inv|destruct Hg as [? _]; lia|by eapply known_grows|].
  destruct Hl as [Hl|[Hl Hb]]; [left; by eapply told_grows|right]. split; [by apply call_in_log|]. intros Hs. by apply call_in_bitmap, Hb.
Qed.
Lemma run_awaiting b c es : awaiting b c → Forall pass_ok es → awaiting b (pass_run target c es).
Proof. intros Hw Hok. revert c Hw. induction Hok; intros c Hw; [done|]. by apply IHHok, pass_awaiting. Qed.
Lemma awaiting_told c : awaiting true c → stamping c = true → told (tr_dirty (harvest_advance target c)).
Proof.
  intros [Hc Ht Hk Hl] Hst. destruct Hl as [Hl|[Hl Hb]]; [by eapply told_grows, advance_grows|]. by apply stamp_tells, Hb.
Qed.
End store.
End invariant.

(** ** Properties *)

(** C1: a reader is not told that a page the guest wrote is unwritten.  Guest stores and the device
    thread's calls may come anywhere among a harvest's passes.  Take any reachable point where a
    reader has recorded generation [g] (not 0) of a token, and a later guest store into one of the
    set's pages, each of which lies within one RAM range or in none.  The store must not fall into
    one window: the running harvest has already reported the stored-to target page and has yet to
    clear it.  Then once a harvest has synced the log and later written its stamps, both after the
    store and without having returned early, the generation never reads [g] again, and
    written_since [g] answers "cannot tell" or lists the page; forever after, whatever comes. *)
Theorem dirty_write_reported target m es0 es1 es2 es3 es4 t s p o g :
  pow2 target → Forall pass_ok (es0 ++ es1 ++ es2 ++ es3 ++ es4) →
  let c0 := pass_run target (mkTracker reims_vgpu_dirty_new m Idle) es0 in
  sets (tr_dirty c0) !! t = Some s → (reims_vgpu_dirty_gen (tr_dirty c0) t).1 = g → g ≠ 0 →
  p ∈ pages s → whole_page target (flat m) (page_size s) p → 0 ≤ o < page_size s →
  let c1 := pass_step target (pass_run target c0 es1) (Call (GuestWrite (p + o))) in
  clear_due target c1 (p + o) = false →
  let c2 := pass_run target c1 es2 in
  syncing c2 = true →
  let c3 := pass_run target (harvest_advance target c2) es3 in
  stamping c3 = true →
  let d := tr_dirty (pass_run target (harvest_advance target c3) es4) in
  (reims_vgpu_dirty_gen d t).1 ≠ g ∧
  ∀ max l, (reims_vgpu_dirty_written_since d t g max).1 = Some l → p ∈ l.
Proof.
  intros Ht [Hok0 [Hok1 [Hok2 [Hok3 Hok4]%Forall_app]%Forall_app]%Forall_app]%Forall_app c0 Hs Hg Hg0 Hp Hw Ho c1 Hdue c2 Hsy c3 Hst d.
  set (fv := flat m) in *.
  assert (tracker_inv target fv c0) as Hi0 by (apply pass_run_inv; [done| |done]; split; [by apply new_inv|done]).
  pose proof (di_tokens _ _ _ _ (ti_dirty _ _ _ Hi0) _ _ Hs) as Htok.
  assert (gen s = g) as Hgs.
  { unfold reims_vgpu_dirty_gen in Hg. rewrite Hs in Hg. by destruct (Z.eqb_spec t 0); [lia|]. }
  pose proof (si_gen _ _ _ _ _ (di_sets _ _ _ _ (ti_dirty _ _ _ Hi0) _ _ Hs)) as Hpos.
  pose proof (pass_run_inv target Ht fv c0 es1 Hi0 Hok1) as Hi. pose proof (pass_run_grows target Ht fv c0 es1 t Hi0 Hok1 ltac:(lia)) as Hgr.
  set (c := pass_run target c0 es1) in *. assert (0 < g) as Hg1 by lia.
  assert (known target fv t g p o (tr_dirty c)) as Hk
    by (eapply known_grows; [|exact Hgr]; right; exists s; split_and!; done || lia).
  assert (awaiting target fv t g p o false c1) as Haw.
  { apply store_awaiting; try done. destruct Hgr. lia. }
  assert (awaiting target fv t g p o true c3) as Haw3.
  { apply run_awaiting; [done..| |done]. rewrite <- (orb_true_r false), <- Hsy. apply advance_awaiting; [done..|]. by apply run_awaiting. }
  apply (told_reported t g p ltac:(lia)). eapply told_grows; [by eapply awaiting_told|].
  apply pass_run_grows with fv; [done| |done|].
  - by apply advance_inv, (aw_inv _ _ _ _ _ _ _ _ Haw3).
  - destruct (advance_grows target fv c3 t (aw_inv _ _ _ _ _ _ _ _ Haw3)) as [? _]. pose proof (aw_token _ _ _ _ _ _ _ _ Haw3). lia.
Qed.

(** A harvest with nothing to clear or to enable is six advances; each clear or enable adds one. *)
Definition demo_harvest (n : nat) : list pass_event := replicate n Advance.
Definition demo_passes : list pass_event :=
  Call (Track [0x40001010; 0x40002000; 0x40001000] 0x1000) :: Call (ReadGen 1) :: demo_harvest 7 ++ Call (ReadGen 1) :: demo_harvest 6.

Lemma demo_whole_page p : 0x40000000 ≤ p → p + 0x1000 ≤ 0x40004000 → whole_page 4096 demo_flat 0x1000 p.
Proof.
  intros Hlo Hhi id ra. unfold demo_flat, resolve.
  rewrite list_find_yes by (simpl; lia). simpl. intros [= <- <-]. split; [exists (-0x3fff0); lia|].
  intros o Ho. rewrite decide_True by lia. simpl. do 2 f_equal. lia.
Qed.

(** The store comes after a harvest's sync; that harvest misses it and the next one reports it. *)
Lemma dirty_write_reported_witness :
  let run c es := pass_run 4096 c es in
  let c0 := run (mkTracker reims_vgpu_dirty_new demo_mem Idle) demo_passes in
  let c1 := pass_step 4096 (run c0 (Call (ReadGen 1) :: demo_harvest 3)) (Call (GuestWrite (0x40001000 + 8))) in
  let c2 := run c1 (demo_harvest 3 ++ Call (ReadGen 1) :: demo_harvest 2) in
  let c3 := run (harvest_advance 4096 c2) [Call (ReadWritten 1 1 8)] in
  let d := tr_dirty (run (harvest_advance 4096 c3) [Call (Untrack 9); Advance]) in
  (reims_vgpu_dirty_gen d 1).1 ≠ 1 ∧
  ∀ max l, (reims_vgpu_dirty_written_since d 1 1 max).1 = Some l → 0x40001000 ∈ l.
Proof.
  apply (dirty_write_reported 4096 demo_mem demo_passes (Call (ReadGen 1) :: demo_harvest 3)
    (demo_harvest 3 ++ Call (ReadGen 1) :: demo_harvest 2) [Call (ReadWritten 1 1 8)] [Call (Untrack 9); Advance] 1
    (mkSet [0x40001000; 0x40002000] [0; 0] 0x1000 1 2) 0x40001000 8 1).
  - by exists 12.
  - repeat constructor; simpl; done || lia.
  - vm_compute. reflexivity.
  - vm_compute. reflexivity.
  - discriminate.
  - left.
  - apply demo_whole_page; lia.
  - simpl; lia.
  - vm_compute. reflexivity.
  - vm_compute. reflexivity.
  - vm_compute. reflexivity.
Defined.

(** The window is real.  A guest stores to a tracked page; the harvest stamps it; a reader reads
    generation 2 and copies the page; another CPU stores to the page again, with its clear due; the
    clear pass then drops the report of the second store with that of the first.  The next harvest
    leaves the generation at 2 and reports nothing since 2. *)
Theorem dirty_clear_race :
  let run c es := pass_run 4096 c es in
  let c0 := run (mkTracker reims_vgpu_dirty_new demo_mem Idle) (demo_passes ++ [Call (ReadGen 1); Call (GuestWrite 0x40001008)]) in
  let c1 := pass_step 4096 (run c0 (demo_harvest 4)) (Call (GuestWrite 0x40001010)) in
  let c2 := run c1 (demo_harvest 3 ++ Call (ReadGen 1) :: demo_harvest 6) in
  (reims_vgpu_dirty_gen (tr_dirty c1) 1).1 = 2 ∧ clear_due 4096 c1 0x40001010 = true ∧
  tr_phase c2 = Idle ∧ harvests (tr_dirty c2) = harvests (tr_dirty c1) + 1 ∧
  (reims_vgpu_dirty_gen (tr_dirty c2) 1).1 = 2 ∧ (reims_vgpu_dirty_written_since (tr_dirty c2) 1 2 8).1 = Some [].
Proof. vm_compute. by split_and!. Qed.

(** ** No counter outgrows the run

    The generations, the harvest and read counts and the tokens are uint64_t.  Each grows by at
    most one per step, so no run of fewer than 2^64 steps wraps one of them. *)
Definition counters_within (n : Z) (d : ReimsVgpuDirty) : Prop :=
  harvests d ≤ n ∧ next_token d ≤ n ∧ reads_since_harvest d ≤ n ∧ ∀ t s, sets d !! t = Some s → gen s ≤ n.

Lemma harvest_set_gen target slices m h s : gen (harvest_set target slices m h s) ≤ gen s + 1 ∨ gen (harvest_set target slices m h s) ≤ 1.
Proof. unfold harvest_set. repeat case_match; simpl; lia. Qed.
Lemma advance_counters target n c : 0 ≤ n → counters_within n (tr_dirty c) → counters_within (n + 1) (tr_dirty (harvest_advance target c)).
Proof.
  destruct c as [d m ph]. intros Hn (Hh & Ht & Hr & Hg). unfold counters_within. simpl in Hh, Ht, Hr, Hg.
  assert (∀ t s, sets d !! t = Some s → gen s ≤ n + 1) as Hg' by (intros t s Hs; specialize (Hg t s Hs); lia).
  destruct ph as [| |sl|sl|sl [|r runs] needs|[|s0 queue]]; simpl; try (split_and!; done || lia).
  - split_and!; [lia..|]. intros t s. rewrite lookup_fmap. intros (s0 & Hs & ->)%fmap_Some.
    specialize (Hg t s0 Hs). destruct (harvest_set_gen target sl m (harvests d + 1) s0); lia.
  - case_bool_decide; simpl; split_and!; done || lia.
Qed.
Lemma call_counters target n d m ev : event_ok ev → ev ≠ Harvest → 0 ≤ n →
  counters_within n d → counters_within (n + 1) (step target (d, m) ev).1.
Proof.
  intros Hok Hnh Hn (Hh & Ht & Hr & Hg). unfold counters_within.
  assert (∀ t s, sets d !! t = Some s → gen s ≤ n + 1) as Hg' by (intros t s Hs; specialize (Hg t s Hs); lia).
  destruct ev as [gpa| |gpas psize|token|token|token since max]; simpl in *; try (split_and!; done || lia).
  - destruct (track_cases target d gpas psize Hok) as [->|(Hp & Htp & Hne)]; [simpl; split_and!; done || lia|].
    destruct (track_success target d gpas psize Hp Htp Hne) as (ps & -> & _). simpl. split_and!; [lia..|].
    intros t s [[<- <-]|[_ Hs]]%lookup_insert_Some; [simpl; lia|by eauto].
  - unfold reims_vgpu_dirty_untrack. case_match; simpl; split_and!; try done; try lia. intros t s [_ Hs]%lookup_delete_Some. eauto.
  - unfold reims_vgpu_dirty_gen. case_match; simpl; split_and!; done || lia.
  - unfold reims_vgpu_dirty_written_since. repeat case_match; simplify_eq/=; split_and!; done || lia.
Qed.
Lemma counters_bounded target m es : Forall pass_ok es →
  counters_within (Z.of_nat (length es)) (tr_dirty (pass_run target (mkTracker reims_vgpu_dirty_new m Idle) es)).
Proof.
  induction es as [|e es IH] using rev_ind; intros Hok; [by split_and!; simpl|].
  apply Forall_app in Hok as [Hok He]. apply Forall_cons in He as [He _]. specialize (IH Hok). rewrite pass_run_app, length_app.
  replace (Z.of_nat _) with (Z.of_nat (length es) + 1) by (simpl; lia). destruct e as [|ev]; [apply advance_counters; [lia|done]|].
  destruct He as [Hev Hnh]. set (c := pass_run target _ es) in *.
  pose proof (call_counters target _ (tr_dirty c) (tr_mem c) ev Hev Hnh (Zle_0_nat _) IH) as H. cbn [pass_run foldl pass_step]. by destruct (step _ _ ev).
Qed.
