(* ===== verification/Ldst.v ===== *)
(** Emulation of A64 loads and stores whose data abort carries no syndrome,
    src/qemu/target/arm/emulate-ldst.c, with the bit-field helpers it uses from
    src/qemu/include/qemu/bitops.h.

    The access callback is a parameter over a world [W]: it may read or change the
    world, returns whether something accepted the access, and for a load the value. *)
From S2P Require Import Prelude Dma.

(** ** Bit fields *)
Definition extract32 (value start length : Z) : Z :=
  Z.land (Z.shiftr value start) (Z.shiftr 0xffffffff (32 - length)).
Definition sextract32 (value start length : Z) : Z :=
  Z.shiftr (s32 (Z.shiftl value (32 - length - start))) (32 - length).
Definition sextract64 (value start length : Z) : Z :=
  Z.shiftr (s64 (Z.shiftl value (64 - length - start))) (64 - length).

(** ** Decoding *)
Inductive addr_mode := ADDR_OFFSET | ADDR_PRE | ADDR_POST.
#[export] Instance addr_mode_eq_dec : EqDecision addr_mode.
Proof. solve_decision. Defined.

Definition addr_modes (i : Z) : addr_mode :=
  if i =? 1 then ADDR_POST else if i =? 3 then ADDR_PRE else ADDR_OFFSET.

Record LdstOp := mkLdst {
  load : bool; sign : bool; dst64 : bool; size : Z; nregs : nat;
  rt : Z; rt2 : Z; rn : Z; offset : Z; mode : addr_mode
}.

(** Direction and extension (load, sign, dst64) by opc. *)
Definition single_width (opc size_log2 : Z) : option (bool * bool * bool) :=
  if (opc =? 0) || (opc =? 1) then Some (negb (opc =? 0), false, size_log2 =? 3)
  else if opc =? 2 then
    if size_log2 =? 3 then None else Some (negb (opc =? 0), true, true)
  else if 2 <=? size_log2 then None else Some (negb (opc =? 0), true, false).

Definition decode_single (insn : Z) : option LdstOp :=
  let size_log2 := extract32 insn 30 2 in
  if negb (Z.land insn 0x3f200000 =? 0x38000000) then None
  else
    '(ld, sg, d64) ← single_width (extract32 insn 22 2) size_log2;
    Some (mkLdst ld sg d64 (Z.shiftl 1 size_log2) 1 (extract32 insn 0 5) (-1) (extract32 insn 5 5)
            (sextract32 insn 12 9) (addr_modes (extract32 insn 10 2))).

(** Element size, sign extension and destination width of a pair, by opc. *)
Definition pair_width (opc : Z) (ld : bool) : option (Z * bool * bool) :=
  if opc =? 0 then Some (4, false, false)
  else if opc =? 1 then if negb ld then None else Some (4, true, true)
  else if opc =? 2 then Some (8, false, true)
  else None.

Definition decode_pair (insn : Z) : option LdstOp :=
  let opc := extract32 insn 30 2 in
  let ld := nz (extract32 insn 22 1) in
  if negb (Z.land insn 0x3e000000 =? 0x28000000) then None
  else
    '(sz, sg, d64) ← pair_width opc ld;
    Some (mkLdst ld sg d64 sz 2 (extract32 insn 0 5) (extract32 insn 10 5) (extract32 insn 5 5)
            (sextract32 insn 15 7 * sz) (addr_modes (extract32 insn 23 2))).

Definition decode (insn : Z) : option LdstOp :=
  match decode_single insn with Some op => Some op | None => decode_pair insn end.

(** ** Execution *)
Record CPUARMState := mkEnv { xregs : list Z; pc : Z }.
#[export] Instance eta_env : Settable CPUARMState := λ r, mkEnv (xregs r) (pc r).

Definition data_reg (env : CPUARMState) (r : Z) : Z :=
  if r =? 31 then 0 else default 0 (xregs env !! Z.to_nat r).
Definition set_data_reg (env : CPUARMState) (r val : Z) : CPUARMState :=
  if r =? 31 then env else env <| xregs := <[Z.to_nat r := val]> (xregs env) |>.

Definition extend (op : LdstOp) (val : Z) : Z :=
  let val := if sign op then u64 (sextract64 val 0 (size op * 8)) else val in
  if dst64 op then val else u32 val.

(** The physical address of element 0: the element whose page offset is that of
    the faulting address tells which element faulted. *)
Fixpoint first_element_from (i : Z) (n : nat) (op : LdstOp) (va fault_pa : Z) : option Z :=
  match n with
  | O => None
  | S n =>
      if nz (Z.land (Z.lxor (u64 (va + i * size op)) fault_pa) 0xfff)
      then first_element_from (i + 1) n op va fault_pa
      else Some (u64 (fault_pa - i * size op))
  end.
Definition first_element_pa (op : LdstOp) (va fault_pa : Z) : option Z :=
  first_element_from 0 (nregs op) op va fault_pa.

Section access.
Context {W : Type}.
Variable access : W → Z → Z → Z → bool → bool * Z * W.

Definition op_regs (op : LdstOp) : list Z := [rt op; rt2 op].

(** The accesses of the elements from [i] on; on success the values. *)
Fixpoint access_elements (env : CPUARMState) (op : LdstOp) (pa i : Z) (regs : list Z) (w : W) :
    option (list Z) * W :=
  match regs with
  | [] => (Some [], w)
  | r :: regs =>
      let val := if negb (load op) then data_reg env r else 0 in
      let '(ok, val, w) := access w (u64 (pa + i * size op)) val (size op) (negb (load op)) in
      if negb ok then (None, w)
      else match access_elements env op pa (i + 1) regs w with
           | (Some vals, w) => (Some (val :: vals), w)
           | (None, w) => (None, w)
           end
  end.

Fixpoint set_regs (env : CPUARMState) (op : LdstOp) (regs vals : list Z) : CPUARMState :=
  match regs, vals with
  | r :: regs, v :: vals => set_regs (set_data_reg env r (extend op v)) op regs vals
  | _, _ => env
  end.

Definition do_access (env : CPUARMState) (op : LdstOp) (pa : Z) (w : W) : bool * CPUARMState * W :=
  let regs := take (nregs op) (op_regs op) in
  match access_elements env op pa 0 regs w with
  | (None, w) => (false, env, w)
  | (Some vals, w) => (true, if load op then set_regs env op regs vals else env, w)
  end.

(** The base-register writeback. *)
Definition write_back (env : CPUARMState) (op : LdstOp) (base : Z) : CPUARMState :=
  if decide (mode op = ADDR_OFFSET) then env
  else env <| xregs := <[Z.to_nat (rn op) := u64 (base + offset op)]> (xregs env) |>.

Definition arm_emulate_ldst (env : CPUARMState) (insn fault_pa : Z) (w : W) : bool * CPUARMState * W :=
  match decode insn with
  | None => (false, env, w)
  | Some op =>
      let base := default 0 (xregs env !! Z.to_nat (rn op)) in
      let va := if decide (mode op = ADDR_POST) then base else u64 (base + offset op) in
      match first_element_pa op va fault_pa with
      | None => (false, env, w)
      | Some pa =>
          match do_access env op pa w with
          | (false, env, w) => (false, env, w)
          | (true, env, w) =>
              let env := write_back env op base in
              (true, env <| pc := u64 (pc env + 4) |>, w)
          end
      end
  end.

End access.

(** The callback of the WHPX back end: address_space_rw on the low bytes of the
    (little-endian) value. *)
Definition whpx_ldst_access {M} `{Dma M} (m : M) (pa val size : Z) (is_write : bool) : bool * Z * M :=
  let buf := le_bytes (Z.to_nat size) val in
  if is_write then let '(r, m) := dma_memory_write m pa buf in (r =? MEMTX_OK, val, m)
  else let '(r, bs) := dma_memory_read m pa buf in
       (r =? MEMTX_OK, le_val (bs ++ drop (Z.to_nat size) (le_bytes 8 val)), m).

(** ** Bit fields as arithmetic *)
Lemma extract32_eq v start len :
  0 ≤ start → 0 < len ≤ 32 → extract32 v start len = (v / 2 ^ start) mod 2 ^ len.
Proof.
  intros Hs Hl. unfold extract32. rewrite Z.shiftr_div_pow2 by done.
  assert (Z.shiftr 0xffffffff (32 - len) = 2 ^ len - 1) as ->.
  { change 0xffffffff with (Z.ones 32). rewrite Z.shiftr_div_pow2, Z.ones_div_pow2 by lia.
    rewrite Z.ones_equiv. replace (32 - (32 - len)) with len by lia. lia. }
  apply land_ones_mod. lia.
Qed.

(** Two's complement reading of a [len]-bit field. *)
Definition signed (len f : Z) : Z := if f <? 2 ^ (len - 1) then f else f - 2 ^ len.

Lemma shiftr_signed w len x :
  0 < len ≤ w → 0 ≤ x < 2 ^ w →
  Z.shiftr (if x <? 2 ^ (w - 1) then x else x - 2 ^ w) (w - len) = signed len (x / 2 ^ (w - len)).
Proof.
  intros Hl Hx. unfold signed. rewrite !Z.shiftr_div_pow2 by lia.
  assert (0 < 2 ^ (w - len)) as Hp by (apply Z.pow_pos_nonneg; lia).
  assert (2 ^ (w - 1) = 2 ^ (len - 1) * 2 ^ (w - len)) as Ew1.
  { rewrite <- Z.pow_add_r by lia. f_equal. lia. }
  assert (2 ^ w = 2 ^ len * 2 ^ (w - len)) as Ew.
  { rewrite <- Z.pow_add_r by lia. f_equal. lia. }
  destruct (Z.ltb_spec x (2 ^ (w - 1))) as [H|H]; destruct (Z.ltb_spec (x / 2 ^ (w - len)) (2 ^ (len - 1))) as [H'|H'].
  - done.
  - exfalso. rewrite Ew1 in H. assert (x / 2 ^ (w - len) < 2 ^ (len - 1)); [|lia].
    apply Z.div_lt_upper_bound; lia.
  - exfalso. rewrite Ew1 in H. assert (2 ^ (len - 1) ≤ x / 2 ^ (w - len)); [|lia].
    apply Z.div_le_lower_bound; lia.
  - rewrite Ew. replace (x - 2 ^ len * 2 ^ (w - len)) with (x + (- 2 ^ len) * 2 ^ (w - len)) by lia.
    rewrite Z.div_add by lia. lia.
Qed.

Lemma field_shift w v start len :
  0 ≤ start → 0 < len → start + len ≤ w →
  (Z.shiftl v (w - len - start) mod 2 ^ w) / 2 ^ (w - len) = (v / 2 ^ start) mod 2 ^ len.
Proof.
  intros Hs Hl Hw. rewrite Z.shiftl_mul_pow2 by lia.
  set (k := w - len - start). pose proof (Z.pow_pos_nonneg 2 k ltac:(lia) ltac:(lia)) as Hk.
  pose proof (Z.pow_pos_nonneg 2 start ltac:(lia) ltac:(lia)) as Hps.
  pose proof (Z.pow_pos_nonneg 2 len ltac:(lia) ltac:(lia)) as Hpl.
  replace (2 ^ w) with ((2 ^ start * 2 ^ len) * 2 ^ k) by (rewrite <- !Z.pow_add_r by lia; f_equal; lia).
  replace (2 ^ (w - len)) with (2 ^ k * 2 ^ start) by (rewrite <- !Z.pow_add_r by lia; f_equal; lia).
  rewrite Z.mul_mod_distr_r, <- Z.div_div, Z.div_mul by lia.
  rewrite Z.rem_mul_r, Z.add_comm, Z.mul_comm, Z.div_add_l by lia.
  rewrite (Z.div_small (v mod 2 ^ start)) by (by apply Z.mod_pos_bound). lia.
Qed.

Lemma sextract32_eq v start len :
  0 ≤ start → 0 < len → start + len ≤ 32 →
  sextract32 v start len = signed len ((v / 2 ^ start) mod 2 ^ len).
Proof.
  intros Hs Hl Hw. unfold sextract32, s32, u32. change 0x100000000 with (2 ^ 32).
  change 0x80000000 with (2 ^ (32 - 1)).
  rewrite shiftr_signed by (try apply Z.mod_pos_bound; lia). by rewrite field_shift.
Qed.

Lemma sextract64_eq v start len :
  0 ≤ start → 0 < len → start + len ≤ 64 →
  sextract64 v start len = signed len ((v / 2 ^ start) mod 2 ^ len).
Proof.
  intros Hs Hl Hw. unfold sextract64, s64, u64. change 0x10000000000000000 with (2 ^ 64).
  change 0x8000000000000000 with (2 ^ (64 - 1)).
  rewrite shiftr_signed by (try apply Z.mod_pos_bound; lia). by rewrite field_shift.
Qed.

Lemma signed_range len f : 0 < len → 0 ≤ f < 2 ^ len → - 2 ^ (len - 1) ≤ signed len f < 2 ^ (len - 1).
Proof.
  intros Hl Hf. unfold signed.
  assert (2 ^ len = 2 * 2 ^ (len - 1)) by (rewrite <- Z.pow_succ_r by lia; f_equal; lia).
  destruct (Z.ltb_spec f (2 ^ (len - 1))); lia.
Qed.

Lemma signed_mod len z :
  0 < len → - 2 ^ (len - 1) ≤ z < 2 ^ (len - 1) → signed len (z mod 2 ^ len) = z.
Proof.
  intros Hl Hz. unfold signed.
  assert (2 ^ len = 2 * 2 ^ (len - 1)) as E by (rewrite <- Z.pow_succ_r by lia; f_equal; lia).
  destruct (Z.le_gt_cases 0 z).
  - rewrite Z.mod_small by lia. destruct (Z.ltb_spec z (2 ^ (len - 1))); lia.
  - assert (z mod 2 ^ len = z + 2 ^ len) as -> by (symmetry; apply (Z.mod_unique_pos _ _ (-1)); lia).
    destruct (Z.ltb_spec (z + 2 ^ len) (2 ^ (len - 1))); lia.
Qed.

(** ** The architectural encodings

    The two classes of the Arm ARM the emulation covers, as the values of their
    fields, with their encodings; [op_of] is what the decoder makes of the fields. *)
Inductive a64_ldst :=
  | Imm9 (size_log2 opc imm9 idx : Z) (rn rt : Z)
  | Pair (opc mode : Z) (l : bool) (imm7 rt2 rn rt : Z).

Definition encode (i : a64_ldst) : Z :=
  match i with
  | Imm9 size_log2 opc imm9 idx rn rt =>
      size_log2 * 2 ^ 30 + 0x38000000 + opc * 2 ^ 22 + (imm9 mod 2 ^ 9) * 2 ^ 12 + idx * 2 ^ 10 + rn * 2 ^ 5 + rt
  | Pair opc mode l imm7 rt2 rn rt =>
      opc * 2 ^ 30 + 0x28000000 + mode * 2 ^ 23 + (if l then 2 ^ 22 else 0) +
      (imm7 mod 2 ^ 7) * 2 ^ 15 + rt2 * 2 ^ 10 + rn * 2 ^ 5 + rt
  end.

Definition is_reg (r : Z) : Prop := 0 ≤ r < 32.
Definition fields_ok (i : a64_ldst) : Prop :=
  match i with
  | Imm9 size_log2 opc imm9 idx rn rt =>
      0 ≤ size_log2 < 4 ∧ 0 ≤ opc < 4 ∧ -256 ≤ imm9 < 256 ∧ 0 ≤ idx < 4 ∧ is_reg rn ∧ is_reg rt
  | Pair opc mode _ imm7 rt2 rn rt =>
      0 ≤ opc < 4 ∧ 0 ≤ mode < 4 ∧ -64 ≤ imm7 < 64 ∧ is_reg rt2 ∧ is_reg rn ∧ is_reg rt
  end.

Definition op_of (i : a64_ldst) : option LdstOp :=
  match i with
  | Imm9 size_log2 opc imm9 idx rn rt =>
      '(ld, sg, d64) ← single_width opc size_log2;
      Some (mkLdst ld sg d64 (2 ^ size_log2) 1 rt (-1) rn imm9 (addr_modes idx))
  | Pair opc mode l imm7 rt2 rn rt =>
      '(sz, sg, d64) ← pair_width opc l;
      Some (mkLdst l sg d64 sz 2 rt rt2 rn (imm7 * sz) (addr_modes mode))
  end.

(** ** The opcode masks *)
Lemma land_field v m k : 0 ≤ k → Z.land v (Z.shiftl m k) = Z.shiftl (Z.land (Z.shiftr v k) m) k.
Proof.
  intros Hk. apply Z.bits_inj'. intros n Hn. rewrite Z.land_spec, !Z.shiftl_spec by done.
  destruct (Z.lt_ge_cases n k).
  - rewrite !(Z.testbit_neg_r _ (n - k)) by lia. apply andb_false_r.
  - rewrite Z.land_spec, Z.shiftr_spec by lia. do 2 f_equal. lia.
Qed.

Lemma land_field_mod v l k :
  0 ≤ k → 0 ≤ l → Z.land v (Z.shiftl (2 ^ l - 1) k) = ((v / 2 ^ k) mod 2 ^ l) * 2 ^ k.
Proof.
  intros Hk Hl. rewrite land_field, land_ones_mod, Z.shiftr_div_pow2, Z.shiftl_mul_pow2 by done. done.
Qed.

Lemma single_mask v :
  (Z.land v 0x3f200000 =? 0x38000000) = ((v / 2 ^ 24) mod 2 ^ 6 =? 0x38) && ((v / 2 ^ 21) mod 2 =? 0).
Proof.
  change 0x3f200000 with (Z.lor (Z.shiftl (2 ^ 6 - 1) 24) (Z.shiftl (2 ^ 1 - 1) 21)).
  rewrite Z.land_lor_distr_r, !land_field_mod by lia. change (2 ^ 1) with 2.
  pose proof (Z.mod_pos_bound (v / 2 ^ 24) (2 ^ 6) ltac:(lia)) as Hf.
  pose proof (Z.mod_pos_bound (v / 2 ^ 21) 2 ltac:(lia)) as Hb.
  revert Hf Hb. generalize ((v / 2 ^ 24) mod 2 ^ 6) ((v / 2 ^ 21) mod 2). intros f b Hf Hb.
  assert (∀ f b, f ∈ seqZ 0 64 → b ∈ seqZ 0 2 →
    (Z.lor (f * 2 ^ 24) (b * 2 ^ 21) =? 0x38000000) = (f =? 0x38) && (b =? 0)) as Hall.
  { intros f' b' H1 H2. revert f' H1. apply Forall_forall. revert b' H2. apply Forall_forall. decide_done. }
  apply Hall; apply elem_of_seqZ; change (2 ^ 6) with 64 in Hf; lia.
Qed.

Lemma pair_mask v : (Z.land v 0x3e000000 =? 0x28000000) = ((v / 2 ^ 25) mod 2 ^ 5 =? 0x14).
Proof.
  change 0x3e000000 with (Z.shiftl (2 ^ 5 - 1) 25). rewrite land_field_mod by lia.
  change 0x28000000 with (0x14 * 2 ^ 25).
  destruct (Z.eqb_spec ((v / 2 ^ 25) mod 2 ^ 5 * 2 ^ 25) (0x14 * 2 ^ 25)),
    (Z.eqb_spec ((v / 2 ^ 25) mod 2 ^ 5) 0x14); try done; lia.
Qed.

(** ** Decoding against the encodings *)
Ltac pows :=
  change (2 ^ 30) with 0x40000000 in *; change (2 ^ 25) with 0x2000000 in *;
  change (2 ^ 24) with 0x1000000 in *; change (2 ^ 23) with 0x800000 in *;
  change (2 ^ 22) with 0x400000 in *; change (2 ^ 21) with 0x200000 in *;
  change (2 ^ 15) with 0x8000 in *; change (2 ^ 12) with 0x1000 in *;
  change (2 ^ 10) with 0x400 in *; change (2 ^ 9) with 0x200 in *;
  change (2 ^ 7) with 0x80 in *; change (2 ^ 6) with 0x40 in *;
  change (2 ^ 5) with 0x20 in *; change (2 ^ 2) with 4 in *;
  change (2 ^ 1) with 2 in *; change (2 ^ 0) with 1 in *.

Lemma imm9_fields s o f x n t :
  0 ≤ s < 4 → 0 ≤ o < 4 → 0 ≤ f < 512 → 0 ≤ x < 4 → is_reg n → is_reg t →
  let v := s * 2 ^ 30 + 0x38000000 + o * 2 ^ 22 + f * 2 ^ 12 + x * 2 ^ 10 + n * 2 ^ 5 + t in
  (v / 2 ^ 24) mod 2 ^ 6 = 0x38 ∧ (v / 2 ^ 21) mod 2 = 0 ∧
  (v / 2 ^ 30) mod 2 ^ 2 = s ∧ (v / 2 ^ 22) mod 2 ^ 2 = o ∧ (v / 2 ^ 12) mod 2 ^ 9 = f ∧
  (v / 2 ^ 10) mod 2 ^ 2 = x ∧ (v / 2 ^ 5) mod 2 ^ 5 = n ∧ (v / 2 ^ 0) mod 2 ^ 5 = t.
Proof.
  unfold is_reg. intros. pows.
  split_and!; Z.div_mod_to_equations; lia.
Qed.

Lemma pair_fields o m b f r2 n t :
  0 ≤ o < 4 → 0 ≤ m < 4 → 0 ≤ b < 2 → 0 ≤ f < 128 → is_reg r2 → is_reg n → is_reg t →
  let v := o * 2 ^ 30 + 0x28000000 + m * 2 ^ 23 + b * 2 ^ 22 + f * 2 ^ 15 + r2 * 2 ^ 10 + n * 2 ^ 5 + t in
  (v / 2 ^ 25) mod 2 ^ 5 = 0x14 ∧
  (v / 2 ^ 30) mod 2 ^ 2 = o ∧ (v / 2 ^ 23) mod 2 ^ 2 = m ∧ (v / 2 ^ 22) mod 2 ^ 1 = b ∧
  (v / 2 ^ 15) mod 2 ^ 7 = f ∧ (v / 2 ^ 10) mod 2 ^ 5 = r2 ∧ (v / 2 ^ 5) mod 2 ^ 5 = n ∧
  (v / 2 ^ 0) mod 2 ^ 5 = t.
Proof. unfold is_reg. intros. pows. split_and!; Z.div_mod_to_equations; lia. Qed.

(** The two classes do not overlap: bits 29 to 25 tell them apart. *)
Lemma class_disjoint v :
  Z.land v 0x3f200000 = 0x38000000 → Z.land v 0x3e000000 = 0x28000000 → False.
Proof.
  intros H1%Z.eqb_eq H2%Z.eqb_eq. rewrite single_mask in H1. rewrite pair_mask in H2.
  reflect_bools. pows. Z.div_mod_to_equations. lia.
Qed.

Lemma encode_imm9_word s o im x n t :
  fields_ok (Imm9 s o im x n t) → decode (encode (Imm9 s o im x n t)) = op_of (Imm9 s o im x n t).
Proof.
  intros (Hs & Ho & Him & Hx & Hn & Ht). unfold decode, decode_single, decode_pair, encode.
  pose proof (Z.mod_pos_bound im (2 ^ 9) ltac:(lia)) as Hf. change (2 ^ 9) with 512 in Hf at 2.
  destruct (imm9_fields s o (im mod 2 ^ 9) x n t) as (F1 & F2 & Fs & Fo & Ff & Fx & Fn & Ft); try done.
  set (v := s * _ + _ + _ + _ + _ + _ + _) in *. clearbody v.
  assert ((Z.land v 0x3f200000 =? 0x38000000) = true) as E by (by rewrite single_mask, F1, F2).
  rewrite E. cbn [negb]. rewrite !extract32_eq, !sextract32_eq, Fs, Fo, Fn, Ff, Fx, Ft by lia.
  rewrite signed_mod by lia. unfold op_of. rewrite Z.shiftl_1_l.
  destruct (single_width o s) as [[[ld sg] d64]|]; simpl; [done|].
  destruct (Z.eqb_spec (Z.land v 0x3e000000) 0x28000000) as [E'|]; [|done].
  apply Z.eqb_eq in E. by destruct (class_disjoint v).
Qed.

Lemma encode_pair_word o m l im r2 n t :
  fields_ok (Pair o m l im r2 n t) →
  decode (encode (Pair o m l im r2 n t)) = op_of (Pair o m l im r2 n t).
Proof.
  intros (Ho & Hm & Him & Hr2 & Hn & Ht). unfold decode, decode_single, decode_pair, encode.
  pose proof (Z.mod_pos_bound im (2 ^ 7) ltac:(lia)) as Hf. change (2 ^ 7) with 128 in Hf at 2.
  replace (if l then 2 ^ 22 else 0) with ((if l then 1 else 0) * 2 ^ 22) by (by destruct l).
  assert (0 ≤ (if l then 1 else 0) < 2) as Hb by (destruct l; lia).
  destruct (pair_fields o m (if l then 1 else 0) (im mod 2 ^ 7) r2 n t)
    as (F1 & Fo & Fm & Fb & Ff & Fr2 & Fn & Ft); try done.
  set (v := o * _ + _ + _ + _ + _ + _ + _ + _) in *. clearbody v.
  assert ((Z.land v 0x3e000000 =? 0x28000000) = true) as E by (by rewrite pair_mask, F1).
  destruct (Z.eqb_spec (Z.land v 0x3f200000) 0x38000000) as [E'|_].
  { apply Z.eqb_eq in E. by destruct (class_disjoint v). }
  cbn [negb]. rewrite E. cbn [negb].
  rewrite !extract32_eq, !sextract32_eq, Fo, Fb, Ff, Fm, Fr2, Fn, Ft by lia.
  rewrite signed_mod by lia. unfold op_of. by destruct l.
Qed.

Lemma signed_field len f : 0 < len → 0 ≤ f < 2 ^ len → signed len f mod 2 ^ len = f.
Proof.
  intros Hl Hf. unfold signed. case_match; [by apply Z.mod_small|].
  symmetry. apply (Z.mod_unique_pos _ _ (-1)); lia.
Qed.

Lemma decode_single_encoded v op :
  is_u32 v → decode_single v = Some op → ∃ i, fields_ok i ∧ encode i = v ∧ op_of i = Some op.
Proof.
  intros Hv. unfold decode_single. rewrite single_mask.
  destruct (Z.eqb_spec ((v / 2 ^ 24) mod 2 ^ 6) 0x38) as [F1|]; [|done].
  destruct (Z.eqb_spec ((v / 2 ^ 21) mod 2) 0) as [F2|]; [|done]. cbn [andb negb].
  rewrite !extract32_eq, !sextract32_eq by lia. intros Hop.
  exists (Imm9 ((v / 2 ^ 30) mod 2 ^ 2) ((v / 2 ^ 22) mod 2 ^ 2) (signed 9 ((v / 2 ^ 12) mod 2 ^ 9))
            ((v / 2 ^ 10) mod 2 ^ 2) ((v / 2 ^ 5) mod 2 ^ 5) ((v / 2 ^ 0) mod 2 ^ 5)).
  assert (∀ k l, 0 < l → 0 ≤ (v / 2 ^ k) mod 2 ^ l < 2 ^ l) as B
    by (intros; apply Z.mod_pos_bound; lia).
  split_and!.
  - pose proof (signed_range 9 ((v / 2 ^ 12) mod 2 ^ 9) ltac:(lia) (B 12 9 ltac:(lia))).
    repeat split; try apply B; lia.
  - unfold encode. rewrite signed_field by (try apply B; lia).
    clear B Hop. unfold is_u32 in Hv. pows. Z.div_mod_to_equations. lia.
  - rewrite <- Hop. unfold op_of. by rewrite Z.shiftl_1_l.
Qed.

Lemma decode_pair_encoded v op :
  is_u32 v → decode_pair v = Some op → ∃ i, fields_ok i ∧ encode i = v ∧ op_of i = Some op.
Proof.
  intros Hv. unfold decode_pair. rewrite pair_mask.
  destruct (Z.eqb_spec ((v / 2 ^ 25) mod 2 ^ 5) 0x14) as [F1|]; [|done]. cbn [negb].
  rewrite !extract32_eq, !sextract32_eq by lia. intros Hop.
  exists (Pair ((v / 2 ^ 30) mod 2 ^ 2) ((v / 2 ^ 23) mod 2 ^ 2) (nz ((v / 2 ^ 22) mod 2 ^ 1))
            (signed 7 ((v / 2 ^ 15) mod 2 ^ 7)) ((v / 2 ^ 10) mod 2 ^ 5) ((v / 2 ^ 5) mod 2 ^ 5)
            ((v / 2 ^ 0) mod 2 ^ 5)).
  assert (∀ k l, 0 < l → 0 ≤ (v / 2 ^ k) mod 2 ^ l < 2 ^ l) as B
    by (intros; apply Z.mod_pos_bound; lia).
  split_and!.
  - pose proof (signed_range 7 ((v / 2 ^ 15) mod 2 ^ 7) ltac:(lia) (B 15 7 ltac:(lia))).
    repeat split; try apply B; lia.
  - unfold encode. rewrite signed_field by (try apply B; lia).
    replace (if nz ((v / 2 ^ 22) mod 2 ^ 1) then 2 ^ 22 else 0) with ((v / 2 ^ 22) mod 2 ^ 1 * 2 ^ 22).
    2:{ unfold nz. specialize (B 22 1 ltac:(lia)).
        destruct (Z.eqb_spec ((v / 2 ^ 22) mod 2 ^ 1) 0); cbn [negb]; lia. }
    clear B Hop. unfold is_u32 in Hv. pows. Z.div_mod_to_equations. lia.
  - rewrite <- Hop. done.
Qed.

(** ** The instruction set

    The general-purpose instructions of the two classes, by mnemonic (with
    the width of the data register where the mnemonic does not tell), and what each
    means: direction, extension, register width and bytes per element.  Every combination
    with an addressing form is allocated but one: there is no no-allocate LDPSW
    (src/qemu/target/arm/tcg/a64.decode has STNP and LDNP of 32 and 64 bits only). *)
Inductive single_insn :=
  | STRB | LDRB | LDRSB_X | LDRSB_W | STRH | LDRH | LDRSH_X | LDRSH_W
  | STR_W | LDR_W | LDRSW | STR_X | LDR_X.
Inductive pair_insn := STP_W | LDP_W | LDPSW | STP_X | LDP_X.
(** Plain is the unscaled or no-allocate form, Other the unprivileged or signed-offset form. *)
Inductive addressing := Plain | PostIndex | Other | PreIndex.

Definition single_bits (m : single_insn) : Z * Z :=
  match m with
  | STRB => (0, 0) | LDRB => (0, 1) | LDRSB_X => (0, 2) | LDRSB_W => (0, 3)
  | STRH => (1, 0) | LDRH => (1, 1) | LDRSH_X => (1, 2) | LDRSH_W => (1, 3)
  | STR_W => (2, 0) | LDR_W => (2, 1) | LDRSW => (2, 2)
  | STR_X => (3, 0) | LDR_X => (3, 1)
  end.
Definition pair_bits (m : pair_insn) : Z * bool :=
  match m with STP_W => (0, false) | LDP_W => (0, true) | LDPSW => (1, true) | STP_X => (2, false) | LDP_X => (2, true) end.
Definition addressing_bits (a : addressing) : Z :=
  match a with Plain => 0 | PostIndex => 1 | Other => 2 | PreIndex => 3 end.

Inductive a64_insn :=
  | Single (m : single_insn) (a : addressing) (imm9 rn rt : Z)
  | PairOf (m : pair_insn) (a : addressing) (imm7 rt2 rn rt : Z).

Definition allocated (i : a64_insn) : bool := match i with PairOf LDPSW Plain _ _ _ _ => false | _ => true end.

Definition fields_of (i : a64_insn) : a64_ldst :=
  match i with
  | Single m a imm9 rn rt => Imm9 (single_bits m).1 (single_bits m).2 imm9 (addressing_bits a) rn rt
  | PairOf m a imm7 rt2 rn rt => Pair (pair_bits m).1 (addressing_bits a) (pair_bits m).2 imm7 rt2 rn rt
  end.

Definition mode_of (a : addressing) : addr_mode :=
  match a with PostIndex => ADDR_POST | PreIndex => ADDR_PRE | _ => ADDR_OFFSET end.

Definition meaning (i : a64_insn) : LdstOp :=
  match i with
  | Single m a imm9 rn rt =>
      let op ld sg x bytes := mkLdst ld sg x bytes 1 rt (-1) rn imm9 (mode_of a) in
      match m with
      | STRB => op false false false 1 | LDRB => op true false false 1
      | LDRSB_X => op true true true 1 | LDRSB_W => op true true false 1
      | STRH => op false false false 2 | LDRH => op true false false 2
      | LDRSH_X => op true true true 2 | LDRSH_W => op true true false 2
      | STR_W => op false false false 4 | LDR_W => op true false false 4 | LDRSW => op true true true 4
      | STR_X => op false false true 8 | LDR_X => op true false true 8
      end
  | PairOf m a imm7 rt2 rn rt =>
      let op ld sg x bytes := mkLdst ld sg x bytes 2 rt rt2 rn (imm7 * bytes) (mode_of a) in
      match m with
      | STP_W => op false false false 4 | LDP_W => op true false false 4 | LDPSW => op true true true 4
      | STP_X => op false false true 8 | LDP_X => op true false true 8
      end
  end.

Lemma meaning_sound i : op_of (fields_of i) = Some (meaning i).
Proof. destruct i as [[] [] ? ? ?|[] [] ? ? ? ?]; reflexivity. Qed.

Lemma four_values k : 0 ≤ k < 4 → k = 0 ∨ k = 1 ∨ k = 2 ∨ k = 3.
Proof. lia. Qed.

Lemma addressing_complete x : 0 ≤ x < 4 → ∃ a, addressing_bits a = x ∧ mode_of a = addr_modes x.
Proof. intros [->|[->|[->| ->]]]%four_values; [by exists Plain|by exists PostIndex|by exists Other|by exists PreIndex]. Qed.

Lemma single_complete s o w :
  0 ≤ s < 4 → 0 ≤ o < 4 → single_width o s = Some w → ∃ m, single_bits m = (s, o).
Proof.
  intros [->|[->|[->| ->]]]%four_values [->|[->|[->| ->]]]%four_values; intros E; try discriminate E;
    first [by exists STRB|by exists LDRB|by exists LDRSB_X|by exists LDRSB_W|by exists STRH|by exists LDRH
          |by exists LDRSH_X|by exists LDRSH_W|by exists STR_W|by exists LDR_W|by exists LDRSW|by exists STR_X|by exists LDR_X].
Qed.

Lemma pair_complete o l w : 0 ≤ o < 4 → pair_width o l = Some w → ∃ m, pair_bits m = (o, l).
Proof.
  intros [->|[->|[->| ->]]]%four_values; destruct l; intros E; try discriminate E;
    first [by exists STP_W|by exists LDP_W|by exists LDPSW|by exists STP_X|by exists LDP_X].
Qed.

(** Fields the decoder accepts are those of an allocated instruction. *)
Lemma meaning_complete f op :
  fields_ok f → op_of f = Some op → ∃ i, fields_of i = f ∧ meaning i = op.
Proof.
  intros Hf Hop. cut (∃ i, fields_of i = f).
  { intros [i <-]. exists i. split; [done|]. pose proof (meaning_sound i). congruence. }
  destruct f as [s o im x n t|o m l im r2 n t]; unfold op_of in Hop.
  - destruct Hf as (Hs & Ho & _ & Hx & _). destruct (single_width o s) as [w|] eqn:E; [|done].
    destruct (single_complete s o w Hs Ho E) as [m Hm]. destruct (addressing_complete x Hx) as (a & Ha & _).
    exists (Single m a im n t). simpl. by rewrite Hm, Ha.
  - destruct Hf as (Ho & Hm & _). destruct (pair_width o l) as [w|] eqn:E; [|done].
    destruct (pair_complete o l w Ho E) as [p Hp]. destruct (addressing_complete m Hm) as (a & Ha & _).
    exists (PairOf p a im r2 n t). simpl. by rewrite Hp, Ha.
Qed.

Lemma decode_fields insn op : is_u32 insn →
  decode insn = Some op ↔ ∃ i, fields_ok (fields_of i) ∧ encode (fields_of i) = insn ∧ meaning i = op.
Proof.
  intros Hv. split.
  - intros Hd. assert (∃ f, fields_ok f ∧ encode f = insn ∧ op_of f = Some op) as (f & Hf & <- & Hop).
    { revert Hd. unfold decode. destruct (decode_single insn) eqn:E.
      - intros [= ->]. by apply decode_single_encoded.
      - by apply decode_pair_encoded. }
    destruct (meaning_complete f op Hf Hop) as (i & <- & <-). by exists i.
  - intros (i & Hf & <- & <-). rewrite <- meaning_sound. revert Hf. destruct (fields_of i);
      intros Hf; [by apply encode_imm9_word|by apply encode_pair_word].
Qed.

(** C34: the decoder accepts the general-purpose encodings of the two classes the file lists and
    one unallocated form besides, and reads their fields as the architecture defines them.  A
    32-bit word decodes to an operation if and only if it is the encoding of an allocated
    LDR/STR/LDRS* (9-bit offset) or LDP/STP/LDPSW instruction meaning that operation, or is what
    a no-allocate LDPSW would be, which the architecture does not have: that word is taken for
    the signed-offset LDPSW with the same fields. *)
Theorem decode_exact insn op :
  is_u32 insn →
  decode insn = Some op ↔
    (∃ i, allocated i = true ∧ fields_ok (fields_of i) ∧ encode (fields_of i) = insn ∧ meaning i = op) ∨
    (∃ imm7 rt2 rn rt, fields_ok (fields_of (PairOf LDPSW Plain imm7 rt2 rn rt)) ∧
      encode (fields_of (PairOf LDPSW Plain imm7 rt2 rn rt)) = insn ∧ meaning (PairOf LDPSW Other imm7 rt2 rn rt) = op).
Proof.
  intros Hv. rewrite decode_fields by done. split.
  - intros (i & Hf & He & Hm). destruct (allocated i) eqn:Ea; [left; by exists i|right].
    destruct i as [|[] [] imm7 rt2 rn rt]; try done. by exists imm7, rt2, rn, rt.
  - intros [(i & _ & Hi)|(imm7 & rt2 & rn & rt & Hf & He & Hm)]; [by exists i|]. by exists (PairOf LDPSW Plain imm7 rt2 rn rt).
Qed.

(** LDRSB x0, [x1], #-1 *)
Lemma decode_exact_witness :
  decode 0x389ff420 = Some (mkLdst true true true 1 1 0 (-1) 1 (-1) ADDR_POST).
Proof.
  apply decode_exact; [unfold is_u32; lia|]. left. exists (Single LDRSB_X PostIndex (-1) 1 0).
  split; [reflexivity|]. split; [unfold fields_of, fields_ok, is_reg; simpl; lia|split; reflexivity].
Defined.
(** The unallocated word with zero in every other field. *)
Lemma no_allocate_ldpsw : decode 0x68400000 = Some (mkLdst true true true 4 2 0 0 0 0 ADDR_OFFSET).
Proof. vm_compute. reflexivity. Qed.

(** ** Which element faulted *)
Lemma page_offset_match a b :
  nz (Z.land (Z.lxor a b) 0xfff) = negb (a mod 4096 =? b mod 4096).
Proof.
  unfold nz. f_equal. change 0xfff with (2 ^ 12 - 1). rewrite land_ones_mod by lia.
  change 4096 with (2 ^ 12). rewrite <- !Z.land_ones by lia.
  rewrite Z.land_comm. assert (∀ m, Z.land m (Z.lxor a b) = Z.lxor (Z.land a m) (Z.land b m)) as ->.
  { intros m. apply Z.bits_inj'. intros n Hn. rewrite !Z.land_spec, !Z.lxor_spec, !Z.land_spec.
    by destruct (Z.testbit a n), (Z.testbit b n), (Z.testbit m n). }
  destruct (Z.eqb_spec (Z.land a (Z.ones 12)) (Z.land b (Z.ones 12))) as [->|Hne].
  - by rewrite Z.lxor_nilpotent.
  - apply Z.eqb_neq. intros H0. by apply Hne, Z.lxor_eq.
Qed.

Definition op_ok (op : LdstOp) : Prop := 0 < size op ≤ 8 ∧ (0 < nregs op ≤ 2)%nat.

Lemma first_element_found op va pa i :
  op_ok op → is_u64 pa → pa mod 4096 = va mod 4096 → 0 ≤ i < Z.of_nat (nregs op) →
  first_element_pa op va (u64 (pa + i * size op)) = Some pa.
Proof.
  intros [Hs Hn] Hpa Hm Hi. unfold first_element_pa.
  assert (Hu : ∀ z, u64 z mod 4096 = z mod 4096) by (intros; divlia).
  assert (Hback : u64 (u64 (pa + i * size op) - i * size op) = pa).
  { unfold u64 in *. rewrite Zminus_mod_idemp_l, Z.add_simpl_r. by apply Z.mod_small. }
  assert (i = 0 ∨ i = 1 ∧ nregs op = 2%nat) as [->|[-> Hn2]] by lia.
  - destruct (nregs op); [lia|]. cbn [first_element_from].
    rewrite page_offset_match, !Hu. change (0 * size op) with 0 in *. rewrite !Z.add_0_r in *.
    rewrite Hm, Z.eqb_refl. cbn [negb]. by rewrite Hback.
  - rewrite Hn2. cbn [first_element_from]. rewrite !page_offset_match, !Hu.
    change (0 * size op) with 0. change (0 + 1) with 1. rewrite !Z.mul_1_l in *.
    assert (va mod 4096 ≠ (pa + size op) mod 4096) as ?%Z.eqb_neq by divlia.
    rewrite Z.add_0_r, H. cbn [negb].
    assert ((va + size op) mod 4096 = (pa + size op) mod 4096) as ->
      by (rewrite <- Zplus_mod_idemp_l, <- Hm, Zplus_mod_idemp_l; done).
    rewrite Z.eqb_refl. cbn [negb]. by rewrite Hback.
Qed.

(** ** The effect of an emulated instruction *)
Lemma set_regs_lookup op regs vals env k :
  k ≠ 31 → (∀ r, r ∈ regs → 0 ≤ r) → 0 ≤ k → k ∉ regs →
  xregs (set_regs env op regs vals) !! Z.to_nat k = xregs env !! Z.to_nat k.
Proof.
  revert vals env. induction regs as [|r regs IH]; intros [|v vals] env Hk Hr Hk0 Hin; try done.
  simpl. rewrite IH by set_solver. unfold set_data_reg. case_match; [done|]. simpl.
  apply list_lookup_insert_ne. assert (0 ≤ r) by set_solver. assert (k ≠ r) by set_solver. lia.
Qed.

Lemma set_regs_31 op regs vals env :
  (∀ r, r ∈ regs → 0 ≤ r) → xregs (set_regs env op regs vals) !! 31%nat = xregs env !! 31%nat.
Proof.
  revert vals env. induction regs as [|r regs IH]; intros [|v vals] env Hr; try done.
  simpl. rewrite IH by set_solver. unfold set_data_reg. case_match; [done|]. simpl.
  apply list_lookup_insert_ne. assert (0 ≤ r) by set_solver. reflect_bools. lia.
Qed.

Lemma set_regs_length op regs vals env :
  length (xregs (set_regs env op regs vals)) = length (xregs env).
Proof.
  revert vals env. induction regs as [|r regs IH]; intros [|v vals] env; try done.
  simpl. rewrite IH. unfold set_data_reg. case_match; [done|]. simpl. by rewrite length_insert.
Qed.

Lemma set_regs_pc op regs vals env : pc (set_regs env op regs vals) = pc env.
Proof.
  revert vals env. induction regs as [|r regs IH]; intros [|v vals] env; try done.
  simpl. rewrite IH. unfold set_data_reg. by case_match.
Qed.

(** The registers an instruction may write. *)
Definition written_regs (op : LdstOp) : list Z :=
  (if load op then filter (λ r, r ≠ 31) (take (nregs op) (op_regs op)) else []) ++
  (if decide (mode op = ADDR_OFFSET) then [] else [rn op]).

Lemma write_back_effect env op base :
  is_reg (rn op) → length (xregs env) = 32%nat →
  pc (write_back env op base) = pc env ∧
  (mode op ≠ ADDR_OFFSET → xregs (write_back env op base) !! Z.to_nat (rn op) = Some (u64 (base + offset op))) ∧
  ∀ k, is_reg k → k ∉ (if decide (mode op = ADDR_OFFSET) then [] else [rn op]) →
    xregs (write_back env op base) !! Z.to_nat k = xregs env !! Z.to_nat k.
Proof.
  unfold is_reg, write_back. intros Hrn Hlen. destruct (decide (mode op = ADDR_OFFSET)); [done|].
  simpl. split; [done|split].
  - intros _. apply list_lookup_insert_eq. lia.
  - intros k Hk Hin. apply list_lookup_insert_ne. assert (k ≠ rn op) by set_solver. lia.
Qed.

Lemma op_of_regs i op :
  fields_ok i → op_of i = Some op →
  op_ok op ∧ is_reg (rn op) ∧ (∀ r, r ∈ take (nregs op) (op_regs op) → is_reg r).
Proof.
  unfold op_of, op_regs, op_ok. destruct i as [s o im x n t|o m l im r2 n t]; simpl.
  - intros (Hs & Ho & Him & Hx & Hn & Ht). destruct (single_width o s) as [[[??]?]|]; intros [= <-]. simpl.
    assert (s = 0 ∨ s = 1 ∨ s = 2 ∨ s = 3) as [->|[->|[->| ->]]] by lia;
      (split; [lia|split; [done|intros r ->%list_elem_of_singleton; done]]).
  - intros (Ho & Hm & Him & Hr2 & Hn & Ht). unfold pair_width.
    intros Hop. assert (∃ sz sg d64, (sz = 4 ∨ sz = 8) ∧
      op = mkLdst l sg d64 sz 2 t r2 n (im * sz) (addr_modes m)) as (sz & sg & d64 & Hsz & ->).
    { split_cases; eauto 10. }
    simpl. split; [lia|split; [done|]]. intros r Hr. set_solver.
Qed.

Lemma decode_regs insn op :
  is_u32 insn → decode insn = Some op →
  op_ok op ∧ is_reg (rn op) ∧ (∀ r, r ∈ take (nregs op) (op_regs op) → is_reg r).
Proof.
  intros Hv Hd. unfold decode in Hd.
  destruct (decode_single insn) eqn:E; simplify_eq.
  - destruct (decode_single_encoded _ _ Hv E) as (i & ? & _ & ?). by eapply op_of_regs.
  - destruct (decode_pair_encoded _ _ Hv Hd) as (i & ? & _ & ?). by eapply op_of_regs.
Qed.

Section effect.
Context {W : Type} (access : W → Z → Z → Z → bool → bool * Z * W).

Lemma do_access_effect env op pa w ok env' w' :
  do_access access env op pa w = (ok, env', w') →
  (∀ r, r ∈ take (nregs op) (op_regs op) → is_reg r) →
  pc env' = pc env ∧ length (xregs env') = length (xregs env) ∧ (ok = false → env' = env) ∧
  ∀ k, is_reg k →
    k ∉ (if load op then filter (λ r, r ≠ 31) (take (nregs op) (op_regs op)) else []) →
    xregs env' !! Z.to_nat k = xregs env !! Z.to_nat k.
Proof.
  unfold do_access. intros Hd Hr.
  destruct (access_elements access env op pa 0 _ w) as [[vals|] w1]; simplify_eq; [|done].
  destruct (load op); [|done]. rewrite set_regs_pc, set_regs_length. do 3 (split; [done|]).
  assert (∀ r, r ∈ take (nregs op) (op_regs op) → 0 ≤ r) as Hpos by (intros r [??]%Hr; done).
  intros k Hk Hin. destruct (decide (k = 31)) as [->|]; [by apply set_regs_31|].
  apply set_regs_lookup; [done|done|apply Hk|]. intros Hi. apply Hin. by apply list_elem_of_filter.
Qed.

(** C35: an emulation that reports failure leaves the CPU state as it was; one
    that reports success has advanced the PC by one instruction, has written the
    new base back exactly when the addressing mode asks for it, and has changed no
    register besides that base and, for a load, the data registers (never the
    zero register). *)
Theorem emulate_effect env insn fault_pa w ok env' w' :
  is_u32 insn → length (xregs env) = 32%nat →
  arm_emulate_ldst access env insn fault_pa w = (ok, env', w') →
  if ok then
    ∃ op base, decode insn = Some op ∧ xregs env !! Z.to_nat (rn op) = Some base ∧
      pc env' = u64 (pc env + 4) ∧
      (mode op ≠ ADDR_OFFSET → xregs env' !! Z.to_nat (rn op) = Some (u64 (base + offset op))) ∧
      ∀ k, is_reg k → k ∉ written_regs op → xregs env' !! Z.to_nat k = xregs env !! Z.to_nat k
  else env' = env.
Proof.
  intros Hv Hlen. unfold arm_emulate_ldst. destruct (decode insn) as [op|] eqn:Ed; [|by intros [= <- <- <-]].
  destruct (decode_regs _ _ Hv Ed) as (_ & Hrn & Hregs). cbv zeta.
  destruct (lookup_lt_is_Some_2 (xregs env) (Z.to_nat (rn op))) as [base Eb]; [unfold is_reg in *; lia|].
  rewrite Eb. cbn [default from_option id].
  destruct (first_element_pa _ _ _) as [pa|]; [|by intros [= <- <- <-]].
  destruct (do_access access env op pa w) as [[ok1 env1] w1] eqn:Ea.
  destruct (do_access_effect _ _ _ _ _ _ _ Ea Hregs) as (Hpc & Hl1 & Hfail & Hkeep).
  destruct ok1; intros [= <- <- <-]; [|by apply Hfail].
  exists op, base. split; [done|split; [done|]].
  destruct (write_back_effect env1 op base Hrn) as (Hpc2 & Hwb & Hk2); [congruence|].
  simpl. rewrite Hpc2, Hpc. do 2 (split; [done|]).
  intros k Hk [Hin1 Hin2]%not_elem_of_app. rewrite Hk2 by done. by apply Hkeep.
Qed.

End effect.

Definition demo_env : CPUARMState :=
  mkEnv (replicate 8 0 ++ [0x0ffc] ++ [0x1122334455667788] ++ replicate 21 0 ++ [0x1100]) 0x8000.
Definition demo_ram : Ram := mkRam 0x1000 (replicate 0x200 0).

(** str w9, [x8, #0x80]! *)
Lemma emulate_effect_witness :
  let r := arm_emulate_ldst whpx_ldst_access demo_env 0xb8080d09 0x107c demo_ram in
  r.1.1 = true ∧ pc r.1.2 = 0x8004 ∧ xregs r.1.2 !! 8%nat = Some 0x107c.
Proof.
  intros r. assert (r = (true, r.1.2, r.2)) as E by (vm_compute; reflexivity).
  split; [by rewrite E|].
  destruct (emulate_effect whpx_ldst_access demo_env 0xb8080d09 0x107c demo_ram true r.1.2 r.2
    ltac:(unfold is_u32; lia) eq_refl E) as (op & base & Hd & Hb & Hpc & Hwb & _).
  split; [exact Hpc|]. vm_compute in Hd. injection Hd as <-. vm_compute in Hb. injection Hb as <-.
  exact (Hwb ltac:(done)).
Defined.

(** ** Storing a pair and loading it back *)
Section pairs.
Context {M : Type} `{Dma M, !DmaLaws M, !RamLaws M}.

Lemma whpx_store m pa v v' m' :
  whpx_ldst_access m pa v 8 true = (true, v', m') → dma_memory_write m pa (le_bytes 8 v) = (MEMTX_OK, m').
Proof.
  unfold whpx_ldst_access. change (Z.to_nat 8) with 8%nat.
  destruct (dma_memory_write m pa _) as [r m1]. intros [= E%Z.eqb_eq _ ->]. by rewrite E.
Qed.

Lemma whpx_load m pa v :
  is_u64 v → dma_memory_read m pa (le_bytes 8 0) = (MEMTX_OK, le_bytes 8 v) →
  whpx_ldst_access m pa 0 8 false = (true, v, m).
Proof.
  intros Hv E. unfold whpx_ldst_access. change (Z.to_nat 8) with 8%nat. rewrite E. f_equal. f_equal.
  rewrite drop_ge by len. rewrite app_nil_r, le_val_bytes. by apply Z.mod_small.
Qed.

(** STP rt, rt2, [rn, #8 * k]! and LDP rt, rt2, [rn], #-8 * k *)
Definition push_op (k rn rt rt2 : Z) : LdstOp := mkLdst false false true 8 2 rt rt2 rn (k * 8) ADDR_PRE.
Definition pop_op (k rn rt rt2 : Z) : LdstOp := mkLdst true false true 8 2 rt rt2 rn (- k * 8) ADDR_POST.

Lemma push_accesses env k n t t2 pa (m m' : M) vals :
  access_elements whpx_ldst_access env (push_op k n t t2) pa 0 [t; t2] m = (Some vals, m') →
  is_ram m pa 8 = true → is_ram m (pa + 8) 8 = true → is_u64 pa → pa + 8 < 2 ^ 64 → is_u64 (data_reg env t) → is_u64 (data_reg env t2) →
  ∀ env', access_elements whpx_ldst_access env' (pop_op k n t t2) pa 0 [t; t2] m' =
    (Some [data_reg env t; data_reg env t2], m').
Proof.
  intros Hs Hr1 Hr2 Hpa Hpa8 H1 H2 env'. cbn [access_elements push_op pop_op load size negb] in *.
  change (0 * 8) with 0 in *. change ((0 + 1) * 8) with 8 in *. rewrite Z.add_0_r, (u64_small pa Hpa) in *.
  rewrite (u64_small (pa + 8)) in * by (unfold is_u64 in *; lia).
  destruct (whpx_ldst_access m pa _ _ _) as [[[] v1] m1] eqn:E1; [|done]. cbn [negb] in Hs.
  destruct (whpx_ldst_access m1 (pa + 8) _ _ _) as [[[] v2] m2] eqn:E2; [|done]. cbn [negb] in Hs.
  injection Hs as _ ->.
  apply whpx_store in E1, E2. assert (∀ x n, is_ram m1 x n = is_ram m x n) as Hk by (intros x y; eapply (dma_ram_kept m pa (le_bytes 8 (data_reg env t))); [exact Hr1|exact E1]).
  assert (dma_memory_read m' pa (le_bytes 8 0) = (MEMTX_OK, le_bytes 8 (data_reg env t))) as R1.
  { rewrite (dma_read_frame m1 (pa + 8) (le_bytes 8 (data_reg env t2)) MEMTX_OK m'); [|by rewrite Hk..|exact E2|left; len].
    eapply dma_read_written; [exact Hr1|exact E1|len|apply le_bytes_u8]. }
  rewrite (whpx_load m' pa (data_reg env t)) by done. cbn [negb].
  rewrite (whpx_load m' (pa + 8) (data_reg env t2)); [done|done|].
  eapply dma_read_written; [rewrite Hk; exact Hr2|exact E2|len|apply le_bytes_u8].
Qed.

Lemma push_decode k n t t2 :
  fields_ok (Pair 2 3 false k t2 n t) →
  decode (encode (Pair 2 3 false k t2 n t)) = Some (push_op k n t t2).
Proof. apply encode_pair_word. Qed.

Lemma pop_decode k n t t2 :
  fields_ok (Pair 2 1 true (- k) t2 n t) →
  decode (encode (Pair 2 1 true (- k) t2 n t)) = Some (pop_op k n t t2).
Proof. apply encode_pair_word. Qed.

Lemma data_reg_u64 env r : Forall is_u64 (xregs env) → is_u64 (data_reg env r).
Proof.
  intros Hf. unfold data_reg. case_match; [done|].
  destruct (xregs env !! Z.to_nat r) eqn:E; [|done]. by eapply Forall_lookup_1.
Qed.

Lemma data_reg_set_eq env r v :
  is_reg r → length (xregs env) = 32%nat → (r = 31 → v = 0) → data_reg (set_data_reg env r v) r = v.
Proof.
  unfold is_reg, data_reg, set_data_reg. intros Hr Hl Hv.
  destruct (Z.eqb_spec r 31); [by rewrite Hv|]. simpl. rewrite list_lookup_insert_eq by lia. done.
Qed.

Lemma set_reg_lookup_ne env r v x :
  is_reg r → is_reg x → x ≠ r → xregs (set_data_reg env r v) !! Z.to_nat x = xregs env !! Z.to_nat x.
Proof.
  unfold is_reg, set_data_reg. intros. case_match; [done|]. simpl. apply list_lookup_insert_ne. lia.
Qed.

Lemma data_reg_ext env env' x :
  xregs env !! Z.to_nat x = xregs env' !! Z.to_nat x → data_reg env x = data_reg env' x.
Proof. unfold data_reg. by intros ->. Qed.

Lemma data_reg_31 env r : r = 31 → data_reg env r = 0.
Proof. by intros ->. Qed.

Lemma length_set_data_reg env r v : length (xregs (set_data_reg env r v)) = length (xregs env).
Proof. unfold set_data_reg. case_match; [done|]. simpl. by rewrite length_insert. Qed.

Lemma push_result env k n t t2 base pa i (m m1 : M) env1 :
  length (xregs env) = 32%nat → Forall is_u64 (xregs env) → fields_ok (Pair 2 3 false k t2 n t) →
  xregs env !! Z.to_nat n = Some base → is_ram m pa 8 = true → is_ram m (pa + 8) 8 = true → is_u64 pa → pa + 8 < 2 ^ 64 →
  pa mod 4096 = u64 (base + k * 8) mod 4096 → 0 ≤ i < 2 →
  arm_emulate_ldst whpx_ldst_access env (encode (Pair 2 3 false k t2 n t)) (u64 (pa + i * 8)) m =
    (true, env1, m1) →
  xregs env1 !! Z.to_nat n = Some (u64 (base + k * 8)) ∧
  ∀ env', access_elements whpx_ldst_access env' (pop_op k n t t2) pa 0 [t; t2] m1 =
    (Some [data_reg env t; data_reg env t2], m1).
Proof.
  intros Hl Hu Hf Hbase Hr1 Hr2 Hpa Hpa8 Hoff Hi. pose proof Hf as (_ & _ & _ & _ & Hn & _).
  unfold arm_emulate_ldst. rewrite push_decode by done. cbv zeta.
  cbn [push_op rn offset mode]. rewrite Hbase. cbn [default from_option id].
  rewrite decide_False by done.
  change (i * 8) with (i * size (push_op k n t t2)).
  rewrite (first_element_found (push_op k n t t2) _ pa i) by (done || (unfold op_ok; simpl; lia)).
  unfold do_access. cbn [push_op nregs op_regs take rt rt2 load].
  destruct (access_elements whpx_ldst_access env _ pa 0 [t; t2] m) as [[vals|] w1] eqn:Ea; [|done].
  intros [= <- <-]. split.
  - simpl. apply list_lookup_insert_eq. unfold is_reg in Hn. lia.
  - eapply push_accesses; eauto using data_reg_u64.
Qed.

Lemma pop_result env k n t t2 b v1 v2 pa j (m : M) :
  length (xregs env) = 32%nat → fields_ok (Pair 2 1 true (- k) t2 n t) → t ≠ n → t2 ≠ n → t ≠ t2 →
  xregs env !! Z.to_nat n = Some b → is_u64 pa → pa mod 4096 = b mod 4096 → 0 ≤ j < 2 →
  (t = 31 → v1 = 0) → (t2 = 31 → v2 = 0) →
  access_elements whpx_ldst_access env (pop_op k n t t2) pa 0 [t; t2] m = (Some [v1; v2], m) →
  ∃ env3,
    arm_emulate_ldst whpx_ldst_access env (encode (Pair 2 1 true (- k) t2 n t)) (u64 (pa + j * 8)) m =
      (true, env3, m) ∧
    data_reg env3 t = v1 ∧ data_reg env3 t2 = v2 ∧ xregs env3 !! Z.to_nat n = Some (u64 (b + - k * 8)).
Proof.
  intros Hl Hf Htn Ht2n Htt Hb Hpa Hoff Hj H31 H31' Ha. pose proof Hf as (_ & _ & _ & Ht2 & Hn & Ht).
  unfold arm_emulate_ldst. rewrite pop_decode by done. cbv zeta.
  cbn [pop_op rn offset mode]. rewrite Hb. cbn [default from_option id].
  rewrite decide_True by done. change (j * 8) with (j * size (pop_op k n t t2)).
  rewrite (first_element_found (pop_op k n t t2) _ pa j) by (done || (unfold op_ok; simpl; lia)).
  unfold do_access. cbn [pop_op nregs op_regs take rt rt2 load].
  change (mkLdst true false true 8 2 t t2 n (- k * 8) ADDR_POST) with (pop_op k n t t2). rewrite Ha.
  change (set_regs env (pop_op k n t t2) [t; t2] [v1; v2]) with (set_data_reg (set_data_reg env t v1) t2 v2).
  eexists. split; [done|]. unfold write_back. rewrite decide_False by done. cbn [pop_op rn offset].
  assert (∀ (e : CPUARMState) w z x, is_reg x → x ≠ n → data_reg (e <| xregs := <[Z.to_nat n := w]> (xregs e) |> <| pc := z |>) x
    = data_reg e x) as Hwb.
  { intros e w z x Hx Hxn. apply data_reg_ext. simpl. apply list_lookup_insert_ne. unfold is_reg in *. lia. }
  rewrite !Hwb by done. split_and!.
  - rewrite (data_reg_ext _ (set_data_reg env t v1)) by (by apply set_reg_lookup_ne).
    by apply data_reg_set_eq.
  - apply data_reg_set_eq; [done|by rewrite length_set_data_reg|done].
  - simpl. apply list_lookup_insert_eq. rewrite !length_set_data_reg. unfold is_reg in *. lia.
Qed.

(** On RAM, the stack idiom the
    emulation exists for works: after an emulated "STP t, t2, [n, #8k]!" the
    emulated "LDP t, t2, [n], #-8k" succeeds, gives both registers the stored
    values back whatever they held in between, restores the base register, and
    leaves memory alone.  It does not matter which of the two elements the abort
    was reported for. *)
Theorem push_pop env env2 k n t t2 base pa i j (m m1 : M) env1 :
  length (xregs env) = 32%nat → length (xregs env2) = 32%nat → Forall is_u64 (xregs env) →
  fields_ok (Pair 2 3 false k t2 n t) → -63 ≤ k → t ≠ n → t2 ≠ n → t ≠ t2 →
  xregs env !! Z.to_nat n = Some base → is_ram m pa 8 = true → is_ram m (pa + 8) 8 = true →
  is_u64 pa → pa + 8 < 2 ^ 64 → pa mod 4096 = u64 (base + k * 8) mod 4096 →
  0 ≤ i < 2 → 0 ≤ j < 2 →
  arm_emulate_ldst whpx_ldst_access env (encode (Pair 2 3 false k t2 n t)) (u64 (pa + i * 8)) m =
    (true, env1, m1) →
  xregs env2 !! Z.to_nat n = xregs env1 !! Z.to_nat n →
  ∃ env3,
    arm_emulate_ldst whpx_ldst_access env2 (encode (Pair 2 1 true (- k) t2 n t)) (u64 (pa + j * 8)) m1 =
      (true, env3, m1) ∧
    data_reg env3 t = data_reg env t ∧ data_reg env3 t2 = data_reg env t2 ∧
    xregs env3 !! Z.to_nat n = Some base.
Proof.
  intros Hl Hl2 Hu Hf Hk Htn Ht2n Htt Hbase Hr1 Hr2 Hpa Hpa8 Hoff Hi Hj Hpush Hn2.
  destruct (push_result _ _ _ _ _ _ _ _ _ _ _ Hl Hu Hf Hbase Hr1 Hr2 Hpa Hpa8 Hoff Hi Hpush) as [Hb Ha].
  pose proof Hf as (_ & _ & Hk' & Ht2 & Hn & Ht).
  destruct (pop_result env2 k n t t2 (u64 (base + k * 8)) (data_reg env t) (data_reg env t2) pa j m1)
    as (env3 & He & H1 & H2 & H3); try done || congruence || (by intros; apply data_reg_31).
  { split_and!; done || lia. }
  exists env3. do 3 (split; [done|]). rewrite H3. f_equal.
  assert (Hbu : is_u64 base) by (by eapply Forall_lookup_1).
  unfold u64, is_u64 in *. rewrite Zplus_mod_idemp_l.
  replace (base + k * 8 + - k * 8) with base by lia. by apply Z.mod_small.
Qed.
(** *** What a load leaves in its register *)

(** The loads: bits read, whether they are sign-extended, and the width of the register. *)
Definition load_shape (m : single_insn) : option (Z * bool * Z) :=
  match m with
  | LDRB => Some (8, false, 32) | LDRSB_X => Some (8, true, 64) | LDRSB_W => Some (8, true, 32)
  | LDRH => Some (16, false, 32) | LDRSH_X => Some (16, true, 64) | LDRSH_W => Some (16, true, 32)
  | LDR_W => Some (32, false, 32) | LDRSW => Some (32, true, 64) | LDR_X => Some (64, false, 64)
  | _ => None
  end.

Lemma le_bytes_0 n : le_bytes n 0 = replicate n 0.
Proof. induction n as [|n IH]; [done|]. simpl. by rewrite Z.shiftr_0_l, IH. Qed.

Lemma le_val_zeros bs k : le_val (bs ++ replicate k 0) = le_val bs.
Proof.
  induction bs as [|b bs IH]; simpl; [|by rewrite IH].
  induction k as [|k IH]; simpl; [done|]. by rewrite IH.
Qed.

Lemma whpx_load_bytes (m : M) pa size bs :
  0 < size ≤ 8 → dma_memory_read m pa (replicate (Z.to_nat size) 0) = (MEMTX_OK, bs) →
  whpx_ldst_access m pa 0 size false = (true, le_val bs, m).
Proof.
  intros Hs E. unfold whpx_ldst_access. rewrite le_bytes_0, E, le_bytes_0. cbn [Z.eqb].
  by rewrite drop_replicate, le_val_zeros.
Qed.

Lemma loaded_range (m : M) pa size bs :
  0 < size → dma_memory_read m pa (replicate (Z.to_nat size) 0) = (MEMTX_OK, bs) → 0 ≤ le_val bs < 2 ^ (size * 8).
Proof.
  intros Hs E. pose proof (dma_read_length m pa (replicate (Z.to_nat size) 0)) as Hl.
  pose proof (dma_read_byte m pa (replicate (Z.to_nat size) 0)) as Hu. rewrite E in Hl, Hu.
  rewrite length_replicate in Hl. simpl in Hl, Hu.
  assert (Forall is_u8 bs) as Hb by (apply Hu, Forall_replicate; unfold is_u8; lia).
  pose proof (le_val_range bs Hb) as Hr. rewrite Hl, Z2Nat.id in Hr by lia. by rewrite Z.mul_comm.
Qed.

Lemma extend_loaded op v :
  0 < size op ≤ 8 → 0 ≤ v < 2 ^ (size op * 8) →
  extend op v = (if sign op then signed (size op * 8) v else v) mod (if dst64 op then 2 ^ 64 else 2 ^ 32).
Proof.
  intros Hs Hv. assert (2 ^ (size op * 8) ≤ 2 ^ 64) by (apply Z.pow_le_mono_r; lia).
  unfold extend. destruct (sign op).
  - rewrite sextract64_eq, Z.div_1_r, Z.mod_small by lia.
    destruct (dst64 op); [done|]. unfold u32, u64. apply Z.mod_mod_divide. by exists (2 ^ 32).
  - destruct (dst64 op); [|done]. symmetry. apply Z.mod_small. lia.
Qed.

Definition address_of (a : addressing) (base imm : Z) : Z :=
  match a with PostIndex => base | _ => u64 (base + imm) end.

Lemma load_shape_op m a im n t bits sg width :
  load_shape m = Some (bits, sg, width) →
  let op := meaning (Single m a im n t) in
  op = mkLdst true sg (dst64 op) (bits / 8) 1 t (-1) n im (mode_of a) ∧ 0 < bits / 8 ≤ 8 ∧ bits / 8 * 8 = bits ∧
  (if dst64 op then 2 ^ 64 else 2 ^ 32) = 2 ^ width.
Proof. destruct m; intros E; try discriminate E; injection E as <- <- <-; split_and!; done || lia. Qed.

Lemma emulate_load_one insn sg x sz t n im md env base pa v (mem : M) :
  let op := mkLdst true sg x sz 1 t (-1) n im md in
  decode insn = Some op → 0 < sz ≤ 8 → length (xregs env) = 32%nat → xregs env !! Z.to_nat n = Some base →
  is_u64 pa → pa mod 4096 = (if decide (md = ADDR_POST) then base else u64 (base + im)) mod 4096 →
  whpx_ldst_access mem pa 0 sz false = (true, v, mem) →
  is_reg t → t ≠ 31 → 0 ≤ n → t ≠ n ∨ md = ADDR_OFFSET →
  ∃ env', arm_emulate_ldst whpx_ldst_access env insn pa mem = (true, env', mem) ∧
    xregs env' !! Z.to_nat t = Some (extend op v) ∧ pc env' = u64 (pc env + 4).
Proof.
  intros op Hd Hsz Hlen Hb Hpa Hoff Hac Ht Ht31 Hn Htn. unfold arm_emulate_ldst. rewrite Hd. cbv zeta. subst op.
  cbn [rn mode offset]. rewrite Hb. cbn [default from_option id].
  set (op := mkLdst true sg x sz 1 t (-1) n im md) in *.
  assert (first_element_pa op (if decide (md = ADDR_POST) then base else u64 (base + im)) pa = Some pa) as ->.
  { pose proof (first_element_found op (if decide (md = ADDR_POST) then base else u64 (base + im)) pa 0) as H1.
    rewrite Z.mul_0_l, Z.add_0_r, (u64_small pa Hpa) in H1. apply H1; try done. split; simpl; lia. }
  unfold do_access. cbn [op nregs op_regs rt rt2 take access_elements load negb size].
  rewrite Z.mul_0_l, Z.add_0_r, (u64_small pa Hpa), Hac. cbn [negb set_regs].
  eexists. split; [reflexivity|]. fold op. unfold set_data_reg, write_back.
  destruct (Z.eqb_spec t 31); [done|]. cbn [mode op rn offset]. unfold is_reg in Ht.
  destruct (decide (md = ADDR_OFFSET)); simpl; (split; [|done]).
  - apply list_lookup_insert_eq. lia.
  - destruct Htn; [|done]. rewrite list_lookup_insert_ne by lia. apply list_lookup_insert_eq. lia.
Qed.

(** What an emulated load reads.  A load of one register from memory that answers
    succeeds, leaves memory alone, advances the PC, and puts into the data register
    the little-endian value of the bytes read, sign- or zero-extended to the
    register's width as the instruction says. *)
Theorem load_value m a im n t bits sg width env base pa bs (mem : M) :
  load_shape m = Some (bits, sg, width) → fields_ok (fields_of (Single m a im n t)) →
  length (xregs env) = 32%nat → xregs env !! Z.to_nat n = Some base →
  is_u64 pa → pa mod 4096 = address_of a base im mod 4096 →
  dma_memory_read mem pa (replicate (Z.to_nat (bits / 8)) 0) = (MEMTX_OK, bs) →
  t ≠ 31 → t ≠ n ∨ mode_of a = ADDR_OFFSET →
  ∃ env', arm_emulate_ldst whpx_ldst_access env (encode (fields_of (Single m a im n t))) pa mem = (true, env', mem) ∧
    xregs env' !! Z.to_nat t = Some ((if sg then signed bits (le_val bs) else le_val bs) mod 2 ^ width) ∧
    pc env' = u64 (pc env + 4).
Proof.
  intros Hm Hf Hlen Hb Hpa Hoff Hrd Ht Htn.
  destruct (load_shape_op m a im n t bits sg width Hm) as (Eop & Hsz & Hbits & Hw).
  pose proof (encode_imm9_word _ _ _ _ _ _ Hf) as Hd.
  change (Imm9 _ _ _ _ _ _) with (fields_of (Single m a im n t)) in Hd. rewrite meaning_sound, Eop in Hd.
  pose proof (loaded_range mem pa (bits / 8) bs (proj1 Hsz) Hrd) as Hv. rewrite Hbits in Hv.
  destruct Hf as (_ & _ & _ & _ & Hn & Htr).
  destruct (emulate_load_one (encode (fields_of (Single m a im n t))) sg (dst64 (meaning (Single m a im n t)))
    (bits / 8) t n im (mode_of a) env base pa (le_val bs) mem) as (env' & E & Hx & Hpc); try done.
  - rewrite Hoff. unfold address_of. by destruct a.
  - by apply whpx_load_bytes.
  - by destruct Hn.
  - exists env'. split; [done|]. split; [|done]. rewrite Hx, extend_loaded by (cbn [size]; rewrite ?Hbits; done).
    cbn [size sign dst64]. by rewrite Hbits, Hw.
Qed.
End pairs.

(** stp x9, x30, [sp, #-16]! ... ldp x9, x30, [sp], #16, the store reported for
    its second element. *)
Definition pushed_env : CPUARMState := mkEnv (replicate 31 7 ++ [0x10f0]) 0x9000.
Lemma push_pop_witness :
  let r := arm_emulate_ldst whpx_ldst_access demo_env (encode (Pair 2 3 false (-2) 30 31 9)) (u64 (0x10f0 + 1 * 8)) demo_ram in
  ∃ env3,
    arm_emulate_ldst whpx_ldst_access pushed_env (encode (Pair 2 1 true (- -2) 30 31 9)) (u64 (0x10f0 + 0 * 8)) r.2 =
      (true, env3, r.2) ∧
    data_reg env3 9 = 0x1122334455667788 ∧ data_reg env3 30 = 0 ∧ xregs env3 !! 31%nat = Some 0x1100.
Proof.
  intros r. assert (r = (true, r.1.2, r.2)) as E by (vm_compute; reflexivity).
  refine (push_pop demo_env pushed_env (-2) 31 9 30 0x1100 0x10f0 1 0 demo_ram r.2 r.1.2
    eq_refl eq_refl _ _ _ _ _ _ eq_refl eq_refl eq_refl _ _ eq_refl _ _ E _); try lia.
  - decide_done.
  - unfold fields_ok, is_reg. lia.
  - unfold is_u64. lia.
  - vm_compute. reflexivity.
Defined.

(** ldrsh w3, [x8, #-2]: the two bytes 0xfe 0xff are minus 2. *)
Lemma load_value_witness :
  ∃ env', arm_emulate_ldst whpx_ldst_access demo_env (encode (fields_of (Single LDRSH_W Plain (-2) 8 3))) 0x1ffa
      (mkRam 0x1ff0 (replicate 10 0 ++ [0xfe; 0xff] ++ replicate 4 0)) =
      (true, env', mkRam 0x1ff0 (replicate 10 0 ++ [0xfe; 0xff] ++ replicate 4 0)) ∧
    xregs env' !! 3%nat = Some 0xfffffffe ∧ pc env' = 0x8004.
Proof.
  apply (load_value LDRSH_W Plain (-2) 8 3 16 true 32 demo_env 0x0ffc 0x1ffa [0xfe; 0xff]);
    try (vm_compute; reflexivity); [unfold fields_ok, is_reg; simpl; lia|unfold is_u64; lia|discriminate|left; discriminate].
Defined.
