(* ===== verification/Cfg.v ===== *)
(** The VMApple configuration region, src/qemu/hw/vmapple/cfg.c.

    The structure the guest firmware reads is kept as a record with the fields of
    the source; [cfg_fields] lists them in memory order, so that offsets are the
    prefix sums of the field sizes (no field needs alignment padding beyond the
    explicit pad arrays).  The region itself is a byte list.  Strings are their
    characters without the terminating NUL; an unset property is [None]. *)
From S2P Require Import Prelude.

Definition VMAPPLE_CFG_SIZE : Z := 0x10000.

Record VMAppleCfg := mkCfg {
  version : Z; nr_cpus : Z; unk1 : Z; unk2 : Z; unk3 : Z; unk4 : Z;
  ecid : Z; ram_size : Z;
  run_installer1 : Z; unk5 : Z; unk6 : Z; run_installer2 : Z; rnd : Z; unk7 : Z;
  mac_en0 : list Z; pad1 : list Z; mac_en1 : list Z; pad2 : list Z;
  mac_wifi0 : list Z; pad3 : list Z; mac_bt0 : list Z; pad4 : list Z;
  reserved : list Z; cpu_ids : list Z; scratch : list Z;
  serial : list Z; unk8 : list Z; model : list Z; unk9 : list Z; unk10 : Z;
  soc_name : list Z; pad_seed : list Z; seed : list Z
}.
#[export] Instance eta_cfg : Settable VMAppleCfg := λ r,
  mkCfg (version r) (nr_cpus r) (unk1 r) (unk2 r) (unk3 r) (unk4 r) (ecid r) (ram_size r)
    (run_installer1 r) (unk5 r) (unk6 r) (run_installer2 r) (rnd r) (unk7 r)
    (mac_en0 r) (pad1 r) (mac_en1 r) (pad2 r) (mac_wifi0 r) (pad3 r) (mac_bt0 r) (pad4 r)
    (reserved r) (cpu_ids r) (scratch r) (serial r) (unk8 r) (model r) (unk9 r) (unk10 r)
    (soc_name r) (pad_seed r) (seed r).

(** The bytes of the structure, field by field. *)
Definition cfg_fields (c : VMAppleCfg) : list (list Z) :=
  [le_bytes 4 (version c); le_bytes 4 (nr_cpus c); le_bytes 4 (unk1 c); le_bytes 4 (unk2 c);
   le_bytes 4 (unk3 c); le_bytes 4 (unk4 c); le_bytes 8 (ecid c); le_bytes 8 (ram_size c);
   le_bytes 4 (run_installer1 c); le_bytes 4 (unk5 c); le_bytes 4 (unk6 c);
   le_bytes 4 (run_installer2 c); le_bytes 4 (rnd c); le_bytes 4 (unk7 c);
   mac_en0 c; pad1 c; mac_en1 c; pad2 c; mac_wifi0 c; pad3 c; mac_bt0 c; pad4 c;
   reserved c; words_bytes 4 (cpu_ids c); scratch c; serial c; unk8 c; model c; unk9 c;
   le_bytes 4 (unk10 c); soc_name c; pad_seed c; seed c].
Definition cfg_sizes : list nat :=
  [4; 4; 4; 4; 4; 4; 8; 8; 4; 4; 4; 4; 4; 4; 6; 2; 6; 2; 6; 2; 6; 2; 0xa0; 0x200; 0x200;
   32; 32; 32; 32; 4; 32; 0x24; 64]%nat.
Definition cfg_bytes (c : VMAppleCfg) : list Z := concat (cfg_fields c).
Definition cfg_offset (i : nat) : nat := sum_list (take i cfg_sizes).

(** The state of the device: the template, the guest-visible RAM region and the
    string properties. *)
Record VMAppleCfgState := mkCfgState {
  cfg : VMAppleCfg; mem : list Z;
  serial_prop : option (list Z); model_prop : option (list Z); soc_name_prop : option (list Z);
  production_mode : bool
}.
#[export] Instance eta_cfgstate : Settable VMAppleCfgState := λ r,
  mkCfgState (cfg r) (mem r) (serial_prop r) (model_prop r) (soc_name_prop r) (production_mode r).

Definition vmapple_cfg_reset (s : VMAppleCfgState) : VMAppleCfgState :=
  s <| mem := splice 0 (cfg_bytes (cfg s)) (replicate (Z.to_nat VMAPPLE_CFG_SIZE) 0) |>.

(** g_strlcpy: at most [n - 1] characters and a NUL; the rest of [dst] stays. *)
Definition g_strlcpy (dst src : list Z) : list Z * nat :=
  (splice 0 (take (length dst - 1) src ++ [0]) dst, length src).

(** The buffer after the call and whether the value fitted. *)
Definition set_fixlen_property_or_error (dst src : list Z) : list Z * bool :=
  let '(dst', len) := g_strlcpy dst src in (dst', bool_decide (len < length dst)%nat).

Inductive cfg_error := TooLong (property_name : string) | TooManyCpus (n : Z).

(** [set_fixlen_property_or_return]: store the buffer, then go on or return. *)
Definition set_prop (dst src : list Z) (store : list Z → VMAppleCfg → VMAppleCfg) (name : string)
    (s : VMAppleCfgState) : VMAppleCfgState * option cfg_error :=
  let '(dst', ok) := set_fixlen_property_or_error dst src in
  (s <| cfg := store dst' (cfg s) |>, if ok then None else Some (TooLong name)).

Definition and_then (r : VMAppleCfgState * option cfg_error)
    (k : VMAppleCfgState → VMAppleCfgState * option cfg_error) :=
  match r with (s, None) => k s | (s, Some e) => (s, Some e) end.

Fixpoint set_cpu_ids (i n : nat) (ids : list Z) : list Z :=
  match n with O => ids | S n => set_cpu_ids (S i) n (<[i := Z.of_nat i]> ids) end.

Definition default_props (s : VMAppleCfgState) : VMAppleCfgState :=
  s <| serial_prop := Some (default (str "1234") (serial_prop s)) |>
    <| model_prop := Some (default (str "VM0001") (model_prop s)) |>
    <| soc_name_prop := Some (default (str "Apple M1 (Virtual)") (soc_name_prop s)) |>.

(** The assignments after the string properties (version, unk1 to unk7, unk10
    and the seed, the other fields kept); [rand] is what the random source
    returned for the seed. *)
Definition assign_fields (production : bool) (rand : list Z) (c : VMAppleCfg) : VMAppleCfg :=
  mkCfg 2 (nr_cpus c) (if production then 1 else 0) 1 0x20 0 (ecid c) (ram_size c)
    (run_installer1 c) 1 1 (run_installer2 c) (rnd c) 0
    (mac_en0 c) (pad1 c) (mac_en1 c) (pad2 c) (mac_wifi0 c) (pad3 c) (mac_bt0 c) (pad4 c)
    (reserved c) (cpu_ids c) (scratch c) (serial c) (unk8 c) (model c) (unk9 c) 1
    (soc_name c) (pad_seed c) rand.

Definition fill_cfg (rand : list Z) (s : VMAppleCfgState) : VMAppleCfgState * option cfg_error :=
  let c := assign_fields (production_mode s) rand (cfg s) in
  if Z.of_nat (length (cpu_ids c)) <? nr_cpus c
  then (s <| cfg := c |>, Some (TooManyCpus (nr_cpus c)))
  else (s <| cfg := c <| cpu_ids := set_cpu_ids 0 (Z.to_nat (nr_cpus c)) (cpu_ids c) |> |>, None).

Definition vmapple_cfg_realize (rand : list Z) (s : VMAppleCfgState) : VMAppleCfgState * option cfg_error :=
  let s := default_props s in
  and_then (set_prop (serial (cfg s)) (default [] (serial_prop s)) (λ d c, c <| serial := d |>) "serial" s) (λ s,
  and_then (set_prop (model (cfg s)) (default [] (model_prop s)) (λ d c, c <| model := d |>) "model" s) (λ s,
  and_then (set_prop (soc_name (cfg s)) (default [] (soc_name_prop s)) (λ d c, c <| soc_name := d |>) "soc_name" s) (λ s,
  and_then (set_prop (unk8 (cfg s)) (str "D/A") (λ d c, c <| unk8 := d |>) "unk8" s) (λ s,
  fill_cfg rand s)))).

(** A new device: everything zero but the defaults of the properties. *)
Definition zero_cfg : VMAppleCfg :=
  mkCfg 0 1 0 0 0 0 0 0 0 0 0 0 0 0 (replicate 6 0) [0; 0] (replicate 6 0) [0; 0] (replicate 6 0) [0; 0]
    (replicate 6 0) [0; 0] (replicate 0xa0 0) (replicate 0x80 0) (replicate 0x200 0)
    (replicate 32 0) (replicate 32 0) (replicate 32 0) (replicate 32 0) 0 (replicate 32 0)
    (replicate 0x24 0) (replicate 64 0).
Definition vmapple_cfg_init : VMAppleCfgState :=
  mkCfgState zero_cfg (replicate (Z.to_nat VMAPPLE_CFG_SIZE) 0) None None None true.

(** ** The layout *)
Definition cfg_wf (c : VMAppleCfg) : Prop := length <$> cfg_fields c = cfg_sizes.
#[export] Instance cfg_wf_dec c : Decision (cfg_wf c).
Proof. unfold cfg_wf. apply _. Defined.

Lemma concat_slice {A} (ls : list (list A)) i x :
  ls !! i = Some x → slice (sum_list (take i (length <$> ls))) (length x) (concat ls) = x.
Proof.
  revert i. induction ls as [|l ls IH]; intros [|i]; simpl; [done|done| |].
  - intros [= ->]. unfold slice. by rewrite drop_0, take_app_length.
  - intros Hi. rewrite <- (IH i Hi) at 2. unfold slice. by rewrite drop_app_add.
Qed.

Lemma length_concat_sum {A} (ls : list (list A)) : length (concat ls) = sum_list (length <$> ls).
Proof. induction ls; simpl; [done|]. by rewrite length_app, IHls. Qed.

Lemma cfg_bytes_length c : cfg_wf c → length (cfg_bytes c) = 0x608%nat.
Proof. unfold cfg_wf, cfg_bytes. intros Hwf. by rewrite length_concat_sum, Hwf. Qed.

(** Field [i] of the template is what the region holds at its offset after reset. *)
Lemma reset_field s i x :
  cfg_wf (cfg s) → cfg_fields (cfg s) !! i = Some x →
  slice (cfg_offset i) (length x) (mem (vmapple_cfg_reset s)) = x.
Proof.
  intros Hwf Hi. unfold vmapple_cfg_reset. cbn [mem set_field].
  generalize (replicate (Z.to_nat VMAPPLE_CFG_SIZE) 0). intros z. cbv [splice]. rewrite take_0. cbn [app].
  pose proof (concat_slice _ _ _ Hi) as Hs. rewrite Hwf in Hs. fold (cfg_offset i) in Hs.
  rewrite <- Hs at 2. unfold slice. fold (cfg_bytes (cfg s)).
  assert (cfg_offset i + length x ≤ length (cfg_bytes (cfg s)))%nat as Hle.
  { unfold cfg_bytes. rewrite length_concat_sum, Hwf.
    rewrite <- (take_drop_middle cfg_sizes i (length x)).
    2:{ rewrite <- Hwf, list_lookup_fmap, Hi. done. }
    rewrite sum_list_with_app. unfold cfg_offset. simpl. lia. }
  rewrite drop_app_le by lia. rewrite take_app_le; [done|]. rewrite length_drop. lia.
Qed.

(** ** Realize *)
Fixpoint cstr (l : list Z) : list Z :=
  match l with [] => [] | c :: l => if c =? 0 then [] else c :: cstr l end.

Lemma cstr_app src l : Forall (λ c, c ≠ 0) src → cstr (src ++ 0 :: l) = src.
Proof. induction 1 as [|c src Hc _ IH]; simpl; [done|]. rewrite IH. by destruct (Z.eqb_spec c 0). Qed.

Lemma set_fixlen_spec dst src :
  length dst = 32%nat →
  ∃ dst', set_fixlen_property_or_error dst src = (dst', bool_decide (length src ≤ 31)%nat) ∧
    length dst' = 32%nat ∧
    ((length src ≤ 31)%nat → Forall (λ c, c ≠ 0) src → cstr dst' = src).
Proof.
  intros Hd. unfold set_fixlen_property_or_error, g_strlcpy. eexists. split; [|split].
  - f_equal. apply bool_decide_ext. rewrite Hd. lia.
  - rewrite length_splice; [done|]. rewrite length_app, length_take. simpl. lia.
  - intros Hs Hn. unfold splice. simpl. rewrite take_ge by lia. rewrite <- app_assoc. by apply cstr_app.
Qed.

Lemma set_cpu_ids_spec n i ids :
  (i + n ≤ length ids)%nat →
  length (set_cpu_ids i n ids) = length ids ∧
  (∀ k, (k < i)%nat → set_cpu_ids i n ids !! k = ids !! k) ∧
  (∀ k, (i ≤ k < i + n)%nat → set_cpu_ids i n ids !! k = Some (Z.of_nat k)).
Proof.
  revert i ids. induction n as [|n IH]; intros i ids Hle; simpl; [split; [done|split; [done|lia]]|].
  destruct (IH (S i) (<[i:=Z.of_nat i]> ids)) as (Hl & Hlow & Hin); [len|].
  rewrite length_insert in Hl. split; [done|split].
  - intros k Hk. rewrite Hlow by lia. by apply list_lookup_insert_ne; lia.
  - intros k Hk. destruct (decide (k = i)) as [->|]; [|apply Hin; lia].
    rewrite Hlow by lia. apply list_lookup_insert_eq. lia.
Qed.

Ltac cfg_wf_tac :=
  unfold cfg_wf, cfg_sizes; intros Hwf; destruct_cfg; simpl in *;
  injection Hwf; intros; subst; repeat (f_equal; try done)
with destruct_cfg := match goal with c : VMAppleCfg |- _ => destruct c end.

Definition set_strings (ser mdl soc u8s : list Z) (c : VMAppleCfg) : VMAppleCfg :=
  c <| serial := ser |> <| model := mdl |> <| soc_name := soc |> <| unk8 := u8s |>.

Lemma set_strings_wf ser mdl soc u8s c :
  length ser = 32%nat → length mdl = 32%nat → length soc = 32%nat → length u8s = 32%nat →
  cfg_wf c → cfg_wf (set_strings ser mdl soc u8s c).
Proof. intros H1 H2 H3 H4. cfg_wf_tac. Qed.

Definition prop_serial (s : VMAppleCfgState) : list Z := default (str "1234") (serial_prop s).
Definition prop_model (s : VMAppleCfgState) : list Z := default (str "VM0001") (model_prop s).
Definition prop_soc_name (s : VMAppleCfgState) : list Z := default (str "Apple M1 (Virtual)") (soc_name_prop s).
Definition props_fit (s : VMAppleCfgState) : Prop :=
  (length (prop_serial s) ≤ 31 ∧ length (prop_model s) ≤ 31 ∧ length (prop_soc_name s) ≤ 31)%nat.

Lemma wf_buffers c :
  cfg_wf c → length (serial c) = 32%nat ∧ length (model c) = 32%nat ∧ length (soc_name c) = 32%nat ∧
    length (unk8 c) = 32%nat ∧ length (cpu_ids c) = 0x80%nat.
Proof.
  unfold cfg_wf, cfg_sizes. destruct c. simpl. intros Hwf. injection Hwf. intros. split_and!; try done.
  match goal with H : length (words_bytes 4 _) = _ |- _ => rewrite length_words_bytes in H; lia end.
Qed.

Lemma and_then_set_prop dst src dst' store name s k :
  set_fixlen_property_or_error dst src = (dst', bool_decide (length src ≤ 31)%nat) →
  and_then (set_prop dst src store name s) k =
  let s' := s <| cfg := store dst' (cfg s) |> in
  if decide (length src ≤ 31)%nat then k s' else (s', Some (TooLong name)).
Proof.
  intros E. unfold set_prop. rewrite E. cbv zeta.
  case_decide; [by rewrite bool_decide_true|by rewrite bool_decide_false].
Qed.

Lemma realize_strings rand s :
  cfg_wf (cfg s) →
  (props_fit s ∧ ∃ ser mdl soc u8s,
     vmapple_cfg_realize rand s = fill_cfg rand (default_props s <| cfg := set_strings ser mdl soc u8s (cfg s) |>) ∧
     cfg_wf (set_strings ser mdl soc u8s (cfg s)) ∧
     (Forall (λ c, c ≠ 0) (prop_serial s) → cstr ser = prop_serial s) ∧
     (Forall (λ c, c ≠ 0) (prop_model s) → cstr mdl = prop_model s) ∧
     (Forall (λ c, c ≠ 0) (prop_soc_name s) → cstr soc = prop_soc_name s)) ∨
  (¬ props_fit s ∧ ∃ s' name, vmapple_cfg_realize rand s = (s', Some (TooLong name))).
Proof.
  intros Hwf. destruct (wf_buffers _ Hwf) as (L1 & L2 & L3 & L4 & _).
  destruct (set_fixlen_spec (serial (cfg s)) (prop_serial s) L1) as (ser & E1 & B1 & C1).
  destruct (set_fixlen_spec (model (cfg s)) (prop_model s) L2) as (mdl & E2 & B2 & C2).
  destruct (set_fixlen_spec (soc_name (cfg s)) (prop_soc_name s) L3) as (soc & E3 & B3 & C3).
  destruct (set_fixlen_spec (unk8 (cfg s)) (str "D/A") L4) as (u8s & E4 & B4 & _).
  unfold vmapple_cfg_realize, props_fit. cbv zeta.
  rewrite (and_then_set_prop _ (prop_serial s) ser) by done.
  destruct (decide (length (prop_serial s) ≤ 31)%nat) as [F1|F1];
    [|right; split; [tauto|by eexists _, _]]. cbv beta.
  rewrite (and_then_set_prop _ (prop_model s) mdl) by done.
  destruct (decide (length (prop_model s) ≤ 31)%nat) as [F2|F2];
    [|right; split; [tauto|by eexists _, _]]. cbv beta.
  rewrite (and_then_set_prop _ (prop_soc_name s) soc) by done.
  destruct (decide (length (prop_soc_name s) ≤ 31)%nat) as [F3|F3];
    [|right; split; [tauto|by eexists _, _]]. cbv beta.
  rewrite (and_then_set_prop _ (str "D/A") u8s) by done. rewrite decide_True by (vm_compute; lia).
  left. split; [done|]. exists ser, mdl, soc, u8s. split; [done|]. split; [by apply set_strings_wf|]. auto.
Qed.

Lemma fill_cfg_spec rand s :
  cfg_wf (cfg s) → length rand = 64%nat → 0 ≤ nr_cpus (cfg s) →
  if decide (nr_cpus (cfg s) ≤ 0x80) then
    ∃ c, fill_cfg rand s = (s <| cfg := c |>, None) ∧ cfg_wf c ∧
      version c = 2 ∧ nr_cpus c = nr_cpus (cfg s) ∧ ecid c = ecid (cfg s) ∧ ram_size c = ram_size (cfg s) ∧
      serial c = serial (cfg s) ∧ model c = model (cfg s) ∧ soc_name c = soc_name (cfg s) ∧ seed c = rand ∧
      ∀ k, Z.of_nat k < nr_cpus c → cpu_ids c !! k = Some (Z.of_nat k)
  else ∃ s', fill_cfg rand s = (s', Some (TooManyCpus (nr_cpus (cfg s)))).
Proof.
  intros Hwf Hr Hn. destruct (wf_buffers _ Hwf) as (_ & _ & _ & _ & L).
  unfold fill_cfg. cbv zeta. cbn [cpu_ids nr_cpus assign_fields]. rewrite L.
  destruct (Z.ltb_spec (Z.of_nat 0x80) (nr_cpus (cfg s))); case_decide; try lia; [by eexists|].
  destruct (set_cpu_ids_spec (Z.to_nat (nr_cpus (cfg s))) 0 (cpu_ids (cfg s))) as (Hl & _ & Hids); [lia|].
  eexists. split; [done|]. split.
  - revert Hwf. clear -Hr Hl L. rewrite L in Hl. set (ids := set_cpu_ids _ _ _) in *. clearbody ids.
    destruct s as [c0 ????]. cbn [cfg production_mode] in *. unfold cfg_wf, cfg_sizes. destruct c0. simpl.
    rewrite !length_words_bytes, Hr, Hl. intros Hwf. injection Hwf. intros.
    repeat match goal with H : length _ = _ |- _ => rewrite H; clear H end. done.
  - do 8 (split; [done|]). intros k Hk. apply Hids. simpl in Hk. lia.
Qed.

(** ** What the guest reads *)
Definition rd (n off : nat) (m : list Z) : Z := le_val (slice off n m).

Lemma rd_field n off m v : slice off n m = le_bytes n v → rd n off m = v mod 2 ^ (8 * Z.of_nat n).
Proof. unfold rd. intros ->. apply le_val_bytes. Qed.

Lemma slice_slice {A} a n b k (l : list A) :
  (b + k ≤ n)%nat → slice b k (slice a n l) = slice (a + b) k l.
Proof.
  intros Hle. unfold slice. rewrite skipn_firstn_comm, take_take, drop_drop.
  f_equal. lia.
Qed.

Lemma words_slice n ws k w :
  ws !! k = Some w → slice (n * k) n (words_bytes n ws) = le_bytes n w.
Proof.
  revert k. induction ws as [|w' ws IH]; intros [|k]; simpl; intros Hk; simplify_eq.
  - rewrite Nat.mul_0_r. unfold slice. rewrite drop_0.
    rewrite <- (length_le_bytes n w) at 1. apply take_app_length.
  - rewrite <- (IH k Hk). unfold slice. f_equal.
    rewrite drop_app_ge by (rewrite length_le_bytes; lia). f_equal. rewrite length_le_bytes. lia.
Qed.

Lemma reset_tail s :
  cfg_wf (cfg s) → length (mem (vmapple_cfg_reset s)) = Z.to_nat 0x10000 ∧
  ∀ k, 0x608 ≤ Z.of_nat k < 0x10000 → mem (vmapple_cfg_reset s) !! k = Some 0.
Proof.
  intros Hwf. pose proof (cfg_bytes_length _ Hwf) as L. unfold vmapple_cfg_reset. cbn [mem set_field].
  change VMAPPLE_CFG_SIZE with 0x10000.
  assert (length (cfg_bytes (cfg s)) ≤ length (replicate (Z.to_nat 0x10000) 0))%nat as Hle
    by (rewrite L, length_replicate; lia).
  split.
  - rewrite length_splice by done. by rewrite length_replicate.
  - intros k Hk. rewrite lookup_splice_old; [|exact Hle|right; rewrite L; lia].
    apply lookup_replicate_2. lia.
Qed.

(** The fields the firmware depends on, at the offsets it uses. *)
Definition guest_view (m : list Z) (c : VMAppleCfg) : Prop :=
  rd 4 0x000 m = u32 (version c) ∧ rd 4 0x004 m = u32 (nr_cpus c) ∧
  rd 8 0x018 m = u64 (ecid c) ∧ rd 8 0x020 m = u64 (ram_size c) ∧
  (∀ k w, cpu_ids c !! k = Some w → rd 4 (0x100 + 4 * k) m = u32 w) ∧
  slice 0x500 32 m = serial c ∧ slice 0x540 32 m = model c ∧ slice 0x584 32 m = soc_name c ∧
  slice 0x5c8 64 m = seed c.

Lemma reset_view s : cfg_wf (cfg s) → guest_view (mem (vmapple_cfg_reset s)) (cfg s).
Proof.
  intros Hwf. assert (∀ i x, cfg_fields (cfg s) !! i = Some x → cfg_sizes !! i = Some (length x)) as Hsz
    by (intros i x Hi; rewrite <- Hwf, list_lookup_fmap, Hi; done).
  assert (HF := λ i x Hi, reset_field s i x Hwf Hi). revert HF.
  generalize (mem (vmapple_cfg_reset s)). intros m HF. unfold guest_view.
  assert (∀ i x n off, cfg_fields (cfg s) !! i = Some x → cfg_sizes !! i = Some n → cfg_offset i = off →
    slice off n m = x) as HG.
  { intros i x n off Hi Hn <-. rewrite (Hsz i x Hi) in Hn. injection Hn as <-. by apply HF. }
  split_and!.
  - exact (rd_field _ _ _ _ (HG 0%nat _ 4%nat 0x000%nat eq_refl eq_refl eq_refl)).
  - exact (rd_field _ _ _ _ (HG 1%nat _ 4%nat 0x004%nat eq_refl eq_refl eq_refl)).
  - exact (rd_field _ _ _ _ (HG 6%nat _ 8%nat 0x018%nat eq_refl eq_refl eq_refl)).
  - exact (rd_field _ _ _ _ (HG 7%nat _ 8%nat 0x020%nat eq_refl eq_refl eq_refl)).
  - intros k w Hk. apply (rd_field 4).
    rewrite <- (words_slice 4 _ _ _ Hk), <- (HG 23%nat _ 0x200%nat 0x100%nat eq_refl eq_refl eq_refl).
    rewrite slice_slice; [done|]. apply lookup_lt_Some in Hk.
    destruct (wf_buffers _ Hwf) as (_ & _ & _ & _ & L). lia.
  - exact (HG 25%nat _ 32%nat 0x500%nat eq_refl eq_refl eq_refl).
  - exact (HG 27%nat _ 32%nat 0x540%nat eq_refl eq_refl eq_refl).
  - exact (HG 30%nat _ 32%nat 0x584%nat eq_refl eq_refl eq_refl).
  - exact (HG 32%nat _ 64%nat 0x5c8%nat eq_refl eq_refl eq_refl).
Qed.

Definition nul_free (l : list Z) : Prop := Forall (λ c, c ≠ 0) l.

(** After a successful realize and a reset the guest sees the configuration
    at the offsets of the build-time assertions: version 2, the CPU count, ECID
    and RAM size, the CPU ids 0, 1, ..., the serial, model and SoC strings (at
    0x500, 0x540 and 0x584) and the boot seed at 0x5c8, with zeros after the
    structure.  This holds for any number of resets and whatever the guest had
    written to the region before. *)
Theorem cfg_guest_view rand s s' m :
  cfg_wf (cfg s) → length rand = 64%nat →
  is_u32 (nr_cpus (cfg s)) → is_u64 (ecid (cfg s)) → is_u64 (ram_size (cfg s)) →
  nul_free (prop_serial s) → nul_free (prop_model s) → nul_free (prop_soc_name s) →
  vmapple_cfg_realize rand s = (s', None) →
  let r := mem (vmapple_cfg_reset (s' <| mem := m |>)) in
  length r = Z.to_nat 0x10000 ∧
  rd 4 0x000 r = 2 ∧ rd 4 0x004 r = nr_cpus (cfg s) ∧
  rd 8 0x018 r = ecid (cfg s) ∧ rd 8 0x020 r = ram_size (cfg s) ∧
  (∀ k, Z.of_nat k < nr_cpus (cfg s) → rd 4 (0x100 + 4 * k) r = Z.of_nat k) ∧
  cstr (slice 0x500 32 r) = prop_serial s ∧ cstr (slice 0x540 32 r) = prop_model s ∧
  cstr (slice 0x584 32 r) = prop_soc_name s ∧ slice 0x5c8 64 r = rand ∧
  (∀ k, 0x608 ≤ Z.of_nat k < 0x10000 → r !! k = Some 0).
Proof.
  intros Hwf Hr Hn He Hm Hs1 Hs2 Hs3 Hrz.
  destruct (realize_strings rand s Hwf) as [(_ & ser & mdl & soc & u & E & Hwf1 & C1 & C2 & C3)|(_ & ? & ? & E)];
    [|congruence].
  rewrite E in Hrz. clear E.
  pose proof (fill_cfg_spec rand (default_props s <| cfg := set_strings ser mdl soc u (cfg s) |>) Hwf1 Hr (proj1 Hn)) as HF.
  rewrite Hrz in HF. cbn [cfg set_field] in HF. case_decide as Hmax; [|by destruct HF].
  destruct HF as (c & [= ->] & Hwfc & Hv & Hnc & Hec & Hrs & Hse & Hmo & Hso & Hsd & Hids).
  match goal with |- let r := mem (vmapple_cfg_reset ?x) in _ => set (t := x) end.
  assert (cfg t = c) as Et by done. clearbody t.
  pose proof (reset_view t) as Hview. pose proof (reset_tail t) as Htail. rewrite Et in *.
  specialize (Hview Hwfc) as (G1 & G2 & G3 & G4 & G5 & G6 & G7 & G8 & G9).
  destruct (Htail Hwfc) as [HL HT]. cbv zeta. revert G1 G2 G3 G4 G5 G6 G7 G8 G9 HL HT.
  generalize (mem (vmapple_cfg_reset t)). intros r G1 G2 G3 G4 G5 G6 G7 G8 G9 HL HT.
  rewrite G1, G2, G3, G4, G6, G7, G8, G9, Hv, Hnc, Hec, Hrs, Hse, Hmo, Hso.
  split_and!; try done; eauto using u32_small, u64_small.
  intros k Hk. rewrite (G5 k (Z.of_nat k)).
  - apply u32_small. unfold is_u32 in *. change (nr_cpus (set_strings ser mdl soc u (cfg s))) with (nr_cpus (cfg s)) in Hmax. lia.
  - apply Hids. by rewrite Hnc.
Qed.

Lemma realize_accepts rand s :
  cfg_wf (cfg s) → length rand = 64%nat → is_u32 (nr_cpus (cfg s)) →
  (vmapple_cfg_realize rand s).2 = None ↔ props_fit s ∧ nr_cpus (cfg s) ≤ 0x80.
Proof.
  intros Hwf Hr Hn.
  destruct (realize_strings rand s Hwf) as [(Hfit & ser & mdl & soc & u & -> & Hwf1 & _)|(Hno & ? & ? & ->)];
    [|split; [done|tauto]].
  pose proof (fill_cfg_spec rand (default_props s <| cfg := set_strings ser mdl soc u (cfg s) |>) Hwf1 Hr (proj1 Hn)) as HF.
  change (nr_cpus (cfg (_ <| cfg := _ |>))) with (nr_cpus (cfg s)) in HF.
  case_decide; [destruct HF as (c & -> & _)|destruct HF as (? & ->)]; simpl; [done|]. split; [done|tauto].
Qed.

(** realize accepts exactly the configurations the region can hold: string
    properties of at most 31 characters and at most 128 CPUs. *)
Theorem cfg_realize_accepts rand s :
  cfg_wf (cfg s) → length rand = 64%nat → is_u32 (nr_cpus (cfg s)) →
  (vmapple_cfg_realize rand s).2 = None ↔ props_fit s ∧ nr_cpus (cfg s) ≤ 0x80.
Proof. apply realize_accepts. Qed.

Definition demo_cfg : VMAppleCfgState :=
  mkCfgState (zero_cfg <| nr_cpus := 4 |> <| ecid := 0x1122334455667788 |>) [] (Some (str "C02XXXX")) None None true.

Lemma cfg_guest_view_witness :
  ∃ s', vmapple_cfg_realize (replicate 64 7) demo_cfg = (s', None) ∧
    rd 4 (0x100 + 4 * 3) (mem (vmapple_cfg_reset (s' <| mem := [] |>))) = 3 ∧
    cstr (slice 0x540 32 (mem (vmapple_cfg_reset (s' <| mem := [] |>)))) = str "VM0001".
Proof.
  eexists. split; [vm_compute; reflexivity|].
  match goal with |- rd _ _ (mem (vmapple_cfg_reset (?x <| mem := [] |>))) = _ ∧ _ => set (t := x) end.
  assert (vmapple_cfg_realize (replicate 64 7) demo_cfg = (t, None)) as E by (vm_compute; reflexivity).
  destruct (cfg_guest_view (replicate 64 7) demo_cfg t []) as (_ & _ & _ & _ & _ & Hids & _ & Hmo & _);
    [decide_done|done|decide_done|decide_done|decide_done| | | |exact E|].
  1-3: unfold nul_free; decide_done.
  split; [apply (Hids 3%nat); done|exact Hmo].
Defined.

Lemma cfg_realize_accepts_witness :
  (vmapple_cfg_realize (replicate 64 7) (demo_cfg <| serial_prop := Some (replicate 32 65) |>)).2 ≠ None.
Proof.
  intros Hacc. apply cfg_realize_accepts in Hacc; [|decide_done|done|decide_done].
  destruct Hacc as [(Hl & _) _]. revert Hl. vm_compute. lia.
Defined.
