(* ===== verification/Hvc.v ===== *)
(** The Apple VM hypercall services, src/qemu/hw/vmapple/hvc.c, behind the board
    handler interface of src/qemu/target/arm/smccc.c.

    [hv_world] gathers the state the calls touch: the two static variables of
    hvc.c, the pointer-authentication keys of each vCPU (index 0 is first_cpu), the
    counters a guest may be given and guest RAM, in which the first call of the boot CPU corrects the device tree.
    C's memmem is [memmem] below, the first match in a range; RAM too small for one
    record (where the source would form a pointer before the block) is [None]. *)
From S2P Require Import Prelude.

(** ** State *)
Record ARMPACKey := mkKey { lo : Z; hi : Z }.
Record ARMKeys := mkKeys { apia : ARMPACKey; apib : ARMPACKey; apda : ARMPACKey; apdb : ARMPACKey; apga : ARMPACKey }.
Record BootKeys := mkBoot { valid : bool; saved : ARMKeys }.

Record hv_world := mkHv {
  boot_keys : BootKeys; default_pids : Z * Z;
  host_aarch64 : bool; tcg_enabled : bool; cntfrq_el0 : Z;
  gt_cntfrq_hz : list Z; cpu_keys : list ARMKeys; ram : list Z
}.
#[export] Instance eta_hv : Settable hv_world := λ r,
  mkHv (boot_keys r) (default_pids r) (host_aarch64 r) (tcg_enabled r) (cntfrq_el0 r) (gt_cntfrq_hz r)
    (cpu_keys r) (ram r).

Definition VMAPPLE_CPU_SERVICE_BASE : Z := 0xc1000000.
Definition VMAPPLE_CPU_SERVICE_COUNT : Z := 0x10000.
Definition VMAPPLE_PAC_SET_INITIAL_STATE : Z := 0x00.
Definition VMAPPLE_PAC_GET_DEFAULT_KEYS : Z := 0x01.

Definition zero_keys : ARMKeys :=
  mkKeys (mkKey 0 0) (mkKey 0 0) (mkKey 0 0) (mkKey 0 0) (mkKey 0 0).

Definition keys_save (cpu : nat) (w : hv_world) : hv_world :=
  w <| boot_keys := mkBoot true (default zero_keys (cpu_keys w !! cpu)) |>.
Definition keys_install (cpu : nat) (w : hv_world) : hv_world :=
  w <| cpu_keys := <[cpu := saved (boot_keys w)]> (cpu_keys w) |>.

(** ** The timebase of the device tree *)
Definition APPLE_TIMEBASE_HZ : Z := 24000000.
Definition ADT_NAME_LEN : nat := 32.
Definition DT_SCAN_BYTES : Z := 2 * 2 ^ 30.

(** Which counter the guest reads: the host's under a hardware accelerator on an
    Arm host, else the emulated one. *)
Definition guest_counter_hz (cpu : nat) (w : hv_world) : Z :=
  if host_aarch64 w && negb (tcg_enabled w) then cntfrq_el0 w else default 0 (gt_cntfrq_hz w !! cpu).

Definition adt_name : list Z := str "timebase-frequency" ++ replicate 14 0.

(** @rec starts with the property name; true if it held 24 MHz and now @hz. *)
Definition patch_timebase_record (mem : list Z) (rec : nat) (hz : Z) : list Z * bool :=
  let len := le_val (slice (rec + ADT_NAME_LEN) 4 mem) in
  let val := le_val (slice (rec + ADT_NAME_LEN + 4) 8 mem) in
  if negb (Z.land len 0x7fffffff =? 8) || negb (val =? APPLE_TIMEBASE_HZ) then (mem, false)
  else (splice (rec + ADT_NAME_LEN + 4) (le_bytes 8 hz) mem, true).

Definition name_at (mem : list Z) (p : nat) : bool := bool_decide (slice p ADT_NAME_LEN mem = adt_name).

(** The first match among [n] candidate positions from [p] on. *)
Fixpoint memmem_from (mem : list Z) (p n : nat) : option nat :=
  match n with
  | O => None
  | S n => if name_at mem p then Some p else memmem_from mem (S p) n
  end.
(** memmem over [len] bytes at [p]. *)
Definition memmem (mem : list Z) (p len : nat) : option nat := memmem_from mem p (len + 1 - ADT_NAME_LEN).

Fixpoint timebase_loop (fuel : nat) (lim : nat) (hz : Z) (mem : list Z) (rec : option nat) (patched : nat) :
    option (list Z * nat) :=
  match rec with
  | None => Some (mem, patched)
  | Some p =>
      match fuel with
      | O => None
      | S fuel =>
          let '(mem, b) := patch_timebase_record mem p hz in
          timebase_loop fuel lim hz mem (memmem mem (S p) (lim - p - 1)) (patched + if b then 1 else 0)
      end
  end.

(** The scanned bytes: one record less than the block, at most 2 GiB. *)
Definition scan_end (mem : list Z) : option nat :=
  let size := Z.min (Z.of_nat (length mem)) DT_SCAN_BYTES in
  if size <? 44 then None else Some (Z.to_nat (size - 44)).

Definition fix_dt_timebase (hz : Z) (mem : list Z) : option (list Z * nat) :=
  lim ← scan_end mem;
  if hz =? APPLE_TIMEBASE_HZ then Some (mem, 0%nat)
  else timebase_loop (S lim) lim hz mem (memmem mem 0 lim) 0.

(** ** The calls *)
Definition set_initial_state (cpu : nat) (w : hv_world) : option hv_world :=
  if decide (cpu = 0%nat) then
    '(mem, _) ← fix_dt_timebase (guest_counter_hz cpu w) (ram w);
    Some (keys_save cpu (w <| ram := mem |>))
  else if valid (boot_keys w) then Some (keys_install cpu w) else Some w.

(** The handler: whether the call was claimed, the registers and the world. *)
Definition vmapple_hvc (cpu : nat) (x : list Z) (w : hv_world) : option (bool * list Z * hv_world) :=
  fid ← u32 <$> x !! 0%nat;
  if VMAPPLE_CPU_SERVICE_COUNT <=? u32 (fid - VMAPPLE_CPU_SERVICE_BASE) then Some (false, x, w)
  else
    '(x, w) ← (if Z.land fid 0xffff =? VMAPPLE_PAC_SET_INITIAL_STATE then
                 w ← set_initial_state cpu w; Some (x, w)
               else if Z.land fid 0xffff =? VMAPPLE_PAC_GET_DEFAULT_KEYS then
                 Some (<[3%nat := (default_pids w).2]> (<[2%nat := (default_pids w).1]> x), w)
               else Some (x, w));
    Some (true, <[0%nat := 0]> x, w).

(** The do-while over the random source: [rand k] is its [k]-th answer. *)
Fixpoint draw_pids (fuel : nat) (rand : nat → Z * Z) (k : nat) : option (Z * Z) :=
  match fuel with
  | O => None
  | S fuel =>
      let pids := rand k in
      if negb (nz pids.1) || negb (nz pids.2) then draw_pids fuel rand (S k) else Some pids
  end.
Definition vmapple_hvc_reset (fuel : nat) (rand : nat → Z * Z) (w : hv_world) : option hv_world :=
  let w := w <| boot_keys := mkBoot false (saved (boot_keys w)) |> in
  pids ← draw_pids fuel rand 0; Some (w <| default_pids := pids |>).

(** ** The device tree correction

    A record is a name with length 8 and the value 24000000; [patch_all] is the
    reference: every record of the original bytes gets the new value. *)
Definition record_at (mem : list Z) (p : nat) : bool :=
  name_at mem p && (Z.land (le_val (slice (p + 32) 4 mem)) 0x7fffffff =? 8) &&
  (le_val (slice (p + 36) 8 mem) =? APPLE_TIMEBASE_HZ).
Definition records (mem : list Z) (p n : nat) : list nat := filter (record_at mem) (seq p n).
Definition patch_all (hz : Z) (ps : list nat) (mem : list Z) : list Z :=
  foldl (λ m p, splice (p + 36) (le_bytes 8 hz) m) mem ps.

Lemma adt_name_byte k : (k < 32)%nat → adt_name !! k = Some 0x74 → k = 0%nat.
Proof.
  intros Hk H. destruct (decide (k = 0%nat)); [done|]. exfalso.
  assert (Forall (λ k, adt_name !! k ≠ Some 0x74) (seq 1 31)) as Hall by decide_done.
  rewrite Forall_forall in Hall. apply (Hall k); [apply elem_of_seq; lia|done].
Qed.

Lemma adt_name_nonzero k : (k < 18)%nat → adt_name !! k ≠ Some 0.
Proof.
  intros Hk. assert (Forall (λ k, adt_name !! k ≠ Some 0) (seq 0 18)) as Hall by decide_done.
  rewrite Forall_forall in Hall. apply Hall, elem_of_seq. lia.
Qed.

Lemma name_at_lookup mem p k :
  name_at mem p = true → (k < 32)%nat → mem !! (p + k)%nat = adt_name !! k.
Proof.
  unfold name_at. intros E%bool_decide_eq_true Hk. rewrite <- E. by rewrite lookup_slice.
Qed.

Lemma name_at_head mem p c : mem !! p = Some c → c ≠ 0x74 → name_at mem p = false.
Proof.
  intros Hc Hne. apply not_true_iff_false. intros E. apply (name_at_lookup _ _ 0) in E; [|lia].
  rewrite Nat.add_0_r, Hc in E. vm_compute in E. congruence.
Qed.

Lemma name_at_zero mem p k :
  (k < 18)%nat → mem !! (p + k)%nat = Some 0 → name_at mem p = false.
Proof.
  intros Hk Hz. apply not_true_iff_false. intros E. apply (name_at_lookup _ _ k) in E; [|lia].
  rewrite Hz in E. by apply (adt_name_nonzero k Hk).
Qed.

Lemma slice_val n mem p v :
  Forall is_u8 mem → (p + n ≤ length mem)%nat → le_val (slice p n mem) = v → slice p n mem = le_bytes n v.
Proof.
  intros Hb Hl <-. rewrite <- (length_slice p n mem) at 2 by done.
  symmetry. apply le_bytes_val. by apply Forall_slice.
Qed.

Lemma adt_length v : 0 ≤ v < 2 ^ 32 → Z.land v 0x7fffffff = 8 → v = 8 ∨ v = 0x80000008.
Proof. change 0x7fffffff with (2 ^ 31 - 1). rewrite land_ones_mod by lia. intros ??. divlia. Qed.

(** No name starts inside a record before its value, nor in a 24 MHz value. *)
Lemma record_inside mem p q :
  Forall is_u8 mem → (p + 44 ≤ length mem)%nat → record_at mem p = true → (p < q < p + 44)%nat →
  ∃ c, mem !! q = Some c ∧ c ≠ 0x74.
Proof.
  intros Hb Hl Hr Hq. unfold record_at in Hr.
  apply andb_true_iff in Hr as [[Hn Hlen]%andb_true_iff Hval].
  apply Z.eqb_eq in Hlen, Hval. unfold APPLE_TIMEBASE_HZ in Hval.
  destruct (lookup_lt_is_Some_2 mem q) as [c Hc]; [lia|]. exists c. split; [done|]. intros ->.
  destruct (decide (q < p + 32)%nat).
  - replace q with (p + (q - p))%nat in Hc by lia. rewrite (name_at_lookup _ _ _ Hn) in Hc by lia.
    apply adt_name_byte in Hc; lia.
  - destruct (decide (q < p + 36)%nat).
    + assert (slice (p + 32) 4 mem !! (q - (p + 32))%nat = Some 0x74) as Hs.
      { rewrite lookup_slice by lia. rewrite <- Hc. f_equal. lia. }
      apply adt_length in Hlen. 2:{ pose proof (le_val_range (slice (p + 32) 4 mem)) as HR.
        rewrite length_slice in HR by lia. apply HR. by apply Forall_slice. }
      assert (Forall (λ c, c ≠ 0x74) (slice (p + 32) 4 mem)) as Hall
        by (destruct Hlen as [E|E]; rewrite (slice_val 4 mem (p + 32) _ Hb ltac:(lia) E); decide_done).
      rewrite Forall_lookup in Hall. by apply (Hall _ _ Hs).
    + assert (slice (p + 36) 8 mem !! (q - (p + 36))%nat = Some 0x74) as Hs.
      { rewrite lookup_slice by lia. rewrite <- Hc. f_equal. lia. }
      rewrite (slice_val 8 mem (p + 36) _ Hb ltac:(lia) Hval) in Hs.
      assert (Forall (λ c, c ≠ 0x74) (le_bytes 8 24000000)) as Hall by decide_done.
      rewrite Forall_lookup in Hall. by apply (Hall _ _ Hs).
Qed.

Lemma le_bytes_top hz : 0 ≤ hz < 2 ^ 56 → le_bytes 8 hz !! 7%nat = Some 0.
Proof.
  intros Hz. change (le_bytes 8 hz !! 7%nat) with
    (Some (u8 (Z.shiftr (Z.shiftr (Z.shiftr (Z.shiftr (Z.shiftr (Z.shiftr (Z.shiftr hz 8) 8) 8) 8) 8) 8) 8))).
  rewrite !Z.shiftr_shiftr by lia. f_equal. rewrite (shiftr_above hz 56) by lia. done.
Qed.

(** Patching a record changes neither the names nor the records after it. *)
Lemma patch_isolated mem p hz :
  Forall is_u8 mem → (p + 44 ≤ length mem)%nat → 0 ≤ hz < 2 ^ 56 → record_at mem p = true →
  let mem' := splice (p + 36) (le_bytes 8 hz) mem in
  ∀ q, (p < q)%nat → name_at mem' q = name_at mem q ∧ record_at mem' q = record_at mem q.
Proof.
  intros Hb Hl Hz Hr mem' q Hq.
  assert (Hlen : length (le_bytes 8 hz) = 8%nat) by done.
  destruct (decide (p + 44 ≤ q)%nat) as [Hge|Hlt].
  - assert (∀ j n, (p + 44 ≤ j)%nat → slice j n mem' = slice j n mem) as Hs.
    { intros j n Hj. apply slice_splice_ne; rewrite Hlen; lia. }
    unfold record_at, name_at. rewrite !Hs by lia. done.
  - assert (name_at mem q = false) as E.
    { destruct (record_inside mem p q) as (c & Hc & Hne); try done; [lia|]. by eapply name_at_head. }
    assert (name_at mem' q = false) as E'.
    { destruct (decide (q < p + 36)%nat).
      - destruct (record_inside mem p q) as (c & Hc & Hne); try done; [lia|].
        eapply name_at_head; [|done]. unfold mem'. rewrite lookup_splice_old; [done|len|lia].
      - apply (name_at_zero _ _ (p + 43 - q)); [lia|]. replace (q + (p + 43 - q))%nat with (p + 36 + 7)%nat by lia.
        unfold mem'. rewrite lookup_splice_new by (rewrite Hlen; lia).
        replace (p + 36 + 7 - (p + 36))%nat with 7%nat by lia. by apply le_bytes_top. }
    unfold record_at. by rewrite E, E'.
Qed.

Lemma records_cons mem p n :
  records mem p (S n) = (if record_at mem p then [p] else []) ++ records mem (S p) n.
Proof. unfold records. simpl. rewrite filter_cons. by destruct (record_at mem p). Qed.

Lemma records_ext mem mem' p n :
  (∀ q, (p ≤ q)%nat → record_at mem' q = record_at mem q) → records mem' p n = records mem p n.
Proof.
  revert p. induction n as [|n IH]; intros p Heq; [done|].
  rewrite !records_cons, Heq by lia. rewrite IH; [done|]. intros. apply Heq. lia.
Qed.

Lemma patch_record mem p hz :
  name_at mem p = true →
  patch_timebase_record mem p hz =
  if record_at mem p then (splice (p + 36) (le_bytes 8 hz) mem, true) else (mem, false).
Proof.
  intros Hn. unfold patch_timebase_record, record_at, ADT_NAME_LEN. rewrite Hn.
  replace (p + 32 + 4)%nat with (p + 36)%nat by lia. cbn [andb].
  by destruct (_ =? 8), (_ =? APPLE_TIMEBASE_HZ).
Qed.

Lemma timebase_loop_spec lim hz n p mem fuel k :
  0 ≤ hz < 2 ^ 56 → Forall is_u8 mem → (lim + 44 ≤ length mem)%nat → n = (lim - 31 - p)%nat → (n ≤ fuel)%nat →
  timebase_loop fuel lim hz mem (memmem_from mem p n) k =
    Some (patch_all hz (records mem p n) mem, (k + length (records mem p n))%nat).
Proof.
  intros Hz. revert p mem fuel k. induction n as [|n IH]; intros p mem fuel k Hb Hl Hn Hf.
  { simpl. destruct fuel; simpl; by rewrite Nat.add_0_r. }
  cbn [memmem_from]. rewrite records_cons. destruct (name_at mem p) eqn:En.
  2:{ assert (record_at mem p = false) as -> by (unfold record_at; by rewrite En). apply IH; auto; lia. }
  destruct fuel as [|fuel]; [lia|]. cbn [timebase_loop]. rewrite patch_record by done.
  unfold memmem. replace (lim - p - 1 + 1 - ADT_NAME_LEN)%nat with n by (unfold ADT_NAME_LEN; lia).
  destruct (record_at mem p) eqn:Er.
  - assert (length (le_bytes 8 hz) = 8%nat) as L8 by done.
    rewrite IH; [|apply Forall_splice; auto using le_bytes_u8|rewrite length_splice by (rewrite L8; lia); done|lia|lia].
    rewrite (records_ext mem).
    2:{ intros q Hq. apply (patch_isolated mem p hz Hb); [lia|done|done|lia]. }
    rewrite length_app. simpl. f_equal. f_equal. lia.
  - rewrite IH by (done || lia). simpl. by rewrite Nat.add_0_r.
Qed.

(** C33: the device tree correction is exact.  For any counter rate the loop over
    memmem ends, and the bytes it leaves are those of the reference: precisely the
    records that named timebase-frequency with length 8 and value 24000000 now
    hold the real rate, nothing else has changed, and the count it reports is the
    number of those records. *)
Theorem fix_dt_timebase_exact hz mem :
  0 ≤ hz < 2 ^ 56 → hz ≠ APPLE_TIMEBASE_HZ → Forall is_u8 mem → (44 ≤ length mem)%nat →
  let n := (Z.to_nat (Z.min (Z.of_nat (length mem)) (2 ^ 31)) - 75)%nat in
  fix_dt_timebase hz mem = Some (patch_all hz (records mem 0 n) mem, length (records mem 0 n)).
Proof.
  intros Hz Hne Hb Hl n. unfold fix_dt_timebase, scan_end.
  change DT_SCAN_BYTES with (2 ^ 31). destruct (Z.ltb_spec (Z.min (Z.of_nat (length mem)) (2 ^ 31)) 44); [lia|].
  cbn [mbind option_bind]. apply Z.eqb_neq in Hne as ->. unfold memmem.
  set (lim := Z.to_nat (Z.min (Z.of_nat (length mem)) (2 ^ 31) - 44)).
  assert (n = lim - 31 - 0)%nat as -> by (unfold n, lim; lia).
  replace (lim + 1 - ADT_NAME_LEN)%nat with (lim - 31 - 0)%nat by (unfold ADT_NAME_LEN; lia).
  rewrite timebase_loop_spec; [done|done|done|unfold lim; lia|done|lia].
Qed.

Definition demo_dt : list Z :=
  replicate 5 0x61 ++ adt_name ++ le_bytes 4 0x80000008 ++ le_bytes 8 24000000 ++
  adt_name ++ le_bytes 4 4 ++ le_bytes 8 24000000 ++ replicate 40 0.

Lemma fix_dt_timebase_exact_witness :
  fix_dt_timebase 1000000000 demo_dt =
  Some (splice 41 (le_bytes 8 1000000000) demo_dt, 1%nat).
Proof.
  rewrite fix_dt_timebase_exact; [vm_compute; reflexivity|lia|done|decide_done|vm_compute; lia].
Defined.

(** Whatever the rate and the bytes, the scan ends and keeps the size of RAM. *)
Lemma memmem_from_bound mem p n q : memmem_from mem p n = Some q → (p ≤ q < p + n)%nat.
Proof.
  revert p. induction n as [|n IH]; intros p; simpl; [done|].
  case_match; [intros [= <-]; lia|]. intros Hq%IH. lia.
Qed.

Lemma patch_length mem p hz : (p + 44 ≤ length mem)%nat → length (patch_timebase_record mem p hz).1 = length mem.
Proof.
  intros Hl. unfold patch_timebase_record, ADT_NAME_LEN. case_match; [done|]. cbn [fst].
  rewrite length_splice; [done|]. rewrite length_le_bytes. lia.
Qed.

Lemma timebase_loop_total lim hz mem fuel p n k :
  (lim + 44 ≤ length mem)%nat → n = (lim - 31 - p)%nat → (n ≤ fuel)%nat →
  ∃ mem' k', timebase_loop fuel lim hz mem (memmem_from mem p n) k = Some (mem', k') ∧ length mem' = length mem.
Proof.
  revert mem p n k. induction fuel as [|fuel IH]; intros mem p n k Hl Hn Hf.
  { assert (n = 0%nat) as -> by lia. simpl. by exists mem, k. }
  destruct (memmem_from mem p n) as [q|] eqn:E; [|simpl; by exists mem, k].
  apply memmem_from_bound in E. cbn [timebase_loop].
  pose proof (patch_length mem q hz ltac:(lia)) as Hp.
  destruct (patch_timebase_record mem q hz) as [mem1 b]. simpl in Hp.
  unfold memmem. replace (lim - q - 1 + 1 - ADT_NAME_LEN)%nat with (lim - 31 - S q)%nat by (unfold ADT_NAME_LEN; lia).
  edestruct (IH mem1 (S q)) as (mem' & k' & -> & Hl'); [lia|done|lia|]. exists mem', k'. split; [done|]. lia.
Qed.

Lemma fix_dt_total hz mem :
  (44 ≤ length mem)%nat → ∃ mem' n, fix_dt_timebase hz mem = Some (mem', n) ∧ length mem' = length mem.
Proof.
  intros Hl. unfold fix_dt_timebase, scan_end.
  destruct (Z.ltb_spec (Z.min (Z.of_nat (length mem)) DT_SCAN_BYTES) 44); [unfold DT_SCAN_BYTES in *; lia|].
  cbn [mbind option_bind]. case_match; [by eexists _, _|]. unfold memmem.
  set (lim := Z.to_nat _). replace (lim + 1 - ADT_NAME_LEN)%nat with (lim - 31 - 0)%nat by (unfold ADT_NAME_LEN; lia).
  apply timebase_loop_total; [unfold lim; lia|done|lia].
Qed.

Lemma hvc_total cpu x w :
  x ≠ [] → (44 ≤ length (ram w))%nat →
  ∃ b x' w', vmapple_hvc cpu x w = Some (b, x', w') ∧ length x' = length x ∧ length (ram w') = length (ram w) ∧
    (b = false → x' = x ∧ w' = w).
Proof.
  intros Hx Hr. destruct x as [|f x]; [done|]. unfold vmapple_hvc.
  cbn [lookup list_lookup fmap option_fmap option_map mbind option_bind].
  destruct (_ <=? _); [by eexists _, _, _|].
  destruct (_ =? VMAPPLE_PAC_SET_INITIAL_STATE); [|destruct (_ =? VMAPPLE_PAC_GET_DEFAULT_KEYS)].
  - unfold set_initial_state. case_decide as Hc.
    + destruct (fix_dt_total (guest_counter_hz cpu w) (ram w) Hr) as (mem' & n & -> & Hl).
      eexists _, _, _. split; [done|]. by rewrite length_insert.
    + case_match; eexists _, _, _; (split; [done|]); by rewrite length_insert.
  - eexists _, _, _. split; [done|]. by rewrite !length_insert.
  - eexists _, _, _. split; [done|]. by rewrite length_insert.
Qed.

(** ** Sequences of calls

    What happens between two calls: other calls by any CPU, CPUs changing their
    own keys (a CPU coming out of reset included) and stores to RAM. *)
Inductive hv_event :=
  | Call (cpu : nat) (x : list Z)
  | WriteKeys (cpu : nat) (k : ARMKeys)
  | StoreRam (off : nat) (bs : list Z).

Definition hv_step (e : hv_event) (w : hv_world) : option hv_world :=
  match e with
  | Call cpu x => snd <$> vmapple_hvc cpu x w
  | WriteKeys cpu k => Some (w <| cpu_keys := <[cpu := k]> (cpu_keys w) |>)
  | StoreRam off bs => mem ← splice_at off bs (ram w); Some (w <| ram := mem |>)
  end.
Fixpoint hv_run (es : list hv_event) (w : hv_world) : option hv_world :=
  match es with [] => Some w | e :: es => w ← hv_step e w; hv_run es w end.

Definition SET_INITIAL_STATE : Z := VMAPPLE_CPU_SERVICE_BASE + VMAPPLE_PAC_SET_INITIAL_STATE.
Definition GET_DEFAULT_KEYS : Z := VMAPPLE_CPU_SERVICE_BASE + VMAPPLE_PAC_GET_DEFAULT_KEYS.

(** The event is not the boot CPU's SET_INITIAL_STATE. *)
Definition not_boot (e : hv_event) : Prop :=
  match e with Call 0%nat (f :: _) => u32 f ≠ SET_INITIAL_STATE | _ => True end.

Lemma service_zero fid :
  0 ≤ fid < 2 ^ 32 → u32 (fid - VMAPPLE_CPU_SERVICE_BASE) < VMAPPLE_CPU_SERVICE_COUNT →
  Z.land fid 0xffff = 0 → fid = SET_INITIAL_STATE.
Proof.
  change 0xffff with (2 ^ 16 - 1). rewrite land_ones_mod by lia. change (2 ^ 16) with 0x10000.
  unfold SET_INITIAL_STATE, VMAPPLE_CPU_SERVICE_BASE, VMAPPLE_CPU_SERVICE_COUNT, VMAPPLE_PAC_SET_INITIAL_STATE.
  intros. divlia.
Qed.

Definition hv_len (w : hv_world) : nat := length (cpu_keys w).

Lemma hvc_keeps cpu x w b x' w' :
  vmapple_hvc cpu x w = Some (b, x', w') →
  hv_len w' = hv_len w ∧ default_pids w' = default_pids w ∧
  (not_boot (Call cpu x) → boot_keys w' = boot_keys w).
Proof.
  unfold vmapple_hvc. destruct x as [|f x]; [done|]. cbn [lookup list_lookup fmap option_fmap option_map mbind option_bind].
  destruct (Z.leb_spec VMAPPLE_CPU_SERVICE_COUNT (u32 (u32 f - VMAPPLE_CPU_SERVICE_BASE))) as [|Hlt]; [by intros [= <- <- <-]|].
  destruct (Z.eqb_spec (Z.land (u32 f) 0xffff) VMAPPLE_PAC_SET_INITIAL_STATE) as [E|_].
  - unfold set_initial_state. destruct cpu as [|cpu]; cbn [decide].
    + rewrite decide_True by done.
      destruct (fix_dt_timebase _ _) as [[mem n]|]; [|done]. intros [= <- <- <-].
      do 2 (split; [done|]). intros Hnb. exfalso. apply Hnb. by apply service_zero; [apply u32_range|..].
    + rewrite decide_False by done. case_match; intros [= <- <- <-]; [|done].
      unfold hv_len. simpl. by rewrite length_insert.
  - case_match; intros [= <- <- <-]; done.
Qed.

Lemma step_keeps e w w' :
  hv_step e w = Some w' →
  hv_len w' = hv_len w ∧ default_pids w' = default_pids w ∧ (not_boot e → boot_keys w' = boot_keys w).
Proof.
  destruct e as [cpu x|cpu k|off bs]; simpl.
  - destruct (vmapple_hvc cpu x w) as [[[b x'] w1]|] eqn:E; [|done]. intros [= <-].
    exact (hvc_keeps _ _ _ _ _ _ E).
  - intros [= <-]. unfold hv_len. simpl. by rewrite length_insert.
  - destruct (splice_at off bs (ram w)); [|done]. by intros [= <-].
Qed.

Lemma run_keeps es w w' :
  hv_run es w = Some w' →
  hv_len w' = hv_len w ∧ default_pids w' = default_pids w ∧ (Forall not_boot es → boot_keys w' = boot_keys w).
Proof.
  revert w. induction es as [|e es IH]; intros w; simpl; [by intros [= <-]|].
  destruct (hv_step e w) as [w1|] eqn:E; [|done]. intros Hr.
  destruct (step_keeps _ _ _ E) as (? & ? & ?), (IH _ Hr) as (? & ? & ?).
  split_and!; [congruence..|]. intros [Hnb Hes]%Forall_cons. rewrite H4 by done. auto.
Qed.

(** Secondary cores get the machine's keys.  Once the boot CPU has made its
    SET_INITIAL_STATE call with the keys firmware left there, a SET_INITIAL_STATE
    of any other core, after any interleaving of calls, key changes and stores
    that does not repeat the boot CPU's call, returns 0, installs exactly those
    keys in the caller and changes no other core's. *)
Theorem hvc_secondary_keys w w1 w2 xs xs' es cpu keys :
  cpu_keys w !! 0%nat = Some keys →
  hv_step (Call 0 (SET_INITIAL_STATE :: xs)) w = Some w1 →
  hv_run es w1 = Some w2 → Forall not_boot es → (0 < cpu < hv_len w)%nat →
  ∃ w3, vmapple_hvc cpu (SET_INITIAL_STATE :: xs') w2 = Some (true, 0 :: xs', w3) ∧
    cpu_keys w3 !! cpu = Some keys ∧ ∀ c, c ≠ cpu → cpu_keys w3 !! c = cpu_keys w2 !! c.
Proof.
  intros Hk Hboot Hrun Hes Hcpu.
  assert (boot_keys w1 = mkBoot true keys ∧ hv_len w1 = hv_len w) as [Hb Hl1].
  { revert Hboot. unfold hv_step, vmapple_hvc. cbn [lookup list_lookup fmap option_fmap option_map mbind option_bind].
    change (u32 SET_INITIAL_STATE) with SET_INITIAL_STATE. simpl (_ <=? _). simpl (_ =? _). cbn iota.
    unfold set_initial_state. rewrite decide_True by done.
    destruct (fix_dt_timebase _ _) as [[mem n]|]; [|done]. intros [= <-]. unfold keys_save. simpl. by rewrite Hk. }
  destruct (run_keeps _ _ _ Hrun) as (Hl2 & _ & Hb2). rewrite Hb in Hb2. specialize (Hb2 Hes).
  exists (keys_install cpu w2). unfold vmapple_hvc. cbn [lookup list_lookup fmap option_fmap option_map mbind option_bind].
  change (u32 SET_INITIAL_STATE) with SET_INITIAL_STATE. simpl (_ <=? _). simpl (_ =? _). cbn iota.
  unfold set_initial_state. rewrite decide_False by lia. rewrite Hb2. split; [done|].
  unfold keys_install. rewrite Hb2. simpl. split.
  - apply list_lookup_insert_eq. unfold hv_len in *. lia.
  - intros c Hc. by apply list_lookup_insert_ne.
Qed.

Lemma draw_pids_nonzero rand n k :
  nz (rand (k + n)%nat).1 = true → nz (rand (k + n)%nat).2 = true →
  ∃ p, draw_pids (S n) rand k = Some p ∧ p.1 ≠ 0 ∧ p.2 ≠ 0.
Proof.
  revert k. induction n as [|n IH]; intros k H1 H2.
  - rewrite Nat.add_0_r in *. cbn [draw_pids]. rewrite H1, H2. exists (rand k). split; [done|].
    unfold nz in *. reflect_bools. done.
  - cbn [draw_pids]. destruct (negb (nz (rand k).1) || negb (nz (rand k).2)) eqn:E.
    + rewrite Nat.add_succ_r in *. by apply (IH (S k)).
    + exists (rand k). split; [done|]. unfold nz in E. apply orb_false_iff in E as [E1 E2].
      rewrite negb_involutive in E1, E2. by apply Z.eqb_neq in E1, E2.
Qed.

(** The default pids.  A reset ends as soon as the random source has given a
    pair without a zero, and from then on, whatever calls and stores happen, every
    CPU's GET_DEFAULT_KEYS returns 0 in x0 and the same non-zero pair in x2 and x3,
    and changes nothing else. *)
Theorem hvc_default_pids rand n w :
  nz (rand n).1 = true → nz (rand n).2 = true →
  ∃ w1 rop jop, vmapple_hvc_reset (S n) rand w = Some w1 ∧ rop ≠ 0 ∧ jop ≠ 0 ∧
    ∀ es w2 cpu x1 x2 x3 xs, hv_run es w1 = Some w2 →
      vmapple_hvc cpu (GET_DEFAULT_KEYS :: x1 :: x2 :: x3 :: xs) w2 = Some (true, 0 :: x1 :: rop :: jop :: xs, w2).
Proof.
  intros H1 H2. destruct (draw_pids_nonzero rand n 0 H1 H2) as (p & Hp & Hn1 & Hn2).
  eexists _, p.1, p.2. unfold vmapple_hvc_reset. rewrite Hp. split; [done|]. do 2 (split; [done|]).
  intros es w2 cpu x1 x2 x3 xs Hrun. destruct (run_keeps _ _ _ Hrun) as (_ & Hpid & _). simpl in Hpid.
  unfold vmapple_hvc. cbn [lookup list_lookup fmap option_fmap option_map mbind option_bind].
  change (u32 GET_DEFAULT_KEYS) with GET_DEFAULT_KEYS. simpl (_ <=? _). simpl (_ =? _). cbn iota.
  rewrite Hpid. done.
Qed.

Definition demo_keys : ARMKeys := mkKeys (mkKey 1 2) (mkKey 3 4) (mkKey 5 6) (mkKey 7 8) (mkKey 9 10).
Definition demo_hv : hv_world :=
  mkHv (mkBoot false zero_keys) (0, 0) false true 0 [1000000000; 1000000000] [demo_keys; zero_keys] demo_dt.

Definition demo_hv1 : hv_world :=
  default demo_hv (hv_step (Call 0 [SET_INITIAL_STATE; 5]) demo_hv).
Definition demo_hv2 : hv_world :=
  default demo_hv (hv_run [WriteKeys 0 zero_keys; Call 1 [GET_DEFAULT_KEYS; 0; 0; 0]] demo_hv1).

Lemma hvc_secondary_keys_witness :
  ∃ w3, vmapple_hvc 1 [SET_INITIAL_STATE; 9] demo_hv2 = Some (true, [0; 9], w3) ∧
    cpu_keys w3 !! 1%nat = Some demo_keys.
Proof.
  destruct (hvc_secondary_keys demo_hv demo_hv1 demo_hv2 [5] [9]
    [WriteKeys 0 zero_keys; Call 1 [GET_DEFAULT_KEYS; 0; 0; 0]] 1 demo_keys) as (w3 & Hc & Hk & _).
  - reflexivity.
  - vm_compute. reflexivity.
  - vm_compute. reflexivity.
  - repeat constructor.
  - vm_compute. lia.
  - exists w3. split; [exact Hc|exact Hk].
Defined.

Lemma hvc_default_pids_witness :
  ∃ w1 rop jop,
    vmapple_hvc_reset 3 (λ n, if decide (n = 2%nat) then (7, 9) else (0, 1)) demo_hv = Some w1 ∧ rop ≠ 0 ∧ jop ≠ 0.
Proof.
  destruct (hvc_default_pids (λ n, if decide (n = 2%nat) then (7, 9) else (0, 1)) 2 demo_hv) as (w1 & r & j & Hr & H1 & H2 & _);
    [done|done|]. exists w1, r, j. split; [exact Hr|split; [exact H1|exact H2]].
Defined.
