(* ===== verification/Powerctl.v ===== *)
(** Powering Arm CPUs on and off, src/qemu/target/arm/arm-powerctl.c, with the
    parts of CPU reset (src/qemu/target/arm/cpu.c) and of the work queue
    (src/qemu/cpu-common.c) it relies on.

    [ARMCPU] keeps what power control reads or writes: the identity and features of
    the CPU, its power state, the general registers and PC, the current exception
    level, and the bits of SCR_EL3 and HCR_EL2 that give the width of a lower
    level.  The work other CPUs have queued for it is a list, run in order.  A
    failed assertion of the source is [None], those on QEMU's global lock (BQL) included: [bql] says
    whether the calling thread holds it. *)
From S2P Require Import Prelude.

(** ** CPUs *)
Inductive ARMPSCIState := PSCI_ON | PSCI_OFF | PSCI_ON_PENDING.
#[export] Instance ARMPSCIState_eq_dec : EqDecision ARMPSCIState.
Proof. solve_decision. Defined.
Definition psci_state_val (p : ARMPSCIState) : Z :=
  match p with PSCI_ON => 0 | PSCI_OFF => 1 | PSCI_ON_PENDING => 2 end.

(** Why a CPU sleeps; only the event register wakes one that executed WFE. *)
Inductive ARMHaltReason := NOT_HALTED | HALT_PSCI | HALT_WFI | HALT_WFE.
#[export] Instance ARMHaltReason_eq_dec : EqDecision ARMHaltReason.
Proof. solve_decision. Defined.

Record CpuOnInfo := mkInfo { entry : Z; context_id : Z; target_el : Z; target_aa64 : bool }.

(** The functions that are queued on a CPU. *)
Inductive cpu_work :=
  | arm_set_cpu_on_work (info : CpuOnInfo)
  | arm_set_cpu_on_and_reset_work
  | arm_set_cpu_off_work
  | arm_reset_cpu_work.

Record ARMCPU := mkCpu {
  mp_affinity : Z; psci_conduit : Z;
  feat_el2 : bool; feat_el3 : bool; feat_aarch64 : bool; feat_v8 : bool; aa32_el2 : bool;
  start_powered_off : bool; rvbar : Z; scr_rw_reset : bool;
  power_state : ARMPSCIState; halted : bool; halt_reason : ARMHaltReason; event_register : bool;
  aarch64 : bool; current_el : Z;
  scr_rw : bool; scr_ns : bool; scr_eel2 : bool; hcr_rw : bool;
  xregs : list Z; regs : list Z; pc : Z; thumb : bool;
  exception_index : Z; work_list : list cpu_work
}.
#[export] Instance eta_cpu : Settable ARMCPU := λ r,
  mkCpu (mp_affinity r) (psci_conduit r) (feat_el2 r) (feat_el3 r) (feat_aarch64 r) (feat_v8 r) (aa32_el2 r)
    (start_powered_off r) (rvbar r) (scr_rw_reset r) (power_state r) (halted r) (halt_reason r) (event_register r) (aarch64 r) (current_el r)
    (scr_rw r) (scr_ns r) (scr_eel2 r) (hcr_rw r) (xregs r) (regs r) (pc r) (thumb r) (exception_index r) (work_list r).

(** ** Register widths *)
Definition arm_scr_rw_eff (c : ARMCPU) : bool :=
  if scr_rw c then true
  else if scr_ns c then feat_el2 c && negb (aa32_el2 c)
  else scr_eel2 c.

Definition arm_is_el2_enabled (c : ARMCPU) : bool :=
  let secure := feat_el3 c && negb (scr_ns c) in
  feat_el2 c && (negb secure || scr_eel2 c).

Definition arm_el_is_aa64 (c : ARMCPU) (el : Z) : bool :=
  let aa64 := feat_aarch64 c in
  if el =? 3 then aa64
  else
    let aa64 := if feat_el3 c then aa64 && arm_scr_rw_eff c else aa64 in
    if el =? 2 then aa64
    else if arm_is_el2_enabled c then aa64 && hcr_rw c else aa64.

(** ** Reset *)
Definition highest_el (c : ARMCPU) : Z := if feat_el3 c then 3 else if feat_el2 c then 2 else 1.

(** cpu_reset: the common part (halted) and the Arm part, as one update. *)
Definition cpu_reset (c : ARMCPU) : ARMCPU :=
  mkCpu (mp_affinity c) (psci_conduit c) (feat_el2 c) (feat_el3 c) (feat_aarch64 c) (feat_v8 c) (aa32_el2 c)
    (start_powered_off c) (rvbar c) (scr_rw_reset c)
    (if start_powered_off c then PSCI_OFF else PSCI_ON) (start_powered_off c)
    (if start_powered_off c then HALT_PSCI else NOT_HALTED) false
    (feat_aarch64 c) (highest_el c)
    (scr_rw_reset c) false false false
    (replicate 32 0)
    (if feat_aarch64 c then replicate 16 0
     else if feat_v8 c then <[15%nat := u32 (rvbar c)]> (replicate 16 0) else replicate 16 0)
    (if feat_aarch64 c then rvbar c else 0) false (-1) (work_list c).

Definition arm_cpu_set_pc (c : ARMCPU) (value : Z) : ARMCPU :=
  if aarch64 c then c <| pc := value |> <| thumb := false |>
  else c <| regs := <[15%nat := u32 (Z.land value (UINT64_MAX - 1))]> (regs c) |> <| thumb := nz (Z.land value 1) |>.

(** The part of firmware's work below the highest level: the width bits of the
    levels above, the security state and the level itself. *)
Definition firmware_configure (c : ARMCPU) (el : Z) : ARMCPU :=
  let c := if feat_el3 c then (if aarch64 c then c <| scr_rw := true |> else c) <| scr_ns := true |> else c in
  let c := if feat_el2 c && (el <? 2) then if aarch64 c then c <| hcr_rw := true |> else c else c in
  c <| current_el := el |>.

Definition arm_emulate_firmware_reset (c : ARMCPU) (el : Z) : option ARMCPU :=
  if el =? 3 then if feat_el3 c then Some c else None
  else if el =? 2 then
    if feat_el2 c then if negb (feat_el3 c) then Some c else Some (firmware_configure c el) else None
  else if el =? 1 then
    if negb (feat_el3 c) && negb (feat_el2 c) then Some c else Some (firmware_configure c el)
  else None.

Definition arm_set_cpu_power_state (c : ARMCPU) (p : ARMPSCIState) : ARMCPU :=
  c <| power_state := p |> <| halt_reason := if decide (p = PSCI_OFF) then HALT_PSCI else NOT_HALTED |>.

(** ** Sleeping and waking up; [irq] is whether an interrupt of the CPU is pending *)
Definition arm_cpu_has_work (irq : bool) (c : ARMCPU) : option bool :=
  if decide (power_state c = PSCI_OFF) then if decide (halt_reason c = HALT_PSCI) then Some false else None
  else if bool_decide (halt_reason c = HALT_WFE) && event_register c then Some true
  else Some irq.

Definition arm_cpu_exec_halt (irq : bool) (c : ARMCPU) : option (bool * ARMCPU) :=
  leave_halt ← arm_cpu_has_work irq c;
  Some (leave_halt, if (leave_halt : bool) then c <| halt_reason := NOT_HALTED |> else c).

Definition cpu_handle_halt (irq : bool) (c : ARMCPU) : option (bool * ARMCPU) :=
  '(leave_halt, c) ← arm_cpu_exec_halt irq c;
  Some (if (leave_halt : bool) then (false, c <| halted := false |>) else (true, c)).

(** ** The queued work; [bql] is bql_locked() of the thread that runs it *)
Definition EXCP_HLT : Z := 0x10001.

Definition arm_set_cpu_on_async_work (bql : bool) (c : ARMCPU) (info : CpuOnInfo) : option ARMCPU :=
  c ← arm_emulate_firmware_reset (cpu_reset c) (target_el info);
  let c := c <| halted := false |> in
  if negb (target_el info =? current_el c) then None
  else
    let c := if target_aa64 info then c <| xregs := <[0%nat := context_id info]> (xregs c) |>
             else c <| regs := <[0%nat := u32 (context_id info)]> (regs c) |> in
    let c := arm_cpu_set_pc c (entry info) in
    if bql then Some (arm_set_cpu_power_state c PSCI_ON) else None.

Definition arm_set_cpu_on_and_reset_async_work (bql : bool) (c : ARMCPU) : option ARMCPU :=
  let c := (cpu_reset c) <| halted := false |> in
  if bql then Some (arm_set_cpu_power_state c PSCI_ON) else None.

Definition arm_set_cpu_off_async_work (bql : bool) (c : ARMCPU) : option ARMCPU :=
  if bql then Some ((arm_set_cpu_power_state c PSCI_OFF) <| halted := true |> <| exception_index := EXCP_HLT |>)
  else None.

Definition arm_reset_cpu_async_work (c : ARMCPU) : ARMCPU := cpu_reset c.

Definition run_work (bql : bool) (w : cpu_work) (c : ARMCPU) : option ARMCPU :=
  match w with
  | arm_set_cpu_on_work info => arm_set_cpu_on_async_work bql c info
  | arm_set_cpu_on_and_reset_work => arm_set_cpu_on_and_reset_async_work bql c
  | arm_set_cpu_off_work => arm_set_cpu_off_async_work bql c
  | arm_reset_cpu_work => Some (arm_reset_cpu_async_work c)
  end.

Fixpoint run_works (bql : bool) (ws : list cpu_work) (c : ARMCPU) : option ARMCPU :=
  match ws with [] => Some c | w :: ws => c ← run_work bql w c; run_works bql ws c end.

(** The queue is emptied before the CPU executes anything. *)
Definition process_queued_cpu_work (bql : bool) (c : ARMCPU) : option ARMCPU :=
  run_works bql (work_list c) (c <| work_list := [] |>).

Definition async_run_on_cpu (w : cpu_work) (c : ARMCPU) : ARMCPU := c <| work_list := work_list c ++ [w] |>.

(** ** Requests *)
Definition QEMU_ARM_POWERCTL_RET_SUCCESS : Z := 0.
Definition QEMU_ARM_POWERCTL_INVALID_PARAM : Z := -2.
Definition QEMU_ARM_POWERCTL_IS_OFF : Z := -3.
Definition QEMU_ARM_POWERCTL_ALREADY_ON : Z := -4.
Definition QEMU_ARM_POWERCTL_ON_PENDING : Z := -5.

Fixpoint find_cpu (i : nat) (cpus : list ARMCPU) (id : Z) : option nat :=
  match cpus with
  | [] => None
  | c :: cpus => if mp_affinity c =? id then Some i else find_cpu (S i) cpus id
  end.
Definition arm_get_cpu_by_id (cpus : list ARMCPU) (id : Z) : option nat := find_cpu 0 cpus id.

(** The CPU with index [i] and what the request does to it: a result, and the work
    to queue when the request is accepted. *)
Definition request (cpus : list ARMCPU) (id : Z) (f : ARMCPU → Z * option cpu_work) : Z * list ARMCPU :=
  match arm_get_cpu_by_id cpus id with
  | None => (QEMU_ARM_POWERCTL_INVALID_PARAM, cpus)
  | Some i =>
      match cpus !! i with
      | None => (QEMU_ARM_POWERCTL_INVALID_PARAM, cpus)
      | Some c =>
          match f c with
          | (ret, None) => (ret, cpus)
          | (ret, Some w) => (ret, <[i := async_run_on_cpu w c]> cpus)
          end
      end
  end.

Definition arm_set_cpu_on (bql : bool) (cpus : list ARMCPU) (cpuid : Z) (info : CpuOnInfo) :
    option (Z * list ARMCPU) :=
  if negb bql then None
  else if negb ((0 <? target_el info) && (target_el info <? 4)) then None
  else if target_aa64 info && nz (Z.land (entry info) 3) then Some (QEMU_ARM_POWERCTL_INVALID_PARAM, cpus)
  else Some (request cpus cpuid (λ c,
    if decide (power_state c = PSCI_ON) then (QEMU_ARM_POWERCTL_ALREADY_ON, None)
    else if ((target_el info =? 3) && negb (feat_el3 c)) || ((target_el info =? 2) && negb (feat_el2 c))
    then (QEMU_ARM_POWERCTL_INVALID_PARAM, None)
    else if negb (target_aa64 info) && feat_aarch64 c then (QEMU_ARM_POWERCTL_INVALID_PARAM, None)
    else if decide (power_state c = PSCI_ON_PENDING) then (QEMU_ARM_POWERCTL_ON_PENDING, None)
    else (QEMU_ARM_POWERCTL_RET_SUCCESS, Some (arm_set_cpu_on_work info)))).

Definition arm_set_cpu_on_and_reset (bql : bool) (cpus : list ARMCPU) (cpuid : Z) : option (Z * list ARMCPU) :=
  if negb bql then None else Some (request cpus cpuid (λ c,
    if decide (power_state c = PSCI_ON) then (QEMU_ARM_POWERCTL_ALREADY_ON, None)
    else if decide (power_state c = PSCI_ON_PENDING) then (QEMU_ARM_POWERCTL_ON_PENDING, None)
    else (QEMU_ARM_POWERCTL_RET_SUCCESS, Some arm_set_cpu_on_and_reset_work))).

Definition arm_set_cpu_off (bql : bool) (cpus : list ARMCPU) (cpuid : Z) : option (Z * list ARMCPU) :=
  if negb bql then None else Some (request cpus cpuid (λ c,
    if decide (power_state c = PSCI_OFF) then (QEMU_ARM_POWERCTL_IS_OFF, None)
    else (QEMU_ARM_POWERCTL_RET_SUCCESS, Some arm_set_cpu_off_work))).

Definition arm_reset_cpu (bql : bool) (cpus : list ARMCPU) (cpuid : Z) : option (Z * list ARMCPU) :=
  if negb bql then None else Some (request cpus cpuid (λ c,
    if decide (power_state c = PSCI_OFF) then (QEMU_ARM_POWERCTL_IS_OFF, None)
    else (QEMU_ARM_POWERCTL_RET_SUCCESS, Some arm_reset_cpu_work))).

(** ** What queued work may be, and what it does *)
Definition info_ok (c : ARMCPU) (info : CpuOnInfo) : Prop :=
  0 < target_el info < 4 ∧ (target_el info = 3 → feat_el3 c = true) ∧ (target_el info = 2 → feat_el2 c = true) ∧
  (target_aa64 info = false → feat_aarch64 c = false).
Definition work_ok (c : ARMCPU) (w : cpu_work) : Prop :=
  match w with arm_set_cpu_on_work info => info_ok c info | _ => True end.

(** Nothing here changes who a CPU is. *)
Definition same_cpu (c c' : ARMCPU) : Prop :=
  mp_affinity c' = mp_affinity c ∧ psci_conduit c' = psci_conduit c ∧ feat_el2 c' = feat_el2 c ∧
  feat_el3 c' = feat_el3 c ∧ feat_aarch64 c' = feat_aarch64 c ∧ start_powered_off c' = start_powered_off c.

#[export] Instance same_cpu_preorder : PreOrder same_cpu.
Proof.
  split; [by intros ?|]. intros c1 c2 c3 (?&?&?&?&?&?) (?&?&?&?&?&?). unfold same_cpu. split_and!; congruence.
Qed.

Lemma work_ok_same c c' w : same_cpu c c' → work_ok c w → work_ok c' w.
Proof. intros (_&_&E2&E3&E4&_). destruct w; simpl; [|done..]. unfold info_ok. by rewrite E2, E3, E4. Qed.

(** Being off and sleeping for that reason are the same thing. *)
Definition off_ok (c : ARMCPU) : Prop :=
  (power_state c = PSCI_OFF → halted c = true) ∧ (power_state c = PSCI_OFF ↔ halt_reason c = HALT_PSCI).

(** A CPU at rest: a powered-off CPU is halted, and its queue can be run. *)
Record cpu_ok (c : ARMCPU) : Prop := {
  co_off : off_ok c;
  co_pending : power_state c ≠ PSCI_ON_PENDING;
  co_xregs : length (xregs c) = 32%nat;
  co_work : Forall (work_ok c) (work_list c)
}.

Lemma firmware_configure_spec c el :
  let c' := firmware_configure c el in
  current_el c' = el ∧ same_cpu c c' ∧ xregs c' = xregs c ∧ regs c' = regs c ∧ aarch64 c' = aarch64 c ∧
  work_list c' = work_list c.
Proof. unfold firmware_configure. by repeat case_match. Qed.

Lemma cpu_reset_spec c :
  let c' := cpu_reset c in
  current_el c' = highest_el c ∧ same_cpu c c' ∧ xregs c' = replicate 32 0 ∧ length (regs c') = 16%nat ∧
  aarch64 c' = feat_aarch64 c ∧ work_list c' = work_list c.
Proof.
  split_and!; try done. simpl. by repeat case_match.
Qed.

Lemma firmware_reset_spec c el :
  0 < el < 4 → (el = 3 → feat_el3 c = true) → (el = 2 → feat_el2 c = true) →
  ∃ c', arm_emulate_firmware_reset (cpu_reset c) el = Some c' ∧ current_el c' = el ∧ same_cpu c c' ∧
    xregs c' = replicate 32 0 ∧ length (regs c') = 16%nat ∧ aarch64 c' = feat_aarch64 c ∧
    work_list c' = work_list c.
Proof.
  intros Hel H3 H2. destruct (cpu_reset_spec c) as (E & S & X & R & A & W).
  pose proof (firmware_configure_spec (cpu_reset c) el) as (Ef & Sf & Xf & Rf & Af & Wf).
  rewrite X in Xf. rewrite A in Af. rewrite W in Wf. assert (R' := R). rewrite <- Rf in R'.
  assert (same_cpu c (firmware_configure (cpu_reset c) el)) as Sc by (by etransitivity).
  pose proof S as (_&_&F2&F3&_). unfold arm_emulate_firmware_reset. rewrite F2, F3.
  unfold highest_el in E.
  assert (el = 1 ∨ el = 2 ∨ el = 3) as [->|[->| ->]] by lia; simpl (_ =? _); cbn iota.
  - destruct (feat_el3 c), (feat_el2 c); cbn [negb andb]; eexists; (split; [done|]); by split_and!.
  - rewrite (H2 eq_refl) in *. destruct (feat_el3 c); cbn [negb]; eexists; (split; [done|]); by split_and!.
  - rewrite (H3 eq_refl) in *. eexists. split; [done|]. by split_and!.
Qed.

(** A CPU_ON request, once run, starts the CPU where it was asked to. *)
Lemma set_cpu_on_spec c info :
  info_ok c info →
  ∃ c', arm_set_cpu_on_async_work true c info = Some c' ∧ same_cpu c c' ∧ power_state c' = PSCI_ON ∧
    (halted c' = false ∧ halt_reason c' = NOT_HALTED) ∧ current_el c' = target_el info ∧ length (xregs c') = 32%nat ∧
    work_list c' = work_list c ∧
    (feat_aarch64 c = true → aarch64 c' = true ∧ pc c' = entry info ∧ xregs c' = context_id info :: replicate 31 0).
Proof.
  intros (Hel & H3 & H2 & Ha).
  destruct (firmware_reset_spec c (target_el info) Hel H3 H2) as (c1 & E & Hc & Hs & Hx & Hr & Haa & Hw).
  unfold arm_set_cpu_on_async_work. rewrite E. cbn [mbind option_bind]. cbv zeta.
  change (current_el (c1 <| halted := false |>)) with (current_el c1). rewrite Hc, Z.eqb_refl. cbn [negb].
  eexists. split; [done|]. unfold arm_set_cpu_power_state, arm_cpu_set_pc.
  destruct (target_aa64 info) eqn:Et.
  - change (aarch64 (_ <| xregs := _ |>)) with (aarch64 c1). rewrite Haa.
    destruct (feat_aarch64 c) eqn:Ef; simpl; rewrite Hx; split_and!; try done.
  - change (aarch64 (_ <| regs := _ |>)) with (aarch64 c1). rewrite Haa, Ha by done.
    simpl. rewrite Hx. by split_and!.
Qed.

Lemma run_work_spec w c :
  cpu_ok c → work_ok c w →
  ∃ c', run_work true w c = Some c' ∧ same_cpu c c' ∧ work_list c' = work_list c ∧
    off_ok c' ∧ power_state c' ≠ PSCI_ON_PENDING ∧ length (xregs c') = 32%nat.
Proof.
  intros [] Hw. destruct w as [info| | |]; simpl.
  - destruct (set_cpu_on_spec c info Hw) as (c' & -> & ? & Hp & [_ Hr] & _ & ? & ? & _).
    exists c'. unfold off_ok. rewrite Hp, Hr. by split_and!.
  - eexists. by split_and!.
  - eexists. by split_and!.
  - eexists. split; [done|]. unfold arm_reset_cpu_async_work, off_ok. split_and!; try done; simpl; by case_match.
Qed.

Lemma run_works_spec ws c :
  cpu_ok c → Forall (work_ok c) ws → work_list c = [] →
  ∃ c', run_works true ws c = Some c' ∧ same_cpu c c' ∧ cpu_ok c' ∧ work_list c' = [].
Proof.
  revert c. induction ws as [|w ws IH]; intros c Hc Hws Hl; simpl; [by exists c|].
  apply Forall_cons in Hws as [Hw Hws].
  destruct (run_work_spec w c Hc Hw) as (c1 & -> & Hs & Hl1 & Hoff & Hpend & Hx). simpl.
  rewrite Hl in Hl1. destruct (IH c1) as (c' & -> & Hs' & Hc' & Hl').
  - constructor; [done|done|done|]. by rewrite Hl1.
  - eapply Forall_impl; [exact Hws|]. intros w'. by apply work_ok_same.
  - done.
  - exists c'. split; [done|]. split; [by etransitivity|done].
Qed.

(** Emptying the queue of a CPU never fails an assertion. *)
Lemma process_work_spec c :
  cpu_ok c → ∃ c', process_queued_cpu_work true c = Some c' ∧ same_cpu c c' ∧ cpu_ok c' ∧ work_list c' = [].
Proof.
  intros Hc. pose proof Hc as [H1 H2 H3 H4]. unfold process_queued_cpu_work.
  destruct (run_works_spec (work_list c) (c <| work_list := [] |>)) as (c' & -> & Hs & Hc' & Hl); [|done|done|].
  - by constructor; simpl; [| | |constructor].
  - exists c'. split; [done|]. split; [|done]. etransitivity; [|exact Hs]. done.
Qed.

(** ** Finding a CPU *)
Lemma find_cpu_spec cpus id i k :
  find_cpu i cpus id = Some k ↔
  ∃ j c, k = (i + j)%nat ∧ cpus !! j = Some c ∧ mp_affinity c = id ∧
    ∀ j' c', (j' < j)%nat → cpus !! j' = Some c' → mp_affinity c' ≠ id.
Proof.
  revert i. induction cpus as [|c cpus IH]; intros i; simpl; [split; [done|by intros (?&?&_&?&_)]|].
  destruct (Z.eqb_spec (mp_affinity c) id) as [<-|Hne].
  - split.
    + intros [= <-]. exists 0%nat, c. split_and!; [lia|done|done|lia].
    + intros (j & c' & -> & Hj & Hid & Hmin). destruct j; [f_equal; lia|].
      by destruct (Hmin 0%nat c ltac:(lia) eq_refl).
  - rewrite IH. split.
    + intros (j & c' & -> & Hj & Hid & Hmin). exists (S j), c'. split_and!; [lia|done|done|].
      intros [|j'] c'' Hlt; [by intros [= <-]|]. apply Hmin. lia.
    + intros (j & c' & -> & Hj & Hid & Hmin). destruct j as [|j]; [simpl in Hj; congruence|].
      exists j, c'. split_and!; [lia|done|done|]. intros j' c'' Hlt Hc''. apply (Hmin (S j') c''); [lia|done].
Qed.

Lemma get_cpu_self cpus i c :
  NoDup (mp_affinity <$> cpus) → cpus !! i = Some c → arm_get_cpu_by_id cpus (mp_affinity c) = Some i.
Proof.
  intros Hnd Hi. apply find_cpu_spec. exists i, c. split_and!; [done|done|done|].
  intros j' c' Hlt Hj' Heq. assert (j' = i); [|lia].
  eapply (NoDup_lookup _ _ _ (mp_affinity c) Hnd); rewrite list_lookup_fmap; [rewrite Hj'|rewrite Hi]; simpl; congruence.
Qed.

Lemma get_cpu_some cpus id i :
  arm_get_cpu_by_id cpus id = Some i → ∃ c, cpus !! i = Some c ∧ mp_affinity c = id.
Proof. intros (j & c & -> & Hj & Hid & _)%find_cpu_spec. by exists c. Qed.

(** ** Requests that succeed *)
Definition on_check (info : CpuOnInfo) : bool :=
  (0 <? target_el info) && (target_el info <? 4) && negb (target_aa64 info && nz (Z.land (entry info) 3)).

Lemma set_cpu_on_accept cs id info k c :
  on_check info = true → arm_get_cpu_by_id cs id = Some k → cs !! k = Some c →
  power_state c = PSCI_OFF → info_ok c info →
  arm_set_cpu_on true cs id info =
    Some (QEMU_ARM_POWERCTL_RET_SUCCESS, <[k := async_run_on_cpu (arm_set_cpu_on_work info) c]> cs).
Proof.
  intros Hchk Hk Hc Hp (Hel & H3 & H2 & Ha). unfold on_check in Hchk.
  apply andb_true_iff in Hchk as [Hr Hal]. apply negb_true_iff in Hal.
  unfold arm_set_cpu_on. rewrite Hr, Hal. cbn [negb]. f_equal. unfold request. rewrite Hk, Hc, Hp.
  rewrite !decide_False by done.
  assert ((target_el info =? 3) && negb (feat_el3 c) = false) as ->.
  { destruct (Z.eqb_spec (target_el info) 3) as [E|]; [by rewrite H3|done]. }
  assert ((target_el info =? 2) && negb (feat_el2 c) = false) as ->.
  { destruct (Z.eqb_spec (target_el info) 2) as [E|]; [by rewrite H2|done]. }
  assert (negb (target_aa64 info) && feat_aarch64 c = false) as ->.
  { destruct (target_aa64 info); [done|]. by rewrite Ha. }
  done.
Qed.

(** A CPU id does not depend on the queue. *)
Lemma get_cpu_queue cs id k c w :
  cs !! k = Some c → arm_get_cpu_by_id (<[k := async_run_on_cpu w c]> cs) id = arm_get_cpu_by_id cs id.
Proof.
  unfold arm_get_cpu_by_id. generalize 0%nat. revert k.
  induction cs as [|c' cs IH]; intros [|k] n; simpl; [done|done| |].
  - by intros [= ->].
  - intros Hk. by rewrite IH.
Qed.

(** nothing records that a CPU is being powered on.  The state ON_PENDING that
    the second check of arm_set_cpu_on looks for is never entered, so two CPU_ON
    requests made before the target has run its queue both report success; the
    target then starts at the entry of the second one and the first caller's
    request is lost. *)
Theorem set_cpu_on_twice cs id k c info1 info2 :
  arm_get_cpu_by_id cs id = Some k → cs !! k = Some c → cpu_ok c →
  power_state c = PSCI_OFF → work_list c = [] → feat_aarch64 c = true →
  on_check info1 = true → on_check info2 = true → info_ok c info1 → info_ok c info2 →
  ∃ cs1 cs2 c' c'',
    arm_set_cpu_on true cs id info1 = Some (QEMU_ARM_POWERCTL_RET_SUCCESS, cs1) ∧
    arm_set_cpu_on true cs1 id info2 = Some (QEMU_ARM_POWERCTL_RET_SUCCESS, cs2) ∧
    cs2 !! k = Some c' ∧ process_queued_cpu_work true c' = Some c'' ∧
    power_state c'' = PSCI_ON ∧ pc c'' = entry info2 ∧ xregs c'' !! 0%nat = Some (context_id info2).
Proof.
  intros Hk Hc Hok Hp Hw Hf Hc1 Hc2 Hi1 Hi2.
  set (c1 := async_run_on_cpu (arm_set_cpu_on_work info1) c).
  set (c2 := async_run_on_cpu (arm_set_cpu_on_work info2) c1).
  assert (k < length cs)%nat as Hlt by (by eapply lookup_lt_Some).
  exists (<[k := c1]> cs), (<[k := c2]> (<[k := c1]> cs)).
  set (c0 := c <| work_list := [] |>).
  pose proof (set_cpu_on_spec c0 info1 Hi1) as (d1 & E1 & S1 & _ & _ & _ & _ & W1 & _).
  assert (same_cpu c d1) as Sc by exact S1.
  assert (info_ok d1 info2) as Hi2' by exact (work_ok_same c d1 (arm_set_cpu_on_work info2) Sc Hi2).
  destruct (set_cpu_on_spec d1 info2 Hi2') as (d2 & E2 & S2 & P2 & _ & _ & _ & _ & A2).
  assert (feat_aarch64 d1 = true) as Hf1 by (destruct Sc as (_&_&_&_&->&_); done).
  destruct (A2 Hf1) as (_ & Hpc & Hx).
  exists c2, d2. split_and!.
  - by apply set_cpu_on_accept.
  - apply set_cpu_on_accept; [done| |by apply list_lookup_insert_eq|done|done].
    unfold c1. by rewrite (get_cpu_queue cs id k c).
  - apply list_lookup_insert_eq. by rewrite length_insert.
  - unfold process_queued_cpu_work.
    change (work_list c2) with ((work_list c ++ [arm_set_cpu_on_work info1]) ++ [arm_set_cpu_on_work info2]).
    rewrite Hw. cbn [app run_works run_work]. change (c2 <| work_list := [] |>) with c0. rewrite E1.
    cbn [mbind option_bind]. by rewrite E2.
  - done.
  - done.
  - by rewrite Hx.
Qed.

Definition demo_cpu (id : Z) (p : ARMPSCIState) (off : bool) : ARMCPU :=
  mkCpu id 2 false false true true false off 0x100000 false p off (if off then HALT_PSCI else NOT_HALTED) false true 1 false false false false
    (replicate 32 0) (replicate 16 0) 0 false (-1) [].
Definition demo_cpus : list ARMCPU := [demo_cpu 0 PSCI_ON false; demo_cpu 1 PSCI_OFF true].

Lemma set_cpu_on_twice_witness :
  ∃ cs1 cs2 c' c'',
    arm_set_cpu_on true demo_cpus 1 (mkInfo 0x80000 7 1 true) = Some (QEMU_ARM_POWERCTL_RET_SUCCESS, cs1) ∧
    arm_set_cpu_on true cs1 1 (mkInfo 0x90000 8 1 true) = Some (QEMU_ARM_POWERCTL_RET_SUCCESS, cs2) ∧
    cs2 !! 1%nat = Some c' ∧ process_queued_cpu_work true c' = Some c'' ∧
    power_state c'' = PSCI_ON ∧ pc c'' = 0x90000 ∧ xregs c'' !! 0%nat = Some 8.
Proof.
  apply (set_cpu_on_twice demo_cpus 1 1 (demo_cpu 1 PSCI_OFF true) (mkInfo 0x80000 7 1 true) (mkInfo 0x90000 8 1 true));
    try reflexivity.
  - constructor; done.
  - unfold info_ok. simpl. lia.
  - unfold info_ok. simpl. lia.
Defined.
