(* ===== verification/Psci.v ===== *)
(** PSCI and the board's hypercalls on their shared conduit:
    src/qemu/target/arm/tcg/psci.c, the handler interface of
    src/qemu/target/arm/smccc.c, and the two together with the Apple handler of
    [Hvc] and the power control of [Powerctl].

    A board is anything with a [Smccc] instance: the handler it registered, if any,
    and what resetting a CPU does to the state behind the handler (the
    pointer-authentication keys live in the CPU).  The PSCI dispatcher and its
    theorems are proved for every board; [hv_smccc] is the Apple one. *)
From S2P Require Import Prelude Hvc Powerctl.

(** ** The handler interface *)
Class Smccc (W : Type) := {
  smccc_handler : option (nat → list Z → W → option (bool * list Z * W));
  cpu_env_reset : nat → W → W
}.
(** On the board states the machine starts from and stays in, a handler answers
    every call; one that does not claim a call leaves everything untouched. *)
Class SmcccLaws (W : Type) `{Smccc W} := {
  board_ok : W → Prop;
  smccc_total h i x w :
    smccc_handler = Some h → board_ok w → x ≠ [] →
    ∃ b x' w', h i x w = Some (b, x', w') ∧ length x' = length x ∧ board_ok w' ∧ (b = false → x' = x ∧ w' = w);
  cpu_env_reset_ok i w : board_ok w → board_ok (cpu_env_reset i w)
}.

(** ** Function identifiers, src/qemu/target/arm/kvm-consts.h *)
Definition QEMU_PSCI_0_1_FN (n : Z) : Z := 0x95c1ba5e + n.
Definition QEMU_PSCI_0_2_FN (n : Z) : Z := 0x84000000 + n.
Definition QEMU_PSCI_0_2_64BIT : Z := 0x40000000.
Definition QEMU_PSCI_0_2_FN64 (n : Z) : Z := 0x84000000 + QEMU_PSCI_0_2_64BIT + n.

Inductive psci_fn :=
  | PSCI_VERSION | MIGRATE_INFO_TYPE | AFFINITY_INFO | SYSTEM_RESET | SYSTEM_OFF | CPU_ON | CPU_OFF
  | CPU_SUSPEND | PSCI_FEATURES | MIGRATE.
#[export] Instance psci_fn_eq_dec : EqDecision psci_fn.
Proof. solve_decision. Defined.

(** The case labels of the switch, in its order. *)
Definition psci_ids : list (Z * psci_fn) :=
  [(QEMU_PSCI_0_2_FN 0, PSCI_VERSION); (QEMU_PSCI_0_2_FN 6, MIGRATE_INFO_TYPE);
   (QEMU_PSCI_0_2_FN 4, AFFINITY_INFO); (QEMU_PSCI_0_2_FN64 4, AFFINITY_INFO);
   (QEMU_PSCI_0_2_FN 9, SYSTEM_RESET); (QEMU_PSCI_0_2_FN 8, SYSTEM_OFF);
   (QEMU_PSCI_0_1_FN 2, CPU_ON); (QEMU_PSCI_0_2_FN 3, CPU_ON); (QEMU_PSCI_0_2_FN64 3, CPU_ON);
   (QEMU_PSCI_0_1_FN 1, CPU_OFF); (QEMU_PSCI_0_2_FN 2, CPU_OFF);
   (QEMU_PSCI_0_1_FN 0, CPU_SUSPEND); (QEMU_PSCI_0_2_FN 1, CPU_SUSPEND); (QEMU_PSCI_0_2_FN64 1, CPU_SUSPEND);
   (QEMU_PSCI_0_2_FN 10, PSCI_FEATURES); (QEMU_PSCI_0_1_FN 3, MIGRATE); (QEMU_PSCI_0_2_FN 5, MIGRATE)].

Fixpoint fn_lookup (ids : list (Z * psci_fn)) (id : Z) : option psci_fn :=
  match ids with [] => None | (k, f) :: ids => if id =? k then Some f else fn_lookup ids id end.
Definition psci_fn_of (id : Z) : option psci_fn := fn_lookup psci_ids id.

Definition QEMU_PSCI_RET_NOT_SUPPORTED : Z := -1.
Definition QEMU_PSCI_RET_INVALID_PARAMS : Z := -2.
Definition QEMU_PSCI_VERSION_1_1 : Z := 0x10001.
Definition QEMU_PSCI_0_2_RET_TOS_MIGRATION_NOT_REQUIRED : Z := 2.

(** ** The conduit *)
Definition QEMU_PSCI_CONDUIT_SMC : Z := 1.
Definition QEMU_PSCI_CONDUIT_HVC : Z := 2.
Inductive excp := EXCP_HVC | EXCP_SMC | EXCP_OTHER.
Definition arm_is_psci_call (c : ARMCPU) (e : excp) : bool :=
  match e with
  | EXCP_HVC => psci_conduit c =? QEMU_PSCI_CONDUIT_HVC
  | EXCP_SMC => psci_conduit c =? QEMU_PSCI_CONDUIT_SMC
  | EXCP_OTHER => false
  end.

Section psci.
Context {W : Type} `{Smccc W}.

(** [bql] is the thread that holds QEMU's global lock; thread [i] runs CPU [i], and higher numbers
    are other threads. *)
Record psci_sys := mkSys {
  cpus : list ARMCPU; board : W; reset_requested : bool; shutdown_requested : bool; bql : option nat }.
#[export] Instance eta_sys : Settable psci_sys := λ r,
  mkSys (cpus r) (board r) (reset_requested r) (shutdown_requested r) (bql r).

(** Waiting for a lock another thread holds is a step that is not enabled; see [enabled]. *)
Definition bql_locked (i : nat) (s : psci_sys) : bool := bool_decide (bql s = Some i).
Definition bql_lock (i : nat) (s : psci_sys) : option psci_sys :=
  if bql_locked i s then None else Some (s <| bql := Some i |>).
Definition bql_unlock (i : nat) (s : psci_sys) : option psci_sys :=
  if bql_locked i s then Some (s <| bql := None |>) else None.

Definition set_cpu (i : nat) (c : ARMCPU) (s : psci_sys) : psci_sys := s <| cpus := <[i := c]> (cpus s) |>.

Definition arm_smccc_dispatch (i : nat) (s : psci_sys) : option (bool * psci_sys) :=
  match smccc_handler with
  | None => Some (false, s)
  | Some h =>
      c ← cpus s !! i;
      '(b, x, w) ← h i (xregs c) (board s);
      Some (b, set_cpu i (c <| xregs := x |>) s <| board := w |>)
  end.

(** The result register of the caller. *)
Definition set_result (ret : Z) (i : nat) (s : psci_sys) : option psci_sys :=
  c ← cpus s !! i;
  Some (set_cpu i (if aarch64 c then c <| xregs := <[0%nat := u64 ret]> (xregs c) |>
                   else c <| regs := <[0%nat := u32 ret]> (regs c) |>) s).

(** helper_wfi at a call: [irq] is whether an interrupt would wake the CPU up and
    [trap] whether WFI is trapped.  It either returns, or leaves through the main
    loop; in the second case the caller's code after it does not run. *)
Definition helper_wfi (irq trap : bool) (c : ARMCPU) : option (ARMCPU * bool) :=
  work ← arm_cpu_has_work irq c;
  Some (
    if (work : bool) then (c, true)
    else if trap then
      (if aarch64 c then c <| pc := u64 (pc c - 4) |>
       else c <| regs := <[15%nat := u32 (default 0 (regs c !! 15%nat) - 4)]> (regs c) |>, false)
    else (c <| halt_reason := HALT_WFI |> <| exception_index := EXCP_HLT |> <| halted := true |>, false)).

(** A value of the [ret] variable to be stored, or a jump elsewhere. *)
Inductive psci_outcome := Ret (ret : Z) | CpuOff | Gone.

Definition psci_features (a64 : bool) (id : Z) : Z :=
  match psci_fn_of id with
  | Some MIGRATE | None => QEMU_PSCI_RET_NOT_SUPPORTED
  | Some _ => if (Z.land id QEMU_PSCI_0_2_64BIT =? 0) || a64 then 0 else QEMU_PSCI_RET_NOT_SUPPORTED
  end.

Definition psci_dispatch (irq trap : bool) (i : nat) (c : ARMCPU) (param : Z → Z) (s : psci_sys) :
    option (psci_outcome * psci_sys) :=
  match psci_fn_of (param 0) with
  | Some PSCI_VERSION => Some (Ret QEMU_PSCI_VERSION_1_1, s)
  | Some MIGRATE_INFO_TYPE => Some (Ret QEMU_PSCI_0_2_RET_TOS_MIGRATION_NOT_REQUIRED, s)
  | Some AFFINITY_INFO =>
      if param 2 =? 0 then
        match arm_get_cpu_by_id (cpus s) (param 1) with
        | None => Some (Ret QEMU_PSCI_RET_INVALID_PARAMS, s)
        | Some k =>
            t ← cpus s !! k;
            if bql_locked i s then Some (Ret (psci_state_val (power_state t)), s) else None
        end
      else Some (Ret 0, s)
  | Some SYSTEM_RESET => Some (CpuOff, s <| reset_requested := true |>)
  | Some SYSTEM_OFF => Some (CpuOff, s <| shutdown_requested := true |>)
  | Some CPU_ON =>
      let el := if feat_el2 c then 2 else 1 in
      '(ret, cs) ← arm_set_cpu_on (bql_locked i s) (cpus s) (param 1) (mkInfo (param 2) (param 3) el (arm_el_is_aa64 c el));
      Some (Ret ret, s <| cpus := cs |>)
  | Some CPU_OFF => Some (CpuOff, s)
  | Some CPU_SUSPEND =>
      if nz (Z.land (param 1) 0xfffe0000) then Some (Ret QEMU_PSCI_RET_INVALID_PARAMS, s)
      else
        s ← set_result 0 i s;
        c ← cpus s !! i;
        '(c, returned) ← helper_wfi irq trap c;
        Some (if (returned : bool) then Ret 0 else Gone, set_cpu i c s)
  | Some PSCI_FEATURES => Some (Ret (psci_features (aarch64 c) (param 1)), s)
  | Some MIGRATE | None => Some (Ret QEMU_PSCI_RET_NOT_SUPPORTED, s)
  end.

Definition arm_handle_psci_call (irq trap : bool) (i : nat) (s : psci_sys) : option psci_sys :=
  c ← cpus s !! i;
  let param n := default 0 ((if aarch64 c then xregs c else regs c) !! Z.to_nat n) in
  '(claimed, s) ← (if aarch64 c then arm_smccc_dispatch i s else Some (false, s));
  if (claimed : bool) then Some s
  else if nz (Z.land (param 0) QEMU_PSCI_0_2_64BIT) && negb (aarch64 c)
  then set_result QEMU_PSCI_RET_NOT_SUPPORTED i s
  else
    '(o, s) ← psci_dispatch irq trap i c param s;
    match o with
    | Ret ret => set_result ret i s
    | Gone => Some s
    | CpuOff =>
        '(ret, cs) ← arm_set_cpu_off (bql_locked i s) (cpus s) (mp_affinity c);
        if ret =? QEMU_ARM_POWERCTL_RET_SUCCESS then Some (s <| cpus := cs |>) else None
    end.

(** ** The machine: calls by running CPUs, and CPUs running their queues *)
Definition work_resets (w : cpu_work) : bool := match w with arm_set_cpu_off_work => false | _ => true end.

Definition run_queue (i : nat) (s : psci_sys) : option psci_sys :=
  c ← cpus s !! i;
  c' ← process_queued_cpu_work (bql_locked i s) c;
  let s := set_cpu i c' s in
  Some (if existsb work_resets (work_list c) then s <| board := cpu_env_reset i (board s) |> else s).

(** The callers.  An exception is handled under the lock; a call that leaves through the main loop
    drops the lock on the way.  A CPU's thread holds the lock around its loop but for execution,
    and runs its queue there. *)
Definition conduit_call (irq trap : bool) (i : nat) (s : psci_sys) : option psci_sys :=
  s ← bql_lock i s; s ← arm_handle_psci_call irq trap i s; bql_unlock i s.
Definition vcpu_events (i : nat) (s : psci_sys) : option psci_sys :=
  s ← bql_lock i s; s ← run_queue i s; bql_unlock i s.

(** A CPU executes only when it is on; work may be queued for it at any time. *)
Definition runs (c : ARMCPU) : Prop := power_state c = PSCI_ON.

Inductive psci_event :=
  | HvcCall (irq trap : bool) (i : nat)
  | SetReg (i : nat) (x : list Z)        (* the CPU computes its arguments *)
  | RunQueue (i : nat)
  | SetEvent (i : nat) (b : bool)        (* the event register, from any CPU *)
  | HandleHalt (irq : bool) (i : nat)    (* the main loop looks at a halted CPU *)
  | TakeLock (j : nat)                   (* another thread of QEMU *)
  | DropLock (j : nat).

Definition enabled (s : psci_sys) (e : psci_event) : Prop :=
  match e with
  | HvcCall _ _ i => bql s = None ∧ ∃ c, cpus s !! i = Some c ∧ runs c
  | SetReg i x => ∃ c, cpus s !! i = Some c ∧ runs c ∧ length x = 32%nat
  | RunQueue i => bql s = None ∧ (i < length (cpus s))%nat
  | SetEvent i _ => (i < length (cpus s))%nat
  | HandleHalt _ i => ∃ c, cpus s !! i = Some c ∧ halted c = true
  | TakeLock j => bql s = None ∧ (length (cpus s) ≤ j)%nat
  | DropLock j => bql s = Some j ∧ (length (cpus s) ≤ j)%nat
  end.

Definition psci_step (s : psci_sys) (e : psci_event) : option psci_sys :=
  match e with
  | HvcCall irq trap i => conduit_call irq trap i s
  | SetReg i x => c ← cpus s !! i; Some (set_cpu i (c <| xregs := x |>) s)
  | RunQueue i => vcpu_events i s
  | SetEvent i b => c ← cpus s !! i; Some (set_cpu i (c <| event_register := b |>) s)
  | HandleHalt irq i => c ← cpus s !! i; '(_, c) ← cpu_handle_halt irq c; Some (set_cpu i c s)
  | TakeLock j => bql_lock j s
  | DropLock j => bql_unlock j s
  end.

Inductive psci_reachable (s0 : psci_sys) : psci_sys → Prop :=
  | psci_start : psci_reachable s0 s0
  | psci_next s e s' : psci_reachable s0 s → enabled s e → psci_step s e = Some s' → psci_reachable s0 s'.

End psci.
Arguments psci_sys : clear implicits.

(** ** Safety *)
Section safety.
Context {W : Type} `{!Smccc W, !SmcccLaws W}.
Implicit Types s : psci_sys W.

Record machine_ok s : Prop := {
  so_cpus : Forall cpu_ok (cpus s);
  so_ids : NoDup (mp_affinity <$> cpus s);
  so_board : board_ok (board s)
}.

Lemma cpus_replace (cs : list ARMCPU) i c c' :
  Forall cpu_ok cs → NoDup (mp_affinity <$> cs) → cs !! i = Some c → cpu_ok c' → same_cpu c c' →
  Forall cpu_ok (<[i := c']> cs) ∧ NoDup (mp_affinity <$> <[i := c']> cs).
Proof.
  intros Hc Hn Hi Hc' (Hid & _). split; [by apply Forall_insert|].
  rewrite list_fmap_insert, list_insert_id; [done|]. by rewrite list_lookup_fmap, Hi, Hid.
Qed.

Lemma machine_ok_set s i c c' :
  machine_ok s → cpus s !! i = Some c → cpu_ok c' → same_cpu c c' → machine_ok (set_cpu i c' s).
Proof.
  intros [] Hi Hc' Hs. by destruct (cpus_replace (cpus s) i c c').
Qed.

Lemma machine_ok_cpu s i c : machine_ok s → cpus s !! i = Some c → cpu_ok c.
Proof. intros [] Hi. by eapply Forall_lookup_1. Qed.

Lemma set_result_ok s i c ret :
  machine_ok s → cpus s !! i = Some c →
  ∃ s', set_result ret i s = Some s' ∧ machine_ok s' ∧ bql s' = bql s ∧ ∃ c', cpus s' !! i = Some c' ∧ same_cpu c c' ∧ cpu_ok c' ∧ power_state c' = power_state c.
Proof.
  intros Hs Hi. pose proof (machine_ok_cpu _ _ _ Hs Hi) as [H1 H2 H3 H4]. unfold set_result. rewrite Hi.
  cbn [mbind option_bind]. eexists. split; [done|].
  match goal with |- machine_ok (set_cpu i ?x s) ∧ _ => set (c' := x) end.
  assert (same_cpu c c' ∧ cpu_ok c' ∧ power_state c' = power_state c) as (Hsame & Hok & Hps).
  { unfold c'. destruct (aarch64 c); (split; [done|]); (split; [|done]); constructor; simpl; rewrite ?length_insert; done. }
  split; [by eapply machine_ok_set|]. split; [done|]. exists c'. split_and!; [|done..]. simpl.
  apply list_lookup_insert_eq. by eapply lookup_lt_Some.
Qed.

Lemma request_ok cs id f ret cs' :
  Forall cpu_ok cs → NoDup (mp_affinity <$> cs) →
  (∀ c w r, f c = (r, Some w) → work_ok c w) →
  request cs id f = (ret, cs') → Forall cpu_ok cs' ∧ NoDup (mp_affinity <$> cs').
Proof.
  intros Hc Hn Hf. unfold request. destruct (arm_get_cpu_by_id cs id) as [i|]; [|by intros [= <- <-]].
  destruct (cs !! i) as [c|] eqn:Ei; [|by intros [= <- <-]].
  destruct (f c) as [r [w|]] eqn:E; intros [= <- <-]; [|done].
  assert (cpu_ok c) as [H1 H2 H3 H4] by (by eapply Forall_lookup_1).
  apply (cpus_replace cs i c); [done|done|done| |done].
  constructor; simpl; try done. apply Forall_app. split; [done|]. constructor; [|done].
  apply (Hf c w r E).
Qed.

Lemma set_cpu_on_ok cs id info ret cs' :
  Forall cpu_ok cs → NoDup (mp_affinity <$> cs) →
  arm_set_cpu_on true cs id info = Some (ret, cs') → Forall cpu_ok cs' ∧ NoDup (mp_affinity <$> cs').
Proof.
  intros Hc Hn. unfold arm_set_cpu_on. cbn [negb].
  destruct (negb ((0 <? target_el info) && (target_el info <? 4))) eqn:Er; [done|].
  case_match; intros [= E]; [by simplify_eq|]. revert E. apply request_ok; [done|done|].
  intros c w r. repeat case_match; intros [= <- <-]. simpl. unfold info_ok.
  apply orb_false_iff in H1 as [H1a H1b]. reflect_bools.
  split_and!; try lia; intros Ht.
  - rewrite Ht in H1a. by destruct (feat_el3 c).
  - rewrite Ht in H1b. by destruct (feat_el2 c).
  - rewrite Ht in H2. by destruct (feat_aarch64 c).
Qed.

Lemma request_length cs id f : length (request cs id f).2 = length cs.
Proof. unfold request. repeat case_match; simpl; rewrite ?length_insert; done. Qed.

Lemma set_cpu_on_length cs id info ret cs' i :
  arm_set_cpu_on true cs id info = Some (ret, cs') → (i < length cs)%nat → (i < length cs')%nat.
Proof.
  unfold arm_set_cpu_on. cbn [negb]. destruct (negb _); [done|]. destruct (target_aa64 info && _); [by intros [= <- <-]|].
  intros [= E] Hi. pose proof (request_length cs id) as Hl.
  match type of E with request _ _ ?f = _ => specialize (Hl f) end. rewrite E in Hl. simpl in Hl. lia.
Qed.

Lemma has_work_ok irq c : cpu_ok c → ∃ b, arm_cpu_has_work irq c = Some b ∧ (b = true → power_state c ≠ PSCI_OFF).
Proof.
  intros [H1 _ _ _]. unfold arm_cpu_has_work. case_decide as Hp.
  - apply H1 in Hp as Hr. rewrite decide_True by done. by exists false.
  - case_match; eauto.
Qed.

Lemma helper_wfi_ok irq trap c :
  cpu_ok c → power_state c = PSCI_ON →
  ∃ c' b, helper_wfi irq trap c = Some (c', b) ∧ cpu_ok c' ∧ same_cpu c c'.
Proof.
  intros Hok Hp. destruct (has_work_ok irq c Hok) as (b & E & _). destruct Hok as [H1 H2 H3 H4].
  unfold helper_wfi. rewrite E. cbn [mbind option_bind].
  unfold off_ok in H1. rewrite Hp in H1.
  repeat case_match; eexists _, _; (split; [done|]); (split; [|done]); constructor; unfold off_ok; simpl; rewrite ?Hp; try done.
Qed.

Lemma handle_halt_ok irq c :
  cpu_ok c → ∃ b c', cpu_handle_halt irq c = Some (b, c') ∧ cpu_ok c' ∧ same_cpu c c'.
Proof.
  intros Hok. destruct (has_work_ok irq c Hok) as (b & E & Hb). destruct Hok as [H1 H2 H3 H4].
  unfold cpu_handle_halt, arm_cpu_exec_halt. rewrite E. cbn [mbind option_bind].
  destruct b; eexists _, _; (split; [done|]); (split; [|done]); constructor; try done.
  specialize (Hb eq_refl). unfold off_ok. simpl. by split; [|split].
Qed.

Lemma dispatch_smccc_ok s i c :
  machine_ok s → cpus s !! i = Some c →
  ∃ b s', arm_smccc_dispatch i s = Some (b, s') ∧ machine_ok s' ∧ bql s' = bql s ∧ (b = false → cpus s' = cpus s ∧ board s' = board s ∧
    reset_requested s' = reset_requested s ∧ shutdown_requested s' = shutdown_requested s).
Proof.
  intros Hs Hi. unfold arm_smccc_dispatch. destruct smccc_handler as [h|] eqn:Eh; [|by exists false, s].
  rewrite Hi. cbn [mbind option_bind]. pose proof (machine_ok_cpu _ _ _ Hs Hi) as [H1 H2 H3 H4].
  destruct (smccc_total h i (xregs c) (board s) Eh) as (b & x' & w' & -> & Hl & Hb & Hun);
    [apply Hs|by intros E; rewrite E in H3|]. cbn [mbind option_bind].
  eexists b, _. split; [done|]. split_and!; [|done|].
  - assert (cpu_ok (c <| xregs := x' |>)) as Hc by (constructor; simpl; congruence || done).
    by destruct (machine_ok_set s i c (c <| xregs := x' |>)).
  - intros [-> ->]%Hun. split_and!; try done. simpl. apply list_insert_id. rewrite Hi. by destruct c.
Qed.

Lemma psci_dispatch_ok irq trap i c param s :
  machine_ok s → bql_locked i s = true → cpus s !! i = Some c → power_state c = PSCI_ON →
  ∃ o s', psci_dispatch irq trap i c param s = Some (o, s') ∧ machine_ok s' ∧ bql s' = bql s ∧
    (∃ c', cpus s' !! i = Some c') ∧ (o = CpuOff → cpus s' = cpus s).
Proof.
  intros Hs Hl Hi Hon. unfold psci_dispatch. pose proof Hs as [Hc Hn Hb].
  destruct (psci_fn_of (param 0)) as [[]|]; try (eexists _, _; split; [done|]; by eauto).
  - case_match; [|eexists _, _; split; [done|]; by eauto].
    destruct (arm_get_cpu_by_id (cpus s) (param 1)) as [k|] eqn:E; [|eexists _, _; split; [done|]; by eauto].
    apply get_cpu_some in E as (t & -> & _). cbn [mbind option_bind]. rewrite Hl. eexists _, _. split; [done|]. by eauto.
  - eexists _, _. split; [done|]. split; [by constructor|]. split; [done|]. by eauto.
  - eexists _, _. split; [done|]. split; [by constructor|]. split; [done|]. by eauto.
  - rewrite Hl. set (info := mkInfo _ _ _ _).
    destruct (arm_set_cpu_on true (cpus s) (param 1) info) as [[ret cs]|] eqn:E.
    + destruct (set_cpu_on_ok _ _ _ _ _ Hc Hn E) as [Hc' Hn']. cbn [mbind option_bind].
      eexists _, _. split; [done|]. split; [by constructor|]. split; [done|]. split; [|done]. simpl.
      apply lookup_lt_is_Some_2. apply (set_cpu_on_length _ _ _ _ _ _ E). by eapply lookup_lt_Some.
    + exfalso. revert E. unfold arm_set_cpu_on, info. simpl. destruct (feat_el2 c); simpl; case_match; done.
  - case_match; [eexists _, _; split; [done|]; by eauto|].
    destruct (set_result_ok s i c 0 Hs Hi) as (s1 & -> & Hs1 & Hl1 & c1 & Hi1 & Hsame & Hok & Hps). cbn [mbind option_bind].
    rewrite Hi1. cbn [mbind option_bind].
    destruct (helper_wfi_ok irq trap c1 Hok) as (c2 & b & -> & Hw & Hsw); [congruence|]. cbn [mbind option_bind].
    eexists _, _. split; [done|]. split; [by eapply machine_ok_set|]. split; [done|]. split; [|by destruct b].
    simpl. exists c2. apply list_lookup_insert_eq. by eapply lookup_lt_Some.
Qed.

Lemma cpu_off_self s i c :
  machine_ok s → cpus s !! i = Some c → power_state c = PSCI_ON →
  ∃ cs, arm_set_cpu_off true (cpus s) (mp_affinity c) = Some (QEMU_ARM_POWERCTL_RET_SUCCESS, cs) ∧
    Forall cpu_ok cs ∧ NoDup (mp_affinity <$> cs).
Proof.
  intros [Hc Hn Hb] Hi Hp. unfold arm_set_cpu_off. cbn [negb].
  match goal with |- ∃ _, Some (request _ _ ?f) = _ ∧ _ => set (g := f) end.
  assert (request (cpus s) (mp_affinity c) g =
    (QEMU_ARM_POWERCTL_RET_SUCCESS, <[i := async_run_on_cpu arm_set_cpu_off_work c]> (cpus s))) as E.
  { unfold request. rewrite (get_cpu_self _ i) by done. rewrite Hi. unfold g. by rewrite Hp. }
  exists (<[i := async_run_on_cpu arm_set_cpu_off_work c]> (cpus s)). split; [by rewrite E|].
  eapply request_ok; [done|done| |exact E]. intros c' w r. unfold g. case_decide; intros [= <- <-]. done.
Qed.

Lemma call_ok irq trap i c s :
  machine_ok s → bql_locked i s = true → cpus s !! i = Some c → power_state c = PSCI_ON →
  ∃ s', arm_handle_psci_call irq trap i s = Some s' ∧ machine_ok s' ∧ bql s' = bql s.
Proof.
  intros Hs Hl Hi Hp. unfold arm_handle_psci_call. rewrite Hi. cbn [mbind option_bind]. cbv zeta.
  set (param := λ n : Z, _).
  assert (∃ b s1, (if aarch64 c then arm_smccc_dispatch i s else Some (false, s)) = Some (b, s1) ∧ machine_ok s1 ∧
    bql s1 = bql s ∧ (b = false → cpus s1 = cpus s)) as (b & s1 & -> & Hs1 & Hl1 & Hun).
  { destruct (aarch64 c); [|by exists false, s].
    destruct (dispatch_smccc_ok s i c Hs Hi) as (b & s1 & -> & Hs1 & Hl1 & Hun). exists b, s1. naive_solver. }
  assert (bql_locked i s1 = true) as Hlk by (unfold bql_locked in *; by rewrite Hl1).
  cbn [mbind option_bind]. destruct b; [by exists s1|]. specialize (Hun eq_refl). rewrite <- Hun in Hi.
  case_match; [destruct (set_result_ok s1 i c QEMU_PSCI_RET_NOT_SUPPORTED Hs1 Hi) as (s2 & -> & ? & ? & _); exists s2; split_and!; congruence || done|].
  destruct (psci_dispatch_ok irq trap i c param s1 Hs1 Hlk Hi Hp) as (o & s2 & -> & Hs2 & Hl2 & (c2 & Hi2) & Hoff).
  cbn [mbind option_bind]. destruct o as [ret| |].
  - destruct (set_result_ok s2 i c2 ret Hs2 Hi2) as (s3 & -> & ? & ? & _). exists s3. split_and!; congruence || done.
  - specialize (Hoff eq_refl). rewrite <- Hoff in Hi.
    destruct (cpu_off_self s2 i c Hs2 Hi Hp) as (cs & E & Hc & Hn). assert (bql_locked i s2 = true) as -> by (unfold bql_locked in *; by rewrite Hl2).
    rewrite E. simpl. eexists. split; [done|]. split; [destruct Hs2; by constructor|]. simpl. congruence.
  - exists s2. split_and!; congruence || done.
Qed.

Lemma run_queue_ok i c s :
  machine_ok s → bql_locked i s = true → cpus s !! i = Some c →
  ∃ s', run_queue i s = Some s' ∧ machine_ok s' ∧ bql s' = bql s.
Proof.
  intros Hs Hl Hi. unfold run_queue. rewrite Hi, Hl. cbn [mbind option_bind].
  destruct (process_work_spec c) as (c' & -> & Hsame & Hok & _); [by eapply machine_ok_cpu|].
  cbn [mbind option_bind]. eexists. split; [done|].
  pose proof (machine_ok_set s i c c' Hs Hi Hok Hsame) as Hset. case_match; [|done].
  destruct Hset as [S1 S2 S3]. split; [|done]. constructor; [done|done|]. by apply cpu_env_reset_ok.
Qed.

(** Between steps no CPU's thread holds the lock. *)
Record sys_ok s : Prop := {
  so_machine : machine_ok s;
  so_lock : ∀ j, bql s = Some j → (length (cpus s) ≤ j)%nat
}.

Lemma bracket_ok (f : psci_sys W → option (psci_sys W)) i s :
  sys_ok s → bql s = None →
  (∀ s1, machine_ok s1 → bql_locked i s1 = true → cpus s1 = cpus s → ∃ s', f s1 = Some s' ∧ machine_ok s' ∧ bql s' = bql s1) →
  ∃ s', (s ← bql_lock i s; s ← f s; bql_unlock i s) = Some s' ∧ sys_ok s'.
Proof.
  intros [Hs _] Hl Hf. unfold bql_lock. unfold bql_locked at 1. rewrite Hl, bool_decide_false by done. cbn [mbind option_bind].
  destruct (Hf (s <| bql := Some i |>)) as (s' & -> & Hs' & Hl'); [by destruct Hs|by apply bool_decide_true|done|]. cbn [mbind option_bind].
  unfold bql_unlock, bql_locked. rewrite Hl', bool_decide_true by done. eexists. split; [done|].
  split; [by destruct Hs'|done].
Qed.

Lemma sys_ok_put s i c c' : sys_ok s → cpus s !! i = Some c → cpu_ok c' → same_cpu c c' → sys_ok (set_cpu i c' s).
Proof.
  intros [Hs Hl] Hi Hc' Hsame. split; [by eapply machine_ok_set|]. simpl. intros j Hj. rewrite length_insert. by apply Hl.
Qed.

Lemma step_ok s e : sys_ok s → enabled s e → ∃ s', psci_step s e = Some s' ∧ sys_ok s'.
Proof.
  intros Hs. destruct e as [irq trap i|i x|i|i b|irq i|j|j]; simpl.
  - intros (Hl & c & Hi & Hp). apply bracket_ok; [done..|]. intros s1 Hs1 Hl1 Hc. eapply call_ok; [done..|by rewrite Hc|done].
  - intros (c & Hi & _ & Hx). rewrite Hi. cbn [mbind option_bind]. eexists. split; [done|].
    destruct (machine_ok_cpu _ _ _ (so_machine _ Hs) Hi) as [H1 H2 H3 H4]. eapply sys_ok_put; [done|done| |done]. by constructor.
  - intros (Hl & [c Hi]%lookup_lt_is_Some_2). apply bracket_ok; [done..|]. intros s1 Hs1 Hl1 Hc. eapply run_queue_ok; [done..|by rewrite Hc].
  - intros [c Hi]%lookup_lt_is_Some_2. rewrite Hi. cbn [mbind option_bind]. eexists. split; [done|].
    destruct (machine_ok_cpu _ _ _ (so_machine _ Hs) Hi) as [H1 H2 H3 H4]. eapply sys_ok_put; [done|done| |done]. by constructor.
  - intros (c & Hi & _). rewrite Hi. cbn [mbind option_bind].
    destruct (handle_halt_ok irq c) as (b & c' & -> & Hok & Hsame); [by eapply machine_ok_cpu; [apply Hs|]|]. cbn [mbind option_bind].
    eexists. split; [done|]. by eapply sys_ok_put.
  - intros [Hl Hj]. unfold bql_lock, bql_locked. rewrite Hl. simpl. eexists. split; [done|].
    destruct Hs as [[] _]. split; [done|]. simpl. congruence.
  - intros [Hl Hj]. unfold bql_unlock, bql_locked. rewrite bool_decide_true by done. eexists. split; [done|].
    by destruct Hs as [[] _].
Qed.

Lemma reachable_ok s0 s : sys_ok s0 → psci_reachable s0 s → sys_ok s.
Proof.
  intros Hs0. induction 1 as [|s e s' _ IH He Hstep]; [done|].
  destruct (step_ok s e IH He) as (s'' & E & Hok). congruence.
Qed.
End safety.

(** C2: no assertion of the power-control path can fail, those that the global lock is held
    included.  From any machine state with distinct CPU ids, empty or well-formed queues, a
    board whose handler answers and no CPU's thread holding the lock, whatever calls running
    CPUs make (with any registers), whenever queues are run, events are signalled, halted CPUs
    are looked at and other threads hold the lock, each further step that can happen succeeds;
    a powered-off CPU is always halted for that reason, as arm_cpu_has_work asserts, the ids
    stay distinct and the lock is given back. *)
Theorem psci_safe {W : Type} `{!Smccc W, !SmcccLaws W} (s0 s : psci_sys W) e :
  sys_ok s0 → psci_reachable s0 s → enabled s e →
  ∃ s', psci_step s e = Some s' ∧ sys_ok s'.
Proof.
  intros Hs0 Hr He. apply step_ok; [|done]. by eapply reachable_ok.
Qed.

(** ** The Apple board *)
#[export] Instance hv_smccc : Smccc hv_world := {
  smccc_handler := Some vmapple_hvc;
  cpu_env_reset i w := w <| cpu_keys := <[i := zero_keys]> (cpu_keys w) |>
}.
#[export, program] Instance hv_smccc_laws : SmcccLaws hv_world := {
  board_ok w := (44 ≤ length (ram w))%nat
}.
Next Obligation.
  simpl. intros h i x w [= <-] Hw Hx.
  destruct (hvc_total i x w Hx Hw) as (b & x' & w' & E & Hl & Hr & Hun).
  exists b, x', w'. split_and!; [done..|lia|done].
Qed.
Next Obligation. done. Qed.

(** The two number spaces on the conduit are disjoint: no PSCI function is claimed
    by the Apple handler. *)
Lemma psci_unclaimed i x0 xs w f :
  psci_fn_of x0 = Some f → vmapple_hvc i (x0 :: xs) w = Some (false, x0 :: xs, w).
Proof.
  intros Hf. unfold vmapple_hvc. cbn [lookup list_lookup fmap option_fmap option_map mbind option_bind].
  assert (Forall (λ k, VMAPPLE_CPU_SERVICE_COUNT ≤ u32 (u32 k - VMAPPLE_CPU_SERVICE_BASE)) psci_ids.*1) as Hall
    by decide_done.
  assert (x0 ∈ psci_ids.*1) as Hin.
  { unfold psci_fn_of in Hf. revert Hf. generalize psci_ids. intros ids.
    induction ids as [|[k g] ids IH]; simpl; [done|]. destruct (Z.eqb_spec x0 k) as [->|]; [set_solver|].
    intros Hx. apply list_elem_of_further. by apply IH. }
  rewrite Forall_forall in Hall. specialize (Hall _ Hin). by destruct (Z.leb_spec VMAPPLE_CPU_SERVICE_COUNT (u32 (u32 x0 - VMAPPLE_CPU_SERVICE_BASE))); [|lia].
Qed.

(** A CPU as the machine configures them: AArch64 with neither EL2 nor EL3. *)
Definition plain_cpu (c : ARMCPU) : Prop :=
  feat_aarch64 c = true ∧ feat_el2 c = false ∧ feat_el3 c = false ∧ aarch64 c = true.

Lemma plain_el1 c : plain_cpu c → arm_el_is_aa64 c 1 = true.
Proof. intros (E1 & E2 & E3 & _). unfold arm_el_is_aa64, arm_is_el2_enabled. by rewrite E1, E2, E3. Qed.

Lemma cpu_on_call (s : psci_sys hv_world) irq trap i c k t ctx ep id xs :
  bql_locked i s = true → cpus s !! i = Some c → plain_cpu c → xregs c = QEMU_PSCI_0_2_FN64 3 :: id :: ep :: ctx :: xs →
  Z.land ep 3 = 0 → arm_get_cpu_by_id (cpus s) id = Some k → k ≠ i → cpus s !! k = Some t →
  power_state t = PSCI_OFF → plain_cpu t →
  arm_handle_psci_call irq trap i s =
    Some (s <| cpus := <[i := c <| xregs := 0 :: id :: ep :: ctx :: xs |>]>
                (<[k := async_run_on_cpu (arm_set_cpu_on_work (mkInfo ep ctx 1 true)) t]> (cpus s)) |>).
Proof.
  intros Hl Hi Hpc Hx Hep Hk Hki Ht Hoff Hpt. unfold arm_handle_psci_call. rewrite Hi. cbn [mbind option_bind]. cbv zeta.
  pose proof Hpc as (F1 & F2 & F3 & F4). rewrite F4. unfold arm_smccc_dispatch. cbn [smccc_handler hv_smccc].
  rewrite Hi. cbn [mbind option_bind]. rewrite Hx, (psci_unclaimed _ _ _ _ CPU_ON) by reflexivity.
  cbn [mbind option_bind].
  assert (set_cpu i (c <| xregs := QEMU_PSCI_0_2_FN64 3 :: id :: ep :: ctx :: xs |>) s <| board := board s |> = s) as ->.
  { rewrite <- Hx. unfold set_cpu. destruct s as [cs w r sh l]. cbn in *. f_equal.
    apply list_insert_id. rewrite Hi. by destruct c. }
  rewrite andb_false_r. unfold psci_dispatch.
  change (psci_fn_of (default 0 (_ !! Z.to_nat 0))) with (Some CPU_ON). cbn [psci_fn_of]. rewrite F2.
  change (default 0 (_ !! Z.to_nat 1)) with id. change (default 0 (_ !! Z.to_nat 2)) with ep.
  change (default 0 (_ !! Z.to_nat 3)) with ctx. rewrite plain_el1 by done.
  destruct Hpt as (T1 & T2 & T3 & _).
  rewrite Hl, (set_cpu_on_accept (cpus s) id (mkInfo ep ctx 1 true) k t); [|unfold on_check; simpl; by rewrite Hep|done|done|done|].
  2:{ unfold info_ok. simpl. rewrite T1. lia. }
  cbn [mbind option_bind]. unfold set_result. cbn [cpus set_field].
  rewrite list_lookup_insert_ne by done. rewrite Hi. cbn [mbind option_bind]. rewrite F4, Hx. done.
Qed.

Lemma run_queue_on (s : psci_sys hv_world) k t info :
  bql_locked k s = true → cpus s !! k = Some (async_run_on_cpu (arm_set_cpu_on_work info) t) → work_list t = [] → info_ok t info →
  feat_aarch64 t = true →
  ∃ s2 t2, run_queue k s = Some s2 ∧ cpus s2 = <[k := t2]> (cpus s) ∧
    board s2 = (board s) <| cpu_keys := <[k := zero_keys]> (cpu_keys (board s)) |> ∧ bql s2 = bql s ∧
    same_cpu t t2 ∧ runs t2 ∧ work_list t2 = [] ∧ aarch64 t2 = true ∧ current_el t2 = target_el info ∧ pc t2 = entry info ∧
    xregs t2 = context_id info :: replicate 31 0.
Proof.
  intros Hlk Hk Hw Hi Hf. set (t0 := t <| work_list := [] |>).
  destruct (set_cpu_on_spec t0 info Hi) as (t2 & E & Hs & Hp & _ & Hel & _ & Hl & Ha).
  destruct (Ha Hf) as (Haa & Hpc & Hx). unfold run_queue. rewrite Hk, Hlk. cbn [mbind option_bind].
  unfold process_queued_cpu_work.
  change (work_list (async_run_on_cpu (arm_set_cpu_on_work info) t)) with (work_list t ++ [arm_set_cpu_on_work info]).
  rewrite Hw. cbn [app run_works run_work].
  change ((async_run_on_cpu (arm_set_cpu_on_work info) t) <| work_list := [] |>) with t0. rewrite E.
  cbn [mbind option_bind]. eexists _, t2. split; [done|]. by split_and!.
Qed.

Lemma claimed_call (s : psci_sys hv_world) irq trap k t x' w' :
  cpus s !! k = Some t → aarch64 t = true → vmapple_hvc k (xregs t) (board s) = Some (true, x', w') →
  arm_handle_psci_call irq trap k s = Some (set_cpu k (t <| xregs := x' |>) (s <| board := w' |>)).
Proof.
  intros Hk Ha Hh. unfold arm_handle_psci_call, arm_smccc_dispatch. rewrite Hk. cbn [mbind option_bind].
  cbv zeta. rewrite Ha. cbn [smccc_handler hv_smccc]. by rewrite Hh.
Qed.

Lemma bracket_run (f : psci_sys hv_world → option (psci_sys hv_world)) i s s' :
  bql s = None → f (s <| bql := Some i |>) = Some s' → bql s' = Some i →
  (s ← bql_lock i s; s ← f s; bql_unlock i s) = Some (s' <| bql := None |>).
Proof.
  intros Hl Hf Hl'. unfold bql_lock. unfold bql_locked at 1. rewrite Hl, bool_decide_false by done. cbn [mbind option_bind].
  rewrite Hf. cbn [mbind option_bind]. unfold bql_unlock, bql_locked. by rewrite Hl', bool_decide_true.
Qed.

(** C28: the whole path by which a secondary core comes up, each of its steps taking the global
    lock and giving it back.  A CPU_ON call of a
    running core for a powered-off one returns success; when the target runs its
    queue it starts in EL1 at the given entry with the given context in x0 and with
    cleared keys; its SET_INITIAL_STATE call, which goes through the same conduit,
    is served by the board and leaves it with the keys the boot CPU recorded, every
    other core's keys being as they were. *)
Theorem psci_secondary_boot (s : psci_sys hv_world) irq trap irq' trap' i c k t keys ctx ep id xs ys :
  bql s = None → cpus s !! i = Some c → plain_cpu c → xregs c = QEMU_PSCI_0_2_FN64 3 :: id :: ep :: ctx :: xs →
  Z.land ep 3 = 0 → arm_get_cpu_by_id (cpus s) id = Some k → k ≠ i → (0 < k < hv_len (board s))%nat →
  cpus s !! k = Some t → power_state t = PSCI_OFF → work_list t = [] → plain_cpu t →
  boot_keys (board s) = mkBoot true keys →
  ∃ s1 s2 s3 c1 t2,
    conduit_call irq trap i s = Some s1 ∧ cpus s1 !! i = Some c1 ∧ xregs c1 !! 0%nat = Some 0 ∧
    vcpu_events k s1 = Some s2 ∧ cpus s2 !! k = Some t2 ∧ runs t2 ∧ work_list t2 = [] ∧ current_el t2 = 1 ∧ pc t2 = ep ∧
    xregs t2 !! 0%nat = Some ctx ∧ cpu_keys (board s2) !! k = Some zero_keys ∧
    conduit_call irq' trap' k (set_cpu k (t2 <| xregs := SET_INITIAL_STATE :: ys |>) s2) = Some s3 ∧
    cpu_keys (board s3) !! k = Some keys ∧
    ∀ j, j ≠ k → cpu_keys (board s3) !! j = cpu_keys (board s) !! j.
Proof.
  intros Hl Hi Hpc Hx Hep Hk Hki Hkl Ht Hoff Hw Hpt Hb.
  pose proof (cpu_on_call (s <| bql := Some i |>) irq trap i c k t ctx ep id xs ltac:(by apply bool_decide_true) Hi Hpc Hx Hep Hk Hki Ht Hoff Hpt) as E1.
  apply (bracket_run _ i s _ Hl) in E1; [|done]. match type of E1 with _ = Some ?x => set (s1 := x) in E1 end.
  assert (i < length (cpus s))%nat as Hil by (by eapply lookup_lt_Some).
  assert (k < length (cpus s))%nat as Hklen by (by eapply lookup_lt_Some).
  pose proof Hpt as (T1 & T2 & T3 & _).
  destruct (run_queue_on (s1 <| bql := Some k |>) k t (mkInfo ep ctx 1 true)) as (s2 & t2 & E2 & Hc2 & Hb2 & Hl2 & _ & Hr & Hwl & Haa & Hel & Hp & Hx2);
    [by apply bool_decide_true|unfold s1; simpl; rewrite list_lookup_insert_ne by done; by apply list_lookup_insert_eq|done|
     unfold info_ok; simpl; rewrite T1; lia|done|].
  apply (bracket_run _ k s1 _ eq_refl) in E2; [|done]. change (board (s1 <| bql := Some k |>)) with (board s) in Hb2.
  assert (cpus s2 !! k = Some t2) as Hk2.
  { rewrite Hc2. apply list_lookup_insert_eq. unfold s1. simpl. by rewrite !length_insert. }
  assert (vmapple_hvc k (SET_INITIAL_STATE :: ys) (board s2) = Some (true, 0 :: ys, keys_install k (board s2))) as Eh.
  { unfold vmapple_hvc. cbn [lookup list_lookup fmap option_fmap option_map mbind option_bind].
    change (u32 SET_INITIAL_STATE) with SET_INITIAL_STATE. simpl (_ <=? _). simpl (_ =? _). cbn iota.
    unfold set_initial_state. rewrite decide_False by lia. rewrite Hb2. cbn [boot_keys set_field].
    by rewrite Hb. }
  set (t3 := t2 <| xregs := SET_INITIAL_STATE :: ys |>). set (s2' := set_cpu k t3 (s2 <| bql := None |>)).
  assert (cpus (s2' <| bql := Some k |>) !! k = Some t3) as Hk3
    by (simpl; apply list_lookup_insert_eq; rewrite Hc2; unfold s1; simpl; by rewrite !length_insert).
  pose proof (claimed_call (s2' <| bql := Some k |>) irq' trap' k t3 _ _ Hk3 Haa Eh) as E3.
  apply (bracket_run _ k s2' _ eq_refl) in E3; [|done].
  eexists s1, _, _, _, t2. split; [exact E1|]. split; [apply list_lookup_insert_eq; by rewrite length_insert|].
  split; [done|]. split; [exact E2|]. do 5 (split; [done|]). split; [by rewrite Hx2|].
  split; [simpl; rewrite Hb2; simpl; apply list_lookup_insert_eq; unfold hv_len in Hkl; lia|].
  split; [exact E3|]. clear E1 E2 E3. cbn [board set_field set_cpu]. unfold keys_install. rewrite Hb2. cbn [cpu_keys set_field boot_keys].
  rewrite Hb. cbn [saved]. split.
  - apply list_lookup_insert_eq. rewrite length_insert. unfold hv_len in Hkl. lia.
  - intros j Hj. by rewrite !list_lookup_insert_ne by done.
Qed.

(** ** A two-core machine *)
Definition demo_board : hv_world := demo_hv <| boot_keys := mkBoot true demo_keys |>.
Definition demo_caller : ARMCPU :=
  (demo_cpu 0 PSCI_ON false) <| xregs := QEMU_PSCI_0_2_FN64 3 :: 1 :: 0x80000 :: 42 :: replicate 28 0 |>.
Definition demo_sys : psci_sys hv_world :=
  mkSys [demo_caller; demo_cpu 1 PSCI_OFF true] demo_board false false None.

Lemma psci_secondary_boot_witness :
  ∃ s1 s2 s3 t2,
    conduit_call false false 0 demo_sys = Some s1 ∧ vcpu_events 1 s1 = Some s2 ∧
    cpus s2 !! 1%nat = Some t2 ∧ pc t2 = 0x80000 ∧
    conduit_call false false 1 (set_cpu 1 (t2 <| xregs := SET_INITIAL_STATE :: replicate 31 0 |>) s2) = Some s3 ∧
    cpu_keys (board s3) !! 1%nat = Some demo_keys.
Proof.
  destruct (psci_secondary_boot demo_sys false false false false 0 demo_caller 1 (demo_cpu 1 PSCI_OFF true)
    demo_keys 42 0x80000 1 (replicate 28 0) (replicate 31 0))
    as (s1 & s2 & s3 & c1 & t2 & E1 & _ & _ & E2 & Ht & _ & _ & _ & Hp & _ & _ & E3 & Hk & _);
    try reflexivity; try (split_and!; reflexivity); [done|vm_compute; lia|].
  exists s1, s2, s3, t2. split; [exact E1|split; [exact E2|split; [exact Ht|split; [exact Hp|split; [exact E3|exact Hk]]]]].
Defined.

Lemma psci_safe_witness :
  ∃ s', psci_step demo_sys (HvcCall false false 0) = Some s' ∧ sys_ok s'.
Proof.
  apply (psci_safe demo_sys demo_sys).
  - split; [|done]. constructor; [|decide_done|vm_compute; lia]. repeat constructor; done.
  - apply psci_start.
  - split; [reflexivity|]. exists demo_caller. split; reflexivity.
Defined.
