(* ===== verification/Machine.v ===== *)
(** The board, src/qemu/hw/vmapple/vmapple.c: its memory map and interrupt map, the
    devices mach_vmapple_init creates, and reset.

    Creation is a state that grows: the regions mapped into system memory, the
    wires into the interrupt controller, the CPUs, and the two devices whose own
    realize can refuse their configuration (the GICv2m frame of [Gicv2m] and the
    configuration region of [Cfg]).  [exit(1)] and [error_fatal] are [inr].  The
    sizes of the regions are those the devices' own sources give them. *)
From S2P Require Import Prelude Gicv2m Cfg Hvc Powerctl Psci.

(** ** The maps *)
Inductive slot :=
  | VMAPPLE_FIRMWARE | VMAPPLE_CONFIG | VMAPPLE_MEM | VMAPPLE_GIC_DIST | VMAPPLE_GIC_REDIST | VMAPPLE_GICV2M
  | VMAPPLE_UART | VMAPPLE_RTC | VMAPPLE_PCIE | VMAPPLE_PCIE_MMIO | VMAPPLE_PCIE_ECAM | VMAPPLE_GPIO
  | VMAPPLE_PVPANIC | VMAPPLE_APV_GFX | VMAPPLE_APV_IOSFC | VMAPPLE_AES_1 | VMAPPLE_AES_2 | VMAPPLE_BDOOR.
#[export] Instance slot_eq_dec : EqDecision slot.
Proof. solve_decision. Defined.

Definition GiB : Z := 2 ^ 30.
Definition NUM_IRQS : Z := 256.
Definition GIC_INTERNAL : Z := 32.
Definition GPEX_NUM_IRQS : nat := 16.
Definition NUM_GICV2M_SPIS : nat := 128.
Definition GICV3_REDIST_SIZE : Z := 0x20000.
Definition GICV3_TARGETLIST_BITS : Z := 16.
Definition MAX_CPUS : Z := 32.

Record MemMapEntry := mkEntry { base : Z; size : Z }.
(** An entry the table does not name is zero. *)
Definition memmap (s : slot) : MemMapEntry :=
  match s with
  | VMAPPLE_FIRMWARE => mkEntry 0x00100000 0x00100000
  | VMAPPLE_CONFIG => mkEntry 0x00400000 0x00010000
  | VMAPPLE_GIC_DIST => mkEntry 0x10000000 0x00010000
  | VMAPPLE_GIC_REDIST => mkEntry 0x10010000 0x00400000
  | VMAPPLE_GICV2M => mkEntry 0x1FFF0000 0x00010000
  | VMAPPLE_UART => mkEntry 0x20010000 0x00010000
  | VMAPPLE_RTC => mkEntry 0x20050000 0x00001000
  | VMAPPLE_GPIO => mkEntry 0x20060000 0x00001000
  | VMAPPLE_PVPANIC => mkEntry 0x20070000 0x00000002
  | VMAPPLE_BDOOR => mkEntry 0x30000000 0x00200000
  | VMAPPLE_APV_GFX => mkEntry 0x30200000 0x00010000
  | VMAPPLE_APV_IOSFC => mkEntry 0x30210000 0x00010000
  | VMAPPLE_AES_1 => mkEntry 0x30220000 0x00004000
  | VMAPPLE_AES_2 => mkEntry 0x30230000 0x00004000
  | VMAPPLE_PCIE_ECAM => mkEntry 0x40000000 0x10000000
  | VMAPPLE_PCIE_MMIO => mkEntry 0x50000000 0x1fff0000
  | VMAPPLE_MEM => mkEntry 0x70000000 GiB
  | VMAPPLE_PCIE => mkEntry 0 0
  end.

Definition irqmap (s : slot) : Z :=
  match s with
  | VMAPPLE_UART => 1 | VMAPPLE_RTC => 2 | VMAPPLE_GPIO => 0x5
  | VMAPPLE_APV_IOSFC => 0x10 | VMAPPLE_APV_GFX => 0x11 | VMAPPLE_AES_1 => 0x12
  | VMAPPLE_PCIE => 0x20 | VMAPPLE_GICV2M => 0x80
  | _ => 0
  end.

(** ** Configuration and state *)
Record config := mkConfig {
  smp_cpus : Z; max_cpus : Z; machine_ram_size : Z; uuid : Z;
  drive_aux : bool;            (* pflash unit 0 *)
  drive_root : bool;           (* pflash unit 1 *)
  drive_virtio : bool;         (* first virtio drive *)
  no_gfx : bool; has_reims : bool; has_apple_gfx : bool;
  apple_gfx_len : Z;           (* the register range macOS's framework reports *)
  firmware_name : bool; firmware_found : bool; firmware_image_size : Z;
  serial_arg : option (list Z); model_arg : option (list Z); soc_name_arg : option (list Z);
  tcg : bool; cpu_rvbar : Z
}.

(** Which line drives an input of the interrupt controller. *)
Inductive irq_source :=
  | TimerVirt (cpu : nat) | Msi (line : nat) | AesIrq | GfxIrq | IosfcIrq | UartIrq | RtcIrq | GpioIrq
  | PciIntx (line : nat).

(** The CPU inputs an output of the interrupt controller drives. *)
Inductive cpu_line := ARM_CPU_IRQ | ARM_CPU_FIQ.

Inductive error :=
  | NoAux | NoRoot | NoFirmware | FirmwareNotFound | FirmwareNotLoaded | Gicv2mRejected | CfgRejected (e : Cfg.cfg_error).

Record VMAppleMachineState := mkVms {
  regions : list (slot * (Z * Z));       (* base and length in system memory *)
  wires : list (irq_source * Z);
  vms_cpus : list ARMCPU;
  gic_num_cpu : Z; gic_num_irq : Z; redist_count : Z;
  gicv2m : option Gicv2m.ARMGICv2mState;
  bdif_root_virtio : bool;               (* the root device is the virtio drive *)
  cfgdev : option Cfg.VMAppleCfgState;
  gic_outputs : list (Z * (nat * cpu_line));
  gpex_irq_num : list Z                  (* the input each PCI INTx line is told it has *)
}.
#[export] Instance eta_vms : Settable VMAppleMachineState := λ r,
  mkVms (regions r) (wires r) (vms_cpus r) (gic_num_cpu r) (gic_num_irq r) (redist_count r) (gicv2m r)
    (bdif_root_virtio r) (cfgdev r) (gic_outputs r) (gpex_irq_num r).

Definition vms_empty : VMAppleMachineState := mkVms [] [] [] 0 0 0 None false None [] [].

Definition map_region (s : slot) (len : Z) (v : VMAppleMachineState) : VMAppleMachineState :=
  v <| regions := regions v ++ [(s, (base (memmap s), len))] |>.
Definition connect (ws : list (irq_source * Z)) (v : VMAppleMachineState) : VMAppleMachineState :=
  v <| wires := wires v ++ ws |>.

(** ** CPUs *)
Definition arm_build_mp_affinity (idx clustersz : Z) : Z :=
  Z.lor (Z.shiftl (u32 (idx / clustersz)) 8) (u32 (idx mod clustersz)).

Definition vmapple_possible_cpu_arch_ids (n : nat) : list Z :=
  (λ i, arm_build_mp_affinity (Z.of_nat i) GICV3_TARGETLIST_BITS) <$> seq 0 n.

(** One CPU as the loop configures it, before its first reset. *)
Definition create_cpu (cf : config) (n : nat) (arch_id : Z) : ARMCPU :=
  mkCpu arch_id QEMU_PSCI_CONDUIT_HVC false false true true false (bool_decide (0 < n)%nat) (cpu_rvbar cf) false
    PSCI_OFF true HALT_PSCI false true 1 false false false false (replicate 32 0) (replicate 16 0) 0 false (-1) [].

Definition create_cpus (cf : config) : list ARMCPU :=
  imap (create_cpu cf)
    (take (Z.to_nat (smp_cpus cf)) (vmapple_possible_cpu_arch_ids (Z.to_nat (max_cpus cf)))).

(** ** Devices *)
Definition arm_gic_ppi_index (cpu_nr ppi_index : Z) : Z := NUM_IRQS + cpu_nr * GIC_INTERNAL + ppi_index.

Definition create_gic (cf : config) (v : VMAppleMachineState) : VMAppleMachineState :=
  let redist0_capacity := size (memmap VMAPPLE_GIC_REDIST) / GICV3_REDIST_SIZE in
  let redist0_count := Z.min (smp_cpus cf) redist0_capacity in
  let v := v <| gic_num_cpu := smp_cpus cf |> <| gic_num_irq := NUM_IRQS + 32 |> <| redist_count := redist0_count |> in
  let v := map_region VMAPPLE_GIC_DIST 0x10000 v in
  let v := map_region VMAPPLE_GIC_REDIST (redist0_count * GICV3_REDIST_SIZE) v in
  let ncpu := Z.to_nat (smp_cpus cf) in
  let outs i := [(Z.of_nat i, (i, ARM_CPU_IRQ)); (Z.of_nat i + smp_cpus cf, (i, ARM_CPU_FIQ))] in
  connect ((λ i, (TimerVirt i, arm_gic_ppi_index (Z.of_nat i) 27)) <$> seq 0 ncpu)
    (v <| gic_outputs := seq 0 ncpu ≫= outs |>).

Definition create_gicv2m (v : VMAppleMachineState) : VMAppleMachineState + error :=
  let irq := irqmap VMAPPLE_GICV2M in
  let dev := Gicv2m.mkGicv2m irq (Z.of_nat NUM_GICV2M_SPIS) 1 in
  if Gicv2m.gicv2m_realize dev then
    let v := map_region VMAPPLE_GICV2M 0x1000 (v <| gicv2m := Some dev |>) in
    inl (connect ((λ i, (Msi i, irq + Z.of_nat i)) <$> seq 0 NUM_GICV2M_SPIS) v)
  else inr Gicv2mRejected.

Definition create_bdif (cf : config) (v : VMAppleMachineState) : VMAppleMachineState + error :=
  if negb (drive_aux cf) then inr NoAux
  else if negb (drive_root cf) && negb (drive_virtio cf) then inr NoRoot
  else inl (map_region VMAPPLE_BDOOR 0x00200000 (v <| bdif_root_virtio := negb (drive_root cf) |>)).

Definition create_pvpanic (v : VMAppleMachineState) : VMAppleMachineState := map_region VMAPPLE_PVPANIC 2 v.

Definition create_aes (v : VMAppleMachineState) : VMAppleMachineState :=
  connect [(AesIrq, irqmap VMAPPLE_AES_1)] (map_region VMAPPLE_AES_2 0x4000 (map_region VMAPPLE_AES_1 0x4000 v)).

(** The GPU, or stub regions when it is disabled or not built in. *)
Definition create_gfx (cf : config) (v : VMAppleMachineState) : VMAppleMachineState :=
  if no_gfx cf || negb (has_reims cf || has_apple_gfx cf) then
    map_region VMAPPLE_APV_IOSFC (size (memmap VMAPPLE_APV_IOSFC))
      (map_region VMAPPLE_APV_GFX (size (memmap VMAPPLE_APV_GFX)) v)
  else
    let gfx_len := if has_reims cf then 0x4000 else apple_gfx_len cf in
    connect [(GfxIrq, irqmap VMAPPLE_APV_GFX); (IosfcIrq, irqmap VMAPPLE_APV_IOSFC)]
      (map_region VMAPPLE_APV_IOSFC 0x10000 (map_region VMAPPLE_APV_GFX gfx_len v)).

Definition create_uart (v : VMAppleMachineState) : VMAppleMachineState :=
  connect [(UartIrq, irqmap VMAPPLE_UART)] (map_region VMAPPLE_UART 0x1000 v).
Definition create_rtc (v : VMAppleMachineState) : VMAppleMachineState :=
  connect [(RtcIrq, irqmap VMAPPLE_RTC)] (map_region VMAPPLE_RTC 0x1000 v).
Definition create_gpio_devices (v : VMAppleMachineState) : VMAppleMachineState :=
  connect [(GpioIrq, irqmap VMAPPLE_GPIO)] (map_region VMAPPLE_GPIO 0x1000 v).

Definition create_pcie (v : VMAppleMachineState) : VMAppleMachineState :=
  let irq := irqmap VMAPPLE_PCIE in
  let v := map_region VMAPPLE_PCIE_ECAM (size (memmap VMAPPLE_PCIE_ECAM)) v in
  let v := map_region VMAPPLE_PCIE_MMIO (size (memmap VMAPPLE_PCIE_MMIO)) v in
  connect ((λ i, (PciIntx i, irq + Z.of_nat i)) <$> seq 0 GPEX_NUM_IRQS)
    (v <| gpex_irq_num := (λ i, irq + Z.of_nat i) <$> seq 0 GPEX_NUM_IRQS |>).

(** The configuration region with the machine's parameters; [rnd] and [rand] are
    what the random source returned. *)
Definition create_cfg (cf : config) (rnd : Z) (rand : list Z) (v : VMAppleMachineState) : VMAppleMachineState + error :=
  let dev := Cfg.vmapple_cfg_init in
  let c := Cfg.cfg dev in
  let c := c <| Cfg.nr_cpus := smp_cpus cf |> in
  let c := c <| Cfg.ecid := uuid cf |> in
  let c := c <| Cfg.ram_size := machine_ram_size cf |> in
  let c := c <| Cfg.rnd := rnd |> in
  let dev := Cfg.mkCfgState c (Cfg.mem dev) (serial_arg cf) (model_arg cf) (soc_name_arg cf) true in
  match Cfg.vmapple_cfg_realize rand dev with
  | (_, Some e) => inr (CfgRejected e)
  | (dev, None) => inl (map_region VMAPPLE_CONFIG 0x10000 (v <| cfgdev := Some dev |>))
  end.

Definition vmapple_firmware_init (cf : config) (v : VMAppleMachineState) : VMAppleMachineState + error :=
  if negb (firmware_name cf) then inr NoFirmware
  else if negb (firmware_found cf) then inr FirmwareNotFound
  else if firmware_image_size cf <? 0 then inr FirmwareNotLoaded
  else inl (map_region VMAPPLE_FIRMWARE (size (memmap VMAPPLE_FIRMWARE)) v).

Definition then_ {A} (r : A + error) (k : A → A + error) : A + error :=
  match r with inl a => k a | inr e => inr e end.

Definition mach_vmapple_init (cf : config) (rnd : Z) (rand : list Z) : VMAppleMachineState + error :=
  let v := vms_empty <| vms_cpus := create_cpus cf |> in
  let v := map_region VMAPPLE_MEM (machine_ram_size cf) v in
  let v := create_gic cf v in
  then_ (create_gicv2m v) (λ v,
  then_ (create_bdif cf v) (λ v,
  let v := create_gfx cf (create_aes (create_pvpanic v)) in
  let v := create_gpio_devices (create_pcie (create_rtc (create_uart v))) in
  then_ (create_cfg cf rnd rand v) (λ v,
  vmapple_firmware_init cf v))).

(** ** Reset

    Every CPU is reset and its keys are cleared, then the board's reset handler
    runs: new pids, forgotten boot keys, and the boot CPU at the firmware. *)
Definition vmapple_reset (fuel : nat) (pids : nat → Z * Z) (s : psci_sys hv_world) : option (psci_sys hv_world) :=
  w ← vmapple_hvc_reset fuel pids (board s);
  c ← cpus s !! 0%nat;
  Some (s <| board := w |> <| cpus := <[0%nat := arm_cpu_set_pc c (base (memmap VMAPPLE_FIRMWARE))]> (cpus s) |>).

Definition reset_cpus (s : psci_sys hv_world) : psci_sys hv_world :=
  s <| cpus := cpu_reset <$> cpus s |>
    <| board := (board s) <| cpu_keys := (λ _, zero_keys) <$> cpu_keys (board s) |> |>.

Definition machine_reset (fuel : nat) (pids : nat → Z * Z) (s : psci_sys hv_world) : option (psci_sys hv_world) :=
  vmapple_reset fuel pids (reset_cpus s).

(** The running machine of an initialised board over guest RAM [mem].  Under TCG the
    CPUs' counters run at Apple's 24 MHz, elsewhere at the rates [gt] of the host. *)
Definition machine_of (cf : config) (v : VMAppleMachineState) (host_aarch64 : bool) (cntfrq : Z) (gt : list Z)
    (mem : list Z) : psci_sys hv_world :=
  mkSys (vms_cpus v)
    (mkHv (mkBoot false zero_keys) (0, 0) host_aarch64 (tcg cf) cntfrq
       (if tcg cf then replicate (length (vms_cpus v)) 24000000 else gt)
       (replicate (length (vms_cpus v)) zero_keys) mem) false false None.

(** ** What initialisation builds *)
Definition config_ok (cf : config) : Prop :=
  0 < smp_cpus cf ≤ MAX_CPUS ∧ smp_cpus cf ≤ max_cpus cf ∧
  0 ≤ machine_ram_size cf ≤ 2 ^ 64 - 0x70000000 ∧ 0 ≤ apple_gfx_len cf ≤ 0x10000 ∧ is_u64 (uuid cf).

Definition stub_gfx (cf : config) : bool := no_gfx cf || negb (has_reims cf || has_apple_gfx cf).
Definition gfx_len (cf : config) : Z :=
  if stub_gfx cf then 0x10000 else if has_reims cf then 0x4000 else apple_gfx_len cf.

Definition all_regions (cf : config) : list (slot * Z) :=
  [(VMAPPLE_MEM, machine_ram_size cf); (VMAPPLE_GIC_DIST, 0x10000);
   (VMAPPLE_GIC_REDIST, Z.min (smp_cpus cf) 32 * GICV3_REDIST_SIZE); (VMAPPLE_GICV2M, 0x1000);
   (VMAPPLE_BDOOR, 0x200000); (VMAPPLE_PVPANIC, 2); (VMAPPLE_AES_1, 0x4000); (VMAPPLE_AES_2, 0x4000);
   (VMAPPLE_APV_GFX, gfx_len cf); (VMAPPLE_APV_IOSFC, 0x10000); (VMAPPLE_UART, 0x1000); (VMAPPLE_RTC, 0x1000);
   (VMAPPLE_PCIE_ECAM, 0x10000000); (VMAPPLE_PCIE_MMIO, 0x1fff0000); (VMAPPLE_GPIO, 0x1000);
   (VMAPPLE_CONFIG, 0x10000); (VMAPPLE_FIRMWARE, 0x100000)].

Definition all_wires (ncpu : nat) (gfx : bool) : list (irq_source * Z) :=
  ((λ i, (TimerVirt i, arm_gic_ppi_index (Z.of_nat i) 27)) <$> seq 0 ncpu) ++
  ((λ i, (Msi i, 0x80 + Z.of_nat i)) <$> seq 0 NUM_GICV2M_SPIS) ++
  [(AesIrq, 0x12)] ++ (if gfx then [(GfxIrq, 0x11); (IosfcIrq, 0x10)] else []) ++
  [(UartIrq, 1); (RtcIrq, 2)] ++ ((λ i, (PciIntx i, 0x20 + Z.of_nat i)) <$> seq 0 GPEX_NUM_IRQS) ++ [(GpioIrq, 5)].

Definition drives_ok (cf : config) : bool := drive_aux cf && (drive_root cf || drive_virtio cf).
Definition firmware_ok (cf : config) : bool :=
  firmware_name cf && firmware_found cf && (0 <=? firmware_image_size cf).

(** The configuration device handed to its realize function. *)
Definition cfg_device (cf : config) (rnd : Z) : VMAppleCfgState :=
  let c := zero_cfg <| nr_cpus := smp_cpus cf |> in
  let c := c <| ecid := uuid cf |> in
  let c := c <| ram_size := machine_ram_size cf |> in
  let c := c <| Cfg.rnd := rnd |> in
  mkCfgState c (mem vmapple_cfg_init) (serial_arg cf) (model_arg cf) (soc_name_arg cf) true.

(** Each construction step changes the part it is about. *)
Definition same_rest (v v' : VMAppleMachineState) : Prop :=
  vms_cpus v' = vms_cpus v ∧ gic_num_cpu v' = gic_num_cpu v ∧ gic_num_irq v' = gic_num_irq v ∧
  gicv2m v' = gicv2m v ∧ cfgdev v' = cfgdev v ∧ gic_outputs v' = gic_outputs v.
#[export] Instance same_rest_preorder : PreOrder same_rest.
Proof. split; [by intros ?|]. intros a b c (?&?&?&?&?&?) (?&?&?&?&?&?). unfold same_rest. split_and!; congruence. Qed.

Definition builds (v v' : VMAppleMachineState) (rs : list (slot * Z)) (ws : list (irq_source * Z)) : Prop :=
  regions v' = regions v ++ ((λ '(s, l), (s, (base (memmap s), l))) <$> rs) ∧ wires v' = wires v ++ ws.

Lemma builds_trans v1 v2 v3 rs ws rs' ws' :
  builds v1 v2 rs ws → builds v2 v3 rs' ws' → builds v1 v3 (rs ++ rs') (ws ++ ws').
Proof. intros [R1 W1] [R2 W2]. split; [by rewrite R2, R1, fmap_app, app_assoc|by rewrite W2, W1, app_assoc]. Qed.

Lemma map_region_builds s l v : builds v (map_region s l v) [(s, l)] [] ∧ same_rest v (map_region s l v).
Proof. split; [split; [done|]|done]. simpl. by rewrite app_nil_r. Qed.
Lemma connect_builds ws v : builds v (connect ws v) [] ws ∧ same_rest v (connect ws v).
Proof. split; [split; [|done]|done]. simpl. by rewrite app_nil_r. Qed.

Definition step_builds (v v' : VMAppleMachineState) rs ws : Prop := builds v v' rs ws ∧ same_rest v v'.
Lemma step_builds_trans v1 v2 v3 rs ws rs' ws' :
  step_builds v1 v2 rs ws → step_builds v2 v3 rs' ws' → step_builds v1 v3 (rs ++ rs') (ws ++ ws').
Proof. intros [B1 S1] [B2 S2]. split; [by eapply builds_trans|by etransitivity]. Qed.

Lemma create_gfx_builds cf v :
  step_builds v (create_gfx cf v) [(VMAPPLE_APV_GFX, gfx_len cf); (VMAPPLE_APV_IOSFC, 0x10000)]
    (if negb (stub_gfx cf) then [(GfxIrq, 0x11); (IosfcIrq, 0x10)] else []).
Proof.
  unfold create_gfx, gfx_len. fold (stub_gfx cf). destruct (stub_gfx cf); cbn [negb].
  - exact (step_builds_trans _ _ _ _ _ _ _ (map_region_builds _ _ _) (map_region_builds _ _ _)).
  - exact (step_builds_trans _ _ _ _ _ _ _ (step_builds_trans _ _ _ _ _ _ _ (map_region_builds _ _ _)
      (map_region_builds _ _ _)) (connect_builds _ _)).
Qed.

Lemma device_builds v s l src irq :
  step_builds v (connect [(src, irq)] (map_region s l v)) [(s, l)] [(src, irq)].
Proof. exact (step_builds_trans _ _ _ _ _ _ _ (map_region_builds _ _ _) (connect_builds _ _)). Qed.

Lemma create_aes_builds v :
  step_builds v (create_aes v) [(VMAPPLE_AES_1, 0x4000); (VMAPPLE_AES_2, 0x4000)] [(AesIrq, 0x12)].
Proof.
  exact (step_builds_trans _ _ _ _ _ _ _ (step_builds_trans _ _ _ _ _ _ _ (map_region_builds _ _ _)
    (map_region_builds _ _ _)) (connect_builds _ _)).
Qed.

Lemma gpex_builds l v : step_builds v (v <| gpex_irq_num := l |>) [] [].
Proof. split; [split; simpl; by rewrite app_nil_r|done]. Qed.

Lemma create_pcie_builds v :
  step_builds v (create_pcie v) [(VMAPPLE_PCIE_ECAM, 0x10000000); (VMAPPLE_PCIE_MMIO, 0x1fff0000)]
    ((λ i, (PciIntx i, 0x20 + Z.of_nat i)) <$> seq 0 GPEX_NUM_IRQS).
Proof.
  refine (step_builds_trans _ _ _ _ _ _ _ (step_builds_trans _ _ _ _ _ _ _ (map_region_builds _ _ _)
    (map_region_builds _ _ _)) _).
  exact (step_builds_trans _ _ _ _ _ _ _ (gpex_builds _ _) (connect_builds _ _)).
Qed.

(** Everything between the block device and the configuration region. *)
Lemma middle_builds cf v :
  step_builds v (create_gpio_devices (create_pcie (create_rtc (create_uart (create_gfx cf (create_aes (create_pvpanic v)))))))
    ([(VMAPPLE_PVPANIC, 2)] ++ [(VMAPPLE_AES_1, 0x4000); (VMAPPLE_AES_2, 0x4000)] ++
     [(VMAPPLE_APV_GFX, gfx_len cf); (VMAPPLE_APV_IOSFC, 0x10000)] ++ [(VMAPPLE_UART, 0x1000)] ++ [(VMAPPLE_RTC, 0x1000)] ++
     [(VMAPPLE_PCIE_ECAM, 0x10000000); (VMAPPLE_PCIE_MMIO, 0x1fff0000)] ++ [(VMAPPLE_GPIO, 0x1000)])
    ([] ++ [(AesIrq, 0x12)] ++ (if negb (stub_gfx cf) then [(GfxIrq, 0x11); (IosfcIrq, 0x10)] else []) ++
     [(UartIrq, 1)] ++ [(RtcIrq, 2)] ++ ((λ i, (PciIntx i, 0x20 + Z.of_nat i)) <$> seq 0 GPEX_NUM_IRQS) ++ [(GpioIrq, 5)]).
Proof.
  eapply step_builds_trans; [apply map_region_builds|].
  eapply step_builds_trans; [apply create_aes_builds|].
  eapply step_builds_trans; [apply create_gfx_builds|].
  eapply step_builds_trans; [apply device_builds|].
  eapply step_builds_trans; [apply device_builds|].
  eapply step_builds_trans; [apply create_pcie_builds|apply device_builds].
Qed.

(** The whole initialisation, as one equation: the drives, the configuration
    region and the firmware are checked in that order, and nothing else can stop it. *)
Definition init_ends (cf : config) (rnd : Z) (rand : list Z) (v : VMAppleMachineState) : Prop :=
  regions v = (λ '(s, l), (s, (base (memmap s), l))) <$> all_regions cf ∧
  wires v = all_wires (Z.to_nat (smp_cpus cf)) (negb (stub_gfx cf)) ∧
  vms_cpus v = create_cpus cf ∧ gic_num_cpu v = smp_cpus cf ∧ gic_num_irq v = NUM_IRQS + 32 ∧
  gicv2m v = Some (mkGicv2m 0x80 128 1) ∧
  cfgdev v = Some (vmapple_cfg_realize rand (cfg_device cf rnd)).1 ∧
  gic_outputs v = seq 0 (Z.to_nat (smp_cpus cf)) ≫= λ i,
    [(Z.of_nat i, (i, ARM_CPU_IRQ)); (Z.of_nat i + smp_cpus cf, (i, ARM_CPU_FIQ))].

Definition init_error (cf : config) (rnd : Z) (rand : list Z) : option error :=
  if negb (drive_aux cf) then Some NoAux
  else if negb (drive_root cf) && negb (drive_virtio cf) then Some NoRoot
  else match (vmapple_cfg_realize rand (cfg_device cf rnd)).2 with
  | Some e => Some (CfgRejected e)
  | None =>
      if negb (firmware_name cf) then Some NoFirmware
      else if negb (firmware_found cf) then Some FirmwareNotFound
      else if firmware_image_size cf <? 0 then Some FirmwareNotLoaded
      else None
  end.

(** What the devices up to the block device leave. *)
Definition before_middle (cf : config) (v : VMAppleMachineState) : Prop :=
  regions v = (λ '(s, l), (s, (base (memmap s), l))) <$> take 5 (all_regions cf) ∧
  wires v = ((λ i, (TimerVirt i, arm_gic_ppi_index (Z.of_nat i) 27)) <$> seq 0 (Z.to_nat (smp_cpus cf))) ++
    ((λ i, (Msi i, 0x80 + Z.of_nat i)) <$> seq 0 NUM_GICV2M_SPIS) ∧
  vms_cpus v = create_cpus cf ∧ gic_num_cpu v = smp_cpus cf ∧ gic_num_irq v = NUM_IRQS + 32 ∧
  gicv2m v = Some (mkGicv2m 0x80 128 1) ∧
  gic_outputs v = seq 0 (Z.to_nat (smp_cpus cf)) ≫= λ i,
    [(Z.of_nat i, (i, ARM_CPU_IRQ)); (Z.of_nat i + smp_cpus cf, (i, ARM_CPU_FIQ))].

Definition middle_regions (cf : config) : list (slot * Z) := take 10 (drop 5 (all_regions cf)).
Definition middle_wires (cf : config) : list (irq_source * Z) :=
  [(AesIrq, 0x12)] ++ (if negb (stub_gfx cf) then [(GfxIrq, 0x11); (IosfcIrq, 0x10)] else []) ++
  [(UartIrq, 1); (RtcIrq, 2)] ++ ((λ i, (PciIntx i, 0x20 + Z.of_nat i)) <$> seq 0 GPEX_NUM_IRQS) ++ [(GpioIrq, 5)].

Lemma regions_final cf v w dev :
  regions v = (λ '(s, l), (s, (base (memmap s), l))) <$> take 5 (all_regions cf) →
  regions w = regions v ++ ((λ '(s, l), (s, (base (memmap s), l))) <$> middle_regions cf) →
  regions (map_region VMAPPLE_FIRMWARE (size (memmap VMAPPLE_FIRMWARE)) (map_region VMAPPLE_CONFIG 0x10000
    (w <| cfgdev := dev |>))) = (λ '(s, l), (s, (base (memmap s), l))) <$> all_regions cf.
Proof.
  intros R M.
  change (regions (map_region _ _ _)) with ((regions w ++ [(VMAPPLE_CONFIG, (base (memmap VMAPPLE_CONFIG), 0x10000))]) ++
    [(VMAPPLE_FIRMWARE, (base (memmap VMAPPLE_FIRMWARE), size (memmap VMAPPLE_FIRMWARE)))]).
  rewrite M, R. reflexivity.
Qed.

Lemma wires_final cf v w dev :
  wires v = ((λ i, (TimerVirt i, arm_gic_ppi_index (Z.of_nat i) 27)) <$> seq 0 (Z.to_nat (smp_cpus cf))) ++
    ((λ i, (Msi i, 0x80 + Z.of_nat i)) <$> seq 0 NUM_GICV2M_SPIS) →
  wires w = wires v ++ middle_wires cf →
  wires (map_region VMAPPLE_FIRMWARE (size (memmap VMAPPLE_FIRMWARE)) (map_region VMAPPLE_CONFIG 0x10000
    (w <| cfgdev := dev |>))) = all_wires (Z.to_nat (smp_cpus cf)) (negb (stub_gfx cf)).
Proof. intros W M. change (wires (map_region _ _ _)) with (wires w). rewrite M, W. symmetry. apply app_assoc. Qed.

Lemma init_ends_final cf rnd rand v w :
  before_middle cf v → step_builds v w (middle_regions cf) (middle_wires cf) →
  init_ends cf rnd rand (map_region VMAPPLE_FIRMWARE (size (memmap VMAPPLE_FIRMWARE)) (map_region VMAPPLE_CONFIG 0x10000
    (w <| cfgdev := Some (vmapple_cfg_realize rand (cfg_device cf rnd)).1 |>))).
Proof.
  intros (R & W & C & N & I & G & O) [[MR MW] (SC & SN & SI & SG & _ & SO)].
  split; [exact (regions_final cf v w _ R MR)|]. split; [exact (wires_final cf v w _ W MW)|].
  split; [exact (eq_trans SC C)|]. split; [exact (eq_trans SN N)|]. split; [exact (eq_trans SI I)|].
  split; [exact (eq_trans SG G)|]. split; [reflexivity|exact (eq_trans SO O)].
Qed.

Lemma init_ends_intro cf rnd rand v :
  before_middle cf v →
  init_ends cf rnd rand (map_region VMAPPLE_FIRMWARE (size (memmap VMAPPLE_FIRMWARE)) (map_region VMAPPLE_CONFIG 0x10000
    ((create_gpio_devices (create_pcie (create_rtc (create_uart (create_gfx cf (create_aes (create_pvpanic v)))))))
       <| cfgdev := Some (vmapple_cfg_realize rand (cfg_device cf rnd)).1 |>))).
Proof. intros B. exact (init_ends_final _ _ _ _ _ B (middle_builds cf v)). Qed.

Definition board_front (cf : config) : VMAppleMachineState :=
  let v := create_gic cf (map_region VMAPPLE_MEM (machine_ram_size cf) (vms_empty <| vms_cpus := create_cpus cf |>)) in
  let v := connect ((λ i, (Msi i, 0x80 + Z.of_nat i)) <$> seq 0 NUM_GICV2M_SPIS)
    (map_region VMAPPLE_GICV2M 0x1000 (v <| gicv2m := Some (mkGicv2m 0x80 128 1) |>)) in
  map_region VMAPPLE_BDOOR 0x200000 (v <| bdif_root_virtio := negb (drive_root cf) |>).

Lemma board_front_ok cf : before_middle cf (board_front cf).
Proof. by split_and!. Qed.

Lemma create_gicv2m_eq v :
  create_gicv2m v = inl (connect ((λ i, (Msi i, 0x80 + Z.of_nat i)) <$> seq 0 NUM_GICV2M_SPIS)
    (map_region VMAPPLE_GICV2M 0x1000 (v <| gicv2m := Some (mkGicv2m 0x80 128 1) |>))).
Proof. reflexivity. Qed.

Lemma init_eq cf rnd rand :
  ∃ v, init_ends cf rnd rand v ∧
    mach_vmapple_init cf rnd rand = match init_error cf rnd rand with Some e => inr e | None => inl v end.
Proof.
  eexists. split; [exact (init_ends_intro cf rnd rand _ (board_front_ok cf))|].
  unfold init_error, mach_vmapple_init. cbv zeta. rewrite create_gicv2m_eq.
  unfold then_ at 1, create_bdif. destruct (drive_aux cf); cbn [negb]; [|done].
  destruct (negb (drive_root cf) && negb (drive_virtio cf)); [done|].
  unfold then_ at 1. fold (board_front cf). generalize (board_front cf) as v3. intros v3.
  unfold create_cfg. change (mkCfgState _ _ _ _ _ true) with (cfg_device cf rnd).
  destruct (vmapple_cfg_realize rand (cfg_device cf rnd)) as [dev [e|]]; cbn [snd fst then_]; [done|].
  unfold vmapple_firmware_init.
  destruct (negb (firmware_name cf)), (negb (firmware_found cf)), (firmware_image_size cf <? 0); reflexivity.
Qed.

(** ** The memory map *)
Definition region_limit (s : slot) : Z :=
  match s with VMAPPLE_MEM => 2 ^ 64 - 0x70000000 | _ => size (memmap s) end.

Definition apart (r1 r2 : Z * Z) : Prop := r1.1 + r1.2 ≤ r2.1 ∨ r2.1 + r2.2 ≤ r1.1.
Definition all_slots : list slot :=
  [VMAPPLE_FIRMWARE; VMAPPLE_CONFIG; VMAPPLE_MEM; VMAPPLE_GIC_DIST; VMAPPLE_GIC_REDIST; VMAPPLE_GICV2M;
   VMAPPLE_UART; VMAPPLE_RTC; VMAPPLE_PCIE; VMAPPLE_PCIE_MMIO; VMAPPLE_PCIE_ECAM; VMAPPLE_GPIO;
   VMAPPLE_PVPANIC; VMAPPLE_APV_GFX; VMAPPLE_APV_IOSFC; VMAPPLE_AES_1; VMAPPLE_AES_2; VMAPPLE_BDOOR].

Lemma slots_apart s1 s2 : s1 ≠ s2 → apart (base (memmap s1), region_limit s1) (base (memmap s2), region_limit s2).
Proof.
  assert (Forall (λ s1, Forall (λ s2, s1 = s2 ∨
    apart (base (memmap s1), region_limit s1) (base (memmap s2), region_limit s2)) all_slots) all_slots) as H
    by (unfold apart; decide_done).
  assert (∀ s, s ∈ all_slots) as Hs by (intros []; decide_done).
  rewrite Forall_forall in H. specialize (H s1 (Hs s1)). rewrite Forall_forall in H. specialize (H s2 (Hs s2)). tauto.
Qed.

Lemma regions_limited cf : config_ok cf → Forall (λ r, 0 ≤ r.2 ≤ region_limit r.1) (all_regions cf).
Proof.
  intros (Hn & _ & Hm & Hg & _). unfold all_regions, gfx_len, MAX_CPUS, GICV3_REDIST_SIZE in *.
  repeat constructor; simpl; try lia; repeat case_match; lia.
Qed.

(** Whatever the configuration, the regions mach_vmapple_init maps into system
    memory do not overlap, lie inside the slots of the memory map (RAM excepted,
    whose size is the machine's) and do not wrap around the address space. *)
Theorem machine_map cf rnd rand v :
  config_ok cf → mach_vmapple_init cf rnd rand = inl v →
  (∀ i j s1 s2 r1 r2, i ≠ j → regions v !! i = Some (s1, r1) → regions v !! j = Some (s2, r2) →
    s1 ≠ s2 ∧ apart r1 r2) ∧
  (∀ s b l, (s, (b, l)) ∈ regions v → b = base (memmap s) ∧ 0 ≤ l ∧ b + l ≤ 2 ^ 64 ∧
    (s ≠ VMAPPLE_MEM → l ≤ size (memmap s))).
Proof.
  intros Hok Hin. destruct (init_eq cf rnd rand) as (v' & (Hr & _) & E).
  assert (v' = v) as -> by (rewrite E in Hin; destruct (init_error _ _ _); congruence).
  pose proof (regions_limited cf Hok) as Hl. rewrite Forall_forall in Hl. rewrite Hr. clear - Hl. split.
  - intros i j s1 s2 r1 r2 Hij. rewrite !list_lookup_fmap. intros Hi Hj.
    destruct (all_regions cf !! i) as [[s1' l1]|] eqn:Ei; [|done].
    destruct (all_regions cf !! j) as [[s2' l2]|] eqn:Ej; [|done]. simplify_eq/=.
    assert (s1 ≠ s2) as Hs.
    { intros ->. apply Hij. apply (NoDup_lookup (all_regions cf).*1 i j s2); rewrite ?list_lookup_fmap, ?Ei, ?Ej; done || decide_done. }
    split; [done|]. pose proof (slots_apart s1 s2 Hs) as Ha.
    apply list_elem_of_lookup_2, Hl in Ei, Ej. unfold apart in *. simpl in *. lia.
  - intros s b l Hin. apply list_elem_of_fmap in Hin as ([s' l'] & [= -> -> ->] & Hs). apply Hl in Hs. simpl in Hs.
    split; [done|]. split; [lia|]. assert (base (memmap s') + region_limit s' ≤ 2 ^ 64) by (destruct s'; decide_done).
    split; [lia|]. intros. destruct s'; simpl in *; done || lia.
Qed.

(** ** Interrupt wiring *)
Definition inputs (num_irq num_cpu : Z) : Z := num_irq - 32 + 32 * num_cpu.

Lemma wires_ok n gfx :
  (0 < n ≤ 32)%nat →
  NoDup (all_wires n gfx).*2 ∧ Forall (λ w, 0 ≤ w.2 < inputs (NUM_IRQS + 32) (Z.of_nat n)) (all_wires n gfx).
Proof.
  intros Hn. assert (Forall (λ n, Forall (λ gfx, NoDup (all_wires n gfx).*2 ∧
    Forall (λ w, 0 ≤ w.2 < inputs (NUM_IRQS + 32) (Z.of_nat n)) (all_wires n gfx)) [true; false]) (seq 1 32)) as H
    by decide_done.
  rewrite Forall_forall in H. specialize (H n). rewrite Forall_forall in H.
  apply H; [apply elem_of_seq; lia|destruct gfx; set_solver].
Qed.

Lemma msi_pulse n :
  (n < NUM_GICV2M_SPIS)%nat →
  gicv2m_write (mkGicv2m 0x80 128 1) V2M_MSI_SETSPI_NS (0x80 + 32 + Z.of_nat n) 4 =
    Some [(Z.of_nat n, true); (Z.of_nat n, false)].
Proof.
  intros Hn. assert (Forall (λ n, gicv2m_write (mkGicv2m 0x80 128 1) V2M_MSI_SETSPI_NS (0x80 + 32 + Z.of_nat n) 4 =
    Some [(Z.of_nat n, true); (Z.of_nat n, false)]) (seq 0 NUM_GICV2M_SPIS)) as H by decide_done.
  rewrite Forall_forall in H. apply H. apply elem_of_seq. lia.
Qed.

Definition gic_cpu_lines (n : nat) : list (Z * (nat * cpu_line)) :=
  seq 0 n ≫= λ i, [(Z.of_nat i, (i, ARM_CPU_IRQ)); (Z.of_nat i + Z.of_nat n, (i, ARM_CPU_FIQ))].

Lemma outputs_ok n : (0 < n ≤ 32)%nat → (gic_cpu_lines n).*1 ≡ₚ Z.of_nat <$> seq 0 (2 * n).
Proof.
  intros Hn. assert (Forall (λ n, (gic_cpu_lines n).*1 ≡ₚ Z.of_nat <$> seq 0 (2 * n)) (seq 1 32)) as H by decide_done.
  rewrite Forall_forall in H. apply H, elem_of_seq. lia.
Qed.

(** The input of the GIC each line is meant for: SPIs from 0, then 32 private inputs per CPU, of
    which the virtual timer's is 27. *)
Definition intended_input (ncpu : nat) (gfx : bool) (src : irq_source) : option Z :=
  match src with
  | TimerVirt i => if (i <? ncpu)%nat then Some (256 + 32 * Z.of_nat i + 27) else None
  | Msi i => if (i <? 128)%nat then Some (128 + Z.of_nat i) else None
  | PciIntx i => if (i <? 16)%nat then Some (32 + Z.of_nat i) else None
  | AesIrq => Some 18
  | GfxIrq => if gfx then Some 17 else None
  | IosfcIrq => if gfx then Some 16 else None
  | UartIrq => Some 1
  | RtcIrq => Some 2
  | GpioIrq => Some 5
  end.

Lemma lines_at {A} (f : nat → A * Z) n x : x ∈ f <$> seq 0 n ↔ ∃ i, (i < n)%nat ∧ x = f i.
Proof. rewrite list_elem_of_fmap. split; intros (i & H1 & H2); exists i; rewrite elem_of_seq in *; split; done || lia. Qed.
Lemma wires_intended ncpu gfx src n : (src, n) ∈ all_wires ncpu gfx ↔ intended_input ncpu gfx src = Some n.
Proof.
  unfold all_wires. rewrite !elem_of_app, !elem_of_cons, !elem_of_nil, !lines_at. unfold arm_gic_ppi_index, NUM_IRQS, GIC_INTERNAL, NUM_GICV2M_SPIS, GPEX_NUM_IRQS.
  split.
  - intros [(i & Hi & [= -> ->])|[(i & Hi & [= -> ->])|[[[= -> ->]|[]]|[Hg|[[[= -> ->]|[[= -> ->]|[]]]|[(i & Hi & [= -> ->])|[[= -> ->]|[]]]]]]]];
      try done; try (unfold intended_input; apply Nat.ltb_lt in Hi; rewrite Hi; f_equal; lia).
    destruct gfx; [|by apply elem_of_nil in Hg]. rewrite !elem_of_cons, elem_of_nil in Hg. by destruct Hg as [[= -> ->]|[[= -> ->]|[]]].
  - unfold intended_input. destruct src as [i|i| | | | | | |i].
    + destruct (Nat.ltb_spec i ncpu); intros [= <-]. left. exists i. split; [done|]. f_equal. lia.
    + destruct (Nat.ltb_spec i 128); intros [= <-]. right; left. by exists i.
    + intros [= <-]. auto.
    + destruct gfx; intros [= <-]. do 3 right. left. apply list_elem_of_here.
    + destruct gfx; intros [= <-]. do 3 right. left. apply list_elem_of_further, list_elem_of_here.
    + intros [= <-]. auto 10.
    + intros [= <-]. auto 10.
    + intros [= <-]. auto 10.
    + destruct (Nat.ltb_spec i 16); intros [= <-]. do 5 right. left. by exists i.
Qed.

(** C27: the interrupt wiring.  Each line of a device drives exactly the input meant for it
    ([intended_input]) and nothing else is connected.  No two lines share an input of the GIC and every input
    exists; the GIC's outputs are used once each, output [i] for CPU [i]'s IRQ and
    output [num_cpu + i] for its FIQ; and the message a PCI device writes for SPI [n]
    of the GICv2m frame pulses line [n], which is wired to exactly that SPI. *)
Theorem machine_irqs cf rnd rand v :
  config_ok cf → mach_vmapple_init cf rnd rand = inl v →
  (∀ src n, (src, n) ∈ wires v ↔ intended_input (length (vms_cpus v)) (negb (stub_gfx cf)) src = Some n) ∧
  NoDup (wires v).*2 ∧ Forall (λ w, 0 ≤ w.2 < inputs (gic_num_irq v) (gic_num_cpu v)) (wires v) ∧
  (gic_outputs v).*1 ≡ₚ Z.of_nat <$> seq 0 (2 * length (vms_cpus v)) ∧
  (∀ i, (i < length (vms_cpus v))%nat →
    (Z.of_nat i, (i, ARM_CPU_IRQ)) ∈ gic_outputs v ∧ (gic_num_cpu v + Z.of_nat i, (i, ARM_CPU_FIQ)) ∈ gic_outputs v) ∧
  ∃ dev, gicv2m v = Some dev ∧ ∀ n, (n < NUM_GICV2M_SPIS)%nat →
    let spi := irqmap VMAPPLE_GICV2M + Z.of_nat n in
    gicv2m_write dev V2M_MSI_SETSPI_NS (32 + spi) 4 = Some [(Z.of_nat n, true); (Z.of_nat n, false)] ∧
    (Msi n, spi) ∈ wires v.
Proof.
  intros Hok Hin. destruct (init_eq cf rnd rand) as (v' & (_ & Hw & Hc & Hn & Hi & Hg & _ & Ho) & E).
  assert (v' = v) as -> by (rewrite E in Hin; destruct (init_error _ _ _); congruence).
  destruct Hok as (Hs & Hmax & _). unfold MAX_CPUS in Hs.
  assert (length (vms_cpus v) = Z.to_nat (smp_cpus cf)) as Hlen.
  { rewrite Hc. unfold create_cpus, vmapple_possible_cpu_arch_ids. rewrite length_imap, length_take, length_fmap, length_seq. lia. }
  rewrite Hlen. set (n := Z.to_nat (smp_cpus cf)) in *. assert (smp_cpus cf = Z.of_nat n) as En by lia.
  rewrite En in *. change (gic_outputs v = gic_cpu_lines n) in Ho.
  destruct (wires_ok n (negb (stub_gfx cf))) as [H1 H2]; [lia|]. rewrite Hw, Hn, Hi, Ho.
  split; [intros; apply wires_intended|]. split; [done|]. split; [done|]. split; [apply outputs_ok; lia|]. split.
  - intros i Hlt. unfold gic_cpu_lines. split; apply list_elem_of_bind; exists i; rewrite elem_of_seq; (split; [|lia]).
    + apply list_elem_of_here.
    + rewrite (Z.add_comm (Z.of_nat n)). apply list_elem_of_further, list_elem_of_here.
  - eexists. split; [exact Hg|]. intros k Hk. split.
    + rewrite <- (msi_pulse k Hk). f_equal. simpl. lia.
    + unfold all_wires. apply elem_of_app. right. apply elem_of_app. left. apply list_elem_of_fmap.
      exists k. split; [done|]. apply elem_of_seq. lia.
Qed.

(** ** Initialisation succeeds exactly when it should *)
Lemma props_fit_device cf rnd :
  props_fit (cfg_device cf rnd) ↔
  (length (default (str "1234") (serial_arg cf)) ≤ 31 ∧ length (default (str "VM0001") (model_arg cf)) ≤ 31 ∧
   length (default (str "Apple M1 (Virtual)") (soc_name_arg cf)) ≤ 31)%nat.
Proof. done. Qed.

Lemma cfg_device_wf cf rnd : cfg_wf (cfg (cfg_device cf rnd)).
Proof. vm_compute; reflexivity. Qed.

(** Mach_vmapple_init succeeds exactly when there is an auxiliary drive and a root
    drive, the firmware is named, found and loads, and the three string properties
    fit their fields; a failure is reported for the first of these that is missing,
    drives before strings before firmware. *)
Theorem machine_init_exact cf rnd rand :
  config_ok cf → length rand = 64%nat →
  match mach_vmapple_init cf rnd rand with
  | inl _ => drives_ok cf = true ∧ props_fit (cfg_device cf rnd) ∧ firmware_ok cf = true
  | inr NoAux => drive_aux cf = false
  | inr NoRoot => drive_aux cf = true ∧ drives_ok cf = false
  | inr (CfgRejected _) => drives_ok cf = true ∧ ¬ props_fit (cfg_device cf rnd)
  | inr (NoFirmware | FirmwareNotFound | FirmwareNotLoaded) =>
      drives_ok cf = true ∧ props_fit (cfg_device cf rnd) ∧ firmware_ok cf = false
  | inr Gicv2mRejected => False
  end.
Proof.
  intros (Hn & _) Hr. unfold MAX_CPUS in Hn. destruct (init_eq cf rnd rand) as (v & _ & ->).
  assert (nr_cpus (cfg (cfg_device cf rnd)) = smp_cpus cf) as En by done.
  pose proof (realize_accepts rand (cfg_device cf rnd) (cfg_device_wf cf rnd) Hr) as HA.
  rewrite En in HA. unfold is_u32 in HA. specialize (HA ltac:(lia)). assert (smp_cpus cf ≤ 0x80) as Hle by lia.
  unfold init_error, drives_ok, firmware_ok. revert HA.
  destruct (drive_aux cf), (drive_root cf), (drive_virtio cf); simpl; try done;
    (destruct (vmapple_cfg_realize rand (cfg_device cf rnd)).2 as [e|]; intros HA;
      [split; [done|]; intros Hp; by discriminate (proj2 HA (conj Hp Hle))|]);
    destruct (proj1 HA eq_refl) as [Hp _];
    destruct (firmware_name cf), (firmware_found cf); simpl; try done;
    destruct (Z.ltb_spec (firmware_image_size cf) 0), (Z.leb_spec 0 (firmware_image_size cf)); done || lia.
Qed.

(** ** Reset starts the boot CPU *)
Lemma create_cpus_lookup cf i c :
  create_cpus cf !! i = Some c ↔
  (i < Z.to_nat (smp_cpus cf))%nat ∧ (i < Z.to_nat (max_cpus cf))%nat ∧
  c = create_cpu cf i (arm_build_mp_affinity (Z.of_nat i) GICV3_TARGETLIST_BITS).
Proof.
  unfold create_cpus, vmapple_possible_cpu_arch_ids. rewrite list_lookup_imap.
  destruct (decide (i < Z.to_nat (smp_cpus cf))%nat); [rewrite lookup_take_lt by done|rewrite lookup_take_ge by lia; simpl; naive_solver lia].
  rewrite list_lookup_fmap. destruct (decide (i < Z.to_nat (max_cpus cf))%nat).
  - rewrite lookup_seq_lt by done. simpl. naive_solver.
  - rewrite lookup_seq_ge by lia. simpl. naive_solver lia.
Qed.

Lemma affinity_inj i j : (i < 32)%nat → (j < 32)%nat →
  arm_build_mp_affinity (Z.of_nat i) GICV3_TARGETLIST_BITS = arm_build_mp_affinity (Z.of_nat j) GICV3_TARGETLIST_BITS → i = j.
Proof.
  intros Hi Hj E.
  assert (NoDup ((λ i, arm_build_mp_affinity (Z.of_nat i) GICV3_TARGETLIST_BITS) <$> seq 0 32)) as H by decide_done.
  apply (NoDup_lookup _ i j (arm_build_mp_affinity (Z.of_nat i) GICV3_TARGETLIST_BITS) H);
    rewrite list_lookup_fmap, lookup_seq_lt by done; simpl; congruence.
Qed.

Lemma create_cpus_ids cf : smp_cpus cf ≤ MAX_CPUS → NoDup (mp_affinity <$> create_cpus cf).
Proof.
  unfold MAX_CPUS. intros Hn. apply NoDup_alt. intros i j x. rewrite !list_lookup_fmap.
  destruct (create_cpus cf !! i) as [c|] eqn:Ei; [|done]. destruct (create_cpus cf !! j) as [d|] eqn:Ej; [|done].
  apply create_cpus_lookup in Ei as (? & _ & ->), Ej as (? & _ & ->). simpl. intros [= <-] [= E].
  symmetry in E. apply affinity_inj in E; lia.
Qed.

(** A reset CPU as the board leaves it. *)
Lemma reset_cpu_ok cf i id : cpu_ok (cpu_reset (create_cpu cf i id)).
Proof. constructor; unfold off_ok; simpl; [by case_bool_decide|by case_bool_decide|done|by constructor]. Qed.

Definition booted_cpus (cf : config) : list ARMCPU :=
  <[0%nat := arm_cpu_set_pc (cpu_reset (create_cpu cf 0 0)) (base (memmap VMAPPLE_FIRMWARE))]> (cpu_reset <$> create_cpus cf).

Lemma booted_cpus_ok cf : smp_cpus cf ≤ MAX_CPUS →
  Forall cpu_ok (booted_cpus cf) ∧ NoDup (mp_affinity <$> booted_cpus cf).
Proof.
  intros Hn. split.
  - apply Forall_insert; [|constructor; simpl; done || by constructor].
    apply Forall_fmap, Forall_lookup_2. intros i c (_ & _ & ->)%create_cpus_lookup. apply reset_cpu_ok.
  - unfold booted_cpus. rewrite list_fmap_insert, <- list_fmap_compose.
    destruct (decide (0 < length (create_cpus cf))%nat) as [[c0 H0]%lookup_lt_is_Some_2|].
    + rewrite list_insert_id; [by apply create_cpus_ids|]. rewrite list_lookup_fmap, H0.
      by apply create_cpus_lookup in H0 as (_ & _ & ->).
    + rewrite list_insert_ge by (rewrite length_fmap; lia). by apply create_cpus_ids.
Qed.

Lemma machine_reset_eq cf v host cntfrq gt mem pids k p :
  vms_cpus v = create_cpus cf → create_cpus cf !! 0%nat = Some (create_cpu cf 0 0) → draw_pids k pids 0 = Some p →
  ∃ s, machine_reset k pids (machine_of cf v host cntfrq gt mem) = Some s ∧ cpus s = booted_cpus cf ∧
    valid (boot_keys (board s)) = false ∧ ram (board s) = mem ∧ bql s = None.
Proof.
  intros Hc H0 Hp. unfold machine_reset, vmapple_reset, vmapple_hvc_reset, machine_of. rewrite Hc, Hp.
  cbn [mbind option_bind]. simpl (cpus _). rewrite list_lookup_fmap, H0. eexists. split; [reflexivity|]. done.
Qed.

(** After the first reset the machine is ready to boot.  The reset succeeds as
    soon as the random source gives a pair without a zero; CPU 0 is on, in EL1, at
    the firmware's first instruction; every other CPU is off and halted; no key is
    recorded; the CPUs are as many as configured with distinct ids; and from here on
    every step of the power-control path succeeds. *)
Theorem machine_boots cf rnd rand v host cntfrq gt mem pids k :
  config_ok cf → mach_vmapple_init cf rnd rand = inl v → (44 ≤ length mem)%nat →
  nz (pids k).1 = true → nz (pids k).2 = true →
  ∃ s c0, machine_reset (S k) pids (machine_of cf v host cntfrq gt mem) = Some s ∧
    length (cpus s) = Z.to_nat (smp_cpus cf) ∧
    cpus s !! 0%nat = Some c0 ∧ power_state c0 = PSCI_ON ∧ halted c0 = false ∧ current_el c0 = 1 ∧
    aarch64 c0 = true ∧ pc c0 = base (memmap VMAPPLE_FIRMWARE) ∧
    (∀ i c, (0 < i)%nat → cpus s !! i = Some c → power_state c = PSCI_OFF ∧ halted c = true) ∧
    valid (boot_keys (board s)) = false ∧ sys_ok s ∧
    ∀ s' e, psci_reachable s s' → enabled s' e → ∃ s'', psci_step s' e = Some s''.
Proof.
  intros (Hn & Hmax & _) Hin Hmem H1 H2. destruct (init_eq cf rnd rand) as (v' & (_ & _ & Hc & _) & E).
  assert (v' = v) as -> by (rewrite E in Hin; destruct (init_error _ _ _); congruence).
  destruct (draw_pids_nonzero pids k 0 H1 H2) as (p & Hp & _).
  assert (create_cpus cf !! 0%nat = Some (create_cpu cf 0 0)) as H0 by (apply create_cpus_lookup; split_and!; [lia..|done]).
  destruct (machine_reset_eq cf v host cntfrq gt mem pids (S k) p Hc H0 Hp) as (s & Es & Hs & Hv & Hr & Hl).
  destruct (booted_cpus_ok cf) as [B1 B2]; [lia|].
  assert (sys_ok s) as Hok by (split; [constructor; rewrite ?Hs; [done|done|simpl; by rewrite Hr]|by rewrite Hl]).
  exists s. eexists. split; [done|]. rewrite Hs. split.
  { unfold booted_cpus, create_cpus, vmapple_possible_cpu_arch_ids.
    rewrite length_insert, length_fmap, length_imap, length_take, length_fmap, length_seq. lia. }
  split; [apply list_lookup_insert_eq; rewrite length_fmap; by eapply lookup_lt_Some|].
  do 5 (split; [done|]). split.
  { intros i c Hi. unfold booted_cpus. rewrite list_lookup_insert_ne by lia. rewrite list_lookup_fmap.
    destruct (create_cpus cf !! i) as [d|] eqn:Ed; [|done]. apply create_cpus_lookup in Ed as (_ & _ & ->).
    intros [= <-]. simpl. by rewrite bool_decide_true by lia. }
  split; [done|]. split; [done|]. intros s' e Hreach He.
  destruct (step_ok s' e (reachable_ok s s' Hok Hreach) He) as (s'' & ? & _). eauto.
Qed.

(** ** A four-core machine *)
Definition demo_config : config :=
  mkConfig 4 4 (4 * GiB) 0x1234 true false true false true false 0x4000 true true 0x80000
    (Some (str "C02XXXX")) None None true 0.
Definition demo_vms : VMAppleMachineState :=
  match mach_vmapple_init demo_config 7 (replicate 64 9) with inl v => v | inr _ => vms_empty end.

Lemma demo_ok : config_ok demo_config.
Proof. vm_compute. intuition discriminate. Qed.

Lemma demo_init : mach_vmapple_init demo_config 7 (replicate 64 9) = inl demo_vms.
Proof.
  unfold demo_vms. destruct (init_eq demo_config 7 (replicate 64 9)) as (v & _ & ->).
  assert (init_error demo_config 7 (replicate 64 9) = None) as -> by (vm_compute; reflexivity). reflexivity.
Qed.

Lemma machine_map_witness :
  config_ok demo_config ∧ mach_vmapple_init demo_config 7 (replicate 64 9) = inl demo_vms ∧
  ∀ s b l, (s, (b, l)) ∈ regions demo_vms → b + l ≤ 2 ^ 64.
Proof.
  pose proof demo_ok as Hok. pose proof demo_init as E.
  split; [exact Hok|]. split; [exact E|]. intros s b l Hin.
  exact (proj1 (proj2 (proj2 (proj2 (machine_map demo_config 7 (replicate 64 9) demo_vms Hok E) s b l Hin)))).
Defined.

Lemma machine_irqs_witness :
  mach_vmapple_init demo_config 7 (replicate 64 9) = inl demo_vms ∧ NoDup (wires demo_vms).*2.
Proof.
  pose proof demo_ok as Hok. pose proof demo_init as E.
  split; [exact E|]. exact (proj1 (proj2 (machine_irqs demo_config 7 (replicate 64 9) demo_vms Hok E))).
Defined.

Lemma machine_init_exact_witness :
  mach_vmapple_init demo_config 7 (replicate 64 9) = inl demo_vms ∧ drives_ok demo_config = true.
Proof.
  pose proof demo_ok as Hok. pose proof demo_init as E.
  split; [exact E|].
  pose proof (machine_init_exact demo_config 7 (replicate 64 9) Hok eq_refl) as H. rewrite E in H. exact (proj1 H).
Defined.

Lemma machine_boots_witness :
  ∃ s c0, machine_reset 1 (λ _, (3, 5)) (machine_of demo_config demo_vms false 0 [] (replicate 64 0)) = Some s ∧
    cpus s !! 0%nat = Some c0 ∧ pc c0 = 0x100000.
Proof.
  pose proof demo_ok as Hok. pose proof demo_init as E.
  destruct (machine_boots demo_config 7 (replicate 64 9) demo_vms false 0 [] (replicate 64 0) (λ _, (3, 5)) 0 Hok E)
    as (s & c0 & Es & _ & Hc & _ & _ & _ & _ & Hp & _); [apply Nat.leb_le; reflexivity|reflexivity|reflexivity|].
  exists s, c0. split; [exact Es|]. split; [exact Hc|exact Hp].
Defined.
