(* ===== verification/Shim.v ===== *)
(** Where guest RAM lives in this process: the walk of
    src/qemu/hw/display/reims-vgpu-shim.c over the flat view of the address space.

    The flat view is a list of ranges, each a slice of a memory region; the walk
    merges neighbours that continue each other in both address spaces and writes at
    most [max] spans into the caller's array, counting all of them.  A range's start
    and length are 128-bit integers of the memory core, here unbounded. *)
From S2P Require Import Prelude.

Record region_info := mkRegion {
  is_ram : bool; readonly : bool; is_romd : bool; is_ram_device : bool; ram_ptr : option Z }.
(** [fr_readonly] is the flag a range inherits from the regions and aliases around
    its own; the callbacks of a walk are not given it. *)
Record flat_range := mkRange {
  start : Z; len : Z; mr : option region_info; offset_in_region : Z; fr_readonly : bool }.

Fixpoint flatview_for_each_range {S} (cb : Z → Z → option region_info → Z → S → bool * S)
    (fv : list flat_range) (s : S) : S :=
  match fv with
  | [] => s
  | fr :: fv =>
      let '(stop, s) := cb (start fr) (len fr) (mr fr) (offset_in_region fr) s in
      if stop then s else flatview_for_each_range cb fv s
  end.

Record ReimsVgpuGuestRamRegion := mkSpan { gpa_base : Z; host_va : Z; span_len : Z }.
Record ReimsVgpuRamScan := mkScan {
  out : list ReimsVgpuGuestRamRegion; max : Z; found : Z;
  pending : bool; scan_gpa : Z; scan_hva : Z; scan_len : Z }.
#[export] Instance eta_scan : Settable ReimsVgpuRamScan := λ r,
  mkScan (out r) (max r) (found r) (pending r) (scan_gpa r) (scan_hva r) (scan_len r).

Definition REIMS_VGPU_GUEST_RAM_ERR_ARGS : Z := -1.
Definition REIMS_VGPU_GUEST_RAM_ERR_NO_RAM : Z := -2.
Definition INT_MAX : Z := 0x7fffffff.

Definition reims_vgpu_ram_scan_flush (s : ReimsVgpuRamScan) : ReimsVgpuRamScan :=
  if negb (pending s) then s
  else
    let s := if found s <? max s
             then s <| out := <[Z.to_nat (found s) := mkSpan (scan_gpa s) (scan_hva s) (scan_len s)]> (out s) |>
             else s in
    s <| found := found s + 1 |> <| pending := false |>.

Definition reims_vgpu_ram_scan_range (start len : Z) (mr : option region_info) (offset_in_region : Z)
    (scan : ReimsVgpuRamScan) : bool * ReimsVgpuRamScan :=
  match mr with
  | None => (false, reims_vgpu_ram_scan_flush scan)
  | Some m =>
      if negb (is_ram m) || readonly m || is_romd m || is_ram_device m
      then (false, reims_vgpu_ram_scan_flush scan)
      else if nz (Z.shiftr start 64) || nz (Z.shiftr len 64) then (false, reims_vgpu_ram_scan_flush scan)
      else
        let gpa := u64 start in
        let bytes := u64 len in
        if bytes =? 0 then (false, scan)
        else match ram_ptr m with
        | None => (false, reims_vgpu_ram_scan_flush scan)
        | Some ptr =>
            let hva := u64 (ptr + offset_in_region) in
            if pending scan && (u64 (scan_gpa scan + scan_len scan) =? gpa) &&
               (u64 (scan_hva scan + scan_len scan) =? hva) && (scan_len scan <=? UINT64_MAX - bytes)
            then (false, scan <| scan_len := u64 (scan_len scan + bytes) |>)
            else
              let scan := reims_vgpu_ram_scan_flush scan in
              (false, mkScan (out scan) (max scan) (found scan) true gpa hva bytes)
        end
  end.

(** The caller's array, [None] for a null pointer, and the result. *)
Definition reims_vgpu_shim_guest_ram_regions (fv : list flat_range) (array : option (list ReimsVgpuGuestRamRegion))
    (max : Z) : Z * option (list ReimsVgpuGuestRamRegion) :=
  match array with
  | None => (REIMS_VGPU_GUEST_RAM_ERR_ARGS, None)
  | Some o =>
      if max =? 0 then (REIMS_VGPU_GUEST_RAM_ERR_ARGS, Some o)
      else
        let scan := flatview_for_each_range reims_vgpu_ram_scan_range fv (mkScan o max 0 false 0 0 0) in
        let scan := reims_vgpu_ram_scan_flush scan in
        (if found scan =? 0 then REIMS_VGPU_GUEST_RAM_ERR_NO_RAM
         else if INT_MAX <? found scan then REIMS_VGPU_GUEST_RAM_ERR_ARGS
         else found scan, Some (out scan))
  end.

(** ** The reference: which host byte a guest byte is

    [plain_ram] is RAM by the flags of the region itself, which is what a walk is shown. *)
Definition plain_ram (m : region_info) : bool :=
  is_ram m && negb (readonly m) && negb (is_romd m) && negb (is_ram_device m).

(** The host address of a range the GPU may use. *)
Definition usable (r : flat_range) : option Z :=
  m ← mr r;
  p ← ram_ptr m;
  if plain_ram m && (len r <? 2 ^ 64) then Some (p + offset_in_region r) else None.

Definition range_host (r : flat_range) (g : Z) : option Z :=
  h ← usable r; if (start r <=? g) && (g <? start r + len r) then Some (h + (g - start r)) else None.
Fixpoint host_of (fv : list flat_range) (g : Z) : option Z :=
  match fv with
  | [] => None
  | r :: fv => match range_host r g with Some h => Some h | None => host_of fv g end
  end.

Definition span_host (q : ReimsVgpuGuestRamRegion) (g : Z) : option Z :=
  if (gpa_base q <=? g) && (g <? gpa_base q + span_len q) then Some (host_va q + (g - gpa_base q)) else None.
Fixpoint spans_host (qs : list ReimsVgpuGuestRamRegion) (g : Z) : option Z :=
  match qs with
  | [] => None
  | q :: qs => match span_host q g with Some h => Some h | None => spans_host qs g end
  end.

(** A flat view: ranges in order without overlap, none empty; usable ones are mapped
    at a host address that is not null and does not wrap. *)
Definition range_wf (r : flat_range) : Prop :=
  0 ≤ start r ∧ 0 < len r ∧ start r + len r ≤ 2 ^ 64 ∧ ∀ h, usable r = Some h → 0 < h ∧ h + len r ≤ 2 ^ 64.
Fixpoint fv_wf (b : Z) (fv : list flat_range) : Prop :=
  match fv with [] => True | r :: fv => b ≤ start r ∧ range_wf r ∧ fv_wf (start r + len r) fv end.

(** [q2] starts where [q1] ends, in both address spaces. *)
Definition continues (q1 q2 : ReimsVgpuGuestRamRegion) : Prop :=
  gpa_base q2 = gpa_base q1 + span_len q1 ∧ host_va q2 = host_va q1 + span_len q1 ∧ span_len q1 + span_len q2 < 2 ^ 64.

(** ** The spans as a list

    [walk] is the scan without the caller's array: the finished spans and the one
    that may still grow. *)
Definition opt_list {A} (o : option A) : list A := match o with Some x => [x] | None => [] end.

Definition span_state : Type := list ReimsVgpuGuestRamRegion * option ReimsVgpuGuestRamRegion.
#[export] Instance continues_dec q1 q2 : Decision (continues q1 q2).
Proof. unfold continues. apply _. Defined.

Definition walk_step (st : span_state) (r : flat_range) : span_state :=
  let '(done, p) := st in
  match usable r with
  | None => (done ++ opt_list p, None)
  | Some h =>
      let q2 := mkSpan (start r) h (len r) in
      match p with
      | Some q => if decide (continues q q2) then (done, Some (mkSpan (gpa_base q) (host_va q) (span_len q + len r)))
                  else (done ++ [q], Some q2)
      | None => (done, Some q2)
      end
  end.
Definition walk (fv : list flat_range) : span_state := foldl walk_step ([], None) fv.
Definition spans (fv : list flat_range) : list ReimsVgpuGuestRamRegion := (walk fv).1 ++ opt_list (walk fv).2.

(** ** The walk against the flat view *)
Lemma host_of_snoc fv r g :
  host_of (fv ++ [r]) g = match host_of fv g with Some h => Some h | None => range_host r g end.
Proof.
  induction fv as [|r' fv IH]; cbn; [by destruct (range_host r g)|].
  by destruct (range_host r' g).
Qed.

Lemma spans_host_app qs qs' g :
  spans_host (qs ++ qs') g = match spans_host qs g with Some h => Some h | None => spans_host qs' g end.
Proof. induction qs as [|q qs IH]; cbn; [done|]. by destruct (span_host q g). Qed.

(** Growing a span by a range that continues it adds exactly the range. *)
Lemma span_grow q r h g :
  usable r = Some h → 0 ≤ span_len q → 0 < len r → continues q (mkSpan (start r) h (len r)) →
  span_host (mkSpan (gpa_base q) (host_va q) (span_len q + len r)) g =
    match span_host q g with Some x => Some x | None => range_host r g end.
Proof.
  intros Hu ?? (E1 & E2 & _). cbn in E1, E2. unfold span_host, range_host. rewrite Hu. cbn.
  repeat case_match; reflect_bools; simplify_eq; try f_equal; try lia;
    repeat match goal with H : (_ && _)%bool = false |- _ => apply andb_false_iff in H as [?|?] end;
    reflect_bools; lia.
Qed.

(** What holds of the spans after a prefix of the view that ends at [b]. *)
Definition before (b : Z) (q : ReimsVgpuGuestRamRegion) : Prop :=
  0 ≤ gpa_base q ∧ 0 < span_len q < 2 ^ 64 ∧ gpa_base q + span_len q ≤ b ∧
  0 < host_va q ∧ host_va q + span_len q ≤ 2 ^ 64.

(** Spans in order, no two neighbours of which could have been one. *)
Definition separate (q1 q2 : ReimsVgpuGuestRamRegion) : Prop :=
  gpa_base q1 + span_len q1 ≤ gpa_base q2 ∧ ¬ continues q1 q2.
Definition maximal (qs : list ReimsVgpuGuestRamRegion) : Prop :=
  ∀ i q1 q2, qs !! i = Some q1 → qs !! S i = Some q2 → separate q1 q2.

Record walk_ok (b : Z) (fv : list flat_range) (st : span_state) : Prop := {
  wo_host g : spans_host (st.1 ++ opt_list st.2) g = host_of fv g;
  wo_before : Forall (before b) (st.1 ++ opt_list st.2);
  wo_maximal : maximal (st.1 ++ opt_list st.2);
  (* With no span open, the last one ended before [b]. *)
  wo_closed : st.2 = None → ∀ q, last st.1 = Some q → gpa_base q + span_len q < b }.

Lemma maximal_snoc qs q :
  maximal qs → (∀ q0, last qs = Some q0 → separate q0 q) → maximal (qs ++ [q]).
Proof.
  intros Hm Hl i q1 q2 H1 H2. apply lookup_app_Some in H2 as [H2|[Hi H2]].
  - apply (Hm i); [|done]. rewrite lookup_app_l in H1; [done|]. apply lookup_lt_Some in H2. lia.
  - assert (S i = length qs) as E.
    { apply lookup_lt_Some in H2. cbn in H2. lia. }
    rewrite E, Nat.sub_diag in H2. cbn in H2. simplify_eq.
    apply Hl. rewrite last_lookup, <- E. cbn. rewrite lookup_app_l in H1 by lia. done.
Qed.

Lemma maximal_grow qs q q' :
  gpa_base q' = gpa_base q → host_va q' = host_va q → span_len q ≤ span_len q' →
  maximal (qs ++ [q]) → maximal (qs ++ [q']).
Proof.
  intros E1 E2 E3 Hm. apply maximal_snoc.
  - intros i q1 q2 H1 H2. apply (Hm i); by apply lookup_app_l_Some.
  - intros q0 H0. destruct (Hm (pred (length qs)) q0 q) as [Ha Hb].
    + rewrite last_lookup in H0. by apply lookup_app_l_Some.
    + assert (length qs ≠ 0%nat) by (destruct qs; cbn in *; [done|lia]).
      rewrite Nat.succ_pred by done. by apply list_lookup_middle.
    + split; [by rewrite E1|]. intros (?&?&?). apply Hb. repeat split; lia || congruence.
Qed.

Lemma before_mono b b' q : b ≤ b' → before b q → before b' q.
Proof. unfold before. intros. intuition lia. Qed.

Lemma range_host_unusable r g : usable r = None → range_host r g = None.
Proof. unfold range_host. by intros ->. Qed.

Lemma span_of_range r h g :
  usable r = Some h → span_host (mkSpan (start r) h (len r)) g = range_host r g.
Proof. unfold range_host. by intros ->. Qed.

Lemma before_new r h :
  range_wf r → usable r = Some h → before (start r + len r) (mkSpan (start r) h (len r)).
Proof.
  intros (?&?&?&Hh) Hu. destruct (Hh _ Hu). unfold before. cbn.
  assert (len r < 2 ^ 64).
  { unfold usable in Hu. destruct (mr r) as [m|]; [|done]. cbn in Hu. destruct (ram_ptr m); [|done]. cbn in Hu.
    case_match; [reflect_bools; lia|done]. }
  lia.
Qed.

Lemma walk_ok_start : walk_ok 0 [] ([], None).
Proof. split; try done. Qed.

(** A range the GPU may not use closes the open span. *)
Lemma walk_step_unusable b fv done p r :
  b ≤ start r → range_wf r → usable r = None → walk_ok b fv (done, p) →
  walk_ok (start r + len r) (fv ++ [r]) (done ++ opt_list p, None).
Proof.
  intros Hb Hr Hu [H1 H2 H3 H4]. cbn in *. destruct Hr as (?&?&?&_). split; cbn.
  - intros g. rewrite app_nil_r, H1, host_of_snoc, range_host_unusable by done. by destruct (host_of fv g).
  - rewrite app_nil_r. eapply Forall_impl; [exact H2|]. intros q. apply before_mono. lia.
  - by rewrite app_nil_r.
  - intros _ q Hq. apply last_Some_elem_of in Hq. rewrite Forall_forall in H2.
    destruct (H2 q Hq) as (?&?&?&_). lia.
Qed.

(** A usable range that does not continue the open span opens one of its own. *)
Lemma walk_step_new b fv qs r h :
  b ≤ start r → range_wf r → usable r = Some h → Forall (before b) qs → maximal qs →
  (∀ g, spans_host qs g = host_of fv g) →
  (∀ q, last qs = Some q → ¬ continues q (mkSpan (start r) h (len r))) →
  walk_ok (start r + len r) (fv ++ [r]) (qs, Some (mkSpan (start r) h (len r))).
Proof.
  intros Hb Hr Hu H2 H3 H1 Hc. pose proof (before_new _ _ Hr Hu) as Hn.
  destruct Hr as (?&?&?&_). split; cbn; [..|done].
  - intros g. rewrite spans_host_app, H1, host_of_snoc. cbn.
    rewrite span_of_range by done. by destruct (host_of fv g), (range_host r g).
  - apply Forall_app. split; [|by constructor].
    eapply Forall_impl; [exact H2|]. intros q. apply before_mono. lia.
  - apply maximal_snoc; [done|]. intros q Hq. split; [|by apply Hc].
    apply last_Some_elem_of in Hq. rewrite Forall_forall in H2. destruct (H2 q Hq) as (?&?&?&_). cbn. lia.
Qed.

(** A usable range that continues the open span extends it. *)
Lemma walk_step_grow b fv qs q r h :
  b ≤ start r → range_wf r → usable r = Some h → continues q (mkSpan (start r) h (len r)) →
  walk_ok b fv (qs, Some q) →
  walk_ok (start r + len r) (fv ++ [r]) (qs, Some (mkSpan (gpa_base q) (host_va q) (span_len q + len r))).
Proof.
  intros Hb Hr Hu Hc [H1 H2 H3 _]. cbn in *.
  pose proof (before_new _ _ Hr Hu) as Hn. apply Forall_app in H2 as [H2 [Hq _]%Forall_cons].
  destruct Hr as (?&?&?&_), Hn as (_&?&_&?&?), Hq as (?&?&?&?&?). cbn in *. split; cbn; [..|done].
  - intros g. rewrite host_of_snoc, <- H1, !spans_host_app. cbn.
    destruct (spans_host qs g); [done|]. rewrite (span_grow q r h) by (done || lia).
    by destruct (span_host q g), (range_host r g).
  - destruct Hc as (?&?&?). cbn in *. apply Forall_app. split.
    + eapply Forall_impl; [exact H2|]. intros ?. apply before_mono. lia.
    + constructor; [|done]. unfold before. cbn. lia.
  - apply (maximal_grow _ q); cbn; try done. lia.
Qed.

Lemma walk_step_ok b fv st r :
  b ≤ start r → range_wf r → walk_ok b fv st → walk_ok (start r + len r) (fv ++ [r]) (walk_step st r).
Proof.
  intros Hb Hr Hw. destruct st as [qs p]. unfold walk_step.
  destruct (usable r) as [h|] eqn:Hu; [|by eapply walk_step_unusable].
  destruct p as [q|].
  - destruct (decide _) as [Hc|Hc]; [by eapply walk_step_grow|].
    destruct Hw as [H1 H2 H3 _]. eapply walk_step_new; try done.
    intros q' Hq. rewrite last_snoc in Hq. by simplify_eq.
  - destruct Hw as [H1 H2 H3 H4]. cbn in *. rewrite app_nil_r in *. eapply walk_step_new; try done.
    intros q Hq (E&_). specialize (H4 eq_refl q Hq). cbn in E. lia.
Qed.

Lemma walk_from_ok fv b pre st :
  fv_wf b fv → b ≤ 2 ^ 64 → walk_ok b pre st → ∃ b', b' ≤ 2 ^ 64 ∧ walk_ok b' (pre ++ fv) (foldl walk_step st fv).
Proof.
  revert b pre st. induction fv as [|r fv IH]; intros b pre st Hf Hb64 Hw; cbn.
  - exists b. by rewrite app_nil_r.
  - destruct Hf as (Hb & Hr & Hf). rewrite cons_middle, (assoc_L (++)).
    apply (IH (start r + len r)); [done|unfold range_wf in Hr; lia|by apply (walk_step_ok b)].
Qed.

Lemma walk_spans fv :
  fv_wf 0 fv →
  (∀ g, spans_host (spans fv) g = host_of fv g) ∧ maximal (spans fv) ∧ Forall (before (2 ^ 64)) (spans fv).
Proof.
  intros Hf. destruct (walk_from_ok fv 0 [] ([], None) Hf ltac:(lia) walk_ok_start) as (b & Hb & [H1 H2 H3 _]).
  split_and!; [done..|]. eapply Forall_impl; [exact H2|]. intros q. by apply before_mono.
Qed.

(** ** The scan computes the walk *)
Record scan_sim (o : list ReimsVgpuGuestRamRegion) (scan : ReimsVgpuRamScan) (st : span_state) : Prop := {
  ss_max : max scan = Z.of_nat (length o);
  ss_found : found scan = Z.of_nat (length st.1);
  ss_out : out scan = take (length o) st.1 ++ drop (length st.1) o;
  ss_open : match st.2 with
            | None => pending scan = false
            | Some q => pending scan = true ∧ q = mkSpan (scan_gpa scan) (scan_hva scan) (scan_len scan)
            end }.

(** Writing the next span, when there is room for it. *)
Lemma write_span {A} (o qs : list A) q :
  (if decide (length qs < length o)%nat
   then <[length qs := q]> (take (length o) qs ++ drop (length qs) o)
   else take (length o) qs ++ drop (length qs) o)
  = take (length o) (qs ++ [q]) ++ drop (length (qs ++ [q])) o.
Proof.
  rewrite length_app. cbn [length]. case_decide as Hl.
  - rewrite !take_ge by (rewrite ?length_app; cbn; lia).
    rewrite insert_app_r_alt, Nat.sub_diag by lia.
    destruct (drop (length qs) o) as [|x l] eqn:E.
    { apply (f_equal length) in E. rewrite length_drop in E. cbn in E. lia. }
    cbn. rewrite <- (assoc_L (++)). cbn. do 2 f_equal.
    rewrite <- drop_drop, E. done.
  - rewrite !drop_ge, take_app_le by lia. done.
Qed.

Lemma scan_flush_sim o scan qs p :
  scan_sim o scan (qs, p) → scan_sim o (reims_vgpu_ram_scan_flush scan) (qs ++ opt_list p, None).
Proof.
  intros [H1 H2 H3 H4]. cbn in *. unfold reims_vgpu_ram_scan_flush.
  destruct p as [q|]; cbn; [|rewrite H4, app_nil_r; by split].
  destruct H4 as [-> ->]. cbn [negb].
  split; cbn.
  - by case_match.
  - rewrite length_app. cbn. case_match; cbn; lia.
  - rewrite <- write_span, H1, H2, Nat2Z.id, H3.
    destruct (Z.ltb_spec (Z.of_nat (length qs)) (Z.of_nat (length o))); case_decide; try lia; done.
  - done.
Qed.

Definition open_span (scan : ReimsVgpuRamScan) (q : ReimsVgpuGuestRamRegion) : ReimsVgpuRamScan :=
  mkScan (out scan) (max scan) (found scan) true (gpa_base q) (host_va q) (span_len q).

Lemma shiftr64_nz z : 0 ≤ z → nz (Z.shiftr z 64) = negb (z <? 2 ^ 64).
Proof.
  intros Hz. unfold nz. rewrite Z.shiftr_div_pow2 by lia. f_equal.
  apply eq_bool_prop_intro. rewrite !Is_true_true, Z.eqb_eq, Z.ltb_lt, Z.div_small_iff by lia. lia.
Qed.

(** The callback on a range of a well-formed view, by what the range is. *)
Lemma scan_range_unusable r scan :
  range_wf r → usable r = None →
  reims_vgpu_ram_scan_range (start r) (len r) (mr r) (offset_in_region r) scan =
    (false, reims_vgpu_ram_scan_flush scan).
Proof.
  intros (?&?&?&_) Hu. unfold reims_vgpu_ram_scan_range. unfold usable in Hu.
  destruct (mr r) as [m|]; [|done]. cbn in Hu.
  rewrite !shiftr64_nz by lia.
  destruct (start r <? 2 ^ 64) eqn:E1; reflect_bools; [|lia].
  unfold plain_ram in Hu.
  destruct (is_ram m), (readonly m), (is_romd m), (is_ram_device m); cbn; try done.
  destruct (len r <? 2 ^ 64) eqn:E2; [|done]. cbn. reflect_bools.
  destruct (u64 (len r) =? 0) eqn:E3; reflect_bools; [divlia|].
  by destruct (ram_ptr m).
Qed.

Lemma scan_range_usable r h scan :
  range_wf r → usable r = Some h →
  reims_vgpu_ram_scan_range (start r) (len r) (mr r) (offset_in_region r) scan =
    (false,
     if pending scan && (u64 (scan_gpa scan + scan_len scan) =? start r) &&
        (u64 (scan_hva scan + scan_len scan) =? h) && (scan_len scan <=? UINT64_MAX - len r)
     then scan <| scan_len := u64 (scan_len scan + len r) |>
     else open_span (reims_vgpu_ram_scan_flush scan) (mkSpan (start r) h (len r))).
Proof.
  intros Hr Hu. pose proof (before_new _ _ Hr Hu) as (_&Hl&_&Hh&He). destruct Hr as (?&?&?&_). cbn in *.
  unfold reims_vgpu_ram_scan_range. unfold usable, plain_ram in Hu.
  destruct (mr r) as [m|]; [|done]. cbn in Hu. destruct (ram_ptr m) as [p|]; [|done]. cbn in Hu.
  destruct (is_ram m), (readonly m), (is_romd m), (is_ram_device m); try done. cbn in *.
  rewrite !shiftr64_nz by lia. destruct (len r <? 2 ^ 64) eqn:E2; [|done]. simplify_eq.
  destruct (start r <? 2 ^ 64) eqn:E1; reflect_bools; [|lia]. cbn.
  rewrite !(u64_small (len r)), !(u64_small (start r)), !(u64_small (p + _)) by (unfold is_u64; lia).
  destruct (len r =? 0) eqn:E3; reflect_bools; [lia|]. by case_match.
Qed.

(** On an open span the four tests of the merge are [continues]. *)
Lemma merge_test b q r h :
  b ≤ start r → range_wf r → usable r = Some h → before b q →
  (u64 (gpa_base q + span_len q) =? start r) && (u64 (host_va q + span_len q) =? h) &&
    (span_len q <=? UINT64_MAX - len r) = bool_decide (continues q (mkSpan (start r) h (len r))).
Proof.
  intros Hb Hr Hu Hq. pose proof (before_new _ _ Hr Hu) as (_&Hl&_&Hh&He). destruct Hr as (?&?&?&_).
  destruct Hq as (?&?&?&?&?). cbn in *. unfold UINT64_MAX.
  apply eq_bool_prop_intro. rewrite bool_decide_spec. unfold continues. cbn.
  rewrite !Is_true_true, !andb_true_iff, !Z.eqb_eq, Z.leb_le.
  split.
  - intros [[E1 E2] E3]. revert E1 E2. divlia.
  - intros (E1&E2&E3). repeat split; try lia; rewrite u64_small by (unfold is_u64; lia); lia.
Qed.

Lemma scan_range_sim o b fv scan st r :
  b ≤ start r → range_wf r → walk_ok b fv st → scan_sim o scan st →
  ∃ scan', reims_vgpu_ram_scan_range (start r) (len r) (mr r) (offset_in_region r) scan = (false, scan') ∧
           scan_sim o scan' (walk_step st r).
Proof.
  intros Hb Hr Hw Hs. destruct st as [qs p]. unfold walk_step.
  destruct (usable r) as [h|] eqn:Hu.
  2: { eexists. split; [by apply scan_range_unusable|]. by apply scan_flush_sim. }
  eexists. split; [by apply scan_range_usable|].
  pose proof (scan_flush_sim _ _ _ _ Hs) as Hf. destruct p as [q|].
  - destruct Hs as [S1 S2 S3 [S4 S5]]. cbn in *.
    destruct Hw as [_ Hq _ _]. cbn in Hq. apply Forall_app in Hq as [_ [Hq _]%Forall_cons].
    assert (span_len q = scan_len scan ∧ gpa_base q = scan_gpa scan ∧ host_va q = scan_hva scan) as (E1&E2&E3)
      by by subst q.
    rewrite S4, <- E1, <- E2, <- E3. cbn [andb]. rewrite (merge_test b) by done.
    case_bool_decide as Hc.
    + rewrite decide_True by done. destruct Hc as (_&_&Hc). cbn in Hc. destruct Hq as (_&?&_), Hr as (_&?&_).
      split; cbn; try done. split; [done|]. by rewrite u64_small, E2, E3 by (unfold is_u64; lia).
    + rewrite decide_False by done. destruct Hf as [F1 F2 F3 _]. by split.
  - destruct Hs as [_ _ _ ->]. cbn. destruct Hf as [F1 F2 F3 _]. cbn in *. rewrite app_nil_r in *. by split.
Qed.

Lemma scan_sim_view o fv b pre scan st :
  fv_wf b fv → walk_ok b pre st → scan_sim o scan st →
  scan_sim o (flatview_for_each_range reims_vgpu_ram_scan_range fv scan) (foldl walk_step st fv).
Proof.
  revert b pre scan st. induction fv as [|r fv IH]; intros b pre scan st Hf Hw Hs; [done|].
  destruct Hf as (Hb & Hr & Hf). destruct (scan_range_sim _ _ _ _ _ _ Hb Hr Hw Hs) as (scan' & E & Hs').
  cbn. rewrite E. by eapply IH, Hs'; [|eapply walk_step_ok].
Qed.

(** The walk and the last flush leave the spans in the array and their number in [found]. *)
Lemma scan_result o fv :
  fv_wf 0 fv →
  let scan := reims_vgpu_ram_scan_flush
    (flatview_for_each_range reims_vgpu_ram_scan_range fv (mkScan o (Z.of_nat (length o)) 0 false 0 0 0)) in
  found scan = Z.of_nat (length (spans fv)) ∧
  out scan = take (length o) (spans fv) ++ drop (length (spans fv)) o.
Proof.
  intros Hf scan. unfold spans, walk.
  assert (scan_sim o (mkScan o (Z.of_nat (length o)) 0 false 0 0 0) ([], None)) as H0.
  { split; cbn; try done. by rewrite take_nil. }
  pose proof (scan_sim_view _ _ _ _ _ _ Hf walk_ok_start H0) as H1.
  destruct (foldl walk_step _ _) as [qs p]. apply scan_flush_sim in H1. by destruct H1.
Qed.

(** One call: the array holds what fits of the spans, the code is their number. *)
Lemma shim_call fv o :
  fv_wf 0 fv → o ≠ [] →
  reims_vgpu_shim_guest_ram_regions fv (Some o) (Z.of_nat (length o)) =
    (match spans fv with
     | [] => REIMS_VGPU_GUEST_RAM_ERR_NO_RAM
     | _ => if INT_MAX <? Z.of_nat (length (spans fv)) then REIMS_VGPU_GUEST_RAM_ERR_ARGS
            else Z.of_nat (length (spans fv))
     end, Some (take (length o) (spans fv) ++ drop (length (spans fv)) o)).
Proof.
  intros Hf Ho. pose proof (scan_result o fv Hf) as [E1 E2]. unfold reims_vgpu_shim_guest_ram_regions.
  destruct (Z.of_nat (length o) =? 0) eqn:E0; reflect_bools; [destruct o; cbn in *; [done|lia]|].
  rewrite E1, E2. by destruct (spans fv).
Qed.

(** The spans [qs] describe the RAM of the view: they translate every guest address
    as the view does, in order, and no two of them could be one. *)
Definition describes (qs : list ReimsVgpuGuestRamRegion) (fv : list flat_range) : Prop :=
  (∀ g, spans_host qs g = host_of fv g) ∧ maximal qs.

(** The RAM the guest can store into: not read-only through an alias or a container either. *)
Definition storable (fv : list flat_range) : list flat_range := List.filter (λ r, negb (fr_readonly r)) fv.
Lemma range_host_in r g h : range_host r g = Some h → start r ≤ g < start r + len r.
Proof. unfold range_host. destruct (usable r); [|done]. cbn. destruct (_ && _) eqn:E; [|done]. reflect_bools. lia. Qed.
Lemma host_of_ge fv : ∀ b g h, fv_wf b fv → host_of fv g = Some h → b ≤ g.
Proof.
  induction fv as [|r fv IH]; intros b g h; [done|]. cbn. intros (Hb & Hr & Hf). unfold range_wf in Hr. destruct (range_host r g) as [h'|] eqn:E.
  - intros _. apply range_host_in in E. lia.
  - intros Hh. specialize (IH _ _ _ Hf Hh). lia.
Qed.
Lemma host_of_in fv : ∀ b g h, fv_wf b fv → host_of fv g = Some h ↔ ∃ r, r ∈ fv ∧ range_host r g = Some h.
Proof.
  induction fv as [|r fv IH]; intros b g h; cbn; [intros _; split; [done|by intros (? & ?%elem_of_nil & _)]|]. intros (Hb & Hr & Hf). specialize (IH _ g h Hf).
  destruct (range_host r g) as [h'|] eqn:E.
  - split; [intros [= <-]; exists r; split; [left|done]|]. intros (r' & [->|Hin]%elem_of_cons & E'); [congruence|].
    assert (host_of fv g = Some h) as Hh by (apply IH; by exists r'). apply host_of_ge with (b := start r + len r) in Hh; [|done]. apply range_host_in in E. lia.
  - rewrite IH. split; [intros (r' & ? & ?); exists r'; split; [by right|done]|]. intros (r' & [->|?]%elem_of_cons & ?); [congruence|by exists r'].
Qed.
Lemma storable_wf fv : ∀ b, fv_wf b fv → fv_wf b (storable fv).
Proof.
  assert (∀ fv b b', b' ≤ b → fv_wf b fv → fv_wf b' fv) as Hm by (intros [|r l] b b' ?; cbn; [done|]; intros (? & ? & ?); split_and!; (done || lia)).
  induction fv as [|r fv IH]; intros b; [done|]. cbn. intros (Hb & Hr & Hf). specialize (IH _ Hf). unfold range_wf in Hr.
  destruct (negb (fr_readonly r)); [by split_and!|]. by eapply Hm; [|exact IH]; lia.
Qed.
Lemma storable_host fv g h : fv_wf 0 fv →
  (host_of (storable fv) g = Some h → host_of fv g = Some h) ∧
  (host_of fv g = Some h → host_of (storable fv) g = Some h ∨ ∃ r, r ∈ fv ∧ fr_readonly r = true ∧ range_host r g = Some h).
Proof.
  intros Hf. rewrite (host_of_in fv 0), (host_of_in (storable fv) 0) by (done || by apply storable_wf). unfold storable.
  setoid_rewrite list_elem_of_In. setoid_rewrite filter_In. split; [intros (r & [? _] & ?); by exists r|].
  intros (r & Hin & E). destruct (fr_readonly r) eqn:Er; [right; by exists r|left]. exists r. by rewrite Er.
Qed.

(** C38: For every flat view and every array of the caller, guest_ram_regions finds a
    list of spans that translates each guest physical address to the host byte behind
    it exactly where the view has RAM that its own region does not make read-only, and
    nowhere else; the spans are in
    order and as long as they can be.  So they have all of the RAM that the guest can store
    into; what else they have is read-only for the guest only through an alias or a container
    around its region, which the walk is not shown, although the comment in the callback says
    that such bytes must not be reported.  The array holds as many of the spans as fit, its
    other entries are untouched, and the result is the number of all spans, or the
    error for a view with no RAM or for a number that is no int. *)
Theorem guest_ram_regions_exact fv o :
  fv_wf 0 fv → o ≠ [] →
  ∃ qs, describes qs fv ∧
    (∀ g h, host_of (storable fv) g = Some h → spans_host qs g = Some h) ∧
    (∀ g h, spans_host qs g = Some h → host_of (storable fv) g = Some h ∨ ∃ r, r ∈ fv ∧ fr_readonly r = true ∧ range_host r g = Some h) ∧
    reims_vgpu_shim_guest_ram_regions fv (Some o) (Z.of_nat (length o)) =
      (match qs with
       | [] => REIMS_VGPU_GUEST_RAM_ERR_NO_RAM
       | _ => if INT_MAX <? Z.of_nat (length qs) then REIMS_VGPU_GUEST_RAM_ERR_ARGS
              else Z.of_nat (length qs)
       end, Some (take (length o) qs ++ drop (length qs) o)).
Proof.
  intros Hf Ho. destruct (walk_spans fv Hf) as (Hs & Hmax & _). exists (spans fv).
  split; [by split|]. split; [|split; [|by apply shim_call]]; intros g h; rewrite Hs; by apply storable_host.
Qed.

Definition demo_ram (p : Z) : option region_info := Some (mkRegion true false false false (Some p)).
Definition demo_view : list flat_range :=
  [mkRange 0 0x1000 (Some (mkRegion true true false false (Some 0x900000))) 0 true;
   mkRange 0x70000000 0x4000 (demo_ram 0x10000) 0 false;
   mkRange 0x70004000 0x4000 (demo_ram 0x10000) 0x4000 false;
   mkRange 0x70008000 0x1000 (demo_ram 0x80000) 0 false].

Lemma guest_ram_regions_exact_witness :
  ∃ qs, describes qs demo_view ∧
    (reims_vgpu_shim_guest_ram_regions demo_view (Some [mkSpan 0 0 0]) 1).1 = Z.of_nat (length qs) ∧
    reims_vgpu_shim_guest_ram_regions demo_view (Some [mkSpan 0 0 0]) 1 =
      (2, Some [mkSpan 0x70000000 0x10000 0x8000]).
Proof.
  destruct (guest_ram_regions_exact demo_view [mkSpan 0 0 0]) as (qs & Hd & _ & _ & E); [|done|].
  { cbn [fv_wf demo_view]; unfold range_wf; cbn [start len].
    repeat split; try lia; match goal with H : usable _ = Some _ |- _ => vm_compute in H; simplify_eq; lia end. }
  exists qs. split; [done|]. change (Z.of_nat (length [mkSpan 0 0 0])) with 1 in E.
  assert (reims_vgpu_shim_guest_ram_regions demo_view (Some [mkSpan 0 0 0]) 1 =
          (2, Some [mkSpan 0x70000000 0x10000 0x8000])) as E' by (vm_compute; reflexivity).
  split; [|exact E']. rewrite E' in *. clear E' Hd. apply (f_equal fst) in E. unfold fst in *.
  unfold REIMS_VGPU_GUEST_RAM_ERR_NO_RAM, REIMS_VGPU_GUEST_RAM_ERR_ARGS in E.
  destruct qs as [|q qs]; [lia|]. destruct (INT_MAX <? _); [lia|exact E].
Defined.

(** A range that is read-only only through an alias or a container around its region
    is reported as any other: the callback sees the region's own flag. *)
Lemma inherited_readonly_ignored fv array m :
  reims_vgpu_shim_guest_ram_regions
    ((λ r, mkRange (start r) (len r) (mr r) (offset_in_region r) true) <$> fv) array m =
  reims_vgpu_shim_guest_ram_regions fv array m.
Proof.
  unfold reims_vgpu_shim_guest_ram_regions. destruct array as [o|]; [|done]. case_match; [done|].
  assert (∀ s, flatview_for_each_range reims_vgpu_ram_scan_range
    ((λ r, mkRange (start r) (len r) (mr r) (offset_in_region r) true) <$> fv) s =
    flatview_for_each_range reims_vgpu_ram_scan_range fv s) as ->; [|done].
  induction fv as [|r fv IH]; intros s; [done|]. cbn. by case_match; case_match.
Qed.
