(* ===== verification/PageViews.v ===== *)
(** Host views over lists of guest pages: map_pages and unmap_pages of
    src/qemu/hw/display/reims-vgpu-mmio.c, as a Linux host runs them.

    The process's address space is a function from host addresses to what backs the
    byte there.  The kernel is the class [HostOS]: where a reservation lands and
    whether a mapping succeeds are its choice, what a successful call maps is not.
    Guest memory is the flat view of [Shim] and the list of RAM blocks; the sections
    address_space_translate looks up are the ranges of the view, without an IOMMU. *)
From S2P Require Import Prelude Shim.

Inductive backing := Reserved | Anonymous | File (fd off : Z).
Definition host_vm : Type := Z → option backing.

Definition in_range (a n x : Z) : bool := (a <=? x) && (x <? a + n).
Definition map_range (vm : host_vm) (a n : Z) (f : Z → backing) : host_vm :=
  λ x, if in_range a n x then Some (f (x - a)) else vm x.
Definition munmap (vm : host_vm) (a n : Z) : host_vm := λ x, if in_range a n x then None else vm x.

(** mmap of anonymous memory at an address of the kernel's choice, or an errno, and
    mmap of a file at a fixed address: [None], or an errno. *)
Class HostOS := {
  mmap_anon : host_vm → Z → Z + Z;
  mmap_fixed : host_vm → Z → Z → Z → option Z }.
(** A reservation is a free range of the address space, not at null. *)
Class HostOSLaws `{HostOS} := {
  mmap_anon_fresh vm n a :
    mmap_anon vm n = inr a → 0 < a ∧ a + n ≤ 2 ^ 64 ∧ ∀ x, in_range a n x = true → vm x = None }.

Record RAMBlock := mkBlock {
  rb_host : option Z; max_length : Z; rb_shared : bool; rb_fd : Z; rb_fd_offset : Z }.
Record memory := mkMemory { flat_view : list flat_range; mru_block : option RAMBlock; ram_list : list RAMBlock }.

Record ReimsVgpuMapPagesFailure := mkFailure { stage : Z; host_errno : Z; page_index : Z }.
#[export] Instance eta_failure : Settable ReimsVgpuMapPagesFailure := λ f,
  mkFailure (stage f) (host_errno f) (page_index f).
Definition REIMS_VGPU_MAP_PAGES_FAILURE_NONE : Z := 0.
Definition REIMS_VGPU_MAP_PAGES_FAILURE_RESERVATION : Z := 1.
Definition REIMS_VGPU_MAP_PAGES_FAILURE_ALIAS : Z := 2.
Definition REIMS_VGPU_MAP_PAGES_FAILURE_INVALID_GUEST_PAGE : Z := 3.
Definition REIMS_VGPU_GUEST_PAGE_SIZE_ARM64E : Z := 16384.
Notation "'PAGE'" := REIMS_VGPU_GUEST_PAGE_SIZE_ARM64E : orchard_scope.
Definition RAM_ADDR_MAX : Z := UINT64_MAX.
Definition SIZE_MAX : Z := UINT64_MAX.

Record ReimsVGPUMMIOPageView := mkView { ptr : Z; view_len : Z }.
(** The part of the device these functions use; the array exists from realize on. *)
Record ReimsVGPUMMIOState := mkState { page_views : list ReimsVGPUMMIOPageView; vm : host_vm }.

(** ** Guest memory *)
Definition contains (r : flat_range) (g : Z) : bool := in_range (start r) (len r) g.

Definition address_space_translate (fv : list flat_range) (addr plen : Z) : option region_info * Z * Z :=
  match list_find (λ r, contains r addr) fv with
  | None => (None, addr, plen)
  | Some (_, r) =>
      let off := addr - start r in
      (mr r, off + offset_in_region r,
       match mr r with
       | Some m => if is_ram m then Z.min (len r - off) plen else plen
       | None => plen
       end)
  end.

Definition memory_region_get_ram_ptr (m : region_info) : Z := default 0 (ram_ptr m).

Definition holds (host : Z) (rb : RAMBlock) : bool :=
  match rb_host rb with Some h => u64 (host - h) <? max_length rb | None => false end.
Definition qemu_ram_block_from_host (m : memory) (host : Z) : option (RAMBlock * Z) :=
  match list_find (λ rb, holds host rb) (opt_list (mru_block m) ++ ram_list m) with
  | Some (_, rb) => h ← rb_host rb; Some (rb, u64 (host - h))
  | None => None
  end.

(** The guest page at [gpa] as one aligned host page, of [n] bytes. *)
Definition translate_ram (fv : list flat_range) (gpa n : Z) : option Z :=
  let '(mr, xlat, plen) := address_space_translate fv gpa n in
  match mr with
  | Some m =>
      if negb (is_ram m) || (plen <? n) then None
      else
        let hva := memory_region_get_ram_ptr m + xlat in
        if nz (Z.land hva (PAGE - 1)) then None else Some hva
  | None => None
  end.

(** ** The device's operations *)
Section Views.
Context `{HostOS} (mem : memory).

Definition reims_vgpu_contiguous_run_hva (gpas : list Z) : option Z :=
  let count := Z.of_nat (length gpas) in
  match gpas with
  | [] => None
  | gpa0 :: _ =>
      if (UINT64_MAX / PAGE <? count) || (UINT64_MAX - (count - 1) * PAGE <? gpa0) then None
      else if forallb (λ '(i, g), g =? gpa0 + Z.of_nat i * PAGE) (imap pair gpas)
      then hva ← translate_ram (flat_view mem) gpa0 (count * PAGE); if hva =? 0 then None else Some hva
      else None
  end.

(** The host addresses, or the index of the first page that has none. *)
Fixpoint resolve_from (i : Z) (gpas : list Z) : Z + list Z :=
  match gpas with
  | [] => inr []
  | g :: gpas =>
      match translate_ram (flat_view mem) g PAGE with
      | None => inl i
      | Some hva =>
          match resolve_from (i + 1) gpas with
          | inl j => inl j
          | inr hvas => inr (hva :: hvas)
          end
      end
  end.
Definition reims_vgpu_resolve_guest_hvas (gpas : list Z) : Z + list Z := resolve_from 0 gpas.

(** One page of a view: the mapping of the file behind [hva], or the refusal, with
    the errno when it is the kernel's. *)
Definition alias_page (vm : host_vm) (addr hva : Z) : option Z + host_vm :=
  match qemu_ram_block_from_host mem hva with
  | None => inl None
  | Some (rb, rb_offset) =>
      if negb (rb_shared rb) then inl None
      else if (rb_fd rb <? 0) || (RAM_ADDR_MAX - rb_fd_offset rb <? rb_offset) then inl None
      else
        let fd_offset := u64 (rb_fd_offset rb + rb_offset) in
        if nz (Z.land fd_offset (PAGE - 1)) then inl None
        else match mmap_fixed vm addr (rb_fd rb) fd_offset with
        | Some errno => inl (Some errno)
        | None => inr (map_range vm addr PAGE (λ k, File (rb_fd rb) (fd_offset + k)))
        end
  end.

(** The loop over the pages of a view from the [i]-th on. *)
Fixpoint alias_from (vm : host_vm) (view i : Z) (hvas : list Z) : (Z * option Z + unit) * host_vm :=
  match hvas with
  | [] => (inr (), vm)
  | hva :: hvas =>
      match alias_page vm (view + i * PAGE) hva with
      | inl errno => (inl (i, errno), vm)
      | inr vm => alias_from vm view (i + 1) hvas
      end
  end.

Definition reims_vgpu_pack_fragmented_view (s : ReimsVGPUMMIOState) (hvas : list Z)
    (failure : ReimsVgpuMapPagesFailure) : Z * option Z * ReimsVgpuMapPagesFailure * ReimsVGPUMMIOState :=
  let total := Z.of_nat (length hvas) * PAGE in
  match mmap_anon (vm s) total with
  | inl errno =>
      (-1, None, failure <| stage := REIMS_VGPU_MAP_PAGES_FAILURE_RESERVATION |> <| host_errno := errno |>, s)
  | inr view =>
      match alias_from (map_range (vm s) view total (λ _, Reserved)) view 0 hvas with
      | (inl (i, errno), vm') =>
          (-1, None, mkFailure REIMS_VGPU_MAP_PAGES_FAILURE_ALIAS (default (host_errno failure) errno) i,
           mkState (page_views s) (munmap vm' view total))
      | (inr _, vm') => (0, Some view, failure, mkState (page_views s ++ [mkView view total]) vm')
      end
  end.

(** [gpas] is [None] for a null pointer; [out_ptr] and [failure] say whether those
    pointers are there.  The result is the return value, what is stored through
    [out_ptr], the failure report and the device. *)
Definition reims_vgpu_mmio_map_pages (s : ReimsVGPUMMIOState) (gpas : option (list Z)) (out_ptr failure : bool) :
    Z * option Z * ReimsVgpuMapPagesFailure * ReimsVGPUMMIOState :=
  let report := mkFailure REIMS_VGPU_MAP_PAGES_FAILURE_NONE 0 0 in
  let refuse := mkFailure REIMS_VGPU_MAP_PAGES_FAILURE_INVALID_GUEST_PAGE 0 in
  match gpas with
  | None => (-1, None, refuse UINT64_MAX, s)
  | Some gpas =>
      let count := Z.of_nat (length gpas) in
      if (count =? 0) || negb out_ptr || negb failure || (SIZE_MAX / PAGE <? count)
      then (-1, None, refuse UINT64_MAX, s)
      else match reims_vgpu_contiguous_run_hva gpas with
      | Some hva => (0, Some hva, report, s)
      | None =>
          match reims_vgpu_resolve_guest_hvas gpas with
          | inl i => (-1, None, refuse i, s)
          | inr hvas =>
              let hva0 := default 0 (head hvas) in
              if forallb (λ '(i, h), h =? hva0 + Z.of_nat i * PAGE) (imap pair hvas)
              then (0, Some hva0, report, s)
              else reims_vgpu_pack_fragmented_view s hvas report
          end
      end
  end.

(** g_array_remove_index_fast: the last element takes the place of the removed one. *)
Definition g_array_remove_index_fast {A} (i : nat) (l : list A) : list A :=
  match last l with
  | Some x => take (pred (length l)) (<[i := x]> l)
  | None => l
  end.

Definition reims_vgpu_mmio_unmap_pages (s : ReimsVGPUMMIOState) (p : Z) : ReimsVGPUMMIOState :=
  if p =? 0 then s
  else match list_find (λ v, ptr v = p) (page_views s) with
  | Some (i, v) => mkState (g_array_remove_index_fast i (page_views s)) (munmap (vm s) (ptr v) (view_len v))
  | None => s
  end.

Definition reims_vgpu_mmio_free_page_views (s : ReimsVGPUMMIOState) : ReimsVGPUMMIOState :=
  mkState [] (foldl (λ vm v, munmap vm (ptr v) (view_len v)) (vm s) (page_views s)).
End Views.

(** ** What the pages are *)
Definition ram_host (fv : list flat_range) (g : Z) : option Z :=
  match list_find (λ r, contains r g) fv with
  | Some (_, r) =>
      m ← mr r;
      if is_ram m then Some (memory_region_get_ram_ptr m + offset_in_region r + (g - start r)) else None
  | None => None
  end.

Lemma in_range_spec a n x : in_range a n x = true ↔ a ≤ x < a + n.
Proof. unfold in_range. rewrite andb_true_iff, Z.leb_le, Z.ltb_lt. lia. Qed.

Lemma in_range_false a n x : in_range a n x = false ↔ ¬ (a ≤ x < a + n).
Proof. rewrite <- not_true_iff_false, in_range_spec. done. Qed.

Lemma fv_wf_later b fv r : fv_wf b fv → r ∈ fv → b ≤ start r ∧ range_wf r.
Proof.
  revert b. induction fv as [|r' fv IH]; intros b Hf Hr; [by apply elem_of_nil in Hr|].
  destruct Hf as (Hb & Hw & Hf). apply elem_of_cons in Hr as [->|Hr]; [done|].
  destruct (IH _ Hf Hr) as [? ?]. destruct Hw as (?&?&_). split; [lia|done].
Qed.

(** At most one range of a view contains an address. *)
Lemma find_contains b fv r g :
  fv_wf b fv → r ∈ fv → contains r g = true → ∃ i, list_find (λ r, contains r g) fv = Some (i, r).
Proof.
  revert b. induction fv as [|r' fv IH]; intros b Hf Hr Hg; [by apply elem_of_nil in Hr|].
  destruct Hf as (Hb & Hw & Hf). cbn.
  apply elem_of_cons in Hr as [->|Hr].
  - rewrite decide_True by by rewrite Hg. by eexists.
  - destruct (fv_wf_later _ _ _ Hf Hr) as [? _]. apply in_range_spec in Hg as Hg'.
    rewrite decide_False.
    + destruct (IH _ Hf Hr Hg) as [i ->]. by eexists.
    + rewrite Is_true_true. unfold contains. rewrite in_range_spec. lia.
Qed.

Lemma find_some fv g i r :
  list_find (λ r, contains r g) fv = Some (i, r) → r ∈ fv ∧ start r ≤ g < start r + len r.
Proof.
  intros (Hl & Hc & _)%list_find_Some. apply Is_true_true, in_range_spec in Hc.
  split; [by eapply list_elem_of_lookup_2|done].
Qed.

(** A guest range that translates is RAM of one range of the view, at consecutive
    host addresses from an aligned one. *)
Lemma translate_ram_spec fv g n hva :
  translate_ram fv g n = Some hva → 0 < n →
  ∃ r m, r ∈ fv ∧ mr r = Some m ∧ is_ram m = true ∧
    hva = memory_region_get_ram_ptr m + offset_in_region r + (g - start r) ∧
    start r ≤ g ∧ g + n ≤ start r + len r ∧ Z.land hva (PAGE - 1) = 0.
Proof.
  unfold translate_ram, address_space_translate. intros Ht Hn.
  destruct (list_find _ fv) as [[i r]|] eqn:E; cbn in Ht; [|done].
  apply find_some in E as [Hr Hg]. destruct (mr r) as [m|] eqn:Em; [|done].
  destruct (is_ram m) eqn:Ei; cbn in Ht; [|done]. case_match; [done|]. case_match; [done|].
  reflect_bools. simplify_eq. exists r, m. repeat split; try done; lia.
Qed.

Lemma translate_ram_host fv g n hva k :
  fv_wf 0 fv → translate_ram fv g n = Some hva → 0 ≤ k < n → ram_host fv (g + k) = Some (hva + k).
Proof.
  intros Hf Ht Hk. destruct (translate_ram_spec _ _ _ _ Ht) as (r & m & Hr & Em & Ei & -> & ? & ? & _); [lia|].
  destruct (find_contains 0 fv r (g + k)) as [i E]; [done..|by apply in_range_spec; lia|].
  unfold ram_host. rewrite E. cbn. rewrite Em. cbn. rewrite Ei. f_equal. lia.
Qed.

(** ** Building a view *)

(** The machine the device runs in: RAM regions are mapped and each lies in one
    block; a shared block with a file is a mapping of that file. *)
Record mem_wf (mem : memory) (vm0 : host_vm) : Prop := {
  mw_view : fv_wf 0 (flat_view mem);
  mw_mapped g h : ram_host (flat_view mem) g = Some h → is_u64 h ∧ h ≠ 0 ∧ vm0 h ≠ None;
  mw_block r m rb b h :
    r ∈ flat_view mem → mr r = Some m → is_ram m = true →
    rb ∈ opt_list (mru_block mem) ++ ram_list mem → rb_host rb = Some b →
    let p := memory_region_get_ram_ptr m + offset_in_region r in
    p ≤ h < p + len r → b ≤ h < b + max_length rb → b ≤ p ∧ p + len r ≤ b + max_length rb;
  mw_host rb b :
    rb ∈ opt_list (mru_block mem) ++ ram_list mem → rb_host rb = Some b →
    0 < b ∧ b + max_length rb ≤ 2 ^ 64 ∧ 0 ≤ rb_fd_offset rb;
  mw_shared rb b k :
    rb ∈ opt_list (mru_block mem) ++ ram_list mem → rb_host rb = Some b →
    rb_shared rb = true → 0 ≤ rb_fd rb → 0 ≤ k < max_length rb →
    vm0 (b + k) = Some (File (rb_fd rb) (rb_fd_offset rb + k)) }.

(** The byte at [x] is the byte at [h]: the same address, or the same byte of a file. *)
Definition same_byte (vm : host_vm) (x h : Z) : Prop :=
  x = h ∨ ∃ fd off, vm x = Some (File fd off) ∧ vm h = Some (File fd off).

(** [out] is a view of the pages [gpas]. *)
Definition aliases (mem : memory) (vm : host_vm) (gpas : list Z) (out : Z) : Prop :=
  ∀ i g k, gpas !! i = Some g → 0 ≤ k < PAGE →
    ∃ h, ram_host (flat_view mem) (g + k) = Some h ∧ same_byte vm (out + Z.of_nat i * PAGE + k) h.

Lemma alias_page_spec `{HostOS} mem vm addr hva vm' :
  alias_page mem vm addr hva = inr vm' →
  ∃ rb b, rb ∈ opt_list (mru_block mem) ++ ram_list mem ∧ rb_host rb = Some b ∧
    u64 (hva - b) < max_length rb ∧ rb_shared rb = true ∧ 0 ≤ rb_fd rb ∧
    u64 (hva - b) ≤ UINT64_MAX - rb_fd_offset rb ∧
    vm' = map_range vm addr PAGE (λ k, File (rb_fd rb) (u64 (rb_fd_offset rb + u64 (hva - b)) + k)).
Proof.
  unfold alias_page, qemu_ram_block_from_host. intros Ha.
  destruct (list_find _ _) as [[i rb]|] eqn:E; [|done].
  apply list_find_Some in E as (Hl & Hh & _). apply list_elem_of_lookup_2 in Hl.
  apply Is_true_true in Hh. unfold holds in Hh. destruct (rb_host rb) as [b|] eqn:Eb; [|done].
  cbn in Ha. destruct (rb_shared rb) eqn:Es; cbn in Ha; [|done].
  unfold RAM_ADDR_MAX in Ha. repeat case_match; simplify_eq. reflect_bools. exists rb, b. by repeat split.
Qed.

(** The loop maps only inside the part of the view it is at, and leaves no hole in it. *)
Lemma alias_from_frame `{HostOS} mem hvas vm view i res vm' :
  alias_from mem vm view i hvas = (res, vm') →
  (∀ x, ¬ (view + i * PAGE ≤ x < view + (i + Z.of_nat (length hvas)) * PAGE) → vm' x = vm x) ∧
  (∀ x, vm x ≠ None → vm' x ≠ None).
Proof.
  revert vm i. induction hvas as [|hva hvas IH]; intros vm i E; cbn in E; [by simplify_eq|].
  destruct (alias_page _ _ _ _) as [e|vm1] eqn:Ep; [by simplify_eq|].
  apply alias_page_spec in Ep as (rb & b & _ & _ & _ & _ & _ & _ & ->).
  destruct (IH _ _ E) as [H1 H2]. cbn [length]. split.
  - intros x Hx. rewrite H1 by (unfold REIMS_VGPU_GUEST_PAGE_SIZE_ARM64E in *; lia).
    unfold map_range. case_match eqn:Er; [|done]. apply in_range_spec in Er. unfold REIMS_VGPU_GUEST_PAGE_SIZE_ARM64E in *. lia.
  - intros x Hx. apply H2. unfold map_range. by case_match.
Qed.

(** The offset alias_page maps is the one the block has for the page. *)
Lemma page_in_block mem vm0 g hva rb b k :
  mem_wf mem vm0 → translate_ram (flat_view mem) g PAGE = Some hva →
  rb ∈ opt_list (mru_block mem) ++ ram_list mem → rb_host rb = Some b →
  u64 (hva - b) < max_length rb → rb_shared rb = true → 0 ≤ rb_fd rb →
  u64 (hva - b) ≤ UINT64_MAX - rb_fd_offset rb → 0 ≤ k < PAGE →
  vm0 (hva + k) = Some (File (rb_fd rb) (u64 (rb_fd_offset rb + u64 (hva - b)) + k)).
Proof.
  intros Hw Ht Hrb Hb Hd Hs Hfd Ho Hk.
  destruct (mw_host _ _ Hw rb b Hrb Hb) as (Hb0 & Hb1 & Hf0).
  pose proof (translate_ram_host _ _ _ _ 0 (mw_view _ _ Hw) Ht) as H0. rewrite !Z.add_0_r in H0.
  destruct (mw_mapped _ _ Hw _ _ (H0 ltac:(lia))) as (Hh & Hh0 & _).
  destruct (translate_ram_spec _ _ _ _ Ht) as (r & m & Hr & Em & Ei & E & Hg1 & Hg2 & _); [lia|].
  assert (b ≤ hva) as Hle.
  { unfold is_u64 in Hh. destruct (decide (b ≤ hva)); [done|]. revert Hd. divlia. }
  assert (u64 (hva - b) = hva - b) as Eu by (apply u64_small; unfold is_u64 in *; lia).
  rewrite Eu in *.
  destruct (mw_block _ _ Hw r m rb b hva Hr Em Ei Hrb Hb) as [Hp1 Hp2]; [lia|lia|].
  rewrite (u64_small (rb_fd_offset rb + _)) by (unfold is_u64, UINT64_MAX in *; lia).
  replace (hva + k) with (b + (hva - b + k)) by lia.
  rewrite (mw_shared _ _ Hw rb b) by (done || lia). do 2 f_equal. lia.
Qed.

Lemma alias_from_ok `{HostOS} mem vm0 hvas vm view i u vm' :
  mem_wf mem vm0 → Forall (λ hva, ∃ g, translate_ram (flat_view mem) g PAGE = Some hva) hvas →
  alias_from mem vm view i hvas = (inr u, vm') →
  ∀ j hva k, hvas !! j = Some hva → 0 ≤ k < PAGE →
    ∃ fd off, vm' (view + (i + Z.of_nat j) * PAGE + k) = Some (File fd off) ∧ vm0 (hva + k) = Some (File fd off).
Proof.
  intros Hw Ht. revert vm i. induction Ht as [|hva hvas [g Hg] Ht IH]; intros vm i E j hva' k Hj Hk; [done|].
  cbn in E. destruct (alias_page _ _ _ _) as [e|vm1] eqn:Ep; [done|].
  apply alias_page_spec in Ep as (rb & b & Hrb & Hb & Hd & Hs & Hfd & Ho & ->).
  destruct j as [|j]; cbn in Hj; simplify_eq.
  - do 2 eexists. split; [|by eapply page_in_block].
    destruct (alias_from_frame _ _ _ _ _ _ _ E) as [-> _].
    2: { unfold REIMS_VGPU_GUEST_PAGE_SIZE_ARM64E in *. lia. }
    unfold map_range. rewrite (proj2 (in_range_spec _ _ _)) by lia. do 2 f_equal. lia.
  - destruct (IH _ _ E j hva' k Hj Hk) as (fd & off & E1 & E2). exists fd, off. split; [|done].
    rewrite <- E1. f_equal. lia.
Qed.

(** ** Resolving the pages *)
Lemma resolve_from_ok mem gpas i hvas :
  resolve_from mem i gpas = inr hvas → Forall2 (λ g hva, translate_ram (flat_view mem) g PAGE = Some hva) gpas hvas.
Proof.
  revert i hvas. induction gpas as [|g gpas IH]; intros i hvas E; cbn in E; [by simplify_eq|].
  repeat case_match; simplify_eq. constructor; [done|by eapply IH].
Qed.

Lemma resolve_from_fails mem gpas i j :
  resolve_from mem i gpas = inl j →
  ∃ n g, j = i + Z.of_nat n ∧ gpas !! n = Some g ∧ translate_ram (flat_view mem) g PAGE = None ∧
    Forall (λ g, is_Some (translate_ram (flat_view mem) g PAGE)) (take n gpas).
Proof.
  revert i. induction gpas as [|g gpas IH]; intros i E; cbn in E; [done|].
  destruct (translate_ram _ _ _) as [hva|] eqn:Et.
  - destruct (resolve_from mem (i + 1) gpas) as [j'|] eqn:Er; simplify_eq.
    destruct (IH _ Er) as (n & g' & -> & ? & ? & ?). exists (S n), g'. repeat split; try done; [lia|].
    cbn. constructor; [by eexists|done].
  - simplify_eq. exists 0%nat, g. split_and!; [lia|done|done|constructor].
Qed.

Lemma imap_run (f : nat → Z) l :
  forallb (λ '(i, x), x =? f i) (imap pair l) = true ↔ ∀ i x, l !! i = Some x → x = f i.
Proof.
  rewrite forallb_forall. split.
  - intros Hf i x Hi. specialize (Hf (i, x)). apply Z.eqb_eq, Hf.
    apply list_elem_of_In, list_elem_of_lookup. exists i. by rewrite list_lookup_imap, Hi.
  - intros Hf [i x] Hi. apply list_elem_of_In, list_elem_of_lookup in Hi as [j Hj].
    rewrite list_lookup_imap in Hj. destruct (l !! j) eqn:E; cbn in Hj; simplify_eq. by apply Z.eqb_eq, Hf.
Qed.

(** ** The invariant: what is mapped, and by whom *)

(** Against the address space [vm0] without any view: live views lie in what was free,
    apart from each other, and nothing else differs. *)
Record views_ok (vm0 : host_vm) (s : ReimsVGPUMMIOState) : Prop := {
  vo_outside x : (∀ v, v ∈ page_views s → in_range (ptr v) (view_len v) x = false) → vm s x = vm0 x;
  vo_ptr v : v ∈ page_views s → 0 < ptr v ∧ 0 < view_len v;
  vo_inside v x : v ∈ page_views s → in_range (ptr v) (view_len v) x = true → vm0 x = None ∧ vm s x ≠ None;
  vo_disjoint i j v w x :
    page_views s !! i = Some v → page_views s !! j = Some w →
    in_range (ptr v) (view_len v) x = true → in_range (ptr w) (view_len w) x = true → i = j }.

Lemma views_ok_start vm0 : views_ok vm0 (mkState [] vm0).
Proof. split; cbn; try done; intros; by match goal with H : _ ∈ [] |- _ => apply elem_of_nil in H end. Qed.

(** Guest RAM, and all that was mapped without the views, keeps its backing. *)
Lemma views_keep vm0 s x : views_ok vm0 s → vm0 x ≠ None → vm s x = vm0 x.
Proof.
  intros Hv Hx. apply (vo_outside _ _ Hv). intros v Hin. apply not_true_is_false. intros Hr.
  by destruct (vo_inside _ _ Hv v x Hin Hr).
Qed.

(** A range that is free now was free without the views and belongs to none of them. *)
Lemma views_free vm0 s x :
  views_ok vm0 s → vm s x = None → vm0 x = None ∧ ∀ v, v ∈ page_views s → in_range (ptr v) (view_len v) x = false.
Proof.
  intros Hv Hx.
  assert (∀ v, v ∈ page_views s → in_range (ptr v) (view_len v) x = false) as Ho.
  { intros v Hin. apply not_true_is_false. intros Hr. by destruct (vo_inside _ _ Hv v x Hin Hr). }
  split; [|done]. by rewrite <- (vo_outside _ _ Hv x Ho).
Qed.

Lemma views_ok_ext vm0 l vm1 vm2 :
  (∀ x, vm1 x = vm2 x) → views_ok vm0 (mkState l vm1) → views_ok vm0 (mkState l vm2).
Proof.
  intros E [H1 H2 H3 H4]. split; cbn in *; [| done | |done].
  - intros x Hx. rewrite <- E. by apply H1.
  - intros v x Hv Hx. rewrite <- E. by apply (H3 v).
Qed.

(** A new view over a free range. *)
Lemma views_ok_add vm0 s a n vm' :
  views_ok vm0 s → 0 < a → 0 < n →
  (∀ x, in_range a n x = true → vm s x = None) → (∀ x, in_range a n x = true → vm' x ≠ None) →
  (∀ x, in_range a n x = false → vm' x = vm s x) →
  views_ok vm0 (mkState (page_views s ++ [mkView a n]) vm').
Proof.
  intros Hv Ha Hn Hfree Hnew Hold.
  assert (∀ v x, v ∈ page_views s → in_range (ptr v) (view_len v) x = true → in_range a n x = false) as Hsep.
  { intros v x Hin Hr. apply not_true_is_false. intros Hr'.
    destruct (views_free _ _ x Hv (Hfree x Hr')) as [_ Hf]. rewrite (Hf v Hin) in Hr. done. }
  split; cbn.
  - intros x Hx. rewrite Hold.
    + apply (vo_outside _ _ Hv). intros v Hin. apply Hx, elem_of_app. by left.
    + apply (Hx (mkView a n)), elem_of_app. right. by apply list_elem_of_singleton.
  - intros v [Hin| ->%list_elem_of_singleton]%elem_of_app; [by apply (vo_ptr _ _ Hv)|done].
  - intros v x [Hin| ->%list_elem_of_singleton]%elem_of_app Hr; cbn in Hr.
    + rewrite Hold by by eapply Hsep. by apply (vo_inside _ _ Hv v).
    + split; [by apply (views_free _ _ x Hv), Hfree|by apply Hnew].
  - intros i j v w x Hi Hj Hr Hr'.
    apply lookup_app_Some in Hi as [Hi|[? Hi]], Hj as [Hj|[? Hj]].
    + by eapply (vo_disjoint _ _ Hv).
    + apply list_lookup_singleton_Some in Hj as [? <-]. apply list_elem_of_lookup_2 in Hi.
      cbn in *. rewrite (Hsep _ _ Hi Hr) in Hr'. done.
    + apply list_lookup_singleton_Some in Hi as [? <-]. apply list_elem_of_lookup_2 in Hj.
      cbn in *. rewrite (Hsep _ _ Hj Hr') in Hr. done.
    + apply list_lookup_singleton_Some in Hi as [? _], Hj as [? _]. lia.
Qed.

(** ** map_pages *)

(** However far the loop got, unmapping the view leaves what was there before it. *)
Lemma munmap_view `{HostOSLaws} mem s hvas res view vm' total :
  total = Z.of_nat (length hvas) * PAGE → mmap_anon (vm s) total = inr view →
  alias_from mem (map_range (vm s) view total (λ _, Reserved)) view 0 hvas = (res, vm') →
  ∀ x, munmap vm' view total x = vm s x.
Proof.
  intros -> Hm E x. destruct (mmap_anon_fresh _ _ _ Hm) as (_ & _ & Hf).
  unfold munmap. case_match eqn:Er; [by rewrite Hf|].
  destruct (alias_from_frame _ _ _ _ _ _ _ E) as [-> _]; [|apply in_range_false in Er; lia].
  unfold map_range. by rewrite Er.
Qed.

Lemma alias_from_index `{HostOS} mem hvas vm view i j errno vm' :
  alias_from mem vm view i hvas = (inl (j, errno), vm') → i ≤ j < i + Z.of_nat (length hvas).
Proof.
  revert vm i. induction hvas as [|hva hvas IH]; intros vm i E; cbn in E; [done|].
  cbn [length]. repeat case_match; simplify_eq; [lia|]. apply IH in E. lia.
Qed.

(** Why map_pages refused: no pages or too many, a page that is no whole aligned page of
    RAM, the first such, no room in the address space, or a page without a shared file. *)
Inductive refused (mem : memory) (gpas : list Z) (f : ReimsVgpuMapPagesFailure) : Prop :=
| refused_count :
    stage f = REIMS_VGPU_MAP_PAGES_FAILURE_INVALID_GUEST_PAGE → page_index f = UINT64_MAX →
    gpas = [] ∨ SIZE_MAX / PAGE < Z.of_nat (length gpas) → refused mem gpas f
| refused_page n g :
    stage f = REIMS_VGPU_MAP_PAGES_FAILURE_INVALID_GUEST_PAGE → page_index f = Z.of_nat n →
    gpas !! n = Some g → translate_ram (flat_view mem) g PAGE = None →
    Forall (λ g, is_Some (translate_ram (flat_view mem) g PAGE)) (take n gpas) → refused mem gpas f
| refused_reservation :
    stage f = REIMS_VGPU_MAP_PAGES_FAILURE_RESERVATION →
    Forall (λ g, is_Some (translate_ram (flat_view mem) g PAGE)) gpas → refused mem gpas f
| refused_alias :
    stage f = REIMS_VGPU_MAP_PAGES_FAILURE_ALIAS → 0 ≤ page_index f < Z.of_nat (length gpas) →
    Forall (λ g, is_Some (translate_ram (flat_view mem) g PAGE)) gpas → refused mem gpas f.

(** What a call of map_pages may do to the device, by its result. *)
Definition map_outcome (mem : memory) (vm0 : host_vm) (gpas : list Z) (s : ReimsVGPUMMIOState)
    (res : Z * option Z * ReimsVgpuMapPagesFailure * ReimsVGPUMMIOState) : Prop :=
  let '(rc, out, f, s') := res in
  views_ok vm0 s' ∧
  match out with
  | Some p =>
      rc = 0 ∧ stage f = REIMS_VGPU_MAP_PAGES_FAILURE_NONE ∧ aliases mem (vm s') gpas p ∧
      (s' = s ∨ page_views s' = page_views s ++ [mkView p (Z.of_nat (length gpas) * PAGE)])
  | None => rc = -1 ∧ refused mem gpas f ∧ page_views s' = page_views s ∧ ∀ x, vm s' x = vm s x
  end.

Lemma pages_resolved mem gpas hvas :
  Forall2 (λ g hva, translate_ram (flat_view mem) g PAGE = Some hva) gpas hvas →
  Forall (λ g, is_Some (translate_ram (flat_view mem) g PAGE)) gpas ∧
  Forall (λ hva, ∃ g, translate_ram (flat_view mem) g PAGE = Some hva) hvas.
Proof. induction 1 as [|g hva gpas hvas Hg _ [IH1 IH2]]; split; constructor; eauto. Qed.

Lemma pack_outcome `{HostOSLaws} mem vm0 gpas hvas s f :
  mem_wf mem vm0 → views_ok vm0 s → gpas ≠ [] → stage f = REIMS_VGPU_MAP_PAGES_FAILURE_NONE →
  Forall2 (λ g hva, translate_ram (flat_view mem) g PAGE = Some hva) gpas hvas →
  map_outcome mem vm0 gpas s (reims_vgpu_pack_fragmented_view mem s hvas f).
Proof.
  intros Hw Hv Hne Hs H2. destruct (pages_resolved _ _ _ H2) as [Hg Hh].
  pose proof (Forall2_length _ _ _ H2) as El. unfold reims_vgpu_pack_fragmented_view. rewrite <- El.
  assert (0 < Z.of_nat (length gpas) * PAGE) as Hpos.
  { destruct gpas; [done|]. cbn [length]. unfold REIMS_VGPU_GUEST_PAGE_SIZE_ARM64E. lia. }
  destruct (mmap_anon _ _) as [e|view] eqn:Hm.
  { cbn. split_and!; try done. by apply refused_reservation. }
  destruct (mmap_anon_fresh _ _ _ Hm) as (Ha & _ & Hfree).
  destruct (alias_from _ _ _ _ _) as [[[i e]|u] vm'] eqn:E; cbn.
  - rewrite El in Hm, E |- *. pose proof (munmap_view _ _ _ _ _ _ _ eq_refl Hm E) as Hc.
    split_and!; try done.
    + apply (views_ok_ext _ _ (vm s)); [done|]. by destruct s.
    + apply refused_alias; cbn; [done| |done]. apply alias_from_index in E. lia.
  - destruct (alias_from_frame _ _ _ _ _ _ _ E) as [Hout Hin].
    split_and!; try done; [| |by right].
    + apply views_ok_add; try done.
      * intros x Hx. apply Hin. unfold map_range. by rewrite Hx.
      * intros x Hx. rewrite Hout by (apply in_range_false in Hx; lia). unfold map_range. by rewrite Hx.
    + intros i g k Hi Hk. destruct (Forall2_lookup_l _ _ _ _ _ H2 Hi) as (hva & Hj & Ht).
      pose proof (translate_ram_host _ _ _ _ _ (mw_view _ _ Hw) Ht Hk) as Hr.
      exists (hva + k). split; [done|right].
      destruct (alias_from_ok _ _ _ _ _ _ _ _ Hw Hh E i hva k Hj Hk) as (fd & off & E1 & E2).
      exists fd, off. split; [done|]. rewrite <- E2.
      destruct (mw_mapped _ _ Hw _ _ Hr) as (_ & _ & Hm0).
      rewrite Hout; [unfold map_range|].
      all: assert (in_range view (Z.of_nat (length gpas) * PAGE) (hva + k) = false) as Hn
        by (apply not_true_is_false; intros Hx; apply Hm0; by destruct (views_free _ _ _ Hv (Hfree _ Hx))).
      * rewrite Hn. by apply views_keep.
      * apply in_range_false in Hn. lia.
Qed.

(** A run of pages that is already in order in the host needs no view. *)
Lemma direct_run mem vm0 vm gpas hvas hva0 :
  mem_wf mem vm0 → Forall2 (λ g hva, translate_ram (flat_view mem) g PAGE = Some hva) gpas hvas →
  (∀ i h, hvas !! i = Some h → h = hva0 + Z.of_nat i * PAGE) → aliases mem vm gpas hva0.
Proof.
  intros Hw H2 Hrun i g k Hi Hk. destruct (Forall2_lookup_l _ _ _ _ _ H2 Hi) as (hva & Hj & Ht).
  exists (hva + k). split; [by eapply translate_ram_host; [apply (mw_view _ _ Hw)|..]|].
  left. by rewrite (Hrun i hva Hj).
Qed.

Lemma contiguous_run_aliases mem vm0 vm gpas hva :
  mem_wf mem vm0 → reims_vgpu_contiguous_run_hva mem gpas = Some hva → aliases mem vm gpas hva.
Proof.
  intros Hw. unfold reims_vgpu_contiguous_run_hva. destruct gpas as [|g0 gpas]; [done|].
  case_match; [done|]. case_match eqn:Er; [|done].
  destruct (translate_ram _ _ _) as [h|] eqn:Et; cbn [mbind option_bind]; [|done].
  case_match; [done|]. intros [= <-] i g k Hi Hk.
  pose proof (proj1 (imap_run (λ i, g0 + Z.of_nat i * PAGE) (g0 :: gpas)) Er i g Hi) as ->.
  apply lookup_lt_Some in Hi. exists (h + (Z.of_nat i * PAGE + k)). split.
  - rewrite <- Z.add_assoc. eapply translate_ram_host; [apply (mw_view _ _ Hw)|done|].
    unfold REIMS_VGPU_GUEST_PAGE_SIZE_ARM64E in *. lia.
  - left. lia.
Qed.

Lemma map_pages_outcome `{HostOSLaws} mem vm0 gpas s :
  mem_wf mem vm0 → views_ok vm0 s →
  map_outcome mem vm0 gpas s (reims_vgpu_mmio_map_pages mem s (Some gpas) true true).
Proof.
  intros Hw Hv. unfold reims_vgpu_mmio_map_pages. cbn [negb]. rewrite !orb_false_r.
  destruct (_ || _) eqn:Eg.
  { cbn. split_and!; try done. apply refused_count; [done..|].
    apply orb_true_iff in Eg as [E|E]; reflect_bools; [left; by destruct gpas|by right]. }
  assert (gpas ≠ []) as Hne by (intros ->; done).
  destruct (reims_vgpu_contiguous_run_hva mem gpas) as [hva|] eqn:Ec.
  { cbn. split_and!; try done; [|by left]. by eapply contiguous_run_aliases. }
  unfold reims_vgpu_resolve_guest_hvas. destruct (resolve_from mem 0 gpas) as [i|hvas] eqn:Er.
  - destruct (resolve_from_fails _ _ _ _ Er) as (n & g & -> & Hn & Ht & Ha).
    cbn. split_and!; try done. by eapply (refused_page _ _ _ n).
  - apply resolve_from_ok in Er. case_match eqn:Ei; [|by apply pack_outcome].
    cbn. split_and!; try done; [|by left]. eapply direct_run; [done..|].
    by apply (imap_run (λ i, default 0 (head hvas) + Z.of_nat i * PAGE)).
Qed.

(** ** unmap_pages and teardown *)
Lemma remove_fast_lookup {A} (l : list A) i j x :
  (i < length l)%nat → g_array_remove_index_fast i l !! j = Some x →
  ∃ j', l !! j' = Some x ∧ j' = (if decide (j = i) then pred (length l) else j) ∧
        (j < pred (length l))%nat.
Proof.
  intros Hi. unfold g_array_remove_index_fast. rewrite last_lookup.
  destruct (l !! pred (length l)) as [y|] eqn:Ey.
  2: { apply lookup_ge_None in Ey. lia. }
  intros (Hj & Hlt)%lookup_take_Some. eexists. split_and!; [|done|done].
  case_decide as Ed; [subst|by rewrite list_lookup_insert_ne in Hj].
  rewrite list_lookup_insert_eq in Hj by done. by simplify_eq.
Qed.

Lemma remove_fast_keeps {A} (l : list A) i j x :
  (i < length l)%nat → j ≠ i → l !! j = Some x → x ∈ g_array_remove_index_fast i l.
Proof.
  intros Hi Hne Hj. unfold g_array_remove_index_fast. rewrite last_lookup.
  destruct (l !! pred (length l)) as [y|] eqn:Ey.
  2: { apply lookup_ge_None in Ey. lia. }
  pose proof (lookup_lt_Some _ _ _ Hj). apply list_elem_of_lookup.
  destruct (decide (j = pred (length l))) as [->|].
  - exists i. rewrite lookup_take_lt by lia. rewrite list_lookup_insert_eq by done. congruence.
  - exists j. rewrite lookup_take_lt by lia. by rewrite list_lookup_insert_ne.
Qed.

Lemma views_ok_remove vm0 s i v :
  views_ok vm0 s → page_views s !! i = Some v →
  views_ok vm0 (mkState (g_array_remove_index_fast i (page_views s)) (munmap (vm s) (ptr v) (view_len v))).
Proof.
  intros Hv Hi. pose proof (lookup_lt_Some _ _ _ Hi) as Hlt.
  assert (∀ w, w ∈ g_array_remove_index_fast i (page_views s) → ∃ j, page_views s !! j = Some w ∧ j ≠ i) as Hsub.
  { intros w (j & Hj)%list_elem_of_lookup. destruct (remove_fast_lookup _ _ _ _ Hlt Hj) as (j' & ? & E & ?).
    exists j'. split; [done|]. case_decide; lia. }
  split; cbn.
  - intros x Hx. unfold munmap. case_match eqn:Er.
    + apply list_elem_of_lookup_2 in Hi. by destruct (vo_inside _ _ Hv v x Hi Er).
    + apply (vo_outside _ _ Hv). intros w (j & Hj)%list_elem_of_lookup.
      destruct (decide (j = i)) as [->|]; [by simplify_eq|]. apply Hx. by eapply remove_fast_keeps.
  - intros w (j & Hj & _)%Hsub. apply (vo_ptr _ _ Hv). by eapply list_elem_of_lookup_2.
  - intros w x (j & Hj & Hne)%Hsub Hr. unfold munmap. case_match eqn:Er.
    + by destruct Hne; eapply (vo_disjoint _ _ Hv).
    + apply (vo_inside _ _ Hv w); [by eapply list_elem_of_lookup_2|done].
  - intros j k w w' x Hj Hk Hr Hr'.
    destruct (remove_fast_lookup _ _ _ _ Hlt Hj) as (j' & Hj' & Ej & ?).
    destruct (remove_fast_lookup _ _ _ _ Hlt Hk) as (k' & Hk' & Ek & ?).
    assert (j' = k') by by eapply (vo_disjoint _ _ Hv). repeat case_decide; lia.
Qed.

Lemma views_ok_unmap vm0 s p : views_ok vm0 s → views_ok vm0 (reims_vgpu_mmio_unmap_pages s p).
Proof.
  intros Hv. unfold reims_vgpu_mmio_unmap_pages. case_match; [done|].
  destruct (list_find _ _) as [[i v]|] eqn:E; [|done].
  apply list_find_Some in E as (Hi & _ & _). by apply views_ok_remove.
Qed.

Lemma munmap_all l vm0 x :
  foldl (λ vm v, munmap vm (ptr v) (view_len v)) vm0 l x =
    if existsb (λ v, in_range (ptr v) (view_len v) x) l then None else vm0 x.
Proof.
  revert vm0. induction l as [|v l IH]; intros vm0; cbn; [done|]. rewrite IH.
  unfold munmap. destruct (in_range _ _ x); cbn; [by case_match|done].
Qed.

Lemma free_restores vm0 s x : views_ok vm0 s → vm (reims_vgpu_mmio_free_page_views s) x = vm0 x.
Proof.
  intros Hv. unfold reims_vgpu_mmio_free_page_views. cbn. rewrite munmap_all.
  destruct (existsb _ _) eqn:E.
  - apply existsb_exists in E as (v & Hin%list_elem_of_In & Hr). by destruct (vo_inside _ _ Hv v x Hin Hr).
  - apply (vo_outside _ _ Hv). intros v Hin. apply not_true_is_false. intros Hr.
    rewrite <- not_true_iff_false, existsb_exists in E. apply E. exists v. by rewrite <- list_elem_of_In.
Qed.

Lemma unmap_of_new vm0 s p n vm' :
  views_ok vm0 (mkState (page_views s ++ [mkView p n]) vm') → 0 < p → 0 < n →
  reims_vgpu_mmio_unmap_pages (mkState (page_views s ++ [mkView p n]) vm') p = mkState (page_views s) (munmap vm' p n).
Proof.
  intros Hv Hp Hn. unfold reims_vgpu_mmio_unmap_pages. cbn [page_views vm].
  destruct (p =? 0) eqn:E0; reflect_bools; [lia|].
  assert (∃ i v, list_find (λ v, ptr v = p) (page_views s ++ [mkView p n]) = Some (i, v)) as (i & v & E).
  { destruct (list_find_elem_of (λ v, ptr v = p) (page_views s ++ [mkView p n]) (mkView p n)) as [[i v] E]; [|done|by eauto].
    apply elem_of_app. right. by apply list_elem_of_singleton. }
  rewrite E. apply list_find_Some in E as (Hi & Ep & _).
  assert ((page_views s ++ [mkView p n]) !! length (page_views s) = Some (mkView p n)) as Hl
    by by apply list_lookup_middle.
  assert (i = length (page_views s)) as ->.
  { apply (vo_disjoint _ _ Hv _ _ v (mkView p n) p Hi Hl); apply in_range_spec; cbn; [|lia].
    apply list_elem_of_lookup_2 in Hi. destruct (vo_ptr _ _ Hv v Hi). lia. }
  rewrite Hl in Hi. injection Hi as <-. cbn. f_equal. unfold g_array_remove_index_fast.
  rewrite last_snoc, length_app. cbn. rewrite Nat.add_1_r. cbn.
  rewrite take_insert_ge by lia. by rewrite take_app_length.
Qed.

(** A pointer into guest RAM is no view. *)
Lemma unmap_direct vm0 s p : views_ok vm0 s → vm0 p ≠ None → reims_vgpu_mmio_unmap_pages s p = s.
Proof.
  intros Hv Hp. unfold reims_vgpu_mmio_unmap_pages. case_match; [done|].
  destruct (list_find _ _) as [[i v]|] eqn:E; [|done].
  apply list_find_Some in E as (Hi%list_elem_of_lookup_2 & <- & _).
  destruct (vo_ptr _ _ Hv v Hi). destruct Hp. apply (vo_inside _ _ Hv v); [done|]. apply in_range_spec. lia.
Qed.

Lemma pack_undo `{HostOSLaws} mem vm0 gpas hvas s f rc p f' s' :
  mem_wf mem vm0 → views_ok vm0 s → gpas ≠ [] → stage f = REIMS_VGPU_MAP_PAGES_FAILURE_NONE →
  Forall2 (λ g hva, translate_ram (flat_view mem) g PAGE = Some hva) gpas hvas →
  reims_vgpu_pack_fragmented_view mem s hvas f = (rc, Some p, f', s') →
  page_views (reims_vgpu_mmio_unmap_pages s' p) = page_views s ∧
  ∀ x, vm (reims_vgpu_mmio_unmap_pages s' p) x = vm s x.
Proof.
  intros Hw Hv Hne Hs H2 E. pose proof (pack_outcome mem vm0 gpas hvas s f Hw Hv Hne Hs H2) as Ho.
  rewrite E in Ho. destruct Ho as [Hv' _]. revert E. unfold reims_vgpu_pack_fragmented_view.
  destruct (mmap_anon _ _) as [e|view] eqn:Hm; [done|].
  destruct (alias_from _ _ _ _ _) as [[[i e]|u] vm'] eqn:E; [done|]. intros [= <- <- <- <-].
  destruct (mmap_anon_fresh _ _ _ Hm) as (Ha & _ & _).
  rewrite (unmap_of_new vm0); [|done|done|].
  - split; [done|]. by eapply munmap_view.
  - apply Forall2_length in H2. destruct gpas; [done|]. rewrite <- H2. cbn [length].
    unfold REIMS_VGPU_GUEST_PAGE_SIZE_ARM64E. lia.
Qed.

(** What map_pages returned, unmap_pages takes back. *)
Lemma map_pages_undo `{HostOSLaws} mem vm0 gpas s rc p f s' :
  mem_wf mem vm0 → views_ok vm0 s →
  reims_vgpu_mmio_map_pages mem s (Some gpas) true true = (rc, Some p, f, s') →
  page_views (reims_vgpu_mmio_unmap_pages s' p) = page_views s ∧
  ∀ x, vm (reims_vgpu_mmio_unmap_pages s' p) x = vm s x.
Proof.
  intros Hw Hv. unfold reims_vgpu_mmio_map_pages. cbn [negb]. rewrite !orb_false_r.
  destruct (_ || _) eqn:Eg; [done|]. destruct gpas as [|g gpas]; [done|].
  assert (∀ n q, translate_ram (flat_view mem) g n = Some q → 0 < n → reims_vgpu_mmio_unmap_pages s q = s) as Hd.
  { intros n q Ht Hn. apply (unmap_direct vm0); [done|].
    pose proof (translate_ram_host _ _ _ _ 0 (mw_view _ _ Hw) Ht ltac:(lia)) as Hr.
    rewrite !Z.add_0_r in Hr. by apply (mw_mapped _ _ Hw _ _ Hr). }
  destruct (reims_vgpu_contiguous_run_hva mem (g :: gpas)) as [hva|] eqn:Ec.
  { intros [= <- <- <- <-]. revert Ec. unfold reims_vgpu_contiguous_run_hva. case_match; [done|]. case_match; [|done].
    destruct (translate_ram _ _ _) as [h|] eqn:Et; cbn [mbind option_bind]; [|done].
    case_match; [done|]. intros [= <-]. rewrite (Hd _ _ Et); [done|]. cbn [length].
    unfold REIMS_VGPU_GUEST_PAGE_SIZE_ARM64E. lia. }
  unfold reims_vgpu_resolve_guest_hvas. destruct (resolve_from mem 0 (g :: gpas)) as [i|hvas] eqn:Er; [done|].
  apply resolve_from_ok in Er. case_match; [|by apply (pack_undo _ vm0 (g :: gpas))].
  intros [= <- <- <- <-]. inversion Er as [|? hva ? hvas' Ht]; subst. cbn. by rewrite (Hd _ _ Ht).
Qed.

(** ** Properties *)

(** C36: A call of map_pages either stores a pointer behind which byte k of page i is byte k
    of guest page gpas[i], for every page of the list, or refuses, and then the report
    names the first page that is no whole aligned page of RAM, or the stage that failed,
    and neither the address space nor the list of views has changed. *)
Theorem map_pages_exact `{HostOSLaws} mem vm0 gpas s :
  mem_wf mem vm0 → views_ok vm0 s →
  map_outcome mem vm0 gpas s (reims_vgpu_mmio_map_pages mem s (Some gpas) true true).
Proof. apply map_pages_outcome. Qed.

(** Releasing the pointer map_pages handed out puts the address space and the list of
    views back, whether the pointer was a view or guest RAM itself, which stays mapped. *)
Theorem map_unmap_pages `{HostOSLaws} mem vm0 gpas s rc p f s' :
  mem_wf mem vm0 → views_ok vm0 s →
  reims_vgpu_mmio_map_pages mem s (Some gpas) true true = (rc, Some p, f, s') →
  let s2 := reims_vgpu_mmio_unmap_pages s' p in
  page_views s2 = page_views s ∧ ∀ x, vm s2 x = vm s x.
Proof.
  intros Hw Hv E. by eapply map_pages_undo.
Qed.

Inductive view_op := MapPages (gpas : option (list Z)) (out_ptr failure : bool) | UnmapPages (p : Z).
Definition view_step `{HostOS} (mem : memory) (s : ReimsVGPUMMIOState) (op : view_op) : ReimsVGPUMMIOState :=
  match op with
  | MapPages gpas out_ptr failure => (reims_vgpu_mmio_map_pages mem s gpas out_ptr failure).2
  | UnmapPages p => reims_vgpu_mmio_unmap_pages s p
  end.

Lemma view_step_ok `{HostOSLaws} mem vm0 s op :
  mem_wf mem vm0 → views_ok vm0 s → views_ok vm0 (view_step mem s op).
Proof.
  intros Hw Hv. destruct op as [[gpas|] [] []|p]; cbn [view_step]; try by apply views_ok_unmap.
  1: { pose proof (map_pages_outcome mem vm0 gpas s Hw Hv) as Ho. unfold map_outcome in Ho.
       destruct (reims_vgpu_mmio_map_pages _ _ _ _ _) as [[[rc out] f] s']. by destruct Ho. }
  all: unfold reims_vgpu_mmio_map_pages; cbn [negb]; rewrite ?orb_true_r; done.
Qed.

(** C37: Whatever the device maps and releases, with whatever arguments and however the
    kernel answers, nothing that was mapped before loses or changes its backing, guest
    RAM above all, and teardown leaves the address space as it was. *)
Theorem page_views_safe `{HostOSLaws} mem vm0 ops :
  mem_wf mem vm0 →
  let s := foldl (view_step mem) (mkState [] vm0) ops in
  (∀ x, vm0 x ≠ None → vm s x = vm0 x) ∧
  (∀ v x, v ∈ page_views s → in_range (ptr v) (view_len v) x = true → vm0 x = None ∧ vm s x ≠ None) ∧
  page_views (reims_vgpu_mmio_free_page_views s) = [] ∧
  ∀ x, vm (reims_vgpu_mmio_free_page_views s) x = vm0 x.
Proof.
  intros Hw s. assert (views_ok vm0 s) as Hv.
  { subst s. generalize (views_ok_start vm0). generalize (mkState [] vm0).
    induction ops as [|op ops IH]; intros s Hs; [done|]. by apply IH, view_step_ok. }
  split_and!; [by intros; apply views_keep|apply (vo_inside _ _ Hv)|done|by intros; apply free_restores].
Qed.

(** ** A concrete host and guest

    The kernel gives out the range at 0x40000000 when it is free; the guest's 64 KiB
    of RAM are one shared mapping of file 5. *)
Fixpoint free_from (vm : host_vm) (n : nat) (x : Z) : bool :=
  match n with
  | O => true
  | S n => match vm x with None => free_from vm n (x + 1) | Some _ => false end
  end.

Lemma free_from_spec vm n a : free_from vm n a = true → ∀ x, a ≤ x < a + Z.of_nat n → vm x = None.
Proof.
  revert a. induction n as [|n IH]; intros a E x Hx; [lia|]. cbn in E. destruct (vm a) eqn:Ea; [done|].
  destruct (decide (x = a)) as [->|]; [done|]. apply (IH _ E). lia.
Qed.

#[local] Instance demo_os : HostOS := {
  mmap_anon vm n :=
    if free_from vm (Z.to_nat n) 0x40000000 && (n <=? 0x10000000) then inr 0x40000000 else inl 12;
  mmap_fixed _ _ _ _ := None }.
#[local] Instance demo_os_laws : HostOSLaws.
Proof.
  split. intros vm n a. cbn. case_match eqn:E; [|done]. intros [= <-]. reflect_bools.
  split_and!; [lia|lia|]. intros x Hx%in_range_spec. apply (free_from_spec vm (Z.to_nat n) 0x40000000); [done|lia].
Qed.

Definition demo_mem : memory :=
  mkMemory [mkRange 0x70000000 0x10000 (demo_ram 0x100000) 0 false] None
    [mkBlock (Some 0x100000) 0x10000 true 5 0].
Definition demo_vm : host_vm := map_range (λ _, None) 0x100000 0x10000 (File 5).
Definition demo_gpas : list Z := [0x70008000; 0x70000000].

Lemma demo_host g h :
  ram_host (flat_view demo_mem) g = Some h → 0x70000000 ≤ g < 0x70010000 ∧ h = 0x100000 + (g - 0x70000000).
Proof.
  unfold ram_host. destruct (list_find _ _) as [[i r]|] eqn:E; [|done].
  apply find_some in E as [->%list_elem_of_singleton Hg]. cbn in Hg |- *. intros [= <-]. lia.
Qed.

Lemma demo_mem_wf : mem_wf demo_mem demo_vm.
Proof.
  split.
  - cbn [fv_wf flat_view demo_mem]. unfold range_wf. cbn [start len].
    repeat split; try lia; match goal with E : usable _ = Some _ |- _ => vm_compute in E; simplify_eq; lia end.
  - intros g h (Hg & ->)%demo_host. split_and!; [unfold is_u64; lia|lia|].
    unfold demo_vm, map_range. by rewrite (proj2 (in_range_spec _ _ _)) by lia.
  - intros r m rb b h ->%list_elem_of_singleton [= <-] _ ->%list_elem_of_singleton [= <-]. cbn. lia.
  - intros rb b ->%list_elem_of_singleton [= <-]. cbn. lia.
  - intros rb b k ->%list_elem_of_singleton [= <-] _ _ Hk. cbn in Hk |- *.
    unfold demo_vm, map_range. rewrite (proj2 (in_range_spec _ _ _)) by lia. do 2 f_equal. lia.
Qed.

Lemma map_pages_exact_witness :
  map_outcome demo_mem demo_vm demo_gpas (mkState [] demo_vm)
    (reims_vgpu_mmio_map_pages demo_mem (mkState [] demo_vm) (Some demo_gpas) true true) ∧
  (reims_vgpu_mmio_map_pages demo_mem (mkState [] demo_vm) (Some demo_gpas) true true).1.1 = (0, Some 0x40000000).
Proof.
  split; [|vm_compute; reflexivity].
  apply map_pages_exact; [exact demo_mem_wf|apply views_ok_start].
Defined.

Lemma map_unmap_pages_witness :
  let '(_, _, _, s') := reims_vgpu_mmio_map_pages demo_mem (mkState [] demo_vm) (Some demo_gpas) true true in
  length (page_views s') = 1%nat ∧ ∀ x, vm (reims_vgpu_mmio_unmap_pages s' 0x40000000) x = demo_vm x.
Proof.
  destruct (reims_vgpu_mmio_map_pages demo_mem (mkState [] demo_vm) (Some demo_gpas) true true)
    as [[[rc out] f] s'] eqn:E.
  assert (out = Some 0x40000000) as ->.
  { apply (f_equal (λ r, r.1.1.2)) in E. cbn [fst snd] in E. rewrite <- E. vm_compute. reflexivity. }
  split.
  - apply (f_equal (λ r, length (page_views r.2))) in E. cbn [fst snd] in E. rewrite <- E. vm_compute. reflexivity.
  - apply (map_unmap_pages demo_mem demo_vm demo_gpas (mkState [] demo_vm) rc 0x40000000 f s'
      demo_mem_wf (views_ok_start demo_vm) E).
Defined.

Definition demo_ops : list view_op :=
  [MapPages (Some demo_gpas) true true; UnmapPages 0x100000; MapPages None true true].

Lemma page_views_safe_witness :
  length (page_views (foldl (view_step demo_mem) (mkState [] demo_vm) demo_ops)) = 1%nat ∧
  ∀ x, demo_vm x ≠ None → vm (foldl (view_step demo_mem) (mkState [] demo_vm) demo_ops) x = demo_vm x.
Proof.
  split; [vm_compute; reflexivity|].
  exact (proj1 (page_views_safe demo_mem demo_vm demo_ops demo_mem_wf)).
Defined.
