(* ===== verification/PageTable.v ===== *)
(** The guest GPU's page tables: src/reims-vgpu/crates/reims-vgpu-wire/src/mem.rs and
    page_table.rs.

    A node is one page of four-byte entries; a walk descends from a root through
    [depth] nodes and names a frame.  [walk] resolves one address; [walk_run] resolves
    consecutive pages, keeping the upper levels of the last descent and reading leaf
    entries in batches.  [Builder] assembles trees the way the guest does.

    Rust's [Result] is a sum with the error on the left; a panic is [None].  A visitor
    is a function on its captured state. *)
From S2P Require Import Prelude.

(** ** Guest memory *)

(** [read_at] copies [n] bytes from an address, or fails as a whole. *)
Class GuestMemory (M : Type) := read_at : M → Z → nat → option (list Z).
Definition u32_at `{GuestMemory M} (mem : M) (addr : Z) : option Z := le_val <$> read_at mem addr 4.

(** A span is readable exactly as its bytes are, so a part of a readable span is
    readable and is that part. *)
Class GuestMemoryLaws (M : Type) `{GuestMemory M} : Prop := {
  read_at_length mem a n bs : read_at mem a n = Some bs → length bs = n;
  read_at_u8 mem a n bs : read_at mem a n = Some bs → Forall is_u8 bs;
  read_at_part mem a n bs i k :
    read_at mem a n = Some bs → (i + k ≤ n)%nat → read_at mem (a + Z.of_nat i) k = Some (slice i k bs) }.

Record SliceMemory := mkSlice { slice_bytes : list Z }.
Definition slice_read (mem : SliceMemory) (addr : Z) (n : nat) : option (list Z) :=
  if (addr <? 0) || (UINT64_MAX <? addr + Z.of_nat n) then None
  else match slice_at (Z.to_nat addr) n (slice_bytes mem) with Some bs => Some (map u8 bs) | None => None end.
#[export] Instance slice_memory : GuestMemory SliceMemory := slice_read.

(** ** The format *)
Definition PTE_SIZE : Z := 4.
Definition PTE_FLAG_MASK : Z := 0x80000000.
Definition PTE_PFN_MASK : Z := 0x7fffffff.
Definition DIRECTORY_ROOT_PFN : Z := 0.
Definition DIRECTORY_DEPTH : Z := 4.
Definition MAX_DEPTH : Z := 4.

Record Geometry := mkGeometry { page_shift : Z }.
Definition X86_64 : Geometry := mkGeometry 12.
Definition ARM64E : Geometry := mkGeometry 14.

Definition page_size (g : Geometry) : Z := Z.shiftl 1 (page_shift g).
Definition page_offset_mask (g : Geometry) : Z := page_size g - 1.
Definition index_bits (g : Geometry) : Z := page_shift g - 2.
Definition entries_per_table (g : Geometry) : Z := Z.shiftl 1 (index_bits g).
Definition index_mask (g : Geometry) : Z := entries_per_table g - 1.
Definition pfn_to_addr (g : Geometry) (pfn : Z) : Z := Z.shiftl pfn (page_shift g).

Inductive WalkError :=
| UnsupportedGeometry | ZeroRootPfn | ZeroDepth | DepthTooDeep | TableRead | NotPresent | MalformedPte.
#[export] Instance WalkError_eq_dec : EqDecision WalkError.
Proof. solve_decision. Defined.

Definition validate (g : Geometry) : WalkError + unit :=
  if negb (page_shift g =? 12) && negb (page_shift g =? 14) then inl UnsupportedGeometry else inr ().

Record WalkFailure := mkFail { error : WalkError; level : Z; fail_entry : Z; fail_pte : Z }.
Record Walk := mkWalk { leaf_pfn : Z; addr_page : Z; addr : Z; page_index : Z; raw_pte : Z }.

Section Walks.
Context `{GuestMemory M} (mem : M) (g : Geometry).

Definition read_directory (directory_pfn : Z) : WalkError + Z * Z :=
  match validate g with
  | inl e => inl e
  | inr _ =>
      if directory_pfn =? 0 then inl ZeroRootPfn
      else
        let base := pfn_to_addr g directory_pfn in
        match u32_at mem (base + DIRECTORY_ROOT_PFN) with
        | None => inl TableRead
        | Some root_pfn =>
            match u32_at mem (base + DIRECTORY_DEPTH) with
            | None => inl TableRead
            | Some depth => inr (root_pfn, depth)
            end
        end
  end.

(** The nodes of a descent, root first; the array holds [MAX_DEPTH]. *)
Definition push (nodes : list Z) (pfn : Z) : list Z :=
  if Z.of_nat (length nodes) <? MAX_DEPTH then nodes ++ [pfn] else nodes.

(** The index of level [lv] of [depth], and the address of an entry. *)
Definition entry_index (depth lv : nat) (page : Z) : Z :=
  Z.land (Z.shiftr page (Z.of_nat (depth - 1 - lv) * index_bits g)) (index_mask g).
Definition entry_addr (pfn index : Z) : Z := pfn_to_addr g pfn + index * PTE_SIZE.

(** What an entry says: the next frame, or why the walk stops. *)
Definition entry_error (pte : Z) : WalkError := if pte =? 0 then NotPresent else MalformedPte.

(** The loop over the levels, [n] of them left. *)
Fixpoint walk_levels (depth n : nat) (page current raw : Z) (nodes : list Z) :
    (WalkFailure + Z * Z) * list Z :=
  match n with
  | O => (inr (current, raw), nodes)
  | S n =>
      let lv := (depth - S n)%nat in
      let nodes := push nodes current in
      let index := entry_index depth lv page in
      match u32_at mem (entry_addr current index) with
      | None => (inl (mkFail TableRead (Z.of_nat lv) index 0), nodes)
      | Some pte =>
          let next := Z.land pte PTE_PFN_MASK in
          if next =? 0 then (inl (mkFail (entry_error pte) (Z.of_nat lv) index pte), nodes)
          else walk_levels depth n page next pte nodes
      end
  end.

(** The checks both walks start with. *)
Definition walk_refusal (root_pfn depth : Z) : option WalkFailure :=
  let fail e := Some (mkFail e 0 0 0) in
  match validate g with
  | inl e => fail e
  | inr _ =>
      if root_pfn =? 0 then fail ZeroRootPfn
      else if depth =? 0 then fail ZeroDepth
      else if MAX_DEPTH <? depth then fail DepthTooDeep
      else None
  end.

Definition walk_end (page page_off current raw : Z) : Walk :=
  mkWalk current (pfn_to_addr g current) (pfn_to_addr g current + page_off) page raw.

Definition walk_recording_nodes (root_pfn depth gva : Z) (nodes : list Z) : (WalkFailure + Walk) * list Z :=
  match walk_refusal root_pfn depth with
  | Some f => (inl f, nodes)
  | None =>
      let page := Z.shiftr gva (page_shift g) in
      let page_off := Z.land gva (page_offset_mask g) in
      match walk_levels (Z.to_nat depth) (Z.to_nat depth) page root_pfn 0 nodes with
      | (inl f, nodes) => (inl f, nodes)
      | (inr (current, raw), nodes) => (inr (walk_end page page_off current raw), nodes)
      end
  end.

Definition walk (root_pfn depth gva : Z) : WalkFailure + Walk :=
  (walk_recording_nodes root_pfn depth gva []).1.

(** ** Walking a run of pages *)
Definition LEAF_BATCH : Z := 64.

(** What the run keeps between pages: the entry index and the next frame of each
    level of the last descent, [held] levels of which are still true, and a batch of
    [leaf_len] entries of the node [leaf_node] from index [leaf_first] on. *)
Record run_state := mkRun {
  seen_index : list Z; seen_next : list Z; held : nat;
  leaf_buf : list Z; leaf_node : Z; leaf_first : Z; leaf_len : nat; leaf_unbatchable : Z }.

Definition run_start : run_state :=
  mkRun (replicate (Z.to_nat MAX_DEPTH) 0) (replicate (Z.to_nat MAX_DEPTH) 0) 0 [] 0 0 0 0.

Definition set_leaf (st : run_state) buf node first n unbatchable : run_state :=
  mkRun (seen_index st) (seen_next st) (held st) buf node first n unbatchable.

(** Refills the batch when the word is not in it. *)
Definition leaf_refill (st : run_state) (current index : Z) : run_state :=
  if negb (leaf_node st =? current) || (index <? leaf_first st) ||
     (Z.of_nat (leaf_len st) <=? index - leaf_first st)
  then
    let st := set_leaf st (leaf_buf st) (leaf_node st) (leaf_first st) 0 (leaf_unbatchable st) in
    if negb (leaf_unbatchable st =? current) then
      let want := Z.to_nat (Z.min (entries_per_table g - index) LEAF_BATCH) in
      match read_at mem (entry_addr current index) (want * 4) with
      | Some bs => set_leaf st bs current index want (leaf_unbatchable st)
      | None => set_leaf st (leaf_buf st) (leaf_node st) (leaf_first st) (leaf_len st) current
      end
    else st
  else st.

Definition leaf_read (st : run_state) (current index : Z) : option Z :=
  match leaf_len st with
  | O => u32_at mem (entry_addr current index)
  | S _ => Some (le_val (slice (Z.to_nat (index - leaf_first st) * 4) 4 (leaf_buf st)))
  end.

Definition keep_level (st : run_state) (lv : nat) (index next : Z) : run_state :=
  mkRun (<[lv := index]> (seen_index st)) (<[lv := next]> (seen_next st)) (S lv)
    (leaf_buf st) (leaf_node st) (leaf_first st) (leaf_len st) (leaf_unbatchable st).
Definition forget_levels (st : run_state) : run_state :=
  mkRun (seen_index st) (seen_next st) 0
    (leaf_buf st) (leaf_node st) (leaf_first st) (leaf_len st) (leaf_unbatchable st).

Fixpoint run_levels (depth n : nat) (page current raw : Z) (st : run_state) :
    (WalkFailure + Z * Z) * run_state :=
  match n with
  | O => (inr (current, raw), st)
  | S n =>
      let lv := (depth - S n)%nat in
      let index := entry_index depth lv page in
      if bool_decide (lv < held st)%nat && (seen_index st !!! lv =? index)
      then run_levels depth n page (seen_next st !!! lv) raw st
      else
        let '(read, st) :=
          if bool_decide (S lv = depth)
          then let st := leaf_refill st current index in (leaf_read st current index, st)
          else (u32_at mem (entry_addr current index), st) in
        match read with
        | None => (inl (mkFail TableRead (Z.of_nat lv) index 0), st)
        | Some pte =>
            let next := Z.land pte PTE_PFN_MASK in
            if next =? 0 then (inl (mkFail (entry_error pte) (Z.of_nat lv) index pte), st)
            else run_levels depth n page next pte (keep_level st lv index next)
        end
  end.

(** One page of the run. *)
Definition run_page (root_pfn depth first_gva i : Z) (st : run_state) : (WalkFailure + Walk) * run_state :=
  let page := u64 (Z.shiftr first_gva (page_shift g) + i) in
  let gva := Z.lor (u64 (Z.shiftl page (page_shift g))) (Z.land first_gva (page_offset_mask g)) in
  let page_off := Z.land gva (page_offset_mask g) in
  match run_levels (Z.to_nat depth) (Z.to_nat depth) page root_pfn 0 st with
  | (inl f, st) => (inl f, forget_levels st)
  | (inr (current, raw), st) => (inr (walk_end page page_off current raw), st)
  end.

(** The visitor sees each page's index and answer, and stops the run with [false]. *)
Fixpoint run_pages {S} (root_pfn depth first_gva : Z) (n : nat) (i : Z) (st : run_state)
    (visit : S → Z → WalkFailure + Walk → bool * S) (s : S) : S :=
  match n with
  | O => s
  | Datatypes.S n =>
      let '(result, st) := run_page root_pfn depth first_gva i st in
      let '(more, s) := visit s i result in
      if more then run_pages root_pfn depth first_gva n (i + 1) st visit s else s
  end.

Definition walk_run {S} (root_pfn depth first_gva pages : Z)
    (visit : S → Z → WalkFailure + Walk → bool * S) (s : S) : S :=
  match walk_refusal root_pfn depth with
  | Some f => (visit s 0 (inl f)).2
  | None => run_pages root_pfn depth first_gva (Z.to_nat pages) 0 run_start visit s
  end.
End Walks.

(** ** The two walks agree *)
#[export] Instance slice_memory_laws : GuestMemoryLaws SliceMemory.
Proof.
  split; unfold read_at, slice_memory, slice_read.
  - intros mem a n bs. case_match; [done|]. unfold slice_at. case_decide; [|done].
    intros [= <-]. rewrite length_map. by apply length_slice.
  - intros mem a n bs. case_match; [done|]. unfold slice_at. case_decide; [|done].
    intros [= <-]. apply Forall_fmap, Forall_true. intros. apply u8_range.
  - intros mem a n bs i k. destruct (_ || _) eqn:E; [done|]. unfold slice_at.
    case_decide as Hn; [|done]. intros [= <-] Hk. reflect_bools.
    destruct (_ || _) eqn:E'; [apply orb_true_iff in E' as [E'|E']; reflect_bools; lia|].
    replace (Z.to_nat (a + Z.of_nat i)) with (Z.to_nat a + i)%nat by lia.
    rewrite decide_True by lia. f_equal. unfold slice.
    rewrite skipn_map, firstn_map, skipn_firstn_comm, take_take, drop_drop. by rewrite Nat.min_l by lia.
Qed.

Section Equivalence.
Context `{GuestMemoryLaws M} (mem : M) (g : Geometry).
Hypothesis Hg : page_shift g = 12 ∨ page_shift g = 14.

Lemma entries_pow : entries_per_table g = 2 ^ index_bits g ∧ 10 ≤ index_bits g ≤ 12.
Proof. unfold entries_per_table, index_bits. destruct Hg as [-> | ->]; split; (reflexivity || lia). Qed.

Lemma entry_index_range depth lv page : 0 ≤ entry_index g depth lv page < entries_per_table g.
Proof.
  unfold entry_index, index_mask. destruct entries_pow as [E ?].
  pose proof (land_range (Z.shiftr page (Z.of_nat (depth - 1 - lv) * index_bits g)) (entries_per_table g - 1)).
  assert (0 < entries_per_table g) by (rewrite E; by apply Z.pow_pos_nonneg; lia). lia.
Qed.

(** The last level takes another entry for the next page. *)
Lemma leaf_index_moves depth page :
  0 ≤ page → entry_index g depth (depth - 1) (page + 1) ≠ entry_index g depth (depth - 1) page.
Proof.
  intros Hp. unfold entry_index, index_mask. destruct entries_pow as [E ?]. rewrite E.
  replace (Z.of_nat (depth - 1 - (depth - 1)) * index_bits g) with 0 by lia. rewrite !Z.shiftr_0_r.
  rewrite !land_ones_mod by lia. pose proof (Z.pow_le_mono_r 2 10 (index_bits g)).
  intros Heq. apply (f_equal (λ x, (x - page mod 2 ^ index_bits g) mod 2 ^ index_bits g)) in Heq.
  rewrite <- Zminus_mod in Heq. replace (page + 1 - page) with 1 in Heq by lia.
  rewrite Z.sub_diag, Z.mod_0_l, Z.mod_1_l in Heq by lia. lia.
Qed.

(** The frame level [lv] of the record is read out of. *)
Definition node (root : Z) (st : run_state) (lv : nat) : Z :=
  match lv with O => root | S k => seen_next st !!! k end.

Record run_ok (root : Z) (depth : nat) (st : run_state) : Prop := {
  ro_index : length (seen_index st) = Z.to_nat MAX_DEPTH;
  ro_next : length (seen_next st) = Z.to_nat MAX_DEPTH;
  ro_held : (held st ≤ depth)%nat;
  (* the record is a path of the tree *)
  ro_path lv : (lv < held st)%nat →
    ∃ pte, u32_at mem (entry_addr g (node root st lv) (seen_index st !!! lv)) = Some pte ∧
           Z.land pte PTE_PFN_MASK = seen_next st !!! lv ∧ seen_next st !!! lv ≠ 0;
  (* the batch holds the words of its node *)
  ro_batch j : (j < leaf_len st)%nat →
    u32_at mem (entry_addr g (leaf_node st) (leaf_first st + Z.of_nat j)) =
      Some (le_val (slice (j * 4) 4 (leaf_buf st))) }.

Lemma run_start_ok root depth : run_ok root depth run_start.
Proof. split; cbn; try done; lia. Qed.

Lemma batch_words pfn first n bs j :
  read_at mem (entry_addr g pfn first) (n * 4) = Some bs → (j < n)%nat →
  u32_at mem (entry_addr g pfn (first + Z.of_nat j)) = Some (le_val (slice (j * 4) 4 bs)).
Proof.
  intros Hr Hj. unfold u32_at.
  replace (entry_addr g pfn (first + Z.of_nat j)) with (entry_addr g pfn first + Z.of_nat (j * 4))
    by (unfold entry_addr, PTE_SIZE; lia).
  rewrite (read_at_part _ _ _ _ (j * 4) 4 Hr) by lia. done.
Qed.

(** A new batch, or none, keeps the record. *)
Lemma set_leaf_ok root depth st buf nd first n u :
  run_ok root depth st →
  (∀ j, (j < n)%nat → u32_at mem (entry_addr g nd (first + Z.of_nat j)) = Some (le_val (slice (j * 4) 4 buf))) →
  run_ok root depth (set_leaf st buf nd first n u).
Proof. intros [H1 H2 H3 H4 _] Hb. by split. Qed.

(** A refill keeps the record, and the word is then read as it stands in memory. *)
Lemma leaf_refill_ok root depth st current index :
  run_ok root depth st → 0 ≤ index < entries_per_table g →
  let st' := leaf_refill mem g st current index in
  run_ok root depth st' ∧ held st' = held st ∧ seen_index st' = seen_index st ∧ seen_next st' = seen_next st ∧
  leaf_read mem g st' current index = u32_at mem (entry_addr g current index).
Proof.
  intros Hst Hi. unfold leaf_refill. destruct (_ || _) eqn:E.
  - cbn [set_leaf leaf_unbatchable leaf_buf leaf_node leaf_first leaf_len].
    destruct (negb (leaf_unbatchable st =? current)); [|split_and!; try done; apply set_leaf_ok; [done|lia]].
    destruct (read_at mem _ _) as [bs|] eqn:Er; [|split_and!; try done; repeat apply set_leaf_ok; done || lia].
    split_and!; try done.
    { repeat apply set_leaf_ok; try done; [lia|]. intros j Hj. by apply (batch_words _ _ _ _ _ Er). }
    unfold leaf_read. cbn [set_leaf leaf_len leaf_first leaf_buf].
    destruct (Z.to_nat (Z.min _ _)) as [|n] eqn:Ew; [unfold LEAF_BATCH in Ew; lia|].
    pose proof (batch_words _ _ _ _ 0 Er ltac:(lia)) as Hw. rewrite Z.add_0_r in Hw. by rewrite Hw, Z.sub_diag.
  - reflect_bools. split_and!; try done. unfold leaf_read.
    destruct (leaf_len st) as [|n] eqn:El; [done|].
    rewrite <- (ro_batch _ _ _ Hst (Z.to_nat (index - leaf_first st))) by lia.
    f_equal. f_equal; [done|]. lia.
Qed.

Lemma walk_levels_nodes depth n page current raw nodes nodes' :
  (walk_levels mem g depth n page current raw nodes).1 = (walk_levels mem g depth n page current raw nodes').1.
Proof.
  revert current raw nodes nodes'. induction n as [|n IH]; intros current raw nodes nodes'; [done|]. cbn.
  destruct (u32_at mem _); [|done]. case_match; [done|]. apply IH.
Qed.

Lemma walk_levels_raw depth n page current raw raw' nodes :
  (0 < n)%nat → walk_levels mem g depth n page current raw nodes = walk_levels mem g depth n page current raw' nodes.
Proof. destruct n; [lia|done]. Qed.

(** The record agrees with the first [lv] levels of the descent for [page]. *)
Definition on_path (depth lv : nat) (page : Z) (st : run_state) : Prop :=
  (lv ≤ held st)%nat ∧ ∀ j, (j < lv)%nat → seen_index st !!! j = entry_index g depth j page.

Lemma keep_level_ok root depth st lv index next pte :
  run_ok root depth st → (lv ≤ held st)%nat → (lv < depth)%nat → (depth ≤ 4)%nat →
  u32_at mem (entry_addr g (node root st lv) index) = Some pte → Z.land pte PTE_PFN_MASK = next → next ≠ 0 →
  run_ok root depth (keep_level st lv index next) ∧ node root (keep_level st lv index next) (S lv) = next.
Proof.
  intros [H1 H2 H3 H4 H5] Hlv Hd Hd4 Hu Hn Hz. unfold MAX_DEPTH in *.
  assert (<[lv:=next]> (seen_next st) !!! lv = next) as En by (apply list_lookup_total_insert_eq; lia).
  split; [|exact En]. split; cbn; rewrite ?length_insert; try done.
  intros k Hk. destruct (decide (k = lv)) as [->|Hne].
  - rewrite En, list_lookup_total_insert_eq by lia. exists pte. split_and!; try done.
    destruct lv as [|lv]; [done|]. cbn in *. by rewrite list_lookup_total_insert_ne by lia.
  - rewrite !list_lookup_total_insert_ne by lia. destruct (H4 k) as (pte' & Hp & ?); [lia|].
    exists pte'. split; [|done]. destruct k as [|k]; [done|]. cbn in *. by rewrite list_lookup_total_insert_ne by lia.
Qed.

Lemma keep_level_path depth st lv page next :
  on_path depth lv page st → (lv < 4)%nat → length (seen_index st) = 4%nat →
  on_path depth (S lv) page (keep_level st lv (entry_index g depth lv page) next).
Proof.
  intros [Hh Hp] Hlv Hl. split; [done|]. cbn. intros j Hj. destruct (decide (j = lv)) as [->|].
  - apply list_lookup_total_insert_eq. lia.
  - rewrite list_lookup_total_insert_ne by done. apply Hp. lia.
Qed.

(** The entry the run reads is the one in memory. *)
Lemma run_read_ok root depth lv page current st read st' :
  run_ok root depth st →
  (if bool_decide (S lv = depth)
   then let st := leaf_refill mem g st current (entry_index g depth lv page) in
        (leaf_read mem g st current (entry_index g depth lv page), st)
   else (u32_at mem (entry_addr g current (entry_index g depth lv page)), st)) = (read, st') →
  run_ok root depth st' ∧ held st' = held st ∧ seen_index st' = seen_index st ∧ seen_next st' = seen_next st ∧
  read = u32_at mem (entry_addr g current (entry_index g depth lv page)).
Proof.
  intros Hst. case_bool_decide; intros [= <- <-]; [|done].
  apply leaf_refill_ok; [done|apply entry_index_range].
Qed.

(** With a leaf that is not the one the record ends in, the run's descent is the walk's. *)
Lemma run_levels_ok root depth n page current raw st nodes :
  (n ≤ depth ≤ 4)%nat → run_ok root depth st → on_path depth (depth - n) page st →
  current = node root st (depth - n) →
  ((0 < n)%nat → held st = depth → seen_index st !!! (depth - 1)%nat ≠ entry_index g depth (depth - 1) page) →
  let '(res, st') := run_levels mem g depth n page current raw st in
  res = (walk_levels mem g depth n page current raw nodes).1 ∧ run_ok root depth st' ∧
  (∀ x, res = inr x → on_path depth depth page st').
Proof.
  revert current raw st nodes. induction n as [|n IH]; intros current raw st nodes Hn Hst Hp Hc Hleaf.
  { cbn. rewrite Nat.sub_0_r in Hp. split_and!; by auto. }
  cbn [run_levels walk_levels]. set (lv := (depth - S n)%nat) in *.
  assert (depth - n = S lv)%nat as Elv by lia.
  destruct (bool_decide (lv < held st)%nat && _) eqn:E.
  - apply andb_true_iff in E as [Hh%bool_decide_eq_true Hi%Z.eqb_eq].
    destruct (ro_path _ _ _ Hst lv Hh) as (pte & Hu & Hm & Hz). rewrite Hi, <- Hc in Hu. rewrite Hu, Hm.
    destruct (seen_next st !!! lv =? 0) eqn:E0; reflect_bools; [done|].
    assert (0 < n)%nat as Hpos.
    { destruct n; [|lia]. exfalso. pose proof (ro_held _ _ _ Hst).
      assert (lv = depth - 1)%nat as Ed by lia. rewrite Ed in Hi. apply Hleaf; [lia|lia|done]. }
    rewrite (walk_levels_raw _ _ _ _ pte raw) by done.
    apply IH; try done; [lia| |by rewrite Elv|by intros; apply Hleaf; lia].
    rewrite Elv. destruct Hp as [_ Hp]. split; [lia|]. intros j Hj.
    destruct (decide (j = lv)) as [->|]; [done|]. apply Hp. lia.
  - destruct (if bool_decide _ then _ else _) as [read st1] eqn:Er.
    destruct (run_read_ok _ _ _ _ _ _ _ _ Hst Er) as (Hst1 & Eh & Ei & En & ->).
    destruct (u32_at mem _) as [pte|] eqn:Eu; [|by cbn].
    destruct (_ =? 0) eqn:E0; [by cbn|]. reflect_bools.
    assert (current = node root st1 lv) as Hc1 by (rewrite Hc; destruct lv; cbn; by rewrite ?En).
    assert (on_path depth lv page st1) as Hp1 by (destruct Hp as [? Hp]; split; rewrite ?Eh, ?Ei; done).
    rewrite Hc1 in Eu. destruct Hp1 as [Hh1 Hp1'].
    destruct (keep_level_ok root depth st1 lv (entry_index g depth lv page) _ pte Hst1 Hh1
      ltac:(lia) ltac:(lia) Eu eq_refl E0) as [Hk Hkn].
    apply IH; try done; [lia| | |].
    + rewrite Elv. apply keep_level_path; [by split|lia|apply (ro_index _ _ _ Hst1)].
    + by rewrite Elv.
    + cbn. lia.
Qed.

Lemma page_offset_land gva : Z.land gva (page_offset_mask g) = gva mod 2 ^ page_shift g.
Proof.
  unfold page_offset_mask, page_size. rewrite Z.shiftl_1_l. apply land_ones_mod. destruct Hg as [-> | ->]; lia.
Qed.

(** The parts of the address of page [i] of a run. *)
Lemma run_gva first i :
  is_u64 first → 0 ≤ i → Z.shiftr first (page_shift g) + i < 2 ^ (64 - page_shift g) →
  let page := Z.shiftr first (page_shift g) + i in
  let gva := first + i * page_size g in
  u64 page = page ∧ Z.shiftr gva (page_shift g) = page ∧
  Z.land (Z.lor (u64 (Z.shiftl page (page_shift g))) (Z.land first (page_offset_mask g))) (page_offset_mask g) =
    Z.land gva (page_offset_mask g).
Proof.
  intros Hf Hi Hp page gva. subst page gva. rewrite !page_offset_land. unfold page_size. rewrite Z.shiftl_1_l.
  rewrite !Z.shiftr_div_pow2, Z.shiftl_mul_pow2 in * by (destruct Hg as [-> | ->]; lia).
  assert (0 ≤ first / 2 ^ page_shift g) by (apply Z.div_pos; [apply Hf|by apply Z.pow_pos_nonneg; destruct Hg; lia]).
  assert (0 < 2 ^ page_shift g) by (apply Z.pow_pos_nonneg; destruct Hg; lia).
  assert (2 ^ (64 - page_shift g) * 2 ^ page_shift g = 2 ^ 64) as E64
    by (rewrite <- Z.pow_add_r by (destruct Hg; lia); f_equal; lia).
  split_and!.
  - apply u64_small. unfold is_u64. nia.
  - by rewrite Z.div_add by lia.
  - rewrite u64_small by (unfold is_u64; nia). rewrite Z.lor_comm, lor_disjoint.
    + by rewrite !Z.mod_add, Z.mod_mod by lia.
    + destruct Hg; lia.
    + by apply Z.mod_pos_bound.
Qed.

Lemma run_page_ok root depth first i st :
  is_u64 first → 0 ≤ i → Z.shiftr first (page_shift g) + i < 2 ^ (64 - page_shift g) →
  walk_refusal g root depth = None → 0 ≤ depth → run_ok root (Z.to_nat depth) st →
  (held st = Z.to_nat depth → seen_index st !!! (Z.to_nat depth - 1)%nat ≠
     entry_index g (Z.to_nat depth) (Z.to_nat depth - 1) (Z.shiftr first (page_shift g) + i)) →
  let '(res, st') := run_page mem g root depth first i st in
  res = walk mem g root depth (first + i * page_size g) ∧ run_ok root (Z.to_nat depth) st' ∧
  (held st' = Z.to_nat depth →
   on_path (Z.to_nat depth) (Z.to_nat depth) (Z.shiftr first (page_shift g) + i) st').
Proof.
  intros Hf Hi Hp Href Hd Hst Hleaf. unfold run_page, walk, walk_recording_nodes. rewrite Href.
  destruct (run_gva first i Hf Hi Hp) as (E1 & E2 & E3). rewrite E1, E2, E3.
  assert (depth ≤ 4 ∧ depth ≠ 0) as [Hd4 Hd0].
  { unfold walk_refusal in Href. repeat case_match; try done. reflect_bools. unfold MAX_DEPTH in *. lia. }
  set (page := Z.shiftr first (page_shift g) + i) in *. set (d := Z.to_nat depth) in *.
  pose proof (run_levels_ok root d d page root 0 st []) as Hr. rewrite Nat.sub_diag in Hr.
  specialize (Hr ltac:(lia) Hst ltac:(split; [lia|intros; lia]) eq_refl ltac:(auto)).
  destruct (run_levels mem g d d page root 0 st) as [res st']. destruct Hr as (-> & Hst' & Hpath).
  destruct (walk_levels mem g d d page root 0 []) as [[f|[cur raw]] nodes]; cbn in *.
  - split_and!; [done| |intros; lia]. destruct Hst' as [H1 H2 H3 H4 H5]. split; cbn; try done; lia.
  - split_and!; [done|done|]. intros _. by eapply Hpath.
Qed.
End Equivalence.

(** The reference: each page on its own, with the plain walk. *)
Fixpoint visit_pages {S R} (f : Z → R) (n : nat) (i : Z) (visit : S → Z → R → bool * S) (s : S) : S :=
  match n with
  | O => s
  | Datatypes.S n => let '(more, s) := visit s i (f i) in if more then visit_pages f n (i + 1) visit s else s
  end.

Lemma visit_pages_map {S R R'} (f : Z → R) (h : R → R') n i (visit : S → Z → R' → bool * S) s :
  visit_pages f n i (λ s i r, visit s i (h r)) s = visit_pages (λ i, h (f i)) n i visit s.
Proof.
  revert i s. induction n as [|n IH]; intros i s; [done|]. cbn. destruct (visit s i _) as [[] s']; [apply IH|done].
Qed.

Lemma visit_pages_ext {S R} (f f' : Z → R) n i (visit : S → Z → R → bool * S) s :
  (∀ j, i ≤ j < i + Z.of_nat n → f j = f' j) → visit_pages f n i visit s = visit_pages f' n i visit s.
Proof.
  revert i s. induction n as [|n IH]; intros i s Hf; [done|]. cbn. rewrite <- Hf by lia.
  destruct (visit s i _) as [[] s']; [|done]. apply IH. intros. apply Hf. lia.
Qed.

Lemma walk_refusal_geometry g root depth :
  walk_refusal g root depth = None → page_shift g = 12 ∨ page_shift g = 14.
Proof. unfold walk_refusal, validate. repeat case_match; try done; simplify_eq. intros _.
  apply andb_false_iff in H0 as [?|?]; reflect_bools; auto. Qed.

Lemma run_pages_ok `{GuestMemoryLaws M} (mem : M) g {S} root depth first n i st
    (visit : S → Z → WalkFailure + Walk → bool * S) s :
  walk_refusal g root depth = None → 0 ≤ depth → is_u64 first → 0 ≤ i →
  Z.shiftr first (page_shift g) + i + Z.of_nat n ≤ 2 ^ (64 - page_shift g) →
  run_ok mem g root (Z.to_nat depth) st →
  (held st = Z.to_nat depth → seen_index st !!! (Z.to_nat depth - 1)%nat ≠
     entry_index g (Z.to_nat depth) (Z.to_nat depth - 1) (Z.shiftr first (page_shift g) + i)) →
  run_pages mem g root depth first n i st visit s =
    visit_pages (λ i, walk mem g root depth (first + i * page_size g)) n i visit s.
Proof.
  intros Href Hd Hf. pose proof (walk_refusal_geometry _ _ _ Href) as Hg.
  revert i st s. induction n as [|n IH]; intros i st s Hi Hp Hst Hleaf; [done|]. cbn [run_pages visit_pages].
  pose proof (run_page_ok mem g Hg root depth first i st Hf Hi ltac:(lia) Href Hd Hst Hleaf) as Hr.
  destruct (run_page mem g root depth first i st) as [res st']. destruct Hr as (-> & Hst' & Hpath).
  destruct (visit s i _) as [[] s']; [|done]. apply IH; [lia|lia|done|].
  intros Hh. destruct (Hpath Hh) as [_ Hidx]. rewrite Hidx.
  - rewrite Z.add_assoc. apply not_eq_sym, leaf_index_moves; [done|].
    assert (0 ≤ Z.shiftr first (page_shift g)) by (apply Z.shiftr_nonneg, Hf). lia.
  - unfold walk_refusal in Href. repeat case_match; try done. reflect_bools. lia.
Qed.

(** C26: The batched walk of a run of pages, which keeps the upper levels of the last
    descent and reads up to 64 leaf entries at once, calls its visitor with exactly what
    the plain walk answers for each page on its own, in order, failures and their
    positions included, and stops when the visitor says so. *)
Theorem walk_run_exact `{GuestMemoryLaws M} (mem : M) g {S} root depth first pages
    (visit : S → Z → WalkFailure + Walk → bool * S) s :
  walk_refusal g root depth = None → 0 ≤ depth → is_u64 first → 0 ≤ pages →
  Z.shiftr first (page_shift g) + pages ≤ 2 ^ (64 - page_shift g) →
  walk_run mem g root depth first pages visit s =
    visit_pages (λ i, walk mem g root depth (first + i * page_size g)) (Z.to_nat pages) 0 visit s.
Proof.
  intros Href Hd Hf Hp Hb. unfold walk_run. rewrite Href. apply run_pages_ok; try done; try lia.
  - apply run_start_ok.
  - cbn. intros Hz. unfold walk_refusal in Href. repeat case_match; try done. reflect_bools. lia.
Qed.

(** ** Building trees *)
Record Builder := mkBuilder { b_geometry : Geometry; b_pages : list Z; next_pfn : Z }.
#[export] Instance eta_builder : Settable Builder := λ b, mkBuilder (b_geometry b) (b_pages b) (next_pfn b).

Definition builder_new (g : Geometry) (buf : list Z) : option Builder :=
  if (page_size g <=? Z.of_nat (length buf)) && (Z.of_nat (length buf) mod page_size g =? 0)
  then Some (mkBuilder g (replicate (length buf) 0) 1) else None.

Definition alloc_page (b : Builder) : option (Z * Builder) :=
  if (next_pfn b + 1) * page_size (b_geometry b) <=? Z.of_nat (length (b_pages b))
  then Some (next_pfn b, b <| next_pfn := next_pfn b + 1 |>) else None.

Definition slot (b : Builder) (node index : Z) : nat := Z.to_nat (entry_addr (b_geometry b) node index).

Definition poke_entry (b : Builder) (node index raw : Z) : option Builder :=
  match splice_at (slot b node index) (le_bytes 4 raw) (b_pages b) with
  | Some pages => Some (b <| b_pages := pages |>)
  | None => None
  end.

Definition set_entry (b : Builder) (node index pfn : Z) (flag : bool) : option Builder :=
  if negb (Z.land pfn PTE_FLAG_MASK =? 0) then None
  else match slice_at (slot b node index) 4 (b_pages b) with
  | Some old =>
      if le_val old =? 0 then poke_entry b node index (Z.lor pfn (if flag then PTE_FLAG_MASK else 0)) else None
  | None => None
  end.

Definition child_of (b : Builder) (node index : Z) : option Z :=
  match slice_at (slot b node index) 4 (b_pages b) with
  | Some old => Some (Z.land (le_val old) PTE_PFN_MASK)
  | None => None
  end.

(** The loop of [map_into], [n] levels left. *)
Fixpoint map_levels (b : Builder) (depth n : nat) (page node leaf : Z) : option Builder :=
  match n with
  | O => Some b
  | S n =>
      let index := entry_index (b_geometry b) depth (depth - S n) page in
      match n with
      | O => set_entry b node index leaf false
      | S _ =>
          match child_of b node index with
          | None => None
          | Some child =>
              if child =? 0 then
                match alloc_page b with
                | None => None
                | Some (child, b) =>
                    match set_entry b node index child false with
                    | None => None
                    | Some b => map_levels b depth n page child leaf
                    end
                end
              else map_levels b depth n page child leaf
          end
      end
  end.
Definition map_into (b : Builder) (root depth page leaf : Z) : option Builder :=
  map_levels b (Z.to_nat depth) (Z.to_nat depth) page root leaf.

Definition map_page (b : Builder) (depth page leaf : Z) : option (Z * Builder) :=
  match alloc_page b with
  | None => None
  | Some (root, b) => match map_into b root depth page leaf with Some b => Some (root, b) | None => None end
  end.

(** A builder between calls: page zero reserved, and an image whose frame numbers are
    32-bit. *)
Record builder_ok (b : Builder) : Prop := {
  bo_geometry : page_shift (b_geometry b) = 12 ∨ page_shift (b_geometry b) = 14;
  bo_bytes : Forall is_u8 (b_pages b);
  bo_size : Z.of_nat (length (b_pages b)) < 2 ^ 44;
  bo_next : 0 < next_pfn b }.

Definition image (b : Builder) : SliceMemory := mkSlice (b_pages b).

Lemma image_word b a :
  builder_ok b → 0 ≤ a → u32_at (image b) a = le_val <$> slice_at (Z.to_nat a) 4 (b_pages b).
Proof.
  intros Hb Ha. unfold u32_at, read_at, slice_memory, slice_read, slice_at, image. cbn [slice_bytes].
  case_decide as Hl; cbn.
  - pose proof (bo_size _ Hb). destruct (_ || _) eqn:E.
    { apply orb_true_iff in E as [E|E]; reflect_bools; unfold UINT64_MAX in *; lia. }
    cbn. f_equal. f_equal. rewrite <- (list_fmap_id (slice _ _ _)) at 2.
    apply Forall_fmap_ext_1. apply Forall_slice.
    eapply Forall_impl; [apply (bo_bytes _ Hb)|]. intros x. apply u8_small.
  - by destruct (_ || _).
Qed.

Lemma entry_addr_nonneg g pfn index : 0 ≤ pfn → 0 ≤ index → 0 ≤ entry_addr g pfn index.
Proof. intros. unfold entry_addr, pfn_to_addr, PTE_SIZE. pose proof (proj2 (Z.shiftl_nonneg pfn (page_shift g))). lia. Qed.

Lemma entry_addr_aligned g pfn index :
  page_shift g = 12 ∨ page_shift g = 14 → entry_addr g pfn index mod 4 = 0.
Proof.
  intros Hg. unfold entry_addr, pfn_to_addr, PTE_SIZE. rewrite Z.mod_add by lia.
  rewrite Z.shiftl_mul_pow2 by (destruct Hg; lia).
  replace (2 ^ page_shift g) with (2 ^ (page_shift g - 2) * 4).
  - by rewrite Z.mul_assoc, Z.mod_mul.
  - change 4 with (2 ^ 2). rewrite <- Z.pow_add_r by (destruct Hg; lia). f_equal. lia.
Qed.

(** [b'] has every entry [b] has. *)
Definition grows (b b' : Builder) : Prop :=
  b_geometry b' = b_geometry b ∧
  ∀ a pte, 0 ≤ a → a mod 4 = 0 → u32_at (image b) a = Some pte → pte ≠ 0 → u32_at (image b') a = Some pte.

#[export] Instance grows_preorder : PreOrder grows.
Proof.
  split; [by split; auto|]. intros b1 b2 b3 [E1 H1] [E2 H2]. split; [congruence|]. eauto.
Qed.

Lemma alloc_page_ok b child b' :
  builder_ok b → alloc_page b = Some (child, b') → builder_ok b' ∧ grows b b' ∧ is_u32 child ∧ child ≠ 0.
Proof.
  intros Hb. unfold alloc_page. destruct (_ <=? _) eqn:E; [|done]. intros [= <- <-]. destruct Hb as [H1 H2 H3 H4].
  split_and!; [|by split| |lia]; [split; cbn; try done; lia|]. reflect_bools.
  unfold page_size in E. rewrite Z.shiftl_1_l in E. unfold is_u32. destruct H1 as [E1|E1]; rewrite E1 in E; lia.
Qed.

(** A new entry reads back and replaces no other. *)
Lemma set_entry_ok b node index pfn flag b' :
  builder_ok b → 0 ≤ node → 0 ≤ index → is_u32 pfn → set_entry b node index pfn flag = Some b' →
  builder_ok b' ∧ grows b b' ∧ Z.land pfn PTE_FLAG_MASK = 0 ∧
  u32_at (image b') (entry_addr (b_geometry b) node index) = Some (Z.lor pfn (if flag then PTE_FLAG_MASK else 0)).
Proof.
  intros Hb Hn Hi Hp. unfold set_entry, poke_entry, splice_at, slice_at, slot.
  destruct (negb _) eqn:Ef; [done|]. reflect_bools.
  set (a := entry_addr (b_geometry b) node index). assert (0 ≤ a) as Ha by by apply entry_addr_nonneg.
  assert (a mod 4 = 0) as Hm by by apply entry_addr_aligned, (bo_geometry _ Hb).
  case_decide as Hl; [|done]. destruct (_ =? 0) eqn:E0; [|done]. reflect_bools.
  rewrite length_le_bytes, decide_True by lia. intros <-%Some_inj.
  set (entry := Z.lor _ _) in *.
  assert (le_val (le_bytes 4 entry) = entry) as Hv.
  { rewrite le_val_bytes. apply Z.mod_small. apply (lor_u32 pfn); [done|]. by destruct flag. }
  pose proof (length_le_bytes 4 entry) as Hbl. pose proof (le_bytes_u8 4 entry) as Hbu.
  generalize dependent (le_bytes 4 entry). intros bs Hv Hbl Hbu.
  assert (builder_ok (b <| b_pages := splice (Z.to_nat a) bs (b_pages b) |>)) as Hb'.
  { destruct Hb as [H1 H2 H3 H4]. split; cbn; try done; [by apply Forall_splice|].
    rewrite length_splice; [done|lia]. }
  split_and!; [done| |done|].
  - split; [done|]. intros x pte Hx Hxm Hu H0. revert Hu. rewrite !image_word by done. cbn.
    unfold slice_at. case_decide as Hl'; [|done]. cbn. intros [= Hv'].
    rewrite length_splice, decide_True by lia. cbn. f_equal.
    destruct (decide (x = a)) as [->|Hne]; [congruence|].
    rewrite slice_splice_ne; [done|lia|]. revert Hne Hm Hxm. clear -Ha Hx Hbl. Z.div_mod_to_equations. lia.
  - rewrite image_word by done. cbn. unfold slice_at.
    rewrite length_splice, decide_True by lia. cbn. by rewrite slice_splice_eq, Hv by lia.
Qed.

Lemma pfn_mask_flag pfn : is_u32 pfn → Z.land pfn PTE_FLAG_MASK = 0 → Z.land pfn PTE_PFN_MASK = pfn.
Proof.
  intros Hp Hf. unfold PTE_PFN_MASK, PTE_FLAG_MASK, is_u32 in *.
  change 0x80000000 with ((2 ^ 1 - 1) * 2 ^ 31) in Hf. rewrite land_field_mask in Hf by lia.
  change 0x7fffffff with (2 ^ 31 - 1). rewrite land_ones_mod by lia. revert Hf. Z.div_mod_to_equations. lia.
Qed.

Lemma next_range pte : 0 ≤ Z.land pte PTE_PFN_MASK ≤ PTE_PFN_MASK.
Proof. by apply land_range. Qed.

Lemma walk_levels_grows b b' g depth n page current raw nodes x :
  builder_ok b → builder_ok b' → grows b b' → page_shift g = 12 ∨ page_shift g = 14 → 0 ≤ current →
  (walk_levels (image b) g depth n page current raw nodes).1 = inr x →
  (walk_levels (image b') g depth n page current raw nodes).1 = inr x.
Proof.
  intros Hb Hb' [_ Hgr] Hg. revert current raw nodes. induction n as [|n IH]; intros current raw nodes Hc; [done|].
  cbn. destruct (u32_at (image b) _) as [pte|] eqn:Eu; [|done]. destruct (_ =? 0) eqn:E0; [done|]. reflect_bools.
  pose proof (entry_index_range g Hg depth (depth - S n) page).
  rewrite (Hgr _ pte); [| |by apply entry_addr_aligned|done|].
  - destruct (Z.land pte PTE_PFN_MASK =? 0) eqn:E0'; reflect_bools; [done|]. apply IH. apply next_range.
  - apply entry_addr_nonneg; lia.
  - intros ->. by rewrite Z.land_0_l in E0.
Qed.

Lemma child_of_word b node index child :
  builder_ok b → 0 ≤ node → 0 ≤ index → child_of b node index = Some child →
  ∃ pte, u32_at (image b) (entry_addr (b_geometry b) node index) = Some pte ∧ Z.land pte PTE_PFN_MASK = child.
Proof.
  intros Hb Hn Hi. unfold child_of, slot. rewrite image_word by (try done; by apply entry_addr_nonneg).
  destruct (slice_at _ _ _) as [old|]; [|done]. intros [= <-]. cbn. eauto.
Qed.

(** One step of the walk, through an entry that is there. *)
Lemma walk_levels_step b g depth n page current raw nodes pte :
  u32_at (image b) (entry_addr g current (entry_index g depth (depth - S n) page)) = Some pte →
  Z.land pte PTE_PFN_MASK ≠ 0 →
  (walk_levels (image b) g depth (S n) page current raw nodes).1 =
    (walk_levels (image b) g depth n page (Z.land pte PTE_PFN_MASK) pte (push nodes current)).1.
Proof. intros Hu H0. cbn. rewrite Hu. by destruct (_ =? 0) eqn:E; reflect_bools. Qed.

Lemma map_levels_ok b depth n page node leaf b' raw nodes :
  builder_ok b → 0 ≤ node → is_u32 leaf → leaf ≠ 0 → (0 < n)%nat → map_levels b depth n page node leaf = Some b' →
  builder_ok b' ∧ grows b b' ∧
  ∃ pte, (walk_levels (image b') (b_geometry b) depth n page node raw nodes).1 = inr (leaf, pte).
Proof.
  revert b node raw nodes. induction n as [|n IH]; intros b node raw nodes Hb Hn Hl Hl0 Hpos; [lia|].
  cbn [map_levels]. pose proof (entry_index_range _ (bo_geometry _ Hb) depth (depth - S n) page) as Hi.
  set (index := entry_index (b_geometry b) depth (depth - S n) page) in *. assert (0 ≤ index) as Hi0 by lia.
  destruct n as [|n].
  - intros Hs. destruct (set_entry_ok _ _ _ _ _ _ Hb Hn Hi0 Hl Hs) as (Hb' & Hgr & Hf & Hu).
    split_and!; try done. rewrite Z.lor_0_r in Hu. exists leaf.
    rewrite (walk_levels_step _ _ _ _ _ _ _ _ leaf Hu); rewrite pfn_mask_flag by done; done.
  - (* through an entry that is there, old or new *)
    assert (∀ b2 pte, builder_ok b2 → grows b b2 →
      u32_at (image b2) (entry_addr (b_geometry b) node index) = Some pte → Z.land pte PTE_PFN_MASK ≠ 0 →
      map_levels b2 depth (S n) page (Z.land pte PTE_PFN_MASK) leaf = Some b' →
      builder_ok b' ∧ grows b b' ∧
      ∃ pte, (walk_levels (image b') (b_geometry b) depth (S (S n)) page node raw nodes).1 = inr (leaf, pte)) as Hstep.
    { intros b2 pte Hb2 Hg2 Hu H0 Hm.
      destruct (IH b2 _ pte (push nodes node) Hb2 (proj1 (next_range pte)) Hl Hl0 ltac:(lia) Hm) as (Hb' & Hg3 & Hw).
      assert (b_geometry b2 = b_geometry b) as Eg by apply Hg2. rewrite Eg in Hw.
      split_and!; [done|by etrans|]. rewrite (walk_levels_step _ _ _ _ _ _ _ _ pte); [done| |done].
      apply Hg3; [by apply entry_addr_nonneg|by apply entry_addr_aligned, (bo_geometry _ Hb)|done|].
      intros ->. by rewrite Z.land_0_l in H0. }
    destruct (child_of b node index) as [child|] eqn:Ec; [|done].
    destruct (child_of_word _ _ _ _ Hb Hn Hi0 Ec) as (pte & Hu & <-).
    destruct (_ =? 0) eqn:E0; reflect_bools; [|by apply Hstep].
    destruct (alloc_page b) as [[child b1]|] eqn:Ea; [|done].
    destruct (alloc_page_ok _ _ _ Hb Ea) as (Hb1 & Hg1 & Hc32 & Hc0).
    destruct (set_entry b1 node index child false) as [b2|] eqn:Es; [|done].
    destruct (set_entry_ok _ _ _ _ _ _ Hb1 Hn Hi0 Hc32 Es) as (Hb2 & Hg2 & Hf & Hu2).
    rewrite Z.lor_0_r, (proj1 Hg1) in Hu2. pose proof (Hstep b2 child Hb2 ltac:(by etrans) Hu2) as Hs2.
    rewrite pfn_mask_flag in Hs2 by done. by apply Hs2.
Qed.

(** An address a builder has mapped resolves to the frame it was mapped to, at the
    address's own offset in the page, and every address that resolved before still
    resolves to the same place. *)
Theorem map_into_walk b root depth page leaf b' gva :
  builder_ok b → walk_refusal (b_geometry b) root depth = None → 0 ≤ root → 0 ≤ depth →
  is_u32 leaf → leaf ≠ 0 → Z.shiftr gva (page_shift (b_geometry b)) = page →
  map_into b root depth page leaf = Some b' →
  (∃ w, walk (image b') (b_geometry b) root depth gva = inr w ∧ leaf_pfn w = leaf ∧
        addr w = leaf * page_size (b_geometry b) + gva mod page_size (b_geometry b)) ∧
  ∀ r d gva' w, 0 ≤ r → walk (image b) (b_geometry b) r d gva' = inr w →
                walk (image b') (b_geometry b) r d gva' = inr w.
Proof.
  intros Hb Href Hr Hd Hl Hl0 Hp Hm. unfold map_into in Hm.
  assert (0 < Z.to_nat depth)%nat as Hd0.
  { unfold walk_refusal in Href. repeat case_match; try done. reflect_bools. lia. }
  destruct (map_levels_ok _ _ _ _ _ _ _ 0 [] Hb Hr Hl Hl0 Hd0 Hm) as (Hb' & Hgr & pte & Hw).
  pose proof (bo_geometry _ Hb) as Hg. split.
  - unfold walk, walk_recording_nodes. rewrite Href, Hp.
    destruct (walk_levels _ _ _ _ _ _ _ _) as [[f|[cur raw]] nodes]; cbn in *; simplify_eq.
    eexists. split; [done|]. cbn. split; [done|]. unfold pfn_to_addr, page_size.
    rewrite page_offset_land by done. rewrite Z.shiftl_mul_pow2, Z.shiftl_1_l by (destruct Hg; lia). done.
  - intros r d gva' w Hr'. unfold walk, walk_recording_nodes. destruct (walk_refusal _ r d); [done|].
    destruct (walk_levels (image b) _ _ _ _ r _ _) as [[f|[cur raw]] nodes] eqn:E; cbn; [done|].
    pose proof (walk_levels_grows b b' (b_geometry b) _ _ _ r 0 [] (cur, raw) Hb Hb' Hgr Hg Hr'
      (f_equal fst E)) as E'.
    destruct (walk_levels (image b') _ _ _ _ r _ _) as [[f'|[cur' raw']] nodes']; cbn in *; by simplify_eq.
Qed.

(** ** A concrete tree: two levels over four pages of memory *)
Definition demo_builder : Builder := mkBuilder X86_64 (replicate (Z.to_nat 0x4000) 0) 2.
Definition demo_tree : Builder := default demo_builder (map_into demo_builder 1 2 0x403 0x55).

Lemma demo_builder_ok : builder_ok demo_builder.
Proof.
  split; cbn [demo_builder b_geometry b_pages next_pfn]; [by left| |by rewrite length_replicate|done].
  by apply Forall_replicate.
Qed.

Lemma map_into_walk_witness :
  ∃ w, walk (image demo_tree) X86_64 1 2 0x403abc = inr w ∧ addr w = 0x55abc.
Proof.
  destruct (map_into_walk demo_builder 1 2 0x403 0x55 demo_tree 0x403abc) as [(w & E & _ & Ea) _];
    [exact demo_builder_ok|reflexivity|lia|lia|decide_done|lia|reflexivity|vm_compute; reflexivity|].
  exists w. split; [exact E|]. rewrite Ea. reflexivity.
Defined.

Lemma walk_run_exact_witness :
  let collect (s : list bool) (i : Z) (r : WalkFailure + Walk) := (true, s ++ [match r with inl _ => false | inr _ => true end]) in
  walk_run (image demo_tree) X86_64 1 2 0x402000 3 collect [] =
    visit_pages (λ i, walk (image demo_tree) X86_64 1 2 (0x402000 + i * page_size X86_64)) 3 0 collect [] ∧
  walk_run (image demo_tree) X86_64 1 2 0x402000 3 collect [] = [false; true; false].
Proof.
  intros collect. split; [|vm_compute; reflexivity].
  apply (walk_run_exact (image demo_tree) X86_64 1 2 0x402000 3 collect []);
    [reflexivity|lia|decide_done|lia|vm_compute; discriminate].
Defined.
