(* ===== verification/Paging.v ===== *)
(** Resolving guest addresses above the page-table format: resolve.rs and span.rs of
    src/reims-vgpu/crates/reims-vgpu-paging/src.

    A task's directory names a root and a depth; a span of a task's addresses is cut
    into the guest-physical bytes of its pages ([span_chunks]) or listed as page bases
    ([span_page_bases]), as a whole or not at all.  Arithmetic is that of the release
    profile, which wraps. *)
From S2P Require Import Prelude PageTable.

Record Task := mkTask { active : bool; directory_pfn : Z }.
Record TaskRoot := mkRoot { root_directory : Z; root_pfn : Z; root_depth : Z }.

Inductive ResolveStatus :=
| StatusOk | ErrArgs | ErrInactiveTask | ErrNoDirectory | ErrDirectoryRead | ErrZeroRootPfn | ErrZeroDepth
| ErrDepthTooDeep | ErrPageTableRead | ErrZeroPfn | ErrMalformedPte | ErrUnsupportedGeometry.
#[export] Instance ResolveStatus_eq_dec : EqDecision ResolveStatus.
Proof. solve_decision. Defined.

Definition resolve_status_of (e : WalkError) : ResolveStatus :=
  match e with
  | UnsupportedGeometry => ErrUnsupportedGeometry
  | ZeroRootPfn => ErrZeroRootPfn
  | ZeroDepth => ErrZeroDepth
  | DepthTooDeep => ErrDepthTooDeep
  | TableRead => ErrPageTableRead
  | NotPresent => ErrZeroPfn
  | MalformedPte => ErrMalformedPte
  end.

Definition geometry_for_page_shift (shift : Z) : option Geometry :=
  if shift =? page_shift X86_64 then Some X86_64
  else if shift =? page_shift ARM64E then Some ARM64E else None.

Record Translation := mkTranslation {
  tr_status : ResolveStatus; tr_gva : Z; tr_gpa : Z; gva_page_index : Z; gpa_page : Z; tr_directory : Z;
  tr_root : Z; tr_depth : Z; tr_leaf_pfn : Z; tr_level : Z; tr_entry_index : Z; tr_raw_pte : Z }.
#[export] Instance eta_translation : Settable Translation := λ t,
  mkTranslation (tr_status t) (tr_gva t) (tr_gpa t) (gva_page_index t) (gpa_page t) (tr_directory t)
    (tr_root t) (tr_depth t) (tr_leaf_pfn t) (tr_level t) (tr_entry_index t) (tr_raw_pte t).

Record RangeCoverage := mkCoverage {
  rc_pages : Z; present : Z; absent : Z; undecidable : Z;
  first_absent_index : Z; first_absent_level : Z; rc_depth : Z }.
#[export] Instance eta_coverage : Settable RangeCoverage := λ c,
  mkCoverage (rc_pages c) (present c) (absent c) (undecidable c) (first_absent_index c) (first_absent_level c)
    (rc_depth c).

Inductive SpanRefusal := Setup (st : ResolveStatus) | Page (st : ResolveStatus).
Record SpanChunk := mkChunk { gpa : Z; offset : Z; clen : Z }.

(** How many pages [gva, gva + span) touches. *)
Definition pages_spanned (gva span page : Z) : Z :=
  let n := u64 (gva mod page + span) in
  n / page + (if n mod page =? 0 then 0 else 1).

Section Resolve.
Context `{GuestMemory M} (mem : M) (g : Geometry).

Definition read_task_root (task : Task) : ResolveStatus + TaskRoot :=
  match validate g with
  | inl _ => inl ErrUnsupportedGeometry
  | inr _ =>
      if negb (active task) then inl ErrInactiveTask
      else if directory_pfn task =? 0 then inl ErrNoDirectory
      else match read_directory mem g (directory_pfn task) with
      | inl _ => inl ErrDirectoryRead
      | inr (root, depth) => inr (mkRoot (directory_pfn task) root depth)
      end
  end.

(** The addresses of the nodes a descent reads, into an array of [MAX_DEPTH]. *)
Definition task_node_gpas (task : Task) (gva : Z) (out : list Z) : Z * list Z :=
  match read_task_root task with
  | inl _ => (0, out)
  | inr root =>
      let pfns := (walk_recording_nodes mem g (root_pfn root) (root_depth root) gva []).2 in
      let gpas := pfn_to_addr g <$> pfns in
      (Z.of_nat (length pfns), take (length out) gpas ++ drop (length gpas) out)
  end.

Definition translate_root (root depth gva : Z) : Translation :=
  let out := mkTranslation StatusOk gva 0 0 0 0 root depth 0 0 0 0 in
  match validate g with
  | inl _ => out <| tr_status := ErrUnsupportedGeometry |>
  | inr _ =>
      let out := out <| gva_page_index := Z.shiftr gva (page_shift g) |> in
      match walk mem g root depth gva with
      | inr w =>
          mkTranslation StatusOk gva (addr w) (gva_page_index out) (addr_page w) 0 root depth (leaf_pfn w)
            (depth - 1) (Z.land (page_index w) (index_mask g)) (raw_pte w)
      | inl f =>
          mkTranslation (resolve_status_of (error f)) gva 0 (gva_page_index out) 0 0 root depth 0
            (level f) (fail_entry f) (fail_pte f)
      end
  end.

Definition translate_root_run {S} (root depth first_gva pages : Z)
    (visit : S → Z → ResolveStatus + Z → bool * S) (s : S) : S :=
  match validate g with
  | inl _ => s
  | inr _ =>
      if (root =? 0) || (depth =? 0) then s
      else walk_run mem g root depth first_gva pages
        (λ s i walked, visit s i match walked with
                                 | inr w => inr (addr w)
                                 | inl f => inl (resolve_status_of (error f))
                                 end) s
  end.

Definition coverage_visit (out : RangeCoverage) (i : Z) (walked : WalkFailure + Walk) : bool * RangeCoverage :=
  (true, match walked with
         | inr _ => out <| present := present out + 1 |>
         | inl f =>
             if decide (error f = NotPresent) then
               let out := if absent out =? 0
                          then out <| first_absent_index := i |> <| first_absent_level := level f |> else out in
               out <| absent := absent out + 1 |>
             else out <| undecidable := undecidable out + 1 |>
         end).

Definition range_coverage (task : Task) (first_gva pages : Z) : option RangeCoverage :=
  match read_task_root task with
  | inl _ => None
  | inr root =>
      if (root_pfn root =? 0) || (root_depth root =? 0) then None
      else Some (walk_run mem g (root_pfn root) (root_depth root) first_gva pages coverage_visit
                   (mkCoverage pages 0 0 0 0 0 (root_depth root)))
  end.

(** ** Spans *)
Definition walk_span {S} (task : Task) (gva span : Z) (visit : S → Z → ResolveStatus + Z → bool * S) (s : S) :
    (ResolveStatus + unit) * S :=
  match validate g with
  | inl _ => (inl ErrUnsupportedGeometry, s)
  | inr _ =>
      match read_task_root task with
      | inl st => (inl st, s)
      | inr root =>
          if root_pfn root =? 0 then (inl ErrZeroRootPfn, s)
          else if root_depth root =? 0 then (inl ErrZeroDepth, s)
          else if span =? 0 then (inr (), s)
          else
            let mask := page_offset_mask g in
            (inr (), translate_root_run (root_pfn root) (root_depth root) (Z.ldiff gva mask)
               (pages_spanned gva span (page_size g))
               (λ s i r, visit s i match r with inr gpa => inr (Z.ldiff gpa mask) | inl st => inl st end) s)
      end
  end.

(** What the chunk visitor captures: the bytes done, the refusal, and the caller's state. *)
Record chunk_state (S : Type) := mkCS { done : Z; refused : option ResolveStatus; caller : S }.
Arguments mkCS {S}.
Arguments done {S}.
Arguments refused {S}.
Arguments caller {S}.

Definition chunk_visit {S} (gva len : Z) (visit : S → SpanChunk → bool * S)
    (cs : chunk_state S) (i : Z) (r : ResolveStatus + Z) : bool * chunk_state S :=
  match r with
  | inl st => (false, mkCS (done cs) (Some st) (caller cs))
  | inr page_base =>
      let cur := Z.min (gva + done cs) UINT64_MAX in
      let in_page := Z.land cur (page_offset_mask g) in
      let n := Z.min (len - done cs) (page_size g - in_page) in
      let '(more, s) := visit (caller cs) (mkChunk (page_base + in_page) (done cs) n) in
      (more, mkCS (done cs + n) (refused cs) s)
  end.

Definition visit_span_chunks {S} (task : Task) (gva len : Z) (visit : S → SpanChunk → bool * S) (s : S) :
    (SpanRefusal + unit) * S :=
  if len =? 0 then (inr (), s)
  else
    match walk_span task gva len (chunk_visit gva len visit) (mkCS 0 None s) with
    | (inl st, cs) => (inl (Setup st), caller cs)
    | (inr _, cs) =>
        match refused cs with
        | Some st => (inl (Page st), caller cs)
        | None => (inr (), caller cs)
        end
    end.

Definition span_chunks (task : Task) (gva len : Z) : SpanRefusal + list SpanChunk :=
  match visit_span_chunks task gva len (λ out chunk, (true, out ++ [chunk])) [] with
  | (inl e, _) => inl e
  | (inr _, out) => inr out
  end.

Definition bases_visit (s : list Z * option ResolveStatus) (i : Z) (r : ResolveStatus + Z) :
    bool * (list Z * option ResolveStatus) :=
  match r with
  | inr base => (true, (s.1 ++ [base], s.2))
  | inl st => (false, (s.1, Some st))
  end.

Definition span_page_bases (task : Task) (gva span : Z) : SpanRefusal + list Z :=
  match walk_span task gva span bases_visit ([], None) with
  | (inl st, _) => inl (Setup st)
  | (inr _, (_, Some st)) => inl (Page st)
  | (inr _, (out, None)) => inr out
  end.
End Resolve.
Arguments mkCS {S}.
Arguments done {S}.
Arguments refused {S}.
Arguments caller {S}.

(** ** The reference: one address at a time *)
Section Spans.
Context `{GuestMemoryLaws M} (mem : M) (g : Geometry) (task : Task).

(** The root a task's addresses resolve under, or why none does. *)
Definition task_root : ResolveStatus + TaskRoot :=
  match read_task_root mem g task with
  | inl st => inl st
  | inr root =>
      if root_pfn root =? 0 then inl ErrZeroRootPfn
      else if root_depth root =? 0 then inl ErrZeroDepth else inr root
  end.

(** Where the byte at a task's address lies in guest-physical memory. *)
Definition translate (gva : Z) : ResolveStatus + Z :=
  match task_root with
  | inl st => inl st
  | inr root =>
      match walk mem g (root_pfn root) (root_depth root) gva with
      | inl f => inl (resolve_status_of (error f))
      | inr w => inr (addr w)
      end
  end.

Lemma u32_at_nonneg a x : u32_at mem a = Some x → 0 ≤ x.
Proof.
  unfold u32_at. destruct (read_at mem a 4) as [bs|] eqn:E; [|done]. cbn. intros [= <-].
  apply le_val_range. by eapply read_at_u8.
Qed.

Lemma task_root_ok root :
  task_root = inr root →
  (page_shift g = 12 ∨ page_shift g = 14) ∧ 0 < root_pfn root ∧ 0 < root_depth root.
Proof.
  unfold task_root, read_task_root, read_directory, validate.
  destruct (negb (page_shift g =? 12) && _) eqn:Eg; [done|].
  repeat (case_match; try done); simplify_eq/=; intros [= <-]; cbn in *; reflect_bools.
  repeat match goal with E : u32_at mem _ = Some _ |- _ => apply u32_at_nonneg in E end.
  split; [|lia]. apply andb_false_iff in Eg as [?|?]; reflect_bools; auto.
Qed.

(** A visitor that stops at a failure sees the same of [walk_run], whatever the root. *)
Lemma walk_run_stops {S} root depth first pages (visit : S → Z → WalkFailure + Walk → bool * S) s :
  (page_shift g = 12 ∨ page_shift g = 14) → 0 ≤ depth → is_u64 first → 0 < pages →
  Z.shiftr first (page_shift g) + pages ≤ 2 ^ (64 - page_shift g) →
  (∀ s i f, (visit s i (inl f)).1 = false) →
  walk_run mem g root depth first pages visit s =
    visit_pages (λ i, walk mem g root depth (first + i * page_size g)) (Z.to_nat pages) 0 visit s.
Proof.
  intros Hg Hd Hf Hp Hb Hstop. destruct (walk_refusal g root depth) as [f|] eqn:E.
  - destruct (Z.to_nat pages) as [|n] eqn:En; [lia|]. unfold walk_run. rewrite E. cbn.
    unfold walk, walk_recording_nodes. rewrite E. cbn. specialize (Hstop s 0 f).
    by destruct (visit s 0 (inl f)) as [[] ?].
  - unfold walk_run. rewrite E. apply run_pages_ok; try done; try lia; [apply run_start_ok|].
    cbn. intros Hz. unfold walk_refusal in E. repeat case_match; try done. reflect_bools. lia.
Qed.

(** Addresses of one page resolve alike. *)
Lemma walk_page root depth a b w :
  (page_shift g = 12 ∨ page_shift g = 14) →
  Z.shiftr a (page_shift g) = Z.shiftr b (page_shift g) → walk mem g root depth a = inr w →
  ∃ w', walk mem g root depth b = inr w' ∧ addr_page w' = addr_page w ∧
        addr w' = addr_page w + b mod page_size g.
Proof.
  intros Hg E. unfold walk, walk_recording_nodes. destruct (walk_refusal g root depth); [done|]. rewrite E.
  destruct (walk_levels _ _ _ _ _ _ _ _) as [[f|[cur raw]] nodes]; cbn; [done|]. intros [= <-].
  eexists. split; [done|]. cbn. split; [done|]. rewrite page_offset_land by done.
  unfold page_size. by rewrite Z.shiftl_1_l.
Qed.

Lemma walk_page_fails root depth a b f :
  Z.shiftr a (page_shift g) = Z.shiftr b (page_shift g) → walk mem g root depth a = inl f →
  walk mem g root depth b = inl f.
Proof.
  intros E. unfold walk, walk_recording_nodes. destruct (walk_refusal g root depth); [done|]. rewrite E.
  by destruct (walk_levels _ _ _ _ _ _ _ _) as [[f'|[cur raw]] nodes].
Qed.

Lemma page_size_pow : (page_shift g = 12 ∨ page_shift g = 14) → page_size g = 2 ^ page_shift g ∧ 4096 ≤ page_size g.
Proof. intros Hg. unfold page_size. rewrite Z.shiftl_1_l. destruct Hg as [-> | ->]; lia. Qed.

Lemma ldiff_mask a : (page_shift g = 12 ∨ page_shift g = 14) → Z.ldiff a (page_offset_mask g) = a - a mod page_size g.
Proof.
  intros Hg. destruct (page_size_pow Hg) as [E _].
  rewrite E, <- page_offset_land by done. rewrite Z.sub_nocarry_ldiff.
  - apply Z.bits_inj'. intros n Hn. rewrite !Z.ldiff_spec, Z.land_spec.
    by destruct (Z.testbit a n), (Z.testbit (page_offset_mask g) n).
  - apply Z.bits_inj'. intros n Hn. rewrite Z.ldiff_spec, Z.land_spec, Z.bits_0.
    by destruct (Z.testbit a n), (Z.testbit (page_offset_mask g) n).
Qed.

Lemma walk_addr_page root depth a w :
  (page_shift g = 12 ∨ page_shift g = 14) → walk mem g root depth a = inr w →
  addr_page w mod page_size g = 0 ∧ addr w = addr_page w + a mod page_size g.
Proof.
  intros Hg Ew. destruct (walk_page _ _ _ _ _ Hg eq_refl Ew) as (w' & Ew' & _ & Ea). rewrite Ew in Ew'. simplify_eq.
  split; [|done]. destruct (page_size_pow Hg) as [Ep _].
  revert Ew. unfold walk, walk_recording_nodes. destruct (walk_refusal g root depth); [done|].
  destruct (walk_levels _ _ _ _ _ _ _ _) as [[f|[cur raw]] nodes]; cbn; [done|]. intros [= <-]. cbn.
  unfold pfn_to_addr. rewrite Z.shiftl_mul_pow2, <- Ep by (destruct Hg; lia). apply Z.mod_mul. lia.
Qed.

(** The pages of a span: their number fits it and no smaller one does. *)
Lemma pages_spanned_bounds gva span p :
  0 < p → 0 ≤ gva → 0 < span → gva mod p + span < 2 ^ 64 →
  let n := pages_spanned gva span p in
  0 < n ∧ (n - 1) * p < gva mod p + span ≤ n * p.
Proof.
  intros Hp Hg Hs Hb. unfold pages_spanned. pose proof (Z.mod_pos_bound gva p Hp).
  rewrite u64_small by (unfold is_u64; lia). generalize dependent (gva mod p). intros o Ho Hb.
  pose proof (Z.div_mod (o + span) p). pose proof (Z.mod_pos_bound (o + span) p Hp).
  destruct (_ =? 0) eqn:E; reflect_bools; nia.
Qed.

(** The span walk as a visit of the pages' own answers. *)
Lemma walk_span_pages {S} root gva span (visit : S → Z → ResolveStatus + Z → bool * S) s :
  task_root = inr root → is_u64 gva → 0 < span → gva + span < 2 ^ 64 →
  (∀ s i st, (visit s i (inl st)).1 = false) →
  walk_span mem g task gva span visit s =
    (inr (), visit_pages (λ i, translate (gva - gva mod page_size g + i * page_size g))
               (Z.to_nat (pages_spanned gva span (page_size g))) 0 visit s).
Proof.
  intros Hr Hg Hs Hb Hstop. destruct (task_root_ok _ Hr) as (Hgeo & Hr0 & Hd0).
  destruct (page_size_pow Hgeo) as [Ep Hp4]. unfold is_u64 in Hg.
  pose proof (Z.mod_pos_bound gva (page_size g) ltac:(lia)) as Hm.
  pose proof (Z.mod_le gva (page_size g) ltac:(lia) ltac:(lia)) as Hml.
  destruct (pages_spanned_bounds gva span (page_size g)) as [Hn [Hn1 Hn2]]; [lia..|].
  set (n := pages_spanned gva span (page_size g)) in *.
  assert (validate g = inr ()) as Ev by (unfold validate; by destruct Hgeo as [-> | ->]).
  pose proof Hr as Hr'. unfold task_root in Hr'. unfold walk_span, translate_root_run. rewrite Ev.
  destruct (read_task_root mem g task) as [st|root'] eqn:Er; [done|].
  destruct (root_pfn root' =? 0) eqn:E1; [done|]. destruct (root_depth root' =? 0) eqn:E2; [done|].
  simplify_eq. cbn [orb]. destruct (span =? 0) eqn:E3; reflect_bools; [lia|]. f_equal.
  rewrite !ldiff_mask by done.
  rewrite walk_run_stops; try done; try lia.
  - rewrite visit_pages_map. apply visit_pages_ext. intros i Hi. unfold translate. rewrite Hr.
    destruct (walk mem g _ _ _) as [f|w] eqn:Ew; [done|]. f_equal. rewrite ldiff_mask by done.
    destruct (walk_addr_page _ _ _ _ Hgeo Ew) as [Ea ->].
    assert ((gva - gva mod page_size g + i * page_size g) mod page_size g = 0) as ->.
    { rewrite Z.mod_add by lia. rewrite Zminus_mod, Z.mod_mod, Z.sub_diag by lia. apply Z.mod_0_l. lia. }
    rewrite Z.add_0_r, Ea. lia.
  - unfold is_u64. lia.
  - rewrite Z.shiftr_div_pow2, <- Ep by (destruct Hgeo; lia).
    assert (2 ^ (64 - page_shift g) * page_size g = 2 ^ 64) as E64
      by (rewrite Ep, <- Z.pow_add_r by (destruct Hgeo; lia); f_equal; lia).
    pose proof (Z.div_mod gva (page_size g) ltac:(lia)) as Hdm.
    replace (gva - gva mod page_size g) with (gva / page_size g * page_size g) by lia.
    rewrite Z.div_mul by lia. nia.
Qed.

(** A page resolves as a whole. *)
Lemma translate_page root a o :
  task_root = inr root → a mod page_size g = 0 → 0 ≤ o < page_size g →
  translate (a + o) = match translate a with inr x => inr (x + o) | inl st => inl st end.
Proof.
  intros Hr Ha Ho. destruct (task_root_ok _ Hr) as (Hg & _). destruct (page_size_pow Hg) as [Ep Hp4].
  assert (Z.shiftr a (page_shift g) = Z.shiftr (a + o) (page_shift g)) as Es.
  { rewrite !Z.shiftr_div_pow2, <- Ep by (destruct Hg; lia). revert Ha. Z.div_mod_to_equations. nia. }
  unfold translate. rewrite Hr. destruct (walk mem g _ _ a) as [f|w] eqn:Ew.
  - by rewrite (walk_page_fails _ _ _ _ _ Es Ew).
  - destruct (walk_page _ _ _ _ _ Hg Es Ew) as (w' & -> & _ & ->).
    destruct (walk_addr_page _ _ _ _ Hg Ew) as [_ ->]. f_equal. rewrite Ha.
    rewrite Zplus_mod, Ha, Z.add_0_l, Z.mod_mod, Z.mod_small by lia. lia.
Qed.

Lemma translate_aligned root a x :
  task_root = inr root → a mod page_size g = 0 → translate a = inr x → x mod page_size g = 0.
Proof.
  intros Hr Ha. destruct (task_root_ok _ Hr) as (Hg & _). unfold translate. rewrite Hr.
  destruct (walk mem g _ _ a) as [f|w] eqn:Ew; [done|]. intros [= <-].
  destruct (walk_addr_page _ _ _ _ Hg Ew) as [E ->]. by rewrite Ha, Z.add_0_r.
Qed.

(** Chunks that follow each other from byte [a] to byte [b] of a buffer, none empty. *)
Fixpoint tiles (a b : Z) (cs : list SpanChunk) : Prop :=
  match cs with
  | [] => a = b
  | c :: cs => offset c = a ∧ 0 < clen c ∧ tiles (a + clen c) b cs
  end.

(** A chunk lies in one page, and its bytes are those of the span. *)
Definition chunk_ok (gva : Z) (c : SpanChunk) : Prop :=
  gpa c mod page_size g + clen c ≤ page_size g ∧
  ∀ k, offset c ≤ k < offset c + clen c → translate (gva + k) = inr (gpa c + (k - offset c)).

(** Where a refusal came from: the first byte of the span, from [d] on, that has no address. *)
Definition first_hole (gva d len : Z) (st : ResolveStatus) : Prop :=
  ∃ k, d ≤ k < len ∧ translate (gva + k) = inl st ∧ ∀ j, d ≤ j < k → ∃ x, translate (gva + j) = inr x.

Lemma first_hole_later gva d d' len st :
  d ≤ d' → (∀ j, d ≤ j < d' → ∃ x, translate (gva + j) = inr x) → first_hole gva d' len st → first_hole gva d len st.
Proof.
  intros Hd Hj (k & Hk & Ek & Hb). exists k. split; [lia|]. split; [done|]. intros j Hjk.
  destruct (decide (j < d')); [apply Hj|apply Hb]; lia.
Qed.

(** One page of the chunk walk: the bytes of the span in it. *)
Lemma chunk_page root gva len i s :
  task_root = inr root → is_u64 gva → gva + len < 2 ^ 64 → 0 ≤ i → i * page_size g < gva mod page_size g + len →
  0 < len →
  let P := page_size g in
  let d := Z.min len (Z.max 0 (i * P - gva mod P)) in
  let d' := Z.min len (Z.max 0 ((i + 1) * P - gva mod P)) in
  let a := gva - gva mod P + i * P in
  d < d' ∧ a mod P = 0 ∧ a ≤ gva + d ∧ gva + d' ≤ a + P ∧
  match translate a with
  | inr b => chunk_visit g gva len (λ out c, (true, out ++ [c])) (mkCS d None s) i (inr b) =
               (true, mkCS d' None (s ++ [mkChunk (b + (gva + d - a)) d (d' - d)]))
  | inl st => chunk_visit g gva len (λ out c, (true, out ++ [c])) (mkCS d None s) i (inl st) =
               (false, mkCS d (Some st) s)
  end.
Proof.
  intros Hr Hg Hb Hi Hin Hlen P d d' a. destruct (task_root_ok _ Hr) as (Hgeo & _).
  destruct (page_size_pow Hgeo) as [Ep Hp4]. fold P in Hp4, Ep, Hin. unfold is_u64 in Hg.
  pose proof (Z.mod_pos_bound gva P ltac:(lia)) as Hm.
  pose proof (Z.mod_le gva P ltac:(lia) ltac:(lia)) as Hml.
  assert (a mod P = 0) as Ha.
  { unfold a. rewrite Z.mod_add by lia. rewrite Zminus_mod, Z.mod_mod, Z.sub_diag by lia. apply Z.mod_0_l. lia. }
  assert (d < d' ∧ a ≤ gva + d ∧ gva + d' ≤ a + P ∧ gva + d < a + P) as (Hd & Had & Had' & Hda)
    by (unfold a, d, d'; nia).
  split_and!; try done. destruct (translate a) as [st|b]; [done|]. cbn.
  rewrite page_offset_land, <- Ep by done. unfold UINT64_MAX. fold P.
  rewrite !(Z.min_l (gva + d)) by (unfold d in *; lia).
  assert ((gva + d) mod P = gva + d - a) as ->.
  { replace (gva + d) with (a + (gva + d - a)) at 1 by lia. rewrite Zplus_mod, Ha, Z.add_0_l, Z.mod_mod by lia.
    apply Z.mod_small. lia. }
  assert (Z.min (len - d) (P - (gva + d - a)) = d' - d) as -> by (unfold a, d, d' in *; nia).
  do 2 f_equal. lia.
Qed.

(** The chunk walk from page [i] on. *)
Lemma chunks_from root gva len n i out :
  task_root = inr root → is_u64 gva → 0 < len → gva + len < 2 ^ 64 → 0 ≤ i →
  i + Z.of_nat n = pages_spanned gva len (page_size g) →
  let d := Z.min len (Z.max 0 (i * page_size g - gva mod page_size g)) in
  let cs := visit_pages (λ i, translate (gva - gva mod page_size g + i * page_size g)) n i
              (chunk_visit g gva len (λ out c, (true, out ++ [c]))) (mkCS d None out) in
  match refused cs with
  | None => ∃ l, caller cs = out ++ l ∧ tiles d len l ∧ Forall (chunk_ok gva) l
  | Some st => first_hole gva d len st
  end.
Proof.
  intros Hr Hg Hl Hb. destruct (task_root_ok _ Hr) as (Hgeo & _). destruct (page_size_pow Hgeo) as [_ Hp4].
  pose proof (Z.mod_pos_bound gva (page_size g) ltac:(lia)) as Hm.
  pose proof (Z.mod_le gva (page_size g) ltac:(unfold is_u64 in Hg; lia) ltac:(lia)) as Hml.
  destruct (pages_spanned_bounds gva len (page_size g)) as [Hn0 [Hn1 Hn2]]; [lia|unfold is_u64 in Hg; lia|lia|lia|].
  revert i out. induction n as [|n IH]; intros i out Hi En d cs.
  - exists []. cbn. rewrite app_nil_r. split_and!; [done| |constructor]. unfold d. nia.
  - destruct (chunk_page root gva len i out Hr Hg Hb Hi) as (Hd & Ha & Had & Had' & Hv); [nia|done|].
    fold d in Hd, Had, Hv. set (a := gva - gva mod page_size g + i * page_size g) in *.
    set (d' := Z.min len (Z.max 0 ((i + 1) * page_size g - gva mod page_size g))) in *.
    assert (∀ k, d ≤ k < d' → translate (gva + k) =
      match translate a with inr x => inr (x + (gva + k - a)) | inl st => inl st end) as Hbytes.
    { intros k Hk. replace (gva + k) with (a + (gva + k - a)) at 1 by lia. by apply (translate_page root); [..|lia]. }
    subst cs. cbn [visit_pages]. fold a. destruct (translate a) as [st|b] eqn:Et; rewrite Hv; cbn [refused].
    + exists d. split; [lia|]. rewrite Hbytes by lia. split; [done|]. lia.
    + pose proof (translate_aligned _ _ _ Hr Ha Et) as Hba.
      specialize (IH (i + 1) (out ++ [mkChunk (b + (gva + d - a)) d (d' - d)]) ltac:(lia) ltac:(lia)).
      cbn zeta in IH. fold d' in IH. destruct (refused _) as [st|].
      * eapply first_hole_later, IH; [lia|]. intros j Hj. rewrite Hbytes by lia. eauto.
      * destruct IH as (l & -> & Ht & Hok). exists (mkChunk (b + (gva + d - a)) d (d' - d) :: l).
        split_and!; [by rewrite <- (assoc_L (++))| |].
        -- cbn. split_and!; [done|lia|]. by replace (d + (d' - d)) with d' by lia.
        -- constructor; [|done]. split; cbn.
           ++ rewrite Zplus_mod, Hba, Z.add_0_l, Z.mod_mod, Z.mod_small by lia. lia.
           ++ intros k Hk. rewrite Hbytes by lia. f_equal. lia.
Qed.
End Spans.

(** C31: Cutting a span of a task's addresses into chunks covers every byte of it exactly
    once and in order, keeps each chunk inside one page, and gives byte k the
    guest-physical address the page table has for address gva + k.  It refuses the whole
    span otherwise: with the reason of the first byte that has no address, or with why
    the task has no root, and then no address of the task resolves. *)
Theorem span_chunks_exact `{GuestMemoryLaws M} (mem : M) g task gva len :
  is_u64 gva → 0 < len → gva + len < 2 ^ 64 →
  match span_chunks mem g task gva len with
  | inr cs => tiles 0 len cs ∧ Forall (chunk_ok mem g task gva) cs
  | inl (Page st) => first_hole mem g task gva 0 len st
  | inl (Setup st) => ∀ a, translate mem g task a = inl st
  end.
Proof.
  intros Hg Hl Hb. unfold span_chunks, visit_span_chunks. destruct (len =? 0) eqn:E0; reflect_bools; [lia|].
  destruct (task_root mem g task) as [st|root] eqn:Hr.
  - assert (walk_span mem g task gva len (chunk_visit g gva len (λ out c, (true, out ++ [c]))) (mkCS 0 None []) =
            (inl st, mkCS 0 None [])) as ->.
    { revert Hr. unfold walk_span, task_root, read_task_root, validate.
      destruct (_ && _); [by intros [= <-]|]. repeat (case_match; try done); intros; by simplify_eq. }
    intros a. unfold translate. by rewrite Hr.
  - rewrite (walk_span_pages _ _ _ root) by done.
    pose proof (chunks_from mem g task root gva len (Z.to_nat (pages_spanned gva len (page_size g))) 0 []
      Hr Hg Hl Hb ltac:(lia)) as Hc.
    destruct (task_root_ok _ _ _ _ Hr) as (Hgeo & _). destruct (page_size_pow _ Hgeo) as [_ Hp4].
    destruct (pages_spanned_bounds gva len (page_size g)) as [Hn0 _]; [unfold is_u64 in Hg; pose proof (Z.mod_le gva (page_size g)); lia..|].
    specialize (Hc ltac:(lia)). cbn zeta in Hc.
    pose proof (Z.mod_pos_bound gva (page_size g) ltac:(lia)).
    replace (Z.min len (Z.max 0 (0 * page_size g - gva mod page_size g))) with 0 in Hc by lia.
    destruct (refused _) as [st|]; [done|]. destruct Hc as (l & -> & Ht & Hok). done.
Qed.

(** The bases a page walk collects from page [i] on, or the first page without one. *)
Lemma bases_from (f : Z → ResolveStatus + Z) n i out :
  match visit_pages f n i bases_visit (out, None) with
  | (out', None) => ∃ l, out' = out ++ l ∧ length l = n ∧ ∀ j b, l !! j = Some b → f (i + Z.of_nat j) = inr b
  | (_, Some st) => ∃ j, i ≤ j < i + Z.of_nat n ∧ f j = inl st ∧ ∀ k, i ≤ k < j → ∃ b, f k = inr b
  end.
Proof.
  revert i out. induction n as [|n IH]; intros i out; [exists []; by rewrite app_nil_r|].
  cbn [visit_pages bases_visit]. destruct (f i) as [st|b] eqn:E; cbn.
  { exists i. split; [lia|]. split; [done|]. lia. }
  specialize (IH (i + 1) (out ++ [b])). destruct (visit_pages _ _ _ _ _) as [out' [st|]].
  - destruct IH as (j & Hj & Ej & Hk). exists j. split; [lia|]. split; [done|]. intros k Hk'.
    destruct (decide (k = i)) as [->|]; [by eauto|]. apply Hk. lia.
  - destruct IH as (l & -> & Hl & Hb). exists (b :: l). split_and!; [by rewrite <- (assoc_L (++))|cbn; lia|].
    intros [|j] b' Hj; cbn in Hj; simplify_eq; [by rewrite Z.add_0_r|]. rewrite <- (Hb j b' Hj). f_equal. lia.
Qed.

(** The page list of a span that resolves: one base for each page, where the table has it. *)
Lemma span_page_bases_ok `{GuestMemoryLaws M} (mem : M) g task gva span gpas :
  is_u64 gva → 0 < span → gva + span < 2 ^ 64 → span_page_bases mem g task gva span = inr gpas →
  Z.of_nat (length gpas) = pages_spanned gva span (page_size g) ∧
  (∃ root, task_root mem g task = inr root) ∧
  ∀ i b, gpas !! i = Some b → translate mem g task (gva - gva mod page_size g + Z.of_nat i * page_size g) = inr b.
Proof.
  intros Hg Hs Hb. unfold span_page_bases. destruct (task_root mem g task) as [st|root] eqn:Hr.
  - revert Hr. unfold walk_span, task_root, read_task_root, validate.
    destruct (_ && _); [by intros|]. repeat (case_match; try done); intros; by simplify_eq.
  - rewrite (walk_span_pages _ _ _ root) by (done || by intros []).
    destruct (task_root_ok _ _ _ _ Hr) as (Hgeo & _). destruct (page_size_pow _ Hgeo) as [_ Hp4].
    destruct (pages_spanned_bounds gva span (page_size g)) as [Hn0 _];
      [unfold is_u64 in Hg; pose proof (Z.mod_le gva (page_size g)); lia..|].
    pose proof (bases_from (λ i, translate mem g task (gva - gva mod page_size g + i * page_size g))
      (Z.to_nat (pages_spanned gva span (page_size g))) 0 []) as Hf.
    destruct (visit_pages _ _ _ _ _) as [out [st|]]; [done|]. intros [= <-].
    destruct Hf as (l & -> & Hl & Hf). split_and!; [cbn; lia|by eauto|]. intros i b Hi. by apply (Hf i b) in Hi.
Qed.

(** ** A concrete task *)
Definition demo_task : Task := mkTask true 3.
Definition demo_space : SliceMemory :=
  image (default demo_tree (b ← map_into demo_tree 1 2 0x404 0x77; b ← poke_entry b 3 0 1; poke_entry b 3 1 2)).

Lemma span_chunks_exact_witness :
  tiles 0 0x200 [mkChunk 0x55f00 0 0x100; mkChunk 0x77000 0x100 0x100] ∧
  Forall (chunk_ok demo_space X86_64 demo_task 0x403f00) [mkChunk 0x55f00 0 0x100; mkChunk 0x77000 0x100 0x100].
Proof.
  pose proof (span_chunks_exact demo_space X86_64 demo_task 0x403f00 0x200 ltac:(decide_done) ltac:(lia) ltac:(lia)) as E.
  assert (span_chunks demo_space X86_64 demo_task 0x403f00 0x200 =
          inr [mkChunk 0x55f00 0 0x100; mkChunk 0x77000 0x100 0x100]) as E' by (vm_compute; reflexivity).
  rewrite E' in E. exact E.
Defined.
