(* ===== verification/Runs.v ===== *)
(** Windows of guest pages: runs.rs and regions.rs of
    src/reims-vgpu/crates/reims-vgpu-paging/src.

    A window is an ordered list of page addresses.  [contig_page_runs] and
    [coalesce_window] cut it into the maximal stretches whose pages follow each other,
    [plan_regions] turns a byte range of a window into rectangles of texels.  A
    [Range<usize>] is a pair of indices; additions and products on u64 wrap as the
    release profile's do. *)
From S2P Require Import Prelude.

Definition range : Type := nat * nat.

(** ** runs.rs *)
Record WindowRun := mkRun { pages : range; start_offset : Z; run_len : Z }.

Section runs.
Context (page : Z).

(** The inner loop of coalesce_window: the first [j] from the given one on whose page
    does not continue the run that starts at [i]. *)
Fixpoint run_end (window : list Z) (i j : nat) (fuel : nat) : nat :=
  match fuel with
  | O => j
  | S fuel =>
      if (j <? length window)%nat && (window !!! j =? u64 (window !!! i + u64 (Z.of_nat (j - i) * page)))
      then run_end window i (S j) fuel else j
  end.

Fixpoint coalesce_from (window : list Z) (head_off span : Z) (runs : list WindowRun) (consumed : Z) (i fuel : nat) :
    list WindowRun * Z :=
  match fuel with
  | O => (runs, consumed)
  | S fuel =>
      if (i <? length window)%nat && (consumed <? span) then
        let j := run_end window i (i + 1) (length window) in
        let off := if (i =? 0)%nat then head_off else 0 in
        let avail := u64 (u64 (Z.of_nat (j - i) * page) - off) in
        let n := avail `min` (span - consumed) in
        coalesce_from window head_off span (runs ++ [mkRun (i, j) off n]) (consumed + n) j fuel
      else (runs, consumed)
  end.
Definition coalesce_window (window : list Z) (head_off span : Z) : option (list WindowRun) :=
  if (page =? 0) || (page <=? head_off) then None
  else
    let '(runs, consumed) := coalesce_from window head_off span [] 0 0 (S (length window)) in
    if consumed =? span then Some runs else None.

Definition breaks (gpas : list Z) (i : nat) : bool :=
  negb (gpas !!! i =? u64 (gpas !!! (i - 1)%nat + page)).
Definition runs_step (gpas : list Z) (st : list range * nat) (i : nat) : list range * nat :=
  let '(runs, start) := st in
  if breaks gpas i then (runs ++ [(start, i)], i) else (runs, start).
Definition contig_page_runs (gpas : list Z) : list range :=
  if (length gpas =? 0)%nat || (page =? 0) then []
  else
    let '(runs, start) := foldl (runs_step gpas) ([], O) (seq 1 (length gpas - 1)) in
    runs ++ [(start, length gpas)].

Definition contig_run_count (gpas : list Z) : nat :=
  if (length gpas =? 0)%nat || (page =? 0) then O
  else 1 + length (filter (λ i, Is_true (breaks gpas i)) (seq 1 (length gpas - 1))).

(** ** What the runs are *)

(** The page at [i + d] of a run is [d] pages above its first. *)
Definition contiguous (gpas : list Z) (i j : nat) : Prop :=
  ∀ k, (i ≤ k < j)%nat → gpas !!! k = u64 (gpas !!! i + Z.of_nat (k - i) * page).

(** [rs] cuts the indices from [a] to [b] into non-empty contiguous runs, none of which
    could be longer. *)
Fixpoint cuts (gpas : list Z) (a b : nat) (rs : list range) : Prop :=
  match rs with
  | [] => a = b
  | (i, j) :: rs =>
      i = a ∧ (i < j)%nat ∧ contiguous gpas i j ∧ ((j < length gpas)%nat → breaks gpas j = true) ∧ cuts gpas j b rs
  end.

Lemma cuts_snoc gpas a b c rs :
  cuts gpas a b rs → (b < c)%nat → contiguous gpas b c → ((c < length gpas)%nat → breaks gpas c = true) →
  cuts gpas a c (rs ++ [(b, c)]).
Proof.
  revert a. induction rs as [|[i j] rs IH]; intros a; cbn; [by intros -> **|].
  intros (-> & ? & ? & ? & ?) **. repeat split; eauto.
Qed.

Lemma contiguous_next gpas i j :
  (i < j)%nat → contiguous gpas i j → breaks gpas j = false → contiguous gpas i (S j).
Proof.
  unfold breaks. intros Hij Hc Hb k Hk. destruct (decide (k < j)%nat) as [|Hk']; [apply Hc; lia|].
  assert (k = j) as -> by lia. reflect_bools. rewrite Hb, (Hc (j - 1)%nat) by lia.
  replace (Z.of_nat (j - i)) with (Z.of_nat (j - 1 - i) + 1) by lia.
  by rewrite Z.mul_add_distr_r, Z.mul_1_l, Z.add_assoc, u64_add_l.
Qed.

Lemma contiguous_one gpas i : Forall is_u64 gpas → (i < length gpas)%nat → contiguous gpas i (S i).
Proof.
  intros Hg Hi k Hk. assert (k = i) as -> by lia. rewrite Nat.sub_diag, Z.mul_0_l, Z.add_0_r.
  symmetry. apply u64_small. rewrite Forall_lookup in Hg. eapply Hg, list_lookup_lookup_total_lt. done.
Qed.

(** The loop of contig_page_runs: before index [S m], [runs] cuts the indices below the
    open run's start. *)
Lemma runs_steps gpas m runs start :
  Forall is_u64 gpas → (m < length gpas)%nat →
  foldl (runs_step gpas) ([], O) (seq 1 m) = (runs, start) →
  cuts gpas 0 start runs ∧ (start ≤ m)%nat ∧ contiguous gpas start (S m) ∧
  length runs = length (filter (λ i, Is_true (breaks gpas i)) (seq 1 m)).
Proof.
  intros Hg. revert runs start. induction m as [|m IH]; intros runs start Hm.
  - cbn. intros [= <- <-]. split_and!; [done|done| |done]. by apply contiguous_one.
  - rewrite seq_S, foldl_app, filter_app, length_app, filter_cons, filter_nil.
    change (1 + m)%nat with (S m). cbn [foldl].
    destruct (foldl _ _ _) as [runs' start'] eqn:E. destruct (IH runs' start') as (Hc & Hs & Hr & Hl); [lia|done|].
    cbn [runs_step]. destruct (breaks gpas (S m)) eqn:Eb; intros [= <- <-].
    + rewrite decide_True by done. split_and!; [|lia|by apply contiguous_one|rewrite length_app; cbn; lia].
      apply cuts_snoc; [done|lia|done|done].
    + rewrite decide_False by intros []. split_and!; [done|lia| |cbn; lia]. apply contiguous_next; [lia|done|done].
Qed.

Lemma contig_page_runs_cuts gpas :
  Forall is_u64 gpas → page ≠ 0 → cuts gpas 0 (length gpas) (contig_page_runs gpas).
Proof.
  intros Hg Hp. unfold contig_page_runs. destruct (length gpas =? 0)%nat eqn:E0; reflect_bools; [cbn; lia|].
  destruct (page =? 0) eqn:Ep; reflect_bools; [done|]. cbn [orb].
  destruct (foldl _ _ _) as [runs start] eqn:E. apply runs_steps in E as (Hc & Hs & Hr & _); [|done|lia].
  replace (S (length gpas - 1)) with (length gpas) in Hr by lia. apply cuts_snoc; [done|lia|done|lia].
Qed.

Lemma contig_run_count_length gpas :
  Forall is_u64 gpas → contig_run_count gpas = length (contig_page_runs gpas).
Proof.
  intros Hg. unfold contig_run_count, contig_page_runs. destruct (_ || _) eqn:E0; [done|].
  apply orb_false_iff in E0 as [E0 _]. apply Nat.eqb_neq in E0.
  destruct (foldl _ _ _) as [runs start] eqn:E. apply runs_steps in E as (_ & _ & _ & Hl); [|done|lia].
  rewrite length_app. cbn. lia.
Qed.

(** ** The two cuts agree *)

(** The part of run [i .. j] that holds bytes of a window of [span] bytes from
    [head_off] on. *)
Definition clip (head_off span : Z) (r : range) : option WindowRun :=
  let lo := (Z.of_nat r.1 * page) `max` head_off in
  let hi := (Z.of_nat r.2 * page) `min` (head_off + span) in
  if lo <? hi then Some (mkRun r (lo - Z.of_nat r.1 * page) (hi - lo)) else None.

Lemma run_end_spec window i j k fuel :
  contiguous window i j → (j ≤ length window)%nat → ((j < length window)%nat → breaks window j = true) →
  (i < k ≤ j)%nat → (j - k < fuel)%nat → run_end window i k fuel = j.
Proof.
  intros Hc Hj Hb. revert k. induction fuel as [|fuel IH]; intros k Hk Hf; [lia|]. cbn [run_end].
  assert (∀ m, (i < m ≤ j)%nat → u64 (window !!! i + u64 (Z.of_nat (m - i) * page)) = u64 (window !!! (m - 1)%nat + page))
    as Hu.
  { intros m Hm. rewrite (Hc (m - 1)%nat) by lia. replace (Z.of_nat (m - i)) with (Z.of_nat (m - 1 - i) + 1) by lia.
    by rewrite u64_add_r, u64_add_l, <- Z.add_assoc, Z.mul_add_distr_r, Z.mul_1_l. }
  destruct (decide (k = j)) as [->|Hne].
  - destruct (j <? length window)%nat eqn:E; [|done]. apply Nat.ltb_lt in E. specialize (Hb E).
    unfold breaks in Hb. rewrite Hu by lia. apply negb_true_iff in Hb. by rewrite Hb.
  - destruct (k <? length window)%nat eqn:E; [|apply Nat.ltb_ge in E; lia].
    rewrite (Hc k), u64_add_r, Z.eqb_refl by lia. cbn [andb]. apply IH; lia.
Qed.

Section cut.
Context (window : list Z) (head_off span : Z).
Context (Hpage : 0 < page) (Hhead : 0 ≤ head_off < page) (Hspan : 0 ≤ span).
Context (Hsize : Z.of_nat (length window) * page < 2 ^ 64).

(** Bytes of the window before page [i]. *)
Definition before (i : nat) : Z := span `min` (0 `max` (Z.of_nat i * page - head_off)).

Lemma clip_past a b rs :
  before a = span → cuts window a b rs → omap (clip head_off span) rs = [].
Proof.
  revert a. induction rs as [|[i j] rs IH]; intros a Ha; [done|]. intros (-> & Hij & _ & _ & Hrs).
  assert (before j = span) as Hj by (unfold before in *; nia).
  cbn [omap list_omap]. unfold clip at 1. cbn [fst snd].
  destruct (_ <? _) eqn:E; reflect_bools; [unfold before in *; nia|]. exact (IH _ Hj Hrs).
Qed.

Lemma cuts_length a b rs : cuts window a b rs → (a ≤ b)%nat.
Proof. revert a. induction rs as [|[i j] rs IH]; cbn; intros a; [lia|]. intros (-> & ? & _ & _ & ?%IH). lia. Qed.

Lemma coalesce_cuts rs i acc fuel :
  cuts window i (length window) rs → (length window - i < fuel)%nat →
  coalesce_from window head_off span acc (before i) i fuel =
    (acc ++ omap (clip head_off span) rs, before (length window)).
Proof.
  revert i acc fuel. induction rs as [|[i' j] rs IH]; intros i acc fuel Hc Hf; (destruct fuel as [|fuel]; [lia|]);
    cbn [coalesce_from].
  { cbn [cuts omap list_omap] in Hc |- *. by rewrite Hc, Nat.ltb_irrefl, app_nil_r. }
  pose proof Hc as (-> & Hij & Hr & Hb & Hrs). pose proof (cuts_length _ _ _ Hrs).
  destruct (i <? length window)%nat eqn:E; [|apply Nat.ltb_ge in E; lia]. cbn [andb].
  destruct (before i <? span) eqn:E2; reflect_bools.
  - rewrite (run_end_spec _ _ j) by (done || lia).
    assert (Z.of_nat (j - i) * page < 2 ^ 64) by nia.
    assert (clip head_off span (i, j) = Some (mkRun (i, j) (if (i =? 0)%nat then head_off else 0)
      (u64 (u64 (Z.of_nat (j - i) * page) - (if (i =? 0)%nat then head_off else 0)) `min` (span - before i)))) as Hclip.
    { rewrite (u64_small (Z.of_nat (j - i) * page)) by (unfold is_u64; nia).
      rewrite u64_small by (unfold is_u64; destruct (i =? 0)%nat; nia).
      unfold clip, before in *. cbn [fst snd].
      destruct (_ <? _) eqn:E3; reflect_bools; [|nia]. destruct (i =? 0)%nat eqn:E4; reflect_bools; f_equal; f_equal; nia. }
    cbn [omap list_omap]. rewrite Hclip.
    etrans; [|rewrite (cons_middle _ acc (omap _ rs)), app_assoc; apply (IH j _ fuel); (done || lia)]. f_equal.
    rewrite (u64_small (Z.of_nat (j - i) * page)) by (unfold is_u64; nia).
    rewrite u64_small by (unfold is_u64; destruct (i =? 0)%nat; nia).
    unfold before in *. destruct (i =? 0)%nat eqn:E4; reflect_bools; nia.
  - assert (before i = span) as Hi by (unfold before in *; lia). rewrite (clip_past i _ _ Hi Hc), app_nil_r.
    f_equal. unfold before in *. nia.
Qed.
End cut.

End runs.

(** The runs of a window are the maximal stretches of pages that follow each other,
    in order and without a gap; counting them gives their number; and cutting a byte
    range of the window directly gives exactly the parts of those runs the range
    touches, or refuses when the range leaves the window. *)
Theorem window_runs_exact page window head_off span :
  0 < page → 0 ≤ head_off → 0 ≤ span → Forall is_u64 window → Z.of_nat (length window) * page < 2 ^ 64 →
  cuts page window 0 (length window) (contig_page_runs page window) ∧
  contig_run_count page window = length (contig_page_runs page window) ∧
  coalesce_window page window head_off span =
    if decide (head_off < page ∧ (span = 0 ∨ head_off + span ≤ Z.of_nat (length window) * page))
    then Some (omap (clip page head_off span) (contig_page_runs page window)) else None.
Proof.
  intros Hp Hh Hs Hw Hn. pose proof (contig_page_runs_cuts page window Hw ltac:(lia)) as Hc.
  split_and!; [done|by apply contig_run_count_length|]. unfold coalesce_window.
  destruct (page =? 0) eqn:E0; reflect_bools; [lia|]. cbn [orb].
  destruct (page <=? head_off) eqn:E1; reflect_bools; [by rewrite decide_False by lia|].
  pose proof (coalesce_cuts page window head_off span Hp ltac:(lia) Hs Hn _ 0 [] (S (length window)) Hc ltac:(lia)) as E.
  assert (before page head_off span 0 = 0) as E2 by (unfold before; lia). rewrite E2 in E. rewrite E. cbn [app].
  unfold before. destruct (_ =? span) eqn:E3; reflect_bools; [rewrite decide_True by lia|rewrite decide_False by lia]; done.
Qed.

Lemma window_runs_exact_witness :
  coalesce_window 0x1000 [0x8000; 0x9000; 0x3000] 0x10 0x2000 =
    Some [mkRun (0, 2)%nat 0x10 0x1ff0; mkRun (2, 3)%nat 0 0x10] ∧
  omap (clip 0x1000 0x10 0x2000) (contig_page_runs 0x1000 [0x8000; 0x9000; 0x3000]) =
    [mkRun (0, 2)%nat 0x10 0x1ff0; mkRun (2, 3)%nat 0 0x10].
Proof.
  destruct (window_runs_exact 0x1000 [0x8000; 0x9000; 0x3000] 0x10 0x2000) as (_ & _ & E); [lia..| | |].
  { repeat constructor; lia. }
  { cbn. lia. }
  rewrite decide_True in E by (cbn; lia). split; [|reflexivity]. rewrite E. reflexivity.
Defined.

(** ** regions.rs *)
Record WindowRegion := mkRegionOf { window_offset : Z; rx : Z; ry : Z; rwidth : Z; rheight : Z }.
Record WindowGeometry := mkWindowGeometry { pitch_bytes : Z; width_texels : Z; height_texels : Z }.
Definition BYTES_PER_TEXEL : Z := 4.

Section regions.
Context (geom : WindowGeometry).

Definition extent_end : Z :=
  if (height_texels geom =? 0) || (width_texels geom =? 0) then 0
  else u64 (u64 ((height_texels geom - 1) * pitch_bytes geom) + width_texels geom * BYTES_PER_TEXEL).

(** One row of the loop; [true] is the break. *)
Definition plan_row (start stop row_texel_bytes : Z) (out : list WindowRegion) (row : Z) : bool * list WindowRegion :=
  if height_texels geom <=? row then (true, out)
  else
    let row_start := u64 (row * pitch_bytes geom) in
    let seg_start := start `max` row_start in
    let seg_end := stop `min` u64 (row_start + row_texel_bytes) in
    if seg_end <=? seg_start then (false, out)
    else
      let x := (seg_start - row_start) `div` BYTES_PER_TEXEL in
      let width := (seg_end - seg_start) `div` BYTES_PER_TEXEL in
      if width =? 0 then (false, out)
      else
        let fresh := out ++ [mkRegionOf seg_start (u32 x) (u32 row) (u32 width) 1] in
        match last out with
        | Some prev =>
            let whole_row := (x =? 0) && (width =? width_texels geom) in
            let prev_whole_row := (rx prev =? 0) && (rwidth prev =? width_texels geom) in
            let adjacent := ry prev + rheight prev =? row in
            if whole_row && prev_whole_row && adjacent
            then (false, removelast out ++
                         [mkRegionOf (window_offset prev) (rx prev) (ry prev) (rwidth prev) (u32 (rheight prev + 1))])
            else (false, fresh)
        | None => (false, fresh)
        end.
Fixpoint plan_rows (start stop row_texel_bytes : Z) (out : list WindowRegion) (row : Z) (n : nat) : list WindowRegion :=
  match n with
  | O => out
  | S n =>
      let '(brk, out) := plan_row start stop row_texel_bytes out row in
      if brk then out else plan_rows start stop row_texel_bytes out (row + 1) n
  end.
Definition plan_regions (start stop : Z) : list WindowRegion :=
  if (pitch_bytes geom =? 0) || (width_texels geom =? 0) || (height_texels geom =? 0) then []
  else
    let row_texel_bytes := width_texels geom * BYTES_PER_TEXEL in
    let stop := stop `min` extent_end in
    if stop <=? start then []
    else
      let first_row := start `div` pitch_bytes geom in
      let last_row := (stop - 1) `div` pitch_bytes geom in
      plan_rows start stop row_texel_bytes [] first_row (Z.to_nat (last_row - first_row + 1)).

(** ** Every texel once *)
Definition covers (x y : Z) (r : WindowRegion) : bool :=
  (rx r <=? x) && (x <? rx r + rwidth r) && (ry r <=? y) && (y <? ry r + rheight r).
(** How many rectangles hold texel [x], [y]. *)
Definition hits (x y : Z) (out : list WindowRegion) : nat := length (filter (λ r, Is_true (covers x y r)) out).

(** The texels whose four bytes lie in the range. *)
Definition in_window (start stop x y : Z) : bool :=
  (0 <=? x) && (x <? width_texels geom) && (0 <=? y) && (y <? height_texels geom) &&
  (start <=? y * pitch_bytes geom + 4 * x) && (y * pitch_bytes geom + 4 * x + 4 <=? stop).

(** A rectangle lies in the frame, is not empty, and its offset is its first texel's. *)
Definition region_ok (r : WindowRegion) : Prop :=
  0 ≤ rx r ∧ 0 < rwidth r ∧ rx r + rwidth r ≤ width_texels geom ∧ 0 ≤ ry r ∧ 0 < rheight r ∧
  ry r + rheight r ≤ height_texels geom ∧ window_offset r = ry r * pitch_bytes geom + 4 * rx r.

(** The rows of [b] are below those of [a]. *)
Definition below (a b : WindowRegion) : Prop := ry a + rheight a ≤ ry b.

Lemma hits_app x y l1 l2 : hits x y (l1 ++ l2) = (hits x y l1 + hits x y l2)%nat.
Proof. unfold hits. by rewrite filter_app, length_app. Qed.

Lemma hits_one x y r : hits x y [r] = if covers x y r then 1%nat else 0%nat.
Proof.
  unfold hits. rewrite filter_cons, filter_nil. destruct (covers x y r); [by rewrite decide_True|by rewrite decide_False by intros []].
Qed.

Lemma snoc_removelast {A} (l : list A) x : last l = Some x → l = removelast l ++ [x].
Proof. intros (l' & ->)%last_Some. by rewrite removelast_last. Qed.

Section plan.
Context (start stop : Z).
Context (Hp : 0 < pitch_bytes geom) (Hp4 : pitch_bytes geom mod 4 = 0).
Context (Hw : 0 < width_texels geom < 2 ^ 32) (Hwp : 4 * width_texels geom ≤ pitch_bytes geom).
Context (Hh : 0 < height_texels geom < 2 ^ 32).
Context (Hext : (height_texels geom - 1) * pitch_bytes geom + 4 * width_texels geom < 2 ^ 64).
Context (Hstart : 0 ≤ start) (Hstart4 : start mod 4 = 0).

Record plan_inv (row : Z) (out : list WindowRegion) : Prop := {
  pi_ok : Forall region_ok out;
  pi_above : Forall (λ r, ry r + rheight r ≤ row) out;
  pi_order : StronglySorted below out;
  pi_hits : ∀ x y, hits x y out = if in_window start stop x y && (y <? row) then 1%nat else 0%nat;
}.

(** The texels of one row in the range are an interval. *)
Lemma row_texels row x :
  0 ≤ row < height_texels geom →
  let lo := start `max` (row * pitch_bytes geom) in
  let hi := stop `min` (row * pitch_bytes geom + 4 * width_texels geom) in
  in_window start stop x row = true ↔
  lo < hi ∧ (lo - row * pitch_bytes geom) `div` 4 ≤ x < (lo - row * pitch_bytes geom) `div` 4 + (hi - lo) `div` 4.
Proof using All.
  intros Hrow lo hi. unfold in_window, lo, hi.
  assert (row * pitch_bytes geom = 4 * (row * (pitch_bytes geom `div` 4))) as -> by divlia.
  assert (start = 4 * (start `div` 4)) as Es by divlia.
  set (p := row * _) in *. clearbody p. set (s4 := start `div` 4) in *. clearbody s4. clear Hstart4 Hp4. subst start.
  rewrite !andb_true_iff, !Z.leb_le, !Z.ltb_lt. clear Hext lo hi. split.
  - intros. Z.div_mod_to_equations. lia.
  - intros. Z.div_mod_to_equations. lia.
Qed.

Lemma row_edges row :
  0 ≤ row →
  let lo := start `max` (row * pitch_bytes geom) in
  let hi := stop `min` (row * pitch_bytes geom + 4 * width_texels geom) in
  let x := (lo - row * pitch_bytes geom) `div` 4 in
  lo < hi → 0 ≤ x ∧ x + (hi - lo) `div` 4 ≤ width_texels geom ∧ lo = row * pitch_bytes geom + 4 * x.
Proof using All.
  intros Hrow lo hi x. unfold x, lo, hi. clear x lo hi.
  assert (row * pitch_bytes geom = 4 * (row * (pitch_bytes geom `div` 4))) as -> by divlia.
  assert (start = 4 * (start `div` 4)) as Es by divlia.
  set (p := row * _) in *. clearbody p. set (s4 := start `div` 4) in *. clearbody s4. clear Hstart4 Hp4 Hext. subst start.
  intros. Z.div_mod_to_equations. lia.
Qed.

Definition new_texel (row x y : Z) : nat := if in_window start stop x y && (y =? row) then 1%nat else 0%nat.

Lemma plan_inv_next row out out' :
  plan_inv row out → Forall region_ok out' → Forall (λ r, ry r + rheight r ≤ row + 1) out' →
  StronglySorted below out' → (∀ x y, hits x y out' = (hits x y out + new_texel row x y)%nat) →
  plan_inv (row + 1) out'.
Proof using All.
  intros [_ _ _ Ht] ? ? ? Hn. split; [done..|]. intros x y. rewrite Hn, Ht. unfold new_texel.
  destruct (in_window start stop x y); [cbn [andb]|done].
  destruct (y <? row) eqn:E1, (y =? row) eqn:E2, (y <? row + 1) eqn:E3; reflect_bools; lia.
Qed.

Lemma plan_inv_same row out :
  plan_inv row out → (∀ x, in_window start stop x row = false) → plan_inv (row + 1) out.
Proof using All.
  intros Hi Hn. pose proof Hi as [Ho Ha Hs _]. apply (plan_inv_next _ _ _ Hi); [done| |done|].
  { eapply Forall_impl; [exact Ha|]. cbn. lia. }
  intros x y. unfold new_texel. destruct (y =? row) eqn:E; reflect_bools; [subst; rewrite Hn|]; rewrite ?andb_false_r; cbn; lia.
Qed.

(** One more rectangle at the end, holding the texels of the row. *)
Lemma plan_inv_push row out r :
  plan_inv row out → region_ok r → ry r = row → rheight r = 1 →
  (∀ x, in_window start stop x row = true ↔ rx r ≤ x < rx r + rwidth r) →
  plan_inv (row + 1) (out ++ [r]).
Proof using All.
  intros Hi Hr Ey Eh Hx. pose proof Hi as [Ho Ha Hs _]. apply (plan_inv_next _ _ _ Hi).
  - apply Forall_app; auto.
  - apply Forall_app; split; [eapply Forall_impl; [exact Ha|cbn; lia]|constructor; [lia|done]].
  - apply StronglySorted_app. split_and!; [|done|repeat constructor].
    intros a b Hin ->%list_elem_of_singleton. rewrite Forall_forall in Ha. unfold below. rewrite Ey. by apply Ha.
  - intros x y. rewrite hits_app, hits_one. f_equal. unfold new_texel.
    assert (covers x y r = in_window start stop x y && (y =? row)) as ->; [|done].
    apply eq_true_iff_eq. unfold covers. rewrite !andb_true_iff, !Z.leb_le, !Z.ltb_lt, Z.eqb_eq. split.
    + intros. assert (y = row) as -> by lia. rewrite Hx. lia.
    + intros [Hin ->]. apply Hx in Hin. lia.
Qed.

(** The last rectangle one row longer. *)
Lemma plan_inv_merge row l r :
  plan_inv row (l ++ [r]) → row < height_texels geom → rx r = 0 → rwidth r = width_texels geom → ry r + rheight r = row →
  (∀ x, in_window start stop x row = true ↔ 0 ≤ x < width_texels geom) →
  plan_inv (row + 1) (l ++ [mkRegionOf (window_offset r) (rx r) (ry r) (rwidth r) (rheight r + 1)]).
Proof using All.
  intros Hi Hrow Ex Ew Ey Hx. pose proof Hi as [Ho Ha Hs _]. apply (plan_inv_next _ _ _ Hi).
  - apply Forall_app in Ho as [? [Hr _]%Forall_cons]. apply Forall_app; split; [done|]. constructor; [|done].
    unfold region_ok in *. cbn. lia.
  - apply Forall_app in Ha as [Ha _]. apply Forall_app; split; [eapply Forall_impl; [exact Ha|cbn; lia]|].
    constructor; [cbn; lia|done].
  - apply StronglySorted_app in Hs as (Hb & ? & _). apply StronglySorted_app. split_and!; [|done|repeat constructor].
    intros a b Hin ->%list_elem_of_singleton. apply (Hb a r Hin). by apply list_elem_of_singleton.
  - intros x y. rewrite !hits_app, !hits_one, <- Nat.add_assoc. f_equal. unfold new_texel.
    set (r' := mkRegionOf _ _ _ _ _).
    assert (covers x y r' = covers x y r || (in_window start stop x y && (y =? row))) as ->.
    { apply eq_true_iff_eq. unfold covers, r'. cbn [rx ry rwidth rheight].
      rewrite !orb_true_iff, !andb_true_iff, !Z.leb_le, !Z.ltb_lt, Z.eqb_eq. split.
      - intros. destruct (decide (y = row)) as [->|]; [right; rewrite Hx|left]; lia.
      - intros [?|[Hin ->]]; [lia|]. apply Hx in Hin. apply Forall_app in Ho as [_ [Hr _]%Forall_cons].
        unfold region_ok in Hr. lia. }
    destruct (covers x y r) eqn:E1, (in_window start stop x y && (y =? row)) eqn:E2; cbn; try lia.
    unfold covers in E1. reflect_bools. lia.
Qed.

Lemma plan_row_ok row out :
  stop ≤ (height_texels geom - 1) * pitch_bytes geom + 4 * width_texels geom →
  plan_inv row out → 0 ≤ row < height_texels geom →
  ∃ out', plan_row start stop (width_texels geom * BYTES_PER_TEXEL) out row = (false, out') ∧ plan_inv (row + 1) out'.
Proof using All.
  intros Hstop Hi Hrow. unfold plan_row, BYTES_PER_TEXEL.
  destruct (height_texels geom <=? row) eqn:E0; reflect_bools; [lia|].
  assert (row * pitch_bytes geom ≤ (height_texels geom - 1) * pitch_bytes geom) by nia.
  rewrite (u64_small (row * _)) by (unfold is_u64; nia). rewrite u64_small by (unfold is_u64; nia).
  pose proof (λ x, row_texels row x Hrow) as Hx. cbn zeta in Hx.
  rewrite (Z.mul_comm (width_texels geom) 4).
  set (lo := start `max` _) in *. set (hi := stop `min` _) in *.
  set (x0 := (lo - _) `div` 4) in *. set (w := (hi - lo) `div` 4) in *.
  destruct (hi <=? lo) eqn:E1; reflect_bools.
  { eexists; split; [done|]. apply (plan_inv_same _ _ Hi). intros x. apply not_true_is_false. rewrite Hx. lia. }
  destruct (w =? 0) eqn:E2; reflect_bools.
  { eexists; split; [done|]. apply (plan_inv_same _ _ Hi). intros x. apply not_true_is_false. rewrite Hx. lia. }
  assert (0 ≤ x0 ∧ 0 < w ∧ x0 + w ≤ width_texels geom ∧ lo = row * pitch_bytes geom + 4 * x0) as (? & ? & ? & Elo).
  { destruct (row_edges row) as (? & ? & ?); [lia|done|]. split_and!; [done| |done..].
    pose proof (Z_div_pos (hi - lo) 4). lia. }
  assert (plan_inv (row + 1) (out ++ [mkRegionOf lo (u32 x0) (u32 row) (u32 w) 1])) as Hpush.
  { rewrite !u32_small by (unfold is_u32; lia). apply plan_inv_push; [done| |done|done|].
    - unfold region_ok. cbn. lia.
    - intros x. cbn. rewrite Hx. lia. }
  destruct (last out) as [prev|] eqn:El; [|by eauto].
  destruct (_ && _ && _) eqn:E3; [|by eauto]. eexists; split; [done|]. reflect_bools.
  rewrite (snoc_removelast out prev El) in Hi.
  rewrite u32_small; [apply plan_inv_merge; try done; try lia; intros x; rewrite Hx; lia|].
  destruct Hi as [Ho _ _ _]. apply Forall_app in Ho as [_ [Hr _]%Forall_cons]. unfold region_ok, is_u32 in *. lia.
Qed.

Lemma plan_rows_ok n row out :
  stop ≤ (height_texels geom - 1) * pitch_bytes geom + 4 * width_texels geom →
  plan_inv row out → 0 ≤ row →
  plan_inv ((height_texels geom `min` (row + Z.of_nat n)) `max` row)
    (plan_rows start stop (width_texels geom * BYTES_PER_TEXEL) out row n).
Proof using All.
  intros Hstop. revert row out. induction n as [|n IH]; intros row out Hi Hrow; cbn [plan_rows].
  { by replace (_ `max` row) with row by lia. }
  destruct (decide (row < height_texels geom)) as [Hlt|Hge].
  - destruct (plan_row_ok row out Hstop Hi ltac:(lia)) as (out' & -> & Hi').
    specialize (IH (row + 1) out' Hi' ltac:(lia)).
    by replace (_ `max` row) with ((height_texels geom `min` (row + 1 + Z.of_nat n)) `max` (row + 1)) by lia.
  - unfold plan_row. destruct (_ <=? row) eqn:E; reflect_bools; [|lia]. by replace (_ `max` row) with row by lia.
Qed.
End plan.
End regions.

(** For a frame whose rows are whole texels, and a byte range that starts at a
    texel, the planned rectangles hold every texel whose bytes lie in the range exactly
    once, and no other texel; each lies in the frame, from top to bottom, and its
    window offset is the offset of its first texel. *)
Theorem plan_regions_exact geom start stop :
  0 < pitch_bytes geom → pitch_bytes geom mod 4 = 0 → 0 < width_texels geom < 2 ^ 32 →
  4 * width_texels geom ≤ pitch_bytes geom → 0 < height_texels geom < 2 ^ 32 →
  (height_texels geom - 1) * pitch_bytes geom + 4 * width_texels geom < 2 ^ 64 →
  0 ≤ start → start mod 4 = 0 →
  (∀ x y, hits x y (plan_regions geom start stop) = if in_window geom start stop x y then 1%nat else 0%nat) ∧
  Forall (region_ok geom) (plan_regions geom start stop) ∧ StronglySorted below (plan_regions geom start stop).
Proof.
  intros Hp Hp4 Hw Hwp Hh Hext Hs Hs4. unfold plan_regions, extent_end, BYTES_PER_TEXEL.
  destruct (_ || _ || _) eqn:E0; [rewrite !orb_true_iff, !Z.eqb_eq in E0; lia|].
  destruct ((height_texels geom =? 0) || (width_texels geom =? 0)) eqn:E1; [rewrite !orb_true_iff, !Z.eqb_eq in E1; lia|].
  rewrite (u64_small (_ * pitch_bytes geom)) by (unfold is_u64; nia). rewrite u64_small by (unfold is_u64; nia).
  set (ext := _ + width_texels geom * 4). set (stop' := stop `min` ext).
  assert (∀ x y, in_window geom start stop x y = in_window geom start stop' x y) as Hin.
  { intros x y. apply eq_true_iff_eq. unfold in_window, stop', ext. rewrite !andb_true_iff, !Z.leb_le, !Z.ltb_lt.
    split; [|lia]. intros. assert (y * pitch_bytes geom ≤ (height_texels geom - 1) * pitch_bytes geom) by nia. lia. }
  destruct (stop' <=? start) eqn:E2; reflect_bools.
  { split_and!; [|done|constructor]. intros x y. rewrite Hin.
    destruct (in_window _ _ _ _ _) eqn:E3; [|done]. unfold in_window in E3. reflect_bools. lia. }
  set (first := start `div` _). set (lst := (stop' - 1) `div` _).
  assert (∀ a, a `div` pitch_bytes geom * pitch_bytes geom ≤ a < (a `div` pitch_bytes geom + 1) * pitch_bytes geom) as Hdiv.
  { intros a. pose proof (Z.div_mod a (pitch_bytes geom)). pose proof (Z.mod_pos_bound a (pitch_bytes geom) Hp). lia. }
  pose proof (Hdiv start) as Hf. pose proof (Hdiv (stop' - 1)) as Hl. clear Hdiv. fold first lst in Hf, Hl.
  assert (0 ≤ first ≤ lst) by (split; [apply Z.div_pos; lia|apply Z.div_le_mono; lia]).
  clearbody first lst.
  destruct (plan_rows_ok geom start stop' Hp Hp4 Hw Hwp Hh Hext Hs Hs4 (Z.to_nat (lst - first + 1)) first [])
    as [Ho _ Hso Ht]; [unfold stop', ext; lia| |lia|].
  { split; [done..|constructor|]. intros x y.
    destruct (_ && _) eqn:E3; [|done]. unfold in_window in E3. reflect_bools.
    pose proof (Z.mul_le_mono_nonneg_r (y + 1) first (pitch_bytes geom)). lia. }
  split_and!; [|done..]. intros x y. rewrite Hin. rewrite Ht. destruct (in_window _ _ _ _ _) eqn:E3; [|done].
  destruct (y <? _) eqn:E4; [done|]. unfold in_window in E3. reflect_bools.
  pose proof (Z.mul_le_mono_nonneg_r (lst + 1) y (pitch_bytes geom)). lia.
Qed.

(** Two whole rows of a padded frame and part of a third: the two are one rectangle. *)
Lemma plan_regions_exact_witness :
  plan_regions (mkWindowGeometry 32 4 3) 0 0x48 = [mkRegionOf 0 0 0 4 2; mkRegionOf 64 0 2 2 1] ∧
  hits 1 2 (plan_regions (mkWindowGeometry 32 4 3) 0 0x48) = 1%nat ∧
  hits 2 2 (plan_regions (mkWindowGeometry 32 4 3) 0 0x48) = 0%nat.
Proof.
  destruct (plan_regions_exact (mkWindowGeometry 32 4 3) 0 0x48) as (Ht & _ & _); try (reflexivity || (cbn; lia)).
  split; [reflexivity|]. rewrite !Ht. split; reflexivity.
Defined.

(** A range that starts inside a texel: the rectangle's column is rounded down but its
    offset is not, so the offset is not the one of its first texel. *)
Lemma plan_regions_unaligned :
  plan_regions (mkWindowGeometry 16 4 1) 2 16 = [mkRegionOf 2 0 0 3 1].
Proof. reflexivity. Qed.
