(* ===== verification/GuestRam.v ===== *)
(** Bounded references to guest RAM: src/reims-vgpu/crates/reims-vgpu-memory/src/lib.rs
    (GuestRamImport, GuestSlice, GuestRef, GuestRun, the published import limits) and
    align_up_u64 of reims-vgpu-protocol/src/checked.rs.

    An import is one host mapping the GPU binds; a slice is a byte range of one import,
    widened to the import granularity.  [NEXT], the process-wide source of identities,
    is threaded as a number; an exhausted identity space is the source's panic, [None].
    A [usize] is 64 bits wide. *)
From S2P Require Import Prelude Shim.

(** ** u64 arithmetic of the standard library and checked.rs *)
Definition checked_add (a b : Z) : option Z := if a + b <? 2 ^ 64 then Some (a + b) else None.
Definition checked_sub (a b : Z) : option Z := if b <=? a then Some (a - b) else None.
Definition is_power_of_two (a : Z) : bool := nz a && (Z.land a (a - 1) =? 0).

Definition align_up_u64 (value align : Z) : option Z :=
  if (align =? 0) || nz (Z.land align (align - 1)) then None
  else
    let add := align - 1 in
    match checked_add value add with None => None | Some rounded => Some (Z.ldiff rounded add) end.

Inductive GuestRamError :=
  | RegionEmpty | RegionUnmapped | RegionWraps (host_va len : Z)
  | AlignmentNotPowerOfTwo (align : Z) | AlignmentUnsatisfiable (align len : Z)
  | SliceEmpty | SliceOverflow (offset len : Z) | SliceEndPastImport (stop import_len : Z)
  | SliceAlignedEndPastImport (aligned_end import_len : Z) | SliceForeignImport (slice import : Z)
  | GpaOutsideImport (gpa gpa_base len : Z).

Record GuestRamImport := mkImport {
  imp_id : Z; imp_retired : bool; imp_gpa_base : option Z; imp_host_base : Z; imp_len : Z; imp_align : Z }.
Record GuestSlice := mkSlice { sl_import : Z; sl_offset : Z; sl_len : Z; sl_head : Z; sl_requested : Z }.
Record BoundRange := mkBound { b_offset : Z; b_len : Z }.
Record GuestRef := mkRef { ref_import : GuestRamImport; ref_slice : GuestSlice }.

(** ImportId::allocate. *)
Definition allocate (next : Z) : option (Z * Z) := if next =? 0 then None else Some (next, u64 (next + 1)).

(** The bounds checks and the trimming of GuestRamImport::new: the covered guest base,
    host base and length. *)
Definition trim_region (region : ReimsVgpuGuestRamRegion) (align : Z) : GuestRamError + Z * Z * Z :=
  if (align =? 0) || negb (is_power_of_two align) then inl (AlignmentNotPowerOfTwo align)
  else if span_len region =? 0 then inl RegionEmpty
  else if host_va region =? 0 then inl RegionUnmapped
  else
    let wraps := RegionWraps (host_va region) (span_len region) in
    match checked_add (host_va region) (span_len region) with
    | None => inl wraps
    | Some host_end =>
        if UINT64_MAX <? host_end then inl wraps
        else
          match checked_add (gpa_base region) (span_len region) with
          | None => inl wraps
          | Some _ =>
              let unsatisfiable := AlignmentUnsatisfiable align (span_len region) in
              match align_up_u64 (host_va region) align with
              | None => inl unsatisfiable
              | Some host_base =>
                  let head := host_base - host_va region in
                  match checked_sub (span_len region) head with
                  | None => inl unsatisfiable
                  | Some rest =>
                      let n := Z.ldiff rest (align - 1) in
                      if n =? 0 then inl unsatisfiable else inr (u64 (gpa_base region + head), host_base, n)
                  end
              end
          end
    end.
(** GuestRamImport::new. *)
Definition import_new (region : ReimsVgpuGuestRamRegion) (align next : Z) :
    option ((GuestRamError + GuestRamImport) * Z) :=
  match trim_region region align with
  | inl e => Some (inl e, next)
  | inr (base, host_base, n) =>
      match allocate next with
      | None => None
      | Some (id, next) => Some (inr (mkImport id false (Some base) host_base n align), next)
      end
  end.

(** GuestRamImport::new_host_allocation. *)
Definition new_host_allocation (host_base n align next : Z) : option ((GuestRamError + GuestRamImport) * Z) :=
  if (align =? 0) || negb (is_power_of_two align) then Some (inl (AlignmentNotPowerOfTwo align), next)
  else if host_base =? 0 then Some (inl RegionUnmapped, next)
  else if n =? 0 then Some (inl RegionEmpty, next)
  else
    match checked_add host_base n with
    | None => Some (inl (RegionWraps host_base n), next)
    | Some stop =>
        if UINT64_MAX <? stop then Some (inl (RegionWraps host_base n), next)
        else if nz (host_base mod align) || nz (n mod align) then Some (inl (AlignmentUnsatisfiable align n), next)
        else
          match allocate next with
          | None => None
          | Some (id, next) => Some (inr (mkImport id false None host_base n align), next)
          end
    end.

Section import.
Context (self : GuestRamImport).

Definition contains_gpa (gpa : Z) : bool :=
  match imp_gpa_base self with None => false | Some base => (base <=? gpa) && (gpa - base <? imp_len self) end.

(** GuestRamImport::slice. *)
Definition import_slice (offset n : Z) : GuestRamError + GuestSlice :=
  if n =? 0 then inl SliceEmpty
  else
    match checked_add offset n with
    | None => inl (SliceOverflow offset n)
    | Some stop =>
        if imp_len self <? stop then inl (SliceEndPastImport stop (imp_len self))
        else
          let aligned_offset := Z.ldiff offset (imp_align self - 1) in
          match align_up_u64 stop (imp_align self) with
          | None => inl (SliceOverflow offset n)
          | Some aligned_end =>
              if imp_len self <? aligned_end then inl (SliceAlignedEndPastImport aligned_end (imp_len self))
              else inr (mkSlice (imp_id self) aligned_offset (aligned_end - aligned_offset) (offset - aligned_offset) n)
          end
    end.

Definition slice_for_gpa (gpa n : Z) : GuestRamError + GuestSlice :=
  match imp_gpa_base self with
  | None => inl (GpaOutsideImport gpa 0 (imp_len self))
  | Some base =>
      match checked_sub gpa base with
      | None => inl (GpaOutsideImport gpa base (imp_len self))
      | Some offset =>
          if imp_len self <=? offset then inl (GpaOutsideImport gpa base (imp_len self)) else import_slice offset n
      end
  end.

(** GuestRamImport::resolve. *)
Definition import_resolve (s : GuestSlice) : GuestRamError + BoundRange :=
  if negb (sl_import s =? imp_id self) then inl (SliceForeignImport (sl_import s) (imp_id self))
  else
    match checked_add (sl_offset s) (sl_len s) with
    | None => inl (SliceOverflow (sl_offset s) (sl_len s))
    | Some stop =>
        if imp_len self <? stop then inl (SliceEndPastImport stop (imp_len self))
        else inr (mkBound (sl_offset s) (sl_len s))
    end.
End import.

(** GuestRef::new and bound. *)
Definition ref_new (import : GuestRamImport) (s : GuestSlice) : GuestRamError + GuestRef :=
  match import_resolve import s with inl e => inl e | inr _ => inr (mkRef import s) end.
Definition ref_bound (r : GuestRef) : GuestRamError + BoundRange := import_resolve (ref_import r) (ref_slice r).

(** The host address of the first byte a reference was asked for: the computation of
    store_u32_release. *)
Definition ref_address (r : GuestRef) : option Z :=
  match ref_bound r with
  | inl _ => None
  | inr bound =>
      match checked_add (b_offset bound) (sl_head (ref_slice r)) with
      | None => None
      | Some byte_offset => checked_add (imp_host_base (ref_import r)) byte_offset
      end
  end.

(** store_u32_release, on the bytes of the host. *)
Definition store_u32_release (r : GuestRef) (value : Z) (host : Z → Z) : bool * (Z → Z) :=
  if sl_requested (ref_slice r) <? 4 then (false, host)
  else
    match ref_address r with
    | None => (false, host)
    | Some address =>
        if nz (address mod 4) then (false, host)
        else (true, λ x, if (address <=? x) && (x <? address + 4)
                         then le_bytes 4 value !!! Z.to_nat (x - address) else host x)
    end.

(** ** GuestRun *)
Record GuestRun := mkGuestRun { host_ptr : Z; gr_len : Z }.
Definition in_mapping (base mapping_len offset n : Z) : option GuestRun :=
  if base =? 0 then None
  else
    stop ← checked_add offset n;
    if mapping_len <? stop then None
    else
      p ← checked_add base offset;
      _ ← checked_add p n;
      Some (mkGuestRun p n).

(** ** The published limits *)
Record Limits := mkLimits { GRANULARITY : Z; IMPORT_BUDGET : Z; IMPORT_SPAN_MAX : Z }.
Definition forget_import_limits : Limits := mkLimits 0 0 0.
Definition latch_import_limits (align budget span_max : Z) : Limits :=
  if (align =? 0) || negb (is_power_of_two align) then forget_import_limits
  else if budget =? 0 then forget_import_limits
  else if span_max <? align then forget_import_limits
  else mkLimits align budget span_max.
Definition latched (x : Z) : option Z := if x =? 0 then None else Some x.
Definition granularity (l : Limits) : option Z := latched (GRANULARITY l).
Definition import_budget (l : Limits) : option Z := latched (IMPORT_BUDGET l).
Definition import_span_max (l : Limits) : option Z := latched (IMPORT_SPAN_MAX l).

(** ** Rounding *)
Lemma power_of_two_spec a : 0 ≤ a → is_power_of_two a = true → ∃ k, 0 ≤ k ∧ a = 2 ^ k.
Proof.
  unfold is_power_of_two. intros Ha [? H0]%andb_true_iff. reflect_bools. exists (Z.log2 a). split; [apply Z.log2_nonneg|].
  destruct (Z.log2_spec a) as [Hlo Hhi]; [lia|]. apply Z.le_antisymm; [|done]. apply Z.le_ngt. intros Hlt.
  assert (Z.testbit (Z.land a (a - 1)) (Z.log2 a) = true) as E; [|by rewrite H0, Z.bits_0 in E].
  rewrite Z.land_spec, Z.bit_log2 by lia.
  assert (Z.log2 (a - 1) = Z.log2 a) as <-.
  { apply Z.log2_unique; [apply Z.log2_nonneg|]. lia. }
  pose proof (Z.pow_pos_nonneg 2 (Z.log2 a)). pose proof (Z.log2_nonneg a). rewrite Z.bit_log2 by lia. done.
Qed.

Lemma ldiff_pow2 a k : 0 ≤ k → Z.ldiff a (2 ^ k - 1) = a - a mod 2 ^ k.
Proof.
  intros Hk. assert (2 ^ k - 1 = Z.ones k) as -> by (rewrite Z.ones_equiv; lia).
  rewrite Z.ldiff_ones_r, Z.shiftr_div_pow2, Z.shiftl_mul_pow2 by done.
  pose proof (Z.div_mod a (2 ^ k)). lia.
Qed.

Lemma ldiff_align a align : 0 ≤ align → is_power_of_two align = true → Z.ldiff a (align - 1) = a - a mod align.
Proof. intros Ha (k & ? & ->)%power_of_two_spec; [|done]. by apply ldiff_pow2. Qed.

(** [a] rounded up to a multiple of [b]. *)
Definition round_up (a b : Z) : Z := a + (- a) mod b.

Lemma round_up_spec a b : 0 < b → a ≤ round_up a b < a + b ∧ round_up a b mod b = 0.
Proof.
  intros Hb. unfold round_up. pose proof (Z.mod_pos_bound (- a) b Hb). split; [lia|].
  rewrite Zplus_mod_idemp_r. by replace (a + - a) with 0 by lia.
Qed.

Lemma align_up_spec a align :
  0 ≤ a → 0 ≤ align → is_power_of_two align = true →
  align_up_u64 a align = if a + align - 1 <? 2 ^ 64 then Some (round_up a align) else None.
Proof.
  intros Ha Hal Hp. pose proof (λ a, ldiff_align a align Hal Hp) as Hd.
  unfold is_power_of_two in Hp. unfold align_up_u64, checked_add, nz.
  apply andb_true_iff in Hp as [H1 H2]. reflect_bools. destruct (align =? 0) eqn:E0; reflect_bools; [lia|].
  rewrite H2. cbn [orb negb Z.eqb]. replace (a + (align - 1)) with (a + align - 1) by lia.
  destruct (_ <? _); [|done]. f_equal. rewrite Hd.
  assert (0 < align) by lia. unfold round_up. clear Hd H2 H1 E0.
  pose proof (Z.mod_pos_bound (- a) align H) as B1. pose proof (Z.div_mod (- a) align ltac:(lia)) as D1.
  pose proof (Z.mod_pos_bound (a + align - 1) align H) as B2. pose proof (Z.div_mod (a + align - 1) align ltac:(lia)) as D2.
  generalize dependent ((- a) mod align). generalize dependent ((- a) `div` align).
  generalize dependent ((a + align - 1) mod align). generalize dependent ((a + align - 1) `div` align).
  intros q2 r2 ? ? q1 r1 ? ?. assert (q2 + q1 = 0) by nia. nia.
Qed.

(** ** Imports *)
Record import_ok (i : GuestRamImport) : Prop := {
  io_align : 0 < imp_align i ∧ is_power_of_two (imp_align i) = true;
  io_len : 0 < imp_len i ∧ imp_len i mod imp_align i = 0;
  io_host : 0 < imp_host_base i ∧ imp_host_base i mod imp_align i = 0 ∧ imp_host_base i + imp_len i < 2 ^ 64;
  io_gpa base : imp_gpa_base i = Some base → 0 ≤ base ∧ base + imp_len i < 2 ^ 64;
}.

(** The host byte an import has for a guest byte. *)
Definition import_host (i : GuestRamImport) (g : Z) : option Z :=
  if contains_gpa i g then base ← imp_gpa_base i; Some (imp_host_base i + (g - base)) else None.

(** What the shim reports: nothing negative, nothing past the end of either address space. *)
Definition region_wf (q : ReimsVgpuGuestRamRegion) : Prop :=
  0 ≤ gpa_base q ∧ 0 ≤ span_len q ∧ 0 ≤ host_va q ∧ gpa_base q + span_len q ≤ 2 ^ 64 ∧ host_va q + span_len q ≤ 2 ^ 64.

Lemma trim_region_ok q align base host_base n :
  region_wf q → 0 ≤ align → trim_region q align = inr (base, host_base, n) →
  0 < align ∧ is_power_of_two align = true ∧ 0 < host_va q ∧ host_base = round_up (host_va q) align ∧
  base = gpa_base q + (host_base - host_va q) ∧ n = (span_len q - (host_base - host_va q)) `div` align * align ∧
  0 < n ∧ host_base + n ≤ host_va q + span_len q < 2 ^ 64 ∧ gpa_base q + span_len q < 2 ^ 64.
Proof.
  intros (? & ? & ? & ? & ?) Hal. unfold trim_region, checked_add, checked_sub.
  destruct (_ || _) eqn:E0; [done|]. apply orb_false_iff in E0 as [E0 Ep%negb_false_iff].
  destruct (span_len q =? 0) eqn:E1; [done|]. destruct (host_va q =? 0) eqn:E2; [done|].
  destruct (host_va q + span_len q <? 2 ^ 64) eqn:E3; [|done]. destruct (UINT64_MAX <? _); [done|].
  destruct (gpa_base q + span_len q <? 2 ^ 64) eqn:E4; [|done]. rewrite align_up_spec by (done || lia).
  destruct (host_va q + align - 1 <? 2 ^ 64); [|done]. destruct (_ <=? span_len q) eqn:E5; [|done].
  rewrite ldiff_align by done. reflect_bools. assert (0 < align) as Hpos by lia.
  destruct (round_up_spec (host_va q) align Hpos) as [? ?].
  pose proof (Z.mod_pos_bound (span_len q - (round_up (host_va q) align - host_va q)) align Hpos).
  pose proof (Z.div_mod (span_len q - (round_up (host_va q) align - host_va q)) align ltac:(lia)).
  pose proof (Z.mod_le (span_len q - (round_up (host_va q) align - host_va q)) align ltac:(lia) Hpos).
  destruct (_ =? 0) eqn:E6; [done|]. intros [= <- <- <-]. reflect_bools. rewrite u64_small by (unfold is_u64; lia).
  split_and!; try done; try lia.
Qed.

Lemma import_new_ok q align next i next' :
  region_wf q → 0 ≤ align → import_new q align next = Some (inr i, next') →
  import_ok i ∧ imp_align i = align ∧ imp_id i = next ∧ next ≠ 0 ∧ next' = u64 (next + 1) ∧
  is_Some (imp_gpa_base i) ∧ (∀ g h, import_host i g = Some h → span_host q g = Some h).
Proof.
  intros Hq Hal. unfold import_new, allocate. destruct (trim_region q align) as [e|[[base hb] n]] eqn:E; [done|].
  destruct (next =? 0) eqn:E0; [done|]. intros [= <- <-]. reflect_bools.
  pose proof (trim_region_ok _ _ _ _ _ Hq Hal E) as (Hp & Hpow & Hh & -> & -> & En & Hn & Hb & Hg).
  destruct (round_up_spec (host_va q) align Hp) as [? ?]. destruct Hq as (? & ? & ? & ? & ?).
  split; [|split_and!; [done..|by eexists|]].
  - split; cbn; [done| |split_and!; [lia|done|lia]|intros ? [= <-]; lia].
    split; [done|]. rewrite En. apply Z.mod_mul. lia.
  - intros g h. unfold import_host, contains_gpa, span_host. cbn.
    destruct (_ && _) eqn:E1; [|done]. reflect_bools. intros [= <-].
    destruct ((_ <=? g) && _) eqn:E2; [f_equal; lia|]. apply andb_false_iff in E2 as [?|?]; reflect_bools; lia.
Qed.

(** ** Slices *)
Lemma import_slice_ok i offset n s :
  import_ok i → 0 ≤ offset → import_slice i offset n = inr s → 0 ≤ n →
  let lo := offset - offset mod imp_align i in
  let hi := round_up (offset + n) (imp_align i) in
  s = mkSlice (imp_id i) lo (hi - lo) (offset - lo) n ∧ 0 < n ∧ 0 ≤ lo ≤ offset ∧ offset + n ≤ hi ≤ imp_len i ∧
  lo mod imp_align i = 0 ∧ hi mod imp_align i = 0.
Proof.
  intros [[Ha Hp] [Hl Hlm] [Hh _] _] Ho. unfold import_slice, checked_add. destruct (n =? 0) eqn:E0; [done|].
  destruct (_ <? 2 ^ 64) eqn:E1; [|done]. destruct (imp_len i <? offset + n) eqn:E2; [done|].
  intros Hs Hn. reflect_bools. rewrite align_up_spec in Hs by (done || lia). destruct (_ <? 2 ^ 64); [|done].
  destruct (imp_len i <? _) eqn:E3; [done|]. reflect_bools.
  rewrite ldiff_align in Hs by (done || lia). revert Hs. intros [= <-].
  destruct (round_up_spec (offset + n) (imp_align i) Ha) as [? ?].
  pose proof (Z.mod_pos_bound offset _ Ha). pose proof (Z.mod_le offset (imp_align i) Ho Ha).
  split_and!; try done; try lia. rewrite Zminus_mod_idemp_r, Z.sub_diag. done.
Qed.

Lemma round_up_least a b m : 0 < b → a ≤ m → m mod b = 0 → round_up a b ≤ m.
Proof.
  intros Hb Ham Hm. destruct (round_up_spec a b Hb) as [H1 H2].
  apply Z.div_exact in Hm; [|lia]. apply Z.div_exact in H2; [|lia].
  assert (round_up a b `div` b ≤ m `div` b) by (apply Z.lt_succ_r, (Z.mul_lt_mono_pos_l b); lia). nia.
Qed.

Lemma multiple_le a b : 0 < a → 0 < b → a mod b = 0 → b ≤ a.
Proof.
  intros Ha Hb Hm. destruct (Z.lt_ge_cases a b); [|done]. rewrite Z.mod_small in Hm by lia. lia.
Qed.

(** A range inside the import is never refused. *)
Lemma import_slice_total i offset n :
  import_ok i → 0 ≤ offset → 0 < n → offset + n ≤ imp_len i → ∃ s, import_slice i offset n = inr s.
Proof.
  intros [[Ha Hp] [Hl Hlm] (Hh & Hhm & Hhe) _] Ho Hn Hin. unfold import_slice, checked_add.
  pose proof (multiple_le _ _ Hh Ha Hhm).
  pose proof (round_up_least (offset + n) _ _ Ha Hin Hlm).
  destruct (n =? 0) eqn:E0; reflect_bools; [lia|]. destruct (_ <? 2 ^ 64) eqn:E1; reflect_bools; [|lia].
  destruct (imp_len i <? offset + n) eqn:E2; reflect_bools; [lia|]. rewrite align_up_spec by (done || lia).
  destruct (_ <? 2 ^ 64) eqn:E3; reflect_bools; [|lia]. destruct (imp_len i <? _) eqn:E4; reflect_bools; [lia|]. by eauto.
Qed.

(** The slice of a range binds, and its first requested byte is the range's. *)
Lemma slice_binds i offset n s :
  import_ok i → 0 ≤ offset → 0 ≤ n → import_slice i offset n = inr s →
  ref_new i s = inr (mkRef i s) ∧ ref_bound (mkRef i s) = inr (mkBound (sl_offset s) (sl_len s)) ∧
  ref_address (mkRef i s) = Some (imp_host_base i + offset) ∧ sl_requested s = n ∧ 0 < n.
Proof.
  intros Hi Ho Hn Hs. destruct (import_slice_ok _ _ _ _ Hi Ho Hs Hn) as (-> & ? & ? & ? & _ & _).
  destruct Hi as [_ _ (? & _ & ?) _].
  assert (∀ s, sl_import s = imp_id i → sl_offset s + sl_len s ≤ imp_len i →
    import_resolve i s = inr (mkBound (sl_offset s) (sl_len s))) as Hres.
  { intros s Hs1 Hs2. unfold import_resolve, checked_add. rewrite Hs1, Z.eqb_refl. cbn [negb].
    destruct (_ <? 2 ^ 64) eqn:E1; reflect_bools; [|lia]. destruct (imp_len i <? _) eqn:E2; reflect_bools; [lia|done]. }
  unfold ref_new, ref_address, ref_bound. cbn [ref_import ref_slice].
  rewrite !Hres by (cbn; done || lia). cbn. split_and!; try done. unfold checked_add.
  replace (_ + (offset - _)) with offset by lia.
  destruct (offset <? 2 ^ 64) eqn:E1; reflect_bools; [|lia]. destruct (_ <? 2 ^ 64) eqn:E2; reflect_bools; [done|lia].
Qed.

(** A slice is granted exactly for the non-empty ranges inside the import: every
    other request is refused by name before any arithmetic can wrap, and the checks
    after the widening never fire.  A granted slice is the smallest range of whole
    granules around the request, lies inside the import, and resolves to the host
    address of the request's first byte. *)
Theorem import_slice_bounds i offset n :
  import_ok i → is_u64 offset → is_u64 n →
  match import_slice i offset n with
  | inl e =>
      e = if n =? 0 then SliceEmpty
          else if 2 ^ 64 <=? offset + n then SliceOverflow offset n
          else SliceEndPastImport (offset + n) (imp_len i)
  | inr s =>
      0 < n ∧ offset + n ≤ imp_len i ∧ sl_import s = imp_id i ∧ sl_requested s = n ∧
      sl_offset s = offset - offset mod imp_align i ∧ sl_offset s + sl_head s = offset ∧
      sl_offset s + sl_len s = round_up (offset + n) (imp_align i) ∧ sl_offset s + sl_len s ≤ imp_len i ∧
      ref_bound (mkRef i s) = inr (mkBound (sl_offset s) (sl_len s)) ∧
      ref_address (mkRef i s) = Some (imp_host_base i + offset)
  end ∧
  (0 < n → offset + n ≤ imp_len i → ∃ s, import_slice i offset n = inr s).
Proof.
  intros Hi [Ho _] [Hn _]. split; [|intros; by apply import_slice_total].
  destruct (import_slice i offset n) as [e|s] eqn:E.
  - destruct (decide (0 < n ∧ offset + n ≤ imp_len i)) as [[? ?]|Hno].
    { destruct (import_slice_total i offset n) as [s E']; [done..|]. congruence. }
    revert E. unfold import_slice, checked_add. destruct (n =? 0) eqn:E0; [congruence|].
    rewrite Z.leb_antisym. destruct (_ <? 2 ^ 64); cbn [negb]; [|congruence].
    reflect_bools. destruct (imp_len i <? _) eqn:E1; [congruence|]. reflect_bools. lia.
  - pose proof (slice_binds _ _ _ _ Hi Ho Hn E) as (_ & ? & ? & ? & ?).
    destruct (import_slice_ok _ _ _ _ Hi Ho E Hn) as (-> & _ & _ & ? & _ & _). cbn in *.
    split_and!; done || lia.
Qed.

Definition demo_import : GuestRamImport := mkImport 1 false (Some 0x70000000) 0x10000 0x8000 0x1000.
Lemma demo_import_ok : import_ok demo_import.
Proof. split; cbn; repeat split; try lia; by intros; simplify_eq. Qed.

Lemma import_slice_bounds_witness :
  import_slice demo_import 0x1010 0x20 = inr (mkSlice 1 0x1000 0x1000 0x10 0x20) ∧
  ref_address (mkRef demo_import (mkSlice 1 0x1000 0x1000 0x10 0x20)) = Some 0x11010 ∧
  ∃ s, import_slice demo_import 0x7fff 1 = inr s.
Proof.
  pose proof (import_slice_bounds demo_import 0x1010 0x20 demo_import_ok ltac:(done) ltac:(done)) as [Hs _].
  pose proof (import_slice_bounds demo_import 0x7fff 1 demo_import_ok ltac:(done) ltac:(done)) as [_ Ht].
  split; [reflexivity|]. split; [|apply Ht; cbn; lia].
  change (import_slice demo_import 0x1010 0x20) with (inr (A := GuestRamError) (mkSlice 1 0x1000 0x1000 0x10 0x20)) in Hs.
  apply Hs.
Defined.

(** ** The completion word *)

(** A granted store writes the four bytes of the word at the reference's first byte and
    nothing else; a refused one writes nothing. *)
Lemma store_u32_exact i offset n s value host :
  import_ok i → 0 ≤ offset → 0 ≤ n → import_slice i offset n = inr s →
  let a := imp_host_base i + offset in
  store_u32_release (mkRef i s) value host =
    if (4 <=? n) && (a mod 4 =? 0)
    then (true, λ x, if (a <=? x) && (x <? a + 4) then le_bytes 4 value !!! Z.to_nat (x - a) else host x)
    else (false, host).
Proof.
  intros Hi Ho Hn Hs a. destruct (slice_binds _ _ _ _ Hi Ho Hn Hs) as (_ & _ & Ea & Er & _).
  unfold store_u32_release. cbn [ref_slice]. rewrite Er, Ea, Z.leb_antisym. destruct (n <? 4); [done|]. cbn [negb andb].
  unfold nz. fold a. by destruct (a mod 4 =? 0).
Qed.
