(* ===== verification/GuestRamMap.v ===== *)
(** Which imports back the guest's RAM: src/reims-vgpu/crates/reims-vgpu/src/runtime/
    guest_ram_map.rs, over guest_ram_regions of qemu/host_ops.rs and the shim's walk.

    The process-wide [MAP], the source of import identities and the limits the backend
    published are one state; the lock is held for the whole of every operation.  A
    host is anything that can say where its RAM is ([HostOps]); QEMU's answer is the
    shim's, asked again with a larger array when the first was too short.  [None]
    is the panic of an exhausted identity space. *)
From S2P Require Import Prelude Shim GuestRam Runs.

Inductive GuestRamRegionsError :=
  | CallbackMissing | Args | NoRam | StillTruncated (total capacity : Z) | UnknownCode (code : Z).
Definition from_code (code : Z) : GuestRamRegionsError :=
  if code =? REIMS_VGPU_GUEST_RAM_ERR_ARGS then Args
  else if code =? REIMS_VGPU_GUEST_RAM_ERR_NO_RAM then NoRam
  else UnknownCode code.

(** The one method of the trait this part uses. *)
Class HostOps (H : Type) := guest_ram_regions : H → GuestRamRegionsError + list ReimsVgpuGuestRamRegion.

(** ** QEMU's host *)
Definition FIRST_TRY : nat := 8.
Definition default_region : ReimsVgpuGuestRamRegion := mkSpan 0 0 0.
(** The callback of the shim's table: the array it was given, as it leaves it, and its
    return code. *)
Record QemuHost := mkQemuHost {
  ops_guest_ram_regions :
    option (option (list ReimsVgpuGuestRamRegion) → Z → Z * option (list ReimsVgpuGuestRamRegion)) }.

Definition qemu_guest_ram_regions (h : QemuHost) : GuestRamRegionsError + list ReimsVgpuGuestRamRegion :=
  match ops_guest_ram_regions h with
  | None => inl CallbackMissing
  | Some f =>
      let buf := replicate FIRST_TRY default_region in
      let '(rc, o) := f (Some buf) (Z.of_nat (length buf)) in
      let buf := default buf o in
      if rc <? 0 then inl (from_code rc)
      else if Z.of_nat (length buf) <? rc then
        let buf := buf ++ replicate (Z.to_nat rc - length buf) default_region in
        let '(rc, o) := f (Some buf) (Z.of_nat (length buf)) in
        let buf := default buf o in
        if rc <? 0 then inl (from_code rc)
        else if Z.of_nat (length buf) <? rc then inl (StillTruncated rc (Z.of_nat (length buf)))
        else inr (take (Z.to_nat rc) buf)
      else inr (take (Z.to_nat rc) buf)
  end.
#[export] Instance qemu_host_ops : HostOps QemuHost := qemu_guest_ram_regions.

(** ** The map *)
Inductive MapRefusal :=
  | NoBackendImport | HostRefused (why : GuestRamRegionsError) | NoUsableRegion (spans : Z)
  | ImportExceedsHeap (needed budget : Z) | GpaNotInAnyImport (gpa : Z) | OutsideImport (e : GuestRamError)
  | Scattered (pages runs first : Z).
Record Resolved := mkResolved { imports : list GuestRamImport; refusal : option MapRefusal }.
Record GuestWindowRun := mkWindowRun { wr_offset : Z; wr_guest : GuestRef }.
Record MapState := mkMapState { MAP : option Resolved; NEXT : Z; limits : Limits }.
#[export] Instance eta_map : Settable MapState := λ s, mkMapState (MAP s) (NEXT s) (limits s).

(** The loop of chunk_span from [done] on. *)
Fixpoint chunk_from (span : ReimsVgpuGuestRamRegion) (span_max done : Z) (fuel : nat) : list ReimsVgpuGuestRamRegion :=
  match fuel with
  | O => []
  | S fuel =>
      if done <? span_len span then
        let n := span_max `min` (span_len span - done) in
        mkSpan (u64 (gpa_base span + done)) (u64 (host_va span + done)) n :: chunk_from span span_max (done + n) fuel
      else []
  end.
Definition chunk_span (span : ReimsVgpuGuestRamRegion) (span_max : Z) : list ReimsVgpuGuestRamRegion :=
  if (span_max =? 0) || (span_len span <=? span_max) then [span]
  else chunk_from span span_max 0 (S (Z.to_nat (span_len span `div` span_max))).

(** The filter_map over the chunks. *)
Fixpoint import_all (align : Z) (chunks : list ReimsVgpuGuestRamRegion) (next : Z) : option (list GuestRamImport * Z) :=
  match chunks with
  | [] => Some ([], next)
  | c :: chunks =>
      r ← import_new c align next;
      rest ← import_all align chunks r.2;
      Some (match r.1 with inl _ => rest.1 | inr i => i :: rest.1 end, rest.2)
  end.

(** The order of an optional address: none comes first. *)
Definition key_le (a b : option Z) : bool :=
  match a, b with None, _ => true | Some _, None => false | Some a, Some b => a <=? b end.
Fixpoint insert_by_key (x : GuestRamImport) (l : list GuestRamImport) : list GuestRamImport :=
  match l with
  | [] => [x]
  | y :: l => if key_le (imp_gpa_base x) (imp_gpa_base y) then x :: y :: l else y :: insert_by_key x l
  end.
Definition sort_by_key (l : list GuestRamImport) : list GuestRamImport := foldr insert_by_key [] l.

Definition resolve `{HostOps H} (host : H) (l : Limits) (next : Z) : option (Resolved * Z) :=
  match granularity l with
  | None => Some (mkResolved [] (Some NoBackendImport), next)
  | Some align =>
      match guest_ram_regions host with
      | inl why => Some (mkResolved [] (Some (HostRefused why)), next)
      | inr spans =>
          let span_max := default UINT64_MAX (import_span_max l) in
          r ← import_all align (flat_map (λ span, chunk_span span span_max) spans) next;
          let imports := sort_by_key r.1 in
          let needed := foldl (λ a i, u64 (a + imp_len i)) 0 imports in
          let over_budget := match import_budget l with
                             | Some budget => if budget <? needed then Some budget else None
                             | None => None
                             end in
          Some (match over_budget with
                | Some budget => mkResolved [] (Some (ImportExceedsHeap needed budget))
                | None => mkResolved imports (if (length imports =? 0)%nat
                                              then Some (NoUsableRegion (Z.of_nat (length spans))) else None)
                end, r.2)
      end
  end.

Definition with_map `{HostOps H} (host : H) (st : MapState) : option (Resolved * MapState) :=
  match MAP st with
  | Some r => Some (r, st)
  | None => r ← resolve host (limits st) (NEXT st); Some (r.1, st <| MAP := Some r.1 |> <| NEXT := r.2 |>)
  end.

(** The last import whose base is at or below the address, if it holds it. *)
Definition starts_by (gpa : Z) (i : GuestRamImport) : bool :=
  match imp_gpa_base i with Some base => base <=? gpa | None => false end.
Fixpoint partition_point {A} (p : A → bool) (l : list A) : nat :=
  match l with [] => O | x :: l => if p x then S (partition_point p l) else O end.
Definition find_import (self : Resolved) (gpa : Z) : option GuestRamImport :=
  match partition_point (starts_by gpa) (imports self) with
  | O => None
  | S i =>
      match imports self !! i with
      | Some i => if contains_gpa i gpa then Some i else None
      | None => None
      end
  end.

(** Resolved::reference. *)
Definition resolved_reference (self : Resolved) (gpa n : Z) : MapRefusal + GuestRef :=
  match find_import self gpa with
  | None => inl (GpaNotInAnyImport gpa)
  | Some import =>
      match slice_for_gpa import gpa n with
      | inl e => inl (OutsideImport e)
      | inr s => match ref_new import s with inl e => inl (OutsideImport e) | inr r => inr r end
      end
  end.
Definition import_end (self : Resolved) (gpa : Z) : option Z :=
  i ← find_import self gpa; base ← imp_gpa_base i; Some (u64 (base + imp_len i)).

Definition standing_refusal `{HostOps H} (host : H) (st : MapState) : option (option MapRefusal * MapState) :=
  r ← with_map host st; Some (refusal r.1, r.2).
Definition packed_alias_import_align `{HostOps H} (host : H) (n : Z) (st : MapState) : option (option Z * MapState) :=
  r ← standing_refusal host st;
  Some (match r.1 with
        | Some _ => None
        | None =>
            align ← granularity (limits r.2);
            span_max ← import_span_max (limits r.2);
            if span_max <? n then None
            else budget ← import_budget (limits r.2); if budget <? n then None else Some align
        end, r.2).
Definition reference `{HostOps H} (host : H) (gpa n : Z) (st : MapState) : option ((MapRefusal + GuestRef) * MapState) :=
  r ← with_map host st;
  Some (match refusal r.1 with Some why => inl why | None => resolved_reference r.1 gpa n end, r.2).

(** The loop over the pieces of one run. *)
Fixpoint run_pieces (self : Resolved) (first run_start window_start piece stop : Z) (fuel : nat) :
    MapRefusal + list GuestWindowRun :=
  match fuel with
  | O => inr []
  | S fuel =>
      if piece <? stop then
        let gpa := u64 (first + (piece - run_start)) in
        let piece_end := match import_end self gpa with
                         | Some e => if gpa <? e then stop `min` u64 (piece + (e - gpa)) else stop
                         | None => stop
                         end in
        match resolved_reference self gpa (piece_end - piece) with
        | inl why => inl why
        | inr guest =>
            match run_pieces self first run_start window_start piece_end stop fuel with
            | inl why => inl why
            | inr out => inr (mkWindowRun (piece - window_start) guest :: out)
            end
        end
      else inr []
  end.
Fixpoint window_pieces (self : Resolved) (gpas : list Z) (page window_start window_end : Z) (rs : list range) :
    MapRefusal + list GuestWindowRun :=
  match rs with
  | [] => inr []
  | (i, j) :: rs =>
      let run_start := u64 (Z.of_nat i * page) in
      let run_end := u64 (Z.of_nat j * page) in
      let start := run_start `max` window_start in
      let stop := run_end `min` window_end in
      match (if stop <=? start then inr []
             else run_pieces self (gpas !!! i) run_start window_start start stop (Z.to_nat (stop - start))) with
      | inl why => inl why
      | inr out =>
          match window_pieces self gpas page window_start window_end rs with
          | inl why => inl why
          | inr out' => inr (out ++ out')
          end
      end
  end.
Definition references_for_runs `{HostOps H} (host : H) (gpas : list Z) (page in_page n : Z) (st : MapState) :
    option ((MapRefusal + list GuestWindowRun) * MapState) :=
  let scattered := Scattered (Z.of_nat (length gpas)) 0 (default 0 (head gpas)) in
  if (length gpas =? 0)%nat || (page =? 0) || (n =? 0) then Some (inl scattered, st)
  else
    match checked_add in_page n with
    | None => Some (inl scattered, st)
    | Some window_end =>
        r ← with_map host st;
        Some (match refusal r.1 with
              | Some why => inl why
              | None =>
                  match window_pieces r.1 gpas page in_page window_end (contig_page_runs page gpas) with
                  | inl why => inl why
                  | inr [] => inl scattered
                  | inr out => inr out
                  end
              end, r.2)
    end.

Definition reference_for_pages `{HostOps H} (host : H) (gpas : list Z) (page in_page n : Z) (st : MapState) :
    option ((MapRefusal + GuestRef) * MapState) :=
  r ← standing_refusal host st;
  match r.1 with
  | Some why => Some (inl why, r.2)
  | None =>
      match gpas with
      | [] => Some (inl (Scattered 0 0 0), r.2)
      | first :: _ =>
          if forallb (λ i, gpas !!! i =? u64 (first + u64 (Z.of_nat i * page))) (seq 0 (length gpas))
          then reference host (u64 (first + in_page)) n r.2
          else Some (inl (Scattered (Z.of_nat (length gpas)) (Z.of_nat (contig_run_count page gpas)) first), r.2)
      end
  end.

(** Teardown of the backend, and what it publishes. *)
Definition reset (st : MapState) : MapState := st <| MAP := None |>.
Definition publish (align budget span_max : Z) (st : MapState) : MapState :=
  st <| limits := latch_import_limits align budget span_max |>.
Definition withdraw (st : MapState) : MapState := st <| limits := forget_import_limits |>.

(** ** Chunks *)

(** Non-empty regions in ascending guest order, none past the end of either address
    space. *)
Definition region_fits (q : ReimsVgpuGuestRamRegion) : Prop := region_wf q ∧ 0 < span_len q.
Fixpoint regions_sorted (b : Z) (qs : list ReimsVgpuGuestRamRegion) : Prop :=
  match qs with
  | [] => True
  | q :: qs => b ≤ gpa_base q ∧ region_fits q ∧ regions_sorted (gpa_base q + span_len q) qs
  end.

(** [cs] continues [q] from [done] to its end, in pieces of at most [m] bytes. *)
Fixpoint chunks_of (q : ReimsVgpuGuestRamRegion) (m done : Z) (cs : list ReimsVgpuGuestRamRegion) : Prop :=
  match cs with
  | [] => done = span_len q
  | c :: cs =>
      gpa_base c = gpa_base q + done ∧ host_va c = host_va q + done ∧ 0 < span_len c ≤ m ∧
      (cs = [] ∨ span_len c = m) ∧ done + span_len c ≤ span_len q ∧ chunks_of q m (done + span_len c) cs
  end.

Lemma chunk_from_ok q m done fuel :
  region_fits q → 0 < m → 0 ≤ done ≤ span_len q → span_len q - done ≤ Z.of_nat fuel * m →
  chunks_of q m done (chunk_from q m done fuel).
Proof.
  intros [Hq Hl] Hm. revert done. induction fuel as [|fuel IH]; intros done Hd Hf; cbn [chunk_from]; [cbn; lia|].
  destruct (done <? span_len q) eqn:E; reflect_bools; [|cbn; lia]. destruct Hq as (? & ? & ? & ? & ?).
  cbn [chunks_of gpa_base host_va span_len]. rewrite !u64_small by (unfold is_u64; lia).
  split_and!; [done..|lia|lia| |lia|apply IH; [lia|nia]].
  destruct (decide (m < span_len q - done)); [right; lia|left].
  replace (done + _) with (span_len q) by lia. destruct fuel; cbn; [done|]. by rewrite Z.ltb_irrefl.
Qed.

Lemma chunk_span_ok q m : region_fits q → 0 < m → chunks_of q m 0 (chunk_span q m).
Proof.
  intros Hq Hm. pose proof (proj2 Hq). unfold chunk_span. destruct (m =? 0) eqn:E0; reflect_bools; [lia|]. cbn [orb].
  destruct (_ <=? m) eqn:E; reflect_bools; [cbn; split_and!; lia || auto|].
  apply chunk_from_ok; [done..|lia|]. pose proof (Z.div_mod (span_len q) m). pose proof (Z.mod_pos_bound (span_len q) m).
  pose proof (Z.div_pos (span_len q) m). rewrite Nat2Z.inj_succ, Z2Nat.id by lia. nia.
Qed.

Lemma chunks_sorted q m done cs rest b :
  region_fits q → 0 ≤ done → chunks_of q m done cs → b ≤ gpa_base q + done →
  (∀ b', b' ≤ gpa_base q + span_len q → regions_sorted b' rest) → regions_sorted b (cs ++ rest).
Proof.
  intros [Hq Hl]. revert done b. induction cs as [|c cs IH]; intros done b Hd Hc Hb Hr; cbn in *; [apply Hr; lia|].
  destruct Hc as (E1 & E2 & ? & _ & ? & Hc). unfold region_fits, region_wf in *.
  split_and!; [lia..|]. apply (IH (done + span_len c)); [lia|done|lia|done].
Qed.

Lemma chunks_host q m done cs g :
  chunks_of q m done cs → 0 ≤ done →
  spans_host cs g = if gpa_base q + done <=? g then span_host q g else None.
Proof.
  revert done. induction cs as [|c cs IH]; intros done Hc Hd; cbn in *.
  - unfold span_host. subst done. destruct (_ <=? g) eqn:E; [|done]. destruct (_ && _) eqn:E1; [|done]. reflect_bools. lia.
  - destruct Hc as (E1 & E2 & ? & _ & ? & Hc). rewrite (IH _ Hc) by lia. unfold span_host. rewrite E1, E2.
    destruct (gpa_base q + done <=? g) eqn:E3; reflect_bools.
    + destruct (g <? gpa_base q + done + span_len c) eqn:E4; reflect_bools; cbn [andb].
      * destruct (gpa_base q <=? g) eqn:E5; reflect_bools; [|lia].
        destruct (g <? gpa_base q + span_len q) eqn:E6; reflect_bools; [|lia]. cbn. f_equal. lia.
      * destruct (_ <=? g) eqn:E5; reflect_bools; [done|lia].
    + cbn [andb]. destruct (_ <=? g) eqn:E5; reflect_bools; [lia|done].
Qed.

Lemma regions_sorted_mono b b' qs : b' ≤ b → regions_sorted b qs → regions_sorted b' qs.
Proof. destruct qs; cbn; [done|]. intros ? (? & ? & ?). split_and!; [lia|done..]. Qed.

(** The chunks of sorted spans are sorted and describe the same memory. *)
Lemma flat_chunks m b qs :
  0 < m → regions_sorted b qs →
  regions_sorted b (flat_map (λ q, chunk_span q m) qs) ∧
  (∀ g, spans_host (flat_map (λ q, chunk_span q m) qs) g = spans_host qs g) ∧
  Forall (λ c, span_len c ≤ m) (flat_map (λ q, chunk_span q m) qs).
Proof.
  intros Hm. revert b. induction qs as [|q qs IH]; intros b Hs; [done|]. destruct Hs as (Hb & Hq & Hs).
  destruct (IH _ Hs) as (IH1 & IH2 & IH3). pose proof (chunk_span_ok q m Hq Hm) as Hc. cbn [flat_map]. split_and!.
  - apply (chunks_sorted q m 0); [done..|lia|]. intros b' ?. by apply (regions_sorted_mono (gpa_base q + span_len q)).
  - intros g. rewrite spans_host_app, IH2, (chunks_host _ _ _ _ g Hc) by lia. rewrite Z.add_0_r. cbn [spans_host].
    unfold span_host. destruct (gpa_base q <=? g); done.
  - apply Forall_app. split; [|done]. clear -Hc. revert Hc. generalize 0. induction (chunk_span q m) as [|c cs IH]; [done|].
    intros d (_ & _ & ? & _ & _ & Hc). constructor; [lia|by apply (IH _ Hc)].
Qed.

(** ** The imports *)

(** Imports of guest RAM in ascending order, without overlap, with identities of their
    own below [next]. *)
Fixpoint imports_sorted (b : Z) (ims : list GuestRamImport) : Prop :=
  match ims with
  | [] => True
  | i :: ims =>
      ∃ base, imp_gpa_base i = Some base ∧ b ≤ base ∧ import_ok i ∧ imports_sorted (base + imp_len i) ims
  end.

Lemma imports_sorted_mono b b' ims : b' ≤ b → imports_sorted b ims → imports_sorted b' ims.
Proof. destruct ims; cbn; [done|]. intros ? (base & ? & ? & ? & ?). exists base. split_and!; [done|lia|done..]. Qed.

Lemma imports_after b ims i g :
  imports_sorted b ims → i ∈ ims → contains_gpa i g = true → b ≤ g.
Proof.
  revert b. induction ims as [|i' ims IH]; intros b Hs Hin Hc; [by apply elem_of_nil in Hin|].
  destruct Hs as (base & Hbase & Hb & Hok & Hs). apply elem_of_cons in Hin as [->|Hin].
  - unfold contains_gpa in Hc. rewrite Hbase in Hc. reflect_bools. lia.
  - destruct Hok as [_ [? _] _ _]. specialize (IH _ Hs Hin Hc). lia.
Qed.

Lemma imports_in b ims i : imports_sorted b ims → i ∈ ims → import_ok i ∧ is_Some (imp_gpa_base i).
Proof.
  revert b. induction ims as [|i' ims IH]; intros b Hs Hin; [by apply elem_of_nil in Hin|].
  destruct Hs as (base & Hbase & Hb & Hok & Hs). apply elem_of_cons in Hin as [->|Hin]; [|by eapply IH].
  split; [done|by eexists].
Qed.

(** The region's bytes an import keeps start no earlier and end no later. *)
Lemma import_new_inside q align next i next' base :
  region_fits q → 0 ≤ align → import_new q align next = Some (inr i, next') → imp_gpa_base i = Some base →
  gpa_base q ≤ base ∧ base + imp_len i ≤ gpa_base q + span_len q.
Proof.
  intros [Hq _] Hal. unfold import_new, allocate. destruct (trim_region q align) as [e|[[base' hb] n]] eqn:E; [done|].
  destruct (next =? 0); [done|]. intros [= <- <-] [= <-].
  pose proof (trim_region_ok _ _ _ _ _ Hq Hal E) as (Hp & _ & _ & -> & -> & _ & _ & ? & ?).
  destruct (round_up_spec (host_va q) align Hp). cbn. lia.
Qed.

Lemma import_all_ok align cs b next ims next' :
  0 ≤ align → regions_sorted b cs → import_all align cs next = Some (ims, next') →
  imports_sorted b ims ∧
  (∀ i g h, i ∈ ims → import_host i g = Some h → spans_host cs g = Some h) ∧
  (∀ m, Forall (λ c, span_len c ≤ m) cs → Forall (λ i, imp_len i ≤ m) ims) ∧
  Forall (λ i, imp_align i = align) ims.
Proof.
  intros Hal. revert b next ims next'. induction cs as [|c cs IH]; intros b next ims next' Hs; cbn [import_all].
  { intros [= <- <-]. split_and!; [done| |done..]. intros i g h Hin. by apply elem_of_nil in Hin. }
  destruct Hs as (Hb & Hc & Hs). destruct (import_new c align next) as [[r n1]|] eqn:En; [|done]. cbn.
  destruct (import_all align cs n1) as [[ims' n2]|] eqn:Ea; [|done]. cbn.
  destruct (IH _ _ _ _ Hs Ea) as (IH1 & IH2 & IH3 & IH4).
  assert (∀ i g h, i ∈ ims' → import_host i g = Some h → span_host c g = None) as Hsep.
  { intros i g h Hin Hh. unfold import_host in Hh. destruct (contains_gpa i g) eqn:E; [|done].
    pose proof (imports_after _ _ _ _ IH1 Hin E). unfold span_host.
    destruct (_ && _) eqn:E'; [|done]. reflect_bools. lia. }
  destruct r as [e|i]; intros [= <- <-].
  - split_and!; [|intros i g h Hin Hh; cbn [spans_host]; rewrite (Hsep i g h) by done; by apply (IH2 i)
                 |intros m [_ ?]%Forall_cons; by apply IH3|done].
    apply (imports_sorted_mono (gpa_base c + span_len c)); [destruct Hc as [_ ?]; lia|done].
  - destruct (import_new_ok _ _ _ _ _ (proj1 Hc) Hal En) as (Hok & Hali & _ & _ & _ & [base Hbase] & Hh).
    pose proof (import_new_inside _ _ _ _ _ _ Hc Hal En Hbase) as [? ?].
    split_and!.
    + exists base. split_and!; [done|lia|done|]. by apply (imports_sorted_mono (gpa_base c + span_len c)).
    + intros i' g h [->|Hin]%elem_of_cons Hh'; cbn [spans_host]; [by rewrite (Hh g h)|].
      rewrite (Hsep i' g h) by done. by apply (IH2 i').
    + intros m [? ?]%Forall_cons. constructor; [lia|by apply IH3].
    + by constructor.
Qed.

(** Sorting sorted imports moves none. *)
Lemma insert_sorted b i ims : imports_sorted b (i :: ims) → insert_by_key i ims = i :: ims.
Proof.
  intros (base & Hb & _ & Hok & Hs). destruct ims as [|i' ims]; [done|]. destruct Hs as (base' & Hb' & ? & _).
  cbn. rewrite Hb, Hb'. cbn. destruct Hok as [_ [? _] _ _]. destruct (base <=? base') eqn:E; reflect_bools; [done|lia].
Qed.
Lemma sort_sorted b ims : imports_sorted b ims → sort_by_key ims = ims.
Proof.
  revert b. induction ims as [|i ims IH]; intros b Hs; [done|]. pose proof Hs as (base & _ & _ & _ & Hs').
  cbn. change (foldr insert_by_key [] ims) with (sort_by_key ims). rewrite (IH _ Hs'). by apply (insert_sorted b).
Qed.

(** The sum of the lengths fits a u64. *)
Lemma needed_exact b ims a :
  imports_sorted b ims → 0 ≤ a ≤ b → a < 2 ^ 64 →
  foldl (λ a i, u64 (a + imp_len i)) a ims = a + foldr (λ i, Z.add (imp_len i)) 0 ims.
Proof.
  revert b a. induction ims as [|i ims IH]; intros b a Hs Ha Ha64; cbn; [lia|].
  destruct Hs as (base & Hb & ? & Hok & Hs). destruct Hok as [_ [? _] _ Hg]. destruct (Hg _ Hb).
  rewrite u64_small by (unfold is_u64; lia). rewrite (IH (base + imp_len i)) by (done || lia). lia.
Qed.

(** ** The lookup *)
Lemma partition_point_length {A} (p : A → bool) l : (partition_point p l ≤ length l)%nat.
Proof. induction l; cbn; [lia|]. case_match; lia. Qed.

Lemma starts_by_none b ims g : imports_sorted b ims → g < b → partition_point (starts_by g) ims = 0%nat.
Proof.
  destruct ims as [|i ims]; [done|]. intros (base & Hb & ? & _) ?. cbn. unfold starts_by. rewrite Hb.
  destruct (base <=? g) eqn:E; reflect_bools; [lia|done].
Qed.

Definition find_in (ims : list GuestRamImport) (g : Z) : option GuestRamImport := find_import (mkResolved ims None) g.

Lemma find_in_spec b ims g :
  imports_sorted b ims →
  match find_in ims g with
  | Some i => i ∈ ims ∧ contains_gpa i g = true
  | None => ∀ i, i ∈ ims → contains_gpa i g = false
  end.
Proof.
  revert b. induction ims as [|i ims IH]; intros b Hs; [intros i Hin; by apply elem_of_nil in Hin|].
  pose proof Hs as (base & Hb & ? & Hok & Hs'). specialize (IH _ Hs').
  unfold find_in, find_import in *. cbn [imports partition_point] in *.
  destruct (starts_by g i) eqn:E.
  - destruct (partition_point (starts_by g) ims) as [|k] eqn:Ek.
    + cbn [lookup list_lookup]. destruct (contains_gpa i g) eqn:Ec; [split; [left|done]|].
      intros i' [->|Hin]%elem_of_cons; [done|by apply IH].
    + cbn [lookup list_lookup]. destruct (ims !! k) as [i'|] eqn:El.
      * destruct (contains_gpa i' g) eqn:Ec; [split; [right; apply IH|done]|].
        intros i'' [->|Hin]%elem_of_cons; [|by apply IH]. apply not_true_is_false. intros Hc.
        unfold contains_gpa in Hc. rewrite Hb in Hc. reflect_bools.
        rewrite (starts_by_none _ _ g Hs') in Ek by lia. done.
      * apply lookup_ge_None in El. pose proof (partition_point_length (starts_by g) ims). lia.
  - intros i' Hin. apply not_true_is_false. intros Hc. pose proof (imports_after _ _ _ _ Hs Hin Hc) as Hbg.
    unfold starts_by in E. rewrite Hb in E. reflect_bools.
    apply elem_of_cons in Hin as [->|Hin].
    + unfold contains_gpa in Hc. rewrite Hb in Hc. reflect_bools. lia.
    + destruct Hok as [_ [? _] _ _]. pose proof (imports_after _ _ _ _ Hs' Hin Hc). lia.
Qed.

(** ** What a host promises *)

(** The regions it reports are in order and translate exactly the addresses of [ram]. *)
Definition host_ok `{HostOps H} (h : H) (ram : Z → option Z) : Prop :=
  ∀ qs, guest_ram_regions h = inr qs → regions_sorted 0 qs ∧ ∀ g, spans_host qs g = ram g.

Definition shim_host (fv : list flat_range) : QemuHost := mkQemuHost (Some (reims_vgpu_shim_guest_ram_regions fv)).

Lemma maximal_sorted b qs :
  Forall (Shim.before (2 ^ 64)) qs → maximal qs → (∀ q, head qs = Some q → b ≤ gpa_base q) → regions_sorted b qs.
Proof.
  revert b. induction qs as [|q qs IH]; intros b Hf Hm Hb; [done|].
  apply Forall_cons in Hf as [(? & ? & ? & ? & ?) Hf]. cbn [regions_sorted]. split_and!; [by apply Hb| |].
  - unfold region_fits, region_wf. lia.
  - apply IH; [done| |].
    + intros i q1 q2 Hi1 Hi2. by apply (Hm (S i)).
    + intros q' Hq'. destruct qs as [|q'' qs]; [done|]. simplify_eq/=. by apply (Hm 0%nat q q').
Qed.

Lemma spans_sorted fv : fv_wf 0 fv → regions_sorted 0 (spans fv).
Proof.
  intros Hf. destruct (walk_spans fv Hf) as (_ & Hm & Hb). apply maximal_sorted; [done..|].
  intros q Hq. destruct (spans fv) as [|q' qs]; [done|]. simplify_eq/=. apply Forall_cons in Hb as [[? _] _]. done.
Qed.

Lemma take_written {A} (o qs : list A) :
  (length qs ≤ length o)%nat → take (length qs) (take (length o) qs ++ drop (length qs) o) = qs.
Proof. intros. rewrite (take_ge qs (length o)) by done. by rewrite take_app_length. Qed.

(** The retry always gets the whole list: one call when the first array is long enough,
    two when it is not. *)
Lemma qemu_regions_exact fv :
  fv_wf 0 fv →
  qemu_guest_ram_regions (shim_host fv) =
    match spans fv with
    | [] => inl NoRam
    | _ => if INT_MAX <? Z.of_nat (length (spans fv)) then inl Args else inr (spans fv)
    end.
Proof.
  intros Hf. unfold qemu_guest_ram_regions, shim_host. cbn [ops_guest_ram_regions].
  rewrite shim_call by done. rewrite length_replicate.
  assert (length (take FIRST_TRY (spans fv) ++ drop (length (spans fv)) (replicate FIRST_TRY default_region)) = FIRST_TRY)
    as Hlen by (rewrite length_app, length_take, length_drop, length_replicate; lia).
  destruct (spans fv) as [|q qs] eqn:Es; [done|]. rewrite <- Es in *. clear Es q qs.
  destruct (INT_MAX <? _) eqn:E1; [done|]. cbn [from_option]. unfold id.
  destruct (_ <? 0) eqn:E2; reflect_bools; [lia|]. rewrite Hlen.
  destruct (_ <? Z.of_nat (length (spans fv))) eqn:E3; reflect_bools.
  - set (buf := (_ ++ replicate _ _)).
    assert (length buf = length (spans fv)) as Hbuf by (unfold buf; rewrite length_app, length_replicate, Hlen; lia).
    clearbody buf. rewrite shim_call by (done || (intros E; rewrite E in Hbuf; cbn in Hbuf; lia)).
    destruct (spans fv) as [|q qs] eqn:Es; [cbn in *; lia|]. rewrite <- Es in *. clear Es q qs.
    destruct (INT_MAX <? _) eqn:E4; reflect_bools; [lia|].
    destruct (_ <? 0) eqn:E5; reflect_bools; [lia|]. cbn [from_option]. rewrite length_app, length_take, length_drop.
    destruct (_ <? Z.of_nat (length (spans fv))) eqn:E6; reflect_bools; [lia|]. rewrite Nat2Z.id. f_equal.
    apply take_written. lia.
  - rewrite Nat2Z.id. f_equal. rewrite <- (length_replicate FIRST_TRY default_region) at 1.
    apply take_written. rewrite length_replicate. lia.
Qed.

(** QEMU keeps the promise, for the RAM of the address space. *)
Lemma shim_host_ok fv : fv_wf 0 fv → host_ok (shim_host fv) (host_of fv).
Proof.
  intros Hf qs. unfold guest_ram_regions, qemu_host_ops. rewrite qemu_regions_exact by done.
  destruct (spans fv) as [|q qs'] eqn:Es; [done|]. rewrite <- Es. destruct (INT_MAX <? _); [done|]. intros [= <-].
  split; [by apply spans_sorted|]. by destruct (walk_spans fv Hf) as (? & _ & _).
Qed.

(** ** The resolution *)
Definition limits_ok (l : Limits) : Prop :=
  GRANULARITY l = 0 ∨ (0 < GRANULARITY l ∧ 0 < IMPORT_SPAN_MAX l < 2 ^ 63).
Record resolved_ok (ram : Z → option Z) (r : Resolved) : Prop := {
  ro_sorted : imports_sorted 0 (imports r);
  ro_ram i g h : i ∈ imports r → import_host i g = Some h → ram g = Some h;
  ro_len : Forall (λ i, imp_len i < 2 ^ 63) (imports r) }.

Lemma resolve_ok `{HostOps H} (h : H) ram l next r next' :
  host_ok h ram → limits_ok l → resolve h l next = Some (r, next') → resolved_ok ram r.
Proof.
  intros Hh Hl. unfold resolve, granularity, import_span_max, latched.
  assert (resolved_ok ram (mkResolved [] None)) as He.
  { split; [done|intros i g x Hin; by apply elem_of_nil in Hin|done]. }
  assert (∀ why, resolved_ok ram (mkResolved [] why)) as He' by (intros why; destruct He; by split).
  destruct (GRANULARITY l =? 0) eqn:E0; [intros [= <- <-]; apply He'|]. reflect_bools. destruct Hl as [?|Hl]; [done|].
  destruct (guest_ram_regions h) as [why|qs] eqn:Eq; [intros [= <- <-]; apply He'|].
  destruct (IMPORT_SPAN_MAX l =? 0) eqn:E1; reflect_bools; [lia|]. cbn [from_option]. unfold id.
  destruct (import_all _ _ _) as [[ims n]|] eqn:Ea; [|done]. cbn [mbind option_bind fst snd].
  destruct (Hh qs Eq) as [Hs Hr]. destruct (flat_chunks (IMPORT_SPAN_MAX l) 0 qs ltac:(lia) Hs) as (Hs' & Hr' & Hm).
  destruct (import_all_ok (GRANULARITY l) _ _ _ _ _ ltac:(lia) Hs' Ea) as (Hi & Hir & Him & _).
  rewrite (sort_sorted 0) by done.
  assert (∀ why, resolved_ok ram (mkResolved ims why)) as Hok.
  { intros why. split; cbn; [done| |].
    - intros i g x Hin Hx. rewrite <- Hr, <- Hr'. by apply (Hir i).
    - eapply Forall_impl; [exact (Him _ Hm)|]. cbn. lia. }
  case_match; intros [= <- <-]; [apply He'|apply Hok].
Qed.

(** ** Windows *)
Definition imported (r : Resolved) (g : Z) : Prop := ∃ i, i ∈ imports r ∧ contains_gpa i g = true.

(** The guest address of the byte at offset [k] of a list of pages. *)
Definition byte_gpa (gpas : list Z) (page k : Z) : Z := gpas !!! Z.to_nat (k `div` page) + k mod page.

(** [w] names the guest's own bytes from its offset on, all inside one import. *)
Definition run_shows (ram : Z → option Z) (gpas : list Z) (page window_start : Z) (w : GuestWindowRun) : Prop :=
  ∃ h bound, ref_bound (wr_guest w) = inr bound ∧ ref_address (wr_guest w) = Some h ∧
  ∀ d, 0 ≤ d < sl_requested (ref_slice (wr_guest w)) →
    ram (byte_gpa gpas page (window_start + wr_offset w + d)) = Some (h + d).

Fixpoint runs_tile (a b : Z) (ws : list GuestWindowRun) : Prop :=
  match ws with
  | [] => a = b
  | w :: ws =>
      wr_offset w = a ∧ 0 < sl_requested (ref_slice (wr_guest w)) ∧
      runs_tile (a + sl_requested (ref_slice (wr_guest w))) b ws
  end.

Lemma runs_tile_app a b c ws ws' : runs_tile a b ws → runs_tile b c ws' → runs_tile a c (ws ++ ws').
Proof. revert a. induction ws; cbn; intros a'; [by intros ->|]. intros (? & ? & ?) **. eauto. Qed.

Lemma runs_tile_le a b ws : runs_tile a b ws → a ≤ b.
Proof. revert a. induction ws; cbn; intros a'; [lia|]. intros (? & ? & ?%IHws). lia. Qed.

(** The first byte from [a] on that no import holds. *)
Definition window_hole (r : Resolved) (gpas : list Z) (page a b g : Z) : Prop :=
  ∃ k, a ≤ k < b ∧ g = byte_gpa gpas page k ∧ ¬ imported r g ∧
  ∀ k', a ≤ k' < k → imported r (byte_gpa gpas page k').

Section windows.
Context (ram : Z → option Z) (r : Resolved) (Hr : resolved_ok ram r).

Lemma find_import_some g i :
  find_import r g = Some i →
  i ∈ imports r ∧ ∃ base, imp_gpa_base i = Some base ∧ import_ok i ∧ base ≤ g < base + imp_len i ∧
    import_host i g = Some (imp_host_base i + (g - base)) ∧ import_end r g = Some (base + imp_len i).
Proof using Hr.
  intros Hf. pose proof (find_in_spec 0 (imports r) g (ro_sorted _ _ Hr)) as Hs.
  change (find_in (imports r) g) with (find_import r g) in Hs. rewrite Hf in Hs. destruct Hs as [Hin Hc].
  split; [done|]. destruct (imports_in _ _ _ (ro_sorted _ _ Hr) Hin) as [Hok [base Hb]]. exists base.
  unfold import_host, import_end. rewrite Hc, Hf. cbn [mbind option_bind]. rewrite Hb. cbn [mbind option_bind].
  unfold contains_gpa in Hc. rewrite Hb in Hc. reflect_bools.
  pose proof (io_gpa _ Hok _ Hb) as [? ?]. rewrite u64_small by (unfold is_u64; destruct (io_len _ Hok); lia).
  split_and!; done || lia.
Qed.

Lemma find_import_none g : find_import r g = None → ¬ imported r g.
Proof using Hr.
  intros Hf (i & Hin & Hc). pose proof (find_in_spec 0 (imports r) g (ro_sorted _ _ Hr)) as Hs.
  change (find_in (imports r) g) with (find_import r g) in Hs. rewrite Hf in Hs. specialize (Hs i Hin). congruence.
Qed.

(** A reference inside one import. *)
Lemma reference_inside g n i base :
  find_import r g = Some i → imp_gpa_base i = Some base → 0 < n → g + n ≤ base + imp_len i →
  ∃ ref bound h, resolved_reference r g n = inr ref ∧ sl_requested (ref_slice ref) = n ∧
    ref_bound ref = inr bound ∧ ref_address ref = Some h ∧ ∀ d, 0 ≤ d < n → ram (g + d) = Some (h + d) ∧ imported r (g + d).
Proof using Hr.
  intros Hf Hb Hn Hle. destruct (find_import_some g i Hf) as (Hin & base' & Hb' & Hok & Hg & Hh & _).
  assert (base' = base) as -> by congruence. unfold resolved_reference, slice_for_gpa, checked_sub. rewrite Hf, Hb.
  destruct (base <=? g) eqn:E1; reflect_bools; [|lia]. destruct (_ <=? g - base) eqn:E2; reflect_bools; [lia|].
  destruct (import_slice_total i (g - base) n) as [s Hs]; [done|lia..|]. rewrite Hs.
  destruct (slice_binds i (g - base) n s) as (Hnew & Hbd & Ha & Hreq & _); [done|lia..|done|]. rewrite Hnew.
  do 3 eexists. split_and!; [done|exact Hreq|exact Hbd|exact Ha|]. intros d Hd.
  assert (contains_gpa i (g + d) = true) as Hc.
  { unfold contains_gpa. rewrite Hb. apply andb_true_iff. rewrite Z.leb_le, Z.ltb_lt. lia. }
  split; [|by exists i]. apply (ro_ram _ _ Hr i); [done|]. unfold import_host. rewrite Hc, Hb. cbn. f_equal. lia.
Qed.

Context (gpas : list Z) (page window_start : Z) (Hpage : 0 < page).
Context (Hfit : Forall (λ g, 0 ≤ g ∧ g + page ≤ 2 ^ 64) gpas).
Context (Hsize : Z.of_nat (length gpas) * page < 2 ^ 63).

(** Inside a run the bytes follow each other. *)
Lemma byte_gpa_run i j k :
  contiguous page gpas i j → (j ≤ length gpas)%nat → Z.of_nat i * page ≤ k < Z.of_nat j * page →
  byte_gpa gpas page k = u64 (gpas !!! i + (k - Z.of_nat i * page)).
Proof using Hpage Hfit.
  intros Hc Hj Hk. unfold byte_gpa. pose proof (Z.div_mod k page ltac:(lia)) as Hd. pose proof (Z.mod_pos_bound k page Hpage).
  assert (Z.of_nat i ≤ k `div` page < Z.of_nat j) as Hm.
  { split; [apply Z.div_le_lower_bound; lia|apply Z.div_lt_upper_bound; lia]. }
  set (m := Z.to_nat (k `div` page)). assert (Z.of_nat m = k `div` page) as Em by (unfold m; lia).
  assert (gpas !! m = Some (gpas !!! m)) as Hl by (apply list_lookup_lookup_total_lt; lia).
  rewrite Forall_lookup in Hfit. pose proof (Hfit _ _ Hl).
  rewrite <- (u64_small (gpas !!! m + k mod page)) by (unfold is_u64; lia).
  rewrite (Hc m) at 1 by lia. rewrite u64_add_l. f_equal. rewrite Nat2Z.inj_sub by lia. nia.
Qed.

Lemma run_pieces_ok i j piece stop fuel :
  contiguous page gpas i j → (j ≤ length gpas)%nat →
  Z.of_nat i * page ≤ piece → piece ≤ stop → stop ≤ Z.of_nat j * page → stop - piece ≤ Z.of_nat fuel →
  match run_pieces r (gpas !!! i) (Z.of_nat i * page) window_start piece stop fuel with
  | inr out =>
      runs_tile (piece - window_start) (stop - window_start) out ∧ Forall (run_shows ram gpas page window_start) out ∧
      ∀ k, piece ≤ k < stop → imported r (byte_gpa gpas page k)
  | inl why => ∃ g, why = GpaNotInAnyImport g ∧ window_hole r gpas page piece stop g
  end.
Proof using All.
  intros Hc Hj. revert piece. induction fuel as [|fuel IH]; intros piece Hlo Hle Hhi Hf; cbn [run_pieces].
  { assert (piece = stop) as -> by lia. split_and!; [done..|lia]. }
  destruct (piece <? stop) eqn:E; reflect_bools; [|assert (piece = stop) as -> by lia; split_and!; [done..|lia]].
  pose proof (byte_gpa_run i j piece Hc Hj ltac:(lia)) as Eg. rewrite <- Eg. set (g := byte_gpa gpas page piece) in *.
  destruct (find_import r g) as [imp|] eqn:Ei.
  - destruct (find_import_some g imp Ei) as (Hin & base & Hb & Hok & Hg & _ & ->).
    destruct (g <? base + imp_len imp) eqn:E1; reflect_bools; [|lia].
    pose proof (io_gpa _ Hok _ Hb) as [? ?].
    pose proof (ro_len _ _ Hr) as Hlen. rewrite Forall_forall in Hlen. specialize (Hlen _ Hin). cbn in Hlen.
    assert (stop ≤ Z.of_nat (length gpas) * page) by nia.
    rewrite (u64_small (piece + _)) by (unfold is_u64; nia).
    set (pe := stop `min` _). assert (piece < pe ≤ stop) by (unfold pe; lia).
    destruct (reference_inside g (pe - piece) imp base Ei Hb ltac:(lia) ltac:(unfold pe; lia))
      as (ref & bound & h & -> & Hreq & Hbd & Ha & Hram).
    assert (∀ d, 0 ≤ d < pe - piece → byte_gpa gpas page (piece + d) = g + d) as Hd.
    { intros d Hd. rewrite (byte_gpa_run i j) by (done || lia).
      replace (_ + (piece + d - _)) with (gpas !!! i + (piece - Z.of_nat i * page) + d) by lia.
      rewrite <- u64_add_l, <- Eg. apply u64_small. unfold is_u64, pe in *. lia. }
    specialize (IH pe ltac:(lia) ltac:(lia) Hhi ltac:(lia)).
    destruct (run_pieces _ _ _ _ pe _ _) as [why|out].
    + destruct IH as (g' & -> & k & Hk & Eg' & Hno & Hyes). exists g'. split; [done|]. exists k. split_and!; [lia..|done|done|].
      intros k' Hk'. destruct (decide (k' < pe)); [|apply Hyes; lia].
      replace k' with (piece + (k' - piece)) by lia. rewrite Hd by lia. by apply Hram; lia.
    + destruct IH as (Ht & Hs & Hk). split_and!.
      * cbn. rewrite Hreq. split_and!; [done|lia|]. by replace (_ + (pe - piece)) with (pe - window_start) by lia.
      * constructor; [|done]. exists h, bound. cbn. split_and!; [done..|]. rewrite Hreq. intros d Hd'.
        replace (window_start + _ + d) with (piece + d) by lia. rewrite Hd by lia. by apply Hram.
      * intros k Hk'. destruct (decide (k < pe)); [|apply Hk; lia].
        replace k with (piece + (k - piece)) by lia. rewrite Hd by lia. by apply Hram; lia.
  - unfold import_end, resolved_reference. rewrite Ei. exists g. split; [done|]. exists piece.
    split_and!; [lia..|done|by apply find_import_none|lia].
Qed.

Context (window_end : Z) (Hw : 0 ≤ window_start ≤ window_end).

(** Where page [a] begins, within the window. *)
Definition window_pos (a : nat) : Z := window_start `max` (window_end `min` (Z.of_nat a * page)).

Lemma window_pieces_ok rs a b :
  cuts page gpas a b rs → (b ≤ length gpas)%nat →
  match window_pieces r gpas page window_start window_end rs with
  | inr out =>
      runs_tile (window_pos a - window_start) (window_pos b - window_start) out ∧
      Forall (run_shows ram gpas page window_start) out ∧
      ∀ k, window_pos a ≤ k < window_pos b → imported r (byte_gpa gpas page k)
  | inl why => ∃ g, why = GpaNotInAnyImport g ∧ window_hole r gpas page (window_pos a) (window_pos b) g
  end.
Proof using All.
  revert a. induction rs as [|[i j] rs IH]; intros a; cbn [window_pieces cuts].
  { intros -> _. split_and!; [done..|lia]. }
  intros (-> & Hij & Hc & _ & Hrs) Hb. pose proof (cuts_length page gpas _ _ _ Hrs).
  assert (Z.of_nat j * page ≤ Z.of_nat (length gpas) * page) by nia.
  rewrite !u64_small by (unfold is_u64; nia).
  assert (Z.of_nat a * page ≤ Z.of_nat j * page ≤ Z.of_nat b * page) by nia.
  assert (window_pos a ≤ window_pos j ≤ window_pos b) as Hpos by (unfold window_pos; lia).
  specialize (IH j Hrs Hb). destruct (_ <=? _) eqn:E; reflect_bools.
  - assert (window_pos a = window_pos j) as -> by (unfold window_pos in *; lia).
    by destruct (window_pieces _ _ _ _ _ rs).
  - assert ((Z.of_nat a * page) `max` window_start = window_pos a) as -> by (unfold window_pos in *; lia).
    assert ((Z.of_nat j * page) `min` window_end = window_pos j) as -> by (unfold window_pos in *; lia).
    pose proof (run_pieces_ok a j (window_pos a) (window_pos j) (Z.to_nat (window_pos j - window_pos a)) Hc) as Hp.
    unfold window_pos in E. specialize (Hp ltac:(lia) ltac:(unfold window_pos; lia) ltac:(lia) ltac:(unfold window_pos; lia) ltac:(lia)).
    destruct (run_pieces _ _ _ _ _ _ _) as [why|out].
    + destruct Hp as (g & -> & k & Hk & Hg & Hno & Hyes). exists g. split; [done|]. exists k. split_and!; done || lia.
    + destruct Hp as (Ht & Hs & Hk). destruct (window_pieces _ _ _ _ _ rs) as [why|out'].
      * destruct IH as (g & -> & k & Hk' & Hg & Hno & Hyes). exists g. split; [done|].
        exists k. split_and!; [lia..|done|done|]. intros k' ?. destruct (decide (k' < window_pos j)); [apply Hk|apply Hyes]; lia.
      * destruct IH as (Ht' & Hs' & Hk'). split_and!; [by eapply runs_tile_app|by apply Forall_app|].
        intros k ?. destruct (decide (k < window_pos j)); [apply Hk|apply Hk']; lia.
Qed.
End windows.

(** ** The state *)
Definition map_ok (ram : Z → option Z) (st : MapState) : Prop :=
  limits_ok (limits st) ∧ ∀ r, MAP st = Some r → resolved_ok ram r.

(** Identities left for the imports the map would make. *)
Definition room `{HostOps H} (host : H) (st : MapState) : Prop :=
  0 < NEXT st ∧
  ∀ qs, guest_ram_regions host = inr qs →
    NEXT st + Z.of_nat (length (flat_map (λ q, chunk_span q (default UINT64_MAX (import_span_max (limits st)))) qs)) < 2 ^ 64.

Lemma import_all_total align cs next :
  0 < next → next + Z.of_nat (length cs) < 2 ^ 64 → ∃ ims next', import_all align cs next = Some (ims, next').
Proof.
  revert next. induction cs as [|c cs IH]; intros next Hn Hc; cbn [import_all]; [by eauto|]. cbn [length] in Hc.
  unfold import_new, allocate. destruct (trim_region c align) as [e|[[base hb] n]].
  - cbn [mbind option_bind fst snd]. destruct (IH next) as (ims & n' & ->); [lia..|]. by eexists _, _.
  - destruct (next =? 0) eqn:E; reflect_bools; [lia|]. rewrite u64_small by (unfold is_u64; lia).
    cbn [mbind option_bind fst snd]. destruct (IH (next + 1)) as (ims & n' & ->); [lia..|]. by eexists _, _.
Qed.

Lemma with_map_ok `{HostOps H} (host : H) ram st :
  host_ok host ram → map_ok ram st → room host st →
  ∃ r st', with_map host st = Some (r, st') ∧ resolved_ok ram r ∧ map_ok ram st' ∧ MAP st' = Some r.
Proof.
  intros Hh [Hl Hm] [Hn Hroom]. unfold with_map. destruct (MAP st) as [r|] eqn:Em.
  { exists r, st. split_and!; [done|by apply Hm|split; [done|by rewrite Em]|done]. }
  assert (∃ r n, resolve host (limits st) (NEXT st) = Some (r, n)) as (r & n & E).
  { unfold resolve. destruct (granularity _); [|by eauto]. destruct (guest_ram_regions host) as [why|qs]; [by eauto|].
    destruct (import_all_total z _ (NEXT st) Hn (Hroom qs eq_refl)) as (ims & n & ->). cbn [mbind option_bind]. by eauto. }
  pose proof (resolve_ok _ _ _ _ _ _ Hh Hl E) as Hr. rewrite E. cbn [mbind option_bind fst snd].
  eexists r, _. split_and!; [done|done| |done]. split; [done|]. cbn. by intros r' [= <-].
Qed.

(** C10: Binding a scattered window.  Whatever RAM the address space holds, the runs that
    references_for_runs returns tile the part of the requested window that lies before the
    end of the page list, in order and without a gap or an overlap: all of it when the list is
    long enough, and otherwise only up to the end of the list, with no refusal of the rest,
    although the function's documentation says that the runs tile the window (see
    [window_past_pages]).  Each run is bound inside one
    import, and the host byte behind every byte of it is the byte of guest RAM that the
    page list names there.  The window is refused exactly at its first byte that no
    import holds, or with the reason for which the map as a whole refuses. *)
Theorem window_bound fv gpas page in_page n st :
  fv_wf 0 fv → map_ok (host_of fv) st → room (shim_host fv) st →
  0 < page → Forall (λ g, 0 ≤ g ∧ g + page ≤ 2 ^ 64) gpas → gpas ≠ [] → Z.of_nat (length gpas) * page < 2 ^ 63 →
  0 ≤ in_page → 0 < n → in_page + n < 2 ^ 64 →
  ∃ r res st', with_map (shim_host fv) st = Some (r, st') ∧
    references_for_runs (shim_host fv) gpas page in_page n st = Some (res, st') ∧ map_ok (host_of fv) st' ∧
    let stop := (in_page + n) `min` (Z.of_nat (length gpas) * page) in
    match refusal r with
    | Some why => res = inl why
    | None =>
        match res with
        | inr out => runs_tile 0 (stop - in_page) out ∧ Forall (run_shows (host_of fv) gpas page in_page) out
        | inl (GpaNotInAnyImport g) => window_hole r gpas page in_page stop g
        | inl why => why = Scattered (Z.of_nat (length gpas)) 0 (gpas !!! 0%nat) ∧ stop ≤ in_page
        end
    end.
Proof.
  intros Hf Hst Hroom Hp Hfit Hne Hsize Hin Hn Hend.
  destruct (with_map_ok _ _ _ (shim_host_ok fv Hf) Hst Hroom) as (r & st' & E & Hr & Hst' & _).
  assert (length gpas ≠ 0%nat) by (by destruct gpas).
  unfold references_for_runs, checked_add. rewrite E.
  destruct (_ || _ || _) eqn:E0; [rewrite !orb_true_iff, Nat.eqb_eq, !Z.eqb_eq in E0; lia|].
  destruct (_ <? 2 ^ 64) eqn:E1; reflect_bools; [|lia]. cbn [mbind option_bind fst snd].
  exists r, (match refusal r with Some why => inl why | None => 
    match window_pieces r gpas page in_page (in_page + n) (contig_page_runs page gpas) with
    | inl why => inl why | inr [] => inl (Scattered (Z.of_nat (length gpas)) 0 (default 0 (head gpas)))
    | inr out => inr out end end), st'.
  split_and!; [done..|]. cbn zeta. destruct (refusal r); [done|].
  assert (Forall is_u64 gpas) as Hu by (eapply Forall_impl; [exact Hfit|unfold is_u64; cbn; lia]).
  pose proof (window_pieces_ok _ r Hr gpas page in_page Hp Hfit Hsize (in_page + n) ltac:(lia)
    _ _ _ (contig_page_runs_cuts page gpas Hu ltac:(lia)) ltac:(done)) as Hw.
  unfold window_pos in Hw. replace (in_page `max` _) with in_page in Hw by lia.
  set (top := in_page `max` _) in Hw.
  destruct (window_pieces _ _ _ _ _ _) as [why|out].
  - destruct Hw as (g & -> & k & Hk & ? & ? & ?). exists k. split_and!; [lia..|done|done|done].
  - destruct Hw as (Ht & Hs & _). destruct out as [|w out].
    + cbn in Ht. split; [by destruct gpas|lia].
    + split; [|done]. rewrite Z.sub_diag in Ht.
      assert (in_page < top) by (destruct Ht as (_ & ? & ?%runs_tile_le); lia).
      by replace (_ - in_page) with (top - in_page) by lia.
Qed.

(** ** All of the RAM *)

(** A region of whole granules that ends below the last byte of both address spaces. *)
Definition granular (align : Z) (q : ReimsVgpuGuestRamRegion) : Prop :=
  host_va q mod align = 0 ∧ span_len q mod align = 0 ∧ 0 < host_va q ∧
  host_va q + span_len q < 2 ^ 64 ∧ gpa_base q + span_len q < 2 ^ 64.

Lemma mod_add_0 a b m : a mod m = 0 → b mod m = 0 → (a + b) mod m = 0.
Proof. intros Ha Hb. by rewrite Zplus_mod, Ha, Hb. Qed.

Lemma round_up_multiple a b : 0 < b → a mod b = 0 → round_up a b = a.
Proof.
  intros Hb Ha. destruct (round_up_spec a b Hb) as [H1 _]. pose proof (round_up_least a b a Hb ltac:(lia) Ha). lia.
Qed.

Lemma chunks_granular q align m d cs :
  granular align q → region_fits q → m mod align = 0 → d mod align = 0 → 0 ≤ d →
  chunks_of q m d cs → Forall (granular align) cs.
Proof.
  intros (H1 & H2 & ? & ? & ?) Hq Hm. revert d. induction cs as [|c cs IH]; intros d Hd Hd0 Hc; [done|].
  destruct Hc as (E1 & E2 & ? & Hlast & ? & Hc).
  assert (span_len c mod align = 0) as Hl.
  { destruct Hlast as [-> | ->]; [|done]. cbn in Hc.
    replace (span_len c) with (span_len q - d) by lia. by rewrite Zminus_mod, H2, Hd. }
  constructor; [|apply (IH (d + span_len c)); [by apply mod_add_0|lia|done]].
  unfold granular. rewrite E1, E2. split_and!; [by apply mod_add_0|done|lia..].
Qed.

Lemma trim_granular align c :
  0 < align → is_power_of_two align = true → granular align c → region_fits c →
  trim_region c align = inr (gpa_base c, host_va c, span_len c).
Proof.
  intros Ha Hp (H1 & H2 & ? & ? & ?) [(? & ? & ? & ? & ?) Hl]. pose proof (multiple_le _ _ Hl Ha H2).
  unfold trim_region, checked_add, checked_sub. rewrite Hp.
  destruct (align =? 0) eqn:E0; reflect_bools; [lia|]. cbn [orb negb].
  destruct (span_len c =? 0) eqn:E1; reflect_bools; [lia|]. destruct (host_va c =? 0) eqn:E2; reflect_bools; [lia|].
  destruct (host_va c + span_len c <? 2 ^ 64) eqn:E3; reflect_bools; [|lia].
  destruct (UINT64_MAX <? _) eqn:E4; reflect_bools; [unfold UINT64_MAX in *; lia|].
  destruct (gpa_base c + span_len c <? 2 ^ 64) eqn:E5; reflect_bools; [|lia].
  rewrite align_up_spec by (done || lia). destruct (_ <? 2 ^ 64) eqn:E6; reflect_bools; [|lia].
  rewrite round_up_multiple, Z.sub_diag by done. destruct (0 <=? _) eqn:E7; reflect_bools; [|lia].
  rewrite ldiff_align by (done || lia). rewrite Z.sub_0_r, H2, Z.sub_0_r.
  destruct (span_len c =? 0) eqn:E8; reflect_bools; [lia|]. by rewrite Z.add_0_r, u64_small by (unfold is_u64; lia).
Qed.

Definition imports_region (c : ReimsVgpuGuestRamRegion) (i : GuestRamImport) : Prop :=
  imp_gpa_base i = Some (gpa_base c) ∧ imp_host_base i = host_va c ∧ imp_len i = span_len c.

Lemma import_all_granular align cs b next :
  0 < align → is_power_of_two align = true → Forall (granular align) cs → regions_sorted b cs →
  0 < next → next + Z.of_nat (length cs) < 2 ^ 64 →
  ∃ ims next', import_all align cs next = Some (ims, next') ∧ Forall2 imports_region cs ims.
Proof.
  intros Ha Hp. revert b next. induction cs as [|c cs IH]; intros b next Hg Hs Hn Hc; cbn [import_all length] in *.
  { eexists _, _. by split. }
  apply Forall_cons in Hg as [Hg Hgs]. destruct Hs as (_ & Hq & Hs).
  unfold import_new, allocate. rewrite trim_granular by done. destruct (next =? 0) eqn:E; reflect_bools; [lia|].
  rewrite u64_small by (unfold is_u64; lia). cbn [mbind option_bind fst snd].
  destruct (IH _ (next + 1) Hgs Hs) as (ims & n' & -> & HF); [lia..|]. eexists _, _. split; [done|]. by constructor.
Qed.

Lemma contains_span c i g : imports_region c i → contains_gpa i g = true ↔ is_Some (span_host c g).
Proof.
  intros (E1 & E2 & E3). unfold contains_gpa, span_host. rewrite E1, E3.
  destruct (gpa_base c <=? g) eqn:E4, (g - gpa_base c <? span_len c) eqn:E5, (g <? gpa_base c + span_len c) eqn:E6;
    reflect_bools; cbn [andb]; split; (done || lia || (by intros [? ?]) || by eexists).
Qed.

Lemma imported_spans cs ims why g :
  Forall2 imports_region cs ims → imported (mkResolved ims why) g ↔ is_Some (spans_host cs g).
Proof.
  unfold imported. cbn [imports]. induction 1 as [|c i cs ims Hci HF IH]; cbn [spans_host].
  - split; [intros (i & Hin & _); by apply elem_of_nil in Hin|by intros [? ?]].
  - pose proof (contains_span c i g Hci) as Hc. destruct (span_host c g) as [h|].
    + split; [by eexists|]. intros _. exists i. split; [left|by apply Hc; eexists].
    + rewrite <- IH. split; intros (i' & Hin & Hi'); exists i'; (split; [|done]); [|by right].
      apply elem_of_cons in Hin as [->|Hin]; [|done]. apply Hc in Hi' as [? ?]. done.
Qed.

Definition total_len (qs : list ReimsVgpuGuestRamRegion) : Z := foldr (λ q, Z.add (span_len q)) 0 qs.

Lemma total_chunks m qs b :
  0 < m → regions_sorted b qs → total_len (flat_map (λ q, chunk_span q m) qs) = total_len qs.
Proof.
  intros Hm. revert b. induction qs as [|q qs IH]; intros b Hs; [done|]. destruct Hs as (_ & Hq & Hs).
  assert (∀ d cs rest, chunks_of q m d cs → total_len (cs ++ rest) = span_len q - d + total_len rest) as Ht.
  { intros d cs rest. revert d. induction cs as [|c cs IHc]; intros d; cbn [chunks_of app]; [lia|].
    intros (_ & _ & _ & _ & _ & Hc). specialize (IHc _ Hc). unfold total_len in *. cbn. lia. }
  cbn [flat_map]. rewrite (Ht 0 _ _ (chunk_span_ok q m Hq Hm)), (IH _ Hs). unfold total_len. cbn. lia.
Qed.

Lemma total_imports cs ims : Forall2 imports_region cs ims → foldr (λ i, Z.add (imp_len i)) 0 ims = total_len cs.
Proof. unfold total_len. induction 1 as [|c i cs ims (_ & _ & E) HF IH]; cbn; [done|]. by rewrite IH, E. Qed.

(** When the machine's RAM consists of whole granules, resolving the map imports all
    of it or refuses: without RAM or when the shim refuses, with the shim's reason; when
    the RAM is larger than the budget, with both numbers; and otherwise an address is
    inside an import exactly when it is RAM of the address space that its own region does not make read-only. *)
Theorem ram_imported fv align budget span_max next :
  fv_wf 0 fv → 0 < align → is_power_of_two align = true → 0 < budget → align ≤ span_max < 2 ^ 63 →
  span_max mod align = 0 → Forall (granular align) (spans fv) →
  0 < next → next + Z.of_nat (length (flat_map (λ q, chunk_span q span_max) (spans fv))) < 2 ^ 64 →
  ∃ r next', resolve (shim_host fv) (latch_import_limits align budget span_max) next = Some (r, next') ∧
    match qemu_guest_ram_regions (shim_host fv) with
    | inl why => r = mkResolved [] (Some (HostRefused why))
    | inr qs =>
        if budget <? total_len qs then r = mkResolved [] (Some (ImportExceedsHeap (total_len qs) budget))
        else refusal r = None ∧ ∀ g, imported r g ↔ is_Some (host_of fv g)
    end.
Proof.
  intros Hf Ha Hp Hb Hm Hmm Hg Hn Hroom. unfold resolve, latch_import_limits. rewrite Hp.
  destruct (align =? 0) eqn:E0; reflect_bools; [lia|]. destruct (budget =? 0) eqn:E1; reflect_bools; [lia|].
  destruct (span_max <? align) eqn:E2; reflect_bools; [lia|]. cbn [negb orb].
  unfold granularity, import_span_max, import_budget, latched. cbn [GRANULARITY IMPORT_BUDGET IMPORT_SPAN_MAX].
  destruct (align =? 0) eqn:E3; reflect_bools; [lia|]. destruct (budget =? 0) eqn:E4; reflect_bools; [lia|].
  destruct (span_max =? 0) eqn:E5; reflect_bools; [lia|]. cbn [from_option]. unfold id.
  change (guest_ram_regions (shim_host fv)) with (qemu_guest_ram_regions (shim_host fv)).
  rewrite qemu_regions_exact by done. destruct (spans fv) as [|q qs] eqn:Es; [by eexists _, _|]. rewrite <- Es in *. 
  destruct (INT_MAX <? _); [by eexists _, _|].
  pose proof (spans_sorted fv Hf) as Hs. destruct (walk_spans fv Hf) as (Hhost & _ & _).
  destruct (flat_chunks span_max 0 (spans fv) ltac:(lia) Hs) as (Hcs & Hch & _).
  assert (Forall (granular align) (flat_map (λ q, chunk_span q span_max) (spans fv))) as Hcg.
  { clear -Hg Hs Hm Ha Hmm. revert Hs. generalize 0. induction (spans fv) as [|q qs IH]; intros b Hs; [done|].
    apply Forall_cons in Hg as [Hq Hqs]. destruct Hs as (_ & Hfit & Hs). cbn [flat_map]. apply Forall_app. split; [|by eapply IH].
    apply (chunks_granular q align span_max 0); [done..|lia|]. apply chunk_span_ok; [done|lia]. }
  destruct (import_all_granular _ _ _ _ Ha Hp Hcg Hcs Hn Hroom) as (ims & n' & Ea & HF). rewrite Ea. cbn [mbind option_bind fst snd].
  destruct (import_all_ok align _ _ _ _ _ ltac:(lia) Hcs Ea) as (Hi & _ & _ & _).
  rewrite (sort_sorted 0), (needed_exact 0) by (done || lia). rewrite (total_imports _ _ HF), (total_chunks _ _ 0) by (done || lia).
  rewrite Z.add_0_l. destruct (budget <? _); [by eexists _, _|]. eexists _, _. split; [done|]. split.
  - destruct ims; [|done]. apply Forall2_nil_inv_r in HF. exfalso. rewrite Es in HF. cbn [flat_map] in HF.
    apply app_eq_nil in HF as [HF _]. rewrite Es in Hs. destruct Hs as (_ & Hq & _).
    pose proof (chunk_span_ok q span_max Hq ltac:(lia)) as Hc. rewrite HF in Hc. destruct Hq as [_ Hl]. cbn in Hc. lia.
  - intros g. rewrite (imported_spans _ _ _ _ HF), Hch, Hhost. done.
Qed.

(** ** Identities across a teardown *)
Inductive map_op :=
  | OpReference (gpa n : Z) | OpWindow (gpas : list Z) (page in_page n : Z) | OpPages (gpas : list Z) (page in_page n : Z)
  | OpRefusal | OpReset | OpPublish (align budget span_max : Z) | OpWithdraw.

Definition handed_out {A} (x : MapRefusal + A) (f : A → list GuestRef) : list GuestRef :=
  match x with inl _ => [] | inr a => f a end.
(** One operation, with the references it hands out. *)
Definition map_step `{HostOps H} (host : H) (op : map_op) (st : MapState) : option (list GuestRef * MapState) :=
  match op with
  | OpReference gpa n => r ← reference host gpa n st; Some (handed_out r.1 (λ x, [x]), r.2)
  | OpWindow gpas page in_page n =>
      r ← references_for_runs host gpas page in_page n st; Some (handed_out r.1 (map wr_guest), r.2)
  | OpPages gpas page in_page n => r ← reference_for_pages host gpas page in_page n st; Some (handed_out r.1 (λ x, [x]), r.2)
  | OpRefusal => r ← standing_refusal host st; Some ([], r.2)
  | OpReset => Some ([], reset st)
  | OpPublish align budget span_max => Some ([], publish align budget span_max st)
  | OpWithdraw => Some ([], withdraw st)
  end.
Fixpoint map_run `{HostOps H} (host : H) (ops : list map_op) (st : MapState) : option (list GuestRef * MapState) :=
  match ops with
  | [] => Some ([], st)
  | op :: ops => r ← map_step host op st; r' ← map_run host ops r.2; Some (r.1 ++ r'.1, r'.2)
  end.

(** The identities given out so far are those below [issued]. *)
Definition issued (next : Z) : Z := if next =? 0 then 2 ^ 64 else next.
Definition made_in (lo hi : Z) (i : GuestRamImport) : Prop := lo ≤ imp_id i < hi.
Definition ref_in (lo hi : Z) (x : GuestRef) : Prop := made_in lo hi (ref_import x) ∧ sl_import (ref_slice x) = imp_id (ref_import x).
Record ids_ok (lo : Z) (st : MapState) : Prop := {
  id_next : is_u64 (NEXT st);
  id_lo : lo ≤ issued (NEXT st);
  id_map r : MAP st = Some r → Forall (made_in lo (issued (NEXT st))) (imports r) }.

Lemma issued_next n : is_u64 n → n ≠ 0 → issued (u64 (n + 1)) = n + 1 ∧ issued n = n.
Proof.
  unfold issued, is_u64. intros ? ?. destruct (n =? 0) eqn:E; reflect_bools; [lia|]. split; [|done].
  destruct (decide (n = 2 ^ 64 - 1)) as [->|]; [done|]. rewrite u64_small by (unfold is_u64; lia).
  destruct (n + 1 =? 0) eqn:E1; reflect_bools; lia.
Qed.

Lemma made_in_mono lo hi lo' hi' i : lo' ≤ lo → hi ≤ hi' → made_in lo hi i → made_in lo' hi' i.
Proof. unfold made_in. lia. Qed.

Lemma import_all_ids align cs next ims next' :
  is_u64 next → import_all align cs next = Some (ims, next') →
  is_u64 next' ∧ issued next ≤ issued next' ∧ Forall (made_in (issued next) (issued next')) ims.
Proof.
  revert next ims next'. induction cs as [|c cs IH]; intros next ims next' Hn; cbn [import_all].
  { intros [= <- <-]. done. }
  unfold import_new, allocate. destruct (trim_region c align) as [e|[[base hb] n]].
  - cbn [mbind option_bind fst snd]. destruct (import_all align cs next) as [[ims' n']|] eqn:E; [|done].
    cbn [mbind option_bind fst snd]. intros [= <- <-]. by apply IH.
  - destruct (next =? 0) eqn:E0; reflect_bools; [done|]. cbn [mbind option_bind fst snd].
    destruct (import_all align cs _) as [[ims' n']|] eqn:E; [|done]. cbn [mbind option_bind fst snd]. intros [= <- <-].
    destruct (issued_next next Hn E0) as [E1 E2]. apply IH in E as (? & ? & HF); [|apply u64_range].
    rewrite E1 in *. rewrite E2 in *. split_and!; [done|lia|]. constructor; [unfold made_in; cbn; lia|].
    eapply Forall_impl; [exact HF|]. intros i. apply made_in_mono; lia.
Qed.

Lemma sort_Forall (P : GuestRamImport → Prop) l : Forall P l → Forall P (sort_by_key l).
Proof.
  assert (∀ i l, P i → Forall P l → Forall P (insert_by_key i l)) as Hi.
  { intros i l' ? HF. induction HF; cbn; [by constructor|]. case_match; by repeat constructor. }
  induction 1; [constructor|]. by apply Hi.
Qed.

Lemma with_map_ids `{HostOps H} (host : H) lo st r st' :
  ids_ok lo st → with_map host st = Some (r, st') →
  ids_ok lo st' ∧ issued (NEXT st) ≤ issued (NEXT st') ∧ Forall (made_in lo (issued (NEXT st'))) (imports r).
Proof.
  intros [Hn Hlo Hm]. unfold with_map. destruct (MAP st) as [r0|] eqn:Em.
  { intros [= <- <-]. split_and!; [|done|by apply Hm]. by split; rewrite ?Em. }
  destruct (resolve host _ _) as [[r1 n1]|] eqn:E; [|done]. cbn. intros [= <- <-]. cbn.
  assert (is_u64 n1 ∧ issued (NEXT st) ≤ issued n1 ∧ Forall (made_in (issued (NEXT st)) (issued n1)) (imports r1)) as (? & ? & HF).
  { revert E. unfold resolve. destruct (granularity _); [|by intros [= <- <-]].
    destruct (guest_ram_regions host); [by intros [= <- <-]|].
    destruct (import_all _ _ _) as [[ims n]|] eqn:Ea; [|done]. cbn [mbind option_bind fst snd].
    apply import_all_ids in Ea as (? & ? & HF); [|done]. apply sort_Forall in HF.
    destruct (match import_budget _ with Some _ => _ | None => _ end); intros [= <- <-]; cbn [imports]; done. }
  assert (Forall (made_in lo (issued n1)) (imports r1)) as HF'.
  { eapply Forall_impl; [exact HF|]. intros i. apply made_in_mono; lia. }
  split_and!; [split; cbn; [done|lia|by intros ? [= <-]]|done|done].
Qed.

Lemma reference_ids r g n ref lo hi :
  Forall (made_in lo hi) (imports r) → resolved_reference r g n = inr ref → ref_in lo hi ref.
Proof.
  intros HF. unfold resolved_reference, find_import. destruct (partition_point _ _) as [|k]; [done|].
  destruct (imports r !! k) as [i|] eqn:El; [|done]. destruct (contains_gpa i g); [|done].
  destruct (slice_for_gpa i g n) as [e|s] eqn:Es; [done|]. unfold ref_new. destruct (import_resolve i s) eqn:Er; [done|].
  intros [= <-]. split; cbn; [by eapply Forall_lookup_1|]. unfold import_resolve in Er.
  destruct (sl_import s =? imp_id i) eqn:E; [|done]. by reflect_bools.
Qed.

Lemma pieces_ids r first rs ws piece stop fuel out lo hi :
  Forall (made_in lo hi) (imports r) → run_pieces r first rs ws piece stop fuel = inr out →
  Forall (ref_in lo hi) (map wr_guest out).
Proof.
  intros HF. revert piece out. induction fuel as [|fuel IH]; intros piece out; cbn [run_pieces]; [by intros [= <-]|].
  destruct (piece <? stop); [|by intros [= <-]].
  match goal with |- context [resolved_reference r ?g ?n] => destruct (resolved_reference r g n) as [|ref] eqn:E end; [done|].
  match goal with |- context [run_pieces r first rs ws ?p stop fuel] => destruct (run_pieces r first rs ws p stop fuel) eqn:E' end; [done|].
  intros [= <-]. cbn. constructor; [by eapply reference_ids|by eapply IH].
Qed.

Lemma window_ids r gpas page ws we rs out lo hi :
  Forall (made_in lo hi) (imports r) → window_pieces r gpas page ws we rs = inr out →
  Forall (ref_in lo hi) (map wr_guest out).
Proof.
  intros HF. revert out. induction rs as [|[i j] rs IH]; intros out; cbn [window_pieces]; [by intros [= <-]|].
  match goal with |- context [if ?b then inr [] else ?x] =>
    destruct (if b then inr [] else x) as [|out1] eqn:E; [done|];
    assert (Forall (ref_in lo hi) (map wr_guest out1)) by
      (destruct b; [injection E as <-; constructor|by eapply pieces_ids])
  end.
  destruct (window_pieces _ _ _ _ _ rs) as [|out2]; [done|]. intros [= <-]. rewrite map_app. apply Forall_app. auto.
Qed.

Lemma ref_in_mono lo hi lo' hi' x : lo' ≤ lo → hi ≤ hi' → ref_in lo hi x → ref_in lo' hi' x.
Proof. intros ? ? [? ?]. split; [by eapply made_in_mono|done]. Qed.

(** What one operation does to the identities. *)
Definition step_ids (lo : Z) (st : MapState) (refs : list GuestRef) (st' : MapState) : Prop :=
  ids_ok lo st' ∧ issued (NEXT st) ≤ issued (NEXT st') ∧ Forall (ref_in lo (issued (NEXT st'))) refs.

Lemma reference_step_ids `{HostOps H} (host : H) lo st gpa n res st' :
  ids_ok lo st → reference host gpa n st = Some (res, st') → step_ids lo st (handed_out res (λ x, [x])) st'.
Proof.
  intros Hi. unfold reference. destruct (with_map host st) as [[r st1]|] eqn:E; [|done]. cbn. intros [= <- <-].
  destruct (with_map_ids _ _ _ _ _ Hi E) as (? & ? & HF). split_and!; [done..|].
  destruct (refusal r); [done|]. destruct (resolved_reference r gpa n) eqn:E'; [done|]. constructor; [|done].
  by eapply reference_ids.
Qed.

Lemma map_step_ids `{HostOps H} (host : H) lo op st refs st' :
  ids_ok lo st → map_step host op st = Some (refs, st') → step_ids lo st refs st'.
Proof.
  intros Hi. pose proof Hi as [Hn Hlo Hm]. destruct op; cbn [map_step].
  - destruct (reference host gpa n st) as [[res st1]|] eqn:E; [|done]. cbn. intros [= <- <-]. by eapply reference_step_ids.
  - destruct (references_for_runs _ _ _ _ _ _) as [[res st1]|] eqn:E; [|done]. cbn. intros [= <- <-]. revert E.
    unfold references_for_runs. destruct (_ || _ || _); [by intros [= <- <-]|].
    destruct (checked_add _ _) as [we|]; [|by intros [= <- <-]].
    destruct (with_map host st) as [[r st2]|] eqn:E; [|done]. cbn. intros [= <- <-].
    destruct (with_map_ids _ _ _ _ _ Hi E) as (? & ? & HF). split_and!; [done..|].
    destruct (refusal r); [done|]. destruct (window_pieces _ _ _ _ _ _) as [|out] eqn:Ew; [done|].
    apply (window_ids _ _ _ _ _ _ _ _ _ HF) in Ew. by destruct out.
  - destruct (reference_for_pages _ _ _ _ _ _) as [[res st1]|] eqn:E; [|done]. cbn. intros [= <- <-]. revert E.
    unfold reference_for_pages, standing_refusal. destruct (with_map host st) as [[r st2]|] eqn:E; [|done]. cbn.
    destruct (with_map_ids _ _ _ _ _ Hi E) as (Hi2 & ? & _).
    destruct (refusal r); [by intros [= <- <-]|]. destruct gpas as [|g gpas]; [by intros [= <- <-]|].
    case_match; [|by intros [= <- <-]]. intros E'. apply (reference_step_ids _ _ _ _ _ _ _ Hi2) in E' as (? & ? & ?).
    split_and!; [done|lia|done].
  - unfold standing_refusal. destruct (with_map host st) as [[r st2]|] eqn:E; [|done]. cbn. intros [= <- <-].
    by destruct (with_map_ids _ _ _ _ _ Hi E) as (? & ? & _).
  - intros [= <- <-]. split_and!; [split; cbn; done|done|done].
  - intros [= <- <-]. split_and!; [split; cbn; done|done|done].
  - intros [= <- <-]. split_and!; [split; cbn; done|done|done].
Qed.

Lemma map_run_ids `{HostOps H} (host : H) lo ops st refs st' :
  ids_ok lo st → map_run host ops st = Some (refs, st') → step_ids lo st refs st'.
Proof.
  revert st refs. induction ops as [|op ops IH]; intros st refs Hi; cbn [map_run].
  { intros [= <- <-]. by split_and!. }
  destruct (map_step host op st) as [[refs1 st1]|] eqn:E; [|done]. cbn.
  destruct (map_run host ops st1) as [[refs2 st2]|] eqn:E2; [|done]. cbn. intros [= <- <-].
  destruct (map_step_ids _ _ _ _ _ _ Hi E) as (Hi1 & ? & HF1). destruct (IH _ _ Hi1 E2) as (? & ? & HF2).
  split_and!; [done|lia|]. apply Forall_app. split; [|done].
  eapply Forall_impl; [exact HF1|]. intros x. by apply ref_in_mono.
Qed.

(** C39: A reference made before a teardown is dead after it: whatever the host reports
    and whatever operations run before and after the reset, no import of the rebuilt map
    accepts the slice of a reference handed out earlier. *)
Theorem stale_reference_refused `{HostOps H} (host : H) ops1 ops2 st refs st1 refs2 st2 ref r i :
  is_u64 (NEXT st) → MAP st = None →
  map_run host ops1 st = Some (refs, st1) → map_run host ops2 (reset st1) = Some (refs2, st2) →
  ref ∈ refs → MAP st2 = Some r → i ∈ imports r →
  import_resolve i (ref_slice ref) = inl (SliceForeignImport (sl_import (ref_slice ref)) (imp_id i)).
Proof.
  intros Hn Hm H1 H2 Href Hr Hi.
  assert (ids_ok (-1) st) as Hi0. { split; [done| |by rewrite Hm]. unfold issued, is_u64 in *. case_match; lia. }
  destruct (map_run_ids _ _ _ _ _ _ Hi0 H1) as (Hi1 & _ & HF). rewrite Forall_forall in HF. destruct (HF _ Href) as [[_ Hid] Es].
  assert (ids_ok (issued (NEXT st1)) (reset st1)) as Hi2 by (destruct Hi1; split; cbn; done).
  destruct (map_run_ids _ _ _ _ _ _ Hi2 H2) as ([_ _ Hids] & _ & _).
  specialize (Hids r Hr). rewrite Forall_forall in Hids. destruct (Hids _ Hi) as [? _].
  unfold import_resolve. rewrite Es. destruct (_ =? _) eqn:E; [|done]. reflect_bools. lia.
Qed.

(** ** A concrete machine *)
Definition demo_limits : Limits := latch_import_limits 0x1000 0x100000 0x4000.
Definition demo_state : MapState := mkMapState None 1 demo_limits.
Definition demo_window : list Z := [0x70003000; 0x70004000; 0x70000000].

Lemma demo_view_wf : fv_wf 0 demo_view.
Proof.
  cbn [fv_wf demo_view]; unfold range_wf; cbn [start len].
  repeat split; try lia; match goal with H : usable _ = Some _ |- _ => vm_compute in H; simplify_eq; lia end.
Qed.

(** The window crosses a seam between two chunks of one block, then goes back. *)
Definition demo_runs : list GuestWindowRun :=
  let i1 := mkImport 1 false (Some 0x70000000) 0x10000 0x4000 0x1000 in
  let i2 := mkImport 2 false (Some 0x70004000) 0x14000 0x4000 0x1000 in
  [mkWindowRun 0 (mkRef i1 (mkSlice 1 0x3000 0x1000 0x800 0x800));
   mkWindowRun 0x800 (mkRef i2 (mkSlice 2 0 0x1000 0 0x1000));
   mkWindowRun 0x1800 (mkRef i1 (mkSlice 1 0 0x1000 0 0x800))].

Lemma window_bound_witness :
  fst <$> references_for_runs (shim_host demo_view) demo_window 0x1000 0x800 0x2000 demo_state = Some (inr demo_runs) ∧
  runs_tile 0 0x2000 demo_runs ∧ Forall (run_shows (host_of demo_view) demo_window 0x1000 0x800) demo_runs.
Proof.
  assert (fst <$> references_for_runs (shim_host demo_view) demo_window 0x1000 0x800 0x2000 demo_state =
          Some (inr demo_runs)) as Ec by (vm_compute; reflexivity).
  assert ((λ x, refusal x.1) <$> with_map (shim_host demo_view) demo_state = Some None) as Em by (vm_compute; reflexivity).
  split; [exact Ec|].
  destruct (window_bound demo_view demo_window 0x1000 0x800 0x2000 demo_state) as (r & res & st' & Er & E & _ & Hs).
  - apply demo_view_wf.
  - split; [|done]. right. change (limits demo_state) with (mkLimits 0x1000 0x100000 0x4000). cbn. lia.
  - split; [cbn; lia|]. intros qs Hq. vm_compute in Hq. injection Hq as <-. vm_compute. reflexivity.
  - lia.
  - repeat constructor; cbn; lia.
  - done.
  - cbn. lia.
  - lia.
  - lia.
  - lia.
  - rewrite E in Ec. rewrite Er in Em. cbn [fmap option_fmap option_map fst] in Ec, Em.
    apply Some_inj in Ec, Em. rewrite Em, Ec in Hs. exact Hs.
Defined.

Lemma ram_imported_witness :
  ∃ r n, resolve (shim_host demo_view) demo_limits 1 = Some (r, n) ∧ imported r 0x70008fff ∧ ¬ imported r 0x500.
Proof.
  destruct (ram_imported demo_view 0x1000 0x100000 0x4000 1) as (r & n & E & Hr);
    [apply demo_view_wf|lia|reflexivity|lia|lia|reflexivity| |lia|vm_compute; reflexivity|].
  { change (spans demo_view) with [mkSpan 0x70000000 0x10000 0x8000; mkSpan 0x70008000 0x80000 0x1000].
    repeat (apply Forall_cons; split; [split_and!; cbn [host_va span_len gpa_base]; (reflexivity || lia)|]). done. }
  exists r, n. split; [exact E|].
  assert (qemu_guest_ram_regions (shim_host demo_view) =
          inr [mkSpan 0x70000000 0x10000 0x8000; mkSpan 0x70008000 0x80000 0x1000]) as Eq by (vm_compute; reflexivity).
  rewrite Eq in Hr. destruct Hr as [_ Hr]. rewrite !Hr.
  split; [by eexists|]. intros [h Hh]. vm_compute in Hh. done.
Defined.

Lemma stale_reference_refused_witness :
  ∃ ref r i, import_resolve i (ref_slice ref) = inl (SliceForeignImport 1 4) ∧
    map_run (shim_host demo_view) [OpReference 0x70000010 4] demo_state = Some ([ref], mkMapState (Some r) 4 demo_limits).
Proof.
  set (r1 := mkResolved [mkImport 1 false (Some 0x70000000) 0x10000 0x4000 0x1000;
    mkImport 2 false (Some 0x70004000) 0x14000 0x4000 0x1000; mkImport 3 false (Some 0x70008000) 0x80000 0x1000 0x1000] None).
  set (i4 := mkImport 4 false (Some 0x70000000) 0x10000 0x4000 0x1000).
  set (r2 := mkResolved [i4;
    mkImport 5 false (Some 0x70004000) 0x14000 0x4000 0x1000; mkImport 6 false (Some 0x70008000) 0x80000 0x1000 0x1000] None).
  set (ref := mkRef (mkImport 1 false (Some 0x70000000) 0x10000 0x4000 0x1000) (mkSlice 1 0 0x1000 0x10 4)).
  exists ref, r1, i4.
  pose proof (stale_reference_refused (shim_host demo_view) [OpReference 0x70000010 4] [OpRefusal] demo_state [ref]
    (mkMapState (Some r1) 4 demo_limits) [] (mkMapState (Some r2) 7 demo_limits) ref r2 i4) as Hs.
  split; [|vm_compute; reflexivity].
  apply Hs; [done|reflexivity|vm_compute; reflexivity|vm_compute; reflexivity|by left|reflexivity|by left].
Defined.

(** A window longer than its page list is cut at the end of the list, and not refused. *)
Lemma window_past_pages :
  (λ x, map (λ w, sl_requested (ref_slice (wr_guest w))) <$> (match x.1 with inr out => Some out | inl _ => None end)) <$>
    references_for_runs (shim_host demo_view) [0x70000000] 0x1000 0 0x2000 demo_state = Some (Some [0x1000]).
Proof. vm_compute. reflexivity. Qed.
