(* ===== verification/RangeSet.v ===== *)
(** Sets of byte ranges: src/reims-vgpu/crates/reims-vgpu-core/src/range_set.rs and
    ByteRange of access.rs.

    A set is a list of half-open ranges, sorted, disjoint and with a gap between any
    two.  The operations walk the lists once; a [Vec] that is only pushed to is a list
    extended at its end, an index into a list that only grows is the rest of the list
    from there on.  Ends saturate at the largest u64, as in the source. *)
From Stdlib Require Import ZifyBool.
From S2P Require Import Prelude.

Record ByteRange := mkByteRange { offset : Z; length_ : Z }.
Definition RangeSet : Type := list ByteRange.

Definition end_of (r : ByteRange) : Z := (offset r + length_ r) `min` UINT64_MAX.

(** ByteRange::overlaps. *)
Definition overlaps (r q : ByteRange) : bool :=
  if (length_ r =? 0) || (length_ q =? 0) then false else (offset r <? end_of q) && (offset q <? end_of r).

Definition new : RangeSet := [].
Definition len (s : RangeSet) : Z := foldl (λ a r, u64 (a + length_ r)) 0 s.

(** Extend the last range over [r] if [r] touches it, or add [r] at the end. *)
Definition push_merge (s : RangeSet) (r : ByteRange) : RangeSet :=
  match last s with
  | Some l =>
      if offset r <=? end_of l
      then removelast s ++ [mkByteRange (offset l) (end_of l `max` end_of r - offset l)]
      else s ++ [r]
  | None => s ++ [r]
  end.
Definition push_ascending (s : RangeSet) (r : ByteRange) : RangeSet := if length_ r =? 0 then s else push_merge s r.

Fixpoint insert_from (rs out : RangeSet) (merged_offset merged_end : Z) (placed : bool) : RangeSet :=
  let merged := mkByteRange merged_offset (merged_end - merged_offset) in
  match rs with
  | [] => if placed then out else out ++ [merged]
  | r :: rs =>
      if (end_of r <? merged_offset) || (merged_end <? offset r) then
        if end_of r <? merged_offset then insert_from rs (out ++ [r]) merged_offset merged_end placed
        else insert_from rs ((if placed then out else out ++ [merged]) ++ [r]) merged_offset merged_end true
      else insert_from rs out (merged_offset `min` offset r) (merged_end `max` end_of r) placed
  end.
Definition insert (s : RangeSet) (r : ByteRange) : RangeSet :=
  if length_ r =? 0 then s else insert_from s [] (offset r) (end_of r) false.
Definition from_range (r : ByteRange) : RangeSet := insert new r.

(** What [remove] leaves of one range. *)
Definition cut (cut_start cut_end : Z) (r : ByteRange) : list ByteRange :=
  if (end_of r <=? cut_start) || (cut_end <=? offset r) then [r]
  else (if offset r <? cut_start then [mkByteRange (offset r) (cut_start - offset r)] else []) ++
       (if cut_end <? end_of r then [mkByteRange cut_end (end_of r - cut_end)] else []).
Definition remove (s : RangeSet) (r : ByteRange) : RangeSet :=
  if length_ r =? 0 then s else flat_map (cut (offset r) (end_of r)) s.

Definition covers (s : RangeSet) (r : ByteRange) : bool :=
  if length_ r =? 0 then true else existsb (λ q, (offset q <=? offset r) && (end_of r <=? end_of q)) s.

Fixpoint inter_from (s : RangeSet) : RangeSet → RangeSet → RangeSet :=
  fix go (t out : RangeSet) :=
    match s, t with
    | a :: s', b :: t' =>
        let start := offset a `max` offset b in
        let stop := end_of a `min` end_of b in
        let out := if start <? stop then out ++ [mkByteRange start (stop - start)] else out in
        if end_of a <? end_of b then inter_from s' t out else go t' out
    | _, _ => out
    end.
Definition intersection (s t : RangeSet) : RangeSet := inter_from s t [].

(** The loops of [subtract]: past the ranges that end at or before [cur]; over those that
    meet the range, up to the break; over the ranges of the set. *)
Fixpoint skip (cur : Z) (t : RangeSet) : RangeSet :=
  match t with [] => [] | b :: t' => if end_of b <=? cur then skip cur t' else t end.
Fixpoint carve (cur a_end : Z) (t out : RangeSet) : Z * RangeSet :=
  match t with
  | [] => (cur, out)
  | b :: t =>
      if offset b <? a_end then
        let out := if cur <? offset b then out ++ [mkByteRange cur (offset b - cur)] else out in
        let cur := cur `max` end_of b in
        if a_end <=? cur then (cur, out) else carve cur a_end t out
      else (cur, out)
  end.
Fixpoint subtract_from (s t out : RangeSet) : RangeSet :=
  match s with
  | [] => out
  | a :: s =>
      let t := skip (offset a) t in
      let '(cur, out) := carve (offset a) (end_of a) t out in
      subtract_from s t (if cur <? end_of a then out ++ [mkByteRange cur (end_of a - cur)] else out)
  end.
Definition subtract (s t : RangeSet) : RangeSet :=
  match s, t with [], _ | _, [] => s | _, _ => subtract_from s t [] end.

Definition missing_from (s : RangeSet) (r : ByteRange) : RangeSet := subtract (from_range r) s.

Fixpoint union_from (s : RangeSet) : RangeSet → RangeSet → RangeSet :=
  fix go (t out : RangeSet) :=
    match s, t with
    | a :: s', b :: t' => if offset a <=? offset b then union_from s' t (push_merge out a) else go t' (push_merge out b)
    | a :: s', [] => union_from s' [] (push_merge out a)
    | [], b :: t' => go t' (push_merge out b)
    | [], [] => out
    end.
Definition union_with (s t : RangeSet) : RangeSet :=
  match t, s with [], _ => s | _, [] => t | _, _ => union_from s t [] end.

Definition clear (s : RangeSet) : RangeSet := [].

(** ** The bytes of a set *)
Definition within (r : ByteRange) (x : Z) : bool := (offset r <=? x) && (x <? end_of r).
Definition holds (s : RangeSet) (x : Z) : bool := existsb (λ r, within r x) s.

(** A range as a member of a set: not empty, and its end is a u64. *)
Definition range_ok (r : ByteRange) : Prop := 0 ≤ offset r ∧ 0 < length_ r ∧ offset r + length_ r ≤ UINT64_MAX.
(** Sorted from [b] on, with a gap between any two ranges. *)
Fixpoint canonical (b : Z) (s : RangeSet) : Prop :=
  match s with [] => True | r :: s => b ≤ offset r ∧ range_ok r ∧ canonical (end_of r + 1) s end.

Lemma end_of_ok r : range_ok r → end_of r = offset r + length_ r.
Proof. unfold range_ok, end_of. lia. Qed.

Lemma within_spec r x : within r x = true ↔ offset r ≤ x < end_of r.
Proof. unfold within. by rewrite andb_true_iff, Z.leb_le, Z.ltb_lt. Qed.
Lemma within_false r x : within r x = false ↔ ¬ (offset r ≤ x < end_of r).
Proof. by rewrite <- within_spec, not_true_iff_false. Qed.

Lemma holds_cons r s x : holds (r :: s) x = within r x || holds s x.
Proof. done. Qed.
Lemma holds_app s t x : holds (s ++ t) x = holds s x || holds t x.
Proof. apply existsb_app. Qed.

Lemma canonical_mono b b' s : b' ≤ b → canonical b s → canonical b' s.
Proof. destruct s; cbn; [done|]. intros ? (? & ? & ?). split_and!; [lia|done..]. Qed.

Lemma canonical_below b s x : canonical b s → x < b → holds s x = false.
Proof.
  revert b. induction s as [|r s IH]; intros b Hs Hx; [done|]. destruct Hs as (? & Hr & Hs). rewrite holds_cons.
  pose proof (end_of_ok r Hr). destruct Hr as (? & ? & ?). rewrite (IH _ Hs) by lia. rewrite orb_false_r.
  apply within_false. lia.
Qed.

(** The byte just past a range of the set is not in the set. *)
Lemma canonical_gap b s r : canonical b s → r ∈ s → holds s (end_of r) = false.
Proof.
  revert b. induction s as [|q s IH]; intros b Hs Hin; [by apply elem_of_nil in Hin|].
  destruct Hs as (? & Hq & Hs). rewrite holds_cons. apply elem_of_cons in Hin as [->|Hin].
  - rewrite (canonical_below _ _ _ Hs) by lia. rewrite orb_false_r. apply within_false. lia.
  - rewrite (IH _ Hs Hin), orb_false_r. apply within_false. intros [_ Hlt].
    assert (end_of q < end_of r); [|lia]. clear -Hs Hin. revert Hs. generalize (end_of q). induction s as [|p s IH]; intros e Hs.
    + by apply elem_of_nil in Hin.
    + destruct Hs as (? & Hp & Hs). pose proof (end_of_ok p Hp). destruct Hp as (? & ? & ?).
      apply elem_of_cons in Hin as [->|Hin]; [lia|]. specialize (IH Hin _ Hs). lia.
Qed.

(** ** Insertion *)
Lemma insert_from_app rs out mo me placed : insert_from rs out mo me placed = out ++ insert_from rs [] mo me placed.
Proof.
  revert out mo me placed. induction rs as [|r rs IH]; intros out mo me placed; cbn [insert_from].
  { by destruct placed; rewrite ?app_nil_r. }
  destruct (_ || _); [|apply IH]. destruct (end_of r <? mo).
  - rewrite (IH (out ++ _)), (IH ([] ++ _)). by rewrite <- app_assoc.
  - rewrite IH, (IH (_ ++ [r])). destruct placed; cbn [app]; by rewrite <- !app_assoc.
Qed.

Lemma insert_placed b rs mo me : mo ≤ me → canonical b rs → me < b → insert_from rs [] mo me true = rs.
Proof.
  intros Hm. revert b. induction rs as [|r rs IH]; intros b Hs Hb; [done|]. destruct Hs as (? & Hr & Hs). cbn [insert_from].
  pose proof (end_of_ok r Hr). destruct Hr as (? & ? & ?).
  destruct (end_of r <? mo) eqn:E1; reflect_bools; [lia|]. destruct (me <? offset r) eqn:E2; reflect_bools; [|lia].
  cbn [orb]. rewrite insert_from_app. cbn [app]. by rewrite (IH _ Hs) by lia.
Qed.

(** The range from [a] to [b]. *)
Abbreviation piece a b := (mkByteRange a (b - a)).

Lemma piece_ok a b : 0 ≤ a → a < b ≤ UINT64_MAX → range_ok (piece a b) ∧ end_of (piece a b) = b.
Proof. intros ? ?. unfold range_ok, end_of. cbn. lia. Qed.
Lemma piece_within a b x : a < b ≤ UINT64_MAX → within (piece a b) x = (a <=? x) && (x <? b).
Proof. intros ?. unfold within, end_of. cbn [offset length_]. lia. Qed.

Lemma insert_from_ok rs b c mo me :
  canonical b rs → c ≤ b → c ≤ mo → 0 ≤ mo → mo < me ≤ UINT64_MAX →
  canonical c (insert_from rs [] mo me false) ∧
  ∀ x, holds (insert_from rs [] mo me false) x = (mo <=? x) && (x <? me) || holds rs x.
Proof.
  revert b c mo me. induction rs as [|r rs IH]; intros b c mo me Hs Hcb Hc H0 Hme; cbn [insert_from];
    pose proof (piece_ok mo me H0 Hme) as [? Ee].
  { split; [cbn [app canonical]; by split_and!|]. intros x. cbn [app]. by rewrite holds_cons, piece_within. }
  destruct Hs as (Hb & Hr & Hs). pose proof (end_of_ok r Hr) as Er. pose proof Hr as (? & ? & ?).
  destruct (end_of r <? mo) eqn:E1; reflect_bools; cbn [orb].
  - rewrite insert_from_app. cbn [app]. destruct (IH (end_of r + 1) (end_of r + 1) mo me) as [IH1 IH2]; [done|lia..|].
    split; [cbn; split_and!; [lia|done|done]|]. intros x. rewrite !holds_cons, IH2. lia.
  - destruct (me <? offset r) eqn:E2; reflect_bools.
    + rewrite insert_from_app, (insert_placed (end_of r + 1)) by (done || lia). cbn [app].
      split; [cbn [canonical]; rewrite Ee; split_and!; done || lia|]. intros x. by rewrite holds_cons, piece_within.
    + destruct (IH (end_of r + 1) c (mo `min` offset r) (me `max` end_of r)) as [IH1 IH2]; [done|lia..|].
      split; [done|]. intros x. rewrite IH2, holds_cons. unfold within. lia.
Qed.

(** What a caller may pass: a u64 range that is empty or does not start at the last byte. *)
Definition arg_ok (r : ByteRange) : Prop := 0 ≤ offset r < UINT64_MAX ∧ 0 ≤ length_ r.

Lemma arg_end r : arg_ok r → length_ r ≠ 0 → offset r < end_of r ≤ UINT64_MAX.
Proof. unfold arg_ok, end_of. lia. Qed.
Lemma arg_empty r x : length_ r = 0 → within r x = false.
Proof. intros E. apply within_false. unfold end_of. lia. Qed.

Lemma insert_ok s r : canonical 0 s → arg_ok r → canonical 0 (insert s r) ∧ ∀ x, holds (insert s r) x = within r x || holds s x.
Proof.
  intros Hs Hr. unfold insert. destruct (length_ r =? 0) eqn:E; reflect_bools.
  - split; [done|]. intros x. by rewrite (arg_empty r x E).
  - pose proof (arg_end r Hr E). destruct Hr as [? ?]. by apply (insert_from_ok s 0 0); try lia.
Qed.

(** ** Removal *)
Lemma cut_ok cs ce r c rest :
  cs < ce → 0 ≤ ce → range_ok r → c ≤ offset r → canonical (end_of r + 1) rest →
  canonical c (cut cs ce r ++ rest) ∧
  ∀ x, holds (cut cs ce r) x = within r x && negb ((cs <=? x) && (x <? ce)).
Proof.
  intros Hc Hce Hr Hb Hrest. pose proof (end_of_ok r Hr) as Er. pose proof Hr as (? & ? & ?).
  unfold cut. destruct (_ || _) eqn:E0.
  { split; [cbn; by split_and!|]. intros x. rewrite holds_cons. unfold within. cbn [holds existsb]. lia. }
  assert (canonical (cs + 1) rest) by (apply (canonical_mono (end_of r + 1)); [lia|done]).
  destruct (offset r <? cs) eqn:E3, (ce <? end_of r) eqn:E4; reflect_bools; cbn [app canonical].
  - destruct (piece_ok (offset r) cs) as [? E1]; [lia..|]. destruct (piece_ok ce (end_of r)) as [? E2]; [lia..|].
    rewrite E1, E2. split; [split_and!; cbn; done || lia|].
    intros x. rewrite !holds_cons, !piece_within by lia. unfold within. cbn [holds existsb]. lia.
  - destruct (piece_ok (offset r) cs) as [? E1]; [lia..|]. rewrite E1. split; [by split_and!|].
    intros x. rewrite !holds_cons, !piece_within by lia. unfold within. cbn [holds existsb]. lia.
  - destruct (piece_ok ce (end_of r)) as [? E2]; [lia..|]. rewrite E2. split; [split_and!; cbn; done || lia|].
    intros x. rewrite !holds_cons, !piece_within by lia. unfold within. cbn [holds existsb]. lia.
  - split; [apply (canonical_mono (end_of r + 1)); [lia|done]|]. intros x. unfold within. cbn [holds existsb]. lia.
Qed.

Lemma remove_ok s r :
  canonical 0 s → arg_ok r → canonical 0 (remove s r) ∧ ∀ x, holds (remove s r) x = holds s x && negb (within r x).
Proof.
  intros Hs Hr. unfold remove. destruct (length_ r =? 0) eqn:E; reflect_bools.
  { split; [done|]. intros x. rewrite (arg_empty r x E). lia. }
  pose proof (arg_end r Hr E). destruct Hr as [? ?].
  assert (∀ b, canonical b s → canonical b (flat_map (cut (offset r) (end_of r)) s) ∧
    ∀ x, holds (flat_map (cut (offset r) (end_of r)) s) x = holds s x && negb (within r x)) as Hgo; [|by apply Hgo].
  clear Hs. induction s as [|q s IH]; intros b Hs; [done|]. destruct Hs as (Hb & Hq & Hs). cbn [flat_map].
  destruct (IH _ Hs) as [IH1 IH2].
  destruct (cut_ok (offset r) (end_of r) q b (flat_map (cut (offset r) (end_of r)) s)) as [Hc1 Hc2]; [lia..|done|done|done|].
  split; [done|]. intros x. rewrite holds_app, holds_cons, IH2, Hc2. unfold within. lia.
Qed.

(** ** Coverage *)
Lemma holds_In s x : holds s x = true ↔ ∃ r, r ∈ s ∧ within r x = true.
Proof. unfold holds. rewrite existsb_exists. by setoid_rewrite <- list_elem_of_In. Qed.

Lemma canonical_In b s r : canonical b s → r ∈ s → range_ok r ∧ b ≤ offset r.
Proof.
  revert b. induction s as [|q s IH]; intros b Hs Hin; [by apply elem_of_nil in Hin|].
  destruct Hs as (? & Hq & Hs). apply elem_of_cons in Hin as [->|Hin]; [done|].
  destruct (IH _ Hs Hin). pose proof (end_of_ok q Hq). destruct Hq as (? & ? & ?). split; [done|lia].
Qed.

Lemma covers_ok s r :
  canonical 0 s → arg_ok r → covers s r = true ↔ ∀ x, within r x = true → holds s x = true.
Proof.
  intros Hs Hr. unfold covers. destruct (length_ r =? 0) eqn:E; reflect_bools.
  { split; [|done]. intros _ x. by rewrite (arg_empty r x E). }
  pose proof (arg_end r Hr E) as He. rewrite existsb_exists. split.
  - intros (q & Hin & Hq) x Hx. apply holds_In. exists q. split; [by apply list_elem_of_In|]. unfold within in *. lia.
  - intros Hall. destruct (proj1 (holds_In s (offset r)) (Hall (offset r) ltac:(unfold within; lia))) as (q & Hin & Hq).
    exists q. split; [by apply list_elem_of_In|]. unfold within in Hq.
    destruct (Z.le_gt_cases (end_of r) (end_of q)); [lia|]. pose proof (canonical_gap 0 s q Hs Hin) as Hg.
    rewrite Hall in Hg; [done|]. unfold within. lia.
Qed.

(** ** Intersection *)
Lemma inter_from_app s t out : inter_from s t out = out ++ inter_from s t [].
Proof.
  revert t out. induction s as [|a s IHs]; intros t; induction t as [|b t IHt]; intros out; cbn [inter_from]; rewrite ?app_nil_r; [done..|].
  destruct (end_of a <? end_of b); destruct (offset a `max` offset b <? _).
  - rewrite IHs, (IHs _ ([] ++ _)). by rewrite <- app_assoc.
  - apply IHs.
  - cbn [inter_from] in IHt. rewrite IHt, (IHt ([] ++ _)). by rewrite <- app_assoc.
  - apply IHt.
Qed.

Lemma inter_from_ok s t b1 b2 :
  canonical b1 s → canonical b2 t →
  canonical (b1 `max` b2) (inter_from s t []) ∧ ∀ x, holds (inter_from s t []) x = holds s x && holds t x.
Proof.
  revert t b1 b2. induction s as [|a s IHs]; intros t; [destruct t; done|].
  induction t as [|b t IHt]; intros b1 b2 Hs Ht; cbn [inter_from].
  { split; [done|]. intros x. cbn [holds existsb]. lia. }
  pose proof Hs as (Hb1 & Ha & Hs'). pose proof Ht as (Hb2 & Hb & Ht').
  pose proof (end_of_ok a Ha) as Ea. pose proof (end_of_ok b Hb) as Eb. pose proof Ha as (? & ? & ?). pose proof Hb as (? & ? & ?).
  set (start := offset a `max` offset b). set (stop := end_of a `min` end_of b).
  assert (∀ rest, (canonical ((b1 `max` b2) `max` (stop + 1)) rest) →
    (∀ x, holds rest x = (holds (a :: s) x && holds (b :: t) x) && (stop <=? x)) →
    canonical (b1 `max` b2) ((if start <? stop then [piece start stop] else []) ++ rest) ∧
    ∀ x, holds ((if start <? stop then [piece start stop] else []) ++ rest) x = holds (a :: s) x && holds (b :: t) x) as Hstep.
  { intros rest Hr Hx. assert (∀ x, x < stop → holds s x = false ∧ holds t x = false) as Hno.
    { intros x ?. split; [apply (canonical_below _ _ _ Hs')|apply (canonical_below _ _ _ Ht')]; lia. }
    destruct (start <? stop) eqn:E; cbn [app].
    - destruct (piece_ok start stop) as [? Ee]; [lia..|]. split.
      + cbn [canonical]. rewrite Ee. split_and!; [cbn; lia|done|]. eapply canonical_mono; [|exact Hr]. lia.
      + intros x. rewrite holds_cons, piece_within, Hx by lia. specialize (Hno x). rewrite !holds_cons. unfold within. lia.
    - split; [eapply canonical_mono; [|exact Hr]; lia|]. intros x. rewrite Hx. specialize (Hno x). rewrite !holds_cons.
      unfold within. lia. }
  assert (∀ x b u, canonical (b + 1) u → x ≤ b → holds u x = false) as Hbelow.
  { intros x c u Hu ?. apply (canonical_below _ _ _ Hu). lia. }
  destruct (end_of a <? end_of b) eqn:E.
  - rewrite inter_from_app. destruct (IHs (b :: t) _ _ Hs' Ht) as [IH1 IH2].
    apply Hstep; [eapply canonical_mono; [|exact IH1]; lia|]. intros x. rewrite IH2, !holds_cons.
    pose proof (Hbelow x _ _ Hs'). unfold within. lia.
  - change (canonical (b1 `max` b2) (inter_from (a :: s) t (if start <? stop then [] ++ [piece start stop] else [])) ∧
      ∀ x, holds (inter_from (a :: s) t (if start <? stop then [] ++ [piece start stop] else [])) x =
           holds (a :: s) x && holds (b :: t) x).
    rewrite inter_from_app. destruct (IHt _ _ Hs Ht') as [IH1 IH2].
    apply Hstep; [eapply canonical_mono; [|exact IH1]; lia|]. intros x. rewrite IH2, !holds_cons.
    pose proof (Hbelow x _ _ Ht'). unfold within. lia.
Qed.

Lemma intersection_ok s t :
  canonical 0 s → canonical 0 t →
  canonical 0 (intersection s t) ∧ ∀ x, holds (intersection s t) x = holds s x && holds t x.
Proof. apply (inter_from_ok s t 0 0). Qed.

(** ** Subtraction *)
Lemma skip_ok cur t b :
  canonical b t → ∃ b', canonical b' (skip cur t) ∧ b ≤ b' ∧ ∀ x, cur ≤ x → holds (skip cur t) x = holds t x.
Proof.
  revert b. induction t as [|r t IH]; intros b Ht; cbn [skip]; [by exists b|].
  destruct (end_of r <=? cur) eqn:E; [|by exists b]. destruct Ht as (? & Hr & Ht).
  pose proof (end_of_ok r Hr). destruct Hr as (? & ? & ?). destruct (IH _ Ht) as (b' & ? & ? & Hx).
  exists b'. split_and!; [done|lia|]. intros x ?. rewrite Hx, holds_cons by done. unfold within. lia.
Qed.

Lemma carve_app cur a_end t out : carve cur a_end t out = ((carve cur a_end t []).1, out ++ (carve cur a_end t []).2).
Proof.
  revert cur out. induction t as [|b t IH]; intros cur out; cbn [carve]; [by rewrite app_nil_r|].
  destruct (offset b <? a_end); [|by rewrite app_nil_r]. destruct (a_end <=? _), (cur <? offset b); cbn [fst snd app];
    rewrite ?app_nil_r; try done. rewrite IH, (IH _ [_]). cbn [fst snd]. by rewrite <- app_assoc.
Qed.

(** The pieces of one range that are outside [t], with what is left after the loop. *)
Definition carved (cur a_end : Z) (t : RangeSet) : RangeSet :=
  let '(cur', out) := carve cur a_end t [] in if cur' <? a_end then out ++ [piece cur' a_end] else out.

Lemma carved_ok t cur a_end b rest :
  0 ≤ cur < a_end → a_end ≤ UINT64_MAX → canonical b t → canonical (a_end + 1) rest →
  canonical cur (carved cur a_end t ++ rest) ∧
  ∀ x, holds (carved cur a_end t) x = (cur <=? x) && (x <? a_end) && negb (holds t x).
Proof.
  intros Hcur Hmax. revert b cur Hcur. induction t as [|q t IH]; intros b cur Hcur Ht Hrest; unfold carved; cbn [carve].
  { destruct (cur <? a_end) eqn:E; [|lia]. destruct (piece_ok cur a_end) as [? Ee]; [lia..|]. cbn [app canonical]. rewrite Ee.
    split; [by split_and!|]. intros x. rewrite holds_cons, piece_within by lia. cbn. lia. }
  destruct Ht as (Hb & Hq & Ht). pose proof (end_of_ok q Hq) as Eq. pose proof Hq as (? & ? & ?).
  assert (∀ x, x ≤ end_of q → holds t x = false) as Hlow.
  { intros x ?. apply (canonical_below _ _ _ Ht). lia. }
  destruct (offset q <? a_end) eqn:E1.
  - set (out := if cur <? offset q then [] ++ [piece cur (offset q)] else []).
    assert (∀ rest', canonical (cur `max` (offset q + 1)) rest' → canonical cur (out ++ rest')) as Hout.
    { intros rest' Hr. unfold out. destruct (cur <? offset q) eqn:E2; cbn [app].
      - destruct (piece_ok cur (offset q)) as [? Ee]; [lia..|]. cbn [canonical]. rewrite Ee. split_and!; [cbn; lia|done|].
        eapply canonical_mono; [|exact Hr]. lia.
      - eapply canonical_mono; [|exact Hr]. lia. }
    assert (∀ x, holds out x = (cur <=? x) && (x <? offset q)) as Hox.
    { intros x. unfold out. destruct (cur <? offset q) eqn:E2; [cbn [app]; rewrite holds_cons, piece_within by lia|]; cbn; lia. }
    destruct (a_end <=? cur `max` end_of q) eqn:E3.
    + clearbody out. destruct (cur `max` end_of q <? a_end) eqn:E4; [lia|]. split.
      * apply Hout. eapply canonical_mono; [|exact Hrest]. lia.
      * intros x. rewrite Hox, holds_cons. specialize (Hlow x). unfold within. lia.
    + rewrite carve_app. destruct (IH (end_of q + 1) (cur `max` end_of q) ltac:(lia) Ht Hrest) as [IH1 IH2].
      unfold carved in IH1, IH2. destruct (carve (cur `max` end_of q) a_end t []) as [cur' out']. cbn [fst snd].
      assert (∀ (c : bool) p, (if c then (out ++ out') ++ p else out ++ out') = out ++ (if c then out' ++ p else out')) as ->.
      { intros c p. destruct c; [by rewrite app_assoc|done]. }
      rewrite <- app_assoc. split.
      * apply Hout. eapply canonical_mono; [|exact IH1]. lia.
      * intros x. rewrite holds_app, IH2, Hox, holds_cons. specialize (Hlow x). unfold within. lia.
  - destruct (cur <? a_end) eqn:E; [|lia]. destruct (piece_ok cur a_end) as [? Ee]; [lia..|]. cbn [app canonical]. rewrite Ee.
    split; [by split_and!|]. intros x. rewrite holds_cons, piece_within by lia.
    specialize (Hlow x). rewrite holds_cons. unfold within. cbn [holds existsb]. lia.
Qed.

Lemma subtract_from_ok s t b1 b2 :
  0 ≤ b1 → canonical b1 s → canonical b2 t →
  canonical b1 (subtract_from s t []) ∧ ∀ x, holds (subtract_from s t []) x = holds s x && negb (holds t x).
Proof.
  assert (∀ s t out, subtract_from s t out = out ++ subtract_from s t []) as Happ.
  { clear. intros s. induction s as [|a s IH]; intros t out; cbn [subtract_from]; [by rewrite app_nil_r|].
    rewrite carve_app. destruct (carve _ _ _ []) as [cur out']. cbn [fst snd app].
    rewrite IH, (IH _ (if _ <? _ then _ else out')). destruct (cur <? end_of a); by rewrite <- ?app_assoc. }
  revert t b1 b2. induction s as [|a s IH]; intros t b1 b2 Hb Hs Ht; cbn [subtract_from]; [done|].
  destruct Hs as (Hba & Ha & Hs). pose proof (end_of_ok a Ha) as Ea. pose proof Ha as (? & ? & ?).
  destruct (skip_ok (offset a) t b2 Ht) as (b' & Hsk & _ & Hskx).
  destruct (IH (skip (offset a) t) (end_of a + 1) b' ltac:(lia) Hs Hsk) as [IH1 IH2].
  destruct (carved_ok (skip (offset a) t) (offset a) (end_of a) b' (subtract_from s (skip (offset a) t) [])) as [Hc1 Hc2];
    [lia..|done|done|]. unfold carved in Hc1, Hc2.
  destruct (carve (offset a) (end_of a) (skip (offset a) t) []) as [cur out]. rewrite Happ. split.
  - eapply canonical_mono; [|exact Hc1]. lia.
  - intros x. rewrite holds_app, Hc2, IH2, holds_cons. pose proof (canonical_below _ _ x Hs). specialize (Hskx x).
    unfold within. destruct (Z.le_gt_cases (offset a) x); [rewrite Hskx by lia|]; lia.
Qed.

Lemma subtract_ok s t :
  canonical 0 s → canonical 0 t → canonical 0 (subtract s t) ∧ ∀ x, holds (subtract s t) x = holds s x && negb (holds t x).
Proof.
  intros Hs Ht. unfold subtract. destruct s as [|a s]; [done|]. destruct t as [|b t].
  - split; [done|]. intros x. cbn [holds existsb]. lia.
  - by apply (subtract_from_ok _ _ 0 0).
Qed.

(** ** Union *)
Definition last_end (b : Z) (s : RangeSet) : Z := match last s with Some l => end_of l + 1 | None => b end.

Lemma canonical_snoc b s r :
  canonical b (s ++ [r]) ↔ canonical b s ∧ range_ok r ∧ last_end b s ≤ offset r.
Proof.
  unfold last_end. revert b. induction s as [|q s IH]; intros b; cbn [app canonical last].
  - tauto.
  - rewrite IH. change (last (q :: s)) with (last ([q] ++ s)). rewrite last_app. destruct (last s); cbn; tauto.
Qed.

(** Adding a range that starts no earlier than the last one. *)
Lemma push_merge_ok b s r :
  canonical b s → range_ok r → b ≤ offset r → (∀ l, last s = Some l → offset l ≤ offset r) →
  canonical b (push_merge s r) ∧ (∀ x, holds (push_merge s r) x = holds s x || within r x) ∧
  (∀ l, last (push_merge s r) = Some l → offset l ≤ offset r).
Proof.
  intros Hs Hr Hb Hl. unfold push_merge. destruct (last s) as [l|] eqn:El.
  - destruct (proj1 (last_Some _ _) El) as [s' ->]. rewrite removelast_last.
    apply canonical_snoc in Hs as (Hs' & Hlok & Hle). specialize (Hl l eq_refl).
    pose proof (end_of_ok l Hlok) as E1. pose proof (end_of_ok r Hr) as E2. pose proof Hlok as (? & ? & ?). pose proof Hr as (? & ? & ?).
    destruct (offset r <=? end_of l) eqn:E.
    + destruct (piece_ok (offset l) (end_of l `max` end_of r)) as [Hp Ep]; [lia..|]. split_and!.
      * apply canonical_snoc. split_and!; done.
      * intros x. rewrite !holds_app, !holds_cons, piece_within by lia. unfold within. cbn [holds existsb]. lia.
      * intros l'. rewrite last_snoc. by intros [= <-].
    + split_and!.
      * apply canonical_snoc. split_and!; [apply canonical_snoc; by split_and!|done|]. unfold last_end. rewrite last_snoc. lia.
      * intros x. rewrite holds_app, holds_cons. cbn [holds existsb]. lia.
      * intros l'. rewrite last_snoc. intros [= <-]. lia.
  - apply last_None in El as ->. split_and!; [done| |].
    + intros x. cbn. lia.
    + intros l' [= <-]. lia.
Qed.

Lemma canonical_tail b c r s : canonical b (r :: s) → c ≤ offset r → canonical c s.
Proof.
  intros (_ & Hr & Hs) ?. pose proof (end_of_ok r Hr). destruct Hr as (? & ? & ?).
  eapply canonical_mono; [|exact Hs]. lia.
Qed.
Lemma canonical_from b c r s : canonical b (r :: s) → c ≤ offset r → canonical c (r :: s).
Proof. intros (_ & Hr & Hs) ?. by split_and!. Qed.

Lemma union_from_ok s t out c b :
  canonical c s → canonical c t → canonical b out → b ≤ c → (∀ l, last out = Some l → offset l ≤ c) →
  canonical b (union_from s t out) ∧ ∀ x, holds (union_from s t out) x = holds out x || holds s x || holds t x.
Proof.
  assert (∀ c b out r, canonical b out → range_ok r → b ≤ c → c ≤ offset r → (∀ l, last out = Some l → offset l ≤ c) →
    canonical b (push_merge out r) ∧ (∀ x, holds (push_merge out r) x = holds out x || within r x) ∧
    ∀ l, last (push_merge out r) = Some l → offset l ≤ offset r) as Hpush.
  { intros c' b' o r Ho Hr ? ? Hl. apply push_merge_ok; [done..|lia|]. intros l ?%Hl. lia. }
  revert t out c. induction s as [|a s IHs]; intros t; induction t as [|q t IHt]; intros out c Hs Ht Ho Hb Hl; cbn [union_from].
  - split; [done|]. intros x. cbn. lia.
  - pose proof Ht as (? & Hq & _). destruct (Hpush c b out q) as (P1 & P2 & P3); [done..|].
    destruct (IHt (push_merge out q) (offset q)) as [R1 R2]; [done|by eapply canonical_tail|done|lia|done|].
    split; [done|]. intros x. cbn [union_from] in R2. rewrite R2, P2, holds_cons. lia.
  - pose proof Hs as (? & Ha & _). destruct (Hpush c b out a) as (P1 & P2 & P3); [done..|].
    destruct (IHs [] (push_merge out a) (offset a)) as [R1 R2]; [by eapply canonical_tail|done|done|lia|done|].
    split; [done|]. intros x. rewrite R2, P2, holds_cons. lia.
  - pose proof Hs as (? & Ha & _). pose proof Ht as (? & Hq & _). destruct (offset a <=? offset q) eqn:E.
    + destruct (Hpush c b out a) as (P1 & P2 & P3); [done..|].
      destruct (IHs (q :: t) (push_merge out a) (offset a)) as [R1 R2];
        [by eapply canonical_tail|eapply canonical_from; [done|lia]|done|lia|done|].
      split; [done|]. intros x. rewrite R2, P2, !holds_cons. lia.
    + destruct (Hpush c b out q) as (P1 & P2 & P3); [done..|].
      destruct (IHt (push_merge out q) (offset q)) as [R1 R2];
        [eapply canonical_from; [done|lia]|by eapply canonical_tail|done|lia|done|].
      split; [done|]. intros x. cbn [union_from] in R2. rewrite R2, P2, !holds_cons. lia.
Qed.

Lemma union_ok s t :
  canonical 0 s → canonical 0 t → canonical 0 (union_with s t) ∧ ∀ x, holds (union_with s t) x = holds s x || holds t x.
Proof.
  intros Hs Ht. unfold union_with. destruct t as [|q t]; [split; [done|intros x; cbn; lia]|].
  destruct s as [|a s]; [done|]. destruct (union_from_ok _ _ [] 0 0 Hs Ht) as [? Hx]; [done..|]. split; [done|].
  intros x. by rewrite Hx.
Qed.

Lemma from_range_ok r : arg_ok r → canonical 0 (from_range r) ∧ ∀ x, holds (from_range r) x = within r x.
Proof.
  intros Hr. destruct (insert_ok [] r) as [H1 H2]; [done..|]. split; [done|]. intros x. unfold from_range, new.
  rewrite H2. cbn. lia.
Qed.

Lemma missing_from_ok s r :
  canonical 0 s → arg_ok r →
  canonical 0 (missing_from s r) ∧ ∀ x, holds (missing_from s r) x = within r x && negb (holds s x).
Proof.
  intros Hs Hr. destruct (from_range_ok r Hr) as [H1 H2]. destruct (subtract_ok (from_range r) s H1 Hs) as [H3 H4].
  split; [done|]. intros x. unfold missing_from. by rewrite H4, H2.
Qed.

Lemma push_ascending_ok s r :
  canonical 0 s → 0 ≤ offset r → 0 ≤ length_ r → offset r + length_ r ≤ UINT64_MAX →
  (∀ l, last s = Some l → offset l ≤ offset r) →
  canonical 0 (push_ascending s r) ∧ (∀ x, holds (push_ascending s r) x = holds s x || within r x) ∧
  (∀ l, last (push_ascending s r) = Some l → offset l ≤ offset r).
Proof.
  intros Hs Ho Hn He Hl. unfold push_ascending. destruct (length_ r =? 0) eqn:E; reflect_bools.
  - split_and!; [done| |done]. intros x. rewrite (arg_empty r x E). lia.
  - apply push_merge_ok; [done|unfold range_ok; lia|lia|done].
Qed.

(** ** The representation is the content *)
Lemma holds_front b r s : canonical b (r :: s) → holds (r :: s) (offset r) = true.
Proof.
  intros (_ & Hr & _). pose proof (end_of_ok r Hr). destruct Hr as (? & ? & ?). rewrite holds_cons. unfold within. lia.
Qed.

Lemma canonical_unique b s t : canonical b s → canonical b t → (∀ x, holds s x = holds t x) → s = t.
Proof.
  revert b t. induction s as [|r s IH]; intros b t Hs Ht Hx.
  { destruct t as [|q t]; [done|]. specialize (Hx (offset q)). by rewrite (holds_front _ _ _ Ht) in Hx. }
  destruct t as [|q t]; [specialize (Hx (offset r)); by rewrite (holds_front _ _ _ Hs) in Hx|].
  pose proof Hs as (_ & Hr & Hs'). pose proof Ht as (_ & Hq & Ht').
  pose proof (end_of_ok r Hr) as Er. pose proof (end_of_ok q Hq) as Eq. pose proof Hr as (? & ? & ?). pose proof Hq as (? & ? & ?).
  pose proof (λ x, canonical_below _ _ x Hs') as Ls. pose proof (λ x, canonical_below _ _ x Ht') as Lt.
  assert (offset r = offset q) as Eo.
  { pose proof (Hx (offset r)) as H1'. pose proof (Hx (offset q)) as H2'. rewrite (holds_front _ _ _ Hs) in H1'.
    rewrite (holds_front _ _ _ Ht) in H2'. rewrite holds_cons in H1', H2'. specialize (Ls (offset q)). specialize (Lt (offset r)).
    unfold within in *. lia. }
  assert (end_of r = end_of q) as Ee.
  { pose proof (Hx (end_of r)) as H1'. pose proof (Hx (end_of q)) as H2'. rewrite !holds_cons in H1', H2'.
    pose proof (Ls (end_of r)). pose proof (Lt (end_of r)). pose proof (Ls (end_of q)). pose proof (Lt (end_of q)).
    unfold within in *. lia. }
  assert (r = q) as -> by (destruct r, q; cbn in *; f_equal; lia).
  f_equal. apply (IH (end_of q + 1)); [done|done|]. intros x. specialize (Hx x). rewrite !holds_cons in Hx.
  specialize (Ls x). specialize (Lt x). unfold within in Hx. lia.
Qed.

(** ** Sequences of operations *)
Inductive set_op :=
  | Insert (r : ByteRange) | Remove (r : ByteRange) | Union (t : RangeSet) | Subtract (t : RangeSet)
  | Intersect (t : RangeSet) | Clear.
Definition set_step (s : RangeSet) (op : set_op) : RangeSet :=
  match op with
  | Insert r => insert s r | Remove r => remove s r | Union t => union_with s t | Subtract t => subtract s t
  | Intersect t => intersection s t | Clear => clear s
  end.
Definition op_ok (op : set_op) : Prop :=
  match op with
  | Insert r | Remove r => arg_ok r
  | Union t | Subtract t | Intersect t => canonical 0 t
  | Clear => True
  end.
(** The same operations on sets of bytes. *)
Definition byte_step (f : Z → bool) (op : set_op) (x : Z) : bool :=
  match op with
  | Insert r => f x || within r x
  | Remove r => f x && negb (within r x)
  | Union t => f x || holds t x
  | Subtract t => f x && negb (holds t x)
  | Intersect t => f x && holds t x
  | Clear => false
  end.

Lemma set_step_ok s op :
  canonical 0 s → op_ok op → canonical 0 (set_step s op) ∧ ∀ x, holds (set_step s op) x = byte_step (holds s) op x.
Proof.
  intros Hs Hop. destruct op; cbn [set_step byte_step op_ok] in *; [|by apply remove_ok|by apply union_ok|by apply subtract_ok
    |by apply intersection_ok|done].
  destruct (insert_ok s r Hs Hop) as [? Hx]. split; [done|]. intros x. rewrite Hx. lia.
Qed.

Lemma byte_step_ext f g op x : f x = g x → byte_step f op x = byte_step g op x.
Proof. intros E. destruct op; cbn; by rewrite ?E. Qed.

Lemma set_run_ok ops s :
  canonical 0 s → Forall op_ok ops →
  canonical 0 (foldl set_step s ops) ∧ ∀ x, holds (foldl set_step s ops) x = foldl byte_step (holds s) ops x.
Proof.
  assert (∀ ops f g x, f x = g x → foldl byte_step f ops x = foldl byte_step g ops x) as Hext.
  { clear. induction ops as [|op ops IH]; intros f g x E; cbn; [done|]. by apply IH, byte_step_ext. }
  revert s. induction ops as [|op ops IH]; intros s Hs Hops; cbn [foldl]; [done|]. apply Forall_cons in Hops as [Hop Hops].
  destruct (set_step_ok s op Hs Hop) as [H1 H2]. destruct (IH _ H1 Hops) as [H3 H4]. split; [done|].
  intros x. rewrite H4. by apply Hext.
Qed.

(** Whatever operations run on a set that is sorted, disjoint, coalesced and without
    empty members, the result is again such a set, and so is every set derived from it. *)
Theorem range_set_canonical s ops r :
  canonical 0 s → Forall op_ok ops → arg_ok r →
  canonical 0 (foldl set_step s ops) ∧ canonical 0 (from_range r) ∧ canonical 0 (missing_from (foldl set_step s ops) r).
Proof.
  intros Hs Hops Hr. destruct (set_run_ok ops s Hs Hops) as [H1 _].
  split_and!; [done|by apply from_range_ok|by apply missing_from_ok].
Qed.

Definition demo_ops : list set_op :=
  [Insert (mkByteRange 0 16); Insert (mkByteRange 32 16); Insert (mkByteRange 16 16); Remove (mkByteRange 8 8);
   Union [mkByteRange 48 16; mkByteRange 100 1]; Subtract [mkByteRange 0 4; mkByteRange 60 50]].
Lemma demo_ops_ok : Forall op_ok demo_ops.
Proof.
  unfold demo_ops. repeat (apply Forall_cons; split); [..|done]; cbn [op_ok canonical]; unfold arg_ok, range_ok, end_of; cbn;
    unfold UINT64_MAX; lia.
Qed.

Lemma range_set_canonical_witness :
  foldl set_step new demo_ops = [mkByteRange 4 4; mkByteRange 16 44] ∧ canonical 0 [mkByteRange 4 4; mkByteRange 16 44].
Proof.
  assert (foldl set_step new demo_ops = [mkByteRange 4 4; mkByteRange 16 44]) as E by reflexivity.
  destruct (range_set_canonical new demo_ops (mkByteRange 0 1) I demo_ops_ok) as (H & _ & _).
  { unfold arg_ok. cbn. unfold UINT64_MAX. lia. }
  split; [exact E|]. rewrite E in H. exact H.
Defined.

(** C30: A set of ranges is a set of bytes: every sequence of operations holds exactly the
    bytes that the same operations give on sets of bytes; a range is covered exactly
    when all of its bytes are held; what is missing from a range are its other bytes;
    and two sets with the same bytes are the same list. *)
Theorem range_set_bytes s t ops r :
  canonical 0 s → canonical 0 t → Forall op_ok ops → arg_ok r →
  let s' := foldl set_step s ops in
  (∀ x, holds s' x = foldl byte_step (holds s) ops x) ∧
  (covers s' r = true ↔ ∀ x, within r x = true → holds s' x = true) ∧
  (∀ x, holds (missing_from s' r) x = within r x && negb (holds s' x)) ∧
  ((∀ x, holds s' x = holds t x) → s' = t).
Proof.
  intros Hs Ht Hops Hr s'. destruct (set_run_ok ops s Hs Hops) as [H1 H2].
  split_and!; [done|by apply covers_ok|by apply missing_from_ok|by apply (canonical_unique 0)].
Qed.

Lemma range_set_bytes_witness :
  holds (foldl set_step new demo_ops) 59 = true ∧ covers (foldl set_step new demo_ops) (mkByteRange 16 44) = true ∧
  ∀ x, within (mkByteRange 16 44) x = true → holds (foldl set_step new demo_ops) x = true.
Proof.
  destruct (range_set_bytes new [] demo_ops (mkByteRange 16 44) I I demo_ops_ok) as (H1 & H2 & _).
  { unfold arg_ok. cbn. unfold UINT64_MAX. lia. }
  split; [rewrite H1; reflexivity|]. split; [reflexivity|]. apply H2. reflexivity.
Defined.

(** A range at the very last byte: its end saturates to its own offset, and the set gets
    an empty member. *)
Lemma insert_last_byte :
  insert new (mkByteRange UINT64_MAX 1) = [mkByteRange UINT64_MAX 0] ∧ ¬ canonical 0 [mkByteRange UINT64_MAX 0].
Proof. split; [reflexivity|]. intros (_ & (_ & H & _) & _). cbn in H. lia. Qed.
