(* ===== verification/Coverage.v ===== *)
(** Which content version is current in each part of a backing:
    src/reims-vgpu/crates/reims-vgpu-core/src/coverage.rs.

    A coverage is a list of spans, sorted and disjoint, and no two that touch have the
    same version.  [apply] makes a version current wherever nothing at least as new is,
    and says which bytes it took and which it was refused.  A version is a u64. *)
From Stdlib Require Import ZifyBool.
From stdpp Require Import sorting.
From S2P Require Import Prelude RangeSet.

Record Span := mkSpan { sp_range : ByteRange; sp_version : Z }.
Record Applied := mkApplied { taken : RangeSet; refused : RangeSet }.
Definition VersionCoverage : Type := list Span.

(** Applied::is_empty and was_partly_stale. *)
Definition applied_is_empty (a : Applied) : bool := match taken a with [] => true | _ => false end.
Definition was_partly_stale (a : Applied) : bool := match refused a with [] => false | _ => true end.

(** The loop of [apply]: the bytes taken and refused so far, and where the next begin. *)
Fixpoint apply_from (spans : VersionCoverage) (stop version cursor : Z) (out : Applied) : Z * Applied :=
  match spans with
  | [] => (cursor, out)
  | span :: spans =>
      let s := offset (sp_range span) in
      let e := end_of (sp_range span) in
      if e <=? cursor then apply_from spans stop version cursor out
      else if stop <=? s then (cursor, out)
      else
        let '(cursor, out) :=
          if cursor <? s
          then (s, mkApplied (push_ascending (taken out) (mkByteRange cursor (s - cursor))) (refused out))
          else (cursor, out) in
        let overlap_end := stop `min` e in
        if cursor <? overlap_end then
          let p := mkByteRange cursor (overlap_end - cursor) in
          let out := if sp_version span <? version
                     then mkApplied (push_ascending (taken out) p) (refused out)
                     else mkApplied (taken out) (push_ascending (refused out) p) in
          apply_from spans stop version overlap_end out
        else apply_from spans stop version cursor out
  end.

Definition coalesce_step (out : VersionCoverage) (span : Span) : VersionCoverage :=
  if length_ (sp_range span) =? 0 then out
  else
    match last out with
    | Some l =>
        if (end_of (sp_range l) =? offset (sp_range span)) && (sp_version l =? sp_version span)
        then removelast out ++
             [mkSpan (mkByteRange (offset (sp_range l))
                        ((length_ (sp_range l) + length_ (sp_range span)) `min` UINT64_MAX)) (sp_version l)]
        else out ++ [span]
    | None => out ++ [span]
    end.
Definition coalesce (sorted : VersionCoverage) : VersionCoverage := foldl coalesce_step [] sorted.

Definition by_offset (a b : Span) : Prop := offset (sp_range a) ≤ offset (sp_range b).
#[export] Instance by_offset_dec a b : Decision (by_offset a b).
Proof. unfold by_offset. apply _. Defined.

Definition write_spans (spans : VersionCoverage) (bytes : RangeSet) (version : Z) : VersionCoverage :=
  let left_over := flat_map (λ s, (λ r, mkSpan r (sp_version s)) <$> missing_from bytes (sp_range s)) spans in
  let fresh := (λ r, mkSpan r version) <$> bytes in
  coalesce (merge_sort by_offset (left_over ++ fresh)).

(** VersionCoverage::apply. *)
Definition apply (spans : VersionCoverage) (range : ByteRange) (version : Z) : VersionCoverage * Applied :=
  if length_ range =? 0 then (spans, mkApplied [] [])
  else
    let stop := end_of range in
    let '(cursor, out) := apply_from spans stop version (offset range) (mkApplied [] []) in
    let out := if cursor <? stop
               then mkApplied (push_ascending (taken out) (mkByteRange cursor (stop - cursor))) (refused out)
               else out in
    (match taken out with [] => spans | _ => write_spans spans (taken out) version end, out).

(** The spans that meet a range, clipped to it. *)
Definition overlapping (spans : VersionCoverage) (range : ByteRange) : list (ByteRange * Span) :=
  omap (λ span,
    let start := offset (sp_range span) `max` offset range in
    let stop := end_of (sp_range span) `min` end_of range in
    if start <? stop then Some (mkByteRange start (stop - start), span) else None) spans.
Definition over (spans : VersionCoverage) (range : ByteRange) : list Span :=
  (λ p, mkSpan p.1 (sp_version p.2)) <$> overlapping spans range.
Definition newest_over (spans : VersionCoverage) (range : ByteRange) : option Z :=
  foldl (λ m p, Some (match m with Some v => v `max` sp_version p.2 | None => sp_version p.2 end)) None
    (overlapping spans range).
Definition uncovered (spans : VersionCoverage) (range : ByteRange) : RangeSet :=
  missing_from (foldl (λ s p, push_ascending s p.1) new (overlapping spans range)) range.

(** ** The version of a byte *)
Fixpoint version_at (spans : VersionCoverage) (x : Z) : option Z :=
  match spans with
  | [] => None
  | s :: spans => if within (sp_range s) x then Some (sp_version s) else version_at spans x
  end.

(** Sorted and disjoint from [b] on. *)
Fixpoint sorted_from (b : Z) (spans : VersionCoverage) : Prop :=
  match spans with
  | [] => True
  | s :: spans => b ≤ offset (sp_range s) ∧ range_ok (sp_range s) ∧ sorted_from (end_of (sp_range s)) spans
  end.
(** Two spans that touch differ. *)
Definition differ (a b : Span) : Prop := end_of (sp_range a) = offset (sp_range b) → sp_version a ≠ sp_version b.
Fixpoint coalesced (spans : VersionCoverage) : Prop :=
  match spans with
  | a :: (b :: _) as spans => differ a b ∧ coalesced spans
  | _ => True
  end.
Definition cov_ok (spans : VersionCoverage) : Prop := sorted_from 0 spans ∧ coalesced spans.

Lemma sorted_mono b b' spans : b' ≤ b → sorted_from b spans → sorted_from b' spans.
Proof. destruct spans; cbn; [done|]. intros ? (? & ? & ?). split_and!; [lia|done..]. Qed.

Lemma version_below b spans x : sorted_from b spans → x < b → version_at spans x = None.
Proof.
  revert b. induction spans as [|s spans IH]; intros b Hs Hx; [done|]. destruct Hs as (? & Hr & Hs). cbn.
  pose proof (end_of_ok _ Hr). destruct Hr as (? & ? & ?). destruct (within _ x) eqn:E; [unfold within in E; lia|].
  apply (IH _ Hs). lia.
Qed.

(** ** The bytes [apply] takes *)
Definition beats (version : Z) (old : option Z) : bool :=
  match old with Some w => w <? version | None => true end.

(** After the loop has reached [cursor] within [lo .. stop), [out] is right for the bytes
    before it. *)
Record split_at (spans : VersionCoverage) (lo version cursor : Z) (out : Applied) : Prop := {
  sa_taken : canonical 0 (taken out);
  sa_refused : canonical 0 (refused out);
  sa_last_taken l : last (taken out) = Some l → offset l ≤ cursor;
  sa_last_refused l : last (refused out) = Some l → offset l ≤ cursor;
  sa_taken_at x : holds (taken out) x = (lo <=? x) && (x <? cursor) && beats version (version_at spans x);
  sa_refused_at x : holds (refused out) x = (lo <=? x) && (x <? cursor) && negb (beats version (version_at spans x)) }.

(** One more piece, all of which is taken or all of which is refused. *)
Lemma split_push spans lo version cursor out e (win : bool) :
  split_at spans lo version cursor out → 0 ≤ lo ≤ cursor → cursor ≤ e ≤ UINT64_MAX →
  (∀ x, cursor ≤ x < e → beats version (version_at spans x) = win) →
  split_at spans lo version e
    (let p := mkByteRange cursor (e - cursor) in
     if win then mkApplied (push_ascending (taken out) p) (refused out)
     else mkApplied (taken out) (push_ascending (refused out) p)).
Proof.
  intros [H1 H2 H3 H4 H5 H6] Hlo He Hwin. set (p := mkByteRange cursor (e - cursor)).
  assert (∀ x, within p x = (cursor <=? x) && (x <? e)) as Hp by (intros x; unfold within, end_of, p; cbn; lia).
  destruct win; cbn zeta.
  - destruct (push_ascending_ok (taken out) p) as (P1 & P2 & P3); [done|cbn; lia|cbn; lia|cbn; lia|done|].
    split; cbn [taken refused]; [done|done|intros l ?%P3; cbn in *; lia|intros l ?%H4; lia| |].
    + intros x. rewrite P2, H5, Hp. specialize (Hwin x). lia.
    + intros x. rewrite H6. specialize (Hwin x). lia.
  - destruct (push_ascending_ok (refused out) p) as (P1 & P2 & P3); [done|cbn; lia|cbn; lia|cbn; lia|done|].
    split; cbn [taken refused]; [done|done|intros l ?%H3; lia|intros l ?%P3; cbn in *; lia| |].
    + intros x. rewrite H5. specialize (Hwin x). lia.
    + intros x. rewrite P2, H6, Hp. specialize (Hwin x). lia.
Qed.

(** The loop, over the rest of the spans: the earlier ones end at or before the cursor. *)
Lemma apply_from_ok spans all lo stop version cursor out b :
  sorted_from b spans → (∀ x, b ≤ x → version_at all x = version_at spans x) →
  (∀ x, cursor ≤ x < b → x < stop → version_at all x = None) →
  split_at all lo version cursor out → 0 ≤ lo ≤ cursor → cursor ≤ stop ≤ UINT64_MAX →
  let '(cursor', out') := apply_from spans stop version cursor out in
  split_at all lo version cursor' out' ∧ cursor ≤ cursor' ≤ stop ∧ ∀ x, cursor' ≤ x < stop → version_at all x = None.
Proof.
  intros Hs. revert b cursor out Hs. induction spans as [|s spans IH]; intros b cursor out Hs Hall Hgap Hsp Hlo Hst;
    cbn [apply_from].
  { split_and!; [done|lia|lia|]. intros x Hx. destruct (Z.lt_ge_cases x b); [apply Hgap; lia|]. by rewrite Hall. }
  destruct Hs as (Hb & Hr & Hs). pose proof (end_of_ok _ Hr) as Er. pose proof Hr as (? & ? & ?).
  set (lo_s := offset (sp_range s)) in *. set (hi_s := end_of (sp_range s)) in *.
  assert (∀ x, hi_s ≤ x → version_at all x = version_at spans x) as Hall'.
  { intros x ?. rewrite Hall by lia. cbn. destruct (within _ x) eqn:E; [unfold within in E; lia|done]. }
  assert (∀ x, lo_s ≤ x < hi_s → version_at all x = Some (sp_version s)) as Hin.
  { intros x ?. rewrite Hall by lia. cbn. destruct (within _ x) eqn:E; [done|unfold within in E; lia]. }
  assert (∀ x, cursor ≤ x < lo_s → x < stop → version_at all x = None) as Hbefore.
  { intros x ? ?. destruct (Z.lt_ge_cases x b); [apply Hgap; lia|]. rewrite Hall by lia. cbn.
    destruct (within _ x) eqn:E; [unfold within in E; lia|]. apply (version_below _ _ _ Hs). lia. }
  destruct (hi_s <=? cursor) eqn:E1.
  { apply (IH hi_s); [done|done| |done|done|done]. intros x ?. lia. }
  destruct (stop <=? lo_s) eqn:E2.
  { split_and!; [done|lia|lia|]. intros x ?. apply Hbefore; lia. }
  destruct (cursor <? lo_s) eqn:E3.
  - assert (split_at all lo version lo_s (mkApplied (push_ascending (taken out) (mkByteRange cursor (lo_s - cursor))) (refused out)))
      as Hgap'.
    { apply (split_push _ _ _ cursor _ lo_s true); [done|done|lia|]. intros x ?. by rewrite Hbefore by lia. }
    destruct (lo_s <? stop `min` hi_s) eqn:E4; [|lia].
    pose proof (split_push _ _ _ _ _ (stop `min` hi_s) (sp_version s <? version) Hgap') as Hnext.
    specialize (IH hi_s (stop `min` hi_s) _ Hs Hall' ltac:(lia) (Hnext ltac:(lia) ltac:(lia) ltac:(intros x ?; by rewrite Hin by lia)) ltac:(lia) ltac:(lia)).
    cbn [taken refused] in *. destruct (apply_from _ _ _ _ _) as [cursor' out']. destruct IH as (? & ? & ?). split_and!; done || lia.
  - destruct (cursor <? stop `min` hi_s) eqn:E4.
    + pose proof (split_push _ _ _ _ _ (stop `min` hi_s) (sp_version s <? version) Hsp) as Hnext.
      specialize (IH hi_s (stop `min` hi_s) _ Hs Hall' ltac:(lia) (Hnext ltac:(lia) ltac:(lia) ltac:(intros x ?; by rewrite Hin by lia)) ltac:(lia) ltac:(lia)).
      destruct (apply_from _ _ _ _ _) as [cursor' out']. destruct IH as (? & ? & ?). split_and!; done || lia.
    + assert (cursor = stop) by lia. apply (IH hi_s); [done|done| |done|done|done]. intros x ?. lia.
Qed.

(** ** Spans as a set *)
Lemma version_at_app a b x : version_at (a ++ b) x = match version_at a x with Some v => Some v | None => version_at b x end.
Proof. induction a as [|s a IH]; cbn; [done|]. by destruct (within _ x). Qed.

Definition apart (a b : Span) : Prop := ∀ x, within (sp_range a) x = true → within (sp_range b) x = true → False.

Lemma apart_sym a b : apart a b → apart b a.
Proof. unfold apart. eauto. Qed.

Lemma apart_perm l l' : l ≡ₚ l' → ForallOrdPairs apart l → ForallOrdPairs apart l'.
Proof.
  induction 1 as [|a l l' Hp IH|a b l|l1 l2 l3 _ IH1 _ IH2]; [done|..|by auto].
  - intros HF. inversion HF; subst. constructor; [by rewrite <- Hp|auto].
  - intros HF. inversion HF as [|? ? Hb HF']; subst. inversion HF' as [|? ? Ha HF'']; subst.
    apply Forall_cons in Hb as [Hba Hb]. repeat constructor; [by apply apart_sym|done..].
Qed.

Lemma apart_app l l' :
  ForallOrdPairs apart l → ForallOrdPairs apart l' → (∀ a b, a ∈ l → b ∈ l' → apart a b) → ForallOrdPairs apart (l ++ l').
Proof.
  induction 1 as [|a l Ha HF IH]; intros HF' Hx; cbn; [done|]. constructor.
  - apply Forall_app. split; [done|]. apply Forall_forall. intros b Hb. apply Hx; [left|done].
  - apply IH; [done|]. intros x b ? ?. apply Hx; [by right|done].
Qed.

Lemma sorted_apart b l : sorted_from b l → ForallOrdPairs apart l ∧ Forall (λ s, range_ok (sp_range s) ∧ b ≤ offset (sp_range s)) l.
Proof.
  revert b. induction l as [|s l IH]; intros b Hs; [split; constructor|]. destruct Hs as (Hb & Hr & Hs).
  destruct (IH _ Hs) as [H1 H2]. pose proof (end_of_ok _ Hr). pose proof Hr as (? & ? & ?). split; constructor; [|done|done|].
  - eapply Forall_impl; [exact H2|]. intros t [_ Ht] x. unfold within. lia.
  - eapply Forall_impl; [exact H2|]. intros t [Ht1 Ht2]. split; [done|]. cbn in *. lia.
Qed.

(** Sorted by offset, pairwise apart and none empty: sorted and disjoint. *)
Lemma sorted_of b l :
  StronglySorted by_offset l → ForallOrdPairs apart l → Forall (λ s, range_ok (sp_range s) ∧ b ≤ offset (sp_range s)) l →
  sorted_from b l.
Proof.
  intros Hs. revert b. induction Hs as [|s l Hs IH Hle]; intros b Ha Hok; [done|].
  apply Forall_cons in Hok as [[Hr Hb] Hok]. inversion Ha as [|? ? Hsl Ha']; subst. split_and!; [done..|].
  apply IH; [done|]. rewrite Forall_forall in *. intros t Ht. destruct (Hok t Ht) as [Ht1 Ht2]. split; [done|].
  specialize (Hsl t Ht). specialize (Hle t Ht). unfold by_offset, apart in *.
  pose proof (end_of_ok _ Hr). pose proof (end_of_ok _ Ht1). pose proof Hr as (? & ? & ?). pose proof Ht1 as (? & ? & ?).
  destruct (Z.le_gt_cases (end_of (sp_range s)) (offset (sp_range t))); [done|].
  exfalso. apply (Hsl (offset (sp_range t))); unfold within; lia.
Qed.

Lemma version_at_in l x v :
  ForallOrdPairs apart l →
  version_at l x = Some v ↔ ∃ s, s ∈ l ∧ within (sp_range s) x = true ∧ sp_version s = v.
Proof.
  induction 1 as [|s l Hs HF IH]; cbn.
  - split; [done|]. intros (s & Hin & _). by apply elem_of_nil in Hin.
  - destruct (within (sp_range s) x) eqn:E.
    + split; [intros [= <-]; exists s; split; [left|done]|]. intros (t & [->|Hin]%elem_of_cons & Hw & <-); [done|].
      rewrite Forall_forall in Hs. by destruct (Hs t Hin x).
    + rewrite IH. split; intros (t & Hin & Hw & Hv); exists t; (split; [|done]); [by right|].
      apply elem_of_cons in Hin as [->|Hin]; [congruence|done].
Qed.

Lemma version_at_perm l l' x : ForallOrdPairs apart l → l ≡ₚ l' → version_at l x = version_at l' x.
Proof.
  intros Ha Hp. pose proof (apart_perm _ _ Hp Ha) as Ha'.
  destruct (version_at l x) as [v|] eqn:E, (version_at l' x) as [v'|] eqn:E'; [|..|done].
  - apply version_at_in in E as (s & Hin & Hw & Hv); [|done].
    assert (version_at l' x = Some v) as E2; [|congruence]. apply version_at_in; [done|]. exists s. by rewrite <- Hp.
  - apply version_at_in in E as (s & Hin & Hw & Hv); [|done].
    assert (version_at l' x = Some v) as E2; [|congruence]. apply version_at_in; [done|]. exists s. by rewrite <- Hp.
  - apply version_at_in in E' as (s & Hin & Hw & Hv); [|done].
    assert (version_at l x = Some v') as E2; [|congruence]. apply version_at_in; [done|]. exists s. by rewrite Hp.
Qed.

(** ** Coalescing *)
Definition last_stop (b : Z) (l : VersionCoverage) : Z := match last l with Some s => end_of (sp_range s) | None => b end.

Lemma last_cons' {A} (x : A) l : last (x :: l) = match last l with Some y => Some y | None => Some x end.
Proof. change (x :: l) with ([x] ++ l). by rewrite last_app. Qed.

Lemma sorted_snoc b l s :
  sorted_from b (l ++ [s]) ↔ sorted_from b l ∧ range_ok (sp_range s) ∧ last_stop b l ≤ offset (sp_range s).
Proof.
  unfold last_stop. revert b. induction l as [|t l IH]; intros b; cbn [app sorted_from]; [cbn; tauto|].
  rewrite IH, last_cons'. destruct (last l); tauto.
Qed.

Lemma coalesced_snoc l s : coalesced (l ++ [s]) ↔ coalesced l ∧ ∀ t, last l = Some t → differ t s.
Proof.
  assert (∀ P : Span → Prop, ∀ a, (∀ t, Some a = Some t → P t) ↔ P a) as Hsome.
  { intros P a. split; [by intros H; apply H|by intros H t [= <-]]. }
  induction l as [|a l IH]; [by split|]. rewrite last_cons'. destruct l as [|b l].
  - cbn. rewrite Hsome. tauto.
  - cbn [app coalesced] in *. rewrite IH, last_cons'. destruct (last l); rewrite !Hsome; tauto.
Qed.

Lemma coalesce_step_ok out s :
  cov_ok out → range_ok (sp_range s) → last_stop 0 out ≤ offset (sp_range s) →
  cov_ok (coalesce_step out s) ∧ last_stop 0 (coalesce_step out s) = end_of (sp_range s) ∧
  ∀ x, version_at (coalesce_step out s) x = version_at (out ++ [s]) x.
Proof.
  intros [Hso Hco] Hr Hl. pose proof (end_of_ok _ Hr) as Er. pose proof Hr as (? & ? & ?). unfold coalesce_step.
  destruct (_ =? 0) eqn:E0; [lia|].
  assert (∀ t, last out = Some t → range_ok (sp_range t)) as Hlast.
  { intros t (o & ->)%last_Some. by apply sorted_snoc in Hso as (_ & ? & _). }
  assert ((∀ t, last out = Some t → differ t s) → cov_ok (out ++ [s]) ∧ last_stop 0 (out ++ [s]) = end_of (sp_range s)) as Hpush.
  { intros Hd. split; [|unfold last_stop; by rewrite last_snoc]. split; [by apply sorted_snoc|by apply coalesced_snoc]. }
  destruct (last out) as [t|] eqn:Et; [|split_and!; [by apply Hpush..|done]].
  destruct (_ && _) eqn:E1.
  - destruct (proj1 (last_Some _ _) Et) as [o ->]. rewrite removelast_last. reflect_bools.
    specialize (Hlast t eq_refl). pose proof (end_of_ok _ Hlast) as Et'. pose proof Hlast as (? & ? & ?).
    apply sorted_snoc in Hso as (Hso & _ & Hlo). apply coalesced_snoc in Hco as [Hco Hd].
    set (m := mkSpan _ _).
    assert (range_ok (sp_range m) ∧ end_of (sp_range m) = end_of (sp_range s)) as [Hm Em].
    { unfold range_ok, end_of, m in *. cbn. lia. }
    split_and!.
    + split; [apply sorted_snoc; by split_and!|]. apply coalesced_snoc. split; [done|]. intros p Hp. exact (Hd p Hp).
    + unfold last_stop. by rewrite last_snoc.
    + intros x. rewrite !version_at_app. destruct (version_at o x); [done|]. cbn [version_at].
      assert (within (sp_range m) x = within (sp_range t) x || within (sp_range s) x) as ->.
      { unfold within. rewrite Em. cbn. lia. }
      destruct (within (sp_range t) x), (within (sp_range s) x); cbn; congruence.
  - split_and!; [apply Hpush..|done]; intros t' [= <-] Heq; lia.
Qed.

Lemma coalesce_ok l b :
  sorted_from b l → 0 ≤ b → cov_ok (coalesce l) ∧ ∀ x, version_at (coalesce l) x = version_at l x.
Proof.
  assert (∀ l out, cov_ok out → sorted_from (last_stop 0 out) l →
    cov_ok (foldl coalesce_step out l) ∧ ∀ x, version_at (foldl coalesce_step out l) x = version_at (out ++ l) x) as Hgo.
  { clear. induction l as [|s l IH]; intros out Ho Hs; cbn [foldl].
    - split; [done|]. by rewrite app_nil_r.
    - destruct Hs as (Hb & Hr & Hs). destruct (coalesce_step_ok out s Ho Hr Hb) as (H1 & H2 & H3).
      destruct (IH (coalesce_step out s)) as [H4 H5]; [done|by rewrite H2|]. split; [done|].
      intros x. rewrite H5, !version_at_app, H3, version_at_app. cbn. destruct (version_at out x); [done|].
      by destruct (within _ x). }
  intros Hs Hb. apply (Hgo l []); [done|]. cbn. by eapply sorted_mono.
Qed.

(** ** Writing spans *)
#[export] Instance by_offset_trans : Transitive by_offset.
Proof. intros a b c. unfold by_offset. lia. Qed.
#[export] Instance by_offset_total : Total by_offset.
Proof. intros a b. unfold by_offset. lia. Qed.

(** The spans of a set of ranges at one version. *)
Lemma version_at_set m v x : version_at ((λ r, mkSpan r v) <$> m) x = if holds m x then Some v else None.
Proof.
  induction m as [|r m IH]; [done|]. rewrite holds_cons. cbn. by destruct (within r x).
Qed.

Lemma range_arg r : range_ok r → arg_ok r.
Proof. unfold range_ok, arg_ok. lia. Qed.

Lemma canonical_apart b m v : canonical b m → ForallOrdPairs apart ((λ r, mkSpan r v) <$> m).
Proof.
  intros Hm. apply (sorted_apart b). revert b Hm. induction m as [|r m IH]; intros b; cbn; [done|].
  intros (? & ? & Hm). split_and!; [done..|]. apply (sorted_mono (end_of r + 1)); [lia|]. by apply IH.
Qed.

(** What is left of the old spans: inside them, outside the new bytes. *)
Lemma left_over_in spans bytes t :
  canonical 0 bytes → Forall (λ s, range_ok (sp_range s)) spans →
  t ∈ flat_map (λ s, (λ r, mkSpan r (sp_version s)) <$> missing_from bytes (sp_range s)) spans →
  range_ok (sp_range t) ∧ ∃ s, s ∈ spans ∧ sp_version t = sp_version s ∧
    ∀ x, within (sp_range t) x = true → within (sp_range s) x = true ∧ holds bytes x = false.
Proof.
  intros Hb Hok Ht. apply list_elem_of_In, in_flat_map in Ht as (s & Hs & Ht). apply list_elem_of_In in Hs, Ht.
  rewrite Forall_forall in Hok. pose proof (Hok s Hs) as Hr.
  apply list_elem_of_fmap in Ht as (r & -> & Hin). destruct (missing_from_ok bytes (sp_range s) Hb (range_arg _ Hr)) as [Hm Hmx].
  split; [by apply (canonical_In 0 _ _ Hm)|]. exists s. split_and!; [done..|]. intros x Hx. cbn in Hx.
  assert (holds (missing_from bytes (sp_range s)) x = true) as E by (apply holds_In; by exists r).
  rewrite Hmx in E. lia.
Qed.

Lemma left_over_apart spans bytes b :
  canonical 0 bytes → sorted_from b spans →
  ForallOrdPairs apart (flat_map (λ s, (λ r, mkSpan r (sp_version s)) <$> missing_from bytes (sp_range s)) spans).
Proof.
  intros Hb. revert b. induction spans as [|s spans IH]; intros b Hs; cbn [flat_map]; [constructor|].
  pose proof Hs as (_ & Hr & Hs'). destruct (missing_from_ok bytes (sp_range s) Hb (range_arg _ Hr)) as [Hm Hmx].
  apply apart_app; [by eapply canonical_apart|by eapply IH|].
  intros t u Ht Hu x Hx1 Hx2. apply list_elem_of_fmap in Ht as (r & -> & Hin).
  destruct (sorted_apart _ _ Hs') as [_ Hok]. apply left_over_in in Hu as (_ & s' & Hs1 & _ & Hsub); [|done|].
  2: { eapply Forall_impl; [exact Hok|]. by intros ? [? _]. }
  assert (holds (missing_from bytes (sp_range s)) x = true) as E by (apply holds_In; by exists r). rewrite Hmx in E.
  destruct (Hsub x Hx2) as [Hw _]. rewrite Forall_forall in Hok. destruct (Hok s' Hs1) as [_ Hge]. unfold within in *. lia.
Qed.

Lemma left_over_version spans bytes b x :
  canonical 0 bytes → sorted_from b spans →
  version_at (flat_map (λ s, (λ r, mkSpan r (sp_version s)) <$> missing_from bytes (sp_range s)) spans) x =
    if holds bytes x then None else version_at spans x.
Proof.
  intros Hb. revert b. induction spans as [|s spans IH]; intros b Hs; cbn [flat_map]; [by case_match|].
  pose proof Hs as (_ & Hr & Hs'). destruct (missing_from_ok bytes (sp_range s) Hb (range_arg _ Hr)) as [_ Hmx].
  rewrite version_at_app, version_at_set, Hmx, (IH _ Hs'). cbn [version_at].
  destruct (within (sp_range s) x), (holds bytes x); cbn; done.
Qed.

Lemma write_spans_ok spans bytes v :
  cov_ok spans → canonical 0 bytes →
  cov_ok (write_spans spans bytes v) ∧
  ∀ x, version_at (write_spans spans bytes v) x = if holds bytes x then Some v else version_at spans x.
Proof.
  intros [Hs Hc] Hb. unfold write_spans. set (old := flat_map _ spans). set (fresh := (λ r, mkSpan r v) <$> bytes).
  destruct (sorted_apart _ _ Hs) as [_ Hok].
  assert (Forall (λ s, range_ok (sp_range s)) spans) as Hok' by (eapply Forall_impl; [exact Hok|]; by intros ? [? _]).
  assert (ForallOrdPairs apart (old ++ fresh)) as Ha.
  { apply apart_app; [by eapply left_over_apart|by eapply canonical_apart|].
    intros t u Ht Hu x Hx1 Hx2. apply left_over_in in Ht as (_ & s & _ & _ & Hsub); [|done..].
    apply list_elem_of_fmap in Hu as (r & -> & Hin). destruct (Hsub x Hx1) as [_ E].
    assert (holds bytes x = true) by (apply holds_In; by exists r). congruence. }
  assert (Forall (λ s, range_ok (sp_range s) ∧ 0 ≤ offset (sp_range s)) (old ++ fresh)) as Hr.
  { apply Forall_forall. intros t Ht. assert (range_ok (sp_range t)) as Ht'; [|split; [done|by destruct Ht']].
    apply elem_of_app in Ht as [Ht|Ht]; [by apply left_over_in in Ht as [? _]|].
    apply list_elem_of_fmap in Ht as (r & -> & Hin). by apply (canonical_In 0 bytes). }
  pose proof (merge_sort_Permutation by_offset (old ++ fresh)) as Hp.
  assert (sorted_from 0 (merge_sort by_offset (old ++ fresh))) as Hsort.
  { apply sorted_of.
    - apply (StronglySorted_merge_sort by_offset).
    - by eapply apart_perm; [symmetry|].
    - by rewrite Hp. }
  destruct (coalesce_ok _ 0 Hsort ltac:(lia)) as [H1 H2]. split; [done|]. intros x.
  rewrite H2, <- (version_at_perm (old ++ fresh)) by (done || by symmetry). rewrite version_at_app.
  unfold old, fresh. rewrite version_at_set. rewrite (left_over_version _ _ 0) by done. destruct (holds bytes x); [done|]. by destruct (version_at spans x).
Qed.

Lemma apply_ok spans range v :
  cov_ok spans → arg_ok range →
  let '(spans', a) := apply spans range v in
  cov_ok spans' ∧ canonical 0 (taken a) ∧ canonical 0 (refused a) ∧
  (∀ x, holds (taken a) x = within range x && beats v (version_at spans x)) ∧
  (∀ x, holds (refused a) x = within range x && negb (beats v (version_at spans x))) ∧
  (∀ x, version_at spans' x = if holds (taken a) x then Some v else version_at spans x).
Proof.
  intros Hc Hr. unfold apply. destruct (length_ range =? 0) eqn:E; reflect_bools.
  { split_and!; [done|done|done|..|done]; intros x; rewrite (arg_empty range x E); done. }
  pose proof (arg_end range Hr E). destruct Hr as [? ?].
  pose proof (apply_from_ok spans spans (offset range) (end_of range) v (offset range) (mkApplied [] []) 0) as Hl.
  destruct (apply_from _ _ _ _ _) as [cursor out].
  destruct Hl as (Hsp & Hcur & Hrest); [apply Hc|done| |split; cbn; try done; intros x; lia|lia|lia|].
  { intros x Hx _. apply (version_below 0); [apply Hc|lia]. }
  set (out' := if cursor <? end_of range then _ else out).
  assert (split_at spans (offset range) v (end_of range) out') as [T1 T2 _ _ T5 T6].
  { unfold out'. destruct (cursor <? end_of range) eqn:E1; [|by replace (end_of range) with cursor by lia].
    apply (split_push _ _ _ cursor _ (end_of range) true); [done|lia|lia|]. intros x ?. by rewrite Hrest. }
  assert (∀ x, (offset range <=? x) && (x <? end_of range) = within range x) as Hw by done.
  assert (∀ spans', spans' = match taken out' with [] => spans | _ => write_spans spans (taken out') v end →
    cov_ok spans' ∧ ∀ x, version_at spans' x = if holds (taken out') x then Some v else version_at spans x) as Hspans.
  { intros ? ->. destruct (write_spans_ok spans (taken out') v Hc T1) as [H1' H2']. by destruct (taken out'). }
  destruct (Hspans _ eq_refl) as [H3' H4']. split_and!; done.
Qed.

(** ** The representation is the content *)
Lemma version_front b s l : sorted_from b (s :: l) → version_at (s :: l) (offset (sp_range s)) = Some (sp_version s).
Proof.
  intros (_ & Hr & _). pose proof (end_of_ok _ Hr). destruct Hr as (? & ? & ?). cbn.
  destruct (within _ _) eqn:E; [done|]. unfold within in E. lia.
Qed.

Lemma version_next b s l : sorted_from b (s :: l) → coalesced (s :: l) → version_at l (end_of (sp_range s)) ≠ Some (sp_version s).
Proof.
  intros (_ & _ & Hs) Hc. destruct l as [|t l]; [done|]. destruct Hc as [Hd _]. intros Hv.
  destruct (Z.eq_dec (end_of (sp_range s)) (offset (sp_range t))) as [E|E].
  - rewrite E, (version_front _ _ _ Hs) in Hv. injection Hv as Hv. by apply (Hd E).
  - destruct Hs as (? & Hr & Hs). rewrite (version_below (offset (sp_range t)) (t :: l)) in Hv; [done| |lia]. by split_and!.
Qed.

(** Two spans that start the same and show the same versions end the same. *)
Lemma span_ends b b' s l t l' :
  sorted_from b (s :: l) → coalesced (s :: l) → sorted_from b' (t :: l') → 
  offset (sp_range s) = offset (sp_range t) → sp_version s = sp_version t →
  (∀ x, version_at (s :: l) x = version_at (t :: l') x) → end_of (sp_range t) ≤ end_of (sp_range s).
Proof.
  intros Hs Hc Ht Eo Ev Hx. pose proof Hs as (_ & Hr & _). pose proof (end_of_ok _ Hr). destruct Hr as (? & ? & ?).
  destruct (Z.le_gt_cases (end_of (sp_range t)) (end_of (sp_range s))) as [|Hlt]; [done|]. exfalso.
  apply (version_next _ _ _ Hs Hc). specialize (Hx (end_of (sp_range s))). cbn in Hx. rewrite Ev.
  destruct (within (sp_range s) _) eqn:E1; [unfold within in E1; lia|].
  destruct (within (sp_range t) _) eqn:E2; [done|unfold within in E2; lia].
Qed.

Lemma cov_unique a b : cov_ok a → cov_ok b → (∀ x, version_at a x = version_at b x) → a = b.
Proof.
  intros [Hsa Hca] [Hsb Hcb]. revert Hsa Hsb. generalize 0. revert b Hca Hcb.
  induction a as [|s a IH]; intros [|t b] Hca Hcb c Hsa Hsb Hx; [done|..].
  { specialize (Hx (offset (sp_range t))). by rewrite (version_front _ _ _ Hsb) in Hx. }
  { specialize (Hx (offset (sp_range s))). by rewrite (version_front _ _ _ Hsa) in Hx. }
  pose proof Hsa as (_ & Hr & Hsa'). pose proof Hsb as (_ & Hq & Hsb').
  assert (offset (sp_range s) = offset (sp_range t)) as Eo.
  { pose proof (Hx (offset (sp_range s))) as H1'. pose proof (Hx (offset (sp_range t))) as H2'.
    rewrite (version_front _ _ _ Hsa) in H1'. rewrite (version_front _ _ _ Hsb) in H2'.
    destruct (Z.lt_total (offset (sp_range s)) (offset (sp_range t))) as [?|[?|?]]; [|done|].
    - rewrite (version_below (offset (sp_range t)) (t :: b)) in H1'; [done|by split_and!|lia].
    - rewrite (version_below (offset (sp_range s)) (s :: a)) in H2'; [done|by split_and!|lia]. }
  assert (sp_version s = sp_version t) as Ev.
  { pose proof (Hx (offset (sp_range s))) as H1'. rewrite (version_front _ _ _ Hsa), Eo, (version_front _ _ _ Hsb) in H1'. congruence. }
  pose proof (span_ends _ _ _ _ _ _ Hsa Hca Hsb Eo Ev Hx) as He1.
  pose proof (span_ends _ _ _ _ _ _ Hsb Hcb Hsa (eq_sym Eo) (eq_sym Ev) (λ x, eq_sym (Hx x))) as He2.
  pose proof (end_of_ok _ Hr) as Er. pose proof (end_of_ok _ Hq) as Eq.
  assert (s = t) as -> by (destruct s as [[] ?], t as [[] ?]; cbn in *; f_equal; [f_equal|]; lia).
  f_equal. apply (IH b) with (end_of (sp_range t)); [by destruct a; [|destruct Hca]|by destruct b; [|destruct Hcb]|done|done|].
  intros x. specialize (Hx x). cbn in Hx. destruct (within (sp_range t) x) eqn:E; [|done].
  rewrite (version_below _ _ _ Hsa'), (version_below _ _ _ Hsb'); [done|unfold within in E; lia..].
Qed.

(** Making a version current over a range.  The coverage stays sorted, disjoint and
    coalesced; a byte of the range gets the version exactly when it had none or an older
    one, every other byte keeps its version; the bytes reported as taken and as refused
    are exactly these two parts of the range; and a coverage is determined by its
    versions, whatever the order of the writes. *)
Theorem apply_newer_wins spans range v other :
  cov_ok spans → arg_ok range → cov_ok other →
  let '(spans', a) := apply spans range v in
  cov_ok spans' ∧ canonical 0 (taken a) ∧ canonical 0 (refused a) ∧
  (∀ x, version_at spans' x = if within range x && beats v (version_at spans x) then Some v else version_at spans x) ∧
  (∀ x, holds (taken a) x = within range x && beats v (version_at spans x)) ∧
  (∀ x, holds (refused a) x = within range x && negb (beats v (version_at spans x))) ∧
  ((∀ x, version_at spans' x = version_at other x) → spans' = other).
Proof.
  intros Hc Hr Ho. pose proof (apply_ok spans range v Hc Hr) as Ha. destruct (apply spans range v) as [spans' a].
  destruct Ha as (? & ? & ? & Ht & ? & Hv). split_and!; [done..| |done|done|by apply cov_unique].
  intros x. by rewrite Hv, Ht.
Qed.

Definition demo_cov : VersionCoverage := [mkSpan (mkByteRange 0 8) 1; mkSpan (mkByteRange 16 8) 5].
Lemma demo_cov_ok : cov_ok demo_cov.
Proof. split; cbn; unfold range_ok, differ, end_of, UINT64_MAX; cbn; lia. Qed.

Lemma apply_newer_wins_witness :
  apply demo_cov (mkByteRange 4 16) 3 =
    ([mkSpan (mkByteRange 0 4) 1; mkSpan (mkByteRange 4 12) 3; mkSpan (mkByteRange 16 8) 5],
     mkApplied [mkByteRange 4 12] [mkByteRange 16 4]) ∧
  version_at [mkSpan (mkByteRange 0 4) 1; mkSpan (mkByteRange 4 12) 3; mkSpan (mkByteRange 16 8) 5] 17 = Some 5.
Proof.
  pose proof (apply_newer_wins demo_cov (mkByteRange 4 16) 3 demo_cov demo_cov_ok) as Ha.
  assert (apply demo_cov (mkByteRange 4 16) 3 =
    ([mkSpan (mkByteRange 0 4) 1; mkSpan (mkByteRange 4 12) 3; mkSpan (mkByteRange 16 8) 5],
     mkApplied [mkByteRange 4 12] [mkByteRange 16 4])) as E by (vm_compute; reflexivity).
  rewrite E in Ha. destruct Ha as (_ & _ & _ & Hv & _); [unfold arg_ok, UINT64_MAX; cbn; lia|apply demo_cov_ok|].
  split; [exact E|]. rewrite Hv. reflexivity.
Defined.

(** The newest version over a range is the largest version of its bytes. *)
Lemma newest_over_ok spans range :
  sorted_from 0 spans →
  match newest_over spans range with
  | Some v => (∃ x, within range x = true ∧ version_at spans x = Some v) ∧
              ∀ x u, within range x = true → version_at spans x = Some u → u ≤ v
  | None => ∀ x, within range x = true → version_at spans x = None
  end.
Proof.
  intros Hs. destruct (sorted_apart _ _ Hs) as [Ha Hok]. unfold newest_over.
  assert (∀ c s, (c, s) ∈ overlapping spans range ↔ s ∈ spans ∧
    offset (sp_range s) `max` offset range < end_of (sp_range s) `min` end_of range ∧
    c = piece (offset (sp_range s) `max` offset range) (end_of (sp_range s) `min` end_of range)) as Hin.
  { intros c s. unfold overlapping. rewrite list_elem_of_omap. split.
    - intros (s' & ? & E). destruct (_ <? _) eqn:E1; [|done]. injection E as <- <-. split_and!; [done|lia|done].
    - intros (? & ? & ->). exists s. split; [done|]. destruct (_ <? _) eqn:E; [done|lia]. }
  assert (∀ x u, within range x = true → version_at spans x = Some u → ∃ p, p ∈ overlapping spans range ∧ sp_version p.2 = u) as Hhit.
  { intros x u Hx (s & Hs' & Hw & <-)%version_at_in; [|done]. eexists (_, s). split; [|done]. apply Hin.
    split_and!; [done|unfold within in *; lia|done]. }
  assert (∀ p, p ∈ overlapping spans range → ∃ x, within range x = true ∧ version_at spans x = Some (sp_version p.2)) as Hback.
  { intros [c s] (Hs' & Hlt & _)%Hin. exists (offset (sp_range s) `max` offset range). split; [unfold within; lia|].
    apply version_at_in; [done|]. exists s. split_and!; [done|unfold within; lia|done]. }
  clear Hin. revert Hhit Hback. generalize (overlapping spans range). intros l.
  assert (∀ m, match foldl (λ m p, Some (match m with Some v => v `max` sp_version p.2 | None => sp_version p.2 end)) m l with
    | Some v => (m = Some v ∨ ∃ p, p ∈ l ∧ sp_version p.2 = v) ∧ (∀ p : ByteRange * Span, p ∈ l → sp_version p.2 ≤ v) ∧ ∀ u, m = Some u → u ≤ v
    | None => m = None ∧ l = [] end) as Hmax.
  { induction l as [|p l IH]; intros m; cbn [foldl].
    - destruct m; [|done]. split_and!; [by left|intros p Hp; by apply elem_of_nil in Hp|by intros u [= ->]].
    - specialize (IH (Some (match m with Some v => v `max` sp_version p.2 | None => sp_version p.2 end))).
      destruct (foldl _ _ _) as [v|]; [|by destruct IH]. destruct IH as (IH1 & IH2 & IH3). specialize (IH3 _ eq_refl). split_and!.
      + destruct IH1 as [[= <-]|(q & Hq & <-)]; [|right; exists q; split; [by right|done]].
        destruct m as [u|]; [|right; exists p; split; [left|done]].
        destruct (Z.max_spec u (sp_version p.2)) as [[_ ->]|[_ ->]]; [right; exists p; split; [left|done]|by left].
      + intros q [->|Hq]%elem_of_cons; [destruct m; lia|by apply IH2].
      + intros u ->. lia. }
  intros Hhit Hback. specialize (Hmax None). destruct (foldl _ _ _) as [v|].
  - destruct Hmax as ([?|(p & Hp & <-)] & H2 & _); [done|]. split; [by apply Hback|].
    intros x u Hx Hu. destruct (Hhit x u Hx Hu) as (q & Hq & <-). by apply H2.
  - destruct Hmax as [_ ->]. intros x Hx. destruct (version_at spans x) as [u|] eqn:E; [|done].
    destruct (Hhit x u Hx E) as (q & Hq & _). by apply elem_of_nil in Hq.
Qed.
