(* ===== verification/Content.v ===== *)
(** Where a backing's current bytes are: src/reims-vgpu/crates/reims-vgpu-core/src/
    content.rs.

    The ledger keeps, for each backing, the version current in each byte and, for each
    replica, the bytes it is fresh for.  The second half of the file puts the ledger in
    a world of its own: what each replica's storage really contains, writes that reach
    storage, copies in flight.  A byte's content is named by the version of the write
    that produced it. *)
From Stdlib Require Import ZifyBool.
From S2P Require Import Prelude RangeSet Coverage.

Inductive Replica := GuestPages | DeviceOwned.
#[export] Instance Replica_eq_dec : EqDecision Replica.
Proof. solve_decision. Defined.
#[export] Instance Replica_countable : Countable Replica.
Proof.
  refine (inj_countable' (λ r, match r with GuestPages => false | DeviceOwned => true end)
    (λ b, if b then DeviceOwned else GuestPages) _). by intros [].
Defined.
Definition other (r : Replica) : Replica := match r with GuestPages => DeviceOwned | DeviceOwned => GuestPages end.
Definition BOTH : list Replica := [GuestPages; DeviceOwned].

Record Transfer := mkTransfer { t_backing : Z; t_from : Replica; t_to : Replica; t_bytes : RangeSet; t_at : list Span }.
Record Entry := mkEntry { e_canonical : VersionCoverage; e_extent : option ByteRange; e_fresh : gmap Replica RangeSet }.
Record Census := mkCensus {
  writes : Z; transfers_planned : Z; transfer_bytes : Z; reads_already_fresh : Z; reads_with_no_source : Z;
  transfers_overtaken : Z }.
Record ContentLedger := mkLedger { backings : gmap Z Entry; next_version : Z; census : Census }.

#[export] Instance eta_entry : Settable Entry := λ e, mkEntry (e_canonical e) (e_extent e) (e_fresh e).
#[export] Instance eta_census : Settable Census := λ c,
  mkCensus (writes c) (transfers_planned c) (transfer_bytes c) (reads_already_fresh c) (reads_with_no_source c) (transfers_overtaken c).
#[export] Instance eta_ledger : Settable ContentLedger := λ l, mkLedger (backings l) (next_version l) (census l).

Definition empty_entry : Entry := mkEntry [] None ∅.
Definition empty_ledger : ContentLedger := mkLedger ∅ 0 (mkCensus 0 0 0 0 0 0).
(** ContentVersion::next. *)
Definition next_of (v : Z) : Z := u64 (v + 1).
(** [entry(..).or_default()]. *)
Definition entry (l : ContentLedger) (b : Z) : Entry := default empty_entry (backings l !! b).
Definition set_of (fresh : gmap Replica RangeSet) (r : Replica) : RangeSet :=
  match fresh !! r with Some set => set | None => [] end.
Definition fresh_of (e : Entry) (r : Replica) : RangeSet := set_of (e_fresh e) r.

Definition newest_version (l : ContentLedger) (b : Z) : option Z :=
  e ← backings l !! b; newest_over (e_canonical e) (mkByteRange 0 UINT64_MAX).
Definition version_of (l : ContentLedger) (b : Z) (range : ByteRange) : option Z :=
  e ← backings l !! b; newest_over (e_canonical e) range.
Definition extent (l : ContentLedger) (b : Z) : option ByteRange := e ← backings l !! b; e_extent e.

Definition reserve (l : ContentLedger) (b : Z) : Z * ContentLedger :=
  (next_version l, l <| backings := <[b := entry l b]> (backings l) |> <| next_version := next_of (next_version l) |>).

(** One range a write took: the writing replica gets it, the other loses it. *)
Definition take_range (replica : Replica) (fresh : gmap Replica RangeSet) (range : ByteRange) : gmap Replica RangeSet :=
  foldl (λ fresh r,
    let set := set_of fresh r in
    <[r := if decide (r = replica) then insert set range else remove set range]> fresh) fresh BOTH.
Definition materialize (l : ContentLedger) (b : Z) (bytes : ByteRange) (version : Z) (replica : Replica) :
    Applied * ContentLedger :=
  let l := if next_version l <=? version then l <| next_version := next_of version |> else l in
  let e := entry l b in
  let '(canonical, applied) := apply (e_canonical e) bytes version in
  let fresh := foldl (take_range replica) (e_fresh e) (taken applied) in
  (applied, l <| backings := <[b := mkEntry canonical (e_extent e) fresh]> (backings l) |>).

Definition write (l : ContentLedger) (b : Z) (bytes : ByteRange) (replica : Replica) : ContentLedger :=
  let l := l <| census := ((census l) <| writes := u64 (writes (census l) + 1) |>) |> in
  let '(version, l) := reserve l b in
  (materialize l b bytes version replica).2.

Definition declare (l : ContentLedger) (b : Z) (ext : ByteRange) (authority : Replica) : ContentLedger :=
  match backings l !! b with
  | Some known =>
      let e' := match e_extent known with
                | Some old =>
                    let stop := end_of old `max` end_of ext in
                    let offset := offset old `min` offset ext in
                    mkByteRange offset (stop - offset)
                | None => ext
                end in
      write (l <| backings := <[b := (known <| e_extent := Some e' |>)]> (backings l) |>) b ext authority
  | None =>
      let '(version, l) := reserve l b in
      l <| backings := <[b := mkEntry (apply [] ext version).1 (Some ext) {[authority := from_range ext]}]> (backings l) |>
  end.

Definition transfer_for_read (l : ContentLedger) (b : Z) (bytes : ByteRange) (replica : Replica) :
    option Transfer * ContentLedger :=
  let c := census l in
  match backings l !! b with
  | None => (None, l <| census := (c <| reads_with_no_source := u64 (reads_with_no_source c + 1) |>) |>)
  | Some e =>
      let fresh := fresh_of e replica in
      if covers fresh bytes then (None, l <| census := (c <| reads_already_fresh := u64 (reads_already_fresh c + 1) |>) |>)
      else
        let owed := missing_from fresh bytes in
        let source := other replica in
        match intersection owed (fresh_of e source) with
        | [] => (None, l <| census := (c <| reads_with_no_source := u64 (reads_with_no_source c + 1) |>) |>)
        | movable =>
            let at_ := flat_map (over (e_canonical e)) movable in
            (Some (mkTransfer b source replica movable at_),
             l <| census := (c <| transfers_planned := u64 (transfers_planned c + 1) |>
                               <| transfer_bytes := u64 (transfer_bytes c + len movable) |>) |>)
        end
  end.

(** The ranges of a transfer that are still at the version it carried. *)
Definition landed_of (canonical : VersionCoverage) (at_ : list Span) : RangeSet :=
  foldl (λ landed planned,
    foldl (λ landed now, if sp_version now =? sp_version planned then insert landed (sp_range now) else landed)
      landed (over canonical (sp_range planned))) new at_.
Definition record_transfer (l : ContentLedger) (t : Transfer) : ContentLedger :=
  match backings l !! t_backing t with
  | None => l
  | Some e =>
      let landed := landed_of (e_canonical e) (t_at t) in
      let clobbered := subtract (t_bytes t) landed in
      let set := subtract (union_with (fresh_of e (t_to t)) landed) clobbered in
      let l := l <| backings := <[t_backing t := (e <| e_fresh := <[t_to t := set]> (e_fresh e) |>)]> (backings l) |> in
      match clobbered with
      | [] => l
      | _ => l <| census := ((census l) <| transfers_overtaken := u64 (transfers_overtaken (census l) + 1) |>) |>
      end
  end.

Definition discard (l : ContentLedger) (b : Z) (bytes : ByteRange) (replica : Replica) : ContentLedger :=
  match backings l !! b with
  | Some e =>
      match e_fresh e !! replica with
      | Some set =>
          l <| backings := <[b := (e <| e_fresh := <[replica := remove set bytes]> (e_fresh e) |>)]> (backings l) |>
      | None => l
      end
  | None => l
  end.

Definition sole_authority (l : ContentLedger) (b : Z) (range : ByteRange) (replica : Replica) : RangeSet :=
  match backings l !! b with
  | None => new
  | Some e =>
      match e_fresh e !! replica with
      | None => new
      | Some here =>
          let out := intersection here (from_range range) in
          match e_fresh e !! other replica with Some elsewhere => subtract out elsewhere | None => out end
      end
  end.

Definition knows (l : ContentLedger) (b : Z) : bool := match backings l !! b with Some _ => true | None => false end.
Definition forget (l : ContentLedger) (b : Z) : ContentLedger := l <| backings := delete b (backings l) |>.
Definition is_fresh (l : ContentLedger) (b : Z) (bytes : ByteRange) (replica : Replica) : bool :=
  match backings l !! b with
  | Some e => match e_fresh e !! replica with Some set => covers set bytes | None => false end
  | None => false
  end.

(** ** Freshness after a write *)
Lemma take_ranges replica ranges fresh :
  (∀ r, canonical 0 (set_of fresh r)) → Forall range_ok ranges →
  ∀ r, canonical 0 (set_of (foldl (take_range replica) fresh ranges) r) ∧
    ∀ x, holds (set_of (foldl (take_range replica) fresh ranges) r) x =
      if decide (r = replica) then holds (set_of fresh r) x || holds ranges x
      else holds (set_of fresh r) x && negb (holds ranges x).
Proof.
  revert fresh. induction ranges as [|q ranges IH]; intros fresh Hf Hr r; cbn [foldl].
  { split; [apply Hf|]. intros x. cbn. case_decide; lia. }
  apply Forall_cons in Hr as [Hq Hr].
  assert (∀ r, canonical 0 (set_of (take_range replica fresh q) r) ∧
    ∀ x, holds (set_of (take_range replica fresh q) r) x =
      if decide (r = replica) then holds (set_of fresh r) x || within q x
      else holds (set_of fresh r) x && negb (within q x)) as Hstep.
  { intros r'. assert (set_of (take_range replica fresh q) r' =
      if decide (r' = replica) then insert (set_of fresh r') q else remove (set_of fresh r') q) as ->.
    { unfold take_range, BOTH, set_of. cbn [foldl]. destruct r'; by simplify_map_eq. }
    pose proof (range_arg _ Hq) as Ha. case_decide.
    - destruct (insert_ok _ q (Hf r') Ha) as [H1 H2]. split; [done|]. intros x. rewrite H2. lia.
    - by apply remove_ok. }
  destruct (IH (take_range replica fresh q)) with r as [H1 H2]; [intros r'; apply Hstep|done|]. split; [done|].
  intros x. rewrite H2. destruct (Hstep r) as [_ H3]. rewrite H3, holds_cons. case_decide; lia.
Qed.

(** ** What a completed copy still delivers *)
Lemma over_in spans range t :
  t ∈ over spans range ↔ ∃ s, s ∈ spans ∧
    offset (sp_range s) `max` offset range < end_of (sp_range s) `min` end_of range ∧
    t = mkSpan (piece (offset (sp_range s) `max` offset range) (end_of (sp_range s) `min` end_of range)) (sp_version s).
Proof.
  unfold over, overlapping. rewrite list_elem_of_fmap. setoid_rewrite list_elem_of_omap. split.
  - intros ((c & s) & -> & s' & Hin & E). destruct (_ <? _) eqn:E1; [|done]. injection E as <- <-. exists s'. split_and!; [done|lia|done].
  - intros (s & Hin & Hlt & ->). eexists (_, s). split; [done|]. exists s. split; [done|].
    destruct (_ <? _) eqn:E; [done|lia].
Qed.

Lemma over_ok spans range t :
  sorted_from 0 spans → 0 ≤ offset range → t ∈ over spans range →
  range_ok (sp_range t) ∧ ∃ s, s ∈ spans ∧ sp_version t = sp_version s ∧
    ∀ x, within (sp_range t) x = within (sp_range s) x && within range x.
Proof.
  intros Hs Hr (s & Hin & Hlt & ->)%over_in. destruct (sorted_apart _ _ Hs) as [_ Hok]. rewrite Forall_forall in Hok.
  destruct (Hok s Hin) as [Hsr _]. pose proof (end_of_ok _ Hsr). destruct Hsr as (? & ? & ?).
  destruct (piece_ok (offset (sp_range s) `max` offset range) (end_of (sp_range s) `min` end_of range)) as [Hp Ep]; [lia..|].
  split; [done|]. exists s. split_and!; [done..|]. intros x. cbn [sp_range]. rewrite piece_within by lia. unfold within. lia.
Qed.

Lemma over_at spans range x v :
  sorted_from 0 spans → 0 ≤ offset range →
  (∃ t, t ∈ over spans range ∧ within (sp_range t) x = true ∧ sp_version t = v) ↔
  within range x = true ∧ version_at spans x = Some v.
Proof.
  intros Hs Hr. destruct (sorted_apart _ _ Hs) as [Ha _]. rewrite (version_at_in _ _ _ Ha). split.
  - intros (t & Ht & Hw & <-). destruct (over_ok _ _ _ Hs Hr Ht) as (_ & s & Hin & Hv & Hx). rewrite Hx in Hw.
    split; [lia|]. exists s. split_and!; [done|lia|done].
  - intros (Hw & s & Hin & Hws & <-). assert (offset (sp_range s) `max` offset range < end_of (sp_range s) `min` end_of range) as Hlt
      by (unfold within in *; lia).
    eexists. split_and!; [apply over_in; by exists s| |done].
    cbn [sp_range]. rewrite piece_within; [unfold within in *; lia|].
    assert (end_of range ≤ UINT64_MAX) by (unfold end_of; lia). lia.
Qed.

Lemma insert_spans (p : Span → bool) l s :
  canonical 0 s → Forall (λ t, range_ok (sp_range t)) l →
  let s' := foldl (λ s t, if p t then insert s (sp_range t) else s) s l in
  canonical 0 s' ∧ ∀ x, holds s' x = true ↔ holds s x = true ∨ ∃ t, t ∈ l ∧ p t = true ∧ within (sp_range t) x = true.
Proof.
  revert s. induction l as [|t l IH]; intros s Hs Hl; cbn [foldl].
  { split; [done|]. intros x. split; [by left|]. intros [?|(t & Hin & _)]; [done|]. by apply elem_of_nil in Hin. }
  apply Forall_cons in Hl as [Ht Hl]. destruct (insert_ok s (sp_range t) Hs (range_arg _ Ht)) as [H1 H2].
  destruct (IH (if p t then insert s (sp_range t) else s)) as [H3 H4]; [by destruct (p t)|done|]. split; [done|].
  intros x. rewrite H4. setoid_rewrite elem_of_cons. destruct (p t) eqn:Ep; [rewrite H2, orb_true_iff|]; split.
  - intros [[Hw|Ho]|(u & Hu & Hp & Hw)]; [right; exists t; auto|by left|right; exists u; auto].
  - intros [Ho|(u & [->|Hu] & Hp & Hw)]; [by left; right|by left; left|right; exists u; auto].
  - intros [Ho|(u & Hu & Hp & Hw)]; [by left|right; exists u; auto].
  - intros [Ho|(u & [->|Hu] & Hp & Hw)]; [by left|congruence|right; exists u; auto].
Qed.

Lemma landed_ok canonical_ at_ :
  sorted_from 0 canonical_ → Forall (λ t, range_ok (sp_range t)) at_ →
  canonical 0 (landed_of canonical_ at_) ∧
  ∀ x, holds (landed_of canonical_ at_) x = true ↔
    ∃ p, p ∈ at_ ∧ within (sp_range p) x = true ∧ version_at canonical_ x = Some (sp_version p).
Proof.
  intros Hc. unfold landed_of.
  assert (∀ s, canonical 0 s → Forall (λ t, range_ok (sp_range t)) at_ →
    let s' := foldl (λ landed planned, foldl (λ landed now, if sp_version now =? sp_version planned then insert landed (sp_range now) else landed)
      landed (over canonical_ (sp_range planned))) s at_ in
    canonical 0 s' ∧ ∀ x, holds s' x = true ↔ holds s x = true ∨
      ∃ p, p ∈ at_ ∧ within (sp_range p) x = true ∧ version_at canonical_ x = Some (sp_version p)) as Hgo.
  { induction at_ as [|p at_ IH]; intros s Hs Hat; cbn [foldl].
    { split; [done|]. intros x. split; [by left|]. intros [?|(p & Hin & _)]; [done|]. by apply elem_of_nil in Hin. }
    apply Forall_cons in Hat as [Hp Hat]. pose proof Hp as (? & _ & _).
    destruct (insert_spans (λ now, sp_version now =? sp_version p) (over canonical_ (sp_range p)) s Hs) as [H1 H2].
    { apply Forall_forall. intros t Ht. by destruct (over_ok _ _ _ Hc H Ht). }
    destruct (IH _ H1 Hat) as [H3 H4]. split; [done|]. intros x. rewrite H4, H2. setoid_rewrite elem_of_cons.
    pose proof (over_at canonical_ (sp_range p) x (sp_version p) Hc H) as Ho. split.
    - intros [[?|(t & Ht & Hv & Hw)]|(q & ? & ? & ?)]; [by left| |by right; eauto]. right. exists p.
      split; [by left|]. apply Ho. exists t. split_and!; [done..|lia].
    - intros [?|(q & [->|Hin] & Hw & Hv)]; [by left; left| |by right; eauto]. left. right.
      destruct (proj2 Ho (conj Hw Hv)) as (t & ? & ? & ?). exists t. split_and!; [done|lia|done]. }
  intros Hat. destruct (Hgo new I Hat) as [H1 H2]. split; [done|]. intros x. rewrite H2. split; [by intros [?|?]|by right].
Qed.

(** ** Entries

    [st] is the content each replica's storage holds, as the version of the write it came from.
    What a replica is called fresh for is current, and is what its storage holds wherever [idle]
    says nothing is under way; what is under way is a matter of the world below. *)
Record entry_ok (n : Z) (idle : Replica → Z → Prop) (st : Replica → Z → option Z) (e : Entry) : Prop := {
  eo_cov : cov_ok (e_canonical e);
  eo_fresh r : canonical 0 (fresh_of e r);
  eo_current r x : holds (fresh_of e r) x = true → is_Some (version_at (e_canonical e) x);
  eo_backed r x v : holds (fresh_of e r) x = true → idle r x → version_at (e_canonical e) x = Some v → st r x = Some v;
  eo_bound x v : version_at (e_canonical e) x = Some v → v < n }.
(** A copy names its bytes as a set and as spans. *)
Record copy_wf (t : Transfer) : Prop := {
  co_bytes : canonical 0 (t_bytes t);
  co_at : Forall (λ p, range_ok (sp_range p)) (t_at t);
  co_in p x : p ∈ t_at t → within (sp_range p) x = true → holds (t_bytes t) x = true }.

Lemma entry_ok_mono n n' (idle idle' : Replica → Z → Prop) st st' e :
  n ≤ n' → (∀ r x, idle' r x → idle r x ∧ st' r x = st r x) → entry_ok n idle st e → entry_ok n' idle' st' e.
Proof.
  intros Hn Hi [H1 H2 H3 H4 H5]. split; [done..| |].
  - intros r x v Hf [Hx ->]%Hi Hv. by eapply H4.
  - intros x v ?%H5. lia.
Qed.
Lemma empty_entry_ok n idle st : entry_ok n idle st empty_entry.
Proof. split; try done; intros r; unfold fresh_of, set_of, empty_entry; cbn [e_fresh]; rewrite lookup_empty; done. Qed.

(** A completed write, on one entry. *)
Lemma materialize_entry n idle st e bytes v replica :
  entry_ok n idle st e → arg_ok bytes → v < n → (∀ x u, within bytes x = true → st replica x = Some u → u ≤ v) →
  let '(canonical_, a) := apply (e_canonical e) bytes v in
  entry_ok n idle (λ r x, if decide (r = replica) then if within bytes x then Some v else st r x else st r x)
    (mkEntry canonical_ (e_extent e) (foldl (take_range replica) (e_fresh e) (taken a))).
Proof.
  intros [Hc Hf Hcur Hb Hn] Hr Hv Hord. pose proof (apply_ok (e_canonical e) bytes v Hc Hr) as Ha.
  destruct (apply (e_canonical e) bytes v) as [c' a]. destruct Ha as (Hc' & Ht & _ & Htx & _ & Hvx).
  assert (Forall range_ok (taken a)) as Hok.
  { apply Forall_forall. intros q Hq. by apply (canonical_In 0 (taken a)). }
  pose proof (take_ranges replica (taken a) (e_fresh e) Hf Hok) as Hfresh.
  split; cbn [e_canonical e_fresh].
  - done.
  - intros r. apply Hfresh.
  - intros r x. unfold fresh_of. cbn [e_fresh]. destruct (Hfresh r) as [_ ->]. rewrite Hvx. destruct (holds (taken a) x); [by eauto|].
    change (set_of (e_fresh e) r) with (fresh_of e r). intros Hx. apply (Hcur r). case_decide; lia.
  - intros r x u. unfold fresh_of. cbn [e_fresh]. destruct (Hfresh r) as [_ ->]. rewrite Hvx.
    change (set_of (e_fresh e) r) with (fresh_of e r). case_decide as Hrr; [subst r|].
    + destruct (holds (taken a) x) eqn:Et.
      * intros _ _ [= <-]. rewrite Htx in Et. by destruct (within bytes x).
      * rewrite orb_false_r. intros Hfr Hi Hu1. pose proof (Hb _ _ _ Hfr Hi Hu1) as Hu2.
        destruct (within bytes x) eqn:Ew; [|done]. specialize (Hord x u Ew Hu2). rewrite Htx, Ew, Hu1 in Et. cbn in Et.
        f_equal. lia.
    + intros Hfr Hi. destruct (holds (taken a) x); [lia|]. apply Hb; [lia|done].
  - intros x u. rewrite Hvx. destruct (holds (taken a) x); [intros [= <-]; done|apply Hn].
Qed.
(** The entry of a backing that becomes known by a declaration. *)
Lemma declare_entry n idle st ext r : arg_ok ext → 0 ≤ n →
  entry_ok (n + 1) idle (λ r' x, if decide (r' = r) then if within ext x then Some n else st r' x else st r' x)
    (mkEntry (apply [] ext n).1 (Some ext) {[r := from_range ext]}) ∧
  ∀ x, version_at (apply [] ext n).1 x = if within ext x then Some n else None.
Proof.
  intros Hr H0. destruct (from_range_ok ext Hr) as [Hfr Hfx]. assert (cov_ok []) as Hc by done.
  pose proof (apply_ok [] ext n Hc Hr) as Ha. destruct (apply [] ext n) as [c' a]. destruct Ha as (? & _ & _ & Ht & _ & Hv). cbn [fst].
  assert (∀ x, version_at c' x = if within ext x then Some n else None) as Hvx.
  { intros x. rewrite Hv, Ht. cbn. by destruct (within ext x). }
  assert (∀ r' x, holds (fresh_of (mkEntry c' (Some ext) {[r := from_range ext]}) r') x = bool_decide (r' = r) && within ext x) as Hfr'.
  { intros r' x. unfold fresh_of, set_of. cbn [e_fresh]. case_bool_decide as E; [subst; by rewrite lookup_singleton_eq, Hfx|by rewrite lookup_singleton_ne]. }
  split; [|done]. split; cbn [e_canonical e_fresh].
  - done.
  - intros r'. unfold fresh_of, set_of. cbn [e_fresh]. destruct (decide (r' = r)) as [->|]; by simplify_map_eq.
  - intros r' x. rewrite Hfr', Hvx. intros [_ ->]%andb_true_iff. by eauto.
  - intros r' x v. rewrite Hfr', Hvx. intros [->%bool_decide_eq_true ->]%andb_true_iff _. by rewrite decide_True.
  - intros x v. rewrite Hvx. destruct (within ext x); [intros [= <-]; lia|done].
Qed.

(** What a plan says it copies: bytes its source is fresh for, at their versions. *)
Lemma movable_at e n idle st r owed p :
  entry_ok n idle st e → canonical 0 owed → p ∈ flat_map (over (e_canonical e)) (intersection owed (fresh_of e r)) →
  range_ok (sp_range p) ∧ ∀ x, within (sp_range p) x = true →
    holds (intersection owed (fresh_of e r)) x = true ∧ version_at (e_canonical e) x = Some (sp_version p) ∧
    (idle r x → st r x = Some (sp_version p)).
Proof.
  intros [Hc Hf _ Hb _] Ho Hp. destruct (intersection_ok owed (fresh_of e r) Ho (Hf r)) as [Hi Hix].
  apply list_elem_of_In, in_flat_map in Hp as (q & Hq & Hp). apply list_elem_of_In in Hq, Hp.
  destruct (canonical_In 0 _ _ Hi Hq) as [Hqok ?]. destruct Hc as [Hs _]. pose proof Hqok as (? & _ & _).
  destruct (over_ok _ _ _ Hs H0 Hp) as (Hpr & _). split; [done|]. intros x Hx.
  destruct (proj1 (over_at _ _ x (sp_version p) Hs H0)) as [Hw Hv]; [by exists p|].
  assert (holds (intersection owed (fresh_of e r)) x = true) as Hh by (apply holds_In; by exists q). split_and!; [done..|].
  intros Hid. rewrite Hix in Hh. apply (Hb r x); [lia|done..].
Qed.

(** The bytes a read of [bytes] from [r] has to wait for. *)
Definition owed_bytes (e : Entry) (bytes : ByteRange) (r : Replica) (x : Z) : bool :=
  within bytes x && negb (holds (fresh_of e r) x) && holds (fresh_of e (other r)) x.

Lemma transfer_spec n idle st l b e bytes r :
  backings l !! b = Some e → entry_ok n idle st e → arg_ok bytes →
  let '(t, l') := transfer_for_read l b bytes r in
  backings l' = backings l ∧
  match t with
  | None => ∀ x, owed_bytes e bytes r x = false
  | Some t => t_backing t = b ∧ t_from t = other r ∧ t_to t = r ∧ t_bytes t ≠ [] ∧ copy_wf t ∧
      (∀ p x, p ∈ t_at t → within (sp_range p) x = true →
        version_at (e_canonical e) x = Some (sp_version p) ∧ (idle (other r) x → st (other r) x = Some (sp_version p))) ∧
      (∀ x, holds (t_bytes t) x = owed_bytes e bytes r x) ∧
      ∀ x, holds (landed_of (e_canonical e) (t_at t)) x = holds (t_bytes t) x
  end.
Proof.
  intros E He Hr. pose proof He as [Hc Hf Hcur Hb Hn]. unfold transfer_for_read, owed_bytes. rewrite E.
  destruct (covers (fresh_of e r) bytes) eqn:Ecov.
  { split; [done|]. intros x. pose proof (proj1 (covers_ok _ _ (Hf r) Hr) Ecov x). lia. }
  destruct (missing_from_ok (fresh_of e r) bytes (Hf r) Hr) as [Hm Hmx].
  destruct (intersection_ok _ _ Hm (Hf (other r))) as [Hi Hix].
  pose proof (λ p, movable_at e _ _ _ (other r) _ p He Hm) as Hmov.
  assert (∀ x, holds (intersection (missing_from (fresh_of e r) bytes) (fresh_of e (other r))) x =
    within bytes x && negb (holds (fresh_of e r) x) && holds (fresh_of e (other r)) x) as Hx by (intros x; by rewrite Hix, Hmx).
  destruct (intersection _ _) as [|q qs] eqn:Ei; [split; [done|]; intros x; by rewrite <- Hx|]. rewrite <- Ei in *.
  split; [done|]. cbn [t_backing t_from t_to t_bytes t_at].
  assert (Forall (λ p, range_ok (sp_range p)) (flat_map (over (e_canonical e)) (intersection (missing_from (fresh_of e r) bytes) (fresh_of e (other r)))))
    as Hat by (apply Forall_forall; intros p Hp; by destruct (Hmov p Hp)).
  split_and!; [done..|by rewrite Ei| | |done|].
  - split; cbn [t_bytes t_at]; [done|done|intros p x Hp; apply (Hmov p Hp)].
  - intros p x Hp Hw. by apply (Hmov p Hp).
  - intros x. destruct (landed_ok _ _ (proj1 Hc) Hat) as [_ Hl]. apply eq_true_iff_eq. rewrite Hl. split.
    + intros (p & Hp & Hw & _). by apply (Hmov p Hp).
    + intros Hh. pose proof Hh as (q' & Hq' & Hw)%holds_In. rewrite Hx in Hh.
      destruct (Hcur (other r) x ltac:(lia)) as [v Hv]. destruct (canonical_In 0 _ _ Hi Hq') as [[Hq0 _] _].
      destruct (proj2 (over_at (e_canonical e) q' x v (proj1 Hc) Hq0) (conj Hw Hv)) as (p & Hp & Hpw & Hpv).
      exists p. split_and!; [|done|by rewrite Hpv]. apply list_elem_of_In, in_flat_map. exists q'.
      split; by apply list_elem_of_In.
Qed.
Lemma transfer_next l b bytes r : next_version (transfer_for_read l b bytes r).2 = next_version l.
Proof. unfold transfer_for_read. repeat case_match; done. Qed.

(** A completed copy: what is still current arrives, what is not is lost. *)
Lemma record_entry n (idle idle' : Replica → Z → Prop) st e t :
  entry_ok n idle st e → copy_wf t → (∀ r x, idle' r x → idle r x ∨ r = t_to t ∧ holds (t_bytes t) x = true) →
  (∀ p x, p ∈ t_at t → within (sp_range p) x = true → version_at (e_canonical e) x = Some (sp_version p) → idle' (t_to t) x →
    st (t_to t) x = Some (sp_version p)) →
  let landed := landed_of (e_canonical e) (t_at t) in
  let clobbered := subtract (t_bytes t) landed in
  entry_ok n idle' st (e <| e_fresh := <[t_to t := subtract (union_with (fresh_of e (t_to t)) landed) clobbered]> (e_fresh e) |>).
Proof.
  intros [Hc Hf Hcur Hb Hn] [Hbytes Hat _] Hi Hdata landed clobbered.
  destruct (landed_ok _ _ (proj1 Hc) Hat) as [Hl Hlx]. fold landed in Hl, Hlx.
  destruct (subtract_ok _ _ Hbytes Hl) as [Hcl Hclx]. destruct (union_ok _ _ (Hf (t_to t)) Hl) as [Hu Hux].
  destruct (subtract_ok _ _ Hu Hcl) as [Hs Hsx].
  assert (∀ r x, holds (fresh_of (e <| e_fresh := <[t_to t := subtract (union_with (fresh_of e (t_to t)) landed) clobbered]> (e_fresh e) |>) r) x = true →
    (r = t_to t ∧ holds landed x = true) ∨ (holds (fresh_of e r) x = true ∧ (r = t_to t → holds (t_bytes t) x = false))) as Hfx.
  { intros r x. unfold fresh_of at 1, set_of at 1. cbn. destruct (decide (r = t_to t)) as [->|]; [|rewrite lookup_insert_ne by done; by right].
    rewrite lookup_insert_eq, Hsx, Hux. unfold clobbered. rewrite Hclx. intros Hx.
    destruct (holds landed x); [by left|right]. destruct (holds (t_bytes t) x); split; done || lia. }
  split; cbn [e_canonical e_fresh set_field].
  - done.
  - intros r. unfold fresh_of, set_of. cbn. destruct (decide (r = t_to t)) as [->|].
    + by rewrite lookup_insert_eq.
    + rewrite lookup_insert_ne by done. apply Hf.
  - intros r x [[-> (p & _ & _ & Hv)%Hlx]|[Hx _]]%Hfx; [by eauto|by apply (Hcur r)].
  - intros r x v [[-> (p & Hp & Hw & Hv)%Hlx]|[Hx Hout]]%Hfx Hid Hver.
    + rewrite Hv in Hver. injection Hver as <-. by eapply Hdata.
    + apply (Hb r x); [done| |done]. destruct (Hi r x Hid) as [?|[-> ?]]; [done|]. specialize (Hout eq_refl). congruence.
  - done.
Qed.
Lemma discard_entry n idle st e bytes r set : entry_ok n idle st e → arg_ok bytes → e_fresh e !! r = Some set →
  entry_ok n idle st (e <| e_fresh := <[r := remove set bytes]> (e_fresh e) |>).
Proof.
  intros [Hc Hf Hcur Hb Hn] Hr Es. assert (fresh_of e r = set) as Ef by (unfold fresh_of, set_of; by rewrite Es).
  destruct (remove_ok set bytes) as [Hs Hsx]; [rewrite <- Ef; apply Hf|done|].
  assert (∀ r' x, holds (fresh_of (e <| e_fresh := <[r := remove set bytes]> (e_fresh e) |>) r') x = true → holds (fresh_of e r') x = true) as Hfx.
  { intros r' x. unfold fresh_of at 1, set_of. cbn. destruct (decide (r' = r)) as [->|].
    - rewrite lookup_insert_eq, Hsx, Ef. lia.
    - by rewrite lookup_insert_ne. }
  split; cbn [e_canonical e_fresh set_field]; [done| |intros r' x Hx; by eapply Hcur, Hfx|intros r' x v Hx; by apply Hb, Hfx|done].
  intros r'. unfold fresh_of, set_of. cbn. destruct (decide (r' = r)) as [->|].
  - by rewrite lookup_insert_eq.
  - rewrite lookup_insert_ne by done. apply Hf.
Qed.

(** ** The ledger by itself

    Its sets and coverage are well formed and only current bytes are called fresh, whatever calls
    are made and whatever the storage holds. *)
Definition entry_wf (e : Entry) : Prop := entry_ok (2 ^ 64) (λ _ _, False) (λ _ _, None) e.
Record ledger_wf (l : ContentLedger) : Prop := {
  lw_next : 0 ≤ next_version l < 2 ^ 64;
  lw_entry b e : backings l !! b = Some e → entry_wf e }.

Lemma entry_ok_wf n idle st e : n ≤ 2 ^ 64 → entry_ok n idle st e → entry_wf e.
Proof. intros Hn. by apply entry_ok_mono. Qed.
Lemma next_of_bound v : 0 ≤ next_of v < 2 ^ 64.
Proof. unfold next_of. apply u64_range. Qed.
Lemma wf_put l b e n c : ledger_wf l → entry_wf e → 0 ≤ n < 2 ^ 64 → ledger_wf (mkLedger (<[b := e]> (backings l)) n c).
Proof. intros [H1 H2] He Hn. split; cbn; [done|]. intros b' e' [[<- <-]|[_ ?]]%lookup_insert_Some; [done|by eapply H2]. Qed.
Lemma wf_entry l b : ledger_wf l → entry_wf (entry l b).
Proof. intros H. unfold entry. destruct (backings l !! b) eqn:E; [by eapply lw_entry|apply empty_entry_ok]. Qed.
Lemma wf_empty : ledger_wf empty_ledger.
Proof. split; cbn; [lia|done]. Qed.
Lemma wf_reserve l b : ledger_wf l → ledger_wf (reserve l b).2.
Proof. intros H. apply (wf_put l); [done|by apply wf_entry|apply next_of_bound]. Qed.
Lemma wf_materialize l b bytes v r : ledger_wf l → arg_ok bytes → 0 ≤ v < 2 ^ 64 → ledger_wf (materialize l b bytes v r).2.
Proof.
  intros H Hr Hv. unfold materialize. set (l' := if _ <=? v then _ else l).
  assert (ledger_wf l') as H' by (unfold l'; destruct (_ <=? v); [|done]; split; cbn; [apply next_of_bound|apply H]).
  pose proof (materialize_entry _ _ _ _ bytes v r (wf_entry l' b H') Hr ltac:(lia)) as Hm.
  destruct (apply (e_canonical (entry l' b)) bytes v) as [c' a]. cbn [snd]. apply (wf_put l'); [done| |apply H'].
  eapply entry_ok_wf; [reflexivity|]. by apply Hm.
Qed.
Lemma wf_write l b bytes r : ledger_wf l → arg_ok bytes → ledger_wf (write l b bytes r).
Proof.
  intros H Hr. unfold write. set (l0 := l <| census := _ |>). assert (ledger_wf l0) as H0 by (by destruct H).
  pose proof (wf_reserve l0 b H0) as H1. unfold reserve in *. cbn [snd] in H1. apply wf_materialize; [exact H1|done|apply H].
Qed.
Lemma wf_declare l b ext r : ledger_wf l → arg_ok ext → ledger_wf (declare l b ext r).
Proof.
  intros H Hr. unfold declare. destruct (backings l !! b) as [known|] eqn:E.
  - apply wf_write; [|done]. apply (wf_put l); [done| |apply H]. destruct (lw_entry l H b known E). by split.
  - pose proof (wf_reserve l b H) as H1. unfold reserve in *. cbn [snd] in H1. apply (wf_put _ b _ _ _ H1); [|apply H1].
    eapply entry_ok_wf, (declare_entry _ (λ _ _, False) (λ _ _, None)); [|done|apply H]. pose proof (lw_next l H). lia.
Qed.
Lemma wf_transfer l b bytes r : ledger_wf l → ledger_wf (transfer_for_read l b bytes r).2.
Proof.
  intros [H1 H2]. assert (backings (transfer_for_read l b bytes r).2 = backings l) as Eb by (unfold transfer_for_read; by repeat case_match).
  split; [by rewrite transfer_next|]. rewrite Eb. done.
Qed.
Lemma wf_record l t : ledger_wf l → copy_wf t → ledger_wf (record_transfer l t).
Proof.
  intros H Ht. unfold record_transfer. destruct (backings l !! t_backing t) as [e|] eqn:E; [|done].
  pose proof (record_entry _ _ (λ _ _, False) _ _ t (lw_entry l H _ _ E) Ht ltac:(done) ltac:(done)) as He.
  assert (∀ c, ledger_wf (mkLedger (<[t_backing t := e <| e_fresh := <[t_to t := subtract (union_with (fresh_of e (t_to t)) (landed_of (e_canonical e) (t_at t)))
    (subtract (t_bytes t) (landed_of (e_canonical e) (t_at t)))]> (e_fresh e) |>]> (backings l)) (next_version l) c)) as Hc by (intros c; apply wf_put; [done..|apply H]).
  destruct (subtract (t_bytes t) _); apply Hc.
Qed.
Lemma wf_discard l b bytes r : ledger_wf l → arg_ok bytes → ledger_wf (discard l b bytes r).
Proof.
  intros H Hr. unfold discard. destruct (backings l !! b) as [e|] eqn:E; [|done]. destruct (e_fresh e !! r) as [set|] eqn:Es; [|done].
  apply (wf_put l); [done| |apply H]. by apply discard_entry; [eapply lw_entry|..].
Qed.
Lemma wf_forget l b : ledger_wf l → ledger_wf (forget l b).
Proof. intros [H1 H2]. split; cbn; [done|]. intros b' e [_ ?]%lookup_delete_Some. by eapply H2. Qed.

(** ** The world around the ledger

    [store] is the content each replica's storage holds.  [written] says which bytes of a backing
    were ever written at a version.  A copy is planned, runs later, reading its source when it
    runs, and is recorded later still; [flying] are the copies not yet recorded, with whether
    they have run. *)
Record world := mkWorld {
  ledger : ContentLedger;
  store : Z → Replica → Z → option Z;
  written : Z → Z → Z → bool;
  flying : list (Transfer * bool) }.
#[export] Instance eta_world : Settable world := λ w, mkWorld (ledger w) (store w) (written w) (flying w).
Definition empty_world : world := mkWorld empty_ledger (λ _ _ _, None) (λ _ _ _, false) [].

Definition put (st : Z → Replica → Z → option Z) (b : Z) (r : Replica) (hit : Z → bool) (f : Z → option Z) :
    Z → Replica → Z → option Z :=
  λ b' r' x, if decide (b' = b ∧ r' = r) then (if hit x then f x else st b' r' x) else st b' r' x.
Definition mark (m : Z → Z → Z → bool) (b v : Z) (bytes : ByteRange) : Z → Z → Z → bool :=
  λ b' v' x, ((b' =? b) && (v' =? v) && within bytes x) || m b' v' x.

Inductive world_op :=
  | Reserve (b : Z) | Complete (b : Z) (bytes : ByteRange) (version : Z) (r : Replica)
  | Write (b : Z) (bytes : ByteRange) (r : Replica) | DeclareAt (b : Z) (ext : ByteRange) (r : Replica)
  | Plan (b : Z) (bytes : ByteRange) (r : Replica) | RunCopy (i : nat) | RecordCopy (i : nat)
  | Discard (b : Z) (bytes : ByteRange) (r : Replica) | Forget (b : Z).

(** A write that reaches storage at version [v]. *)
Definition lands (w : world) (l : ContentLedger) (b : Z) (bytes : ByteRange) (v : Z) (r : Replica) : world :=
  mkWorld l (put (store w) b r (within bytes) (λ _, Some v)) (mark (written w) b v bytes) (flying w).
Definition world_step (w : world) (op : world_op) : world :=
  let l := ledger w in
  match op with
  | Reserve b => w <| ledger := (reserve l b).2 |>
  | Complete b bytes v r => lands w (materialize l b bytes v r).2 b bytes v r
  | Write b bytes r => lands w (write l b bytes r) b bytes (next_version l) r
  | DeclareAt b ext r => lands w (declare l b ext r) b ext (next_version l) r
  | Plan b bytes r =>
      let '(t, l) := transfer_for_read l b bytes r in
      w <| ledger := l |> <| flying := flying w ++ match t with Some t => [(t, false)] | None => [] end |>
  | RunCopy i =>
      match flying w !! i with
      | Some (t, false) =>
          w <| store := put (store w) (t_backing t) (t_to t) (holds (t_bytes t)) (store w (t_backing t) (t_from t)) |>
            <| flying := <[i := (t, true)]> (flying w) |>
      | _ => w
      end
  | RecordCopy i =>
      match flying w !! i with
      | Some (t, true) => w <| ledger := record_transfer l t |> <| flying := delete i (flying w) |>
      | _ => w
      end
  | Discard b bytes r => w <| ledger := discard l b bytes r |>
  | Forget b => w <| ledger := forget l b |>
  end.

(** Where a copy has written and is not yet recorded, and the version current in a byte. *)
Definition lands_on (b : Z) (r : Replica) (x : Z) (f : Transfer * bool) : bool :=
  f.2 && (t_backing f.1 =? b) && bool_decide (t_to f.1 = r) && holds (t_bytes f.1) x.
Definition busy (w : world) (b : Z) (r : Replica) (x : Z) : bool := existsb (lands_on b r x) (flying w).
Definition current (l : ContentLedger) (b x : Z) : option Z := e ← backings l !! b; version_at (e_canonical e) x.

(** What the order of the device's work gives.  A completed write finds no newer content where it
    lands, and writes no byte twice at one version.  A copy runs when no other copy is between
    running and being recorded in the bytes it reads or writes.  Versions are not exhausted, and
    ranges are those of a backing.

    The last case is an assumption that this order does not give: a copy that content has
    overtaken does not land on bytes which a copy planned since is still to read. *)
Definition allowed (w : world) (op : world_op) : Prop :=
  let room := next_version (ledger w) + 1 < 2 ^ 64 in
  match op with
  | Reserve b => room
  | Complete b bytes v r =>
      arg_ok bytes ∧ 0 ≤ v ∧ v + 1 < 2 ^ 64 ∧
      ∀ x, within bytes x = true → written w b v x = false ∧ ∀ u, store w b r x = Some u → u ≤ v
  | Write b bytes r | DeclareAt b bytes r => arg_ok bytes ∧ room
  | Plan b bytes r | Discard b bytes r => arg_ok bytes
  | RunCopy i => ∀ t x, flying w !! i = Some (t, false) → holds (t_bytes t) x = true →
      busy w (t_backing t) (t_from t) x = false ∧ busy w (t_backing t) (t_to t) x = false
  | RecordCopy i => ∀ t e x, flying w !! i = Some (t, true) → backings (ledger w) !! t_backing t = Some e →
      holds (t_bytes t) x = true → holds (landed_of (e_canonical e) (t_at t)) x = false →
      ∀ t', (t', false) ∈ flying w → t_backing t' = t_backing t → t_from t' = t_to t → holds (t_bytes t') x = false
  | Forget b => True
  end.

(** ** Coherence *)
(** What a copy in flight moves, or has moved, if the bytes are still at the version it planned. *)
Definition flight_ok (w : world) (f : Transfer * bool) : Prop :=
  let '(t, ran) := f in
  copy_wf t ∧ t_from t = other (t_to t) ∧ ∀ p x, p ∈ t_at t → within (sp_range p) x = true →
    written w (t_backing t) (sp_version p) x = true ∧
    (current (ledger w) (t_backing t) x = Some (sp_version p) →
      if (ran : bool) then store w (t_backing t) (t_to t) x = Some (sp_version p)
      else busy w (t_backing t) (t_from t) x = false → store w (t_backing t) (t_from t) x = Some (sp_version p)).
Record world_ok (w : world) : Prop := {
  wo_next : 0 ≤ next_version (ledger w) < 2 ^ 64;
  wo_entry b e : backings (ledger w) !! b = Some e → entry_ok (next_version (ledger w)) (λ r x, busy w b r x = false) (store w b) e;
  wo_store b r x v : store w b r x = Some v → v < next_version (ledger w);
  wo_written b v x : written w b v x = true → v < next_version (ledger w);
  wo_current b x v : current (ledger w) b x = Some v → written w b v x = true;
  wo_flight f : f ∈ flying w → flight_ok w f }.

Lemma put_same st b r hit f r' x :
  put st b r hit f b r' x = if decide (r' = r) then if hit x then f x else st b r' x else st b r' x.
Proof. unfold put. destruct (decide (r' = r)) as [->|]; [rewrite decide_True by (by split)|rewrite decide_False by (by intros [_ ?])]; done. Qed.
Lemma put_other st b b' r hit f r' x : b' ≠ b → put st b r hit f b' r' x = st b' r' x.
Proof. intros Hb. unfold put. rewrite decide_False by (by intros [? _]). done. Qed.
Lemma mark_old m b v bytes b' v' x : m b' v' x = true → mark m b v bytes b' v' x = true.
Proof. intros H. unfold mark. by rewrite H, orb_true_r. Qed.
Lemma other_ne r : other r ≠ r.
Proof. by destruct r. Qed.

Lemma entry_of w b n : world_ok w → next_version (ledger w) ≤ n →
  entry_ok n (λ r x, busy w b r x = false) (store w b) (entry (ledger w) b).
Proof.
  intros Hw Hn. unfold entry. destruct (backings (ledger w) !! b) as [e|] eqn:E; [|apply empty_entry_ok].
  eapply entry_ok_mono; [exact Hn| |by apply wo_entry]. done.
Qed.
Lemma current_entry l b x : current l b x = version_at (e_canonical (entry l b)) x.
Proof. unfold current, entry. by destruct (backings l !! b). Qed.

(** A step of the ledger that keeps what is current and leaves storage and copies alone. *)
Lemma ledger_step_ok w l : world_ok w → next_version (ledger w) ≤ next_version l < 2 ^ 64 →
  (∀ b e, backings l !! b = Some e → entry_ok (next_version l) (λ r x, busy w b r x = false) (store w b) e) →
  (∀ b x v, current l b x = Some v → current (ledger w) b x = Some v) → world_ok (w <| ledger := l |>).
Proof.
  intros [H1 H2 H3 H4 H5 H6] Hn He Hc. split; cbn [ledger store written flying set_field].
  - lia.
  - exact He.
  - intros b r x v ?%H3. lia.
  - intros b v x ?%H4. lia.
  - intros b x v ?%Hc. by apply H5.
  - intros [t ran] Hin. destruct (H6 _ Hin) as (? & ? & Hp). split_and!; [done..|]. intros p x Hpin Hx. destruct (Hp p x Hpin Hx) as [? Hcur].
    split; [done|]. intros ?%Hc. by apply Hcur.
Qed.
Lemma ledger_put_ok w b e n c : world_ok w → next_version (ledger w) ≤ n < 2 ^ 64 →
  entry_ok n (λ r x, busy w b r x = false) (store w b) e → (∀ x v, version_at (e_canonical e) x = Some v → current (ledger w) b x = Some v) →
  world_ok (w <| ledger := mkLedger (<[b := e]> (backings (ledger w))) n c |>).
Proof.
  intros Hw Hn He Hc. apply ledger_step_ok; [done|cbn; lia| |].
  - cbn [backings next_version]. intros b' e' [[<- <-]|[_ He']]%lookup_insert_Some; [done|].
    eapply entry_ok_mono; [| |by apply (wo_entry w Hw b')]; [lia|done].
  - intros b' x v. unfold current. cbn [backings]. destruct (decide (b' = b)) as [->|Hne]; [rewrite lookup_insert_eq; apply Hc|by rewrite lookup_insert_ne].
Qed.

Lemma reserve_ok w b : world_ok w → allowed w (Reserve b) → world_ok (world_step w (Reserve b)).
Proof.
  intros Hw Hroom. cbn in Hroom. pose proof (wo_next w Hw). cbn [world_step reserve snd]. unfold next_of.
  rewrite u64_small by (unfold is_u64; lia). apply ledger_put_ok; [done|lia|apply entry_of; [done|lia]|].
  intros x v. by rewrite current_entry.
Qed.
Lemma discard_ok w b bytes r : world_ok w → allowed w (Discard b bytes r) → world_ok (world_step w (Discard b bytes r)).
Proof.
  intros Hw Hr. cbn [allowed] in Hr. cbn [world_step]. pose proof (wo_next w Hw). unfold discard.
  destruct (backings (ledger w) !! b) as [e|] eqn:E; [|by destruct w as [[] ? ? ?]].
  destruct (e_fresh e !! r) as [set|] eqn:Es; [|by destruct w as [[] ? ? ?]].
  apply ledger_put_ok; [done|lia|by apply discard_entry; [apply wo_entry|..]|]. intros x v. unfold current. by rewrite E.
Qed.
Lemma forget_ok w b : world_ok w → world_ok (world_step w (Forget b)).
Proof.
  intros Hw. apply ledger_step_ok; [done|cbn; pose proof (wo_next w Hw); lia| |].
  - cbn. intros b' e [_ He]%lookup_delete_Some. by apply wo_entry.
  - intros b' x v. unfold current. cbn. destruct (delete b (backings (ledger w)) !! b') eqn:E; [|done].
    apply lookup_delete_Some in E as [_ ->]. done.
Qed.

(** A write that reaches storage and the ledger in one step. *)
Lemma lands_ok w l b bytes v r : world_ok w → next_version (ledger w) ≤ next_version l < 2 ^ 64 → v < next_version l →
  (∀ b', b' ≠ b → backings l !! b' = backings (ledger w) !! b') →
  (∀ e, backings l !! b = Some e → entry_ok (next_version l) (λ r x, busy w b r x = false) (put (store w) b r (within bytes) (λ _, Some v) b) e) →
  (∀ x u, current l b x = Some u → u = v ∧ within bytes x = true ∨ current (ledger w) b x = Some u ∧ (within bytes x = true → v ≤ u)) →
  (∀ x, within bytes x = true → written w b v x = false ∧ ∀ u, store w b r x = Some u → u ≤ v) →
  world_ok (lands w l b bytes v r).
Proof.
  intros [H1 H2 H3 H4 H5 H6] Hn Hv Hb He Hc Ho. unfold lands. split; cbn [ledger store written flying].
  - lia.
  - intros b' e E. destruct (decide (b' = b)) as [->|Hne]; [by apply He|]. rewrite Hb in E by done.
    eapply entry_ok_mono; [| |by apply (H2 b')]; [lia|]. intros r' x ?. by rewrite put_other.
  - intros b' r' x u. unfold put. case_decide; [destruct (within bytes x); [intros [= <-]; lia|]|]; intros ?%H3; lia.
  - intros b' u x. unfold mark. intros [Hm|?%H4]%orb_true_iff; lia.
  - intros b' x u. destruct (decide (b' = b)) as [->|Hne].
    + intros [[-> Hx]|[?%H5 _]]%Hc; [|by apply mark_old]. unfold mark. by rewrite !Z.eqb_refl, Hx.
    + unfold current. rewrite Hb by done. intros ?. apply mark_old, H5. done.
  - intros [t ran] Hin. destruct (H6 _ Hin) as (? & ? & Hp). split_and!; [done..|]. cbn [ledger store written]. intros p x Hpin Hx.
    destruct (Hp p x Hpin Hx) as [Hwr Hcur]. split; [by apply mark_old|]. change (busy (mkWorld _ _ _ (flying w))) with (busy w).
    destruct (decide (t_backing t = b)) as [E|Hne]; [rewrite E in *|].
    + intros [[Ev Hx']|[Hold Hle]]%Hc; [destruct (Ho x Hx') as [Hno _]; congruence|]. specialize (Hcur Hold).
      assert (∀ r', store w b r' x = Some (sp_version p) → put (store w) b r (within bytes) (λ _, Some v) b r' x = Some (sp_version p)) as Hst.
      { intros r' Hs. rewrite put_same. case_decide; [|done]. destruct (within bytes x) eqn:Ex; [|done]. subst r'.
        destruct (Ho x Ex) as [_ Hu]. specialize (Hu _ Hs). specialize (Hle eq_refl). f_equal. lia. }
      destruct ran; [by apply Hst|]. intros Hi. by apply Hst, Hcur.
    + unfold current. rewrite Hb by done. intros Hc'. specialize (Hcur Hc'). destruct ran; intros; rewrite put_other by done; auto.
Qed.

Lemma complete_ok w b bytes v r : world_ok w → allowed w (Complete b bytes v r) → world_ok (world_step w (Complete b bytes v r)).
Proof.
  intros Hw (Hr & Hv0 & Hv & Hord). pose proof (wo_next w Hw). cbn [world_step]. unfold materialize.
  set (l := if _ <=? v then _ else ledger w).
  assert (backings l = backings (ledger w) ∧ next_version l = next_version (ledger w) `max` (v + 1)) as [El En].
  { unfold l. destruct (_ <=? v) eqn:E; cbn; [|split; [done|lia]]. unfold next_of. rewrite u64_small by (unfold is_u64; lia). split; [done|lia]. }
  assert (entry l b = entry (ledger w) b) as -> by (unfold entry; by rewrite El).
  pose proof (entry_of w b (next_version l) Hw ltac:(lia)) as He.
  pose proof (materialize_entry _ _ _ _ bytes v r He Hr ltac:(lia) (λ x u Hx, proj2 (Hord x Hx) u)) as Hm.
  pose proof (apply_ok (e_canonical (entry (ledger w) b)) bytes v (eo_cov _ _ _ _ He) Hr) as Ha.
  destruct (apply (e_canonical (entry (ledger w) b)) bytes v) as [c' a]. destruct Ha as (_ & _ & _ & Htx & _ & Hvx). cbn [snd].
  clearbody l. apply lands_ok; [done|cbn; lia|cbn; lia| | | |done].
  - intros b' Hne. cbn. by rewrite lookup_insert_ne, El.
  - cbn. rewrite lookup_insert_eq. intros e [= <-]. eapply entry_ok_mono; [| |exact Hm]; [done|]. intros r' x ?. by rewrite put_same.
  - intros x u. unfold current. cbn. rewrite lookup_insert_eq. cbn. rewrite Hvx, Htx, <- current_entry.
    destruct (within bytes x); cbn; [|by right]. destruct (current (ledger w) b x) as [u0|] eqn:E; [|intros [= <-]; by left].
    destruct (beats v (Some u0)) eqn:E1; [intros [= <-]; by left|]. intros [= <-]. right. split; [done|]. cbn in E1. lia.
Qed.
(** A write is a reservation completed at once. *)
Lemma write_ok w b bytes r : world_ok w → allowed w (Write b bytes r) → world_ok (world_step w (Write b bytes r)).
Proof.
  intros Hw [Hr Hroom]. pose proof (wo_next w Hw).
  set (w0 := w <| ledger := (ledger w) <| census := (census (ledger w)) <| writes := u64 (writes (census (ledger w)) + 1) |> |> |>).
  assert (world_ok w0) as Hw0 by (by destruct Hw; split).
  assert (world_ok (world_step w0 (Reserve b))) as Hw1 by (by apply reserve_ok).
  assert (next_version (ledger (world_step w0 (Reserve b))) = next_version (ledger w) + 1) as En.
  { cbn. unfold next_of. by rewrite u64_small by (unfold is_u64; lia). }
  apply (complete_ok _ b bytes (next_version (ledger w)) r Hw1).
  split_and!; [done|lia|lia|]. intros x _. split.
  - apply not_true_is_false. intros Hx. pose proof (wo_written w Hw _ _ _ Hx). lia.
  - intros u Hs. pose proof (wo_store w Hw _ _ _ _ Hs). lia.
Qed.
Lemma declare_ok w b ext r : world_ok w → allowed w (DeclareAt b ext r) → world_ok (world_step w (DeclareAt b ext r)).
Proof.
  intros Hw [Hr Hroom]. pose proof (wo_next w Hw). cbn [world_step]. unfold declare.
  destruct (backings (ledger w) !! b) as [known|] eqn:E.
  - match goal with |- context [<[b := ?k]>] => set (e' := k) end.
    set (w1 := w <| ledger := mkLedger (<[b := e']> (backings (ledger w))) (next_version (ledger w)) (census (ledger w)) |>).
    assert (world_ok w1) as Hw1.
    { apply ledger_put_ok; [done|lia| |]; [by destruct (wo_entry w Hw b known E)|]. intros x v. unfold current. by rewrite E. }
    apply (write_ok w1 b ext r Hw1). by split.
  - unfold reserve, next_of. rewrite u64_small by (unfold is_u64; lia).
    destruct (declare_entry (next_version (ledger w)) (λ r x, busy w b r x = false) (store w b) ext r Hr ltac:(lia)) as [He Hvx].
    apply lands_ok; [done|cbn; lia|cbn; lia| | | |].
    + intros b' Hne. cbn. by rewrite !lookup_insert_ne.
    + cbn. rewrite lookup_insert_eq. intros e [= <-]. eapply entry_ok_mono; [| |exact He]; [done|]. intros r' x ?. by rewrite put_same.
    + intros x u. unfold current. cbn. rewrite lookup_insert_eq. cbn. rewrite Hvx. destruct (within ext x); [intros [= <-]; by left|done].
    + intros x _. split; [|intros u Hs; pose proof (wo_store w Hw _ _ _ _ Hs); lia].
      apply not_true_is_false. intros Hx. pose proof (wo_written w Hw _ _ _ Hx). lia.
Qed.

Lemma busy_in w f b r x : f ∈ flying w → lands_on b r x f = true → busy w b r x = true.
Proof. intros Hin Hx. apply existsb_exists. exists f. split; [by apply list_elem_of_In|done]. Qed.
(** Planned copies join those in flight. *)
Lemma join_ok w l fs : world_ok w → backings l = backings (ledger w) → next_version l = next_version (ledger w) →
  Forall (λ f : Transfer * bool, f.2 = false ∧ flight_ok w f) fs → world_ok (w <| ledger := l |> <| flying := flying w ++ fs |>).
Proof.
  intros [H1 H2 H3 H4 H5 H6] Eb En Hfs. set (w' := w <| ledger := l |> <| flying := flying w ++ fs |>).
  assert (∀ b x, current l b x = current (ledger w) b x) as Hc by (intros; unfold current; by rewrite Eb).
  assert (∀ b r x, busy w' b r x = busy w b r x) as Hbz.
  { intros b r x. unfold busy, w'. cbn. rewrite existsb_app, (not_true_is_false (existsb _ fs)); [apply orb_false_r|].
    intros (f & Hin%list_elem_of_In & Hl)%existsb_exists. rewrite Forall_forall in Hfs. destruct (Hfs f Hin) as [Hf _].
    unfold lands_on in Hl. by rewrite Hf in Hl. }
  assert (∀ f, flight_ok w f → flight_ok w' f) as Hf.
  { intros [t ran] (? & ? & Hp). split_and!; [done..|]. unfold w' at 1 2 3 5. cbn [ledger store written set_field]. intros p x ? ?. rewrite Hc, Hbz. by apply Hp. }
  split; unfold w'; cbn [ledger store written flying set_field]; rewrite ?En; [done| |done|done| |].
  - intros b e. rewrite Eb. intros He. eapply entry_ok_mono; [| |by apply (H2 b)]; [done|]. intros r x. by rewrite Hbz.
  - intros b x v. rewrite Hc. apply H5.
  - intros f [Hin|Hin]%elem_of_app; apply Hf; [by apply H6|]. rewrite Forall_forall in Hfs. by apply Hfs.
Qed.
Lemma plan_ok w b bytes r : world_ok w → allowed w (Plan b bytes r) → world_ok (world_step w (Plan b bytes r)).
Proof.
  intros Hw Hr. cbn [allowed] in Hr. cbn [world_step]. pose proof (transfer_next (ledger w) b bytes r) as En.
  destruct (backings (ledger w) !! b) as [e|] eqn:E.
  - pose proof (transfer_spec _ _ _ _ _ _ bytes r E (wo_entry w Hw b e E) Hr) as Hs.
    destruct (transfer_for_read (ledger w) b bytes r) as [t l]. destruct Hs as [Eb Ht]. apply join_ok; [done..|].
    destruct t as [t|]; [|constructor]. destruct Ht as (Et & Ef & Eto & _ & Hwf & Hp & _).
    constructor; [|constructor]. split; [done|]. split_and!; [done|by rewrite Ef, Eto|]. intros p x Hin Hx. destruct (Hp p x Hin Hx) as [Hv Hst].
    rewrite Et, Ef. split; [apply (wo_current w Hw); unfold current; by rewrite E|by intros _].
  - unfold transfer_for_read. rewrite E. by apply (join_ok w (_ <| census := _ |>)).
Qed.

Lemma lands_on_ran t b r x : lands_on b r x (t, true) = true ↔ t_backing t = b ∧ t_to t = r ∧ holds (t_bytes t) x = true.
Proof. unfold lands_on. cbn. rewrite !andb_true_iff, bool_decide_eq_true, Z.eqb_eq. tauto. Qed.
Lemma flight_in w t p x : flight_ok w (t, true) → p ∈ t_at t → within (sp_range p) x = true → lands_on (t_backing t) (t_to t) x (t, true) = true.
Proof. intros (Hwf & _) Hp Hx. apply lands_on_ran. split_and!; [done..|]. by eapply co_in. Qed.

(** A copy runs: its bytes become busy, and hold what its source held. *)
Lemma run_ok w i : world_ok w → allowed w (RunCopy i) → world_ok (world_step w (RunCopy i)).
Proof.
  intros Hw Ha. cbn [world_step]. destruct (flying w !! i) as [[t [|]]|] eqn:Ei; [done| |done]. cbn [allowed] in Ha.
  pose proof (λ x, Ha t x Ei) as Hidle. clear Ha. set (w' := w <| store := _ |> <| flying := _ |>).
  assert ((t, false) ∈ flying w) as Hin by (by eapply list_elem_of_lookup_2).
  assert (∀ b r x, busy w' b r x = false → busy w b r x = false ∧ lands_on b r x (t, true) = false) as Hbz.
  { intros b r x Hb. split; apply not_true_is_false; intros Hx; apply not_true_iff_false in Hb; apply Hb; clear Hb; apply existsb_exists.
    - apply existsb_exists in Hx as (f & Hf%list_elem_of_In & Hl). exists f. split; [|done]. apply list_elem_of_In. cbn.
      apply list_elem_of_lookup in Hf as [j Hj]. apply list_elem_of_lookup. exists j. rewrite list_lookup_insert_ne; [done|]. intros ->.
      rewrite Ei in Hj. injection Hj as <-. by cbn in Hl.
    - exists (t, true). split; [|done]. apply list_elem_of_In, list_elem_of_lookup. exists i. cbn. apply list_lookup_insert_eq. by eapply lookup_lt_Some. }
  assert (∀ b r x, busy w' b r x = false → store w' b r x = store w b r x) as Hst.
  { intros b r x [_ Hl]%Hbz. unfold w'. cbn. unfold put. case_decide as Hd; [|done]. destruct (holds (t_bytes t) x) eqn:Ex; [|done].
    destruct Hd as [-> ->]. exfalso. apply not_true_iff_false in Hl. by apply Hl, lands_on_ran. }
  destruct Hw as [H1 H2 H3 H4 H5 H6]. pose proof (H6 _ Hin) as (Hwf & Hft & Hp). split; try done.
  - intros b e He. eapply entry_ok_mono; [| |by apply (H2 b)]; [done|]. intros r x Hb. split; [by apply Hbz|by apply Hst].
  - unfold w'. cbn. intros b r x v. unfold put. case_decide; [destruct (holds (t_bytes t) x)|]; apply H3.
  - intros f Hf. unfold w' in Hf. cbn in Hf. apply list_elem_of_lookup in Hf as [j Hj]. destruct (decide (j = i)) as [->|Hne].
    + rewrite list_lookup_insert_eq in Hj by (by eapply lookup_lt_Some). injection Hj as <-. split_and!; [done..|]. intros p x Hpin Hx.
      destruct (Hp p x Hpin Hx) as [Hwr Hcur]. split; [done|]. intros Hc. pose proof (co_in _ Hwf p x Hpin Hx) as Hbytes.
      unfold w'. cbn. rewrite put_same, decide_True, Hbytes by done. apply Hcur; [done|]. by apply Hidle.
    + rewrite list_lookup_insert_ne in Hj by done. assert (f ∈ flying w) as Hfin by (by eapply list_elem_of_lookup_2).
      pose proof (H6 _ Hfin) as Hfo. destruct f as [t2 ran]. pose proof Hfo as (? & ? & Hp2). split_and!; [done..|]. intros p x Hpin Hx.
      destruct (Hp2 p x Hpin Hx) as [Hwr Hcur]. split; [done|]. intros Hc. specialize (Hcur Hc). destruct ran.
      * unfold w'. cbn. unfold put. case_decide as Hd; [|done]. destruct (holds (t_bytes t) x) eqn:Ex; [|done]. destruct Hd as [Eb Er].
        destruct (Hidle x Ex) as [_ Hno]. rewrite <- Eb, <- Er in Hno. apply not_true_iff_false in Hno. exfalso. apply Hno.
        eapply busy_in; [exact Hfin|by eapply flight_in].
      * intros Hb. rewrite Hst by done. apply Hcur. by apply Hbz.
Qed.

(** A copy is recorded: its bytes are busy no longer. *)
Lemma record_ok w i : world_ok w → allowed w (RecordCopy i) → world_ok (world_step w (RecordCopy i)).
Proof.
  intros Hw Ha. cbn [world_step]. destruct (flying w !! i) as [[t [|]]|] eqn:Ei; [|done..]. cbn [allowed] in Ha.
  assert ((t, true) ∈ flying w) as Hin by (by eapply list_elem_of_lookup_2).
  set (l := record_transfer (ledger w) t). set (w' := w <| ledger := l |> <| flying := delete i (flying w) |>).
  assert (∀ b x, current l b x = current (ledger w) b x) as Hc.
  { intros b x. unfold l, record_transfer, current. destruct (backings (ledger w) !! t_backing t) as [e|] eqn:E; [|done].
    destruct (decide (b = t_backing t)) as [->|Hne]; destruct (subtract (t_bytes t) _); cbn; rewrite ?lookup_insert_eq, ?lookup_insert_ne by done; by rewrite ?E. }
  assert (next_version l = next_version (ledger w)) as En by (unfold l, record_transfer; by repeat case_match).
  assert (∀ b r x, busy w' b r x = false → busy w b r x = false ∨ b = t_backing t ∧ r = t_to t ∧ holds (t_bytes t) x = true) as Hbz.
  { intros b r x Hb. destruct (busy w b r x) eqn:E; [right|by left]. apply existsb_exists in E as (f & Hf%list_elem_of_In & Hl).
    rewrite (delete_Permutation _ _ _ Ei), elem_of_cons in Hf. destruct Hf as [->|Hf].
    - apply lands_on_ran in Hl as (? & ? & ?). by split_and!.
    - exfalso. apply not_true_iff_false in Hb. apply Hb, existsb_exists. exists f. split; [|done]. by apply list_elem_of_In. }
  destruct Hw as [H1 H2 H3 H4 H5 H6]. pose proof (H6 _ Hin) as (Hwf & Hft & Hp).
  split; unfold w'; cbn [ledger store written flying set_field]; rewrite ?En; [done| |done|done| |].
  - intros b e'. destruct (backings (ledger w) !! t_backing t) as [e|] eqn:E.
    + pose proof (record_entry _ _ (λ r x, busy w' (t_backing t) r x = false) _ _ t (H2 _ _ E) Hwf) as He. cbn zeta in He.
      assert (backings l = <[t_backing t := e <| e_fresh := <[t_to t := subtract (union_with (fresh_of e (t_to t)) (landed_of (e_canonical e) (t_at t)))
        (subtract (t_bytes t) (landed_of (e_canonical e) (t_at t)))]> (e_fresh e) |>]> (backings (ledger w))) as -> by (unfold l, record_transfer; rewrite E; by destruct (subtract (t_bytes t) _)).
      intros [[<- <-]|[Hne He']]%lookup_insert_Some.
      * apply He; [intros r x [?|(_ & -> & ?)]%Hbz; [by left|by right]|]. intros p x Hpin Hx Hv _. destruct (Hp p x Hpin Hx) as [_ Hcur]. apply Hcur. unfold current. by rewrite E.
      * eapply entry_ok_mono; [| |by apply (H2 b)]; [done|]. intros r x [?|(-> & _)]%Hbz; done.
    + assert (l = ledger w) as -> by (unfold l, record_transfer; by rewrite E). intros He'.
      eapply entry_ok_mono; [| |by apply (H2 b)]; [done|]. intros r x [?|(-> & _)]%Hbz; [done|congruence].
  - intros b x v. rewrite Hc. apply H5.
  - intros [t2 ran] Hf%list_elem_of_delete_inv. pose proof (H6 _ Hf) as (? & ? & Hp2). split_and!; [done..|]. cbn [ledger store written].
    intros p x Hpin Hx. destruct (Hp2 p x Hpin Hx) as [Hwr Hcur]. split; [done|]. rewrite Hc. intros Hv. specialize (Hcur Hv). destruct ran; [done|].
    intros [?|(Eb & Er & Hx2)]%Hbz; [by apply Hcur|]. unfold current in Hv. rewrite Eb, Er in *.
    destruct (backings (ledger w) !! t_backing t) as [e|] eqn:E; [|done]. cbn in Hv.
    destruct (holds (landed_of (e_canonical e) (t_at t)) x) eqn:El.
    + apply (landed_ok _ _ (proj1 (eo_cov _ _ _ _ (H2 _ _ E))) (co_at _ Hwf)) in El as (p' & Hp' & Hw' & Hv').
      destruct (Hp p' x Hp' Hw') as [_ Hc']. assert (sp_version p = sp_version p') as -> by congruence.
      apply Hc'. unfold current. by rewrite E.
    + assert (holds (t_bytes t2) x = true) as Hb2 by (eapply co_in; eauto). rewrite (Ha t e x Ei E Hx2 El t2 Hf Eb Er) in Hb2. done.
Qed.

Lemma world_step_ok w op : world_ok w → allowed w op → world_ok (world_step w op).
Proof.
  intros Hw Ha. destruct op; [by apply reserve_ok|by apply complete_ok|by apply write_ok|by apply declare_ok|by apply plan_ok
    |by apply run_ok|by apply record_ok|by apply discard_ok|by apply forget_ok].
Qed.
(** The worlds that can be reached from the empty one. *)
Inductive reachable : world → Prop :=
  | reach_empty : reachable empty_world
  | reach_step w op : reachable w → allowed w op → reachable (world_step w op).
Lemma ledger_reachable_ok w : reachable w → world_ok w.
Proof.
  induction 1; [|by apply world_step_ok]. split; cbn; try done. intros f Hin. by apply elem_of_nil in Hin.
Qed.


(** ** Reads *)
Lemma canonical_empty s : canonical 0 s → (∀ x, holds s x = false) → s = [].
Proof. intros Hs Hx. by apply (canonical_unique 0). Qed.

(** A read asks for exactly what it needs, once.  The transfer it is told to wait for
    comes from the other replica and carries exactly the bytes of the read that its own
    replica is behind on and the other is fresh for; without a transfer there are no
    such bytes.  When the copy is recorded before anything else happens, the replica is
    fresh for those bytes and for what it was fresh for before, and asking again owes
    nothing. *)
Theorem read_owes_once l b e bytes r :
  ledger_wf l → backings l !! b = Some e → arg_ok bytes →
  let '(t, l) := transfer_for_read l b bytes r in
  match t with
  | None => ∀ x, owed_bytes e bytes r x = false
  | Some t =>
      t_backing t = b ∧ t_from t = other r ∧ t_to t = r ∧ (∃ x, holds (t_bytes t) x = true) ∧
      (∀ x, holds (t_bytes t) x = owed_bytes e bytes r x) ∧
      ∃ e', backings (record_transfer l t) !! b = Some e' ∧ e_canonical e' = e_canonical e ∧
        (∀ x, holds (fresh_of e' r) x = holds (fresh_of e r) x || holds (t_bytes t) x) ∧
        fresh_of e' (other r) = fresh_of e (other r) ∧ (transfer_for_read (record_transfer l t) b bytes r).1 = None
  end.
Proof.
  intros Hw E Hr. pose proof (lw_entry l Hw b e E) as He. unfold entry_wf in He.
  pose proof (transfer_spec _ _ _ _ _ _ bytes r E He Hr) as Hs.
  destruct (transfer_for_read l b bytes r) as [[t|] l1]; [|by destruct Hs].
  destruct Hs as (Eb & Etb & Etf & Ett & Hne & Hcopy & _ & Hbytes & Hland). pose proof Hcopy as [Hcb Hat _].
  split_and!; [done..| |done|].
  { destruct (t_bytes t) as [|q qs]; [done|]. exists (offset q). by apply (holds_front 0). }
  pose proof (record_entry _ _ (λ _ _, False) _ _ _ He Hcopy ltac:(done) ltac:(done)) as He'. cbn zeta in He'.
  destruct (landed_ok _ _ (proj1 (eo_cov _ _ _ _ He)) Hat) as [Hl _].
  assert (subtract (t_bytes t) (landed_of (e_canonical e) (t_at t)) = []) as Ec.
  { destruct (subtract_ok _ _ Hcb Hl) as [H1 H2]. apply canonical_empty; [done|]. intros x. rewrite H2, Hland. lia. }
  rewrite Ec in He'. set (e' := e <| e_fresh := _ |>) in He'.
  destruct (union_ok _ _ (eo_fresh _ _ _ _ He (t_to t)) Hl) as [Hu Hux].
  assert (backings (record_transfer l1 t) !! b = Some e') as Eb'.
  { unfold record_transfer. rewrite Eb, Etb, E, Ec. cbn. apply lookup_insert_eq. }
  assert (∀ x, holds (fresh_of e' r) x = holds (fresh_of e r) x || holds (t_bytes t) x) as Hfx.
  { intros x. unfold fresh_of at 1, set_of, e'. cbn. rewrite Ett, lookup_insert_eq.
    rewrite Ett in Hu, Hux. destruct (subtract_ok _ [] Hu I) as [_ Hsx]. rewrite Hsx, Hux, Hland. cbn. lia. }
  assert (fresh_of e' (other r) = fresh_of e (other r)) as Hfo.
  { unfold fresh_of, set_of, e'. cbn. rewrite Ett, lookup_insert_ne; [done|]. by destruct r. }
  exists e'. split_and!; [done..|].
  pose proof (transfer_spec _ _ _ _ _ _ bytes r Eb' He' Hr) as Hs2.
  destruct (transfer_for_read (record_transfer l1 t) b bytes r) as [[t'|] l']; [|done].
  destruct Hs2 as (_ & _ & _ & _ & Hne' & Hcopy' & _ & Hb' & _).
  exfalso. apply Hne'. apply canonical_empty; [apply (co_bytes _ Hcopy')|]. intros x.
  rewrite Hb'. unfold owed_bytes. rewrite Hfx, Hfo, Hbytes. unfold owed_bytes. lia.
Qed.

(** What a discard would destroy: the bytes no other replica holds. *)
Lemma sole_authority_ok l b e range r x :
  backings l !! b = Some e → entry_wf e → arg_ok range →
  holds (sole_authority l b range r) x = within range x && holds (fresh_of e r) x && negb (holds (fresh_of e (other r)) x).
Proof.
  intros E He Hr. pose proof (eo_fresh _ _ _ _ He r) as H1. pose proof (eo_fresh _ _ _ _ He (other r)) as H2.
  destruct (from_range_ok range Hr) as [H3 H4]. unfold sole_authority, fresh_of, set_of in *. rewrite E.
  destruct (e_fresh e !! r) as [here|]; [|cbn; lia]. destruct (intersection_ok _ _ H1 H3) as [H5 H6].
  destruct (e_fresh e !! other r) as [there|].
  - destruct (subtract_ok _ _ H5 H2) as [_ H7]. rewrite H7, H6, H4. lia.
  - rewrite H6, H4. cbn. lia.
Qed.

(** ** A concrete backing *)
Definition demo_bytes : ByteRange := mkByteRange 16 16.
(** The guest declares a buffer and the device reads part of it. *)
Definition demo_declared : world := world_step empty_world (DeclareAt 7 (mkByteRange 0 64) GuestPages).
Definition demo_planned : world := world_step demo_declared (Plan 7 demo_bytes DeviceOwned).
Definition demo_served : world := world_step (world_step demo_planned (RunCopy 0)) (RecordCopy 0).

Lemma demo_bytes_ok : arg_ok demo_bytes.
Proof. unfold arg_ok, UINT64_MAX. cbn. lia. Qed.
Lemma demo_served_reachable : reachable demo_served.
Proof.
  apply reach_step; [apply reach_step; [apply reach_step; [apply reach_step; [constructor|]|]|]|].
  - split; [unfold arg_ok, UINT64_MAX; cbn; lia|reflexivity].
  - apply demo_bytes_ok.
  - intros t x _ _. split; reflexivity.
  - intros t e x Hi E Hx Hl t' Hin. vm_compute in Hin. apply list_elem_of_singleton in Hin. discriminate Hin.
Qed.


Lemma read_owes_once_witness :
  ∃ t l, transfer_for_read (ledger demo_declared) 7 demo_bytes DeviceOwned = (Some t, l) ∧
    t_bytes t = [demo_bytes] ∧ (transfer_for_read (record_transfer l t) 7 demo_bytes DeviceOwned).1 = None.
Proof.
  assert (∃ e, backings (ledger demo_declared) !! 7 = Some e) as [e He] by (eexists; vm_compute; reflexivity).
  assert (ledger_wf (ledger demo_declared)) as Hw by (apply wf_declare; [apply wf_empty|unfold arg_ok, UINT64_MAX; cbn; lia]).
  pose proof (read_owes_once (ledger demo_declared) 7 e demo_bytes DeviceOwned Hw He demo_bytes_ok) as Ho.
  assert (∃ t l, transfer_for_read (ledger demo_declared) 7 demo_bytes DeviceOwned = (Some t, l) ∧ t_bytes t = [demo_bytes]) as (t & l & Et & Eb).
  { eexists _, _. split; [vm_compute; reflexivity|reflexivity]. }
  rewrite Et in Ho. destruct Ho as (_ & _ & _ & _ & _ & e' & _ & _ & _ & _ & Hn).
  exists t, l. split; [exact Et|]. split; [exact Eb|exact Hn].
Defined.

(** ** The order that is left out

    The device's bytes are on their way to the guest, the guest writes them, and a copy back to
    the device is planned; then the first copy lands on the guest's write and is recorded.  The
    ledger knows that nobody holds the guest's bytes any more.  When the second copy runs after
    that, in the order the two were planned, it moves the old bytes and is recorded as having
    delivered the guest's: the device is called fresh for version 1 and holds version 0. *)
Definition overtaken : world :=
  let b := mkByteRange 0 8 in
  foldl world_step empty_world
    [DeclareAt 1 b DeviceOwned; Plan 1 b GuestPages; Write 1 b GuestPages; Plan 1 b DeviceOwned; RunCopy 0; RecordCopy 0].
Definition resurrected : world := foldl world_step overtaken [RunCopy 0; RecordCopy 0].
Lemma late_copy_resurrects :
  is_fresh (ledger overtaken) 1 (mkByteRange 0 8) GuestPages = false ∧
  is_fresh (ledger overtaken) 1 (mkByteRange 0 8) DeviceOwned = false ∧
  is_fresh (ledger resurrected) 1 (mkByteRange 0 8) DeviceOwned = true ∧ flying resurrected = [] ∧
  version_of (ledger resurrected) 1 (mkByteRange 0 8) = Some 1 ∧ store resurrected 1 DeviceOwned 3 = Some 0.
Proof. split_and!; vm_compute; reflexivity. Qed.
