(* ===== verification/Access.v ===== *)
(** What a transaction touches:
    src/reims-vgpu/crates/reims-vgpu-core/src/access.rs, the keys of an access, when two
    of them may name the same memory, and when two accesses are ordered.

    An identifier is the integer it wraps.  The memory behind the keys is not code: a
    section below takes any layout of each access's image over its backing and any assignment
    of backings to heaps, and shows which keys that share a byte there are told apart. *)
From Stdlib Require Import ZifyBool.
From S2P Require Import Prelude RangeSet.

Definition UINT32_MAX : Z := 0xffffffff.

(** ** Names

    A resource: the slot the guest named, and how often the slot had been filled when the
    name was resolved. *)
Record ResourceId := mkResourceId { slot_ref : Z; slot_generation : Z }.
#[export] Instance ResourceId_eq_dec : EqDecision ResourceId.
Proof. solve_decision. Defined.
#[export] Instance ResourceId_countable : Countable ResourceId.
Proof.
  refine (inj_countable' (λ r, (slot_ref r, slot_generation r)) (λ p, mkResourceId p.1 p.2) _).
  by intros [].
Defined.

(** ** Keys *)
Record HeapId := mkHeapId { heap_id : Z; membership_generation : Z }.
Definition same_heap (a b : HeapId) : bool := heap_id a =? heap_id b.

Record SubresourceRange := mkSub {
  base_level : Z; level_count : Z; base_slice : Z; slice_count : Z; plane : Z }.

Definition span_overlaps (a_base a_count b_base b_count : Z) : bool :=
  if (a_count =? 0) || (b_count =? 0) then false
  else
    let a_end := (a_base + a_count) `min` UINT32_MAX in
    let b_end := (b_base + b_count) `min` UINT32_MAX in
    (a_base <? b_end) && (b_base <? a_end).

(** SubresourceRange::one and overlaps. *)
Definition sub_one (slice level : Z) : SubresourceRange := mkSub level 1 slice 1 0.
Definition sub_overlaps (a b : SubresourceRange) : bool :=
  if negb (plane a =? plane b) then false
  else span_overlaps (base_level a) (level_count a) (base_level b) (level_count b) &&
       span_overlaps (base_slice a) (slice_count a) (base_slice b) (slice_count b).

Record ResourceKey := mkResKey { backing : Z; key_heap : option HeapId }.
Inductive AccessKey :=
  | Range (r : ResourceKey) (bytes : ByteRange) | Subresource (r : ResourceKey) (sub : SubresourceRange)
  | Whole (r : ResourceKey) | Heap (h : HeapId) | DomainOnly.

Definition rung (k : AccessKey) : nat :=
  match k with Range _ _ | Subresource _ _ => 1 | Whole _ | Heap _ => 2 | DomainOnly => 3 end.
Definition resource (k : AccessKey) : option ResourceKey :=
  match k with Range r _ | Subresource r _ | Whole r => Some r | Heap _ | DomainOnly => None end.

Definition in_heap (k : AccessKey) (h : HeapId) : bool :=
  match resource k with
  | Some r => match key_heap r with Some rh => same_heap rh h | None => false end
  | None => false
  end.
Definition may_alias (self other : AccessKey) : bool :=
  match self, other with
  | DomainOnly, _ | _, DomainOnly => true
  | Heap a, Heap b => same_heap a b
  | Heap h, key | key, Heap h => in_heap key h
  | a, b =>
      match resource a, resource b with
      | Some ra, Some rb =>
          if negb (backing ra =? backing rb) then false
          else
            match a, b with
            | Range _ x, Range _ y => overlaps x y
            | Subresource _ x, Subresource _ y => sub_overlaps x y
            | _, _ => true
            end
      | _, _ => false
      end
  end.

(** ** Accesses *)
Inductive AccessMode := Read | Write | ReadWrite | Unknown.
#[export] Instance AccessMode_eq_dec : EqDecision AccessMode.
Proof. solve_decision. Defined.
Definition writes (m : AccessMode) : bool := match m with Read => false | _ => true end.

Record AccessIntent := mkIntent {
  domain : Z; key : AccessKey; mode : AccessMode; api_stages : Z;
  input_content_version : option Z; output_content_version : option Z }.

Definition requires_edge (earlier later : AccessIntent) : bool :=
  if negb (domain earlier =? domain later) then false
  else if negb (writes (mode earlier)) && negb (writes (mode later)) then false
  else may_alias (key earlier) (key later).

(** ** From an operation's claim to an access *)
Inductive ParticipationExtent :=
  | ExtRange (bytes : ByteRange) | ExtSubresource (sub : SubresourceRange) | ExtWhole.
Record Participation := mkPart { part_resource : ResourceId; extent_ : ParticipationExtent; part_mode : AccessMode; part_stages : Z }.

Definition part_resolve (self : Participation) (domain : Z) (resource : ResourceKey)
    (input output : option Z) : AccessIntent :=
  mkIntent domain
    (match extent_ self with
     | ExtRange r => Range resource r
     | ExtSubresource s => Subresource resource s
     | ExtWhole => Whole resource
     end) (part_mode self) (part_stages self) input output.
Definition resolve_no_bytes (self : Participation) (domain : Z) : AccessIntent :=
  mkIntent domain DomainOnly (part_mode self) (part_stages self) None None.

(** ** The order of two accesses does not matter *)
Lemma overlaps_sym x y : overlaps x y = overlaps y x.
Proof. unfold overlaps. by rewrite orb_comm, (andb_comm (_ <? _)). Qed.
Lemma span_overlaps_sym a b c d : span_overlaps a b c d = span_overlaps c d a b.
Proof. unfold span_overlaps. by rewrite orb_comm, (andb_comm (_ <? _)). Qed.
Lemma sub_overlaps_sym x y : sub_overlaps x y = sub_overlaps y x.
Proof.
  unfold sub_overlaps. rewrite (Z.eqb_sym (plane x)), (span_overlaps_sym (base_level x)).
  by rewrite (span_overlaps_sym (base_slice x)).
Qed.
Lemma may_alias_sym a b : may_alias a b = may_alias b a.
Proof.
  destruct a, b; try done; unfold may_alias, same_heap; cbn; rewrite Z.eqb_sym; try done;
    case_match; try done; [apply overlaps_sym|apply sub_overlaps_sym].
Qed.
Lemma requires_edge_sym x y : requires_edge x y = requires_edge y x.
Proof.
  unfold requires_edge. by rewrite (Z.eqb_sym (domain x)), (andb_comm (negb (writes (mode x)))), may_alias_sym.
Qed.

(** ** Memory

    An access is made through an image or buffer of its own: [t p l s x] says that byte [x] of
    the backing belongs to plane [p], level [l] and slice [s] of that image.  In one image a byte
    is in one place; two images over one backing, as in a heap or a surface with two names, may
    place it differently.  [heap_of b]: the heap the backing was allocated from. *)
Definition layout := Z → Z → Z → Z → Prop.
Definition image (t : layout) : Prop := ∀ p l s p' l' s' x, t p l s x → t p' l' s' x → p = p' ∧ l = l' ∧ s = s'.

Section Memory.
Variable heap_of : Z → option Z.

Definition in_span (base count i : Z) : Prop := base ≤ i < (base + count) `min` UINT32_MAX.

(** The bytes a key can refer to. *)
Definition names (t : layout) (k : AccessKey) (b x : Z) : Prop :=
  match k with
  | Range r bytes => b = backing r ∧ within bytes x = true
  | Subresource r s =>
      b = backing r ∧ ∃ l sl, in_span (base_level s) (level_count s) l ∧
        in_span (base_slice s) (slice_count s) sl ∧ t (plane s) l sl x
  | Whole r => b = backing r
  | Heap h => heap_of b = Some (heap_id h)
  | DomainOnly => True
  end.

(** A key carries the heap its backing is in. *)
Definition honest (k : AccessKey) : Prop :=
  match resource k with Some r => heap_of (backing r) = heap_id <$> key_heap r | None => True end.

Lemma span_overlaps_common a n b m i : in_span a n i → in_span b m i → span_overlaps a n b m = true.
Proof. unfold in_span, span_overlaps. intros ??. destruct (_ || _) eqn:E; lia. Qed.
Lemma overlaps_exact r q : 0 ≤ offset r → 0 ≤ offset q → offset r < UINT64_MAX → offset q < UINT64_MAX →
  0 ≤ length_ r → 0 ≤ length_ q → overlaps r q = true ↔ ∃ x, within r x = true ∧ within q x = true.
Proof.
  intros. unfold within, overlaps, end_of. split.
  - intros Ho. exists (offset r `max` offset q). destruct (_ || _) eqn:E; [done|]. lia.
  - intros (x & ? & ?). destruct (_ || _) eqn:E; lia.
Qed.
Lemma overlaps_common r q x : within r x = true → within q x = true → overlaps r q = true.
Proof. unfold within, overlaps, end_of. intros ??. destruct (_ || _) eqn:E; lia. Qed.

Lemma in_heap_named k h : honest k → ∀ r, resource k = Some r → heap_of (backing r) = Some (heap_id h) → in_heap k h = true.
Proof.
  unfold honest, in_heap. intros Hk r E. rewrite E in *. rewrite Hk. destruct (key_heap r); cbn; [|done].
  intros [= E2]. unfold same_heap. by rewrite E2, Z.eqb_refl.
Qed.

Lemma names_backing t k b x r : resource k = Some r → names t k b x → b = backing r.
Proof. destruct k; cbn; try done; intros [= <-]; [intros [? _]|intros [? _]|]; done. Qed.

(** Two subresource keys whose images do not place the byte alike. *)
Definition placed_apart (t1 t2 : layout) (k1 k2 : AccessKey) (x : Z) : Prop :=
  ∃ r1 u r2 v, k1 = Subresource r1 u ∧ k2 = Subresource r2 v ∧ ∀ p l s, t1 p l s x → ¬ t2 p l s x.

Lemma windows_meet t1 t2 r1 r2 u v b x : image t1 → image t2 → names t1 (Subresource r1 u) b x → names t2 (Subresource r2 v) b x →
  sub_overlaps u v = true ∨ ∀ p l s, t1 p l s x → ¬ t2 p l s x.
Proof.
  intros I1 I2 (_ & l & sl & Hl & Hs & T1) (_ & l' & sl' & Hl' & Hs' & T2). destruct (sub_overlaps u v) eqn:E; [by left|right].
  intros p m s P1 P2. destruct (I1 _ _ _ _ _ _ _ P1 T1) as (-> & -> & ->). destruct (I2 _ _ _ _ _ _ _ P2 T2) as (Ep & -> & ->).
  revert E. unfold sub_overlaps. rewrite Ep, Z.eqb_refl. cbn.
  by rewrite (span_overlaps_common _ _ _ _ l'), (span_overlaps_common _ _ _ _ sl').
Qed.

(** Keys that name a common byte may alias. *)
Lemma common_byte_aliases t1 t2 k1 k2 b x :
  image t1 → image t2 → honest k1 → honest k2 → names t1 k1 b x → names t2 k2 b x →
  may_alias k1 k2 = true ∨ placed_apart t1 t2 k1 k2 x.
Proof.
  intros I1 I2 H1 H2 N1 N2.
  destruct (resource k1) as [r1|] eqn:E1, (resource k2) as [r2|] eqn:E2.
  - assert (backing r1 = backing r2) as E by (rewrite <- (names_backing _ _ _ _ _ E1 N1); by apply (names_backing t2 k2 b x)).
    destruct k1 as [? y1|? y1|?|?|], k2 as [? y2|? y2|?|?|]; try done; simplify_eq/=; rewrite E, Z.eqb_refl; try (by left).
    + left. by apply (overlaps_common _ _ x); [apply N1|apply N2].
    + destruct (windows_meet t1 t2 r1 r2 y1 y2 b x I1 I2 N1 N2); [by left|]. right. by exists r1, y1, r2, y2.
  - left. destruct k2 as [| | |h|]; try done; [|by destruct k1].
    replace (may_alias k1 (Heap h)) with (in_heap k1 h) by (by destruct k1).
    apply (in_heap_named _ _ H1 _ E1). rewrite <- (names_backing _ _ _ _ _ E1 N1). done.
  - left. destruct k1 as [| | |h|]; try done.
    replace (may_alias (Heap h) k2) with (in_heap k2 h) by (by destruct k2).
    apply (in_heap_named _ _ H2 _ E2). rewrite <- (names_backing _ _ _ _ _ E2 N2). done.
  - left. destruct k1, k2; try done. cbn in *. rewrite N1 in N2. injection N2 as N2. unfold same_heap. by rewrite N2, Z.eqb_refl.
Qed.

(** C11: Which conflicts are seen.  Whatever the layout of the two images in memory and whichever
    backings the heaps hold, and provided each key carries the heap of its backing, two accesses
    that touch a common byte are ordered exactly when they are of one channel and one of them
    writes or has an unknown direction.  There is one exception, spelled out: both accesses name
    subresources, and the two images do not place the byte at the same plane, level and slice, so
    they are different images over the same memory. *)
Theorem requires_edge_sound t1 t2 a1 a2 b x :
  image t1 → image t2 → honest (key a1) → honest (key a2) → names t1 (key a1) b x → names t2 (key a2) b x →
  requires_edge a1 a2 = bool_decide (domain a1 = domain a2) && (writes (mode a1) || writes (mode a2)) ∨
  requires_edge a1 a2 = false ∧ placed_apart t1 t2 (key a1) (key a2) x.
Proof.
  intros I1 I2 H1 H2 N1 N2. unfold requires_edge. pose proof (common_byte_aliases t1 t2 _ _ b x I1 I2 H1 H2 N1 N2) as Ha.
  case_bool_decide as E; [rewrite (proj2 (Z.eqb_eq _ _) E)|rewrite (proj2 (Z.eqb_neq _ _) E)]; cbn; [|by left].
  destruct (writes (mode a1)), (writes (mode a2)); cbn; [..|by left]; (destruct (may_alias (key a1) (key a2)); [by left|]); right; by destruct Ha.
Qed.
End Memory.

(** An image of four-byte texels, level by level, in a heap. *)
Definition demo_texel : layout := λ p l s x, p = 0 ∧ 0 ≤ l < 16 ∧ 0 ≤ x ∧ x / 64 = s * 16 + l.
Lemma demo_image : image demo_texel.
Proof. unfold image, demo_texel. intros p l s p' l' s' x (-> & ? & ? & E) (-> & ? & ? & E'). lia. Qed.
Definition demo_level : AccessIntent :=
  mkIntent 1 (Subresource (mkResKey 9 (Some (mkHeapId 4 2))) (sub_one 3 1)) Write 0 None None.
Definition demo_use_heap : AccessIntent := mkIntent 1 (Heap (mkHeapId 4 0)) Unknown 0 None None.

Lemma requires_edge_sound_witness : requires_edge demo_level demo_use_heap = true.
Proof.
  assert (names (λ _, Some 4) demo_texel (key demo_level) 9 (49 * 64 + 4)) as N1.
  { split; [done|]. exists 1, 3. unfold in_span, UINT32_MAX, demo_texel. cbn. split_and!; try lia; reflexivity. }
  destruct (requires_edge_sound (λ _, Some 4) demo_texel demo_texel demo_level demo_use_heap 9 (49 * 64 + 4)) as [E|[_ (r1 & u & r2 & v & _ & E & _)]];
    [exact demo_image|exact demo_image|reflexivity|exact I|exact N1|reflexivity|rewrite E; reflexivity|discriminate E].
Defined.
