(* ===== verification/Depend.v ===== *)
(** The hazard compiler: src/reims-vgpu/crates/reims-vgpu-core/src/depend.rs.

    A newly admitted transaction waits for the earlier ones whose accesses conflict with its
    own.  The graph keeps every live access in a list and finds the candidates through five
    indexes, maps from a backing, a heap, a channel or an ordinal to positions in that
    list.  A position out of the list, and a transaction admitted out of order, is a panic:
    the operation returns [None].  The two buffers the source keeps to save allocations are
    cleared at each admission and are not part of the state. *)
From S2P Require Import Prelude RangeSet Access.

Record Entry := mkEntry { ordinal : Z; intent : AccessIntent; live : bool }.
Record Census := mkCensus {
  accesses : Z; edges : Z; by_rung : list Z; domain_only_comparisons : Z; edges_from_unknown_mode : Z }.
#[export] Instance eta_census : Settable Census := λ c,
  mkCensus (accesses c) (edges c) (by_rung c) (domain_only_comparisons c) (edges_from_unknown_mode c).

Abbreviation index := (gmap Z (list nat)).
Record DependencyGraph := mkGraph {
  entries : list Entry; by_backing : index; by_heap : index; by_domain : index; domain_only : index;
  by_ordinal : index; census : Census }.
#[export] Instance eta_graph : Settable DependencyGraph := λ g,
  mkGraph (entries g) (by_backing g) (by_heap g) (by_domain g) (domain_only g) (by_ordinal g) (census g).

Definition empty_graph : DependencyGraph := mkGraph [] ∅ ∅ ∅ ∅ ∅ (mkCensus 0 0 [0; 0; 0] 0 0).
Definition live_accesses (g : DependencyGraph) : nat := length (filter (λ e, live e = true) (entries g)).

Definition bucket (m : index) (k : Z) : list nat := default [] (m !! k).
Definition push_at (m : index) (k : Z) (i : nat) : index := <[k := bucket m k ++ [i]]> m.

(** insert. *)
Definition index_key (g : DependencyGraph) (i : nat) (a : AccessIntent) : DependencyGraph :=
  match key a with
  | DomainOnly => g <| domain_only := push_at (domain_only g) (domain a) i |>
  | Heap h => g <| by_heap := push_at (by_heap g) (heap_id h) i |>
  | Range r _ | Subresource r _ | Whole r =>
      let g := g <| by_backing := push_at (by_backing g) (backing r) i |> in
      match key_heap r with
      | Some h => g <| by_heap := push_at (by_heap g) (heap_id h) i |>
      | None => g
      end
  end.
Definition count_access (c : Census) (a : AccessIntent) : Census :=
  let rungs := alter Z.succ (rung (key a) - 1)%nat (by_rung c) in
  c <| accesses := accesses c + 1 |> <| by_rung := rungs |>.
Definition graph_insert (g : DependencyGraph) (o : Z) (a : AccessIntent) : DependencyGraph :=
  let i := length (entries g) in
  let g := g <| entries := entries g ++ [mkEntry o a true] |> <| census := count_access (census g) a |>
             <| by_domain := push_at (by_domain g) (domain a) i |>
             <| by_ordinal := push_at (by_ordinal g) o i |> in
  index_key g i a.

(** The positions an access could conflict with, and the comparisons charged to unknown
    participation. *)
Definition key_candidates (g : DependencyGraph) (a : AccessIntent) : list nat :=
  match key a with
  | DomainOnly => bucket (by_domain g) (domain a)
  | Heap h => bucket (by_heap g) (heap_id h)
  | Range r _ | Subresource r _ | Whole r =>
      bucket (by_backing g) (backing r) ++
      match key_heap r with Some h => bucket (by_heap g) (heap_id h) | None => [] end
  end.
Definition gather (g : DependencyGraph) (a : AccessIntent) : list nat * DependencyGraph :=
  let unknown := bucket (domain_only g) (domain a) in
  let rest := key_candidates g a in
  let charged := Z.of_nat (length unknown) +
    match key a with DomainOnly => Z.of_nat (length rest) | _ => 0 end in
  (unknown ++ rest,
   g <| census := (census g) <| domain_only_comparisons := domain_only_comparisons (census g) + charged |> |>).

(** slice::binary_search on an ascending list: the position of [x], or where it belongs. *)
Fixpoint binary_search (l : list Z) (x : Z) : nat + nat :=
  match l with
  | [] => inr O
  | y :: l =>
      if y =? x then inl O
      else if x <? y then inr O
      else match binary_search l x with inl i => inl (S i) | inr i => inr (S i) end
  end.

(** One candidate of one access. *)
Definition consider (o : Z) (a : AccessIntent) (st : list Z * DependencyGraph) (i : nat) :
    option (list Z * DependencyGraph) :=
  let '(waits, g) := st in
  match entries g !! i with
  | None => None
  | Some e =>
      if negb (live e) || (ordinal e =? o) then Some st
      else if negb (requires_edge (intent e) a) then Some st
      else
        match binary_search waits (ordinal e) with
        | inl _ => Some st
        | inr at_ =>
            let unknown := bool_decide (mode (intent e) = Unknown) || bool_decide (mode a = Unknown) in
            let c := (census g) <| edges := edges (census g) + 1 |> in
            let c := if unknown then c <| edges_from_unknown_mode := edges_from_unknown_mode c + 1 |> else c in
            Some (take at_ waits ++ ordinal e :: drop at_ waits, g <| census := c |>)
        end
  end.
Fixpoint consider_all (o : Z) (a : AccessIntent) (st : list Z * DependencyGraph) (ids : list nat) :
    option (list Z * DependencyGraph) :=
  match ids with
  | [] => Some st
  | i :: ids => match consider o a st i with Some st => consider_all o a st ids | None => None end
  end.

Fixpoint admit_accesses (o : Z) (accs : list AccessIntent) (st : list Z * DependencyGraph) :
    option (list Z * DependencyGraph) :=
  match accs with
  | [] => Some st
  | a :: accs =>
      let '(waits, g) := st in
      let '(candidates, g) := gather g a in
      match consider_all o a (waits, g) candidates with
      | None => None
      | Some (waits, g) => admit_accesses o accs (waits, graph_insert g o a)
      end
  end.
Definition graph_admit (g : DependencyGraph) (o : Z) (accs : list AccessIntent) :
    option (list Z * DependencyGraph) :=
  if match last (entries g) with None => true | Some l => ordinal l <? o end
  then admit_accesses o accs ([], g)
  else None.

(** retire and compact. *)
Fixpoint kill (es : list Entry) (ids : list nat) : option (list Entry) :=
  match ids with
  | [] => Some es
  | i :: ids =>
      match es !! i with
      | None => None
      | Some e => kill (<[i := mkEntry (ordinal e) (intent e) false]> es) ids
      end
  end.
Definition graph_retire (g : DependencyGraph) (o : Z) : option DependencyGraph :=
  match kill (entries g) (bucket (by_ordinal g) o) with
  | None => None
  | Some es => Some (g <| entries := es |> <| by_ordinal := base.delete o (by_ordinal g) |>)
  end.
Definition graph_compact (g : DependencyGraph) : DependencyGraph :=
  let kept := filter (λ e, live e = true) (entries g) in
  let g' := foldl (λ g e, graph_insert g (ordinal e) (intent e)) (empty_graph <| census := census g |>) kept in
  g' <| census := census g |>.

(** ** The indexes *)
Lemma bucket_push m k i k' j : j ∈ bucket (push_at m k i) k' ↔ j ∈ bucket m k' ∨ (k' = k ∧ j = i).
Proof.
  unfold bucket at 1, push_at. destruct (decide (k = k')) as [->|Hk].
  - rewrite lookup_insert_eq. cbn. rewrite elem_of_app, list_elem_of_singleton. naive_solver.
  - rewrite lookup_insert_ne by done. unfold bucket. naive_solver.
Qed.

(** The heap a key belongs to. *)
Definition heap_key (k : AccessKey) : option Z :=
  match k with
  | Heap h => Some (heap_id h)
  | Range r _ | Subresource r _ | Whole r => heap_id <$> key_heap r
  | DomainOnly => None
  end.

(** Keys that may alias meet in an index. *)
Lemma may_alias_meet k1 k2 : may_alias k1 k2 = true →
  k1 = DomainOnly ∨ k2 = DomainOnly ∨ (∃ h, heap_key k1 = Some h ∧ heap_key k2 = Some h) ∨
  (∃ r1 r2, resource k1 = Some r1 ∧ resource k2 = Some r2 ∧ backing r1 = backing r2).
Proof.
  destruct k1 as [r1 ?|r1 ?|r1|h1|], k2 as [r2 ?|r2 ?|r2|h2|]; auto; unfold may_alias, in_heap, same_heap; cbn;
    first [destruct (backing r1 =? backing r2) eqn:E; [|done]; intros _; reflect_bools; right; right; right; by eauto
          |intros H; right; right; left].
  all: repeat (case_match; simplify_eq/=; try done); reflect_bools; eauto with congruence.
Qed.

(** Where the position of an access is filed. *)
Definition filed (g : DependencyGraph) (i : nat) (a : AccessIntent) : Prop :=
  i ∈ bucket (by_domain g) (domain a) ∧
  (key a = DomainOnly → i ∈ bucket (domain_only g) (domain a)) ∧
  (∀ h, heap_key (key a) = Some h → i ∈ bucket (by_heap g) h) ∧
  (∀ r, resource (key a) = Some r → i ∈ bucket (by_backing g) (backing r)).

Lemma key_candidates_in g a i :
  i ∈ key_candidates g a ↔
    (key a = DomainOnly ∧ i ∈ bucket (by_domain g) (domain a)) ∨
    (∃ h, heap_key (key a) = Some h ∧ i ∈ bucket (by_heap g) h) ∨
    (∃ r, resource (key a) = Some r ∧ i ∈ bucket (by_backing g) (backing r)).
Proof.
  unfold key_candidates. destruct (key a) as [r ?|r ?|r|h|]; cbn; try (destruct (key_heap r)); set_solver.
Qed.

(** Edges from an unknown direction are edges. *)
Definition census_ok (c : Census) : Prop :=
  length (by_rung c) = 3%nat ∧ 0 ≤ edges_from_unknown_mode c ≤ edges c.

Definition in_order (e e' : Entry) : Prop := ordinal e ≤ ordinal e'.

Record graph_ok (g : DependencyGraph) : Prop := {
  go_order : StronglySorted in_order (entries g);
  go_filed i e : entries g !! i = Some e → filed g i (intent e);
  go_range k i : i ∈ bucket (by_backing g) k ++ bucket (by_heap g) k ++ bucket (by_domain g) k ++ bucket (domain_only g) k →
    (i < length (entries g))%nat;
  go_ordinal o i : i ∈ bucket (by_ordinal g) o → ∃ e, entries g !! i = Some e ∧ ordinal e = o;
  go_live i e : entries g !! i = Some e → live e = true → i ∈ bucket (by_ordinal g) (ordinal e);
  go_census : census_ok (census g) }.

Lemma empty_graph_ok : graph_ok empty_graph.
Proof. split; cbn; try done; [constructor|..]; unfold bucket; intros k i; rewrite ?lookup_empty; cbn; set_solver. Qed.

(** Gathering finds every access that would need an edge, and stays in the list. *)
Lemma gather_complete g a i e :
  graph_ok g → entries g !! i = Some e → requires_edge (intent e) a = true → i ∈ (gather g a).1.
Proof.
  intros Hg E Hr. destruct (go_filed _ Hg i e E) as (Fd & Fo & Fh & Fb). unfold requires_edge in Hr.
  destruct (domain (intent e) =? domain a) eqn:Ed; [|done]. cbn [negb] in Hr. reflect_bools. rewrite Ed in *.
  destruct (negb (writes (mode (intent e))) && _); [done|].
  unfold gather. cbn [fst]. rewrite elem_of_app, key_candidates_in.
  destruct (may_alias_meet _ _ Hr) as [H|[H|[(h & H1 & H2)|(r1 & r2 & H1 & H2 & Eb)]]]; [left; auto|right; auto..].
  - right; left. eauto.
  - right; right. exists r2. split; [done|]. rewrite <- Eb. auto.
Qed.
Lemma gather_range g a i : graph_ok g → i ∈ (gather g a).1 → (i < length (entries g))%nat.
Proof.
  intros Hg. unfold gather. cbn [fst]. rewrite elem_of_app, key_candidates_in.
  pose proof (go_range _ Hg) as Hr. intros Hi. destruct Hi as [Hi|[[_ Hi]|[(h & _ & Hi)|(r & _ & Hi)]]];
    [apply (Hr (domain a))|apply (Hr (domain a))|apply (Hr h)|apply (Hr (backing r))]; rewrite !elem_of_app; auto.
Qed.

(** ** The waits of one transaction *)
Lemma binary_search_ok l x : StronglySorted Z.lt l →
  match binary_search l x with
  | inl _ => x ∈ l
  | inr i => (x ∉ l) ∧ StronglySorted Z.lt (take i l ++ x :: drop i l)
  end.
Proof.
  induction 1 as [|y l Hs IH Hy]; cbn; [split; [apply not_elem_of_nil|by repeat constructor]|].
  destruct (y =? x) eqn:E1; reflect_bools; [subst; left|].
  destruct (x <? y) eqn:E2; reflect_bools; cbn.
  - assert (Forall (Z.lt x) (y :: l)) as Hx.
    { constructor; [done|]. eapply Forall_impl; [done|]. cbn. lia. }
    split; [|by constructor; [constructor|]]. intros Hin. rewrite Forall_forall in Hx. specialize (Hx _ Hin). lia.
  - destruct (binary_search l x) as [i|i]; cbn; [by right|]. destruct IH as [Hn Hs']. split.
    + rewrite elem_of_cons. intros [?|?]; [lia|done].
    + constructor; [done|]. rewrite <- (take_drop i l) in Hy. apply Forall_app in Hy as [? ?].
      apply Forall_app; split; [done|]. constructor; [lia|done].
Qed.

Definition with_census (g : DependencyGraph) (c : Census) : DependencyGraph := g <| census := c |>.
Lemma graph_ok_census g c : graph_ok g → census_ok c → graph_ok (with_census g c).
Proof. intros [H1 H2 H3 H4 H5 _] Hc. by split. Qed.

(** An entry that makes the transaction [o] wait, through the access [a]. *)
Definition meets (o : Z) (a : AccessIntent) (e : Entry) : Prop :=
  live e = true ∧ ordinal e ≠ o ∧ requires_edge (intent e) a = true.

(** The census of [c'] has the edges that made the waits grow. *)
Definition charged (c c' : Census) (waits waits' : list Z) : Prop :=
  census_ok c' ∧ edges c' = edges c + Z.of_nat (length waits') - Z.of_nat (length waits).

Lemma consider_ok o a waits g i e :
  census_ok (census g) → StronglySorted Z.lt waits → entries g !! i = Some e →
  ∃ waits' c, consider o a (waits, g) i = Some (waits', with_census g c) ∧ StronglySorted Z.lt waits' ∧
    charged (census g) c waits waits' ∧ ∀ x, x ∈ waits' ↔ x ∈ waits ∨ (meets o a e ∧ x = ordinal e).
Proof.
  intros Hc Hs E. unfold consider. rewrite E.
  assert (∃ waits' c, Some (waits, g) = Some (waits', with_census g c) ∧ StronglySorted Z.lt waits' ∧
    charged (census g) c waits waits' ∧ waits' = waits) as (w & c & Hid & ? & ? & ->).
  { exists waits, (census g). split; [by destruct g|]. split; [done|]. split; [split; [done|lia]|done]. }
  assert (¬ meets o a e → ∀ x, x ∈ waits ↔ x ∈ waits ∨ (meets o a e ∧ x = ordinal e)) as Hno.
  { intros Hm x. split; [by left|]. by intros [?|[? _]]. }
  destruct (negb (live e) || (ordinal e =? o)) eqn:E1.
  { exists waits, c. split_and!; try done. apply Hno. intros (? & ? & _).
    apply orb_true_iff in E1 as [E1|E1]; reflect_bools; congruence. }
  destruct (negb (requires_edge (intent e) a)) eqn:E2.
  { exists waits, c. split_and!; try done. apply Hno. intros (_ & _ & ?). reflect_bools. congruence. }
  reflect_bools. pose proof (binary_search_ok waits (ordinal e) Hs) as Hb.
  destruct (binary_search waits (ordinal e)) as [k|k].
  { exists waits, c. split_and!; try done. intros x. split; [by left|]. by intros [?|[_ ->]]. }
  destruct Hb as [Hn Hs']. set (unknown := _ || _). eexists _, _. split; [reflexivity|]. split; [done|]. split.
  - destruct Hc as [? ?]. split; [destruct unknown; split; cbn; try done; lia|].
    rewrite !length_app. cbn. pose proof (length_take waits k). pose proof (length_drop waits k).
    destruct unknown; cbn; rewrite ?length_take, ?length_drop; lia.
  - intros x. rewrite elem_of_app, elem_of_cons. rewrite <- (take_drop k waits) at 3. rewrite elem_of_app.
    assert (meets o a e) by done. naive_solver.
Qed.

Lemma consider_all_ok o a ids : ∀ waits g,
  census_ok (census g) → StronglySorted Z.lt waits → (∀ i, i ∈ ids → (i < length (entries g))%nat) →
  ∃ waits' c, consider_all o a (waits, g) ids = Some (waits', with_census g c) ∧ StronglySorted Z.lt waits' ∧
    charged (census g) c waits waits' ∧
    ∀ x, x ∈ waits' ↔ x ∈ waits ∨ ∃ i e, i ∈ ids ∧ entries g !! i = Some e ∧ meets o a e ∧ x = ordinal e.
Proof.
  induction ids as [|i ids IH]; intros waits g Hc Hs Hi; cbn [consider_all].
  { exists waits, (census g). split; [by destruct g|]. split; [done|]. split; [split; [done|lia]|].
    intros x. split; [by left|]. intros [?|(i & e & ?%elem_of_nil & _)]; done. }
  destruct (lookup_lt_is_Some_2 (entries g) i) as [e E]; [apply Hi; left|].
  destruct (consider_ok o a waits g i e Hc Hs E) as (w1 & c1 & -> & Hs1 & [Hc1 Hl1] & Hin1).
  destruct (IH w1 (with_census g c1)) as (w2 & c2 & -> & Hs2 & [Hc2 Hl2] & Hin2); [done..|by intros; apply Hi; right|].
  exists w2, c2. split; [done|]. split; [done|]. split; [split; [done|cbn in *; lia]|].
  intros x. rewrite Hin2, Hin1. split.
  - intros [[?|[? ->]]|(j & e' & ? & ? & ?)]; [by left|right; exists i, e; split; [left|done]|].
    right. exists j, e'. split; [by right|done].
  - intros [?|(j & e' & [->|?]%elem_of_cons & Hj & ? & ->)]; [by left; left|simplify_eq; left; right; done|].
    right. by exists j, e'.
Qed.

(** ** Filing an access *)
Lemma graph_insert_fields g o a :
  let g' := graph_insert g o a in
  let i := length (entries g) in
  entries g' = entries g ++ [mkEntry o a true] ∧ by_domain g' = push_at (by_domain g) (domain a) i ∧
  by_ordinal g' = push_at (by_ordinal g) o i ∧ census g' = count_access (census g) a ∧
  (∀ k j, j ∈ bucket (domain_only g') k ↔
     j ∈ bucket (domain_only g) k ∨ (key a = DomainOnly ∧ k = domain a ∧ j = i)) ∧
  (∀ k j, j ∈ bucket (by_heap g') k ↔ j ∈ bucket (by_heap g) k ∨ (heap_key (key a) = Some k ∧ j = i)) ∧
  (∀ k j, j ∈ bucket (by_backing g') k ↔
     j ∈ bucket (by_backing g) k ∨ (∃ r, resource (key a) = Some r ∧ k = backing r ∧ j = i)).
Proof.
  unfold graph_insert, index_key. destruct (key a) as [r ?|r ?|r|h|]; try (destruct (key_heap r) eqn:E); cbn;
    rewrite ?E; cbn; split_and!; try done; intros k j; rewrite ?bucket_push; naive_solver.
Qed.

Lemma graph_insert_ok g o a :
  graph_ok g → (∀ e, e ∈ entries g → ordinal e ≤ o) → graph_ok (graph_insert g o a).
Proof.
  intros Hg Ho. destruct (graph_insert_fields g o a) as (Ee & Ed & Eo & Ec & Fo & Fh & Fb).
  set (g' := graph_insert g o a) in *.
  assert (∀ i e, entries g' !! i = Some e →
    entries g !! i = Some e ∨ (i = length (entries g) ∧ e = mkEntry o a true)) as Hl.
  { intros i e. rewrite Ee. intros [?|[? ?]]%lookup_app_Some; [by left|]. right.
    apply list_lookup_singleton_Some in H0 as [? <-]. split; [lia|done]. }
  destruct Hg as [H1 H2 H3 H4 H5 [H6 H7]]. split.
  - rewrite Ee. apply StronglySorted_app_2; [|done|by repeat constructor].
    intros e e' He ->%list_elem_of_singleton. by apply Ho.
  - intros i e Hi. unfold filed. rewrite Ed, !bucket_push. destruct (Hl _ _ Hi) as [Hi'|[-> ->]]; cbn [intent].
    + destruct (H2 i e Hi') as (F1 & F2 & F3 & F4). split_and!; [by left|intros; apply Fo; left; auto|..].
      * intros h Hh. apply Fh. left. auto.
      * intros r Hr. apply Fb. left. auto.
    + split_and!; [by right|intros; apply Fo; by right|intros; apply Fh; by right|]. intros r Hr. apply Fb. right. eauto.
  - intros k i. rewrite Ee, length_app, !elem_of_app, Ed, bucket_push, Fo, Fh, Fb. cbn.
    specialize (H3 k i). rewrite !elem_of_app in H3. intros Hi. destruct (decide (i = length (entries g))); [lia|].
    assert (i < length (entries g))%nat; [apply H3|lia]. naive_solver.
  - intros o' i. rewrite Eo, bucket_push, Ee. intros [Hi|[-> ->]].
    + destruct (H4 o' i Hi) as (e & He & ?). exists e. split; [by apply lookup_app_l_Some|done].
    + exists (mkEntry o a true). split; [|done]. by apply list_lookup_middle.
  - intros i e Hi Hv. rewrite Eo, bucket_push. destruct (Hl _ _ Hi) as [Hi'|[-> ->]]; [left; auto|by right].
  - rewrite Ec. split; [|done]. cbn. by rewrite length_alter.
Qed.

(** ** Admission, retirement and compaction *)

(** The graph as what it stands for: the live accesses, oldest first. *)
Definition live_of (g : DependencyGraph) : list (Z * AccessIntent) :=
  (λ e, (ordinal e, intent e)) <$> filter (λ e, live e = true) (entries g).

Lemma live_of_in g o b : (o, b) ∈ live_of g ↔ ∃ e, e ∈ entries g ∧ live e = true ∧ ordinal e = o ∧ intent e = b.
Proof.
  unfold live_of. rewrite list_elem_of_fmap. setoid_rewrite list_elem_of_filter.
  split; [intros (e & [= -> ->] & ? & ?); eauto|]. intros (e & ? & ? & <- & <-). eauto.
Qed.

Lemma admit_accesses_ok o accs : ∀ waits g,
  graph_ok g → (∀ e, e ∈ entries g → ordinal e ≤ o) → StronglySorted Z.lt waits →
  ∃ waits' g', admit_accesses o accs (waits, g) = Some (waits', g') ∧ graph_ok g' ∧
    entries g' = entries g ++ ((λ a, mkEntry o a true) <$> accs) ∧ StronglySorted Z.lt waits' ∧
    edges (census g') = edges (census g) + Z.of_nat (length waits') - Z.of_nat (length waits) ∧
    ∀ x, x ∈ waits' ↔ x ∈ waits ∨ ∃ e a, e ∈ entries g ∧ a ∈ accs ∧ meets o a e ∧ x = ordinal e.
Proof.
  induction accs as [|a accs IH]; intros waits g Hg Ho Hs; cbn [admit_accesses].
  { exists waits, g. rewrite app_nil_r. split_and!; try done; [lia|]. intros x. split; [by left|].
    intros [?|(e & a & _ & ?%elem_of_nil & _)]; done. }
  set (c1 := census (gather g a).2). assert (gather g a = ((gather g a).1, with_census g c1)) as -> by done.
  assert (graph_ok (with_census g c1)) as Hg1 by (by apply graph_ok_census, (go_census _ Hg)).
  destruct (consider_all_ok o a (gather g a).1 waits (with_census g c1)) as (w1 & c2 & -> & Hs1 & [Hc2 Hl2] & Hin1);
    [apply Hg1|done|intros i Hi; by apply (gather_range g a)|].
  assert (graph_ok (with_census g c2)) as Hg2 by (by apply graph_ok_census).
  destruct (graph_insert_fields (with_census g c2) o a) as (Ee & _ & _ & Ec & _).
  destruct (IH w1 (graph_insert (with_census g c2) o a)) as (w2 & g2 & E2 & Hok & Een & Hs2 & Hl & Hin2); [by apply graph_insert_ok|..|done|].
  { rewrite Ee. intros e [He|He%list_elem_of_singleton]%elem_of_app; [by apply Ho|by subst]. }
  exists w2, g2. split; [exact E2|]. split; [done|]. split; [rewrite Een, Ee, <- app_assoc; done|]. split; [done|].
  split. { rewrite Hl, Ec. cbn in *. lia. }
  intros x. rewrite Hin2, Hin1, Ee. split.
  - intros [[?|(i & e & Hi & E & Hm & ->)]|(e & a' & [He|He]%elem_of_app & ? & Hm & ->)]; [by left|right..].
    + exists e, a. split_and!; [by eapply list_elem_of_lookup_2|left|done..].
    + exists e, a'. split_and!; [done|by right|done..].
    + apply list_elem_of_singleton in He as ->. by destruct Hm as (_ & [] & _).
  - intros [?|(e & a' & He & [->|?]%elem_of_cons & Hm & ->)]; [by left; left| |].
    + left; right. apply list_elem_of_lookup in He as [i Ei]. exists i, e. split_and!; try done.
      eapply gather_complete; [done..|apply Hm].
    + right. exists e, a'. split_and!; try done. apply elem_of_app. by left.
Qed.

Lemma graph_admit_ok g o accs :
  graph_ok g → (∀ e, e ∈ entries g → ordinal e < o) →
  ∃ waits g', graph_admit g o accs = Some (waits, g') ∧ graph_ok g' ∧
    live_of g' = live_of g ++ ((λ a, (o, a)) <$> accs) ∧ (∀ e, e ∈ entries g' → e ∈ entries g ∨ ordinal e = o) ∧
    StronglySorted Z.lt waits ∧ edges (census g') = edges (census g) + Z.of_nat (length waits) ∧
    ∀ x, x ∈ waits ↔ ∃ b a, (x, b) ∈ live_of g ∧ a ∈ accs ∧ requires_edge b a = true.
Proof.
  intros Hg Ho. unfold graph_admit.
  replace (match last (entries g) with None => true | Some l => ordinal l <? o end) with true.
  2:{ destruct (last (entries g)) as [l|] eqn:E; [|done]. symmetry. apply Z.ltb_lt, Ho. by apply last_Some_elem_of. }
  destruct (admit_accesses_ok o accs [] g Hg) as (w & g' & -> & Hok & Ee & Hs & Hl & Hin);
    [intros; apply Z.lt_le_incl; auto|constructor|].
  exists w, g'. split; [done|]. split; [done|]. split_and!; [| |done|cbn in Hl; lia|].
  - unfold live_of. rewrite Ee, filter_app, fmap_app. f_equal. clear. induction accs as [|a accs IH]; [done|].
    cbn. rewrite decide_True by done. cbn. f_equal. exact IH.
  - rewrite Ee. intros e [?|(a & -> & _)%list_elem_of_fmap]%elem_of_app; [by left|by right].
  - intros x. rewrite Hin. split.
    + intros [?%elem_of_nil|(e & a & He & Ha & (Hv & _ & Hr) & ->)]; [done|]. exists (intent e), a. split_and!; try done.
      apply live_of_in. eauto.
    + intros (b & a & (e & He & Hv & <- & <-)%live_of_in & Ha & Hr). right. exists e, a. split_and!; try done.
      split_and!; try done. specialize (Ho e He). lia.
Qed.

Definition dead (e : Entry) : Entry := mkEntry (ordinal e) (intent e) false.
Lemma kill_ok ids : ∀ es, (∀ i, i ∈ ids → (i < length es)%nat) →
  ∃ es', kill es ids = Some es' ∧ length es' = length es ∧
    ∀ j e, es !! j = Some e → es' !! j = Some (if bool_decide (j ∈ ids) then dead e else e).
Proof.
  induction ids as [|i ids IH]; intros es Hi; cbn.
  { by exists es. }
  destruct (lookup_lt_is_Some_2 es i) as [e E]; [apply Hi; left|]. rewrite E.
  destruct (IH (<[i := dead e]> es)) as (es' & Ek & Hl & Hj).
  { intros j ?. rewrite length_insert. apply Hi. by right. }
  exists es'. split; [exact Ek|]. split; [by rewrite Hl, length_insert|]. intros j e' Ej.
  destruct (decide (i = j)) as [->|Hne].
  - simplify_eq. rewrite (Hj j (dead e)) by (apply list_lookup_insert_eq; by eapply lookup_lt_Some).
    rewrite (bool_decide_true (j ∈ j :: ids)) by left. by case_bool_decide.
  - rewrite (Hj j e') by (by rewrite list_lookup_insert_ne). f_equal.
    erewrite bool_decide_ext; [done|]. rewrite elem_of_cons. naive_solver.
Qed.

Definition retired (o : Z) (e : Entry) : Entry := if ordinal e =? o then dead e else e.

Lemma graph_retire_fields g o :
  graph_ok g → ∃ g', graph_retire g o = Some g' ∧ g' = g <| entries := retired o <$> entries g |> <| by_ordinal := base.delete o (by_ordinal g) |>.
Proof.
  intros Hg. unfold graph_retire. destruct (kill_ok (bucket (by_ordinal g) o) (entries g)) as (es & -> & Hl & Hj).
  { intros i Hi. destruct (go_ordinal _ Hg o i Hi) as (e & He & _). by eapply lookup_lt_Some. }
  eexists; split; [done|]. replace es with (retired o <$> entries g); [done|].
  apply list_eq_same_length with (length es); [done|by rewrite length_fmap|].
  intros i x y _ Hx Hy. apply list_lookup_fmap_Some in Hx as (e & -> & He). rewrite (Hj i e He) in Hy. simplify_eq.
  unfold retired. destruct (ordinal e =? o) eqn:Eo; reflect_bools; case_bool_decide as Hin; try done.
  - destruct (live e) eqn:Ev; [|by destruct e; cbn in *; subst]. destruct Hin. rewrite <- Eo. by apply (go_live _ Hg).
  - destruct (go_ordinal _ Hg o i Hin) as (e' & ? & ?). by simplify_eq.
Qed.

Lemma retired_ordinal o e : ordinal (retired o e) = ordinal e.
Proof. unfold retired. by destruct (ordinal e =? o). Qed.
Lemma retired_intent o e : intent (retired o e) = intent e.
Proof. unfold retired. by destruct (ordinal e =? o). Qed.

Lemma retired_live o e : live (retired o e) = true ↔ live e = true ∧ ordinal e ≠ o.
Proof. unfold retired. destruct (ordinal e =? o) eqn:E; reflect_bools; cbn; naive_solver. Qed.

Lemma graph_retire_ok g o :
  graph_ok g → ∃ g', graph_retire g o = Some g' ∧ graph_ok g' ∧ live_of g' = filter (λ p, p.1 ≠ o) (live_of g) ∧
    census g' = census g ∧ (∀ e, e ∈ entries g' → ∃ e0, e0 ∈ entries g ∧ ordinal e0 = ordinal e).
Proof.
  intros Hg. destruct (graph_retire_fields g o Hg) as (g' & -> & Eg). exists g'. split; [done|].
  assert (entries g' = retired o <$> entries g) as Ee by (by rewrite Eg).
  assert (∀ i e, entries g' !! i = Some e → ∃ e0, entries g !! i = Some e0 ∧ e = retired o e0) as Hl.
  { intros i e. rewrite Ee. intros (e0 & -> & ?)%list_lookup_fmap_Some. eauto. }
  split; [|split; [|split; [by rewrite Eg|]]].
  - split.
    + rewrite Ee. apply StronglySorted_fmap with in_order; [|apply Hg].
      intros e e'. unfold in_order. by rewrite !retired_ordinal.
    + intros i e Hi. destruct (Hl _ _ Hi) as (e0 & ? & ->). rewrite retired_intent. rewrite Eg. by apply (go_filed _ Hg).
    + intros k i. rewrite Ee, length_fmap. rewrite Eg. apply (go_range _ Hg).
    + intros o' i. rewrite Ee. rewrite Eg. cbn. unfold bucket at 1. destruct (decide (o' = o)) as [->|Hne].
      { rewrite lookup_delete_eq. by intros ?%elem_of_nil. }
      rewrite lookup_delete_ne by done. intros Hi. destruct (go_ordinal _ Hg o' i Hi) as (e & He & Eo).
      exists (retired o e). split; [by rewrite list_lookup_fmap, He|]. by rewrite retired_ordinal.
    + intros i e Hi Hv. destruct (Hl _ _ Hi) as (e0 & He0 & ->). rewrite retired_ordinal.
      assert (ordinal e0 ≠ o) as Hne. { intros <-. unfold retired in Hv. by rewrite Z.eqb_refl in Hv. }
      rewrite Eg. cbn. unfold bucket. rewrite lookup_delete_ne by done. apply (go_live _ Hg i e0 He0).
      unfold retired in Hv. by rewrite (proj2 (Z.eqb_neq _ _) Hne) in Hv.
    + rewrite Eg. apply (go_census _ Hg).
  - unfold live_of. rewrite Ee. clear. induction (entries g) as [|e es IH]; [done|].
    rewrite fmap_cons, !filter_cons. pose proof (retired_live o e) as Hv.
    destruct (decide (live (retired o e) = true)) as [H1|H1], (decide (live e = true)) as [H2|H2]; cbn [fmap list_fmap];
      rewrite ?filter_cons; cbn [fst]; try (destruct (decide (ordinal e ≠ o))); try (by exfalso; tauto); try done.
    f_equal; [by rewrite retired_ordinal, retired_intent|exact IH].
  - rewrite Ee. intros e (e0 & -> & ?)%list_elem_of_fmap. exists e0. by rewrite retired_ordinal.
Qed.

Lemma insert_all_ok es : ∀ g, graph_ok g → (∀ e, e ∈ es → live e = true) →
  StronglySorted in_order (entries g ++ es) →
  let g' := foldl (λ g e, graph_insert g (ordinal e) (intent e)) g es in
  graph_ok g' ∧ entries g' = entries g ++ es.
Proof.
  induction es as [|e es IH]; intros g Hg Hv Hs; cbn; [by rewrite app_nil_r|].
  destruct (graph_insert_fields g (ordinal e) (intent e)) as (Ee & _).
  assert (mkEntry (ordinal e) (intent e) true = e) as E. { destruct e as [? ? v]; cbn. by rewrite <- (Hv (mkEntry _ _ v)) at 1 by left. }
  rewrite E in Ee. destruct (IH (graph_insert g (ordinal e) (intent e))) as [Hok Ek].
  - apply graph_insert_ok; [done|]. intros e' He'.
    by apply (StronglySorted_app_1_elem_of _ _ _ e' e) in Hs; [|done|left].
  - intros ? ?. apply Hv. by right.
  - by rewrite Ee, <- app_assoc.
  - split; [done|]. by rewrite Ek, Ee, <- app_assoc.
Qed.

Lemma StronglySorted_kept {A} (R : relation A) (P : A → Prop) `{∀ x, Decision (P x)} l :
  StronglySorted R l → StronglySorted R (filter P l).
Proof.
  induction 1 as [|x l Hs IH Hx]; [constructor|]. rewrite filter_cons. case_decide; [|done].
  constructor; [done|]. rewrite Forall_forall in *. intros y [_ Hy]%list_elem_of_filter. auto.
Qed.

Lemma graph_compact_ok g : graph_ok g →
  let g' := graph_compact g in
  graph_ok g' ∧ live_of g' = live_of g ∧ census g' = census g ∧ (∀ e, e ∈ entries g' → e ∈ entries g).
Proof.
  intros Hg. unfold graph_compact. set (kept := filter _ _).
  destruct (insert_all_ok kept (with_census empty_graph (census g))) as [Hok Ee].
  { apply graph_ok_census; [apply empty_graph_ok|apply Hg]. }
  { intros e [? _]%list_elem_of_filter. done. }
  { cbn. apply StronglySorted_kept, Hg. }
  set (g1 := foldl _ _ _) in *. change (entries (with_census empty_graph (census g)) ++ kept) with kept in Ee.
  change (g1 <| census := census g |>) with (with_census g1 (census g)).
  split; [apply graph_ok_census; [done|apply Hg]|]. split; [|split; [done|]].
  - unfold live_of. cbn. rewrite Ee. f_equal. unfold kept. rewrite list_filter_filter. apply list_filter_iff. naive_solver.
  - cbn. rewrite Ee. by intros e [_ ?]%list_elem_of_filter.
Qed.

(** ** The graph against its reference *)

(** The reference compares every live access with every new one. *)
Definition conflicts (accs : list AccessIntent) (p : Z * AccessIntent) : Prop := existsb (requires_edge p.2) accs = true.
#[export] Instance conflicts_dec accs p : Decision (conflicts accs p).
Proof. unfold conflicts. apply _. Defined.
Definition waits_of (held : list (Z * AccessIntent)) (accs : list AccessIntent) : list Z :=
  merge_sort Z.le (remove_dups (fst <$> filter (conflicts accs) held)).

Lemma conflicts_spec accs p : conflicts accs p ↔ ∃ a, a ∈ accs ∧ requires_edge p.2 a = true.
Proof. unfold conflicts. rewrite existsb_exists. by setoid_rewrite list_elem_of_In. Qed.

#[export] Instance Z_le_trans : Transitive Z.le.
Proof. intros ???. lia. Qed.
#[export] Instance Z_le_total : Total Z.le.
Proof. intros ??. lia. Qed.

Lemma waits_of_unique held accs waits :
  StronglySorted Z.lt waits → (∀ x, x ∈ waits ↔ ∃ b a, (x, b) ∈ held ∧ a ∈ accs ∧ requires_edge b a = true) →
  waits = waits_of held accs.
Proof.
  intros Hs Hin. assert (NoDup waits) as Hnd.
  { clear Hin. induction Hs as [|x l Hl IH Hx]; constructor; [|done]. intros Hin. rewrite Forall_forall in Hx. specialize (Hx _ Hin). lia. }
  apply (StronglySorted_unique Z.le).
  - clear Hin Hnd. induction Hs as [|x l Hl IH Hx]; constructor; [done|]. eapply Forall_impl; [done|]. cbn. lia.
  - apply StronglySorted_merge_sort; apply _.
  - unfold waits_of. rewrite merge_sort_Permutation. apply NoDup_Permutation; [done|apply NoDup_remove_dups|].
    intros x. rewrite Hin, elem_of_remove_dups, list_elem_of_fmap. split.
    + intros (b & a & ? & ? & ?). exists (x, b). split; [done|]. apply list_elem_of_filter. rewrite conflicts_spec. eauto.
    + intros ([x' b] & -> & [(a & ? & ?)%conflicts_spec ?]%list_elem_of_filter). eauto.
Qed.

Inductive graph_op := Admit (o : Z) (accs : list AccessIntent) | Retire (o : Z) | Compact.

(** The calls in order, and the answers of the admissions. *)
Fixpoint graph_run (g : DependencyGraph) (ops : list graph_op) : option (list (list Z) * DependencyGraph) :=
  match ops with
  | [] => Some ([], g)
  | Admit o accs :: ops =>
      '(waits, g) ← graph_admit g o accs; '(answers, g) ← graph_run g ops; Some (waits :: answers, g)
  | Retire o :: ops => g ← graph_retire g o; graph_run g ops
  | Compact :: ops => graph_run (graph_compact g) ops
  end.
Fixpoint reference_run (held : list (Z * AccessIntent)) (ops : list graph_op) : list (list Z) :=
  match ops with
  | [] => []
  | Admit o accs :: ops => waits_of held accs :: reference_run (held ++ ((λ a, (o, a)) <$> accs)) ops
  | Retire o :: ops => reference_run (filter (λ p, p.1 ≠ o) held) ops
  | Compact :: ops => reference_run held ops
  end.

(** Transactions come in ingress order. *)
Fixpoint in_ingress_order (lo : Z) (ops : list graph_op) : Prop :=
  match ops with
  | [] => True
  | Admit o _ :: ops => lo < o ∧ in_ingress_order o ops
  | _ :: ops => in_ingress_order lo ops
  end.

Definition edge_count (answers : list (list Z)) : Z := foldr (λ l n, Z.of_nat (length l) + n) 0 answers.

Lemma graph_run_ok ops : ∀ lo g, graph_ok g → (∀ e, e ∈ entries g → ordinal e ≤ lo) → in_ingress_order lo ops →
  ∃ g', graph_run g ops = Some (reference_run (live_of g) ops, g') ∧ graph_ok g' ∧
    edges (census g') = edges (census g) + edge_count (reference_run (live_of g) ops).
Proof.
  induction ops as [|[o accs|o|] ops IH]; intros lo g Hg Hlo Hin; cbn.
  - exists g. split_and!; [done..|lia].
  - destruct Hin as [Ho Hin].
    destruct (graph_admit_ok g o accs Hg) as (w & g1 & -> & Hg1 & Hl & He & Hs & Hc & Hw).
    { intros e ?. specialize (Hlo e). naive_solver lia. }
    cbn. destruct (IH o g1 Hg1) as (g2 & -> & Hg2 & Hc2); [|done|].
    { intros e [?%Hlo| ->]%He; lia. }
    rewrite <- (waits_of_unique _ _ _ Hs Hw), <- Hl. exists g2. split_and!; [done..|unfold edge_count in *; cbn; lia].
  - destruct (graph_retire_ok g o Hg) as (g1 & -> & Hg1 & <- & Hc & He). cbn. rewrite <- Hc.
    apply (IH lo); [done| |done]. intros e (e0 & ?%Hlo & <-)%He. done.
  - destruct (graph_compact_ok g Hg) as (Hg1 & <- & <- & He). apply (IH lo); auto.
Qed.

(** C12: The hazard compiler is exact.  When transactions are admitted in ingress order, with
    retirements and compactions anywhere in between, no index leads out of the list, every
    admission answers with the earlier unretired transactions it conflicts with, sorted and
    each once, as a comparison with every live access does; and the census counts exactly the
    edges of those answers. *)
Theorem hazards_exact ops :
  in_ingress_order 0 ops →
  ∃ g, graph_run empty_graph ops = Some (reference_run [] ops, g) ∧
    edges (census g) = edge_count (reference_run [] ops) ∧
    0 ≤ edges_from_unknown_mode (census g) ≤ edges (census g).
Proof.
  intros Hin. destruct (graph_run_ok ops 0 empty_graph) as (g & E & Hg & Hc); [apply empty_graph_ok|by intros e ?%elem_of_nil|done|].
  exists g. split; [exact E|]. split; [exact Hc|]. apply (go_census _ Hg).
Qed.

(** A write, a read of the same buffer, work on another one, and after the write's
    completion another reader. *)
Definition demo_access (b : Z) (m : AccessMode) : AccessIntent :=
  mkIntent 1 (Whole (mkResKey b None)) m 0 None None.
Definition demo_hazards : list graph_op :=
  [Admit 1 [demo_access 5 Write]; Admit 2 [demo_access 5 Read; demo_access 6 Write]; Admit 3 [demo_access 7 Unknown];
   Retire 1; Compact; Admit 4 [demo_access 6 Read; demo_access 5 ReadWrite]].

Lemma hazards_exact_witness :
  ∃ g, graph_run empty_graph demo_hazards = Some ([[]; [1]; []; [2]], g) ∧ edges (census g) = 2.
Proof.
  destruct (hazards_exact demo_hazards) as (g & E & Hc & _); [cbn; lia|].
  assert (reference_run [] demo_hazards = [[]; [1]; []; [2]]) as Er by (vm_compute; reflexivity).
  rewrite Er in E, Hc. exists g. split; [exact E|exact Hc].
Defined.
