(* ===== verification/Ready.v ===== *)
(** The readiness service: src/reims-vgpu/crates/reims-vgpu-core/src/ready.rs, with the
    completion stamps of identity.rs.

    A transaction may begin when the earlier work it must not overtake has completed, the
    stamps it waits for are published and its pipelines are built.  The source counts the
    first, and finds the waiters of a stamp slot or a pipeline through indexes.  A call that
    would panic (completing what is not pending, or counting below zero) returns [None].
    Sets and maps the source iterates over in key order are walked in that order. *)
From S2P Require Import Prelude RangeSet Access Depend.

(** ** Stamps *)

(** StampValue: a point on a 32-bit timeline that wraps. *)
Definition reached (self other : Z) : bool := 0 <=? s32 (self - other).
Definition follows (self other : Z) : bool := 0 <? s32 (self - other).
Definition later (self other : Z) : Z := if follows self other then self else other.
Definition stamp_next (self : Z) : Z := u32 (self + 1).

Record CompletionStamp := mkStamp { stamp_slot : Z; stamp_value : Z }.
Record StampWait := mkWait { wait_slot : Z; wait_value : Z }.
Definition satisfied_by (w : StampWait) (published : Z) : bool := reached published (wait_value w).

(** ** The scheduler *)
Record Pending := mkPending {
  remaining_hazards : nat; stamp_waits : list StampWait; registered_slots : list Z;
  pipeline_waits : list ResourceId; completion : option CompletionStamp }.
#[export] Instance eta_pending : Settable Pending := λ p,
  mkPending (remaining_hazards p) (stamp_waits p) (registered_slots p) (pipeline_waits p) (completion p).

Definition is_nil {A} (l : list A) : bool := match l with [] => true | _ => false end.
Definition is_ready (p : Pending) : bool :=
  (remaining_hazards p =? 0)%nat && is_nil (stamp_waits p) && is_nil (pipeline_waits p).

Record Scheduler := mkScheduler {
  pending : gmap Z Pending; published : gmap Z Z; waiters_by_slot : gmap Z (gset Z);
  waiters_by_pipeline : gmap ResourceId (gset Z); dependents : gmap Z (list Z); ready : gset Z }.
#[export] Instance eta_scheduler : Settable Scheduler := λ s,
  mkScheduler (pending s) (published s) (waiters_by_slot s) (waiters_by_pipeline s) (dependents s) (ready s).
Definition empty_scheduler : Scheduler := mkScheduler ∅ ∅ ∅ ∅ ∅ ∅.

(** The members of a BTreeSet, in order. *)
Definition ascending (s : gset Z) : list Z := merge_sort Z.le (elements s).
Definition set_at {K} `{Countable K} (m : gmap K (gset Z)) (k : K) : gset Z := default ∅ (m !! k).
Definition file {K} `{Countable K} (o : Z) (m : gmap K (gset Z)) (k : K) : gmap K (gset Z) :=
  <[k := {[o]} ∪ set_at m k]> m.
(** Takes [o] out of a set of the map, and drops the set when that empties it. *)
Definition unfile {K} `{Countable K} (o : Z) (m : gmap K (gset Z)) (k : K) : gmap K (gset Z) :=
  match m !! k with
  | None => m
  | Some set => if decide (set ∖ {[o]} = ∅) then base.delete k m else <[k := set ∖ {[o]}]> m
  end.

Definition is_published (s : Scheduler) (w : StampWait) : bool :=
  match published s !! wait_slot w with Some v => satisfied_by w v | None => false end.
Definition published_value (s : Scheduler) (slot : Z) : option Z := published s !! slot.

Definition push_dep (o : Z) (m : gmap Z (list Z)) (d : Z) : gmap Z (list Z) := <[d := default [] (m !! d) ++ [o]]> m.
Definition sched_admit (s : Scheduler) (o : Z) (hazards : list Z) (waits : list StampWait)
    (pipes : list ResourceId) (c : option CompletionStamp) : bool * Scheduler :=
  let live := filter (λ d, is_Some (pending s !! d)) hazards in
  let unmet := filter (λ w, is_published s w = false) waits in
  let s := s <| waiters_by_slot := foldl (file o) (waiters_by_slot s) (wait_slot <$> unmet) |> in
  let s := s <| dependents := foldl (push_dep o) (dependents s) live |> in
  let s := s <| waiters_by_pipeline := foldl (file o) (waiters_by_pipeline s) pipes |> in
  let now := is_nil live && is_nil unmet && is_nil pipes in
  let slots := merge_sort Z.le (remove_dups (wait_slot <$> unmet)) in
  let s := s <| pending := <[o := mkPending (length live) unmet slots pipes c]> (pending s) |> in
  (now, if now then s <| ready := {[o]} ∪ ready s |> else s).

Definition unregister_slots (s : Scheduler) (o : Z) (slots : list Z) : Scheduler :=
  s <| waiters_by_slot := foldl (unfile o) (waiters_by_slot s) slots |>.

(** One dependent of a completed transaction. *)
Definition release (s : Scheduler) (dep : Z) : option Scheduler :=
  match pending s !! dep with
  | None => Some s
  | Some p =>
      match remaining_hazards p with
      | O => None
      | S n =>
          let p := p <| remaining_hazards := n |> in
          let s := s <| pending := <[dep := p]> (pending s) |> in
          Some (if is_ready p then s <| ready := {[dep]} ∪ ready s |> else s)
      end
  end.
Fixpoint release_all (s : Scheduler) (deps : list Z) : option Scheduler :=
  match deps with
  | [] => Some s
  | d :: deps => match release s d with Some s => release_all s deps | None => None end
  end.
Definition sched_complete (s : Scheduler) (o : Z) : option (option CompletionStamp * Scheduler) :=
  match pending s !! o with
  | None => None
  | Some p =>
      let s := s <| pending := base.delete o (pending s) |> in
      let s := s <| ready := ready s ∖ {[o]} |> in
      let s := unregister_slots s o (registered_slots p) in
      let s := s <| waiters_by_pipeline := foldl (unfile o) (waiters_by_pipeline s) (pipeline_waits p) |> in
      let deps := default [] (dependents s !! o) in
      let s := s <| dependents := base.delete o (dependents s) |> in
      match release_all s deps with Some s => Some (completion p, s) | None => None end
  end.

(** One waiter of a slot that now stands at [v]; the waiters left without a stamp wait are
    collected with the slots they were filed under. *)
Definition discharge (slot v : Z) (st : Scheduler * list (Z * list Z)) (w : Z) : Scheduler * list (Z * list Z) :=
  let '(s, discharged) := st in
  match pending s !! w with
  | None => st
  | Some p =>
      let left := filter (λ x, negb (wait_slot x =? slot) || negb (satisfied_by x v) = true) (stamp_waits p) in
      let p := p <| stamp_waits := left |> in
      let s := s <| pending := <[w := p]> (pending s) |> in
      if is_nil left then
        (if is_ready p then s <| ready := {[w]} ∪ ready s |> else s, discharged ++ [(w, registered_slots p)])
      else (s, discharged)
  end.
Definition sched_publish (s : Scheduler) (stamp : CompletionStamp) : Scheduler :=
  let slot := stamp_slot stamp in
  let v := later (default (stamp_value stamp) (published s !! slot)) (stamp_value stamp) in
  let s := s <| published := <[slot := v]> (published s) |> in
  match waiters_by_slot s !! slot with
  | None => s
  | Some waiters =>
      let '(s, discharged) := foldl (discharge slot v) (s, []) (ascending waiters) in
      foldl (λ s p, unregister_slots s p.1 p.2) s discharged
  end.

Definition built (pipeline : ResourceId) (s : Scheduler) (w : Z) : Scheduler :=
  match pending s !! w with
  | None => s
  | Some p =>
      let p := p <| pipeline_waits := filter (λ id, id ≠ pipeline) (pipeline_waits p) |> in
      let s := s <| pending := <[w := p]> (pending s) |> in
      if is_ready p then s <| ready := {[w]} ∪ ready s |> else s
  end.
Definition sched_pipeline_ready (s : Scheduler) (pipeline : ResourceId) : Scheduler :=
  match waiters_by_pipeline s !! pipeline with
  | None => s
  | Some waiters =>
      let s := s <| waiters_by_pipeline := base.delete pipeline (waiters_by_pipeline s) |> in
      foldl (built pipeline) s (ascending waiters)
  end.
Definition sched_pipeline_refused (s : Scheduler) (pipeline : ResourceId) : list Z * Scheduler :=
  match waiters_by_pipeline s !! pipeline with
  | None => ([], s)
  | Some waiters =>
      (filter (λ w, is_Some (pending s !! w)) (ascending waiters),
       s <| waiters_by_pipeline := base.delete pipeline (waiters_by_pipeline s) |>)
  end.

Definition sched_take_ready (s : Scheduler) : list Z * Scheduler := (ascending (ready s), s <| ready := ∅ |>).
Definition pending_count (s : Scheduler) : nat := size (pending s).
Definition waiting_on_pipelines (s : Scheduler) : nat :=
  size (filter (λ kv : Z * Pending, pipeline_waits kv.2 ≠ []) (pending s)).

(** stalled: the transactions waiting for a stamp that no pending transaction publishes. *)
Definition publishable (s : Scheduler) : gmap Z Z :=
  foldl (λ m o,
    match pending s !! o ≫= completion with
    | Some c => <[stamp_slot c := match m !! stamp_slot c with
                                  | Some v => later v (stamp_value c)
                                  | None => stamp_value c
                                  end]> m
    | None => m
    end) ∅ (ascending (dom (pending s))).
Definition answered (m : gmap Z Z) (w : StampWait) : bool :=
  match m !! wait_slot w with Some highest => reached highest (wait_value w) | None => false end.
Definition stalls (s : Scheduler) (m : gmap Z Z) (o : Z) : bool :=
  match pending s !! o with Some p => existsb (λ w, negb (answered m w)) (stamp_waits p) | None => false end.
Definition stalled (s : Scheduler) : list Z :=
  filter (λ o, stalls s (publishable s) o = true) (ascending (dom (pending s))).

(** ** The reference

    The same service without counts or indexes: each transaction lists what it still waits
    for, and every event goes through all of them. *)
Record task := mkTask {
  t_hazards : list Z; t_stamps : list StampWait; t_pipes : list ResourceId; t_stuck : bool;
  t_completion : option CompletionStamp }.
#[export] Instance eta_task : Settable task := λ t,
  mkTask (t_hazards t) (t_stamps t) (t_pipes t) (t_stuck t) (t_completion t).
Record plain := mkPlain { tasks : gmap Z task; standing : gmap Z Z; handed : gset Z }.
#[export] Instance eta_plain : Settable plain := λ p, mkPlain (tasks p) (standing p) (handed p).

Definition free (t : task) : bool := is_nil (t_hazards t) && is_nil (t_stamps t) && is_nil (t_pipes t) && negb (t_stuck t).
Definition stands (m : gmap Z Z) (w : StampWait) : bool :=
  match m !! wait_slot w with Some v => satisfied_by w v | None => false end.

Definition plain_admit (p : plain) (o : Z) (hazards : list Z) (waits : list StampWait)
    (pipes : list ResourceId) (c : option CompletionStamp) : plain :=
  p <| tasks := <[o := mkTask (filter (λ d, is_Some (tasks p !! d)) hazards)
                         (filter (λ w, stands (standing p) w = false) waits) pipes false c]> (tasks p) |>.
Definition plain_complete (p : plain) (o : Z) : plain :=
  (p <| tasks := (λ t, t <| t_hazards := filter (λ d, d ≠ o) (t_hazards t) |>) <$> base.delete o (tasks p) |>)
    <| handed := handed p ∖ {[o]} |>.
Definition plain_publish (p : plain) (stamp : CompletionStamp) : plain :=
  let v := later (default (stamp_value stamp) (standing p !! stamp_slot stamp)) (stamp_value stamp) in
  let m := <[stamp_slot stamp := v]> (standing p) in
  (p <| standing := m |>)
    <| tasks := (λ t, t <| t_stamps := filter (λ w, stands m w = false) (t_stamps t) |>) <$> tasks p |>.
Definition without (pl : ResourceId) (l : list ResourceId) : list ResourceId := filter (λ id, id ≠ pl) l.
Definition plain_pipeline_ready (p : plain) (pl : ResourceId) : plain :=
  p <| tasks := (λ t, t <| t_pipes := without pl (t_pipes t) |>) <$> tasks p |>.
Definition waits_pipe (pl : ResourceId) (t : task) : bool := bool_decide (pl ∈ t_pipes t).
Definition plain_pipeline_refused (p : plain) (pl : ResourceId) : list Z * plain :=
  (ascending (dom (filter (λ kv : Z * task, waits_pipe pl kv.2 = true) (tasks p))),
   p <| tasks := (λ t, (t <| t_stuck := t_stuck t || waits_pipe pl t |>) <| t_pipes := without pl (t_pipes t) |>) <$> tasks p |>).
Definition free_tasks (p : plain) : gset Z := dom (filter (λ kv : Z * task, free kv.2 = true) (tasks p)).
Definition plain_take_ready (p : plain) : list Z * plain :=
  (ascending (free_tasks p ∖ handed p), p <| handed := handed p ∪ free_tasks p |>).

(** ** Indexes of sets *)
Lemma ascending_in s x : x ∈ ascending s ↔ x ∈ s.
Proof. unfold ascending. by rewrite merge_sort_Permutation, elem_of_elements. Qed.
Lemma ascending_nodup s : NoDup (ascending s).
Proof. unfold ascending. rewrite merge_sort_Permutation. apply NoDup_elements. Qed.
Lemma ascending_ext s t : (∀ x, x ∈ s ↔ x ∈ t) → ascending s = ascending t.
Proof. intros H. f_equal. by apply set_eq. Qed.
Lemma is_nil_spec {A} (l : list A) : is_nil l = true ↔ l = [].
Proof. by destruct l. Qed.

Section filing.
Context `{Countable K}.
Implicit Types m : gmap K (gset Z).

Definition no_empty m : Prop := ∀ k X, m !! k = Some X → X ≠ ∅.

Lemma file_in o ks : ∀ m k x, x ∈ set_at (foldl (file o) m ks) k ↔ x ∈ set_at m k ∨ (x = o ∧ k ∈ ks).
Proof.
  induction ks as [|k0 ks IH]; intros m k x; cbn; [set_solver|]. rewrite IH, elem_of_cons. unfold file, set_at at 1.
  destruct (decide (k0 = k)) as [->|Hne]; [rewrite lookup_insert_eq; cbn; set_solver|].
  rewrite lookup_insert_ne by done. unfold set_at. naive_solver.
Qed.
Lemma file_no_empty o ks : ∀ m, no_empty m → no_empty (foldl (file o) m ks).
Proof.
  induction ks as [|k0 ks IH]; intros m Hm; cbn; [done|]. apply IH. intros k X. unfold file.
  destruct (decide (k0 = k)) as [->|Hne]; [rewrite lookup_insert_eq; intros [= <-]; set_solver|].
  rewrite lookup_insert_ne by done. apply Hm.
Qed.

Lemma unfile_step o m k0 k x : x ∈ set_at (unfile o m k0) k ↔ x ∈ set_at m k ∧ ¬ (x = o ∧ k = k0).
Proof.
  unfold unfile, set_at. destruct (m !! k0) as [X|] eqn:E.
  - destruct (decide (k = k0)) as [->|Hne].
    + rewrite E. cbn. case_decide as HX; [rewrite lookup_delete_eq; cbn; set_solver|].
      rewrite lookup_insert_eq. cbn. set_solver.
    + case_decide; [rewrite lookup_delete_ne by done|rewrite lookup_insert_ne by done]; naive_solver.
  - split; [|by intros [? _]]. intros Hx. split; [done|]. intros [-> ->]. by rewrite E in Hx.
Qed.
Lemma unfile_in o ks : ∀ m k x, x ∈ set_at (foldl (unfile o) m ks) k ↔ x ∈ set_at m k ∧ ¬ (x = o ∧ k ∈ ks).
Proof.
  induction ks as [|k0 ks IH]; intros m k x; cbn; [|rewrite IH, unfile_step, elem_of_cons; naive_solver].
  split; [|by intros [? _]]. intros ?. split; [done|]. by intros [_ ?%elem_of_nil].
Qed.
Lemma unfile_no_empty o ks : ∀ m, no_empty m → no_empty (foldl (unfile o) m ks).
Proof.
  induction ks as [|k0 ks IH]; intros m Hm; cbn; [done|]. apply IH. intros k X. unfold unfile.
  destruct (m !! k0) as [Y|] eqn:E; [|apply Hm]. destruct (decide (k0 = k)) as [->|Hne].
  - case_decide; [by rewrite lookup_delete_eq|]. rewrite lookup_insert_eq. by intros [= <-].
  - case_decide; [rewrite lookup_delete_ne by done|rewrite lookup_insert_ne by done]; apply Hm.
Qed.
End filing.

(** How often [x] occurs in a list. *)
Definition occ {A} `{EqDecision A} (x : A) (l : list A) : nat := length (filter (λ y, y = x) l).
#[global] Arguments occ : simpl never.
Lemma occ_cons {A} `{EqDecision A} (x y : A) l : occ x (y :: l) = ((if decide (y = x) then 1 else 0) + occ x l)%nat.
Proof. unfold occ. rewrite filter_cons. by case_decide. Qed.
Lemma occ_app {A} `{EqDecision A} (x : A) l l' : occ x (l ++ l') = (occ x l + occ x l')%nat.
Proof. unfold occ. by rewrite filter_app, length_app. Qed.
Lemma occ_in {A} `{EqDecision A} (x : A) l : x ∈ l ↔ (0 < occ x l)%nat.
Proof.
  induction l as [|y l IH]; [unfold occ; cbn; split; [by intros ?%elem_of_nil|lia]|].
  rewrite occ_cons, elem_of_cons, IH. destruct (decide (y = x)); naive_solver lia.
Qed.
Lemma occ_length (o : Z) l : (length (filter (λ d, d ≠ o) l) + occ o l)%nat = length l.
Proof. induction l as [|y l IH]; [done|]. rewrite occ_cons, filter_cons. cbn. repeat case_decide; cbn; naive_solver lia. Qed.
Lemma occ_filter_ne (d o : Z) l : d ≠ o → occ d (filter (λ x, x ≠ o) l) = occ d l.
Proof.
  intros Hne. induction l as [|y l IH]; [done|]. rewrite filter_cons. destruct (decide (y ≠ o)) as [Hy|Hy]; rewrite !occ_cons, ?IH; [done|].
  destruct (decide (y = d)); [|done]. subst. by destruct Hy.
Qed.

(** ** Agreement with the reference *)
Record task_of (q : Pending) (t : task) : Prop := {
  to_hazards : remaining_hazards q = length (t_hazards t);
  to_stamps : stamp_waits q = t_stamps t;
  to_completion : completion q = t_completion t;
  to_pipes pl : pl ∈ t_pipes t → pl ∈ pipeline_waits q;
  to_stuck : t_stuck t = true ↔ ∃ pl, pl ∈ pipeline_waits q ∧ pl ∉ t_pipes t }.

Definition deps_of (s : Scheduler) (d : Z) : list Z := default [] (dependents s !! d).

(** [lo] bounds the ordinals seen so far. *)
Record agrees (lo : Z) (s : Scheduler) (p : plain) : Prop := {
  ag_standing : standing p = published s;
  ag_dom o : is_Some (pending s !! o) ↔ is_Some (tasks p !! o);
  ag_task o q t : pending s !! o = Some q → tasks p !! o = Some t → task_of q t;
  ag_deps d o t : tasks p !! o = Some t → occ o (deps_of s d) = occ d (t_hazards t);
  ag_live o t d : tasks p !! o = Some t → d ∈ t_hazards t → is_Some (tasks p !! d);
  ag_keys d : is_Some (dependents s !! d) → is_Some (tasks p !! d);
  ag_old o : is_Some (tasks p !! o) ∨ (∃ d, o ∈ deps_of s d) → o ≤ lo;
  ag_slot_index slot o : o ∈ set_at (waiters_by_slot s) slot ↔
    ∃ q, pending s !! o = Some q ∧ slot ∈ registered_slots q ∧ stamp_waits q ≠ [];
  ag_slot_sets : no_empty (waiters_by_slot s);
  ag_slots o q w : pending s !! o = Some q → w ∈ stamp_waits q →
    wait_slot w ∈ registered_slots q ∧ stands (published s) w = false;
  ag_pipe_index pl o : o ∈ set_at (waiters_by_pipeline s) pl ↔ ∃ t, tasks p !! o = Some t ∧ pl ∈ t_pipes t;
  ag_pipe_sets : no_empty (waiters_by_pipeline s);
  ag_ready o : o ∈ ready s ↔ o ∈ free_tasks p ∧ o ∉ handed p;
  ag_handed : handed p ⊆ free_tasks p }.

Lemma free_tasks_in p o : o ∈ free_tasks p ↔ ∃ t, tasks p !! o = Some t ∧ free t = true.
Proof.
  unfold free_tasks. rewrite elem_of_dom. split.
  - intros [t [? ?]%map_lookup_filter_Some]. eauto.
  - intros (t & ? & ?). exists t. by apply map_lookup_filter_Some.
Qed.

(** A transaction is ready when nothing in the reference's list is left. *)
Lemma is_ready_free q t : task_of q t → is_ready q = free t.
Proof.
  intros [H1 H2 _ H4 H5]. unfold is_ready, free. rewrite H1, H2. rewrite <- !andb_assoc. f_equal; [by destruct (t_hazards t)|]. f_equal.
  destruct (pipeline_waits q) as [|pl l] eqn:E, (t_pipes t) as [|pl' l'] eqn:E'; cbn.
  - destruct (t_stuck t); [|done]. destruct (proj1 H5 eq_refl) as (? & ?%elem_of_nil & _). done.
  - specialize (H4 pl'). destruct (elem_of_nil pl') as [[] _]. apply H4. left.
  - rewrite (proj2 H5); [done|]. exists pl. split; [left|apply not_elem_of_nil].
  - done.
Qed.

Lemma is_published_stands s p w : standing p = published s → is_published s w = stands (standing p) w.
Proof. unfold is_published, stands. by intros ->. Qed.

(** ** Admission *)
Lemma push_deps_in o ds : ∀ m d,
  default [] (foldl (push_dep o) m ds !! d) =
  default [] (m !! d) ++ replicate (occ d ds) o.
Proof.
  induction ds as [|d0 ds IH]; intros m d; cbn; [by rewrite app_nil_r|]. rewrite IH, occ_cons. unfold push_dep.
  destruct (decide (d0 = d)) as [->|Hne]; [rewrite lookup_insert_eq; cbn; by rewrite <- app_assoc|].
  by rewrite lookup_insert_ne by done.
Qed.
Lemma push_deps_dom o ds : ∀ (m : gmap Z (list Z)) d,
  is_Some (foldl (push_dep o) m ds !! d) → is_Some (m !! d) ∨ d ∈ ds.
Proof.
  induction ds as [|d0 ds IH]; intros m d; cbn; [by left|]. intros [Hs|?]%IH; [|right; by right].
  destruct (decide (d0 = d)) as [->|Hne]; [right; left|left]. unfold push_dep in Hs. by rewrite lookup_insert_ne in Hs.
Qed.
Lemma occ_replicate (x o : Z) n : occ x (replicate n o) = (if decide (o = x) then n else 0)%nat.
Proof. induction n as [|n IH]; cbn; [by case_decide|]. rewrite occ_cons, IH. by case_decide. Qed.

Lemma sched_admit_fields s o hazards waits pipes c :
  let live := filter (λ d, is_Some (pending s !! d)) hazards in
  let unmet := filter (λ w, is_published s w = false) waits in
  let q := mkPending (length live) unmet (merge_sort Z.le (remove_dups (wait_slot <$> unmet))) pipes c in
  sched_admit s o hazards waits pipes c =
  (is_ready q, mkScheduler (<[o := q]> (pending s)) (published s) (foldl (file o) (waiters_by_slot s) (wait_slot <$> unmet))
     (foldl (file o) (waiters_by_pipeline s) pipes) (foldl (push_dep o) (dependents s) live)
     (if is_ready q then {[o]} ∪ ready s else ready s)).
Proof.
  cbn zeta. unfold sched_admit, is_ready. cbn. set (live := filter _ hazards).
  replace (length live =? 0)%nat with (is_nil live) by (by destruct live). by case_match.
Qed.

Section admission.
Context (lo : Z) (s : Scheduler) (p : plain) (o : Z) (hazards : list Z) (waits : list StampWait)
  (pipes : list ResourceId) (c : option CompletionStamp).
Hypothesis Ha : agrees lo s p.
Hypothesis Ho : lo < o.
Let unmet := filter (λ w, is_published s w = false) waits.
Let live := filter (λ d, is_Some (pending s !! d)) hazards.
Let slots := merge_sort Z.le (remove_dups (wait_slot <$> unmet)).
Let q := mkPending (length live) unmet slots pipes c.
Let t := mkTask live unmet pipes false c.

Lemma admit_plain : plain_admit p o hazards waits pipes c = p <| tasks := <[o := t]> (tasks p) |>.
Proof.
  assert (live = filter (λ d, is_Some (tasks p !! d)) hazards) as E1.
  { apply list_filter_iff. intros d. by rewrite (ag_dom _ _ _ Ha). }
  assert (unmet = filter (λ w, stands (standing p) w = false) waits) as E2.
  { apply list_filter_iff. intros w. by rewrite (is_published_stands s p w (ag_standing _ _ _ Ha)). }
  unfold plain_admit, t. by rewrite E1, E2.
Qed.
Lemma admit_new : tasks p !! o = None.
Proof. apply eq_None_not_Some. intros Hs. pose proof (ag_old _ _ _ Ha o (or_introl Hs)). lia. Qed.
Lemma admit_new_pending : pending s !! o = None.
Proof. apply eq_None_not_Some. rewrite (ag_dom _ _ _ Ha), admit_new. by intros []. Qed.
Lemma admit_task : task_of q t.
Proof. split; cbn; try done. split; [done|]. by intros (pl & ? & ?). Qed.
Lemma admit_slots x : x ∈ slots ↔ x ∈ wait_slot <$> unmet.
Proof. unfold slots. by rewrite merge_sort_Permutation, elem_of_remove_dups. Qed.
Lemma admit_free x :
  x ∈ free_tasks (p <| tasks := <[o := t]> (tasks p) |>) ↔ (x = o ∧ free t = true) ∨ x ∈ free_tasks p.
Proof.
  rewrite !free_tasks_in. cbn. destruct (decide (o = x)) as [<-|Hne].
  - rewrite lookup_insert_eq, admit_new. naive_solver.
  - rewrite lookup_insert_ne by done. naive_solver.
Qed.
Lemma admit_deps d x t' : <[o := t]> (tasks p) !! x = Some t' →
  occ x (default [] (foldl (push_dep o) (dependents s) live !! d)) = occ d (t_hazards t').
Proof.
  rewrite push_deps_in, occ_app, occ_replicate. destruct (decide (o = x)) as [->|Hne].
  - rewrite lookup_insert_eq. intros [= <-]. cbn. replace (occ x _) with 0%nat; [done|]. symmetry.
    apply Nat.le_0_r, Nat.nlt_ge. rewrite <- occ_in. intros Hin. pose proof (ag_old _ _ _ Ha x (or_intror (ex_intro _ d Hin))). lia.
  - rewrite lookup_insert_ne by done. intros Ht. rewrite Nat.add_0_r. by apply (ag_deps _ _ _ Ha).
Qed.
Lemma admit_slot_index slot x :
  x ∈ set_at (foldl (file o) (waiters_by_slot s) (wait_slot <$> unmet)) slot ↔
  ∃ q', <[o := q]> (pending s) !! x = Some q' ∧ slot ∈ registered_slots q' ∧ stamp_waits q' ≠ [].
Proof.
  rewrite file_in, (ag_slot_index _ _ _ Ha). destruct (decide (o = x)) as [<-|Hne].
  - rewrite lookup_insert_eq, admit_new_pending, <- admit_slots. split; [|by intros (q' & [= <-] & ? & _); right].
    intros [(q' & ? & _)|[_ Hs]]; [done|]. exists q. split_and!; [done..|]. rewrite admit_slots in Hs. cbn. intros E.
    rewrite E in Hs. by apply elem_of_nil in Hs.
  - rewrite lookup_insert_ne by done. naive_solver.
Qed.
Lemma admit_pipe_index pl x :
  x ∈ set_at (foldl (file o) (waiters_by_pipeline s) pipes) pl ↔ ∃ t', <[o := t]> (tasks p) !! x = Some t' ∧ pl ∈ t_pipes t'.
Proof.
  rewrite file_in, (ag_pipe_index _ _ _ Ha). destruct (decide (o = x)) as [<-|Hne].
  - rewrite lookup_insert_eq, admit_new. naive_solver.
  - rewrite lookup_insert_ne by done. naive_solver.
Qed.
Lemma admit_old x :
  is_Some (<[o := t]> (tasks p) !! x) ∨ (∃ d, x ∈ default [] (foldl (push_dep o) (dependents s) live !! d)) → x ≤ o.
Proof.
  destruct (decide (x = o)) as [->|Hne]; [lia|]. rewrite lookup_insert_ne by done. intros Hx.
  enough (x ≤ lo) by lia. apply (ag_old _ _ _ Ha). destruct Hx as [?|(d & Hd)]; [by left|right]. exists d.
  rewrite push_deps_in in Hd. apply elem_of_app in Hd as [?|[? _]%elem_of_replicate]; done.
Qed.

Lemma sched_admit_agrees :
  agrees o (sched_admit s o hazards waits pipes c).2 (plain_admit p o hazards waits pipes c) ∧
  (sched_admit s o hazards waits pipes c).1 = bool_decide (o ∈ free_tasks (plain_admit p o hazards waits pipes c)).
Proof.
  rewrite sched_admit_fields, admit_plain. cbn [fst snd]. fold live unmet slots q. rewrite (is_ready_free q t admit_task).
  assert (o ∉ free_tasks p) as Hno. { rewrite free_tasks_in, admit_new. by intros (? & ? & _). }
  split; [|destruct (free t) eqn:Ef; symmetry; [apply bool_decide_eq_true_2|apply bool_decide_eq_false_2]; rewrite admit_free].
  2: by left.
  2: by intros [[_ ?]|?]; [congruence|].
  split; cbn [pending published waiters_by_slot waiters_by_pipeline dependents ready deps_of].
  - apply Ha.
  - intros x. cbn. destruct (decide (o = x)) as [->|Hne]; [by rewrite !lookup_insert_eq|].
    rewrite !lookup_insert_ne by done. apply (ag_dom _ _ _ Ha).
  - intros x q' t'. cbn. destruct (decide (o = x)) as [->|Hne].
    + rewrite !lookup_insert_eq. intros [= <-] [= <-]. apply admit_task.
    + rewrite !lookup_insert_ne by done. apply (ag_task _ _ _ Ha).
  - intros d x t'. apply admit_deps.
  - intros x t' d. cbn. destruct (decide (o = d)) as [->|Hd]; [rewrite lookup_insert_eq; eauto|].
    rewrite (lookup_insert_ne _ o d) by done. destruct (decide (o = x)) as [->|Hne].
    + rewrite lookup_insert_eq. intros [= <-] Hin. cbn in Hin. apply list_elem_of_filter in Hin as [? _]. by apply (ag_dom _ _ _ Ha).
    + rewrite lookup_insert_ne by done. apply (ag_live _ _ _ Ha).
  - intros d Hd%push_deps_dom. cbn. destruct (decide (o = d)) as [->|Hne]; [rewrite lookup_insert_eq; eauto|].
    rewrite lookup_insert_ne by done. destruct Hd as [?|[? _]%list_elem_of_filter]; [by apply (ag_keys _ _ _ Ha)|by apply (ag_dom _ _ _ Ha)].
  - apply admit_old.
  - apply admit_slot_index.
  - apply file_no_empty, Ha.
  - intros x q' w. destruct (decide (o = x)) as [->|Hne]; [|rewrite lookup_insert_ne by done; apply (ag_slots _ _ _ Ha)].
    rewrite lookup_insert_eq. intros [= <-] Hw. cbn in *. split; [apply admit_slots, list_elem_of_fmap; eauto|].
    apply list_elem_of_filter in Hw as [Hw _]. by rewrite (is_published_stands s p w (ag_standing _ _ _ Ha)), (ag_standing _ _ _ Ha) in Hw.
  - apply admit_pipe_index.
  - apply file_no_empty, Ha.
  - intros x. rewrite admit_free. cbn. pose proof (ag_ready _ _ _ Ha x) as Hr. pose proof (ag_handed _ _ _ Ha o) as Hh.
    destruct (free t); [rewrite elem_of_union, elem_of_singleton|]; clear - Hr Hh Hno; naive_solver.
  - intros x Hx. apply admit_free. right. by apply (ag_handed _ _ _ Ha).
Qed.
End admission.

(** ** Completion *)
Definition fewer (n : nat) (q : Pending) : Pending := q <| remaining_hazards := (remaining_hazards q - n)%nat |>.
Lemma fewer_0 q : fewer 0 q = q.
Proof. unfold fewer. destruct q; cbn. by rewrite Nat.sub_0_r. Qed.

Lemma fewer_fewer n m q : fewer n (fewer m q) = fewer (m + n) q.
Proof. unfold fewer. cbn. f_equal. lia. Qed.

Lemma release_ok s d :
  (∀ q, pending s !! d = Some q → (0 < remaining_hazards q)%nat) →
  release s d = Some (mkScheduler (alter (fewer 1) d (pending s)) (published s) (waiters_by_slot s) (waiters_by_pipeline s)
    (dependents s) (match fewer 1 <$> pending s !! d with
                    | Some q => if is_ready q then {[d]} ∪ ready s else ready s
                    | None => ready s
                    end)).
Proof.
  intros Hq. unfold release. destruct (pending s !! d) as [q|] eqn:E; cbn.
  - destruct (remaining_hazards q) as [|n] eqn:En; [specialize (Hq q eq_refl); lia|]. unfold fewer at 2. rewrite En. cbn. rewrite Nat.sub_0_r.
    replace (alter (fewer 1) d (pending s)) with (<[d := q <| remaining_hazards := n |>]> (pending s)).
    { by destruct (is_ready _). }
    apply map_eq. intros x. rewrite lookup_alter. destruct (decide (d = x)) as [<-|Hne]; [|by rewrite lookup_insert_ne].
    rewrite lookup_insert_eq, E. cbn. unfold fewer. rewrite En. cbn. by rewrite Nat.sub_0_r.
  - f_equal. replace (alter (fewer 1) d (pending s)) with (pending s); [by destruct s|].
    apply map_eq. intros x. rewrite lookup_alter. case_decide; [subst; by rewrite E|done].
Qed.

Lemma release_all_ok deps : ∀ s,
  (∀ x q, pending s !! x = Some q → (occ x deps ≤ remaining_hazards q)%nat) →
  ∃ s', release_all s deps = Some s' ∧ (∀ x, pending s' !! x = fewer (occ x deps) <$> pending s !! x) ∧
    published s' = published s ∧ waiters_by_slot s' = waiters_by_slot s ∧
    waiters_by_pipeline s' = waiters_by_pipeline s ∧ dependents s' = dependents s ∧
    ∀ x, x ∈ ready s' ↔ x ∈ ready s ∨ (x ∈ deps ∧ ∃ q, pending s' !! x = Some q ∧ is_ready q = true).
Proof.
  induction deps as [|d deps IH]; intros s Hq; cbn [release_all].
  { exists s. split_and!; try done.
    - intros x. change (occ x []) with 0%nat. destruct (pending s !! x); cbn; [by rewrite fewer_0|done].
    - intros x. split; [by left|]. by intros [?|[?%elem_of_nil _]]. }
  rewrite release_ok; [|intros q Eq; specialize (Hq d q Eq); rewrite occ_cons, decide_True in Hq by done; lia].
  set (s1 := mkScheduler _ _ _ _ _ _).
  destruct (IH s1) as (s' & -> & Hp & E1 & E2 & E3 & E4 & Hr).
  { intros x q. cbn. rewrite lookup_alter. specialize (Hq x). rewrite occ_cons in Hq. case_decide; [|by intros ?%Hq].
    subst. intros (q0 & Eq & ->)%fmap_Some. specialize (Hq q0 Eq). cbn. lia. }
  exists s'. split; [done|]. assert (∀ x, pending s' !! x = fewer (occ x (d :: deps)) <$> pending s !! x) as Hp'.
  { intros x. rewrite Hp, occ_cons. cbn. rewrite lookup_alter. case_decide; [|done]. subst.
    destruct (pending s !! x) as [q|]; [|done]. cbn [fmap option_fmap option_map]. by rewrite fewer_fewer. }
  split_and!; try done. intros x. rewrite Hr, elem_of_cons. destruct (decide (x = d)) as [->|Hne].
  - rewrite Hp', occ_cons, decide_True by done. specialize (Hq d). rewrite occ_cons, decide_True in Hq by done. cbn [ready s1].
    destruct (pending s !! d) as [q|]; [specialize (Hq q eq_refl)|clear; naive_solver]. cbn [fmap option_fmap option_map].
    assert (d ∈ deps ∨ fewer (1 + occ d deps) q = fewer 1 q) as Hd.
    { destruct (decide (0 < occ d deps)%nat) as [?|?]; [left; by apply occ_in|right]. f_equal. lia. }
    assert (is_ready (fewer 1 q) = true → is_ready (fewer (1 + occ d deps) q) = true) as Hone.
    { unfold is_ready, fewer. cbn. intros [[H1 ->]%andb_true_iff ->]%andb_true_iff. reflect_bools.
      by replace (remaining_hazards q - S (occ d deps))%nat with 0%nat by lia. }
    clear - Hd Hone. destruct (is_ready (fewer 1 q)) eqn:E; [rewrite elem_of_union, elem_of_singleton|].
    + split; [|tauto]. intros _. right. split; [by left|]. eexists. split; [done|auto].
    + split; [tauto|]. intros [?|[_ (q' & [= <-] & Hq')]]; [by left|]. destruct Hd as [?|Hd]; [right; eauto|]. cbn in Hd. congruence.
  - assert (x ∈ ready s1 ↔ x ∈ ready s) as ->; [|naive_solver]. cbn. destruct (fewer 1 <$> pending s !! d) as [q|]; [|done].
    destruct (is_ready q); set_solver.
Qed.

Section completing.
Context (lo : Z) (s : Scheduler) (p : plain) (o : Z) (q : Pending) (t : task).
Hypothesis Ha : agrees lo s p.
Hypothesis Hq : pending s !! o = Some q.
Hypothesis Ht : tasks p !! o = Some t.

Definition unhazard (t : task) : task := t <| t_hazards := filter (λ d, d ≠ o) (t_hazards t) |>.

Lemma complete_occ x tx : tasks p !! x = Some tx →
  (length (t_hazards (unhazard tx)) + occ x (deps_of s o))%nat = length (t_hazards tx).
Proof. intros Hx. rewrite (ag_deps _ _ _ Ha o x tx Hx). apply occ_length. Qed.

Lemma complete_released : ∃ s',
  sched_complete s o = Some (completion q, s') ∧
  (∀ x, pending s' !! x = if decide (x = o) then None else fewer (occ x (deps_of s o)) <$> pending s !! x) ∧
  published s' = published s ∧ waiters_by_slot s' = foldl (unfile o) (waiters_by_slot s) (registered_slots q) ∧
  waiters_by_pipeline s' = foldl (unfile o) (waiters_by_pipeline s) (pipeline_waits q) ∧
  dependents s' = base.delete o (dependents s) ∧
  ∀ x, x ∈ ready s' ↔ (x ∈ ready s ∧ x ≠ o) ∨
    (x ∈ deps_of s o ∧ ∃ q', pending s' !! x = Some q' ∧ is_ready q' = true).
Proof.
  unfold sched_complete. rewrite Hq. set (s1 := set_field dependents _ _).
  destruct (release_all_ok (deps_of s o) s1) as (s' & Er & Hp & E1 & E2 & E3 & E4 & Hr).
  { intros x qx. cbn. destruct (decide (o = x)) as [->|Hne]; [by rewrite lookup_delete_eq|].
    rewrite lookup_delete_ne by done. intros Hx. destruct (proj1 (ag_dom _ _ _ Ha x)) as [tx Htx]; [eauto|].
    rewrite (to_hazards _ _ (ag_task _ _ _ Ha x qx tx Hx Htx)), <- (complete_occ x tx Htx). lia. }
  exists s'. change (default [] (dependents _ !! o)) with (deps_of s o). rewrite Er. split; [done|]. split.
  { intros x. rewrite Hp. cbn. case_decide as Ex; [subst; by rewrite lookup_delete_eq|by rewrite lookup_delete_ne]. }
  split_and!; try done. intros x. rewrite Hr. cbn. rewrite elem_of_difference, elem_of_singleton. done.
Qed.

Lemma complete_task_of x qx tx : x ≠ o → pending s !! x = Some qx → tasks p !! x = Some tx →
  task_of (fewer (occ x (deps_of s o)) qx) (unhazard tx).
Proof.
  intros Hne Hqx Htx. destruct (ag_task _ _ _ Ha x qx tx Hqx Htx) as [H1 H2 H3 H4 H5]. split; try done.
  change (remaining_hazards (fewer (occ x (deps_of s o)) qx)) with (remaining_hazards qx - occ x (deps_of s o))%nat.
  rewrite H1, <- (complete_occ x tx Htx). lia.
Qed.

Lemma complete_tasks x : tasks (plain_complete p o) !! x = if decide (x = o) then None else unhazard <$> tasks p !! x.
Proof.
  cbn. rewrite lookup_fmap. case_decide as Ex; [subst; by rewrite lookup_delete_eq|by rewrite lookup_delete_ne].
Qed.

(** A transaction becomes free by a completion only when it waited for it. *)
Lemma complete_frees x tx : tasks p !! x = Some tx → free tx = true ∨ x ∈ deps_of s o ∨ free (unhazard tx) = false.
Proof.
  intros Hx. destruct (free tx) eqn:Ef; [by left|right]. rewrite occ_in. pose proof (complete_occ x tx Hx) as Ho.
  destruct (decide (0 < occ x (deps_of s o))%nat) as [?|?]; [by left|right]. rewrite <- Ef. unfold free, unhazard in *. cbn in *.
  destruct (t_hazards tx), (filter _ _); cbn in *; (done || lia).
Qed.
Lemma unhazard_free tx : free tx = true → free (unhazard tx) = true.
Proof. unfold free, unhazard. cbn. by destruct (t_hazards tx). Qed.

Lemma complete_ready x s' :
  (∀ y, pending s' !! y = if decide (y = o) then None else fewer (occ y (deps_of s o)) <$> pending s !! y) →
  (x ∈ ready s ∧ x ≠ o) ∨ (x ∈ deps_of s o ∧ ∃ q', pending s' !! x = Some q' ∧ is_ready q' = true) ↔
  x ∈ free_tasks (plain_complete p o) ∧ x ∉ handed (plain_complete p o).
Proof.
  intros Hp. rewrite free_tasks_in, complete_tasks. cbn. rewrite elem_of_difference, elem_of_singleton, Hp.
  case_decide as Ex; [split; [intros [[_ ?]|[_ (? & ? & _)]]|intros [(? & ? & _) _]]; done|].
  pose proof (ag_ready _ _ _ Ha x) as Hr. pose proof (ag_handed _ _ _ Ha x) as Hh. rewrite free_tasks_in in Hr, Hh.
  destruct (tasks p !! x) as [tx|] eqn:Etx.
  - destruct (proj2 (ag_dom _ _ _ Ha x)) as [qx Eqx]; [by rewrite Etx|]. rewrite Eqx. cbn.
    pose proof (is_ready_free _ _ (complete_task_of x qx tx Ex Eqx Etx)) as Ef. pose proof (unhazard_free tx) as Hu.
    pose proof (complete_frees x tx Etx) as Hc.
    assert (x ∈ deps_of s o → free tx = false) as Hd.
    { rewrite occ_in. pose proof (complete_occ x tx Etx). unfold free. destruct (t_hazards tx); cbn in *; [lia|done]. }
    split.
    + intros [[Hx _]|[Hx (q' & [= <-] & Hq')]].
      * apply Hr in Hx as [(t' & [= <-] & Hf) Hnh]. split; [eexists; split; [done|auto]|]. by intros [? _].
      * rewrite Ef in Hq'. split; [eauto|]. intros [Hh' _]. destruct (Hh Hh') as (t' & [= <-] & Hf). by rewrite (Hd Hx) in Hf.
    + intros [(t' & [= <-] & Hf) Hnh]. destruct (free tx) eqn:E.
      * left. split; [|done]. apply Hr. split; [eauto|]. intros ?. by apply Hnh.
      * right. destruct Hc as [?|[?|?]]; try congruence. split; [done|]. eexists; split; [done|]. by rewrite Ef.
  - split; [|by intros [(? & ? & _) _]]. intros [[[(? & ? & _) _]%Hr _]|[_ (q' & Eq & _)]]; [done|].
    destruct (pending s !! x) eqn:Eqx; [|done]. destruct (proj1 (ag_dom _ _ _ Ha x)); [by rewrite Eqx|congruence].
Qed.
Lemma complete_slot_index slot x :
  x ∈ set_at (foldl (unfile o) (waiters_by_slot s) (registered_slots q)) slot ↔
  ∃ q', (if decide (x = o) then None else fewer (occ x (deps_of s o)) <$> pending s !! x) = Some q' ∧
    slot ∈ registered_slots q' ∧ stamp_waits q' ≠ [].
Proof.
  rewrite unfile_in, (ag_slot_index _ _ _ Ha). case_decide as Ex.
  - subst. rewrite Hq. split; [|by intros (? & ? & _)]. intros [(q' & [= <-] & ? & _) Hn]. by destruct Hn.
  - split; [intros [(q' & -> & ? & ?) _]; cbn; by eexists|]. intros (q' & (q0 & -> & ->)%fmap_Some & ? & ?).
    split; [by exists q0|by intros [? _]].
Qed.
Lemma complete_pipe_index pl x :
  x ∈ set_at (foldl (unfile o) (waiters_by_pipeline s) (pipeline_waits q)) pl ↔
  ∃ t', (if decide (x = o) then None else unhazard <$> tasks p !! x) = Some t' ∧ pl ∈ t_pipes t'.
Proof.
  rewrite unfile_in, (ag_pipe_index _ _ _ Ha). case_decide as Ex.
  - subst. rewrite Ht. split; [|by intros (? & ? & _)]. intros [(t' & [= <-] & Hpl) Hn]. destruct Hn. split; [done|].
    by apply (to_pipes _ _ (ag_task _ _ _ Ha o q t Hq Ht)).
  - split; [intros [(t' & -> & ?) _]; cbn; by eexists|]. intros (t' & (t0 & -> & ->)%fmap_Some & ?).
    split; [by exists t0|by intros [? _]].
Qed.
Lemma complete_deps s' d x t' : dependents s' = base.delete o (dependents s) →
  (if decide (x = o) then None else unhazard <$> tasks p !! x) = Some t' → occ x (deps_of s' d) = occ d (t_hazards t').
Proof.
  intros Ed. case_decide as Ex; [done|]. intros (tx & Hx & ->)%fmap_Some. unfold deps_of. rewrite Ed. cbn.
  destruct (decide (o = d)) as [<-|Hne].
  - rewrite lookup_delete_eq. cbn. pose proof (occ_length o (t_hazards tx)). symmetry. apply Nat.le_0_r, Nat.nlt_ge.
    rewrite <- occ_in, list_elem_of_filter. by intros [? _].
  - rewrite lookup_delete_ne, occ_filter_ne by done. by apply (ag_deps _ _ _ Ha).
Qed.

Lemma sched_complete_agrees :
  ∃ s', sched_complete s o = Some (t_completion t, s') ∧ agrees lo s' (plain_complete p o).
Proof.
  destruct complete_released as (s' & Ec & Hp & E1 & E2 & E3 & E4 & Hr).
  exists s'. rewrite <- (to_completion _ _ (ag_task _ _ _ Ha o q t Hq Ht)). split; [done|].
  assert (∀ d x, x ∈ deps_of s' d → x ∈ deps_of s d) as Hdeps.
  { intros d x. unfold deps_of. rewrite E4. destruct (decide (o = d)) as [<-|Hne];
      [rewrite lookup_delete_eq; by intros ?%elem_of_nil|by rewrite lookup_delete_ne]. }
  split.
  - cbn. rewrite E1. apply Ha.
  - intros x. rewrite complete_tasks, Hp. case_decide; [done|]. rewrite !fmap_is_Some. apply (ag_dom _ _ _ Ha).
  - intros x q' t'. rewrite complete_tasks, Hp. case_decide; [done|].
    intros (qx & Hx & ->)%fmap_Some (tx & Htx & ->)%fmap_Some. by apply complete_task_of.
  - intros d x t'. rewrite complete_tasks. by apply complete_deps.
  - intros x t' d. rewrite !complete_tasks. case_decide; [done|]. intros (tx & Htx & ->)%fmap_Some.
    cbn. intros [? ?]%list_elem_of_filter. rewrite decide_False, fmap_is_Some by done. by apply (ag_live _ _ _ Ha x tx).
  - intros d. rewrite complete_tasks, E4. case_decide as Ed; [subst; rewrite lookup_delete_eq; by intros []|].
    rewrite lookup_delete_ne, fmap_is_Some by done. apply (ag_keys _ _ _ Ha).
  - intros x Hx. apply (ag_old _ _ _ Ha). destruct Hx as [Hx|(d & Hd)]; [left|right; eauto].
    rewrite complete_tasks in Hx. case_decide; [by destruct Hx|]. by apply fmap_is_Some in Hx.
  - intros slot x. rewrite E2, Hp. apply complete_slot_index.
  - rewrite E2. apply unfile_no_empty, Ha.
  - intros x q' w. rewrite Hp, E1. case_decide; [done|]. intros (qx & Hx & ->)%fmap_Some. by apply (ag_slots _ _ _ Ha x qx).
  - intros pl x. rewrite E3, complete_tasks. apply complete_pipe_index.
  - rewrite E3. apply unfile_no_empty, Ha.
  - intros x. rewrite Hr. by apply complete_ready.
  - intros x. cbn. rewrite elem_of_difference, elem_of_singleton, free_tasks_in, complete_tasks.
    intros [Hh Hne]. rewrite decide_False by done. apply (ag_handed _ _ _ Ha), free_tasks_in in Hh as (tx & -> & Hf).
    eexists. split; [done|]. by apply unhazard_free.
Qed.
End completing.

(** ** Publication *)
Lemma filter_ext_in {A} (P Q : A → Prop) `{∀ x, Decision (P x)} `{∀ x, Decision (Q x)} (l : list A) :
  (∀ x, x ∈ l → P x ↔ Q x) → filter P l = filter Q l.
Proof.
  induction l as [|x l IH]; intros Hl; [done|]. rewrite !filter_cons, IH by (intros; apply Hl; by right).
  assert (P x ↔ Q x) by (apply Hl; left). repeat case_decide; tauto.
Qed.
Lemma filter_all_in {A} (P : A → Prop) `{∀ x, Decision (P x)} (l : list A) : (∀ x, x ∈ l → P x) → filter P l = l.
Proof.
  induction l as [|x l IH]; intros Hl; [done|]. rewrite filter_cons, decide_True by (apply Hl; left).
  f_equal. apply IH. intros. apply Hl. by right.
Qed.
Lemma ascending_empty : ascending ∅ = [].
Proof. done. Qed.

Definition left_of (slot v : Z) (q : Pending) : list StampWait :=
  filter (λ x, negb (wait_slot x =? slot) || negb (satisfied_by x v) = true) (stamp_waits q).
Definition met_at (slot v : Z) (q : Pending) : Pending := q <| stamp_waits := left_of slot v q |>.

(** What discharging the waiters [ws] does. *)
Record discharged (slot v : Z) (ws : list Z) (s : Scheduler) (disc : list (Z * list Z)) (st : Scheduler * list (Z * list Z)) : Prop := {
  di_pending x : pending st.1 !! x = if decide (x ∈ ws) then met_at slot v <$> pending s !! x else pending s !! x;
  di_published : published st.1 = published s;
  di_slots : waiters_by_slot st.1 = waiters_by_slot s;
  di_pipes : waiters_by_pipeline st.1 = waiters_by_pipeline s;
  di_deps : dependents st.1 = dependents s;
  di_ready x : x ∈ ready st.1 ↔ x ∈ ready s ∨
     (x ∈ ws ∧ ∃ q, pending s !! x = Some q ∧ left_of slot v q = [] ∧ is_ready (met_at slot v q) = true);
  di_disc x sl : (x, sl) ∈ st.2 ↔ (x, sl) ∈ disc ∨
     (x ∈ ws ∧ ∃ q, pending s !! x = Some q ∧ left_of slot v q = [] ∧ sl = registered_slots q) }.

Lemma discharge_one slot v w s disc : discharged slot v [w] s disc (discharge slot v (s, disc) w).
Proof.
  unfold discharge. destruct (pending s !! w) as [q|] eqn:E.
  - change (filter _ (stamp_waits q)) with (left_of slot v q). change (set_field stamp_waits _ q) with (met_at slot v q).
    assert (∀ x, <[w := met_at slot v q]> (pending s) !! x =
      if decide (x ∈ [w]) then met_at slot v <$> pending s !! x else pending s !! x) as Hp.
    { intros x. destruct (decide (w = x)) as [<-|Hne]; [rewrite lookup_insert_eq, decide_True, E by left; done|].
      rewrite lookup_insert_ne, decide_False by (done || by intros ?%list_elem_of_singleton; subst). done. }
    destruct (is_nil (left_of slot v q)) eqn:En.
    + apply is_nil_spec in En. split; try (by destruct (is_ready _)).
      * intros x. rewrite list_elem_of_singleton. cbn. destruct (is_ready (met_at slot v q)) eqn:Er; cbn.
        -- rewrite elem_of_union, elem_of_singleton. split; [|intros [?|[? _]]; auto]. intros [->|?]; [right; split; [done|]; by exists q|by left].
        -- split; [by left|]. intros [?|[-> (q' & ? & _ & Hr)]]; [done|]. simplify_eq. congruence.
      * intros x sl. cbn. rewrite elem_of_app, !list_elem_of_singleton. split.
        -- intros [?|[= -> ->]]; [by left|right; split; [done|]]. by exists q.
        -- intros [?|[-> (q' & ? & _ & ->)]]; [by left|right]. by simplify_eq.
    + assert (left_of slot v q ≠ []) as Hl by (intros Hl; by rewrite Hl in En). split; cbn; try done.
      * intros x. rewrite list_elem_of_singleton. split; [by left|]. intros [?|[-> (q' & ? & ? & _)]]; [done|]. by simplify_eq.
      * intros x sl. rewrite list_elem_of_singleton. split; [by left|]. intros [?|[-> (q' & ? & ? & _)]]; [done|]. by simplify_eq.
  - split; cbn; try done.
    + intros x. case_decide as Hx; [|done]. apply list_elem_of_singleton in Hx as ->. by rewrite E.
    + intros x. rewrite list_elem_of_singleton. split; [by left|]. intros [?|[-> (q' & ? & _)]]; [done|]. congruence.
    + intros x sl. rewrite list_elem_of_singleton. split; [by left|]. intros [?|[-> (q' & ? & _)]]; [done|]. congruence.
Qed.

Lemma discharged_app slot v w ws s disc st1 st2 :
  w ∉ ws → discharged slot v [w] s disc st1 → discharged slot v ws st1.1 st1.2 st2 → discharged slot v (w :: ws) s disc st2.
Proof.
  intros Hw [P1 A1 B1 C1 D1 R1 X1] [P2 A2 B2 C2 D2 R2 X2].
  assert (∀ x, x ∈ ws → pending st1.1 !! x = pending s !! x) as Hsame.
  { intros x Hx. rewrite P1, decide_False; [done|]. intros ?%list_elem_of_singleton. by subst. }
  split; try congruence.
  - intros x. rewrite P2. destruct (decide (x ∈ ws)) as [Hx|Hx].
    + rewrite (Hsame x Hx), decide_True by (by right). done.
    + rewrite P1. repeat case_decide; set_solver.
  - intros x. rewrite R2, R1, !elem_of_cons, elem_of_nil. destruct (decide (x ∈ ws)) as [Hx|Hx]; [rewrite (Hsame x Hx)|]; tauto.
  - intros x sl. rewrite X2, X1, !elem_of_cons, elem_of_nil. destruct (decide (x ∈ ws)) as [Hx|Hx]; [rewrite (Hsame x Hx)|]; tauto.
Qed.

Lemma discharge_all_ok slot v ws : NoDup ws → ∀ s disc, discharged slot v ws s disc (foldl (discharge slot v) (s, disc) ws).
Proof.
  induction 1 as [|w ws Hw _ IH]; intros s disc; cbn [foldl].
  { split; cbn; try done; intros x; try intros sl; (split; [by left|]); by intros [?|[?%elem_of_nil _]]. }
  eapply discharged_app; [done|apply discharge_one|]. destruct (discharge slot v (s, disc) w) as [s1 disc1]. apply IH.
Qed.

Lemma unregister_all_ok disc : ∀ s,
  let s' := foldl (λ s p, unregister_slots s p.1 p.2) s disc in
  (∀ slot x, x ∈ set_at (waiters_by_slot s') slot ↔ x ∈ set_at (waiters_by_slot s) slot ∧ ¬ ∃ sl, (x, sl) ∈ disc ∧ slot ∈ sl) ∧
  (no_empty (waiters_by_slot s) → no_empty (waiters_by_slot s')) ∧
  s' = s <| waiters_by_slot := waiters_by_slot s' |>.
Proof.
  induction disc as [|[o sl] disc IH]; intros s; cbn.
  { split_and!; try done; [|by destruct s]. intros slot x. split; [|tauto]. intros ?. split; [done|]. by intros (? & ?%elem_of_nil & _). }
  destruct (IH (unregister_slots s o sl)) as (H1 & H2 & H3). split_and!.
  - intros slot x. rewrite H1. cbn. rewrite unfile_in. setoid_rewrite elem_of_cons. naive_solver.
  - intros Hn. apply H2. by apply unfile_no_empty.
  - rewrite H3. by destruct s.
Qed.

Section publishing.
Context (lo : Z) (s : Scheduler) (p : plain) (stamp : CompletionStamp).
Hypothesis Ha : agrees lo s p.
Let slot := stamp_slot stamp.
Let v := later (default (stamp_value stamp) (published s !! slot)) (stamp_value stamp).
Let m := <[slot := v]> (published s).
Let ws := ascending (set_at (waiters_by_slot s) slot).

(** What the reference leaves of the waits. *)
Definition still (q : Pending) : list StampWait := filter (λ w, stands m w = false) (stamp_waits q).

Lemma publish_other w : wait_slot w ≠ slot → stands m w = stands (published s) w.
Proof. intros Hne. unfold stands, m. by rewrite lookup_insert_ne. Qed.
Lemma publish_here w : wait_slot w = slot → stands m w = satisfied_by w v.
Proof. intros He. unfold stands, m. by rewrite He, lookup_insert_eq. Qed.

Lemma publish_left x q : pending s !! x = Some q → left_of slot v q = still q.
Proof.
  intros Hx. apply filter_ext_in. intros w Hw. destruct (ag_slots _ _ _ Ha x q w Hx Hw) as [_ Hn].
  destruct (decide (wait_slot w = slot)) as [E|E].
  - rewrite (publish_here w E), E, Z.eqb_refl. cbn. by rewrite negb_true_iff.
  - rewrite (publish_other w E), Hn, (proj2 (Z.eqb_neq _ _) E). done.
Qed.
(** A transaction that loses a wait is a waiter of the slot. *)
Lemma publish_waiter x q : pending s !! x = Some q → x ∈ ws ∨ still q = stamp_waits q.
Proof.
  intros Hx. destruct (decide (x ∈ ws)) as [?|Hn]; [by left|right]. apply filter_all_in. intros w Hw.
  destruct (ag_slots _ _ _ Ha x q w Hx Hw) as [Hs Hf]. rewrite publish_other; [done|]. intros E. apply Hn. unfold ws.
  rewrite ascending_in, (ag_slot_index _ _ _ Ha). exists q. rewrite <- E. split_and!; [done..|]. intros En. rewrite En in Hw.
  by apply elem_of_nil in Hw.
Qed.
Lemma publish_waits x q : pending s !! x = Some q → x ∈ ws → stamp_waits q ≠ [].
Proof. intros Hx. unfold ws. rewrite ascending_in, (ag_slot_index _ _ _ Ha). intros (q' & ? & _ & ?). by simplify_eq. Qed.

Lemma sched_publish_fields : ∃ s',
  sched_publish s stamp = s' ∧ (∀ x, pending s' !! x = (λ q, q <| stamp_waits := still q |>) <$> pending s !! x) ∧
  published s' = m ∧ waiters_by_pipeline s' = waiters_by_pipeline s ∧ dependents s' = dependents s ∧
  (∀ x, x ∈ ready s' ↔ x ∈ ready s ∨
     (x ∈ ws ∧ ∃ q, pending s !! x = Some q ∧ still q = [] ∧ is_ready (q <| stamp_waits := still q |>) = true)) ∧
  (∀ k x, x ∈ set_at (waiters_by_slot s') k ↔ x ∈ set_at (waiters_by_slot s) k ∧
     ¬ (x ∈ ws ∧ ∃ q, pending s !! x = Some q ∧ still q = [] ∧ k ∈ registered_slots q)) ∧
  no_empty (waiters_by_slot s').
Proof.
  set (s0 := s <| published := m |>).
  assert (sched_publish s stamp = let '(s1, disc) := foldl (discharge slot v) (s0, []) ws in
    foldl (λ s p, unregister_slots s p.1 p.2) s1 disc) as ->.
  { unfold sched_publish, ws, set_at. fold slot v m s0. change (waiters_by_slot s0) with (waiters_by_slot s).
    by destruct (waiters_by_slot s !! slot). }
  assert (NoDup ws) as Hnd by apply ascending_nodup. pose proof (discharge_all_ok slot v ws Hnd s0 []) as Hd.
  destruct (foldl (discharge slot v) (s0, []) ws) as [s1 disc]. destruct Hd as [P A B C D R X]. cbn in P, A, B, C, D, R, X.
  destruct (unregister_all_ok disc s1) as (U1 & U2 & U3). eexists. split; [reflexivity|].
  rewrite U3. cbn. split_and!; try congruence.
  - intros x. rewrite P. destruct (pending s !! x) as [q|] eqn:E; [|by case_decide]. cbn. unfold met_at. rewrite (publish_left x q E).
    case_decide as Hx; [done|]. destruct (publish_waiter x q E) as [?|Es]; [done|]. rewrite Es. by destruct q.
  - intros x. rewrite R. f_equiv. apply and_iff_compat_l. f_equiv. intros q. split.
    + intros (E & Hl & Hr). unfold met_at in Hr. rewrite (publish_left x q E) in *. done.
    + intros (E & Hl & Hr). unfold met_at. rewrite (publish_left x q E). done.
  - intros k x. rewrite U1, B. apply and_iff_compat_l, not_iff_compat. setoid_rewrite X. split.
    + intros (sl & [?%elem_of_nil|(Hx & q & E & Hl & ->)] & Hk); [done|]. rewrite (publish_left x q E) in Hl. eauto.
    + intros (Hx & q & E & Hl & Hk). exists (registered_slots q). split; [|done]. right. split; [done|]. exists q.
      by rewrite (publish_left x q E).
  - apply U2. rewrite B. apply Ha.
Qed.

Definition unstamp (t : task) : task := t <| t_stamps := filter (λ w, stands m w = false) (t_stamps t) |>.
Lemma publish_tasks x : tasks (plain_publish p stamp) !! x = unstamp <$> tasks p !! x.
Proof.
  unfold plain_publish. cbn. rewrite lookup_fmap. unfold unstamp, m, v, slot. by rewrite (ag_standing _ _ _ Ha).
Qed.
Lemma publish_task_of q t : task_of q t → task_of (q <| stamp_waits := still q |>) (unstamp t).
Proof. intros [H1 H2 H3 H4 H5]. split; try done. cbn. unfold still. by rewrite H2. Qed.
Lemma unstamp_free t : free t = true → free (unstamp t) = true.
Proof. unfold free, unstamp. cbn. destruct (t_stamps t); [done|]. cbn. rewrite andb_false_r. done. Qed.

Lemma publish_ready x :
  (x ∈ ready s ∨ (x ∈ ws ∧ ∃ q, pending s !! x = Some q ∧ still q = [] ∧ is_ready (q <| stamp_waits := still q |>) = true)) ↔
  x ∈ free_tasks (plain_publish p stamp) ∧ x ∉ handed p.
Proof.
  rewrite free_tasks_in, publish_tasks. pose proof (ag_ready _ _ _ Ha x) as Hr. pose proof (ag_handed _ _ _ Ha x) as Hh.
  rewrite free_tasks_in in Hr, Hh. split.
  - intros [[(t & -> & Hf) Hn]%Hr|(Hx & q & Eq & _ & Hq)]; [split; [eexists; split; [done|by apply unstamp_free]|done]|].
    destruct (proj1 (ag_dom _ _ _ Ha x)) as [t Et]; [eauto|]. pose proof (ag_task _ _ _ Ha x q t Eq Et) as Hqt.
    rewrite Et. rewrite (is_ready_free _ _ (publish_task_of q t Hqt)) in Hq. split; [by eexists|].
    intros Hin. destruct (Hh Hin) as (t' & Et' & Hf). assert (t' = t) as -> by congruence. pose proof (publish_waits x q Eq Hx) as Hw.
    rewrite (to_stamps _ _ Hqt) in Hw. unfold free in Hf. destruct (t_stamps t); [done|]. by rewrite andb_false_r in Hf.
  - intros [(t' & (t & Et & ->)%fmap_Some & Hf) Hn]. destruct (free t) eqn:Eft; [left; apply Hr; eauto|right].
    destruct (proj2 (ag_dom _ _ _ Ha x)) as [q Eq]; [eauto|]. pose proof (ag_task _ _ _ Ha x q t Eq Et) as Hqt.
    pose proof (is_ready_free _ _ (publish_task_of q t Hqt)) as Hrd. rewrite Hf in Hrd.
    assert (still q = []) as Es. { unfold is_ready in Hrd. reflect_bools. by apply is_nil_spec. }
    split; [|by exists q]. destruct (publish_waiter x q Eq) as [?|Ew]; [done|]. exfalso.
    enough (free (unstamp t) = free t) by congruence. unfold free, unstamp. cbn. unfold still in Ew.
    rewrite (to_stamps _ _ Hqt) in Ew. by rewrite Ew.
Qed.

Lemma publish_slot_index k x :
  x ∈ set_at (waiters_by_slot s) k ∧ ¬ (x ∈ ws ∧ ∃ q, pending s !! x = Some q ∧ still q = [] ∧ k ∈ registered_slots q) ↔
  ∃ q', (λ q, q <| stamp_waits := still q |>) <$> pending s !! x = Some q' ∧ k ∈ registered_slots q' ∧ stamp_waits q' ≠ [].
Proof.
  rewrite (ag_slot_index _ _ _ Ha). split.
  - intros [(q & Eq & Hk & Hne) Hn]. rewrite Eq. cbn. eexists. split; [done|]. cbn. split; [done|]. intros Es.
    apply Hn. destruct (publish_waiter x q Eq) as [?|Ew]; [|congruence]. eauto.
  - intros (q' & (q & Eq & ->)%fmap_Some & Hk & Hne). cbn in *. split.
    + exists q. split_and!; [done..|]. intros E. apply Hne. unfold still. by rewrite E.
    + intros (_ & q' & ? & ? & _). by simplify_eq.
Qed.

Lemma sched_publish_agrees : agrees lo (sched_publish s stamp) (plain_publish p stamp).
Proof.
  destruct sched_publish_fields as (s' & -> & Hp & E1 & E2 & E3 & Hr & Hs & Hn).
  assert (handed (plain_publish p stamp) = handed p) as Eh by done.
  split; rewrite ?Eh.
  - rewrite E1. unfold plain_publish. cbn. unfold m, v, slot. by rewrite (ag_standing _ _ _ Ha).
  - intros x. rewrite Hp, publish_tasks, !fmap_is_Some. apply (ag_dom _ _ _ Ha).
  - intros x q' t'. rewrite Hp, publish_tasks. intros (q & Eq & ->)%fmap_Some (t & Et & ->)%fmap_Some.
    apply publish_task_of. by apply (ag_task _ _ _ Ha x).
  - intros d x t'. rewrite publish_tasks. intros (t & Et & ->)%fmap_Some. unfold deps_of. rewrite E3. apply (ag_deps _ _ _ Ha d x t Et).
  - intros x t' d. rewrite !publish_tasks, fmap_is_Some. intros (t & Et & ->)%fmap_Some. by apply (ag_live _ _ _ Ha x t).
  - intros d. rewrite E3, publish_tasks, fmap_is_Some. apply (ag_keys _ _ _ Ha).
  - intros x. rewrite publish_tasks, fmap_is_Some. unfold deps_of. rewrite E3. apply (ag_old _ _ _ Ha).
  - intros k x. rewrite Hs, Hp. apply publish_slot_index.
  - done.
  - intros x q' w. rewrite Hp, E1. intros (q & Eq & ->)%fmap_Some. cbn. intros [? Hw]%list_elem_of_filter. split; [|done].
    by apply (ag_slots _ _ _ Ha x q w Eq).
  - intros pl x. rewrite E2, publish_tasks, (ag_pipe_index _ _ _ Ha). split.
    + intros (t & -> & ?). eexists. by split.
    + intros (t' & (t & -> & ->)%fmap_Some & ?). by exists t.
  - rewrite E2. apply Ha.
  - intros x. rewrite Hr. apply publish_ready.
  - intros x Hx. apply (ag_handed _ _ _ Ha), free_tasks_in in Hx as (t & Et & Hf). apply free_tasks_in.
    rewrite publish_tasks, Et. eexists. split; [done|by apply unstamp_free].
Qed.
End publishing.

(** ** Pipelines *)
Section pipelines.
Context (lo : Z) (s : Scheduler) (p : plain) (pl : ResourceId).
Hypothesis Ha : agrees lo s p.
Let ws := ascending (set_at (waiters_by_pipeline s) pl).
Definition unpipe (q : Pending) : Pending := q <| pipeline_waits := filter (λ id, id ≠ pl) (pipeline_waits q) |>.

Lemma built_all_ok l : NoDup l → ∀ s0, let s' := foldl (built pl) s0 l in
  (∀ x, pending s' !! x = if decide (x ∈ l) then unpipe <$> pending s0 !! x else pending s0 !! x) ∧
  published s' = published s0 ∧ waiters_by_slot s' = waiters_by_slot s0 ∧
  waiters_by_pipeline s' = waiters_by_pipeline s0 ∧ dependents s' = dependents s0 ∧
  ∀ x, x ∈ ready s' ↔ x ∈ ready s0 ∨ (x ∈ l ∧ ∃ q, pending s0 !! x = Some q ∧ is_ready (unpipe q) = true).
Proof.
  induction 1 as [|w l Hw _ IH]; intros s0; cbn.
  { split_and!; try done. intros x. split; [by left|]. by intros [?|[?%elem_of_nil _]]. }
  destruct (IH (built pl s0 w)) as (P & -> & -> & -> & -> & R). unfold built in *.
  destruct (pending s0 !! w) as [q|] eqn:E.
  - change (set_field pipeline_waits _ q) with (unpipe q) in *.
    assert (∀ x, x ∈ l → x ≠ w) as Hne by (by intros x ? ->). split_and!; try (by destruct (is_ready (unpipe q))).
    + intros x. rewrite P. destruct (is_ready (unpipe q)); cbn; (destruct (decide (x = w)) as [->|Hx];
        [rewrite lookup_insert_eq, decide_False, decide_True, E by (done || left); done|];
        rewrite lookup_insert_ne by done; repeat case_decide; set_solver).
    + intros x. rewrite R. destruct (is_ready (unpipe q)) eqn:Eq; cbn; (destruct (decide (x = w)) as [->|Hx];
        [rewrite ?elem_of_union, ?elem_of_singleton, E|rewrite ?elem_of_union, ?elem_of_singleton, lookup_insert_ne, elem_of_cons by done; tauto]).
      * split; [|tauto]. intros _. right. split; [left|]. eauto.
      * split; [tauto|]. intros [?|[_ (q' & [= <-] & ?)]]; [by left|congruence].
  - split_and!; try done.
    + intros x. rewrite P. destruct (decide (x = w)) as [->|Hx]; [rewrite E; by repeat case_decide|]. repeat case_decide; set_solver.
    + intros x. rewrite R, elem_of_cons. split; [tauto|]. intros [?|[[->|?] ?]]; [tauto|naive_solver|tauto].
Qed.

Lemma pipe_waiter x : x ∈ ws ↔ ∃ t, tasks p !! x = Some t ∧ pl ∈ t_pipes t.
Proof. unfold ws. rewrite ascending_in. apply (ag_pipe_index _ _ _ Ha). Qed.
Lemma without_same l : pl ∉ l → without pl l = l.
Proof. intros Hn. apply filter_all_in. intros y Hy ->. done. Qed.
Lemma set_at_delete k x :
  x ∈ set_at (base.delete pl (waiters_by_pipeline s)) k ↔ x ∈ set_at (waiters_by_pipeline s) k ∧ k ≠ pl.
Proof.
  unfold set_at. destruct (decide (k = pl)) as [->|Hne]; [rewrite lookup_delete_eq; cbn; set_solver|].
  rewrite lookup_delete_ne by done. tauto.
Qed.
Lemma no_empty_delete : no_empty (base.delete pl (waiters_by_pipeline s)).
Proof. intros k X. rewrite lookup_delete_Some. intros [_ ?]. by apply (ag_pipe_sets _ _ _ Ha k). Qed.

Lemma sched_pipeline_ready_fields :
  ∃ s', sched_pipeline_ready s pl = s' ∧
  (∀ x, pending s' !! x = if decide (x ∈ ws) then unpipe <$> pending s !! x else pending s !! x) ∧
  published s' = published s ∧ waiters_by_slot s' = waiters_by_slot s ∧
  waiters_by_pipeline s' = base.delete pl (waiters_by_pipeline s) ∧ dependents s' = dependents s ∧
  ∀ x, x ∈ ready s' ↔ x ∈ ready s ∨ (x ∈ ws ∧ ∃ q, pending s !! x = Some q ∧ is_ready (unpipe q) = true).
Proof.
  set (s0 := s <| waiters_by_pipeline := base.delete pl (waiters_by_pipeline s) |>).
  assert (sched_pipeline_ready s pl = foldl (built pl) s0 ws) as ->.
  { unfold sched_pipeline_ready, ws, set_at. destruct (waiters_by_pipeline s !! pl) eqn:E; [done|]. cbn.
    unfold s0. rewrite delete_id by done. by destruct s. }
  eexists. split; [reflexivity|]. apply (built_all_ok ws (ascending_nodup _) s0).
Qed.

Definition unpiped (t : task) : task := t <| t_pipes := without pl (t_pipes t) |>.
Lemma unpipe_task_of x q t : pending s !! x = Some q → tasks p !! x = Some t →
  task_of (if decide (x ∈ ws) then unpipe q else q) (unpiped t).
Proof.
  intros Eq Et. destruct (ag_task _ _ _ Ha x q t Eq Et) as [H1 H2 H3 H4 H5]. case_decide as Hx.
  - apply pipe_waiter in Hx as (t' & Et' & Hpl). assert (t' = t) as -> by congruence. split; try done; cbn; unfold without.
    + intros k [? ?]%list_elem_of_filter. apply list_elem_of_filter. auto.
    + rewrite H5. setoid_rewrite list_elem_of_filter. split; [intros (k & ? & ?)|intros (k & [? ?] & Hn)]; exists k.
      * split; [split; [by intros ->|done]|tauto].
      * split; [done|]. intros ?. by apply Hn.
  - assert (pl ∉ t_pipes t) as Hn by (intros ?; apply Hx, pipe_waiter; eauto).
    replace (unpiped t) with t; [by split|]. unfold unpiped. rewrite (without_same _ Hn). by destruct t.
Qed.
Lemma unpiped_free t : free t = true → free (unpiped t) = true.
Proof. unfold free, unpiped, without. cbn. intros H. reflect_bools. destruct (t_pipes t); [|done]. cbn. by rewrite H, H2, H0. Qed.

Lemma pipe_ready x :
  (x ∈ ready s ∨ (x ∈ ws ∧ ∃ q, pending s !! x = Some q ∧ is_ready (unpipe q) = true)) ↔
  x ∈ free_tasks (plain_pipeline_ready p pl) ∧ x ∉ handed p.
Proof.
  rewrite free_tasks_in. cbn. rewrite lookup_fmap. fold unpiped.
  pose proof (ag_ready _ _ _ Ha x) as Hr. pose proof (ag_handed _ _ _ Ha x) as Hh. rewrite free_tasks_in in Hr, Hh. split.
  - intros [[(t & -> & Hf) Hn]%Hr|(Hx & q & Eq & Hq)]; [split; [eexists; split; [done|by apply unpiped_free]|done]|].
    apply pipe_waiter in Hx as Ht. destruct Ht as (t & Et & Hpl). rewrite Et. pose proof (unpipe_task_of x q t Eq Et) as Ho.
    rewrite decide_True in Ho by done. rewrite (is_ready_free _ _ Ho) in Hq. split; [by eexists|].
    intros Hin. destruct (Hh Hin) as (t' & Et' & Hf). assert (t' = t) as -> by congruence.
    unfold free in Hf. destruct (t_pipes t); [by apply elem_of_nil in Hpl|]. by rewrite andb_false_r in Hf.
  - intros [(t' & (t & Et & ->)%fmap_Some & Hf) Hn]. destruct (free t) eqn:Eft; [left; apply Hr; eauto|right].
    destruct (decide (pl ∈ t_pipes t)) as [Hpl|Hpl].
    + assert (x ∈ ws) as Hx by (apply pipe_waiter; eauto). split; [done|].
      destruct (proj2 (ag_dom _ _ _ Ha x)) as [q Eq]; [eauto|]. pose proof (unpipe_task_of x q t Eq Et) as Ho.
      rewrite decide_True in Ho by done. exists q. by rewrite (is_ready_free _ _ Ho).
    + unfold unpiped in Hf. rewrite (without_same _ Hpl) in Hf. destruct t; cbn in *. congruence.
Qed.

Lemma sched_pipeline_ready_agrees : agrees lo (sched_pipeline_ready s pl) (plain_pipeline_ready p pl).
Proof.
  destruct sched_pipeline_ready_fields as (s' & -> & Hp & E1 & E2 & E3 & E4 & Hr).
  assert (∀ x, tasks (plain_pipeline_ready p pl) !! x = unpiped <$> tasks p !! x) as Ht by (intros x; cbn; by rewrite lookup_fmap).
  assert (∀ x q', pending s' !! x = Some q' → ∃ q, pending s !! x = Some q ∧ q' = (if decide (x ∈ ws) then unpipe q else q)) as Hq.
  { intros x q'. rewrite Hp. case_decide; [intros (q & ? & ->)%fmap_Some|]; eauto. }
  split.
  - cbn. rewrite E1. apply Ha.
  - intros x. rewrite Ht, Hp, fmap_is_Some, <- (ag_dom _ _ _ Ha). by case_decide; rewrite ?fmap_is_Some.
  - intros x q' t'. rewrite Ht. intros (q & Eq & ->)%Hq (t & Et & ->)%fmap_Some. by apply unpipe_task_of.
  - intros d x t'. rewrite Ht. intros (t & Et & ->)%fmap_Some. unfold deps_of. rewrite E4. apply (ag_deps _ _ _ Ha d x t Et).
  - intros x t' d. rewrite !Ht, fmap_is_Some. intros (t & Et & ->)%fmap_Some. by apply (ag_live _ _ _ Ha x t).
  - intros d. rewrite E4, Ht, fmap_is_Some. apply (ag_keys _ _ _ Ha).
  - intros x. rewrite Ht, fmap_is_Some. unfold deps_of. rewrite E4. apply (ag_old _ _ _ Ha).
  - intros k x. rewrite E2, (ag_slot_index _ _ _ Ha), Hp. case_decide; [|done]. split.
    + intros (q & -> & ? & ?). by exists (unpipe q).
    + intros (q' & (q & -> & ->)%fmap_Some & ? & ?). by exists q.
  - rewrite E2. apply Ha.
  - intros x q' w. rewrite E1. intros (q & Eq & ->)%Hq. case_decide; by apply (ag_slots _ _ _ Ha x q).
  - intros k x. rewrite E3, Ht, set_at_delete, (ag_pipe_index _ _ _ Ha). split.
    + intros [(t & -> & ?) Hne]. exists (unpiped t). split; [done|]. by apply list_elem_of_filter.
    + intros (t' & (t & -> & ->)%fmap_Some & [? ?]%list_elem_of_filter). eauto.
  - rewrite E3. apply no_empty_delete.
  - intros x. rewrite Hr. apply pipe_ready.
  - intros x Hx. apply (ag_handed _ _ _ Ha), free_tasks_in in Hx as (t & Et & Hf). apply free_tasks_in.
    rewrite Ht, Et. eexists. split; [done|by apply unpiped_free].
Qed.

Definition stuck_on (t : task) : task :=
  (t <| t_stuck := t_stuck t || waits_pipe pl t |>) <| t_pipes := without pl (t_pipes t) |>.
Lemma stuck_on_free t : free (stuck_on t) = free t.
Proof.
  unfold free, stuck_on, waits_pipe. cbn. case_bool_decide as Hpl.
  - rewrite orb_true_r. destruct (t_pipes t); [by apply elem_of_nil in Hpl|]. cbn. by rewrite !andb_false_r.
  - by rewrite (without_same _ Hpl), orb_false_r.
Qed.
Lemma stuck_on_task_of q t : task_of q t → task_of q (stuck_on t).
Proof.
  intros [H1 H2 H3 H4 H5]. split; try done; cbn; unfold without.
  - intros k [_ ?]%list_elem_of_filter. auto.
  - rewrite orb_true_iff, H5. unfold waits_pipe. rewrite bool_decide_eq_true. setoid_rewrite list_elem_of_filter. split.
    + intros [(k & ? & ?)|?]; [exists k; tauto|]. exists pl. split; [auto|]. by intros [? _].
    + intros (k & Hk & Hn). destruct (decide (pl ∈ t_pipes t)) as [?|Hpl]; [by right|left]. exists k. split; [done|].
      intros ?. apply Hn. split; [by intros ->|done].
Qed.
Lemma refused_free_tasks : free_tasks (plain_pipeline_refused p pl).2 = free_tasks p.
Proof.
  apply set_eq. intros x. rewrite !free_tasks_in. cbn. rewrite lookup_fmap. fold stuck_on. split.
  - intros (t' & (t & -> & ->)%fmap_Some & Hf). change (free (stuck_on t) = true) in Hf. rewrite stuck_on_free in Hf. eauto.
  - intros (t & -> & Hf). exists (stuck_on t). by rewrite stuck_on_free.
Qed.
Lemma sched_pipeline_refused_eq :
  sched_pipeline_refused s pl = (ws, s <| waiters_by_pipeline := base.delete pl (waiters_by_pipeline s) |>).
Proof.
  unfold sched_pipeline_refused. assert (∀ x, x ∈ ws → is_Some (pending s !! x)) as Hp.
  { intros x (t & ? & _)%pipe_waiter. apply (ag_dom _ _ _ Ha). eauto. }
  unfold ws, set_at in *. destruct (waiters_by_pipeline s !! pl) eqn:E; cbn in *.
  - by rewrite (filter_all_in _ _ Hp).
  - rewrite ascending_empty, delete_id by done. by destruct s.
Qed.
Lemma refused_same : ws = (plain_pipeline_refused p pl).1.
Proof.
  cbn. unfold ws. apply ascending_ext. intros x. rewrite (ag_pipe_index _ _ _ Ha), elem_of_dom. unfold is_Some.
  setoid_rewrite map_lookup_filter_Some. cbn. unfold waits_pipe. by setoid_rewrite bool_decide_eq_true.
Qed.

Lemma sched_pipeline_refused_agrees :
  (sched_pipeline_refused s pl).1 = (plain_pipeline_refused p pl).1 ∧
  agrees lo (sched_pipeline_refused s pl).2 (plain_pipeline_refused p pl).2.
Proof.
  rewrite sched_pipeline_refused_eq. split; [apply refused_same|]. cbn [snd]. set (p' := (plain_pipeline_refused p pl).2).
  assert (∀ x, tasks p' !! x = stuck_on <$> tasks p !! x) as Ht by (intros x; cbn; by rewrite lookup_fmap).
  assert (free_tasks p' = free_tasks p) as Ef by apply refused_free_tasks.
  assert (handed p' = handed p) as Eh by done. assert (standing p' = standing p) as Es by done. clearbody p'.
  split; cbn.
  - rewrite Es. apply Ha.
  - intros x. rewrite Ht, fmap_is_Some. apply (ag_dom _ _ _ Ha).
  - intros x q t'. rewrite Ht. intros Eq (t & Et & ->)%fmap_Some. by apply stuck_on_task_of, (ag_task _ _ _ Ha x).
  - intros d x t'. rewrite Ht. intros (t & Et & ->)%fmap_Some. apply (ag_deps _ _ _ Ha d x t Et).
  - intros x t' d. rewrite !Ht, fmap_is_Some. intros (t & Et & ->)%fmap_Some. by apply (ag_live _ _ _ Ha x t).
  - intros d. rewrite Ht, fmap_is_Some. apply (ag_keys _ _ _ Ha).
  - intros x. rewrite Ht, fmap_is_Some. apply (ag_old _ _ _ Ha).
  - apply Ha.
  - apply Ha.
  - apply Ha.
  - intros k x. rewrite Ht, set_at_delete, (ag_pipe_index _ _ _ Ha). split.
    + intros [(t & -> & ?) Hne]. exists (stuck_on t). split; [done|]. by apply list_elem_of_filter.
    + intros (t' & (t & -> & ->)%fmap_Some & [? ?]%list_elem_of_filter). eauto.
  - apply no_empty_delete.
  - intros x. rewrite Ef, Eh. apply (ag_ready _ _ _ Ha).
  - rewrite Ef, Eh. apply (ag_handed _ _ _ Ha).
Qed.
End pipelines.

(** ** Handing out *)
Lemma sched_take_ready_agrees lo s p : agrees lo s p →
  (sched_take_ready s).1 = (plain_take_ready p).1 ∧ agrees lo (sched_take_ready s).2 (plain_take_ready p).2.
Proof.
  intros Ha. split.
  - cbn. apply ascending_ext. intros x. rewrite elem_of_difference. apply (ag_ready _ _ _ Ha).
  - destruct Ha. split; try done; cbn.
    + intros x. change (free_tasks _) with (free_tasks p). set_solver.
    + change (free_tasks _) with (free_tasks p). set_solver.
Qed.
Lemma empty_agrees lo : agrees lo empty_scheduler (mkPlain ∅ ∅ ∅).
Proof.
  split; try done; try (by intros ? []).
  - intros o. cbn. by rewrite !lookup_empty.
  - intros o [[? [=]]|[d Hd]]. by apply elem_of_nil in Hd.
  - intros k o. split; [by intros ?%elem_of_empty|]. by intros (q & [=] & _).
  - intros k o. split; [by intros ?%elem_of_empty|]. by intros (q & [=] & _).
  - intros o. rewrite free_tasks_in. split; [by intros ?%elem_of_empty|]. by intros [(t & [=] & _) _].
Qed.

(** ** Sequences of calls *)
Inductive call :=
  | CAdmit (o : Z) (hazards : list Z) (waits : list StampWait) (pipes : list ResourceId) (c : option CompletionStamp)
  | CComplete (o : Z)
  | CPublish (stamp : CompletionStamp)
  | CPipelineReady (pl : ResourceId)
  | CPipelineRefused (pl : ResourceId)
  | CTakeReady.
Inductive answer := ANothing | AReady (b : bool) | AStamp (c : option CompletionStamp) | AList (l : list Z).

Definition sched_call (s : Scheduler) (c : call) : option (answer * Scheduler) :=
  match c with
  | CAdmit o hazards waits pipes c => let '(b, s) := sched_admit s o hazards waits pipes c in Some (AReady b, s)
  | CComplete o => match sched_complete s o with Some (c, s) => Some (AStamp c, s) | None => None end
  | CPublish stamp => Some (ANothing, sched_publish s stamp)
  | CPipelineReady pl => Some (ANothing, sched_pipeline_ready s pl)
  | CPipelineRefused pl => let '(l, s) := sched_pipeline_refused s pl in Some (AList l, s)
  | CTakeReady => let '(l, s) := sched_take_ready s in Some (AList l, s)
  end.
(** The reference refuses exactly one thing: to complete a transaction it does not hold. *)
Definition plain_call (p : plain) (c : call) : option (answer * plain) :=
  match c with
  | CAdmit o hazards waits pipes c =>
      let p := plain_admit p o hazards waits pipes c in Some (AReady (bool_decide (o ∈ free_tasks p)), p)
  | CComplete o =>
      match tasks p !! o with Some t => Some (AStamp (t_completion t), plain_complete p o) | None => None end
  | CPublish stamp => Some (ANothing, plain_publish p stamp)
  | CPipelineReady pl => Some (ANothing, plain_pipeline_ready p pl)
  | CPipelineRefused pl => let '(l, p) := plain_pipeline_refused p pl in Some (AList l, p)
  | CTakeReady => let '(l, p) := plain_take_ready p in Some (AList l, p)
  end.
Fixpoint answers {St} (step : St → call → option (answer * St)) (st : St) (cs : list call) : option (list answer) :=
  match cs with
  | [] => Some []
  | c :: cs =>
      match step st c with
      | Some (a, st) => match answers step st cs with Some l => Some (a :: l) | None => None end
      | None => None
      end
  end.
(** Ordinals are handed out in increasing order. *)
Fixpoint in_order (lo : Z) (cs : list call) : bool :=
  match cs with
  | [] => true
  | CAdmit o _ _ _ _ :: cs => (lo <? o) && in_order o cs
  | _ :: cs => in_order lo cs
  end.

Lemma complete_absent lo s p o : agrees lo s p → tasks p !! o = None → sched_complete s o = None.
Proof.
  intros Ha Ht. unfold sched_complete. destruct (pending s !! o) eqn:E; [|done].
  destruct (proj1 (ag_dom _ _ _ Ha o)) as [t ?]; [eauto|congruence].
Qed.
Lemma call_agrees lo s p c cs : agrees lo s p → in_order lo (c :: cs) = true →
  match sched_call s c, plain_call p c with
  | Some (a, s'), Some (b, p') => a = b ∧ ∃ lo', agrees lo' s' p' ∧ in_order lo' cs = true
  | None, None => True
  | _, _ => False
  end.
Proof.
  intros Ha Hc. destruct c as [o hazards waits pipes c|o|stamp|pl|pl|]; cbn in Hc.
  - apply andb_true_iff in Hc as [Hlo%Z.ltb_lt Hc].
    destruct (sched_admit_agrees lo s p o hazards waits pipes c Ha Hlo) as [H1 H2].
    cbn -[sched_admit plain_admit]. destruct (sched_admit s o hazards waits pipes c) as [b s']. cbn in H1, H2. subst b. eauto.
  - cbn -[sched_complete plain_complete]. destruct (tasks p !! o) as [t|] eqn:Ht; [|by rewrite (complete_absent lo s p o Ha Ht)].
    destruct (proj2 (ag_dom _ _ _ Ha o)) as [q Hq]; [eauto|].
    destruct (sched_complete_agrees lo s p o q t Ha Hq Ht) as (s' & -> & ?). eauto.
  - cbn -[sched_publish plain_publish]. eauto using sched_publish_agrees.
  - cbn -[sched_pipeline_ready plain_pipeline_ready]. eauto using sched_pipeline_ready_agrees.
  - destruct (sched_pipeline_refused_agrees lo s p pl Ha) as [H1 H2]. cbn -[sched_pipeline_refused plain_pipeline_refused].
    destruct (sched_pipeline_refused s pl), (plain_pipeline_refused p pl). cbn in H1, H2. subst. eauto.
  - destruct (sched_take_ready_agrees lo s p Ha) as [H1 H2]. cbn -[sched_take_ready plain_take_ready].
    destruct (sched_take_ready s), (plain_take_ready p). cbn in H1, H2. subst. eauto.
Qed.
Lemma answers_agree cs : ∀ lo s p, agrees lo s p → in_order lo cs = true →
  answers sched_call s cs = answers plain_call p cs.
Proof.
  induction cs as [|c cs IH]; intros lo s p Ha Ho; [done|]. pose proof (call_agrees lo s p c cs Ha Ho) as H. cbn [answers].
  destruct (sched_call s c) as [[a s']|], (plain_call p c) as [[b p']|]; try done.
  destruct H as (<- & lo' & Ha' & Ho'). by rewrite (IH lo' s' p' Ha' Ho').
Qed.

(** C13: The readiness service is exactly "may begin once nothing is left to wait for".  For
    every sequence of calls whose admissions carry increasing ordinals, the scheduler, with
    its hazard counts, its per-slot and per-pipeline waiter sets and its ready queue, gives
    the answers of the reference that keeps each transaction's remaining hazards, stamps and
    pipelines as lists and looks through all of them: the same transactions become ready,
    each is handed out once and in order, the same ones are refused with a pipeline, the same
    stamps are to be published.  It panics exactly when a transaction that is not pending is
    completed, so no hazard count ever goes below zero. *)
Theorem scheduler_refines (lo : Z) (cs : list call) (Hcs : in_order lo cs = true) :
  answers sched_call empty_scheduler cs = answers plain_call (mkPlain ∅ ∅ ∅) cs.
Proof. by apply (answers_agree cs lo); [apply empty_agrees|]. Qed.

Definition run_example : list call :=
  [CAdmit 1 [] [] [] (Some (mkStamp 7 1)); CAdmit 2 [1] [mkWait 7 1] [] None;
   CAdmit 3 [] [] [mkResourceId 4 1] None; CTakeReady; CComplete 1; CTakeReady; CPublish (mkStamp 7 1); CTakeReady;
   CPipelineRefused (mkResourceId 4 1); CComplete 3; CComplete 2].
Lemma scheduler_refines_witness :
  in_order 0 run_example = true ∧
  answers sched_call empty_scheduler run_example = answers plain_call (mkPlain ∅ ∅ ∅) run_example ∧
  answers sched_call empty_scheduler run_example =
    Some [AReady true; AReady false; AReady false; AList [1]; AStamp (Some (mkStamp 7 1)); AList []; ANothing; AList [2];
          AList [3]; AStamp None; AStamp None].
Proof.
  split; [reflexivity|]. split; [apply (scheduler_refines 0); reflexivity|]. vm_compute. reflexivity.
Defined.

(** A transaction that has completed is no longer pending, so [stalled] counts its waiters
    even while its stamp is only held back for its turn: here 2 is named as stalled, and the
    publication of the stamp 1 completed with frees it. *)
Lemma stalled_names_a_late_publication :
  let s := (sched_admit empty_scheduler 1 [] [] [] (Some (mkStamp 7 1))).2 in
  let s := (sched_admit s 2 [] [mkWait 7 1] [] None).2 in
  stalled s = [] ∧
  match sched_complete s 1 with
  | Some (Some c, s') => stalled s' = [2] ∧ (sched_take_ready (sched_publish s' c)).1 = [2]
  | _ => False
  end.
Proof. vm_compute. by split. Qed.
