(* ===== verification/Publish.v ===== *)
(** Ordered publication: src/reims-vgpu/crates/reims-vgpu-core/src/publish.rs.

    A channel's completion words become readable in the order its positions were admitted:
    work may finish in any order, and a finished position is held until every earlier one of
    its channel has finished or been withdrawn.  A call that would panic returns [None]. *)
From S2P Require Import Prelude RangeSet Access Depend Ready.

Record Release := mkRelease { rel_sequence : Z; rel_stamp : option CompletionStamp }.
Inductive RetireRefusal := LivePositions (outstanding : nat).
Record Domain := mkDomain { order : list Z; finished : gmap Z (option CompletionStamp); admitted_through : option Z }.
#[export] Instance eta_domain : Settable Domain := λ d, mkDomain (order d) (finished d) (admitted_through d).
Record Publisher := mkPublisher { domains : gmap Z Domain; released : nat }.
#[export] Instance eta_publisher : Settable Publisher := λ p, mkPublisher (domains p) (released p).
Definition empty_domain : Domain := mkDomain [] ∅ None.
Definition empty_publisher : Publisher := mkPublisher ∅ 0.

Definition pub_admit (p : Publisher) (domain sequence : Z) : option Publisher :=
  let queue := default empty_domain (domains p !! domain) in
  if match admitted_through queue with Some last => last <? sequence | None => true end then
    let queue := queue <| admitted_through := Some sequence |> in
    let queue := queue <| order := order queue ++ [sequence] |> in
    Some (p <| domains := <[domain := queue]> (domains p) |>)
  else None.

(** The finished prefix of a queue, and what is left of it. *)
Fixpoint drain_from (order : list Z) (finished : gmap Z (option CompletionStamp)) :
    list Release * (list Z * gmap Z (option CompletionStamp)) :=
  match order with
  | [] => ([], ([], finished))
  | head :: rest =>
      match finished !! head with
      | None => ([], (order, finished))
      | Some stamp => let '(out, q) := drain_from rest (base.delete head finished) in (mkRelease head stamp :: out, q)
      end
  end.
Definition drain (queue : Domain) : list Release * Domain :=
  let '(out, (o, f)) := drain_from (order queue) (finished queue) in (out, (queue <| order := o |>) <| finished := f |>).
Definition drained (p : Publisher) (domain : Z) (queue : Domain) : list Release * Publisher :=
  let '(out, queue) := drain queue in
  (out, (p <| domains := <[domain := queue]> (domains p) |>) <| released := (released p + length out)%nat |>).

Definition pub_complete (p : Publisher) (domain sequence : Z) (stamp : option CompletionStamp) :
    option (list Release * Publisher) :=
  match domains p !! domain with
  | None => None
  | Some queue =>
      if bool_decide (sequence ∈ order queue) then
        match finished queue !! sequence with
        | Some _ => None
        | None => Some (drained p domain (queue <| finished := <[sequence := stamp]> (finished queue) |>))
        end
      else None
  end.

(** VecDeque::remove at the first place that holds [x]. *)
Fixpoint remove_first (x : Z) (l : list Z) : option (list Z) :=
  match l with
  | [] => None
  | y :: l => if y =? x then Some l else match remove_first x l with Some l => Some (y :: l) | None => None end
  end.
Definition pub_withdraw (p : Publisher) (domain sequence : Z) : option (list Release * Publisher) :=
  match domains p !! domain with
  | None => None
  | Some queue =>
      match finished queue !! sequence with
      | Some _ => None
      | None =>
          match remove_first sequence (order queue) with
          | None => None
          | Some order' => Some (drained p domain (queue <| order := order' |>))
          end
      end
  end.

Definition outstanding (p : Publisher) (domain : Z) : nat :=
  match domains p !! domain with Some q => length (order q) | None => 0 end.
Definition pub_head (p : Publisher) (domain : Z) : option Z :=
  match domains p !! domain with Some q => head (order q) | None => None end.
Definition blocked (p : Publisher) : list (Z * nat) :=
  omap (λ d, match domains p !! d with
             | Some q => if (size (finished q) =? 0)%nat then None else Some (d, size (finished q))
             | None => None
             end) (ascending (dom (domains p))).
Definition pub_retire (p : Publisher) (domain : Z) : (unit + RetireRefusal) * Publisher :=
  let n := outstanding p domain in
  if (0 <? n)%nat then (inr (LivePositions n), p) else (inl tt, p <| domains := base.delete domain (domains p) |>).

(** ** The reference

    What was said of each position of a channel, in order of admission. *)
Inductive status := SOpen | SDone (stamp : option CompletionStamp) | SGone.
Abbreviation ledger := (list (Z * status)).

(** What the guest may read: the finished positions before the first open one. *)
Fixpoint due (l : ledger) : list Release :=
  match l with
  | [] => []
  | (s, SDone c) :: l => mkRelease s c :: due l
  | (s, SGone) :: l => due l
  | (s, SOpen) :: l => []
  end.
Definition is_open (e : Z * status) : bool := match e.2 with SOpen => true | _ => false end.
Definition all_settled (l : ledger) : bool := forallb (λ e, negb (is_open e)) l.
Definition open_at (l : ledger) (s : Z) : bool := existsb (λ e, (e.1 =? s) && is_open e) l.
Definition mark (s : Z) (st : status) (l : ledger) : ledger := (λ e, if e.1 =? s then (s, st) else e) <$> l.
Definition newer_than (l : ledger) (s : Z) : bool := match last l with Some e => e.1 <? s | None => true end.
(** The positions from the first open one on, and those of them not withdrawn. *)
Fixpoint from_open (l : ledger) : ledger :=
  match l with [] => [] | e :: l' => if is_open e then l else from_open l' end.
Definition kept (e : Z * status) : bool := match e.2 with SGone => false | _ => true end.
Definition held (l : ledger) : ledger := filter (λ e, kept e = true) (from_open l).

Inductive pcall :=
  | PAdmit (domain sequence : Z) | PComplete (domain sequence : Z) (stamp : option CompletionStamp)
  | PWithdraw (domain sequence : Z) | PRetire (domain : Z).
Inductive panswer := PNothing | PReleases (l : list Release) | PRetired (r : unit + RetireRefusal).
Definition pub_call (p : Publisher) (c : pcall) : option (panswer * Publisher) :=
  match c with
  | PAdmit d s => match pub_admit p d s with Some p => Some (PNothing, p) | None => None end
  | PComplete d s c => match pub_complete p d s c with Some (l, p) => Some (PReleases l, p) | None => None end
  | PWithdraw d s => match pub_withdraw p d s with Some (l, p) => Some (PReleases l, p) | None => None end
  | PRetire d => let '(r, p) := pub_retire p d in Some (PRetired r, p)
  end.

(** A position is settled once, while it is open, and what has become due since is published. *)
Definition settle (m : gmap Z ledger) (d s : Z) (st : status) : option (panswer * gmap Z ledger) :=
  let l := default [] (m !! d) in
  if open_at l s then
    Some (PReleases (drop (length (due l)) (due (mark s st l))), <[d := mark s st l]> m)
  else None.
Definition ledger_call (m : gmap Z ledger) (c : pcall) : option (panswer * gmap Z ledger) :=
  match c with
  | PAdmit d s =>
      let l := default [] (m !! d) in
      if newer_than l s then Some (PNothing, <[d := l ++ [(s, SOpen)]]> m) else None
  | PComplete d s c => settle m d s (SDone c)
  | PWithdraw d s => settle m d s SGone
  | PRetire d =>
      let l := default [] (m !! d) in
      if all_settled l then Some (PRetired (inl tt), base.delete d m)
      else Some (PRetired (inr (LivePositions (length (held l)))), m)
  end.
Fixpoint panswers {St} (step : St → pcall → option (panswer * St)) (st : St) (cs : list pcall) : option (list panswer) :=
  match cs with
  | [] => Some []
  | c :: cs =>
      match step st c with
      | Some (a, st) => match panswers step st cs with Some l => Some (a :: l) | None => None end
      | None => None
      end
  end.

(** ** Draining *)
Fixpoint done_map (l : ledger) : gmap Z (option CompletionStamp) :=
  match l with
  | [] => ∅
  | (s, SDone c) :: l => <[s := c]> (done_map l)
  | _ :: l => done_map l
  end.
Lemma done_map_out s l : s ∉ l.*1 → done_map l !! s = None.
Proof.
  induction l as [|[s' [|c|]] l IH]; cbn; [done|..]; intros Hs; rewrite ?not_elem_of_cons in Hs; destruct Hs; auto.
  rewrite lookup_insert_ne by done. auto.
Qed.
Lemma done_map_app l1 l2 : done_map (l1 ++ l2) = done_map l1 ∪ done_map l2.
Proof.
  induction l1 as [|[s [|c|]] l1 IH]; cbn; [by rewrite (left_id_L ∅ (∪))|..]; rewrite ?IH; try done.
  by rewrite insert_union_l.
Qed.
Abbreviation keeps l := (filter (λ e, kept e = true) l).
Lemma keeps_cons e l : keeps (e :: l) = if kept e then e :: keeps l else keeps l.
Proof. rewrite filter_cons. destruct (kept e); by case_decide. Qed.
Lemma done_map_kept l : done_map (keeps l) = done_map l.
Proof. induction l as [|[s [|c|]] l IH]; [done|..]; rewrite keeps_cons; cbn; congruence. Qed.
Lemma keeps_in x l : x ∈ (keeps l).*1 → x ∈ l.*1.
Proof. intros (e & -> & [_ He]%list_elem_of_filter)%list_elem_of_fmap. by apply list_elem_of_fmap_2. Qed.

(** Draining a queue releases what is due of its ledger and keeps what is held. *)
Lemma drain_ledger l : NoDup l.*1 →
  drain_from (keeps l).*1 (done_map l) = (due l, ((held l).*1, done_map (held l))).
Proof.
  unfold held. induction l as [|[s st] l IH]; cbn [fmap list_fmap]; [done|]. intros [Hs Hl]%NoDup_cons. rewrite keeps_cons.
  destruct st as [|c|]; cbn; [| |by rewrite IH].
  - rewrite (done_map_out s l Hs), decide_True by done. cbn. by rewrite done_map_kept.
  - rewrite lookup_insert_eq, delete_insert_eq, delete_id by (by apply done_map_out). by rewrite IH.
Qed.

(** ** Settling a position *)
Lemma from_open_split l : ∃ pre, l = pre ++ from_open l ∧ all_settled pre = true.
Proof.
  induction l as [|e l (pre & E & H)]; cbn; [by exists []|]. destruct (is_open e) eqn:Ee; [by exists []|].
  exists (e :: pre). cbn. rewrite Ee. split; [by rewrite E at 1|done].
Qed.
Lemma due_app pre l : all_settled pre = true → due (pre ++ l) = due pre ++ due l.
Proof. induction pre as [|[s [|c|]] pre IH]; cbn; [done|done|..]; intros ?; by rewrite IH. Qed.
Lemma due_from_open l : due (from_open l) = [].
Proof. induction l as [|[s [|c|]] l IH]; cbn; done. Qed.
Lemma from_open_app pre l : all_settled pre = true → from_open (pre ++ l) = from_open l.
Proof. induction pre as [|[s [|c|]] pre IH]; cbn; [done|done|..]; intros ?; by rewrite IH. Qed.
Lemma open_at_app l1 l2 s : open_at (l1 ++ l2) s = open_at l1 s || open_at l2 s.
Proof. apply existsb_app. Qed.
Lemma settled_not_open pre s : all_settled pre = true → open_at pre s = false.
Proof.
  induction pre as [|e pre IH]; cbn; [done|]. rewrite andb_true_iff. intros [He%negb_true_iff Hp]. rewrite He, andb_false_r. by apply IH.
Qed.
Lemma open_at_split l s : open_at l s = true → NoDup l.*1 →
  ∃ l1 l2, l = l1 ++ (s, SOpen) :: l2 ∧ s ∉ l1.*1 ∧ s ∉ l2.*1.
Proof.
  intros (e & He & [E%Z.eqb_eq Ho]%andb_true_iff)%existsb_exists Hd. apply list_elem_of_In in He.
  apply list_elem_of_split in He as (l1 & l2 & ->). destruct e as [s' st]. cbn in E. subst s'.
  exists l1, l2. destruct st; try done. split; [done|]. rewrite fmap_app in Hd. cbn in Hd.
  apply NoDup_app in Hd as (_ & H1 & [H2 _]%NoDup_cons). split; [|done]. intros Hs. apply (H1 s Hs). left.
Qed.
Lemma mark_out s st l : s ∉ l.*1 → mark s st l = l.
Proof.
  induction l as [|[s' st'] l IH]; cbn; [done|]. intros [Hs Hl]%not_elem_of_cons. rewrite (proj2 (Z.eqb_neq s' s)) by done.
  unfold mark in IH. by rewrite IH.
Qed.
Lemma mark_split s st l1 l2 st0 : s ∉ l1.*1 → s ∉ l2.*1 → mark s st (l1 ++ (s, st0) :: l2) = l1 ++ (s, st) :: l2.
Proof.
  intros H1 H2. pose proof (mark_out s st l1 H1) as E1. pose proof (mark_out s st l2 H2) as E2. unfold mark in *.
  rewrite fmap_app. cbn. by rewrite E1, E2, Z.eqb_refl.
Qed.
Lemma mark_keys s st l : (mark s st l).*1 = l.*1.
Proof.
  unfold mark. rewrite <- list_fmap_compose. apply list_fmap_ext. intros i [s' st'] _. cbn. destruct (Z.eqb_spec s' s); cbn; congruence.
Qed.

(** Settling an open position: it is among the held ones, what becomes due follows what was
    due, and the held ones are those of the queue with that position settled. *)
Lemma settle_split l s st : open_at l s = true → NoDup l.*1 →
  ∃ r1 r2, from_open l = r1 ++ (s, SOpen) :: r2 ∧ s ∉ r1.*1 ∧ s ∉ r2.*1 ∧ NoDup (r1 ++ (s, st) :: r2).*1 ∧
    drop (length (due l)) (due (mark s st l)) = due (r1 ++ (s, st) :: r2) ∧
    held (mark s st l) = held (r1 ++ (s, st) :: r2).
Proof.
  intros Ho Hd. destruct (from_open_split l) as (pre & E & Hp). rewrite E in Ho, Hd.
  rewrite open_at_app, (settled_not_open pre s Hp) in Ho. cbn in Ho.
  rewrite fmap_app in Hd. apply NoDup_app in Hd as (_ & Hpre & Hd).
  destruct (open_at_split _ s Ho Hd) as (r1 & r2 & Er & H1 & H2). exists r1, r2.
  assert (s ∉ pre.*1) as Hs. { intros Hs. apply (Hpre s Hs). rewrite Er, fmap_app. apply elem_of_app. right. left. }
  assert (mark s st l = pre ++ r1 ++ (s, st) :: r2) as Em.
  { rewrite E, Er. unfold mark at 1. rewrite fmap_app. fold (mark s st pre) (mark s st (r1 ++ (s, SOpen) :: r2)).
    by rewrite mark_out, mark_split. }
  split; [done|]. split_and!; try done.
  - rewrite Er, fmap_app in Hd. by rewrite fmap_app.
  - rewrite Em. rewrite (due_app _ _ Hp). rewrite E at 1. rewrite (due_app _ _ Hp), due_from_open, app_nil_r. by rewrite drop_app_length.
  - unfold held. by rewrite Em, (from_open_app _ _ Hp).
Qed.

#[global] Arguments mark : simpl never.
#[global] Arguments open_at : simpl never.
#[global] Arguments all_settled : simpl never.
#[global] Arguments held : simpl never.

(** ** Agreement with the reference *)
Record queue_of (q : Domain) (l : ledger) : Prop := {
  qo_order : order q = (held l).*1;
  qo_finished : finished q = done_map (held l);
  qo_through : admitted_through q = fst <$> last l;
  qo_sorted : StronglySorted Z.lt l.*1 }.
Definition publishes (p : Publisher) (m : gmap Z ledger) : Prop :=
  ∀ d, match domains p !! d, m !! d with Some q, Some l => queue_of q l | None, None => True | _, _ => False end.
Lemma empty_publishes : publishes empty_publisher ∅.
Proof. intros d. cbn. by rewrite !lookup_empty. Qed.
Lemma queue_default p m d : publishes p m → queue_of (default empty_domain (domains p !! d)) (default [] (m !! d)).
Proof. intros H. specialize (H d). destruct (domains p !! d), (m !! d); try done. split; try done. constructor. Qed.
Lemma publishes_insert p m d q l n : publishes p m → queue_of q l →
  publishes (mkPublisher (<[d := q]> (domains p)) n) (<[d := l]> m).
Proof.
  intros H Hq d'. cbn. destruct (decide (d = d')) as [<-|Hne]; [by rewrite !lookup_insert_eq|].
  rewrite !lookup_insert_ne by done. apply H.
Qed.
Lemma sorted_nodup (l : list Z) : StronglySorted Z.lt l → NoDup l.
Proof.
  induction 1 as [|x l _ IH Hx]; constructor; [|done]. intros Hin. rewrite Forall_forall in Hx. specialize (Hx x Hin). lia.
Qed.

Lemma held_in s l : s ∈ (held l).*1 → s ∈ l.*1.
Proof.
  intros Hs%keeps_in. destruct (from_open_split l) as (pre & E & _). rewrite E, fmap_app. apply elem_of_app. by right.
Qed.
(** The queue holds a position as unfinished exactly when the ledger has it open. *)
Lemma queue_open q l s : queue_of q l → (s ∈ order q ∧ finished q !! s = None) ↔ open_at l s = true.
Proof.
  intros [Eo Ef _ Hs]. rewrite Eo, Ef. apply sorted_nodup in Hs as Hd. split.
  - intros [Hin Hf]. apply list_elem_of_fmap in Hin as ([s' st] & -> & He). cbn in *.
    apply list_elem_of_split in He as (h1 & h2 & E). rewrite E, done_map_app in Hf.
    assert ((s', st) ∈ from_open l ∧ kept (s', st) = true) as [Hl Hk].
    { assert ((s', st) ∈ held l) as Hh by (rewrite E; apply elem_of_app; right; left). by apply list_elem_of_filter in Hh as [? ?]. }
    destruct (from_open_split l) as (pre & El & _). apply existsb_exists. exists (s', st).
    split; [apply list_elem_of_In; rewrite El; apply elem_of_app; by right|]. cbn. rewrite Z.eqb_refl.
    destruct st as [|c|]; [done| |done]. exfalso. apply lookup_union_None in Hf as [_ Hf]. cbn in Hf.
    by rewrite lookup_insert_eq in Hf.
  - intros Ho. destruct (settle_split l s SOpen Ho Hd) as (r1 & r2 & E & H1 & H2 & _). unfold held. rewrite E.
    rewrite done_map_kept, filter_app, fmap_app, keeps_cons. cbn. split; [apply elem_of_app; right; left|].
    rewrite done_map_app. apply lookup_union_None. split; [|cbn]; by apply done_map_out.
Qed.
Lemma last_keys (l l' : ledger) : l.*1 = l'.*1 → fst <$> last l = fst <$> last l'.
Proof. intros E. by rewrite <- !fmap_last, E. Qed.

(** Settling through the queue, given that the queue already lists the settled position as
    the ledger does. *)
Lemma settle_agrees p m d q l s st q' : publishes p m → queue_of q l → open_at l s = true →
  admitted_through q' = admitted_through q →
  (∀ r1 r2, from_open l = r1 ++ (s, SOpen) :: r2 → s ∉ r1.*1 → s ∉ r2.*1 →
     order q' = (keeps (r1 ++ (s, st) :: r2)).*1 ∧ finished q' = done_map (r1 ++ (s, st) :: r2)) →
  (drained p d q').1 = drop (length (due l)) (due (mark s st l)) ∧
  publishes (drained p d q').2 (<[d := mark s st l]> m).
Proof.
  intros H Hq Ho Et Hr. destruct (settle_split l s st Ho (sorted_nodup _ (qo_sorted _ _ Hq))) as (r1 & r2 & E & H1 & H2 & Hd & Edue & Eheld).
  destruct (Hr r1 r2 E H1 H2) as [Eo Ef]. unfold drained, drain. rewrite Eo, Ef, (drain_ledger _ Hd). cbn. split; [done|].
  apply publishes_insert; [done|]. split; cbn; rewrite ?Eheld; try done.
  - rewrite Et, (qo_through _ _ Hq). apply last_keys. by rewrite mark_keys.
  - rewrite mark_keys. apply Hq.
Qed.
Lemma remove_first_split s l1 l2 : s ∉ l1 → remove_first s (l1 ++ s :: l2) = Some (l1 ++ l2).
Proof.
  induction l1 as [|x l1 IH]; cbn; [by rewrite Z.eqb_refl|]. intros [Hx Hl]%not_elem_of_cons.
  rewrite (proj2 (Z.eqb_neq x s)) by done. by rewrite IH.
Qed.
Lemma remove_first_none s l : s ∉ l → remove_first s l = None.
Proof.
  induction l as [|x l IH]; cbn; [done|]. intros [Hx Hl]%not_elem_of_cons. rewrite (proj2 (Z.eqb_neq x s)) by done. by rewrite IH.
Qed.
Lemma split_unique {A} (x : A) l1 l2 l1' l2' : x ∉ l1 → x ∉ l1' → l1 ++ x :: l2 = l1' ++ x :: l2' → l1 = l1' ∧ l2 = l2'.
Proof.
  revert l1'. induction l1 as [|y l1 IH]; intros [|y' l1'] H H' [=]; subst; try done.
  - destruct H'. left.
  - destruct H. left.
  - destruct (IH l1') as [-> ->]; set_solver.
Qed.
Definition stepped (p : option (panswer * Publisher)) (m : option (panswer * gmap Z ledger)) : Prop :=
  match p, m with Some (a, p), Some (b, m) => a = b ∧ publishes p m | None, None => True | _, _ => False end.

Lemma drained_stepped p m d q l s st q' : publishes p m → queue_of q l → open_at l s = true →
  admitted_through q' = admitted_through q →
  (∀ r1 r2, from_open l = r1 ++ (s, SOpen) :: r2 → s ∉ r1.*1 → s ∉ r2.*1 →
     order q' = (keeps (r1 ++ (s, st) :: r2)).*1 ∧ finished q' = done_map (r1 ++ (s, st) :: r2)) →
  stepped (let '(l, p) := drained p d q' in Some (PReleases l, p))
    (Some (PReleases (drop (length (due l)) (due (mark s st l))), <[d := mark s st l]> m)).
Proof.
  intros H Hq Ho Et Hr. destruct (settle_agrees p m d q l s st q' H Hq Ho Et Hr) as [E1 E2].
  destruct (drained p d q') as [out p']. cbn in *. by rewrite E1.
Qed.

Lemma complete_agrees p m d s c : publishes p m → stepped (pub_call p (PComplete d s c)) (ledger_call m (PComplete d s c)).
Proof.
  intros H. unfold pub_call, ledger_call, settle, pub_complete. pose proof (H d) as Hd.
  destruct (domains p !! d) as [q|] eqn:Eq, (m !! d) as [l|] eqn:El; try done.
  change (default [] (Some l)) with l. pose proof (queue_open q l s Hd) as Hop. destruct (open_at l s) eqn:Ho.
  - destruct (proj2 Hop eq_refl) as [Hin Hf]. rewrite bool_decide_eq_true_2, Hf by done.
    eapply drained_stepped; try done. intros r1 r2 E H1 H2. cbn.
    rewrite (qo_order _ _ Hd), (qo_finished _ _ Hd). unfold held. rewrite E, done_map_kept, !filter_app, !keeps_cons. cbn.
    rewrite !fmap_app, !done_map_app. cbn. split; [done|]. rewrite insert_union_r; [done|]. by apply done_map_out.
  - case_bool_decide as Hin; [|done]. destruct (finished q !! s) eqn:Hf; [done|]. discriminate (proj1 Hop (conj Hin eq_refl)).
Qed.
Lemma withdraw_agrees p m d s : publishes p m → stepped (pub_call p (PWithdraw d s)) (ledger_call m (PWithdraw d s)).
Proof.
  intros H. unfold pub_call, ledger_call, settle, pub_withdraw. pose proof (H d) as Hd.
  destruct (domains p !! d) as [q|] eqn:Eq, (m !! d) as [l|] eqn:El; try done.
  change (default [] (Some l)) with l. pose proof (queue_open q l s Hd) as Hop. destruct (open_at l s) eqn:Ho.
  - destruct (proj2 Hop eq_refl) as [Hin Hf]. rewrite Hf.
    destruct (settle_split l s SGone Ho (sorted_nodup _ (qo_sorted _ _ Hd))) as (r1 & r2 & E & H1 & H2 & _).
    assert (order q = (keeps r1).*1 ++ s :: (keeps r2).*1) as Eo.
    { rewrite (qo_order _ _ Hd). unfold held. by rewrite E, filter_app, keeps_cons, fmap_app. }
    rewrite Eo, remove_first_split by (by intros ?%keeps_in).
    eapply drained_stepped; try done. intros r1' r2' E' H1' H2'. cbn.
    assert (r1' = r1 ∧ r2' = r2) as [-> ->].
    { rewrite E in E'. assert (∀ r, s ∉ r.*1 → (s, SOpen) ∉ r) as Hn by (intros r Hr Hi; by apply Hr, (list_elem_of_fmap_2 fst _ _ Hi)).
      destruct (split_unique (s, SOpen) r1 r2 r1' r2') as [-> ->]; auto. }
    rewrite (qo_finished _ _ Hd). unfold held. rewrite E, done_map_kept, !filter_app, keeps_cons, !done_map_app. cbn.
    by rewrite fmap_app.
  - destruct (finished q !! s) eqn:Hf; [done|]. rewrite remove_first_none; [done|]. intros Hin. discriminate (proj1 Hop (conj Hin eq_refl)).
Qed.

Lemma from_open_snoc l e : from_open (l ++ [e]) = if all_settled l then from_open [e] else from_open l ++ [e].
Proof. induction l as [|[s st] l IH]; [done|]. cbn. unfold all_settled in *. cbn. destruct st; cbn; [done|..]; by rewrite IH. Qed.
Lemma settled_from_open l : all_settled l = true ↔ from_open l = [].
Proof. unfold all_settled. induction l as [|[s [|c|]] l IH]; cbn; [done| |done|done]. by split. Qed.
Lemma held_nil l : (0 <? length (held l))%nat = negb (all_settled l).
Proof.
  destruct (all_settled l) eqn:E; [apply settled_from_open in E; unfold held; by rewrite E|].
  apply Nat.ltb_lt. unfold held. induction l as [|[s [|c|]] l IH]; [done|..]; unfold all_settled in E; cbn in E.
  - cbn [from_open is_open snd]. rewrite keeps_cons. cbn. lia.
  - apply IH, E.
  - apply IH, E.
Qed.
Lemma held_snoc l s : held (l ++ [(s, SOpen)]) = held l ++ [(s, SOpen)].
Proof.
  unfold held. rewrite from_open_snoc. destruct (all_settled l) eqn:E; [apply settled_from_open in E; by rewrite E|].
  by rewrite filter_app.
Qed.
Lemma publish_sorted_snoc (l : list Z) s : StronglySorted Z.lt l → (∀ x, last l = Some x → x < s) → StronglySorted Z.lt (l ++ [s]).
Proof.
  intros Hl Hs. apply StronglySorted_app_2; [|done|by repeat constructor]. intros x y Hx ->%list_elem_of_singleton.
  destruct (last l) as [z|] eqn:E; [|by apply last_None in E as ->; apply elem_of_nil in Hx]. specialize (Hs z eq_refl).
  apply last_Some in E as [l' ->]. apply elem_of_app in Hx as [Hx| ->%list_elem_of_singleton]; [|done].
  assert (x < z); [|lia]. apply (StronglySorted_app_1_elem_of Z.lt l' [z]); [done..|left].
Qed.
Lemma pub_admit_agrees p m d s : publishes p m → stepped (pub_call p (PAdmit d s)) (ledger_call m (PAdmit d s)).
Proof.
  intros H. unfold pub_call, ledger_call, pub_admit. pose proof (queue_default p m d H) as Hq.
  set (q := default empty_domain _) in *. set (l := default [] _) in *. clearbody q l.
  assert (newer_than l s = match admitted_through q with Some last => last <? s | None => true end) as ->.
  { rewrite (qo_through _ _ Hq). unfold newer_than. by destruct (last l). }
  destruct (match admitted_through q with Some last => last <? s | None => true end) eqn:E; [|done].
  split; [done|]. apply publishes_insert; [done|]. destruct Hq as [Eo Ef Et Hs]. split; cbn.
  - by rewrite held_snoc, fmap_app, Eo.
  - rewrite held_snoc, done_map_app, Ef. cbn. by rewrite (right_id_L ∅ (∪)).
  - by rewrite last_snoc.
  - rewrite fmap_app. apply publish_sorted_snoc; [done|]. intros x Hx. rewrite fmap_last in Hx. rewrite Et, Hx in E. cbn. lia.
Qed.
Lemma retire_agrees p m d : publishes p m → stepped (pub_call p (PRetire d)) (ledger_call m (PRetire d)).
Proof.
  intros H. unfold pub_call, ledger_call, pub_retire. pose proof (queue_default p m d H) as Hq.
  assert (outstanding p d = length (held (default [] (m !! d)))) as ->.
  { unfold outstanding. rewrite <- (length_fmap fst), <- (qo_order _ _ Hq). by destruct (domains p !! d). }
  rewrite held_nil. destruct (all_settled _); cbn; [|done]. split; [done|].
  intros d'. cbn. destruct (decide (d = d')) as [<-|Hne]; [by rewrite !lookup_delete_eq|]. rewrite !lookup_delete_ne by done. apply H.
Qed.
Lemma panswers_agree cs : ∀ p m, publishes p m → panswers pub_call p cs = panswers ledger_call m cs.
Proof.
  induction cs as [|c cs IH]; intros p m H; [done|]. cbn [panswers].
  assert (stepped (pub_call p c) (ledger_call m c)) as Hc
    by (destruct c; auto using pub_admit_agrees, complete_agrees, withdraw_agrees, retire_agrees).
  destruct (pub_call p c) as [[a p']|], (ledger_call m c) as [[b m']|]; try done. destruct Hc as [-> Hc]. by rewrite (IH p' m').
Qed.

(** C14: The guest reads completion words in channel order, each exactly once, as soon as it
    may.  For every sequence of admissions, completions, withdrawals and retirements, over
    any channels, the publisher gives the answers of the reference that keeps what was said
    of every position of each channel: a call releases, in order, exactly the finished
    positions before the channel's first open one that were not released before, so no
    channel waits on another and a withdrawn position holds nothing back and is never
    published.  A channel is retired exactly when none of its positions is open, a refused
    retirement counts the positions still held, and the publisher panics exactly when a
    position is admitted out of order or settled when it is not open. *)
Theorem publication_exact (cs : list pcall) :
  panswers pub_call empty_publisher cs = panswers ledger_call ∅ cs.
Proof. apply panswers_agree, empty_publishes. Qed.
