(* ===== verification/Pipelines.v ===== *)
(** Pipeline objects: src/reims-vgpu/crates/reims-vgpu-core/src/pipeline.rs.

    The table holds where each pipeline is in its life and what an executor has published of
    its shaders, and turns the pipelines a transaction binds into the builds it waits for.
    Entries of hash maps that the source collects are sorted by id before they are returned,
    and are modelled so; an [expect] that would panic gives [None]. *)
From Stdlib Require Import String.
From S2P Require Import Prelude Access.

Inductive PipelineState := Declared | Translating | Compiling | PReady | PRefused | PRetired.
#[export] Instance PipelineState_eq_dec : EqDecision PipelineState.
Proof. solve_decision. Defined.
Definition is_terminal (s : PipelineState) : bool := match s with PRefused | PRetired => true | _ => false end.
Definition state_is_ready (s : PipelineState) : bool := match s with PReady => true | _ => false end.
Definition may_become (self next : PipelineState) : bool :=
  match self, next with
  | Declared, Translating | Translating, Compiling | Compiling, PReady => true
  | (Declared | Translating | Compiling), PRefused => true
  | (Declared | Translating | Compiling | PReady), PRetired => true
  | PReady, Translating => true
  | _, _ => false
  end.

Record BindingUsage := mkBinding { bu_buffers : list (option AccessMode); bu_textures : list (option AccessMode) }.
Definition usage_buffer (u : BindingUsage) (slot : nat) : option AccessMode := mjoin (bu_buffers u !! slot).
Definition usage_texture (u : BindingUsage) (slot : nat) : option AccessMode := mjoin (bu_textures u !! slot).
Definition writes_anything (u : BindingUsage) : bool :=
  existsb (λ m, match m with Some m => writes m | None => false end) (bu_buffers u ++ bu_textures u).

Inductive RefusalReason :=
  | Undescribable (detail : string) | TranslationFailed (detail : string) | CompilationFailed (detail : string).
Record Pipeline := mkPipeline { p_id : ResourceId; p_generation : Z; p_state : PipelineState; p_refusal : option RefusalReason }.
#[export] Instance eta_pipeline : Settable Pipeline := λ p, mkPipeline (p_id p) (p_generation p) (p_state p) (p_refusal p).
Inductive AbsentBecause := Undeclared | OtherGeneration | AbsentRetired.
Inductive Lease := LReady | LPending | LRefused (reason : RefusalReason) | LAbsent (because : AbsentBecause).
Inductive LeaseRefusal :=
  | LeaseRefused (pipeline : ResourceId) (reason : RefusalReason)
  | LeaseAbsent (pipeline : ResourceId) (because : AbsentBecause).

Inductive ShaderStage := Vertex | Fragment.
Record PublishedUsage := mkUsage {
  u_vertex : option BindingUsage; u_fragment : option BindingUsage; u_compute : option BindingUsage }.
Definition usage_render (vertex fragment : option BindingUsage) : PublishedUsage := mkUsage vertex fragment None.
Definition usage_compute (kernel : BindingUsage) : PublishedUsage := mkUsage None None (Some kernel).
Definition usage_stage (u : PublishedUsage) (stage : option ShaderStage) : option BindingUsage :=
  match stage with Some Vertex => u_vertex u | Some Fragment => u_fragment u | None => u_compute u end.

Record Census := mkCensus {
  c_declared : nat; c_ready : nat; c_refused : nat; c_retired : nat;
  c_leases_pending : nat; c_leases_ready : nat; c_withdrawn : nat }.
#[export] Instance eta_census : Settable Census := λ c,
  mkCensus (c_declared c) (c_ready c) (c_refused c) (c_retired c) (c_leases_pending c) (c_leases_ready c) (c_withdrawn c).
Record PipelineTable := mkTable {
  pipelines : gmap ResourceId Pipeline; usage : gmap ResourceId PublishedUsage; census : Census }.
#[export] Instance eta_table : Settable PipelineTable := λ t, mkTable (pipelines t) (usage t) (census t).
Definition empty_table : PipelineTable := mkTable ∅ ∅ (mkCensus 0 0 0 0 0 0 0).

(** The order of ids: by slot, then by generation. *)
Definition id_le (a b : ResourceId) : Prop :=
  slot_ref a < slot_ref b ∨ (slot_ref a = slot_ref b ∧ slot_generation a ≤ slot_generation b).
#[export] Instance id_le_dec : RelDecision id_le.
Proof. intros a b. unfold id_le. apply _. Defined.
Definition sorted_ids (m : gset ResourceId) : list ResourceId := merge_sort id_le (elements m).

Definition binding_usage (t : PipelineTable) (pipeline : ResourceId) (stage : option ShaderStage) : option BindingUsage :=
  usage t !! pipeline ≫= λ u, usage_stage u stage.

Record Resting := mkResting {
  r_declared : nat; r_translating : nat; r_compiling : nat; r_ready : nat; r_refused : nat; r_retired : nat }.
Definition in_state (t : PipelineTable) (s : PipelineState) : nat :=
  size (filter (λ kv : ResourceId * Pipeline, p_state kv.2 = s) (pipelines t)).
Definition resting (t : PipelineTable) : Resting :=
  mkResting (in_state t Declared) (in_state t Translating) (in_state t Compiling) (in_state t PReady)
    (in_state t PRefused) (in_state t PRetired).
Definition resting_pending (r : Resting) : nat := (r_declared r + r_translating r + r_compiling r)%nat.
Definition resting_total (r : Resting) : nat := (resting_pending r + r_ready r + r_refused r + r_retired r)%nat.

Definition declare (t : PipelineTable) (id : ResourceId) (generation : Z) : bool * PipelineTable :=
  match pipelines t !! id with
  | Some _ => (false, t)
  | None =>
      let t := t <| census := (census t) <| c_declared := S (c_declared (census t)) |> |> in
      (true, t <| pipelines := <[id := mkPipeline id generation Declared None]> (pipelines t) |>)
  end.
Definition get (t : PipelineTable) (id : ResourceId) : option Pipeline := pipelines t !! id.
Definition usage_published (t : PipelineTable) (id : ResourceId) : bool := bool_decide (is_Some (usage t !! id)).

Definition put (t : PipelineTable) (id : ResourceId) (p : Pipeline) : PipelineTable :=
  t <| pipelines := <[id := p]> (pipelines t) |>.
Definition drop_usage (t : PipelineTable) (id : ResourceId) : PipelineTable := t <| usage := base.delete id (usage t) |>.

Definition advance (t : PipelineTable) (id : ResourceId) (next : PipelineState) : bool * PipelineTable :=
  if bool_decide (next = PRefused) then (false, t)
  else if bool_decide (next = Translating) && bool_decide (p_state <$> pipelines t !! id = Some PReady) then (false, t)
  else
    match pipelines t !! id with
    | None => (false, t)
    | Some p =>
        if negb (may_become (p_state p) next) then (false, t)
        else
          let t := put t id (p <| p_state := next |>) in
          (true,
           match next with
           | PReady => t <| census := (census t) <| c_ready := S (c_ready (census t)) |> |>
           | PRetired => drop_usage (t <| census := (census t) <| c_retired := S (c_retired (census t)) |> |>) id
           | _ => t
           end)
    end.
Definition pl_withdraw (t : PipelineTable) (id : ResourceId) : bool * PipelineTable :=
  match pipelines t !! id with
  | None => (false, t)
  | Some p =>
      if negb (bool_decide (p_state p = PReady)) then (false, t)
      else
        let t := drop_usage (put t id (p <| p_state := Translating |>)) id in
        (true, t <| census := (census t) <| c_withdrawn := S (c_withdrawn (census t)) |> |>)
  end.
Definition refuse (t : PipelineTable) (id : ResourceId) (reason : RefusalReason) : bool * PipelineTable :=
  match pipelines t !! id with
  | None => (false, t)
  | Some p =>
      if negb (may_become (p_state p) PRefused) then (false, t)
      else
        let t := put t id ((p <| p_state := PRefused |>) <| p_refusal := Some reason |>) in
        let t := t <| census := (census t) <| c_refused := S (c_refused (census t)) |> |> in
        (true, drop_usage t id)
  end.

Definition peek (t : PipelineTable) (id : ResourceId) (generation : Z) : option Lease :=
  match pipelines t !! id with
  | None => Some (LAbsent Undeclared)
  | Some p =>
      if negb (p_generation p =? generation) then Some (LAbsent OtherGeneration)
      else
        match p_state p with
        | PRetired => Some (LAbsent AbsentRetired)
        | PReady => Some LReady
        | PRefused => match p_refusal p with Some reason => Some (LRefused reason) | None => None end
        | Declared | Translating | Compiling => Some LPending
        end
  end.
Definition charge (t : PipelineTable) (l : Lease) : PipelineTable :=
  match l with
  | LReady => t <| census := (census t) <| c_leases_ready := S (c_leases_ready (census t)) |> |>
  | LPending => t <| census := (census t) <| c_leases_pending := S (c_leases_pending (census t)) |> |>
  | LRefused _ | LAbsent _ => t
  end.
Definition lease (t : PipelineTable) (id : ResourceId) (generation : Z) : option (Lease * PipelineTable) :=
  match peek t id generation with Some l => Some (l, charge t l) | None => None end.

(** The walk over the leases: what is taken and what is waited for, or the first refusal. *)
Fixpoint walk_leases (t : PipelineTable) (leases : list ResourceId) (generation : Z)
    (taken : list Lease) (waits : list ResourceId) : option (list Lease * list ResourceId + LeaseRefusal) :=
  match leases with
  | [] => Some (inl (taken, waits))
  | pipeline :: leases =>
      match peek t pipeline generation with
      | None => None
      | Some LReady => walk_leases t leases generation (taken ++ [LReady]) waits
      | Some (LAbsent AbsentRetired) => walk_leases t leases generation (taken ++ [LAbsent AbsentRetired]) waits
      | Some LPending => walk_leases t leases generation (taken ++ [LPending]) (waits ++ [pipeline])
      | Some (LRefused reason) => Some (inr (LeaseRefused pipeline reason))
      | Some (LAbsent because) => Some (inr (LeaseAbsent pipeline because))
      end
  end.
Definition waits_for (t : PipelineTable) (leases : list ResourceId) (generation : Z) :
    option ((list ResourceId + LeaseRefusal) * PipelineTable) :=
  match walk_leases t leases generation [] [] with
  | None => None
  | Some (inr r) => Some (inr r, t)
  | Some (inl (taken, waits)) => Some (inl waits, foldl charge t taken)
  end.

Definition publish_usage (t : PipelineTable) (id : ResourceId) (u : PublishedUsage) : bool * PipelineTable :=
  match pipelines t !! id with
  | None => (false, t)
  | Some p => if is_terminal (p_state p) then (false, t) else (true, t <| usage := <[id := u]> (usage t) |>)
  end.
Definition retire (t : PipelineTable) (id : ResourceId) : bool * PipelineTable := advance t id PRetired.

Record Closed := mkClosed { destroy : list ResourceId; removed : list ResourceId }.
Definition in_generation (g : Z) (m : gmap ResourceId Pipeline) : gmap ResourceId Pipeline :=
  filter (λ kv : ResourceId * Pipeline, p_generation kv.2 = g) m.
Definition has_host_object (s : PipelineState) : bool :=
  match s with Translating | Compiling | PReady => true | _ => false end.
Definition generation_closed (t : PipelineTable) (closed : Z) : Closed * PipelineTable :=
  let gone := in_generation closed (pipelines t) in
  let doomed := filter (λ kv : ResourceId * Pipeline, has_host_object (p_state kv.2) = true) gone in
  let removed := sorted_ids (dom gone) in
  (mkClosed (sorted_ids (dom doomed)) removed,
   mkTable (filter (λ kv : ResourceId * Pipeline, p_generation kv.2 ≠ closed) (pipelines t))
     (foldl (λ u id, base.delete id u) (usage t) removed)
     ((census t) <| c_retired := (c_retired (census t) + size doomed)%nat |>)).

Definition pl_device_lost (t : PipelineTable) : list ResourceId * PipelineTable :=
  let live := filter (λ kv : ResourceId * Pipeline, is_terminal (p_state kv.2) = false) (pipelines t) in
  (sorted_ids (dom live),
   mkTable ((λ p, if is_terminal (p_state p) then p else p <| p_state := Declared |>) <$> pipelines t)
     (filter (λ kv : ResourceId * PublishedUsage, live !! kv.1 = None) (usage t))
     ((census t) <| c_declared := (c_declared (census t) + size live)%nat |>)).

Definition pl_compact (t : PipelineTable) : PipelineTable :=
  let ps := filter (λ kv : ResourceId * Pipeline, p_state kv.2 ≠ PRetired) (pipelines t) in
  mkTable ps (filter (λ kv : ResourceId * PublishedUsage, is_Some (ps !! kv.1)) (usage t)) (census t).

(** ** The reference: one cell per id

    What the table knows of one pipeline: its entry, and what is published of the build it
    stands for. *)
Inductive table_op :=
  | TDeclare (id : ResourceId) (g : Z) | TAdvance (id : ResourceId) (next : PipelineState)
  | TWithdraw (id : ResourceId) | TRefuse (id : ResourceId) (reason : RefusalReason)
  | TPublish (id : ResourceId) (u : PublishedUsage) | TRetire (id : ResourceId)
  | TLease (id : ResourceId) (g : Z) | TWaits (leases : list ResourceId) (g : Z)
  | TClose (g : Z) | TLost | TCompact.
Definition table_step (t : PipelineTable) (op : table_op) : option PipelineTable :=
  match op with
  | TDeclare id g => Some (declare t id g).2
  | TAdvance id next => Some (advance t id next).2
  | TWithdraw id => Some (pl_withdraw t id).2
  | TRefuse id reason => Some (refuse t id reason).2
  | TPublish id u => Some (publish_usage t id u).2
  | TRetire id => Some (retire t id).2
  | TLease id g => snd <$> lease t id g
  | TWaits leases g => snd <$> waits_for t leases g
  | TClose g => Some (generation_closed t g).2
  | TLost => Some (pl_device_lost t).2
  | TCompact => Some (pl_compact t)
  end.
Definition table_run (t : PipelineTable) (ops : list table_op) : option PipelineTable :=
  foldl (λ t op, match t with Some t => table_step t op | None => None end) (Some t) ops.

Abbreviation cell := (option (Pipeline * option PublishedUsage)).
Definition cell_of (t : PipelineTable) (id : ResourceId) : cell :=
  match pipelines t !! id with Some p => Some (p, usage t !! id) | None => None end.
(** The steps [advance] takes: forward, to readiness, or to the end; not to a refusal and not
    back from readiness. *)
Definition forward (s next : PipelineState) : bool :=
  match s, next with
  | Declared, Translating | Translating, Compiling | Compiling, PReady => true
  | (Declared | Translating | Compiling | PReady), PRetired => true
  | _, _ => false
  end.
Definition cell_end (c : cell) : cell :=
  match c with
  | Some (p, u) => if is_terminal (p_state p) then c else Some (p <| p_state := PRetired |>, None)
  | None => None
  end.
Definition cell_step (id : ResourceId) (c : cell) (op : table_op) : cell :=
  match op, c with
  | TDeclare i g, None => if decide (i = id) then Some (mkPipeline id g Declared None, None) else None
  | TAdvance i PRetired, _ | TRetire i, _ => if decide (i = id) then cell_end c else c
  | TAdvance i next, Some (p, u) => if bool_decide (i = id) && forward (p_state p) next then Some (p <| p_state := next |>, u) else c
  | TWithdraw i, Some (p, u) =>
      if bool_decide (i = id) && state_is_ready (p_state p) then Some (p <| p_state := Translating |>, None) else c
  | TRefuse i reason, Some (p, u) =>
      if bool_decide (i = id) && negb (is_terminal (p_state p)) && negb (state_is_ready (p_state p)) then
        Some ((p <| p_state := PRefused |>) <| p_refusal := Some reason |>, None)
      else c
  | TPublish i u, Some (p, _) => if bool_decide (i = id) && negb (is_terminal (p_state p)) then Some (p, Some u) else c
  | TClose g, Some (p, _) => if p_generation p =? g then None else c
  | TLost, Some (p, _) => if is_terminal (p_state p) then c else Some (p <| p_state := Declared |>, None)
  | TCompact, Some (p, _) => if decide (p_state p = PRetired) then None else c
  | _, _ => c
  end.
(** What a lease answers of a cell. *)
Definition cell_lease (c : cell) (g : Z) : Lease :=
  match c with
  | None => LAbsent Undeclared
  | Some (p, _) =>
      if negb (p_generation p =? g) then LAbsent OtherGeneration
      else match p_state p, p_refusal p with
           | PReady, _ => LReady
           | PRetired, _ => LAbsent AbsentRetired
           | PRefused, Some reason => LRefused reason
           | _, _ => LPending
           end
  end.
(** A transaction's leases: the first that can never be used, or the builds to wait for. *)
Fixpoint lease_waits (answer : ResourceId → Lease) (leases : list ResourceId) : list ResourceId + LeaseRefusal :=
  match leases with
  | [] => inl []
  | id :: leases =>
      match answer id with
      | LRefused reason => inr (LeaseRefused id reason)
      | LAbsent Undeclared => inr (LeaseAbsent id Undeclared)
      | LAbsent OtherGeneration => inr (LeaseAbsent id OtherGeneration)
      | LPending => match lease_waits answer leases with inl ws => inl (id :: ws) | inr r => inr r end
      | LReady | LAbsent AbsentRetired => lease_waits answer leases
      end
  end.

(** ** The table's invariant *)
Record table_ok (t : PipelineTable) : Prop := {
  tk_refused id p : pipelines t !! id = Some p → (p_state p = PRefused ↔ is_Some (p_refusal p));
  tk_usage id u : usage t !! id = Some u → ∃ p, pipelines t !! id = Some p ∧ is_terminal (p_state p) = false }.
Lemma empty_table_ok : table_ok empty_table.
Proof. by split. Qed.

Lemma sorted_ids_in m id : id ∈ sorted_ids m ↔ id ∈ m.
Proof. unfold sorted_ids. by rewrite merge_sort_Permutation, elem_of_elements. Qed.

(** A cell is well formed as the table's entries are. *)
Definition some {A} (o : option A) : bool := match o with Some _ => true | None => false end.
Definition is_refused (s : PipelineState) : bool := match s with PRefused => true | _ => false end.
Definition cell_ok (c : cell) : bool :=
  match c with
  | Some (p, u) => eqb (is_refused (p_state p)) (some (p_refusal p)) && negb (some u && is_terminal (p_state p))
  | None => true
  end.
Lemma some_spec {A} (o : option A) : some o = true ↔ is_Some o.
Proof. by destruct o; split. Qed.
Lemma cell_ok_spec p u : cell_ok (Some (p, u)) = true ↔
  (p_state p = PRefused ↔ is_Some (p_refusal p)) ∧ (is_Some u → is_terminal (p_state p) = false).
Proof.
  cbn. rewrite andb_true_iff, eqb_true_iff, negb_true_iff, andb_false_iff, <- !some_spec.
  destruct (p_state p), (some (p_refusal p)), (some u); cbn; intuition congruence.
Qed.
Lemma table_ok_cells t : table_ok t ↔
  (∀ id, cell_ok (cell_of t id) = true) ∧ ∀ id, is_Some (usage t !! id) → is_Some (pipelines t !! id).
Proof.
  split.
  - intros [H1 H2]. split.
    + intros id. unfold cell_of. destruct (pipelines t !! id) as [p|] eqn:E; [|done]. apply cell_ok_spec. split; [by apply (H1 id)|].
      intros [u Hu]. destruct (H2 id u Hu) as (p' & ? & ?). congruence.
    + intros id [u Hu]. destruct (H2 id u Hu) as (p' & ? & ?). eauto.
  - intros [H1 H2]. split.
    + intros id p E. specialize (H1 id). unfold cell_of in H1. rewrite E in H1. by apply cell_ok_spec in H1 as [? _].
    + intros id u E. destruct (H2 id) as [p Ep]; [eauto|]. exists p. split; [done|]. specialize (H1 id). unfold cell_of in H1.
      rewrite Ep, E in H1. apply cell_ok_spec in H1 as [_ H1]. eauto.
Qed.
Lemma cell_step_ok id c op : cell_ok c = true → cell_ok (cell_step id c op) = true.
Proof.
  destruct c as [[[i g s r] u]|]; intros Hok; [destruct s, r, u; try done; clear Hok|];
    destruct op as [| ? []| | | | | | | | |]; cbn; repeat (case_bool_decide || case_decide || case_match); done.
Qed.

(** ** The table is its cells *)
Lemma cell_of_put t id p i : cell_of (put t id p) i = if decide (id = i) then Some (p, usage t !! i) else cell_of t i.
Proof. unfold cell_of, put. cbn. case_decide as H; [subst; by rewrite lookup_insert_eq|by rewrite lookup_insert_ne by done]. Qed.
Lemma cell_of_drop t id i : cell_of (drop_usage t id) i =
  if decide (id = i) then (λ c, (c.1, None)) <$> cell_of t i else cell_of t i.
Proof.
  unfold cell_of, drop_usage. cbn. case_decide as H; [subst; rewrite lookup_delete_eq|rewrite lookup_delete_ne by done]; by destruct (pipelines t !! i).
Qed.
Lemma cell_of_census t c i : cell_of (t <| census := c |>) i = cell_of t i.
Proof. done. Qed.
Lemma cell_of_entry t id p : pipelines t !! id = Some p → cell_of t id = Some (p, usage t !! id).
Proof. unfold cell_of. by intros ->. Qed.

Lemma advance_eq t id next : advance t id next =
  match pipelines t !! id with
  | Some p =>
      if forward (p_state p) next then
        let t := put t id (p <| p_state := next |>) in
        (true,
         match next with
         | PReady => t <| census := (census t) <| c_ready := S (c_ready (census t)) |> |>
         | PRetired => drop_usage (t <| census := (census t) <| c_retired := S (c_retired (census t)) |> |>) id
         | _ => t
         end)
      else (false, t)
  | None => (false, t)
  end.
Proof. unfold advance. destruct (pipelines t !! id) as [[j g s r]|]; [by destruct s, next|by destruct next]. Qed.
Lemma terminal_forward s : forward s PRetired = negb (is_terminal s).
Proof. by destruct s. Qed.

Ltac cells := repeat (rewrite cell_of_census || rewrite cell_of_drop || rewrite cell_of_put); rewrite ?decide_True, ?decide_False by done.

Lemma advance_cell t id next i : cell_of (advance t id next).2 i = cell_step i (cell_of t i) (TAdvance id next).
Proof.
  rewrite advance_eq. destruct (decide (id = i)) as [<-|Hne].
  - unfold cell_of, cell_step. rewrite decide_True, bool_decide_eq_true_2 by done.
    destruct (pipelines t !! id) as [[j g s r]|] eqn:E; [|by destruct next; cbn [snd]; rewrite E].
    destruct s, next; cbn; rewrite ?lookup_insert_eq, ?lookup_delete_eq, ?E; done.
  - assert (cell_of t i = cell_step i (cell_of t i) (TAdvance id next)) as <-.
    { cbn. rewrite decide_False, bool_decide_eq_false_2 by done. destruct (cell_of t i) as [[]|], next; done. }
    repeat case_match; cbn [snd]; cells; done.
Qed.
Lemma retire_cell t id i : cell_of (retire t id).2 i = cell_step i (cell_of t i) (TRetire id).
Proof. apply advance_cell. Qed.
Lemma declare_cell t id g i : (∀ i, is_Some (usage t !! i) → is_Some (pipelines t !! i)) →
  cell_of (declare t id g).2 i = cell_step i (cell_of t i) (TDeclare id g).
Proof.
  intros Hu. unfold declare, cell_of. destruct (pipelines t !! id) as [p|] eqn:E; cbn.
  - destruct (pipelines t !! i) as [p'|] eqn:E'; [done|]. rewrite decide_False; [done|congruence].
  - destruct (decide (id = i)) as [<-|Hne]; [rewrite lookup_insert_eq, E|rewrite lookup_insert_ne by done; by destruct (pipelines t !! i)].
    destruct (usage t !! id) eqn:Eu; [|done]. destruct (Hu id) as [? ?]; [eauto|congruence].
Qed.
Lemma withdraw_cell t id i : cell_of (pl_withdraw t id).2 i = cell_step i (cell_of t i) (TWithdraw id).
Proof.
  unfold pl_withdraw. destruct (decide (id = i)) as [<-|Hne].
  - unfold cell_of, cell_step. rewrite (bool_decide_eq_true_2 (id = id)) by done.
    destruct (pipelines t !! id) as [[j g s r]|] eqn:E; [|by cbn [snd]; rewrite E].
    destruct s; cbn [p_state]; rewrite ?bool_decide_eq_true_2, ?bool_decide_eq_false_2 by done; cbn;
      rewrite ?lookup_insert_eq, ?lookup_delete_eq, ?E; done.
  - assert (cell_of t i = cell_step i (cell_of t i) (TWithdraw id)) as <-.
    { cbn. rewrite bool_decide_eq_false_2 by done. by destruct (cell_of t i) as [[]|]. }
    repeat case_match; cbn [snd]; cells; done.
Qed.
Lemma refuse_cell t id r i : cell_of (refuse t id r).2 i = cell_step i (cell_of t i) (TRefuse id r).
Proof.
  unfold refuse. destruct (decide (id = i)) as [<-|Hne].
  - unfold cell_of, cell_step. rewrite (bool_decide_eq_true_2 (id = id)) by done.
    destruct (pipelines t !! id) as [[j g s r']|] eqn:E; [|by cbn [snd]; rewrite E].
    destruct s; cbn [p_state]; rewrite ?bool_decide_eq_true_2, ?bool_decide_eq_false_2 by done; cbn;
      rewrite ?lookup_insert_eq, ?lookup_delete_eq, ?E; done.
  - assert (cell_of t i = cell_step i (cell_of t i) (TRefuse id r)) as <-.
    { cbn. rewrite bool_decide_eq_false_2 by done. by destruct (cell_of t i) as [[]|]. }
    repeat case_match; cbn [snd]; cells; done.
Qed.
Lemma publish_cell t id u i : cell_of (publish_usage t id u).2 i = cell_step i (cell_of t i) (TPublish id u).
Proof.
  unfold publish_usage, cell_of. destruct (decide (id = i)) as [<-|Hne]; cbn.
  - destruct (pipelines t !! id) as [p|] eqn:E; [|by cbn; rewrite E]. rewrite bool_decide_eq_true_2 by done.
    destruct (is_terminal (p_state p)); cbn; rewrite E; [done|]. by rewrite lookup_insert_eq.
  - rewrite bool_decide_eq_false_2 by done. cbn.
    destruct (pipelines t !! id) as [p|]; [destruct (is_terminal (p_state p))|]; cbn; rewrite ?lookup_insert_ne by done;
      by destruct (pipelines t !! i).
Qed.

Lemma foldl_delete_lookup {V} (l : list ResourceId) : ∀ (m : gmap ResourceId V) i,
  foldl (λ u id, base.delete id u) m l !! i = if decide (i ∈ l) then None else m !! i.
Proof.
  induction l as [|x l IH]; intros m i; [by rewrite decide_False by apply not_elem_of_nil|]. cbn. rewrite IH.
  destruct (decide (x = i)) as [->|Hne]; [rewrite lookup_delete_eq, (decide_True (P := i ∈ i :: l)) by left; by case_decide|].
  rewrite lookup_delete_ne by done. repeat case_decide; set_solver.
Qed.
Lemma lookup_kept {V} (P : ResourceId * V → Prop) `{∀ x, Decision (P x)} (m : gmap ResourceId V) i :
  filter P m !! i = match m !! i with Some v => if decide (P (i, v)) then Some v else None | None => None end.
Proof.
  destruct (filter P m !! i) as [v|] eqn:E.
  - apply map_lookup_filter_Some in E as [-> ?]. by rewrite decide_True.
  - apply map_lookup_filter_None in E. destruct (m !! i) as [v|] eqn:Ei; [|done]. rewrite decide_False; [done|].
    intros ?. destruct E as [?|E]; [done|]. by apply (E v).
Qed.
Lemma close_cell t g i : cell_of (generation_closed t g).2 i = cell_step i (cell_of t i) (TClose g).
Proof.
  unfold cell_of, generation_closed. cbn. rewrite lookup_kept. destruct (pipelines t !! i) as [p|] eqn:E; [|done]. cbn.
  destruct (Z.eqb_spec (p_generation p) g) as [Hg|Hg]; [by rewrite decide_False by tauto|]. rewrite decide_True by done.
  rewrite foldl_delete_lookup, decide_False; [done|]. rewrite sorted_ids_in, elem_of_dom. unfold in_generation.
  intros [p' Hp']. apply map_lookup_filter_Some in Hp' as [Hp' ?]. cbn in *. congruence.
Qed.
Lemma lost_cell t i : cell_of (pl_device_lost t).2 i = cell_step i (cell_of t i) TLost.
Proof.
  unfold cell_of, pl_device_lost. cbn. rewrite lookup_fmap. destruct (pipelines t !! i) as [p|] eqn:E; [|done]. cbn.
  rewrite lookup_kept. cbn. rewrite lookup_kept, E. cbn. destruct (is_terminal (p_state p)); cbn.
  - rewrite decide_False by done. destruct (usage t !! i); [by rewrite decide_True|done].
  - rewrite decide_True by done. destruct (usage t !! i); [by rewrite decide_False|done].
Qed.
Lemma compact_cell t i : cell_of (pl_compact t) i = cell_step i (cell_of t i) TCompact.
Proof.
  unfold cell_of, pl_compact. cbn. rewrite lookup_kept. destruct (pipelines t !! i) as [p|] eqn:E; [|done]. cbn.
  destruct (decide (p_state p = PRetired)) as [Hr|Hr]; [by rewrite decide_False by tauto|]. rewrite decide_True by done.
  rewrite lookup_kept. cbn. rewrite lookup_kept, E. cbn. rewrite decide_True by done.
  destruct (usage t !! i); [by rewrite decide_True by eauto|done].
Qed.
Lemma charges_cell taken : ∀ t i, cell_of (foldl charge t taken) i = cell_of t i.
Proof. induction taken as [|l taken IH]; intros t i; [done|]. cbn. rewrite IH. by destruct l. Qed.

(** ** Leases *)
Lemma peek_cell t id g : table_ok t → peek t id g = Some (cell_lease (cell_of t id) g).
Proof.
  intros Hok. unfold peek, cell_of. destruct (pipelines t !! id) as [p|] eqn:E; [|done]. cbn.
  pose proof (tk_refused _ Hok id p E) as Hr. destruct (negb _); [done|].
  destruct (p_state p); try done. destruct (p_refusal p); [done|]. by destruct (proj1 Hr).
Qed.
Lemma walk_leases_ok t g leases : table_ok t → ∀ taken waits,
  match lease_waits (λ id, cell_lease (cell_of t id) g) leases with
  | inl ws => ∃ more, walk_leases t leases g taken waits = Some (inl (taken ++ more, waits ++ ws))
  | inr r => walk_leases t leases g taken waits = Some (inr r)
  end.
Proof.
  intros Hok. induction leases as [|id leases IH]; intros taken waits; cbn; [exists []; by rewrite !app_nil_r|].
  rewrite (peek_cell t id g Hok). destruct (cell_lease (cell_of t id) g) as [| |r|[]] eqn:El; try done.
  - specialize (IH (taken ++ [LReady]) waits). destruct (lease_waits _ leases); [|done].
    destruct IH as [more ->]. exists (LReady :: more). by rewrite <- app_assoc.
  - specialize (IH (taken ++ [LPending]) (waits ++ [id])). destruct (lease_waits _ leases); [|done].
    destruct IH as [more ->]. exists (LPending :: more). by rewrite <- !app_assoc.
  - specialize (IH (taken ++ [LAbsent AbsentRetired]) waits). destruct (lease_waits _ leases); [|done].
    destruct IH as [more ->]. exists (LAbsent AbsentRetired :: more). by rewrite <- app_assoc.
Qed.
(** [waits_for] gives the reference's answer and changes no cell; a refusal changes nothing. *)
Lemma waits_for_ok t leases g : table_ok t →
  ∃ t', waits_for t leases g = Some (lease_waits (λ id, cell_lease (cell_of t id) g) leases, t') ∧
    (∀ i, cell_of t' i = cell_of t i) ∧ usage t' = usage t ∧ pipelines t' = pipelines t ∧
    (∀ r, lease_waits (λ id, cell_lease (cell_of t id) g) leases = inr r → t' = t).
Proof.
  intros Hok. unfold waits_for. pose proof (walk_leases_ok t g leases Hok [] []) as H.
  destruct (lease_waits _ leases) as [ws|r]; [|rewrite H; eauto 10]. destruct H as [more ->]. cbn. eexists. split; [done|].
  split; [apply charges_cell|]. assert (∀ l t, usage (foldl charge t l) = usage t ∧ pipelines (foldl charge t l) = pipelines t) as Hf.
  { intros l. induction l as [|x l IH]; intros t0; [done|]. cbn. destruct (IH (charge t0 x)) as [-> ->]. by destruct x. }
  destruct (Hf more t) as [-> ->]. done.
Qed.

(** ** Sequences of operations *)
Definition tight (t : PipelineTable) : Prop := ∀ i, is_Some (usage t !! i) → is_Some (pipelines t !! i).
Lemma tight_put t id p : tight t → tight (put t id p).
Proof. intros H i Hi. cbn. apply lookup_insert_is_Some'. right. by apply H. Qed.
Lemma tight_drop t id : tight t → tight (drop_usage t id).
Proof. intros H i Hi. apply H. cbn in Hi. apply lookup_delete_is_Some in Hi as [_ ?]. done. Qed.
Lemma tight_census t c : tight t → tight (t <| census := c |>).
Proof. done. Qed.
#[local] Hint Resolve tight_put tight_drop tight_census : core.
Lemma tight_advance t id next : tight t → tight (advance t id next).2.
Proof. intros H. rewrite advance_eq. repeat case_match; cbn [snd]; auto. Qed.
Lemma tight_step t op t' : table_ok t → table_step t op = Some t' → tight t'.
Proof.
  intros Hok. assert (tight t) as Ht by (by apply table_ok_cells in Hok as [_ ?]).
  destruct op as [id g|id next|id|id r|id u|id|id g|leases g|g| |]; cbn [table_step].
  - intros [= <-]. unfold declare. case_match; [done|]. apply tight_put. auto.
  - intros [= <-]. by apply tight_advance.
  - intros [= <-]. unfold pl_withdraw. repeat case_match; cbn [snd]; auto.
  - intros [= <-]. unfold refuse. repeat case_match; cbn [snd]; auto.
  - intros [= <-]. unfold publish_usage. destruct (pipelines t !! id) as [p|] eqn:E; [|done]. destruct (is_terminal _); [done|].
    intros i Hi. cbn in *. apply lookup_insert_is_Some in Hi as [<-|[_ Hi]]; [eauto|]. apply Ht, Hi.
  - intros [= <-]. by apply tight_advance.
  - unfold lease. destruct (peek t id g) as [l|]; [|done]. intros [= <-]. by destruct l.
  - destruct (waits_for_ok t leases g Hok) as (t1 & -> & _ & Eu & Ep & _). intros [= <-]. unfold tight. by rewrite Eu, Ep.
  - intros [= <-] i Hi. cbn in *. rewrite foldl_delete_lookup in Hi. case_decide as Hr; [by destruct Hi|].
    destruct (Ht i Hi) as [p Hp]. exists p. apply map_lookup_filter_Some. split; [done|]. intros Hg. apply Hr.
    apply sorted_ids_in, elem_of_dom. exists p. by apply map_lookup_filter_Some.
  - intros [= <-] i [u Hu]. cbn in *. apply map_lookup_filter_Some in Hu as [Hu _]. rewrite lookup_fmap, fmap_is_Some. apply Ht. eauto.
  - intros [= <-] i [u Hu]. cbn in *. by apply map_lookup_filter_Some in Hu as [_ Hu].
Qed.
Lemma step_cell t op : table_ok t → ∃ t', table_step t op = Some t' ∧ table_ok t' ∧ ∀ i, cell_of t' i = cell_step i (cell_of t i) op.
Proof.
  intros Hok. assert (∃ t', table_step t op = Some t' ∧ ∀ i, cell_of t' i = cell_step i (cell_of t i) op) as (t' & E & Hc).
  { apply table_ok_cells in Hok as Hc. destruct Hc as [_ Ht].
    destruct op as [id g|id next|id|id r|id u|id|id g|leases g|g| |]; cbn [table_step];
      try (eexists; split; [done|]; auto using advance_cell, withdraw_cell, refuse_cell, publish_cell, retire_cell, close_cell, lost_cell,
        compact_cell, declare_cell).
    - unfold lease. rewrite (peek_cell t id g Hok). eexists. split; [done|]. intros i. cbn [snd]. rewrite (charges_cell [_] t i : cell_of (charge t _) i = _). by destruct (cell_of t i) as [[]|].
    - destruct (waits_for_ok t leases g Hok) as (t1 & -> & Hc & _). eexists. split; [done|]. intros i. cbn. rewrite Hc. by destruct (cell_of t i) as [[]|]. }
  exists t'. split; [done|]. split; [|done]. apply table_ok_cells. split; [|by apply (tight_step t op)].
  intros i. rewrite Hc. apply cell_step_ok. by apply table_ok_cells in Hok as [? _].
Qed.
Lemma table_run_ok ops : ∀ t, table_ok t →
  ∃ t', table_run t ops = Some t' ∧ table_ok t' ∧ ∀ id, cell_of t' id = foldl (cell_step id) (cell_of t id) ops.
Proof.
  unfold table_run. induction ops as [|op ops IH]; intros t Hok; [by exists t|]. destruct (step_cell t op Hok) as (t1 & E & Hok1 & Hc).
  destruct (IH t1 Hok1) as (t2 & E2 & Hok2 & Hc2). exists t2. cbn. rewrite E. split; [done|]. split; [done|]. intros id. by rewrite Hc2, Hc.
Qed.

(** Refused and retired are final: until its entry is removed, by the end of its generation
    or the sweep of retired ones, a pipeline in either state does not change. *)
Lemma terminal_final id p u op : is_terminal (p_state p) = true →
  cell_step id (Some (p, u)) op = Some (p, u) ∨ cell_step id (Some (p, u)) op = None.
Proof.
  intros Ht. destruct p as [i g s r]. destruct s; try done; destruct op as [| ? []| | | | | | | | |]; cbn;
    rewrite ?andb_false_r; cbn; repeat (case_decide || case_match); auto.
Qed.

(** C15: The pipeline table is a cell per pipeline.  After any sequence of operations the
    table stands (no refused pipeline is without its reason, so no lease panics), each
    pipeline's entry and published usage are what the reference computes from that
    pipeline's own history, where a usage is gone as soon as the build it described is
    withdrawn, lost with the device, refused, retired or closed with its generation; and the
    waits a transaction's leases turn into are, in order, exactly the builds still pending,
    or the first pipeline that can never be used, in which case nothing is charged. *)
Theorem pipeline_table_exact (ops : list table_op) :
  ∃ t, table_run empty_table ops = Some t ∧
    (∀ id, cell_of t id = foldl (cell_step id) None ops) ∧
    ∀ leases g,
      let answer := lease_waits (λ id, cell_lease (foldl (cell_step id) None ops) g) leases in
      ∃ t', waits_for t leases g = Some (answer, t') ∧ (∀ id, cell_of t' id = cell_of t id) ∧
        ∀ r, answer = inr r → t' = t.
Proof.
  destruct (table_run_ok ops empty_table empty_table_ok) as (t & E & Hok & Hc). exists t. split; [done|].
  assert (∀ id, cell_of t id = foldl (cell_step id) None ops) as Hc' by (intros id; by rewrite Hc). split; [done|].
  intros leases g answer. destruct (waits_for_ok t leases g Hok) as (t' & E' & Hs & _ & _ & Hr).
  assert (lease_waits (λ id, cell_lease (cell_of t id) g) leases = answer) as Ea.
  { unfold answer. clear -Hc'. induction leases as [|id leases IH]; [done|]. cbn. by rewrite Hc', IH. }
  rewrite Ea in E', Hr. eauto.
Qed.
