(* ===== verification/Wire.v ===== *)
(** Serializer records: src/reims-vgpu/crates/reims-vgpu-wire/src/op.rs and view.rs, with the
    little-endian loads and stores of reims-vgpu-protocol/src/endian.rs.

    A record is an eight-byte head (opcode, then the whole record's length) and a payload.  A
    stream is walked record by record; the lengths are the guest's.  A slice out of range is a
    panic and gives [None]. *)
From S2P Require Import Prelude.

(** ld16, ld32 and ld64 of [p[at..]]. *)
Definition ld (n : nat) (p : list Z) (at_ : nat) : option Z := le_val <$> slice_at at_ n p.
Definition ld16 := ld 2.
Definition ld32 := ld 4.
Definition ld64 := ld 8.
(** st16, st32 and st64 into [p[at..]]. *)
Definition st (n : nat) (p : list Z) (at_ : nat) (v : Z) : option (list Z) := splice_at at_ (le_bytes n v) p.

Definition OP_HEADER_LEN : nat := 8.
Record OpHeader := mkHead { opcode : Z; hdr_length : Z }.
Record Op := mkOp { op_header : OpHeader; op_payload : list Z; op_offset : nat }.
Inductive WireError :=
  | Short (need have : nat) | OutOfRange (offset len : nat) | BadLength (opcode length : Z) (remaining : nat)
  | CountOverflow (count elem : nat).

Definition view_header (buf : list Z) : OpHeader + WireError :=
  if (length buf <? OP_HEADER_LEN)%nat then inr (Short OP_HEADER_LEN (length buf))
  else inl (mkHead (le_val (slice 0 4 buf)) (le_val (slice 4 4 buf))).
Definition view_header_at (buf : list Z) (offset : nat) : OpHeader + WireError :=
  if (length buf <? offset)%nat then inr (OutOfRange offset (length buf)) else view_header (drop offset buf).
Definition split_header (buf : list Z) : (OpHeader * list Z) + WireError :=
  match view_header buf with inl head => inl (head, drop OP_HEADER_LEN buf) | inr e => inr e end.
Definition op (buf : list Z) (offset : nat) : option (Op + WireError) :=
  match view_header buf with
  | inr e => Some (inr e)
  | inl header =>
      let length_usize := hdr_length header in
      if (length_usize <? Z.of_nat OP_HEADER_LEN) || (Z.of_nat (length buf) <? length_usize) then
        Some (inr (BadLength (opcode header) (hdr_length header) (length buf)))
      else
        match slice_at 0 (Z.to_nat length_usize) buf with
        | None => None
        | Some record =>
            match split_header record with
            | inl (_, rest) => Some (inl (mkOp header rest offset))
            | inr e => Some (inr e)
            end
        end
  end.

Record OpStream := mkStream { stream_buf : list Z; stream_offset : nat; stopped : bool }.
Definition new_stream (buf : list Z) : OpStream := mkStream buf 0 false.
Definition consumed (s : OpStream) : nat := stream_offset s.
(** Iterator::next; the outer [option] is a panic. *)
Definition stream_next (s : OpStream) : option (option (Op + WireError) * OpStream) :=
  let '(mkStream buf offset stopped) := s in
  if stopped || (length buf <=? offset)%nat then Some (None, s)
  else
    match slice_at offset (length buf - offset) buf with
    | None => None
    | Some rest =>
        match op rest offset with
        | None => None
        | Some (inl o) => Some (Some (inl o), mkStream buf (offset + Z.to_nat (hdr_length (op_header o))) stopped)
        | Some (inr e) => Some (Some (inr e), mkStream buf offset true)
        end
    end.
(** What a loop over the stream sees, and the stream it leaves; [None] on a panic or when the
    fuel runs out before the stream ends. *)
Fixpoint collect (fuel : nat) (s : OpStream) : option (list (Op + WireError) * OpStream) :=
  match fuel with
  | O => None
  | S fuel =>
      match stream_next s with
      | None => None
      | Some (None, s) => Some ([], s)
      | Some (Some item, s) => match collect fuel s with Some (items, s) => Some (item :: items, s) | None => None end
      end
  end.

(** ** Records as bytes *)
Definition op_bytes (o : Op) : list Z := le_bytes 4 (opcode (op_header o)) ++ le_bytes 4 (hdr_length (op_header o)) ++ op_payload o.
(** A record as the serializer writes one. *)
Definition op_wf (o : Op) : Prop :=
  is_u32 (opcode (op_header o)) ∧ is_u32 (hdr_length (op_header o)) ∧
  hdr_length (op_header o) = Z.of_nat (OP_HEADER_LEN + length (op_payload o)) ∧ Forall is_u8 (op_payload o).
(** Records one after the other, the first at [off]. *)
Fixpoint placed (off : nat) (os : list Op) : Prop :=
  match os with [] => True | o :: os => op_offset o = off ∧ placed (off + length (op_bytes o)) os end.

Lemma length_op_bytes o : length (op_bytes o) = (OP_HEADER_LEN + length (op_payload o))%nat.
Proof. unfold op_bytes. by rewrite !length_app, !length_le_bytes. Qed.
Lemma le_val_field n v : 0 ≤ v < 2 ^ (8 * Z.of_nat n) → le_val (le_bytes n v) = v.
Proof. intros Hv. rewrite le_val_bytes. by apply Z.mod_small. Qed.

Lemma slice_mid {A} i n (a b c : list A) : length a = i → length b = n → slice i n (a ++ b ++ c) = b.
Proof. intros <- <-. unfold slice. by rewrite drop_app_length, take_app_length. Qed.
Lemma slice_start {A} n (b c : list A) : length b = n → slice 0 n (b ++ c) = b.
Proof. apply (slice_mid 0 n []). done. Qed.
Lemma slice_cat {A} i n m (l : list A) : slice i n l ++ slice (i + n) m l = slice i (n + m) l.
Proof. unfold slice. by rewrite <- drop_drop, take_take_drop. Qed.
(** Any buffer of bytes with a field in it is what is before it, the field and what is after. *)
Lemma slice_field i n l : Forall is_u8 l → (i + n ≤ length l)%nat → le_bytes n (le_val (slice i n l)) = slice i n l.
Proof.
  intros Hl Hn. pose proof (le_bytes_val (slice i n l) (Forall_slice _ _ _ _ Hl)) as E. rewrite length_slice in E by done. exact E.
Qed.
Lemma le_val_slice i n l : Forall is_u8 l → (i + n ≤ length l)%nat → 0 ≤ le_val (slice i n l) < 2 ^ (8 * Z.of_nat n).
Proof.
  intros Hl Hn. pose proof (le_val_range (slice i n l) (Forall_slice _ _ _ _ Hl)) as E. rewrite length_slice in E by done. exact E.
Qed.

(** The head a buffer starts with. *)
Definition head_of (buf : list Z) : OpHeader := mkHead (le_val (slice 0 4 buf)) (le_val (slice 4 4 buf)).
Lemma op_eq buf off : op buf off = Some (
  if (length buf <? OP_HEADER_LEN)%nat then inr (Short OP_HEADER_LEN (length buf))
  else
    let n := hdr_length (head_of buf) in
    if (n <? Z.of_nat OP_HEADER_LEN) || (Z.of_nat (length buf) <? n) then
      inr (BadLength (opcode (head_of buf)) n (length buf))
    else inl (mkOp (head_of buf) (slice OP_HEADER_LEN (Z.to_nat n - OP_HEADER_LEN) buf) off)).
Proof.
  unfold op, view_header. destruct (_ <? _)%nat eqn:E0; [done|]. fold (head_of buf).
  cbn zeta. destruct (_ || _) eqn:E; [done|].
  apply orb_false_iff in E as [E1%Z.ltb_ge E2%Z.ltb_ge]. unfold OP_HEADER_LEN in *. rewrite slice_at_some by lia. unfold split_header, view_header, OP_HEADER_LEN.
  rewrite length_slice by lia. rewrite (proj2 (Nat.ltb_ge _ _)) by lia. cbn. unfold slice. by rewrite skipn_firstn_comm.
Qed.

(** A record reads back as it was written, whatever follows it. *)
Lemma op_of_bytes o rest : op_wf o → op (op_bytes o ++ rest) (op_offset o) = Some (inl o).
Proof.
  destruct o as [[opc len] payload off]. intros (H1 & H2 & Hl & _). cbn [op_header opcode hdr_length op_payload op_offset] in *.
  assert (head_of (op_bytes (mkOp (mkHead opc len) payload off) ++ rest) = mkHead opc len) as Eh.
  { unfold head_of, op_bytes. cbn [op_header opcode hdr_length op_payload]. rewrite <- !app_assoc. f_equal.
    - rewrite slice_start by done. by apply le_val_field.
    - rewrite (slice_mid 4 4) by done. by apply le_val_field. }
  rewrite op_eq, Eh, length_app, length_op_bytes. cbn [hdr_length opcode op_payload].
  rewrite (proj2 (Nat.ltb_ge _ _)), !(proj2 (Z.ltb_ge _ _)) by lia. cbn zeta. cbn [orb].
  assert (Z.to_nat len = (OP_HEADER_LEN + length payload)%nat) as -> by lia. do 4 f_equal. unfold op_bytes. cbn [op_header opcode hdr_length op_payload].
  rewrite <- app_assoc, <- (app_assoc _ payload rest), (app_assoc (le_bytes 4 opc)). apply slice_mid; [done|]. unfold OP_HEADER_LEN. lia.
Qed.
(** What is read is what the bytes are. *)
Lemma op_reads buf off o : Forall is_u8 buf → op buf off = Some (inl o) →
  op_wf o ∧ op_offset o = off ∧ buf = op_bytes o ++ drop (length (op_bytes o)) buf ∧ (OP_HEADER_LEN ≤ length buf)%nat.
Proof.
  intros Hb. rewrite op_eq. destruct (_ <? _)%nat eqn:E0; [done|]. cbn zeta. destruct (_ || _) eqn:E; [done|]. intros [= <-].
  apply Nat.ltb_ge in E0. apply orb_false_iff in E as [E1%Z.ltb_ge E2%Z.ltb_ge]. unfold OP_HEADER_LEN in *.
  pose proof (le_val_slice 0 4 buf Hb ltac:(lia)) as R1. pose proof (le_val_slice 4 4 buf Hb ltac:(lia)) as R2.
  set (n := Z.to_nat (hdr_length (head_of buf))) in *.
  assert (hdr_length (head_of buf) = Z.of_nat n) as En by (unfold n; rewrite Z2Nat.id; [done|apply R2]).
  change (Z.to_nat (le_val (slice 4 4 buf))) with n. split_and!; [|done| |done].
  - split; [done|]. split; [done|]. split; [|by apply Forall_slice]. cbn [op_payload op_header]. rewrite En, length_slice by lia. unfold OP_HEADER_LEN. lia.
  - rewrite length_op_bytes. cbn [op_payload]. rewrite length_slice by lia. unfold OP_HEADER_LEN.
    replace (8 + (n - 8))%nat with n by lia. unfold op_bytes. cbn [op_header op_payload]. unfold head_of. cbn [opcode hdr_length].
    rewrite !slice_field by (done || lia). rewrite (slice_cat 4 4 (n - 8)), (slice_cat 0 4).
    replace (4 + (4 + (n - 8)))%nat with n by lia. by rewrite (take_drop n buf : slice 0 n buf ++ _ = _).
Qed.

(** ** Walking a stream *)
Lemma stream_next_eq buf off : (off ≤ length buf)%nat → stream_next (mkStream buf off false) =
  if (length buf <=? off)%nat then Some (None, mkStream buf off false)
  else match op (drop off buf) off with
       | Some (inl o) => Some (Some (inl o), mkStream buf (off + Z.to_nat (hdr_length (op_header o))) false)
       | Some (inr e) => Some (Some (inr e), mkStream buf off true)
       | None => None
       end.
Proof.
  intros Ho. cbn. destruct (_ <=? _)%nat eqn:E; [done|]. rewrite slice_at_some by lia. unfold slice.
  by rewrite take_ge by (rewrite length_drop; lia).
Qed.
Lemma op_wf_length o : op_wf o → Z.to_nat (hdr_length (op_header o)) = length (op_bytes o).
Proof. intros (_ & _ & -> & _). rewrite length_op_bytes. lia. Qed.

(** The records of the rest of a buffer, and where and how the walk ends. *)
Lemma collect_ok buf : Forall is_u8 buf → ∀ fuel off, (off ≤ length buf)%nat → (length buf + 1 < off + fuel)%nat →
  ∃ os, Forall op_wf os ∧ placed off os ∧
    ∃ tail, drop off buf = concat (op_bytes <$> os) ++ tail ∧
      let fin := (off + length (concat (op_bytes <$> os)))%nat in
      (tail = [] ∧ collect fuel (mkStream buf off false) = Some (inl <$> os, mkStream buf fin false) ∨
       ∃ e, tail ≠ [] ∧ op tail fin = Some (inr e) ∧
         collect fuel (mkStream buf off false) = Some ((inl <$> os) ++ [inr e], mkStream buf fin true)).
Proof.
  intros Hb. induction fuel as [|fuel IH]; intros off Ho Hf; [lia|]. cbn [collect]. rewrite stream_next_eq by lia.
  destruct (Nat.leb_spec (length buf) off) as [Hle|Hgt].
  { exists []. split; [constructor|]. split; [done|]. exists []. rewrite drop_ge by lia. split; [done|]. left. cbn. by rewrite Nat.add_0_r. }
  destruct (op (drop off buf) off) as [[o|e]|] eqn:E; [| |by rewrite op_eq in E].
  - destruct (op_reads _ _ _ (Forall_drop _ _ _ Hb) E) as (Hw & Hoff & Eb & Hh). rewrite drop_drop in Eb. rewrite (op_wf_length o Hw).
    apply (f_equal length) in Eb as El. rewrite length_app, !length_drop, length_op_bytes in El. unfold OP_HEADER_LEN in El.
    destruct (IH (off + length (op_bytes o))%nat) as (os & Hos & Hp & tail & Et & Hend); [rewrite length_op_bytes; unfold OP_HEADER_LEN; lia..|].
    exists (o :: os). split; [by constructor|]. split; [done|]. exists tail. cbn [fmap list_fmap concat].
    split; [by rewrite <- app_assoc, <- Et|]. cbn zeta in *. rewrite length_app, Nat.add_assoc.
    destruct Hend as [(Ht & ->)|(e & Ht & Ee & ->)]; [by left|right; by exists e].
  - exists []. split; [constructor|]. split; [done|]. exists (drop off buf). split; [done|]. right. exists e. cbn [fmap list_fmap concat length].
    cbn zeta. rewrite Nat.add_0_r.
    split; [intros Hd; apply (f_equal length) in Hd; rewrite length_drop in Hd; cbn in Hd; lia|]. split; [done|].
    destruct fuel; [lia|done].
Qed.

(** C23: Walking a command stream loses nothing and reads nothing that is not there.  For every
    buffer of guest bytes the walk ends, within one step more than the buffer has bytes and
    one for the end, and without a panic: it yields well-formed records that lie one after
    the other from offset 0, the buffer is exactly their bytes followed by what is left, and
    either nothing is left and the walk has consumed the buffer, or the last item is the
    error of the bytes at the place where it stopped. *)
Theorem stream_walk_exact (buf : list Z) (Hbuf : Forall is_u8 buf) :
  ∃ os tail, Forall op_wf os ∧ placed 0 os ∧ buf = concat (op_bytes <$> os) ++ tail ∧
    let fin := length (concat (op_bytes <$> os)) in
    ((tail = [] ∧ collect (length buf + 2) (new_stream buf) = Some (inl <$> os, mkStream buf fin false) ∧ fin = length buf) ∨
     ∃ e, tail ≠ [] ∧ op tail fin = Some (inr e) ∧
       collect (length buf + 2) (new_stream buf) = Some ((inl <$> os) ++ [inr e], mkStream buf fin true)).
Proof.
  destruct (collect_ok buf Hbuf (length buf + 2) 0) as (os & Hos & Hp & tail & E & Hend); [lia..|].
  exists os, tail. do 2 (split; [done|]). split; [exact E|]. cbn zeta in *. cbn [drop Nat.add] in *.
  destruct Hend as [(-> & Ec)|(e & Ht & Ee & Ec)]; [left|right; eauto]. split; [done|]. split; [done|]. by rewrite E, app_nil_r at 1.
Qed.
Lemma stream_walk_exact_witness :
  let buf := le_bytes 4 0x75 ++ le_bytes 4 12 ++ [1; 2; 3; 4] ++ le_bytes 4 2 ++ le_bytes 4 999 in
  Forall is_u8 buf ∧
  collect (length buf + 2) (new_stream buf) =
    Some ([inl (mkOp (mkHead 0x75 12) [1; 2; 3; 4] 0); inr (BadLength 2 999 8)], mkStream buf 12 true) ∧
  ∃ os tail, Forall op_wf os ∧ placed 0 os ∧ buf = concat (op_bytes <$> os) ++ tail.
Proof.
  intros buf. assert (Forall is_u8 buf) as Hb by decide_done. split; [exact Hb|]. split; [reflexivity|].
  destruct (stream_walk_exact buf Hb) as (os & tail & H1 & H2 & H3 & _). exists os, tail. done.
Defined.

(** Records written one after the other are walked as written. *)
Lemma collect_written os : ∀ off pre fuel, length pre = off → Forall op_wf os → placed off os → (length os < fuel)%nat →
  let buf := pre ++ concat (op_bytes <$> os) in
  collect fuel (mkStream buf off false) = Some (inl <$> os, mkStream buf (length buf) false).
Proof.
  induction os as [|o os IH]; intros off pre fuel Hpre Hw Hp Hf; destruct fuel as [|fuel]; cbn [length] in Hf; try lia; cbn [collect fmap list_fmap concat]; cbn zeta.
  - rewrite app_nil_r, stream_next_eq by lia. rewrite (proj2 (Nat.leb_le _ _)) by lia. by rewrite Hpre.
  - apply Forall_cons in Hw as [Ho Hw]. destruct Hp as [Hoff Hp]. rewrite app_assoc, stream_next_eq by (rewrite !length_app; lia).
    rewrite (proj2 (Nat.leb_gt _ _)) by (rewrite !length_app, length_op_bytes; unfold OP_HEADER_LEN; lia).
    rewrite <- app_assoc, drop_app_length' by done. rewrite <- Hoff, (op_of_bytes o _ Ho), (op_wf_length o Ho), Hoff.
    rewrite app_assoc, (IH (off + length (op_bytes o))%nat (pre ++ op_bytes o) fuel) by (done || rewrite ?length_app; lia). done.
Qed.

(** A command stream of well-formed records, one after the other, is walked as exactly
    those records, with no error and nothing left over. *)
Theorem stream_roundtrip (os : list Op) (Hw : Forall op_wf os) (Hp : placed 0 os) :
  let buf := concat (op_bytes <$> os) in
  collect (length os + 1) (new_stream buf) = Some (inl <$> os, mkStream buf (length buf) false).
Proof. by apply (collect_written os 0 []); [..|lia]. Qed.
Lemma stream_roundtrip_witness :
  let os := [mkOp (mkHead 1 16) [0; 0; 0; 0; 255; 1; 2; 3] 0; mkOp (mkHead 0x75 8) [] 16] in
  Forall op_wf os ∧ placed 0 os ∧
  collect 3 (new_stream (concat (op_bytes <$> os))) = Some (inl <$> os, mkStream (concat (op_bytes <$> os)) 24 false).
Proof.
  intros os. assert (Forall op_wf os) as Hw by (repeat constructor; decide_done).
  assert (placed 0 os) as Hp by (repeat constructor). split; [exact Hw|]. split; [exact Hp|]. exact (stream_roundtrip os Hw Hp).
Defined.
