(* ===== verification/Fifo.v ===== *)
(** The payloads of FIFO packets: src/reims-vgpu/crates/reims-vgpu-protocol/src/fifo.rs.

    Each decoder turns the guest's bytes into a command or refuses them as too short.  A
    decoder gives [None] where the source would panic on a slice out of range.  The layouts
    are stated a second time, as the bytes a guest writes for a command, and so is what each
    refusal says; decoding is shown to be exactly that, with one exception that is stated too. *)
From S2P Require Import Prelude Wire.

Record ShortPayload := mkShort { plen : Z; need : Z }.
Definition len (payload : list Z) : Z := Z.of_nat (length payload).
Definition fifo_short {T} (payload : list Z) (n : nat) : option (T + ShortPayload) := Some (inr (mkShort (len payload) (Z.of_nat n))).

(** ** Tasks *)
Definition DEFINE_TASK_RAW_ID : nat := 0x00.
Definition DEFINE_TASK_LENGTH : nat := 0x04.
Definition DEFINE_TASK_DIRECTORY_PFN : nat := DEFINE_TASK_LENGTH + 8.
Definition DEFINE_TASK_LEN : nat := DEFINE_TASK_DIRECTORY_PFN + 4.
Definition DEFINE_TASK_ID_SHIFT : Z := 1.
Record DefineTaskId := mkTaskId { dt_task : Z; dt_kernel : bool }.
Definition from_raw (raw : Z) : DefineTaskId := mkTaskId (Z.shiftr raw DEFINE_TASK_ID_SHIFT) (nz (Z.land raw 1)).
Definition to_raw (t : DefineTaskId) : Z := Z.lor (u32 (Z.shiftl (dt_task t) DEFINE_TASK_ID_SHIFT)) (if dt_kernel t then 1 else 0).
Record DefineTaskCommand := mkDefineTask { dt_id : DefineTaskId; dt_length : Z; dt_directory_pfn : Z }.
Definition decode_define_task (payload : list Z) : option (DefineTaskCommand + ShortPayload) :=
  if (length payload <? DEFINE_TASK_LEN)%nat then fifo_short payload DEFINE_TASK_LEN
  else
    raw ← ld32 payload DEFINE_TASK_RAW_ID;
    length ← ld64 payload DEFINE_TASK_LENGTH;
    pfn ← ld32 payload DEFINE_TASK_DIRECTORY_PFN;
    Some (inl (mkDefineTask (from_raw raw) length pfn)).

Definition DELETE_TASK_ID : nat := 0x00.
Definition DELETE_TASK_LEN : nat := 4.
Definition decode_delete_task (payload : list Z) : option (Z + ShortPayload) :=
  if (length payload <? DELETE_TASK_LEN)%nat then fifo_short payload DELETE_TASK_LEN
  else id ← ld32 payload DELETE_TASK_ID; Some (inl id).

(** ** Object lists, backings, objects *)
Definition SET_OBJECT_LIST_TASK_ID : nat := 0x00.
Definition SET_OBJECT_LIST_PFN : nat := 0x04.
Definition SET_OBJECT_LIST_COUNT : nat := SET_OBJECT_LIST_PFN + 4.
Definition SET_OBJECT_LIST_LEN : nat := SET_OBJECT_LIST_COUNT + 4.
Record SetObjectListCommand := mkSetObjectList { sol_task : Z; sol_pfn : Z; sol_count : Z }.
Definition decode_set_object_list (payload : list Z) : option (SetObjectListCommand + ShortPayload) :=
  if (length payload <? SET_OBJECT_LIST_LEN)%nat then fifo_short payload SET_OBJECT_LIST_LEN
  else
    task ← ld32 payload SET_OBJECT_LIST_TASK_ID;
    pfn ← ld32 payload SET_OBJECT_LIST_PFN;
    count ← ld32 payload SET_OBJECT_LIST_COUNT;
    Some (inl (mkSetObjectList task pfn count)).

Definition DELETE_BACKING_OBJECT_ID : nat := 0x00.
Definition DELETE_BACKING_TASK_ID : nat := DELETE_BACKING_OBJECT_ID + 4.
Definition DELETE_BACKING_LEN : nat := DELETE_BACKING_TASK_ID + 4.
Record DeleteBackingCommand := mkDeleteBacking { db_object : Z; db_task : Z }.
Definition decode_delete_backing (payload : list Z) : option (DeleteBackingCommand + ShortPayload) :=
  if (length payload <? DELETE_BACKING_LEN)%nat then fifo_short payload DELETE_BACKING_LEN
  else
    object ← ld32 payload DELETE_BACKING_OBJECT_ID;
    task ← ld32 payload DELETE_BACKING_TASK_ID;
    Some (inl (mkDeleteBacking object task)).

Definition DELETE_OBJECT_TASK_ID : nat := 0x00.
Definition DELETE_OBJECT_RECORD : nat := DELETE_OBJECT_TASK_ID + 4.
Definition DELETE_OBJECT_RECORD_LEN : nat := DELETE_OBJECT_RECORD + 4.
Definition DELETE_OBJECT_LEN : nat := DELETE_OBJECT_RECORD_LEN + 4.
Record DeleteObjectCommand := mkDeleteObject { do_task : Z; do_record : list Z }.
Inductive DeleteObjectError := DoShortHeader (s : ShortPayload) | RecordTruncated (s : ShortPayload).
Definition delete_short (e : DeleteObjectError) : ShortPayload := match e with DoShortHeader s | RecordTruncated s => s end.
(** The lengths fit a [usize], so the saturating sum is the sum. *)
Definition decode_delete_object (payload : list Z) : option (DeleteObjectCommand + DeleteObjectError) :=
  if (length payload <? DELETE_OBJECT_LEN)%nat then Some (inr (DoShortHeader (mkShort (len payload) (Z.of_nat DELETE_OBJECT_LEN))))
  else
    record_len ← ld32 payload DELETE_OBJECT_RECORD_LEN;
    let n := record_len + Z.of_nat DELETE_OBJECT_RECORD in
    if len payload <? n then Some (inr (RecordTruncated (mkShort (len payload) n)))
    else
      task ← ld32 payload DELETE_OBJECT_TASK_ID;
      record ← slice_at DELETE_OBJECT_RECORD (length payload - DELETE_OBJECT_RECORD) payload;
      Some (inl (mkDeleteObject task record)).

(** ** Memory *)
Definition MAP_MEMORY_TASK_ID : nat := 0x00.
Definition MAP_MEMORY_GVA : nat := 0x04.
Definition MAP_MEMORY_LENGTH : nat := MAP_MEMORY_GVA + 8.
Definition MAP_MEMORY_LEN : nat := MAP_MEMORY_LENGTH + 8.
Record MapMemoryCommand := mkMapMemory { mm_task : Z; mm_gva : Z; mm_length : Z }.
Definition decode_map_memory (payload : list Z) : option (MapMemoryCommand + ShortPayload) :=
  if (length payload <? MAP_MEMORY_LEN)%nat then fifo_short payload MAP_MEMORY_LEN
  else
    task ← ld32 payload MAP_MEMORY_TASK_ID;
    gva ← ld64 payload MAP_MEMORY_GVA;
    length ← ld64 payload MAP_MEMORY_LENGTH;
    Some (inl (mkMapMemory task gva length)).

Definition TASK_OBJECT_TASK_ID : nat := 0x00.
Definition TASK_OBJECT_OBJECT_ID : nat := TASK_OBJECT_TASK_ID + 4.
Definition TASK_OBJECT_LEN : nat := TASK_OBJECT_OBJECT_ID + 4.
Record TaskObjectCommand := mkTaskObject { to_task : Z; to_object : Z }.
Definition decode_task_object (payload : list Z) : option (TaskObjectCommand + ShortPayload) :=
  if (length payload <? TASK_OBJECT_LEN)%nat then fifo_short payload TASK_OBJECT_LEN
  else
    task ← ld32 payload TASK_OBJECT_TASK_ID;
    object ← ld32 payload TASK_OBJECT_OBJECT_ID;
    Some (inl (mkTaskObject task object)).

(** ** Queries *)
Record ReplyBounds := mkBounds { rb_key_table_len : Z; rb_count : Z }.
Inductive DeviceInfoForm := WithoutKeyLimit | WithKeyLimit.
Definition key_table_len_offset (f : DeviceInfoForm) : option nat :=
  match f with WithoutKeyLimit => None | WithKeyLimit => Some 0x00%nat end.
Definition pair_capacity_offset (f : DeviceInfoForm) : nat := match f with WithoutKeyLimit => 0x00 | WithKeyLimit => 0x04 end.
Definition reply_pfn_offset (f : DeviceInfoForm) : nat := pair_capacity_offset f + 4.
Definition request_len (f : DeviceInfoForm) : nat := reply_pfn_offset f + 4.
Record DeviceInfoRequest := mkDeviceInfo { di_form : DeviceInfoForm; di_pair_capacity : Z; di_key_table_len : option Z; di_reply_pfn : Z }.
Definition device_reply_bounds (r : DeviceInfoRequest) : ReplyBounds :=
  mkBounds (match di_key_table_len r with Some len => len | None => 0xffffffff end) (di_pair_capacity r).
Definition decode_device_info (form : DeviceInfoForm) (payload : list Z) : option (DeviceInfoRequest + ShortPayload) :=
  if (length payload <? request_len form)%nat then fifo_short payload (request_len form)
  else
    key ← match key_table_len_offset form with
          | Some at_ => Some <$> ld32 payload at_
          | None => Some None
          end;
    pair ← ld32 payload (pair_capacity_offset form);
    pfn ← ld32 payload (reply_pfn_offset form);
    Some (inl (mkDeviceInfo form pair key pfn)).

Record ComputeInfoRequest := mkComputeInfo {
  ci_raw_task : Z; ci_pipeline_ref : Z; ci_key_table_len : Z; ci_pair_capacity : Z; ci_reply_gva : Z }.
Definition compute_reply_bounds (r : ComputeInfoRequest) : ReplyBounds := mkBounds (ci_key_table_len r) (ci_pair_capacity r).
Definition COMPUTE_INFO_REQUEST_LEN : nat := 24.
Definition decode_compute_info (payload : list Z) : option (ComputeInfoRequest + ShortPayload) :=
  if (length payload <? COMPUTE_INFO_REQUEST_LEN)%nat then fifo_short payload COMPUTE_INFO_REQUEST_LEN
  else
    task ← ld32 payload 0;
    pipeline ← ld32 payload 4;
    key ← ld32 payload 8;
    pair ← ld32 payload 12;
    lo ← ld32 payload 16;
    hi ← ld32 payload 20;
    Some (inl (mkComputeInfo task pipeline key pair (Z.lor lo (u64 (Z.shiftl hi 32))))).

Definition HEAP_TEXTURE_TASK_ID : nat := 0x00.
Definition HEAP_TEXTURE_REPLY_GVA : nat := HEAP_TEXTURE_TASK_ID + 4.
Definition HEAP_TEXTURE_REPLY_LENGTH : nat := HEAP_TEXTURE_REPLY_GVA + 8.
Definition HEAP_TEXTURE_SERIALIZER_LENGTH : nat := HEAP_TEXTURE_REPLY_LENGTH + 8.
Definition HEAP_TEXTURE_REQUEST_HEADER_LEN : nat := HEAP_TEXTURE_SERIALIZER_LENGTH + 4.
Definition HEAP_TEXTURE_REPLY_SIZE : nat := 0x00.
Definition HEAP_TEXTURE_REPLY_ALIGN : nat := HEAP_TEXTURE_REPLY_SIZE + 8.
Definition HEAP_TEXTURE_REPLY_LEN : nat := HEAP_TEXTURE_REPLY_ALIGN + 8.
Definition HEAP_TEXTURE_SERIALIZED_TAG : Z := 0x16.
Definition TEXTURE_DESCRIPTOR_LEN : nat := 32.
Definition HEAP_TEXTURE_SERIALIZED_LEN : nat := OP_HEADER_LEN + TEXTURE_DESCRIPTOR_LEN.
Record SizeAndAlign := mkSizeAlign { sa_size : Z; sa_align : Z }.
Definition encode_size_and_align (s : SizeAndAlign) : option (list Z) :=
  out ← st 8 (replicate HEAP_TEXTURE_REPLY_LEN 0) HEAP_TEXTURE_REPLY_SIZE (sa_size s);
  st 8 out HEAP_TEXTURE_REPLY_ALIGN (sa_align s).
Record HeapTextureRequest := mkHeapTexture { ht_raw_task : Z; ht_reply_gva : Z; ht_reply_len : Z; ht_descriptor : list Z }.
Inductive HeapTextureRefusal :=
  | HtShort (s : ShortPayload) | ReplyDestination (gva len : Z) | SerializerLength (declared : Z) (plen : Z)
  | SerializerTag (found : Z).
Definition decode_heap_texture_query (payload : list Z) : option (HeapTextureRequest + HeapTextureRefusal) :=
  if (length payload <? HEAP_TEXTURE_REQUEST_HEADER_LEN)%nat then
    Some (inr (HtShort (mkShort (len payload) (Z.of_nat HEAP_TEXTURE_REQUEST_HEADER_LEN))))
  else
    gva ← ld64 payload HEAP_TEXTURE_REPLY_GVA;
    reply_len ← ld64 payload HEAP_TEXTURE_REPLY_LENGTH;
    if (gva =? 0) || (reply_len <? Z.of_nat HEAP_TEXTURE_REPLY_LEN) then Some (inr (ReplyDestination gva reply_len))
    else
      declared ← ld32 payload HEAP_TEXTURE_SERIALIZER_LENGTH;
      if negb (declared =? Z.of_nat HEAP_TEXTURE_SERIALIZED_LEN)
         || negb (len payload =? Z.of_nat HEAP_TEXTURE_REQUEST_HEADER_LEN + declared)
      then Some (inr (SerializerLength declared (len payload)))
      else
        rest ← slice_at HEAP_TEXTURE_REQUEST_HEADER_LEN (length payload - HEAP_TEXTURE_REQUEST_HEADER_LEN) payload;
        record ← op rest 0;
        match record with
        | inr _ => Some (inr (SerializerLength declared (len payload)))
        | inl record =>
            if negb (opcode (op_header record) =? HEAP_TEXTURE_SERIALIZED_TAG) then
              Some (inr (SerializerTag (opcode (op_header record))))
            else
              task ← ld32 payload HEAP_TEXTURE_TASK_ID;
              Some (inl (mkHeapTexture task gva reply_len (op_payload record)))
        end.

(** ** Resource lists *)
Definition CHILD_RESOURCE_LIST_TASK_ID : nat := 0x00.
Definition CHILD_RESOURCE_LIST_COUNT : nat := 0x04.
Definition CHILD_RESOURCE_LIST_HEADER_LEN : nat := 8.
Definition CHILD_INVALIDATE_RECORD_LEN : nat := 8.
Definition CHILD_SYNCHRONIZE_RECORD_LEN : nat := 4.
Inductive ResourceListDecodeError := RlShortHeader (plen : Z) | Truncated (count plen need : Z).

Record InvalidateValidityOps := mkOps { clear_host_valid : Z; set_host_valid : Z; clear_guest_valid : Z; set_guest_valid : Z }.
Definition from_le_dword (flags : Z) : InvalidateValidityOps :=
  mkOps (u8 flags) (u8 (Z.shiftr flags 8)) (u8 (Z.shiftr flags 16)) (u8 (Z.shiftr flags 24)).
Definition to_le_dword (o : InvalidateValidityOps) : Z :=
  le_val [clear_host_valid o; set_host_valid o; clear_guest_valid o; set_guest_valid o].
Definition PAGEON : InvalidateValidityOps := mkOps 1 0 0 1.
Definition CHILD_INVALIDATE_PAGEON_FLAGS : Z := 0x01000001.
Definition is_guest_write (o : InvalidateValidityOps) : bool :=
  nz (clear_host_valid o) && nz (set_guest_valid o) && (set_host_valid o =? 0) && (clear_guest_valid o =? 0).

Record InvalidateResourceRecord := mkInvRec { ir_object : Z; ir_flags : Z; ir_ops : InvalidateValidityOps }.
Record InvalidateResourcesCommand := mkInv { inv_task : Z; inv_count : Z; inv_records : list InvalidateResourceRecord }.
Record SynchronizeResourcesCommand := mkSync { sync_task : Z; sync_count : Z; sync_objects : list Z }.
Definition resource_list_need (count : Z) (record_len : nat) : Z :=
  count * Z.of_nat record_len + Z.of_nat CHILD_RESOURCE_LIST_HEADER_LEN.

Fixpoint invalidate_records (payload : list Z) (count off : nat) : option (list InvalidateResourceRecord) :=
  match count with
  | O => Some []
  | S count =>
      object ← ld32 payload off;
      flags ← ld32 payload (off + 4);
      records ← invalidate_records payload count (off + CHILD_INVALIDATE_RECORD_LEN);
      Some (mkInvRec object flags (from_le_dword flags) :: records)
  end.
Definition decode_invalidate_resources (payload : list Z) : option (InvalidateResourcesCommand + ResourceListDecodeError) :=
  if (length payload <? CHILD_RESOURCE_LIST_HEADER_LEN)%nat then Some (inr (RlShortHeader (len payload)))
  else
    task ← ld32 payload CHILD_RESOURCE_LIST_TASK_ID;
    count ← ld32 payload CHILD_RESOURCE_LIST_COUNT;
    let need := resource_list_need count CHILD_INVALIDATE_RECORD_LEN in
    if len payload <? need then Some (inr (Truncated count (len payload) need))
    else
      records ← invalidate_records payload (Z.to_nat count) CHILD_RESOURCE_LIST_HEADER_LEN;
      Some (inl (mkInv task count records)).
Fixpoint synchronize_records (payload : list Z) (count off : nat) : option (list Z) :=
  match count with
  | O => Some []
  | S count =>
      object ← ld32 payload off;
      objects ← synchronize_records payload count (off + CHILD_SYNCHRONIZE_RECORD_LEN);
      Some (object :: objects)
  end.
Definition decode_synchronize_resources (payload : list Z) : option (SynchronizeResourcesCommand + ResourceListDecodeError) :=
  if (length payload <? CHILD_RESOURCE_LIST_HEADER_LEN)%nat then Some (inr (RlShortHeader (len payload)))
  else
    task ← ld32 payload CHILD_RESOURCE_LIST_TASK_ID;
    count ← ld32 payload CHILD_RESOURCE_LIST_COUNT;
    let need := resource_list_need count CHILD_SYNCHRONIZE_RECORD_LEN in
    if len payload <? need then Some (inr (Truncated count (len payload) need))
    else
      objects ← synchronize_records payload (Z.to_nat count) CHILD_RESOURCE_LIST_HEADER_LEN;
      Some (inl (mkSync task count objects)).

(** ** Work *)
Definition CHILD_EXEC_INDIRECT_TASK_ID : nat := 0x00.
Definition CHILD_EXEC_INDIRECT_RESOURCE_COUNT : nat := 0x04.
Definition CHILD_EXEC_INDIRECT_CMDBUF_COUNT : nat := 0x08.
Definition CHILD_EXEC_INDIRECT_HEADER_LEN : nat := 12.
Definition CHILD_EXEC_INDIRECT_RESOURCE_DESC_LEN : nat := 24.
Definition CHILD_EXEC_RESOURCE_OBJECT_ID : nat := 0x00.
Definition CHILD_EXEC_RESOURCE_VALIDITY_OPS : nat := 0x04.
Definition CHILD_EXEC_RESOURCE_TAIL : nat := 0x08.
Definition CHILD_EXEC_RESOURCE_TAIL_LEN : nat := 16.
Record ExecResourceDesc := mkDesc { ed_object : Z; ed_ops : InvalidateValidityOps; ed_tail : list Z }.
Definition tail_nonzero_bytes (d : ExecResourceDesc) : nat := length (filter (λ b, b ≠ 0) (ed_tail d)).
Record ExecIndirectHeader := mkExecHeader { eh_task : Z; eh_resource_count : Z; eh_cmdbuf_count : Z }.
Definition decode_exec_header (payload : list Z) : option (ExecIndirectHeader + ShortPayload) :=
  if (length payload <? CHILD_EXEC_INDIRECT_HEADER_LEN)%nat then fifo_short payload CHILD_EXEC_INDIRECT_HEADER_LEN
  else
    task ← ld32 payload CHILD_EXEC_INDIRECT_TASK_ID;
    resources ← ld32 payload CHILD_EXEC_INDIRECT_RESOURCE_COUNT;
    cmdbufs ← ld32 payload CHILD_EXEC_INDIRECT_CMDBUF_COUNT;
    Some (inl (mkExecHeader task resources cmdbufs)).
Fixpoint exec_descs (payload : list Z) (count off : nat) : option (list ExecResourceDesc) :=
  match count with
  | O => Some []
  | S count =>
      object ← ld32 payload (off + CHILD_EXEC_RESOURCE_OBJECT_ID);
      flags ← ld32 payload (off + CHILD_EXEC_RESOURCE_VALIDITY_OPS);
      tail ← slice_at (off + CHILD_EXEC_RESOURCE_TAIL) CHILD_EXEC_RESOURCE_TAIL_LEN payload;
      descs ← exec_descs payload count (off + CHILD_EXEC_INDIRECT_RESOURCE_DESC_LEN);
      Some (mkDesc object (from_le_dword flags) tail :: descs)
  end.
(** The count is a [u32], so the product and the sum do not saturate. *)
Definition decode_exec_resource_table (payload : list Z) : option (list ExecResourceDesc + ResourceListDecodeError) :=
  header ← decode_exec_header payload;
  match header with
  | inr _ => Some (inr (RlShortHeader (len payload)))
  | inl header =>
      let count := eh_resource_count header in
      let need := Z.of_nat CHILD_EXEC_INDIRECT_HEADER_LEN + count * Z.of_nat CHILD_EXEC_INDIRECT_RESOURCE_DESC_LEN in
      if len payload <? need then Some (inr (Truncated count (len payload) need))
      else
        descs ← exec_descs payload (Z.to_nat count) CHILD_EXEC_INDIRECT_HEADER_LEN;
        Some (inl descs)
  end.

(** ** Display *)
Definition CHILD_SHARED_STATE_INDEX : nat := 0x00.
Definition CHILD_SHARED_STATE_PFN : nat := 0x04.
Definition CHILD_SHARED_STATE_LEN : nat := 8.
Record SharedStatePage := mkShared { ss_index : Z; ss_pfn : Z }.
Definition decode_shared_state (payload : list Z) : option (SharedStatePage + ShortPayload) :=
  if (length payload <? CHILD_SHARED_STATE_LEN)%nat then fifo_short payload CHILD_SHARED_STATE_LEN
  else
    index ← ld32 payload CHILD_SHARED_STATE_INDEX;
    pfn ← ld32 payload CHILD_SHARED_STATE_PFN;
    Some (inl (mkShared index pfn)).

Definition CURSOR_GLYPH_TASK_ID : nat := 0x04.
Definition CURSOR_GLYPH_VIRTUAL_OFFSET : nat := 0x08.
Definition CURSOR_GLYPH_MAPPED_LENGTH : nat := 0x10.
Definition CURSOR_GLYPH_STRIDE : nat := 0x18.
Definition CURSOR_GLYPH_WIDTH : nat := 0x20.
Definition CURSOR_GLYPH_HEIGHT : nat := 0x22.
Definition CURSOR_GLYPH_HOT_X : nat := 0x24.
Definition CURSOR_GLYPH_HOT_Y : nat := 0x26.
Definition CURSOR_GLYPH_LEN : nat := 0x2c.
Record CursorGlyphRecord := mkGlyph {
  cg_task : Z; cg_virtual_offset : Z; cg_mapped_length : Z; cg_stride : Z; cg_width : Z; cg_height : Z; cg_hot_x : Z; cg_hot_y : Z }.
Definition decode_cursor_glyph (payload : list Z) : option (CursorGlyphRecord + ShortPayload) :=
  if (length payload <? CURSOR_GLYPH_LEN)%nat then fifo_short payload CURSOR_GLYPH_LEN
  else
    task ← ld32 payload CURSOR_GLYPH_TASK_ID;
    offset ← ld64 payload CURSOR_GLYPH_VIRTUAL_OFFSET;
    mapped ← ld64 payload CURSOR_GLYPH_MAPPED_LENGTH;
    stride ← ld64 payload CURSOR_GLYPH_STRIDE;
    width ← ld16 payload CURSOR_GLYPH_WIDTH;
    height ← ld16 payload CURSOR_GLYPH_HEIGHT;
    x ← ld16 payload CURSOR_GLYPH_HOT_X;
    y ← ld16 payload CURSOR_GLYPH_HOT_Y;
    Some (inl (mkGlyph task offset mapped stride width height x y)).
Definition CURSOR_SHOW_FLAG : nat := 0x04.
Definition CURSOR_SHOW_LEN : nat := 8.
Definition decode_cursor_show (payload : list Z) : option (bool + ShortPayload) :=
  if (length payload <? CURSOR_SHOW_LEN)%nat then fifo_short payload CURSOR_SHOW_LEN
  else flag ← ld32 payload CURSOR_SHOW_FLAG; Some (inl (nz flag)).

Definition CHANNEL_LIFETIME_CHANNEL_ID : nat := 0x00.
Definition CHANNEL_LIFETIME_LEN : nat := 4.
Definition decode_channel_lifetime (payload : list Z) : option (Z + ShortPayload) :=
  if (length payload <? CHANNEL_LIFETIME_LEN)%nat then fifo_short payload CHANNEL_LIFETIME_LEN
  else id ← ld32 payload CHANNEL_LIFETIME_CHANNEL_ID; Some (inl id).

Definition DISPLAY_DESC_TIMING_BASE : Z := 0x210.
Definition DISPLAY_DESC_TIMING_STRIDE : nat := 0x10.
Definition DISPLAY_TIMING_WIDTH : nat := 0x00.
Definition DISPLAY_TIMING_HEIGHT : nat := 0x02.
Definition DISPLAY_TIMING_REFRESH : nat := 0x04.
Definition DISPLAY_TIMING_TAIL0 : nat := 0x08.
Definition DISPLAY_TIMING_TAIL1 : nat := 0x0c.
Definition DISPLAY_TIMING_REFRESH_FRAC_BITS : Z := 16.
Record DisplayTimingEntry := mkTiming { t_width : Z; t_height : Z; t_refresh_1616 : Z; t_tail0 : Z; t_tail1 : Z }.
Definition bounded_entry_offset_from_base (index base byte_capacity entry_len : Z) : option Z :=
  if entry_len =? 0 then None
  else
    let entry_offset := u64 (index * entry_len) in
    let offset := base + entry_offset in
    if UINT64_MAX <? offset then None
    else if (byte_capacity <? offset) || (byte_capacity - offset <? entry_len) then None
    else Some offset.
Definition display_refresh_hz_1616 (refresh_hz : Z) : option Z :=
  if Z.shiftr 0xffffffff DISPLAY_TIMING_REFRESH_FRAC_BITS <? refresh_hz then None
  else Some (u32 (Z.shiftl refresh_hz DISPLAY_TIMING_REFRESH_FRAC_BITS)).
(** Whether the entry was written, and the buffer after. *)
Definition encode_display_timing_entry (entry : DisplayTimingEntry) (dst : list Z) : option (bool * list Z) :=
  if (length dst <? DISPLAY_DESC_TIMING_STRIDE)%nat then Some (false, dst)
  else
    dst ← st 2 dst DISPLAY_TIMING_WIDTH (t_width entry);
    dst ← st 2 dst DISPLAY_TIMING_HEIGHT (t_height entry);
    dst ← st 4 dst DISPLAY_TIMING_REFRESH (t_refresh_1616 entry);
    dst ← st 4 dst DISPLAY_TIMING_TAIL0 (t_tail0 entry);
    dst ← st 4 dst DISPLAY_TIMING_TAIL1 (t_tail1 entry);
    Some (true, dst).
Definition display_timing_entry_offset (index byte_capacity : Z) : option Z :=
  bounded_entry_offset_from_base index DISPLAY_DESC_TIMING_BASE byte_capacity (Z.of_nat DISPLAY_DESC_TIMING_STRIDE).

(** ** All decoders as one *)
Inductive kind :=
  | KDefineTask | KDeleteTask | KSetObjectList | KDeleteBacking | KDeleteObject | KMapMemory | KTaskObject
  | KDeviceInfo (form : DeviceInfoForm) | KComputeInfo | KHeapTexture | KInvalidate | KSynchronize | KExecHeader | KExecTable
  | KSharedState | KCursorGlyph | KCursorShow | KChannelLifetime.
Inductive command :=
  | CDefineTask (c : DefineTaskCommand) | CDeleteTask (id : Z) | CSetObjectList (c : SetObjectListCommand)
  | CDeleteBacking (c : DeleteBackingCommand) | CDeleteObject (c : DeleteObjectCommand) | CMapMemory (c : MapMemoryCommand)
  | CTaskObject (c : TaskObjectCommand) | CDeviceInfo (c : DeviceInfoRequest) | CComputeInfo (c : ComputeInfoRequest)
  | CHeapTexture (c : HeapTextureRequest) | CInvalidate (c : InvalidateResourcesCommand)
  | CSynchronize (c : SynchronizeResourcesCommand) | CExecHeader (c : ExecIndirectHeader) | CExecTable (ds : list ExecResourceDesc)
  | CSharedState (c : SharedStatePage) | CCursorGlyph (c : CursorGlyphRecord) | CCursorShow (b : bool) | CChannelLifetime (id : Z).
Inductive refusal :=
  | RShort (e : ShortPayload) | RDeleteObject (e : DeleteObjectError) | RHeap (e : HeapTextureRefusal) | RList (e : ResourceListDecodeError).
Definition both {A B E F} (f : A → B) (g : E → F) (r : option (A + E)) : option (B + F) :=
  match r with Some (inl a) => Some (inl (f a)) | Some (inr e) => Some (inr (g e)) | None => None end.
Definition decode_as (k : kind) (p : list Z) : option (command + refusal) :=
  match k with
  | KDefineTask => both CDefineTask RShort (decode_define_task p)
  | KDeleteTask => both CDeleteTask RShort (decode_delete_task p)
  | KSetObjectList => both CSetObjectList RShort (decode_set_object_list p)
  | KDeleteBacking => both CDeleteBacking RShort (decode_delete_backing p)
  | KDeleteObject => both CDeleteObject RDeleteObject (decode_delete_object p)
  | KMapMemory => both CMapMemory RShort (decode_map_memory p)
  | KTaskObject => both CTaskObject RShort (decode_task_object p)
  | KDeviceInfo form => both CDeviceInfo RShort (decode_device_info form p)
  | KComputeInfo => both CComputeInfo RShort (decode_compute_info p)
  | KHeapTexture => both CHeapTexture RHeap (decode_heap_texture_query p)
  | KInvalidate => both CInvalidate RList (decode_invalidate_resources p)
  | KSynchronize => both CSynchronize RList (decode_synchronize_resources p)
  | KExecHeader => both CExecHeader RShort (decode_exec_header p)
  | KExecTable => both CExecTable RList (decode_exec_resource_table p)
  | KSharedState => both CSharedState RShort (decode_shared_state p)
  | KCursorGlyph => both CCursorGlyph RShort (decode_cursor_glyph p)
  | KCursorShow => both CCursorShow RShort (decode_cursor_show p)
  | KChannelLifetime => both CChannelLifetime RShort (decode_channel_lifetime p)
  end.

(** ** The layouts: which payloads are which commands

    Bytes after a fixed layout are ignored; bytes the layouts leave open are the [gap]s. *)
Abbreviation le4 v := (le_bytes 4 v).
Abbreviation le8 v := (le_bytes 8 v).
Abbreviation le2 v := (le_bytes 2 v).
Definition is_u16 (v : Z) : Prop := 0 ≤ v < 0x10000.
Definition inv_bytes (r : InvalidateResourceRecord) : list Z := le4 (ir_object r) ++ le4 (ir_flags r).
Definition inv_wf (r : InvalidateResourceRecord) : Prop :=
  is_u32 (ir_object r) ∧ is_u32 (ir_flags r) ∧ ir_ops r = from_le_dword (ir_flags r).
Definition ops_wf (o : InvalidateValidityOps) : Prop :=
  is_u8 (clear_host_valid o) ∧ is_u8 (set_host_valid o) ∧ is_u8 (clear_guest_valid o) ∧ is_u8 (set_guest_valid o).
Definition desc_bytes (d : ExecResourceDesc) : list Z := le4 (ed_object d) ++ le4 (to_le_dword (ed_ops d)) ++ ed_tail d.
Definition desc_wf (d : ExecResourceDesc) : Prop :=
  is_u32 (ed_object d) ∧ ops_wf (ed_ops d) ∧ length (ed_tail d) = CHILD_EXEC_RESOURCE_TAIL_LEN.
Inductive reads (p : list Z) : kind → command → Prop :=
  | r_define_task t k l pfn rest : 0 ≤ t < 0x80000000 → is_u64 l → is_u32 pfn →
      p = le4 (2 * t + if k : bool then 1 else 0) ++ le8 l ++ le4 pfn ++ rest →
      reads p KDefineTask (CDefineTask (mkDefineTask (mkTaskId t k) l pfn))
  | r_delete_task id rest : is_u32 id → p = le4 id ++ rest → reads p KDeleteTask (CDeleteTask id)
  | r_set_object_list t pfn n rest : is_u32 t → is_u32 pfn → is_u32 n → p = le4 t ++ le4 pfn ++ le4 n ++ rest →
      reads p KSetObjectList (CSetObjectList (mkSetObjectList t pfn n))
  | r_delete_backing o t rest : is_u32 o → is_u32 t → p = le4 o ++ le4 t ++ rest →
      reads p KDeleteBacking (CDeleteBacking (mkDeleteBacking o t))
  | r_delete_object t opc n body : is_u32 t → is_u32 opc → is_u32 n → n ≤ 8 + len body →
      p = le4 t ++ le4 opc ++ le4 n ++ body →
      reads p KDeleteObject (CDeleteObject (mkDeleteObject t (le4 opc ++ le4 n ++ body)))
  | r_map_memory t gva l rest : is_u32 t → is_u64 gva → is_u64 l → p = le4 t ++ le8 gva ++ le8 l ++ rest →
      reads p KMapMemory (CMapMemory (mkMapMemory t gva l))
  | r_task_object t o rest : is_u32 t → is_u32 o → p = le4 t ++ le4 o ++ rest →
      reads p KTaskObject (CTaskObject (mkTaskObject t o))
  | r_device_info_old n pfn rest : is_u32 n → is_u32 pfn → p = le4 n ++ le4 pfn ++ rest →
      reads p (KDeviceInfo WithoutKeyLimit) (CDeviceInfo (mkDeviceInfo WithoutKeyLimit n None pfn))
  | r_device_info_new key n pfn rest : is_u32 key → is_u32 n → is_u32 pfn → p = le4 key ++ le4 n ++ le4 pfn ++ rest →
      reads p (KDeviceInfo WithKeyLimit) (CDeviceInfo (mkDeviceInfo WithKeyLimit n (Some key) pfn))
  | r_compute_info t pl key n gva rest : is_u32 t → is_u32 pl → is_u32 key → is_u32 n → is_u64 gva →
      p = le4 t ++ le4 pl ++ le4 key ++ le4 n ++ le8 gva ++ rest →
      reads p KComputeInfo (CComputeInfo (mkComputeInfo t pl key n gva))
  | r_heap_texture t gva l desc : is_u32 t → is_u64 gva → is_u64 l → gva ≠ 0 → 16 ≤ l →
      length desc = TEXTURE_DESCRIPTOR_LEN → Forall is_u8 desc →
      p = le4 t ++ le8 gva ++ le8 l ++ le4 40 ++ le4 HEAP_TEXTURE_SERIALIZED_TAG ++ le4 40 ++ desc →
      reads p KHeapTexture (CHeapTexture (mkHeapTexture t gva l desc))
  | r_invalidate t rs rest : is_u32 t → is_u32 (Z.of_nat (length rs)) → Forall inv_wf rs →
      p = le4 t ++ le4 (Z.of_nat (length rs)) ++ concat (inv_bytes <$> rs) ++ rest →
      reads p KInvalidate (CInvalidate (mkInv t (Z.of_nat (length rs)) rs))
  | r_synchronize t os rest : is_u32 t → is_u32 (Z.of_nat (length os)) → Forall is_u32 os →
      p = le4 t ++ le4 (Z.of_nat (length os)) ++ words_bytes 4 os ++ rest →
      reads p KSynchronize (CSynchronize (mkSync t (Z.of_nat (length os)) os))
  | r_exec_header t n m rest : is_u32 t → is_u32 n → is_u32 m → p = le4 t ++ le4 n ++ le4 m ++ rest →
      reads p KExecHeader (CExecHeader (mkExecHeader t n m))
  | r_exec_table t ds m rest : is_u32 t → is_u32 (Z.of_nat (length ds)) → is_u32 m → Forall desc_wf ds →
      p = le4 t ++ le4 (Z.of_nat (length ds)) ++ le4 m ++ concat (desc_bytes <$> ds) ++ rest →
      reads p KExecTable (CExecTable ds)
  | r_shared_state i pfn rest : is_u32 i → is_u32 pfn → p = le4 i ++ le4 pfn ++ rest →
      reads p KSharedState (CSharedState (mkShared i pfn))
  | r_cursor_glyph gap t off m s w h x y gap' rest : length gap = 4%nat → is_u32 t → is_u64 off → is_u64 m → is_u64 s →
      is_u16 w → is_u16 h → is_u16 x → is_u16 y → length gap' = 4%nat →
      p = gap ++ le4 t ++ le8 off ++ le8 m ++ le8 s ++ le2 w ++ le2 h ++ le2 x ++ le2 y ++ gap' ++ rest →
      reads p KCursorGlyph (CCursorGlyph (mkGlyph t off m s w h x y))
  | r_cursor_show gap v rest : length gap = 4%nat → is_u32 v → p = gap ++ le4 v ++ rest →
      reads p KCursorShow (CCursorShow (nz v))
  | r_channel id rest : is_u32 id → p = le4 id ++ rest → reads p KChannelLifetime (CChannelLifetime id).

(** A heap-texture request whose embedded record declares fewer bytes than a descriptor has: the
    length is declared twice, and only the outer one is checked. *)
Inductive undersized (p : list Z) : kind → command → Prop :=
  | u_heap_texture t gva l n desc spare : is_u32 t → is_u64 gva → is_u64 l → gva ≠ 0 → 16 ≤ l → is_u32 n → n = 8 + len desc →
      length (desc ++ spare) = TEXTURE_DESCRIPTOR_LEN → spare ≠ [] → Forall is_u8 desc →
      p = le4 t ++ le8 gva ++ le8 l ++ le4 40 ++ le4 HEAP_TEXTURE_SERIALIZED_TAG ++ le4 n ++ desc ++ spare →
      undersized p KHeapTexture (CHeapTexture (mkHeapTexture t gva l desc)).

(** What a refusal says.  [fixed_len] is the length of each fixed layout and [head_len] that of
    what comes before a list of records. *)
Definition fixed_len (k : kind) : option Z :=
  match k with
  | KDefineTask => Some 16 | KDeleteTask => Some 4 | KSetObjectList => Some 12 | KDeleteBacking => Some 8 | KMapMemory => Some 20
  | KTaskObject => Some 8 | KDeviceInfo WithoutKeyLimit => Some 8 | KDeviceInfo WithKeyLimit => Some 12 | KComputeInfo => Some 24
  | KExecHeader => Some 12 | KSharedState => Some 8 | KCursorGlyph => Some 44 | KCursorShow => Some 8 | KChannelLifetime => Some 4
  | _ => None
  end.
Definition head_len (k : kind) : option Z :=
  match k with KInvalidate | KSynchronize => Some 8 | KExecTable => Some 12 | _ => None end.
Inductive refuses (p : list Z) : kind → refusal → Prop :=
  | f_fixed k n : fixed_len k = Some n → len p < n → refuses p k (RShort (mkShort (len p) n))
  | f_delete_short : len p < 12 → refuses p KDeleteObject (RDeleteObject (DoShortHeader (mkShort (len p) 12)))
  | f_delete_truncated t opc n body : is_u32 t → is_u32 opc → is_u32 n → p = le4 t ++ le4 opc ++ le4 n ++ body → 8 + len body < n →
      refuses p KDeleteObject (RDeleteObject (RecordTruncated (mkShort (len p) (4 + n))))
  | f_list_short k n : head_len k = Some n → len p < n → refuses p k (RList (RlShortHeader (len p)))
  | f_invalidate t n rest : is_u32 t → is_u32 n → p = le4 t ++ le4 n ++ rest → len rest < 8 * n →
      refuses p KInvalidate (RList (Truncated n (len p) (8 + 8 * n)))
  | f_synchronize t n rest : is_u32 t → is_u32 n → p = le4 t ++ le4 n ++ rest → len rest < 4 * n →
      refuses p KSynchronize (RList (Truncated n (len p) (8 + 4 * n)))
  | f_exec_table t n m rest : is_u32 t → is_u32 n → is_u32 m → p = le4 t ++ le4 n ++ le4 m ++ rest → len rest < 24 * n →
      refuses p KExecTable (RList (Truncated n (len p) (12 + 24 * n)))
  | f_heap_short : len p < 24 → refuses p KHeapTexture (RHeap (HtShort (mkShort (len p) 24)))
  | f_heap_reply t gva l n rest : is_u32 t → is_u64 gva → is_u64 l → is_u32 n → p = le4 t ++ le8 gva ++ le8 l ++ le4 n ++ rest → gva = 0 ∨ l < 16 →
      refuses p KHeapTexture (RHeap (ReplyDestination gva l))
  | f_heap_length t gva l n rest : is_u32 t → is_u64 gva → is_u64 l → is_u32 n → p = le4 t ++ le8 gva ++ le8 l ++ le4 n ++ rest →
      gva ≠ 0 → 16 ≤ l → n ≠ 40 ∨ len rest ≠ n → refuses p KHeapTexture (RHeap (SerializerLength n (len p)))
  | f_heap_record t gva l opc n rest : is_u32 t → is_u64 gva → is_u64 l → is_u32 opc → is_u32 n → gva ≠ 0 → 16 ≤ l →
      p = le4 t ++ le8 gva ++ le8 l ++ le4 40 ++ le4 opc ++ le4 n ++ rest → len rest = 32 → n < 8 ∨ 40 < n →
      refuses p KHeapTexture (RHeap (SerializerLength 40 (len p)))
  | f_heap_tag t gva l opc n rest : is_u32 t → is_u64 gva → is_u64 l → is_u32 opc → is_u32 n → gva ≠ 0 → 16 ≤ l →
      p = le4 t ++ le8 gva ++ le8 l ++ le4 40 ++ le4 opc ++ le4 n ++ rest → len rest = 32 → 8 ≤ n ≤ 40 → opc ≠ HEAP_TEXTURE_SERIALIZED_TAG →
      refuses p KHeapTexture (RHeap (SerializerTag opc)).
Definition answers (p : list Z) (k : kind) (r : command + refusal) : Prop :=
  match r with inl c => reads p k c ∨ undersized p k c | inr e => refuses p k e end.

(** ** Fields *)
Lemma ld_some n p i : (i + n ≤ length p)%nat → ld n p i = Some (le_val (slice i n p)).
Proof. intros. unfold ld. by rewrite slice_at_some. Qed.
Lemma ld_skip n a b i : (length a ≤ i)%nat → ld n (a ++ b) i = ld n b (i - length a).
Proof.
  intros Hi. unfold ld, slice_at. rewrite length_app. unfold slice. rewrite drop_app_ge by done.
  repeat case_decide; (done || lia).
Qed.
Lemma ld_here n v rest : 0 ≤ v < 2 ^ (8 * Z.of_nat n) → ld n (le_bytes n v ++ rest) 0 = Some v.
Proof.
  intros Hv. rewrite ld_some by (rewrite length_app, length_le_bytes; lia). rewrite slice_start by apply length_le_bytes.
  by rewrite le_val_field.
Qed.
Lemma carve i n p : Forall is_u8 p → (i + n ≤ length p)%nat → drop i p = le_bytes n (le_val (slice i n p)) ++ drop (i + n) p.
Proof. intros Hp Hn. rewrite slice_field by done. unfold slice. by rewrite <- drop_drop, take_drop. Qed.

Ltac layout_consts := cbv delta [
    DEFINE_TASK_RAW_ID DEFINE_TASK_LENGTH DEFINE_TASK_DIRECTORY_PFN DEFINE_TASK_LEN DELETE_TASK_ID DELETE_TASK_LEN SET_OBJECT_LIST_TASK_ID
    SET_OBJECT_LIST_PFN SET_OBJECT_LIST_COUNT SET_OBJECT_LIST_LEN DELETE_BACKING_OBJECT_ID DELETE_BACKING_TASK_ID DELETE_BACKING_LEN
    DELETE_OBJECT_TASK_ID DELETE_OBJECT_RECORD DELETE_OBJECT_RECORD_LEN DELETE_OBJECT_LEN MAP_MEMORY_TASK_ID MAP_MEMORY_GVA MAP_MEMORY_LENGTH
    MAP_MEMORY_LEN TASK_OBJECT_TASK_ID TASK_OBJECT_OBJECT_ID TASK_OBJECT_LEN COMPUTE_INFO_REQUEST_LEN HEAP_TEXTURE_TASK_ID
    HEAP_TEXTURE_REPLY_GVA HEAP_TEXTURE_REPLY_LENGTH HEAP_TEXTURE_SERIALIZER_LENGTH HEAP_TEXTURE_REQUEST_HEADER_LEN HEAP_TEXTURE_REPLY_SIZE
    HEAP_TEXTURE_REPLY_ALIGN HEAP_TEXTURE_REPLY_LEN TEXTURE_DESCRIPTOR_LEN HEAP_TEXTURE_SERIALIZED_LEN CHILD_RESOURCE_LIST_TASK_ID
    CHILD_RESOURCE_LIST_COUNT CHILD_RESOURCE_LIST_HEADER_LEN CHILD_INVALIDATE_RECORD_LEN CHILD_SYNCHRONIZE_RECORD_LEN CHILD_EXEC_INDIRECT_TASK_ID
    CHILD_EXEC_INDIRECT_RESOURCE_COUNT CHILD_EXEC_INDIRECT_CMDBUF_COUNT CHILD_EXEC_INDIRECT_HEADER_LEN CHILD_EXEC_INDIRECT_RESOURCE_DESC_LEN
    CHILD_EXEC_RESOURCE_OBJECT_ID CHILD_EXEC_RESOURCE_VALIDITY_OPS CHILD_EXEC_RESOURCE_TAIL CHILD_EXEC_RESOURCE_TAIL_LEN CHILD_SHARED_STATE_INDEX
    CHILD_SHARED_STATE_PFN CHILD_SHARED_STATE_LEN CURSOR_GLYPH_TASK_ID CURSOR_GLYPH_VIRTUAL_OFFSET CURSOR_GLYPH_MAPPED_LENGTH
    CURSOR_GLYPH_STRIDE CURSOR_GLYPH_WIDTH CURSOR_GLYPH_HEIGHT CURSOR_GLYPH_HOT_X CURSOR_GLYPH_HOT_Y CURSOR_GLYPH_LEN CURSOR_SHOW_FLAG
    CURSOR_SHOW_LEN CHANNEL_LIFETIME_CHANNEL_ID CHANNEL_LIFETIME_LEN DISPLAY_DESC_TIMING_STRIDE DISPLAY_TIMING_WIDTH DISPLAY_TIMING_HEIGHT
    DISPLAY_TIMING_REFRESH DISPLAY_TIMING_TAIL0 DISPLAY_TIMING_TAIL1].
Ltac ranges := first [assumption|unfold is_u16, is_u32, is_u64 in *; repeat match goal with |- context [if ?b then _ else _] => destruct b end; cbn; lia].
(** Reads the fields of a payload that is spelled out. *)
Ltac read_field :=
  match goal with
  | |- context [ld ?n (le_bytes ?n ?v ++ ?b) 0%nat] => rewrite (ld_here n v b) by ranges
  | |- context [ld ?n (?a ++ ?b) ?i] => rewrite (ld_skip n a b i) by (rewrite ?length_le_bytes; lia)
  end; rewrite ?length_le_bytes; repeat match goal with H : length _ = 4%nat |- _ => rewrite H end; cbn [Nat.sub].
Ltac long_enough := rewrite (proj2 (Nat.ltb_ge _ _)) by (rewrite ?length_app, ?length_le_bytes; cbn; lia).
Ltac read_all := unfold ld16, ld32, ld64; cbn [Nat.add]; repeat read_field; cbn [mbind option_bind both].

Lemma from_raw_raw t (k : bool) : 0 ≤ t < 0x80000000 → from_raw (2 * t + if k then 1 else 0) = mkTaskId t k.
Proof.
  intros Ht. unfold from_raw, DEFINE_TASK_ID_SHIFT. rewrite Z.shiftr_div_pow2 by lia. change (2 ^ 1) with 2.
  f_equal; [destruct k; Z.div_mod_to_equations; lia|].
  change 1 with (Z.ones 1) at 2. rewrite Z.land_ones by lia. change (2 ^ 1) with 2. unfold nz.
  destruct k; [apply negb_true_iff, Z.eqb_neq|apply negb_false_iff, Z.eqb_eq]; Z.div_mod_to_equations; lia.
Qed.
Lemma reads_decodes_fixed p k c : reads p k c →
  match k with KDeleteObject | KHeapTexture | KInvalidate | KSynchronize | KExecTable | KComputeInfo => False | _ => True end →
  decode_as k p = Some (inl c).
Proof.
  destruct 1; intros Hk; try done; subst p; cbn [decode_as];
    unfold decode_define_task, decode_delete_task, decode_set_object_list, decode_delete_backing, decode_map_memory, decode_task_object,
      decode_device_info, decode_exec_header, decode_shared_state, decode_cursor_glyph, decode_cursor_show, decode_channel_lifetime,
      request_len, reply_pfn_offset, pair_capacity_offset, key_table_len_offset; layout_consts; long_enough; read_all;
    cbn [fmap option_fmap option_map]; rewrite ?from_raw_raw by done; try done.
Qed.
Lemma ld_after n a b i k : length a = i → ld n (a ++ b) (i + k) = ld n b k.
Proof. intros <-. rewrite ld_skip by lia. f_equal. lia. Qed.
Lemma invalidate_reads rs : ∀ a i rest, length a = i → Forall inv_wf rs →
  invalidate_records (a ++ concat (inv_bytes <$> rs) ++ rest) (length rs) i = Some rs.
Proof.
  induction rs as [|[o f ops] rs IH]; intros a i rest Ha Hw; [done|]. apply Forall_cons in Hw as [(H1 & H2 & H3) Hw].
  cbn [ir_object ir_flags ir_ops] in *. cbn [length fmap list_fmap concat invalidate_records]. unfold ld32. change (inv_bytes (mkInvRec o f ops)) with (le4 o ++ le4 f).
  rewrite <- !app_assoc. rewrite <- (Nat.add_0_r i) at 1. rewrite !(ld_after 4 a) by done. repeat read_field. cbn [mbind option_bind].
  specialize (IH (a ++ le4 o ++ le4 f) (i + CHILD_INVALIDATE_RECORD_LEN)%nat rest). rewrite <- !app_assoc in IH. rewrite IH; [|by rewrite length_app, Ha|done].
  cbn. by rewrite H3.
Qed.
Lemma synchronize_reads os : ∀ a i rest, length a = i → Forall is_u32 os →
  synchronize_records (a ++ words_bytes 4 os ++ rest) (length os) i = Some os.
Proof.
  induction os as [|o os IH]; intros a i rest Ha Hw; [done|]. apply Forall_cons in Hw as [H1 Hw].
  cbn [length synchronize_records]. rewrite words_bytes_cons. unfold ld32.
  rewrite <- !app_assoc. rewrite <- (Nat.add_0_r i) at 1. rewrite !(ld_after 4 a) by done. repeat read_field. cbn [mbind option_bind].
  specialize (IH (a ++ le4 o) (i + CHILD_SYNCHRONIZE_RECORD_LEN)%nat rest). rewrite <- !app_assoc in IH. rewrite IH; [done|by rewrite length_app, Ha|done].
Qed.
Lemma dword_bytes f : is_u32 f → le4 f = [u8 f; u8 (Z.shiftr f 8); u8 (Z.shiftr f 16); u8 (Z.shiftr f 24)].
Proof. intros _. cbn. by rewrite !Z.shiftr_shiftr by lia. Qed.
Lemma to_from_dword f : is_u32 f → to_le_dword (from_le_dword f) = f.
Proof. intros Hf. unfold to_le_dword. cbn [from_le_dword clear_host_valid set_host_valid clear_guest_valid set_guest_valid]. rewrite <- (dword_bytes f Hf). by apply le_val_field. Qed.
Lemma dword_range o : ops_wf o → is_u32 (to_le_dword o).
Proof. intros (H1 & H2 & H3 & H4). unfold is_u8, is_u32, to_le_dword in *. cbn. lia. Qed.
Lemma from_to_dword o : ops_wf o → from_le_dword (to_le_dword o) = o.
Proof.
  intros Ho. pose proof (dword_range o Ho) as Hr. destruct o as [a b c d]. destruct Ho as (H1 & H2 & H3 & H4). cbn [clear_host_valid set_host_valid clear_guest_valid set_guest_valid] in *.
  assert (Forall is_u8 [a; b; c; d]) as Hb by (by rewrite !Forall_cons, Forall_nil). pose proof (le_bytes_val [a; b; c; d] Hb) as E. cbn [length] in E.
  change (le_val [a; b; c; d]) with (to_le_dword (mkOps a b c d)) in E. rewrite (dword_bytes _ Hr) in E. unfold from_le_dword. by injection E as -> -> -> ->.
Qed.
Lemma from_dword_wf f : ops_wf (from_le_dword f).
Proof. unfold ops_wf. cbn. auto using u8_range. Qed.
Lemma exec_reads ds : ∀ a i rest, length a = i → Forall desc_wf ds →
  exec_descs (a ++ concat (desc_bytes <$> ds) ++ rest) (length ds) i = Some ds.
Proof.
  induction ds as [|[o ops tl] ds IH]; intros a i rest Ha Hw; [done|]. apply Forall_cons in Hw as [(H1 & H2 & H3) Hw].
  cbn [ed_object ed_ops ed_tail] in *. pose proof (dword_range ops H2) as H4. cbn [length fmap list_fmap concat exec_descs]. unfold ld32.
  change (desc_bytes (mkDesc o ops tl)) with (le4 o ++ le4 (to_le_dword ops) ++ tl).
  rewrite <- !app_assoc. rewrite !(ld_after 4 a) by done. layout_consts. repeat read_field. cbn [mbind option_bind].
  rewrite slice_at_some by (rewrite !length_app, !length_le_bytes, H3; unfold CHILD_EXEC_RESOURCE_TAIL_LEN; lia).
  rewrite (app_assoc (le4 o)), (app_assoc a), slice_mid by (rewrite ?length_app, ?length_le_bytes, ?Ha; done || lia). cbn [mbind option_bind].
  specialize (IH (a ++ le4 o ++ le4 (to_le_dword ops) ++ tl) (i + 24)%nat rest). rewrite <- !app_assoc in IH.
  rewrite <- !app_assoc, IH; [|rewrite !length_app, !length_le_bytes, Ha, H3; unfold CHILD_EXEC_RESOURCE_TAIL_LEN; lia|done].
  cbn [mbind option_bind]. by rewrite from_to_dword.
Qed.
Lemma le8_halves v : is_u64 v → ∃ lo hi, le8 v = le4 lo ++ le4 hi ∧ is_u32 lo ∧ is_u32 hi ∧ Z.lor lo (u64 (Z.shiftl hi 32)) = v.
Proof.
  intros Hv. unfold is_u64 in Hv. exists (v mod 2 ^ 32), (v / 2 ^ 32).
  assert (is_u32 (v mod 2 ^ 32)) as Hl by (unfold is_u32; Z.div_mod_to_equations; lia).
  assert (is_u32 (v / 2 ^ 32)) as Hh by (unfold is_u32; Z.div_mod_to_equations; lia). split_and!; try done.
  - pose proof (le_bytes_val (le4 (v mod 2 ^ 32) ++ le4 (v / 2 ^ 32)) ltac:(apply Forall_app; split; apply le_bytes_u8)) as E.
    rewrite length_app, !length_le_bytes in E. change (4 + 4)%nat with 8%nat in E. rewrite <- E. f_equal.
    assert (∀ a b, le_val (le4 a ++ b) = le_val (le4 a) + 2 ^ 32 * le_val b) as Ha by (intros; cbn; lia).
    rewrite Ha, !le_val_field by done. Z.div_mod_to_equations. lia.
  - rewrite Z.shiftl_mul_pow2 by lia. rewrite u64_small by (unfold is_u64, is_u32 in *; lia).
    rewrite lor_disjoint by (unfold is_u32 in *; lia). Z.div_mod_to_equations. lia.
Qed.
(** The head of the record a heap-texture request embeds, and the whole request. *)
Lemma op_head opc n r : is_u32 opc → is_u32 n → op (le4 opc ++ le4 n ++ r) 0 =
  Some (if (n <? 8) || (8 + len r <? n) then inr (BadLength opc n (8 + length r)) else inl (mkOp (mkHead opc n) (take (Z.to_nat n - 8) r) 0)).
Proof.
  intros Ho Hn. assert (head_of (le4 opc ++ le4 n ++ r) = mkHead opc n) as Eh.
  { unfold head_of. f_equal; [rewrite slice_start by done|rewrite (slice_mid 4 4) by done]; by apply le_val_field. }
  rewrite op_eq, Eh, !length_app, !length_le_bytes. cbn [hdr_length opcode]. unfold OP_HEADER_LEN, len. rewrite (proj2 (Nat.ltb_ge _ _)) by lia. cbn zeta.
  replace (4 + (4 + length r))%nat with (8 + length r)%nat by lia. rewrite Nat2Z.inj_add. change (Z.of_nat 8) with 8. destruct (_ || _); [done|]. done.
Qed.
Lemma heap_eq t gva l n rest : is_u32 t → is_u64 gva → is_u64 l → is_u32 n → let p := le4 t ++ le8 gva ++ le8 l ++ le4 n ++ rest in
  decode_as KHeapTexture p =
    if (gva =? 0) || (l <? 16) then Some (inr (RHeap (ReplyDestination gva l)))
    else if negb (n =? 40) || negb (len rest =? n) then Some (inr (RHeap (SerializerLength n (len p))))
    else match op rest 0 with
         | None => None
         | Some (inr _) => Some (inr (RHeap (SerializerLength n (len p))))
         | Some (inl o) => if negb (opcode (op_header o) =? HEAP_TEXTURE_SERIALIZED_TAG) then Some (inr (RHeap (SerializerTag (opcode (op_header o)))))
                           else Some (inl (CHeapTexture (mkHeapTexture t gva l (op_payload o))))
         end.
Proof.
  intros Ht Hg Hl Hn p. cbn [decode_as]. unfold decode_heap_texture_query. layout_consts. cbn [Nat.add]. unfold p at 1. long_enough. fold p.
  assert (ld64 p 4 = Some gva ∧ ld64 p 12 = Some l ∧ ld32 p 20 = Some n ∧ ld32 p 0 = Some t) as (-> & -> & -> & ->) by (unfold p, ld32, ld64; split_and!; repeat read_field; done).
  cbn [mbind option_bind]. change (Z.of_nat 16) with 16. change (Z.of_nat (OP_HEADER_LEN + 32)) with 40. destruct (_ || _); [done|].
  assert (len p = 24 + len rest) as El by (unfold p, len; rewrite !length_app, !length_le_bytes; lia).
  replace (negb (len p =? Z.of_nat 24 + n)) with (negb (len rest =? n)) by (f_equal; apply eq_true_iff_eq; rewrite !Z.eqb_eq; lia). destruct (_ || _); [done|].
  rewrite slice_at_some by (unfold len in El; lia). cbn [mbind option_bind]. replace (slice 24 (length p - 24) p) with rest.
  - destruct (op rest 0) as [[o|e]|]; [|done..]. cbn [mbind option_bind]. by destruct (negb _).
  - unfold p at 2, slice. rewrite !drop_app_ge by (rewrite !length_le_bytes; lia). rewrite !length_le_bytes. cbn [Nat.sub]. change (drop 0 rest) with rest. rewrite take_ge; [done|]. unfold len in El. lia.
Qed.
Lemma undersized_layout t gva l n desc spare : is_u32 t → is_u64 gva → is_u64 l → gva ≠ 0 → 16 ≤ l → is_u32 n → n = 8 + len desc →
  length (desc ++ spare) = TEXTURE_DESCRIPTOR_LEN → Forall is_u8 desc →
  decode_as KHeapTexture (le4 t ++ le8 gva ++ le8 l ++ le4 40 ++ le4 HEAP_TEXTURE_SERIALIZED_TAG ++ le4 n ++ desc ++ spare) =
    Some (inl (CHeapTexture (mkHeapTexture t gva l desc))).
Proof.
  intros Ht Hg Hl Hg0 Hl16 Hn En Hd Hu. rewrite heap_eq, op_head by done. unfold len in *. rewrite length_app in Hd. unfold TEXTURE_DESCRIPTOR_LEN in Hd. rewrite !length_app, !length_le_bytes.
  rewrite (proj2 (Z.eqb_neq gva 0)), (proj2 (Z.ltb_ge l _)), (proj2 (Z.eqb_eq _ 40)), !(proj2 (Z.ltb_ge _ _)) by lia. cbn [negb orb Z.eqb op_header opcode].
  rewrite take_app_length' by lia. by rewrite (proj2 (Z.eqb_eq (Z.of_nat _) 40)) by lia.
Qed.
Lemma reads_decodes_lists p k c : reads p k c →
  match k with KDeleteObject | KHeapTexture | KInvalidate | KSynchronize | KExecTable | KComputeInfo => True | _ => False end →
  decode_as k p = Some (inl c).
Proof.
  destruct 1; intros Hk; try done; subst p; cbn [decode_as].
  - unfold decode_delete_object. layout_consts. cbn [Nat.add]. long_enough. unfold ld32. repeat read_field. cbn [mbind option_bind].
    rewrite (proj2 (Z.ltb_ge _ _)) by (unfold len in *; rewrite !length_app, !length_le_bytes; lia).
    rewrite slice_at_some by (rewrite !length_app, !length_le_bytes; lia). cbn [mbind option_bind both]. do 4 f_equal.
    unfold slice. rewrite drop_app_length' by done. rewrite take_ge; [done|]. rewrite !length_app, !length_le_bytes. lia.
  - destruct (le8_halves gva) as (lo & hi & E & Hlo & Hhi & Ev); [done|]. rewrite E, <- app_assoc. unfold decode_compute_info. layout_consts. long_enough.
    read_all. by rewrite Ev.
  - rewrite <- (app_nil_r desc) at 1. apply undersized_layout; try done; [unfold len, TEXTURE_DESCRIPTOR_LEN in *; lia|by rewrite app_nil_r].
  - unfold decode_invalidate_resources. layout_consts. cbn [Nat.add]. long_enough. unfold ld32. repeat read_field. cbn [mbind option_bind].
    unfold resource_list_need. layout_consts. unfold len.
    assert (length (concat (inv_bytes <$> rs)) = (8 * length rs)%nat) as El.
    { clear. induction rs as [|r rs IH]; [done|]. cbn [fmap list_fmap concat length]. rewrite length_app, IH. unfold inv_bytes. rewrite length_app, !length_le_bytes. lia. }
    rewrite (proj2 (Z.ltb_ge _ _)) by (rewrite !length_app, !length_le_bytes, El; lia). rewrite Nat2Z.id, app_assoc.
    by rewrite (invalidate_reads rs (le4 t ++ le4 (Z.of_nat (length rs))) 8).
  - unfold decode_synchronize_resources. layout_consts. cbn [Nat.add]. long_enough. unfold ld32. repeat read_field. cbn [mbind option_bind].
    unfold resource_list_need. layout_consts. unfold len.
    rewrite (proj2 (Z.ltb_ge _ _)) by (rewrite !length_app, !length_le_bytes, length_words_bytes; lia). rewrite Nat2Z.id, app_assoc.
    by rewrite (synchronize_reads os (le4 t ++ le4 (Z.of_nat (length os))) 8).
  - unfold decode_exec_resource_table, decode_exec_header. layout_consts. cbn [Nat.add]. long_enough. unfold ld32. repeat read_field. cbn [mbind option_bind eh_resource_count].
    unfold len.
    assert (length (concat (desc_bytes <$> ds)) = (24 * length ds)%nat) as El.
    { match goal with H : Forall desc_wf ds |- _ => revert H end. clear. induction 1 as [|d ds (_ & _ & Ht) _ IH]; [done|]. cbn [fmap list_fmap concat length]. rewrite length_app, IH.
      unfold desc_bytes. rewrite !length_app, !length_le_bytes, Ht. unfold CHILD_EXEC_RESOURCE_TAIL_LEN. lia. }
    rewrite (proj2 (Z.ltb_ge _ _)) by (rewrite !length_app, !length_le_bytes, El; lia). rewrite Nat2Z.id, !app_assoc, <- (app_assoc _ _ rest).
    by rewrite (exec_reads ds ((le4 t ++ le4 (Z.of_nat (length ds))) ++ le4 m) 12).
Qed.
Lemma reads_decodes p k c : reads p k c → decode_as k p = Some (inl c).
Proof. intros H. destruct k; (by apply reads_decodes_fixed) || (by apply reads_decodes_lists). Qed.

Lemma undersized_decodes p k c : undersized p k c → decode_as k p = Some (inl c).
Proof. intros []. subst p. by apply undersized_layout. Qed.

(** A payload too short for a layout is refused with both lengths. *)
Ltac too_short := rewrite (proj2 (Nat.ltb_lt _ _)) by (unfold len in *; cbn; lia).
Lemma short_decodes p k n : fixed_len k = Some n → len p < n → decode_as k p = Some (inr (RShort (mkShort (len p) n))).
Proof.
  intros Hn Hp. destruct k as [| | | | | | |[]| | | | | | | | | |]; try done; injection Hn as <-; cbn [decode_as];
    unfold decode_define_task, decode_delete_task, decode_set_object_list, decode_delete_backing, decode_map_memory, decode_task_object, decode_device_info,
      decode_compute_info, decode_exec_header, decode_shared_state, decode_cursor_glyph, decode_cursor_show, decode_channel_lifetime,
      request_len, reply_pfn_offset, pair_capacity_offset, fifo_short; layout_consts; cbn [Nat.add]; by too_short.
Qed.
Lemma refuses_decodes p k e : refuses p k e → decode_as k p = Some (inr e).
Proof.
  destruct 1 as [k n|Hs|t opc n body H1 H2 H3 -> Hb|k n Hk Hs|t n rest H1 H2 -> Hb|t n rest H1 H2 -> Hb|t n m rest H1 H2 H3 -> Hb
    |Hs|t gva l n rest H1 H2 H3 H4 -> Hb|t gva l n rest H1 H2 H3 H4 -> Hg Hl Hb|t gva l opc n rest H1 H2 H3 H4 H5 Hg Hl -> Hr Hb|t gva l opc n rest H1 H2 H3 H4 H5 Hg Hl -> Hr Hb Ho].
  - by apply short_decodes.
  - cbn [decode_as]. unfold decode_delete_object. layout_consts. cbn [Nat.add]. by too_short.
  - cbn [decode_as]. unfold decode_delete_object. layout_consts. cbn [Nat.add]. long_enough. read_all.
    rewrite (proj2 (Z.ltb_lt _ _)) by (unfold len in *; rewrite !length_app, !length_le_bytes; lia). cbn [both]. by rewrite (Z.add_comm n).
  - destruct k; try done; injection Hk as <-; cbn [decode_as]; unfold decode_invalidate_resources, decode_synchronize_resources, decode_exec_resource_table, decode_exec_header, fifo_short;
      layout_consts; by too_short.
  - cbn [decode_as]. unfold decode_invalidate_resources, resource_list_need. layout_consts. cbn [Nat.add]. long_enough. read_all.
    rewrite (proj2 (Z.ltb_lt _ _)) by (unfold len in *; rewrite !length_app, !length_le_bytes; lia). cbn [both]. do 4 f_equal. lia.
  - cbn [decode_as]. unfold decode_synchronize_resources, resource_list_need. layout_consts. cbn [Nat.add]. long_enough. read_all.
    rewrite (proj2 (Z.ltb_lt _ _)) by (unfold len in *; rewrite !length_app, !length_le_bytes; lia). cbn [both]. do 4 f_equal. lia.
  - cbn [decode_as]. unfold decode_exec_resource_table, decode_exec_header. layout_consts. cbn [Nat.add]. long_enough. read_all. cbn [eh_resource_count].
    rewrite (proj2 (Z.ltb_lt _ _)) by (unfold len in *; rewrite !length_app, !length_le_bytes; lia). cbn [both]. do 4 f_equal. lia.
  - cbn [decode_as]. unfold decode_heap_texture_query. layout_consts. cbn [Nat.add]. by too_short.
  - rewrite heap_eq by done. destruct (_ || _) eqn:E; [done|]. lia.
  - rewrite heap_eq by done. destruct (_ || _) eqn:E; [lia|]. clear E. destruct (_ || _) eqn:E; [done|]. lia.
  - rewrite heap_eq, op_head by done. destruct (_ || _) eqn:E; [lia|]. clear E. destruct (_ || _) eqn:E; [done|]. clear E. destruct (_ || _) eqn:E; [done|]. lia.
  - rewrite heap_eq, op_head by done. destruct (_ || _) eqn:E; [lia|]. clear E. unfold len in *. rewrite !length_app, !length_le_bytes. rewrite (proj2 (Z.eqb_eq (Z.of_nat _) 40)) by lia. cbn [negb Z.eqb Pos.eqb orb].
    destruct (_ || _) eqn:E; [lia|]. cbn [op_header opcode]. by rewrite (proj2 (Z.eqb_neq opc _)).
Qed.

(** ** Every payload decodes, to a command it is the bytes of or to a refusal *)
Definition decoded (k : kind) (p : list Z) : Prop := ∃ r, decode_as k p = Some r ∧ answers p k r.
Lemma carve_gap i n (p : list Z) : (i + n ≤ length p)%nat → drop i p = slice i n p ++ drop (i + n) p.
Proof. intros Hn. unfold slice. by rewrite <- drop_drop, take_drop. Qed.
Lemma from_drop (p q : list Z) : drop 0 p = q → p = q.
Proof. done. Qed.
Ltac carve_all :=
  lazymatch goal with
  | |- drop ?i ?p = le_bytes ?n _ ++ _ => rewrite (carve i n p) by (done || lia); apply (f_equal (app _)); cbn [Nat.add]; carve_all
  | |- drop ?i ?p = slice _ ?n _ ++ _ => rewrite (carve_gap i n p) by (done || lia); apply (f_equal (app _)); cbn [Nat.add]; carve_all
  | |- _ => reflexivity
  end.
Ltac loads := unfold ld16, ld32, ld64; rewrite !ld_some by (cbn; lia); cbn [mbind option_bind fmap option_fmap option_map].
Ltac of_slices :=
  eexists; (split; [reflexivity|]); left; econstructor;
    try (apply le_val_slice; [done|cbn; lia]); (lazymatch goal with |- _ = _ ++ _ => apply from_drop; carve_all | |- _ => idtac end).

(** A refusal of a payload that is too short for its layout, from the comparison that found it. *)
Ltac short_of E :=
  apply Nat.ltb_lt in E; eexists; (split; [reflexivity|]); cbn [answers];
  first [eapply f_fixed; [reflexivity|] | apply f_delete_short | eapply f_list_short; [reflexivity|] | apply f_heap_short]; unfold len; cbn; lia.

Lemma decoded_fixed k p : Forall is_u8 p →
  match k with
  | KDeleteTask | KSetObjectList | KDeleteBacking | KMapMemory | KTaskObject | KDeviceInfo _ | KExecHeader | KSharedState | KChannelLifetime => True
  | _ => False
  end → decoded k p.
Proof.
  intros Hp Hk. unfold decoded. destruct k as [| | | | | | |[]| | | | | | | | | |]; try done; cbn [decode_as];
    unfold decode_delete_task, decode_set_object_list, decode_delete_backing, decode_map_memory, decode_task_object, decode_device_info,
      decode_exec_header, decode_shared_state, decode_channel_lifetime, request_len, reply_pfn_offset, pair_capacity_offset, key_table_len_offset, fifo_short;
    layout_consts; cbn [Nat.add]; (destruct (_ <? _)%nat eqn:E; [by short_of E|]); apply Nat.ltb_ge in E; loads; cbn [both].
  all: of_slices.
Qed.

Lemma decoded_define_task p : Forall is_u8 p → decoded KDefineTask p.
Proof.
  intros Hp. unfold decoded. cbn [decode_as]. unfold decode_define_task, fifo_short. layout_consts. cbn [Nat.add].
  destruct (_ <? _)%nat eqn:E; [by short_of E|]. apply Nat.ltb_ge in E. loads. cbn [both]. eexists. split; [reflexivity|]. left.
  pose proof (le_val_slice 0 4 p Hp ltac:(lia)) as R. set (raw := le_val (slice 0 4 p)) in *. cbn in R.
  assert (∃ t (k : bool), 0 ≤ t < 0x80000000 ∧ raw = 2 * t + if k then 1 else 0) as (t & k & Ht & Er).
  { exists (raw / 2), (bool_decide (raw mod 2 = 1)). split; [Z.div_mod_to_equations; lia|]. case_bool_decide; Z.div_mod_to_equations; lia. }
  rewrite Er, from_raw_raw by done. econstructor; [done|apply le_val_slice; [done|lia]..|]. rewrite <- Er. apply from_drop. unfold raw. carve_all.
Qed.
Lemma decoded_delete_object p : Forall is_u8 p → decoded KDeleteObject p.
Proof.
  intros Hp. unfold decoded. cbn [decode_as]. unfold decode_delete_object. layout_consts. cbn [Nat.add].
  destruct (_ <? _)%nat eqn:E; [by short_of E|]. apply Nat.ltb_ge in E. loads.
  pose proof (le_val_slice 8 4 p Hp ltac:(lia)) as R. destruct (_ <? _) eqn:E2.
  { apply Z.ltb_lt in E2. eexists. split; [reflexivity|]. cbn [answers]. rewrite Z.add_comm.
    apply (f_delete_truncated p (le_val (slice 0 4 p)) (le_val (slice 4 4 p)) _ (drop 12 p)); [apply le_val_slice; (done || lia)..|apply from_drop; carve_all|].
    unfold len in *. rewrite length_drop. cbn in E2. lia. }
  apply Z.ltb_ge in E2. rewrite slice_at_some by lia. cbn [mbind option_bind both].
  eexists. split; [reflexivity|]. left.
  assert (slice 4 (length p - 4) p = le4 (le_val (slice 4 4 p)) ++ le4 (le_val (slice 8 4 p)) ++ drop 12 p) as ->.
  { unfold slice at 1. rewrite take_ge by (rewrite length_drop; lia). carve_all. }
  constructor; [apply le_val_slice; (done || lia)..| |apply from_drop; carve_all].
  unfold len in *. rewrite length_drop. lia.
Qed.
Lemma decoded_compute_info p : Forall is_u8 p → decoded KComputeInfo p.
Proof.
  intros Hp. unfold decoded. cbn [decode_as]. unfold decode_compute_info, fifo_short. layout_consts.
  destruct (_ <? _)%nat eqn:E; [by short_of E|]. apply Nat.ltb_ge in E. loads. cbn [both]. eexists. split; [reflexivity|]. left.
  pose proof (le_val_slice 16 4 p Hp ltac:(lia)) as R1. pose proof (le_val_slice 20 4 p Hp ltac:(lia)) as R2. cbn in R1, R2.
  set (lo := le_val (slice 16 4 p)) in *. set (hi := le_val (slice 20 4 p)) in *.
  assert (Z.lor lo (u64 (Z.shiftl hi 32)) = lo + hi * 2 ^ 32) as ->.
  { rewrite Z.shiftl_mul_pow2 by lia. rewrite u64_small by (unfold is_u64; lia). apply lor_disjoint; lia. }
  assert (is_u64 (lo + hi * 2 ^ 32)) as Hg by (unfold is_u64; lia).
  econstructor; [apply le_val_slice; (done || lia)..|done|].
  destruct (le8_halves _ Hg) as (lo' & hi' & -> & Hl & Hh & Ev). rewrite Z.shiftl_mul_pow2 in Ev by lia.
  rewrite u64_small, lor_disjoint in Ev by (unfold is_u64, is_u32 in *; lia).
  assert (lo' = lo ∧ hi' = hi) as [-> ->] by (unfold is_u32 in *; lia). rewrite <- app_assoc. apply from_drop. unfold lo, hi. carve_all.
Qed.
Lemma decoded_heap_texture p : Forall is_u8 p → decoded KHeapTexture p.
Proof.
  intros Hp. destruct (decide (len p < 24)) as [Hs|Hs]; [eexists; split; [by apply refuses_decodes, f_heap_short|by apply f_heap_short]|]. unfold len in Hs.
  assert (p = le4 (le_val (slice 0 4 p)) ++ le8 (le_val (slice 4 8 p)) ++ le8 (le_val (slice 12 8 p)) ++ le4 (le_val (slice 20 4 p)) ++ drop 24 p) as Ep by (apply from_drop; carve_all).
  pose proof (le_val_slice 0 4 p Hp ltac:(lia)) as H1. pose proof (le_val_slice 4 8 p Hp ltac:(lia)) as H2. pose proof (le_val_slice 12 8 p Hp ltac:(lia)) as H3.
  pose proof (le_val_slice 20 4 p Hp ltac:(lia)) as H4. pose proof (Forall_drop _ 24 _ Hp) as Hr.
  revert Ep H1 H2 H3 H4 Hr. generalize (le_val (slice 0 4 p)) (le_val (slice 4 8 p)) (le_val (slice 12 8 p)) (le_val (slice 20 4 p)) (drop 24 p).
  intros t gva l n rest Ep H1 H2 H3 H4 Hr. unfold decoded. rewrite Ep, heap_eq by done. rewrite <- Ep. destruct ((gva =? 0) || (l <? 16)) eqn:E1.
  { eexists. split; [done|]. eapply (f_heap_reply p t); [done..|]. lia. }
  destruct (negb (n =? 40) || negb (len rest =? n)) eqn:E2; [eexists; split; [done|]; eapply (f_heap_length p t gva l n rest); (done || lia)|].
  assert (n = 40 ∧ length rest = 40%nat) as [-> El] by (unfold len in E2; lia).
  assert (rest = le4 (le_val (slice 0 4 rest)) ++ le4 (le_val (slice 4 4 rest)) ++ drop 8 rest) as Er by (apply from_drop; carve_all).
  pose proof (le_val_slice 0 4 rest Hr ltac:(lia)) as H5. pose proof (le_val_slice 4 4 rest Hr ltac:(lia)) as H6. pose proof (Forall_drop _ 8 _ Hr) as Hd.
  assert (length (drop 8 rest) = 32%nat) as Ed by (rewrite length_drop; lia).
  revert Er H5 H6 Hd Ed. generalize (le_val (slice 0 4 rest)) (le_val (slice 4 4 rest)) (drop 8 rest). intros opc m d -> H5 H6 Hd Ed. rewrite op_head by done. unfold len.
  destruct ((m <? 8) || (8 + Z.of_nat (length d) <? m)) eqn:E3; [eexists; split; [done|]; eapply (f_heap_record p t gva l opc m d); (done || unfold len; lia)|]. cbn [op_header opcode op_payload].
  destruct (negb (opc =? HEAP_TEXTURE_SERIALIZED_TAG)) eqn:E4; (eexists; split; [done|]); [eapply (f_heap_tag p t gva l opc m d); (done || unfold len; lia)|].
  assert (opc = HEAP_TEXTURE_SERIALIZED_TAG) as -> by lia. destruct (decide (m = 40)) as [->|Hm].
  - left. rewrite take_ge by (rewrite Ed; done). by apply r_heap_texture; (done || lia).
  - right. apply (u_heap_texture p t gva l m _ (drop (Z.to_nat m - 8) d)); try (done || lia); unfold len; rewrite ?length_take, ?take_drop; try (done || lia).
    + intros Hn%(f_equal length). rewrite length_drop in Hn. cbn in Hn. lia.
    + by apply Forall_take.
Qed.

(** A loop over records of [m] bytes each. *)
Lemma invalidate_loop p : Forall is_u8 p → ∀ n i, (i + 8 * n ≤ length p)%nat →
  ∃ rs, invalidate_records p n i = Some rs ∧ length rs = n ∧ Forall inv_wf rs ∧ drop i p = concat (inv_bytes <$> rs) ++ drop (i + 8 * n) p.
Proof.
  intros Hp. induction n as [|n IH]; intros i Hi; cbn [invalidate_records].
  { exists []. split; [done|]. split; [done|]. split; [constructor|]. cbn. f_equal. lia. }
  unfold ld32. rewrite !ld_some by lia. cbn [mbind option_bind]. unfold CHILD_INVALIDATE_RECORD_LEN.
  destruct (IH (i + 8)%nat ltac:(lia)) as (rs & -> & El & Hw & Eb). cbn [mbind option_bind]. eexists. split; [reflexivity|]. split; [cbn; lia|]. split.
  - constructor; [|done]. split; [apply le_val_slice; (done || lia)|]. split; [apply le_val_slice; (done || lia)|done].
  - cbn [fmap list_fmap concat]. unfold inv_bytes at 1. cbn [ir_object ir_flags]. rewrite <- !app_assoc, (carve i 4 p) by (done || lia).
    apply (f_equal (app _)). rewrite (carve (i + 4) 4 p) by (done || lia). apply (f_equal (app _)).
    replace (i + 4 + 4)%nat with (i + 8)%nat by lia. rewrite Eb. do 2 f_equal. lia.
Qed.
Lemma synchronize_loop p : Forall is_u8 p → ∀ n i, (i + 4 * n ≤ length p)%nat →
  ∃ os, synchronize_records p n i = Some os ∧ length os = n ∧ Forall is_u32 os ∧ drop i p = words_bytes 4 os ++ drop (i + 4 * n) p.
Proof.
  intros Hp. induction n as [|n IH]; intros i Hi; cbn [synchronize_records].
  { exists []. split; [done|]. split; [done|]. split; [constructor|]. cbn. f_equal. lia. }
  unfold ld32. rewrite !ld_some by lia. cbn [mbind option_bind]. unfold CHILD_SYNCHRONIZE_RECORD_LEN.
  destruct (IH (i + 4)%nat ltac:(lia)) as (os & -> & El & Hw & Eb). cbn [mbind option_bind]. eexists. split; [reflexivity|]. split; [cbn; lia|]. split.
  - constructor; [|done]. apply le_val_slice; (done || lia).
  - rewrite words_bytes_cons, <- app_assoc, (carve i 4 p) by (done || lia). apply (f_equal (app _)). rewrite Eb. do 2 f_equal. lia.
Qed.
Lemma exec_loop p : Forall is_u8 p → ∀ n i, (i + 24 * n ≤ length p)%nat →
  ∃ ds, exec_descs p n i = Some ds ∧ length ds = n ∧ Forall desc_wf ds ∧ drop i p = concat (desc_bytes <$> ds) ++ drop (i + 24 * n) p.
Proof.
  intros Hp. induction n as [|n IH]; intros i Hi; cbn [exec_descs].
  { exists []. split; [done|]. split; [done|]. split; [constructor|]. cbn. f_equal. lia. }
  layout_consts. rewrite Nat.add_0_r. unfold ld32. rewrite !ld_some by lia. rewrite slice_at_some by lia. cbn [mbind option_bind].
  destruct (IH (i + 24)%nat ltac:(lia)) as (ds & -> & El & Hw & Eb). cbn [mbind option_bind]. eexists. split; [reflexivity|]. split; [cbn; lia|].
  pose proof (le_val_slice (i + 4) 4 p Hp ltac:(lia)) as Rf. split.
  - constructor; [|done]. split; [apply le_val_slice; (done || lia)|]. split; [apply from_dword_wf|]. cbn [ed_tail]. by rewrite length_slice by lia.
  - cbn [fmap list_fmap concat]. unfold desc_bytes at 1. cbn [ed_object ed_ops ed_tail]. rewrite to_from_dword by done.
    rewrite <- !app_assoc, (carve i 4 p) by (done || lia). apply (f_equal (app _)). rewrite (carve (i + 4) 4 p) by (done || lia). apply (f_equal (app _)).
    replace (i + 4 + 4)%nat with (i + 8)%nat by lia. rewrite (carve_gap (i + 8) 16 p) by lia. apply (f_equal (app _)).
    replace (i + 8 + 16)%nat with (i + 24)%nat by lia. rewrite Eb. do 2 f_equal. lia.
Qed.
Lemma decoded_lists k p : Forall is_u8 p → match k with KInvalidate | KSynchronize | KExecTable => True | _ => False end → decoded k p.
Proof.
  intros Hp Hk. unfold decoded. destruct k; try done; cbn [decode_as].
  - unfold decode_invalidate_resources, resource_list_need. layout_consts.
    destruct (_ <? _)%nat eqn:E; [by short_of E|]. apply Nat.ltb_ge in E. loads. pose proof (le_val_slice 4 4 p Hp ltac:(lia)) as R.
    set (n := le_val (slice 4 4 p)) in *. destruct (_ <? _) eqn:E2.
    { apply Z.ltb_lt in E2. eexists. split; [reflexivity|]. cbn [answers]. replace (n * Z.of_nat 8 + Z.of_nat 8) with (8 + 8 * n) by lia.
      apply (f_invalidate p (le_val (slice 0 4 p)) n (drop 8 p)); [apply le_val_slice; (done || lia)|done|apply from_drop; unfold n; carve_all|]. unfold len in *. rewrite length_drop. lia. }
    apply Z.ltb_ge in E2. unfold len in E2.
    destruct (invalidate_loop p Hp (Z.to_nat n) 8) as (rs & -> & El & Hw & Eb); [lia|]. cbn [mbind option_bind both].
    eexists. split; [reflexivity|]. left. assert (n = Z.of_nat (length rs)) as En by lia. rewrite En in *.
    econstructor; [apply le_val_slice; (done || lia)|done|done|]. apply from_drop. rewrite (carve 0 4 p) by (done || lia). apply (f_equal (app _)). cbn [Nat.add].
    rewrite (carve 4 4 p) by (done || lia). fold n. rewrite En. apply (f_equal (app _)). cbn [Nat.add]. exact Eb.
  - unfold decode_synchronize_resources, resource_list_need. layout_consts.
    destruct (_ <? _)%nat eqn:E; [by short_of E|]. apply Nat.ltb_ge in E. loads. pose proof (le_val_slice 4 4 p Hp ltac:(lia)) as R.
    set (n := le_val (slice 4 4 p)) in *. destruct (_ <? _) eqn:E2.
    { apply Z.ltb_lt in E2. eexists. split; [reflexivity|]. cbn [answers]. replace (n * Z.of_nat 4 + Z.of_nat 8) with (8 + 4 * n) by lia.
      apply (f_synchronize p (le_val (slice 0 4 p)) n (drop 8 p)); [apply le_val_slice; (done || lia)|done|apply from_drop; unfold n; carve_all|]. unfold len in *. rewrite length_drop. lia. }
    apply Z.ltb_ge in E2. unfold len in E2.
    destruct (synchronize_loop p Hp (Z.to_nat n) 8) as (rs & -> & El & Hw & Eb); [lia|]. cbn [mbind option_bind both].
    eexists. split; [reflexivity|]. left. assert (n = Z.of_nat (length rs)) as En by lia. rewrite En in *.
    econstructor; [apply le_val_slice; (done || lia)|done|done|]. apply from_drop. rewrite (carve 0 4 p) by (done || lia). apply (f_equal (app _)). cbn [Nat.add].
    rewrite (carve 4 4 p) by (done || lia). fold n. rewrite En. apply (f_equal (app _)). cbn [Nat.add]. exact Eb.
  - unfold decode_exec_resource_table, decode_exec_header, fifo_short. layout_consts.
    destruct (_ <? _)%nat eqn:E; [by short_of E|]. apply Nat.ltb_ge in E. loads. cbn [eh_resource_count]. pose proof (le_val_slice 4 4 p Hp ltac:(lia)) as R.
    set (n := le_val (slice 4 4 p)) in *. destruct (_ <? _) eqn:E2.
    { apply Z.ltb_lt in E2. eexists. split; [reflexivity|]. cbn [answers]. replace (Z.of_nat 12 + n * Z.of_nat 24) with (12 + 24 * n) by lia.
      apply (f_exec_table p (le_val (slice 0 4 p)) n (le_val (slice 8 4 p)) (drop 12 p));
        [apply le_val_slice; (done || lia)|done|apply le_val_slice; (done || lia)|apply from_drop; unfold n; carve_all|]. unfold len in *. rewrite length_drop. lia. }
    apply Z.ltb_ge in E2. unfold len in E2.
    destruct (exec_loop p Hp (Z.to_nat n) 12) as (rs & -> & El & Hw & Eb); [lia|]. cbn [mbind option_bind both].
    eexists. split; [reflexivity|]. left. assert (n = Z.of_nat (length rs)) as En by lia. rewrite En in *.
    apply (r_exec_table p (le_val (slice 0 4 p)) rs (le_val (slice 8 4 p)) (drop (12 + 24 * Z.to_nat (Z.of_nat (length rs))) p));
      [apply le_val_slice; (done || lia)|done|apply le_val_slice; (done || lia)|done|].
    apply from_drop. rewrite (carve 0 4 p) by (done || lia). apply (f_equal (app _)). cbn [Nat.add].
    rewrite (carve 4 4 p) by (done || lia). fold n. rewrite En. apply (f_equal (app _)). cbn [Nat.add].
    rewrite (carve 8 4 p) by (done || lia). apply (f_equal (app _)). cbn [Nat.add]. exact Eb.
Qed.
Lemma decoded_cursor k p : Forall is_u8 p → match k with KCursorGlyph | KCursorShow => True | _ => False end → decoded k p.
Proof.
  intros Hp Hk. unfold decoded. destruct k; try done; cbn [decode_as]; unfold decode_cursor_glyph, decode_cursor_show, fifo_short; layout_consts;
    (destruct (_ <? _)%nat eqn:E; [by short_of E|]); apply Nat.ltb_ge in E; loads; cbn [both]; eexists; (split; [reflexivity|]); left.
  - apply (r_cursor_glyph p (slice 0 4 p) _ _ _ _ _ _ _ _ (slice 40 4 p) (drop 44 p)); try (apply length_slice; lia); try (apply le_val_slice; [done|lia]).
    apply from_drop. carve_all.
  - apply (r_cursor_show p (slice 0 4 p) _ (drop 8 p)); [apply length_slice; lia|apply le_val_slice; [done|lia]|]. apply from_drop. carve_all.
Qed.
Lemma every_payload_decodes k p : Forall is_u8 p → decoded k p.
Proof.
  intros Hp. destruct k; first [by apply decoded_fixed|by apply decoded_define_task|by apply decoded_delete_object|by apply decoded_compute_info
    |by apply decoded_heap_texture|by apply decoded_lists|by apply decoded_cursor].
Qed.

(** Away from the heap-texture request a command is the bytes of its layout. *)
Lemma payload_reads k p : Forall is_u8 p → k ≠ KHeapTexture → ∃ r, decode_as k p = Some r ∧ ∀ c, r = inl c → reads p k c.
Proof.
  intros Hp Hk. destruct (every_payload_decodes k p Hp) as (r & E & H). exists r. split; [done|]. intros c ->. destruct H as [?|Hu]; [done|]. by destruct Hu.
Qed.

(** C22: Every FIFO payload decoder is total and exact, refusals included.  For all eighteen kinds
    of payload and every string of guest bytes, the decoder returns without reading past the
    payload.  What it returns is a command exactly when the payload is, by the layouts, the bytes
    of that command (followed, where the layout is fixed, by anything), and otherwise a refusal
    that gives the reason, the bytes there are and the bytes there had to be.  A guest's record
    count never makes it read records that are not there.  There is one exception: a
    heap-texture request whose embedded record declares fewer bytes than a descriptor has is
    accepted, with the descriptor cut short, although a comment in the code says that an earlier
    check has pinned that length. *)
Theorem fifo_decode_exact (k : kind) (p : list Z) (Hp : Forall is_u8 p) :
  (∃ r, decode_as k p = Some r) ∧
  ∀ r, decode_as k p = Some r ↔ match r with inl c => reads p k c ∨ undersized p k c | inr e => refuses p k e end.
Proof.
  destruct (every_payload_decodes k p Hp) as (r & E & H). split; [by exists r|]. intros r'. split; [intros E'; by assert (r' = r) as -> by congruence|].
  destruct r' as [c|e]; [intros [Hr|Hr]|intros Hr]; [by apply reads_decodes|by apply undersized_decodes|by apply refuses_decodes].
Qed.
Lemma fifo_decode_exact_witness :
  let p := le4 7 ++ le4 2 ++ le4 100 ++ le4 CHILD_INVALIDATE_PAGEON_FLAGS ++ le4 101 ++ le4 0 ++ [9] in
  Forall is_u8 p ∧
  decode_as KInvalidate p = Some (inl (CInvalidate (mkInv 7 2 [mkInvRec 100 0x01000001 PAGEON; mkInvRec 101 0 (mkOps 0 0 0 0)]))) ∧
  (∃ r, decode_as KInvalidate p = Some r) ∧
  decode_as KInvalidate (take 23 p) = Some (inr (RList (Truncated 2 23 24))) ∧ refuses (take 23 p) KInvalidate (RList (Truncated 2 23 24)).
Proof.
  intros p. assert (Forall is_u8 p) as Hp by decide_done. assert (Forall is_u8 (take 23 p)) as Hp' by decide_done.
  split; [exact Hp|]. split; [reflexivity|]. split; [exact (proj1 (fifo_decode_exact KInvalidate p Hp))|]. split; [reflexivity|].
  exact (proj1 (proj2 (fifo_decode_exact KInvalidate (take 23 p) Hp') (inr (RList (Truncated 2 23 24)))) eq_refl).
Defined.

(** The serializer length is compared with the opcode's and with the bytes that arrived, and
    not with the length in the embedded record's own head: a record that declares 12 bytes
    is accepted, with a descriptor of 4. *)
Lemma heap_query_short_descriptor :
  decode_heap_texture_query (le4 1 ++ le8 0x1000 ++ le8 16 ++ le4 40 ++ le4 0x16 ++ le4 12 ++ replicate 32 0) =
    Some (inl (mkHeapTexture 1 0x1000 16 [0; 0; 0; 0])).
Proof. reflexivity. Qed.

(** ** Replies and display descriptors *)
Lemma st_next n a b i v : length a = i → (n ≤ length b)%nat → st n (a ++ b) i v = Some (a ++ le_bytes n v ++ drop n b).
Proof.
  intros <- Hn. unfold st. rewrite splice_at_some by (rewrite length_app, length_le_bytes; lia). unfold splice.
  by rewrite take_app_length, length_le_bytes, drop_app_add.
Qed.
Lemma st_start n b v : (n ≤ length b)%nat → st n b 0 v = Some (le_bytes n v ++ drop n b).
Proof. by apply (st_next n []). Qed.
Lemma encode_size_and_align_ok s : encode_size_and_align s = Some (le8 (sa_size s) ++ le8 (sa_align s)).
Proof.
  unfold encode_size_and_align. layout_consts. cbn [Nat.add]. rewrite (st_start 8 (replicate 16 0)) by (cbn; lia). cbn [mbind option_bind app].
  by rewrite (st_next 8 (le8 (sa_size s))) by (done || (cbn; lia)).
Qed.
Lemma encode_timing_ok e dst : (16 ≤ length dst)%nat →
  encode_display_timing_entry e dst =
    Some (true, le2 (t_width e) ++ le2 (t_height e) ++ le4 (t_refresh_1616 e) ++ le4 (t_tail0 e) ++ le4 (t_tail1 e) ++ drop 16 dst).
Proof.
  intros Hd. unfold encode_display_timing_entry. layout_consts. rewrite (proj2 (Nat.ltb_ge _ _)) by done.
  rewrite (st_start 2 dst) by lia. cbn [mbind option_bind].
  rewrite (st_next 2 (le2 (t_width e))) by (done || (rewrite length_drop; lia)). cbn [mbind option_bind]. rewrite (app_assoc (le2 (t_width e))).
  rewrite (st_next 4 (_ ++ _)) by (done || (rewrite !length_drop; lia)). cbn [mbind option_bind]. rewrite (app_assoc (_ ++ _) (le4 _)).
  rewrite (st_next 4 (_ ++ _)) by (done || (rewrite !length_drop; lia)). cbn [mbind option_bind]. rewrite (app_assoc (_ ++ _) (le4 (t_tail0 e))).
  rewrite (st_next 4 (_ ++ _)) by (done || (rewrite !length_drop; lia)). cbn [mbind option_bind]. rewrite !drop_drop. by rewrite <- !app_assoc.
Qed.
(** An entry's place is inside the descriptor, and entries do not overlap. *)
Lemma timing_offset_ok i capacity off : is_u32 i → display_timing_entry_offset i capacity = Some off ↔
  off = 0x210 + 16 * i ∧ off + 16 ≤ capacity.
Proof.
  intros Hi. unfold is_u32 in Hi. unfold display_timing_entry_offset, bounded_entry_offset_from_base, DISPLAY_DESC_TIMING_BASE, DISPLAY_DESC_TIMING_STRIDE.
  cbn [Z.eqb Z.of_nat]. rewrite u64_small by (unfold is_u64; cbn; lia). change (Z.of_nat 16) with 16. unfold UINT64_MAX.
  destruct (_ <? _) eqn:E; [lia|]. destruct (_ || _) eqn:E2.
  - split; [done|]. intros [-> ?]. apply orb_true_iff in E2 as [?|?]; lia.
  - apply orb_false_iff in E2 as [? ?]. split; [intros [= <-]; lia|]. intros [-> _]. f_equal. lia.
Qed.
Lemma refresh_exact hz v : 0 ≤ hz → display_refresh_hz_1616 hz = Some v ↔ v = hz * 2 ^ 16 ∧ hz < 2 ^ 16.
Proof.
  intros Hh. unfold display_refresh_hz_1616, DISPLAY_TIMING_REFRESH_FRAC_BITS. change (Z.shiftr 0xffffffff 16) with 65535.
  destruct (_ <? _) eqn:E; [split; [done|lia]|]. rewrite Z.shiftl_mul_pow2, u32_small by (unfold is_u32; lia). split; [intros [= <-]; lia|]. intros [-> _]. done.
Qed.
