(* ===== verification/Packets.v ===== *)
(** The packet ledger and the classes of packets:
    src/reims-vgpu/crates/reims-vgpu-protocol/src/packets.rs (the ledger, with the outcomes of
    closure.rs), reims-vgpu-core/src/transaction.rs (the class a packet becomes) and
    reims-vgpu-core/src/control.rs (the control operations).

    The ledger's rows keep the channel, the opcode, the name and the outcome; the prose that
    argues for each outcome is left out. *)
From Stdlib Require Import String.
From S2P Require Import Prelude Wire Fifo.

Inductive Channel := Root | Child.
#[export] Instance Channel_eq_dec : EqDecision Channel.
Proof. solve_decision. Defined.
Definition OPCODE_CEILING : Z := 0x40.
Inductive Closure := Implemented | ProvenNoOp | Refused | Unresolved.
Definition RETIRED : Closure := ProvenNoOp.
Definition blocks_cutover (c : Closure) : bool := match c with Unresolved => true | _ => false end.
Record Row := mkRow { row_channel : Channel; row_opcode : Z; row_name : string; row_closure : Closure }.

Definition root_rows : list Row := [
  mkRow Root 0x01 "CmdDisplaySetSharedStatePage" Implemented;
  mkRow Root 0x20 "CmdDeleteTask" Implemented;
  mkRow Root 0x2d "CmdDeviceInfo (Monterey)" Implemented;
  mkRow Root 0x30 "CmdDefineFIFO" Implemented;
  mkRow Root 0x31 "CmdFreeFIFO" Implemented;
  mkRow Root 0x33 "CmdSetObjectList" Implemented;
  mkRow Root 0x38 "CmdDefineTask2" Implemented;
  mkRow Root 0x3a "CmdDeviceInfo (Tahoe)" Implemented].
Definition child_rows : list Row := [
  mkRow Child 0x00 "CmdDebug" Unresolved;
  mkRow Child 0x01 "CmdDisplaySetSharedStatePage" Implemented;
  mkRow Child 0x02 "CmdDisplayOnlineAck" Implemented;
  mkRow Child 0x04 "CmdCursorGlyph" Implemented;
  mkRow Child 0x05 "CmdCursorShow" Implemented;
  mkRow Child 0x06 "CmdDisplayTransaction2_DEPRECATED" Implemented;
  mkRow Child 0x07 "CmdDisplayTransaction3" Implemented;
  mkRow Child 0x08 "CmdDisplaySwapMapping" Implemented;
  mkRow Child 0x09 "CmdDisplaySleepState" Unresolved;
  mkRow Child 0x0a "CmdDisplaySetProperties" Unresolved;
  mkRow Child 0x1e "CmdNOP" Implemented;
  mkRow Child 0x20 "CmdDeleteTask" Implemented;
  mkRow Child 0x22 "CmdUnmapMemory" Implemented;
  mkRow Child 0x25 "CmdDeleteResource" Implemented;
  mkRow Child 0x28 "CmdDeleteObject" Implemented].
Definition child_rows_high : list Row := [
  mkRow Child 0x33 "CmdSetObjectList" Implemented;
  mkRow Child 0x34 "CmdInvalidateResources" Implemented;
  mkRow Child 0x35 "CmdSynchronizeResources" Implemented;
  mkRow Child 0x36 "CmdDeleteIOSurfaceBacking2" Implemented;
  mkRow Child 0x37 "CmdExecIndirect2" Implemented;
  mkRow Child 0x38 "CmdDefineTask2" Implemented;
  mkRow Child 0x39 "CmdMapMemory2" Implemented;
  mkRow Child 0x3b "CmdGetComputeInfo" Implemented;
  mkRow Child 0x3c "CmdReplacePhysical" Implemented;
  mkRow Child 0x3d "CmdDelay" Unresolved;
  mkRow Child 0x3e "CmdSynchronizeAndDiscardResources" Implemented;
  mkRow Child 0x3f "CmdDiscardResources" Implemented;
  mkRow Child 0x40 "CmdHeapTextureSizeAndAlign" Implemented].
Definition retired_rows : list Row := [
  mkRow Child 0x03 "retired slot" RETIRED;
  mkRow Child 0x1f "retired slot" RETIRED;
  mkRow Child 0x21 "retired slot" RETIRED;
  mkRow Child 0x23 "retired slot" RETIRED;
  mkRow Child 0x24 "retired slot" RETIRED;
  mkRow Child 0x26 "retired slot" RETIRED;
  mkRow Child 0x27 "retired slot" RETIRED;
  mkRow Child 0x29 "retired slot" RETIRED;
  mkRow Child 0x2a "retired slot" RETIRED;
  mkRow Child 0x2b "retired slot" RETIRED;
  mkRow Child 0x2c "retired slot" RETIRED;
  mkRow Child 0x2d "retired slot" RETIRED;
  mkRow Child 0x2e "retired slot" RETIRED;
  mkRow Child 0x2f "retired slot" RETIRED;
  mkRow Child 0x32 "retired slot" RETIRED].
Definition LEDGER : list Row := root_rows ++ child_rows ++ child_rows_high ++ retired_rows.

Definition find (channel : Channel) (opcode : Z) : option Row :=
  List.find (λ p, bool_decide (row_channel p = channel) && (row_opcode p =? opcode)) LEDGER.
Record Counts := mkCounts { n_implemented : nat; n_proven_noop : nat; n_refused : nat; n_unresolved : nat }.
Definition count_row (c : Counts) (p : Row) : Counts :=
  let '(mkCounts i p' r u) := c in
  match row_closure p with
  | Implemented => mkCounts (S i) p' r u
  | ProvenNoOp => mkCounts i (S p') r u
  | Refused => mkCounts i p' (S r) u
  | Unresolved => mkCounts i p' r (S u)
  end.
Definition counts (channel : option Channel) : Counts :=
  foldl count_row (mkCounts 0 0 0 0)
    (filter (λ p, match channel with Some ch => bool_decide (row_channel p = ch) | None => true end = true) LEDGER).
Definition blocking : list Row := filter (λ p, blocks_cutover (row_closure p) = true) LEDGER.

(** ** Classes *)
Inductive PayloadClass := Exec | ResourceLifecycle | Query | Present | Control.
#[export] Instance PayloadClass_eq_dec : EqDecision PayloadClass.
Proof. solve_decision. Defined.
Definition member (opcode : Z) (l : list Z) : bool := existsb (Z.eqb opcode) l.
Definition classify (channel : Channel) (opcode : Z) : option PayloadClass :=
  match find channel opcode with
  | None => None
  | Some judged =>
      if blocks_cutover (row_closure judged) then None
      else Some
        match channel with
        | Child =>
            if opcode =? 0x37 then Exec
            else if member opcode [0x20; 0x33; 0x38; 0x22; 0x25; 0x28; 0x34; 0x35; 0x36; 0x39; 0x3c; 0x3e; 0x3f] then ResourceLifecycle
            else if member opcode [0x3b; 0x40] then Query
            else if member opcode [0x06; 0x07; 0x08] then Present
            else Control
        | Root =>
            if member opcode [0x20; 0x33; 0x38] then ResourceLifecycle
            else if member opcode [0x2d; 0x3a] then Query
            else Control
        end
  end.
Definition reaches_an_executor (c : PayloadClass) : bool := match c with Exec => true | _ => false end.
Definition is_acknowledged_noop (channel : Channel) (opcode : Z) : bool :=
  match find channel opcode with Some p => match row_closure p with ProvenNoOp => true | _ => false end | None => false end.

(** ** Control operations *)
Inductive ControlKind :=
  | DisplaySharedStatePage | DisplayOnlineAck | CursorGlyph | CursorShow | DefineChannel | FreeChannel | Nop | RetiredSlot.
#[export] Instance ControlKind_eq_dec : EqDecision ControlKind.
Proof. solve_decision. Defined.
Definition control_kind_of (channel : Channel) (opcode : Z) : option ControlKind :=
  if negb (bool_decide (classify channel opcode = Some Control)) then None
  else
    match channel with
    | Root =>
        if opcode =? 0x01 then Some DisplaySharedStatePage
        else if opcode =? 0x30 then Some DefineChannel
        else if opcode =? 0x31 then Some FreeChannel
        else if is_acknowledged_noop channel opcode then Some RetiredSlot
        else None
    | Child =>
        if opcode =? 0x01 then Some DisplaySharedStatePage
        else if opcode =? 0x02 then Some DisplayOnlineAck
        else if opcode =? 0x04 then Some CursorGlyph
        else if opcode =? 0x05 then Some CursorShow
        else if opcode =? 0x1e then Some Nop
        else if is_acknowledged_noop channel opcode then Some RetiredSlot
        else None
    end.
Definition payload_is_inert (k : ControlKind) : bool := match k with RetiredSlot | Nop => true | _ => false end.
Inductive ChannelTransition := TOpen | TFree.
Definition channel_transition (k : ControlKind) : option ChannelTransition :=
  match k with DefineChannel => Some TOpen | FreeChannel => Some TFree | _ => None end.
Inductive ControlOp := OpChannel (transition : ChannelTransition) (domain : Z) | OpDisplay (kind : ControlKind) | OpInert (kind : ControlKind).
Definition control_op_kind (op : ControlOp) : ControlKind :=
  match op with OpChannel TOpen _ => DefineChannel | OpChannel TFree _ => FreeChannel | OpDisplay kind | OpInert kind => kind end.
Inductive ResolveRefusal := NotControl (channel : Channel) (opcode : Z) | ResolvePayload (e : ShortPayload).
Definition resolve (channel : Channel) (opcode : Z) (payload : list Z) : option (ControlOp + ResolveRefusal) :=
  match control_kind_of channel opcode with
  | None => Some (inr (NotControl channel opcode))
  | Some kind =>
      match channel_transition kind with
      | None => Some (inl (if payload_is_inert kind then OpInert kind else OpDisplay kind))
      | Some transition =>
          match decode_channel_lifetime payload with
          | None => None
          | Some (inr e) => Some (inr (ResolvePayload e))
          | Some (inl domain) => Some (inl (OpChannel transition domain))
          end
      end
  end.

(** ** The ledger and the tables agree *)
Lemma find_in channel opcode p : find channel opcode = Some p → p ∈ LEDGER ∧ row_channel p = channel ∧ row_opcode p = opcode.
Proof.
  intros [Hin Hp]%find_some. apply andb_true_iff in Hp as [H1%bool_decide_eq_true H2%Z.eqb_eq]. by apply list_elem_of_In in Hin.
Qed.
Definition row_agrees (p : Row) : bool :=
  let ch := row_channel p in
  let o := row_opcode p in
  (o <=? OPCODE_CEILING) &&
  bool_decide (row_name <$> find ch o = Some (row_name p)) &&
  eqb (bool_decide (is_Some (classify ch o))) (negb (blocks_cutover (row_closure p))) &&
  eqb (bool_decide (is_Some (control_kind_of ch o))) (bool_decide (classify ch o = Some Control)).
Lemma rows_agree : forallb row_agrees LEDGER = true.
Proof. vm_compute. reflexivity. Qed.

Lemma row_checked ch o p : find ch o = Some p →
  o ≤ OPCODE_CEILING ∧ (is_Some (classify ch o) ↔ row_closure p ≠ Unresolved) ∧
  (is_Some (control_kind_of ch o) ↔ classify ch o = Some Control).
Proof.
  intros (Hin & <- & <-)%find_in. pose proof rows_agree as H. rewrite forallb_forall in H. apply list_elem_of_In in Hin.
  specialize (H p Hin). unfold row_agrees in H.
  apply andb_true_iff in H as [[[H1 _]%andb_true_iff H2]%andb_true_iff H3]. apply eqb_prop in H2, H3. split; [lia|]. split.
  - rewrite <- (bool_decide_eq_true (is_Some _)), H2. by destruct (row_closure p).
  - by rewrite <- (bool_decide_eq_true (is_Some _)), H3, bool_decide_eq_true.
Qed.
Lemma classify_judged ch o : is_Some (classify ch o) ↔ ∃ p, find ch o = Some p ∧ row_closure p ≠ Unresolved.
Proof.
  destruct (find ch o) as [p|] eqn:E.
  - destruct (row_checked ch o p E) as (_ & -> & _). split; [eauto|]. by intros (? & [= <-] & ?).
  - unfold classify. rewrite E. split; [by intros []|]. by intros (? & ? & _).
Qed.
(** There is a control operation exactly for the packets classed as control. *)
Lemma control_kind_exact ch o : is_Some (control_kind_of ch o) ↔ classify ch o = Some Control.
Proof.
  destruct (find ch o) as [p|] eqn:E; [apply (row_checked ch o p E)|].
  assert (classify ch o = None) as Hc by (unfold classify; by rewrite E).
  unfold control_kind_of. rewrite Hc. cbn. split; [by intros []|done].
Qed.
Lemma decode_channel_lifetime_total payload : ∃ r, decode_channel_lifetime payload = Some r.
Proof.
  unfold decode_channel_lifetime, fifo_short. destruct (_ <? _)%nat eqn:E; [eauto|]. apply Nat.ltb_ge in E.
  unfold ld32. rewrite ld_some by (unfold CHANNEL_LIFETIME_CHANNEL_ID, CHANNEL_LIFETIME_LEN in *; lia). cbn. eauto.
Qed.

(** The ledger, the classes and the control operations are one table.  For every channel
    and opcode: a packet has a class exactly when the ledger has a row for it that is not
    unresolved, and then its opcode is one the dispatch table can index; and it resolves to a
    control operation (with the channel's id where it opens or frees one, or a refusal when
    the payload is too short to hold it) exactly when its class is control.  So no judged
    command is left without a class and no control command without an operation. *)
Theorem packet_tables_agree (ch : Channel) (o : Z) (payload : list Z) :
  (is_Some (classify ch o) ↔ ∃ p, find ch o = Some p ∧ row_closure p ≠ Unresolved) ∧
  (is_Some (find ch o) → o ≤ OPCODE_CEILING) ∧
  ∃ r, resolve ch o payload = Some r ∧ (r = inr (NotControl ch o) ↔ classify ch o ≠ Some Control).
Proof.
  split; [apply classify_judged|]. split; [intros [p Hp]; apply (row_checked ch o p Hp)|].
  unfold resolve. pose proof (control_kind_exact ch o) as Hk. destruct (control_kind_of ch o) as [k|].
  - assert (classify ch o = Some Control) as Hc by (apply Hk; eauto).
    destruct (channel_transition k) as [t|]; [|eexists; by split].
    destruct (decode_channel_lifetime_total payload) as [[d|e] ->]; eexists; by split.
  - exists (inr (NotControl ch o)). split; [done|]. split; [|done]. intros _ Hc%Hk. by destruct Hc.
Qed.
