(* ===== verification/Session.v ===== *)
(** The session: src/reims-vgpu/crates/reims-vgpu-core/src/session.rs.

    One service observes every packet's arrival and owns the state the others share: it
    judges a packet, gives it its place in every order the device keeps, and passes it
    through the pipeline table, the hazard graph, the scheduler and the publisher, which are
    modelled in [Pipelines], [Depend], [Ready] and [Publish].  A call that would panic returns
    [None].  A payload is represented by what the session reads of it; the rest of it is
    stored and handed back unread. *)
From S2P Require Import Prelude RangeSet Access Depend Ready Publish Pipelines Wire Fifo Packets.

(** ** Packets *)
Inductive Payload :=
  | PlExec (pipeline_leases : list ResourceId) (accesses : list AccessIntent)
  | PlLifecycle (accesses : list AccessIntent)
  | PlQuery (access : AccessIntent)
  | PlPresent (accesses : list AccessIntent)
  | PlControl (op : ControlOp).
Definition payload_class (p : Payload) : PayloadClass :=
  match p with
  | PlExec _ _ => Exec | PlLifecycle _ => ResourceLifecycle | PlQuery _ => Query | PlPresent _ => Present | PlControl _ => Control
  end.
Definition payload_accesses (p : Payload) : list AccessIntent :=
  match p with PlExec _ a | PlLifecycle a | PlPresent a => a | PlQuery a => [a] | PlControl _ => [] end.
Definition payload_exec (p : Payload) : option (list ResourceId) := match p with PlExec l _ => Some l | _ => None end.

Record Packet := mkPacket {
  pk_channel : Channel; pk_domain : Z; pk_session : Z; pk_opcode : Z;
  pk_stamp_waits : list StampWait; pk_completion : option CompletionStamp; pk_payload : Payload }.
Record TransactionIdentity := mkIdentity { ti_session : Z; ti_domain : Z; ti_sequence : Z; ti_ingress : Z }.
Record DeviceTransaction := mkTransaction {
  tx_identity : TransactionIdentity; tx_stamp_waits : list StampWait; tx_completion : option CompletionStamp; tx_payload : Payload }.
Record Admission := mkAdmission { ad_transaction : DeviceTransaction; ad_hazard_waits : list Z; ad_ready : bool }.

Inductive Refusal :=
  | UnknownCommand (channel : Channel) (opcode : Z)
  | UnestablishedContract (channel : Channel) (opcode : Z)
  | DeviceLost (epoch : Z)
  | DeviceNotLost (epoch : Z)
  | CompletionAfterLoss (submitted_under current : Z)
  | ChannelNotOpen (channel : Z)
  | ChannelAlreadyOpen (channel : Z)
  | GenerationClosed (named current : Z)
  | PipelineUnusable (r : LeaseRefusal)
  | PayloadMismatch (channel : Channel) (opcode : Z) (declared decoded : PayloadClass).
Inductive FreeRefusal := NotOpen (r : Refusal) | Owed (r : RetireRefusal) | IsRoot.
Inductive ControlRefusal := OpenRefused (r : Refusal) | FreeRefused (r : FreeRefusal).
Record DeviceLoss := mkLoss { dl_epoch : Z; dl_stranded : list Z; dl_released : list Release }.
Record Reset := mkReset { rs_generation : Z; rs_destroy : list ResourceId; rs_stranded : list Z }.
Record Ended := mkEnded { took : bool; stranded : list Z }.

(** ** The counters of identity.rs *)
Definition FIRST : Z := 1.
Definition ROOT : Z := 0.
Definition saturating_next (z : Z) : Z := if z =? UINT64_MAX then z else z + 1.
Definition counter_next (z : Z) : Z := u64 (z + 1).

(** ** The session *)
Inductive DeviceState := Live | Lost.
#[export] Instance DeviceState_eq_dec : EqDecision DeviceState.
Proof. solve_decision. Defined.

Record SessionModel := mkSession {
  ss_generation : Z; ss_epoch : Z; ss_device : DeviceState; ss_next_ingress : Z;
  ss_open : gset Z; ss_sequence : gmap Z Z; ss_graph : DependencyGraph; ss_rebuilding : list ResourceId;
  ss_pipelines : PipelineTable; ss_scheduler : Scheduler; ss_publisher : Publisher;
  ss_position : gmap Z (Z * Z); ss_refusals : nat }.
#[export] Instance eta_session : Settable SessionModel := λ s,
  mkSession (ss_generation s) (ss_epoch s) (ss_device s) (ss_next_ingress s) (ss_open s) (ss_sequence s) (ss_graph s)
    (ss_rebuilding s) (ss_pipelines s) (ss_scheduler s) (ss_publisher s) (ss_position s) (ss_refusals s).
Definition session_new : SessionModel :=
  mkSession FIRST FIRST Live (counter_next 0) {[ROOT]} ∅ empty_graph [] empty_table empty_scheduler empty_publisher ∅ 0.

Definition refused {T R} (s : SessionModel) (r : R) : option ((T + R) * SessionModel) :=
  Some (inr r, s <| ss_refusals := S (ss_refusals s) |>).

(** The pipelines of a packet that are still being built. *)
Definition pipeline_waits_of (s : SessionModel) (p : Payload) : option ((list ResourceId + LeaseRefusal) * PipelineTable) :=
  match payload_exec p with
  | Some leases => waits_for (ss_pipelines s) leases (ss_generation s)
  | None => Some (inl [], ss_pipelines s)
  end.

(** The accepted packet takes its place in every order. *)
Definition place (s : SessionModel) (packet : Packet) (pipes : list ResourceId) :
    option ((Admission + Refusal) * SessionModel) :=
  let ingress := ss_next_ingress s in
  let domain := pk_domain packet in
  let sequence := counter_next (default 0 (ss_sequence s !! domain)) in
  match pub_admit (ss_publisher s) domain sequence with
  | None => None
  | Some publisher =>
      match graph_admit (ss_graph s) ingress (payload_accesses (pk_payload packet)) with
      | None => None
      | Some (hazards, graph) =>
          let '(now, scheduler) :=
            sched_admit (ss_scheduler s) ingress hazards (pk_stamp_waits packet) pipes (pk_completion packet) in
          let identity := mkIdentity (ss_generation s) domain sequence ingress in
          let transaction := mkTransaction identity (pk_stamp_waits packet) (pk_completion packet) (pk_payload packet) in
          Some (inl (mkAdmission transaction hazards now),
                mkSession (ss_generation s) (ss_epoch s) (ss_device s) (counter_next ingress) (ss_open s)
                  (<[domain := sequence]> (ss_sequence s)) graph (ss_rebuilding s) (ss_pipelines s) scheduler publisher
                  (<[ingress := (domain, sequence)]> (ss_position s)) (ss_refusals s))
      end
  end.

Definition session_admit (s : SessionModel) (packet : Packet) : option ((Admission + Refusal) * SessionModel) :=
  let channel := pk_channel packet in
  let opcode := pk_opcode packet in
  if decide (ss_device s = Lost) then refused s (DeviceLost (ss_epoch s))
  else if negb (pk_session packet =? ss_generation s) then refused s (GenerationClosed (pk_session packet) (ss_generation s))
  else
    match find channel opcode with
    | None => refused s (UnknownCommand channel opcode)
    | Some judged =>
        match classify channel opcode with
        | None => if blocks_cutover (row_closure judged) then refused s (UnestablishedContract channel opcode) else None
        | Some class =>
            let decoded := payload_class (pk_payload packet) in
            if negb (bool_decide (decoded = class)) then refused s (PayloadMismatch channel opcode class decoded)
            else if negb (bool_decide (pk_domain packet ∈ ss_open s)) then refused s (ChannelNotOpen (pk_domain packet))
            else
              match pipeline_waits_of s (pk_payload packet) with
              | None => None
              | Some (inr r, t) => refused (s <| ss_pipelines := t |>) (PipelineUnusable r)
              | Some (inl pipes, t) => place (s <| ss_pipelines := t |>) packet pipes
              end
        end
    end.

(** What leaving does, whether by completing or by being withdrawn: the words its channel may
    now publish reach the scheduler. *)
Definition publish_releases (sched : Scheduler) (out : list Release) : Scheduler :=
  foldl (λ sched r, match rel_stamp r with Some stamp => sched_publish sched stamp | None => sched end) sched out.
Definition leave (s : SessionModel) (ingress : Z)
    (settle_at : Publisher → Z → Z → option CompletionStamp → option (list Release * Publisher)) :
    option (list Release * SessionModel) :=
  match sched_complete (ss_scheduler s) ingress with
  | None => None
  | Some (owed, scheduler) =>
      match graph_retire (ss_graph s) ingress with
      | None => None
      | Some graph =>
          match ss_position s !! ingress with
          | None => None
          | Some (domain, sequence) =>
              match settle_at (ss_publisher s) domain sequence owed with
              | None => None
              | Some (out, publisher) =>
                  Some (out, ((((s <| ss_scheduler := publish_releases scheduler out |>) <| ss_graph := graph |>)
                               <| ss_position := base.delete ingress (ss_position s) |>) <| ss_publisher := publisher |>))
              end
          end
      end
  end.
Definition session_complete (s : SessionModel) (epoch ingress : Z) : option ((list Release + Refusal) * SessionModel) :=
  if negb (epoch =? ss_epoch s) || bool_decide (ss_device s = Lost) then Some (inr (CompletionAfterLoss epoch (ss_epoch s)), s)
  else match leave s ingress pub_complete with Some (out, s) => Some (inl out, s) | None => None end.
Definition session_withdraw (s : SessionModel) (ingress : Z) : option (list Release * SessionModel) :=
  leave s ingress (λ p domain sequence _, pub_withdraw p domain sequence).

Fixpoint withdraw_all (s : SessionModel) (ingresses : list Z) : option (list Release * SessionModel) :=
  match ingresses with
  | [] => Some ([], s)
  | ingress :: ingresses =>
      match session_withdraw s ingress with
      | None => None
      | Some (out, s) => match withdraw_all s ingresses with Some (more, s) => Some (out ++ more, s) | None => None end
      end
  end.
Definition session_device_lost (s : SessionModel) : option (DeviceLoss * SessionModel) :=
  let s := s <| ss_device := Lost |> in
  let all := ascending (dom (ss_position s)) in
  match withdraw_all s all with
  | None => None
  | Some (out, s) =>
      let '(rebuild, t) := pl_device_lost (ss_pipelines s) in
      Some (mkLoss (ss_epoch s) all out, (s <| ss_rebuilding := rebuild |>) <| ss_pipelines := t |>)
  end.
Definition recreate_device (s : SessionModel) : (Z + Refusal) * SessionModel :=
  if decide (ss_device s = Live) then (inr (DeviceNotLost (ss_epoch s)), s)
  else let s := (s <| ss_epoch := saturating_next (ss_epoch s) |>) <| ss_device := Live |> in (inl (ss_epoch s), s).
Definition rebuilding (s : SessionModel) : list ResourceId * SessionModel :=
  let kept := filter (λ id, p_state <$> get (ss_pipelines s) id = Some Declared) (ss_rebuilding s) in
  (kept, s <| ss_rebuilding := kept |>).

(** The waiters of pipelines that will never be built. *)
Definition refuse_pipeline (st : list Z * Scheduler) (id : ResourceId) : list Z * Scheduler :=
  let '(l, sched) := sched_pipeline_refused st.2 id in (st.1 ++ l, sched).
Definition session_reset (s : SessionModel) : Reset * SessionModel :=
  let closed := ss_generation s in
  let s := s <| ss_generation := saturating_next closed |> in
  let '(taken, t) := generation_closed (ss_pipelines s) closed in
  let '(l, sched) := foldl refuse_pipeline ([], ss_scheduler s) (removed taken) in
  (mkReset (ss_generation s) (destroy taken) (merge_sort Z.le (remove_dups l)),
   (s <| ss_pipelines := t |>) <| ss_scheduler := sched |>).

Definition open_channel (s : SessionModel) (domain : Z) : (unit + Refusal) * SessionModel :=
  if decide (domain ∈ ss_open s) then (inr (ChannelAlreadyOpen domain), s <| ss_refusals := S (ss_refusals s) |>)
  else (inl tt, s <| ss_open := {[domain]} ∪ ss_open s |>).
Definition retire_channel (s : SessionModel) (domain : Z) : (unit + FreeRefusal) * SessionModel :=
  if domain =? ROOT then (inr IsRoot, s <| ss_refusals := S (ss_refusals s) |>)
  else if decide (domain ∈ ss_open s) then
    match pub_retire (ss_publisher s) domain with
    | (inr owed, p) => (inr (Owed owed), (s <| ss_publisher := p |>) <| ss_refusals := S (ss_refusals s) |>)
    | (inl _, p) =>
        (inl tt, ((s <| ss_open := ss_open s ∖ {[domain]} |>) <| ss_publisher := p |>)
                   <| ss_sequence := base.delete domain (ss_sequence s) |>)
    end
  else (inr (NotOpen (ChannelNotOpen domain)), s <| ss_refusals := S (ss_refusals s) |>).
Definition apply_control (s : SessionModel) (op : ControlOp) : (unit + ControlRefusal) * SessionModel :=
  match op with
  | OpChannel TOpen domain =>
      let '(r, s) := open_channel s domain in (match r with inl u => inl u | inr r => inr (OpenRefused r) end, s)
  | OpChannel TFree domain =>
      let '(r, s) := retire_channel s domain in (match r with inl u => inl u | inr r => inr (FreeRefused r) end, s)
  | OpDisplay _ | OpInert _ => (inl tt, s)
  end.

Definition session_pipeline_ready (s : SessionModel) (id : ResourceId) : bool * SessionModel :=
  let '(took, t) := advance (ss_pipelines s) id PReady in
  if took then (true, (s <| ss_pipelines := t |>) <| ss_scheduler := sched_pipeline_ready (ss_scheduler s) id |>)
  else (false, s <| ss_pipelines := t |>).
(** The tail of pipeline_refused and pipeline_retired. *)
Definition ended (s : SessionModel) (id : ResourceId) (step : bool * PipelineTable) : Ended * SessionModel :=
  let '(took, t) := step in
  if took then
    let '(l, sched) := sched_pipeline_refused (ss_scheduler s) id in
    (mkEnded true l, (s <| ss_pipelines := t |>) <| ss_scheduler := sched |>)
  else (mkEnded false [], s <| ss_pipelines := t |>).
Definition session_pipeline_refused (s : SessionModel) (id : ResourceId) (reason : RefusalReason) : Ended * SessionModel :=
  ended s id (refuse (ss_pipelines s) id reason).
Definition session_pipeline_retired (s : SessionModel) (id : ResourceId) : Ended * SessionModel :=
  ended s id (retire (ss_pipelines s) id).
Definition stamp_published (s : SessionModel) (stamp : CompletionStamp) : SessionModel :=
  s <| ss_scheduler := sched_publish (ss_scheduler s) stamp |>.
Definition session_take_ready (s : SessionModel) : list Z * SessionModel :=
  let '(l, sched) := sched_take_ready (ss_scheduler s) in (l, s <| ss_scheduler := sched |>).
Definition session_compact (s : SessionModel) : SessionModel := s <| ss_graph := graph_compact (ss_graph s) |>.

(** ** Runs

    The calls a driver makes, and what can be seen of each: transactions admitted, with the
    pipelines they found still being built, handed out to run, gone (completed or withdrawn)
    or reported as never to be ready, and pipelines reported built. *)
Inductive session_call :=
  | SAdmit (packet : Packet) | SComplete (epoch ingress : Z) | SWithdraw (ingress : Z) | STakeReady
  | SReset | SDeviceLost | SRecreate | SRebuilding | SControl (op : ControlOp)
  | SPipelineReady (id : ResourceId) | SPipelineRefused (id : ResourceId) (reason : RefusalReason)
  | SPipelineRetired (id : ResourceId) | STable (op : table_op) | SStampPublished (stamp : CompletionStamp) | SCompact.
Inductive event :=
  | EAdmit (tx : DeviceTransaction) (pipes : list ResourceId) | EHand (o : Z) | ELeave (o : Z) | EStrand (o : Z)
  | EBuilt (id : ResourceId).

Definition building (s : SessionModel) (p : Payload) : list ResourceId :=
  match pipeline_waits_of s p with Some (inl pipes, _) => pipes | _ => [] end.
Definition session_step (s : SessionModel) (c : session_call) : option (list event * SessionModel) :=
  match c with
  | SAdmit packet =>
      match session_admit s packet with
      | None => None
      | Some (inr _, s') => Some ([], s')
      | Some (inl a, s') => Some ([EAdmit (ad_transaction a) (building s (pk_payload packet))], s')
      end
  | SComplete epoch o =>
      match session_complete s epoch o with
      | None => None
      | Some (inr _, s') => Some ([], s')
      | Some (inl _, s') => Some ([ELeave o], s')
      end
  | SWithdraw o => match session_withdraw s o with None => None | Some (_, s') => Some ([ELeave o], s') end
  | STakeReady => let '(l, s') := session_take_ready s in Some (EHand <$> l, s')
  | SReset => let '(r, s') := session_reset s in Some (EStrand <$> rs_stranded r, s')
  | SDeviceLost => match session_device_lost s with None => None | Some (d, s') => Some (ELeave <$> dl_stranded d, s') end
  | SRecreate => Some ([], (recreate_device s).2)
  | SRebuilding => Some ([], (rebuilding s).2)
  | SControl op => Some ([], (apply_control s op).2)
  | SPipelineReady id => let '(b, s') := session_pipeline_ready s id in Some (if (b : bool) then [EBuilt id] else [], s')
  | SPipelineRefused id reason => let '(e, s') := session_pipeline_refused s id reason in Some (EStrand <$> stranded e, s')
  | SPipelineRetired id => let '(e, s') := session_pipeline_retired s id in Some (EStrand <$> stranded e, s')
  | STable op => match table_step (ss_pipelines s) op with None => None | Some t => Some ([], s <| ss_pipelines := t |>) end
  | SStampPublished stamp => Some ([], stamp_published s stamp)
  | SCompact => Some ([], session_compact s)
  end.
Fixpoint session_run (s : SessionModel) (cs : list session_call) : option (list event * SessionModel) :=
  match cs with
  | [] => Some ([], s)
  | c :: cs =>
      match session_step s c with
      | None => None
      | Some (evs, s) => match session_run s cs with Some (more, s) => Some (evs ++ more, s) | None => None end
      end
  end.

(** ** What a trace says *)
Definition ingress (tx : DeviceTransaction) : Z := ti_ingress (tx_identity tx).
Definition accesses_of (tx : DeviceTransaction) : list AccessIntent := payload_accesses (tx_payload tx).
Definition accepted (tr : list event) (o : Z) : Prop := ∃ tx pipes, EAdmit tx pipes ∈ tr ∧ ingress tx = o.
Definition in_flight (tr : list event) (o : Z) : Prop := accepted tr o ∧ ELeave o ∉ tr.
(** Two transactions with accesses that must be ordered. *)
Definition clash (tr : list event) (a b : Z) : Prop :=
  ∃ tx pipes tx' pipes' x y, EAdmit tx pipes ∈ tr ∧ EAdmit tx' pipes' ∈ tr ∧ ingress tx = a ∧ ingress tx' = b ∧
    x ∈ accesses_of tx ∧ y ∈ accesses_of tx' ∧ requires_edge x y = true.
(** Whatever is handed out is in flight, handed out for the first time, and every earlier
    transaction it clashes with is gone. *)
Definition ordered (tr : list event) : Prop :=
  ∀ tr1 b tr2, tr = tr1 ++ EHand b :: tr2 →
    in_flight tr1 b ∧ (EHand b ∉ tr1) ∧ ∀ a, a < b → clash tr1 a b → ELeave a ∈ tr1.

(** The trace against the reference scheduler. *)
Record told (tr : list event) (next : Z) (p : plain) : Prop := {
  td_admit tx pipes : EAdmit tx pipes ∈ tr → 0 < ingress tx < next;
  td_once tx pipes tx' pipes' : EAdmit tx pipes ∈ tr → EAdmit tx' pipes' ∈ tr → ingress tx = ingress tx' → tx = tx' ∧ pipes = pipes';
  td_leave o : ELeave o ∈ tr → o < next;
  td_tasks o : is_Some (tasks p !! o) ↔ in_flight tr o;
  td_hazards o t a : tasks p !! o = Some t → a ∈ t_hazards t ↔ is_Some (tasks p !! a) ∧ a < o ∧ clash tr a o;
  td_stamps o t w : tasks p !! o = Some t → w ∈ t_stamps t →
    ∃ tx pipes, EAdmit tx pipes ∈ tr ∧ ingress tx = o ∧ w ∈ tx_stamp_waits tx;
  td_pipes o t pl : tasks p !! o = Some t → pl ∈ t_pipes t →
    ∃ tr1 tx pipes tr2, tr = tr1 ++ EAdmit tx pipes :: tr2 ∧ ingress tx = o ∧ pl ∈ pipes ∧ EBuilt pl ∉ tr2;
  td_stuck o t : tasks p !! o = Some t → t_stuck t = true → EStrand o ∈ tr;
  td_handed o : is_Some (tasks p !! o) → o ∈ handed p ↔ EHand o ∈ tr;
  td_ordered : ordered tr }.

Definition is_admit (e : event) : bool := match e with EAdmit _ _ => true | _ => false end.
Definition is_leave (e : event) : bool := match e with ELeave _ => true | _ => false end.
Definition is_hand (e : event) : bool := match e with EHand _ => true | _ => false end.
Definition quiet (f : event → bool) (evs : list event) : Prop := ∀ e, e ∈ evs → f e = false.

Section Traces.
Implicit Types tr evs : list event.

Lemma quiet_admit tr evs tx pipes : quiet is_admit evs → EAdmit tx pipes ∈ tr ++ evs ↔ EAdmit tx pipes ∈ tr.
Proof. intros H. rewrite elem_of_app. split; [|by left]. by intros [?|?%H]. Qed.
Lemma quiet_leave tr evs o : quiet is_leave evs → ELeave o ∈ tr ++ evs ↔ ELeave o ∈ tr.
Proof. intros H. rewrite elem_of_app. split; [|by left]. by intros [?|?%H]. Qed.
Lemma quiet_hand tr evs o : quiet is_hand evs → EHand o ∈ tr ++ evs ↔ EHand o ∈ tr.
Proof. intros H. rewrite elem_of_app. split; [|by left]. by intros [?|?%H]. Qed.
Lemma accepted_app tr evs o : quiet is_admit evs → accepted (tr ++ evs) o ↔ accepted tr o.
Proof. intros H. unfold accepted. by setoid_rewrite (quiet_admit tr evs _ _ H). Qed.
Lemma clash_app tr evs a b : quiet is_admit evs → clash (tr ++ evs) a b ↔ clash tr a b.
Proof. intros H. unfold clash. by setoid_rewrite (quiet_admit tr evs _ _ H). Qed.
Lemma in_flight_app tr evs o : quiet is_admit evs → quiet is_leave evs → in_flight (tr ++ evs) o ↔ in_flight tr o.
Proof. intros H1 H2. unfold in_flight. by rewrite accepted_app, quiet_leave. Qed.

(** Events that hand nothing out keep the order. *)
Lemma ordered_app tr evs : ordered tr → quiet is_hand evs → ordered (tr ++ evs).
Proof.
  intros Ho Hq tr1 b tr2 E. apply app_eq_app in E as (l & [[-> E]|[-> E]]).
  - destruct l as [|e l]; cbn in E; [exfalso; rewrite app_nil_r in *|].
    + assert (EHand b ∈ evs) as Hin by (rewrite <- E; left). by apply Hq in Hin.
    + injection E as <- E. by apply (Ho tr1 b l).
  - assert (EHand b ∈ evs) as Hin by (rewrite E; apply elem_of_app; right; left). by apply Hq in Hin.
Qed.
End Traces.

(** ** The reference scheduler's steps, as the trace tells them *)

(** Steps in which nothing is admitted and nothing leaves. *)
Lemma told_change tr evs next p p' : told tr next p → quiet is_admit evs → quiet is_leave evs →
  (∀ o, is_Some (tasks p' !! o) ↔ is_Some (tasks p !! o)) →
  (∀ o t', tasks p' !! o = Some t' → ∃ t, tasks p !! o = Some t ∧ t_hazards t' = t_hazards t ∧
     (∀ w, w ∈ t_stamps t' → w ∈ t_stamps t) ∧ (∀ pl, pl ∈ t_pipes t' → pl ∈ t_pipes t ∧ EBuilt pl ∉ evs) ∧
     (t_stuck t' = true → t_stuck t = true ∨ EStrand o ∈ tr ++ evs)) →
  (∀ o, is_Some (tasks p !! o) → o ∈ handed p' ↔ o ∈ handed p ∨ EHand o ∈ evs) →
  ordered (tr ++ evs) → told (tr ++ evs) next p'.
Proof.
  intros H Ha Hl Hd Ht Hh Hord. split; [..|exact Hord].
  - intros tx pipes. rewrite quiet_admit by done. apply H.
  - intros tx pipes tx' pipes'. rewrite !quiet_admit by done. apply H.
  - intros o. rewrite quiet_leave by done. apply H.
  - intros o. rewrite Hd, in_flight_app by done. apply H.
  - intros o t' a Ht'. destruct (Ht o t' Ht') as (t & Et & -> & _). rewrite Hd, clash_app by done. by apply (td_hazards _ _ _ H).
  - intros o t' w Ht' Hw. destruct (Ht o t' Ht') as (t & Et & _ & Hs & _). setoid_rewrite quiet_admit; [|done].
    eapply (td_stamps _ _ _ H); eauto.
  - intros o t' pl Ht' Hpl. destruct (Ht o t' Ht') as (t & Et & _ & _ & Hp & _). destruct (Hp pl Hpl) as [Hin Hno].
    destruct (td_pipes _ _ _ H o t pl Et Hin) as (tr1 & tx & pipes & tr2 & -> & ? & ? & ?).
    exists tr1, tx, pipes, (tr2 ++ evs). rewrite <- app_assoc. split_and!; try done. rewrite elem_of_app. tauto.
  - intros o t' Ht' Hst. destruct (Ht o t' Ht') as (t & Et & _ & _ & _ & Hs). destruct (Hs Hst) as [Hs'|?]; [|done].
    apply elem_of_app. left. by apply (td_stuck _ _ _ H o t).
  - intros o Ho. apply Hd in Ho. rewrite (Hh o Ho), (td_handed _ _ _ H o Ho), elem_of_app. done.
Qed.

Lemma told_map tr next p p' (f : task → task) : told tr next p → tasks p' = f <$> tasks p → handed p' = handed p →
  (∀ o t, tasks p !! o = Some t → t_hazards (f t) = t_hazards t ∧ (∀ w, w ∈ t_stamps (f t) → w ∈ t_stamps t) ∧
     (∀ pl, pl ∈ t_pipes (f t) → pl ∈ t_pipes t) ∧ (t_stuck (f t) = true → t_stuck t = true ∨ EStrand o ∈ tr)) →
  told tr next p'.
Proof.
  intros H Ef Eh Hf. rewrite <- (app_nil_r tr). apply (told_change tr [] next p p' H).
  - by intros e ?%elem_of_nil.
  - by intros e ?%elem_of_nil.
  - intros o. by rewrite Ef, lookup_fmap, fmap_is_Some.
  - intros o t'. rewrite Ef, lookup_fmap. intros (t & Et & ->)%fmap_Some. destruct (Hf o t Et) as (? & ? & Hp & ?).
    exists t. rewrite app_nil_r. split_and!; try done. intros pl ?%Hp. split; [done|apply not_elem_of_nil].
  - intros o Ho. rewrite Eh. set_solver.
  - rewrite app_nil_r. apply H.
Qed.
Lemma told_publish tr next p stamp : told tr next p → told tr next (plain_publish p stamp).
Proof.
  intros H. eapply told_map; [exact H|done|done|]. intros o t Et. cbn. split_and!; try done; [|tauto].
  by intros w [_ ?]%list_elem_of_filter.
Qed.
Lemma told_built tr next p pl : told tr next p → told (tr ++ [EBuilt pl]) next (plain_pipeline_ready p pl).
Proof.
  intros H. apply (told_change _ _ _ p); try done.
  - by intros e ->%list_elem_of_singleton.
  - by intros e ->%list_elem_of_singleton.
  - intros o. cbn. by rewrite lookup_fmap, fmap_is_Some.
  - intros o t'. cbn. rewrite lookup_fmap. intros (t & Et & ->)%fmap_Some. exists t. cbn. split_and!; try done; [|tauto].
    intros id [? ?]%list_elem_of_filter. split; [done|]. rewrite list_elem_of_singleton. congruence.
  - intros o Ho. cbn. set_solver.
  - apply ordered_app; [apply H|]. by intros e ->%list_elem_of_singleton.
Qed.
Lemma told_strand tr next p l : told tr next p → told (tr ++ (EStrand <$> l)) next p.
Proof.
  intros H. assert (∀ f, (∀ o, f (EStrand o) = false) → quiet f (EStrand <$> l)) as Hq.
  { intros f Hf e (o & -> & _)%list_elem_of_fmap. apply Hf. }
  apply (told_change _ _ _ p); auto.
  - intros o t' Et. exists t'. split_and!; try done; [|by left]. intros pl Hpl. split; [done|]. by intros (? & ? & _)%list_elem_of_fmap.
  - intros o Ho. split; [by left|]. intros [?|(? & ? & _)%list_elem_of_fmap]; done.
  - apply ordered_app; [apply H|]. by apply Hq.
Qed.
Lemma plain_refused_in p pl o t : tasks p !! o = Some t → waits_pipe pl t = true → o ∈ (plain_pipeline_refused p pl).1.
Proof. intros Et Hw. cbn. apply ascending_in, elem_of_dom. exists t. by apply map_lookup_filter_Some. Qed.
Lemma told_refused tr next p pl : told tr next p → (∀ o, o ∈ (plain_pipeline_refused p pl).1 → EStrand o ∈ tr) →
  told tr next (plain_pipeline_refused p pl).2.
Proof.
  intros H Hs. eapply told_map; [exact H|done|done|]. intros o t Et. cbn. split_and!; try done.
  - by intros id [_ ?]%list_elem_of_filter.
  - intros [?|Hw]%orb_true_iff; [by left|right]. apply Hs. by apply (plain_refused_in _ _ _ t).
Qed.

Definition leaves (o : Z) (e : event) : bool := match e with ELeave o' => o' =? o | _ => false end.
Lemma leaves_spec (tr : list event) o : ELeave o ∈ tr ↔ existsb (leaves o) tr = true.
Proof.
  rewrite existsb_exists. split.
  - intros Hin%list_elem_of_In. exists (ELeave o). split; [done|]. cbn. apply Z.eqb_refl.
  - intros (e & Hin%list_elem_of_In & He). destruct e; try done. cbn in He. apply Z.eqb_eq in He as ->. done.
Qed.
#[export] Instance leave_dec (tr : list event) o : Decision (ELeave o ∈ tr).
Proof. destruct (existsb (leaves o) tr) eqn:E; [left|right]; rewrite leaves_spec; congruence. Defined.

(** Handing out what is free: it clashes with nothing that is left. *)
Lemma free_unclashed tr next p o : told tr next p → o ∈ free_tasks p → in_flight tr o ∧ ∀ a, a < o → clash tr a o → ELeave a ∈ tr.
Proof.
  intros H (t & Et & Hf)%free_tasks_in. split; [apply (td_tasks _ _ _ H); eauto|]. intros a Ha Hc.
  destruct (decide (is_Some (tasks p !! a))) as [Hs|Hs].
  - exfalso. assert (a ∈ t_hazards t) as Hin by (by apply (td_hazards _ _ _ H o)).
    unfold free in Hf. destruct (t_hazards t); [by apply elem_of_nil in Hin|done].
  - rewrite (td_tasks _ _ _ H) in Hs. destruct (decide (ELeave a ∈ tr)) as [?|Hn]; [done|]. destruct Hs. split; [|done].
    destruct Hc as (tx & pipes & tx' & pipes' & x & y & ? & ? & ? & _). by exists tx, pipes.
Qed.
Lemma quiet_hands f l : (∀ o, f (EHand o) = false) → quiet f (EHand <$> l).
Proof. intros Hf e (o & -> & _)%list_elem_of_fmap. apply Hf. Qed.
Lemma ordered_hand tr next p l : told tr next p → NoDup l →
  (∀ o, o ∈ l → o ∈ free_tasks p ∧ o ∉ handed p) → ordered (tr ++ (EHand <$> l)).
Proof.
  intros H Hnd Hl. induction l as [|b l IH] using rev_ind; [rewrite app_nil_r; apply H|].
  apply NoDup_app in Hnd as (Hnd & Hb & _). intros tr1 b' tr2. rewrite fmap_app, app_assoc. cbn. intros E.
  destruct tr2 as [|e tr2 _] using rev_ind.
  - apply app_inj_2 in E as [<- [= <-]]; [|done]. destruct (Hl b) as [Hf Hh]; [set_solver|].
    destruct (free_unclashed _ _ _ _ H Hf) as [Hi Hc]. split_and!.
    + by rewrite in_flight_app by (by apply quiet_hands).
    + rewrite elem_of_app. intros [Hin|(? & [= <-] & Hin)%list_elem_of_fmap]; [|set_solver].
      apply (td_handed _ _ _ H b) in Hin; [done|]. by apply (td_tasks _ _ _ H).
    + intros a Ha. rewrite clash_app, elem_of_app by (by apply quiet_hands). auto.
  - rewrite app_comm_cons, app_assoc in E. apply app_inj_2 in E as [E _]; [|done].
    eapply IH; [done| |exact E]. set_solver.
Qed.
Lemma told_take tr next p : told tr next p →
  told (tr ++ (EHand <$> (plain_take_ready p).1)) next (plain_take_ready p).2.
Proof.
  intros H. apply (told_change _ _ _ p); try done.
  - by apply quiet_hands.
  - by apply quiet_hands.
  - intros o t' Et. exists t'. split_and!; try done; [|by left]. intros pl Hpl. split; [done|]. by intros (? & ? & _)%list_elem_of_fmap.
  - intros o Ho. cbn. rewrite elem_of_union, list_elem_of_fmap. split.
    + intros [?|Hf]; [by left|]. destruct (decide (o ∈ handed p)); [by left|right]. exists o. split; [done|]. apply ascending_in. set_solver.
    + intros [?|(? & [= <-] & Hin%ascending_in)]; [by left|]. set_solver.
  - eapply ordered_hand; [exact H|apply ascending_nodup|]. intros o Hin%ascending_in. set_solver.
Qed.

(** Leaving. *)
Lemma in_flight_leave tr o x : in_flight (tr ++ [ELeave o]) x ↔ in_flight tr x ∧ x ≠ o.
Proof.
  unfold in_flight. rewrite accepted_app by (by intros e ->%list_elem_of_singleton).
  rewrite elem_of_app, list_elem_of_singleton. split; [intros [? Hn]|intros [[? ?] ?]].
  - split; [split; [done|]|]; [tauto|]. intros ->. tauto.
  - split; [done|]. intros [?|[= ->]]; done.
Qed.
Lemma told_leave tr next p o : told tr next p → is_Some (tasks p !! o) → told (tr ++ [ELeave o]) next (plain_complete p o).
Proof.
  intros H Ho. assert (∀ f, f (ELeave o) = false → quiet f [ELeave o]) as Hq by (by intros f Hf e ->%list_elem_of_singleton).
  assert (∀ x t', tasks (plain_complete p o) !! x = Some t' ↔ x ≠ o ∧ ∃ t, tasks p !! x = Some t ∧
    t' = t <| t_hazards := filter (λ d, d ≠ o) (t_hazards t) |>) as Ht.
  { intros x t'. cbn. rewrite lookup_fmap, fmap_Some. setoid_rewrite lookup_delete_Some. naive_solver. }
  assert (∀ x, is_Some (tasks (plain_complete p o) !! x) ↔ x ≠ o ∧ is_Some (tasks p !! x)) as Hd.
  { intros x. split; [intros [t' (? & t & ? & _)%Ht]|intros [? [t ?]]]; [eauto|]. eexists. apply Ht. eauto. }
  split.
  - intros tx pipes. rewrite quiet_admit by (by apply Hq). apply H.
  - intros tx pipes tx' pipes'. rewrite !quiet_admit by (by apply Hq). apply H.
  - intros x [?|[= ->]%list_elem_of_singleton]%elem_of_app; [by apply (td_leave _ _ _ H)|].
    apply (td_tasks _ _ _ H) in Ho as [(tx & pipes & Hin & <-) _]. apply (td_admit _ _ _ H _ _ Hin).
  - intros x. rewrite Hd, in_flight_leave, (td_tasks _ _ _ H). tauto.
  - intros x t' a (Hne & t & Et & ->)%Ht. cbn. rewrite list_elem_of_filter, Hd, clash_app by (by apply Hq).
    rewrite (td_hazards _ _ _ H x t a Et). tauto.
  - intros x t' w (Hne & t & Et & ->)%Ht. cbn. setoid_rewrite quiet_admit; [|by apply Hq]. by apply (td_stamps _ _ _ H).
  - intros x t' pl (Hne & t & Et & ->)%Ht Hpl. destruct (td_pipes _ _ _ H x t pl Et Hpl) as (tr1 & tx & pipes & tr2 & -> & ? & ? & ?).
    exists tr1, tx, pipes, (tr2 ++ [ELeave o]). rewrite <- app_assoc. split_and!; try done. rewrite elem_of_app, list_elem_of_singleton. naive_solver.
  - intros x t' (Hne & t & Et & ->)%Ht Hst. apply elem_of_app. left. by apply (td_stuck _ _ _ H x t).
  - intros x [Hne Hx]%Hd. cbn. rewrite quiet_hand by (by apply Hq). rewrite <- (td_handed _ _ _ H x Hx). set_solver.
  - apply ordered_app; [apply H|]. by apply Hq.
Qed.

(** A new transaction. *)
Lemma clash_accepted tr a b : clash tr a b → accepted tr a ∧ accepted tr b.
Proof. intros (tx & pipes & tx' & pipes' & x & y & ? & ? & ? & ? & _). split; [by exists tx, pipes|by exists tx', pipes']. Qed.
Lemma clash_old tr tx pipes a b : a ≠ ingress tx → b ≠ ingress tx → clash (tr ++ [EAdmit tx pipes]) a b ↔ clash tr a b.
Proof.
  intros Ha Hb. unfold clash. setoid_rewrite elem_of_app. setoid_rewrite list_elem_of_singleton.
  split; [|by intros (t1 & p1 & t2 & p2 & x & y & ? & ? & H); exists t1, p1, t2, p2, x, y; auto].
  intros (t1 & p1 & t2 & p2 & x & y & H1 & H2 & E1 & E2 & Hr). exists t1, p1, t2, p2, x, y.
  destruct H1 as [H1|H1]; [|injection H1 as -> ->; congruence]. destruct H2 as [H2|H2]; [|injection H2 as -> ->; congruence]. done.
Qed.
Lemma told_new (tr : list event) p tx : told tr (ingress tx) p → (∀ t ps, EAdmit t ps ∈ tr → ingress t ≠ ingress tx) ∧ (ELeave (ingress tx) ∉ tr) ∧
  tasks p !! ingress tx = None ∧ EHand (ingress tx) ∉ tr.
Proof.
  intros H. assert (∀ t ps, EAdmit t ps ∈ tr → ingress t ≠ ingress tx) as Hn.
  { intros t ps Hin. pose proof (td_admit _ _ _ H _ _ Hin). lia. }
  assert (∀ tr', tr' ⊆ tr → ¬ accepted tr' (ingress tx)) as Ha.
  { intros tr' Hs (t & ps & Hin & E). by apply (Hn t ps); [apply Hs|]. }
  split_and!; [done|intros Hin; pose proof (td_leave _ _ _ H _ Hin); lia| |].
  - apply eq_None_not_Some. intros [Hi _]%(td_tasks _ _ _ H). by apply (Ha tr).
  - intros (tr1 & tr2 & E)%list_elem_of_split. destruct (td_ordered _ _ _ H _ _ _ E) as [[Hi _] _].
    apply (Ha tr1); [|done]. rewrite E. set_solver.
Qed.
Lemma told_accept tr p tx pipes hazards c : told tr (ingress tx) p → 0 < ingress tx → handed p ⊆ free_tasks p →
  (∀ a, is_Some (tasks p !! a) → a ∈ hazards ↔ clash (tr ++ [EAdmit tx pipes]) a (ingress tx)) →
  told (tr ++ [EAdmit tx pipes]) (ingress tx + 1) (plain_admit p (ingress tx) hazards (tx_stamp_waits tx) pipes c).
Proof.
  intros H Hpos Hh Hz. set (o := ingress tx) in *.
  assert (∀ f, f (EAdmit tx pipes) = false → quiet f [EAdmit tx pipes]) as Hq by (by intros f Hf e ->%list_elem_of_singleton).
  destruct (told_new tr p tx H) as (Hn & Hl & Hnone & Hhand).
  assert (∀ x t', tasks (plain_admit p o hazards (tx_stamp_waits tx) pipes c) !! x = Some t' →
    (x = o ∧ t' = mkTask (filter (λ d, is_Some (tasks p !! d)) hazards) (filter (λ w, stands (standing p) w = false) (tx_stamp_waits tx)) pipes false c)
    ∨ (x ≠ o ∧ tasks p !! x = Some t')) as Ht.
  { intros x t'. cbn. rewrite lookup_insert_Some. intros [[<- <-]|[? ?]]; [by left|right]. by split. }
  assert (∀ x, is_Some (tasks (plain_admit p o hazards (tx_stamp_waits tx) pipes c) !! x) ↔ x = o ∨ is_Some (tasks p !! x)) as Hd.
  { intros x. cbn. rewrite lookup_insert_is_Some'. naive_solver. }
  assert (∀ t ps, EAdmit t ps ∈ tr ++ [EAdmit tx pipes] ↔ EAdmit t ps ∈ tr ∨ (t = tx ∧ ps = pipes)) as Hin.
  { intros t ps. rewrite elem_of_app, list_elem_of_singleton. naive_solver. }
  assert (∀ x, is_Some (tasks p !! x) → 0 < x < o) as Hold.
  { intros x ((t & ps & Hi & <-) & _)%(td_tasks _ _ _ H). by apply (td_admit _ _ _ H t ps). }
  split.
  - intros t ps [?%(td_admit _ _ _ H)|[-> ->]]%Hin; unfold o in *; lia.
  - intros t ps t' ps' [H1|[-> ->]]%Hin [H2|[-> ->]]%Hin E; try done; [by apply (td_once _ _ _ H)|..].
    + by destruct (Hn t ps).
    + by destruct (Hn t' ps').
  - intros x. rewrite quiet_leave by (by apply Hq). intros ?%(td_leave _ _ _ H). lia.
  - intros x. rewrite Hd. unfold in_flight, accepted. rewrite quiet_leave by (by apply Hq). setoid_rewrite Hin. split.
    + intros [->|((t & ps & ? & ?) & ?)%(td_tasks _ _ _ H)]; [split; [|done]; exists tx, pipes; tauto|]. split; [|done]. exists t, ps. tauto.
    + intros [(t & ps & [Hi|[-> ->]] & <-) Hx]; [|by left]. right. apply (td_tasks _ _ _ H). split; [by exists t, ps|done].
  - intros x t' a [[-> ->]|[Hne Et]]%Ht; cbn [t_hazards]; rewrite Hd.
    + rewrite list_elem_of_filter. split.
      * intros [Ha Hm]. split; [by right|]. specialize (Hold a Ha). split; [lia|]. by apply Hz.
      * intros ([->|Ha] & Hlt & Hc); [lia|]. split; [done|]. by apply Hz.
    + assert (is_Some (tasks p !! x)) as Hx by eauto. specialize (Hold x Hx) as Hx'. rewrite (td_hazards _ _ _ H x t' a Et). split.
      * intros (Ha & Hlt & Hc). split_and!; [by right|done|]. apply clash_old; [lia..|done].
      * intros ([->|Ha] & Hlt & Hc); [lia|]. split_and!; [done..|]. apply clash_old in Hc; [done|..]; fold o; lia.
  - intros x t' w [[-> ->]|[Hne Et]]%Ht; cbn [t_stamps].
    + intros [_ ?]%list_elem_of_filter. exists tx, pipes. rewrite Hin. auto.
    + intros Hw. destruct (td_stamps _ _ _ H x t' w Et Hw) as (t & ps & ? & ? & ?). exists t, ps. rewrite Hin. auto.
  - intros x t' pl [[-> ->]|[Hne Et]]%Ht; cbn [t_pipes]; intros Hpl.
    + exists tr, tx, pipes, []. split_and!; try done. apply not_elem_of_nil.
    + destruct (td_pipes _ _ _ H x t' pl Et Hpl) as (tr1 & t & ps & tr2 & -> & ? & ? & ?).
      exists tr1, t, ps, (tr2 ++ [EAdmit tx pipes]). rewrite <- app_assoc. split_and!; try done.
      rewrite elem_of_app, list_elem_of_singleton. naive_solver.
  - intros x t' [[-> ->]|[Hne Et]]%Ht; cbn [t_stuck]; [done|]. intros Hs. apply elem_of_app. left. by apply (td_stuck _ _ _ H x t').
  - intros x Hx%Hd. cbn. rewrite quiet_hand by (by apply Hq). destruct Hx as [->|Hx]; [|by apply (td_handed _ _ _ H)].
    split; [|done]. intros (t & Et & _)%Hh%free_tasks_in. unfold o in Et. congruence.
  - apply ordered_app; [apply H|]. by apply Hq.
Qed.

(** ** The services together

    Every transaction in flight holds one open position of its channel; no channel's ledger
    runs ahead of the channel's counter, and no counter ahead of the number of calls. *)
Record positioned (pos : gmap Z (Z * Z)) (seq : gmap Z Z) (p : plain) (m : gmap Z ledger) (n : Z) : Prop := {
  po_held o : is_Some (pos !! o) ↔ is_Some (tasks p !! o);
  po_open o d q : pos !! o = Some (d, q) → open_at (default [] (m !! d)) q = true;
  po_back d q : open_at (default [] (m !! d)) q = true → ∃ o, pos !! o = Some (d, q);
  po_once o o' x : pos !! o = Some x → pos !! o' = Some x → o = o';
  po_seq d : 0 ≤ default 0 (seq !! d) ≤ n;
  po_ledger d e : e ∈ default [] (m !! d) → e.1 ≤ default 0 (seq !! d) }.

Record joined (n : Z) (tr : list event) (s : SessionModel) (p : plain) (m : gmap Z ledger) : Prop := {
  jn_sched : agrees (ss_next_ingress s - 1) (ss_scheduler s) p;
  jn_graph : graph_ok (ss_graph s);
  jn_old e : e ∈ entries (ss_graph s) → ordinal e < ss_next_ingress s;
  jn_live x a : (x, a) ∈ live_of (ss_graph s) ↔
    is_Some (tasks p !! x) ∧ ∃ tx pipes, EAdmit tx pipes ∈ tr ∧ ingress tx = x ∧ a ∈ accesses_of tx;
  jn_pub : publishes (ss_publisher s) m;
  jn_table : table_ok (ss_pipelines s);
  jn_next : 0 < ss_next_ingress s ≤ 1 + n;
  jn_pos : positioned (ss_position s) (ss_sequence s) p m n;
  jn_told : told tr (ss_next_ingress s) p }.

Lemma positioned_dom pos seq p p' m n : positioned pos seq p m n → (∀ o, is_Some (tasks p' !! o) ↔ is_Some (tasks p !! o)) →
  positioned pos seq p' m n.
Proof. intros H Hd. split; try apply H. intros o. rewrite Hd. apply H. Qed.
Lemma joined_more n n' tr s p m : joined n tr s p m → n ≤ n' → joined n' tr s p m.
Proof.
  intros H Hn. split; try apply H.
  - destruct (jn_next _ _ _ _ _ H). lia.
  - split; try apply (jn_pos _ _ _ _ _ H). intros d. destruct (po_seq _ _ _ _ _ (jn_pos _ _ _ _ _ H) d). lia.
Qed.

(** Steps that admit nothing and let nothing leave. *)
Lemma joined_keep n tr evs s s' p p' m : joined n tr s p m →
  ss_next_ingress s' = ss_next_ingress s → ss_graph s' = ss_graph s → ss_publisher s' = ss_publisher s →
  ss_position s' = ss_position s → ss_sequence s' = ss_sequence s → table_ok (ss_pipelines s') →
  agrees (ss_next_ingress s - 1) (ss_scheduler s') p' → (∀ o, is_Some (tasks p' !! o) ↔ is_Some (tasks p !! o)) →
  quiet is_admit evs → told (tr ++ evs) (ss_next_ingress s) p' → joined n (tr ++ evs) s' p' m.
Proof.
  intros H En Eg Ep Epos Eseq Ht Ha Hd Hq Htold. split; rewrite ?En, ?Eg, ?Ep, ?Epos, ?Eseq; try apply H; try done.
  - intros x a. rewrite (jn_live _ _ _ _ _ H), Hd. by setoid_rewrite (quiet_admit tr evs _ _ Hq).
  - eapply positioned_dom; [apply H|done].
Qed.
Lemma joined_still n tr s s' p m : joined n tr s p m →
  ss_next_ingress s' = ss_next_ingress s → ss_graph s' = ss_graph s → ss_publisher s' = ss_publisher s →
  ss_position s' = ss_position s → ss_sequence s' = ss_sequence s → table_ok (ss_pipelines s') →
  ss_scheduler s' = ss_scheduler s → joined n (tr ++ []) s' p m.
Proof.
  intros H En Eg Ep Epos Eseq Ht Es. eapply joined_keep; try done.
  - rewrite Es. apply H.
  - by intros e ?%elem_of_nil.
  - rewrite app_nil_r. apply H.
Qed.

Lemma new_joined : joined 0 [] session_new (mkPlain ∅ ∅ ∅) ∅.
Proof.
  split; cbn.
  - apply empty_agrees.
  - apply empty_graph_ok.
  - by intros e ?%elem_of_nil.
  - intros x a. split; [by intros ?%elem_of_nil|by intros [[? [=]] _]].
  - apply empty_publishes.
  - apply empty_table_ok.
  - unfold counter_next. rewrite u64_small by (unfold is_u64; lia). lia.
  - split; cbn; try done.
    + intros o. by rewrite !lookup_empty.
    + intros d e. rewrite lookup_empty. by intros ?%elem_of_nil.
  - split; try (by intros ? ? ?%elem_of_nil); try done; try (by intros ? ?%elem_of_nil).
    + by intros tx pipes tx' pipes' ?%elem_of_nil.
    + intros o. split; [by intros []|]. by intros [(? & ? & ?%elem_of_nil & _) _].
    + by intros o [? [=]].
    + by intros [|] b tr2 [=].
Qed.

(** *** Scheduler and table *)
Lemma table_step_ok t op : table_ok t → ∃ t', table_step t op = Some t' ∧ table_ok t'.
Proof. intros H. destruct (step_cell t op H) as (t' & ? & ? & _). eauto. Qed.
Lemma advance_ok t id next : table_ok t → table_ok (advance t id next).2.
Proof. intros H. by destruct (table_step_ok t (TAdvance id next) H) as (t' & [= <-] & ?). Qed.
Lemma refuse_ok t id r : table_ok t → table_ok (refuse t id r).2.
Proof. intros H. by destruct (table_step_ok t (TRefuse id r) H) as (t' & [= <-] & ?). Qed.

Lemma closed_ok t g : table_ok t → table_ok (generation_closed t g).2.
Proof. intros H. destruct (table_step_ok t (TClose g) H) as (t' & E & Ht). cbn [table_step] in E. by assert ((generation_closed t g).2 = t') as -> by congruence. Qed.
Lemma lost_ok t : table_ok t → table_ok (pl_device_lost t).2.
Proof. intros H. destruct (table_step_ok t TLost H) as (t' & E & Ht). cbn [table_step] in E. by assert ((pl_device_lost t).2 = t') as -> by congruence. Qed.

Lemma take_joined n tr s p m : joined n tr s p m → ∃ p',
  let '(l, s') := session_take_ready s in joined n (tr ++ (EHand <$> l)) s' p' m.
Proof.
  intros H. destruct (sched_take_ready_agrees _ _ _ (jn_sched _ _ _ _ _ H)) as [El Ha].
  exists (plain_take_ready p).2. unfold session_take_ready. destruct (sched_take_ready (ss_scheduler s)) as [l sched]. cbn in El, Ha. subst l.
  eapply joined_keep; try done; [apply H|by apply quiet_hands|apply told_take, H].
Qed.
Lemma built_joined n tr s p m id : joined n tr s p m → ∃ p',
  let '(b, s') := session_pipeline_ready s id in joined n (tr ++ (if (b : bool) then [EBuilt id] else [])) s' p' m.
Proof.
  intros H. unfold session_pipeline_ready. pose proof (advance_ok _ id PReady (jn_table _ _ _ _ _ H)) as Ht.
  destruct (advance (ss_pipelines s) id PReady) as [[] t]; [exists (plain_pipeline_ready p id)|exists p].
  - eapply joined_keep; try done.
    + apply sched_pipeline_ready_agrees, H.
    + intros o. cbn. by rewrite lookup_fmap, fmap_is_Some.
    + by intros e ->%list_elem_of_singleton.
    + apply told_built, H.
  - eapply joined_still; done.
Qed.
Lemma plain_refused_dom p pl o : is_Some (tasks (plain_pipeline_refused p pl).2 !! o) ↔ is_Some (tasks p !! o).
Proof. cbn. by rewrite lookup_fmap, fmap_is_Some. Qed.
Lemma quiet_strands f l : (∀ o, f (EStrand o) = false) → quiet f (EStrand <$> l).
Proof. intros Hf e (o & -> & _)%list_elem_of_fmap. apply Hf. Qed.
Lemma ended_joined n tr s p m id (step : bool * PipelineTable) : joined n tr s p m → table_ok step.2 → ∃ p',
  let '(e, s') := ended s id step in joined n (tr ++ (EStrand <$> stranded e)) s' p' m.
Proof.
  intros H Ht. unfold ended. destruct step as [[] t]; [|exists p; by eapply joined_still].
  destruct (sched_pipeline_refused_agrees _ _ _ id (jn_sched _ _ _ _ _ H)) as [El Ha].
  exists (plain_pipeline_refused p id).2. destruct (sched_pipeline_refused (ss_scheduler s) id) as [l sched].
  cbn -[plain_pipeline_refused] in *. subst l. eapply joined_keep; try done.
  - intros o. apply plain_refused_dom.
  - by apply quiet_strands.
  - apply told_refused; [apply told_strand, H|]. intros o Ho. apply elem_of_app. right. by apply list_elem_of_fmap_2.
Qed.

(** A reset refuses every pipeline of the closed generation; each transaction it strands is
    reported. *)
Lemma refuse_all_joined n tr (l : list Z) ids : ∀ s p m st,
  joined n tr s p m → st.2 = ss_scheduler s → (∀ o, o ∈ (foldl refuse_pipeline st ids).1 → o ∈ l) → (∀ o, o ∈ l → EStrand o ∈ tr) →
  ∃ p', joined n tr (s <| ss_scheduler := (foldl refuse_pipeline st ids).2 |>) p' m.
Proof.
  induction ids as [|id ids IH]; intros s p m st H Est Hin Hl.
  { exists p. cbn. rewrite Est. by destruct s. }
  destruct (sched_pipeline_refused_agrees _ _ _ id (jn_sched _ _ _ _ _ H)) as [El Ha].
  set (st' := refuse_pipeline st id). cbn [foldl] in *. fold st' in Hin |- *.
  assert (st' = (st.1 ++ (plain_pipeline_refused p id).1, (sched_pipeline_refused (ss_scheduler s) id).2)) as Est'.
  { unfold st', refuse_pipeline. rewrite Est, <- El. by destruct (sched_pipeline_refused (ss_scheduler s) id). }
  assert (∀ ids st o, o ∈ st.1 → o ∈ (foldl refuse_pipeline st ids).1) as Hmono.
  { clear. induction ids as [|id ids IH]; intros st o Ho; [done|]. cbn. apply IH. unfold refuse_pipeline.
    destruct (sched_pipeline_refused st.2 id). cbn. apply elem_of_app. by left. }
  destruct (IH (s <| ss_scheduler := st'.2 |>) (plain_pipeline_refused p id).2 m st') as [p' Hp']; [|done|exact Hin|exact Hl|exists p'; exact Hp'].
  rewrite <- (app_nil_r tr). eapply joined_keep; [exact H|done..|apply H|by rewrite Est'| | |].
  - intros o. apply plain_refused_dom.
  - by intros e ?%elem_of_nil.
  - rewrite app_nil_r. apply told_refused; [apply H|]. intros o Ho. apply Hl, Hin, Hmono. rewrite Est'. apply elem_of_app. by right.
Qed.
Lemma reset_joined n tr s p m : joined n tr s p m → ∃ p',
  let '(r, s') := session_reset s in joined n (tr ++ (EStrand <$> rs_stranded r)) s' p' m.
Proof.
  intros H. unfold session_reset.
  pose proof (closed_ok _ (ss_generation s) (jn_table _ _ _ _ _ H)) as Ht.
  destruct (generation_closed (ss_pipelines s) (ss_generation s)) as [taken t] eqn:Eg.
  change (ss_pipelines (s <| ss_generation := _ |>)) with (ss_pipelines s).
  change (ss_scheduler (s <| ss_generation := _ |>)) with (ss_scheduler s). rewrite Eg. cbn [snd] in Ht.
  destruct (foldl refuse_pipeline ([], ss_scheduler s) (removed taken)) as [l sched] eqn:Ef.
  set (l' := merge_sort Z.le (remove_dups l)).
  destruct (refuse_all_joined n (tr ++ (EStrand <$> l')) l' (removed taken)
    ((s <| ss_generation := saturating_next (ss_generation s) |>) <| ss_pipelines := t |>) p m ([], ss_scheduler s)) as [p' Hp'].
  - eapply joined_keep; try done; [apply H|by apply quiet_strands|apply told_strand, H].
  - done.
  - intros o. rewrite Ef. cbn. intros Ho. unfold l'. by rewrite merge_sort_Permutation, elem_of_remove_dups.
  - intros o Ho. apply elem_of_app. right. by apply list_elem_of_fmap_2.
  - exists p'. rewrite Ef in Hp'. exact Hp'.
Qed.

(** *** Leaving *)
Lemma publish_joined lo tr next out : ∀ sched p, agrees lo sched p → told tr next p →
  ∃ p', agrees lo (publish_releases sched out) p' ∧ told tr next p' ∧ ∀ o, is_Some (tasks p' !! o) ↔ is_Some (tasks p !! o).
Proof.
  induction out as [|[q [stamp|]] out IH]; intros sched p Ha Ht; cbn; [by exists p| |by apply IH].
  destruct (IH (sched_publish sched stamp) (plain_publish p stamp)) as (p' & ? & ? & Hd);
    [by apply sched_publish_agrees|by apply told_publish|]. exists p'. split_and!; try done. intros o. rewrite Hd. cbn.
  by rewrite lookup_fmap, fmap_is_Some.
Qed.
Lemma open_at_mark q q' st (l : ledger) : q' ≠ q → open_at (mark q st l) q' = open_at l q'.
Proof.
  intros Hne. unfold open_at, mark. induction l as [|[x st'] l IH]; [done|]. cbn. rewrite IH. f_equal.
  destruct (Z.eqb_spec x q) as [->|]; [|done]. cbn. by rewrite (proj2 (Z.eqb_neq q q')) by done.
Qed.
Lemma open_at_settled q st (l : ledger) : is_open (q, st) = false → open_at (mark q st l) q = false.
Proof.
  intros Hst. unfold open_at, mark. induction l as [|[x st'] l IH]; [done|]. cbn. rewrite IH, orb_false_r.
  destruct (Z.eqb_spec x q) as [->|Hne]; cbn; [by rewrite Hst, andb_false_r|]. by rewrite (proj2 (Z.eqb_neq x q)).
Qed.
Lemma positioned_leave pos seq p p' m n o d q st : positioned pos seq p m n → pos !! o = Some (d, q) → is_open (q, st) = false →
  (∀ x, is_Some (tasks p' !! x) ↔ x ≠ o ∧ is_Some (tasks p !! x)) →
  positioned (base.delete o pos) seq p' (<[d := mark q st (default [] (m !! d))]> m) n.
Proof.
  intros H Ho Hst Hd. split.
  - intros x. rewrite Hd, lookup_delete_is_Some, (po_held _ _ _ _ _ H). naive_solver.
  - intros x d' q' [Hne Hx]%lookup_delete_Some. pose proof (po_open _ _ _ _ _ H x d' q' Hx) as Hop.
    destruct (decide (d = d')) as [<-|Hnd]; [|by rewrite lookup_insert_ne]. rewrite lookup_insert_eq. cbn.
    rewrite open_at_mark; [done|]. intros ->. apply Hne. by apply (po_once _ _ _ _ _ H o x (d, q)).
  - intros d' q' Hop. assert (∃ x, pos !! x = Some (d', q') ∧ (d', q') ≠ (d, q)) as (x & Hx & Hne).
    + destruct (decide (d = d')) as [<-|Hnd]; [rewrite lookup_insert_eq in Hop|rewrite lookup_insert_ne in Hop by done]; cbn in Hop.
      * destruct (decide (q' = q)) as [->|Hq]; [by rewrite open_at_settled in Hop|]. rewrite open_at_mark in Hop by done.
        destruct (po_back _ _ _ _ _ H d q' Hop) as [x ?]. exists x. split; [done|congruence].
      * destruct (po_back _ _ _ _ _ H d' q' Hop) as [x ?]. exists x. split; [done|congruence].
    + exists x. apply lookup_delete_Some. split; [|done]. intros <-. rewrite Ho in Hx. by injection Hx as -> ->.
  - intros x y z [_ Hx]%lookup_delete_Some [_ Hy]%lookup_delete_Some. by apply (po_once _ _ _ _ _ H x y z).
  - apply H.
  - intros d' e. destruct (decide (d = d')) as [<-|Hnd]; [|rewrite lookup_insert_ne by done; apply H].
    rewrite lookup_insert_eq. cbn. intros He. apply (list_elem_of_fmap_2 fst) in He. rewrite mark_keys in He.
    apply list_elem_of_fmap in He as (e' & -> & He'). by apply (po_ledger _ _ _ _ _ H).
Qed.

Definition settles (settle_at : Publisher → Z → Z → option CompletionStamp → option (list Release * Publisher))
    (st : option CompletionStamp → status) : Prop :=
  ∀ pub m d q c, is_open (q, st c) = false ∧ (publishes pub m →
    stepped (match settle_at pub d q c with Some (l, pub) => Some (PReleases l, pub) | None => None end) (settle m d q (st c))).
Lemma complete_settles : settles pub_complete SDone.
Proof. intros pub m d q c. split; [done|]. intros H. apply (complete_agrees pub m d q c H). Qed.
Lemma withdraw_settles : settles (λ p d q _, pub_withdraw p d q) (λ _, SGone).
Proof. intros pub m d q c. split; [done|]. intros H. apply (withdraw_agrees pub m d q H). Qed.
Lemma settles_open settle_at st pub m d q c : settles settle_at st → publishes pub m → open_at (default [] (m !! d)) q = true →
  ∃ out pub', settle_at pub d q c = Some (out, pub') ∧ publishes pub' (<[d := mark q (st c) (default [] (m !! d))]> m).
Proof.
  intros Hs Hp Ho. apply (Hs pub m d q c) in Hp as Hst. clear Hs. rename Hst into Hs. unfold settle in Hs. rewrite Ho in Hs.
  destruct (settle_at pub d q c) as [[out pub']|]; [|done]. destruct Hs as [_ ?]. eauto.
Qed.

Lemma leave_joined n tr s p m o settle_at st : settles settle_at st → joined n tr s p m → is_Some (tasks p !! o) →
  ∃ out s' p' m', leave s o settle_at = Some (out, s') ∧ joined n (tr ++ [ELeave o]) s' p' m' ∧
    ss_position s' = base.delete o (ss_position s).
Proof.
  intros Hs H [t Et]. destruct (proj2 (ag_dom _ _ _ (jn_sched _ _ _ _ _ H) o)) as [q0 Hq0]; [eauto|].
  destruct (sched_complete_agrees _ _ _ o q0 t (jn_sched _ _ _ _ _ H) Hq0 Et) as (sched & Ec & Ha).
  destruct (graph_retire_ok (ss_graph s) o (jn_graph _ _ _ _ _ H)) as (g & Eg & Hg & Hlive & _ & Hold).
  destruct (proj2 (po_held _ _ _ _ _ (jn_pos _ _ _ _ _ H) o)) as [[d q] Hpos]; [eauto|].
  destruct (settles_open settle_at st (ss_publisher s) m d q (t_completion t) Hs (jn_pub _ _ _ _ _ H)) as (out & pub & Ep & Hp).
  { by apply (po_open _ _ _ _ _ (jn_pos _ _ _ _ _ H) o). }
  unfold leave. rewrite Ec, Eg, Hpos, Ep.
  destruct (publish_joined _ (tr ++ [ELeave o]) (ss_next_ingress s) out sched _ Ha) as (p' & Ha' & Ht' & Hd).
  { apply told_leave; [apply H|eauto]. }
  assert (∀ x, is_Some (tasks p' !! x) ↔ x ≠ o ∧ is_Some (tasks p !! x)) as Hd'.
  { intros x. rewrite Hd. cbn. rewrite lookup_fmap, fmap_is_Some, lookup_delete_is_Some. naive_solver. }
  do 4 eexists. split; [done|]. split; [|done].
  split; try done; cbn.
  - intros e (e0 & ? & <-)%Hold. by apply (jn_old _ _ _ _ _ H).
  - intros x a. rewrite Hlive, list_elem_of_filter, (jn_live _ _ _ _ _ H), Hd'. cbn.
    setoid_rewrite quiet_admit; [tauto|by intros e ->%list_elem_of_singleton].
  - apply H.
  - apply H.
  - eapply positioned_leave; [apply H|done| |done]. apply (Hs (ss_publisher s) m d q).
Qed.
Lemma leave_absent n tr s p m o settle_at : joined n tr s p m → tasks p !! o = None → leave s o settle_at = None.
Proof. intros H Ht. unfold leave. by rewrite (complete_absent _ _ _ _ (jn_sched _ _ _ _ _ H) Ht). Qed.

Lemma withdraw_all_joined n l : ∀ tr s p m, joined n tr s p m → NoDup l → (∀ o, o ∈ l → is_Some (ss_position s !! o)) →
  ∃ out s' p' m', withdraw_all s l = Some (out, s') ∧ joined n (tr ++ (ELeave <$> l)) s' p' m' ∧
    ∀ o, is_Some (ss_position s' !! o) ↔ is_Some (ss_position s !! o) ∧ o ∉ l.
Proof.
  induction l as [|o l IH]; intros tr s p m H Hnd Hl; cbn.
  { rewrite app_nil_r. do 4 eexists. split; [done|]. split; [done|]. intros x. pose proof (not_elem_of_nil x). tauto. }
  apply NoDup_cons in Hnd as [Ho Hnd].
  destruct (leave_joined n tr s p m o _ _ withdraw_settles H) as (out & s1 & p1 & m1 & E1 & H1 & Epos).
  { apply (po_held _ _ _ _ _ (jn_pos _ _ _ _ _ H)), Hl. left. }
  unfold session_withdraw. rewrite E1.
  destruct (IH _ s1 p1 m1 H1 Hnd) as (more & s2 & p2 & m2 & E2 & H2 & Hpos).
  { intros x Hx. rewrite Epos. apply lookup_delete_is_Some. split; [set_solver|]. apply Hl. by right. }
  rewrite E2. do 4 eexists. split; [done|]. rewrite cons_middle, app_assoc. split; [done|].
  intros x. rewrite Hpos, Epos, lookup_delete_is_Some. set_solver.
Qed.
Lemma lost_joined n tr s p m : joined n tr s p m → ∃ d s' p' m',
  session_device_lost s = Some (d, s') ∧ joined n (tr ++ (ELeave <$> dl_stranded d)) s' p' m' ∧ ss_position s' = ∅.
Proof.
  intros H. unfold session_device_lost. set (s0 := s <| ss_device := Lost |>).
  assert (joined n tr s0 p m) as H0. { rewrite <- (app_nil_r tr). eapply joined_still; try done. apply H. }
  set (l := ascending (dom (ss_position s0))).
  destruct (withdraw_all_joined n l tr s0 p m H0) as (out & s1 & p1 & m1 & -> & H1 & Hpos).
  { apply ascending_nodup. }
  { intros o Ho%ascending_in. by apply elem_of_dom. }
  pose proof (lost_ok _ (jn_table _ _ _ _ _ H1)) as Ht. destruct (pl_device_lost (ss_pipelines s1)) as [rebuild t] eqn:Et.
  do 4 eexists. split; [done|]. cbn [dl_stranded]. split.
  - rewrite <- (app_nil_r (tr ++ _)). eapply joined_still; done.
  - apply map_eq. intros o. rewrite lookup_empty. apply eq_None_not_Some. cbn. rewrite Hpos. intros [Hs Hn]. apply Hn.
    unfold l. by rewrite ascending_in, elem_of_dom.
Qed.

(** *** Channels *)
Lemma free_joined n tr s p m domain : joined n tr s p m → ∃ m', joined n tr (retire_channel s domain).2 p m'.
Proof.
  intros H. unfold retire_channel.
  assert (∀ s', ss_next_ingress s' = ss_next_ingress s → ss_graph s' = ss_graph s → ss_publisher s' = ss_publisher s →
    ss_position s' = ss_position s → ss_sequence s' = ss_sequence s → ss_pipelines s' = ss_pipelines s →
    ss_scheduler s' = ss_scheduler s → joined n tr s' p m) as Hstill.
  { intros s' ? ? ? ? ? E ?. rewrite <- (app_nil_r tr). eapply joined_still; try done. rewrite E. apply H. }
  destruct (domain =? ROOT); [exists m; by apply Hstill|]. case_decide as Hin; [|exists m; by apply Hstill].
  pose proof (retire_agrees (ss_publisher s) m domain (jn_pub _ _ _ _ _ H)) as Hr. cbn -[pub_retire] in Hr.
  destruct (pub_retire (ss_publisher s) domain) as [[[]|owed] pub] eqn:Ep; destruct (all_settled _) eqn:Es; cbn in Hr; destruct Hr as [Er Hp]; try done.
  - exists (base.delete domain m). split; cbn; try apply H; try done. pose proof (jn_pos _ _ _ _ _ H) as Hpos. split; try apply Hpos.
    + intros o d q Ho. pose proof (po_open _ _ _ _ _ Hpos o d q Ho) as Hop. destruct (decide (domain = d)) as [<-|Hne]; [|by rewrite lookup_delete_ne].
      exfalso. unfold all_settled in Es. unfold open_at in Hop. apply existsb_exists in Hop as (e & He & [_ Hoe]%andb_true_iff).
      rewrite forallb_forall in Es. specialize (Es e He). by rewrite Hoe in Es.
    + intros d q. destruct (decide (domain = d)) as [<-|Hne]; [by rewrite lookup_delete_eq|]. rewrite lookup_delete_ne by done. apply Hpos.
    + intros d. destruct (decide (domain = d)) as [<-|Hne]; [rewrite lookup_delete_eq|rewrite lookup_delete_ne by done; apply Hpos].
      cbn. pose proof (po_seq _ _ _ _ _ Hpos domain). lia.
    + intros d e. destruct (decide (domain = d)) as [<-|Hne]; [rewrite !lookup_delete_eq; by intros ?%elem_of_nil|].
      rewrite !lookup_delete_ne by done. apply Hpos.
  - exists m. apply Hstill; try done. cbn. unfold pub_retire in Ep. destruct (0 <? _)%nat; [by injection Ep|done].
Qed.
Lemma control_joined n tr s p m op : joined n tr s p m → ∃ m', joined n tr (apply_control s op).2 p m'.
Proof.
  intros H. destruct op as [[] domain|k|k]; [| |by exists m..].
  - exists m. cbn. unfold open_channel. rewrite <- (app_nil_r tr). case_decide; eapply joined_still; try done; apply H.
  - cbn. destruct (free_joined n tr s p m domain H) as [m' Hm']. exists m'. by destruct (retire_channel s domain) as [[] ?].
Qed.
Lemma compact_joined n tr s p m : joined n tr s p m → joined n tr (session_compact s) p m.
Proof.
  intros H. destruct (graph_compact_ok (ss_graph s) (jn_graph _ _ _ _ _ H)) as (Hg & Hl & _ & He).
  split; cbn -[graph_compact]; try apply H; [done|intros e ?%He; by apply (jn_old _ _ _ _ _ H)|].
  intros x a. rewrite Hl. apply H.
Qed.

(** *** Admission *)
Lemma open_at_snoc (l : ledger) q st q' : q' ≠ q → open_at (l ++ [(q, st)]) q' = open_at l q'.
Proof.
  intros Hne. unfold open_at. rewrite existsb_app. cbn. by rewrite (proj2 (Z.eqb_neq q q')), orb_false_r by done.
Qed.
Lemma open_at_in (l : ledger) q : open_at l q = true → ∃ e, e ∈ l ∧ e.1 = q.
Proof. unfold open_at. intros (e & He%list_elem_of_In & [?%Z.eqb_eq _]%andb_true_iff)%existsb_exists. eauto. Qed.
Lemma positioned_admit pos seq p p' m n o d q : positioned pos seq p m n → pos !! o = None →
  q = default 0 (seq !! d) + 1 → (∀ x, is_Some (tasks p' !! x) ↔ x = o ∨ is_Some (tasks p !! x)) →
  positioned (<[o := (d, q)]> pos) (<[d := q]> seq) p' (<[d := default [] (m !! d) ++ [(q, SOpen)]]> m) (n + 1).
Proof.
  intros H Ho Hq Hd. pose proof (po_seq _ _ _ _ _ H d) as Hsd.
  assert (∀ x q', pos !! x = Some (d, q') → q' < q) as Hlt.
  { intros x q' Hx. destruct (open_at_in _ _ (po_open _ _ _ _ _ H x d q' Hx)) as (e & He & <-).
    pose proof (po_ledger _ _ _ _ _ H d e He). lia. }
  split.
  - intros x. rewrite Hd, lookup_insert_is_Some', (po_held _ _ _ _ _ H). naive_solver.
  - intros x d' q' [[<- [= <- <-]]|[Hne Hx]]%lookup_insert_Some.
    + rewrite lookup_insert_eq. unfold open_at. cbn. rewrite existsb_app. cbn. by rewrite Z.eqb_refl, orb_true_r.
    + destruct (decide (d = d')) as [<-|Hnd]; [|rewrite lookup_insert_ne by done; by apply (po_open _ _ _ _ _ H x)].
      rewrite lookup_insert_eq. cbn. specialize (Hlt x q' Hx). rewrite open_at_snoc by lia. by apply (po_open _ _ _ _ _ H x).
  - intros d' q' Hop. destruct (decide ((d', q') = (d, q))) as [[= -> ->]|Hne]; [exists o; apply lookup_insert_eq|].
    assert (open_at (default [] (m !! d')) q' = true) as (x & Hx)%(po_back _ _ _ _ _ H).
    { destruct (decide (d = d')) as [<-|Hnd]; [|by rewrite lookup_insert_ne in Hop]. rewrite lookup_insert_eq in Hop. cbn in Hop.
      rewrite open_at_snoc in Hop; [done|congruence]. }
    exists x. rewrite lookup_insert_ne; [done|congruence].
  - intros x y z [[<- <-]|[? Hx]]%lookup_insert_Some [[<- E]|[? Hy]]%lookup_insert_Some; try done.
    + specialize (Hlt y q Hy). lia.
    + subst z. specialize (Hlt x q Hx). lia.
    + by apply (po_once _ _ _ _ _ H x y z).
  - intros d'. destruct (decide (d = d')) as [<-|Hnd]; [rewrite lookup_insert_eq; cbn; lia|].
    rewrite lookup_insert_ne by done. pose proof (po_seq _ _ _ _ _ H d'). lia.
  - intros d' e. destruct (decide (d = d')) as [<-|Hnd]; [|rewrite !lookup_insert_ne by done; apply H].
    rewrite !lookup_insert_eq. cbn. intros [He| ->%list_elem_of_singleton]%elem_of_app; [|done].
    pose proof (po_ledger _ _ _ _ _ H d e He). lia.
Qed.

(** The hazards the graph finds are the transactions in flight that the new one clashes with. *)
Lemma hazards_clash n tr s p m tx pipes (waits : list Z) : joined n tr s p m → ingress tx = ss_next_ingress s →
  (∀ x, x ∈ waits ↔ ∃ b a, (x, b) ∈ live_of (ss_graph s) ∧ a ∈ accesses_of tx ∧ requires_edge b a = true) →
  ∀ a, is_Some (tasks p !! a) → a ∈ waits ↔ clash (tr ++ [EAdmit tx pipes]) a (ingress tx).
Proof.
  intros H En Hw a Ha. rewrite Hw. pose proof (jn_told _ _ _ _ _ H) as Ht. rewrite <- En in Ht.
  destruct (told_new tr p tx Ht) as (Hn & _ & Hnone & _). split.
  - intros (b & y & (_ & t1 & p1 & ? & ? & ?)%(jn_live _ _ _ _ _ H) & ? & ?). exists t1, p1, tx, pipes, b, y.
    rewrite !elem_of_app. split_and!; try done; [by left|right; left].
  - intros (t1 & p1 & t2 & p2 & x & y & H1 & H2 & E1 & E2 & ? & Hy & ?). exists x, y.
    apply elem_of_app in H1 as [H1|H1%list_elem_of_singleton]; [|injection H1 as -> ->; congruence || (rewrite <- E1, Hnone in Ha; by destruct Ha)].
    apply elem_of_app in H2 as [H2|H2%list_elem_of_singleton]; [by destruct (Hn t2 p2)|]. injection H2 as -> ->.
    split_and!; try done. apply (jn_live _ _ _ _ _ H). split; [done|]. by exists t1, p1.
Qed.

Lemma place_publishes pos seq p m n pub d : positioned pos seq p m n → publishes pub m →
  let q := default 0 (seq !! d) + 1 in
  ∃ pub', pub_admit pub d q = Some pub' ∧ publishes pub' (<[d := default [] (m !! d) ++ [(q, SOpen)]]> m).
Proof.
  intros Hpos Hp q. pose proof (pub_admit_agrees pub m d q Hp) as Ha. cbn in Ha.
  assert (newer_than (default [] (m !! d)) q = true) as Hnew.
  { unfold newer_than. destruct (last _) as [e|] eqn:E; [|done]. apply last_Some in E as (l' & E).
    pose proof (po_ledger _ _ _ _ _ Hpos d e) as He. rewrite E in He. specialize (He ltac:(apply elem_of_app; right; left)). lia. }
  rewrite Hnew in Ha. destruct (pub_admit pub d q) as [pub'|]; [|done]. destruct Ha as [_ ?]. eauto.
Qed.
Lemma live_accept n tr s p m tx pipes x a : joined n tr s p m → ingress tx = ss_next_ingress s →
  (x, a) ∈ live_of (ss_graph s) ++ ((λ a, (ingress tx, a)) <$> accesses_of tx) ↔
  (x = ingress tx ∨ is_Some (tasks p !! x)) ∧ ∃ t ps, EAdmit t ps ∈ tr ++ [EAdmit tx pipes] ∧ ingress t = x ∧ a ∈ accesses_of t.
Proof.
  intros H En. pose proof (jn_told _ _ _ _ _ H) as Ht. rewrite <- En in Ht. destruct (told_new tr p tx Ht) as (Hn & _ & Hnone & _).
  rewrite elem_of_app, (jn_live _ _ _ _ _ H), list_elem_of_fmap. setoid_rewrite elem_of_app. setoid_rewrite list_elem_of_singleton. split.
  - intros [(Hx & t & ps & Hi & E & Hin)|(a' & [= -> ->] & Hin)]; [split; [by right|]; exists t, ps; auto|].
    split; [by left|]. exists tx, pipes. auto.
  - intros (Hx & t & ps & [Hi|Hi] & E & Hin); [left|right].
    + split; [|by exists t, ps]. destruct Hx as [Hx|?]; [|done]. destruct (Hn t ps Hi). congruence.
    + injection Hi as -> ->. exists a. by rewrite E.
Qed.
Lemma place_joined n tr s p m packet pipes : joined n tr s p m → n + 2 ≤ UINT64_MAX → ∃ a s' p' m',
  place s packet pipes = Some (inl a, s') ∧ joined (n + 1) (tr ++ [EAdmit (ad_transaction a) pipes]) s' p' m'.
Proof.
  intros H Hn. pose proof (jn_next _ _ _ _ _ H) as Hnext. pose proof (jn_pos _ _ _ _ _ H) as Hpos.
  set (d := pk_domain packet). set (q := default 0 (ss_sequence s !! d) + 1). set (o := ss_next_ingress s) in *.
  pose proof (po_seq _ _ _ _ _ Hpos d) as Hseq. assert (∀ z, 0 ≤ z ≤ 1 + n → counter_next z = z + 1) as Hc.
  { intros z Hz. apply u64_small. unfold is_u64, UINT64_MAX in *. lia. }
  destruct (place_publishes _ _ _ _ _ (ss_publisher s) d Hpos (jn_pub _ _ _ _ _ H)) as (pub & Ep & Hp). fold q in Ep, Hp.
  set (accs := payload_accesses (pk_payload packet)).
  destruct (graph_admit_ok (ss_graph s) o accs (jn_graph _ _ _ _ _ H) (jn_old _ _ _ _ _ H)) as (w & g & Eg & Hg & Hlive & Hold & _ & _ & Hw).
  set (tx := mkTransaction (mkIdentity (ss_generation s) d q o) (pk_stamp_waits packet) (pk_completion packet) (pk_payload packet)).
  destruct (told_new tr p tx (jn_told _ _ _ _ _ H)) as (Hfresh & _ & Hnone & _). change (ingress tx) with o in Hnone, Hfresh.
  pose proof (hazards_clash n tr s p m tx pipes w H eq_refl Hw) as Hz.
  destruct (sched_admit_agrees (o - 1) (ss_scheduler s) p o w (pk_stamp_waits packet) pipes (pk_completion packet) (jn_sched _ _ _ _ _ H)) as [Ha _]; [lia|].
  pose proof (told_accept tr p tx pipes w (pk_completion packet) (jn_told _ _ _ _ _ H)) as Ht.
  set (p' := plain_admit p o w (pk_stamp_waits packet) pipes (pk_completion packet)) in *.
  assert (∀ x, is_Some (tasks p' !! x) ↔ x = o ∨ is_Some (tasks p !! x)) as Hd.
  { intros x. cbn. rewrite lookup_insert_is_Some'. naive_solver. }
  unfold place. fold d o accs. rewrite (Hc (default 0 (ss_sequence s !! d))) by lia. fold q. rewrite Ep, Eg, (Hc o) by lia.
  destruct (sched_admit (ss_scheduler s) o w (pk_stamp_waits packet) pipes (pk_completion packet)) as [now sched]. cbn [snd] in Ha.
  do 2 eexists. exists p', (<[d := default [] (m !! d) ++ [(q, SOpen)]]> m). split; [done|]. cbn [ad_transaction]. fold tx.
  split; cbn [ss_next_ingress ss_scheduler ss_graph ss_publisher ss_pipelines ss_position ss_sequence]; try done.
  - by replace (o + 1 - 1) with o by lia.
  - intros e [He|He]%Hold; [pose proof (jn_old _ _ _ _ _ H e He)|]; unfold o in *; lia.
  - intros x a. rewrite Hlive, Hd. by apply (live_accept n tr s p m tx pipes x a H).
  - apply H.
  - lia.
  - apply (positioned_admit _ _ p); try done. apply eq_None_not_Some. rewrite (po_held _ _ _ _ _ Hpos), Hnone. by intros [].
  - apply Ht; [apply Hnext|apply (jn_sched _ _ _ _ _ H)|done].
Qed.
Lemma refused_joined {R T} n tr s p m (r : R) : joined n tr s p m →
  ∃ s', @refused T R s r = Some (inr r, s') ∧ joined n tr s' p m.
Proof.
  intros H. eexists. split; [done|]. rewrite <- (app_nil_r tr). eapply joined_still; try done. apply H.
Qed.
Lemma pipelines_joined n tr s p m t : joined n tr s p m → table_ok t → joined n tr (s <| ss_pipelines := t |>) p m.
Proof. intros H Ht. rewrite <- (app_nil_r tr). by eapply joined_still. Qed.
Lemma pipeline_waits_total s payload : table_ok (ss_pipelines s) →
  ∃ r t, pipeline_waits_of s payload = Some (r, t) ∧ table_ok t.
Proof.
  intros H. unfold pipeline_waits_of. destruct (payload_exec payload) as [leases|]; [|eauto].
  destruct (waits_for_ok (ss_pipelines s) leases (ss_generation s) H) as (t & -> & Hc & Eu & Ep & _).
  do 2 eexists. split; [done|]. apply table_ok_cells. apply table_ok_cells in H as [H1 H2]. split; [intros id; by rewrite Hc|].
  intros id. rewrite Eu, Ep. apply H2.
Qed.
Lemma admit_joined n tr s p m packet : joined n tr s p m → n + 2 ≤ UINT64_MAX → ∃ r s',
  session_admit s packet = Some (r, s') ∧
  match r with
  | inl a => ∃ p' m', joined (n + 1) (tr ++ [EAdmit (ad_transaction a) (building s (pk_payload packet))]) s' p' m'
  | inr _ => joined n tr s' p m
  end.
Proof.
  intros H Hn. unfold session_admit.
  assert (∀ r : Refusal, ∃ r' s', refused s r = Some (r', s') ∧ match r' with
    | inl a => ∃ p' m', joined (n + 1) (tr ++ [EAdmit (ad_transaction a) (building s (pk_payload packet))]) s' p' m'
    | inr _ => joined n tr s' p m end) as Href.
  { intros r. destruct (refused_joined (T := Admission) n tr s p m r H) as (s' & -> & ?). by exists (inr r), s'. }
  case_decide; [done|]. destruct (negb (pk_session packet =? ss_generation s)); [done|].
  pose proof (classify_judged (pk_channel packet) (pk_opcode packet)) as Hj.
  destruct (find (pk_channel packet) (pk_opcode packet)) as [judged|]; [|done].
  destruct (classify (pk_channel packet) (pk_opcode packet)) as [class|].
  2: { destruct (row_closure judged) eqn:Ec; cbn; try done; exfalso; by destruct (proj2 Hj) as [? [=]]; exists judged; rewrite Ec. }
  destruct (negb (bool_decide (payload_class _ = _))); [done|]. destruct (negb (bool_decide (pk_domain packet ∈ ss_open s))); [done|].
  unfold building. destruct (pipeline_waits_total s (pk_payload packet) (jn_table _ _ _ _ _ H)) as (r & t & -> & Ht).
  pose proof (pipelines_joined _ _ _ _ _ t H Ht) as Hs. destruct r as [pipes|r].
  - destruct (place_joined _ _ _ _ _ packet pipes Hs Hn) as (a & s' & p' & m' & -> & ?). exists (inl a), s'. split; [done|]. by exists p', m'.
  - destruct (refused_joined (T := Admission) _ _ _ _ _ (PipelineUnusable r) Hs) as (s' & -> & ?). by exists (inr (PipelineUnusable r)), s'.
Qed.

(** ** Runs *)

(** The calls that panic: completing on the current device, or withdrawing, what is not in
    flight. *)
Definition misuse (tr : list event) (s : SessionModel) (c : session_call) : Prop :=
  match c with
  | SComplete epoch o => epoch = ss_epoch s ∧ ss_device s = Live ∧ ¬ in_flight tr o
  | SWithdraw o => ¬ in_flight tr o
  | _ => False
  end.
Lemma step_joined n tr s p m c : joined n tr s p m → n + 2 ≤ UINT64_MAX →
  match session_step s c with
  | Some (evs, s') => ¬ misuse tr s c ∧ ∃ p' m', joined (n + 1) (tr ++ evs) s' p' m'
  | None => misuse tr s c
  end.
Proof.
  intros H Hn. pose proof (jn_table _ _ _ _ _ H) as Htab. pose proof (joined_more n (n + 1)) as Hm.
  assert (∀ s' p' m' tr', joined n tr' s' p' m' → ∃ p' m', joined (n + 1) tr' s' p' m') as Hm'.
  { intros s' p' m' tr' H'. exists p', m'. apply Hm; [done|lia]. }
  assert (∀ s' p', joined n tr s' p' m → ∃ p' m', joined (n + 1) (tr ++ []) s' p' m') as Hm0.
  { intros s' p' H'. rewrite app_nil_r. eauto. }
  destruct c as [packet|epoch o|o| | | | | |op|id|id reason|id|op|stamp| ]; cbn [session_step misuse].
  - destruct (admit_joined n tr s p m packet H Hn) as ([a|r] & s' & -> & Hr); (split; [tauto|]); [exact Hr|eauto].
  - unfold session_complete. destruct (Z.eqb_spec epoch (ss_epoch s)) as [E|E]; cbn [negb orb]; [|split; [tauto|eauto]].
    case_bool_decide as El; [split; [intros (_ & ? & _); congruence|eauto]|].
    destruct (tasks p !! o) as [t|] eqn:Et.
    + destruct (leave_joined n tr s p m o _ _ complete_settles H) as (out & s' & p' & m' & -> & ? & _); [eauto|].
      split; [|eauto]. intros (_ & _ & Hf). apply Hf, (td_tasks _ _ _ (jn_told _ _ _ _ _ H)). eauto.
    + rewrite (leave_absent n tr s p m o _ H Et). split_and!; [done|by destruct (ss_device s)|].
      rewrite <- (td_tasks _ _ _ (jn_told _ _ _ _ _ H)), Et. by intros [].
  - unfold session_withdraw. destruct (tasks p !! o) as [t|] eqn:Et.
    + destruct (leave_joined n tr s p m o _ _ withdraw_settles H) as (out & s' & p' & m' & -> & ? & _); [eauto|].
      split; [|eauto]. intros Hf. apply Hf, (td_tasks _ _ _ (jn_told _ _ _ _ _ H)). eauto.
    + rewrite (leave_absent n tr s p m o _ H Et). rewrite <- (td_tasks _ _ _ (jn_told _ _ _ _ _ H)), Et. by intros [].
  - destruct (take_joined n tr s p m H) as [p' Hp']. destruct (session_take_ready s). split; [tauto|eauto].
  - destruct (reset_joined n tr s p m H) as [p' Hp']. destruct (session_reset s). split; [tauto|eauto].
  - destruct (lost_joined n tr s p m H) as (d & s' & p' & m' & -> & ? & _). split; [tauto|eauto].
  - split; [tauto|]. apply (Hm0 _ p). unfold recreate_device. case_decide; [done|]. rewrite <- (app_nil_r tr). by eapply joined_still.
  - split; [tauto|]. apply (Hm0 _ p). rewrite <- (app_nil_r tr). by eapply joined_still.
  - split; [tauto|]. destruct (control_joined n tr s p m op H) as [m' ?]. rewrite app_nil_r. eauto.
  - destruct (built_joined n tr s p m id H) as [p' Hp']. destruct (session_pipeline_ready s id). split; [tauto|eauto].
  - destruct (ended_joined n tr s p m id (refuse (ss_pipelines s) id reason) H) as [p' Hp']; [by apply refuse_ok|].
    unfold session_pipeline_refused. destruct (ended s id _). split; [tauto|eauto].
  - destruct (ended_joined n tr s p m id (retire (ss_pipelines s) id) H) as [p' Hp']; [by apply advance_ok|].
    unfold session_pipeline_retired. destruct (ended s id _). split; [tauto|eauto].
  - destruct (table_step_ok (ss_pipelines s) op Htab) as (t & -> & Ht). split; [tauto|]. apply (Hm0 _ p). by apply pipelines_joined.
  - split; [tauto|]. apply (Hm0 _ (plain_publish p stamp)). rewrite <- (app_nil_r tr). eapply joined_keep; try done.
    + apply sched_publish_agrees, H.
    + intros o. cbn. by rewrite lookup_fmap, fmap_is_Some.
    + by intros e ?%elem_of_nil.
    + rewrite app_nil_r. apply told_publish, H.
  - split; [tauto|]. apply (Hm0 _ p). by apply compact_joined.
Qed.
Lemma run_joined cs : ∀ n tr s p m tr' s', joined n tr s p m → n + Z.of_nat (length cs) < UINT64_MAX →
  session_run s cs = Some (tr', s') → ∃ p' m', joined (n + Z.of_nat (length cs)) (tr ++ tr') s' p' m'.
Proof.
  induction cs as [|c cs IH]; intros n tr s p m tr' s' H Hn; cbn [session_run length].
  { intros [= <- <-]. exists p, m. rewrite app_nil_r. by rewrite Z.add_0_r. }
  pose proof (step_joined n tr s p m c H) as Hs. cbn [length] in Hn. destruct (session_step s c) as [[evs s1]|]; [|done].
  destruct Hs as (_ & p1 & m1 & H1); [lia|]. destruct (session_run s1 cs) as [[more s2]|] eqn:E; [|done]. intros [= <- <-].
  destruct (IH (n + 1) (tr ++ evs) s1 p1 m1 more s2 H1) as (p' & m' & H'); [lia|done|]. exists p', m'.
  rewrite app_assoc. by replace (n + Z.of_nat (S (length cs))) with (n + 1 + Z.of_nat (length cs)) by lia.
Qed.
Lemma new_run cs tr s : Z.of_nat (length cs) < UINT64_MAX → session_run session_new cs = Some (tr, s) →
  ∃ p m, joined (Z.of_nat (length cs)) tr s p m.
Proof. intros Hn Hr. by destruct (run_joined cs 0 [] _ _ _ tr s new_joined Hn Hr) as (p & m & H); eauto. Qed.

(** Two accesses to a common byte, one of them writing, clash. *)
Lemma common_byte_clash (heap_of : Z → option Z) t1 t2 tr txa pa txb pb x y b i :
  image t1 → image t2 → EAdmit txa pa ∈ tr → EAdmit txb pb ∈ tr → x ∈ accesses_of txa → y ∈ accesses_of txb →
  domain x = domain y → writes (mode x) || writes (mode y) = true →
  honest heap_of (key x) → honest heap_of (key y) → names heap_of t1 (key x) b i → names heap_of t2 (key y) b i →
  clash tr (ingress txa) (ingress txb) ∨ placed_apart t1 t2 (key x) (key y) i.
Proof.
  intros I1 I2 Ha Hb Hx Hy Ed Hw Hhx Hhy Hnx Hny.
  destruct (common_byte_aliases heap_of t1 t2 _ _ b i I1 I2 Hhx Hhy Hnx Hny) as [Hal|Hap]; [left|by right].
  exists txa, pa, txb, pb, x, y. split_and!; try done. unfold requires_edge. by rewrite Ed, Z.eqb_refl, <- negb_orb, Hw.
Qed.

(** C3: Conflicting work of one channel never overlaps and is never reordered.  In every run of
    a session from its start, through any packets, completions, withdrawals, resets, device
    losses, channel and pipeline calls, a transaction is handed out at most once, while it is in
    flight.  It is handed out only after each transaction accepted before it that conflicts
    with it on the same channel has completed or been withdrawn: one with an access to a byte it
    touches too, one of the two writing.  This holds for any layout of the images and any
    assignment of backings to heaps the keys carry, and whichever form each access takes, but for
    two subresource accesses through different images that place the byte apart. *)
Theorem conflicting_work_ordered (heap_of : Z → option Z) (cs : list session_call) tr s :
  Z.of_nat (length cs) < UINT64_MAX → session_run session_new cs = Some (tr, s) →
  ∀ tr1 b tr2, tr = tr1 ++ EHand b :: tr2 →
    in_flight tr1 b ∧ (EHand b ∉ tr1) ∧
    ∀ txa pa txb pb x y t1 t2 bk i, EAdmit txa pa ∈ tr1 → EAdmit txb pb ∈ tr1 → ingress txa < ingress txb → ingress txb = b →
      x ∈ accesses_of txa → y ∈ accesses_of txb → domain x = domain y → writes (mode x) || writes (mode y) = true →
      image t1 → image t2 → honest heap_of (key x) → honest heap_of (key y) →
      names heap_of t1 (key x) bk i → names heap_of t2 (key y) bk i →
      ELeave (ingress txa) ∈ tr1 ∨ placed_apart t1 t2 (key x) (key y) i.
Proof.
  intros Hn Hr tr1 b tr2 E. destruct (new_run cs tr s Hn Hr) as (p & m & H).
  destruct (td_ordered _ _ _ (jn_told _ _ _ _ _ H) tr1 b tr2 E) as (Hf & Hh & Hc). split_and!; [done..|].
  intros txa pa txb pb x y t1 t2 bk i Ha Hb Hlt <- Hx Hy Ed Hw I1 I2 Hhx Hhy Hnx Hny.
  destruct (common_byte_clash heap_of t1 t2 tr1 txa pa txb pb x y bk i) as [Hcl|]; [done..| |by right]. left. by apply Hc.
Qed.

(** A writer of a buffer and a reader of the same buffer on channel 1. *)
Definition demo_exec (leases : list ResourceId) (accs : list AccessIntent) (waits : list StampWait) (c : option CompletionStamp) : Packet :=
  mkPacket Child 1 1 0x37 waits c (PlExec leases accs).
Definition demo_calls : list session_call :=
  [SControl (OpChannel TOpen 1); SAdmit (demo_exec [] [demo_access 5 Write] [] (Some (mkStamp 7 1)));
   SAdmit (demo_exec [] [demo_access 5 Read] [] None); STakeReady; SComplete 1 1; STakeReady].
Definition demo_tx (o : Z) (m : AccessMode) (c : option CompletionStamp) : DeviceTransaction :=
  mkTransaction (mkIdentity 1 1 o o) [] c (PlExec [] [demo_access 5 m]).
Definition demo_trace : list event :=
  [EAdmit (demo_tx 1 Write (Some (mkStamp 7 1))) []; EAdmit (demo_tx 2 Read None) []; EHand 1; ELeave 1; EHand 2].
Lemma conflicting_work_ordered_witness :
  ∃ s, session_run session_new demo_calls = Some (demo_trace, s) ∧ ELeave 1 ∈ take 4 demo_trace.
Proof.
  eexists. assert (session_run session_new demo_calls = Some (demo_trace, _)) as Hr by (vm_compute; reflexivity). split; [exact Hr|].
  destruct (conflicting_work_ordered (λ _, None) demo_calls demo_trace _ ltac:(unfold UINT64_MAX; cbn; lia) Hr
    (take 4 demo_trace) 2 [] eq_refl) as (_ & _ & H).
  destruct (H (demo_tx 1 Write (Some (mkStamp 7 1))) [] (demo_tx 2 Read None) [] (demo_access 5 Write) (demo_access 5 Read) demo_texel demo_texel 5 0)
    as [Hl|(r1 & u & r2 & v & E & _)]; [..|exact Hl|discriminate E];
    first [exact demo_image|reflexivity|repeat first [left; reflexivity|right]].
Defined.

(** C5: The session panics only when misused.  After any run from the start, a call panics
    exactly when it completes, on the live device, or withdraws a transaction that is not in
    flight: the services never lose track of one another, so no assertion, index, counter or
    lookup inside them fails, whatever packets the guest sent. *)
Theorem session_panics_exactly (cs : list session_call) tr s c :
  Z.of_nat (length cs) + 1 < UINT64_MAX → session_run session_new cs = Some (tr, s) →
  session_step s c = None ↔ misuse tr s c.
Proof.
  intros Hn Hr. destruct (new_run cs tr s ltac:(lia) Hr) as (p & m & H).
  pose proof (step_joined _ tr s p m c H ltac:(lia)) as Hs. destruct (session_step s c) as [[evs s']|]; [|tauto].
  split; [done|]. intros Hm. tauto.
Qed.
Lemma session_panics_exactly_witness :
  ∃ s, session_run session_new demo_calls = Some (demo_trace, s) ∧ session_step s (SWithdraw 1) = None ∧ session_step s (SWithdraw 2) ≠ None.
Proof.
  eexists. assert (session_run session_new demo_calls = Some (demo_trace, _)) as Hr by (vm_compute; reflexivity). split; [exact Hr|]. split.
  - apply (session_panics_exactly demo_calls demo_trace _ (SWithdraw 1) ltac:(unfold UINT64_MAX; cbn; lia) Hr).
    intros [_ Hn]. apply Hn. repeat first [left; reflexivity|right].
  - rewrite (session_panics_exactly demo_calls demo_trace _ (SWithdraw 2) ltac:(unfold UINT64_MAX; cbn; lia) Hr).
    intros Hm. apply Hm. split; [exists (demo_tx 2 Read None), []; split; [right; left|reflexivity]|].
    rewrite leaves_spec. vm_compute. discriminate.
Defined.

(** What keeps a transaction in flight from running: work accepted before it that it clashes
    with, a stamp that has not been published, a pipeline that was being built when it was
    accepted and has not been reported built since, or that it has been reported as never to
    run, for its driver to withdraw. *)
Definition held_back (tr : list event) (s : SessionModel) (o : Z) : Prop :=
  (∃ a, a < o ∧ in_flight tr a ∧ clash tr a o) ∨
  (∃ tx pipes w, EAdmit tx pipes ∈ tr ∧ ingress tx = o ∧ w ∈ tx_stamp_waits tx ∧ is_published (ss_scheduler s) w = false) ∨
  (∃ tr1 tx pipes tr2 id, tr = tr1 ++ EAdmit tx pipes :: tr2 ∧ ingress tx = o ∧ id ∈ pipes ∧ EBuilt id ∉ tr2) ∨
  EStrand o ∈ tr.
Lemma unfree_held_back n tr s p m o t : joined n tr s p m → tasks p !! o = Some t → free t = false → held_back tr s o.
Proof.
  intros H Et Hf. pose proof (jn_told _ _ _ _ _ H) as Ht. unfold free in Hf.
  destruct (t_hazards t) as [|a l] eqn:Eh.
  2: { assert (a ∈ t_hazards t) as Hin by (rewrite Eh; left). apply (td_hazards _ _ _ Ht o t a Et) in Hin as (Ha & Hlt & Hc).
       left. exists a. by rewrite <- (td_tasks _ _ _ Ht). }
  destruct (t_stamps t) as [|w l] eqn:Es.
  2: { assert (w ∈ t_stamps t) as Hin by (rewrite Es; left). destruct (td_stamps _ _ _ Ht o t w Et Hin) as (tx & pipes & ? & ? & ?).
       right; left. exists tx, pipes, w. split_and!; try done.
       destruct (proj2 (ag_dom _ _ _ (jn_sched _ _ _ _ _ H) o)) as [q Hq]; [eauto|].
       rewrite <- (to_stamps _ _ (ag_task _ _ _ (jn_sched _ _ _ _ _ H) o q t Hq Et)) in Hin.
       apply (ag_slots _ _ _ (jn_sched _ _ _ _ _ H) o q w Hq Hin). }
  destruct (t_pipes t) as [|id l] eqn:Ep.
  2: { assert (id ∈ t_pipes t) as Hin by (rewrite Ep; left). destruct (td_pipes _ _ _ Ht o t id Et Hin) as (tr1 & tx & pipes & tr2 & ? & ? & ? & ?).
       right; right; left. by exists tr1, tx, pipes, tr2, id. }
  right; right; right. apply (td_stuck _ _ _ Ht o t Et). by destruct (t_stuck t).
Qed.

(** C4: No transaction is forgotten.  After any run, a transaction in flight that has not been
    handed out is handed out by the next call of take_ready, unless something still holds it
    back.  Work holds back only later work, so the oldest transaction in flight never waits
    for another one, and the services cannot deadlock one another. *)
Theorem work_not_forgotten (cs : list session_call) tr s o :
  Z.of_nat (length cs) < UINT64_MAX → session_run session_new cs = Some (tr, s) →
  in_flight tr o → EHand o ∉ tr → o ∈ (session_take_ready s).1 ∨ held_back tr s o.
Proof.
  intros Hn Hr Ho Hh. destruct (new_run cs tr s Hn Hr) as (p & m & H). pose proof (jn_told _ _ _ _ _ H) as Ht.
  apply (td_tasks _ _ _ Ht) in Ho as Hs. destruct Hs as [t Et]. destruct (free t) eqn:Hf; [left|right; by eapply unfree_held_back].
  unfold session_take_ready. destruct (sched_take_ready_agrees _ _ _ (jn_sched _ _ _ _ _ H)) as [El _].
  destruct (sched_take_ready (ss_scheduler s)) as [l sched]. cbn in El |- *. subst l. apply ascending_in, elem_of_difference.
  split; [apply free_tasks_in; eauto|]. rewrite (td_handed _ _ _ Ht); eauto.
Qed.
Lemma work_not_forgotten_witness :
  ∃ tr s, session_run session_new (take 5 demo_calls) = Some (tr, s) ∧ (2 ∈ (session_take_ready s).1 ∨ held_back tr s 2).
Proof.
  do 2 eexists. assert (session_run session_new (take 5 demo_calls) = Some (take 4 demo_trace, _)) as Hr by (vm_compute; reflexivity).
  split; [exact Hr|]. apply (work_not_forgotten (take 5 demo_calls) (take 4 demo_trace) _ 2 ltac:(unfold UINT64_MAX; cbn; lia) Hr).
  - split; [exists (demo_tx 2 Read None), []; split; [right; left|reflexivity]|]. rewrite leaves_spec. vm_compute. discriminate.
  - clear Hr. cbn. rewrite !elem_of_cons. intros [?|[?|[?|[?|?%elem_of_nil]]]]; discriminate || contradiction.
Defined.

Lemma leave_fields s o settle_at out s' : leave s o settle_at = Some (out, s') → ss_device s' = ss_device s ∧ ss_epoch s' = ss_epoch s.
Proof.
  unfold leave. repeat (case_match; try done). by intros [= <- <-].
Qed.
Lemma withdraw_all_fields l : ∀ s out s', withdraw_all s l = Some (out, s') → ss_device s' = ss_device s ∧ ss_epoch s' = ss_epoch s.
Proof.
  induction l as [|o l IH]; intros s out s'; cbn; [by intros [= <- <-]|]. destruct (session_withdraw s o) as [[out1 s1]|] eqn:E1; [|done].
  destruct (withdraw_all s1 l) as [[out2 s2]|] eqn:E2; [|done]. intros [= <- <-]. apply leave_fields in E1 as [<- <-]. by apply (IH _ out2).
Qed.
Lemma lost_fields s d s' : session_device_lost s = Some (d, s') →
  dl_stranded d = ascending (dom (ss_position s)) ∧ ss_device s' = Lost ∧ ss_epoch s' = ss_epoch s.
Proof.
  unfold session_device_lost. destruct (withdraw_all _ _) as [[out s1]|] eqn:E; [|done]. apply withdraw_all_fields in E as [E1 E2].
  destruct (pl_device_lost (ss_pipelines s1)). by intros [= <- <-].
Qed.
Lemma ascending_sorted s : StronglySorted Z.lt (ascending s).
Proof.
  assert (StronglySorted Z.le (ascending s)) as Hs by (apply StronglySorted_merge_sort; apply _). pose proof (ascending_nodup s) as Hn.
  induction Hs as [|x l _ IH Hx]; [constructor|]. apply NoDup_cons in Hn as [Hx' Hn]. constructor; [by apply IH|].
  rewrite Forall_forall in Hx |- *. intros y Hy. specialize (Hx y Hy). assert (x ≠ y) by (intros ->; done). lia.
Qed.

(** C21: Losing the host device strands exactly the transactions in flight, each reported once
    and in order of arrival, and leaves nothing owed: every open channel but the root can be
    freed, a packet is refused until a device is recreated, and a completion that arrives for
    the lost device is refused and changes nothing, both before the device is recreated, when
    its number is still the current one, and after. *)
Theorem device_loss_strands (cs : list session_call) tr s :
  Z.of_nat (length cs) < UINT64_MAX → session_run session_new cs = Some (tr, s) →
  ∃ d s', session_device_lost s = Some (d, s') ∧
    (∀ o, o ∈ dl_stranded d ↔ in_flight tr o) ∧ StronglySorted Z.lt (dl_stranded d) ∧
    (∀ domain, domain ∈ ss_open s' → domain ≠ ROOT → (retire_channel s' domain).1 = inl tt) ∧
    (∀ packet, fst <$> session_admit s' packet = Some (inr (DeviceLost (ss_epoch s)))) ∧
    (∀ epoch o, session_complete s' epoch o = Some (inr (CompletionAfterLoss epoch (ss_epoch s)), s')) ∧
    (ss_epoch s < UINT64_MAX → ∀ o, session_complete (recreate_device s').2 (ss_epoch s) o =
       Some (inr (CompletionAfterLoss (ss_epoch s) (ss_epoch s + 1)), (recreate_device s').2)).
Proof.
  intros Hn Hr. destruct (new_run cs tr s Hn Hr) as (p & m & H). pose proof (jn_told _ _ _ _ _ H) as Ht.
  destruct (lost_joined _ tr s p m H) as (d & s' & p' & m' & E & H' & Epos). exists d, s'. split; [done|].
  assert (dl_stranded d = ascending (dom (ss_position s)) ∧ ss_device s' = Lost ∧ ss_epoch s' = ss_epoch s) as (Ed & El & Ee).
  { by apply lost_fields. }
  split_and!.
  - intros o. rewrite Ed, ascending_in, elem_of_dom, (po_held _ _ _ _ _ (jn_pos _ _ _ _ _ H)). apply Ht.
  - rewrite Ed. apply ascending_sorted.
  - intros domain Hin Hroot. unfold retire_channel. rewrite (proj2 (Z.eqb_neq domain ROOT)), decide_True by done.
    pose proof (retire_agrees _ m' domain (jn_pub _ _ _ _ _ H')) as Hret. cbn -[pub_retire] in Hret.
    assert (all_settled (default [] (m' !! domain)) = true) as Hset.
    { apply forallb_forall. intros [q st] Hq. destruct (is_open (q, st)) eqn:Eo; [|done].
      destruct (po_back _ _ _ _ _ (jn_pos _ _ _ _ _ H') domain q) as [o Ho]; [|by rewrite Epos in Ho].
      apply existsb_exists. exists (q, st). cbn [fst]. by rewrite Z.eqb_refl, Eo. }
    rewrite Hset in Hret. destruct (pub_retire (ss_publisher s') domain) as [r pub]. destruct Hret as [[= ->] _]. done.
  - intros packet. unfold session_admit. rewrite decide_True by done. cbn. by rewrite Ee.
  - intros epoch o. unfold session_complete. by rewrite El, bool_decide_eq_true_2, orb_true_r, Ee.
  - intros Hlt o. unfold recreate_device. rewrite decide_False by congruence. unfold session_complete, saturating_next. cbn.
    rewrite Ee, (proj2 (Z.eqb_neq (ss_epoch s) UINT64_MAX)) by lia. by rewrite (proj2 (Z.eqb_neq (ss_epoch s) (ss_epoch s + 1))) by lia.
Qed.
Lemma device_loss_strands_witness :
  ∃ s d s', session_run session_new (take 4 demo_calls) = Some (take 3 demo_trace, s) ∧ session_device_lost s = Some (d, s') ∧
    dl_stranded d = [1; 2] ∧ (1 ∈ dl_stranded d ↔ in_flight (take 3 demo_trace) 1).
Proof.
  eexists. assert (session_run session_new (take 4 demo_calls) = Some (take 3 demo_trace, _)) as Hr by (vm_compute; reflexivity).
  destruct (device_loss_strands (take 4 demo_calls) (take 3 demo_trace) _ ltac:(unfold UINT64_MAX; cbn; lia) Hr) as (d & s' & E & Hi & _).
  exists d, s'. split; [exact Hr|]. split; [exact E|]. split; [|apply Hi].
  clear Hr Hi. vm_compute in E. injection E as <- _. reflexivity.
Defined.
