(* ===== verification/Namespace.v ===== *)
(** Object names and the storage behind them:
    src/reims-vgpu/crates/reims-vgpu-core/src/namespace.rs.

    A guest names an object by a slot, and accepted work holds claims on the storage a name
    stood for.  Deleting a name, declaring over it or moving it to other storage takes effect
    for new work at once; the storage it left may be torn down when no name stands for it and
    no claim on it is left, and the namespace says when.  Uses are counted at the slot while
    it still stands for what was claimed, and per storage afterwards.  A count that would go
    below zero is a panic, [None]. *)
From S2P Require Import Prelude RangeSet Access Depend Ready.

Inductive NameRefusal :=
  | NotDeclared (slot : Z) | StaleGeneration (slot named current : Z) | NameDeleted (id : ResourceId).
Inductive Teardown := Now (b : Z) | WhenUsesRetire (b : Z) (outstanding : nat) | HeldByAnotherName (b : Z) | NoStorage.
Record Displaced := mkDisplaced { di_id : ResourceId; di_teardown : Teardown }.
Record NameDeclared := mkNameDeclared { nd_id : ResourceId; nd_displaced : option Displaced }.

(** A lease and a claim are values the caller holds: neither can be copied, [acquire] takes the
    lease and [release] the claim. *)
Record NameLease := mkNameLease { le_id : ResourceId; le_backing : option Z }.
Record Claim := mkClaim { cl_id : ResourceId; cl_backing : option Z }.
#[export] Instance Claim_eq_dec : EqDecision Claim.
Proof. solve_decision. Defined.

Record Slot := mkSlot { sl_generation : Z; sl_backing : option Z; sl_deleted : bool; sl_outstanding : nat }.
#[export] Instance eta_slot : Settable Slot := λ s, mkSlot (sl_generation s) (sl_backing s) (sl_deleted s) (sl_outstanding s).
Record Namespace := mkNamespace {
  slots : gmap Z Slot; retiring : gmap Z nat; live_by_backing : gmap Z nat; ns_resolved : nat; ns_refused : nat }.
#[export] Instance eta_namespace : Settable Namespace := λ n,
  mkNamespace (slots n) (retiring n) (live_by_backing n) (ns_resolved n) (ns_refused n).
Definition empty_namespace : Namespace := mkNamespace ∅ ∅ ∅ 0 0.

Definition generation_next (g : Z) : Z := u64 (g + 1).

Definition named_by_a_live_slot (n : Namespace) (b : Z) : bool := bool_decide (is_Some (live_by_backing n !! b)).
Definition enter (n : Namespace) (backing : option Z) : Namespace :=
  match backing with
  | None => n
  | Some b => n <| live_by_backing := <[b := S (default 0%nat (live_by_backing n !! b))]> (live_by_backing n) |>
  end.
Definition depart (n : Namespace) (backing : option Z) : option Namespace :=
  match backing with
  | None => Some n
  | Some b =>
      match live_by_backing n !! b with
      | None => Some n
      | Some O => None
      | Some 1%nat => Some (n <| live_by_backing := base.delete b (live_by_backing n) |>)
      | Some (S k) => Some (n <| live_by_backing := <[b := k]> (live_by_backing n) |>)
      end
  end.
Definition detach (n : Namespace) (backing : option Z) (outstanding : nat) : Teardown * Namespace :=
  match backing with
  | None => (NoStorage, n)
  | Some b =>
      let claims := (default 0 (retiring n !! b) + outstanding)%nat in
      if (0 <? claims)%nat then (WhenUsesRetire b claims, n <| retiring := <[b := claims]> (retiring n) |>)
      else
        let n := n <| retiring := base.delete b (retiring n) |> in
        (if named_by_a_live_slot n b then HeldByAnotherName b else Now b, n)
  end.

Definition ns_declare (n : Namespace) (slot : Z) (backing : option Z) : option (NameDeclared * Namespace) :=
  let existing := slots n !! slot in
  let generation := match existing with Some e => generation_next (sl_generation e) | None => generation_next 0 end in
  let displaced := match existing with Some e => if sl_deleted e then None else Some e | None => None end in
  match match displaced with Some old => depart n (sl_backing old) | None => Some n end with
  | None => None
  | Some n =>
      let n := n <| slots := <[slot := mkSlot generation backing false 0]> (slots n) |> in
      let n := enter n backing in
      let id := mkResourceId slot generation in
      match displaced with
      | None => Some (mkNameDeclared id None, n)
      | Some old =>
          let '(t, n) := detach n (sl_backing old) (sl_outstanding old) in
          Some (mkNameDeclared id (Some (mkDisplaced (mkResourceId slot (sl_generation old)) t)), n)
      end
  end.

Definition ns_refuse {T} (n : Namespace) (r : NameRefusal) : (T + NameRefusal) * Namespace :=
  (inr r, n <| ns_refused := S (ns_refused n) |>).
Definition ns_resolve (n : Namespace) (name : ResourceId) : (NameLease + NameRefusal) * Namespace :=
  match slots n !! slot_ref name with
  | None => ns_refuse n (NotDeclared (slot_ref name))
  | Some s =>
      if negb (sl_generation s =? slot_generation name)
      then ns_refuse n (StaleGeneration (slot_ref name) (slot_generation name) (sl_generation s))
      else if sl_deleted s then ns_refuse n (NameDeleted name)
      else (inl (mkNameLease name (sl_backing s)), n <| ns_resolved := S (ns_resolved n) |>)
  end.
Definition resolve_slot (n : Namespace) (slot : Z) : (NameLease + NameRefusal) * Namespace :=
  match slots n !! slot with
  | None => ns_refuse n (NotDeclared slot)
  | Some s => ns_resolve n (mkResourceId slot (sl_generation s))
  end.

(** The slot still stands for what was leased or claimed. *)
Definition stands_for (s : Slot) (id : ResourceId) (backing : option Z) : bool :=
  (sl_generation s =? slot_generation id) && negb (sl_deleted s) && bool_decide (sl_backing s = backing).
Definition acquire (n : Namespace) (lease : NameLease) : Claim * Namespace :=
  let claim := mkClaim (le_id lease) (le_backing lease) in
  let apart := match le_backing lease with
               | None => n
               | Some b => n <| retiring := <[b := S (default 0%nat (retiring n !! b))]> (retiring n) |>
               end in
  match slots n !! slot_ref (le_id lease) with
  | None => (claim, apart)
  | Some s =>
      if stands_for s (le_id lease) (le_backing lease)
      then (claim, n <| slots := <[slot_ref (le_id lease) := s <| sl_outstanding := S (sl_outstanding s) |>]> (slots n) |>)
      else (claim, apart)
  end.
Definition release_apart (n : Namespace) (claim : Claim) : option (option Z * Namespace) :=
  match cl_backing claim with
  | None => Some (None, n)
  | Some b =>
      match retiring n !! b with
      | None => Some (None, n)
      | Some O => None
      | Some (S k) =>
          if (0 <? k)%nat then Some (None, n <| retiring := <[b := k]> (retiring n) |>)
          else
            let n := n <| retiring := base.delete b (retiring n) |> in
            Some (if named_by_a_live_slot n b then None else Some b, n)
      end
  end.
Definition ns_release (n : Namespace) (claim : Claim) : option (option Z * Namespace) :=
  match slots n !! slot_ref (cl_id claim) with
  | None => release_apart n claim
  | Some s =>
      if stands_for s (cl_id claim) (cl_backing claim) && (0 <? sl_outstanding s)%nat
      then Some (None, n <| slots := <[slot_ref (cl_id claim) := s <| sl_outstanding := pred (sl_outstanding s) |>]> (slots n) |>)
      else release_apart n claim
  end.

Definition ns_delete (n : Namespace) (name : ResourceId) : option ((Teardown + NameRefusal) * Namespace) :=
  match ns_resolve n name with
  | (inr r, n) => Some (inr r, n)
  | (inl lease, n) =>
      match slots n !! slot_ref name with
      | None => None
      | Some s =>
          let n := n <| slots := <[slot_ref name := (s <| sl_deleted := true |>) <| sl_outstanding := 0%nat |>]> (slots n) |> in
          match depart n (le_backing lease) with
          | None => None
          | Some n => let '(t, n) := detach n (le_backing lease) (sl_outstanding s) in Some (inl t, n)
          end
      end
  end.
Definition replace_physical (n : Namespace) (name : ResourceId) (backing : Z) : option ((Teardown + NameRefusal) * Namespace) :=
  match ns_resolve n name with
  | (inr r, n) => Some (inr r, n)
  | (inl lease, n) =>
      match slots n !! slot_ref name with
      | None => None
      | Some s =>
          let n := n <| slots := <[slot_ref name := (s <| sl_backing := Some backing |>) <| sl_outstanding := 0%nat |>]> (slots n) |> in
          match depart n (le_backing lease) with
          | None => None
          | Some n => let '(t, n) := detach (enter n (Some backing)) (le_backing lease) (sl_outstanding s) in Some (inl t, n)
          end
      end
  end.
Definition ns_holds (n : Namespace) (b : Z) : bool := named_by_a_live_slot n b || bool_decide (is_Some (retiring n !! b)).
Definition awaiting_teardown (n : Namespace) : nat := size (retiring n).
Definition by_slot (a b : ResourceId) : Prop := slot_ref a ≤ slot_ref b.
#[export] Instance by_slot_dec a b : Decision (by_slot a b).
Proof. unfold by_slot. apply _. Defined.
Definition live_names (n : Namespace) : list ResourceId :=
  merge_sort by_slot ((λ kv : Z * Slot, mkResourceId kv.1 (sl_generation kv.2)) <$> map_to_list (filter (λ kv : Z * Slot, sl_deleted kv.2 = false) (slots n))).
Definition ns_resource (n : Namespace) (object_ref : Z) : option ResourceId :=
  match slots n !! object_ref with
  | Some held => if sl_deleted held then None else Some (mkResourceId object_ref (sl_generation held))
  | None => None
  end.

(** ** The driver

    It holds the leases and claims it was given.  Each call answers with the storage the
    caller is told to tear down. *)
Record driver := mkDriver { dv_ns : Namespace; dv_leases : list NameLease; dv_claims : list Claim }.
Inductive name_call :=
  | NDeclare (slot : Z) (backing : option Z) | NResolve (name : ResourceId) | NResolveSlot (slot : Z)
  | NAcquire (i : nat) | NRelease (i : nat) | NDelete (name : ResourceId) | NReplace (name : ResourceId) (backing : Z).
Definition torn (t : Teardown) : list Z := match t with Now b => [b] | _ => [] end.
Definition answered_lease (d : driver) (r : (NameLease + NameRefusal) * Namespace) : list Z * driver :=
  match r with
  | (inl lease, n) => ([], mkDriver n (dv_leases d ++ [lease]) (dv_claims d))
  | (inr _, n) => ([], mkDriver n (dv_leases d) (dv_claims d))
  end.
Definition answered_teardown (d : driver) (r : option ((Teardown + NameRefusal) * Namespace)) : option (list Z * driver) :=
  match r with
  | None => None
  | Some (inl t, n) => Some (torn t, mkDriver n (dv_leases d) (dv_claims d))
  | Some (inr _, n) => Some ([], mkDriver n (dv_leases d) (dv_claims d))
  end.
Definition name_step (d : driver) (c : name_call) : option (list Z * driver) :=
  match c with
  | NDeclare slot backing =>
      match ns_declare (dv_ns d) slot backing with
      | None => None
      | Some (r, n) =>
          Some (match nd_displaced r with Some x => torn (di_teardown x) | None => [] end, mkDriver n (dv_leases d) (dv_claims d))
      end
  | NResolve name => Some (answered_lease d (ns_resolve (dv_ns d) name))
  | NResolveSlot slot => Some (answered_lease d (resolve_slot (dv_ns d) slot))
  | NAcquire i =>
      match dv_leases d !! i with
      | None => Some ([], d)
      | Some lease =>
          let '(claim, n) := acquire (dv_ns d) lease in
          Some ([], mkDriver n (base.delete i (dv_leases d)) (claim :: dv_claims d))
      end
  | NRelease i =>
      match dv_claims d !! i with
      | None => Some ([], d)
      | Some claim =>
          match ns_release (dv_ns d) claim with
          | None => None
          | Some (b, n) => Some (option_list b, mkDriver n (dv_leases d) (base.delete i (dv_claims d)))
          end
      end
  | NDelete name => answered_teardown d (ns_delete (dv_ns d) name)
  | NReplace name backing => answered_teardown d (replace_physical (dv_ns d) name backing)
  end.
Fixpoint name_run (d : driver) (cs : list name_call) : option (list (list Z) * driver) :=
  match cs with
  | [] => Some ([], d)
  | c :: cs =>
      match name_step d c with
      | None => None
      | Some (out, d) => match name_run d cs with Some (log, d) => Some (out :: log, d) | None => None end
      end
  end.

(** ** The reference: who stands for storage, and who uses it *)
Definition live_at (b : Z) (s : Slot) : bool := negb (sl_deleted s) && bool_decide (sl_backing s = Some b).
Definition named (b : Z) (m : gmap Z Slot) : nat := size (filter (λ kv : Z * Slot, live_at b kv.2 = true) m).
Definition uses (b : Z) (cs : list Claim) : nat := length (filter (λ c, cl_backing c = Some b) cs).
Definition held (d : driver) (b : Z) : Prop := (0 < named b (slots (dv_ns d)) + uses b (dv_claims d))%nat.
#[global] Arguments named : simpl never.
#[global] Arguments uses : simpl never.

Definition one (x : bool) : nat := if x then 1%nat else 0%nat.
Lemma named_fresh b m k v : m !! k = None → named b (<[k := v]> m) = (one (live_at b v) + named b m)%nat.
Proof.
  intros Hk. unfold named. destruct (live_at b v) eqn:E; cbn [one].
  - rewrite map_filter_insert_True by done. rewrite map_size_insert_None; [done|]. apply map_lookup_filter_None. left. done.
  - rewrite map_filter_insert_False by (cbn; congruence). by rewrite delete_id.
Qed.
Lemma named_insert b m k v :
  (named b (<[k := v]> m) + match m !! k with Some s => one (live_at b s) | None => 0 end = one (live_at b v) + named b m)%nat.
Proof.
  destruct (m !! k) as [s|] eqn:E; [|rewrite named_fresh by done; lia].
  rewrite <- (insert_delete_id m k s E) at 2. rewrite <- (insert_delete_eq m k v). rewrite !named_fresh by apply lookup_delete_eq. lia.
Qed.
Lemma named_pos b m : (0 < named b m)%nat ↔ ∃ k s, m !! k = Some s ∧ live_at b s = true.
Proof.
  unfold named. split.
  - intros H. destruct (map_choose (filter (λ kv : Z * Slot, live_at b kv.2 = true) m)) as (k & s & [? ?]%map_lookup_filter_Some); [|eauto].
    intros E. rewrite E, map_size_empty in H. lia.
  - intros (k & s & ? & ?). apply Nat.neq_0_lt_0. intros E%map_size_empty_inv.
    assert (filter (λ kv : Z * Slot, live_at b kv.2 = true) m !! k = Some s) as Hs by (by apply map_lookup_filter_Some). by rewrite E in Hs.
Qed.
Lemma uses_app b l l' : uses b (l ++ l') = (uses b l + uses b l')%nat.
Proof. unfold uses. by rewrite filter_app, length_app. Qed.
Lemma uses_cons b c l : uses b (c :: l) = (one (bool_decide (cl_backing c = Some b)) + uses b l)%nat.
Proof. unfold uses. rewrite filter_cons. by case_decide as H; [rewrite bool_decide_eq_true_2|rewrite bool_decide_eq_false_2]. Qed.
Lemma uses_pos b l : (0 < uses b l)%nat ↔ ∃ c, c ∈ l ∧ cl_backing c = Some b.
Proof.
  induction l as [|c l IH]; [split; [unfold uses; cbn; lia|by intros (? & ?%elem_of_nil & _)]|].
  rewrite uses_cons. setoid_rewrite elem_of_cons. case_bool_decide as E; cbn.
  - split; [|lia]. intros _. exists c. auto.
  - rewrite IH. naive_solver.
Qed.
#[export] Instance uses_perm b : Proper ((≡ₚ) ==> eq) (uses b).
Proof. intros l l' E. unfold uses. by rewrite E. Qed.
#[export] Instance occ_perm (c : Claim) : Proper ((≡ₚ) ==> eq) (occ c).
Proof. intros l l' E. unfold occ. by rewrite E. Qed.

(** A table of positive counts. *)
Definition counts_as (m : gmap Z nat) (f : Z → nat) : Prop := ∀ b, m !! b = match f b with O => None | S k => Some (S k) end.
Lemma counts_default m f b : counts_as m f → default 0%nat (m !! b) = f b.
Proof. intros H. rewrite (H b). by destruct (f b). Qed.
Lemma counts_some m f b : counts_as m f → is_Some (m !! b) ↔ (0 < f b)%nat.
Proof. intros H. rewrite (H b). destruct (f b); split; [by intros []|lia|lia|eauto]. Qed.
Lemma counts_insert m f b k : counts_as m f → (0 < k)%nat → counts_as (<[b := k]> m) (λ b', if decide (b' = b) then k else f b').
Proof.
  intros H Hk b'. destruct (decide (b' = b)) as [->|Hne]; [rewrite lookup_insert_eq; by destruct k; [lia|]|by rewrite lookup_insert_ne].
Qed.
Lemma counts_delete m f b : counts_as m f → counts_as (base.delete b m) (λ b', if decide (b' = b) then 0%nat else f b').
Proof. intros H b'. destruct (decide (b' = b)) as [->|Hne]; [by rewrite lookup_delete_eq|by rewrite lookup_delete_ne]. Qed.
Lemma counts_ext m f g : counts_as m f → (∀ b, f b = g b) → counts_as m g.
Proof. intros H E b. by rewrite <- E. Qed.

(** ** The invariant

    [home] are the claims counted at their slots, [away] those counted per storage. *)
Record ns_ok (n : Namespace) (home away : list Claim) : Prop := {
  no_live : counts_as (live_by_backing n) (λ b, named b (slots n));
  no_retiring : counts_as (retiring n) (λ b, uses b away);
  no_home c : c ∈ home → ∃ s, slots n !! slot_ref (cl_id c) = Some s ∧ stands_for s (cl_id c) (cl_backing c) = true;
  no_count k s : slots n !! k = Some s → sl_deleted s = false →
    sl_outstanding s = occ (mkClaim (mkResourceId k (sl_generation s)) (sl_backing s)) home }.
#[export] Instance ns_ok_perm n : Proper ((≡ₚ) ==> (≡ₚ) ==> iff) (ns_ok n).
Proof.
  assert (∀ h h' w w', h ≡ₚ h' → w ≡ₚ w' → ns_ok n h w → ns_ok n h' w') as Hp.
  { intros h h' w w' Eh Ew H. split; try apply H.
    - eapply counts_ext; [apply H|]. intros b. cbn. by rewrite Ew.
    - intros c. rewrite <- Eh. apply H.
    - intros k s ? ?. rewrite <- Eh. by apply H. }
  intros h h' Eh w w' Ew. split; apply Hp; done.
Qed.
Lemma stands_for_spec s id b : stands_for s id b = true ↔ sl_generation s = slot_generation id ∧ sl_deleted s = false ∧ sl_backing s = b.
Proof. unfold stands_for. rewrite !andb_true_iff, negb_true_iff, bool_decide_eq_true, Z.eqb_eq. tauto. Qed.
Lemma stands_for_eq s c : stands_for s (cl_id c) (cl_backing c) = true →
  c = mkClaim (mkResourceId (slot_ref (cl_id c)) (sl_generation s)) (sl_backing s).
Proof. intros (-> & _ & ->)%stands_for_spec. by destruct c as [[] ?]. Qed.
(** A claim counted at a slot is on storage that slot stands for. *)
Lemma home_named n home away b : ns_ok n home away → (0 < uses b home)%nat → (0 < named b (slots n))%nat.
Proof.
  intros H (c & Hc & Eb)%uses_pos. destruct (no_home _ _ _ H c Hc) as (s & Es & (_ & Hd & Hb)%stands_for_spec).
  apply named_pos. exists (slot_ref (cl_id c)), s. split; [done|]. unfold live_at. by rewrite Hd, Hb, Eb, bool_decide_eq_true_2.
Qed.

Definition at_slot (k : Z) (c : Claim) : Prop := slot_ref (cl_id c) = k.
#[export] Instance at_slot_dec k c : Decision (at_slot k c).
Proof. unfold at_slot. apply _. Defined.
Definition staying (k : Z) (home : list Claim) : list Claim := filter (λ c, ¬ at_slot k c) home.
Definition moving (k : Z) (home : list Claim) : list Claim := filter (at_slot k) home.
Lemma split_home k home : moving k home ++ staying k home ≡ₚ home.
Proof. apply filter_app_complement. Qed.
Lemma occ_split k c home : occ c home = (occ c (moving k home) + occ c (staying k home))%nat.
Proof. by rewrite <- occ_app, split_home. Qed.
Lemma occ_staying k c home : slot_ref (cl_id c) ≠ k → occ c (staying k home) = occ c home.
Proof.
  intros Hne. rewrite (occ_split k c home). enough (¬ 0 < occ c (moving k home))%nat by lia. rewrite <- occ_in.
  by intros [? _]%list_elem_of_filter.
Qed.
Lemma occ_gone k c home : slot_ref (cl_id c) = k → occ c (staying k home) = 0%nat.
Proof. intros E. enough (¬ 0 < occ c (staying k home))%nat by lia. rewrite <- occ_in. by intros [? _]%list_elem_of_filter. Qed.

(** The claims of a live slot are the ones it counts. *)
Lemma moving_uses n home away k s b : ns_ok n home away → slots n !! k = Some s → sl_deleted s = false →
  uses b (moving k home) = if decide (sl_backing s = Some b) then sl_outstanding s else 0%nat.
Proof.
  intros H Es Hd. set (c0 := mkClaim (mkResourceId k (sl_generation s)) (sl_backing s)).
  assert (∀ c, c ∈ moving k home → c = c0) as Hm.
  { intros c [Hk Hc]%list_elem_of_filter. destruct (no_home _ _ _ H c Hc) as (s' & Es' & E%stands_for_eq). unfold at_slot in Hk.
    rewrite Hk in Es', E. assert (s' = s) as -> by congruence. done. }
  rewrite (no_count _ _ _ H k s Es Hd). fold c0. rewrite (occ_split k c0 home), (occ_gone k c0), Nat.add_0_r by done.
  clear -Hm. induction (moving k home) as [|c l IH]; [by case_decide|]. rewrite uses_cons, occ_cons, IH by (intros; apply Hm; by right).
  rewrite (Hm c) by left. destruct (decide (sl_backing s = Some b)); [rewrite bool_decide_eq_true_2, decide_True by done|rewrite bool_decide_eq_false_2 by done]; done.
Qed.
(** Nothing is counted at a slot with no live name. *)
Lemma moving_none n home away k : ns_ok n home away → (∀ s, slots n !! k = Some s → sl_deleted s = true) → moving k home = [].
Proof.
  intros H Hs. destruct (moving k home) as [|c l] eqn:E; [done|]. exfalso.
  assert (c ∈ moving k home) as [Hk Hc]%list_elem_of_filter by (rewrite E; left). unfold at_slot in Hk.
  destruct (no_home _ _ _ H c Hc) as (s & Es & (_ & Hd & _)%stands_for_spec). rewrite Hk in Es. specialize (Hs s Es). congruence.
Qed.
(** The slot is given a new content. *)
Lemma renamed_ok n n' home away k v : ns_ok n home away → slots n' = <[k := v]> (slots n) → (sl_deleted v = false → sl_outstanding v = 0%nat) →
  counts_as (live_by_backing n') (λ b, named b (slots n')) → counts_as (retiring n') (λ b, uses b (moving k home ++ away)) →
  ns_ok n' (staying k home) (moving k home ++ away).
Proof.
  intros H Es Hv Hl Hr. split; [done|done|..].
  - intros c [Hk Hc]%list_elem_of_filter. rewrite Es, lookup_insert_ne; [by apply H|]. unfold at_slot in Hk. congruence.
  - intros k' s. rewrite Es. intros [[<- <-]|[Hne Es']]%lookup_insert_Some Hd.
    + rewrite Hv by done. symmetry. by apply occ_gone.
    + rewrite occ_staying by (cbn; congruence). by apply H.
Qed.

(** ** The steps *)
Definition is_at (ob : option Z) (b : Z) : nat := one (bool_decide (ob = Some b)).
Lemma is_at_some b' b : is_at (Some b') b = if decide (b = b') then 1%nat else 0%nat.
Proof. unfold is_at. case_decide as E; [rewrite bool_decide_eq_true_2 by congruence|rewrite bool_decide_eq_false_2 by congruence]; done. Qed.
Lemma is_at_none b : is_at None b = 0%nat.
Proof. unfold is_at. by rewrite bool_decide_eq_false_2. Qed.
Lemma is_at_live s b : sl_deleted s = false → one (live_at b s) = is_at (sl_backing s) b.
Proof. intros Hd. unfold live_at, is_at. by rewrite Hd. Qed.

Lemma enter_ok n ob f : counts_as (live_by_backing n) f →
  counts_as (live_by_backing (enter n ob)) (λ b, f b + is_at ob b)%nat ∧ slots (enter n ob) = slots n ∧ retiring (enter n ob) = retiring n.
Proof.
  intros H. destruct ob as [b0|]; cbn.
  - split; [|done]. rewrite (counts_default _ _ b0 H). eapply counts_ext; [apply counts_insert; [exact H|lia]|]. intros b. cbn.
    rewrite is_at_some. case_decide as E; [subst; lia|lia].
  - split; [|done]. eapply counts_ext; [exact H|]. intros b. cbn. rewrite is_at_none. lia.
Qed.
Lemma depart_ok n ob f : counts_as (live_by_backing n) f → (∀ b, ob = Some b → 0 < f b)%nat →
  ∃ n', depart n ob = Some n' ∧ counts_as (live_by_backing n') (λ b, f b - is_at ob b)%nat ∧ slots n' = slots n ∧ retiring n' = retiring n.
Proof.
  intros H Hf. destruct ob as [b0|]; cbn.
  - specialize (Hf b0 eq_refl). rewrite (H b0). destruct (f b0) as [|[|k]] eqn:E; [lia|..].
    + eexists. split; [done|]. cbn. split; [|done]. eapply counts_ext; [apply counts_delete, H|]. intros b. cbn. rewrite is_at_some.
      case_decide; [subst; lia|lia].
    + eexists. split; [done|]. cbn. split; [|done]. eapply counts_ext; [apply counts_insert; [exact H|lia]|]. intros b. cbn. rewrite is_at_some.
      case_decide; [subst; lia|lia].
  - exists n. split; [done|]. split; [|done]. eapply counts_ext; [exact H|]. intros b. cbn. rewrite is_at_none. lia.
Qed.
Lemma named_counted n g b : counts_as (live_by_backing n) g → named_by_a_live_slot n b = bool_decide (0 < g b)%nat.
Proof. intros H. unfold named_by_a_live_slot. apply bool_decide_ext. by apply counts_some. Qed.
Lemma detach_ok n ob k f g : counts_as (retiring n) f → counts_as (live_by_backing n) g →
  let '(t, n') := detach n ob k in
  counts_as (retiring n') (λ b, f b + if decide (ob = Some b) then k else 0)%nat ∧ slots n' = slots n ∧ live_by_backing n' = live_by_backing n ∧
  NoDup (torn t) ∧ ∀ b, b ∈ torn t ↔ ob = Some b ∧ (f b + k + g b = 0)%nat.
Proof.
  intros Hf Hg. destruct ob as [b0|]; unfold detach.
  2: { split_and!; try done; [|constructor|]. { eapply counts_ext; [exact Hf|]. intros b. cbn. rewrite decide_False by done. lia. } intros b. split; [by intros ?%elem_of_nil|naive_solver]. }
  rewrite (counts_default _ _ b0 Hf). destruct (0 <? f b0 + k)%nat eqn:E; [apply Nat.ltb_lt in E|apply Nat.ltb_ge in E].
  - split_and!; try done; [|constructor|].
    + eapply counts_ext; [apply counts_insert; [exact Hf|lia]|]. intros b. cbn. repeat case_decide; naive_solver lia.
    + intros b. split; [by intros ?%elem_of_nil|]. intros [[= <-] ?]. lia.
  - rewrite (named_counted (n <| retiring := base.delete b0 (retiring n) |>) g b0 Hg). split_and!; try done.
    + eapply counts_ext; [apply counts_delete, Hf|]. intros b. cbn. repeat case_decide; naive_solver lia.
    + case_bool_decide; cbn; [constructor|apply NoDup_singleton].
    + intros b. case_bool_decide; cbn; [split; [by intros ?%elem_of_nil|intros [[= <-] ?]; lia]|].
      rewrite list_elem_of_singleton. split; [intros ->; split; [done|lia]|]. by intros [[= <-] _].
Qed.

(** What a call does, seen from outside. *)
Definition good (d : driver) (out : list Z) (d' : driver) : Prop :=
  (∃ home away, ns_ok (dv_ns d') home away ∧ dv_claims d' ≡ₚ home ++ away) ∧
  NoDup out ∧ ∀ b, b ∈ out ↔ held d b ∧ ¬ held d' b.
Lemma good_quiet d d' home away : ns_ok (dv_ns d') home away → dv_claims d' ≡ₚ home ++ away → (∀ b, held d b → held d' b) → good d [] d'.
Proof.
  intros H Hc Hh. split; [by exists home, away|]. split; [constructor|]. intros b. split; [by intros ?%elem_of_nil|]. intros [? Hn]. by destruct Hn; apply Hh.
Qed.
(** A name leaves its storage [ob], which is to be torn down exactly when nothing holds it. *)
Lemma good_teardown d n' home away k v s t : ns_ok (dv_ns d) home away → dv_claims d ≡ₚ home ++ away →
  slots (dv_ns d) !! k = Some s → sl_deleted s = false →
  slots n' = <[k := v]> (slots (dv_ns d)) → (sl_deleted v = false → sl_outstanding v = 0%nat) →
  counts_as (live_by_backing n') (λ b, named b (slots n')) → counts_as (retiring n') (λ b, uses b (moving k home ++ away)) →
  NoDup (torn t) → (∀ b, b ∈ torn t ↔ sl_backing s = Some b ∧ (uses b away + sl_outstanding s + named b (slots n') = 0)%nat) →
  good d (torn t) (mkDriver n' (dv_leases d) (dv_claims d)).
Proof.
  intros H Hc Es Hd Es' Hv Hl Hr Hnd Ht. pose proof (renamed_ok _ _ _ _ k v H Es' Hv Hl Hr) as H'.
  assert (dv_claims d ≡ₚ staying k home ++ moving k home ++ away) as Hc'.
  { rewrite Hc, app_assoc. by rewrite (Permutation_app_comm (staying k home)), split_home. }
  split; [by exists (staying k home), (moving k home ++ away)|]. split; [done|]. intros b. rewrite Ht. unfold held. cbn.
  pose proof (named_insert b (slots (dv_ns d)) k v) as Hn. rewrite Es, (is_at_live s b Hd), <- Es' in Hn.
  pose proof (moving_uses _ _ _ k s b H Es Hd) as Hm. pose proof (home_named _ _ _ b H') as Hh.
  rewrite Hc', !uses_app in *. unfold is_at in Hn. split.
  - intros [E Hz]. rewrite decide_True in Hm by done. assert (0 < named b (slots (dv_ns d)))%nat; [|lia].
    apply named_pos. exists k, s. split; [done|]. unfold live_at. by rewrite Hd, bool_decide_eq_true_2.
  - intros [Hb Hz]. destruct (decide (sl_backing s = Some b)) as [E|E]; [split; [done|lia]|].
    rewrite bool_decide_eq_false_2 in Hn by done. cbn in Hn. lia.
Qed.

(** *** Each call *)
Lemma resolve_live n name lease n' : ns_resolve n name = (inl lease, n') →
  ∃ s, slots n !! slot_ref name = Some s ∧ sl_deleted s = false ∧ lease = mkNameLease name (sl_backing s) ∧
    slots n' = slots n ∧ retiring n' = retiring n ∧ live_by_backing n' = live_by_backing n.
Proof.
  unfold ns_resolve, ns_refuse. destruct (slots n !! slot_ref name) as [s|]; [|done]. destruct (negb _); [done|].
  destruct (sl_deleted s) eqn:Hd; [done|]. intros [= <- <-]. by exists s.
Qed.
Lemma resolve_same n name r n' : ns_resolve n name = (r, n') →
  slots n' = slots n ∧ retiring n' = retiring n ∧ live_by_backing n' = live_by_backing n.
Proof. unfold ns_resolve, ns_refuse. repeat case_match; by intros [= <- <-]. Qed.
Lemma ns_ok_same n n' home away : ns_ok n home away →
  slots n' = slots n ∧ retiring n' = retiring n ∧ live_by_backing n' = live_by_backing n → ns_ok n' home away.
Proof. intros H (Es & Er & El). split; rewrite ?Es, ?Er, ?El; apply H. Qed.

Section steps.
Context (d : driver) (home away : list Claim).
Hypothesis H : ns_ok (dv_ns d) home away.
Hypothesis Hc : dv_claims d ≡ₚ home ++ away.

Lemma leased_good (r : (NameLease + NameRefusal) * Namespace) :
  slots r.2 = slots (dv_ns d) ∧ retiring r.2 = retiring (dv_ns d) ∧ live_by_backing r.2 = live_by_backing (dv_ns d) →
  good d (answered_lease d r).1 (answered_lease d r).2.
Proof.
  intros Hs. destruct r as [[lease|x] n]; cbn in *; (eapply good_quiet; [by apply (ns_ok_same (dv_ns d))|done|]);
    unfold held; cbn; intros b; by rewrite (proj1 Hs).
Qed.
(** Leaving the storage of a live slot: the slot gets [v], and [extra] is entered. *)
Lemma vacate_good k s v extra n1 : slots (dv_ns d) !! k = Some s → sl_deleted s = false → (sl_deleted v = false → sl_outstanding v = 0%nat) →
  (∀ b, one (live_at b v) = is_at extra b) →
  slots n1 = <[k := v]> (slots (dv_ns d)) → retiring n1 = retiring (dv_ns d) →
  counts_as (live_by_backing n1) (λ b, (named b (slots (dv_ns d)) - is_at (sl_backing s) b) + is_at extra b)%nat →
  let '(t, n2) := detach n1 (sl_backing s) (sl_outstanding s) in good d (torn t) (mkDriver n2 (dv_leases d) (dv_claims d)).
Proof.
  intros Es Hd Hv Hx Es1 Er1 Hl1. assert (∀ b, named b (slots n1) = (named b (slots (dv_ns d)) - is_at (sl_backing s) b + is_at extra b)%nat) as Hn.
  { intros b. pose proof (named_insert b (slots (dv_ns d)) k v) as Hi. rewrite Es, (is_at_live s b Hd), Hx, <- Es1 in Hi.
    assert (is_at (sl_backing s) b ≤ named b (slots (dv_ns d)))%nat; [|lia]. unfold is_at. case_bool_decide as E; cbn; [|lia].
    apply named_pos. exists k, s. split; [done|]. unfold live_at. by rewrite Hd, bool_decide_eq_true_2. }
  pose proof (detach_ok n1 (sl_backing s) (sl_outstanding s) (λ b, uses b away) (λ b, named b (slots n1))) as Hdt.
  destruct (detach n1 (sl_backing s) (sl_outstanding s)) as [t n2]. destruct Hdt as (Hr & Es2 & El2 & Hnd & Ht).
  { rewrite Er1. apply H. } { eapply counts_ext; [exact Hl1|]. intros b. by rewrite Hn. }
  eapply (good_teardown d n2 home away k v s t); try done.
  - by rewrite Es2.
  - rewrite El2, Es2. eapply counts_ext; [exact Hl1|]. intros b. by rewrite Hn.
  - eapply counts_ext; [exact Hr|]. intros b. cbn. rewrite uses_app, (moving_uses _ _ _ k s b H Es Hd). lia.
  - intros b. rewrite Ht, Es2. done.
Qed.
Lemma live_named k s b : slots (dv_ns d) !! k = Some s → sl_deleted s = false → sl_backing s = Some b → (0 < named b (slots (dv_ns d)))%nat.
Proof. intros Es Hd Hb. apply named_pos. exists k, s. split; [done|]. unfold live_at. by rewrite Hd, bool_decide_eq_true_2. Qed.

(** Declaring where no live name is. *)
Lemma fresh_good slot v backing : (∀ s, slots (dv_ns d) !! slot = Some s → sl_deleted s = true) → sl_outstanding v = 0%nat →
  (∀ b, one (live_at b v) = is_at backing b) →
  good d [] (mkDriver (enter ((dv_ns d) <| slots := <[slot := v]> (slots (dv_ns d)) |>) backing) (dv_leases d) (dv_claims d)).
Proof.
  intros Hs Hv Hx. set (n := (dv_ns d) <| slots := <[slot := v]> (slots (dv_ns d)) |>).
  destruct (enter_ok n backing (λ b, named b (slots (dv_ns d))) (no_live _ _ _ H)) as (Hl & Es & Er).
  assert (∀ b, named b (<[slot := v]> (slots (dv_ns d))) = named b (slots (dv_ns d)) + is_at backing b)%nat as Hn.
  { intros b. pose proof (named_insert b (slots (dv_ns d)) slot v) as Hi. rewrite Hx in Hi.
    destruct (slots (dv_ns d) !! slot) as [s|] eqn:E; [|lia]. unfold live_at in Hi. rewrite (Hs s eq_refl) in Hi. cbn in Hi. lia. }
  pose proof (moving_none _ _ _ slot H Hs) as Hm. pose proof (split_home slot home) as Hsp. rewrite Hm in Hsp. cbn in Hsp.
  eapply (good_quiet d _ (staying slot home) (moving slot home ++ away)); cbn [dv_ns dv_claims].
  - eapply renamed_ok; [exact H|exact Es|done|..].
    + eapply counts_ext; [exact Hl|]. intros b. rewrite Es. symmetry. apply Hn.
    + rewrite Er, Hm. apply H.
  - by rewrite Hm, Hsp.
  - intros b. unfold held. cbn [dv_ns dv_claims]. rewrite Es. cbn [slots]. specialize (Hn b). cbn. lia.
Qed.
Lemma declare_good slot backing : ∃ out d', name_step d (NDeclare slot backing) = Some (out, d') ∧ good d out d'.
Proof.
  cbn. unfold ns_declare. destruct (slots (dv_ns d) !! slot) as [s|] eqn:Es; [destruct (sl_deleted s) eqn:Hd|].
  - do 2 eexists. split; [done|]. apply fresh_good; [intros s'; congruence|done|done].
  - destruct (depart_ok (dv_ns d) (sl_backing s) _ (no_live _ _ _ H)) as (n0 & -> & Hl0 & Es0 & Er0); [intros b; by apply live_named with slot|].
    set (v := mkSlot (generation_next (sl_generation s)) backing false 0).
    set (n1 := n0 <| slots := <[slot := v]> (slots n0) |>). destruct (enter_ok n1 backing _ Hl0) as (Hl1 & Es1 & Er1).
    pose proof (vacate_good slot s v backing _ Es Hd ltac:(done) ltac:(done) ltac:(rewrite Es1; cbn; by rewrite Es0) ltac:(rewrite Er1; exact Er0) Hl1) as Hg.
    destruct (detach _ _ _) as [t n2]. eauto.
  - do 2 eexists. split; [done|]. apply fresh_good; [intros s'; congruence|done|done].
Qed.
Lemma refused_good {T} (n : Namespace) (r : T) : slots n = slots (dv_ns d) ∧ retiring n = retiring (dv_ns d) ∧ live_by_backing n = live_by_backing (dv_ns d) →
  good d [] (mkDriver n (dv_leases d) (dv_claims d)).
Proof. intros Hs. eapply good_quiet; [by apply (ns_ok_same (dv_ns d))|done|]. unfold held. cbn. intros b. by rewrite (proj1 Hs). Qed.
Lemma delete_good name : ∃ out d', name_step d (NDelete name) = Some (out, d') ∧ good d out d'.
Proof.
  cbn. unfold ns_delete. destruct (ns_resolve (dv_ns d) name) as [[lease|r] n] eqn:E.
  2: { do 2 eexists. split; [done|]. apply (refused_good n r), (resolve_same _ _ _ _ E). }
  apply resolve_live in E as (s & Es & Hd & -> & Esn & Ern & Eln). rewrite Esn, Es. cbn [le_backing].
  set (v := (s <| sl_deleted := true |>) <| sl_outstanding := 0%nat |>). set (n1 := n <| slots := <[slot_ref name := v]> (slots (dv_ns d)) |>).
  destruct (depart_ok n1 (sl_backing s) (λ b, named b (slots (dv_ns d)))) as (n0 & -> & Hl0 & Es0 & Er0).
  { cbn. rewrite Eln. apply H. } { intros b. by apply live_named with (slot_ref name). }
  pose proof (vacate_good (slot_ref name) s v None n0 Es Hd ltac:(done) ltac:(done) Es0 ltac:(by rewrite Er0)) as Hg.
  destruct (detach n0 (sl_backing s) (sl_outstanding s)) as [t n2]. do 2 eexists. split; [done|]. apply Hg.
  eapply counts_ext; [exact Hl0|]. intros b. cbn. rewrite is_at_none. lia.
Qed.
Lemma replace_good name backing : ∃ out d', name_step d (NReplace name backing) = Some (out, d') ∧ good d out d'.
Proof.
  cbn. unfold replace_physical. destruct (ns_resolve (dv_ns d) name) as [[lease|r] n] eqn:E.
  2: { do 2 eexists. split; [done|]. apply (refused_good n r), (resolve_same _ _ _ _ E). }
  apply resolve_live in E as (s & Es & Hd & -> & Esn & Ern & Eln). rewrite Esn, Es. cbn [le_backing].
  set (v := (s <| sl_backing := Some backing |>) <| sl_outstanding := 0%nat |>). set (n1 := n <| slots := <[slot_ref name := v]> (slots (dv_ns d)) |>).
  destruct (depart_ok n1 (sl_backing s) (λ b, named b (slots (dv_ns d)))) as (n0 & -> & Hl0 & Es0 & Er0).
  { cbn. rewrite Eln. apply H. } { intros b. by apply live_named with (slot_ref name). }
  destruct (enter_ok n0 (Some backing) _ Hl0) as (Hl1 & Es1 & Er1).
  pose proof (vacate_good (slot_ref name) s v (Some backing) _ Es Hd ltac:(done) ltac:(intros b; by apply is_at_live) ltac:(by rewrite Es1)
    ltac:(by rewrite Er1, Er0) Hl1) as Hg.
  destruct (detach _ (sl_backing s) (sl_outstanding s)) as [t n2]. eauto.
Qed.

(** Counting one more or one fewer use at a slot changes neither names nor storage. *)
Lemma recount_ok n k s u home' away' : ns_ok (dv_ns d) home away → slots (dv_ns d) !! k = Some s → sl_deleted s = false →
  slots n = <[k := s <| sl_outstanding := u |>]> (slots (dv_ns d)) → live_by_backing n = live_by_backing (dv_ns d) →
  counts_as (retiring n) (λ b, uses b away') → (∀ c, c ∈ home' → c ∈ home ∨ c = mkClaim (mkResourceId k (sl_generation s)) (sl_backing s)) →
  u = occ (mkClaim (mkResourceId k (sl_generation s)) (sl_backing s)) home' →
  (∀ c, c ≠ mkClaim (mkResourceId k (sl_generation s)) (sl_backing s) → occ c home' = occ c home) →
  ns_ok n home' away' ∧ ∀ b, named b (slots n) = named b (slots (dv_ns d)).
Proof.
  intros Hok Es Hd Esn Eln Hr Hh Hu Ho. set (c0 := mkClaim _ _) in *.
  assert (∀ b, named b (slots n) = named b (slots (dv_ns d))) as Hn.
  { intros b. pose proof (named_insert b (slots (dv_ns d)) k (s <| sl_outstanding := u |>)) as Hi. rewrite Es, <- Esn in Hi.
    change (live_at b (s <| sl_outstanding := u |>)) with (live_at b s) in Hi. lia. }
  split; [|done]. split; [rewrite Eln; eapply counts_ext; [apply Hok|]; intros b; cbn; by rewrite Hn|done|..].
  - intros c Hc'. rewrite Esn. destruct (decide (slot_ref (cl_id c) = k)) as [Ek|Hne].
    + rewrite Ek, lookup_insert_eq. eexists. split; [done|]. apply stands_for_spec. cbn. destruct (Hh c Hc') as [Hin| ->]; [|done].
      destruct (no_home _ _ _ Hok c Hin) as (s' & Es' & Hst). rewrite Ek in Es'. assert (s' = s) as -> by congruence. by apply stands_for_spec in Hst.
    + rewrite lookup_insert_ne by congruence. destruct (Hh c Hc') as [?| ->]; [by apply Hok|done].
  - intros k' s'. rewrite Esn. intros [[<- <-]|[Hne Es']]%lookup_insert_Some Hd'; [done|]. rewrite Ho by (intros [= ? _]; congruence). by apply Hok.
Qed.
Lemma acquire_good i : ∃ out d', name_step d (NAcquire i) = Some (out, d') ∧ good d out d'.
Proof.
  cbn. destruct (dv_leases d !! i) as [[id ob]|]; [|do 2 eexists; split; [done|]; eapply good_quiet; eauto].
  unfold acquire. cbn [le_id le_backing]. set (c := mkClaim id ob).
  assert (∀ n, slots n = slots (dv_ns d) → live_by_backing n = live_by_backing (dv_ns d) → counts_as (retiring n) (λ b, uses b (c :: away)) →
    good d [] (mkDriver n (base.delete i (dv_leases d)) (c :: dv_claims d))) as Haway.
  { intros n Es El Hr. eapply (good_quiet _ _ home (c :: away)); cbn.
    - split; [rewrite El, Es; apply H|done|intros x; rewrite Es; apply H|intros k s; rewrite Es; apply H].
    - rewrite Hc. apply Permutation_middle.
    - intros b. unfold held. cbn. rewrite Es, uses_cons. lia. }
  assert (counts_as (retiring match ob with None => dv_ns d | Some b => (dv_ns d) <| retiring := <[b := S (default 0%nat (retiring (dv_ns d) !! b))]> (retiring (dv_ns d)) |> end)
    (λ b, uses b (c :: away))) as Hr.
  { destruct ob as [b0|]; cbn; [rewrite (counts_default _ _ b0 (no_retiring _ _ _ H)); eapply counts_ext; [apply counts_insert; [apply H|lia]|]|eapply counts_ext; [apply H|]];
      intros b; cbn; rewrite uses_cons; cbn; fold (is_at (Some b) b); [|by rewrite bool_decide_eq_false_2].
    case_decide as E; [subst; by rewrite bool_decide_eq_true_2|by rewrite bool_decide_eq_false_2 by congruence]. }
  destruct (slots (dv_ns d) !! slot_ref id) as [s|] eqn:Es.
  2: { do 2 eexists. split; [done|]. by apply Haway; destruct ob. }
  destruct (stands_for s id ob) eqn:Est; [|do 2 eexists; split; [done|]; by apply Haway; destruct ob].
  do 2 eexists. split; [done|]. pose proof (stands_for_eq s c Est) as Ec. cbn in Ec. apply stands_for_spec in Est as (_ & Hd & _).
  set (n1 := (dv_ns d) <| slots := <[slot_ref id := s <| sl_outstanding := S (sl_outstanding s) |>]> (slots (dv_ns d)) |>).
  destruct (recount_ok n1 (slot_ref id) s (S (sl_outstanding s)) (c :: home) away H Es Hd) as [Hok Hn]; [done|done|apply H|..].
  - intros x. rewrite elem_of_cons, <- Ec. tauto.
  - by rewrite <- Ec, occ_cons, decide_True, Ec, <- (no_count _ _ _ H _ s Es Hd) by done.
  - intros x Hx. rewrite occ_cons, decide_False; [done|congruence].
  - eapply (good_quiet _ _ (c :: home) away); cbn; [exact Hok|by rewrite Hc|]. intros b. unfold held. cbn. rewrite uses_cons. specialize (Hn b). cbn in Hn. lia.
Qed.

(** Releasing a use that is not counted at its slot. *)
Lemma release_apart_good c away' cs : away ≡ₚ c :: away' → cs ≡ₚ home ++ away' → ∃ b n, release_apart (dv_ns d) c = Some (b, n) ∧
  ∀ leases, good d (option_list b) (mkDriver n leases cs).
Proof.
  intros Ha Hcs. unfold release_apart.
  assert (∀ n, slots n = slots (dv_ns d) → live_by_backing n = live_by_backing (dv_ns d) → counts_as (retiring n) (λ b, uses b away') → ns_ok n home away') as Hok.
  { intros n Es El Hr. split; [rewrite El, Es; apply H|done|intros x; rewrite Es; apply H|intros k s; rewrite Es; apply H]. }
  assert (∀ b, uses b (dv_claims d) = (is_at (cl_backing c) b + uses b cs)%nat) as Hu.
  { intros b. rewrite Hc, Ha, Hcs, !uses_app, uses_cons. unfold is_at. lia. }
  destruct (cl_backing c) as [b0|] eqn:Eb.
  2: { do 2 eexists. split; [done|]. intros leases. eapply (good_quiet _ _ home away'); cbn; [|done|].
       - apply Hok; [done|done|]. eapply counts_ext; [apply H|]. intros b. cbn. rewrite Ha, uses_cons, Eb. by rewrite bool_decide_eq_false_2.
       - intros b. unfold held. cbn. rewrite Hu, is_at_none. lia. }
  pose proof (no_retiring _ _ _ H b0) as Hr. cbn in Hr.
  assert (∀ b, uses b away = (is_at (Some b0) b + uses b away')%nat) as Hua by (intros b; rewrite Ha, uses_cons, Eb; done).
  rewrite (Hua b0), is_at_some, decide_True in Hr by done. cbn in Hr. rewrite Hr. clear Hr.
  destruct (uses b0 away') as [|j] eqn:Ej; cbn.
  - set (n := (dv_ns d) <| retiring := base.delete b0 (retiring (dv_ns d)) |>).
    do 2 eexists. split; [done|]. intros leases. rewrite (named_counted n (λ b, named b (slots (dv_ns d)))) by apply H. split; [exists home, away'; split; [apply Hok|]|].
    + done.
    + done.
    + cbn. eapply counts_ext; [apply counts_delete, H|]. intros b. cbn. rewrite Hua, is_at_some. case_decide; [by subst|done].
    + done.
    + assert (∀ b, held d b ∧ ¬ held (mkDriver n leases cs) b ↔ b = b0 ∧ named b0 (slots (dv_ns d)) = 0%nat) as Hh.
      { intros b. unfold held. cbn. rewrite Hu, is_at_some. pose proof (home_named _ _ _ b H) as Hhn.
        assert (uses b cs = uses b home + uses b away')%nat as -> by (by rewrite Hcs, uses_app).
        case_decide as E; [subst; rewrite Ej; lia|]. split; [lia|naive_solver]. }
      case_bool_decide; cbn; (split; [by first [apply NoDup_nil|apply NoDup_singleton]|]); intros b; (etransitivity; [|symmetry; apply Hh]).
      * split; [by intros ?%elem_of_nil|lia].
      * rewrite list_elem_of_singleton. split; [intros ->; lia|tauto].
  - do 2 eexists. split; [done|]. intros leases. eapply (good_quiet _ _ home away'); cbn; [|done|].
    + apply Hok; [done|done|]. cbn. eapply counts_ext; [apply counts_insert; [apply H|lia]|]. intros b. cbn. rewrite Hua, is_at_some. case_decide; [by subst|done].
    + intros b. unfold held. cbn. rewrite Hu, is_at_some. case_decide as E; [|lia]. subst. rewrite Hcs, uses_app, Ej. lia.
Qed.
Lemma release_good i : ∃ out d', name_step d (NRelease i) = Some (out, d') ∧ good d out d'.
Proof.
  cbn. destruct (dv_claims d !! i) as [c|] eqn:Ei; [|do 2 eexists; split; [done|]; eapply good_quiet; eauto].
  pose proof (delete_Permutation _ _ _ Ei) as Hp. unfold ns_release.
  assert (c ∉ home → ∃ out d', match release_apart (dv_ns d) c with
    | None => None | Some (b, n) => Some (option_list b, mkDriver n (dv_leases d) (base.delete i (dv_claims d))) end = Some (out, d') ∧ good d out d') as Haway.
  { intros Hnot. assert (c ∈ home ++ away) as [?|Hin]%elem_of_app by (rewrite <- Hc; by eapply list_elem_of_lookup_2); [done|].
    apply elem_of_Permutation in Hin as [away' Ha]. destruct (release_apart_good c away' (base.delete i (dv_claims d)) Ha) as (b & n & -> & Hg); [|eauto].
    apply (Permutation_cons_inv (a := c)). rewrite <- Hp, Hc, Ha. symmetry. apply Permutation_middle. }
  destruct (slots (dv_ns d) !! slot_ref (cl_id c)) as [s|] eqn:Es.
  2: { apply Haway. intros Hin. destruct (no_home _ _ _ H c Hin) as (s & ? & _). congruence. }
  destruct (stands_for s (cl_id c) (cl_backing c)) eqn:Est; cbn [andb].
  2: { apply Haway. intros Hin. destruct (no_home _ _ _ H c Hin) as (s' & ? & ?). congruence. }
  pose proof (stands_for_eq s c Est) as Ec. apply stands_for_spec in Est as (_ & Hd & _). pose proof (no_count _ _ _ H _ s Es Hd) as Hu. rewrite <- Ec in Hu.
  destruct (0 <? sl_outstanding s)%nat eqn:E0.
  2: { apply Haway. rewrite occ_in. apply Nat.ltb_ge in E0. lia. }
  apply Nat.ltb_lt in E0. assert (c ∈ home) as [home' Hh]%elem_of_Permutation by (apply occ_in; lia).
  set (n1 := (dv_ns d) <| slots := <[slot_ref (cl_id c) := s <| sl_outstanding := pred (sl_outstanding s) |>]> (slots (dv_ns d)) |>).
  destruct (recount_ok n1 (slot_ref (cl_id c)) s (pred (sl_outstanding s)) home' away H Es Hd) as [Hok Hn]; [done|done|apply H|..]; rewrite <- ?Ec.
  - intros x Hx. left. rewrite Hh. by right.
  - rewrite Hu, Hh, occ_cons, decide_True by done. done.
  - intros x Hx. rewrite Hh, occ_cons, decide_False by done. done.
  - do 2 eexists. split; [done|]. cbn [option_list]. assert (base.delete i (dv_claims d) ≡ₚ home' ++ away) as Hcs.
    { apply (Permutation_cons_inv (a := c)). by rewrite app_comm_cons, <- Hh, <- Hc. }
    eapply (good_quiet _ _ home' away); cbn; [exact Hok|exact Hcs|]. intros b. unfold held. cbn. specialize (Hn b). cbn in Hn. rewrite Hn.
    pose proof (uses_perm b _ _ Hp) as Hub. rewrite uses_cons in Hub. destruct (bool_decide (cl_backing c = Some b)) eqn:Eb; cbn in Hub; [|lia].
    apply bool_decide_eq_true in Eb. assert (0 < named b (slots (dv_ns d)))%nat; [|lia].
    apply live_named with (slot_ref (cl_id c)) s; try done. rewrite Ec in Eb. done.
Qed.
End steps.

(** ** Every run *)
Lemma name_step_good d c home away : ns_ok (dv_ns d) home away → dv_claims d ≡ₚ home ++ away →
  ∃ out d', name_step d c = Some (out, d') ∧ good d out d'.
Proof.
  intros H Hc. destruct c as [slot backing|name|slot|i|i|name|name backing].
  - by eapply declare_good.
  - do 2 eexists. split; [cbn; by rewrite <- surjective_pairing|]. eapply leased_good; eauto. by apply (resolve_same _ name (ns_resolve (dv_ns d) name).1), surjective_pairing.
  - do 2 eexists. split; [cbn; by rewrite <- surjective_pairing|]. eapply leased_good; eauto. unfold resolve_slot.
    destruct (slots (dv_ns d) !! slot) as [s|]; [|done]. by eapply resolve_same, surjective_pairing.
  - by eapply acquire_good.
  - by eapply release_good.
  - by eapply delete_good.
  - by eapply replace_good.
Qed.
Lemma name_run_good cs : ∀ d home away, ns_ok (dv_ns d) home away → dv_claims d ≡ₚ home ++ away →
  ∃ log d' home' away', name_run d cs = Some (log, d') ∧ ns_ok (dv_ns d') home' away' ∧ dv_claims d' ≡ₚ home' ++ away'.
Proof.
  induction cs as [|c cs IH]; intros d home away H Hc; cbn; [by exists [], d, home, away|].
  destruct (name_step_good d c home away H Hc) as (out & d1 & -> & (home1 & away1 & H1 & Hc1) & _).
  destruct (IH d1 home1 away1 H1 Hc1) as (log & d' & home' & away' & -> & ? & ?). by exists (out :: log), d', home', away'.
Qed.
Lemma start_ok : ns_ok empty_namespace [] [].
Proof. split; try done. by intros c ?%elem_of_nil. Qed.
Lemma holds_exact d home away b : ns_ok (dv_ns d) home away → dv_claims d ≡ₚ home ++ away → ns_holds (dv_ns d) b = true ↔ held d b.
Proof.
  intros H Hc. unfold ns_holds, held. rewrite orb_true_iff, (named_counted _ _ b (no_live _ _ _ H)), !bool_decide_eq_true.
  rewrite (counts_some _ _ b (no_retiring _ _ _ H)), Hc, uses_app. pose proof (home_named _ _ _ b H). lia.
Qed.

(** C18: Storage is handed over for teardown exactly when its last holder lets go.  After any
    sequence of declarations, resolutions, acquisitions, releases, deletions and replacements
    of storage, the next call does not panic, and it tells the caller to tear down exactly
    the storage that some live name or some claim held before the call and nothing holds
    after it, each once: never storage that work in flight still reads or another name still
    stands for, and never too late, whichever slots the names and claims went through.  The
    query of what is held answers accordingly. *)
Theorem teardown_exact (cs : list name_call) (c : name_call) :
  ∃ log d out d', name_run (mkDriver empty_namespace [] []) cs = Some (log, d) ∧ name_step d c = Some (out, d') ∧
    NoDup out ∧ (∀ b, b ∈ out ↔ held d b ∧ ¬ held d' b) ∧ ∀ b, ns_holds (dv_ns d') b = true ↔ held d' b.
Proof.
  destruct (name_run_good cs (mkDriver empty_namespace [] []) [] [] start_ok (Permutation_refl _)) as (log & d & home & away & E & H & Hc).
  destruct (name_step_good d c home away H Hc) as (out & d' & E' & (home' & away' & H' & Hc') & Hnd & Ho).
  exists log, d, out, d'. split_and!; try done. intros b. by eapply holds_exact.
Qed.

(** A lease that outlives its name can still be acquired, although the deletion has handed the
    storage over; the storage is then held again, and handed over a second time. *)
Lemma late_acquire_tears_twice :
  fst <$> name_run (mkDriver empty_namespace [] [])
    [NDeclare 3 (Some 9); NResolveSlot 3; NDelete (mkResourceId 3 1); NAcquire 0; NRelease 0] = Some [[]; []; [9]; []; [9]].
Proof. vm_compute. reflexivity. Qed.
