(* ===== verification/Heaps.v ===== *)
(** Heaps, the resources placed in them, and when a heap's storage may go:
    src/reims-vgpu/crates/reims-vgpu-core/src/heap.rs.

    A heap is a number over a piece of storage.  A resource placed in it occupies a window of
    that storage, and outlives the number: a deleted heap's storage is kept, under the storage's
    own name, until the last resource in it is removed.  The code holds live heaps, retiring
    storage and an index of the placed resources; the reference below holds two tables, which
    storage a number names and where each resource is, and derives everything else. *)
From Stdlib Require Import ZifyBool.
From S2P Require Import Prelude RangeSet Access.

#[export] Instance ByteRange_eq_dec : EqDecision ByteRange.
Proof. solve_decision. Defined.

(** ** The code *)
Inductive HeapRefusal :=
  | NoSuchHeap (heap : Z) | HeapExists (heap : Z) | OutOfHeap (heap offset length heap_length : Z)
  | OutOfPlacement (offset length placement_length : Z) | AlreadyPlaced (resource : ResourceId) (backing : Z)
  | NotPlaced (resource : ResourceId) | StalePlacement (resource : ResourceId) (named placed_at : ByteRange)
  | StaleStorage (backing : Z) | StorageInUse (backing : Z).
Inductive Retirement := Held (allocations : nat) (named : bool) | StorageFree (backing : Z).

Record HeapPlacement := mkPlacement { pl_heap : Z; pl_backing : Z; pl_region : ByteRange }.
Definition placement_key (self : HeapPlacement) (membership : HeapId) : ResourceKey := mkResKey (pl_backing self) (Some membership).

(** [offset.checked_add(length).is_none_or(|end| end > bound)]. *)
Definition runs_past (offset length bound : Z) : bool := (UINT64_MAX <? offset + length) || (bound <? offset + length).
Definition placement_within (self : HeapPlacement) (off length : Z) : ByteRange + HeapRefusal :=
  if runs_past off length (length_ (pl_region self)) then inr (OutOfPlacement off length (length_ (pl_region self)))
  else inl (mkByteRange ((offset (pl_region self) + off) `min` UINT64_MAX) length).
Definition placement_whole (self : HeapPlacement) : ByteRange := pl_region self.

Abbreviation Windows := (gmap ResourceId ByteRange).
Record HeapState := mkHeap { hp_backing : Z; hp_length : Z; hp_generation : Z; hp_placements : Windows }.
#[export] Instance eta_heap : Settable HeapState := λ h, mkHeap (hp_backing h) (hp_length h) (hp_generation h) (hp_placements h).
Record Heaps := mkHeaps { heaps : gmap Z HeapState; hs_retiring : gmap Z Windows; placed : gmap ResourceId Z }.
#[export] Instance eta_heaps : Settable Heaps := λ s, mkHeaps (heaps s) (hs_retiring s) (placed s).
Definition heaps_new : Heaps := mkHeaps ∅ ∅ ∅.

Definition live (s : Heaps) (heap : Z) : HeapState + HeapRefusal :=
  match heaps s !! heap with Some h => inl h | None => inr (NoSuchHeap heap) end.
Definition holds_storage (s : Heaps) (b : Z) : bool :=
  bool_decide (is_Some (hs_retiring s !! b)) || existsb (λ kv, hp_backing kv.2 =? b) (map_to_list (heaps s)).
Definition heap_create (s : Heaps) (heap b length : Z) : (unit + HeapRefusal) * Heaps :=
  if bool_decide (is_Some (heaps s !! heap)) then (inr (HeapExists heap), s)
  else if holds_storage s b then (inr (StorageInUse b), s)
  else (inl tt, s <| heaps := <[heap := mkHeap b length 0 ∅]> (heaps s) |>).
Definition membership (s : Heaps) (heap : Z) : HeapId + HeapRefusal :=
  match live s heap with inl h => inl (mkHeapId heap (hp_generation h)) | inr e => inr e end.
Definition backing_of (s : Heaps) (heap : Z) : Z + HeapRefusal :=
  match live s heap with inl h => inl (hp_backing h) | inr e => inr e end.
Definition admits (s : Heaps) (heap off length : Z) : unit + HeapRefusal :=
  match live s heap with
  | inr e => inr e
  | inl h => if runs_past off length (hp_length h) then inr (OutOfHeap heap off length (hp_length h)) else inl tt
  end.
(** [None] is the [expect] of a heap that was there a moment ago. *)
Definition heap_place (s : Heaps) (heap : Z) (r : ResourceId) (off length : Z) : option ((HeapPlacement + HeapRefusal) * Heaps) :=
  match admits s heap off length with
  | inr e => Some (inr e, s)
  | inl _ =>
      match placed s !! r with
      | Some b => Some (inr (AlreadyPlaced r b), s)
      | None =>
          let region := mkByteRange off length in
          match heaps s !! heap with
          | None => None
          | Some h =>
              let h := h <| hp_placements := <[r := region]> (hp_placements h) |> in
              let h := h <| hp_generation := u64 (hp_generation h + 1) |> in
              let s := s <| heaps := <[heap := h]> (heaps s) |> in
              Some (inl (mkPlacement heap (hp_backing h) region), s <| placed := <[r := hp_backing h]> (placed s) |>)
          end
      end
  end.
Definition placement (s : Heaps) (heap : Z) (r : ResourceId) : HeapPlacement + HeapRefusal :=
  match live s heap with
  | inr e => inr e
  | inl h => match hp_placements h !! r with Some region => inl (mkPlacement heap (hp_backing h) region) | None => inr (NotPlaced r) end
  end.
(** The window a placement names is the one the resource has. *)
Definition names_window (m : Windows) (pl : HeapPlacement) (r : ResourceId) : unit + HeapRefusal :=
  match m !! r with
  | None => inr (NotPlaced r)
  | Some placed_at => if bool_decide (placed_at = pl_region pl) then inl tt else inr (StalePlacement r (pl_region pl) placed_at)
  end.
Definition remove_retiring (s : Heaps) (pl : HeapPlacement) (r : ResourceId) : (Retirement + HeapRefusal) * Heaps :=
  match hs_retiring s !! pl_backing pl with
  | None => (inr (StaleStorage (pl_backing pl)), s)
  | Some m =>
      match names_window m pl r with
      | inr e => (inr e, s)
      | inl _ =>
          let m := base.delete r m in
          let s := s <| placed := base.delete r (placed s) |> in
          if decide (m = ∅) then (inl (StorageFree (pl_backing pl)), s <| hs_retiring := base.delete (pl_backing pl) (hs_retiring s) |>)
          else (inl (Held (size m) false), s <| hs_retiring := <[pl_backing pl := m]> (hs_retiring s) |>)
      end
  end.
Definition heap_remove (s : Heaps) (pl : HeapPlacement) (r : ResourceId) : (Retirement + HeapRefusal) * Heaps :=
  match heaps s !! pl_heap pl with
  | Some h =>
      if hp_backing h =? pl_backing pl then
        match names_window (hp_placements h) pl r with
        | inr e => (inr e, s)
        | inl _ =>
            let h := h <| hp_placements := base.delete r (hp_placements h) |> in
            let h := h <| hp_generation := u64 (hp_generation h + 1) |> in
            let s := s <| heaps := <[pl_heap pl := h]> (heaps s) |> in
            (inl (Held (size (hp_placements h)) true), s <| placed := base.delete r (placed s) |>)
        end
      else remove_retiring s pl r
  | None => remove_retiring s pl r
  end.
Definition heap_delete (s : Heaps) (heap : Z) : (Retirement + HeapRefusal) * Heaps :=
  match heaps s !! heap with
  | None => (inr (NoSuchHeap heap), s)
  | Some h =>
      let s := s <| heaps := base.delete heap (heaps s) |> in
      if decide (hp_placements h = ∅) then (inl (StorageFree (hp_backing h)), s)
      else (inl (Held (size (hp_placements h)) false), s <| hs_retiring := <[hp_backing h := hp_placements h]> (hs_retiring s) |>)
  end.

Definition live_heaps (s : Heaps) : list Z := merge_sort Z.le (map_to_list (heaps s)).*1.

(** A caller may present any placement, stale or made up: they are plain values. *)
Inductive heap_call :=
  | HCreate (heap b length : Z) | HPlace (heap : Z) (r : ResourceId) (off length : Z)
  | HRemove (pl : HeapPlacement) (r : ResourceId) | HDelete (heap : Z).
Inductive heap_answer :=
  | ACreated (a : unit + HeapRefusal) | APlaced (a : HeapPlacement + HeapRefusal) | ARetired (a : Retirement + HeapRefusal).
Definition heap_step (s : Heaps) (c : heap_call) : option (heap_answer * Heaps) :=
  match c with
  | HCreate heap b length => let '(a, s) := heap_create s heap b length in Some (ACreated a, s)
  | HPlace heap r off length => match heap_place s heap r off length with Some (a, s) => Some (APlaced a, s) | None => None end
  | HRemove pl r => let '(a, s) := heap_remove s pl r in Some (ARetired a, s)
  | HDelete heap => let '(a, s) := heap_delete s heap in Some (ARetired a, s)
  end.
Fixpoint heap_run (s : Heaps) (cs : list heap_call) : option (list heap_answer * Heaps) :=
  match cs with
  | [] => Some ([], s)
  | c :: cs =>
      match heap_step s c with
      | None => None
      | Some (a, s) => match heap_run s cs with Some (log, s) => Some (a :: log, s) | None => None end
      end
  end.

(** ** The reference

    Which storage, of what size, each number names; and the storage and window of each
    resource. *)
Record ledger := mkLedger { names_of : gmap Z (Z * Z); whereabouts : gmap ResourceId (Z * ByteRange) }.
Definition no_heaps : ledger := mkLedger ∅ ∅.
Definition a_named (a : ledger) (b : Z) : bool := existsb (λ kv : Z * (Z * Z), kv.2.1 =? b) (map_to_list (names_of a)).
Definition residents (a : ledger) (b : Z) : Windows :=
  omap (λ p : Z * ByteRange, if p.1 =? b then Some p.2 else None) (whereabouts a).
Definition occupied (a : ledger) (b : Z) : bool := a_named a b || bool_decide (residents a b ≠ ∅).
(** What is left of a storage: it is free when nothing names it and nothing is in it. *)
Definition left_of (a : ledger) (b : Z) : Retirement :=
  if occupied a b then Held (size (residents a b)) (a_named a b) else StorageFree b.
(** A placement reaches its storage through the number it carries, or when no number names
    the storage any more and it still has residents. *)
Definition reachable (a : ledger) (pl : HeapPlacement) : bool :=
  match names_of a !! pl_heap pl with
  | Some (b, _) => (b =? pl_backing pl) || negb (a_named a (pl_backing pl)) && occupied a (pl_backing pl)
  | None => negb (a_named a (pl_backing pl)) && occupied a (pl_backing pl)
  end.
Definition ledger_step (a : ledger) (c : heap_call) : heap_answer * ledger :=
  match c with
  | HCreate heap b length =>
      if bool_decide (is_Some (names_of a !! heap)) then (ACreated (inr (HeapExists heap)), a)
      else if occupied a b then (ACreated (inr (StorageInUse b)), a)
      else (ACreated (inl tt), mkLedger (<[heap := (b, length)]> (names_of a)) (whereabouts a))
  | HPlace heap r off length =>
      match names_of a !! heap with
      | None => (APlaced (inr (NoSuchHeap heap)), a)
      | Some (b, size) =>
          if runs_past off length size then (APlaced (inr (OutOfHeap heap off length size)), a)
          else match whereabouts a !! r with
               | Some (b', _) => (APlaced (inr (AlreadyPlaced r b')), a)
               | None => (APlaced (inl (mkPlacement heap b (mkByteRange off length))),
                          mkLedger (names_of a) (<[r := (b, mkByteRange off length)]> (whereabouts a)))
               end
      end
  | HRemove pl r =>
      if negb (reachable a pl) then (ARetired (inr (StaleStorage (pl_backing pl))), a)
      else match names_window (residents a (pl_backing pl)) pl r with
           | inr e => (ARetired (inr e), a)
           | inl _ => let a := mkLedger (names_of a) (base.delete r (whereabouts a)) in (ARetired (inl (left_of a (pl_backing pl))), a)
           end
  | HDelete heap =>
      match names_of a !! heap with
      | None => (ARetired (inr (NoSuchHeap heap)), a)
      | Some (b, _) => let a := mkLedger (base.delete heap (names_of a)) (whereabouts a) in (ARetired (inl (left_of a b)), a)
      end
  end.
Fixpoint ledger_run (a : ledger) (cs : list heap_call) : list heap_answer * ledger :=
  match cs with
  | [] => ([], a)
  | c :: cs => let '(x, a) := ledger_step a c in let '(log, a) := ledger_run a cs in (x :: log, a)
  end.

(** ** The reference, as sets *)
#[global] Arguments residents : simpl never.
#[global] Arguments a_named : simpl never.
Lemma a_named_spec a b : a_named a b = true ↔ ∃ k l, names_of a !! k = Some (b, l).
Proof.
  unfold a_named. rewrite existsb_exists. split.
  - intros ([k [b' l]] & Hin & E%Z.eqb_eq). cbn in E. subst b'. exists k, l. apply elem_of_map_to_list. by apply list_elem_of_In.
  - intros (k & l & E). exists (k, (b, l)). split; [apply list_elem_of_In; by apply elem_of_map_to_list|]. cbn. lia.
Qed.
Lemma residents_lookup a b r reg : residents a b !! r = Some reg ↔ whereabouts a !! r = Some (b, reg).
Proof.
  unfold residents. rewrite lookup_omap. destruct (whereabouts a !! r) as [[b' reg']|]; cbn; [|done].
  destruct (b' =? b) eqn:E; [apply Z.eqb_eq in E; subst; naive_solver|apply Z.eqb_neq in E; naive_solver].
Qed.
Lemma residents_place n m r b reg b' : m !! r = None →
  residents (mkLedger n (<[r := (b, reg)]> m)) b' = if b =? b' then <[r := reg]> (residents (mkLedger n m) b') else residents (mkLedger n m) b'.
Proof.
  intros Hr. unfold residents. cbn. destruct (b =? b') eqn:E.
  - by rewrite (omap_insert_Some _ _ _ _ reg) by (cbn; by rewrite E).
  - rewrite omap_insert_None by (cbn; by rewrite E). apply delete_id. by rewrite lookup_omap, Hr.
Qed.
Lemma residents_remove n m r b : residents (mkLedger n (base.delete r m)) b = base.delete r (residents (mkLedger n m) b).
Proof. unfold residents. cbn. by rewrite omap_delete. Qed.
Lemma residents_apart a r b b' reg : whereabouts a !! r = Some (b, reg) → b' ≠ b → base.delete r (residents a b') = residents a b'.
Proof. intros E Hne. apply delete_id. apply eq_None_not_Some. intros [reg' E'%residents_lookup]. congruence. Qed.

Record ledger_ok (a : ledger) : Prop := {
  lo_one k k' b l l' : names_of a !! k = Some (b, l) → names_of a !! k' = Some (b, l') → k = k';
  lo_fits r b reg : whereabouts a !! r = Some (b, reg) → 0 ≤ offset reg ∧ 0 ≤ length_ reg ∧ offset reg + length_ reg ≤ UINT64_MAX ∧
    ∀ k l, names_of a !! k = Some (b, l) → offset reg + length_ reg ≤ l }.

(** ** The simulation *)
Record sim (s : Heaps) (a : ledger) : Prop := {
  sim_ok : ledger_ok a;
  sim_heap k : match heaps s !! k, names_of a !! k with
    | Some h, Some (b, l) => hp_backing h = b ∧ hp_length h = l ∧ hp_placements h = residents a b
    | None, None => True
    | _, _ => False end;
  sim_retiring b : hs_retiring s !! b = if a_named a b then None else if decide (residents a b = ∅) then None else Some (residents a b);
  sim_placed : placed s = fst <$> whereabouts a }.

Lemma sim_live s a k h : sim s a → heaps s !! k = Some h → names_of a !! k = Some (hp_backing h, hp_length h) ∧ hp_placements h = residents a (hp_backing h).
Proof. intros H E. pose proof (sim_heap _ _ H k) as Hk. rewrite E in Hk. destruct (names_of a !! k) as [[b l]|]; [|done]. by destruct Hk as (<- & <- & ->). Qed.
Lemma sim_gone s a k : sim s a → heaps s !! k = None → names_of a !! k = None.
Proof. intros H E. pose proof (sim_heap _ _ H k) as Hk. rewrite E in Hk. by destruct (names_of a !! k) as [[b l]|]. Qed.
Lemma sim_live_inv s a k b l : sim s a → names_of a !! k = Some (b, l) →
  ∃ g, heaps s !! k = Some (mkHeap b l g (residents a b)).
Proof. intros H E. pose proof (sim_heap _ _ H k) as Hk. rewrite E in Hk. destruct (heaps s !! k) as [[b' l' g p]|]; [|done]. cbn in Hk. destruct Hk as (-> & -> & ->). eauto. Qed.
Lemma sim_any s a b : sim s a → existsb (λ kv : Z * HeapState, hp_backing kv.2 =? b) (map_to_list (heaps s)) = a_named a b.
Proof.
  intros H. apply eq_true_iff_eq. rewrite a_named_spec, existsb_exists. split.
  - intros ([k h] & Hin%list_elem_of_In%elem_of_map_to_list & E%Z.eqb_eq). cbn in E. destruct (sim_live _ _ _ _ H Hin) as [Hn _]. rewrite E in Hn. eauto.
  - intros (k & l & E). destruct (sim_live_inv _ _ _ _ _ H E) as [g Eg]. eexists (k, _). split; [apply list_elem_of_In, elem_of_map_to_list, Eg|]. cbn. lia.
Qed.
Lemma sim_holds s a b : sim s a → holds_storage s b = occupied a b.
Proof.
  intros H. unfold holds_storage, occupied. rewrite (sim_any _ _ _ H), (sim_retiring _ _ H). destruct (a_named a b); [by rewrite orb_true_r|].
  destruct (decide (residents a b = ∅)) as [E|E].
  - rewrite !bool_decide_eq_false_2; [done|naive_solver|by intros []].
  - rewrite !bool_decide_eq_true_2; [done|done|eauto].
Qed.

Definition offsets_ok (c : heap_call) : Prop :=
  match c with HPlace _ _ off length => 0 ≤ off ∧ 0 ≤ length | _ => True end.

Lemma fresh_name_named n m k b l b' : n !! k = None →
  a_named (mkLedger (<[k := (b, l)]> n) m) b' = (b =? b') || a_named (mkLedger n m) b'.
Proof.
  intros Hk. apply eq_true_iff_eq. rewrite orb_true_iff, !a_named_spec, Z.eqb_eq. cbn. split.
  - intros (k' & l' & [[-> [= -> ->]]|[? ?]]%lookup_insert_Some); [by left|right; eauto].
  - intros [->|(k' & l' & E)]; [exists k, l; by rewrite lookup_insert_eq|]. exists k', l'. rewrite lookup_insert_ne; [done|congruence].
Qed.
Lemma create_sim s a k b l : sim s a → names_of a !! k = None → occupied a b = false →
  sim (mkHeaps (<[k := mkHeap b l 0 ∅]> (heaps s)) (hs_retiring s) (placed s)) (mkLedger (<[k := (b, l)]> (names_of a)) (whereabouts a)).
Proof.
  intros H Hk [Hn Hr]%orb_false_iff. apply bool_decide_eq_false, dec_stable in Hr. destruct a as [n m]. cbn [names_of whereabouts] in *.
  assert (∀ k' l', n !! k' ≠ Some (b, l')) as Hno.
  { intros k' l' E. assert (a_named (mkLedger n m) b = true) by (apply a_named_spec; eauto). congruence. }
  split; cbn [heaps hs_retiring placed names_of whereabouts].
  - split; cbn.
    + intros k1 k2 b' l1 l2 [[<- [= <- <-]]|[? E1]]%lookup_insert_Some [[<- [= <-]]|[? E2]]%lookup_insert_Some; [done|by destruct (Hno k2 l2)|by destruct (Hno k1 l1); subst|].
      eapply (lo_one _ (sim_ok _ _ H)); eauto.
    + intros r b' reg E. destruct (lo_fits _ (sim_ok _ _ H) r b' reg E) as (? & ? & ? & Hf). split_and!; try done.
      intros k' l' [[<- [= <- <-]]|[? E']]%lookup_insert_Some; [|by eapply Hf].
      assert (residents (mkLedger n m) b !! r = Some reg) as Er by (by apply residents_lookup). by rewrite Hr in Er.
  - intros k'. destruct (decide (k' = k)) as [->|Hne]; [rewrite !lookup_insert_eq; cbn; split_and!; by try rewrite <- Hr|].
    rewrite !lookup_insert_ne by done. apply (sim_heap _ _ H k').
  - intros b'. rewrite fresh_name_named by done. rewrite (sim_retiring _ _ H). destruct (b =? b') eqn:E; [|done]. apply Z.eqb_eq in E. subst b'.
    cbn. by rewrite Hn, decide_True by done.
  - apply (sim_placed _ _ H).
Qed.
Lemma place_sim s a k h r off len : sim s a → heaps s !! k = Some h → whereabouts a !! r = None → 0 ≤ off → 0 ≤ len →
  runs_past off len (hp_length h) = false → ∀ g,
  sim (mkHeaps (<[k := mkHeap (hp_backing h) (hp_length h) g (<[r := mkByteRange off len]> (hp_placements h))]> (heaps s)) (hs_retiring s) (<[r := hp_backing h]> (placed s)))
      (mkLedger (names_of a) (<[r := (hp_backing h, mkByteRange off len)]> (whereabouts a))).
Proof.
  intros H Hh Hr Ho Hl Hp g. destruct (sim_live _ _ _ _ H Hh) as [Hn Hw]. set (b := hp_backing h) in *. destruct a as [n m]. cbn [names_of whereabouts] in *.
  unfold runs_past in Hp. apply orb_false_iff in Hp as [? ?].
  split; cbn [heaps hs_retiring placed names_of whereabouts].
  - split; cbn; [apply (sim_ok _ _ H)|]. intros r' b' reg [[<- [= <- <-]]|[? E]]%lookup_insert_Some; [|by apply (lo_fits _ (sim_ok _ _ H) r')].
    cbn. split_and!; try lia. intros k' l' E. assert (k' = k) as -> by (by eapply (lo_one _ (sim_ok _ _ H))). cbn in *. rewrite E in Hn. injection Hn. lia.
  - intros k'. destruct (decide (k' = k)) as [->|Hne].
    + rewrite lookup_insert_eq, Hn. cbn. split_and!; try done. rewrite residents_place, Z.eqb_refl by done. by rewrite Hw.
    + rewrite lookup_insert_ne by done. pose proof (sim_heap _ _ H k') as Hk. cbn in Hk. destruct (heaps s !! k') as [h'|], (n !! k') as [[b' l']|] eqn:En; try done.
      destruct Hk as (<- & <- & ->). split_and!; try done. rewrite residents_place by done. destruct (b =? hp_backing h') eqn:E; [|done].
      apply Z.eqb_eq in E. rewrite <- E in En. destruct Hne. by eapply (lo_one _ (sim_ok _ _ H)).
  - intros b'. rewrite (sim_retiring _ _ H). change (a_named (mkLedger n (<[r:=_]> m)) b') with (a_named (mkLedger n m) b').
    rewrite residents_place by done. destruct (b =? b') eqn:E; [|done]. apply Z.eqb_eq in E. subst b'.
    by rewrite (proj2 (a_named_spec (mkLedger n m) b)) by eauto.
  - by rewrite (sim_placed _ _ H), fmap_insert.
Qed.
Lemma removed_ok a r : ledger_ok a → ledger_ok (mkLedger (names_of a) (base.delete r (whereabouts a))).
Proof. intros H. split; cbn; [apply H|]. intros r' b reg [_ E]%lookup_delete_Some. by apply (lo_fits _ H r'). Qed.
Lemma removed_residents a r b reg b' : whereabouts a !! r = Some (b, reg) →
  residents (mkLedger (names_of a) (base.delete r (whereabouts a))) b' = if decide (b' = b) then base.delete r (residents a b) else residents a b'.
Proof. intros E. rewrite residents_remove. destruct a. case_decide; [by subst|]. by eapply residents_apart. Qed.

Lemma remove_live_sim s a k h r reg : sim s a → heaps s !! k = Some h → whereabouts a !! r = Some (hp_backing h, reg) → ∀ g,
  sim (mkHeaps (<[k := mkHeap (hp_backing h) (hp_length h) g (base.delete r (hp_placements h))]> (heaps s)) (hs_retiring s) (base.delete r (placed s)))
      (mkLedger (names_of a) (base.delete r (whereabouts a))).
Proof.
  intros H Hh Hr g. destruct (sim_live _ _ _ _ H Hh) as [Hn Hw]. split; cbn [heaps hs_retiring placed names_of whereabouts].
  - apply removed_ok, H.
  - intros k'. destruct (decide (k' = k)) as [->|Hne].
    + rewrite lookup_insert_eq, Hn. cbn. split_and!; try done. by rewrite (removed_residents _ _ _ _ _ Hr), decide_True, Hw by done.
    + rewrite lookup_insert_ne by done. pose proof (sim_heap _ _ H k') as Hk. destruct (heaps s !! k') as [h'|], (names_of a !! k') as [[b' l']|] eqn:En; try done.
      destruct Hk as (<- & <- & ->). split_and!; try done. rewrite (removed_residents _ _ _ _ _ Hr), decide_False; [done|]. intros E.
      rewrite E in En. destruct Hne. by eapply (lo_one _ (sim_ok _ _ H)).
  - intros b'. rewrite (sim_retiring _ _ H), (removed_residents _ _ _ _ _ Hr). change (a_named (mkLedger _ _) b') with (a_named a b').
    destruct (decide (b' = hp_backing h)) as [->|]; [|done]. by rewrite (proj2 (a_named_spec a (hp_backing h))) by eauto.
  - by rewrite (sim_placed _ _ H), fmap_delete.
Qed.
Lemma remove_retiring_sim s a b r reg : sim s a → a_named a b = false → whereabouts a !! r = Some (b, reg) →
  sim (mkHeaps (heaps s) (if decide (base.delete r (residents a b) = ∅) then base.delete b (hs_retiring s) else <[b := base.delete r (residents a b)]> (hs_retiring s)) (base.delete r (placed s)))
      (mkLedger (names_of a) (base.delete r (whereabouts a))).
Proof.
  intros H Hb Hr. split; cbn [heaps hs_retiring placed names_of whereabouts].
  - apply removed_ok, H.
  - intros k. pose proof (sim_heap _ _ H k) as Hk. destruct (heaps s !! k) as [h'|], (names_of a !! k) as [[b' l']|] eqn:En; try done.
    destruct Hk as (<- & <- & ->). split_and!; try done. rewrite (removed_residents _ _ _ _ _ Hr), decide_False; [done|]. intros E.
    rewrite E in En. by rewrite (proj2 (a_named_spec a b)) in Hb by eauto.
  - intros b'. rewrite (removed_residents _ _ _ _ _ Hr). change (a_named (mkLedger _ _) b') with (a_named a b').
    destruct (decide (b' = b)) as [->|Hne].
    + rewrite Hb. destruct (decide (base.delete r (residents a b) = ∅)); [apply lookup_delete_eq|apply lookup_insert_eq].
    + rewrite <- (sim_retiring _ _ H). destruct (decide _); [by rewrite lookup_delete_ne|by rewrite lookup_insert_ne].
  - by rewrite (sim_placed _ _ H), fmap_delete.
Qed.
Lemma dropped_name_named a k b l b' : ledger_ok a → names_of a !! k = Some (b, l) →
  a_named (mkLedger (base.delete k (names_of a)) (whereabouts a)) b' = negb (b =? b') && a_named a b'.
Proof.
  intros H Hk. apply eq_true_iff_eq. rewrite andb_true_iff, negb_true_iff, !a_named_spec, Z.eqb_neq. cbn. split.
  - intros (k' & l' & [Hne E]%lookup_delete_Some). split; [|eauto]. intros ->. destruct Hne. by eapply (lo_one _ H).
  - intros [Hne (k' & l' & E)]. exists k', l'. rewrite lookup_delete_ne; [done|]. intros ->. congruence.
Qed.
Lemma delete_sim s a k h : sim s a → heaps s !! k = Some h →
  sim (mkHeaps (base.delete k (heaps s)) (if decide (hp_placements h = ∅) then hs_retiring s else <[hp_backing h := hp_placements h]> (hs_retiring s)) (placed s))
      (mkLedger (base.delete k (names_of a)) (whereabouts a)).
Proof.
  intros H Hh. destruct (sim_live _ _ _ _ H Hh) as [Hn Hw]. split; cbn [heaps hs_retiring placed names_of whereabouts].
  - split; cbn.
    + intros k1 k2 b l1 l2 [_ E1]%lookup_delete_Some [_ E2]%lookup_delete_Some. by eapply (lo_one _ (sim_ok _ _ H)).
    + intros r b reg E. destruct (lo_fits _ (sim_ok _ _ H) r b reg E) as (? & ? & ? & Hf). split_and!; try done.
      intros k' l' [_ E']%lookup_delete_Some. by eapply Hf.
  - intros k'. destruct (decide (k' = k)) as [->|Hne]; [by rewrite !lookup_delete_eq|]. rewrite !lookup_delete_ne by done. apply (sim_heap _ _ H k').
  - intros b'. rewrite (dropped_name_named _ _ _ _ _ (sim_ok _ _ H) Hn). change (residents (mkLedger _ _) b') with (residents a b').
    destruct (decide (hp_backing h = b')) as [<-|Hne].
    + rewrite Z.eqb_refl, Hw. cbn. destruct (decide _); [|by rewrite lookup_insert_eq].
      rewrite (sim_retiring _ _ H). by rewrite (proj2 (a_named_spec a _)) by eauto.
    + rewrite (proj2 (Z.eqb_neq _ _) Hne). cbn. destruct (decide (hp_placements h = ∅)); [|rewrite lookup_insert_ne by done]; apply (sim_retiring _ _ H).
  - apply (sim_placed _ _ H).
Qed.

Lemma window_resident a b pl r : names_window (residents a b) pl r = inl tt → whereabouts a !! r = Some (b, pl_region pl).
Proof.
  unfold names_window. destruct (residents a b !! r) as [reg|] eqn:E; [|done]. case_bool_decide as Er; [|done]. intros _. subst reg. by apply residents_lookup.
Qed.
(** A name that is not a live number over its own storage is looked for among the retiring. *)
Lemma remove_retiring_step s a pl r : sim s a →
  (a_named a (pl_backing pl) = true → reachable a pl = false) → (a_named a (pl_backing pl) = false → reachable a pl = occupied a (pl_backing pl)) →
  let '(x, s') := remove_retiring s pl r in let '(y, a') := ledger_step a (HRemove pl r) in y = ARetired x ∧ sim s' a'.
Proof.
  intros H Hl Hd. unfold remove_retiring, ledger_step. rewrite (sim_retiring _ _ H). destruct (a_named a (pl_backing pl)) eqn:En; [by rewrite Hl|].
  rewrite Hd by done. unfold occupied. rewrite En. destruct (decide (residents a (pl_backing pl) = ∅)) as [E|E].
  { rewrite bool_decide_eq_false_2 by naive_solver. done. }
  rewrite bool_decide_eq_true_2 by done. cbn [orb negb]. destruct (names_window _ _ _) as [[]|e] eqn:Ew; [|done].
  apply window_resident in Ew. pose proof (remove_retiring_sim _ _ _ _ _ H En Ew) as Hs.
  assert (left_of (mkLedger (names_of a) (base.delete r (whereabouts a))) (pl_backing pl) =
          if decide (base.delete r (residents a (pl_backing pl)) = ∅) then StorageFree (pl_backing pl)
          else Held (size (base.delete r (residents a (pl_backing pl)))) false) as ->.
  { unfold left_of, occupied. rewrite (removed_residents _ _ _ _ _ Ew), decide_True by done. change (a_named (mkLedger _ _) ?b) with (a_named a b).
    rewrite En. cbn [orb]. destruct (decide _); [rewrite bool_decide_eq_false_2 by naive_solver|rewrite bool_decide_eq_true_2 by done]; done. }
  revert Hs. by destruct (decide (base.delete r _ = ∅)).
Qed.
Lemma remove_step s a pl r : sim s a →
  let '(x, s') := heap_remove s pl r in let '(y, a') := ledger_step a (HRemove pl r) in y = ARetired x ∧ sim s' a'.
Proof.
  intros H. unfold heap_remove. destruct (heaps s !! pl_heap pl) as [h|] eqn:Eh.
  - destruct (sim_live _ _ _ _ H Eh) as [Hn Hw]. destruct (hp_backing h =? pl_backing pl) eqn:Eb.
    + apply Z.eqb_eq in Eb. unfold ledger_step, reachable. rewrite Hn, Eb, Z.eqb_refl, Hw, Eb. cbn [orb negb].
      destruct (names_window _ _ _) as [[]|e] eqn:Ew; [|done]. apply window_resident in Ew. split.
      * unfold left_of, occupied. change (a_named (mkLedger _ _) ?b) with (a_named a b).
        rewrite (proj2 (a_named_spec a _)) by (rewrite <- Eb; eauto). cbn [orb].
        by rewrite (removed_residents _ _ _ _ _ Ew), decide_True.
      * rewrite <- Eb in *. rewrite <- Hw. apply (remove_live_sim _ _ _ _ _ _ H Eh Ew (u64 (hp_generation h + 1))).
    + apply remove_retiring_step; [done|..]; unfold reachable; rewrite Hn, Eb; intros ->; done.
  - pose proof (sim_gone _ _ _ H Eh) as Hn. apply remove_retiring_step; [done|..]; unfold reachable; rewrite Hn; intros ->; done.
Qed.
Lemma place_step s a k r off len : sim s a → 0 ≤ off → 0 ≤ len →
  ∃ x s', heap_place s k r off len = Some (x, s') ∧ let '(y, a') := ledger_step a (HPlace k r off len) in y = APlaced x ∧ sim s' a'.
Proof.
  intros H Ho Hl. unfold heap_place, admits, live, ledger_step. destruct (heaps s !! k) as [h|] eqn:Eh.
  2: { rewrite (sim_gone _ _ _ H Eh). eauto. }
  destruct (sim_live _ _ _ _ H Eh) as [-> _]. destruct (runs_past off len (hp_length h)) eqn:Ep; [eauto|].
  rewrite (sim_placed _ _ H), lookup_fmap. destruct (whereabouts a !! r) as [[b' reg']|] eqn:Er; cbn; [eauto|].
  do 2 eexists. split; [done|]. split; [done|]. by apply (place_sim _ _ _ _ _ _ _ H Eh Er Ho Hl Ep).
Qed.
Lemma heap_step_sim s a c : sim s a → offsets_ok c →
  ∃ s', heap_step s c = Some ((ledger_step a c).1, s') ∧ sim s' (ledger_step a c).2.
Proof.
  intros H Hc. destruct c as [k b l|k r off len|pl r|k]; unfold heap_step.
  - unfold heap_create, ledger_step. rewrite (sim_holds _ _ _ H). destruct (heaps s !! k) as [h|] eqn:Eh.
    + destruct (sim_live _ _ _ _ H Eh) as [-> _]. rewrite !bool_decide_eq_true_2 by eauto. eauto.
    + rewrite (sim_gone _ _ _ H Eh), !bool_decide_eq_false_2 by (by intros []). destruct (occupied a b) eqn:Eo; [eauto|].
      eexists. split; [done|]. apply create_sim; [done| |done]. by apply (sim_gone _ _ _ H).
  - destruct Hc as [Ho Hl]. destruct (place_step _ _ k r off len H Ho Hl) as (x & s' & -> & Hs). destruct (ledger_step _ _) as [y a']. destruct Hs as [-> Hs]. eauto.
  - pose proof (remove_step _ _ pl r H) as Hs. destruct (heap_remove s pl r) as [x s'], (ledger_step _ _) as [y a']. destruct Hs as [-> Hs]. eauto.
  - unfold heap_delete, ledger_step. destruct (heaps s !! k) as [h|] eqn:Eh; [|rewrite (sim_gone _ _ _ H Eh); eauto].
    destruct (sim_live _ _ _ _ H Eh) as [Hn Hw]. rewrite Hn. pose proof (delete_sim _ _ _ _ H Eh) as Hs. unfold left_of, occupied.
    rewrite (dropped_name_named _ _ _ _ _ (sim_ok _ _ H) Hn), Z.eqb_refl. change (residents (mkLedger _ _) ?b) with (residents a b).
    rewrite <- Hw. cbn [negb andb orb]. destruct (decide (hp_placements h = ∅)) as [E|E].
    + rewrite bool_decide_eq_false_2 by naive_solver. eauto.
    + rewrite bool_decide_eq_true_2 by done. eauto.
Qed.
Lemma heap_run_sim cs : ∀ s a, sim s a → Forall offsets_ok cs →
  ∃ s', heap_run s cs = Some ((ledger_run a cs).1, s') ∧ sim s' (ledger_run a cs).2.
Proof.
  induction cs as [|c cs IH]; intros s a H Hc; [exists s; done|]. apply Forall_cons in Hc as [Hc Hcs].
  destruct (heap_step_sim _ _ _ H Hc) as (s1 & E1 & H1). destruct (IH _ _ H1 Hcs) as (s2 & E2 & H2). exists s2. cbn [heap_run ledger_run].
  rewrite E1, E2. destruct (ledger_step a c) as [x a1]. cbn in *. by destruct (ledger_run a1 cs).
Qed.
Lemma new_sim : sim heaps_new no_heaps.
Proof. split; [split; cbn; naive_solver|done|done|done]. Qed.

(** ** When storage is handed back *)
Definition freed (x : heap_answer) : option Z := match x with ARetired (inl (StorageFree b)) => Some b | _ => None end.

Lemma occupied_spec a b : occupied a b = true ↔ (∃ k l, names_of a !! k = Some (b, l)) ∨ ∃ r reg, whereabouts a !! r = Some (b, reg).
Proof.
  unfold occupied. rewrite orb_true_iff, a_named_spec, bool_decide_eq_true. apply or_iff_compat_l. split.
  - intros (r & reg & E)%map_choose. exists r, reg. by apply residents_lookup.
  - intros (r & reg & E%residents_lookup) E0. by rewrite E0 in E.
Qed.
Lemma left_freed a b b' : freed (ARetired (inl (left_of a b))) = Some b' ↔ b' = b ∧ occupied a b = false.
Proof. unfold left_of. destruct (occupied a b); cbn; naive_solver. Qed.
Lemma grows_frees_none a a' b : (∀ k x, names_of a !! k = Some x → names_of a' !! k = Some x) →
  (∀ r x, whereabouts a !! r = Some x → whereabouts a' !! r = Some x) → occupied a b = true → occupied a' b = true.
Proof. intros Hn Hw. rewrite !occupied_spec. naive_solver. Qed.
Lemma kept_frees x a a' b : freed x = None → (occupied a b = true → occupied a' b = true) →
  freed x = Some b ↔ occupied a b = true ∧ occupied a' b = false.
Proof. intros -> Hk. split; [done|]. intros [H1 H2]. rewrite Hk in H2 by done. done. Qed.
Lemma shrinks_frees a a' b0 b : occupied a b0 = true → (b ≠ b0 → occupied a b = true → occupied a' b = true) →
  freed (ARetired (inl (left_of a' b0))) = Some b ↔ occupied a b = true ∧ occupied a' b = false.
Proof.
  intros H0 Hk. rewrite left_freed. split; [naive_solver|]. intros [H1 H2]. destruct (decide (b = b0)) as [->|Hne]; [done|]. rewrite Hk in H2 by done. done.
Qed.
Lemma ledger_step_frees a c b : ledger_ok a →
  freed (ledger_step a c).1 = Some b ↔ occupied a b = true ∧ occupied (ledger_step a c).2 b = false.
Proof.
  intros Ha. destruct c as [k b0 l|k r off len|pl r|k]; unfold ledger_step.
  - case_bool_decide as Hk; [by apply kept_frees|]. destruct (occupied a b0); [by apply kept_frees|]. apply kept_frees; [done|].
    apply grows_frees_none; cbn; [|done]. intros k' x E. rewrite lookup_insert_ne; [done|]. intros ->. apply Hk. eauto.
  - destruct (names_of a !! k) as [[b0 l]|]; [|by apply kept_frees]. destruct (runs_past off len l); [by apply kept_frees|].
    destruct (whereabouts a !! r) as [[b1 l1]|] eqn:Er; [by apply kept_frees|]. apply kept_frees; [done|].
    apply grows_frees_none; cbn; [done|]. intros r' x E. rewrite lookup_insert_ne; [done|]. congruence.
  - destruct (reachable a pl); cbn [negb]; [|by apply kept_frees].
    destruct (names_window _ _ _) as [[]|e] eqn:Ew; [|by apply kept_frees]. apply window_resident in Ew. cbn [fst snd]. apply shrinks_frees.
    + apply occupied_spec. eauto.
    + intros Hne. rewrite !occupied_spec. intros [?|(r' & reg & E)]; [by left|]. right. exists r', reg. cbn. rewrite lookup_delete_ne; [done|]. congruence.
  - destruct (names_of a !! k) as [[b0 l]|] eqn:Ek; [|by apply kept_frees]. cbn [fst snd]. apply shrinks_frees.
    + apply occupied_spec. eauto.
    + intros Hne. rewrite !occupied_spec. intros [(k' & l' & E)|?]; [|by right]. left. exists k', l'. cbn. rewrite lookup_delete_ne; [done|]. congruence.
Qed.

(** C19: the heaps answer as a ledger that only records which storage each number names and
    where each resource is would, on every sequence of calls and every refusal: there is no
    panic; a resource is in one storage at most, whatever number it was placed under and
    whether or not the number has been deleted or given to other storage since; a stale or
    made-up placement removes nothing.  And a call hands a storage back to be torn down exactly
    when something held it before, a number or a resource placed in it, and nothing does
    after. *)
Theorem heap_storage_exact cs c :
  Forall offsets_ok cs → offsets_ok c →
  let '(log, a) := ledger_run no_heaps cs in
  let '(x, a') := ledger_step a c in
  ∃ s s', heap_run heaps_new cs = Some (log, s) ∧ heap_step s c = Some (x, s') ∧
    (∀ b, holds_storage s' b = occupied a' b) ∧
    (∀ k r, placement s' k r = match names_of a' !! k with
                               | None => inr (NoSuchHeap k)
                               | Some (b, _) => match residents a' b !! r with
                                                | Some region => inl (mkPlacement k b region)
                                                | None => inr (NotPlaced r)
                                                end
                               end) ∧
    ∀ b, freed x = Some b ↔ holds_storage s b = true ∧ holds_storage s' b = false.
Proof.
  intros Hcs Hc. destruct (heap_run_sim cs _ _ new_sim Hcs) as (s & Es & Hs). destruct (ledger_run no_heaps cs) as [log a]. cbn [fst snd] in *.
  destruct (heap_step_sim _ _ _ Hs Hc) as (s' & Es' & Hs'). pose proof (λ b, ledger_step_frees a c b (sim_ok _ _ Hs)) as Hf.
  destruct (ledger_step a c) as [x a']. cbn [fst snd] in *. exists s, s'. split_and!; try done.
  - intros b. by apply sim_holds.
  - intros k r. unfold placement, live. pose proof (sim_heap _ _ Hs' k) as Hk.
    destruct (heaps s' !! k) as [h|], (names_of a' !! k) as [[b l]|]; try done. destruct Hk as (-> & _ & ->). done.
  - intros b. rewrite (sim_holds _ _ _ Hs), (sim_holds _ _ _ Hs'). apply Hf.
Qed.

(** Two heaps.  The first is deleted with a resource in it and its number given to other
    storage; the placement handed out before then still reaches the storage it was given. *)
Definition demo_buffer : ResourceId := mkResourceId 7 1.
Definition demo_texture : ResourceId := mkResourceId 8 1.
Definition demo_placement : HeapPlacement := mkPlacement 1 100 (mkByteRange 256 256).
Definition demo_heap_calls : list heap_call :=
  [HCreate 1 100 4096; HPlace 1 demo_buffer 256 256; HDelete 1; HCreate 1 100 4096; HCreate 1 200 4096; HPlace 1 demo_texture 4000 97].
Lemma demo_heap_log :
  (ledger_run no_heaps demo_heap_calls).1 =
    [ACreated (inl tt); APlaced (inl demo_placement); ARetired (inl (Held 1 false)); ACreated (inr (StorageInUse 100)); ACreated (inl tt);
     APlaced (inr (OutOfHeap 1 4000 97 4096))].
Proof. vm_compute. reflexivity. Qed.
Lemma heap_storage_exact_witness : ∃ s s',
  heap_run heaps_new demo_heap_calls = Some ((ledger_run no_heaps demo_heap_calls).1, s) ∧
  heap_step s (HRemove demo_placement demo_buffer) = Some (ARetired (inl (StorageFree 100)), s') ∧
  holds_storage s 100 = true ∧ holds_storage s' 100 = false.
Proof.
  pose proof (heap_storage_exact demo_heap_calls (HRemove demo_placement demo_buffer) ltac:(repeat constructor; cbn; lia) I) as H.
  destruct (ledger_run no_heaps demo_heap_calls) as [log a] eqn:El. vm_compute in El. injection El as <- <-. cbn [fst].
  destruct (ledger_step _ _) as [x a'] eqn:Ea in H. vm_compute in Ea. injection Ea as <- <-.
  destruct H as (s & s' & Hr & Hs & _ & _ & Hf). exists s, s'. split; [exact Hr|]. split; [exact Hs|]. apply (Hf 100). reflexivity.
Defined.

(** ** Windows and aliasing *)
Lemma placement_live s a k r pl : sim s a → placement s k r = inl pl →
  ∃ l, names_of a !! k = Some (pl_backing pl, l) ∧ whereabouts a !! r = Some (pl_backing pl, pl_region pl).
Proof.
  intros H. unfold placement, live. destruct (heaps s !! k) as [h|] eqn:Eh; [|done]. destruct (sim_live _ _ _ _ H Eh) as [Hn ->].
  destruct (residents a (hp_backing h) !! r) as [reg|] eqn:Er; [|done]. intros [= <-]. cbn. exists (hp_length h). split; [done|]. by apply residents_lookup.
Qed.
Lemma placement_within_eq pl o l : 0 ≤ offset (pl_region pl) → offset (pl_region pl) + length_ (pl_region pl) ≤ UINT64_MAX → 0 ≤ o → 0 ≤ l →
  placement_within pl o l = if o + l <=? length_ (pl_region pl) then inl (mkByteRange (offset (pl_region pl) + o) l)
                            else inr (OutOfPlacement o l (length_ (pl_region pl))).
Proof.
  intros ? ? ? ?. unfold placement_within, runs_past. destruct (o + l <=? length_ (pl_region pl)) eqn:E.
  - replace (_ || _) with false by lia. by rewrite Z.min_l by lia.
  - by replace (_ || _) with true by lia.
Qed.

(** C40: the keys of two placed resources alias exactly when bytes are shared.  For two
    resources placed in live heaps after any calls, a window of [l] bytes at [o] is accepted
    exactly when it lies inside the resource, and then it is those bytes, in a window of the
    heap's storage that the heap's length contains; and the accesses the two windows give, under any membership
    stamps of their heaps, may alias exactly when the heaps are one heap and some byte of the
    first window and some byte of the second are the same byte of it.  A declaration of the
    whole heap meets a window exactly when it names that heap, whatever generation it was
    recorded at. *)
Theorem heap_windows_exact cs log s k1 k2 r1 r2 pl1 pl2 o1 l1 o2 l2 w1 w2 m1 m2 m :
  Forall offsets_ok cs → heap_run heaps_new cs = Some (log, s) →
  placement s k1 r1 = inl pl1 → placement s k2 r2 = inl pl2 → heap_id m1 = k1 → heap_id m2 = k2 →
  0 ≤ o1 → 0 ≤ l1 → 0 ≤ o2 → 0 ≤ l2 → placement_within pl1 o1 l1 = inl w1 → placement_within pl2 o2 l2 = inl w2 →
  (∀ o l, 0 ≤ o → 0 ≤ l → placement_within pl1 o l = if o + l <=? length_ (pl_region pl1) then inl (mkByteRange (offset (pl_region pl1) + o) l)
                                                      else inr (OutOfPlacement o l (length_ (pl_region pl1)))) ∧
  (∃ h, live s k1 = inl h ∧ pl_backing pl1 = hp_backing h ∧ offset (pl_region pl1) + length_ (pl_region pl1) ≤ hp_length h) ∧
  (may_alias (Range (placement_key pl1 m1) w1) (Range (placement_key pl2 m2) w2) = true ↔
   k1 = k2 ∧ ∃ i j, o1 ≤ i < o1 + l1 ∧ o2 ≤ j < o2 + l2 ∧ offset (pl_region pl1) + i = offset (pl_region pl2) + j) ∧
  (may_alias (Heap m) (Range (placement_key pl1 m1) w1) = true ↔ heap_id m = k1).
Proof.
  intros Hcs Hr P1 P2 M1 M2 Ho1 Hl1 Ho2 Hl2 W1 W2. destruct (heap_run_sim cs _ _ new_sim Hcs) as (s0 & E0 & H).
  rewrite E0 in Hr. injection Hr as _ ->. set (a := (ledger_run no_heaps cs).2) in *.
  destruct (placement_live _ _ _ _ _ H P1) as (z1 & N1 & Q1), (placement_live _ _ _ _ _ H P2) as (z2 & N2 & Q2).
  destruct (lo_fits _ (sim_ok _ _ H) _ _ _ Q1) as (? & ? & ? & F1), (lo_fits _ (sim_ok _ _ H) _ _ _ Q2) as (? & ? & ? & F2).
  specialize (F1 _ _ N1). specialize (F2 _ _ N2). split; [by intros; apply placement_within_eq|]. split.
  { destruct (sim_live_inv _ _ _ _ _ H N1) as [g Eg]. exists (mkHeap (pl_backing pl1) z1 g (residents a (pl_backing pl1))). unfold live. by rewrite Eg. }
  rewrite placement_within_eq in W1, W2 by done. destruct (o1 + l1 <=? _) eqn:B1; [|done]. destruct (o2 + l2 <=? _) eqn:B2; [|done].
  injection W1 as <-. injection W2 as <-. split.
  - assert (pl_backing pl1 = pl_backing pl2 ↔ k1 = k2) as Hk.
    { split; [intros E; rewrite E in N1; by eapply (lo_one _ (sim_ok _ _ H))|]. intros <-. congruence. }
    rewrite <- Hk. cbn [may_alias resource placement_key backing]. destruct (pl_backing pl1 =? pl_backing pl2) eqn:Eb; cbn [negb].
    + apply Z.eqb_eq in Eb. unfold overlaps, end_of. cbn [offset length_]. split.
      * intros Hv. split; [done|]. destruct (_ || _) eqn:Ez; [done|].
        set (x := (offset (pl_region pl1) + o1) `max` (offset (pl_region pl2) + o2)). exists (x - offset (pl_region pl1)), (x - offset (pl_region pl2)). lia.
      * intros (_ & i & j & ? & ? & ?). destruct (_ || _) eqn:Ez; lia.
    + apply Z.eqb_neq in Eb. split; [done|]. by intros [? _].
  - cbn. unfold in_heap, same_heap. cbn. rewrite M1, Z.eqb_eq. done.
Qed.

Definition demo_window_calls : list heap_call := [HCreate 1 100 4096; HPlace 1 demo_buffer 256 256; HPlace 1 demo_texture 384 256].
Definition demo_heaps : Heaps := match heap_run heaps_new demo_window_calls with Some (_, s) => s | None => heaps_new end.
Definition demo_overlay : HeapPlacement := mkPlacement 1 100 (mkByteRange 384 256).
Lemma heap_windows_exact_witness :
  may_alias (Range (placement_key demo_placement (mkHeapId 1 1)) (mkByteRange 384 64))
            (Range (placement_key demo_overlay (mkHeapId 1 2)) (mkByteRange 384 16)) = true.
Proof.
  assert (heap_run heaps_new demo_window_calls =
          Some ([ACreated (inl tt); APlaced (inl demo_placement); APlaced (inl demo_overlay)], demo_heaps)) as Hr by (vm_compute; reflexivity).
  destruct (heap_windows_exact demo_window_calls _ demo_heaps 1 1 demo_buffer demo_texture demo_placement demo_overlay 128 64 0 16
           (mkByteRange 384 64) (mkByteRange 384 16) (mkHeapId 1 1) (mkHeapId 1 2) (mkHeapId 1 0)
           ltac:(repeat constructor; cbn; lia) Hr eq_refl eq_refl eq_refl eq_refl ltac:(lia) ltac:(lia) ltac:(lia) ltac:(lia) eq_refl eq_refl) as (_ & _ & [_ Ha] & _).
  apply Ha. split; [reflexivity|]. exists 128, 0. cbn. lia.
Defined.
