(* ===== verification/Retire.v ===== *)
(** Native objects and when they may be destroyed:
    src/reims-vgpu/crates/reims-vgpu-core/src/retire.rs.

    An object waits with the device epoch its handles belong to and the timeline point of its
    last use.  It leaves the queue when that epoch's timeline reaches the point, to be
    destroyed, or when the epoch is lost, to be dropped untouched.  Both take objects out of
    the middle of a vector with [swap_remove], which puts the last element in the hole: the
    loop stays at the index it took from. *)
From S2P Require Import Prelude Access.

(** ** Lifetimes *)
Record Lifetime := mkLifetime { lt_session : Z; lt_epoch : Z }.
Inductive Validity := Live | SemanticallyClosed | HandlesUnusable | Gone.
Definition admits_new_work (v : Validity) : bool := match v with Live => true | _ => false end.
Definition handles_usable (v : Validity) : bool := match v with Live | SemanticallyClosed => true | _ => false end.
Definition against (self : Lifetime) (session epoch : Z) : Validity :=
  match lt_session self =? session, lt_epoch self =? epoch with
  | true, true => Live
  | false, true => SemanticallyClosed
  | true, false => HandlesUnusable
  | false, false => Gone
  end.
(** TimelinePoint::reached. *)
Definition point_reached (self other : Z) : bool := other <=? self.

(** ** The queue *)
Section Queue.
Context {T : Type}.
Record Entry := mkEntry { en_lifetime : Lifetime; en_last_use : Z; en_object : T }.
Record Retired := mkRetired { rt_lifetime : Lifetime; rt_last_use : Z; rt_object : T }.
Record Abandoned := mkAbandoned { ab_lifetime : Lifetime; ab_object : T }.
Record NativeRetirement := mkRetirement { pending : list Entry; retired : nat; abandoned : nat }.
Definition retirement_new : NativeRetirement := mkRetirement [] 0 0.

Definition queue (q : NativeRetirement) (lifetime : Lifetime) (last_use : Z) (object : T) : NativeRetirement :=
  mkRetirement (pending q ++ [mkEntry lifetime last_use object]) (retired q) (abandoned q).

(** [Vec::swap_remove]: the element at [i] is replaced by the last one; out of range it
    panics. *)
Definition swap_remove {A} (l : list A) (i : nat) : option (A * list A) :=
  match l !! i, last l with
  | Some x, Some y => Some (x, take (pred (length l)) (<[i := y]> l))
  | _, _ => None
  end.
(** [while i < pending.len()]: [None] is out of fuel or a panic. *)
Fixpoint drain (p : Entry → bool) (fuel : nat) (l : list Entry) (i : nat) (out : list Entry) : option (list Entry * list Entry) :=
  match fuel with
  | O => None
  | S fuel =>
      if (i <? length l)%nat then
        match l !! i with
        | None => None
        | Some e =>
            if p e then match swap_remove l i with Some (e, l) => drain p fuel l i (out ++ [e]) | None => None end
            else drain p fuel l (S i) out
        end
      else Some (out, l)
  end.
Definition retires (epoch at_ : Z) (e : Entry) : bool := (lt_epoch (en_lifetime e) =? epoch) && point_reached at_ (en_last_use e).
Definition reached (q : NativeRetirement) (epoch at_ : Z) : option (list Retired * NativeRetirement) :=
  match drain (retires epoch at_) (S (length (pending q))) (pending q) 0 [] with
  | None => None
  | Some (out, l) =>
      Some ((λ e, mkRetired (en_lifetime e) (en_last_use e) (en_object e)) <$> out, mkRetirement l (retired q + length out) (abandoned q))
  end.
Definition belongs (epoch : Z) (e : Entry) : bool := lt_epoch (en_lifetime e) =? epoch.
Definition epoch_lost (q : NativeRetirement) (epoch : Z) : option (list Abandoned * NativeRetirement) :=
  match drain (belongs epoch) (S (length (pending q))) (pending q) 0 [] with
  | None => None
  | Some (out, l) => Some ((λ e, mkAbandoned (en_lifetime e) (en_object e)) <$> out, mkRetirement l (retired q) (abandoned q + length out))
  end.
Definition retirement_outstanding (q : NativeRetirement) : nat := length (pending q).
Definition outstanding_in (q : NativeRetirement) (epoch : Z) : nat := length (filter (λ e, belongs epoch e = true) (pending q)).
Definition census (q : NativeRetirement) : nat * nat := (retired q, abandoned q).

(** ** The loop

    [swap_remove] takes the element out: what is left, past [i], is what was there in some
    order. *)
Lemma swap_remove_split {A} (pre post : list A) x :
  ∃ post', swap_remove (pre ++ x :: post) (length pre) = Some (x, pre ++ post') ∧ post' ≡ₚ post.
Proof.
  unfold swap_remove. rewrite list_lookup_middle by done. destruct post as [|y post _] using rev_ind.
  - exists []. rewrite last_snoc, insert_app_r_alt, Nat.sub_diag by lia. split; [|done].
    rewrite length_app, Nat.add_1_r, app_nil_r. do 2 f_equal. by apply take_app_length'.
  - exists (y :: post). rewrite app_comm_cons, app_assoc, last_snoc. split; [|by rewrite Permutation_cons_append].
    rewrite <- app_assoc, insert_app_r_alt, Nat.sub_diag by lia. rewrite <- app_comm_cons. cbn [list_insert insert].
    do 2 f_equal. rewrite (app_assoc pre (y :: post) [y] : pre ++ y :: post ++ [y] = _). apply take_app_length'. repeat (rewrite !length_app; cbn). lia.
Qed.
Lemma drain_split p fuel : ∀ rest pre out, (length rest < fuel)%nat → ∃ taken kept,
  drain p fuel (pre ++ rest) (length pre) out = Some (out ++ taken, pre ++ kept) ∧ taken ++ kept ≡ₚ rest ∧
  Forall (λ e, p e = true) taken ∧ Forall (λ e, p e = false) kept.
Proof.
  induction fuel as [|fuel IH]; intros rest pre out Hf; [lia|]. cbn [drain]. destruct rest as [|e rest].
  { rewrite (proj2 (Nat.ltb_ge _ _)) by (rewrite app_nil_r; lia). exists [], []. rewrite !app_nil_r. split_and!; constructor. }
  rewrite (proj2 (Nat.ltb_lt _ _)) by (rewrite length_app; cbn; lia). rewrite list_lookup_middle by done. cbn in Hf. destruct (p e) eqn:Ep.
  - destruct (swap_remove_split pre rest e) as (rest' & -> & Hp). destruct (IH rest' pre (out ++ [e])) as (taken & kept & -> & Hs & Ht & Hk); [rewrite Hp; lia|].
    exists (e :: taken), kept. rewrite <- app_assoc. split; [done|]. split; [|by split; [constructor|]]. cbn. by rewrite Hs, Hp.
  - destruct (IH rest (pre ++ [e]) out) as (taken & kept & E & Hs & Ht & Hk); [lia|]. rewrite length_app, Nat.add_1_r, <- app_assoc in E. cbn in E.
    exists taken, (e :: kept). rewrite E, <- app_assoc. split; [done|]. split; [by rewrite <- Permutation_middle, Hs|]. by split; [|constructor].
Qed.
Lemma filter_all {A} (P : A → Prop) `{!∀ x, Decision (P x)} l : Forall P l → filter P l = l.
Proof. induction 1 as [|x l ? ? IH]; [done|]. rewrite filter_cons_True by done. by rewrite IH. Qed.
Lemma filter_none {A} (P : A → Prop) `{!∀ x, Decision (P x)} l : Forall (λ x, ¬ P x) l → filter P l = [].
Proof. induction 1 as [|x l ? ? IH]; [done|]. by rewrite filter_cons_False. Qed.
(** With one round per element and one to stop, the loop ends and takes out what [p] selects. *)
Lemma drain_exact p l : ∃ taken kept, drain p (S (length l)) l 0 [] = Some (taken, kept) ∧
  taken ≡ₚ filter (λ e, p e = true) l ∧ kept ≡ₚ filter (λ e, ¬ p e = true) l.
Proof.
  destruct (drain_split p (S (length l)) l [] []) as (taken & kept & E & Hs & Ht & Hk); [lia|]. exists taken, kept. split; [done|].
  rewrite <- Hs, !filter_app, (filter_all _ taken), (filter_none _ kept), (filter_none _ taken), (filter_all _ kept); [by rewrite app_nil_r|..].
  all: first [eapply Forall_impl; [exact Hk|]|eapply Forall_impl; [exact Ht|]]; cbn; congruence.
Qed.

(** ** The caller, and a reference without the vector's order *)
Inductive retire_call := RQueue (lifetime : Lifetime) (last_use : Z) (object : T) | RReached (epoch at_ : Z) | RLost (epoch : Z).
Inductive retire_answer := AQueued | ADestroy (out : list Retired) | ADrop (out : list Abandoned).
Definition retire_step (q : NativeRetirement) (c : retire_call) : option (retire_answer * NativeRetirement) :=
  match c with
  | RQueue lifetime last_use object => Some (AQueued, queue q lifetime last_use object)
  | RReached epoch at_ => match reached q epoch at_ with Some (out, q) => Some (ADestroy out, q) | None => None end
  | RLost epoch => match epoch_lost q epoch with Some (out, q) => Some (ADrop out, q) | None => None end
  end.
Fixpoint retire_run (q : NativeRetirement) (cs : list retire_call) : option (list retire_answer * NativeRetirement) :=
  match cs with
  | [] => Some ([], q)
  | c :: cs =>
      match retire_step q c with
      | None => None
      | Some (a, q) => match retire_run q cs with Some (log, q) => Some (a :: log, q) | None => None end
      end
  end.

(** The entries a call takes out, and the ones it leaves. *)
Definition selects (c : retire_call) (e : Entry) : bool :=
  match c with
  | RQueue _ _ _ => false
  | RReached epoch at_ => (lt_epoch (en_lifetime e) =? epoch) && (en_last_use e <=? at_)
  | RLost epoch => lt_epoch (en_lifetime e) =? epoch
  end.
Definition queued (c : retire_call) : list Entry := match c with RQueue lt u o => [mkEntry lt u o] | _ => [] end.
Definition takes (c : retire_call) (l : list Entry) : list Entry := filter (λ e, selects c e = true) l.
Definition leaves (c : retire_call) (l : list Entry) : list Entry := filter (λ e, ¬ selects c e = true) l ++ queued c.
Fixpoint ref_log (l : list Entry) (cs : list retire_call) : list (list Entry) :=
  match cs with [] => [] | c :: cs => takes c l :: ref_log (leaves c l) cs end.
Definition ref_pending (l : list Entry) (cs : list retire_call) : list Entry := foldl (λ l c, leaves c l) l cs.

Definition as_retired (e : Entry) : Retired := mkRetired (en_lifetime e) (en_last_use e) (en_object e).
Definition as_abandoned (e : Entry) : Abandoned := mkAbandoned (en_lifetime e) (en_object e).
(** The answer hands back these entries: to be destroyed on a completion, to be dropped on a
    loss. *)
Definition hands_back (c : retire_call) (a : retire_answer) (es : list Entry) : Prop :=
  match c, a with
  | RQueue _ _ _, AQueued => es = []
  | RReached _ _, ADestroy out => out ≡ₚ as_retired <$> es
  | RLost _, ADrop out => out ≡ₚ as_abandoned <$> es
  | _, _ => False
  end.
Definition answer_size (a : retire_answer) : nat * nat :=
  match a with AQueued => (0, 0)%nat | ADestroy out => (length out, 0%nat) | ADrop out => (0%nat, length out) end.

Instance leaves_perm c : Proper ((≡ₚ) ==> (≡ₚ)) (leaves c).
Proof. intros l l' E. unfold leaves. by rewrite E. Qed.
Instance takes_perm c : Proper ((≡ₚ) ==> (≡ₚ)) (takes c).
Proof. intros l l' E. unfold takes. by rewrite E. Qed.
Lemma takes_leaves c l : takes c l ++ leaves c l ≡ₚ l ++ queued c.
Proof. unfold takes, leaves. by rewrite app_assoc, filter_app_complement. Qed.
Lemma hands_back_perm c a es es' : es ≡ₚ es' → hands_back c a es → hands_back c a es'.
Proof. intros E. destruct c, a; cbn; try done; [intros ->; symmetry; by apply Permutation_nil_l|by rewrite E|by rewrite E]. Qed.
Lemma retire_step_exact q c : ∃ a q', retire_step q c = Some (a, q') ∧ hands_back c a (takes c (pending q)) ∧ pending q' ≡ₚ leaves c (pending q) ∧
  census q' = (((census q).1 + (answer_size a).1)%nat, ((census q).2 + (answer_size a).2)%nat).
Proof.
  destruct c as [lt u o|epoch at_|epoch]; cbn [retire_step].
  - do 2 eexists. split; [done|]. unfold takes, leaves. cbn. rewrite (filter_none _ (pending q)), (filter_all _ (pending q)) by (by apply Forall_true).
    split; [done|]. split; [done|]. unfold census. cbn. by rewrite !Nat.add_0_r.
  - unfold reached. destruct (drain_exact (retires epoch at_) (pending q)) as (taken & kept & -> & Ht & Hk). do 2 eexists. split; [done|].
    cbn. split; [by rewrite Ht|]. split; [unfold leaves; by rewrite app_nil_r|]. unfold census. cbn. by rewrite length_fmap, Nat.add_0_r.
  - unfold epoch_lost. destruct (drain_exact (belongs epoch) (pending q)) as (taken & kept & -> & Ht & Hk). do 2 eexists. split; [done|].
    cbn. split; [by rewrite Ht|]. split; [unfold leaves; by rewrite app_nil_r|]. unfold census. cbn. by rewrite length_fmap, Nat.add_0_r.
Qed.
Lemma ref_log_perm cs : ∀ l l' log, l ≡ₚ l' → Forall3 hands_back cs log (ref_log l cs) → Forall3 hands_back cs log (ref_log l' cs).
Proof.
  induction cs as [|c cs IH]; intros l l' log E H; inversion H; subst; cbn; [constructor|]. constructor; [eapply hands_back_perm; [|done]; by rewrite E|].
  eapply IH; [|done]. by rewrite E.
Qed.
Definition sizes (log : list retire_answer) : nat * nat :=
  (sum_list ((λ a, (answer_size a).1) <$> log), sum_list ((λ a, (answer_size a).2) <$> log)).
Lemma ref_pending_perm cs : ∀ l l', l ≡ₚ l' → ref_pending l cs ≡ₚ ref_pending l' cs.
Proof. induction cs as [|c cs IH]; intros l l' E; [done|]. cbn. apply IH. by rewrite E. Qed.
Lemma retire_run_exact cs : ∀ q, ∃ log q', retire_run q cs = Some (log, q') ∧ Forall3 hands_back cs log (ref_log (pending q) cs) ∧
  pending q' ≡ₚ ref_pending (pending q) cs ∧ census q' = (((census q).1 + (sizes log).1)%nat, ((census q).2 + (sizes log).2)%nat).
Proof.
  induction cs as [|c cs IH]; intros q.
  { exists [], q. split; [done|]. split; [constructor|]. split; [done|]. unfold sizes, census. cbn. by rewrite !Nat.add_0_r. }
  destruct (retire_step_exact q c) as (a & q1 & E1 & Hh & Hp & Hc). destruct (IH q1) as (log & q2 & E2 & Hl & Hp2 & Hc2).
  exists (a :: log), q2. cbn [retire_run ref_log]. rewrite E1, E2. split; [done|]. split.
  { constructor; [done|]. by eapply ref_log_perm; [|exact Hl]. }
  split; [rewrite Hp2; by apply (ref_pending_perm cs)|]. rewrite Hc2, Hc. unfold sizes. cbn. f_equal; lia.
Qed.
Lemma ref_conserves cs : ∀ l, concat (ref_log l cs) ++ ref_pending l cs ≡ₚ l ++ concat (queued <$> cs).
Proof.
  induction cs as [|c cs IH]; intros l; [cbn; by rewrite app_nil_r|]. cbn. rewrite <- app_assoc, IH, !app_assoc. by rewrite takes_leaves.
Qed.
Lemma ref_pending_spec cs e : e ∈ ref_pending [] cs ↔
  ∃ i c, cs !! i = Some c ∧ e ∈ queued c ∧ ∀ j c', (i < j)%nat → cs !! j = Some c' → selects c' e = false.
Proof.
  induction cs as [|c cs IH] using rev_ind; [split; [by intros ?%elem_of_nil|naive_solver]|].
  unfold ref_pending. rewrite foldl_snoc. fold (ref_pending [] cs). unfold leaves. rewrite elem_of_app, list_elem_of_filter, IH, not_true_iff_false. split.
  - intros [[Hs (i & c0 & Hi & He & Hj)]|Hq].
    + exists i, c0. split; [by apply lookup_app_l_Some|]. split; [done|]. intros j c' Hij [Hl|[_ Hl]]%lookup_app_Some; [by eapply Hj|].
      by apply list_lookup_singleton_Some in Hl as [_ <-].
    + exists (length cs), c. split; [by apply list_lookup_middle|]. split; [done|]. intros j c' Hij Hl%lookup_lt_Some. rewrite length_app in Hl. cbn in Hl. lia.
  - intros (i & c0 & [Hi|[Hge Hi]]%lookup_app_Some & He & Hj).
    + left. split; [eapply (Hj (length cs)); [by eapply lookup_lt_Some|by apply list_lookup_middle]|]. exists i, c0. split; [done|]. split; [done|].
      intros j c' Hij Hl. eapply Hj; [done|]. by apply lookup_app_l_Some.
    + apply list_lookup_singleton_Some in Hi as [_ <-]. by right.
Qed.

(** C20: native objects retire exactly.  On every sequence of calls both [swap_remove] loops
    end and never index past the vector; a completion hands back, to be destroyed, the waiting
    objects of its epoch whose last use it has reached and no others; a device loss hands back,
    to be dropped, the waiting objects of its epoch and no others; every object queued was
    handed back once or is still waiting; one is waiting exactly when no completion or loss
    since it was queued covered it; and the counters are the number of objects handed back
    either way. *)
Theorem retirement_exact cs : ∃ log q,
  retire_run retirement_new cs = Some (log, q) ∧
  Forall3 hands_back cs log (ref_log [] cs) ∧
  concat (ref_log [] cs) ++ pending q ≡ₚ concat (queued <$> cs) ∧
  (∀ e, e ∈ pending q ↔
    ∃ i c, cs !! i = Some c ∧ e ∈ queued c ∧ ∀ j c', (i < j)%nat → cs !! j = Some c' → selects c' e = false) ∧
  census q = sizes log.
Proof.
  destruct (retire_run_exact cs retirement_new) as (log & q & E & Hl & Hp & Hc). exists log, q. split; [done|]. split; [done|]. split.
  { rewrite Hp. apply (ref_conserves cs []). }
  split; [intros e; rewrite Hp; apply ref_pending_spec|]. rewrite Hc. by destruct (sizes log).
Qed.
End Queue.
