(* ===== verification/Lifecycle.v ===== *)
(** The owner of names, storage and content:
    src/reims-vgpu/crates/reims-vgpu-core/src/lifecycle.rs.

    Every task has a namespace, heaps and the residency of its live names; the session has one
    content ledger over all of them.  A lifecycle operation goes through all three.  An
    operation runs in a monad of its own: it changes the owner's state, may refuse, and may
    panic ([None], an [expect] that fails or a counter below zero). *)
From Stdlib Require Import ZifyBool.
From S2P Require Import Prelude RangeSet Coverage Content Access Depend Ready Namespace Heaps.

(** ** Operations and what they oblige *)
Inductive DestroyKind :=
  | KBuffer | KTexture | KDepthStencilState | KSamplerState | KFunction | KComputePipelineState | KRenderPipelineState | KFence | KHeap
  | KRasterizationRateMap | KIndirectCommandBuffer.
Inductive Storage := Dedicated (b : Z) (ext : ByteRange) | StPlaced (heap off length : Z) | NoBytes.
Record ObjectList := mkObjectList { ol_page : Z; ol_capacity : Z }.
Record GuestSpan := mkGuestSpan { gs_base : Z; gs_length : Z }.
Inductive LifecycleOp :=
  | DefineTask (task : Z) (kernel : bool) (directory : Z) | DeleteTask (task : Z) | BindObjectList (task : Z) (list : ObjectList)
  | CreateResource (task slot : Z) (storage : Storage) | DeleteResource (task object_ref : Z) (resource : option ResourceId)
  | MapMemory (task : Z) (span : GuestSpan) | UnmapMemory (task : Z) (span : GuestSpan)
  | ReplacePhysical (task : Z) (resource : ResourceId) (b : Z) (ext : ByteRange)
  | Invalidate (task : Z) (resources : list ResourceId) | Synchronize (task : Z) (resources : list ResourceId)
  | SynchronizeAndDiscard (task : Z) (resources : list ResourceId) | Discard (task : Z) (resources : list ResourceId)
  | DeleteBacking (task mapping : Z) (b : option Z)
  | DeleteObject (task object_ref : Z) (resource : option ResourceId) (kind : DestroyKind).

Record Declined := mkDeclined { dc_resource : ResourceId; dc_backing : Z; sole_authority_bytes : Z }.
Record DeferredDiscard := mkDeferred { dd_resource : ResourceId; dd_backing : Z; dd_bytes : ByteRange }.
Record Redefinition := mkRedefinition { rd_task : Z; rd_previous : Z; rd_directory : Z }.
Record Remap := mkRemap { rm_task : Z; rm_span : GuestSpan; rm_established : bool }.
Record Effects := mkEffects {
  transfers : list Transfer; teardowns : list Teardown; storage_freed : list Z; at_completion : list DeferredDiscard;
  remapped : list Remap; redefined : list Redefinition }.
Definition no_effects : Effects := mkEffects [] [] [] [] [] [].
Definition absorb (e other : Effects) : Effects :=
  mkEffects (transfers e ++ transfers other) (teardowns e ++ teardowns other) (storage_freed e ++ storage_freed other)
    (at_completion e ++ at_completion other) (remapped e ++ remapped other) (redefined e ++ redefined other).
Definition root_moved (r : Redefinition) : bool := negb (rd_previous r =? rd_directory r).

Inductive LifecycleRefusal :=
  | NoSuchTask (task : Z) | LcNamespace (task : Z) (refusal : NameRefusal) | LcHeap (task : Z) (refusal : HeapRefusal)
  | PlacedResourceHasNoPhysical (resource : ResourceId).

(** ** State *)
Inductive Resident := RDedicated (b : Z) (ext : ByteRange) | RPlaced (p : HeapPlacement).
Definition res_backing (r : Resident) : Z := match r with RDedicated b _ => b | RPlaced p => pl_backing p end.
Definition res_extent (r : Resident) : ByteRange := match r with RDedicated _ ext => ext | RPlaced p => pl_region p end.
Definition window (r : Resident) (off length : Z) : ByteRange + HeapRefusal :=
  match r with
  | RPlaced p => placement_within p off length
  | RDedicated _ ext =>
      if runs_past off length (length_ ext) then inr (OutOfPlacement off length (length_ ext))
      else inl (mkByteRange ((offset ext + off) `min` UINT64_MAX) length)
  end.

Record Task := mkTask {
  tk_directory : Z; tk_object_list : option ObjectList; tk_namespace : Namespace; tk_heaps : Heaps; tk_resident : gmap ResourceId Resident }.
#[export] Instance eta_task : Settable Task := λ t, mkTask (tk_directory t) (tk_object_list t) (tk_namespace t) (tk_heaps t) (tk_resident t).
Definition task_new (directory : Z) : Task := mkTask directory None empty_namespace heaps_new ∅.
Record Lifecycle := mkLifecycle { tasks : gmap Z Task; content : ContentLedger }.
#[export] Instance eta_lifecycle : Settable Lifecycle := λ s, mkLifecycle (tasks s) (content s).
Definition lifecycle_new : Lifecycle := mkLifecycle ∅ empty_ledger.

(** ** The monad *)
Definition act (A : Type) : Type := Lifecycle → option ((A + LifecycleRefusal) * Lifecycle).
#[export] Instance act_ret : MRet act := λ A a s, Some (inl a, s).
#[export] Instance act_bind : MBind act := λ A B f m s,
  match m s with Some (inl a, s) => f a s | Some (inr e, s) => Some (inr e, s) | None => None end.
Definition refuse {A} (e : LifecycleRefusal) : act A := λ s, Some (inr e, s).
Definition expect {A} (o : option A) : act A := λ s, match o with Some a => Some (inl a, s) | None => None end.
Definition or_refuse {A E} (r : A + E) (wrap : E → LifecycleRefusal) : act A := match r with inl a => mret a | inr e => refuse (wrap e) end.
(** [tasks.get_mut(&task).ok_or(NoSuchTask)] and [.expect(..)]. *)
Definition the_task (task : Z) : act Task := λ s, match tasks s !! task with Some t => Some (inl t, s) | None => Some (inr (NoSuchTask task), s) end.
Definition held_task (task : Z) : act Task := λ s, match tasks s !! task with Some t => Some (inl t, s) | None => None end.
Definition put_task (task : Z) (t : Task) : act unit := λ s, Some (inl tt, s <| tasks := <[task := t]> (tasks s) |>).
Definition drop_task (task : Z) : act unit := λ s, Some (inl tt, s <| tasks := base.delete task (tasks s) |>).
Definition on_content {A} (f : ContentLedger → A * ContentLedger) : act A := λ s,
  let '(a, l) := f (content s) in Some (inl a, s <| content := l |>).
Definition ask {A} (f : Lifecycle → A) : act A := λ s, Some (inl (f s), s).
Definition update (f : ContentLedger → ContentLedger) : act unit := on_content (λ l, (tt, f l)).

(** ** The operations *)
Definition answers_for (b : Z) (t : Task) : bool := ns_holds (tk_namespace t) b || holds_storage (tk_heaps t) b.
Definition forget_backing (b : Z) : act bool :=
  held ← ask (λ s, existsb (λ kv : Z * Task, answers_for b kv.2) (map_to_list (tasks s)));
  if (held : bool) then mret false else update (λ l, Content.forget l b);; mret true.

Definition retire_resident (task : Z) (resource : ResourceId) (teardown : Teardown) : act Effects :=
  t ← held_task task;
  let resident := tk_resident t !! resource in
  let t := t <| tk_resident := base.delete resource (tk_resident t) |> in
  let effects freed := mkEffects [] [teardown] freed [] [] [] in
  match resident with
  | Some (RPlaced placement) =>
      let '(r, h) := heap_remove (tk_heaps t) placement resource in
      put_task task (t <| tk_heaps := h |>);;
      match r with
      | inl (StorageFree b) => forgotten ← forget_backing b; mret (effects (if (forgotten : bool) then [b] else []))
      | _ => mret (effects [])
      end
  | Some (RDedicated b _) =>
      put_task task t;;
      match teardown with Now _ => forget_backing b;; mret (effects []) | _ => mret (effects []) end
  | None => put_task task t;; mret (effects [])
  end.
Definition delete_resource (task : Z) (resource : ResourceId) : act Effects :=
  t ← the_task task;
  x ← expect (ns_delete (tk_namespace t) resource);
  put_task task (t <| tk_namespace := x.2 |>);;
  teardown ← or_refuse x.1 (LcNamespace task);
  retire_resident task resource teardown.
Fixpoint delete_each (task : Z) (names : list ResourceId) (effects : Effects) : act Effects :=
  match names with
  | [] => mret effects
  | name :: names => e ← delete_resource task name; delete_each task names (absorb effects e)
  end.
(** Deletes the heaps, and collects the storage each hands back. *)
Fixpoint delete_heaps (h : Heaps) (ks : list Z) (released : list Z) : list Z * Heaps :=
  match ks with
  | [] => (released, h)
  | k :: ks =>
      let '(r, h) := heap_delete h k in
      delete_heaps h ks (match r with inl (StorageFree b) => released ++ [b] | _ => released end)
  end.
Fixpoint forget_each (bs : list Z) (effects : Effects) : act Effects :=
  match bs with
  | [] => mret effects
  | b :: bs =>
      forgotten ← forget_backing b;
      forget_each bs (if (forgotten : bool) then absorb effects (mkEffects [] [] [b] [] [] []) else effects)
  end.
Definition delete_task (task : Z) : act Effects :=
  t ← the_task task;
  effects ← delete_each task (live_names (tk_namespace t)) no_effects;
  t ← held_task task;
  let '(released, h) := delete_heaps (tk_heaps t) (live_heaps (tk_heaps t)) [] in
  put_task task (t <| tk_heaps := h |>);;
  drop_task task;;
  forget_each released effects.
Definition define_task (task directory : Z) : act Effects :=
  previous ← ask (λ s, tk_directory <$> tasks s !! task);
  effects ← match previous with
            | Some previous => e ← delete_task task; mret (absorb e (mkEffects [] [] [] [] [] [mkRedefinition task previous directory]))
            | None => mret no_effects
            end;
  put_task task (task_new directory);;
  mret effects.
Definition bind_object_list (task : Z) (list : ObjectList) : act Effects :=
  t ← the_task task; put_task task (t <| tk_object_list := Some list |>);; mret no_effects.

Definition create_resource (task slot : Z) (storage : Storage) : act Effects :=
  t ← the_task task;
  b ← match storage with
      | Dedicated b _ => mret (Some b)
      | StPlaced heap off length =>
          or_refuse (admits (tk_heaps t) heap off length) (LcHeap task);;
          b ← or_refuse (backing_of (tk_heaps t) heap) (LcHeap task); mret (Some b)
      | NoBytes => mret None
      end;
  x ← expect (ns_declare (tk_namespace t) slot b);
  put_task task (t <| tk_namespace := x.2 |>);;
  effects ← match nd_displaced x.1 with
            | Some d => retire_resident task (di_id d) (di_teardown d)
            | None => mret no_effects
            end;
  let id := nd_id x.1 in
  t ← held_task task;
  match storage with
  | NoBytes => mret effects
  | Dedicated b ext =>
      update (λ l, Content.declare l b ext GuestPages);;
      put_task task (t <| tk_resident := <[id := RDedicated b ext]> (tk_resident t) |>);;
      mret effects
  | StPlaced heap off length =>
      y ← expect (heap_place (tk_heaps t) heap id off length);
      placement ← expect (match y.1 with inl p => Some p | inr _ => None end);
      update (λ l, Content.write l (pl_backing placement) (pl_region placement) GuestPages);;
      put_task task ((t <| tk_heaps := y.2 |>) <| tk_resident := <[id := RPlaced placement]> (tk_resident t) |>);;
      mret effects
  end.
Definition remap (task : Z) (span : GuestSpan) (established : bool) : act Effects :=
  the_task task;; mret (mkEffects [] [] [] [] [mkRemap task span established] []).
Definition repoint (task : Z) (t : Task) (resource : ResourceId) (b : Z) (ext : ByteRange) : act Effects :=
  x ← expect (Namespace.replace_physical (tk_namespace t) resource b);
  put_task task (t <| tk_namespace := x.2 |>);;
  teardown ← or_refuse x.1 (LcNamespace task);
  t ← held_task task;
  put_task task (t <| tk_resident := <[resource := RDedicated b ext]> (tk_resident t) |>);;
  update (λ l, Content.declare l b ext GuestPages);;
  match teardown with Now old => forget_backing old;; mret tt | _ => mret tt end;;
  mret (mkEffects [] [teardown] [] [] [] []).
Definition lc_replace_physical (task : Z) (resource : ResourceId) (b : Z) (ext : ByteRange) : act Effects :=
  t ← the_task task;
  match tk_resident t !! resource with
  | Some (RPlaced _) => refuse (PlacedResourceHasNoPhysical resource)
  | _ => repoint task t resource b ext
  end.

(** Every name is resolved before any takes effect; a name with no bytes contributes nothing. *)
Fixpoint resolve_names (t : Task) (resources : list ResourceId) (n : Namespace) (out : list (ResourceId * Resident)) :
    (list (ResourceId * Resident) + NameRefusal) * Namespace :=
  match resources with
  | [] => (inl out, n)
  | r :: resources =>
      match ns_resolve n r with
      | (inr e, n) => (inr e, n)
      | (inl _, n) => resolve_names t resources n (match tk_resident t !! r with Some resident => out ++ [(r, resident)] | None => out end)
      end
  end.
Definition resolve_all (task : Z) (resources : list ResourceId) : act (list (ResourceId * Resident)) :=
  t ← the_task task;
  let '(r, n) := resolve_names t resources (tk_namespace t) [] in
  put_task task (t <| tk_namespace := n |>);;
  or_refuse r (LcNamespace task).
Definition invalidate (task : Z) (resources : list ResourceId) : act Effects :=
  resolved ← resolve_all task resources;
  update (λ l, foldl (λ l (x : ResourceId * Resident), Content.write l (res_backing x.2) (res_extent x.2) GuestPages) l resolved);;
  mret no_effects.
Definition deferred (x : ResourceId * Resident) : DeferredDiscard := mkDeferred x.1 (res_backing x.2) (res_extent x.2).
Fixpoint plan_copies (xs : list (ResourceId * Resident)) (l : ContentLedger) : list Transfer * ContentLedger :=
  match xs with
  | [] => ([], l)
  | x :: xs =>
      let '(t, l) := transfer_for_read l (res_backing x.2) (res_extent x.2) GuestPages in
      let '(ts, l) := plan_copies xs l in (option_list t ++ ts, l)
  end.
Definition synchronize (task : Z) (resources : list ResourceId) (then_discard : bool) : act Effects :=
  resolved ← resolve_all task resources;
  copies ← on_content (plan_copies resolved);
  mret (mkEffects copies [] [] (if then_discard then deferred <$> resolved else []) [] []).
Definition lc_discard (task : Z) (resources : list ResourceId) : act Effects :=
  resolved ← resolve_all task resources; mret (mkEffects [] [] [] (deferred <$> resolved) [] []).
Definition delete_backing (task b : Z) : act Effects :=
  t ← the_task task;
  let naming := List.filter (λ id, match tk_resident t !! id with Some r => res_backing r =? b | None => false end) (live_names (tk_namespace t)) in
  effects ← delete_each task naming no_effects;
  forget_backing b;;
  mret effects.

Definition lc_apply (op : LifecycleOp) : act Effects :=
  match op with
  | DefineTask task _ directory => define_task task directory
  | DeleteTask task => delete_task task
  | BindObjectList task list => bind_object_list task list
  | CreateResource task slot storage => create_resource task slot storage
  | DeleteResource task _ (Some resource) => delete_resource task resource
  | DeleteResource _ _ None => mret no_effects
  | MapMemory task span => remap task span true
  | UnmapMemory task span => remap task span false
  | ReplacePhysical task resource b ext => lc_replace_physical task resource b ext
  | Invalidate task resources => invalidate task resources
  | Synchronize task resources => synchronize task resources false
  | SynchronizeAndDiscard task resources => synchronize task resources true
  | Discard task resources => lc_discard task resources
  | DeleteBacking task _ (Some b) => delete_backing task b
  | DeleteBacking _ _ None => mret no_effects
  | DeleteObject task _ (Some resource) _ => delete_resource task resource
  | DeleteObject _ _ None _ => mret no_effects
  end.
Definition complete_discard (x : ContentLedger * list Declined) (d : DeferredDiscard) : ContentLedger * list Declined :=
  let '(l, declined) := x in
  match sole_authority l (dd_backing d) (dd_bytes d) DeviceOwned with
  | [] => (Content.discard l (dd_backing d) (dd_bytes d) DeviceOwned, declined)
  | sole => (l, declined ++ [mkDeclined (dd_resource d) (dd_backing d) (RangeSet.len sole)])
  end.
Definition lc_complete (effects : Effects) : act (list Declined) :=
  on_content (λ l,
    let l := foldl record_transfer l (transfers effects) in
    let '(l, declined) := foldl complete_discard (l, []) (at_completion effects) in (declined, l)).

(** ** The rest of the interface *)
Definition declare_heap (task heap b length : Z) : act unit :=
  t ← the_task task;
  let '(r, h) := heap_create (tk_heaps t) heap b length in
  put_task task (t <| tk_heaps := h |>);;
  or_refuse r (LcHeap task).
Definition resolve_name (task : Z) (resource : ResourceId) : act Task :=
  t ← the_task task;
  let '(r, n) := ns_resolve (tk_namespace t) resource in
  put_task task (t <| tk_namespace := n |>);;
  or_refuse r (LcNamespace task);;
  mret (t <| tk_namespace := n |>).
Definition lc_resolve (task : Z) (resource : ResourceId) : act ByteRange :=
  t ← resolve_name task resource;
  mret (match tk_resident t !! resource with Some r => res_extent r | None => mkByteRange 0 0 end).
Definition record_write (task : Z) (resource : ResourceId) (off length : Z) (replica : Replica) : act unit :=
  t ← resolve_name task resource;
  match tk_resident t !! resource with
  | None => refuse (LcNamespace task (NotDeclared (slot_ref resource)))
  | Some resident =>
      bytes ← or_refuse (window resident off length) (LcHeap task);
      update (λ l, Content.write l (res_backing resident) bytes replica)
  end.
Definition whole_extent (r : Resident) : ParticipationExtent := match r with RDedicated _ _ => ExtWhole | RPlaced p => ExtRange (pl_region p) end.
Definition placed_extent (r : Resident) (ext : ParticipationExtent) : ParticipationExtent :=
  match ext with
  | ExtRange range => match window r (offset range) (length_ range) with inl w => ExtRange w | inr _ => whole_extent r end
  | ExtSubresource sub => ExtSubresource sub
  | ExtWhole => whole_extent r
  end.
Definition input_version (l : ContentLedger) (b : Z) (ext : ParticipationExtent) : option Z :=
  match (match ext with ExtRange range => Some range | ExtWhole => Content.extent l b | ExtSubresource _ => None end) with
  | Some range => Content.version_of l b range
  | None => newest_version l b
  end.
Definition lc_access (task domain : Z) (p : Participation) : act AccessIntent :=
  t ← resolve_name task (part_resource p);
  match tk_resident t !! part_resource p with
  | None => mret (resolve_no_bytes p domain)
  | Some resident =>
      heap ← match resident with
             | RPlaced pl => h ← or_refuse (membership (tk_heaps t) (pl_heap pl)) (LcHeap task); mret (Some h)
             | RDedicated _ _ => mret None
             end;
      let key := mkResKey (res_backing resident) heap in
      let ext := placed_extent resident (extent_ p) in
      input ← ask (λ s, input_version (content s) (res_backing resident) ext);
      output ← (if Access.writes (part_mode p) then v ← on_content (λ l, Content.reserve l (res_backing resident)); mret (Some v) else mret None);
      mret (part_resolve (mkPart (part_resource p) ext (part_mode p) (part_stages p)) domain key input output)
  end.
(** The owner as a resolver of references and of storage. *)
Definition task_resource (s : Lifecycle) (task object_ref : Z) : option ResourceId :=
  t ← tasks s !! task; ns_resource (tk_namespace t) object_ref.
Definition storage_of (s : Lifecycle) (task : Z) (resource : ResourceId) : option ResourceKey :=
  t ← tasks s !! task;
  if bool_decide (ns_resource (tk_namespace t) (slot_ref resource) = Some resource) then
    match tk_resident t !! resource with
    | Some (RDedicated b _) => Some (mkResKey b None)
    | Some (RPlaced pl) => match membership (tk_heaps t) (pl_heap pl) with inl h => Some (placement_key pl h) | inr _ => None end
    | None => None
    end
  else None.

(** ** The namespace, seen from here

    The owner resolves names and never acquires a claim, so its namespaces carry none. *)
Definition live_name (n : Namespace) (id : ResourceId) (ob : option Z) : Prop :=
  ∃ sl, slots n !! slot_ref id = Some sl ∧ sl_generation sl = slot_generation id ∧ sl_deleted sl = false ∧ sl_backing sl = ob.
Definition same_names (n n' : Namespace) : Prop :=
  slots n' = slots n ∧ Namespace.retiring n' = Namespace.retiring n ∧ live_by_backing n' = live_by_backing n.
(** The name is told it is the last on its storage exactly when no other is. *)
Definition last_name (t : Teardown) (ob : option Z) (n : Namespace) : Prop := ∀ b, t = Now b ↔ ob = Some b ∧ ns_holds n b = false.

Lemma live_name_fun n id ob ob' : live_name n id ob → live_name n id ob' → ob = ob'.
Proof. intros (sl & E & _ & _ & <-) (sl' & E' & _ & _ & <-). congruence. Qed.
Lemma torn_now t b : b ∈ torn t ↔ t = Now b.
Proof. destruct t; cbn; rewrite ?list_elem_of_singleton, ?elem_of_nil; split; try done; intros; congruence. Qed.
Lemma ns_holds_named n b : ns_ok n [] [] → ns_holds n b = bool_decide (0 < named b (slots n))%nat.
Proof.
  intros H. unfold ns_holds. rewrite (named_counted n _ b (no_live _ _ _ H)).
  assert (Namespace.retiring n !! b = None) as -> by apply (no_retiring _ _ _ H b). rewrite (bool_decide_eq_false_2 (is_Some None)) by (by intros []). by rewrite orb_false_r.
Qed.
Lemma ns_holds_spec n b : ns_ok n [] [] → ns_holds n b = true ↔ ∃ id, live_name n id (Some b).
Proof.
  intros H. rewrite (ns_holds_named _ _ H), bool_decide_eq_true, named_pos. split.
  - intros (k & sl & E & Hl). unfold live_at in Hl. apply andb_true_iff in Hl as [Hd%negb_true_iff Hb%bool_decide_eq_true].
    exists (mkResourceId k (sl_generation sl)), sl. done.
  - intros (id & sl & E & _ & Hd & Hb). exists (slot_ref id), sl. split; [done|]. unfold live_at. by rewrite Hd, bool_decide_eq_true_2.
Qed.
Lemma same_names_ok n n' : ns_ok n [] [] → same_names n n' → ns_ok n' [] [].
Proof. apply ns_ok_same. Qed.
Lemma same_names_live n n' id ob : same_names n n' → live_name n' id ob ↔ live_name n id ob.
Proof. intros (E & _ & _). unfold live_name. by rewrite E. Qed.
Lemma same_names_holds n n' b : same_names n n' → ns_holds n' b = ns_holds n b.
Proof. intros (_ & Er & El). unfold ns_holds, named_by_a_live_slot. by rewrite Er, El. Qed.
Lemma resolve_names_same n r x n' : ns_resolve n r = (x, n') → same_names n n' ∧
  match x with inl _ => ∃ ob, live_name n r ob | inr _ => ∀ ob, ¬ live_name n r ob end.
Proof.
  intros E. split; [by apply (resolve_same _ _ _ _ E)|]. unfold ns_resolve, ns_refuse in E.
  destruct (slots n !! slot_ref r) as [sl|] eqn:Es; [|injection E as <- <-; intros ob (? & ? & _); congruence].
  destruct (sl_generation sl =? slot_generation r) eqn:Eg; cbn in E.
  - destruct (sl_deleted sl) eqn:Ed; injection E as <- <-; [intros ob (? & ? & _ & ? & _); congruence|]. exists (sl_backing sl), sl. split_and!; try done. lia.
  - injection E as <- <-. intros ob (? & ? & ? & _). assert (x = sl) as -> by congruence. lia.
Qed.

(** One slot changed from [old] to [new]: what is told of [ob], the storage it left. *)
Lemma changed_last n n' k v ob t : ns_ok n [] [] → ns_ok n' [] [] → slots n' = <[k := v]> (slots n) →
  (∃ sl, slots n !! k = Some sl ∧ sl_deleted sl = false ∧ sl_backing sl = ob) →
  (∀ b, b ∈ torn t ↔ (0 < named b (slots n))%nat ∧ ¬ (0 < named b (slots n'))%nat) → last_name t ob n'.
Proof.
  intros H H' Es (sl & Ek & Hd & Hb) Ht b. rewrite <- torn_now, Ht, (ns_holds_named _ _ H'), bool_decide_eq_false.
  split; [|intros [-> Hn]; split; [|done]; apply named_pos; exists k, sl; split; [done|]; unfold live_at; by rewrite Hd, bool_decide_eq_true_2].
  intros [Hp Hn]. split; [|done]. pose proof (named_insert b (slots n) k v) as Hi. rewrite Ek, <- Es, (is_at_live sl b Hd), Hb in Hi.
  unfold is_at in Hi. case_bool_decide; [done|]. cbn in Hi. lia.
Qed.
Lemma idle_good n out d' : good (mkDriver n [] []) out d' → dv_claims d' = [] →
  ns_ok (dv_ns d') [] [] ∧ ∀ b, b ∈ out ↔ (0 < named b (slots n))%nat ∧ ¬ (0 < named b (slots (dv_ns d')))%nat.
Proof.
  intros ((home & away & Hok & Hc) & _ & Ho) Ed. rewrite Ed in Hc. apply Permutation_nil_l in Hc. symmetry in Hc. apply app_eq_nil in Hc as [-> ->].
  split; [done|]. intros b. rewrite Ho. unfold held. rewrite Ed. cbn. change (uses b []) with 0%nat. rewrite !Nat.add_0_r. done.
Qed.
Lemma ns_delete_spec n name : ns_ok n [] [] → ∃ r n', ns_delete n name = Some (r, n') ∧
  match r with
  | inr _ => same_names n n' ∧ ∀ ob, ¬ live_name n name ob
  | inl t => ns_ok n' [] [] ∧ ∃ sl, slots n !! slot_ref name = Some sl ∧ live_name n name (sl_backing sl) ∧
      slots n' = <[slot_ref name := (sl <| sl_deleted := true |>) <| sl_outstanding := 0%nat |>]> (slots n) ∧ last_name t (sl_backing sl) n'
  end.
Proof.
  intros H. destruct (delete_good (mkDriver n [] []) [] [] H (reflexivity _) name) as (out & d' & E & Hg). cbn in E. unfold answered_teardown in E.
  destruct (ns_delete n name) as [[r n']|] eqn:En; [|done]. exists r, n'. split; [done|]. unfold ns_delete in En.
  destruct (ns_resolve n name) as [[lease|x] n0] eqn:Er; [|injection En as <- <-; apply (resolve_names_same _ _ _ _ Er)].
  destruct (resolve_live _ _ _ _ Er) as (sl & Es & Hd & -> & Es0 & _ & _). destruct (resolve_names_same _ _ _ _ Er) as [_ [ob Hl]].
  rewrite Es0, Es in En. destruct (depart _ _) as [n1|] eqn:Edp; [|done]. cbn [le_backing] in *.
  assert (slots n1 = <[slot_ref name := (sl <| sl_deleted := true |>) <| sl_outstanding := 0%nat |>]> (slots n)) as Es1.
  { unfold depart in Edp. repeat case_match; simplify_eq; cbn; by rewrite ?Es0. }
  destruct (detach n1 (sl_backing sl) (sl_outstanding sl)) as [t n2] eqn:Edt. injection En as <- <-. cbn in E. injection E as <- <-.
  assert (slots n2 = slots n1) as Es2. { unfold detach in Edt. repeat case_match; simplify_eq; done. }
  destruct (idle_good _ _ _ Hg eq_refl) as [Hok Ho]. cbn in Hok, Ho. split; [done|]. exists sl. split; [done|].
  assert (live_name n name (sl_backing sl)) as Hl' by (destruct Hl as (sl' & ? & ? & ? & _); exists sl'; by simplify_eq).
  split; [done|]. split; [by rewrite Es2, Es1|]. eapply (changed_last n n2); [done|done|by rewrite Es2, Es1|by exists sl|exact Ho].
Qed.
Lemma generation_next_ne g : generation_next g ≠ g.
Proof.
  unfold generation_next, u64. intros E. assert (0 ≤ g < 2 ^ 64) by (rewrite <- E; apply Z.mod_pos_bound; lia).
  destruct (decide (g + 1 = 2 ^ 64)) as [Eq|]; [rewrite Eq, Z.mod_same in E by lia; lia|]. rewrite Z.mod_small in E by lia. lia.
Qed.
Lemma depart_slots n ob n' : depart n ob = Some n' → slots n' = slots n.
Proof. unfold depart. repeat case_match; intros; simplify_eq; done. Qed.
Lemma enter_slots n ob : slots (enter n ob) = slots n.
Proof. by destruct ob. Qed.
Lemma detach_slots n ob k t n' : detach n ob k = (t, n') → slots n' = slots n.
Proof. unfold detach. repeat case_match; intros; simplify_eq; done. Qed.
Lemma ns_declare_spec n slot ob : ns_ok n [] [] → ∃ r n' g, ns_declare n slot ob = Some (r, n') ∧ ns_ok n' [] [] ∧
  nd_id r = mkResourceId slot g ∧ slots n' = <[slot := mkSlot g ob false 0]> (slots n) ∧
  match nd_displaced r with
  | None => ∀ sl, slots n !! slot = Some sl → sl_deleted sl = true
  | Some d => ∃ sl, slots n !! slot = Some sl ∧ sl_deleted sl = false ∧ sl_generation sl ≠ g ∧
      di_id d = mkResourceId slot (sl_generation sl) ∧ last_name (di_teardown d) (sl_backing sl) n'
  end.
Proof.
  intros H. destruct (declare_good (mkDriver n [] []) [] [] H (reflexivity _) slot ob) as (out & d' & E & Hg). cbn in E.
  destruct (ns_declare n slot ob) as [[r n']|] eqn:En; [|done]. injection E as <- <-. destruct (idle_good _ _ _ Hg eq_refl) as [Hok Ho]. cbn in Hok, Ho.
  unfold ns_declare in En. destruct (slots n !! slot) as [sl|] eqn:Es; [destruct (sl_deleted sl) eqn:Hd|].
  - injection En as <- <-. do 3 eexists. split; [done|]. split; [done|]. split; [done|]. split; [by rewrite enter_slots|]. cbn. intros; by simplify_eq.
  - destruct (depart n (sl_backing sl)) as [n1|] eqn:Ed; [|done]. apply depart_slots in Ed. destruct (detach _ _ _) as [t n2] eqn:Edt.
    injection En as <- <-. apply detach_slots in Edt. rewrite enter_slots in Edt. cbn in Edt. rewrite Ed in Edt.
    do 3 eexists. split; [done|]. split; [done|]. split; [done|]. split; [done|]. cbn. exists sl. split_and!; try done.
    + intros E. by destruct (generation_next_ne (sl_generation sl)).
    + eapply (changed_last n n2); [done|done|exact Edt|by exists sl|exact Ho].
  - injection En as <- <-. do 3 eexists. split; [done|]. split; [done|]. split; [done|]. split; [by rewrite enter_slots|]. cbn. done.
Qed.
Lemma ns_replace_spec n name b : ns_ok n [] [] → ∃ r n', Namespace.replace_physical n name b = Some (r, n') ∧
  match r with
  | inr _ => same_names n n' ∧ ∀ ob, ¬ live_name n name ob
  | inl t => ns_ok n' [] [] ∧ ∃ sl, slots n !! slot_ref name = Some sl ∧ live_name n name (sl_backing sl) ∧
      slots n' = <[slot_ref name := (sl <| sl_backing := Some b |>) <| sl_outstanding := 0%nat |>]> (slots n) ∧ last_name t (sl_backing sl) n'
  end.
Proof.
  intros H. destruct (replace_good (mkDriver n [] []) [] [] H (reflexivity _) name b) as (out & d' & E & Hg). cbn in E. unfold answered_teardown in E.
  destruct (Namespace.replace_physical n name b) as [[r n']|] eqn:En; [|done]. exists r, n'. split; [done|]. unfold Namespace.replace_physical in En.
  destruct (ns_resolve n name) as [[lease|x] n0] eqn:Er; [|injection En as <- <-; apply (resolve_names_same _ _ _ _ Er)].
  destruct (resolve_live _ _ _ _ Er) as (sl & Es & Hd & -> & Es0 & _ & _). destruct (resolve_names_same _ _ _ _ Er) as [_ [ob Hl]].
  rewrite Es0, Es in En. destruct (depart _ _) as [n1|] eqn:Edp; [|done]. apply depart_slots in Edp. cbn [le_backing slots] in *.
  destruct (detach _ (sl_backing sl) (sl_outstanding sl)) as [t n2] eqn:Edt. injection En as <- <-. cbn in E. injection E as <- <-.
  apply detach_slots in Edt. rewrite enter_slots, Edp in Edt. cbn in Edt.
  destruct (idle_good _ _ _ Hg eq_refl) as [Hok Ho]. cbn in Hok, Ho. split; [done|]. exists sl. split; [done|].
  assert (live_name n name (sl_backing sl)) as Hl' by (destruct Hl as (sl' & ? & ? & ? & _); exists sl'; by simplify_eq).
  split; [done|]. split; [done|]. eapply (changed_last n n2); [done|done|exact Edt|by exists sl|exact Ho].
Qed.

(** ** The heaps, seen from here *)
Lemma place_fresh h a k r off len b l : sim h a → names_of a !! k = Some (b, l) → runs_past off len l = false → whereabouts a !! r = None → 0 ≤ off → 0 ≤ len →
  ∃ h', heap_place h k r off len = Some (inl (mkPlacement k b (mkByteRange off len)), h') ∧
    sim h' (mkLedger (names_of a) (<[r := (b, mkByteRange off len)]> (whereabouts a))).
Proof.
  intros H En Ep Er Ho Hl. destruct (place_step h a k r off len H Ho Hl) as (x & h' & -> & Hs). cbn [ledger_step] in Hs. rewrite En, Ep, Er in Hs.
  destruct Hs as [[= <-] Hs]. eauto.
Qed.
Lemma remove_placed h a pl r l : sim h a → names_of a !! pl_heap pl = Some (pl_backing pl, l) → whereabouts a !! r = Some (pl_backing pl, pl_region pl) →
  ∃ n h', heap_remove h pl r = (inl (Heaps.Held n true), h') ∧ sim h' (mkLedger (names_of a) (base.delete r (whereabouts a))).
Proof.
  intros H En Er. pose proof (remove_step h a pl r H) as Hs. destruct (heap_remove h pl r) as [x h']. cbn [ledger_step] in Hs.
  unfold reachable in Hs. rewrite En, Z.eqb_refl in Hs. cbn [orb negb] in Hs. unfold names_window in Hs.
  rewrite (proj2 (residents_lookup a (pl_backing pl) r (pl_region pl)) Er), bool_decide_eq_true_2 in Hs by done.
  destruct Hs as [[= <-] Hs]. unfold left_of, occupied. change (a_named (mkLedger _ _) ?b) with (a_named a b).
  rewrite (proj2 (a_named_spec a _)) by eauto. eauto.
Qed.
Lemma admits_live h a k off len : sim h a → match admits h k off len with
  | inl _ => ∃ b l, names_of a !! k = Some (b, l) ∧ runs_past off len l = false ∧ backing_of h k = inl b
  | inr _ => True end.
Proof.
  intros H. unfold admits, backing_of, live. destruct (heaps h !! k) as [st|] eqn:E; [|done]. destruct (sim_live _ _ _ _ H E) as [En _].
  destruct (runs_past _ _ _) eqn:Ep; [done|]. eauto.
Qed.
Lemma membership_live h a k b l : sim h a → names_of a !! k = Some (b, l) → ∃ g, membership h k = inl (mkHeapId k g).
Proof. intros H E. destruct (sim_live_inv _ _ _ _ _ H E) as [g Eg]. unfold membership, live. rewrite Eg. eauto. Qed.
Lemma live_heaps_spec h k : k ∈ live_heaps h ↔ is_Some (heaps h !! k).
Proof.
  unfold live_heaps. rewrite merge_sort_Permutation, list_elem_of_fmap. split.
  - intros ([k' st] & -> & E%elem_of_map_to_list). cbn. eauto.
  - intros [st E]. exists (k, st). split; [done|]. by apply elem_of_map_to_list.
Qed.
(** With nothing placed, every heap hands its storage back. *)
Lemma delete_heaps_spec ks : ∀ h a out, sim h a → whereabouts a = ∅ → NoDup ks → (∀ k, k ∈ ks → is_Some (names_of a !! k)) →
  ∀ b, b ∈ (delete_heaps h ks out).1 ↔ b ∈ out ∨ ∃ k l, k ∈ ks ∧ names_of a !! k = Some (b, l).
Proof.
  induction ks as [|k ks IH]; intros h a out H Hw Hnd Hk b; cbn [delete_heaps].
  { cbn. split; [by left|]. intros [?|(? & ? & ?%elem_of_nil & _)]; done. }
  apply NoDup_cons in Hnd as [Hnk Hnd]. destruct (heap_step_sim h a (HDelete k) H I) as (h' & Es & H'). cbn [heap_step] in Es.
  destruct (heap_delete h k) as [x h1]. injection Es as Ex <-. destruct (Hk k) as [[b0 l0] En]; [by left|]. cbn [ledger_step] in Ex, H'. rewrite En in Ex, H'. cbn in Ex, H'.
  assert (x = inl (StorageFree b0)) as ->.
  { injection Ex as ->. unfold left_of, occupied. rewrite (dropped_name_named _ _ _ _ _ (sim_ok _ _ H) En), Z.eqb_refl. cbn.
    rewrite bool_decide_eq_false_2; [done|]. intros Hne. apply Hne. unfold residents. cbn. by rewrite Hw, omap_empty. }
  rewrite (IH _ _ _ H' Hw Hnd).
  2: { intros k' Hk'. cbn. rewrite lookup_delete_ne by congruence. apply Hk. by right. }
  rewrite elem_of_app, list_elem_of_singleton. cbn. split.
  - intros [[?| ->]|(k' & l' & Hin & [_ ?]%lookup_delete_Some)]; [by left|right; exists k, l0; split; [by left|done]|right; exists k', l'; split; [by right|done]].
  - intros [?|(k' & l' & Hin & E)]; [by left; left|]. apply elem_of_cons in Hin as [->|Hin]; [left; right; congruence|].
    right. exists k', l'. split; [done|]. rewrite lookup_delete_ne by congruence. done.
Qed.

(** ** The backings the content ledger knows *)
#[local] Arguments Content.write : simpl never.
#[local] Arguments Content.declare : simpl never.
#[local] Arguments Content.reserve : simpl never.
#[local] Arguments transfer_for_read : simpl never.
#[local] Arguments record_transfer : simpl never.
#[local] Arguments complete_discard : simpl never.
Definition known (l : ContentLedger) (b : Z) : Prop := is_Some (backings l !! b).
Lemma known_insert (m : gmap Z Content.Entry) b e b' : is_Some (<[b := e]> m !! b') ↔ b' = b ∨ is_Some (m !! b').
Proof. destruct (decide (b' = b)) as [->|Hne]; [rewrite lookup_insert_eq; naive_solver|rewrite lookup_insert_ne by done; naive_solver]. Qed.
Lemma known_reserve l b b' : known (Content.reserve l b).2 b' ↔ b' = b ∨ known l b'.
Proof. unfold known, Content.reserve. apply known_insert. Qed.
Lemma known_write l b bytes r b' : known (Content.write l b bytes r) b' ↔ b' = b ∨ known l b'.
Proof.
  unfold Content.write. destruct (Content.reserve _ b) as [v l1] eqn:E.
  assert (∀ x, known l1 x ↔ x = b ∨ known l x) as H1.
  { intros x. pose proof (known_reserve (l <| Content.census := ((Content.census l) <| Content.writes := u64 (Content.writes (Content.census l) + 1) |>) |>) b x) as Hk.
    by rewrite E in Hk. }
  unfold materialize. destruct (Coverage.apply _ _ _) as [c ap]. unfold known at 1. cbn. rewrite known_insert.
  assert (is_Some (backings (if next_version l1 <=? v then l1 <| next_version := next_of v |> else l1) !! b') ↔ known l1 b') as Hi by (by destruct (_ <=? _)).
  cbn in Hi. rewrite Hi, H1. naive_solver.
Qed.
Lemma known_declare l b ext r b' : known (Content.declare l b ext r) b' ↔ b' = b ∨ known l b'.
Proof.
  unfold Content.declare. destruct (backings l !! b) as [e|] eqn:E.
  - rewrite known_write. unfold known at 1. cbn. rewrite known_insert. naive_solver.
  - pose proof (known_reserve l b b') as Hr. destruct (Content.reserve l b) as [v l1]. cbn in Hr. unfold known at 1. cbn. rewrite known_insert.
    change (is_Some (backings l1 !! b')) with (known l1 b'). rewrite Hr. naive_solver.
Qed.
Lemma known_forget l b b' : known (Content.forget l b) b' ↔ b' ≠ b ∧ known l b'.
Proof.
  unfold known, Content.forget. cbn. destruct (decide (b' = b)) as [->|Hne]; [rewrite lookup_delete_eq; split; [by intros []|naive_solver]|].
  rewrite lookup_delete_ne by done. naive_solver.
Qed.
Lemma known_transfer l b bytes r b' : known (transfer_for_read l b bytes r).2 b' ↔ known l b'.
Proof. unfold transfer_for_read. repeat case_match; done. Qed.
Lemma known_record l t b' : known (record_transfer l t) b' ↔ known l b'.
Proof.
  unfold record_transfer. destruct (backings l !! t_backing t) as [e|] eqn:E; [|done].
  assert (∀ m, is_Some (<[t_backing t := m]> (backings l) !! b') ↔ known l b') as H.
  { intros m. rewrite known_insert. split; [intros [->|?]; [by exists e|done]|by right]. }
  destruct (subtract _ _); apply H.
Qed.
Lemma known_discard l b bytes r b' : known (Content.discard l b bytes r) b' ↔ known l b'.
Proof.
  unfold Content.discard. destruct (backings l !! b) as [e|] eqn:E; [|done]. destruct (e_fresh e !! r); [|done].
  unfold known. cbn. rewrite known_insert. split; [intros [->|?]; [by exists e|done]|by right].
Qed.
Lemma known_writes xs : ∀ l b, known (foldl (λ l (x : ResourceId * Resident), Content.write l (res_backing x.2) (res_extent x.2) GuestPages) l xs) b ↔
  known l b ∨ ∃ x, x ∈ xs ∧ res_backing x.2 = b.
Proof.
  induction xs as [|x xs IH]; intros l b; cbn; [split; [by left|intros [?|(? & ?%elem_of_nil & _)]; done]|].
  rewrite IH, known_write. setoid_rewrite elem_of_cons. naive_solver.
Qed.
Lemma known_plan xs : ∀ l b, known (plan_copies xs l).2 b ↔ known l b.
Proof.
  induction xs as [|x xs IH]; intros l b; [done|]. cbn. pose proof (known_transfer l (res_backing x.2) (res_extent x.2) GuestPages b) as Ht.
  destruct (transfer_for_read _ _ _ _) as [t l1]. specialize (IH l1 b). destruct (plan_copies xs l1) as [ts l2]. cbn in *. by rewrite IH.
Qed.
Lemma known_records ts : ∀ l b, known (foldl record_transfer l ts) b ↔ known l b.
Proof. induction ts as [|t ts IH]; intros l b; [done|]. cbn. by rewrite IH, known_record. Qed.
Lemma known_discards ds : ∀ x b, known (foldl complete_discard x ds).1 b ↔ known x.1 b.
Proof.
  induction ds as [|d ds IH]; intros [l dcl] b; [done|]. cbn [foldl]. rewrite IH. unfold complete_discard.
  destruct (sole_authority _ _ _ _); cbn; [apply known_discard|done].
Qed.

(** ** The invariant

    Between the moment a name goes and the moment its residency does, one resident [gone] has
    no name; between the moment a name is declared and the moment it is given bytes, one name
    [fresh] has no residency. *)
Definition extent_ok (r : ByteRange) : Prop := 0 ≤ offset r < UINT64_MAX ∧ 0 ≤ length_ r ∧ offset r + length_ r ≤ UINT64_MAX.
Record task_but (gone fresh : option ResourceId) (t : Task) : Prop := {
  tb_names : ns_ok (tk_namespace t) [] [];
  tb_heaps : ∃ a, sim (tk_heaps t) a ∧
    (∀ id b reg, whereabouts a !! id = Some (b, reg) ↔ ∃ k, tk_resident t !! id = Some (RPlaced (mkPlacement k b reg))) ∧
    (∀ id pl, tk_resident t !! id = Some (RPlaced pl) → ∃ l, names_of a !! pl_heap pl = Some (pl_backing pl, l));
  tb_named id r : tk_resident t !! id = Some r → gone ≠ Some id → live_name (tk_namespace t) id (Some (res_backing r));
  tb_resident id b : live_name (tk_namespace t) id (Some b) → fresh ≠ Some id → ∃ r, tk_resident t !! id = Some r ∧ res_backing r = b;
  tb_extent id r : tk_resident t !! id = Some r → extent_ok (res_extent r) }.
Abbreviation task_ok := (task_but None None).

Definition answered (s : Lifecycle) (b : Z) : Prop := ∃ k t, tasks s !! k = Some t ∧ answers_for b t = true.
Definition at_task (k : Z) (x : option ResourceId) (k' : Z) : option ResourceId := if decide (k' = k) then x else None.
Record lc_but (k : Z) (gone fresh : option ResourceId) (pend : Z → Prop) (s : Lifecycle) : Prop := {
  lb_task k' t : tasks s !! k' = Some t → task_but (at_task k gone k') (at_task k fresh k') t;
  lb_answered b : known (content s) b → answered s b ∨ pend b;
  lb_known k' t id r : tasks s !! k' = Some t → tk_resident t !! id = Some r → known (content s) (res_backing r) }.
Definition lc_ok (s : Lifecycle) : Prop := lc_but 0 None None (λ _, False) s.

Lemma at_task_none k k' : at_task k None k' = None.
Proof. unfold at_task. by case_decide. Qed.
Lemma at_task_eq k x : at_task k x k = x.
Proof. unfold at_task. by rewrite decide_True. Qed.
Lemma at_task_ne k x k' : k' ≠ k → at_task k x k' = None.
Proof. intros. unfold at_task. by rewrite decide_False. Qed.
Lemma lc_ok_at k s : lc_ok s ↔ lc_but k None None (λ _, False) s.
Proof.
  unfold lc_ok. assert (∀ k1 k2, lc_but k1 None None (λ _, False) s → lc_but k2 None None (λ _, False) s) as H; [|split; apply H].
  intros k1 k2 [H1 H2 H3]. split; [|done|done]. intros k' t Et. specialize (H1 k' t Et). by rewrite !at_task_none in *.
Qed.
Lemma lc_ok_task s k t : lc_ok s → tasks s !! k = Some t → task_ok t.
Proof. intros H E. pose proof (lb_task _ _ _ _ _ H k t E) as Ht. by rewrite !at_task_none in Ht. Qed.
Lemma answered_spec s b : existsb (λ kv : Z * Task, answers_for b kv.2) (map_to_list (tasks s)) = true ↔ answered s b.
Proof.
  rewrite existsb_exists. split.
  - intros ([k t] & Hin%list_elem_of_In%elem_of_map_to_list & E). by exists k, t.
  - intros (k & t & Ek & E). exists (k, t). split; [by apply list_elem_of_In, elem_of_map_to_list|done].
Qed.
(** A name or a heap answers for its storage. *)
Lemma named_answers gone fresh t id b : task_but gone fresh t → live_name (tk_namespace t) id (Some b) → answers_for b t = true.
Proof. intros H Hl. unfold answers_for. apply orb_true_iff. left. apply (ns_holds_spec _ _ (tb_names _ _ _ H)). eauto. Qed.
Lemma answers_for_spec gone fresh t b : task_but gone fresh t → answers_for b t = true ↔ (∃ id, live_name (tk_namespace t) id (Some b)) ∨ holds_storage (tk_heaps t) b = true.
Proof. intros H. unfold answers_for. by rewrite orb_true_iff, (ns_holds_spec _ _ (tb_names _ _ _ H)). Qed.

(** ** What an action establishes *)
Definition wp {A} (m : act A) (s : Lifecycle) (Q : A → Lifecycle → Prop) (E : LifecycleRefusal → Lifecycle → Prop) : Prop :=
  match m s with Some (inl a, s') => Q a s' | Some (inr e, s') => E e s' | None => False end.
Lemma wp_bind {A B} (m : act A) (f : A → act B) s Q E : wp m s (λ a s', wp (f a) s' Q E) E → wp (m ≫= f) s Q E.
Proof. unfold wp, mbind, act_bind. by destruct (m s) as [[[]]|]. Qed.
Lemma wp_mono {A} (m : act A) s (Q Q' : A → Lifecycle → Prop) (E E' : LifecycleRefusal → Lifecycle → Prop) :
  wp m s Q E → (∀ a s', Q a s' → Q' a s') → (∀ e s', E e s' → E' e s') → wp m s Q' E'.
Proof. unfold wp. destruct (m s) as [[[]]|]; naive_solver. Qed.
Lemma wp_ret {A} (a : A) s Q E : Q a s → wp (mret a) s Q E.
Proof. done. Qed.

(** ** The steps *)
Definition heap_names (h : Heaps) : gmap Z (Z * Z) := (λ st, (hp_backing st, hp_length st)) <$> heaps h.
Lemma sim_heap_names h a : sim h a → heap_names h = names_of a.
Proof.
  intros H. apply map_eq. intros k. unfold heap_names. rewrite lookup_fmap. pose proof (sim_heap _ _ H k) as Hk.
  destruct (heaps h !! k) as [st|], (names_of a !! k) as [[b l]|]; cbn; try done. by destruct Hk as (-> & -> & _).
Qed.
Lemma task_holds_storage gone fresh t b : task_but gone fresh t → holds_storage (tk_heaps t) b = true ↔ ∃ k l, heap_names (tk_heaps t) !! k = Some (b, l).
Proof.
  intros H. destruct (tb_heaps _ _ _ H) as (a & Ha & Hw & Hn). rewrite (sim_holds _ _ _ Ha), (sim_heap_names _ _ Ha), occupied_spec. split; [|by left].
  intros [?|(r & reg & E)]; [done|]. apply Hw in E as [k E]. destruct (Hn _ _ E) as [l El]. cbn in El. eauto.
Qed.
Lemma answers_for_names gone fresh t b : task_but gone fresh t →
  answers_for b t = true ↔ (∃ id, live_name (tk_namespace t) id (Some b)) ∨ ∃ k l, heap_names (tk_heaps t) !! k = Some (b, l).
Proof. intros H. rewrite (answers_for_spec _ _ _ _ H). by rewrite (task_holds_storage _ _ _ _ H). Qed.
Lemma admits_names h h' k off len : heap_names h' = heap_names h → admits h' k off len = admits h k off len ∧ backing_of h' k = backing_of h k.
Proof.
  intros E. apply (f_equal (.!! k)) in E. unfold heap_names in E. rewrite !lookup_fmap in E. unfold admits, backing_of, live.
  destruct (heaps h' !! k) as [[]|], (heaps h !! k) as [[]|]; cbn in *; try done. injection E as -> ->. done.
Qed.

Lemma forget_wp k fresh pend s b Q E : lc_but k None fresh pend s →
  (∀ f s', tasks s' = tasks s → lc_but k None fresh (λ b', pend b' ∧ b' ≠ b) s' → (f = true ↔ ¬ answered s b) → Q f s') →
  wp (forget_backing b) s Q E.
Proof.
  intros H HQ. unfold forget_backing. apply wp_bind. unfold wp, ask. destruct (existsb _ _) eqn:Ex.
  - apply answered_spec in Ex. apply HQ; [done| |split; [done|by intros []]]. split; [apply H| |apply H].
    intros b' Hb'. destruct (lb_answered _ _ _ _ _ H b' Hb') as [?|Hp]; [by left|]. destruct (decide (b' = b)) as [->|]; [by left|by right].
  - assert (¬ answered s b) as Hna by (rewrite <- answered_spec; congruence). cbn. apply HQ; [done| |done]. split; cbn.
    + apply H.
    + intros b' [Hne Hb']%known_forget. destruct (lb_answered _ _ _ _ _ H b' Hb') as [?|Hp]; [by left|by right].
    + intros k' t id r Et Er. apply known_forget. split; [|by eapply (lb_known _ _ _ _ _ H)]. intros <-. apply Hna. exists k', t. split; [done|].
      pose proof (lb_task _ _ _ _ _ H k' t Et) as Ht. rewrite at_task_none in Ht. eapply named_answers; [exact Ht|]. by apply (tb_named _ _ _ Ht).
Qed.
Lemma lc_put k gone fresh pend gone' fresh' (pend' : Z → Prop) s t t' : lc_but k gone fresh pend s → tasks s !! k = Some t → task_but gone' fresh' t' →
  (∀ b, answers_for b t = true → answers_for b t' = true ∨ pend' b) → (∀ b, pend b → pend' b) →
  (∀ id r, tk_resident t' !! id = Some r → known (content s) (res_backing r)) →
  lc_but k gone' fresh' pend' (mkLifecycle (<[k := t']> (tasks s)) (content s)).
Proof.
  intros H Et Ht' Ha Hp Hk. split; cbn.
  - intros k' t1 [[<- <-]|[Hne E1]]%lookup_insert_Some; [by rewrite !at_task_eq|]. rewrite !at_task_ne by done.
    pose proof (lb_task _ _ _ _ _ H k' t1 E1) as H1. by rewrite !at_task_ne in H1 by done.
  - intros b Hb. destruct (lb_answered _ _ _ _ _ H b Hb) as [(k1 & t1 & E1 & A1)|?]; [|right; by apply Hp].
    destruct (decide (k1 = k)) as [->|Hne].
    + assert (t1 = t) as -> by congruence. destruct (Ha b A1) as [?|?]; [|by right]. left. exists k, t'. cbn. by rewrite lookup_insert_eq.
    + left. exists k1, t1. cbn. by rewrite lookup_insert_ne.
  - intros k' t1 id r [[<- <-]|[Hne E1]]%lookup_insert_Some Er; [by eapply Hk|]. by eapply (lb_known _ _ _ _ _ H).
Qed.

Lemma lc_weaken k gone fresh (pend pend' : Z → Prop) s : lc_but k gone fresh pend s →
  (∀ b, known (content s) b → pend b → answered s b ∨ pend' b) → lc_but k gone fresh pend' s.
Proof. intros H Hp. split; [apply H| |apply H]. intros b Hb. destruct (lb_answered _ _ _ _ _ H b Hb) as [?|?]; [by left|by apply Hp]. Qed.

(** A resident without a name goes, and its placement with it. *)
Lemma drop_resident_ok gone fresh t h' : task_but (Some gone) fresh t → (∀ ob, ¬ live_name (tk_namespace t) gone ob) →
  (match tk_resident t !! gone with
   | Some (RPlaced pl) => ∃ n, heap_remove (tk_heaps t) pl gone = (inl (Heaps.Held n true), h') | _ => h' = tk_heaps t end) →
  task_but None fresh (mkTask (tk_directory t) (tk_object_list t) (tk_namespace t) h' (base.delete gone (tk_resident t))) ∧ heap_names h' = heap_names (tk_heaps t).
Proof.
  intros H Hdead Hh. destruct (tb_heaps _ _ _ H) as (a & Ha & Hw & Hn).
  assert (∃ a', sim h' a' ∧ names_of a' = names_of a ∧ whereabouts a' = base.delete gone (whereabouts a)) as (a' & Ha' & En & Ew).
  { destruct (tk_resident t !! gone) as [[b ext|pl]|] eqn:Er.
    - subst h'. exists a. split_and!; try done. rewrite delete_id; [done|]. apply eq_None_not_Some. intros [[b' reg] [k' E]%Hw]. congruence.
    - destruct Hh as [n Eh]. destruct (Hn _ _ Er) as [l El]. destruct (remove_placed (tk_heaps t) a pl gone l Ha El) as (n' & h1 & E1 & Hs).
      { apply Hw. exists (pl_heap pl). rewrite Er. by destruct pl. } rewrite E1 in Eh. injection Eh as _ <-. by eexists.
    - subst h'. exists a. split_and!; try done. rewrite delete_id; [done|]. apply eq_None_not_Some. intros [[b' reg] [k' E]%Hw]. congruence. }
  split; [|by rewrite (sim_heap_names _ _ Ha'), (sim_heap_names _ _ Ha)]. split; cbn.
  - apply H.
  - exists a'. split; [done|]. rewrite En, Ew. split.
    + intros id b reg. setoid_rewrite lookup_delete_Some. rewrite Hw. naive_solver.
    + intros id pl [_ E]%lookup_delete_Some. by eapply Hn.
  - intros id r [Hne E]%lookup_delete_Some _. apply (tb_named _ _ _ H); [done|congruence].
  - intros id b Hl Hf. destruct (tb_resident _ _ _ H id b Hl Hf) as (r & E & Hb). exists r. split; [|done]. rewrite lookup_delete_ne; [done|].
    intros <-. by eapply Hdead.
  - intros id r [_ E]%lookup_delete_Some. by eapply (tb_extent _ _ _ H).
Qed.

(** What [retire_resident] does to its task: the namespace is left alone. *)
Record retired_to (id : ResourceId) (t t' : Task) : Prop := {
  rt_names : tk_namespace t' = tk_namespace t;
  rt_heaps : heap_names (tk_heaps t') = heap_names (tk_heaps t);
  rt_resident : tk_resident t' = base.delete id (tk_resident t) }.
Definition only_teardown (t : Teardown) : Effects := mkEffects [] [t] [] [] [] [].
Lemma retire_wp k id fresh teardown s t Q E :
  lc_but k (Some id) fresh (λ b, teardown = Now b) s → tasks s !! k = Some t → (∀ ob, ¬ live_name (tk_namespace t) id ob) →
  (∀ b, teardown = Now b → ∃ r, tk_resident t !! id = Some r ∧ res_backing r = b) →
  (∀ s' t', tasks s' = <[k := t']> (tasks s) → retired_to id t t' → lc_but k None fresh (λ _, False) s' → Q (only_teardown teardown) s') →
  wp (retire_resident k id teardown) s Q E.
Proof.
  intros H Et Hdead Hp HQ. pose proof (lb_task _ _ _ _ _ H k t Et) as Ht. rewrite !at_task_eq in Ht.
  assert (∀ h', (match tk_resident t !! id with Some (RPlaced pl) => ∃ n, heap_remove (tk_heaps t) pl id = (inl (Heaps.Held n true), h') | _ => h' = tk_heaps t end) →
    let t' := mkTask (tk_directory t) (tk_object_list t) (tk_namespace t) h' (base.delete id (tk_resident t)) in
    retired_to id t t' ∧ task_but None fresh t' ∧ lc_but k None fresh (λ b, teardown = Now b) (mkLifecycle (<[k := t']> (tasks s)) (content s))) as Hput.
  { intros h' Hh t'. destruct (drop_resident_ok _ _ _ _ Ht Hdead Hh) as [Ht' Hn]. split; [done|]. split; [done|]. eapply (lc_put k (Some id) fresh); [exact H|done|done|..|done|].
    - intros b Hb. left. apply (answers_for_names _ _ _ _ Ht'). apply (answers_for_names _ _ _ _ Ht) in Hb. cbn. by rewrite Hn.
    - cbn. intros id' r [_ Er]%lookup_delete_Some. by eapply (lb_known _ _ _ _ _ H). }
  unfold retire_resident. apply wp_bind. unfold held_task, wp. rewrite Et. cbn. destruct (tk_resident t !! id) as [[b ext|pl]|] eqn:Er.
  - destruct (Hput _ eq_refl) as (Hr & Ht' & Hl). apply wp_bind. cbn.
    destruct teardown as [b0|? ?|?|]; [|apply wp_ret; eapply HQ; [done|exact Hr|]; by eapply lc_weaken..].
    assert (b0 = b) as ->. { destruct (Hp b0 eq_refl) as (r & E1 & <-). by simplify_eq. }
    apply wp_bind. eapply forget_wp; [exact Hl|]. intros f s' Es' Hl' _. apply wp_ret. eapply HQ; [exact Es'|exact Hr|]. eapply lc_weaken; [exact Hl'|]. by intros b' _ [[= ->] ?].
  - destruct (tb_heaps _ _ _ Ht) as (a & Ha & Hw & Hn). destruct (Hn _ _ Er) as [l El].
    destruct (remove_placed (tk_heaps t) a pl id l Ha El) as (n & h' & Eh & _). { apply Hw. exists (pl_heap pl). rewrite Er. by destruct pl. }
    rewrite Eh. destruct (Hput h') as (Hr & Ht' & Hl); [eauto|]. apply wp_bind. cbn. eapply HQ; [done|exact Hr|].
    eapply lc_weaken; [exact Hl|]. intros b' _ Eb. left. destruct (Hp _ Eb) as (r & E1 & <-). simplify_eq.
    exists k, (mkTask (tk_directory t) (tk_object_list t) (tk_namespace t) h' (base.delete id (tk_resident t))). cbn. split; [by rewrite lookup_insert_eq|].
    apply (answers_for_names _ _ _ _ Ht'). right. rewrite (rt_heaps _ _ _ Hr), (sim_heap_names _ _ Ha). eauto.
  - destruct (Hput _ eq_refl) as (Hr & Ht' & Hl). apply wp_bind. cbn. eapply HQ; [done|exact Hr|].
    eapply lc_weaken; [exact Hl|]. intros b' _ Eb. destruct (Hp _ Eb) as (r & ? & _). congruence.
Qed.

(** *** Refusals

    A refused operation changes nothing but the namespace's two counters. *)
Record quiet_task (t t' : Task) : Prop := {
  qt_directory : tk_directory t' = tk_directory t; qt_list : tk_object_list t' = tk_object_list t;
  qt_names : same_names (tk_namespace t) (tk_namespace t'); qt_heaps : tk_heaps t' = tk_heaps t; qt_resident : tk_resident t' = tk_resident t }.
Record quiet (s s' : Lifecycle) : Prop := {
  qu_content : content s' = content s;
  qu_tasks k : match tasks s !! k, tasks s' !! k with Some t, Some t' => quiet_task t t' | None, None => True | _, _ => False end }.
Lemma quiet_task_refl t : quiet_task t t.
Proof. done. Qed.
Lemma quiet_refl s : quiet s s.
Proof. split; [done|]. intros k. by destruct (tasks s !! k). Qed.
Lemma quiet_put s k t n : tasks s !! k = Some t → same_names (tk_namespace t) n →
  quiet s (mkLifecycle (<[k := mkTask (tk_directory t) (tk_object_list t) n (tk_heaps t) (tk_resident t)]> (tasks s)) (content s)).
Proof.
  intros Et Hn. split; [done|]. intros k'. cbn. destruct (decide (k' = k)) as [->|Hne]; [by rewrite lookup_insert_eq, Et|].
  rewrite lookup_insert_ne by done. by destruct (tasks s !! k').
Qed.
Lemma quiet_task_ok gone fresh t t' : quiet_task t t' → task_but gone fresh t → task_but gone fresh t'.
Proof.
  intros [_ _ Hn Hh Hr] H. split; rewrite ?Hh, ?Hr; try apply H.
  - eapply same_names_ok; [apply H|done].
  - intros id r Er Hg. rewrite (same_names_live _ _ _ _ Hn). by apply H.
  - intros id b Hl. rewrite (same_names_live _ _ _ _ Hn) in Hl. by apply H.
Qed.
Lemma quiet_answers b t t' : quiet_task t t' → answers_for b t' = answers_for b t.
Proof. intros [_ _ Hn Hh _]. unfold answers_for. by rewrite Hh, (same_names_holds _ _ _ Hn). Qed.
Lemma quiet_answered s s' b : quiet s s' → answered s b ↔ answered s' b.
Proof.
  intros [_ Ht]. split; intros (k & t & E & A); specialize (Ht k); rewrite E in Ht.
  - destruct (tasks s' !! k) as [t'|] eqn:E'; [|done]. exists k, t'. by rewrite (quiet_answers _ _ _ Ht).
  - destruct (tasks s !! k) as [t'|] eqn:E'; [|done]. exists k, t'. by rewrite <- (quiet_answers _ _ _ Ht).
Qed.
Lemma quiet_ok s s' : quiet s s' → lc_ok s → lc_ok s'.
Proof.
  intros Hq H. pose proof Hq as [Ec Ht]. split.
  - intros k t E. specialize (Ht k). rewrite E in Ht. destruct (tasks s !! k) as [t0|] eqn:E0; [|done]. eapply quiet_task_ok; [exact Ht|]. by apply (lb_task _ _ _ _ _ H).
  - intros b. rewrite Ec, <- (quiet_answered _ _ _ Hq). apply H.
  - intros k t id r E. specialize (Ht k). rewrite E in Ht. destruct (tasks s !! k) as [t0|] eqn:E0; [|done]. rewrite Ec, (qt_resident _ _ Ht). by eapply (lb_known _ _ _ _ _ H).
Qed.

(** *** Deleting names *)
Lemma changed_live n n' k v id ob : slots n' = <[k := v]> (slots n) → live_name n' id ob ↔
  slot_ref id ≠ k ∧ live_name n id ob ∨ id = mkResourceId k (sl_generation v) ∧ sl_deleted v = false ∧ sl_backing v = ob.
Proof.
  intros E. unfold live_name. rewrite E. destruct id as [k' g]. cbn. destruct (decide (k' = k)) as [->|Hne].
  - rewrite lookup_insert_eq. split; [intros (sl & [= <-] & <- & ? & ?); by right|]. intros [[? _]|([= ->] & ? & ?)]; [done|]. by exists v.
  - rewrite lookup_insert_ne by done. split; [by left|]. by intros [[_ ?]|([= ? _] & _)].
Qed.
Lemma live_same_slot n id id' ob ob' : live_name n id ob → live_name n id' ob' → slot_ref id = slot_ref id' → id = id'.
Proof.
  intros (sl & E & Eg & _) (sl' & E' & Eg' & _) Es. rewrite Es in E. assert (sl' = sl) as -> by congruence. destruct id, id'. cbn in *. congruence.
Qed.
Definition with_names (t : Task) (n : Namespace) : Task := mkTask (tk_directory t) (tk_object_list t) n (tk_heaps t) (tk_resident t).
Lemma renamed_task t n' k v gone fresh : task_ok t → ns_ok n' [] [] → slots n' = <[k := v]> (slots (tk_namespace t)) →
  (∀ id ob, live_name (tk_namespace t) id ob → slot_ref id = k → gone = Some id) → (sl_deleted v = false → fresh = Some (mkResourceId k (sl_generation v))) →
  task_but gone fresh (with_names t n').
Proof.
  intros H Hok Es Hg Hf. split; cbn; [done|apply H| | |apply H].
  - intros id r Er Hng. rewrite (changed_live _ _ _ _ _ _ Es). left. pose proof (tb_named _ _ _ H id r Er ltac:(done)) as Hl.
    split; [|done]. intros Ek. by rewrite (Hg _ _ Hl Ek) in Hng.
  - intros id b Hl Hnf. rewrite (changed_live _ _ _ _ _ _ Es) in Hl. destruct Hl as [[_ Hl]|(-> & Hd & _)]; [by apply (tb_resident _ _ _ H)|].
    by rewrite (Hf Hd) in Hnf.
Qed.
(** The storage an old name stood for is still answered for, or its name was the last. *)
Lemma renamed_answers t n' k v gone fresh teardown ob b : task_ok t → task_but gone fresh (with_names t n') → slots n' = <[k := v]> (slots (tk_namespace t)) →
  (∀ id ob', live_name (tk_namespace t) id ob' → slot_ref id = k → ob' = ob) → last_name teardown ob n' →
  answers_for b t = true → answers_for b (with_names t n') = true ∨ teardown = Now b.
Proof.
  intros H H' Es Hob Hlast. rewrite (answers_for_names _ _ _ _ H). intros [[id Hl]|Hh]; [|left; apply (answers_for_names _ _ _ _ H'); by right].
  destruct (ns_holds n' b) eqn:Eh; [left; unfold answers_for; cbn; by rewrite Eh|]. right. apply Hlast. split; [|done].
  destruct (decide (slot_ref id = k)) as [Ek|Hne]; [symmetry; by eapply Hob|]. exfalso.
  assert (ns_holds n' b = true); [|congruence]. apply (ns_holds_spec _ _ (tb_names _ _ _ H')). exists id. apply (changed_live _ _ _ _ _ _ Es). by left.
Qed.

Record deleted_to (ids : list ResourceId) (t t' : Task) : Prop := {
  dt_live id ob : live_name (tk_namespace t') id ob ↔ live_name (tk_namespace t) id ob ∧ (id ∉ ids);
  dt_heaps : heap_names (tk_heaps t') = heap_names (tk_heaps t) }.
Lemma delete_resource_wp k id s Q E : lc_ok s →
  (∀ t t' s' teardown, tasks s !! k = Some t → (∃ ob, live_name (tk_namespace t) id ob) → tasks s' = <[k := t']> (tasks s) → deleted_to [id] t t' → lc_ok s' →
    Q (only_teardown teardown) s') →
  (∀ e s', quiet s s' → (∀ t, tasks s !! k = Some t → ∀ ob, ¬ live_name (tk_namespace t) id ob) → E e s') →
  wp (delete_resource k id) s Q E.
Proof.
  intros H HQ HE. apply (lc_ok_at k) in H. unfold delete_resource. apply wp_bind. unfold wp, the_task.
  destruct (tasks s !! k) as [t|] eqn:Et; [|apply HE; [apply quiet_refl|congruence]].
  pose proof (lb_task _ _ _ _ _ H k t Et) as Ht. rewrite !at_task_none in Ht. apply wp_bind. unfold expect, wp.
  destruct (ns_delete_spec (tk_namespace t) id (tb_names _ _ _ Ht)) as (r & n' & Ed & Hr). rewrite Ed. apply wp_bind. cbn.
  destruct r as [teardown|e]; cbn.
  2: { destruct Hr as [Hs Hn]. apply HE; [by apply quiet_put|]. by intros ? [= <-]. }
  destruct Hr as (Hok & sl & Es & Hl & Esn & Hlast). set (v := (sl <| sl_deleted := true |>) <| sl_outstanding := 0%nat |>) in *.
  assert (∀ id' ob, live_name (tk_namespace t) id' ob → slot_ref id' = slot_ref id → Some id = Some id') as Hg.
  { intros id' ob Hl' Ek. f_equal. symmetry. by eapply live_same_slot. }
  pose proof (renamed_task t n' (slot_ref id) v (Some id) None Ht Hok Esn Hg ltac:(done)) as Ht'.
  eapply (retire_wp k id None teardown _ (with_names t n')).
  - eapply lc_put; [exact H|done|exact Ht'| |done|intros id' r; cbn; by eapply (lb_known _ _ _ _ _ H)].
    intros b. eapply renamed_answers; [exact Ht|exact Ht'|exact Esn| |exact Hlast]. intros id' ob Hl' Ek. assert (id' = id) as -> by (by eapply live_same_slot). by eapply live_name_fun.
  - apply lookup_insert_eq.
  - intros ob. unfold with_names. cbn [tk_namespace]. rewrite (changed_live _ _ _ _ _ _ Esn). naive_solver.
  - intros b Eb. apply Hlast in Eb as [Eb _]. rewrite Eb in Hl. by apply (tb_resident _ _ _ Ht).
  - intros s' t' Ets Hrt Hlc. cbn in Ets. rewrite insert_insert_eq in Ets. eapply HQ; [done|eauto|exact Ets| |by apply (lc_ok_at k)]. split.
    + intros id' ob. rewrite (rt_names _ _ _ Hrt), (changed_live _ _ _ _ _ _ Esn), list_elem_of_singleton. cbn. split.
      * intros [[Hne Hl']|(_ & ? & _)]; [|done]. split; [done|]. by intros ->.
      * intros [Hl' Hne]. left. split; [|done]. intros Ek. destruct Hne. by eapply live_same_slot.
    + apply (rt_heaps _ _ _ Hrt).
Qed.
Lemma live_names_spec n id : id ∈ live_names n ↔ ∃ ob, live_name n id ob.
Proof.
  unfold live_names. rewrite merge_sort_Permutation, list_elem_of_fmap. split.
  - intros ([k sl] & -> & [E Hd]%elem_of_map_to_list%map_lookup_filter_Some). exists (sl_backing sl), sl. done.
  - intros (ob & sl & E & Eg & Hd & _). exists (slot_ref id, sl). split; [destruct id; cbn in *; by rewrite Eg|]. by apply elem_of_map_to_list, map_lookup_filter_Some.
Qed.
Lemma live_names_NoDup n : NoDup (live_names n).
Proof.
  unfold live_names. rewrite merge_sort_Permutation. set (m := filter _ (slots n)). apply (NoDup_fmap_1 slot_ref). rewrite <- list_fmap_compose.
  apply (NoDup_fst_map_to_list m).
Qed.
Lemma answered_tasks s s' b : tasks s' = tasks s → answered s' b ↔ answered s b.
Proof. intros E. unfold answered. by rewrite E. Qed.
Lemma deleted_trans ids id t t1 t2 : deleted_to [id] t t1 → deleted_to ids t1 t2 → deleted_to (id :: ids) t t2.
Proof.
  intros [L1 H1] [L2 H2]. split; [|congruence]. intros id' ob. rewrite L2, L1. set_solver.
Qed.
Lemma delete_each_wp k ids : ∀ acc s t Q E, lc_ok s → tasks s !! k = Some t → NoDup ids → (∀ id, id ∈ ids → ∃ ob, live_name (tk_namespace t) id ob) →
  (∀ e s' t', tasks s' = <[k := t']> (tasks s) → deleted_to ids t t' → lc_ok s' → storage_freed e = storage_freed acc → Q e s') →
  wp (delete_each k ids acc) s Q E.
Proof.
  induction ids as [|id ids IH]; intros acc s t Q E H Et Hnd Hl HQ; cbn [delete_each].
  { apply wp_ret. apply (HQ acc s t); [by rewrite insert_id|split; [|done]|done|done]. intros id ob. set_solver. }
  apply NoDup_cons in Hnd as [Hni Hnd]. apply wp_bind. apply delete_resource_wp; [done| |].
  - intros t0 t1 s1 td Et0 _ Es1 Hd1 H1. simplify_eq. eapply (IH _ s1 t1); [done|by rewrite Es1, lookup_insert_eq|done| |].
    + intros id' Hin. destruct (Hl id') as [ob Hob]; [by right|]. exists ob. apply Hd1. split; [done|]. rewrite list_elem_of_singleton. congruence.
    + intros e s2 t2 Es2 Hd2 H2 Ef. eapply HQ; [by rewrite Es2, Es1, insert_insert_eq|by eapply deleted_trans|done|]. rewrite Ef. cbn. by rewrite app_nil_r.
  - intros e s' _ Hn. destruct (Hl id) as [ob Hob]; [by left|]. by destruct (Hn _ Et ob).
Qed.
Lemma forget_each_wp k bs : ∀ acc pend s Q E, lc_but k None None pend s →
  (∀ e s', tasks s' = tasks s → lc_but k None None (λ b, pend b ∧ (b ∉ bs)) s' →
    (∀ b, b ∈ storage_freed e ↔ b ∈ storage_freed acc ∨ b ∈ bs ∧ ¬ answered s b) → redefined e = redefined acc → Q e s') →
  wp (forget_each bs acc) s Q E.
Proof.
  induction bs as [|b bs IH]; intros acc pend s Q E H HQ; cbn [forget_each].
  { apply wp_ret. apply (HQ acc s); [done| |set_solver|done]. eapply lc_weaken; [exact H|]. intros b _ ?. right. split; [done|]. apply not_elem_of_nil. }
  apply wp_bind. eapply forget_wp; [exact H|]. intros f s1 E1 H1 Hf. eapply IH; [exact H1|]. intros e s2 E2 H2 He Hr.
  apply HQ; [congruence| | |].
  - eapply lc_weaken; [exact H2|]. intros b' _ [[? ?] ?]. right. split; [done|]. rewrite elem_of_cons. naive_solver.
  - intros b'. rewrite He, (answered_tasks _ _ _ E1), elem_of_cons. destruct f; cbn; rewrite ?elem_of_app, ?list_elem_of_singleton; naive_solver.
  - rewrite Hr. destruct f; [|done]. cbn. by rewrite app_nil_r.
Qed.
Lemma delete_task_wp k s Q E : lc_ok s →
  (∀ e s' t, tasks s !! k = Some t → tasks s' = base.delete k (tasks s) → lc_ok s' →
    (∀ b, b ∈ storage_freed e ↔ (∃ h l, heap_names (tk_heaps t) !! h = Some (b, l)) ∧ ¬ answered s' b) → Q e s') →
  (∀ e, tasks s !! k = None → E e s) →
  wp (delete_task k) s Q E.
Proof.
  intros H HQ HE. unfold delete_task. apply wp_bind. unfold wp at 1, the_task. destruct (tasks s !! k) as [t|] eqn:Et; [|by apply HE].
  apply wp_bind. eapply (delete_each_wp k _ no_effects s t); [done|done|apply live_names_NoDup|intros id; by apply live_names_spec|].
  intros e s1 t1 E1 Hd1 H1 Ef. apply wp_bind. unfold wp at 1, held_task. rewrite E1, lookup_insert_eq.
  assert (tasks s1 !! k = Some t1) as Et1 by (by rewrite E1, lookup_insert_eq). pose proof (lc_ok_task _ _ _ H1 Et1) as Ht1.
  assert (tk_resident t1 = ∅) as Er.
  { apply map_empty. intros id. apply eq_None_not_Some. intros [r Er]. pose proof (tb_named _ _ _ Ht1 id r Er ltac:(done)) as Hl.
    apply Hd1 in Hl as [Hl Hn]. apply Hn, live_names_spec. eauto. }
  destruct (tb_heaps _ _ _ Ht1) as (a & Ha & Hw & _). assert (whereabouts a = ∅) as Ew.
  { apply map_empty. intros id. apply eq_None_not_Some. intros [[b reg] [k' E']%Hw]. by rewrite Er in E'. }
  pose proof (delete_heaps_spec (live_heaps (tk_heaps t1)) (tk_heaps t1) a [] Ha Ew) as Hrel.
  destruct (delete_heaps (tk_heaps t1) (live_heaps (tk_heaps t1)) []) as [released h]. cbn [fst] in Hrel.
  assert (∀ b, b ∈ released ↔ ∃ h l, heap_names (tk_heaps t) !! h = Some (b, l)) as Hrb.
  { intros b. rewrite Hrel; [|unfold live_heaps; rewrite merge_sort_Permutation; apply NoDup_fst_map_to_list|].
    - rewrite <- (dt_heaps _ _ _ Hd1), (sim_heap_names _ _ Ha), elem_of_nil. setoid_rewrite live_heaps_spec. split; [naive_solver|].
      intros (h' & l & E'). right. exists h', l. split; [|done]. destruct (sim_live_inv _ _ _ _ _ Ha E') as [g ->]. eauto.
    - intros h' [st Est]%live_heaps_spec. destruct (sim_live _ _ _ _ Ha Est) as [-> _]. eauto. }
  apply wp_bind. cbn. apply wp_bind. cbn. set (s2 := mkLifecycle _ _).
  assert (tasks s2 = base.delete k (tasks s)) as E2 by (cbn; by rewrite E1, insert_insert_eq, delete_insert_eq).
  eapply (forget_each_wp k released e (λ b, b ∈ released) s2).
  - split.
    + intros k' t' E'. rewrite E2 in E'. apply lookup_delete_Some in E' as [Hne E']. rewrite !at_task_none. eapply (lc_ok_task s); done.
    + intros b Hb. destruct (lb_answered _ _ _ _ _ H1 b Hb) as [(k' & t' & E' & A')|[]]. rewrite E1 in E'. apply lookup_insert_Some in E' as [[<- <-]|[Hne E']].
      * right. apply (answers_for_names _ _ _ _ Ht1) in A' as [[id Hl]|Hh]; [|by rewrite Hrb, <- (dt_heaps _ _ _ Hd1)].
        apply Hd1 in Hl as [Hl Hn]. destruct Hn. apply live_names_spec. eauto.
      * left. exists k', t'. rewrite E2, lookup_delete_ne; done.
    + intros k' t' id r E'. rewrite E2 in E'. apply lookup_delete_Some in E' as [Hne E']. apply (lb_known _ _ _ _ _ H1 k'). by rewrite E1, lookup_insert_ne.
  - intros e' s' Es' Hl' Hf _. eapply HQ; [done|by rewrite Es'|apply (lc_ok_at k); eapply lc_weaken; [exact Hl'|naive_solver]|].
    intros b. rewrite Hf, Ef, <- Hrb, (answered_tasks _ _ _ Es'). cbn. rewrite elem_of_nil. naive_solver.
Qed.

(** *** What every operation keeps

    Storage is heap storage while a live heap of some task has it.  Storage that outlives its heap
    because another task has a name over it is that name's storage from then on, and the end of
    the name forgets its content without reporting it as freed. *)
Definition heap_held (s : Lifecycle) (b : Z) : Prop := ∃ k t h l, tasks s !! k = Some t ∧ heap_names (tk_heaps t) !! h = Some (b, l).
(** The owner is consistent afterwards, and exactly the heap storage that nothing in the
    session answers for any more is reported free. *)
Definition sound (s : Lifecycle) (e : Effects) (s' : Lifecycle) : Prop :=
  lc_ok s' ∧ ∀ b, b ∈ storage_freed e ↔ heap_held s b ∧ ¬ answered s' b.
Lemma heap_held_answered s b : lc_ok s → heap_held s b → answered s b.
Proof. intros H (k & t & h & l & Et & E). exists k, t. split; [done|]. eapply answers_for_names; [by eapply lc_ok_task|]. eauto. Qed.
Lemma heap_held_put s s' k t t' b : tasks s !! k = Some t → tasks s' = <[k := t']> (tasks s) →
  (∀ h x, heap_names (tk_heaps t) !! h = Some x → heap_names (tk_heaps t') !! h = Some x) → heap_held s b → heap_held s' b.
Proof.
  intros Et Es Hh (k' & t0 & h & l & E0 & E). destruct (decide (k' = k)) as [->|Hne].
  - exists k, t', h, l. rewrite Es, lookup_insert_eq. split; [done|]. apply Hh. by simplify_eq.
  - exists k', t0, h, l. by rewrite Es, lookup_insert_ne.
Qed.
Lemma sound_kept s e s' : lc_ok s' → storage_freed e = [] → (∀ b, heap_held s b → heap_held s' b) → sound s e s'.
Proof.
  intros H Ee Hh. split; [done|]. intros b. rewrite Ee, elem_of_nil. split; [done|]. intros [Hb Hn]. by apply Hn, heap_held_answered, Hh.
Qed.
Lemma sound_put s e s' k t t' : lc_ok s' → storage_freed e = [] → tasks s !! k = Some t → tasks s' = <[k := t']> (tasks s) →
  heap_names (tk_heaps t') = heap_names (tk_heaps t) → sound s e s'.
Proof. intros H Ee Et Es Hh. apply sound_kept; [done|done|]. intros b. eapply heap_held_put; [done|done|]. by rewrite Hh. Qed.

Lemma task_new_ok directory : task_ok (task_new directory).
Proof.
  split; cbn; [|exists no_heaps; split; [apply new_sim|]; cbn; naive_solver|done| |done].
  - split; cbn; try done. by intros c ?%elem_of_nil.
  - intros id b (sl & ? & _). done.
Qed.
Lemma task_new_answers directory b : answers_for b (task_new directory) = false.
Proof. done. Qed.
Lemma lc_add s k directory : lc_ok s → tasks s !! k = None → lc_ok (mkLifecycle (<[k := task_new directory]> (tasks s)) (content s)) ∧
  ∀ b, answered (mkLifecycle (<[k := task_new directory]> (tasks s)) (content s)) b ↔ answered s b.
Proof.
  intros H Ek. assert (∀ b, answered (mkLifecycle (<[k := task_new directory]> (tasks s)) (content s)) b ↔ answered s b) as Ha.
  { intros b. split; intros (k' & t & E & A); cbn in *.
    - apply lookup_insert_Some in E as [[<- <-]|[Hne E]]; [done|by exists k', t].
    - exists k', t. cbn. rewrite lookup_insert_ne; [done|]. congruence. }
  split; [|done]. split; cbn.
  - intros k' t [[<- <-]|[Hne E]]%lookup_insert_Some; [rewrite !at_task_none; apply task_new_ok|by apply (lb_task _ _ _ _ _ H)].
  - intros b. rewrite Ha. apply H.
  - intros k' t id r [[<- <-]|[Hne E]]%lookup_insert_Some; [done|by eapply (lb_known _ _ _ _ _ H)].
Qed.
Lemma define_task_wp k directory s : lc_ok s → wp (define_task k directory) s (sound s) (λ _ s', quiet s s').
Proof.
  intros H. unfold define_task. apply wp_bind. unfold wp at 1, ask. destruct (tasks s !! k) as [t|] eqn:Et; cbn.
  - apply wp_bind, wp_bind. apply delete_task_wp; [done| |congruence]. intros e s1 t0 Et0 E1 H1 Hf. simplify_eq.
    apply wp_ret. apply wp_bind. cbn. destruct (lc_add s1 k directory H1) as [H2 Ha]; [by rewrite E1, lookup_delete_eq|]. split; [done|].
    intros b. cbn. rewrite app_nil_r, Hf, Ha. split; intros [Hb Hn]; (split; [|done]).
    + destruct Hb as (h & l & Eh). by exists k, t, h, l.
    + destruct Hb as (k' & t' & h & l & E' & Eh). destruct (decide (k' = k)) as [->|Hne]; [simplify_eq; eauto|]. destruct Hn.
      apply heap_held_answered; [done|]. exists k', t', h, l. by rewrite E1, lookup_delete_ne.
  - apply wp_bind. cbn. apply wp_bind. cbn. destruct (lc_add s k directory H Et) as [H2 Ha]. apply sound_kept; [done|done|].
    intros b (k' & t' & h & l & E' & Eh). exists k', t', h, l. cbn. rewrite lookup_insert_ne; [done|]. congruence.
Qed.
Lemma delete_task_sound k s : lc_ok s → wp (delete_task k) s (sound s) (λ _ s', quiet s s').
Proof.
  intros H. apply delete_task_wp; [done| |intros; apply quiet_refl]. intros e s1 t Et E1 H1 Hf. split; [done|]. intros b. rewrite Hf.
  split; intros [Hb Hn]; (split; [|done]); [destruct Hb as (h & l & Eh); by exists k, t, h, l|].
  destruct Hb as (k' & t' & h & l & E' & Eh). destruct (decide (k' = k)) as [->|Hne]; [simplify_eq; eauto|]. destruct Hn.
  apply heap_held_answered; [done|]. exists k', t', h, l. by rewrite E1, lookup_delete_ne.
Qed.
Lemma delete_resource_sound k id s : lc_ok s → wp (delete_resource k id) s (sound s) (λ _ s', quiet s s').
Proof.
  intros H. apply delete_resource_wp; [done| |done]. intros t t' s' td Et _ Es Hd H'. by eapply sound_put; [done| |done|done|apply Hd].
Qed.
Lemma bind_object_list_sound k list s : lc_ok s → wp (bind_object_list k list) s (sound s) (λ _ s', quiet s s').
Proof.
  intros H. unfold bind_object_list. apply wp_bind. unfold wp at 1, the_task. destruct (tasks s !! k) as [t|] eqn:Et; [|apply quiet_refl].
  apply wp_bind. cbn. set (t' := mkTask _ _ _ _ _). pose proof (lc_ok_task _ _ _ H Et) as Ht.
  apply (sound_put s _ _ k t t'); [|done|done|done|done]. apply (lc_ok_at k). apply (lc_ok_at k) in H.
  eapply lc_put; [exact H|exact Et| |by left|done|intros id r; cbn; by eapply (lb_known _ _ _ _ _ H)]. by destruct Ht.
Qed.
Lemma remap_sound k span est s : lc_ok s → wp (remap k span est) s (sound s) (λ _ s', quiet s s').
Proof.
  intros H. unfold remap. apply wp_bind. unfold wp at 1, the_task. destruct (tasks s !! k) as [t|] eqn:Et; [|apply quiet_refl]. by apply sound_kept.
Qed.

(** *** Creating a resource *)
Definition displaced_effects (k : Z) (x : NameDeclared) : act Effects :=
  match nd_displaced x with Some d => retire_resident k (di_id d) (di_teardown d) | None => mret no_effects end.
(** A name is declared, and whatever it displaced has left. *)
Record declared_to (id : ResourceId) (ob : option Z) (t t' : Task) : Prop := {
  de_live : live_name (tk_namespace t') id ob; de_unplaced : tk_resident t' !! id = None; de_heaps : heap_names (tk_heaps t') = heap_names (tk_heaps t) }.
Lemma declare_wp k slot ob s t : lc_ok s → tasks s !! k = Some t → ∃ x n', ns_declare (tk_namespace t) slot ob = Some (x, n') ∧ ∀ Q E,
  (∀ e s' t', tasks s' = <[k := t']> (tasks s) → lc_but k None (Some (nd_id x)) (λ _, False) s' → declared_to (nd_id x) ob t t' → storage_freed e = [] → Q e s') →
  wp (displaced_effects k x) (mkLifecycle (<[k := with_names t n']> (tasks s)) (content s)) Q E.
Proof.
  intros H Et. pose proof (lc_ok_task _ _ _ H Et) as Ht. apply (lc_ok_at k) in H.
  destruct (ns_declare_spec (tk_namespace t) slot ob (tb_names _ _ _ Ht)) as (x & n' & g & Ed & Hok & Eid & Esn & Hdis). exists x, n'. split; [done|].
  intros Q E HQ. set (v := mkSlot g ob false 0) in *.
  assert (∀ ob', ¬ live_name (tk_namespace t) (mkResourceId slot g) ob') as Hnew.
  { intros ob' (sl & Es & Eg & Hd & _). cbn in *. destruct (nd_displaced x) as [d|]; [destruct Hdis as (sl' & Es' & _ & Hne & _); congruence|].
    rewrite (Hdis sl Es) in Hd. done. }
  assert (tk_resident t !! mkResourceId slot g = None) as Hnr.
  { apply eq_None_not_Some. intros [r Er]. by eapply Hnew, (tb_named _ _ _ Ht). }
  assert (live_name n' (mkResourceId slot g) ob) as Hlive by (apply (changed_live _ _ _ _ _ _ Esn); by right).
  unfold displaced_effects. destruct (nd_displaced x) as [d|].
  - destruct Hdis as (sl & Es & Hd & Hne & Edi & Hlast). assert (live_name (tk_namespace t) (di_id d) (sl_backing sl)) as Hl by (rewrite Edi; by exists sl).
    assert (slot_ref (di_id d) = slot) as Eslot by (by rewrite Edi).
    pose proof (renamed_task t n' slot v (Some (di_id d)) (Some (nd_id x)) Ht Hok Esn) as Ht'. rewrite Eid in *.
    assert (task_but (Some (di_id d)) (Some (mkResourceId slot g)) (with_names t n')) as Ht1.
    { apply Ht'; [|done]. intros id' ob' Hl' Ek. f_equal. eapply live_same_slot; [exact Hl|exact Hl'|congruence]. }
    eapply (retire_wp k (di_id d) (Some (mkResourceId slot g)) (di_teardown d) _ (with_names t n')).
    + eapply lc_put; [exact H|done|exact Ht1| |done|intros id' r; cbn; by eapply (lb_known _ _ _ _ _ H)].
      intros b. eapply renamed_answers; [exact Ht|exact Ht1|exact Esn| |exact Hlast]. intros id' ob' Hl' Ek.
      assert (id' = di_id d) as -> by (eapply live_same_slot; [exact Hl'|exact Hl|congruence]). by eapply live_name_fun.
    + apply lookup_insert_eq.
    + intros ob'. unfold with_names. cbn [tk_namespace]. rewrite (changed_live _ _ _ _ _ _ Esn), Edi. cbn. intros [[? _]|([= E'] & _)]; congruence.
    + intros b Eb. apply Hlast in Eb as [Eb _]. rewrite Eb in Hl. by apply (tb_resident _ _ _ Ht).
    + intros s' t' Es' Hrt Hl'. cbn in Es'. rewrite insert_insert_eq in Es'. eapply HQ; [exact Es'|exact Hl'| |done]. split; [by rewrite (rt_names _ _ _ Hrt)| |apply (rt_heaps _ _ _ Hrt)].
      rewrite (rt_resident _ _ _ Hrt). cbn. apply lookup_delete_None. by right.
  - rewrite Eid in *. assert (task_but None (Some (mkResourceId slot g)) (with_names t n')) as Ht1.
    { eapply renamed_task; [done|done|exact Esn| |done]. intros id' ob' (sl & Es & _ & Hd & _) Ek. rewrite Ek in Es. by rewrite (Hdis sl Es) in Hd. }
    apply wp_ret. eapply (HQ no_effects _ (with_names t n')); [done| |by split|done].
    eapply lc_put; [exact H|done|exact Ht1| |done|intros id' r; cbn; by eapply (lb_known _ _ _ _ _ H)].
    intros b. rewrite (answers_for_names _ _ _ _ Ht), (answers_for_names _ _ _ _ Ht1). intros [[id' Hl']|?]; [|by left; right].
    left. left. exists id'. apply (changed_live _ _ _ _ _ _ Esn). left. split; [|done]. intros Ek. destruct Hl' as (sl & Es & _ & Hd & _). rewrite Ek in Es. by rewrite (Hdis sl Es) in Hd.
Qed.
Definition settle (t : Task) (id : ResourceId) (r : Resident) (h : Heaps) : Task :=
  mkTask (tk_directory t) (tk_object_list t) (tk_namespace t) h (<[id := r]> (tk_resident t)).
Lemma settle_ok t id r h : task_but None (Some id) t → live_name (tk_namespace t) id (Some (res_backing r)) → tk_resident t !! id = None → extent_ok (res_extent r) →
  (match r with
   | RDedicated _ _ => h = tk_heaps t
   | RPlaced pl => ∃ l, heap_names (tk_heaps t) !! pl_heap pl = Some (pl_backing pl, l) ∧
       ∀ a, sim (tk_heaps t) a → whereabouts a !! id = None → sim h (mkLedger (names_of a) (<[id := (pl_backing pl, pl_region pl)]> (whereabouts a)))
   end) → task_ok (settle t id r h) ∧ heap_names h = heap_names (tk_heaps t).
Proof.
  intros H Hl Hr He Hh. destruct (tb_heaps _ _ _ H) as (a & Ha & Hw & Hn).
  assert (whereabouts a !! id = None) as Hwn. { apply eq_None_not_Some. intros [[b reg] [k' E']%Hw]. congruence. }
  assert (∃ a', sim h a' ∧ names_of a' = names_of a ∧ whereabouts a' = match r with RDedicated _ _ => whereabouts a | RPlaced pl => <[id := (pl_backing pl, pl_region pl)]> (whereabouts a) end) as (a' & Ha' & En & Ew).
  { destruct r as [b ext|pl]; [subst h; by exists a|]. destruct Hh as (l & _ & Hs). eexists. split; [by apply Hs|done]. }
  split; [|by rewrite (sim_heap_names _ _ Ha'), (sim_heap_names _ _ Ha)]. split; cbn.
  - apply H.
  - exists a'. split; [done|]. rewrite En, Ew. split.
    + intros id' b reg. destruct (decide (id' = id)) as [->|Hne].
      * rewrite lookup_insert_eq. destruct r as [b' ext|[k' b' reg']]; cbn; [rewrite Hwn; naive_solver|rewrite lookup_insert_eq; naive_solver].
      * rewrite lookup_insert_ne by done. rewrite <- Hw. destruct r; [done|]. by rewrite lookup_insert_ne.
    + intros id' pl [[<- ->]|[Hne E']]%lookup_insert_Some; [|by eapply Hn]. destruct Hh as (l & El & _). exists l. by rewrite <- (sim_heap_names _ _ Ha).
  - intros id' r' [[<- <-]|[Hne E']]%lookup_insert_Some _; [done|by apply (tb_named _ _ _ H)].
  - intros id' b Hl' _. destruct (decide (id' = id)) as [->|Hne].
    + exists r. rewrite lookup_insert_eq. split; [done|]. pose proof (live_name_fun _ _ _ _ Hl Hl'). congruence.
    + rewrite lookup_insert_ne by done. apply (tb_resident _ _ _ H); [done|congruence].
  - intros id' r' [[<- <-]|[Hne E']]%lookup_insert_Some; [done|by eapply (tb_extent _ _ _ H)].
Qed.
Lemma fresh_no_bytes t id : task_but None (Some id) t → live_name (tk_namespace t) id None → task_ok t.
Proof.
  intros H Hl. split; try apply H. intros id' b Hl' _. apply (tb_resident _ _ _ H); [done|]. intros [= <-]. by pose proof (live_name_fun _ _ _ _ Hl Hl').
Qed.
Lemma settle_lc k id s t r h l : lc_but k None (Some id) (λ _, False) s → tasks s !! k = Some t → task_ok (settle t id r h) → heap_names h = heap_names (tk_heaps t) →
  (∀ b, known l b ↔ b = res_backing r ∨ known (content s) b) → lc_ok (mkLifecycle (<[k := settle t id r h]> (tasks s)) l).
Proof.
  intros H Et Ht' Hh Hk. pose proof (lb_task _ _ _ _ _ H k t Et) as Ht. rewrite at_task_none, at_task_eq in Ht. apply (lc_ok_at k).
  assert (lc_but k None None (λ _, False) (mkLifecycle (<[k := settle t id r h]> (tasks s)) l)) as Hgoal; [|done].
  split; cbn.
  - intros k' t1 [[<- <-]|[Hne E1]]%lookup_insert_Some; [by rewrite !at_task_none|]. pose proof (lb_task _ _ _ _ _ H k' t1 E1) as H1. by rewrite !at_task_none, at_task_ne in *.
  - intros b [->|Hb]%Hk; left.
    + exists k, (settle t id r h). cbn. rewrite lookup_insert_eq. split; [done|]. eapply named_answers; [exact Ht'|]. apply (tb_named _ _ _ Ht' id); [apply lookup_insert_eq|done].
    + destruct (lb_answered _ _ _ _ _ H b Hb) as [(k1 & t1 & E1 & A1)|[]]. destruct (decide (k1 = k)) as [->|Hne]; [|exists k1, t1; cbn; by rewrite lookup_insert_ne].
      simplify_eq. exists k, (settle t id r h). cbn. rewrite lookup_insert_eq. split; [done|]. apply (answers_for_names _ _ _ _ Ht'). apply (answers_for_names _ _ _ _ Ht) in A1. cbn. by rewrite Hh.
  - intros k' t1 id' r' [[<- <-]|[Hne E1]]%lookup_insert_Some; [|intros Er; apply Hk; right; by eapply (lb_known _ _ _ _ _ H)].
    cbn. intros [[<- <-]|[Hne E']]%lookup_insert_Some; apply Hk; [by left|right; by eapply (lb_known _ _ _ _ _ H)].
Qed.
Definition storage_ok (st : Storage) : Prop :=
  match st with Dedicated _ ext => extent_ok ext | StPlaced _ off len => 0 ≤ off < UINT64_MAX ∧ 0 ≤ len | NoBytes => True end.
Lemma create_dedicated_sound k slot b ext s : lc_ok s → extent_ok ext → wp (create_resource k slot (Dedicated b ext)) s (sound s) (λ _ s', quiet s s').
Proof.
  intros H Hext. unfold create_resource. apply wp_bind. unfold wp at 1, the_task. destruct (tasks s !! k) as [t|] eqn:Et; [|apply quiet_refl].
  destruct (declare_wp k slot (Some b) s t H Et) as (x & n' & Ed & Hw). apply wp_bind. cbn. apply wp_bind. unfold wp at 1, expect. rewrite Ed. cbn [fst snd].
  apply wp_bind. unfold wp at 1, put_task. apply wp_bind. apply Hw. intros e s1 t1 E1 H1 [Hl Hu Hh] He.
  assert (tasks s1 !! k = Some t1) as Et1 by (by rewrite E1, lookup_insert_eq). apply wp_bind. unfold wp at 1, held_task. rewrite Et1. apply wp_bind. cbn. apply wp_bind. cbn.
  pose proof (lb_task _ _ _ _ _ H1 k t1 Et1) as Ht1. rewrite at_task_none, at_task_eq in Ht1.
  destruct (settle_ok t1 (nd_id x) (RDedicated b ext) (tk_heaps t1) Ht1 Hl Hu Hext eq_refl) as [Ht2 Hh2].
  eapply (sound_put s e _ k t (settle t1 (nd_id x) (RDedicated b ext) (tk_heaps t1))); [|done|done|cbn; by rewrite E1, insert_insert_eq|done].
  eapply (settle_lc k (nd_id x) s1 t1 (RDedicated b ext)); [done|done|done|done|]. intros b'. apply known_declare.
Qed.
Lemma create_placed_sound k slot heap off len s : lc_ok s → 0 ≤ off < UINT64_MAX → 0 ≤ len → wp (create_resource k slot (StPlaced heap off len)) s (sound s) (λ _ s', quiet s s').
Proof.
  intros H Ho Hlen. unfold create_resource. apply wp_bind. unfold wp at 1, the_task. destruct (tasks s !! k) as [t|] eqn:Et; [|apply quiet_refl].
  pose proof (lc_ok_task _ _ _ H Et) as Ht. destruct (tb_heaps _ _ _ Ht) as (a & Ha & _). pose proof (admits_live _ _ heap off len Ha) as Had.
  apply wp_bind. destruct (admits (tk_heaps t) heap off len) as [[]|e] eqn:Ead; [|apply quiet_refl].
  destruct Had as (b & l & En & Ep & Eb). apply wp_bind. cbn. apply wp_bind. unfold or_refuse. rewrite Eb. cbn.
  destruct (declare_wp k slot (Some b) s t H Et) as (x & n' & Ed & Hw). apply wp_bind. unfold wp at 1, expect. rewrite Ed. cbn [fst snd].
  apply wp_bind. unfold wp at 1, put_task. apply wp_bind. apply Hw. intros e s1 t1 E1 H1 [Hl Hu Hh] He.
  assert (tasks s1 !! k = Some t1) as Et1 by (by rewrite E1, lookup_insert_eq). apply wp_bind. unfold wp at 1, held_task. rewrite Et1.
  pose proof (lb_task _ _ _ _ _ H1 k t1 Et1) as Ht1. rewrite at_task_none, at_task_eq in Ht1. destruct (tb_heaps _ _ _ Ht1) as (a1 & Ha1 & Hw1 & _).
  assert (names_of a1 !! heap = Some (b, l)) as En1 by (by rewrite <- (sim_heap_names _ _ Ha1), Hh, (sim_heap_names _ _ Ha)).
  assert (whereabouts a1 !! nd_id x = None) as Hwn. { apply eq_None_not_Some. intros [[b' reg] [k' E']%Hw1]. congruence. }
  destruct (place_fresh (tk_heaps t1) a1 heap (nd_id x) off len b l Ha1 En1 Ep Hwn (proj1 Ho) Hlen) as (h' & Epl & Hs).
  apply wp_bind. unfold wp at 1, expect. rewrite Epl. apply wp_bind. cbn. apply wp_bind. cbn. apply wp_bind. cbn.
  set (pl := mkPlacement heap b (mkByteRange off len)).
  destruct (settle_ok t1 (nd_id x) (RPlaced pl) h' Ht1 Hl Hu) as [Ht2 Hh2].
  { unfold extent_ok. cbn. unfold runs_past in Ep. lia. }
  { exists l. split; [by rewrite (sim_heap_names _ _ Ha1)|]. intros a2 Ha2 Hn2.
    assert (names_of a2 !! heap = Some (b, l)) as En2 by (by rewrite <- (sim_heap_names _ _ Ha2), (sim_heap_names _ _ Ha1)).
    destruct (place_fresh (tk_heaps t1) a2 heap (nd_id x) off len b l Ha2 En2 Ep Hn2 (proj1 Ho) Hlen) as (h2 & E2 & Hs2). rewrite E2 in Epl. by simplify_eq. }
  eapply (sound_put s e _ k t (settle t1 (nd_id x) (RPlaced pl) h')); [|done|done|cbn; by rewrite E1, insert_insert_eq|cbn; congruence].
  eapply (settle_lc k (nd_id x) s1 t1 (RPlaced pl)); [done|done|done|done|]. intros b'. apply known_write.
Qed.
Lemma create_no_bytes_sound k slot s : lc_ok s → wp (create_resource k slot NoBytes) s (sound s) (λ _ s', quiet s s').
Proof.
  intros H. unfold create_resource. apply wp_bind. unfold wp at 1, the_task. destruct (tasks s !! k) as [t|] eqn:Et; [|apply quiet_refl].
  destruct (declare_wp k slot None s t H Et) as (x & n' & Ed & Hw). apply wp_bind. cbn. apply wp_bind. unfold wp at 1, expect. rewrite Ed. cbn [fst snd].
  apply wp_bind. unfold wp at 1, put_task. apply wp_bind. apply Hw. intros e s1 t1 E1 H1 [Hl Hu Hh] He.
  assert (tasks s1 !! k = Some t1) as Et1 by (by rewrite E1, lookup_insert_eq). apply wp_bind. unfold wp at 1, held_task. rewrite Et1. apply wp_ret.
  pose proof (lb_task _ _ _ _ _ H1 k t1 Et1) as Ht1. rewrite at_task_none, at_task_eq in Ht1.
  eapply sound_put; [|done|exact Et|exact E1|done]. apply (lc_ok_at k). split; [|apply H1|apply H1]. intros k' t' E'. rewrite !at_task_none.
  destruct (decide (k' = k)) as [->|Hne]; [simplify_eq; by eapply fresh_no_bytes|]. pose proof (lb_task _ _ _ _ _ H1 k' t' E') as H'. by rewrite at_task_none, at_task_ne in H'.
Qed.
Lemma create_resource_sound k slot st s : lc_ok s → storage_ok st → wp (create_resource k slot st) s (sound s) (λ _ s', quiet s s').
Proof. intros H Hst. destruct st; [by apply create_dedicated_sound|by apply create_placed_sound; try apply Hst|by apply create_no_bytes_sound]. Qed.


(** *** Moving a resource to other pages *)
Lemma repointed_ok t n' id sl b ext : task_ok t → ns_ok n' [] [] → live_name (tk_namespace t) id (sl_backing sl) → slots (tk_namespace t) !! slot_ref id = Some sl →
  slots n' = <[slot_ref id := (sl <| sl_backing := Some b |>) <| sl_outstanding := 0%nat |>]> (slots (tk_namespace t)) →
  (∀ pl, tk_resident t !! id ≠ Some (RPlaced pl)) → extent_ok ext →
  task_ok (mkTask (tk_directory t) (tk_object_list t) n' (tk_heaps t) (<[id := RDedicated b ext]> (tk_resident t))).
Proof.
  intros H Hok Hl Es Esn Hnp Hext. destruct (tb_heaps _ _ _ H) as (a & Ha & Hw & Hn).
  assert (sl_deleted sl = false ∧ id = mkResourceId (slot_ref id) (sl_generation sl)) as [Hd Eid].
  { destruct Hl as (sl' & Es' & Eg & Hd & _). simplify_eq. split; [done|]. destruct id. cbn in *. congruence. }
  split; cbn.
  - done.
  - exists a. split; [done|]. split.
    + intros id' b' reg. rewrite Hw. destruct (decide (id' = id)) as [->|Hne]; [|by rewrite lookup_insert_ne]. rewrite lookup_insert_eq. naive_solver.
    + intros id' pl [[_ ?]|[_ E']]%lookup_insert_Some; [done|by eapply Hn].
  - intros id' r [[<- <-]|[Hne E']]%lookup_insert_Some _; apply (changed_live _ _ _ _ _ _ Esn); [by right|left].
    pose proof (tb_named _ _ _ H id' r E' ltac:(done)) as Hl'. split; [|done]. intros Ek. destruct Hne. by eapply live_same_slot.
  - intros id' b' Hl' _. apply (changed_live _ _ _ _ _ _ Esn) in Hl' as [[Hne Hl']|(-> & _ & Eb)].
    + rewrite lookup_insert_ne by congruence. by apply (tb_resident _ _ _ H).
    + cbn in Eb |- *. rewrite <- Eid, lookup_insert_eq. eexists. split; [done|]. cbn. congruence.
  - intros id' r [[<- <-]|[_ E']]%lookup_insert_Some; [done|by eapply (tb_extent _ _ _ H)].
Qed.
Lemma repoint_sound k t id b ext s : lc_ok s → tasks s !! k = Some t → (∀ pl, tk_resident t !! id ≠ Some (RPlaced pl)) → extent_ok ext →
  wp (repoint k t id b ext) s (sound s) (λ _ s', quiet s s').
Proof.
  intros H Et Hnp Hext. pose proof (lc_ok_task _ _ _ H Et) as Ht. apply (lc_ok_at k) in H. unfold repoint. apply wp_bind. unfold wp at 1, expect.
  destruct (ns_replace_spec (tk_namespace t) id b (tb_names _ _ _ Ht)) as (r & n' & -> & Hr). apply wp_bind. cbn. apply wp_bind. destruct r as [teardown|e]; cbn.
  2: { apply quiet_put; [done|apply Hr]. }
  destruct Hr as (Hok & sl & Es & Hl & Esn & Hlast). pose proof (repointed_ok t n' id sl b ext Ht Hok Hl Es Esn Hnp Hext) as Ht2.
  apply wp_bind. unfold wp at 1, held_task. cbn. rewrite lookup_insert_eq. apply wp_bind. cbn. apply wp_bind. cbn. rewrite insert_insert_eq.
  set (t2 := mkTask (tk_directory t) _ n' _ _) in *. set (s2 := mkLifecycle (<[k := t2]> (tasks s)) (Content.declare (content s) b ext GuestPages)).
  assert (live_name n' id (Some b)) as Hl' by (apply (tb_named _ _ _ Ht2 id (RDedicated b ext)); [apply lookup_insert_eq|done]).
  assert (answered s2 b) as Hab. { exists k, t2. cbn. rewrite lookup_insert_eq. split; [done|]. by eapply named_answers. }
  assert (lc_but k None None (λ b', teardown = Now b') s2) as H2.
  { split; cbn.
    - intros k' t' [[<- <-]|[Hne E']]%lookup_insert_Some; [by rewrite !at_task_none|by apply (lb_task _ _ _ _ _ H)].
    - intros b' [->|Hb]%known_declare; [by left|]. destruct (lb_answered _ _ _ _ _ H b' Hb) as [(k' & t' & E' & A')|[]].
      destruct (decide (k' = k)) as [->|Hne]; [|left; exists k', t'; cbn; by rewrite lookup_insert_ne]. simplify_eq.
      destruct (renamed_answers t n' (slot_ref id) ((sl <| sl_backing := Some b |>) <| sl_outstanding := 0%nat |>) (Some id) (Some id) teardown (sl_backing sl) b' Ht) as [A|?]; [|exact Esn| |exact Hlast|done| |by right].
      + eapply renamed_task; [done|done|exact Esn|..]; [intros id' ob' Hl1 Ek; f_equal; symmetry; by eapply live_same_slot|].
        intros _. cbn. f_equal. destruct Hl as (sl' & Es' & Eg & _). simplify_eq. destruct id. cbn in *. congruence.
      + intros id' ob' Hl1 Ek. assert (id' = id) as -> by (by eapply live_same_slot). by eapply live_name_fun.
      + left. exists k, t2. cbn. by rewrite lookup_insert_eq.
    - intros k' t' id' r [[<- <-]|[Hne E']]%lookup_insert_Some Er; apply known_declare; [|right; by eapply (lb_known _ _ _ _ _ H)].
      cbn in Er. apply lookup_insert_Some in Er as [[<- <-]|[Hne Er]]; [by left|right; by eapply (lb_known _ _ _ _ _ H)]. }
  assert (∀ s3, tasks s3 = tasks s2 → lc_ok s3 → sound s (mkEffects [] [teardown] [] [] [] []) s3) as Hdone.
  { intros s3 E3 H3. eapply (sound_put s _ s3 k t t2); [done|done|done|by rewrite E3|done]. }
  apply wp_bind. destruct teardown as [old|? ?|?|]; [|apply wp_ret, wp_ret, Hdone; [done|]; apply (lc_ok_at k); by eapply lc_weaken..].
  apply wp_bind. eapply forget_wp; [exact H2|]. intros f s3 E3 H3 _. apply wp_ret, wp_ret, Hdone; [done|]. apply (lc_ok_at k). eapply lc_weaken; [exact H3|]. by intros b' _ [[= ->] ?].
Qed.
Lemma replace_physical_sound k id b ext s : lc_ok s → extent_ok ext → wp (lc_replace_physical k id b ext) s (sound s) (λ _ s', quiet s s').
Proof.
  intros H Hext. unfold lc_replace_physical. apply wp_bind. unfold wp at 1, the_task. destruct (tasks s !! k) as [t|] eqn:Et; [|apply quiet_refl].
  destruct (tk_resident t !! id) as [[]|] eqn:Er; [|apply quiet_refl|]; (apply repoint_sound; [done|done|congruence|done]).
Qed.

(** *** Content *)
Lemma lc_content s l : lc_ok s → (∀ b, known (content s) b → known l b) → (∀ b, known l b → known (content s) b ∨ answered s b) →
  lc_ok (mkLifecycle (tasks s) l).
Proof.
  intros H Hk Hl. split; cbn; [apply H| |].
  - intros b Hb. destruct (Hl b Hb) as [?|?]; [|by left]. destruct (lb_answered _ _ _ _ _ H b) as [?|[]]; [done|by left].
  - intros k t id r Et Er. apply Hk. by eapply (lb_known _ _ _ _ _ H).
Qed.
Lemma resident_answered s k t id r : lc_ok s → tasks s !! k = Some t → tk_resident t !! id = Some r → answered s (res_backing r).
Proof.
  intros H Et Er. exists k, t. split; [done|]. pose proof (lc_ok_task _ _ _ H Et) as Ht. eapply named_answers; [done|]. by apply (tb_named _ _ _ Ht).
Qed.
Lemma same_names_trans n1 n2 n3 : same_names n1 n2 → same_names n2 n3 → same_names n1 n3.
Proof. unfold same_names. intros (? & ? & ?) (? & ? & ?). split_and!; congruence. Qed.
Lemma resolve_names_spec t rs : ∀ n out r n', resolve_names t rs n out = (r, n') → same_names n n' ∧
  match r with
  | inl o => (∀ x, x ∈ o ↔ x ∈ out ∨ (x.1 ∈ rs ∧ tk_resident t !! x.1 = Some x.2)) ∧ (∀ id, id ∈ rs → ∃ ob, live_name n id ob)
  | inr _ => ∃ id, id ∈ rs ∧ ∀ ob, ¬ live_name n id ob
  end.
Proof.
  induction rs as [|r0 rs IH]; intros n out r n' E; cbn in E.
  { injection E as <- <-. split; [done|]. split; [|by intros id ?%elem_of_nil]. intros x. split; [by left|]. intros [?|[?%elem_of_nil _]]; done. }
  destruct (ns_resolve n r0) as [[lease|e] n1] eqn:Er; destruct (resolve_names_same _ _ _ _ Er) as [Hs Hl].
  - apply IH in E as [Hs' Hr]. split; [by eapply same_names_trans|]. destruct r as [o|e].
    + destruct Hr as [Ho Hlive]. split.
      * intros x. rewrite Ho, elem_of_cons. destruct x as [id rr]. cbn. destruct (tk_resident t !! r0) as [res|] eqn:Eres; [rewrite elem_of_app, list_elem_of_singleton|]; naive_solver.
      * intros id [->|Hin]%elem_of_cons; [done|]. destruct (Hlive id Hin) as [ob Hob]. exists ob. by apply (same_names_live _ _ _ _ Hs).
    + destruct Hr as (id & Hin & Hn). exists id. split; [by right|]. intros ob. rewrite <- (same_names_live _ _ _ _ Hs). apply Hn.
  - injection E as <- <-. split; [done|]. exists r0. split; [by left|done].
Qed.
Lemma resolve_all_wp k rs s Q : lc_ok s →
  (∀ out s' t, tasks s !! k = Some t → quiet s s' → (∀ x, x ∈ out ↔ x.1 ∈ rs ∧ tk_resident t !! x.1 = Some x.2) → (∀ id, id ∈ rs → ∃ ob, live_name (tk_namespace t) id ob) → Q out s') →
  wp (resolve_all k rs) s Q (λ _ s', quiet s s').
Proof.
  intros H HQ. unfold resolve_all. apply wp_bind. unfold wp at 1, the_task. destruct (tasks s !! k) as [t|] eqn:Et; [|apply quiet_refl].
  destruct (resolve_names t rs (tk_namespace t) []) as [r n'] eqn:Er. apply resolve_names_spec in Er as [Hs Hr]. apply wp_bind. cbn.
  destruct r as [o|e]; cbn; [|by apply quiet_put]. destruct Hr as [Ho Hl]. eapply HQ; [done|by apply quiet_put| |done].
  intros x. rewrite Ho, elem_of_nil. naive_solver.
Qed.
Lemma quiet_heap_held s s' b : quiet s s' → heap_held s b ↔ heap_held s' b.
Proof.
  intros [_ Hq]. split; intros (k & t & h & l & E & Eh); specialize (Hq k); rewrite E in Hq.
  - destruct (tasks s' !! k) as [t'|] eqn:E'; [|done]. exists k, t', h, l. by rewrite (qt_heaps _ _ Hq).
  - destruct (tasks s !! k) as [t'|] eqn:E'; [|done]. exists k, t', h, l. by rewrite <- (qt_heaps _ _ Hq).
Qed.
(** An operation that resolved its names and then changed only content. *)
Lemma sound_content s s1 l e : lc_ok s → quiet s s1 → storage_freed e = [] → (∀ b, known (content s) b → known l b) →
  (∀ b, known l b → known (content s) b ∨ answered s b) → sound s e (mkLifecycle (tasks s1) l).
Proof.
  intros H Hq Ee Hk Hl. pose proof (quiet_ok _ _ Hq H) as H1. apply sound_kept; [|done|].
  - apply lc_content; [done|by rewrite (qu_content _ _ Hq)|]. intros b Hb. rewrite (qu_content _ _ Hq), <- (quiet_answered _ _ _ Hq). by apply Hl.
  - intros b. rewrite (quiet_heap_held _ _ _ Hq). done.
Qed.
Lemma invalidate_sound k rs s : lc_ok s → wp (invalidate k rs) s (sound s) (λ _ s', quiet s s').
Proof.
  intros H. unfold invalidate. apply wp_bind. apply resolve_all_wp; [done|]. intros out s1 t Et Hq Ho _. apply wp_bind. cbn.
  apply sound_content; [done|done|done|..]; intros b; rewrite known_writes, (qu_content _ _ Hq); [by left|].
  intros [?|([id r] & [_ Er]%Ho & <-)]; [by left|]. right. by eapply resident_answered.
Qed.
Lemma synchronize_sound k rs d s : lc_ok s → wp (synchronize k rs d) s (sound s) (λ _ s', quiet s s').
Proof.
  intros H. unfold synchronize. apply wp_bind. apply resolve_all_wp; [done|]. intros out s1 t Et Hq Ho _. apply wp_bind. unfold wp at 1, on_content.
  destruct (plan_copies out (content s1)) as [ts l] eqn:Ep. pose proof (known_plan out (content s1)) as Hk. rewrite Ep in Hk. cbn in Hk. apply wp_ret.
  apply sound_content; [done|done|done|..]; intros b; rewrite Hk, (qu_content _ _ Hq); [done|by left].
Qed.
Lemma discard_sound k rs s : lc_ok s → wp (lc_discard k rs) s (sound s) (λ _ s', quiet s s').
Proof.
  intros H. unfold lc_discard. apply wp_bind. apply resolve_all_wp; [done|]. intros out s1 t Et Hq Ho _. apply wp_ret.
  apply sound_kept; [by eapply quiet_ok|done|]. intros b. by rewrite (quiet_heap_held _ _ _ Hq).
Qed.
Lemma delete_backing_sound k b s : lc_ok s → wp (delete_backing k b) s (sound s) (λ _ s', quiet s s').
Proof.
  intros H. unfold delete_backing. apply wp_bind. unfold wp at 1, the_task. destruct (tasks s !! k) as [t|] eqn:Et; [|apply quiet_refl].
  apply wp_bind. eapply (delete_each_wp k _ no_effects s t); [done|done|..].
  - apply NoDup_ListNoDup, List.NoDup_filter, NoDup_ListNoDup, live_names_NoDup.
  - intros id Hin. apply live_names_spec. by apply list_elem_of_In, filter_In in Hin as [?%list_elem_of_In _].
  - intros e s1 t1 E1 Hd1 H1 Ef. apply wp_bind. eapply (forget_wp k None (λ _, False)); [by apply (lc_ok_at k)|].
    intros f s2 E2 H2 _. apply wp_ret. eapply (sound_put s e s2 k t t1); [|done|done|congruence|apply Hd1]. apply (lc_ok_at k). eapply lc_weaken; [exact H2|]. by intros b' _ [[] _].
Qed.
Definition op_ok (op : LifecycleOp) : Prop :=
  match op with CreateResource _ _ st => storage_ok st | ReplacePhysical _ _ _ ext => extent_ok ext | _ => True end.
Lemma nothing_sound s : lc_ok s → sound s no_effects s.
Proof. intros H. by apply sound_kept. Qed.
Lemma apply_sound op s : lc_ok s → op_ok op → wp (lc_apply op) s (sound s) (λ _ s', quiet s s').
Proof.
  intros H Hop. destruct op; cbn [lc_apply]; repeat case_match;
    first [by apply define_task_wp|by apply delete_task_sound|by apply bind_object_list_sound|by apply create_resource_sound|by apply delete_resource_sound
          |by apply remap_sound|by apply replace_physical_sound|by apply invalidate_sound|by apply synchronize_sound|by apply discard_sound
          |by apply delete_backing_sound|apply wp_ret; by apply nothing_sound].
Qed.

(** *** The rest of the interface *)
Lemma declare_heap_wp k heap b len s : lc_ok s → wp (declare_heap k heap b len) s (λ _ s', lc_ok s' ∧ ∀ b', heap_held s b' → heap_held s' b') (λ _ s', quiet s s').
Proof.
  intros H. unfold declare_heap. apply wp_bind. unfold wp at 1, the_task. destruct (tasks s !! k) as [t|] eqn:Et; [|apply quiet_refl].
  pose proof (lc_ok_task _ _ _ H Et) as Ht. destruct (tb_heaps _ _ _ Ht) as (a & Ha & Hw & Hn).
  destruct (heap_step_sim (tk_heaps t) a (HCreate heap b len) Ha I) as (h' & Es & Hs). cbn [heap_step] in Es.
  destruct (heap_create (tk_heaps t) heap b len) as [r h1] eqn:Ec. injection Es as Ea <-. apply wp_bind. cbn.
  unfold ledger_step in Ea, Hs. case_bool_decide as Hex; [|destruct (occupied a b) eqn:Eo]; cbn in Ea, Hs; injection Ea as ->; cbn.
  - unfold heap_create in Ec. rewrite bool_decide_eq_true_2 in Ec; [injection Ec as <-; by apply quiet_put|].
    destruct (heaps (tk_heaps t) !! heap) eqn:E; [eauto|]. rewrite (sim_gone _ _ _ Ha E) in Hex. by destruct Hex.
  - unfold heap_create in Ec. rewrite (sim_holds _ _ _ Ha), Eo in Ec. destruct (bool_decide _); [done|]. injection Ec as <-. by apply quiet_put.
  - set (t' := mkTask _ _ _ h1 _). assert (∀ h x, heap_names (tk_heaps t) !! h = Some x → heap_names h1 !! h = Some x) as Hmono.
    { intros h x. rewrite (sim_heap_names _ _ Ha), (sim_heap_names _ _ Hs). cbn. intros E. rewrite lookup_insert_ne; [done|]. intros ->. apply Hex. eauto. }
    assert (task_ok t') as Ht'.
    { split; try apply Ht. exists (mkLedger (<[heap := (b, len)]> (names_of a)) (whereabouts a)). cbn. split; [done|]. split; [done|].
      intros id pl Er. destruct (Hn id pl Er) as [l El]. exists l. rewrite lookup_insert_ne; [done|]. intros ->. apply Hex. eauto. }
    split; [|intros b'; eapply heap_held_put; done]. apply (lc_ok_at k). apply (lc_ok_at k) in H.
    eapply lc_put; [exact H|exact Et|exact Ht'| |done|intros id r; cbn; by eapply (lb_known _ _ _ _ _ H)].
    intros b'. rewrite (answers_for_names _ _ _ _ Ht), (answers_for_names _ _ _ _ Ht'). intros [?|(h & l & E)]; left; [by left|right]. exists h, l. by apply Hmono.
Qed.
Lemma resolve_name_wp k id s Q : lc_ok s →
  (∀ t t' s' ob, tasks s !! k = Some t → quiet s s' → tasks s' !! k = Some t' → quiet_task t t' → live_name (tk_namespace t) id ob → Q t' s') →
  wp (resolve_name k id) s Q (λ _ s', quiet s s').
Proof.
  intros H HQ. unfold resolve_name. apply wp_bind. unfold wp at 1, the_task. destruct (tasks s !! k) as [t|] eqn:Et; [|apply quiet_refl].
  destruct (ns_resolve (tk_namespace t) id) as [r n'] eqn:Er. destruct (resolve_names_same _ _ _ _ Er) as [Hs Hl]. apply wp_bind. cbn.
  apply wp_bind. destruct r as [lease|e]; cbn; [|by apply quiet_put]. destruct Hl as [ob Hob].
  eapply HQ; [done|by apply quiet_put|apply lookup_insert_eq|by split|done].
Qed.
Lemma lc_resolve_wp k id s : lc_ok s → wp (lc_resolve k id) s (λ _ s', quiet s s') (λ _ s', quiet s s').
Proof. intros H. unfold lc_resolve. apply wp_bind. apply resolve_name_wp; [done|]. intros t t' s' ob _ Hq _ _ _. by apply wp_ret. Qed.
Lemma record_write_wp k id off len rep s : lc_ok s → wp (record_write k id off len rep) s (λ _ s', lc_ok s' ∧ ∀ b', heap_held s b' → heap_held s' b') (λ _ s', quiet s s').
Proof.
  intros H. unfold record_write. apply wp_bind. apply resolve_name_wp; [done|]. intros t t' s1 ob Et Hq Et1 Hqt Hl.
  destruct (tk_resident t' !! id) as [r|] eqn:Er; [|done]. apply wp_bind. destruct (window r off len) as [w|e]; cbn; [|done].
  pose proof (quiet_ok _ _ Hq H) as H1. split; [|intros b'; by rewrite (quiet_heap_held _ _ _ Hq)].
  apply lc_content; [done|..]; intros b; rewrite known_write; [by right|]. intros [->|?]; [|by left]. right. by eapply resident_answered.
Qed.
Lemma lc_complete_wp e s : lc_ok s → wp (lc_complete e) s (λ _ s', lc_ok s' ∧ tasks s' = tasks s) (λ _ _, False).
Proof.
  intros H. unfold lc_complete, wp, on_content. pose proof (known_discards (at_completion e) (foldl record_transfer (content s) (transfers e), [])) as Hk.
  destruct (foldl complete_discard _ _) as [l d]. cbn in Hk. split; [|done].
  apply lc_content; [done|..]; intros b; rewrite Hk, known_records; [done|by left].
Qed.

(** *** Access *)
Definition key_of (rk : ResourceKey) (e : ParticipationExtent) : AccessKey :=
  match e with ExtRange w => Range rk w | ExtSubresource sub => Subresource rk sub | ExtWhole => Whole rk end.
(** The access a resident's participation becomes. *)
Record placed_access (dom : Z) (p : Participation) (r : Resident) (a : AccessIntent) : Prop := {
  pa_domain : domain a = dom;
  pa_mode : mode a = part_mode p;
  pa_key : ∃ rk, key a = key_of rk (placed_extent r (extent_ p)) ∧ backing rk = res_backing r;
  pa_output : output_content_version a = None ↔ Access.writes (part_mode p) = false }.
Lemma access_wp k dom p s Q : lc_ok s →
  (∀ a s', lc_ok s' → (∀ b, heap_held s b → heap_held s' b) →
    (∃ t, tasks s !! k = Some t ∧ (∃ ob, live_name (tk_namespace t) (part_resource p) ob) ∧
      match tk_resident t !! part_resource p with Some r => placed_access dom p r a | None => a = resolve_no_bytes p dom end) → Q a s') →
  wp (lc_access k dom p) s Q (λ _ s', quiet s s').
Proof.
  intros H HQ. unfold lc_access. apply wp_bind. apply resolve_name_wp; [done|]. intros t t' s1 ob Et Hq Et1 Hqt Hl. rewrite (qt_resident _ _ Hqt).
  pose proof (quiet_ok _ _ Hq H) as H1. assert (∀ b, heap_held s b → heap_held s1 b) as Hheld by (intros b; by rewrite (quiet_heap_held _ _ _ Hq)).
  destruct (tk_resident t !! part_resource p) as [r|] eqn:Er.
  2: { apply wp_ret. eapply HQ; [done|done|]. exists t. rewrite Er. eauto. }
  pose proof (lc_ok_task _ _ _ H Et) as Ht. destruct (tb_heaps _ _ _ Ht) as (a0 & Ha & _ & Hn).
  assert (∃ hp, (match r with RPlaced pl => h ← or_refuse (membership (tk_heaps t') (pl_heap pl)) (LcHeap k); mret (Some h) | RDedicated _ _ => mret None end : act (option HeapId)) s1 = Some (inl hp, s1)) as [hp Ehp].
  { destruct r as [b ext|pl]; [by exists None|]. destruct (Hn _ _ Er) as [l El]. destruct (membership_live _ _ _ _ _ Ha El) as [g Eg].
    exists (Some (mkHeapId (pl_heap pl) g)). unfold mbind, act_bind. rewrite (qt_heaps _ _ Hqt), Eg. done. }
  apply wp_bind. unfold wp at 1. rewrite Ehp. apply wp_bind. cbn. apply wp_bind. set (e := placed_extent r (extent_ p)).
  assert (∀ inp out, (out = None ↔ Access.writes (part_mode p) = false) →
    placed_access dom p r (part_resolve (mkPart (part_resource p) e (part_mode p) (part_stages p)) dom (mkResKey (res_backing r) hp) inp out)) as Hpa.
  { intros inp out Hout. split; [done|done| |done]. exists (mkResKey (res_backing r) hp). cbn. fold e. by destruct e. }
  destruct (Access.writes (part_mode p)) eqn:Ew; cbn.
  - eapply HQ; [|done|].
    + apply lc_content; [done|..]; intros b.
      * change (known (content s1) b → known (Content.reserve (content s1) (res_backing r)).2 b). rewrite known_reserve. by right.
      * change (known (Content.reserve (content s1) (res_backing r)).2 b → known (content s1) b ∨ answered s1 b). rewrite known_reserve.
        intros [->|?]; [|by left]. right. eapply (resident_answered s1 k t' (part_resource p)); [done|done|]. by rewrite (qt_resident _ _ Hqt).
    + exists t. rewrite Er. split; [done|]. split; [eauto|]. by apply Hpa.
  - eapply HQ; [done|done|]. exists t. rewrite Er. split; [done|]. split; [eauto|]. by apply Hpa.
Qed.

(** ** The caller *)
Inductive lc_call :=
  | LApply (op : LifecycleOp) | LDeclareHeap (task heap b length : Z) | LResolve (task : Z) (r : ResourceId)
  | LRecordWrite (task : Z) (r : ResourceId) (off length : Z) (replica : Replica) | LAccess (task domain : Z) (p : Participation)
  | LComplete (e : Effects).
Definition ran {A} (m : act A) (s : Lifecycle) : option Lifecycle := snd <$> m s.
Definition lc_step (s : Lifecycle) (c : lc_call) : option Lifecycle :=
  match c with
  | LApply op => ran (lc_apply op) s
  | LDeclareHeap task heap b length => ran (declare_heap task heap b length) s
  | LResolve task r => ran (lc_resolve task r) s
  | LRecordWrite task r off length replica => ran (record_write task r off length replica) s
  | LAccess task domain p => ran (lc_access task domain p) s
  | LComplete e => ran (lc_complete e) s
  end.
Definition lc_run (s : Lifecycle) (cs : list lc_call) : option Lifecycle := foldl (λ s c, s ≫= λ s, lc_step s c) (Some s) cs.
Definition call_ok (c : lc_call) : Prop := match c with LApply op => op_ok op | _ => True end.

Lemma wp_ran {A} (m : act A) s (Q : A → Lifecycle → Prop) : lc_ok s → wp m s Q (λ _ s', quiet s s') → (∀ a s', Q a s' → lc_ok s') →
  ∃ s', ran m s = Some s' ∧ lc_ok s'.
Proof. intros H Hw HQ. unfold wp, ran in *. destruct (m s) as [[[a|e] s']|]; [|by eexists; split; [done|]; eapply quiet_ok|done]. eexists. split; [done|]. by eapply HQ. Qed.
Lemma lc_step_ok s c : lc_ok s → call_ok c → ∃ s', lc_step s c = Some s' ∧ lc_ok s'.
Proof.
  intros H Hc. destruct c; cbn [lc_step].
  - eapply wp_ran; [done|by apply apply_sound|]. by intros a s' [? _].
  - eapply wp_ran; [done|by apply declare_heap_wp|]. by intros a s' [? _].
  - eapply wp_ran; [done|by apply lc_resolve_wp|]. intros a s' Hq. by apply (quiet_ok s s').
  - eapply wp_ran; [done|by apply record_write_wp|]. by intros a s' [? _].
  - eapply (wp_ran _ _ (λ _ s', lc_ok s')); [done|by apply access_wp|done].
  - pose proof (lc_complete_wp e s H) as Hw. unfold wp, ran in *. destruct (lc_complete e s) as [[[a|x] s']|]; [|done..]. exists s'. by split; [|apply Hw].
Qed.
Lemma lc_run_ok cs : ∀ s, lc_ok s → Forall call_ok cs → ∃ s', lc_run s cs = Some s' ∧ lc_ok s'.
Proof.
  induction cs as [|c cs IH]; intros s H Hc; [by exists s|]. apply Forall_cons in Hc as [Hc Hcs]. destruct (lc_step_ok s c H Hc) as (s1 & E1 & H1).
  unfold lc_run. cbn. rewrite E1. by apply IH.
Qed.
Lemma lifecycle_new_ok : lc_ok lifecycle_new.
Proof. split; cbn; [done| |done]. intros b Hb. by apply is_Some_None in Hb. Qed.

(** C6: the owner keeps names, storage and content in step, over every sequence of calls.  No
    call panics: a window admitted before its name was published is there to be placed, and no
    count goes below zero.  An operation that is refused changes nothing but the two counters
    of its namespace, also one over a list of resources that fails on the last.  One that is
    accepted reports as freed exactly the storage that a live heap of some task held just before
    and that no task answers for any more.  Afterwards the ledger has content for a backing only if some name or
    heap of some task stands for it, and it has content for the backing of every live
    resource. *)
Theorem lifecycle_exact cs op :
  Forall call_ok cs → op_ok op →
  ∃ s r s', lc_run lifecycle_new cs = Some s ∧ lc_apply op s = Some (r, s') ∧
    match r with
    | inr _ => quiet s s'
    | inl e => ∀ b, b ∈ storage_freed e ↔ heap_held s b ∧ ¬ answered s' b
    end ∧
    (∀ b, knows (content s') b = true → answered s' b) ∧
    (∀ k t id res, tasks s' !! k = Some t → tk_resident t !! id = Some res → knows (content s') (res_backing res) = true).
Proof.
  intros Hcs Hop. destruct (lc_run_ok cs _ lifecycle_new_ok Hcs) as (s & Es & H). pose proof (apply_sound op s H Hop) as Hw. unfold wp in Hw.
  destruct (lc_apply op s) as [[r s']|] eqn:Ea; [|done]. exists s, r, s'. split; [done|]. split; [done|].
  assert (lc_ok s') as H' by (destruct r; [apply Hw|by eapply quiet_ok]). assert (∀ b, knows (content s') b = true ↔ known (content s') b) as Hk.
  { intros b. unfold knows, known. destruct (backings (content s') !! b); split; done. }
  split; [by destruct r; [apply Hw|]|]. split; [intros b Hb%Hk; by destruct (lb_answered _ _ _ _ _ H' b Hb)|].
  intros k t id res Et Er. apply Hk. by eapply (lb_known _ _ _ _ _ H').
Qed.

(** Two tasks share a surface and the first keeps a heap over it; deleting the first task frees
    neither, deleting the second frees nothing of a heap, and the ledger forgets the surface. *)
Definition demo_surface : ByteRange := mkByteRange 0 4096.
Definition demo_lifecycle : list lc_call :=
  [LApply (DefineTask 1 false 16); LApply (DefineTask 2 false 17); LDeclareHeap 1 5 900 65536;
   LApply (CreateResource 1 3 (Dedicated 700 demo_surface)); LApply (CreateResource 2 9 (Dedicated 700 demo_surface));
   LApply (CreateResource 1 4 (StPlaced 5 256 1024)); LApply (CreateResource 1 4 (StPlaced 5 0 1024))].
Lemma lifecycle_exact_witness : ∃ s e s', lc_run lifecycle_new demo_lifecycle = Some s ∧ lc_apply (DeleteTask 1) s = Some (inl e, s') ∧
  storage_freed e = [900] ∧ knows (content s') 700 = true ∧ answered s' 700.
Proof.
  assert (Forall call_ok demo_lifecycle) as Hok by (repeat constructor; cbn; unfold UINT64_MAX; lia).
  destruct (lifecycle_exact demo_lifecycle (DeleteTask 1) Hok I) as (s & r & s' & Hr & Ha & _ & Hk & _).
  assert (∃ e, r = inl e ∧ storage_freed e = [900] ∧ knows (content s') 700 = true) as (e & -> & He & Hs).
  { vm_compute in Hr. injection Hr as <-. vm_compute in Ha. injection Ha as <- <-. eexists. split; [reflexivity|]. split; reflexivity. }
  exists s, e, s'. split; [exact Hr|]. split; [exact Ha|]. split; [exact He|]. split; [exact Hs|]. apply Hk. exact Hs.
Defined.

(** ** What an access covers

    The bytes of its backing a participation can touch: those of the resource, and of the
    window when one is named. *)
Definition touches (r : Resident) (e : ParticipationExtent) (x : Z) : Prop :=
  offset (res_extent r) ≤ x < offset (res_extent r) + length_ (res_extent r) ∧
  match e with
  | ExtRange w => 0 ≤ offset w ∧ 0 ≤ length_ w ∧ offset (res_extent r) + offset w ≤ x < offset (res_extent r) + offset w + length_ w
  | _ => True
  end.
Lemma within_extent r x : extent_ok r → offset r ≤ x < offset r + length_ r → within r x = true.
Proof. intros (? & ? & ?) ?. apply within_spec. unfold end_of. lia. Qed.
Lemma placed_covers r e x : extent_ok (res_extent r) → touches r e x → match placed_extent r e with ExtRange w => within w x = true | _ => True end.
Proof.
  intros He [Hx Hw]. assert (match whole_extent r with ExtRange w => within w x = true | _ => True end) as Hwhole.
  { destruct r as [b ext|pl]; [done|]. by apply within_extent. }
  destruct e as [w|sub|]; cbn [placed_extent]; [|done|done]. destruct Hw as (Ho & Hl & Hin). destruct He as (? & ? & ?).
  assert (∀ off len w', runs_past off len (length_ (res_extent r)) = false → w' = mkByteRange ((offset (res_extent r) + off) `min` UINT64_MAX) len →
    off = offset w → len = length_ w → within w' x = true) as Hwin.
  { intros off len w' Hp -> -> ->. unfold runs_past in Hp. apply within_spec. unfold end_of. cbn [offset length_]. lia. }
  destruct r as [b ext|pl]; cbn [window res_extent whole_extent] in *; unfold placement_within in *; (destruct (runs_past _ _ _) eqn:Ep; [done|]); by eapply Hwin.
Qed.
Definition resident_at (s : Lifecycle) (task : Z) (id : ResourceId) : option Resident := t ← tasks s !! task; tk_resident t !! id.
Lemma access_placed cs s k dom p a s' r : Forall call_ok cs → lc_run lifecycle_new cs = Some s → lc_access k dom p s = Some (inl a, s') →
  resident_at s k (part_resource p) = Some r → placed_access dom p r a ∧ extent_ok (res_extent r).
Proof.
  intros Hcs Hr Ha Hres. destruct (lc_run_ok cs _ lifecycle_new_ok Hcs) as (s0 & Es & H). assert (s0 = s) as -> by congruence.
  unfold resident_at in Hres. destruct (tasks s !! k) as [t|] eqn:Et; [|done]. cbn in Hres. split; [|by eapply (tb_extent _ _ _ (lc_ok_task _ _ _ H Et))].
  assert (wp (lc_access k dom p) s (λ a _, placed_access dom p r a) (λ _ s', quiet s s')) as Hw.
  { apply access_wp; [done|]. intros a' s1 _ _ (t' & Et' & _ & Hm). simplify_eq. by rewrite Hres in Hm. }
  unfold wp in Hw. by rewrite Ha in Hw.
Qed.
Lemma same_backing_edge dom p1 p2 r1 r2 a1 a2 x : placed_access dom p1 r1 a1 → placed_access dom p2 r2 a2 →
  extent_ok (res_extent r1) → extent_ok (res_extent r2) → res_backing r1 = res_backing r2 →
  touches r1 (extent_ p1) x → touches r2 (extent_ p2) x → Access.writes (part_mode p1) || Access.writes (part_mode p2) = true →
  requires_edge a1 a2 = match extent_ p1, extent_ p2 with ExtSubresource u, ExtSubresource v => sub_overlaps u v | _, _ => true end.
Proof.
  intros [D1 M1 (k1 & K1 & B1) _] [D2 M2 (k2 & K2 & B2) _] E1 E2 Eb T1 T2 Hw. unfold requires_edge. rewrite D1, D2, Z.eqb_refl, M1, M2. cbn [negb].
  replace (negb _ && negb _) with false by (destruct (Access.writes _), (Access.writes _); done). rewrite K1, K2.
  pose proof (placed_covers _ _ _ E1 T1) as C1. pose proof (placed_covers _ _ _ E2 T2) as C2.
  assert (∀ r e, match placed_extent r e with ExtSubresource u => e = ExtSubresource u | _ => ∀ u, e ≠ ExtSubresource u end) as Hps.
  { intros r e. destruct e as [w| |]; cbn; [destruct (window _ _ _); [done|]|done|]; destruct r; done. }
  pose proof (Hps r1 (extent_ p1)) as S1. pose proof (Hps r2 (extent_ p2)) as S2.
  destruct (placed_extent r1 (extent_ p1)) as [w1|u1|], (placed_extent r2 (extent_ p2)) as [w2|u2|];
    cbn [key_of may_alias resource]; rewrite B1, B2, Eb, Z.eqb_refl; cbn [negb].
  1: rewrite (overlaps_common _ _ x C1 C2).
  5: by rewrite S1, S2.
  all: destruct (extent_ p1), (extent_ p2); done || (exfalso; naive_solver).
Qed.

(** C7: work the owner placed is ordered wherever it meets.  In any run, two accesses of one
    submission domain, the second taken any number of calls after the first, in the same task
    or another, through the same name or another, whose resources share a byte of one backing
    that the window of each covers, if it named one, and one of which writes, are ordered.  The
    exception is two image subresources: the byte does not decide there, and they are ordered
    exactly when their levels and slices overlap, also when the two images are different. *)
Theorem lifecycle_access_ordered cs cs' s1 s1' s2 s2' k1 k2 dom p1 p2 r1 r2 a1 a2 x :
  Forall call_ok cs → Forall call_ok cs' →
  lc_run lifecycle_new cs = Some s1 → lc_access k1 dom p1 s1 = Some (inl a1, s1') →
  lc_run lifecycle_new (cs ++ LAccess k1 dom p1 :: cs') = Some s2 → lc_access k2 dom p2 s2 = Some (inl a2, s2') →
  resident_at s1 k1 (part_resource p1) = Some r1 → resident_at s2 k2 (part_resource p2) = Some r2 →
  res_backing r1 = res_backing r2 → touches r1 (extent_ p1) x → touches r2 (extent_ p2) x →
  Access.writes (part_mode p1) || Access.writes (part_mode p2) = true →
  requires_edge a1 a2 =
    match extent_ p1, extent_ p2 with ExtSubresource u, ExtSubresource v => sub_overlaps u v | _, _ => true end.
Proof.
  intros Hc Hc' R1 A1 R2 A2 S1 S2 Eb T1 T2 Hw. destruct (access_placed _ _ _ _ _ _ _ _ Hc R1 A1 S1) as [P1 X1].
  assert (Forall call_ok (cs ++ LAccess k1 dom p1 :: cs')) as Hcc by (apply Forall_app; split; [exact Hc|by constructor]).
  destruct (access_placed _ _ _ _ _ _ _ _ Hcc R2 A2 S2) as [P2 X2].
  by eapply (same_backing_edge dom p1 p2 r1 r2).
Qed.

(** One task draws into a window of the surface and the other reads all of it. *)
Definition demo_draw : Participation := mkPart (mkResourceId 3 1) (ExtRange (mkByteRange 1024 512)) Write 1.
Definition demo_scan : Participation := mkPart (mkResourceId 9 1) ExtWhole Read 2.
Definition taken {A} (o : option ((A + LifecycleRefusal) * Lifecycle)) (d : A) : A := match o with Some (inl a, _) => a | _ => d end.
Definition state_of (o : option Lifecycle) : Lifecycle := default lifecycle_new o.
Definition drawn : AccessIntent := taken (lc_access 1 0 demo_draw (state_of (lc_run lifecycle_new demo_lifecycle))) (resolve_no_bytes demo_draw 0).
Definition scanned : AccessIntent :=
  taken (lc_access 2 0 demo_scan (state_of (lc_run lifecycle_new (demo_lifecycle ++ [LAccess 1 0 demo_draw; LApply (DeleteTask 1)])))) (resolve_no_bytes demo_scan 0).
Lemma lifecycle_access_ordered_witness : requires_edge drawn scanned = true.
Proof.
  assert (Forall call_ok demo_lifecycle) as Hok by (repeat constructor; cbn; unfold UINT64_MAX; lia).
  assert (Forall call_ok [LApply (DeleteTask 1)]) as Hok' by (repeat constructor).
  set (s1 := state_of (lc_run lifecycle_new demo_lifecycle)). set (s2 := state_of (lc_run lifecycle_new (demo_lifecycle ++ [LAccess 1 0 demo_draw; LApply (DeleteTask 1)]))).
  assert (lc_run lifecycle_new demo_lifecycle = Some s1) as R1 by (vm_compute; reflexivity).
  assert (lc_run lifecycle_new (demo_lifecycle ++ [LAccess 1 0 demo_draw; LApply (DeleteTask 1)]) = Some s2) as R2 by (vm_compute; reflexivity).
  assert (∃ s1', lc_access 1 0 demo_draw s1 = Some (inl drawn, s1')) as [s1' A1] by (eexists; vm_compute; reflexivity).
  assert (∃ s2', lc_access 2 0 demo_scan s2 = Some (inl scanned, s2')) as [s2' A2] by (eexists; vm_compute; reflexivity).
  apply (lifecycle_access_ordered demo_lifecycle [LApply (DeleteTask 1)] s1 s1' s2 s2' 1 2 0 demo_draw demo_scan
           (RDedicated 700 demo_surface) (RDedicated 700 demo_surface) drawn scanned 1100 Hok Hok' R1 A1 R2 A2).
  - vm_compute. reflexivity.
  - vm_compute. reflexivity.
  - reflexivity.
  - unfold touches. cbn. lia.
  - unfold touches. cbn. lia.
  - reflexivity.
Defined.

(** Two textures in one window of a heap.  A subresource names a level and a slice of its own
    texture, and the comparison reads both as coordinates of the one backing: two writes, to
    slice 0 of the one and slice 1 of the other, are given no order, whatever bytes of the
    window the two slices are. *)
Definition demo_aliased : list lc_call :=
  [LApply (DefineTask 1 false 16); LDeclareHeap 1 5 900 65536; LApply (CreateResource 1 4 (StPlaced 5 0 8192)); LApply (CreateResource 1 6 (StPlaced 5 0 8192))].
Definition demo_slice (slot slice : Z) : Participation := mkPart (mkResourceId slot 1) (ExtSubresource (sub_one slice 0)) Write 1.
Definition aliased_state : Lifecycle := state_of (lc_run lifecycle_new demo_aliased).
Definition aliased_first : AccessIntent := taken (lc_access 1 0 (demo_slice 4 0) aliased_state) (resolve_no_bytes (demo_slice 4 0) 0).
Definition aliased_second : AccessIntent :=
  taken (lc_access 1 0 (demo_slice 6 1) (state_of (lc_run lifecycle_new (demo_aliased ++ [LAccess 1 0 (demo_slice 4 0)])))) (resolve_no_bytes (demo_slice 6 1) 0).
Lemma aliased_images_unordered :
  (res_extent <$> resident_at aliased_state 1 (mkResourceId 4 1)) = Some (mkByteRange 0 8192) ∧
  (res_extent <$> resident_at aliased_state 1 (mkResourceId 6 1)) = Some (mkByteRange 0 8192) ∧
  mode aliased_first = Write ∧ mode aliased_second = Write ∧ backing <$> resource (key aliased_first) = Some 900 ∧
  backing <$> resource (key aliased_second) = Some 900 ∧ requires_edge aliased_first aliased_second = false.
Proof. split_and!; vm_compute; reflexivity. Qed.
