(* ===== verification/LifecycleContent.v ===== *)
(** What a synchronise delivers: the lifecycle owner's two halves of a synchronise-and-discard
    packet, [apply] and [complete] of
    src/reims-vgpu/crates/reims-vgpu-core/src/lifecycle.rs, against the content ledger's
    account of which replica holds what (Content.v), with any calls in between.

    The copies a packet owes are planned together and recorded together.  They are planned
    against one state of the ledger, so two resources over the same bytes owe them twice. *)
From Stdlib Require Import ZifyBool.
From S2P Require Import Prelude RangeSet Coverage Access Depend Ready Namespace Heaps Lifecycle Content.

(** ** The owner keeps its ledger well formed

    An action [keeps] the ledger well formed and every resident's extent in range, and what it
    answers satisfies [P]. *)
Definition task_tidy (t : Task) : Prop := ∀ id r, tk_resident t !! id = Some r → extent_ok (res_extent r).
Record tidy (s : Lifecycle) : Prop := {
  td_task k t : tasks s !! k = Some t → task_tidy t;
  td_ledger : ledger_wf (content s) }.
Definition keeps {A} (m : act A) (P : A → Prop) : Prop :=
  ∀ s, tidy s → match m s with Some (inl a, s') => tidy s' ∧ P a | Some (inr _, s') => tidy s' | None => True end.
(** The copies and discards a packet leaves to be completed. *)
Definition effects_wf (e : Effects) : Prop := Forall copy_wf (transfers e) ∧ Forall (λ d, arg_ok (dd_bytes d)) (at_completion e).

Lemma keeps_ret {A} (a : A) (P : A → Prop) : P a → keeps (mret a) P.
Proof. by intros H s Hs. Qed.
Lemma keeps_bind {A B} (m : act A) (f : A → act B) P Q : keeps m P → (∀ a, P a → keeps (f a) Q) → keeps (m ≫= f) Q.
Proof.
  intros Hm Hf s Hs. specialize (Hm s Hs). unfold mbind, act_bind. destruct (m s) as [[[a|e] s']|]; [|done..].
  destruct Hm as [Hs' Ha]. by apply Hf.
Qed.
Lemma keeps_refuse {A} e (P : A → Prop) : keeps (refuse e) P.
Proof. by intros s Hs. Qed.
Lemma keeps_expect {A} (o : option A) (P : A → Prop) : (∀ a, o = Some a → P a) → keeps (expect o) P.
Proof. intros H s Hs. unfold expect. destruct o; [|done]. by split; [|apply H]. Qed.
Lemma keeps_or_refuse {A E} (r : A + E) f (P : A → Prop) : (∀ a, r = inl a → P a) → keeps (or_refuse r f) P.
Proof. intros H s Hs. unfold or_refuse. destruct r; [|done]. by split; [|apply H]. Qed.
Lemma keeps_the_task k : keeps (the_task k) task_tidy.
Proof. intros s Hs. unfold the_task. destruct (tasks s !! k) eqn:E; [|done]. split; [done|]. by eapply td_task. Qed.
Lemma keeps_held_task k : keeps (held_task k) task_tidy.
Proof. intros s Hs. unfold held_task. destruct (tasks s !! k) eqn:E; [|done]. split; [done|]. by eapply td_task. Qed.
Lemma keeps_put_task k t : task_tidy t → keeps (put_task k t) (λ _, True).
Proof.
  intros Ht s [H1 H2]. split; [|done]. split; cbn; [|done]. intros k' t' [[_ <-]|[_ ?]]%lookup_insert_Some; [done|by eapply H1].
Qed.
Lemma keeps_drop_task k : keeps (drop_task k) (λ _, True).
Proof. intros s [H1 H2]. split; [|done]. split; cbn; [|done]. intros k' t' [_ ?]%lookup_delete_Some. by eapply H1. Qed.
Lemma keeps_ask {A} (f : Lifecycle → A) : keeps (ask f) (λ _, True).
Proof. by intros s Hs. Qed.
Lemma keeps_on_content {A} (f : ContentLedger → A * ContentLedger) (P : A → Prop) :
  (∀ l, ledger_wf l → ledger_wf (f l).2 ∧ P (f l).1) → keeps (on_content f) P.
Proof.
  intros H s [H1 H2]. unfold on_content. specialize (H _ H2). destruct (f (content s)) as [a l]. destruct H. split; [|done]. by split.
Qed.
Lemma keeps_update f : (∀ l, ledger_wf l → ledger_wf (f l)) → keeps (update f) (λ _, True).
Proof. intros H. apply keeps_on_content. intros l Hl. split; [by apply H|done]. Qed.
Lemma keeps_mono {A} (m : act A) (P Q : A → Prop) : keeps m P → (∀ a, P a → Q a) → keeps m Q.
Proof. intros H HQ s Hs. specialize (H s Hs). destruct (m s) as [[[]]|]; naive_solver. Qed.

Lemma tidy_resident t t' : task_tidy t → tk_resident t' = tk_resident t → task_tidy t'.
Proof. intros H E id r. rewrite E. apply H. Qed.
Lemma tidy_delete t t' id : task_tidy t → tk_resident t' = base.delete id (tk_resident t) → task_tidy t'.
Proof. intros H E id' r. rewrite E. intros [_ ?]%lookup_delete_Some. by eapply H. Qed.
Lemma tidy_insert t t' id r : task_tidy t → extent_ok (res_extent r) → tk_resident t' = <[id := r]> (tk_resident t) → task_tidy t'.
Proof. intros H Hr E id' r'. rewrite E. intros [[_ <-]|[_ ?]]%lookup_insert_Some; [done|by eapply H]. Qed.
Lemma no_effects_wf e : transfers e = [] → at_completion e = [] → effects_wf e.
Proof. intros E1 E2. unfold effects_wf. by rewrite E1, E2. Qed.
Lemma absorb_wf e e' : effects_wf e → effects_wf e' → effects_wf (absorb e e').
Proof. intros [] []. split; cbn; by apply Forall_app. Qed.
Lemma extent_arg r : extent_ok r → arg_ok r.
Proof. intros ([? ?] & ? & ?). by split. Qed.

Create HintDb keeps.
#[local] Hint Resolve keeps_ret keeps_refuse keeps_the_task keeps_held_task keeps_put_task keeps_drop_task keeps_ask keeps_update
  no_effects_wf absorb_wf extent_arg wf_declare wf_write wf_forget : keeps.
#[local] Hint Extern 1 (task_tidy _) => (by eapply tidy_resident) || (by eapply tidy_delete) : keeps.
#[local] Hint Extern 1 (keeps (expect _) _) => apply (keeps_expect _ (λ _, True)); done : keeps.
#[local] Hint Extern 1 (keeps (or_refuse _ _) _) => apply (keeps_or_refuse _ _ (λ _, True)); done : keeps.
#[local] Hint Extern 1 (effects_wf _) => by apply no_effects_wf : keeps.
Ltac keep :=
  repeat match goal with
  | |- keeps (mret _) _ => apply keeps_ret
  | |- keeps (_ ≫= _) _ => eapply keeps_bind; [by eauto with keeps|intros; cbn beta in *]
  | |- keeps (match _ with _ => _ end) _ => case_match
  end; eauto with keeps.

Lemma keeps_forget b : keeps (forget_backing b) (λ _, True).
Proof. unfold forget_backing. keep. Qed.
#[local] Hint Resolve keeps_forget : keeps.
Lemma keeps_retire k id teardown : keeps (retire_resident k id teardown) effects_wf.
Proof. unfold retire_resident. keep. Qed.
#[local] Hint Resolve keeps_retire : keeps.
Lemma keeps_delete_resource k id : keeps (delete_resource k id) effects_wf.
Proof. unfold delete_resource. keep. Qed.
#[local] Hint Resolve keeps_delete_resource : keeps.
Lemma keeps_delete_each k ids : ∀ e, effects_wf e → keeps (delete_each k ids e) effects_wf.
Proof. induction ids as [|id ids IH]; intros e He; cbn [delete_each]; keep. Qed.
Lemma keeps_forget_each bs : ∀ e, effects_wf e → keeps (forget_each bs e) effects_wf.
Proof. induction bs as [|b bs IH]; intros e He; cbn [forget_each]; keep. apply IH. case_match; eauto with keeps. Qed.
#[local] Hint Resolve keeps_delete_each keeps_forget_each : keeps.
Lemma keeps_delete_task k : keeps (delete_task k) effects_wf.
Proof. unfold delete_task. keep. Qed.
#[local] Hint Resolve keeps_delete_task : keeps.
Lemma task_new_tidy d : task_tidy (task_new d).
Proof. intros id r. cbn. by rewrite lookup_empty. Qed.
#[local] Hint Resolve task_new_tidy : keeps.
Lemma keeps_define_task k d : keeps (define_task k d) effects_wf.
Proof.
  unfold define_task. eapply keeps_bind; [apply keeps_ask|]. intros p _. eapply (keeps_bind _ _ effects_wf); [destruct p|intros e He]; keep.
Qed.
Lemma keeps_bind_list k l : keeps (bind_object_list k l) effects_wf.
Proof. unfold bind_object_list. keep. Qed.
Lemma keeps_remap k span est : keeps (remap k span est) effects_wf.
Proof. unfold remap. keep. Qed.
Lemma keeps_delete_backing k b : keeps (delete_backing k b) effects_wf.
Proof. unfold delete_backing. keep. Qed.
Lemma place_extent h heap id off len p h' : heap_place h heap id off len = Some (inl p, h') → 0 ≤ off < UINT64_MAX → 0 ≤ len → extent_ok (pl_region p).
Proof.
  unfold heap_place, admits, runs_past. intros E ? ?. destruct (live h heap); [|done]. destruct (_ || _) eqn:Ep; [done|]. repeat case_match; simplify_eq.
  unfold extent_ok. cbn. lia.
Qed.
Lemma keeps_create k slot st : storage_ok st → keeps (create_resource k slot st) effects_wf.
Proof.
  intros Hst. unfold create_resource. eapply keeps_bind; [apply keeps_the_task|]. intros t Ht.
  eapply (keeps_bind _ _ (λ _, True)); [destruct st; keep|]. intros ob _.
  eapply (keeps_bind _ _ (λ _, True)); [by apply keeps_expect|]. intros x _.
  eapply keeps_bind; [apply keeps_put_task; by eapply tidy_resident|]. intros _ _.
  eapply (keeps_bind _ _ effects_wf); [keep|]. intros e He. eapply keeps_bind; [apply keeps_held_task|]. intros t' Ht'. destruct st as [b ext|heap off len|].
  - eapply keeps_bind; [by eauto with keeps|]. intros _ _. eapply keeps_bind; [|intros _ _; by apply keeps_ret].
    apply keeps_put_task. by eapply (tidy_insert t' _ (nd_id x.1) (RDedicated b ext)).
  - eapply keeps_bind; [apply keeps_expect; intros y Hy; exact Hy|]. intros [r h'] Hy.
    eapply keeps_bind; [apply (keeps_expect _ (λ p, extent_ok (pl_region p)))|].
    { cbn. intros p Hp. destruct r; [|done]. injection Hp as ->. by eapply place_extent; [exact Hy|apply Hst..]. }
    intros p Hp. eapply keeps_bind; [by eauto with keeps|]. intros _ _. eapply keeps_bind; [|intros _ _; by apply keeps_ret].
    apply keeps_put_task. by eapply (tidy_insert t' _ (nd_id x.1) (RPlaced p)).
  - by apply keeps_ret.
Qed.
Lemma keeps_replace k id b ext : extent_ok ext → keeps (lc_replace_physical k id b ext) effects_wf.
Proof.
  intros Hext. unfold lc_replace_physical. eapply keeps_bind; [apply keeps_the_task|]. intros t Ht.
  assert (keeps (repoint k t id b ext) effects_wf) as Hr; [|keep].
  unfold repoint. eapply (keeps_bind _ _ (λ _, True)); [by apply keeps_expect|]. intros x _.
  eapply keeps_bind; [apply keeps_put_task; by eapply tidy_resident|]. intros _ _.
  eapply (keeps_bind _ _ (λ _, True)); [by apply keeps_or_refuse|]. intros td _.
  eapply keeps_bind; [apply keeps_held_task|]. intros t' Ht'.
  eapply keeps_bind; [apply keeps_put_task; by eapply (tidy_insert t' _ id (RDedicated b ext))|]. intros _ _.
  eapply keeps_bind; [by eauto with keeps|]. intros _ _. eapply (keeps_bind _ _ (λ _, True)); [|intros _ _]; keep.
Qed.

(** Operations that resolve their names first. *)
Definition found (x : ResourceId * Resident) : Prop := extent_ok (res_extent x.2).
Lemma resolve_names_tidy t rs : task_tidy t → ∀ n out o n', Forall found out → resolve_names t rs n out = (inl o, n') → Forall found o.
Proof.
  intros Ht. induction rs as [|r rs IH]; intros n out o n' Hout E; cbn in E; [by simplify_eq|].
  destruct (ns_resolve n r) as [[] ?]; [|done]. eapply IH; [|exact E]. case_match eqn:Er; [|done]. apply Forall_app_2; [done|]. constructor; [|done]. by eapply Ht.
Qed.
Lemma keeps_resolve_all k rs : keeps (resolve_all k rs) (Forall found).
Proof.
  unfold resolve_all. eapply keeps_bind; [apply keeps_the_task|]. intros t Ht. destruct (resolve_names t rs (tk_namespace t) []) as [r n] eqn:E.
  eapply keeps_bind; [apply keeps_put_task; by eapply tidy_resident|]. intros _ _. apply keeps_or_refuse. intros o ->. by eapply resolve_names_tidy.
Qed.
Lemma keeps_invalidate k rs : keeps (invalidate k rs) effects_wf.
Proof.
  unfold invalidate. eapply keeps_bind; [apply keeps_resolve_all|]. intros out Hout. eapply keeps_bind; [apply keeps_update|keep].
  induction Hout as [|x xs Hx Hxs IH]; intros l Hl; cbn; [done|]. apply IH, wf_write; [done|by apply extent_arg].
Qed.
Lemma plan_wf xs : ∀ l, Forall found xs → ledger_wf l → ledger_wf (plan_copies xs l).2 ∧ Forall copy_wf (plan_copies xs l).1.
Proof.
  induction xs as [|x xs IH]; intros l Hxs Hl; cbn; [done|]. apply Forall_cons in Hxs as [Hx Hxs].
  pose proof (wf_transfer l (res_backing x.2) (res_extent x.2) GuestPages Hl) as Hl1. assert (Forall copy_wf (option_list (transfer_for_read l (res_backing x.2) (res_extent x.2) GuestPages).1)) as Ht.
  { destruct (backings l !! res_backing x.2) as [e|] eqn:E; [|unfold transfer_for_read; by rewrite E].
    pose proof (transfer_spec _ _ _ _ _ _ (res_extent x.2) GuestPages E (lw_entry l Hl _ _ E) (extent_arg _ Hx)) as Hs.
    destruct (transfer_for_read _ _ _ _) as [[t|] ?]; cbn; [|done]. by constructor; [apply Hs|]. }
  destruct (transfer_for_read _ _ _ _) as [t l1]. destruct (IH l1 Hxs Hl1) as [H1 H2]. destruct (plan_copies xs l1). split; [done|by apply Forall_app].
Qed.
Lemma deferred_wf out : Forall found out → Forall (λ d, arg_ok (dd_bytes d)) (deferred <$> out).
Proof. intros H. apply Forall_fmap. eapply Forall_impl; [exact H|]. intros x Hx. by apply extent_arg. Qed.
Lemma keeps_synchronize k rs d : keeps (synchronize k rs d) effects_wf.
Proof.
  unfold synchronize. eapply keeps_bind; [apply keeps_resolve_all|]. intros out Hout.
  eapply keeps_bind; [apply (keeps_on_content _ (Forall copy_wf)); intros l Hl; by apply plan_wf|]. intros ts Hts. apply keeps_ret.
  split; cbn; [done|]. destruct d; [by apply deferred_wf|constructor].
Qed.
Lemma keeps_discard k rs : keeps (lc_discard k rs) effects_wf.
Proof.
  unfold lc_discard. eapply keeps_bind; [apply keeps_resolve_all|]. intros out Hout. apply keeps_ret. split; cbn; [constructor|by apply deferred_wf].
Qed.
Lemma keeps_apply op : op_ok op → keeps (lc_apply op) effects_wf.
Proof.
  intros Hop. destruct op; cbn [lc_apply]; repeat case_match;
    first [by apply keeps_define_task|by apply keeps_delete_task|by apply keeps_bind_list|by apply keeps_create|by apply keeps_delete_resource|by apply keeps_remap
          |by apply keeps_replace|by apply keeps_invalidate|by apply keeps_synchronize|by apply keeps_discard|by apply keeps_delete_backing
          |by apply keeps_ret, no_effects_wf].
Qed.

(** *** The rest of the interface *)
Lemma write_empty l b r replica : length_ r = 0 → write l b r replica = write l b (mkByteRange 0 0) replica.
Proof. intros E. unfold write, materialize, reserve, apply. by rewrite E. Qed.
Lemma write_window l b ext off len replica : ledger_wf l → extent_ok ext → 0 ≤ off → 0 ≤ len → runs_past off len (length_ ext) = false →
  ledger_wf (write l b (mkByteRange ((offset ext + off) `min` UINT64_MAX) len) replica).
Proof.
  unfold extent_ok, runs_past. intros Hl He Ho Hlen Hp. destruct (decide (len = 0)) as [->|Hne].
  - rewrite write_empty by done. apply wf_write; [done|]. unfold arg_ok, UINT64_MAX. cbn. lia.
  - apply wf_write; [done|]. unfold arg_ok. cbn. lia.
Qed.
Lemma keeps_resolve_name k id : keeps (resolve_name k id) task_tidy.
Proof.
  unfold resolve_name. eapply keeps_bind; [apply keeps_the_task|]. intros t Ht. destruct (ns_resolve (tk_namespace t) id) as [r n].
  eapply keeps_bind; [apply keeps_put_task; by eapply tidy_resident|]. intros _ _. eapply (keeps_bind _ _ (λ _, True)); [by apply keeps_or_refuse|].
  intros _ _. apply keeps_ret. by eapply tidy_resident.
Qed.
#[local] Hint Resolve keeps_resolve_name : keeps.
Lemma keeps_record_write k id off len replica : 0 ≤ off → 0 ≤ len → keeps (record_write k id off len replica) (λ _, True).
Proof.
  intros Ho Hl. unfold record_write. eapply keeps_bind; [apply keeps_resolve_name|]. intros t Ht. destruct (tk_resident t !! id) as [res|] eqn:Er; [|apply keeps_refuse].
  pose proof (Ht id res Er) as He. eapply (keeps_bind _ _ (λ bytes, ∀ l, ledger_wf l → ledger_wf (write l (res_backing res) bytes replica))); [|intros bytes Hb; by apply keeps_update].
  apply keeps_or_refuse. intros bytes. destruct res as [b ext|p]; cbn in *; unfold placement_within; destruct (runs_past _ _ _) eqn:Ep; intros; simplify_eq; by apply write_window.
Qed.
Lemma keeps_access k dom p : keeps (lc_access k dom p) (λ _, True).
Proof.
  unfold lc_access. eapply keeps_bind; [apply keeps_resolve_name|]. intros t Ht. destruct (tk_resident t !! part_resource p) as [res|]; [|by apply keeps_ret].
  eapply (keeps_bind _ _ (λ _, True)); [keep|]. intros h _. eapply keeps_bind; [apply keeps_ask|]. intros v _.
  eapply (keeps_bind _ _ (λ _, True)); [|intros o _; by apply keeps_ret]. destruct (Access.writes _); [|by apply keeps_ret].
  eapply (keeps_bind _ _ (λ _, True)); [|intros o _; by apply keeps_ret]. apply keeps_on_content. intros l Hl. split; [by apply wf_reserve|done].
Qed.
Lemma records_wf ts : ∀ l, Forall copy_wf ts → ledger_wf l → ledger_wf (foldl record_transfer l ts).
Proof. induction ts as [|t ts IH]; intros l Hts Hl; cbn; [done|]. apply Forall_cons in Hts as [? ?]. apply IH, wf_record; done. Qed.
Lemma discards_wf ds : ∀ x, Forall (λ d, arg_ok (dd_bytes d)) ds → ledger_wf x.1 → ledger_wf (foldl complete_discard x ds).1.
Proof.
  induction ds as [|d ds IH]; intros [l dcl] Hds Hl; cbn; [done|]. apply Forall_cons in Hds as [? ?]. cbn in Hl. apply IH; [done|].
  unfold complete_discard. destruct (sole_authority _ _ _ _); [by apply wf_discard|done].
Qed.
Lemma keeps_complete e : effects_wf e → keeps (lc_complete e) (λ _, True).
Proof.
  intros [Ht Hd]. apply keeps_on_content. intros l Hl. pose proof (discards_wf _ (foldl record_transfer l (transfers e), []) Hd (records_wf _ _ Ht Hl)) as Hw.
  cbn zeta. by destruct (foldl complete_discard (foldl record_transfer l (transfers e), []) (at_completion e)).
Qed.

(** The arguments of a call are machine numbers, and what is completed is as [apply] left it. *)
Definition call_wf (c : lc_call) : Prop :=
  call_ok c ∧ match c with LRecordWrite _ _ off len _ => 0 ≤ off ∧ 0 ≤ len | LComplete e => effects_wf e | _ => True end.
Lemma keeps_ran {A} (m : act A) P s s' : keeps m P → tidy s → ran m s = Some s' → tidy s'.
Proof. intros Hm Hs E. specialize (Hm s Hs). unfold ran in E. destruct (m s) as [[[a|e] s1]|]; [|by simplify_eq/=..]. destruct Hm. by simplify_eq/=. Qed.
Lemma lc_step_tidy s c s' : tidy s → call_wf c → lc_step s c = Some s' → tidy s'.
Proof.
  intros Hs [Hok Hc]. destruct c; cbn [lc_step call_ok] in *; eapply keeps_ran; try done.
  - by apply keeps_apply.
  - unfold declare_heap. eapply keeps_bind; [apply keeps_the_task|]. intros t Ht. destruct (heap_create _ _ _ _) as [r h].
    eapply keeps_bind; [apply keeps_put_task; by eapply tidy_resident|]. intros _ _. by apply (keeps_or_refuse _ _ (λ _, True)).
  - unfold lc_resolve. eapply keeps_bind; [apply keeps_resolve_name|]. intros t Ht. by apply (keeps_ret _ (λ _, True)).
  - apply keeps_record_write; lia.
  - apply keeps_access.
  - by apply keeps_complete.
Qed.
Lemma lc_run_tidy cs : ∀ s s', tidy s → Forall call_wf cs → lc_run s cs = Some s' → tidy s'.
Proof.
  induction cs as [|c cs IH]; intros s s' Hs Hcs Hr; [by injection Hr as <-|]. apply Forall_cons in Hcs as [Hc Hcs]. unfold lc_run in *. cbn in Hr.
  destruct (lc_step s c) as [s1|] eqn:E; [by eapply IH; [by eapply lc_step_tidy|..]|]. clear -Hr. exfalso. induction cs as [|c' cs IH]; [done|by apply IH].
Qed.
Lemma calls_ok cs : Forall call_wf cs → Forall call_ok cs.
Proof. intros H. eapply Forall_impl; [exact H|]. by intros c [? _]. Qed.
Lemma lifecycle_new_tidy : tidy lifecycle_new.
Proof. split; [done|apply wf_empty]. Qed.

(** ** Planning and recording the copies *)
Definition fresh_at (l : ContentLedger) (b : Z) (r : Replica) (x : Z) : bool :=
  match backings l !! b with Some e => holds (fresh_of e r) x | None => false end.
Definition carries (b x : Z) (t : Transfer) : bool := (t_backing t =? b) && holds (t_bytes t) x.
(** The bytes of [b] the guest is behind on and the device is not. *)
Definition behind (l : ContentLedger) (b x : Z) : Prop := fresh_at l b GuestPages x = false ∧ fresh_at l b DeviceOwned x = true.
(** A copy to the guest that was planned when the ledger was [l]: it names the versions current then. *)
Record planned (l : ContentLedger) (t : Transfer) : Prop := {
  pl_to : t_to t = GuestPages;
  pl_wf : copy_wf t;
  pl_at p x : p ∈ t_at t → within (sp_range p) x = true → current l (t_backing t) x = Some (sp_version p);
  pl_span x : holds (t_bytes t) x = true → ∃ p, p ∈ t_at t ∧ within (sp_range p) x = true }.

Lemma plan_one l b bytes : ledger_wf l → arg_ok bytes →
  let '(t, l') := transfer_for_read l b bytes GuestPages in
  backings l' = backings l ∧ Forall (planned l) (option_list t) ∧
  ∀ b' x, existsb (carries b' x) (option_list t) = true ↔ b' = b ∧ within bytes x = true ∧ behind l b' x.
Proof.
  intros Hw Hr. destruct (backings l !! b) as [e|] eqn:E.
  - pose proof (lw_entry l Hw b e E) as He. pose proof (transfer_spec _ _ _ _ _ _ bytes GuestPages E He Hr) as Hs.
    destruct (transfer_for_read l b bytes GuestPages) as [t l']. destruct Hs as [Eb Ht]. split; [done|].
    assert (∀ x, behind l b x ∧ within bytes x = true ↔ owed_bytes e bytes GuestPages x = true) as Ho.
    { intros x. unfold behind, fresh_at, owed_bytes. rewrite E. cbn [other]. lia. }
    destruct t as [t|]; cbn [option_list existsb].
    + destruct Ht as (Etb & _ & Ett & _ & Hc & Hat & Hb & Hl). split; [constructor; [|constructor]; split; [done|done|..]|].
      * intros p x Hp Hx. unfold current. rewrite Etb, E. by apply (Hat p x).
      * intros x Hx. rewrite <- Hl in Hx. apply (landed_ok _ _ (proj1 (eo_cov _ _ _ _ He)) (co_at _ Hc)) in Hx as (p & ? & ? & _). by exists p.
      * intros b' x. cbn. unfold carries. rewrite orb_false_r, andb_true_iff, Hb, Etb, <- Ho, Z.eqb_eq. naive_solver.
    + split; [constructor|]. intros b' x. split; [done|]. intros (-> & ? & ?). assert (owed_bytes e bytes GuestPages x = true) by (by apply Ho). by rewrite Ht in *.
  - unfold transfer_for_read. rewrite E. split; [done|]. split; [constructor|]. intros b' x. split; [done|]. intros (-> & _ & _ & Hd). unfold fresh_at in Hd. by rewrite E in Hd.
Qed.
Lemma planned_backings l l' t : backings l' = backings l → planned l' t → planned l t.
Proof. intros E [H1 H2 H3 H4]. split; [done..| |done]. intros p x Hp Hx. specialize (H3 p x Hp Hx). unfold current in *. by rewrite E in H3. Qed.
Lemma behind_backings l l' b x : backings l' = backings l → behind l' b x ↔ behind l b x.
Proof. intros E. unfold behind, fresh_at. by rewrite E. Qed.
Lemma plan_all xs : ∀ l, ledger_wf l → Forall found xs → let '(ts, l') := plan_copies xs l in
  backings l' = backings l ∧ Forall (planned l) ts ∧
  ∀ b x, existsb (carries b x) ts = true ↔ ∃ y, y ∈ xs ∧ res_backing y.2 = b ∧ within (res_extent y.2) x = true ∧ behind l b x.
Proof.
  induction xs as [|y xs IH]; intros l Hl Hxs; cbn [plan_copies].
  { split_and!; [done|constructor|]. intros b x. split; [done|]. by intros (? & ?%elem_of_nil & _). }
  apply Forall_cons in Hxs as [Hy Hxs]. pose proof (wf_transfer l (res_backing y.2) (res_extent y.2) GuestPages Hl) as Hl1.
  pose proof (plan_one l (res_backing y.2) (res_extent y.2) Hl (extent_arg _ Hy)) as H1.
  destruct (transfer_for_read l (res_backing y.2) (res_extent y.2) GuestPages) as [t l1]. destruct H1 as (E1 & P1 & C1). specialize (IH l1 Hl1 Hxs).
  destruct (plan_copies xs l1) as [ts l2]. destruct IH as (E2 & P2 & C2). split; [congruence|]. split.
  { apply Forall_app. split; [done|]. eapply Forall_impl; [exact P2|]. intros t'. by apply planned_backings. }
  intros b x. rewrite existsb_app, orb_true_iff, C1, C2. setoid_rewrite (behind_backings _ _ b x E1). split.
  - intros [(-> & Hin & Hb)|(y' & Hy' & Eb' & Hin & Hb)]; [exists y; split; [left|done]|]. exists y'. split; [by right|done].
  - intros (y' & [->|Hy']%elem_of_cons & <- & Hin & Hb); [by left|right]. by exists y'.
Qed.

(** A copy recorded later arrives in the bytes whose version has not moved since, and in no other. *)
Lemma record_one l0 l t : ledger_wf l → planned l0 t →
  (∀ b x, current (record_transfer l t) b x = current l b x) ∧
  ∀ b r x, fresh_at (record_transfer l t) b r x =
    if bool_decide (r = GuestPages) && carries b x t then bool_decide (current l b x = current l0 b x) else fresh_at l b r x.
Proof.
  intros Hl [Eto [Hcb Hat Hin] Hp Hs]. unfold record_transfer, fresh_at, current, carries.
  destruct (backings l !! t_backing t) as [e|] eqn:E.
  - pose proof (lw_entry l Hl _ _ E) as [Hc Hf _ _ _]. destruct (landed_ok _ _ (proj1 Hc) Hat) as [Hlc Hlx]. set (landed := landed_of (e_canonical e) (t_at t)) in *.
    destruct (subtract_ok _ _ Hcb Hlc) as [Hk Hkx]. destruct (union_ok _ _ (Hf GuestPages) Hlc) as [Hu Hux]. destruct (subtract_ok _ _ Hu Hk) as [_ Hx].
    set (l' := match subtract (t_bytes t) landed with [] => _ | _ => _ end). assert (backings l' = <[t_backing t := (e <| e_fresh :=
      <[GuestPages := subtract (union_with (fresh_of e GuestPages) landed) (subtract (t_bytes t) landed)]> (e_fresh e) |>)]> (backings l)) as ->.
    { unfold l'. rewrite Eto. by destruct (subtract (t_bytes t) landed). }
    split; [intros b x; destruct (decide (b = t_backing t)) as [->|]; [rewrite lookup_insert_eq, E|rewrite lookup_insert_ne]; done|].
    intros b r x. destruct (decide (b = t_backing t)) as [->|Hne]; [|rewrite lookup_insert_ne, (proj2 (Z.eqb_neq _ _)), andb_false_r; done].
    rewrite lookup_insert_eq, E, Z.eqb_refl. cbn [mbind option_bind andb]. unfold fresh_of at 1, set_of. cbn. destruct r; [|by rewrite lookup_insert_ne].
    rewrite lookup_insert_eq, Hx, Hux, Hkx, bool_decide_eq_true_2 by done. cbn. destruct (holds (t_bytes t) x) eqn:Eb; cbn.
    + destruct (Hs x Eb) as (p & Hpin & Hpx). apply eq_true_iff_eq. rewrite bool_decide_eq_true. fold (current l0 (t_backing t) x).
      transitivity (holds landed x = true); [lia|]. rewrite Hlx, (Hp p x Hpin Hpx). split; [|by exists p].
      intros (p' & Hp' & Hw' & ->). by rewrite <- (Hp p' x Hp' Hw'), (Hp p x Hpin Hpx).
    + destruct (holds landed x) eqn:El; [|lia]. apply Hlx in El as (p & Hpin & Hpx & _). by rewrite (Hin p x Hpin Hpx) in Eb.
  - split; [done|]. intros b r x. destruct (decide (t_backing t = b)) as [<-|Hne]; [|by rewrite (proj2 (Z.eqb_neq _ _)), andb_false_r].
    rewrite E, Z.eqb_refl. case_match eqn:Ec; [|done]. apply andb_true_iff in Ec as [_ (p & Hpin & Hpx)%Hs]. symmetry. apply bool_decide_eq_false. cbn.
    fold (current l0 (t_backing t) x). by rewrite (Hp p x Hpin Hpx).
Qed.
Lemma record_all l0 ts : ∀ l, ledger_wf l → Forall (planned l0) ts → let l' := foldl record_transfer l ts in
  ledger_wf l' ∧ ∀ b r x, fresh_at l' b r x =
    if bool_decide (r = GuestPages) && existsb (carries b x) ts then bool_decide (current l b x = current l0 b x) else fresh_at l b r x.
Proof.
  induction ts as [|t ts IH]; intros l Hl Hts; cbn [foldl existsb]; [split; [done|]; intros; by rewrite andb_false_r|].
  apply Forall_cons in Hts as [Ht Hts]. destruct (record_one l0 l t Hl Ht) as [Hc Hf]. destruct (IH (record_transfer l t)) as [Hl' Hf']; [apply wf_record; [done|apply Ht]|done|].
  split; [done|]. intros b r x. rewrite Hf', Hc, Hf. destruct (bool_decide (r = GuestPages)), (carries b x t), (existsb (carries b x) ts); done.
Qed.

(** ** Discarding *)
Lemma discard_one l b bytes : ledger_wf l → arg_ok bytes → ∀ b' r x,
  fresh_at (discard l b bytes DeviceOwned) b' r x = fresh_at l b' r x && negb (bool_decide (r = DeviceOwned) && (b' =? b) && within bytes x).
Proof.
  intros Hl Hr b' r x. unfold fresh_at, discard. destruct (backings l !! b) as [e|] eqn:E.
  - pose proof (lw_entry l Hl b e E) as [_ Hf _ _ _]. destruct (e_fresh e !! DeviceOwned) as [set|] eqn:Es.
    + cbn. destruct (decide (b' = b)) as [->|Hne]; [|rewrite lookup_insert_ne, (proj2 (Z.eqb_neq _ _)), andb_false_r by done; by rewrite andb_true_r].
      rewrite lookup_insert_eq, E, Z.eqb_refl, andb_true_r. unfold fresh_of, set_of. cbn. destruct r; [rewrite lookup_insert_ne by done; by rewrite andb_true_r|].
      rewrite lookup_insert_eq, Es. cbn. destruct (remove_ok set bytes) as [_ Hx]; [|done|apply Hx].
      pose proof (Hf DeviceOwned) as Hd. unfold fresh_of, set_of in Hd. by rewrite Es in Hd.
    + destruct (decide (b' = b)) as [->|Hne]; [|rewrite (proj2 (Z.eqb_neq _ _)), andb_false_r by done; by rewrite andb_true_r].
      rewrite E. destruct r; [by rewrite andb_true_r|]. unfold fresh_of, set_of. by rewrite Es.
  - destruct (decide (b' = b)) as [->|Hne]; [by rewrite E|rewrite (proj2 (Z.eqb_neq _ _)), andb_false_r by done; by rewrite andb_true_r].
Qed.
(** The bytes of a discard that only the device holds. *)
Definition alone (l : ContentLedger) (b : Z) (bytes : ByteRange) (x : Z) : bool :=
  within bytes x && fresh_at l b DeviceOwned x && negb (fresh_at l b GuestPages x).
Lemma sole_spec l b bytes : ledger_wf l → arg_ok bytes →
  canonical 0 (sole_authority l b bytes DeviceOwned) ∧ ∀ x, holds (sole_authority l b bytes DeviceOwned) x = alone l b bytes x.
Proof.
  intros Hl Hr. unfold alone, fresh_at. destruct (backings l !! b) as [e|] eqn:E; [|unfold sole_authority; rewrite E; split; [done|]; intros; by rewrite andb_false_r].
  pose proof (lw_entry l Hl b e E) as He. split; [|intros x; by apply (sole_authority_ok _ _ e)].
  pose proof (eo_fresh _ _ _ _ He DeviceOwned) as H1. pose proof (eo_fresh _ _ _ _ He GuestPages) as H2. destruct (from_range_ok bytes Hr) as [H3 _].
  unfold sole_authority, fresh_of, set_of in *. rewrite E. destruct (e_fresh e !! DeviceOwned) as [here|]; [|done]. destruct (intersection_ok _ _ H1 H3) as [H5 _].
  cbn [other]. destruct (e_fresh e !! GuestPages) as [there|]; [|done]. by destruct (subtract_ok _ _ H5 H2).
Qed.
Definition declines (l : ContentLedger) (d : DeferredDiscard) : option Declined :=
  match sole_authority l (dd_backing d) (dd_bytes d) DeviceOwned with
  | [] => None
  | sole => Some (mkDeclined (dd_resource d) (dd_backing d) (RangeSet.len sole))
  end.
Lemma declines_same l l' d : ledger_wf l → ledger_wf l' → arg_ok (dd_bytes d) →
  (∀ x, alone l (dd_backing d) (dd_bytes d) x = alone l' (dd_backing d) (dd_bytes d) x) → declines l d = declines l' d.
Proof.
  intros Hl Hl' Ha Hx. unfold declines. destruct (sole_spec l (dd_backing d) _ Hl Ha) as [H1 E1]. destruct (sole_spec l' (dd_backing d) _ Hl' Ha) as [H2 E2].
  by rewrite (canonical_unique 0 _ _ H1 H2) by (intros x; by rewrite E1, E2).
Qed.
Lemma declines_none l d : ledger_wf l → arg_ok (dd_bytes d) → declines l d = None ↔ ∀ x, alone l (dd_backing d) (dd_bytes d) x = false.
Proof.
  intros Hl Ha. unfold declines. destruct (sole_spec l (dd_backing d) _ Hl Ha) as [H1 E1]. setoid_rewrite <- E1.
  destruct (sole_authority _ _ _ _) as [|q qs]; [done|]. split; [done|]. intros Hx. specialize (Hx (offset q)). by rewrite (holds_front 0 _ _ H1) in Hx.
Qed.
Lemma declines_some l d q (P : RangeSet → Prop) : ledger_wf l → arg_ok (dd_bytes d) →
  (∀ sole, P sole ↔ sole ≠ [] ∧ canonical 0 sole ∧ ∀ x, holds sole x = alone l (dd_backing d) (dd_bytes d) x) →
  declines l d = Some q ↔ ∃ sole, P sole ∧ q = mkDeclined (dd_resource d) (dd_backing d) (RangeSet.len sole).
Proof.
  intros Hl Ha HP. unfold declines. destruct (sole_spec l (dd_backing d) _ Hl Ha) as [H1 E1]. set (sole := sole_authority _ _ _ _) in *.
  assert (∀ s, P s ↔ s = sole ∧ sole ≠ []) as HP'.
  { intros s. rewrite HP. split; [intros (? & ? & Hx)|by intros [-> ?]]. assert (s = sole) as -> by (apply (canonical_unique 0); [done..|]; intros x; by rewrite Hx, E1). done. }
  setoid_rewrite HP'. clearbody sole. destruct sole; naive_solver.
Qed.
(** Each discard is declined, or takes exactly its bytes from the device; one taken does not
    change which of the others are declined. *)
Definition drops (l : ContentLedger) (b x : Z) (d : DeferredDiscard) : bool :=
  bool_decide (declines l d = None) && (b =? dd_backing d) && within (dd_bytes d) x.
Lemma omap_agree {A B} (f g : A → option B) (xs : list A) : (∀ x, x ∈ xs → f x = g x) → omap f xs = omap g xs.
Proof. induction xs as [|x xs IH]; intros H; cbn; [done|]. rewrite (H x) by left. rewrite IH by (intros y Hy; apply H; by right). done. Qed.
Lemma existsb_agree {A} (f g : A → bool) xs : (∀ x, x ∈ xs → f x = g x) → existsb f xs = existsb g xs.
Proof. induction xs as [|x xs IH]; intros H; cbn; [done|]. rewrite (H x) by left. rewrite IH by (intros y Hy; apply H; by right). done. Qed.
Lemma discard_all ds : ∀ l dcl, ledger_wf l → Forall (λ d, arg_ok (dd_bytes d)) ds →
  ∃ l', foldl complete_discard (l, dcl) ds = (l', dcl ++ omap (declines l) ds) ∧
    ∀ b r x, fresh_at l' b r x = fresh_at l b r x && negb (bool_decide (r = DeviceOwned) && existsb (drops l b x) ds).
Proof.
  induction ds as [|d ds IH]; intros l dcl Hl Hds; [exists l; cbn; rewrite app_nil_r; split; [done|]; intros; by rewrite andb_false_r, andb_true_r|].
  apply Forall_cons in Hds as [Hd Hds]. cbn [foldl existsb omap list_omap]. unfold complete_discard at 2.
  pose proof (declines_none l d Hl Hd) as Hn. unfold drops at 1. destruct (declines l d) as [x|] eqn:Ed; unfold declines in Ed;
    destruct (sole_authority _ _ _ _) as [|q qs]; try done.
  - injection Ed as <-. destruct (IH l (dcl ++ [mkDeclined (dd_resource d) (dd_backing d) (RangeSet.len (q :: qs))]) Hl Hds) as (l' & -> & Hx). exists l'.
    split; [by rewrite <- app_assoc|]. intros b r x. rewrite Hx. by rewrite (bool_decide_eq_false_2 (Some _ = None)).
  - pose proof (discard_one l (dd_backing d) (dd_bytes d) Hl Hd) as Hx1. set (l1 := discard _ _ _ _) in *. assert (ledger_wf l1) as Hl1 by (by apply wf_discard).
    assert (∀ d', d' ∈ ds → declines l1 d' = declines l d') as Hsame.
    { intros d' Hin. apply declines_same; [done|done|by eapply (proj1 (Forall_forall _ ds) Hds)|]. intros x. unfold alone. rewrite !Hx1. cbn. rewrite andb_true_r.
      destruct (decide (dd_backing d' = dd_backing d)) as [->|Hne]; [|rewrite (proj2 (Z.eqb_neq _ _)) by done; cbn; by rewrite andb_true_r].
      rewrite Z.eqb_refl. cbn. pose proof (proj1 Hn eq_refl x) as Ha. unfold alone in Ha. lia. }
    destruct (IH l1 dcl Hl1 Hds) as (l' & -> & Hx). exists l'. rewrite (omap_agree (declines l1) (declines l)) by done. split; [done|].
    intros b r x. rewrite Hx, Hx1. rewrite (existsb_agree (drops l1 b x) (drops l b x)) by (intros d' Hd'; unfold drops; by rewrite (Hsame d' Hd')).
    rewrite (bool_decide_eq_true_2 (None = None)) by done. destruct (bool_decide (r = _)), (fresh_at _ _ _ _); cbn; try done. by rewrite negb_orb.
Qed.

(** ** The packet *)
Lemma sync_resolved k rs s e s1 : lc_ok s → tidy s → lc_apply (SynchronizeAndDiscard k rs) s = Some (inl e, s1) →
  ∃ out, (∀ x, x ∈ out ↔ x.1 ∈ rs ∧ resident_at s k x.1 = Some x.2) ∧ Forall found out ∧
    plan_copies out (content s) = (transfers e, content s1) ∧ at_completion e = deferred <$> out.
Proof.
  intros H Hs Ha. assert (wp (synchronize k rs true) s (λ e s1, ∃ out, (∀ x, x ∈ out ↔ x.1 ∈ rs ∧ resident_at s k x.1 = Some x.2) ∧
    Forall found out ∧ plan_copies out (content s) = (transfers e, content s1) ∧ at_completion e = deferred <$> out) (λ _ s', quiet s s')) as Hw;
    [|unfold wp in Hw; cbn in Ha; by rewrite Ha in Hw].
  unfold synchronize. apply wp_bind. apply resolve_all_wp; [done|]. intros out s2 t Et Hq Ho _. apply wp_bind. unfold wp at 1, on_content.
  rewrite (qu_content _ _ Hq). destruct (plan_copies out (content s)) as [ts l] eqn:Ep. apply wp_ret. exists out. cbn. split.
  { intros x. rewrite Ho. unfold resident_at. by rewrite Et. }
  split; [|done]. apply Forall_forall. intros x [_ Ex]%Ho. by eapply (td_task s Hs).
Qed.
(** What [complete] answers and leaves, of copies planned when the ledger was [l0]. *)
Lemma complete_spec l0 e s : tidy s → Forall (planned l0) (transfers e) → Forall (λ d, arg_ok (dd_bytes d)) (at_completion e) →
  ∃ l s', ledger_wf l ∧ lc_complete e s = Some (inl (omap (declines l) (at_completion e)), s') ∧ tasks s' = tasks s ∧
    (∀ b x, fresh_at l b DeviceOwned x = fresh_at (content s) b DeviceOwned x) ∧
    (∀ b x, fresh_at l b GuestPages x = fresh_at (content s') b GuestPages x) ∧
    (∀ b x, fresh_at (content s') b GuestPages x =
      if existsb (carries b x) (transfers e) then bool_decide (current (content s) b x = current l0 b x) else fresh_at (content s) b GuestPages x) ∧
    ∀ b x, fresh_at (content s') b DeviceOwned x = fresh_at (content s) b DeviceOwned x && negb (existsb (drops l b x) (at_completion e)).
Proof.
  intros [_ Hl] Hp Hd. destruct (record_all l0 (transfers e) (content s) Hl Hp) as [Hl1 Hf1]. set (l := foldl _ _ _) in *.
  destruct (discard_all (at_completion e) l [] Hl1 Hd) as (l2 & E2 & Hf2). exists l, (mkLifecycle (tasks s) l2). split; [done|]. split.
  { unfold lc_complete, on_content. fold l. by rewrite E2. }
  split; [done|]. cbn [content]. split_and!; intros b x; rewrite ?Hf2, Hf1; cbn; by rewrite ?andb_true_r.
Qed.

(** A byte of some resource a packet names. *)
Definition names_byte (s : Lifecycle) (k : Z) (rs : list ResourceId) (b x : Z) : Prop :=
  ∃ id r, id ∈ rs ∧ resident_at s k id = Some r ∧ res_backing r = b ∧ within (res_extent r) x = true.
(** The bytes only the device holds, of a resource the packet names, once its copies are recorded. *)
Definition kept_back (s s2 s3 : Lifecycle) (k : Z) (rs : list ResourceId) (id : ResourceId) (r : Resident) (sole : RangeSet) : Prop :=
  id ∈ rs ∧ resident_at s k id = Some r ∧ sole ≠ [] ∧ canonical 0 sole ∧
  ∀ x, holds sole x = within (res_extent r) x && fresh_at (content s2) (res_backing r) DeviceOwned x && negb (fresh_at (content s3) (res_backing r) GuestPages x).

(** When the named bytes are as they were, the guest ends up with everything. *)
Lemma undisturbed s s2 s3 k rs declined :
  (∀ b x, (names_byte s k rs b x ∧ behind (content s) b x) ∧ (fresh_at (content s3) b GuestPages x = true ↔ current (content s2) b x = current (content s) b x) ∨
    ¬ (names_byte s k rs b x ∧ behind (content s) b x) ∧ fresh_at (content s3) b GuestPages x = fresh_at (content s2) b GuestPages x) →
  (∀ d, d ∈ declined ↔ ∃ id r sole, kept_back s s2 s3 k rs id r sole ∧ d = mkDeclined id (res_backing r) (RangeSet.len sole)) →
  (∀ b x, fresh_at (content s3) b DeviceOwned x = true ↔ fresh_at (content s2) b DeviceOwned x = true ∧
    ∀ id r, id ∈ rs → resident_at s k id = Some r → res_backing r = b → within (res_extent r) x = true → ∃ sole, kept_back s s2 s3 k rs id r sole) →
  (∀ b x, names_byte s k rs b x → current (content s2) b x = current (content s) b x ∧ ∀ r, fresh_at (content s2) b r x = fresh_at (content s) b r x) →
  declined = [] ∧ ∀ b x, names_byte s k rs b x →
    fresh_at (content s3) b GuestPages x = fresh_at (content s) b GuestPages x || fresh_at (content s) b DeviceOwned x ∧
    fresh_at (content s3) b DeviceOwned x = false.
Proof.
  intros Hg Hdec Hd Hsame.
  assert (∀ b x, names_byte s k rs b x → fresh_at (content s3) b GuestPages x = fresh_at (content s) b GuestPages x || fresh_at (content s) b DeviceOwned x) as Hall.
  { intros b x Hn. destruct (Hsame b x Hn) as [Hc Hf]. destruct (Hg b x) as [[[_ [E1 E2]] Hx]|[Hb ->]].
    - rewrite E1, E2. by apply Hx.
    - rewrite Hf. destruct (fresh_at (content s) b GuestPages x) eqn:E1, (fresh_at (content s) b DeviceOwned x) eqn:E2; try done. by destruct Hb. }
  assert (∀ id r sole, ¬ kept_back s s2 s3 k rs id r sole) as Hnone.
  { intros id r sole (Hin & Er & Hne & Hcan & Hx). destruct sole as [|q qs]; [done|]. specialize (Hx (offset q)). rewrite (holds_front 0 _ _ Hcan) in Hx.
    symmetry in Hx. apply andb_true_iff in Hx as [[Hw Hv]%andb_true_iff Hz%negb_true_iff].
    assert (names_byte s k rs (res_backing r) (offset q)) as Hn by (by exists id, r). rewrite (Hall _ _ Hn) in Hz. rewrite (proj2 (Hsame _ _ Hn)) in Hv. lia. }
  split; [destruct declined as [|d ds]; [done|]; destruct (proj1 (Hdec d) ltac:(left)) as (id & r & sole & Hk & _); by apply Hnone in Hk|].
  intros b x Hn. split; [by apply Hall|]. apply not_true_iff_false. rewrite Hd. intros [_ Hk]. destruct Hn as (id & r & Hin & Er & Eb & Hx).
  destruct (Hk id r Hin Er Eb Hx) as [sole Hs]. by apply Hnone in Hs.
Qed.

Lemma packet_completes cs s k rs e s1 cs' s2 :
  Forall call_wf cs → lc_run lifecycle_new cs = Some s → lc_apply (SynchronizeAndDiscard k rs) s = Some (inl e, s1) →
  Forall call_wf cs' → lc_run s1 cs' = Some s2 →
  ∃ declined s3, lc_complete e s2 = Some (inl declined, s3) ∧ tasks s3 = tasks s2 ∧
    (∀ b x, (names_byte s k rs b x ∧ behind (content s) b x) ∧ (fresh_at (content s3) b GuestPages x = true ↔ current (content s2) b x = current (content s) b x) ∨
      ¬ (names_byte s k rs b x ∧ behind (content s) b x) ∧ fresh_at (content s3) b GuestPages x = fresh_at (content s2) b GuestPages x) ∧
    (∀ d, d ∈ declined ↔ ∃ id r sole, kept_back s s2 s3 k rs id r sole ∧ d = mkDeclined id (res_backing r) (RangeSet.len sole)) ∧
    ∀ b x, fresh_at (content s3) b DeviceOwned x = true ↔ fresh_at (content s2) b DeviceOwned x = true ∧
      ∀ id r, id ∈ rs → resident_at s k id = Some r → res_backing r = b → within (res_extent r) x = true → ∃ sole, kept_back s s2 s3 k rs id r sole.
Proof.
  intros Hcs Hr Ha Hcs' Hr'.
  pose proof (lc_run_tidy cs _ _ lifecycle_new_tidy Hcs Hr) as Hs.
  assert (lc_ok s) as Hok. { destruct (lc_run_ok cs _ lifecycle_new_ok) as (s0 & Es & H); [by apply calls_ok|congruence]. }
  assert (tidy s1 ∧ effects_wf e) as [Hs1 He] by (pose proof (keeps_apply (SynchronizeAndDiscard k rs) I s Hs) as Hk; by rewrite Ha in Hk).
  pose proof (lc_run_tidy cs' _ _ Hs1 Hcs' Hr') as Hs2.
  destruct (sync_resolved k rs s e s1 Hok Hs Ha) as (out & Ho & Hfound & Ep & Ed).
  pose proof (plan_all out (content s) (td_ledger s Hs) Hfound) as Hpl. rewrite Ep in Hpl. destruct Hpl as (_ & Hp & Hc).
  destruct (complete_spec (content s) e s2 Hs2 Hp (proj2 He)) as (l & s3 & Hl & Ecomp & Et & Hdl & Hgl & Hg & Hd). rewrite Ed in *.
  assert (∀ b x, existsb (carries b x) (transfers e) = true ↔ names_byte s k rs b x ∧ behind (content s) b x) as Hcar.
  { intros b x. rewrite Hc. unfold names_byte. split; [intros ([id r] & [? ?]%Ho & ? & ? & ?); split; [by exists id, r|done]|].
    intros [(id & r & Hin & Er & ? & ?) ?]. exists (id, r). by rewrite Ho. }
  assert (∀ y q, y ∈ out → declines l (deferred y) = Some q ↔ ∃ sole, kept_back s s2 s3 k rs y.1 y.2 sole ∧ q = mkDeclined y.1 (res_backing y.2) (RangeSet.len sole)) as Hdec.
  { intros y q Hy. apply declines_some; [done|by eapply (proj1 (Forall_forall _ _) Hfound), extent_arg in Hy|]. intros sole. unfold kept_back, alone.
    setoid_rewrite Hdl. setoid_rewrite Hgl. apply Ho in Hy as [? ?]. naive_solver. }
  exists (omap (declines l) (deferred <$> out)), s3. split; [done|]. split; [done|]. split; [|split].
  - intros b x. rewrite Hg. destruct (existsb _ _) eqn:Ec; [apply Hcar in Ec; left; split; [done|]; apply bool_decide_eq_true|].
    right. split; [|done]. intros H%Hcar. congruence.
  - intros d. rewrite list_elem_of_omap. split.
    + intros (d0 & (y & -> & Hy)%list_elem_of_fmap & (sole & ? & ->)%Hdec); [|done]. by exists y.1, y.2, sole.
    + intros (id & r & sole & Hk & ->). pose proof Hk as (Hin & Er & _). exists (deferred (id, r)). split; [apply list_elem_of_fmap; exists (id, r); by rewrite Ho|].
      apply Hdec; [by rewrite Ho|]. by exists sole.
  - intros b x. rewrite Hd, andb_true_iff, negb_true_iff, <- not_true_iff_false, existsb_exists. setoid_rewrite <- list_elem_of_In.
    split; intros [Hf Hn]; (split; [done|]).
    + intros id r Hin Er Eb Hx. destruct (declines l (deferred (id, r))) as [q|] eqn:Eq; [apply Hdec in Eq as (sole & ? & _); [by exists sole|by rewrite Ho]|].
      exfalso. apply Hn. exists (deferred (id, r)). split; [apply list_elem_of_fmap; exists (id, r); by rewrite Ho|].
      unfold drops. rewrite Eq, bool_decide_eq_true_2 by done. cbn. rewrite Eb, Z.eqb_refl. done.
    + intros (d & ([id r] & -> & [Hin Er]%Ho)%list_elem_of_fmap & [[Hq%bool_decide_eq_true Eb%Z.eqb_eq]%andb_true_iff Hx]%andb_true_iff). cbn in *.
      destruct (Hn id r Hin Er (eq_sym Eb) Hx) as [sole Hk]. assert (declines l (deferred (id, r)) = Some (mkDeclined id (res_backing r) (RangeSet.len sole))) by (apply Hdec; [by rewrite Ho|by exists sole]).
      congruence.
Qed.

(** C17: a synchronise-and-discard delivers what it planned and loses nothing, by the ledger's
    account.  Let any calls run before the packet, and any calls between the packet and the
    completion of its copies.  Of the bytes of the named resources which the guest was behind on
    and the device was not, the guest's pages are then current exactly in those whose version
    has not moved since the packet; in every other byte they are what they were.  A discard is declined
    exactly when the device is still the only holder of some of its bytes, as after a device
    write in between, and the answer counts those bytes; every other discard is taken, and the
    device keeps what it held outside the discards that were taken.  When nothing has changed in
    the named bytes in between, no discard is declined, the guest holds everything that was
    current anywhere, and the device's copy is gone.  Extents that calls name do not wrap, and
    what a call completes has the form of what [apply] returns ([call_wf], [keeps_apply]). *)
Theorem synchronize_and_discard_delivers cs s k rs e s1 cs' s2 :
  Forall call_wf cs → lc_run lifecycle_new cs = Some s → lc_apply (SynchronizeAndDiscard k rs) s = Some (inl e, s1) →
  Forall call_wf cs' → lc_run s1 cs' = Some s2 →
  ∃ declined s3, lc_complete e s2 = Some (inl declined, s3) ∧ tasks s3 = tasks s2 ∧
    (∀ b x, names_byte s k rs b x ∧ behind (content s) b x →
      (fresh_at (content s3) b GuestPages x = true ↔ current (content s2) b x = current (content s) b x)) ∧
    (∀ b x, ¬ (names_byte s k rs b x ∧ behind (content s) b x) → fresh_at (content s3) b GuestPages x = fresh_at (content s2) b GuestPages x) ∧
    (∀ d, d ∈ declined ↔ ∃ id r sole, kept_back s s2 s3 k rs id r sole ∧ d = mkDeclined id (res_backing r) (RangeSet.len sole)) ∧
    (∀ b x, fresh_at (content s3) b DeviceOwned x = true ↔ fresh_at (content s2) b DeviceOwned x = true ∧
      ∀ id r, id ∈ rs → resident_at s k id = Some r → res_backing r = b → within (res_extent r) x = true → ∃ sole, kept_back s s2 s3 k rs id r sole) ∧
    ((∀ b x, names_byte s k rs b x → current (content s2) b x = current (content s) b x ∧ ∀ r, fresh_at (content s2) b r x = fresh_at (content s) b r x) →
      declined = [] ∧ ∀ b x, names_byte s k rs b x →
        fresh_at (content s3) b GuestPages x = fresh_at (content s) b GuestPages x || fresh_at (content s) b DeviceOwned x ∧
        fresh_at (content s3) b DeviceOwned x = false).
Proof.
  intros Hcs Hr Ha Hcs' Hr'. destruct (packet_completes cs s k rs e s1 cs' s2 Hcs Hr Ha Hcs' Hr') as (dcl & s3 & Ec & Et & Hg & Hdec & Hd).
  exists dcl, s3. split_and!; [done|done|..|done|done|by apply undisturbed]; intros b x Hb; by destruct (Hg b x) as [[? ?]|[? ?]].
Qed.

(** The device draws into a window of the surface, and the guest asks for it back.  Between the
    packet and its completion the device draws some of it again. *)
Definition demo_drawn : list lc_call :=
  [LApply (DefineTask 1 false 16); LApply (CreateResource 1 3 (Dedicated 700 demo_surface)); LRecordWrite 1 (mkResourceId 3 1) 1024 512 DeviceOwned].
Definition demo_drawn_state : Lifecycle := state_of (lc_run lifecycle_new demo_drawn).
Definition demo_redraw : list lc_call := [LRecordWrite 1 (mkResourceId 3 1) 1024 256 DeviceOwned].
Definition demo_packet : Effects * Lifecycle :=
  match lc_apply (SynchronizeAndDiscard 1 [mkResourceId 3 1]) demo_drawn_state with Some (inl e, s1) => (e, s1) | _ => (no_effects, lifecycle_new) end.
Definition demo_redrawn : Lifecycle := state_of (lc_run demo_packet.2 demo_redraw).
Lemma demo_drawn_wf : Forall call_wf demo_drawn ∧ Forall call_wf demo_redraw.
Proof. split; repeat constructor; cbn; unfold UINT64_MAX; lia. Qed.
Lemma demo_named x : within demo_surface x = true → names_byte demo_drawn_state 1 [mkResourceId 3 1] 700 x.
Proof. intros Hx. exists (mkResourceId 3 1), (RDedicated 700 demo_surface). split; [left|]. split; [vm_compute; reflexivity|]. by split. Qed.
Lemma synchronize_and_discard_delivers_witness :
  fresh_at (content demo_drawn_state) 700 GuestPages 1100 = false ∧ t_bytes <$> transfers demo_packet.1 = [[mkByteRange 1024 512]] ∧
  (∃ s3, lc_complete demo_packet.1 demo_packet.2 = Some (inl [], s3) ∧ fresh_at (content s3) 700 GuestPages 1100 = true) ∧
  ∃ s3, lc_complete demo_packet.1 demo_redrawn = Some (inl [mkDeclined (mkResourceId 3 1) 700 256], s3) ∧
    fresh_at (content s3) 700 GuestPages 1400 = true ∧ fresh_at (content s3) 700 GuestPages 1100 = false.
Proof.
  destruct demo_drawn_wf as [Hok Hok'].
  assert (lc_run lifecycle_new demo_drawn = Some demo_drawn_state) as Hr by (vm_compute; reflexivity).
  assert (lc_apply (SynchronizeAndDiscard 1 [mkResourceId 3 1]) demo_drawn_state = Some (inl demo_packet.1, demo_packet.2)) as Ha by (vm_compute; reflexivity).
  assert (lc_run demo_packet.2 demo_redraw = Some demo_redrawn) as Hr' by (vm_compute; reflexivity).
  assert (backings (content demo_packet.2) = backings (content demo_drawn_state)) as Eb by (vm_compute; reflexivity).
  split; [vm_compute; reflexivity|]. split; [vm_compute; reflexivity|]. split.
  - destruct (synchronize_and_discard_delivers demo_drawn demo_drawn_state 1 [mkResourceId 3 1] demo_packet.1 demo_packet.2 [] demo_packet.2 Hok Hr Ha (Forall_nil_2 _) eq_refl)
      as (dcl & s3 & Hc & _ & _ & _ & _ & _ & Hx). destruct Hx as [-> Hx]. { intros b x _. unfold current, fresh_at. rewrite Eb. split; reflexivity. }
    exists s3. split; [exact Hc|]. destruct (Hx 700 1100 (demo_named 1100 eq_refl)) as [-> _]. vm_compute. reflexivity.
  - destruct (synchronize_and_discard_delivers demo_drawn demo_drawn_state 1 [mkResourceId 3 1] demo_packet.1 demo_packet.2 demo_redraw demo_redrawn Hok Hr Ha Hok' Hr')
      as (dcl & s3 & Hc & _ & Hm & _).
    assert (fst <$> lc_complete demo_packet.1 demo_redrawn = Some (inl [mkDeclined (mkResourceId 3 1) 700 256])) as Ed by (vm_compute; reflexivity).
    rewrite Hc in Ed. injection Ed as ->. exists s3. split; [exact Hc|].
    assert (∀ x, within demo_surface x = true → behind (content demo_drawn_state) 700 x → fresh_at (content s3) 700 GuestPages x = true ↔
      current (content demo_redrawn) 700 x = current (content demo_drawn_state) 700 x) as Hb by (intros x H1 H2; exact (Hm 700 x (conj (demo_named x H1) H2))).
    split; [apply Hb; [reflexivity|split; vm_compute; reflexivity|vm_compute; reflexivity]|].
    apply not_true_iff_false. rewrite Hb; [vm_compute; discriminate|reflexivity|split; vm_compute; reflexivity].
Defined.
