(* ===== verification/LifecycleOps.v ===== *)
(** From packets to lifecycle operations: the kinds, accesses and joins of
    src/reims-vgpu/crates/reims-vgpu-core/src/lifecycle.rs, the destroy records of
    reims-vgpu-protocol/src/destroy.rs and the payload of reims-vgpu-core/src/transaction.rs.

    A join decodes a packet's bytes, binds the references in it to the names of the task the
    packet itself names, and gives an operation or a refusal; [None] is a panic of a decoder.
    The resolvers are arguments, as they are in the source.  The operations are then applied
    to the owner of [Lifecycle] that resolved them. *)
From Stdlib Require Import ZifyBool.
From S2P Require Import Prelude Wire Fifo Packets RangeSet Coverage Content Access Namespace Heaps Lifecycle.

(** ** Kinds *)
Inductive LifecycleKind :=
  | LkDefineTask | LkDeleteTask | LkSetObjectList | LkDeleteResource | LkMapMemory | LkUnmapMemory | LkReplacePhysical | LkInvalidate
  | LkSynchronize | LkSynchronizeAndDiscard | LkDiscard | LkDeleteBacking | LkDeleteObject.
#[export] Instance LifecycleKind_eq_dec : EqDecision LifecycleKind.
Proof. solve_decision. Defined.
Definition lifecycle_kind_of (channel : Channel) (opcode : Z) : option LifecycleKind :=
  if negb (bool_decide (classify channel opcode = Some ResourceLifecycle)) then None
  else
    if opcode =? 0x38 then Some LkDefineTask
    else if opcode =? 0x20 then Some LkDeleteTask
    else if opcode =? 0x33 then Some LkSetObjectList
    else
      match channel with
      | Root => None
      | Child =>
          if opcode =? 0x25 then Some LkDeleteResource
          else if opcode =? 0x39 then Some LkMapMemory
          else if opcode =? 0x22 then Some LkUnmapMemory
          else if opcode =? 0x3c then Some LkReplacePhysical
          else if opcode =? 0x34 then Some LkInvalidate
          else if opcode =? 0x35 then Some LkSynchronize
          else if opcode =? 0x3e then Some LkSynchronizeAndDiscard
          else if opcode =? 0x3f then Some LkDiscard
          else if opcode =? 0x36 then Some LkDeleteBacking
          else if opcode =? 0x28 then Some LkDeleteObject
          else None
      end.
Definition resource_list_record_len (k : LifecycleKind) : option nat :=
  match k with
  | LkInvalidate => Some CHILD_INVALIDATE_RECORD_LEN
  | LkSynchronize | LkSynchronizeAndDiscard | LkDiscard => Some CHILD_SYNCHRONIZE_RECORD_LEN
  | _ => None
  end.

(** ** What an operation says of itself *)
Definition op_kind (op : LifecycleOp) : LifecycleKind :=
  match op with
  | DefineTask _ _ _ => LkDefineTask
  | DeleteTask _ => LkDeleteTask
  | BindObjectList _ _ | CreateResource _ _ _ => LkSetObjectList
  | DeleteResource _ _ _ => LkDeleteResource
  | MapMemory _ _ => LkMapMemory
  | UnmapMemory _ _ => LkUnmapMemory
  | ReplacePhysical _ _ _ _ => LkReplacePhysical
  | Invalidate _ _ => LkInvalidate
  | Synchronize _ _ => LkSynchronize
  | SynchronizeAndDiscard _ _ => LkSynchronizeAndDiscard
  | Discard _ _ => LkDiscard
  | DeleteBacking _ _ _ => LkDeleteBacking
  | DeleteObject _ _ _ _ => LkDeleteObject
  end.
Definition op_resources (op : LifecycleOp) : list ResourceId :=
  match op with
  | Invalidate _ rs | Synchronize _ rs | SynchronizeAndDiscard _ rs | Discard _ rs => rs
  | ReplacePhysical _ r _ _ => [r]
  | DeleteObject _ _ r _ | DeleteResource _ _ r => option_list r
  | _ => []
  end.
Definition declared_access (op : LifecycleOp) : option AccessMode :=
  match op with
  | Invalidate _ _ | Synchronize _ _ | SynchronizeAndDiscard _ _ => Some Write
  | Discard _ _ | DeleteResource _ _ _ | ReplacePhysical _ _ _ _ | DeleteObject _ _ _ _ => Some Unknown
  | _ => None
  end.
Definition op_task (op : LifecycleOp) : Z :=
  match op with
  | DefineTask task _ _ | DeleteTask task | BindObjectList task _ | CreateResource task _ _ | DeleteResource task _ _ | MapMemory task _
  | UnmapMemory task _ | ReplacePhysical task _ _ _ | Invalidate task _ | Synchronize task _ | SynchronizeAndDiscard task _ | Discard task _
  | DeleteBacking task _ _ | DeleteObject task _ _ _ => task
  end.

(** ** Destroy records *)
Definition destroy_kind_of (opcode : Z) : option DestroyKind :=
  if opcode =? 0x3e8 then Some KBuffer
  else if opcode =? 0x3e9 then Some KTexture
  else if opcode =? 0x3ea then Some KDepthStencilState
  else if opcode =? 0x3eb then Some KSamplerState
  else if opcode =? 0x3ed then Some KFunction
  else if opcode =? 0x3ee then Some KComputePipelineState
  else if opcode =? 0x3ef then Some KRenderPipelineState
  else if opcode =? 0x3f1 then Some KFence
  else if opcode =? 0x3f4 then Some KHeap
  else if opcode =? 0x3f6 then Some KRasterizationRateMap
  else if opcode =? 0x3f7 then Some KIndirectCommandBuffer
  else None.
Definition destroy_opcode (k : DestroyKind) : Z :=
  match k with
  | KBuffer => 0x3e8 | KTexture => 0x3e9 | KDepthStencilState => 0x3ea | KSamplerState => 0x3eb | KFunction => 0x3ed
  | KComputePipelineState => 0x3ee | KRenderPipelineState => 0x3ef | KFence => 0x3f1 | KHeap => 0x3f4 | KRasterizationRateMap => 0x3f6
  | KIndirectCommandBuffer => 0x3f7
  end.
(** The rows of the serializer's ledger that a destroy opcode finds. *)
Definition destroy_rows : list (Z * Closure) :=
  [(0x3e8, Unresolved); (0x3e9, Unresolved); (0x3ea, Implemented); (0x3eb, Implemented); (0x3ed, ProvenNoOp); (0x3ee, ProvenNoOp);
   (0x3ef, Implemented); (0x3f1, Implemented); (0x3f4, Unresolved); (0x3f6, Unresolved); (0x3f7, Unresolved)].
Definition settled (k : DestroyKind) : bool :=
  match List.find (λ row, row.1 =? destroy_opcode k) destroy_rows with
  | Some row => negb (blocks_cutover row.2)
  | None => false
  end.
Record Destroy := mkDestroy { de_kind : DestroyKind; de_ref : Z }.
Inductive DestroyRefusal := NotARecord | NotADestroy (opcode : Z) | UnclaimedOpcode (opcode : Z) | RefUnreadable (opcode : Z).
(** [view::<Delete>] of the record's body: four bytes, and more are ignored. *)
Definition delete_view (payload : list Z) : Z + WireError :=
  if (length payload <? 4)%nat then inr (Short 4 (length payload)) else inl (le_val (slice 0 4 payload)).
Definition decode_destroy (record : list Z) : option (Destroy + DestroyRefusal) :=
  match op record 0 with
  | None => None
  | Some (inr _) => Some (inr NotARecord)
  | Some (inl op) =>
      let opc := opcode (op_header op) in
      match destroy_kind_of opc with
      | None => Some (inr (if (0x3e8 <=? opc) && (opc <=? 0x3f7) then UnclaimedOpcode opc else NotADestroy opc))
      | Some kind =>
          match delete_view (op_payload op) with
          | inr _ => Some (inr (RefUnreadable opc))
          | inl object_ref => Some (inl (mkDestroy kind object_ref))
          end
      end
  end.

(** ** Joins *)
Inductive JoinRefusal :=
  | NotAResourceList (kind : LifecycleKind) | JPayload (e : ResourceListDecodeError) | UnknownRef (object_ref : Z)
  | NotAnObjectReference (kind : LifecycleKind) | NeedsStorage (kind : LifecycleKind) (task : Z) (resource : ResourceId)
  | NotABackingRetirement (kind : LifecycleKind) | NotAnObjectDestroy (kind : LifecycleKind) | JDestroy (e : DestroyRefusal)
  | UnsettledDestroy (kind : DestroyKind) | NotAMapNotice (kind : LifecycleKind) | NotATaskLifetime (kind : LifecycleKind)
  | ShortNotice (e : ShortPayload) | UnestablishedValidityOps (object_ref ops : Z).
(** [decode(payload).map_err(wrap)?] and then the rest. *)
Definition decoding {A B E} (r : option (A + E)) (wrap : E → JoinRefusal) (f : A → option (B + JoinRefusal)) : option (B + JoinRefusal) :=
  match r with None => None | Some (inr e) => Some (inr (wrap e)) | Some (inl a) => f a end.
Definition all_or {A B} (r : A + JoinRefusal) (f : A → B) : option (B + JoinRefusal) :=
  match r with inl a => Some (inl (f a)) | inr e => Some (inr e) end.

Definition task_lifetime (kind : LifecycleKind) (payload : list Z) : option (LifecycleOp + JoinRefusal) :=
  match kind with
  | LkDefineTask =>
      decoding (decode_define_task payload) ShortNotice (λ c,
        Some (inl (DefineTask (dt_task (dt_id c)) (dt_kernel (dt_id c)) (dt_directory_pfn c))))
  | LkDeleteTask => decoding (decode_delete_task payload) ShortNotice (λ task, Some (inl (DeleteTask task)))
  | _ => Some (inr (NotATaskLifetime kind))
  end.
Definition object_list_bind (kind : LifecycleKind) (payload : list Z) : option (LifecycleOp + JoinRefusal) :=
  if negb (bool_decide (kind = LkSetObjectList)) then Some (inr (NotATaskLifetime kind))
  else decoding (decode_set_object_list payload) ShortNotice (λ c, Some (inl (BindObjectList (sol_task c) (mkObjectList (sol_pfn c) (sol_count c))))).
Definition map_notice (kind : LifecycleKind) (payload : list Z) : option (LifecycleOp + JoinRefusal) :=
  match kind with
  | LkMapMemory | LkUnmapMemory =>
      decoding (decode_map_memory payload) ShortNotice (λ c,
        let span := mkGuestSpan (mm_gva c) (mm_length c) in
        Some (inl (match kind with LkUnmapMemory => UnmapMemory (mm_task c) span | _ => MapMemory (mm_task c) span end)))
  | _ => Some (inr (NotAMapNotice kind))
  end.
Definition backing_retirement (mappings : Z → option Z) (kind : LifecycleKind) (payload : list Z) : option (LifecycleOp + JoinRefusal) :=
  if negb (bool_decide (kind = LkDeleteBacking)) then Some (inr (NotABackingRetirement kind))
  else decoding (decode_delete_backing payload) ShortNotice (λ c, Some (inl (DeleteBacking (db_task c) (db_object c) (mappings (db_object c))))).
Definition object_reference (objects : Z → Z → option ResourceId) (kind : LifecycleKind) (payload : list Z) : option (LifecycleOp + JoinRefusal) :=
  match kind with
  | LkDeleteResource | LkReplacePhysical =>
      decoding (decode_task_object payload) ShortNotice (λ c,
        let resource := objects (to_task c) (to_object c) in
        match kind with
        | LkDeleteResource => Some (inl (DeleteResource (to_task c) (to_object c) resource))
        | _ => Some (inr match resource with Some r => NeedsStorage kind (to_task c) r | None => UnknownRef (to_object c) end)
        end)
  | _ => Some (inr (NotAnObjectReference kind))
  end.
Definition object_destroy (objects : Z → Z → option ResourceId) (kind : LifecycleKind) (payload : list Z) : option (LifecycleOp + JoinRefusal) :=
  if negb (bool_decide (kind = LkDeleteObject)) then Some (inr (NotAnObjectDestroy kind))
  else
    decoding (decode_delete_object payload) (λ e, ShortNotice (delete_short e)) (λ c,
      decoding (decode_destroy (do_record c)) JDestroy (λ record,
        if negb (settled (de_kind record)) then Some (inr (UnsettledDestroy (de_kind record)))
        else Some (inl (DeleteObject (do_task c) (de_ref record) (objects (do_task c) (de_ref record)) (de_kind record))))).

(** Each record asks for the one established move, or the packet refuses. *)
Fixpoint guest_written (records : list InvalidateResourceRecord) : list Z + JoinRefusal :=
  match records with
  | [] => inl []
  | r :: records =>
      if negb (is_guest_write (ir_ops r)) then inr (UnestablishedValidityOps (ir_object r) (ir_flags r))
      else match guest_written records with inl refs => inl (ir_object r :: refs) | inr e => inr e end
  end.
Fixpoint bind_refs (objects : Z → Z → option ResourceId) (task : Z) (refs : list Z) : list ResourceId + JoinRefusal :=
  match refs with
  | [] => inl []
  | ref :: refs =>
      match objects task ref with
      | None => inr (UnknownRef ref)
      | Some r => match bind_refs objects task refs with inl rs => inl (r :: rs) | inr e => inr e end
      end
  end.
Definition list_operation (kind : LifecycleKind) (task : Z) (rs : list ResourceId) : LifecycleOp + JoinRefusal :=
  match kind with
  | LkInvalidate => inl (Invalidate task rs)
  | LkSynchronize => inl (Synchronize task rs)
  | LkSynchronizeAndDiscard => inl (SynchronizeAndDiscard task rs)
  | LkDiscard => inl (Discard task rs)
  | _ => inr (NotAResourceList kind)
  end.
Definition resource_list (objects : Z → Z → option ResourceId) (kind : LifecycleKind) (payload : list Z) : option (LifecycleOp + JoinRefusal) :=
  match resource_list_record_len kind with
  | None => Some (inr (NotAResourceList kind))
  | Some record_len =>
      decoding
        (if (record_len =? CHILD_INVALIDATE_RECORD_LEN)%nat then
           decoding (decode_invalidate_resources payload) JPayload (λ c, all_or (guest_written (inv_records c)) (λ refs, (inv_task c, refs)))
         else decoding (decode_synchronize_resources payload) JPayload (λ c, Some (inl (sync_task c, sync_objects c))))
        id (λ c,
        decoding (Some (bind_refs objects c.1 c.2)) id (λ rs, Some (list_operation kind c.1 rs)))
  end.
#[export] Instance InvalidateValidityOps_eq_dec : EqDecision InvalidateValidityOps.
Proof. solve_decision. Defined.
Definition no_move : InvalidateValidityOps := mkOps 0 0 0 0.
(** The table beside GPU work: a record with no operation set asks for nothing. *)
Fixpoint exec_moves (objects : Z → Z → option ResourceId) (task : Z) (table : list ExecResourceDesc) : list ResourceId + JoinRefusal :=
  match table with
  | [] => inl []
  | d :: table =>
      if bool_decide (ed_ops d = no_move) then exec_moves objects task table
      else if negb (is_guest_write (ed_ops d)) then inr (UnestablishedValidityOps (ed_object d) (to_le_dword (ed_ops d)))
      else
        match objects task (ed_object d) with
        | None => inr (UnknownRef (ed_object d))
        | Some r => match exec_moves objects task table with inl rs => inl (r :: rs) | inr e => inr e end
        end
  end.
Definition exec_resource_table (objects : Z → Z → option ResourceId) (payload : list Z) : option (LifecycleOp + JoinRefusal) :=
  decoding (decode_exec_header payload) ShortNotice (λ header,
    decoding (decode_exec_resource_table payload) JPayload (λ table, all_or (exec_moves objects (eh_task header) table) (Invalidate (eh_task header)))).

Definition operation (objects : Z → Z → option ResourceId) (mappings : Z → option Z) (kind : LifecycleKind) (payload : list Z) :
    option (LifecycleOp + JoinRefusal) :=
  match kind with
  | LkDefineTask | LkDeleteTask => task_lifetime kind payload
  | LkDeleteResource | LkReplacePhysical => object_reference objects kind payload
  | LkMapMemory | LkUnmapMemory => map_notice kind payload
  | LkDeleteBacking => backing_retirement mappings kind payload
  | LkInvalidate | LkSynchronize | LkSynchronizeAndDiscard | LkDiscard => resource_list objects kind payload
  | LkSetObjectList => object_list_bind kind payload
  | LkDeleteObject => object_destroy objects kind payload
  end.
Definition task_named (kind : LifecycleKind) (payload : list Z) : option (Z + JoinRefusal) :=
  match kind with
  | LkDefineTask => decoding (decode_define_task payload) ShortNotice (λ c, Some (inl (dt_task (dt_id c))))
  | LkDeleteTask => decoding (decode_delete_task payload) ShortNotice (λ task, Some (inl task))
  | LkDeleteResource | LkReplacePhysical => decoding (decode_task_object payload) ShortNotice (λ c, Some (inl (to_task c)))
  | LkMapMemory | LkUnmapMemory => decoding (decode_map_memory payload) ShortNotice (λ c, Some (inl (mm_task c)))
  | LkDeleteBacking => decoding (decode_delete_backing payload) ShortNotice (λ c, Some (inl (db_task c)))
  | LkSetObjectList => decoding (decode_set_object_list payload) ShortNotice (λ c, Some (inl (sol_task c)))
  | LkDeleteObject => decoding (decode_delete_object payload) (λ e, ShortNotice (delete_short e)) (λ c, Some (inl (do_task c)))
  | LkInvalidate => decoding (decode_invalidate_resources payload) JPayload (λ c, Some (inl (inv_task c)))
  | LkSynchronize | LkSynchronizeAndDiscard | LkDiscard =>
      decoding (decode_synchronize_resources payload) JPayload (λ c, Some (inl (sync_task c)))
  end.

(** ** The payload of a lifecycle transaction *)
Record LifecyclePayload := mkLifecyclePayload { lp_op : LifecycleOp; lp_accesses : list AccessIntent }.
Inductive AccessMismatch := Unnamed (resource : ResourceId) | Unaccessed (resource : ResourceId).
Definition payload_new (op : LifecycleOp) (resolved : list (ResourceId * AccessIntent)) : LifecyclePayload + AccessMismatch :=
  let accepted := inl (mkLifecyclePayload op (snd <$> resolved)) in
  match op_resources op with
  | [] => accepted
  | rs =>
      match List.find (λ x, negb (bool_decide (x.1 ∈ rs))) resolved with
      | Some x => inr (Unnamed x.1)
      | None =>
          match List.find (λ r, negb (existsb (λ x, bool_decide (x.1 = r)) resolved)) rs with
          | Some r => inr (Unaccessed r)
          | None => accepted
          end
      end
  end.

(** ** What the bytes of a packet say

    [reads] gives the layout of each payload; here it is bound to names.  A deletion is bound to
    what its reference resolves to, if to anything. *)
Section Denotes.
Context (objects : Z → Z → option ResourceId) (mappings : Z → option Z).

Definition names (task : Z) (refs : list Z) (rs : list ResourceId) : Prop := Forall2 (λ ref r, objects task ref = Some r) refs rs.
Inductive denotes (p : list Z) : LifecycleKind → LifecycleOp → Prop :=
  | dn_define t k l pfn : reads p KDefineTask (CDefineTask (mkDefineTask (mkTaskId t k) l pfn)) → denotes p LkDefineTask (DefineTask t k pfn)
  | dn_delete_task t : reads p KDeleteTask (CDeleteTask t) → denotes p LkDeleteTask (DeleteTask t)
  | dn_bind t pfn n : reads p KSetObjectList (CSetObjectList (mkSetObjectList t pfn n)) →
      denotes p LkSetObjectList (BindObjectList t (mkObjectList pfn n))
  | dn_map t gva l : reads p KMapMemory (CMapMemory (mkMapMemory t gva l)) → denotes p LkMapMemory (MapMemory t (mkGuestSpan gva l))
  | dn_unmap t gva l : reads p KMapMemory (CMapMemory (mkMapMemory t gva l)) → denotes p LkUnmapMemory (UnmapMemory t (mkGuestSpan gva l))
  | dn_backing m t : reads p KDeleteBacking (CDeleteBacking (mkDeleteBacking m t)) → denotes p LkDeleteBacking (DeleteBacking t m (mappings m))
  | dn_delete t o : reads p KTaskObject (CTaskObject (mkTaskObject t o)) → denotes p LkDeleteResource (DeleteResource t o (objects t o))
  | dn_destroy t k n o rest : settled k = true → is_u32 o → 12 ≤ n → is_u32 n →
      reads p KDeleteObject (CDeleteObject (mkDeleteObject t (le4 (destroy_opcode k) ++ le4 n ++ le4 o ++ rest))) →
      denotes p LkDeleteObject (DeleteObject t o (objects t o) k)
  | dn_invalidate t n records rs : reads p KInvalidate (CInvalidate (mkInv t n records)) → Forall (λ r, is_guest_write (ir_ops r) = true) records →
      names t (ir_object <$> records) rs → denotes p LkInvalidate (Invalidate t rs)
  | dn_list k t n refs rs op : reads p KSynchronize (CSynchronize (mkSync t n refs)) → names t refs rs → k ≠ LkInvalidate →
      list_operation k t rs = inl op → denotes p k op.
(** The table of GPU work says what an invalidate of its written records says. *)
Definition moved (d : ExecResourceDesc) : bool := negb (bool_decide (ed_ops d = no_move)).
Definition table_denotes (p : list Z) (op : LifecycleOp) : Prop :=
  ∃ t n m ds rs, reads p KExecHeader (CExecHeader (mkExecHeader t n m)) ∧ reads p KExecTable (CExecTable ds) ∧
    Forall (λ d, moved d = true → is_guest_write (ed_ops d) = true) ds ∧
    names t (ed_object <$> List.filter moved ds) rs ∧ op = Invalidate t rs.
End Denotes.

(** ** Kinds are exactly the lifecycle packets *)
Definition kind_agrees (p : Row) : bool :=
  eqb (bool_decide (is_Some (lifecycle_kind_of (row_channel p) (row_opcode p))))
    (bool_decide (classify (row_channel p) (row_opcode p) = Some ResourceLifecycle)).
Lemma kinds_agree : forallb kind_agrees LEDGER = true.
Proof. vm_compute. reflexivity. Qed.
(** The table of kinds and the classifier are two tables over one opcode space, and they agree. *)
Lemma lifecycle_kind_exact ch o : is_Some (lifecycle_kind_of ch o) ↔ classify ch o = Some ResourceLifecycle.
Proof.
  destruct (Packets.find ch o) as [p|] eqn:E.
  - apply find_in in E as (Hin & <- & <-). pose proof kinds_agree as H. rewrite forallb_forall in H. apply list_elem_of_In in Hin.
    specialize (H p Hin). apply eqb_prop in H. by rewrite <- (bool_decide_eq_true (is_Some _)), H, bool_decide_eq_true.
  - unfold lifecycle_kind_of, classify. rewrite E. cbn. split; [by intros []|done].
Qed.

(** ** The joins against the layouts *)
Lemma reads_fun p k c c' : reads p k c → reads p k c' → c = c'.
Proof. intros H%reads_decodes H'%reads_decodes. congruence. Qed.
Definition exact_decode {A E} (p : list Z) (k : kind) (f : A → command) (dec : option (A + E)) : Prop :=
  (∃ a, dec = Some (inl a) ∧ reads p k (f a)) ∨ (∃ e, dec = Some (inr e) ∧ ∀ a, ¬ reads p k (f a)).
Lemma both_exact {A E} (f : A → command) (g : E → refusal) (dec : option (A + E)) k p : k ≠ KHeapTexture → Forall is_u8 p → decode_as k p = both f g dec → exact_decode p k f dec.
Proof.
  intros Hk Hp Eq. destruct (payload_reads k p Hp Hk) as (r & Er & H). rewrite Eq in Er. destruct dec as [[a|e]|]; cbn in Er; simplify_eq.
  - left. exists a. split; [done|]. by apply H.
  - right. exists e. split; [done|]. intros a Ha%reads_decodes. rewrite Eq in Ha. done.
Qed.
Lemma destroy_kind_opcode o k : destroy_kind_of o = Some k ↔ o = destroy_opcode k.
Proof.
  unfold destroy_kind_of. split; [|by intros ->; destruct k].
  intros H. repeat (case_match; [simplify_eq; cbn; lia|]). done.
Qed.
Lemma head_of_fields opc n body : is_u32 opc → is_u32 n → head_of (le4 opc ++ le4 n ++ body) = mkHead opc n.
Proof. intros H1 H2. unfold head_of. rewrite slice_start, (slice_mid 4 4) by done. by rewrite !le_val_field. Qed.
(** A record is a destroy exactly when its opcode is a kind's and its body holds a reference. *)
Lemma decode_destroy_exact opc n body : is_u32 opc → is_u32 n → n ≤ 8 + Fifo.len body →
  ∃ r, decode_destroy (le4 opc ++ le4 n ++ body) = Some r ∧
    ∀ k o, r = inl (mkDestroy k o) ↔ opc = destroy_opcode k ∧ 12 ≤ n ∧ o = le_val (take 4 body).
Proof.
  intros H1 H2 Hn. unfold decode_destroy, Fifo.len in *. rewrite op_eq, head_of_fields by done. cbn [hdr_length opcode].
  rewrite !length_app, !length_le_bytes. unfold OP_HEADER_LEN. rewrite (proj2 (Nat.ltb_ge _ _)) by lia.
  destruct (_ || _) eqn:Eb; [eexists; split; [done|]; intros; split; [done|lia]|].
  cbn [op_header op_payload opcode]. rewrite (app_assoc (le4 opc)). unfold slice. rewrite drop_app_length' by done.
  destruct (destroy_kind_of opc) as [k|] eqn:Ek.
  - apply destroy_kind_opcode in Ek as ->. unfold delete_view, slice. rewrite length_take, drop_0, take_take.
    destruct (_ <? 4)%nat eqn:E4; (eexists; split; [done|]).
    + intros k' o. split; [done|]. intros (_ & ? & _). lia.
    + replace (4 `min` _)%nat with 4%nat by lia. intros k' o. split; [intros [= <- <-]; split_and!; [done|lia|done]|].
      intros (Hk & _ & ->). apply destroy_kind_opcode in Hk. rewrite (proj2 (destroy_kind_opcode _ k) eq_refl) in Hk. by simplify_eq.
  - eexists; split; [done|]. intros k o. split; [done|]. intros (Hk%destroy_kind_opcode & _). congruence.
Qed.

Section Joins.
Context (objects : Z → Z → option ResourceId) (mappings : Z → option Z).

Lemma guest_written_exact records refs : guest_written records = inl refs ↔ Forall (λ r, is_guest_write (ir_ops r) = true) records ∧ refs = ir_object <$> records.
Proof.
  revert refs. induction records as [|r records IH]; intros refs; cbn; [split; [intros [= <-]; done|by intros [_ ->]]|]. rewrite Forall_cons.
  destruct (is_guest_write (ir_ops r)); cbn; [|split; [done|by intros [[? _] _]]]. destruct (guest_written records) as [rs|e].
  - destruct (proj1 (IH rs) eq_refl) as [H ->]. split; [by intros [= <-]|]. by intros [_ ->].
  - split; [done|]. intros [[_ H] _]. by pose proof (proj2 (IH _) (conj H eq_refl)).
Qed.
Lemma bind_refs_exact t refs rs : bind_refs objects t refs = inl rs ↔ names objects t refs rs.
Proof.
  unfold names. revert rs. induction refs as [|ref refs IH]; intros rs; cbn; [split; [intros [= <-]; constructor|by intros ->%Forall2_nil_inv_l]|].
  destruct (objects t ref) as [r|] eqn:E; [|split; [done|]; intros (? & ? & ? & _)%Forall2_cons_inv_l; congruence].
  destruct (bind_refs objects t refs) as [rs'|e].
  - split; [intros [= <-]; constructor; [done|by apply IH]|]. intros (r' & l & Hr & Hl & ->)%Forall2_cons_inv_l. apply IH in Hl. congruence.
  - split; [done|]. intros (r' & l & _ & Hl%IH & _)%Forall2_cons_inv_l. done.
Qed.
Lemma exec_moves_exact t ds rs : exec_moves objects t ds = inl rs ↔
  Forall (λ d, moved d = true → is_guest_write (ed_ops d) = true) ds ∧ names objects t (ed_object <$> List.filter moved ds) rs.
Proof.
  rewrite <- bind_refs_exact. revert rs. induction ds as [|d ds IH]; intros rs; cbn; [intuition|]. rewrite Forall_cons.
  unfold moved at 1 3. destruct (bool_decide (ed_ops d = no_move)); cbn; [rewrite IH; split; [intros [? ?]; by repeat split|by intros [[_ ?] ?]]|].
  destruct (is_guest_write (ed_ops d)); cbn; [|split; [done|intros [[H _] _]; by specialize (H eq_refl)]].
  destruct (objects t (ed_object d)) as [r|]; [|split; [done|by intros [_ ?]]].
  destruct (exec_moves objects t ds) as [rs'|e].
  - destruct (proj1 (IH rs') eq_refl) as [H ->]. split; [done|]. by intros [_ ?].
  - split; [done|]. intros [[_ H] Hb]. destruct (bind_refs objects t (ed_object <$> List.filter moved ds)) as [rs'|]; [|done].
    by pose proof (proj2 (IH rs') (conj H eq_refl)).
Qed.
(** A join over one decoder is exact when what follows the decoder is. *)
Definition join_exact (p : list Z) (k : LifecycleKind) (r : option (LifecycleOp + JoinRefusal)) : Prop :=
  ∃ x, r = Some x ∧ ∀ op, x = inl op ↔ denotes objects mappings p k op.
Lemma decoding_exact {A Err} p k K (c : A → command) (dec : option (A + Err)) wrap f : exact_decode p K c dec →
  (∀ a, reads p K (c a) → join_exact p k (f a)) → (∀ op, denotes objects mappings p k op → ∃ a, reads p K (c a)) →
  join_exact p k (decoding dec wrap f).
Proof.
  intros [(a & -> & Hr)|(e & -> & Hr)] Hf Hd; [by apply Hf|]. eexists. split; [done|]. intros op. split; [done|].
  intros (a & Ha)%Hd. by destruct (Hr a).
Qed.
Ltac one_read := intros ? Hden; inversion Hden; subst; eauto; try done.
Ltac settle_op H := eexists; split; [done|]; intros ?; split; [intros [= <-]; by econstructor|]; intros Hden; inversion Hden; subst; try done;
  match goal with H' : reads _ _ _ |- _ => pose proof (reads_fun _ _ _ _ H H') end; by simplify_eq.

Lemma operation_fixed p k : Forall is_u8 p →
  match k with LkInvalidate | LkSynchronize | LkSynchronizeAndDiscard | LkDiscard | LkDeleteObject | LkReplacePhysical => False | _ => True end →
  join_exact p k (operation objects mappings k p).
Proof.
  intros Hp Hk. destruct k; try done; cbn [operation]; unfold task_lifetime, object_list_bind, object_reference, map_notice, backing_retirement; cbn.
  - eapply decoding_exact; [by eapply (both_exact CDefineTask RShort _ KDefineTask)| |one_read]. intros [[t k] l pfn] H. settle_op H.
  - eapply decoding_exact; [by eapply (both_exact CDeleteTask RShort _ KDeleteTask)| |one_read]. intros t H. settle_op H.
  - eapply decoding_exact; [by eapply (both_exact CSetObjectList RShort _ KSetObjectList)| |one_read]. intros [t pfn n] H. settle_op H.
  - eapply decoding_exact; [by eapply (both_exact CTaskObject RShort _ KTaskObject)| |one_read]. intros [t o] H. settle_op H.
  - eapply decoding_exact; [by eapply (both_exact CMapMemory RShort _ KMapMemory)| |one_read]. intros [t g l] H. settle_op H.
  - eapply decoding_exact; [by eapply (both_exact CMapMemory RShort _ KMapMemory)| |one_read]. intros [t g l] H. settle_op H.
  - eapply decoding_exact; [by eapply (both_exact CDeleteBacking RShort _ KDeleteBacking)| |one_read]. intros [o t] H. settle_op H.
Qed.
Lemma replace_physical_join p : Forall is_u8 p → join_exact p LkReplacePhysical (operation objects mappings LkReplacePhysical p).
Proof.
  intros Hp. cbn [operation]. unfold object_reference. eapply decoding_exact; [by eapply (both_exact CTaskObject RShort _ KTaskObject)| |one_read].
  intros c H. eexists. split; [done|]. intros op. split; [done|]. intros Hden. by inversion Hden.
Qed.
Lemma record_fields opc n body opc' n' body' : is_u32 opc → is_u32 n → is_u32 opc' → is_u32 n' →
  le4 opc ++ le4 n ++ body = le4 opc' ++ le4 n' ++ body' → opc = opc' ∧ n = n' ∧ body = body'.
Proof.
  intros H1 H2 H3 H4 E. pose proof (f_equal head_of E) as Eh. rewrite !head_of_fields in Eh by done. injection Eh as -> ->.
  by apply app_inv_head, app_inv_head in E.
Qed.
Lemma first_word body : Forall is_u8 body → (4 ≤ length body)%nat → body = le4 (le_val (take 4 body)) ++ drop 4 body ∧ is_u32 (le_val (take 4 body)).
Proof.
  intros Hb Hl. pose proof (slice_field 0 4 body Hb ltac:(lia)) as E. pose proof (le_val_slice 0 4 body Hb ltac:(lia)) as R. unfold slice in *.
  rewrite drop_0 in *. split; [by rewrite E, take_drop|done].
Qed.
Lemma destroy_opcode_u32 k : is_u32 (destroy_opcode k).
Proof. by destruct k. Qed.
Lemma reads_delete_object p c : reads p KDeleteObject (CDeleteObject c) → ∃ t opc n body,
  c = mkDeleteObject t (le4 opc ++ le4 n ++ body) ∧ is_u32 opc ∧ is_u32 n ∧ n ≤ 8 + Fifo.len body ∧ p = le4 t ++ le4 opc ++ le4 n ++ body.
Proof. intros H. inversion H. subst. eauto 12. Qed.
Lemma reads_delete_object_fun p t record t' record' : reads p KDeleteObject (CDeleteObject (mkDeleteObject t record)) →
  reads p KDeleteObject (CDeleteObject (mkDeleteObject t' record')) → t = t' ∧ record = record'.
Proof. intros H H'. pose proof (reads_fun _ _ _ _ H H') as E. by injection E. Qed.
Lemma destroy_join p : Forall is_u8 p → join_exact p LkDeleteObject (operation objects mappings LkDeleteObject p).
Proof.
  intros Hp. cbn [operation]. unfold object_destroy. cbn.
  eapply decoding_exact; [by eapply (both_exact CDeleteObject RDeleteObject _ KDeleteObject)| |one_read].
  intros c H. destruct (reads_delete_object p c H) as (t & opc & n & body & -> & Ho & Hn & Hl & Ep). cbn [do_task do_record].
  assert (Forall is_u8 body) as Hb by (rewrite Ep in Hp; repeat apply Forall_app in Hp as [_ Hp]; done).
  destruct (decode_destroy_exact opc n body Ho Hn Hl) as (r & E & Hd). rewrite E.
  assert (∀ op, denotes objects mappings p LkDeleteObject op → ∃ k o, r = inl (mkDestroy k o) ∧ settled k = true ∧ op = DeleteObject t o (objects t o) k) as Hback.
  { intros op Hden. inversion Hden as [| | | | | | |t' k n' o rest Hs Hou Hn12 Hn' H'| |]; subst; [|done]. destruct (reads_delete_object_fun _ _ _ _ _ H H') as [<- Eq].
    apply record_fields in Eq as (-> & -> & ->); [|done|done|apply destroy_opcode_u32|done]. exists k, o. split; [|done]. apply Hd. split_and!; [done|done|].
    rewrite take_app_length' by done. by rewrite le_val_field. }
  destruct r as [[k o]|e]; cbn.
  - destruct (proj1 (Hd k o) eq_refl) as (-> & Hn12 & ->). destruct (settled k) eqn:Es; cbn; (eexists; split; [done|]; intros op; split; [|intros (k' & o' & [= <- <-] & ? & ->)%Hback; congruence]); [|done].
    intros [= <-]. unfold Fifo.len in Hl. destruct (first_word body Hb ltac:(lia)) as [Eb Hr]. eapply dn_destroy; [done|done|exact Hn12|done|]. by rewrite <- Eb.
  - eexists. split; [done|]. intros op. split; [done|]. by intros (k & o & ? & _)%Hback.
Qed.
Lemma decoding_decoding {A B C Err} (r : option (A + Err)) wrap (f : A → option (B + JoinRefusal)) (g : B → option (C + JoinRefusal)) :
  decoding (decoding r wrap f) id g = decoding r wrap (λ a, decoding (f a) id g).
Proof. by destruct r as [[]|]. Qed.
Lemma invalidate_join p : Forall is_u8 p → join_exact p LkInvalidate (operation objects mappings LkInvalidate p).
Proof.
  intros Hp. cbn [operation]. unfold resource_list. cbn [resource_list_record_len Nat.eqb CHILD_INVALIDATE_RECORD_LEN]. rewrite decoding_decoding.
  eapply decoding_exact; [by eapply (both_exact CInvalidate RList _ KInvalidate)| |one_read]. intros [t n records] H. cbn.
  pose proof (guest_written_exact records) as Hg. pose proof (bind_refs_exact t (ir_object <$> records)) as Hb.
  assert (∀ op, denotes objects mappings p LkInvalidate op → ∃ rs, Forall (λ r, is_guest_write (ir_ops r) = true) records ∧ names objects t (ir_object <$> records) rs ∧ op = Invalidate t rs) as Hback.
  { intros op Hden. inversion Hden as [| | | | | | | |t' n' records' rs H' Hw Hn|]; subst; [|done]. pose proof (reads_fun _ _ _ _ H H') as Eq. simplify_eq. eauto. }
  destruct (guest_written records) as [refs|e]; cbn.
  - destruct (proj1 (Hg refs) eq_refl) as [Hw ->]. destruct (bind_refs _ _ _) as [rs|e]; cbn; (eexists; split; [done|]; intros op).
    + split; [intros [= <-]; econstructor; [done|done|by apply Hb]|]. intros (rs' & _ & Hr%Hb & ->)%Hback. congruence.
    + split; [done|]. by intros (rs' & _ & Hr%Hb & ->)%Hback.
  - eexists; split; [done|]; intros op. split; [done|]. intros (rs' & Hw & _ & _)%Hback. by pose proof (proj2 (Hg _) (conj Hw eq_refl)).
Qed.
Lemma synchronize_join p k : Forall is_u8 p → resource_list_record_len k = Some CHILD_SYNCHRONIZE_RECORD_LEN →
  join_exact p k (operation objects mappings k p).
Proof.
  intros Hp Hk. assert (operation objects mappings k p = resource_list objects k p) as -> by (by destruct k).
  unfold resource_list. rewrite Hk. cbn [Nat.eqb CHILD_INVALIDATE_RECORD_LEN CHILD_SYNCHRONIZE_RECORD_LEN]. rewrite decoding_decoding.
  eapply decoding_exact; [by eapply (both_exact CSynchronize RList _ KSynchronize)| |]; [|intros op Hden; inversion Hden; subst; try done; eauto].
  intros [t n refs] H. cbn. pose proof (bind_refs_exact t refs) as Hb.
  assert (∀ op, denotes objects mappings p k op → ∃ rs, names objects t refs rs ∧ list_operation k t rs = inl op) as Hback.
  { intros op Hden. inversion Hden as [| | | | | | | | |k' t' n' refs' rs op' H' Hn _ Hop]; subst; try done. pose proof (reads_fun _ _ _ _ H H') as Eq. simplify_eq. eauto. }
  destruct (bind_refs objects t refs) as [rs|e]; cbn; (eexists; split; [done|]; intros op).
  - split; [intros Hop; eapply dn_list; [done|by apply Hb|by intros ->|done]|]. intros (rs' & Hr%Hb & Hop)%Hback. congruence.
  - split; [done|]. by intros (rs' & Hr%Hb & _)%Hback.
Qed.
Lemma operation_join p k : Forall is_u8 p → join_exact p k (operation objects mappings k p).
Proof.
  intros Hp. destruct k; first [by apply operation_fixed|by apply invalidate_join|by apply synchronize_join|by apply destroy_join|by apply replace_physical_join].
Qed.
Lemma table_join p : Forall is_u8 p → ∃ x, exec_resource_table objects p = Some x ∧ ∀ op, x = inl op ↔ table_denotes objects p op.
Proof.
  intros Hp. unfold exec_resource_table.
  assert (exact_decode p KExecHeader CExecHeader (decode_exec_header p)) as [(c & -> & H)|(e & -> & H)] by (by eapply (both_exact CExecHeader RShort)).
  2:{ eexists. split; [done|]. intros op. split; [done|]. intros (t & n & m & ds & rs & Hh & _). by destruct (H _ Hh). }
  assert (exact_decode p KExecTable CExecTable (decode_exec_resource_table p)) as [(ds & -> & H')|(e & -> & H')] by (by eapply (both_exact CExecTable RList)).
  2:{ eexists. split; [done|]. intros op. split; [done|]. intros (t & n & m & ds & rs & _ & Ht & _). by destruct (H' _ Ht). }
  destruct c as [t n m]. cbn. pose proof (exec_moves_exact t ds) as Hm.
  assert (∀ op, table_denotes objects p op → ∃ rs, exec_moves objects t ds = inl rs ∧ op = Invalidate t rs) as Hback.
  { intros op (t' & n' & m' & ds' & rs & Hh & Ht & Hw & Hn & ->). pose proof (reads_fun _ _ _ _ H Hh) as Eq. pose proof (reads_fun _ _ _ _ H' Ht) as Eq'.
    simplify_eq. exists rs. split; [by apply Hm|done]. }
  destruct (exec_moves objects t ds) as [rs|e]; cbn; (eexists; split; [done|]; intros op); (split; [|by intros (rs' & [= <-] & ->)%Hback]); [|done].
  intros [= <-]. destruct (proj1 (Hm rs) eq_refl) as [Hw Hn]. by exists t, n, m, ds, rs.
Qed.
End Joins.

(** ** What an operation from a packet is *)
Lemma names_bound objects t refs rs : names objects t refs rs → Forall (λ r, ∃ ref, objects t ref = Some r) rs.
Proof. intros H. induction H as [|ref r refs rs E _ IH]; constructor; eauto. Qed.
Lemma reads_decoding {A Err} p K (c : A → command) (g : Err → refusal) (dec : option (A + Err)) a wrap (f : A → option (Z + JoinRefusal)) :
  reads p K (c a) → decode_as K p = both c g dec → (∀ a', c a' = c a → a' = a) → decoding dec wrap f = f a.
Proof. intros H%reads_decodes E Hc. rewrite E in H. destruct dec as [[a'|e]|]; cbn in H; simplify_eq. cbn. f_equal. by apply Hc. Qed.
Lemma denotes_itself objects mappings p k op : denotes objects mappings p k op → op_kind op = k ∧ task_named k p = Some (inl (op_task op)).
Proof.
  intros H. destruct H as [t k l pfn H|t H|t pfn n H|t gva l H|t gva l H|m t H|t o H|t k n o rest _ _ _ _ H|t n records rs H _ _|k t n refs rs op H _ Hne Hop].
  all: try (split; [done|]; cbn [task_named op_task]; by rewrite (reads_decoding _ _ _ _ _ _ _ _ H eq_refl) by congruence).
  destruct k; try done; cbn in Hop; simplify_eq; (split; [done|]); cbn [task_named op_task]; by rewrite (reads_decoding _ _ _ _ _ _ _ _ H eq_refl) by congruence.
Qed.
Lemma denotes_bound objects mappings p k op : denotes objects mappings p k op → Forall (λ r, ∃ ref, objects (op_task op) ref = Some r) (op_resources op).
Proof.
  intros H. destruct H as [| | | | | |t o _|t k n o rest _ _ _ _ _|t n records rs _ _ Hn|k t n refs rs op _ Hn _ Hop]; try by constructor.
  - cbn. destruct (objects t o) eqn:E; cbn; repeat constructor. eauto.
  - cbn. destruct (objects t o) eqn:E; cbn; repeat constructor. eauto.
  - by eapply names_bound.
  - apply names_bound in Hn. destruct k; cbn in Hop; by simplify_eq.
Qed.

(** C16: a packet's bytes become an operation exactly.  For each of the thirteen lifecycle packets
    and every string of bytes, no decoder panics, and the join answers with an operation
    exactly when the bytes are, by the layouts, that operation's, with its references bound
    to names of the task the packet itself carries; otherwise it refuses.  A reference that
    resolves to nothing refuses a synchronise, a discard and an invalidate.  It does not refuse
    a deletion: the deletion of an object or of a backing that nothing answers to becomes an
    operation that names none, for its other effects, which is what the code's own comments ask
    and not what the Errors sections of object_reference and backing_retirement list.  A task's
    definition carries its directory frame.  The table of GPU
    work says what an invalidate of the records the guest wrote would.  The operation is of
    the packet's kind, acts in the task that [task_named] reads without a namespace, and names
    only what that task's namespace gave it. *)
Theorem packet_operation_exact objects mappings k p (Hp : Forall is_u8 p) :
  (∃ r, operation objects mappings k p = Some r ∧ ∀ op, r = inl op ↔ denotes objects mappings p k op) ∧
  (∃ r, exec_resource_table objects p = Some r ∧ ∀ op, r = inl op ↔ table_denotes objects p op) ∧
  (∀ op, operation objects mappings k p = Some (inl op) →
    op_kind op = k ∧ task_named k p = Some (inl (op_task op)) ∧ Forall (λ r, ∃ ref, objects (op_task op) ref = Some r) (op_resources op)) ∧
  (∀ t o, objects t o = None → k = LkDeleteResource → reads p KTaskObject (CTaskObject (mkTaskObject t o)) →
    operation objects mappings k p = Some (inl (DeleteResource t o None))) ∧
  (∀ m t, mappings m = None → k = LkDeleteBacking → reads p KDeleteBacking (CDeleteBacking (mkDeleteBacking m t)) →
    operation objects mappings k p = Some (inl (DeleteBacking t m None))).
Proof.
  destruct (operation_join objects mappings p k Hp) as (r & E & Hr). split; [by exists r|]. split; [by apply table_join|]. split; [|split].
  - intros op Eop. assert (denotes objects mappings p k op) as Hd by (apply Hr; congruence).
    destruct (denotes_itself _ _ _ _ _ Hd) as [Hk Ht]. split_and!; [done|done|]. by eapply denotes_bound.
  - intros t o Eo -> Hd%(dn_delete objects mappings). rewrite Eo in Hd. apply Hr in Hd. congruence.
  - intros m t Em -> Hd%(dn_backing objects mappings). rewrite Em in Hd. apply Hr in Hd. congruence.
Qed.

(** ** Applying it to the owner that resolved it *)
Definition needs_task (op : LifecycleOp) : bool :=
  match op with DefineTask _ _ _ | DeleteResource _ _ None | DeleteObject _ _ None _ | DeleteBacking _ _ None => false | _ => true end.
(** What the guest asked for, as a reference of a task that still resolves afterwards. *)
Definition survives (s : Lifecycle) (op : LifecycleOp) (t ref : Z) (id : ResourceId) : Prop :=
  match op with
  | DefineTask t0 _ _ | DeleteTask t0 => t ≠ t0
  | DeleteResource t0 ref0 _ | DeleteObject t0 ref0 _ _ => ¬ (t = t0 ∧ ref = ref0)
  | DeleteBacking t0 _ (Some b) => t = t0 → ∀ r, resident_at s t id = Some r → res_backing r ≠ b
  | _ => True
  end.
Definition names_after (s : Lifecycle) (op : LifecycleOp) (s' : Lifecycle) : Prop :=
  ∀ t ref id, task_resource s' t ref = Some id ↔ task_resource s t ref = Some id ∧ survives s op t ref id.
(** An operation whose references the owner resolved. *)
Definition bound_in (s : Lifecycle) (op : LifecycleOp) : Prop :=
  match op with
  | CreateResource _ _ _ | ReplacePhysical _ _ _ _ => False
  | DeleteResource t ref r | DeleteObject t ref r _ => r = task_resource s t ref
  | _ => Forall (λ r, ∃ ref, task_resource s (op_task op) ref = Some r) (op_resources op)
  end.

Lemma task_resource_spec s t ref id : task_resource s t ref = Some id ↔
  slot_ref id = ref ∧ ∃ tk ob, tasks s !! t = Some tk ∧ live_name (tk_namespace tk) id ob.
Proof.
  unfold task_resource. destruct (tasks s !! t) as [tk|]; cbn; [|split; [done|by intros (_ & ? & ? & ? & _)]]. unfold ns_resource, live_name. split.
  - destruct (slots (tk_namespace tk) !! ref) as [sl|] eqn:E; [|done]. destruct (sl_deleted sl) eqn:Ed; [done|]. intros [= <-]. split; [done|].
    exists tk, (sl_backing sl). split; [done|]. by exists sl.
  - intros (<- & tk' & ob & [= <-] & sl & E & Eg & Ed & _). rewrite E, Ed, Eg. by destruct id.
Qed.
Lemma same_tasks_resource s s' t ref : tasks s' = tasks s → task_resource s' t ref = task_resource s t ref.
Proof. unfold task_resource. by intros ->. Qed.
Lemma quiet_resource s s' t ref : quiet s s' → task_resource s' t ref = task_resource s t ref.
Proof.
  intros [_ Hq]. specialize (Hq t). unfold task_resource. destruct (tasks s !! t) as [tk|], (tasks s' !! t) as [tk'|]; try done. cbn.
  unfold ns_resource. by destruct (qt_names _ _ Hq) as (-> & _).
Qed.
Lemma names_kept s op s' : (∀ t ref, task_resource s' t ref = task_resource s t ref) → (∀ t ref id, task_resource s t ref = Some id → survives s op t ref id) →
  names_after s op s'.
Proof. intros E H t ref id. rewrite E. split; [eauto|by intros [? _]]. Qed.
Lemma no_task_refused op s : needs_task op = true → tasks s !! op_task op = None → lc_apply op s = Some (inr (NoSuchTask (op_task op)), s).
Proof.
  intros Hn Ht. destruct op; cbn in Hn, Ht; try done; repeat case_match; try done; cbn; unfold delete_task, bind_object_list, create_resource, delete_resource, remap,
    lc_replace_physical, invalidate, synchronize, lc_discard, resolve_all, delete_backing, mbind, act_bind, the_task; by rewrite Ht.
Qed.
Lemma no_task_names op s : tasks s !! op_task op = None → needs_task op = true → bound_in s op → names_after s op s.
Proof.
  intros Ht Hn Hb. apply names_kept; [done|]. intros t ref id (_ & tk & ob & Et & _)%task_resource_spec. destruct op; cbn in *; try done; repeat case_match; try done;
    try congruence; intros []; congruence.
Qed.
(** One task's names after some of them went. *)
Lemma names_deleted s s' k t t' ids op : tasks s !! k = Some t → tasks s' = <[k := t']> (tasks s) → deleted_to ids t t' →
  (∀ k' ref id, task_resource s k' ref = Some id → survives s op k' ref id ↔ ¬ (k' = k ∧ id ∈ ids)) → names_after s op s'.
Proof.
  intros Et Es Hd Hsur k' ref id.
  assert (task_resource s' k' ref = Some id ↔ task_resource s k' ref = Some id ∧ ¬ (k' = k ∧ id ∈ ids)) as ->.
  { rewrite !task_resource_spec, Es. destruct (decide (k' = k)) as [->|Hne].
    - rewrite lookup_insert_eq, Et. split.
      + intros (Hr & tk & ob & [= <-] & [Hl Hni]%Hd). split; [eauto 6|]. by intros [_ ?].
      + intros [(Hr & tk & ob & [= <-] & Hl) Hni]. split; [done|]. exists t', ob. split; [done|]. apply Hd. split; [done|]. intros ?. by apply Hni.
    - rewrite lookup_insert_ne by done. split; [intros ?; split; [done|by intros []]|by intros [? _]]. }
  split; (intros [H Hs]; split; [done|]); by apply (Hsur _ _ _ H).
Qed.
Lemma resolve_all_live k rs s t : lc_ok s → tasks s !! k = Some t → (∀ id, id ∈ rs → ∃ ob, live_name (tk_namespace t) id ob) →
  wp (resolve_all k rs) s (λ _ s', quiet s s') (λ _ _, False).
Proof.
  intros H Et Hl. unfold resolve_all. apply wp_bind. unfold wp at 1, the_task. rewrite Et.
  destruct (resolve_names t rs (tk_namespace t) []) as [r n'] eqn:Er. apply resolve_names_spec in Er as [Hs Hr]. apply wp_bind. cbn.
  destruct r as [o|e]; cbn; [by apply quiet_put|]. destruct Hr as (id & Hin & Hn). destruct (Hl id Hin) as [ob Hob]. by destruct (Hn ob).
Qed.
(** What runs after the names resolved changes no task. *)
Lemma resolved_names {A} k rs s op (f : list (ResourceId * Resident) → act A) : lc_ok s → is_Some (tasks s !! k) →
  Forall (λ r, ∃ ref, task_resource s k ref = Some r) rs → (∀ t ref id, survives s op t ref id) →
  (∀ out s1, ∃ a s2, f out s1 = Some (inl a, s2) ∧ tasks s2 = tasks s1) →
  wp (x ← resolve_all k rs; f x) s (λ _ s', names_after s op s') (λ _ _, False).
Proof.
  intros H [t Et] Hrs Hsur Hf. apply wp_bind. eapply wp_mono; [eapply resolve_all_live; [done|done|]| |done].
  - intros id Hin. rewrite Forall_forall in Hrs. destruct (Hrs id Hin) as (ref & (_ & tk & ob & Etk & Hl)%task_resource_spec). assert (tk = t) as -> by congruence. eauto.
  - intros out s1 Hq. destruct (Hf out s1) as (a & s2 & E & Es). unfold wp. rewrite E. apply names_kept; [|eauto].
    intros t' ref. rewrite (same_tasks_resource _ _ _ _ Es). by apply quiet_resource.
Qed.
Lemma list_applies k rs s op : lc_ok s → is_Some (tasks s !! k) → Forall (λ r, ∃ ref, task_resource s k ref = Some r) rs →
  (op = Invalidate k rs ∨ op = Synchronize k rs ∨ op = SynchronizeAndDiscard k rs ∨ op = Discard k rs) →
  wp (lc_apply op) s (λ _ s', names_after s op s') (λ _ _, False).
Proof.
  intros H Ht Hrs [->|[->|[->| ->]]]; (apply resolved_names; [done|done|done|done|]; intros out s1).
  - by eexists _, _.
  - unfold mbind, act_bind, on_content. destruct (plan_copies out (content s1)) as [ts l]. by eexists _, _.
  - unfold mbind, act_bind, on_content. destruct (plan_copies out (content s1)) as [ts l]. by eexists _, _.
  - by eexists _, _.
Qed.
Lemma delete_resource_applies k ref id s op : lc_ok s → task_resource s k ref = Some id →
  (∀ t ref' id', survives s op t ref' id' ↔ ¬ (t = k ∧ ref' = ref)) →
  wp (delete_resource k id) s (λ _ s', names_after s op s') (λ _ _, False).
Proof.
  intros H Hr Hsur. destruct (proj1 (task_resource_spec _ _ _ _) Hr) as (<- & tk & ob & Et & Hl). apply delete_resource_wp; [done| |].
  - intros t t' s' td Et' _ Es Hd _. eapply names_deleted; [done|done|done|]. intros k' ref' id' Hr'. rewrite Hsur, list_elem_of_singleton.
    split; intros Hn [-> E]; apply Hn; (split; [done|]); [subst id'; by destruct (proj1 (task_resource_spec _ _ _ _) Hr')|subst ref'; congruence].
  - intros e s' _ Hn. by destruct (Hn _ Et ob).
Qed.
Lemma delete_backing_applies k m b s : lc_ok s → is_Some (tasks s !! k) →
  wp (delete_backing k b) s (λ _ s', names_after s (DeleteBacking k m (Some b)) s') (λ _ _, False).
Proof.
  intros H [t Et]. unfold delete_backing. apply wp_bind. unfold wp at 1, the_task. rewrite Et.
  apply wp_bind. eapply (delete_each_wp k _ no_effects s t); [done|done|..].
  - apply NoDup_ListNoDup, List.NoDup_filter, NoDup_ListNoDup, live_names_NoDup.
  - intros id Hin. apply live_names_spec. by apply list_elem_of_In, filter_In in Hin as [?%list_elem_of_In _].
  - intros e s1 t1 E1 Hd1 H1 _. apply wp_bind. eapply (forget_wp k None (λ _, False)); [by apply (lc_ok_at k)|]. intros f s2 E2 H2 _. apply wp_ret.
    eapply (names_deleted s s2 k t t1); [done|congruence|done|]. intros k' ref id (_ & tk & ob & Etk & Hl)%task_resource_spec. cbn. unfold resident_at.
    rewrite list_elem_of_In, filter_In. split.
    + intros Hs [-> [_ Hf]]. specialize (Hs eq_refl). rewrite Et in Hs. cbn in Hs. destruct (tk_resident t !! id) as [r|]; [|done]. by apply (Hs r eq_refl), Z.eqb_eq.
    + intros Hn -> r Er. rewrite Et in Er. cbn in Er. intros Eb. apply Hn. split; [done|]. split; [|by rewrite Er, Eb, Z.eqb_refl].
      apply list_elem_of_In, live_names_spec. assert (tk = t) as -> by congruence. eauto.
Qed.
Lemma delete_task_names k s : lc_ok s → is_Some (tasks s !! k) →
  wp (delete_task k) s (λ _ s', tasks s' = base.delete k (tasks s)) (λ _ _, False).
Proof. intros H [t Et]. apply delete_task_wp; [done|done|congruence]. Qed.
Lemma names_dropped k s s' op : (∀ ref, task_resource s' k ref = None) → (∀ k', k' ≠ k → tasks s' !! k' = tasks s !! k') →
  (∀ t ref id, survives s op t ref id ↔ t ≠ k) → names_after s op s'.
Proof.
  intros Hk Ho Hsur t ref id. rewrite Hsur. destruct (decide (t = k)) as [->|Hne]; [rewrite Hk; split; [done|by intros []]|].
  unfold task_resource. rewrite Ho by done. split; [done|by intros []].
Qed.
Lemma define_task_names k kernel directory s : lc_ok s →
  wp (define_task k directory) s (λ _ s', names_after s (DefineTask k kernel directory) s') (λ _ _, False).
Proof.
  intros H. assert (∀ m, (∀ k', k' ≠ k → m !! k' = tasks s !! k') → ∀ l, names_after s (DefineTask k kernel directory) (mkLifecycle (<[k := task_new directory]> m) l)) as Hn.
  { intros m Hm l. apply (names_dropped k); [|intros; cbn; rewrite lookup_insert_ne by done; by apply Hm|done].
    intros ref. unfold task_resource. cbn. by rewrite lookup_insert_eq. }
  unfold define_task. apply wp_bind. unfold wp at 1, ask. destruct (tasks s !! k) as [t|] eqn:Et; cbn.
  - apply wp_bind, wp_bind. eapply wp_mono; [apply delete_task_names; [done|by rewrite Et]| |done]. intros e s1 E1. apply wp_ret, wp_bind. cbn.
    apply Hn. intros k' Hne. by rewrite E1, lookup_delete_ne.
  - apply wp_bind. cbn. apply wp_bind. cbn. by apply Hn.
Qed.
Lemma apply_bound op s : lc_ok s → bound_in s op → (needs_task op = true → is_Some (tasks s !! op_task op)) →
  wp (lc_apply op) s (λ _ s', names_after s op s') (λ _ _, False).
Proof.
  intros H Hb Ht. destruct op as [t k d|t|t l|t sl st|t ref r|t sp|t sp|t r b e|t rs|t rs|t rs|t rs|t m b|t ref r k]; cbn [bound_in op_task op_resources needs_task] in Hb, Ht; try done.
  - by apply define_task_names.
  - eapply wp_mono; [apply delete_task_names; [done|by apply Ht]| |done]. intros e s' E. apply (names_dropped t); [| |done].
    + intros ref. unfold task_resource. by rewrite E, lookup_delete_eq.
    + intros k' Hne. by rewrite E, lookup_delete_ne.
  - destruct (Ht eq_refl) as [tk Et]. cbn. unfold bind_object_list. apply wp_bind. unfold wp at 1, the_task. rewrite Et. apply wp_bind. cbn.
    apply names_kept; [|done]. intros t' ref. unfold task_resource. cbn. destruct (decide (t' = t)) as [->|Hne]; [by rewrite lookup_insert_eq, Et|by rewrite lookup_insert_ne].
  - destruct r as [id|]; cbn [lc_apply]; [by apply (delete_resource_applies t ref)|]. apply names_kept; [done|]. intros t' ref' id Hr [-> ->]. congruence.
  - destruct (Ht eq_refl) as [tk Et]. cbn. unfold remap. apply wp_bind. unfold wp at 1, the_task. rewrite Et. by apply names_kept.
  - destruct (Ht eq_refl) as [tk Et]. cbn. unfold remap. apply wp_bind. unfold wp at 1, the_task. rewrite Et. by apply names_kept.
  - eapply list_applies; eauto 6.
  - eapply list_applies; eauto 6.
  - eapply list_applies; eauto 6.
  - eapply list_applies; eauto 6.
  - destruct b as [b|]; cbn [lc_apply]; [by apply delete_backing_applies, Ht|]. by apply names_kept.
  - destruct r as [id|]; cbn [lc_apply]; [by apply (delete_resource_applies t ref)|]. apply names_kept; [done|]. intros t' ref' id Hr [-> ->]. congruence.
Qed.
Lemma denotes_bound_in s mappings p k op : denotes (task_resource s) mappings p k op → bound_in s op.
Proof.
  intros H. pose proof (denotes_bound _ _ _ _ _ H) as Hb. destruct H as [| | | | | | | | |k t n refs rs op _ _ _ Hop]; try done.
  destruct k; cbn in Hop; by simplify_eq.
Qed.

(** C8: the device does to its names what the packet says.  An operation built from a packet's
    bytes, its references resolved by the owner as it stands after any sequence of calls, is
    applied to that owner without a panic.  It is refused exactly when it needs a task the
    owner does not have: a reference that resolved is never found stale.  Afterwards a
    reference of a task resolves exactly as before, unless the packet ended it: by ending its
    task, naming it, or retiring the backing it is on. *)
Theorem packet_operation_applies cs s mappings k p op :
  Forall call_ok cs → lc_run lifecycle_new cs = Some s → Forall is_u8 p → operation (task_resource s) mappings k p = Some (inl op) →
  ∃ r s', lc_apply op s = Some (r, s') ∧
    (∀ e, r = inr e ↔ e = NoSuchTask (op_task op) ∧ tasks s !! op_task op = None ∧ needs_task op = true) ∧
    (∀ t ref id, task_resource s' t ref = Some id ↔ task_resource s t ref = Some id ∧ survives s op t ref id).
Proof.
  intros Hcs Es Hp Eop. destruct (lc_run_ok cs _ lifecycle_new_ok Hcs) as (s0 & Es0 & H). assert (s0 = s) as -> by congruence.
  destruct (operation_join (task_resource s) mappings p k Hp) as (x & Ex & Hx). assert (bound_in s op) as Hb by (eapply denotes_bound_in, Hx; congruence).
  destruct (decide (needs_task op = true ∧ tasks s !! op_task op = None)) as [[Hn Ht]|Hn].
  - exists (inr (NoSuchTask (op_task op))), s. split; [by apply no_task_refused|]. split; [|by apply no_task_names].
    intros e. split; [by intros [= <-]|by intros [-> _]].
  - assert (needs_task op = true → is_Some (tasks s !! op_task op)) as Ht.
    { intros Hneed. apply not_eq_None_Some. intros Enone. by apply Hn. }
    pose proof (apply_bound op s H Hb Ht) as Hw. unfold wp in Hw. destruct (lc_apply op s) as [[[e|e] s']|]; [|done|done].
    exists (inl e), s'. split; [done|]. split; [|exact Hw]. intros e'. split; [done|]. intros (_ & ? & ?). by destruct Hn.
Qed.

(** A synchronise and discard of two names of task 7, which another task does not have. *)
Definition demo_objects (task ref : Z) : option ResourceId := if task =? 7 then Some (mkResourceId ref 1) else None.
Definition demo_packet (task : Z) : list Z := le4 task ++ le4 2 ++ le4 100 ++ le4 101 ++ [9].
Lemma packet_operation_exact_witness :
  Forall is_u8 (demo_packet 7) ∧
  operation demo_objects (λ _, None) LkSynchronizeAndDiscard (demo_packet 7) = Some (inl (SynchronizeAndDiscard 7 [mkResourceId 100 1; mkResourceId 101 1])) ∧
  operation demo_objects (λ _, None) LkSynchronizeAndDiscard (demo_packet 8) = Some (inr (UnknownRef 100)) ∧
  task_named LkSynchronizeAndDiscard (demo_packet 7) = Some (inl 7).
Proof.
  assert (Forall is_u8 (demo_packet 7)) as Hp by decide_done.
  destruct (packet_operation_exact demo_objects (λ _, None) LkSynchronizeAndDiscard (demo_packet 7) Hp) as (_ & _ & H & _).
  split; [done|]. split; [vm_compute; reflexivity|]. split; [vm_compute; reflexivity|].
  exact (proj1 (proj2 (H (SynchronizeAndDiscard 7 [mkResourceId 100 1; mkResourceId 101 1]) ltac:(vm_compute; reflexivity)))).
Defined.

(** Deleting what task 1 has in slot 3; task 2 keeps its own name on the same surface. *)
Definition demo_owner : Lifecycle := state_of (lc_run lifecycle_new demo_lifecycle).
Definition demo_delete : list Z := le4 1 ++ le4 3.
Lemma packet_operation_applies_witness : ∃ e s',
  operation (task_resource demo_owner) (λ _, None) LkDeleteResource demo_delete = Some (inl (DeleteResource 1 3 (Some (mkResourceId 3 1)))) ∧
  lc_apply (DeleteResource 1 3 (Some (mkResourceId 3 1))) demo_owner = Some (inl e, s') ∧
  task_resource demo_owner 1 3 = Some (mkResourceId 3 1) ∧ task_resource s' 1 3 = None ∧ task_resource s' 2 9 = Some (mkResourceId 9 1).
Proof.
  assert (Forall call_ok demo_lifecycle) as Hok by (repeat constructor; cbn; unfold UINT64_MAX; lia).
  assert (Forall is_u8 demo_delete) as Hp by decide_done.
  assert (operation (task_resource demo_owner) (λ _, None) LkDeleteResource demo_delete = Some (inl (DeleteResource 1 3 (Some (mkResourceId 3 1))))) as Eop
    by (vm_compute; reflexivity).
  assert (lc_run lifecycle_new demo_lifecycle = Some demo_owner) as Er by (vm_compute; reflexivity).
  destruct (packet_operation_applies demo_lifecycle demo_owner (λ _, None) LkDeleteResource demo_delete _ Hok Er Hp Eop)
    as ([e|e] & s' & Ea & He & Hn).
  - exists e, s'. split; [exact Eop|]. split; [exact Ea|]. split; [vm_compute; reflexivity|]. split.
    + apply eq_None_not_Some. intros [id [_ Hs]%Hn]. apply Hs. split; reflexivity.
    + apply Hn. split; [vm_compute; reflexivity|]. intros [E _]. discriminate E.
  - exfalso. destruct (proj1 (He e) eq_refl) as (_ & Ht & _). vm_compute in Ht. discriminate Ht.
Defined.

(** ** Accesses *)
(** A payload is accepted exactly when its accesses are for the resources the operation names,
    if it names any. *)
Lemma payload_new_exact op resolved : payload_new op resolved = inl (mkLifecyclePayload op (snd <$> resolved)) ↔
  op_resources op = [] ∨ ∀ r, r ∈ op_resources op ↔ r ∈ resolved.*1.
Proof.
  unfold payload_new. destruct (op_resources op) as [|r0 rs0] eqn:Er; [by split; [left|]|]. set (rs := r0 :: rs0) in *. assert (rs ≠ []) as Hne by done. clearbody rs.
  destruct (List.find (λ x : ResourceId * AccessIntent, _) resolved) as [x|] eqn:E1.
  { apply find_some in E1 as [Hin Hx%negb_true_iff%bool_decide_eq_false]. split; [done|]. intros [?|Hr]; [done|]. destruct Hx. apply Hr, list_elem_of_fmap.
    exists x. by rewrite list_elem_of_In. }
  destruct (List.find (λ r, _) rs) as [r|] eqn:E2.
  { apply find_some in E2 as [Hin Hx%negb_true_iff]. split; [done|]. intros [?|Hr]; [done|]. apply list_elem_of_In, Hr, list_elem_of_fmap in Hin as (x & -> & Hin).
    assert (existsb (λ y : ResourceId * AccessIntent, bool_decide (y.1 = x.1)) resolved = true); [|congruence].
    apply existsb_exists. exists x. by rewrite <- list_elem_of_In, bool_decide_eq_true. }
  split; [|done]. intros _. right. intros r. rewrite list_elem_of_fmap. split.
  - intros Hin%list_elem_of_In. pose proof (find_none _ _ E2 r Hin) as Hx. apply negb_false_iff, existsb_exists in Hx as (x & Hx & <-%bool_decide_eq_true).
    exists x. by rewrite list_elem_of_In.
  - intros (x & -> & Hin%list_elem_of_In). pose proof (find_none _ _ E1 x Hin) as Hx. by apply negb_false_iff, bool_decide_eq_true in Hx.
Qed.
(** An operation that names resources says how it touches them. *)
Lemma named_declares op : op_resources op ≠ [] → is_Some (declared_access op).
Proof. by destruct op. Qed.
(** The converse fails: the delete of a reference that resolved to nothing declares an access
    and names no resource it could be for. *)
Lemma access_without_resources :
  operation (task_resource demo_owner) (λ _, None) LkDeleteResource (le4 1 ++ le4 77) = Some (inl (DeleteResource 1 77 None)) ∧
  op_resources (DeleteResource 1 77 None) = [] ∧ declared_access (DeleteResource 1 77 None) = Some Unknown.
Proof. split_and!; vm_compute; reflexivity. Qed.
